(* ===== verification/_CoqProject ===== *)
-Q . S2P
Prelude.v
Hlc.v
Counters.v
Register.v
VectorClock.v
OrSet.v
Sha256.v
Merkle.v
GoFmt.v
GoFloat.v
DeltaNet.v
DeltaCrdt.v
Btree.v
Mvcc.v
Voting.v
FailConfirm.v
HashSlot.v
SlotMigration.v
SwimMember.v
Swim.v
Heap.v
SchedQueue.v
Scheduler.v
SchedSpec.v
Backfill.v
Porcupine.v
WatchManager.v
WsEnvelope.v
WsFrame.v
Backoff.v
WorkQueue.v
ClassAds.v
ClassAdsGrammar.v
ClassAdsEval.v
ClassAdMatch.v
Idempotent.v
PriorityQueue.v
Rebalance.v
AntiEntropy.v
AeMerkle.v
MultiRaft.v
MultiRaftManager.v
MultiRaftLease.v
FlowControl.v
TieredCache.v
Informer.v
TraceContext.v
SwimTopology.v
SwimSuspicion.v
SuspicionRace.v
Avro.v
AvroEvents.v
SessionCrdt.v
SessionManager.v
SessionMigration.v
KraftMetadata.v
Kraft.v
Stonith.v
StonithSbd.v
FedTopology.v
FedGraph.v
FedTopologySpec.v
