(* ===== verification/Prelude.v ===== *)
(** * Helix Cluster OS: a verification of its distributed-systems foundation

    The repository is a Go code base for a cluster operating system.  This library
    models the packages that its correctness rests on, as functions and step relations
    translated from the Go sources, and proves what each of them promises.

    ** The program's parts and the files that model them

    - Time.  [Hlc] is [pkg/hlc/package.go]: hybrid logical clock timestamps, their wire
      format, and the clock's [Now] and [Update] with the drift clamp.
    - Replicated data.  [Counters], [Register], [OrSet] and [VectorClock] are
      [pkg/crdt/crdt.go] and the vector clocks beside it; [Merkle] is
      [pkg/crdt/merkle], on [Sha256] (FIPS 180-4, the Go library's hash).  [DeltaCrdt]
      is [pkg/deltacrdt], on [GoFmt] (the verbs of [fmt] its tags and digests use) and
      [DeltaNet], a network that loses, delays, reorders and repeats deltas.
      [AntiEntropy] and [AeMerkle] are [pkg/antientropy/antientropy.go] and [merkle.go]:
      hinted hand-off, read repair and the trees that find what replicas disagree on.
    - Consensus.  [MultiRaft] is [pkg/multiraft/multiraft.go] up to its shards, the driver
      of an external Raft engine (class [Raft]); [MultiRaftManager] is the rest of it with
      [transport.go] and [lease.go], and [MultiRaftLease] cuts the calls that lease reads
      depend on where they release a lock.  [KraftMetadata] and [Kraft] are [pkg/kraft], a Raft
      group of its own whose log is the messaging metadata, above the same class.
    - Storage.  [Btree] is [pkg/mvcc/btree.go], the ordered index, and [Mvcc] the
      multi-version store above it (put, get at a revision, range, watch, compact).
    - Quorums.  [Voting] is [pkg/voting], leadership under partitions with tie-breaks;
      [FailConfirm] is [pkg/failconfirm], confirmation of failures by peer reports.
    - Fencing.  [Stonith] is [pkg/stonith], the agents that power a node off and the chain
      of them (one class per backend); [StonithSbd] its mailbox file and power controllers.
    - Federation.  [FedTopology] is [pkg/fedtopology], patterns of links between cells and
      their checks; [FedGraph] and [FedTopologySpec] are the proofs about them.
    - Slots.  [HashSlot] is [pkg/hashslot], CRC16 slots, hash tags and MOVED/ASK
      redirection; [SlotMigration] is [pkg/slotmigration], the four-phase hand-over of
      a slot from one node to another.  [Rebalance] is [pkg/rebalance], the assignment of
      partitions to the members of a group.
    - Membership.  [SwimMember] is [pkg/swim/member.go], [gossip.go] and
      [failure_detector.go]; [Swim] is [pkg/swim/protocol.go], the handlers of the
      SWIM gossip protocol, which call the former.  [SwimTopology] is [hierarchical.go],
      gossip by groups and delegates; [SwimSuspicion] is [suspicion.go] on the manual clock
      of [clock.go], and [SuspicionRace] the same operations in several goroutines.
    - Scheduling.  [SchedQueue] is [pkg/scheduler/types.go] and [queue.go], the job
      queue on the binary heap of [Heap] (Go's [container/heap]); [Scheduler] is
      [scheduler.go], [plugins.go] and [gang_preempt.go]; [SchedSpec] holds the proofs
      about it.  [Backfill] is [pkg/backfill], conservative backfilling on a timeline of
      reservations.
    - Expressions.  [ClassAds] is [pkg/classads/parser.go], [ClassAdsGrammar] the grammar
      it is proved to implement, [ClassAdsEval] is [eval.go] with its semantics, and
      [ClassAdMatch] is [pkg/scheduler/classad_match.go] and [classad_named_plugins.go],
      the plugins that bring the expressions into the scheduler.
    - Queues and watches.  [WorkQueue] is [pkg/workqueue], the deduplicating work queue of
      the controllers, on [Backoff], [pkg/backoff]; [PriorityQueue] is
      [pkg/priorityqueue], a queue ordered by age, share, size and class; [Idempotent] is
      [pkg/idempotent], a broker for producers that send again; [WatchManager] is
      [pkg/watchmanager], watchers of key prefixes that catch up after falling behind;
      [Informer] is [pkg/informer], the indexed cache that tells its handlers of changes.
    - Admission and caching.  [FlowControl] is [pkg/flowcontrol], priority levels with fair
      queues; [TieredCache] is [pkg/tieredcache], three tiers of which callers supply two
      (class [Tier]).
    - Wire formats.  [WsEnvelope] and [WsFrame] are [pkg/websocket/envelope.go] and
      [frame.go]: MessagePack envelopes inside WebSocket messages.  [TraceContext] is
      [pkg/tracing/w3c.go].  [Avro] is [pkg/events/avro.go], the codec with schema
      resolution, and [AvroEvents] the typed events above it ([avro_wire.go],
      [avro_event_schemas.go], [avro_event_wire.go], [helix_events.go],
      [nats_backend.go]).
    - Sessions.  [SessionManager] is [pkg/session/manager.go], [lifecycle.go] and
      [types.go], the table of terminal sessions above a terminal backend (class
      [TmuxBackend]); [SessionCrdt] is [crdt.go] and [convergence.go], the state of a
      session as it is replicated; [SessionMigration] is [migration.go], the strategies
      that carry a session to another node.
    - Checking.  [Porcupine] is [pkg/porcupine], the linearizability checker and the
      recorder of histories that feeds it.
    - [Prelude] holds what they share: machine integers with their wrap-around,
      big-endian bytes, Go strings in byte order, Go maps and ranging over them, loops
      with early return, state-based convergence as a type class, a reader monad over
      bytes, and automation.  [GoFloat] is [float64]: arithmetic, conversions, [math.Pow],
      [strconv.ParseFloat] and the text of a number.

    ** How code becomes definitions

    A Go method [T.Method] is the definition [T_Method], with the receiver as an
    argument and its new value in the result.  Go integers are [Z], reduced to their
    width where the code computes; slices are lists; maps are [gmap], read with the
    zero value where absent; [float64] is the Standard Library's model of IEEE 754.
    Errors are the left side of a sum, or a constructor of an error type.  Where Go
    would panic on an index, a definition is an [option], and the theorems show that
    it does not happen.  A lock is the atomicity of the operation that takes it: a
    history is a list of operations in any order.  The order in which Go ranges over a
    map is either shown not to matter ([range_fold_order] and its corollaries) or an
    argument.  What the environment provides is an argument too: the wall clock, the
    choice of a random permutation, address resolution, Unicode case folding, failing calls of the file system and the
    printable characters of Unicode, regular-expression matching, and the result of
    converting a float beyond the range of [int64], which Go leaves to the processor.
    A condition variable is the numbers of its sleeping and its signalled goroutines.
    What the code shares by pointer (replicas, shards, lease trackers, suspicion entries,
    schema registries, sessions with their maps and slices) lives in a store.  An operation that gives up its lock half-way is
    split there, and theorems about goroutines hold for every interleaving of the pieces
    ([Informer], [SuspicionRace], [WorkQueue], [MultiRaftLease]).  Code of other modules is a class or an
    argument: the Raft engine and its storage, the backing tiers of the cache, the prober
    of suspicions, the message bus, the backends of the fencing agents, the terminal backend, JSON, gob.

    ** What the theorems show

    - Clocks: every timestamp a clock emits exceeds all it emitted before and, within
      the drift bound, all it received, up to the ceiling of the format; drift is
      bounded by the clamp; encodings round-trip, and their byte order is timestamp
      order as far as the sign bit allows.
    - Data types: replicas that saw the same updates agree, under any order, loss and
      repetition of messages; counters count each update once, the last write wins,
      adds win over concurrent removes, vector clocks decide causality, and a Merkle
      comparison finds exactly the keys that differ, for a hash that keeps the inputs of the
      trees apart.  A replica without pending hints holds the newest write of every key.
    - Consensus: a batch of the Raft engine is persisted before its messages leave and its
      entries are applied, and the next one is taken only when it was finished, however
      storage fails; a lease is granted only to a node that was found to be the leader, and,
      unless that node was stopped before the grant was recorded, an undisturbed read is
      served by the live holder of an unexpired lease.  Where
      the engine gives the members of the metadata quorum one log, they agree on topics and
      leaders as far as they have committed it, and never lose any.
    - Storage: the B-tree refines a sorted association list and stays balanced; a read
      at a revision sees the last write up to it; compaction loses nothing above its
      revision.
    - Quorums: two deciders of one cluster with disjoint views never both lead, and
      one of two halves does; a failure is confirmed exactly by a majority of fresh
      reports.
    - Fencing: a node is reported as fenced exactly when a backend accepted the command and
      then answered that this node is off; the mailbox changes as a whole or not at all, and
      only in the slot of the target.
    - Federation: every pattern that is built is the graph it promises and, but for a ring of
      two cells, passes its check.
    - Slots: the table-driven CRC is the bit-serial one; routing follows the history
      of assignments; a slot always has exactly one owner and, unless it is seeded
      again in flight, changes hands only at the commit, after exactly its budget of ticks.  A rebalanced assignment is exact and
      balanced, and no other such assignment moves fewer partitions.
    - Membership: rumours about a known member converge to the largest status, a node stays alive in its
      own table, and a refutation is heard exactly when its incarnation exceeds that
      of the suspicion.  On the manual clock the suspicion manager is a table of
      deadlines; among goroutines every suspicion is settled once.  With enough fan-out
      the hierarchy connects any two members in three hops.
    - Scheduling: the queue is a priority queue that is first-in first-out within a
      priority; no node is ever overcommitted; jobs go to the best node; gangs are
      placed all or nothing; preemption evicts lower priorities only.  A backfilled plan
      never exceeds a capacity below [2^62], its windows are the jobs' wall times, and every job gets the earliest start that fits.
    - Expressions: the parser accepts exactly the texts the grammar derives, with their
      trees, and always ends; evaluation is the big-step semantics within its depth limit
      and, on boolean, float64 and string attributes, well typed; a job placed by the scheduler satisfies its requirements.
    - Queues and watches: no request to the work queue is lost, a key is held by one
      worker at a time, and without deferred adds no sleeping worker misses a key;
      popping the priority queue empty is sorting it; the broker commits each message of
      a producer exactly once and in order; a watcher is sent exactly the events it wants from
      its start, which may be at most the next revision, once each and in order, and catches up; the indexes of an informer say what a scan of
      its cache says, and without resyncs a handler can rebuild the cache from its calls.
    - Admission and caching: no level exceeds its seats, no request is lost or started
      twice, no seat is idle while a request waits, and flows that wait are served in turn;
      the cache returns what was last stored, whichever tier it comes from.
    - Wire formats: envelopes and frames round-trip; a message sent in fragments between
      control frames is delivered whole; reading ends on every input.  A trace context is
      extracted as it was injected.  What one Avro schema writes another reads, field by
      field or with defaults, and nothing cut off or longer is accepted; typed events
      reach exactly the subscribers of their family.
    - Sessions: the manager is a table of sessions that only its own calls change, whatever
      callers write into the copies they were given or hand in (the session that comes with
      the error of a refused creation is no copy); replicas of a session that
      saw the same updates agree on every window and pane; a migration is reported as
      successful exactly when a strategy could be planned and each of its stages worked.
    - Checking: the checker accepts a history if and only if it is linearizable.

    Several theorems are as strong as the code allows and no stronger: the hypotheses
    they need (no forged leave, no reseeding of a slot in flight, no rescheduling of a
    running job, no stale LWW put, no completion of a key that is not held, no new flows
    while others wait, no failing write to the cold tier, no failing creation whose session
    is then written to, no fencing target with a newline or an equals sign in its name) mark behaviours that the
    examples beside them show.

    ** Bounds and fuel

    Recursion that is not structural runs on fuel that the definitions compute
    themselves: the height of a B-tree for its descents, the length of a heap for its
    sifting, the distance to the end for a binary search, the number of operations for
    the linearizability search, the length of the remaining input for the loops of the
    parser and of the frame reader, the number of waiting requests for the dispatch loop,
    the number of cells for the searches of a graph, the length of the list for evictions, twice the number of partitions for rebalancing.
    The loops that drain the Raft engine are the exception: how long they run is up to the
    engine, and what is observed of a node or member is observed under the lock they hold.
    The other theorems hold without any fuel hypothesis, and
    that the parser and the reader never run out is stated, so the fuel is enough; the
    recursion of the expression parser is bounded by the code's own depth limit.  Counters that wrap at
    their width are theorems' hypotheses where a history could exceed them (fewer than
    [2^63] or [2^64] updates).

    ** What is not modelled

    Goroutine loops that only call modelled steps on a ticker; sockets, processes, files (but for the fencing mailbox),
    external services and their clients, and generated code ([api/v1]).  Within the modelled
    packages: the simulated network, prober and phi-accrual detector of [pkg/swim] (the
    last is a formula over [math.Erfc] and [math.Log10]); the scheduler's other
    extension plugins (cost, thermal, tier and attestation policies); the WebSocket
    handshake over HTTP; JSON on the event bus; the gob encoding of session checkpoints and
    the adapter from the session manager to tmux.  The remaining packages are outside the
    development: most of them wrap external systems (wireguard, GPU and device probing,
    container and terminal backends, cloud providers, NATS, etcd, QUIC and WebRTC), score
    with floating-point formulas, or are test harnesses and command-line programs around
    the packages above.  The manifest lists every one of them with its reason. *)

From stdpp Require Export base gmap strings list fin_maps sorting.
From Stdlib Require Export ZArith Lia.

(** ** Automation *)

Create HintDb helix.
Create Rewrite HintDb helix_rw.

(** Case analysis on every [decide]/[bool_decide]/[match] of the goal, closing
    the branches arithmetic refutes. *)
Ltac split_ifs := repeat (case_decide || case_bool_decide || case_match); simplify_eq/=; try lia.

(** ** Machine integers

    A Go integer is a [Z]; [u16], [u32], [u64] and [i64] are the conversions
    that Go's arithmetic applies to every result. *)
Section machine_integers.
Local Open Scope Z_scope.

Definition MaxUint16 : Z := 65535.
Definition MaxUint32 : Z := 4294967295.
Definition MaxUint64 : Z := 18446744073709551615.
Definition MaxInt64 : Z := 9223372036854775807.
Definition MinInt64 : Z := -9223372036854775808.

Definition u8 (z : Z) : Z := z mod 256.
Definition u16 (z : Z) : Z := z mod 65536.
Definition u32 (z : Z) : Z := z mod 4294967296.
Definition u64 (z : Z) : Z := z mod 18446744073709551616.
Definition i64 (z : Z) : Z := (z + 9223372036854775808) mod 18446744073709551616 - 9223372036854775808.

Definition is_u8 (z : Z) : Prop := 0 <= z < 256.
Definition is_u16 (z : Z) : Prop := 0 <= z <= MaxUint16.
Definition is_u32 (z : Z) : Prop := 0 <= z <= MaxUint32.
Definition is_u64 (z : Z) : Prop := 0 <= z <= MaxUint64.
Definition is_i64 (z : Z) : Prop := MinInt64 <= z <= MaxInt64.

Lemma u32_id z : is_u32 z -> u32 z = z.
Proof. unfold is_u32, u32, MaxUint32. intros. apply Z.mod_small. lia. Qed.
Lemma u64_id z : is_u64 z -> u64 z = z.
Proof. unfold is_u64, u64, MaxUint64. intros. apply Z.mod_small. lia. Qed.
Lemma i64_id z : is_i64 z -> i64 z = z.
Proof. unfold is_i64, i64, MaxInt64, MinInt64. intros. rewrite Z.mod_small; lia. Qed.
Lemma u16_range z : is_u16 (u16 z).
Proof. unfold is_u16, u16, MaxUint16. pose proof (Z.mod_pos_bound z 65536). lia. Qed.
Lemma u32_range z : is_u32 (u32 z).
Proof. unfold is_u32, u32, MaxUint32. pose proof (Z.mod_pos_bound z 4294967296). lia. Qed.
Lemma u64_range z : is_u64 (u64 z).
Proof. unfold is_u64, u64, MaxUint64. pose proof (Z.mod_pos_bound z 18446744073709551616). lia. Qed.
Lemma i64_range z : is_i64 (i64 z).
Proof.
  unfold is_i64, i64, MaxInt64, MinInt64.
  pose proof (Z.mod_pos_bound (z + 9223372036854775808) 18446744073709551616). lia.
Qed.

(** Reinterpreting an [int64] as [uint64] and back loses nothing. *)
Lemma i64_u64 z : is_i64 z -> i64 (u64 z) = z.
Proof.
  unfold is_i64, i64, u64, MaxInt64, MinInt64. intros.
  rewrite Zplus_mod_idemp_l, Z.mod_small; lia.
Qed.

(** [i64] depends only on the residue, and preserves it. *)
Lemma i64_residue z : u64 (i64 z) = u64 z.
Proof.
  unfold u64, i64. rewrite Zminus_mod_idemp_l. f_equal. lia.
Qed.
Lemma i64_congr a b : u64 a = u64 b -> i64 a = i64 b.
Proof.
  unfold u64, i64. intros H. rewrite <- (Zplus_mod_idemp_l a), <- (Zplus_mod_idemp_l b). by rewrite H.
Qed.
Lemma i64_sub a b : i64 (i64 (u64 a) - i64 (u64 b)) = i64 (a - b).
Proof.
  apply i64_congr. unfold u64 at 1 4. rewrite Zminus_mod. fold (u64 (i64 (u64 a))) (u64 (i64 (u64 b))).
  rewrite !i64_residue. unfold u64. rewrite !Zmod_mod. by rewrite <- Zminus_mod.
Qed.

Lemma u64_add_l a b : u64 (u64 a + b) = u64 (a + b).
Proof. unfold u64. by rewrite Zplus_mod_idemp_l. Qed.
Lemma u64_add_r a b : u64 (a + u64 b) = u64 (a + b).
Proof. unfold u64. by rewrite Zplus_mod_idemp_r. Qed.

(** Intermediate wrap-arounds do not change the final one. *)
Lemma i64_add_l a b : i64 (i64 a + b) = i64 (a + b).
Proof. apply i64_congr. rewrite <- u64_add_l, i64_residue, u64_add_l. done. Qed.
Lemma i64_add_r a b : i64 (a + i64 b) = i64 (a + b).
Proof. by rewrite Z.add_comm, i64_add_l, Z.add_comm. Qed.
Lemma i64_sub_l a b : i64 (i64 a - b) = i64 (a - b).
Proof. apply (i64_add_l a (- b)). Qed.
Lemma i64_sub_r a b : i64 (a - i64 b) = i64 (a - b).
Proof. apply i64_congr. unfold u64. rewrite <- Zminus_mod_idemp_r. fold (u64 (i64 b)). rewrite i64_residue. unfold u64. apply Zminus_mod_idemp_r. Qed.
Lemma i64_mul_r a b : i64 (a * i64 b) = i64 (a * b).
Proof. apply i64_congr. unfold u64. rewrite <- Zmult_mod_idemp_r. fold (u64 (i64 b)). rewrite i64_residue. unfold u64. apply Zmult_mod_idemp_r. Qed.

Lemma u64_i64 z : is_u64 z -> u64 (i64 z) = z.
Proof.
  unfold is_u64, i64, u64, MaxUint64. intros.
  destruct (decide (z < 9223372036854775808)).
  - rewrite (Z.mod_small (z + _)) by lia. rewrite Z.mod_small; lia.
  - rewrite <- (Z.mod_unique_pos (z + 9223372036854775808) 18446744073709551616 1 (z - 9223372036854775808)) by lia.
    symmetry. apply (Z.mod_unique_pos _ _ (-1)); lia.
Qed.

End machine_integers.

#[export] Hint Unfold is_u8 is_u16 is_u32 is_u64 is_i64 MaxUint16 MaxUint32 MaxUint64 MaxInt64 MinInt64 : helix.
#[export] Hint Resolve u16_range u32_range u64_range i64_range : helix.

(** Unfold the range predicates and finish with [lia]. *)
Ltac int_lia := autounfold with helix in *; lia.

(** Side conditions of a theorem applied to concrete data: range conditions by
    [lia], decidable ones by evaluation. *)
Ltac by_eval := match goal with |- ?P => apply (@bool_decide_unpack P _); vm_compute; exact I end.
Ltac concrete :=
  repeat match goal with |- Forall _ _ => constructor end;
  vm_compute; repeat match goal with |- _ /\ _ => split end;
  first [exact I | reflexivity | discriminate].

(** ** Big-endian byte strings ([encoding/binary.BigEndian]) *)
Section big_endian.
Local Open Scope Z_scope.

(** The [n] big-endian bytes of [z], and their value. *)
Fixpoint be_encode (n : nat) (z : Z) : list Z :=
  match n with
  | O => []
  | S n' => be_encode n' (z / 256) ++ [z mod 256]
  end.

Definition be_decode (bs : list Z) : Z := foldl (fun acc b => acc * 256 + b) 0 bs.

Lemma be_encode_length n z : length (be_encode n z) = n.
Proof. revert z. induction n as [|n IH]; intros z; simpl; [done|]. rewrite length_app, IH. simpl. lia. Qed.

Lemma be_decode_snoc bs b : be_decode (bs ++ [b]) = be_decode bs * 256 + b.
Proof. unfold be_decode. by rewrite foldl_app. Qed.

Lemma be_decode_encode n z : be_decode (be_encode n z) = z mod 256 ^ Z.of_nat n.
Proof.
  revert z. induction n as [|n IH]; intros z; [by rewrite Z.mod_1_r|].
  cbn [be_encode]. rewrite be_decode_snoc, IH.
  replace (Z.of_nat (S n)) with (Z.of_nat n + 1) by lia.
  rewrite Z.pow_add_r, Z.pow_1_r by lia.
  rewrite (Z.mul_comm (256 ^ _) 256), Z.rem_mul_r; [lia|lia|]. apply Z.pow_pos_nonneg; lia.
Qed.

Lemma be_encode_bytes n z : Forall is_u8 (be_encode n z).
Proof.
  revert z. induction n as [|n IH]; intros z; simpl; [constructor|].
  apply Forall_app; split; [apply IH|]. constructor; [|constructor].
  unfold is_u8. pose proof (Z.mod_pos_bound z 256). lia.
Qed.

Lemma be_encode_decode bs : Forall is_u8 bs -> be_encode (length bs) (be_decode bs) = bs.
Proof.
  induction bs as [|b bs IH] using rev_ind; intros Hb; [done|].
  apply Forall_app in Hb as [Hbs Hb]. apply Forall_cons in Hb as [Hb _].
  rewrite length_app; simpl. rewrite Nat.add_1_r; simpl.
  rewrite be_decode_snoc. unfold is_u8 in Hb.
  rewrite Z.div_add_l, (Z.div_small b), Z.add_0_r by lia.
  rewrite Z.add_comm, Z.mod_add, Z.mod_small by lia. by rewrite IH.
Qed.

Lemma be_decode_range bs : Forall is_u8 bs -> 0 <= be_decode bs < 256 ^ Z.of_nat (length bs).
Proof.
  intros Hb. rewrite <- (be_encode_decode bs Hb) at 1 2. rewrite be_decode_encode.
  apply Z.mod_pos_bound, Z.pow_pos_nonneg; lia.
Qed.

(** Equal-width encodings of in-range values are equal only for equal values. *)
Lemma be_encode_inj n z z' :
  0 <= z < 256 ^ Z.of_nat n -> 0 <= z' < 256 ^ Z.of_nat n ->
  be_encode n z = be_encode n z' -> z = z'.
Proof.
  intros Hz Hz' Heq. apply (f_equal be_decode) in Heq.
  rewrite !be_decode_encode, !Z.mod_small in Heq by done. done.
Qed.

(** Lexicographic comparison of byte strings ([bytes.Compare]). *)
Fixpoint bytes_ltb (a b : list Z) : bool :=
  match a, b with
  | _, [] => false
  | [], _ :: _ => true
  | x :: a', y :: b' => if decide (x < y) then true else if decide (y < x) then false else bytes_ltb a' b'
  end.

Lemma bytes_ltb_app_eq p a b : bytes_ltb (p ++ a) (p ++ b) = bytes_ltb a b.
Proof. induction p as [|x p IH]; simpl; [done|]. split_ifs. apply IH. Qed.

Lemma bytes_ltb_app_ne p q a b :
  length p = length q -> p <> q -> bytes_ltb (p ++ a) (q ++ b) = bytes_ltb p q.
Proof.
  revert q. induction p as [|x p IH]; intros [|y q] Hlen Hne; simplify_eq/=.
  split_ifs. assert (x = y) as -> by lia. apply IH; [done|congruence].
Qed.

(** Big-endian encoding is monotone: byte order is numeric order. *)
Lemma bytes_ltb_be_encode n z z' :
  0 <= z < 256 ^ Z.of_nat n -> 0 <= z' < 256 ^ Z.of_nat n ->
  bytes_ltb (be_encode n z) (be_encode n z') = bool_decide (z < z').
Proof.
  revert z z'. induction n as [|n IH]; intros z z' Hz Hz'.
  { cbn in *. case_bool_decide; [lia|done]. }
  replace (Z.of_nat (S n)) with (Z.of_nat n + 1) in Hz, Hz' by lia.
  rewrite Z.pow_add_r, Z.pow_1_r in Hz, Hz' by lia. cbn [be_encode].
  assert (0 <= z / 256 < 256 ^ Z.of_nat n) by (split; [apply Z.div_pos; lia | apply Z.div_lt_upper_bound; lia]).
  assert (0 <= z' / 256 < 256 ^ Z.of_nat n) by (split; [apply Z.div_pos; lia | apply Z.div_lt_upper_bound; lia]).
  pose proof (Z.div_mod z 256). pose proof (Z.div_mod z' 256).
  pose proof (Z.mod_pos_bound z 256). pose proof (Z.mod_pos_bound z' 256).
  destruct (decide (z / 256 = z' / 256)) as [Heq|Hne].
  - rewrite Heq, bytes_ltb_app_eq. simpl. split_ifs; (case_bool_decide || idtac); lia || done.
  - rewrite bytes_ltb_app_ne.
    + rewrite IH by done. repeat case_bool_decide; lia || done.
    + by rewrite !be_encode_length.
    + intros Heq. apply Hne. by eapply be_encode_inj.
Qed.

End big_endian.

(** ** Go strings

    Go compares strings bytewise; [String.leb] of the Standard Library is that
    order, and [slt] is Go's [<] on strings. *)
Section strings.

Definition slt (a b : string) : Prop := String.le a b /\ a <> b.

#[global] Instance slt_dec a b : Decision (slt a b).
Proof. unfold slt. apply _. Defined.

#[global] Instance slt_strict : StrictOrder slt.
Proof.
  split.
  - intros a [_ H]. congruence.
  - intros a b c [Hab Hne] [Hbc Hne']. split; [by etrans|].
    intros ->. apply Hne. by apply (anti_symm String.le).
Qed.

Lemma slt_trichotomy a b : slt a b \/ a = b \/ slt b a.
Proof.
  unfold slt. destruct (decide (a = b)) as [->|Hne]; [auto|].
  destruct (total String.le a b); [left|right; right]; auto.
Qed.

Lemma slt_not_le a b : ¬ slt a b <-> String.le b a.
Proof.
  unfold slt. split.
  - intros H. destruct (total String.le b a); [done|].
    destruct (decide (a = b)) as [->|]; [done|]. exfalso; auto.
  - intros H [H1 H2]. apply H2. by apply (anti_symm String.le).
Qed.

Lemma slt_asym a b : slt a b -> slt b a -> False.
Proof. intros H1 H2. by apply (irreflexivity slt a); etrans. Qed.

(** [sort.Strings] *)
Lemma slt_cotrans a b c : slt a b -> slt a c \/ slt c b.
Proof.
  intros Hab. destruct (slt_trichotomy a c) as [|[->|Hca]]; [by left|by right|]. right. by etrans.
Qed.

Definition sort_strings (l : list string) : list string := merge_sort String.le l.

Lemma sort_strings_perm l : sort_strings l ≡ₚ l.
Proof. apply merge_sort_Permutation. Qed.

Lemma sort_strings_sorted l : StronglySorted String.le (sort_strings l).
Proof. apply StronglySorted_merge_sort; apply _. Qed.

(** Sorting forgets the order of its input, so the order in which Go ranges
    over a map before a [sort.Strings] is invisible. *)
Lemma sort_strings_proper l l' : l ≡ₚ l' -> sort_strings l = sort_strings l'.
Proof.
  intros Hp. eapply (StronglySorted_unique String.le); try apply sort_strings_sorted.
  by rewrite !sort_strings_perm.
Qed.

End strings.

#[export] Hint Resolve slt_asym : helix.

(** ** Go maps

    A Go map with comparable keys is a [gmap]; reading an absent key gives the
    zero value of the element type. *)
Definition zget {K} `{Countable K} (m : gmap K Z) (k : K) : Z := default 0%Z (m !! k).
Definition sget {K} `{Countable K} {A} `{Countable A} (m : gmap K (gset A)) (k : K) : gset A := default ∅ (m !! k).

Section go_maps.
Context {K : Type} `{Countable K}.
Implicit Types m : gmap K Z.

Lemma zget_insert_eq m k v : zget (<[k:=v]> m) k = v.
Proof. unfold zget. by rewrite lookup_insert_eq. Qed.
Lemma zget_insert_ne m k j v : k <> j -> zget (<[k:=v]> m) j = zget m j.
Proof. intros. unfold zget. by rewrite lookup_insert_ne. Qed.
Lemma zget_empty k : zget (∅ : gmap K Z) k = 0%Z.
Proof. done. Qed.
Lemma zget_Some m k v : m !! k = Some v -> zget m k = v.
Proof. unfold zget. by intros ->. Qed.

Context {A : Type} `{Countable A}.
Implicit Types s : gmap K (gset A).

Lemma sget_insert_eq s k v : sget (<[k:=v]> s) k = v.
Proof. unfold sget. by rewrite lookup_insert_eq. Qed.
Lemma sget_insert_ne s k j v : k <> j -> sget (<[k:=v]> s) j = sget s j.
Proof. intros. unfold sget. by rewrite lookup_insert_ne. Qed.
Lemma sget_empty k : sget (∅ : gmap K (gset A)) k = ∅.
Proof. done. Qed.
Lemma sget_Some s k v : s !! k = Some v -> sget s k = v.
Proof. unfold sget. by intros ->. Qed.

End go_maps.

#[export] Hint Rewrite @zget_insert_eq @zget_empty @sget_insert_eq : helix_rw.

Lemma StronglySorted_filter {A} (R : relation A) (P : A -> Prop) `{!forall x, Decision (P x)} l :
  StronglySorted R l -> StronglySorted R (filter P l).
Proof.
  induction 1 as [|x l _ IH Hx]; [constructor|]. rewrite filter_cons. case_decide; [|done].
  constructor; [done|]. apply Forall_forall. intros y [_ Hy]%list_elem_of_filter. revert y Hy. by apply Forall_forall.
Qed.

(** Blocks of one nonzero length are recovered from their concatenation. *)
Lemma mjoin_chunks (n : nat) {A} (l l' : list (list A)) :
  n <> 0%nat -> Forall (fun c => length c = n) l -> Forall (fun c => length c = n) l' ->
  mjoin l = mjoin l' -> l = l'.
Proof.
  intros Hn Hl. revert l'. induction Hl as [|c l Hc _ IH]; intros [|c' l'] Hl' Heq; [done| | |].
  - inv Hl'. destruct c'; [cbn in Hn; lia|done].
  - destruct c; [cbn in Hc; lia|done].
  - inv Hl'. cbn in Heq. apply app_inj_1 in Heq as [-> Heq]; [|lia]. f_equal. by apply IH.
Qed.

(** ** Ranging over a Go map

    [for k, v := range m { body }] visits the entries in an unspecified order.
    [range_fold] runs the body over one order; [range_fold_order] shows that a
    body whose iterations commute gives the same result for every order. *)
Section range_fold.
Context {K V S : Type} `{Countable K}.

Definition range_fold (body : S -> K -> V -> S) (s : S) (m : gmap K V) : S :=
  foldl (fun s kv => body s kv.1 kv.2) s (map_to_list m).

Lemma foldl_comm_perm {D} (f : S -> D -> S) (s : S) (l l' : list D) :
  (forall s a b, a ∈ l -> b ∈ l -> f (f s a) b = f (f s b) a) ->
  l ≡ₚ l' -> foldl f s l = foldl f s l'.
Proof.
  intros Hc Hp. revert s Hc. induction Hp as [|x l l' Hp IH|x y l|l1 l2 l3 Hp1 IH1 Hp2 IH2];
    intros s Hc; simpl; [done| | |].
  - apply IH. intros; apply Hc; by right.
  - f_equal. apply Hc; set_solver.
  - rewrite IH1 by done. apply IH2. intros. apply Hc; by rewrite Hp1.
Qed.

Lemma range_fold_order body s m (order : list (K * V)) :
  (forall s k v k' v', k <> k' -> m !! k = Some v -> m !! k' = Some v' ->
     body (body s k v) k' v' = body (body s k' v') k v) ->
  order ≡ₚ map_to_list m ->
  foldl (fun s kv => body s kv.1 kv.2) s order = range_fold body s m.
Proof.
  intros Hc Hp. apply foldl_comm_perm; [|done].
  intros s' [k v] [k' v'] Ha Hb. rewrite Hp in Ha, Hb.
  apply elem_of_map_to_list in Ha, Hb. simpl.
  destruct (decide (k = k')) as [->|Hne]; [by simplify_eq|]. by apply Hc.
Qed.

End range_fold.

(** A loop whose body touches only the slot of the key it visits is described
    by its effect on each slot. *)
Section range_slots.
Context {K V W : Type} `{Countable K}.

Lemma range_fold_keyed (body : gmap K W -> K -> V -> gmap K W) (f : K -> option W -> V -> option W) out (m : gmap K V) k :
  (forall out i v j, body out i v !! j = if decide (i = j) then f i (out !! i) v else out !! j) ->
  range_fold body out m !! k = match m !! k with Some v => f k (out !! k) v | None => out !! k end.
Proof.
  intros Hbody. unfold range_fold.
  assert (forall (l : list (K * V)), NoDup l.*1 ->
    foldl (fun s kv => body s kv.1 kv.2) out l !! k =
      match (list_to_map l : gmap K V) !! k with Some v => f k (out !! k) v | None => out !! k end) as Hl.
  { intros l. revert out. induction l as [|[i v] l IH]; intros out Hnd; [done|].
    apply NoDup_cons in Hnd as [Hi Hnd]. simpl. rewrite IH by done. rewrite Hbody.
    case_decide as Heq; [subst k|].
    - rewrite lookup_insert_eq. by rewrite (not_elem_of_list_to_map_1 (M:=gmap K)) by done.
    - by rewrite lookup_insert_ne by done. }
  rewrite Hl by apply NoDup_fst_map_to_list. by rewrite list_to_map_to_list.
Qed.

Lemma range_fold_slot (body : gmap K W -> K -> V -> gmap K W) (f : option W -> V -> option W) out (m : gmap K V) k :
  (forall out i v j, body out i v !! j = if decide (i = j) then f (out !! i) v else out !! j) ->
  range_fold body out m !! k = match m !! k with Some v => f (out !! k) v | None => out !! k end.
Proof. apply (range_fold_keyed body (fun _ => f)). Qed.

(** A loop that copies a map. *)
Lemma range_fold_copy (f : V -> W) (m : gmap K V) : range_fold (fun out k v => <[k := f v]> out) ∅ m = f <$> m.
Proof.
  apply map_eq. intros k. rewrite (range_fold_slot _ (fun _ v => Some (f v))), lookup_fmap, lookup_empty; [by destruct (m !! k)|]. intros out i v j. by rewrite lookup_insert.
Qed.

End range_slots.

(** ** Map loops that return early

    [for k, v := range m { if !p { return false } }; return true], and its dual. *)
Definition range_all {K V} `{Countable K} (f : K -> V -> bool) (m : gmap K V) : bool :=
  forallb (fun kv => f kv.1 kv.2) (map_to_list m).
Definition range_any {K V} `{Countable K} (f : K -> V -> bool) (m : gmap K V) : bool :=
  existsb (fun kv => f kv.1 kv.2) (map_to_list m).

Section range_early.
Context {K V : Type} `{Countable K}.
Implicit Types m : gmap K V.

Lemma range_all_true f m : range_all f m = true <-> forall k v, m !! k = Some v -> f k v = true.
Proof.
  unfold range_all. rewrite forallb_forall. split.
  - intros Hf k v Hk. apply (Hf (k, v)). by apply list_elem_of_In, elem_of_map_to_list.
  - intros Hf [k v] Hin. by apply list_elem_of_In, elem_of_map_to_list, Hf in Hin.
Qed.

Lemma range_any_true f m : range_any f m = true <-> exists k v, m !! k = Some v /\ f k v = true.
Proof.
  unfold range_any. rewrite existsb_exists. split.
  - intros ([k v] & Hin & Hf). apply list_elem_of_In, elem_of_map_to_list in Hin. eauto.
  - intros (k & v & Hk & Hf). exists (k, v). split; [|done]. by apply list_elem_of_In, elem_of_map_to_list.
Qed.

End range_early.

(** The same loops over a set ([map[T]struct{}]). *)
Definition set_any {A} `{Countable A} (f : A -> bool) (s : gset A) : bool := existsb f (elements s).
Definition set_all {A} `{Countable A} (f : A -> bool) (s : gset A) : bool := forallb f (elements s).

Lemma set_any_true {A} `{Countable A} (f : A -> bool) (s : gset A) :
  set_any f s = true <-> exists x, x ∈ s /\ f x = true.
Proof.
  unfold set_any. rewrite existsb_exists. setoid_rewrite <- list_elem_of_In. by setoid_rewrite elem_of_elements.
Qed.

Lemma set_all_true {A} `{Countable A} (f : A -> bool) (s : gset A) :
  set_all f s = true <-> forall x, x ∈ s -> f x = true.
Proof.
  unfold set_all. rewrite forallb_forall. setoid_rewrite <- list_elem_of_In. by setoid_rewrite elem_of_elements.
Qed.

(** ** Convergent replicas

    The contract a replicated data type gives its users: absorbing updates is
    commutative and idempotent up to the type's own equality.  [R] is that
    equality, [VS] and [VD] are the well-formed states and updates. *)
Class Convergent {S D : Type} (R : relation S) (VS : S -> Prop) (VD : D -> Prop) (absorb : S -> D -> S) : Prop := {
  conv_equiv :: Equivalence R;
  conv_proper : forall s s' d, R s s' -> R (absorb s d) (absorb s' d);
  conv_valid : forall s d, VS s -> VD d -> VS (absorb s d);
  conv_comm : forall s d1 d2, VS s -> VD d1 -> VD d2 -> R (absorb (absorb s d1) d2) (absorb (absorb s d2) d1);
  conv_idem : forall s d, VS s -> VD d -> R (absorb (absorb s d) d) (absorb s d)
}.

Section convergence.
Context {S D : Type} {R : relation S} {VS : S -> Prop} {VD : D -> Prop} {absorb : S -> D -> S}.
Context `{Hconv : !Convergent R VS VD absorb}.

Let run := foldl absorb.

Lemma converge_proper l s s' : R s s' -> R (run s l) (run s' l).
Proof. revert s s'. induction l as [|d l IH]; intros s s' H; simpl; [done|]. apply IH. by apply conv_proper. Qed.

Lemma converge_valid l s : VS s -> Forall VD l -> VS (run s l).
Proof.
  intros Hs Hl. revert s Hs. induction Hl as [|d l Hd Hl IH]; intros s Hs; simpl; [done|].
  apply IH. by apply conv_valid.
Qed.

Lemma converge_push l s d : VS s -> VD d -> Forall VD l -> R (run (absorb s d) l) (absorb (run s l) d).
Proof.
  intros Hs Hd Hl. revert s Hs. induction Hl as [|d' l Hd' Hl IH]; intros s Hs; simpl; [reflexivity|].
  etrans; [apply converge_proper, conv_comm; done|]. apply IH. by apply conv_valid.
Qed.

(** An update already absorbed changes nothing. *)
Lemma converge_absorbed l s d : VS s -> Forall VD l -> d ∈ l -> R (absorb (run s l) d) (run s l).
Proof.
  intros Hs Hl Hd. revert s Hs. induction Hl as [|d' l Hd' Hl IH]; intros s Hs; [by apply elem_of_nil in Hd|].
  simpl. apply elem_of_cons in Hd as [->|Hd]; [|by apply IH; [|apply conv_valid]].
  etrans; [symmetry; apply converge_push; [by apply conv_valid|done|done]|].
  apply converge_proper. by apply conv_idem.
Qed.

Lemma converge_run_absorbed l1 l2 s :
  VS s -> Forall VD l1 -> Forall VD l2 -> (forall d, d ∈ l2 -> d ∈ l1) -> R (run (run s l1) l2) (run s l1).
Proof.
  intros Hs Hl1 Hl2 Hin. induction Hl2 as [|d l2 Hd Hl2 IH]; simpl; [reflexivity|].
  etrans; [apply converge_proper, converge_absorbed; auto; apply Hin; by left|].
  apply IH. intros; apply Hin; by right.
Qed.

Lemma converge_swap l1 l2 s :
  VS s -> Forall VD l1 -> Forall VD l2 -> R (run (run s l1) l2) (run (run s l2) l1).
Proof.
  intros Hs Hl1 Hl2. revert s Hs. induction Hl1 as [|d l1 Hd Hl1 IH]; intros s Hs; simpl; [reflexivity|].
  etrans; [apply IH; by apply conv_valid|].
  apply converge_proper. by apply converge_push.
Qed.

(** Strong eventual consistency: two replicas that absorbed the same set of
    updates, in any order and any multiplicity, agree. *)
Lemma converge_same_updates l1 l2 s :
  VS s -> Forall VD l1 -> Forall VD l2 -> (forall d, d ∈ l1 <-> d ∈ l2) -> R (run s l1) (run s l2).
Proof.
  intros Hs Hl1 Hl2 Hset.
  etrans; [symmetry; apply (converge_run_absorbed l1 l2); auto; apply Hset|].
  etrans; [by apply converge_swap|]. apply converge_run_absorbed; auto. apply Hset.
Qed.

End convergence.

(** ** Binary search

    The loop of Go's [sort.Search]: the first index in [lo, hi) at which a
    monotone predicate holds, [hi] when there is none.  The interval shrinks at
    every iteration, so [hi - lo] iterations are enough ([bsearch_spec]). *)
Fixpoint bsearch_loop (fuel : nat) (f : nat -> bool) (lo hi : nat) : nat :=
  match fuel with
  | O => lo
  | S fuel =>
      if decide (lo < hi) then
        let mid := (lo + hi) `div` 2 in
        if f mid then bsearch_loop fuel f lo mid else bsearch_loop fuel f (mid + 1) hi
      else lo
  end.

Definition sort_Search (n : nat) (f : nat -> bool) : nat := bsearch_loop n f 0 n.

Lemma bsearch_spec fuel f lo hi :
  lo <= hi -> hi - lo <= fuel ->
  (forall i j, lo <= i -> i <= j -> j < hi -> f i = true -> f j = true) ->
  let r := bsearch_loop fuel f lo hi in
  lo <= r <= hi /\ (forall i, lo <= i < r -> f i = false) /\ (forall i, r <= i < hi -> f i = true).
Proof.
  revert lo hi. induction fuel as [|fuel IH]; intros lo hi Hle Hfuel Hmono; cbn [bsearch_loop].
  { split; [lia|]. split; intros; lia. }
  case_decide as Hlt; [|split; [lia|]; split; intros; lia].
  pose proof (Nat.div_mod_eq (lo + hi) 2). pose proof (Nat.mod_upper_bound (lo + hi) 2).
  set (mid := (lo + hi) `div` 2) in *. assert (lo <= mid < hi) as Hmid by lia.
  destruct (f mid) eqn:Hf.
  - destruct (IH lo mid) as (? & Hl & Hr); [lia|lia| |].
    { intros i j ????. apply (Hmono i j); lia || done. }
    split; [lia|]. split; [done|]. intros i Hi. destruct (decide (i < mid)); [apply Hr; lia|].
    apply (Hmono mid i); lia || done.
  - destruct (IH (mid + 1) hi) as (? & Hl & Hr); [lia|lia| |].
    { intros i j ????. apply (Hmono i j); lia || done. }
    split; [lia|]. split; [|done]. intros i Hi. destruct (decide (mid < i)); [apply Hl; lia|].
    destruct (f i) eqn:Hfi; [|done]. rewrite (Hmono i mid) in Hf; lia || done.
Qed.

Lemma sort_Search_spec n f :
  (forall i j, i <= j -> j < n -> f i = true -> f j = true) ->
  sort_Search n f <= n /\ (forall i, i < sort_Search n f -> f i = false) /\
  (forall i, sort_Search n f <= i < n -> f i = true).
Proof.
  intros Hmono. destruct (bsearch_spec n f 0 n) as (? & Hl & Hr); [lia|lia| |].
  { intros i j _ ???. by apply (Hmono i j). }
  unfold sort_Search. split; [lia|]. split; [intros; apply Hl; lia|done].
Qed.

(** ** Stable sorting

    [sort.SliceStable] by a strict weak order: equal elements keep their order. *)
Fixpoint insert_stable_by {A} (lt : A -> A -> bool) (x : A) (l : list A) : list A :=
  match l with
  | [] => [x]
  | y :: l' => if lt y x then y :: insert_stable_by lt x l' else x :: l
  end.
Definition sort_SliceStable {A} (lt : A -> A -> bool) (l : list A) : list A := foldr (insert_stable_by lt) [] l.

Section sort_stable.
Context {A : Type}.
Implicit Types (l : list A) (lt : A -> A -> bool).

Lemma sort_stable_front lt x l : Forall (fun y => lt y x = false) l -> insert_stable_by lt x l = x :: l.
Proof. intros Hl. destruct Hl as [|y l Hy _]; [done|]. cbn. by rewrite Hy. Qed.

Lemma insert_stable_perm lt x l : insert_stable_by lt x l ≡ₚ x :: l.
Proof. induction l as [|y l IH]; cbn; [done|]. destruct (lt y x); [rewrite IH; by constructor|done]. Qed.

Lemma sort_stable_perm lt l : sort_SliceStable lt l ≡ₚ l.
Proof. induction l as [|x l IH]; cbn; [done|]. by rewrite insert_stable_perm, IH. Qed.

Lemma sort_stable_sorted lt l :
  (forall a b, lt a b = true -> lt b a = false) -> (forall a b c, lt a b = true -> lt a c = true \/ lt c b = true) ->
  StronglySorted (fun a b => lt b a = false) (sort_SliceStable lt l).
Proof.
  intros lt_asym lt_cotrans.
  induction l as [|x l IH]; cbn; [constructor|]. fold (sort_SliceStable lt l). revert IH. generalize (sort_SliceStable lt l) as s.
  induction 1 as [|y s Hs IHs Hy]; cbn; [by repeat constructor|]. destruct (lt y x) eqn:Hyx.
  - constructor; [done|]. rewrite Forall_forall in *. intros z Hz. rewrite insert_stable_perm in Hz. apply elem_of_cons in Hz as [->|Hz]; [by apply lt_asym|by apply Hy].
  - constructor; [by constructor|]. constructor; [done|]. eapply Forall_impl; [exact Hy|]. cbn. intros z Hz.
    destruct (lt z x) eqn:Hzx; [|done]. destruct (lt_cotrans z x y Hzx); congruence.
Qed.

Lemma sort_stable_ext lt lt' l : (forall a b, a ∈ l -> b ∈ l -> lt a b = lt' a b) -> sort_SliceStable lt l = sort_SliceStable lt' l.
Proof.
  induction l as [|x l IH]; intros Heq; cbn; [done|]. fold (sort_SliceStable lt l) (sort_SliceStable lt' l).
  rewrite IH by (intros; apply Heq; by right).
  assert (Hsub : forall y, y ∈ sort_SliceStable lt' l -> y ∈ l) by (intros y; by rewrite sort_stable_perm).
  revert Hsub. generalize (sort_SliceStable lt' l) as s. induction s as [|y s IHs]; intros Hsub; cbn; [done|].
  rewrite (Heq y x) by (first [by left|right; apply Hsub; left]). rewrite IHs by (intros z Hz; apply Hsub; by right). done.
Qed.

(** An order that tells all elements apart leaves no choice to the sort. *)
Lemma sort_stable_unique lt l l' :
  (forall a b, lt a b = true -> lt b a = false) -> (forall a b c, lt a b = true -> lt a c = true \/ lt c b = true) ->
  (forall a b, a ∈ l -> b ∈ l -> lt a b = false -> lt b a = false -> a = b) -> l ≡ₚ l' -> sort_SliceStable lt l = sort_SliceStable lt l'.
Proof.
  intros Hasym Hco Htot Hp. apply (StronglySorted_unique_strong (fun a b => lt b a = false)).
  - intros a b Ha Hb H1 H2. rewrite sort_stable_perm in Ha, Hb. rewrite <- Hp in Hb. by apply Htot.
  - by apply sort_stable_sorted.
  - by apply sort_stable_sorted.
  - by rewrite !sort_stable_perm.
Qed.
End sort_stable.

(** ** White space

    The encodings of the white space of [unicode.IsSpace], as byte sequences. *)
Definition space_runes : list (list Z) :=
  (map (fun b => [b]) [9; 10; 11; 12; 13; 32] ++
  [[0xC2; 0x85]; [0xC2; 0xA0]; [0xE1; 0x9A; 0x80]; [0xE2; 0x80; 0xA8]; [0xE2; 0x80; 0xA9]; [0xE2; 0x80; 0xAF];
   [0xE2; 0x81; 0x9F]; [0xE3; 0x80; 0x80]] ++
  map (fun b => [0xE2; 0x80; b]) (seqZ 0x80 11))%Z.

(** One leading space, in a list of bytes or in a reversed one. *)
Definition strip_space {A} (code : A -> Z) (runes : list (list Z)) (cs : list A) : option (list A) :=
  head (omap (fun r => if decide (take (length r) (map code cs) = r) then Some (drop (length r) cs) else None) runes).
Fixpoint trim_left {A} (code : A -> Z) (fuel : nat) (runes : list (list Z)) (cs : list A) : list A :=
  match fuel with
  | O => cs
  | S fuel => match strip_space code runes cs with Some cs' => trim_left code fuel runes cs' | None => cs end
  end.

(** ** Byte readers

    Code that consumes a stream of bytes and may fail: a state and error monad, which keeps
    the position reached by a failed read.  The notation is stdpp's [x ← m; k]. *)
Definition reader (E A : Type) : Type := list Z -> (E + A) * list Z.

#[global] Instance reader_ret E : MRet (reader E) := fun A a bs => (inr a, bs).
#[global] Instance reader_bind E : MBind (reader E) := fun A B k m bs =>
  match m bs with (inl e, bs) => (inl e, bs) | (inr a, bs) => k a bs end.
Definition fail {E A} (e : E) : reader E A := fun bs => (inl e, bs).

Section readers.
Context {E : Type}.

Lemma reader_bind_ok {A B} (m : reader E A) (k : A -> reader E B) bs a bs' :
  m bs = (inr a, bs') -> (m ≫= k) bs = k a bs'.
Proof. intros Hm. unfold mbind, reader_bind. by rewrite Hm. Qed.

Lemma reader_bind_inv {A B} (m : reader E A) (k : A -> reader E B) bs b bs' :
  (m ≫= k) bs = (inr b, bs') -> exists a bs1, m bs = (inr a, bs1) /\ k a bs1 = (inr b, bs').
Proof. unfold mbind, reader_bind. destruct (m bs) as [[e|a] bs1]; [done|]. intros Hk. by exists a, bs1. Qed.

End readers.
