(* ===== verification/Hlc.v ===== *)
(** * Hybrid logical clock ([src/pkg/hlc/package.go])

    The clock, its 12-byte wire format and the merge rule, at Go's integer
    widths.  The injected time source is an argument: every operation that
    reads it takes the [int64] nanosecond reading [phys] that the call saw. *)

From S2P Require Import Prelude.
Local Open Scope Z_scope.

(** ** Timestamps *)

Record Timestamp := mkTimestamp { Physical : Z; Logical : Z }.

#[global] Instance Timestamp_eq_dec : EqDecision Timestamp.
Proof. solve_decision. Defined.

Definition valid_ts (t : Timestamp) : Prop := is_i64 (Physical t) /\ is_u32 (Logical t).

Definition Timestamp_Compare (t other : Timestamp) : Z :=
  if decide (Physical t < Physical other) then -1
  else if decide (Physical t > Physical other) then 1
  else if decide (Logical t < Logical other) then -1
  else if decide (Logical t > Logical other) then 1
  else 0.

Definition Timestamp_Less (t other : Timestamp) : bool := bool_decide (Timestamp_Compare t other < 0).
Definition Timestamp_Equal (t other : Timestamp) : bool := bool_decide (Timestamp_Compare t other = 0).

(** ** Wire format *)

Definition encodedLen : nat := 12.

Definition Timestamp_Encode (t : Timestamp) : list Z :=
  be_encode 8 (u64 (Physical t)) ++ be_encode 4 (Logical t).

Inductive hlc_error := ErrShortBuffer.

Definition Timestamp_Decode (b : list Z) : hlc_error + Timestamp :=
  if decide (length b <> encodedLen) then inl ErrShortBuffer
  else inr (mkTimestamp (i64 (be_decode (take 8 b))) (be_decode (drop 8 b))).

(** ** The clock *)

Definition DefaultMaxDrift : Z := 500000000.

Record Clock := mkClock { maxDrift : Z; last : Timestamp }.

(** [None] is the panic on a nil time source. *)
Definition Clock_New (now_is_nil : bool) : option Clock :=
  if now_is_nil then None else Some (mkClock DefaultMaxDrift (mkTimestamp 0 0)).

Definition Clock_NewWithMaxDrift (now_is_nil : bool) (d : Z) : option Clock :=
  if now_is_nil then None
  else Some (mkClock (if decide (d = 0) then DefaultMaxDrift else d) (mkTimestamp 0 0)).

Definition bumpLogical (physical base : Z) : Z * Z :=
  if decide (base = MaxUint32) then
    if decide (physical = MaxInt64) then (MaxInt64, MaxUint32)
    else (i64 (physical + 1), 0)
  else (physical, u32 (base + 1)).

Definition setLast (c : Clock) (t : Timestamp) : Clock := mkClock (maxDrift c) t.

Definition Clock_Now (phys : Z) (c : Clock) : Clock * Timestamp :=
  let t :=
    if decide (phys > Physical (last c)) then mkTimestamp phys 0
    else let '(p, l) := bumpLogical (Physical (last c)) (Logical (last c)) in mkTimestamp p l in
  (setLast c t, t).

(** The remote physical component after the drift clamp. *)
Definition clampRemote (phys : Z) (c : Clock) (remotePhys : Z) : Z :=
  if decide (maxDrift c > 0) then
    let ceiling := i64 (phys + maxDrift c) in
    if decide (remotePhys > ceiling) then ceiling else remotePhys
  else remotePhys.

Definition Clock_Update (phys : Z) (remote : Timestamp) (c : Clock) : Clock * Timestamp :=
  let remotePhys := clampRemote phys c (Physical remote) in
  let maxPhys := if decide (Physical (last c) > phys) then Physical (last c) else phys in
  let maxPhys := if decide (remotePhys > maxPhys) then remotePhys else maxPhys in
  let '(p, l) :=
    if decide (maxPhys = Physical (last c) /\ maxPhys = remotePhys) then
      let base := if decide (Logical remote > Logical (last c)) then Logical remote else Logical (last c) in
      bumpLogical maxPhys base
    else if decide (maxPhys = Physical (last c)) then bumpLogical maxPhys (Logical (last c))
    else if decide (maxPhys = remotePhys) then bumpLogical maxPhys (Logical remote)
    else (maxPhys, 0) in
  (setLast c (mkTimestamp p l), mkTimestamp p l).

Definition Clock_Last (c : Clock) : Timestamp := last c.

(** A run of the clock: local events and received messages, each with the
    physical reading its call saw. *)
Inductive clock_event := EvNow (phys : Z) | EvUpdate (phys : Z) (remote : Timestamp).

Definition clock_step (c : Clock) (e : clock_event) : Clock * Timestamp :=
  match e with
  | EvNow phys => Clock_Now phys c
  | EvUpdate phys remote => Clock_Update phys remote c
  end.

Fixpoint clock_run (c : Clock) (es : list clock_event) : list Timestamp :=
  match es with
  | [] => []
  | e :: es => let '(c', t) := clock_step c e in t :: clock_run c' es
  end.

Definition event_reading (e : clock_event) : Z :=
  match e with EvNow phys => phys | EvUpdate phys _ => phys end.

Definition valid_event (e : clock_event) : Prop :=
  match e with
  | EvNow phys => is_i64 phys
  | EvUpdate phys remote => is_i64 phys /\ valid_ts remote
  end.

Definition valid_clock (c : Clock) : Prop := valid_ts (last c) /\ is_i64 (maxDrift c).

(** The largest timestamp the 12-byte format holds. *)
Definition ts_top : Timestamp := mkTimestamp MaxInt64 MaxUint32.

(** ** Order *)

Definition ts_lt (a b : Timestamp) : Prop :=
  Physical a < Physical b \/ (Physical a = Physical b /\ Logical a < Logical b).

#[global] Instance ts_lt_strict : StrictOrder ts_lt.
Proof. split; [intros x|intros x y z]; unfold ts_lt, complement; lia. Qed.

Lemma Compare_lt a b : Timestamp_Compare a b < 0 <-> ts_lt a b.
Proof. unfold Timestamp_Compare, ts_lt. split_ifs. Qed.

Lemma Compare_eq a b : Timestamp_Compare a b = 0 <-> a = b.
Proof.
  destruct a as [pa la], b as [pb lb]. unfold Timestamp_Compare. simpl.
  split; [intros|intros [= -> ->]]; split_ifs. f_equal; lia.
Qed.

Lemma Less_lt a b : Timestamp_Less a b = true <-> ts_lt a b.
Proof. unfold Timestamp_Less. rewrite bool_decide_eq_true. apply Compare_lt. Qed.

(** Unfold the clock's arithmetic on valid inputs. *)
Ltac hlc_unfold :=
  unfold valid_clock, valid_event, valid_ts, ts_lt, ts_top, setLast, clampRemote in *; autounfold with helix in *.

(** ** Lemmas on one step *)

(** [bumpLogical] gives the successor, or stays at the top of the value space. *)
Lemma bumpLogical_cases p b :
  is_i64 p -> is_u32 b ->
  (b = MaxUint32 /\ p = MaxInt64 /\ bumpLogical p b = (MaxInt64, MaxUint32)) \/
  (b = MaxUint32 /\ p < MaxInt64 /\ bumpLogical p b = (p + 1, 0)) \/
  (b < MaxUint32 /\ bumpLogical p b = (p, b + 1)).
Proof.
  intros Hp Hb. unfold bumpLogical. repeat case_decide; subst; auto.
  - right; left. rewrite i64_id by int_lia. split_and!; [done|int_lia|done].
  - right; right. rewrite u32_id by int_lia. split; [int_lia|done].
Qed.

(** [t] is strictly after [a], or both sit at the ceiling of the format. *)
Definition dominates (a t : Timestamp) : Prop := ts_lt a t \/ (a = ts_top /\ t = ts_top).

Definition pair_ts (pl : Z * Z) : Timestamp := mkTimestamp pl.1 pl.2.

Lemma bumpLogical_valid p b : is_i64 p -> is_u32 b -> valid_ts (pair_ts (bumpLogical p b)).
Proof.
  intros Hp Hb. destruct (bumpLogical_cases p b) as [(-> & -> & ->)|[(-> & ? & ->)|(? & ->)]];
    try done; split; cbn; int_lia.
Qed.

(** The bump of [(p, b)] dominates everything at or below [(p, b)]. *)
Lemma bumpLogical_dominates p b a :
  is_i64 p -> is_u32 b -> valid_ts a -> Physical a < p \/ (Physical a = p /\ Logical a <= b) ->
  dominates a (pair_ts (bumpLogical p b)).
Proof.
  destruct a as [ap al]. intros Hp Hb [Hap Hal] Hle. cbn in *. unfold dominates.
  destruct (bumpLogical_cases p b) as [(-> & -> & ->)|[(-> & ? & ->)|(? & ->)]]; try done; cbn.
  - destruct (decide (ap = MaxInt64 /\ al = MaxUint32)) as [[-> ->]|]; [by right|].
    left. hlc_unfold. cbn. lia.
  - left. hlc_unfold. cbn. lia.
  - left. hlc_unfold. cbn. lia.
Qed.

Lemma Clock_Now_spec phys c :
  valid_clock c -> is_i64 phys ->
  let t := (Clock_Now phys c).2 in valid_ts t /\ phys <= Physical t /\ dominates (last c) t.
Proof.
  destruct c as [d [lp ll]]. intros [[Hlp Hll] Hd] Hph. unfold Clock_Now; cbn in *. case_decide.
  - split_and!; [split; cbn; int_lia|done|left; hlc_unfold; cbn; lia].
  - pose proof (bumpLogical_valid lp ll Hlp Hll) as Hv.
    pose proof (bumpLogical_dominates lp ll (mkTimestamp lp ll)) as Hd'.
    destruct (bumpLogical_cases lp ll Hlp Hll) as [(-> & -> & Hb)|[(-> & ? & Hb)|(? & Hb)]];
      rewrite Hb in *; cbn; (split_and!; [done|lia|apply Hd'; [done|done|split; done|cbn; lia]]).
Qed.

Lemma clampRemote_range phys c p : is_i64 p -> is_i64 (clampRemote phys c p).
Proof. intros. unfold clampRemote. repeat case_decide; auto with helix. Qed.

(** [Update] dominates both of its inputs, the remote one as clamped. *)
Lemma Clock_Update_spec phys remote c :
  valid_clock c -> is_i64 phys -> valid_ts remote ->
  let t := (Clock_Update phys remote c).2 in
  let remote' := mkTimestamp (clampRemote phys c (Physical remote)) (Logical remote) in
  valid_ts t /\ phys <= Physical t /\ dominates (last c) t /\ dominates remote' t.
Proof.
  intros Hc Hph Hr. pose proof (clampRemote_range phys c (Physical remote) (proj1 Hr)) as Hcp.
  unfold Clock_Update. cbv zeta. revert Hcp. generalize (clampRemote phys c (Physical remote)).
  destruct c as [d [lp ll]], remote as [rp rl], Hc as [[Hlp Hll] Hd], Hr as [Hrp Hrl].
  cbn in *. intros cp Hcp.
  set (m1 := if decide (lp > phys) then lp else phys).
  set (m2 := if decide (cp > m1) then cp else m1).
  assert (is_i64 m2 /\ lp <= m2 /\ cp <= m2 /\ phys <= m2 /\ (m2 = lp \/ m2 = cp \/ m2 = phys)) as (Hm2 & ? & ? & ? & ?)
    by (subst m1 m2; repeat case_decide; split_and!; int_lia || done).
  set (base := if decide (rl > ll) then rl else ll).
  assert (is_u32 base /\ ll <= base /\ rl <= base) as (Hbase & ? & ?) by (subst base; case_decide; split_and!; int_lia || done).
  assert (forall b, is_u32 b -> m2 <= (bumpLogical m2 b).1) as Hge.
  { intros b Hb. destruct (bumpLogical_cases m2 b) as [(-> & -> & ->)|[(-> & ? & ->)|(? & ->)]]; cbn; try done; lia. }
  clearbody base m2.
  assert (forall b, is_u32 b -> (lp < m2 \/ ll <= b) -> (cp < m2 \/ rl <= b) ->
    let t := pair_ts (bumpLogical m2 b) in
    valid_ts t /\ phys <= Physical t /\ dominates (mkTimestamp lp ll) t /\ dominates (mkTimestamp cp rl) t) as Hbump.
  { intros b Hb Hl Hr. split_and!; [by apply bumpLogical_valid|pose proof (Hge b Hb); cbn; lia|..];
      (apply bumpLogical_dominates; [done|done|split; done|cbn; lia]). }
  repeat case_decide.
  - specialize (Hbump base Hbase). destruct (bumpLogical m2 base). apply Hbump; lia.
  - specialize (Hbump ll Hll). destruct (bumpLogical m2 ll). apply Hbump; lia.
  - specialize (Hbump rl Hrl). destruct (bumpLogical m2 rl). apply Hbump; lia.
  - split_and!; [split; cbn; int_lia|cbn; lia|left; hlc_unfold; cbn; lia..].
Qed.

Lemma clock_step_state c e :
  last (clock_step c e).1 = (clock_step c e).2 /\ maxDrift (clock_step c e).1 = maxDrift c.
Proof. destruct e; cbn; unfold Clock_Now, Clock_Update; cbn; [done|]. by case_match. Qed.

Lemma clock_step_spec c e :
  valid_clock c -> valid_event e ->
  let '(c', t) := clock_step c e in
  valid_clock c' /\ last c' = t /\ event_reading e <= Physical t /\ dominates (last c) t.
Proof.
  intros Hc He. pose proof (clock_step_state c e) as [Hlast Hdrift].
  assert (valid_ts (clock_step c e).2 /\ event_reading e <= Physical (clock_step c e).2 /\
    dominates (last c) (clock_step c e).2) as (? & ? & ?).
  { destruct e; cbn in *; [by apply Clock_Now_spec|].
    destruct (Clock_Update_spec phys remote c) as (? & ? & ? & ?); tauto. }
  destruct (clock_step c e) as [c' t]. cbn in *. unfold valid_clock in *. rewrite Hlast, Hdrift. tauto.
Qed.

(** ** Skew bound *)

(** After [n] events with readings at most [T], the clock is at most [maxDrift]
    ahead of [T], or one nanosecond more with a logical counter that the events
    themselves built up. *)
Definition skew_inv (T D n : Z) (t : Timestamp) : Prop :=
  Physical t <= T + D \/ (Physical t = T + D + 1 /\ Logical t <= n).

Lemma bumpLogical_skew T D n p b :
  is_i64 p -> is_u32 b -> 0 <= n < MaxUint32 -> skew_inv T D n (mkTimestamp p b) ->
  skew_inv T D (n + 1) (pair_ts (bumpLogical p b)).
Proof.
  intros Hp Hb Hn. unfold skew_inv. cbn.
  destruct (bumpLogical_cases p b) as [(-> & -> & ->)|[(-> & ? & ->)|(? & ->)]]; try done; cbn; int_lia.
Qed.

Lemma clock_step_skew T D n c e :
  valid_clock c -> valid_event e -> maxDrift c = D -> 0 < D -> T + D < MaxInt64 ->
  event_reading e <= T -> 0 <= n < MaxUint32 -> skew_inv T D n (last c) ->
  skew_inv T D (n + 1) (clock_step c e).2.
Proof.
  destruct c as [d [lp ll]]. intros [[Hlp Hll] Hd] He Hdrift HD HT Hphys Hn Hinv. cbn in *. subst d.
  destruct e as [phys|phys [rp rl]]; cbn in *.
  - unfold Clock_Now; cbn. case_decide; [unfold skew_inv in *; cbn in *; lia|].
    pose proof (bumpLogical_skew T D n lp ll Hlp Hll Hn Hinv). by destruct (bumpLogical lp ll).
  - destruct He as [Hph [Hrp Hrl]]; cbn in *. unfold Clock_Update; cbn.
    assert (clampRemote phys (mkClock D (mkTimestamp lp ll)) rp <= T + D) as Hcp.
    { unfold clampRemote; cbn. rewrite decide_True by lia. rewrite i64_id by int_lia. case_decide; lia. }
    revert Hcp. generalize (clampRemote_range phys (mkClock D (mkTimestamp lp ll)) rp Hrp).
    generalize (clampRemote phys (mkClock D (mkTimestamp lp ll)) rp). intros cp Hcp' Hcp.
    assert (forall p b, is_i64 p -> is_u32 b -> (p <= T + D \/ (p = lp /\ b = ll)) ->
      skew_inv T D (n + 1) (let '(p, l) := bumpLogical p b in mkTimestamp p l)) as Hb.
    { intros p b Hp Hb Hor. pose proof (bumpLogical_skew T D n p b Hp Hb Hn) as Hs.
      destruct (bumpLogical p b). apply Hs. unfold skew_inv in *; cbn in *. intuition (subst; auto). }
    unfold skew_inv in Hinv; cbn in Hinv.
    repeat case_decide; match goal with
      | |- context [bumpLogical ?p ?b] =>
          specialize (Hb p b); destruct (bumpLogical p b); apply Hb; [int_lia|int_lia|lia]
      | |- _ => unfold skew_inv; cbn; lia
      end.
Qed.

Lemma clock_run_skew T D es n c :
  valid_clock c -> Forall valid_event es -> maxDrift c = D -> 0 < D -> T + D < MaxInt64 ->
  Forall (fun e => event_reading e <= T) es -> 0 <= n -> n + Z.of_nat (length es) <= MaxUint32 ->
  skew_inv T D n (last c) ->
  Forall (fun t => Physical t <= T + D + 1) (clock_run c es).
Proof.
  intros Hc Hes Hdrift HD HT Hr. revert n c Hc Hdrift Hr.
  induction Hes as [|e es He Hes IH]; intros n c Hc Hdrift Hr Hn Hlen Hinv; cbn in *; [constructor|].
  apply Forall_cons in Hr as [Hr Hrs].
  pose proof (clock_step_skew T D n c e) as Hstep. pose proof (clock_step_state c e) as [Hlast Hd].
  pose proof (clock_step_spec c e Hc He) as Hspec. destruct (clock_step c e) as [c' t]. cbn in *.
  destruct Hspec as (Hc' & _). assert (skew_inv T D (n + 1) t) as Ht by (apply Hstep; auto; lia).
  constructor; [unfold skew_inv in Ht; lia|].
  apply (IH (n + 1)); rewrite ?Hlast; auto; lia || congruence.
Qed.

(** ** Properties *)

(** C36: the clock is strictly monotone over any run.  Whatever sequence of local
    events and received messages a clock processes, and however its physical
    readings stall or run backwards, the timestamps it emits are strictly
    increasing, starting after the one it held, as long as the run does not hit
    the ceiling of the 12-byte format. *)
Theorem hlc_run_strictly_increasing c es :
  valid_clock c -> Forall valid_event es -> ts_top ∉ clock_run c es ->
  StronglySorted (fun a b => Timestamp_Less a b = true) (last c :: clock_run c es).
Proof.
  intros Hc Hes. revert c Hc.
  induction Hes as [|e es He Hes IH]; intros c Hc Htop; cbn in *; [repeat constructor|].
  pose proof (clock_step_spec c e Hc He) as Hspec. destruct (clock_step c e) as [c' t].
  destruct Hspec as (Hc' & <- & _ & Hdom). apply not_elem_of_cons in Htop as [Ht Htop].
  specialize (IH c' Hc' Htop). assert (ts_lt (last c) (last c')) as Hlt by (destruct Hdom as [|[]]; congruence).
  apply Less_lt in Hlt. constructor; [done|]. constructor; [done|].
  apply StronglySorted_inv in IH as [_ IH]. eapply Forall_impl; [exact IH|]. cbn.
  intros x Hx. rewrite Less_lt in *. by etrans.
Qed.

(** Receiving a message orders the local event after it.  [Update] returns a
    timestamp strictly after the clock's previous one and, when the message lies
    within the drift bound (or clamping is disabled), strictly after the
    message's timestamp; only the ceiling of the format stops the increase. *)
Theorem hlc_update_happens_before phys remote c :
  valid_clock c -> is_i64 phys -> valid_ts remote ->
  maxDrift c <= 0 \/ (Physical remote <= phys + maxDrift c /\ phys + maxDrift c <= MaxInt64) ->
  let t := (Clock_Update phys remote c).2 in
  t <> ts_top -> Timestamp_Less (last c) t = true /\ Timestamp_Less remote t = true.
Proof.
  intros Hc Hph Hr Hdrift. pose proof (Clock_Update_spec phys remote c Hc Hph Hr) as (_ & _ & H1 & H2).
  cbv zeta. set (t := (Clock_Update phys remote c).2) in *. clearbody t.
  assert (clampRemote phys c (Physical remote) = Physical remote) as Heq.
  { unfold clampRemote. destruct Hc as [_ Hd]. repeat case_decide; [|done|done].
    rewrite i64_id in * by int_lia. lia. }
  rewrite Heq in H2. destruct remote as [rp rl]; cbn in *.
  intros Ht. rewrite !Less_lt. unfold dominates in *. split; intuition congruence.
Qed.

(** A faulty or malicious sender cannot drag the clock far ahead.  If every
    physical reading of a run is at most [T] and the clock starts at most
    [maxDrift] ahead of [T], then no message, whatever timestamp it carries, makes
    the clock emit a physical component above [T + maxDrift + 1] nanosecond (for
    runs of fewer than 2^32 events; the extra nanosecond is the carry of a
    saturated logical counter). *)
Theorem hlc_bounded_drift T c es :
  valid_clock c -> Forall valid_event es ->
  0 < maxDrift c -> T + maxDrift c < MaxInt64 -> Physical (last c) <= T + maxDrift c ->
  Forall (fun e => event_reading e <= T) es -> Z.of_nat (length es) <= MaxUint32 ->
  Forall (fun t => Physical t <= T + maxDrift c + 1) (clock_run c es).
Proof.
  intros Hc Hes HD HT Hl Hr Hlen. apply (clock_run_skew T (maxDrift c) es 0); auto; [lia|].
  by left.
Qed.

(** The wire format is lossless.  A 12-byte buffer decodes to a timestamp
    exactly when it is that timestamp's encoding, and buffers of any other length
    are rejected with [ErrShortBuffer]. *)
Theorem hlc_wire_roundtrip b t :
  Forall is_u8 b ->
  (Timestamp_Decode b = inr t <-> valid_ts t /\ b = Timestamp_Encode t) /\
  (length b <> encodedLen <-> Timestamp_Decode b = inl ErrShortBuffer).
Proof.
  intros Hb. unfold Timestamp_Decode. split; [|by case_decide].
  case_decide as Hlen; split; try done.
  - intros [_ ->]. unfold Timestamp_Encode in Hlen. rewrite length_app, !be_encode_length in Hlen. done.
  - intros [= <-]. rewrite <- (take_drop 8 b), Forall_app in Hb. destruct Hb as [Hb1 Hb2].
    assert (length (take 8 b) = 8%nat /\ length (drop 8 b) = 4%nat) as [L1 L2]
      by (rewrite length_take, length_drop, Hlen; done).
    pose proof (be_decode_range _ Hb1) as R1. pose proof (be_decode_range _ Hb2) as R2.
    rewrite L1 in R1. rewrite L2 in R2. cbn in R1, R2. split.
    + split; cbn; [apply i64_range|int_lia].
    + unfold Timestamp_Encode; cbn [Physical Logical]. rewrite u64_i64 by int_lia.
      pose proof (be_encode_decode _ Hb1) as E1. pose proof (be_encode_decode _ Hb2) as E2.
      rewrite L1 in E1. rewrite L2 in E2. rewrite E1, E2. by rewrite take_drop.
  - intros [Ht ->]. unfold Timestamp_Encode. destruct t as [p l], Ht as [Hp Hl]; cbn in Hp, Hl. f_equal. cbn [Physical Logical].
    rewrite take_app_length', drop_app_length' by (by rewrite be_encode_length). rewrite !be_decode_encode.
    change (256 ^ Z.of_nat 8) with 18446744073709551616. change (256 ^ Z.of_nat 4) with 4294967296.
    pose proof (u64_range p). rewrite !Z.mod_small by int_lia. by rewrite i64_u64.
Qed.

(** Byte order of encodings is timestamp order between timestamps of the same
    side of the Unix epoch, as the format intends for use as a sort key; across
    the epoch it is reversed, because the physical component is written as its
    two's-complement bit pattern. *)
Theorem hlc_encode_order a b :
  valid_ts a -> valid_ts b ->
  bytes_ltb (Timestamp_Encode a) (Timestamp_Encode b) =
    if decide (Physical a < 0 <-> Physical b < 0) then Timestamp_Less a b else Timestamp_Less b a.
Proof.
  destruct a as [pa la], b as [pb lb]. intros [Hpa Hla] [Hpb Hlb]. cbn in Hpa, Hla, Hpb, Hlb.
  unfold Timestamp_Encode; cbn [Physical Logical].
  assert (forall p, is_i64 p -> u64 p = if decide (p < 0) then p + 18446744073709551616 else p) as Hu.
  { intros p Hp. case_decide; [|apply u64_id; int_lia]. symmetry. unfold u64.
    apply (Z.mod_unique_pos _ _ (-1)); int_lia. }
  assert (forall z w, is_u64 z -> is_u64 w -> be_encode 8 z = be_encode 8 w -> z = w) as Hinj.
  { intros z w Hz Hw. apply be_encode_inj; cbn; int_lia. }
  destruct (decide (pa = pb)) as [->|Hne].
  - rewrite bytes_ltb_app_eq, bytes_ltb_be_encode by (cbn; int_lia).
    rewrite decide_True by done. unfold Timestamp_Less, Timestamp_Compare; cbn. split_ifs; done.
  - rewrite bytes_ltb_app_ne, bytes_ltb_be_encode; [| | |by rewrite !be_encode_length|];
      try (pose proof (u64_range pa); pose proof (u64_range pb); cbn; int_lia).
    + rewrite !Hu by done. unfold Timestamp_Less, Timestamp_Compare; cbn. repeat case_decide; case_bool_decide; int_lia || done.
    + intros Heq. apply Hinj in Heq; [|apply u64_range..]. rewrite !Hu in Heq by done. repeat case_decide; int_lia.
Qed.

(** ** Concrete runs *)

(** A clock that stalls, runs backwards and receives a message from the future. *)
Definition demo_clock : Clock := mkClock DefaultMaxDrift (mkTimestamp 1000 3).
Definition demo_events : list clock_event :=
  [EvNow 1000; EvNow 900; EvUpdate 950 (mkTimestamp 1200 7); EvUpdate 1300 (mkTimestamp 1200 7); EvNow 1300].

Lemma hlc_run_strictly_increasing_witness :
  clock_run demo_clock demo_events =
    [mkTimestamp 1000 4; mkTimestamp 1000 5; mkTimestamp 1200 8; mkTimestamp 1300 0; mkTimestamp 1300 1] /\
  StronglySorted (fun a b => Timestamp_Less a b = true) (last demo_clock :: clock_run demo_clock demo_events).
Proof. split; [done|]. apply (hlc_run_strictly_increasing demo_clock demo_events); [concrete|concrete|by_eval]. Defined.

Lemma hlc_update_happens_before_witness :
  let t := (Clock_Update 950 (mkTimestamp 1200 7) demo_clock).2 in
  t = mkTimestamp 1200 8 /\ Timestamp_Less (last demo_clock) t = true /\ Timestamp_Less (mkTimestamp 1200 7) t = true.
Proof.
  split; [done|]. apply (hlc_update_happens_before 950 (mkTimestamp 1200 7) demo_clock);
    [concrete|concrete|concrete|right; concrete|by_eval].
Defined.

(** A hostile peer sends the largest timestamp there is. *)
Lemma hlc_bounded_drift_witness :
  Forall (fun t => Physical t <= 1000 + maxDrift demo_clock + 1)
    (clock_run demo_clock [EvUpdate 1000 ts_top; EvUpdate 1000 ts_top; EvNow 1000]).
Proof.
  apply (hlc_bounded_drift 1000 demo_clock [EvUpdate 1000 ts_top; EvUpdate 1000 ts_top; EvNow 1000]);
    [concrete|concrete|concrete|concrete|concrete|concrete|concrete].
Defined.

Lemma hlc_wire_roundtrip_witness :
  Timestamp_Decode (Timestamp_Encode (mkTimestamp (-2) 258)) = inr (mkTimestamp (-2) 258) /\
  Timestamp_Encode (mkTimestamp (-2) 258) = [255; 255; 255; 255; 255; 255; 255; 254; 0; 0; 1; 2].
Proof.
  split; [|done].
  apply (hlc_wire_roundtrip (Timestamp_Encode (mkTimestamp (-2) 258)) (mkTimestamp (-2) 258)); [concrete|].
  split; [concrete|done].
Defined.

(** Same side of the epoch: byte order is timestamp order.  Across it: reversed. *)
Lemma hlc_encode_order_witness :
  bytes_ltb (Timestamp_Encode (mkTimestamp 255 9)) (Timestamp_Encode (mkTimestamp 256 0)) = true /\
  bytes_ltb (Timestamp_Encode (mkTimestamp (-1) 0)) (Timestamp_Encode (mkTimestamp 0 0)) = false.
Proof. split; (rewrite hlc_encode_order; [done|concrete|concrete]). Defined.
