(* ===== verification/Counters.v ===== *)
(** * Counter CRDTs ([src/pkg/crdt/crdt.go]: [GCounter], [PNCounter])

    A counter is a Go map from replica to [uint64] slot.  Its own notion of
    equality, [Equal], ignores the difference between a zero and an absent slot;
    [Merge] is commutative, associative and idempotent only up to it, so the
    laws are stated with [≡] and the operations are proved [Proper]. *)

From S2P Require Import Prelude.
Local Open Scope Z_scope.

(** ** Grow-only counter *)

Record GCounter := mkGCounter { counts : gmap string Z }.

Definition GCounter_New : GCounter := mkGCounter ∅.

Definition GCounter_Inc (id : string) (delta : Z) (g : GCounter) : GCounter :=
  mkGCounter (<[id := u64 (zget (counts g) id + delta)]> (counts g)).

Definition GCounter_Value (g : GCounter) : Z := range_fold (fun sum _ v => u64 (sum + v)) 0 (counts g).

(** The copy loop shared by the [Clone] methods. *)
Definition copy_map (m : gmap string Z) : gmap string Z := range_fold (fun out id v => <[id := v]> out) ∅ m.

Definition GCounter_Clone (g : GCounter) : GCounter := mkGCounter (copy_map (counts g)).

(** The maximum loop shared by the [Merge] methods. *)
Definition max_into (out other : gmap string Z) : gmap string Z :=
  range_fold (fun out id v => if decide (v > zget out id) then <[id := v]> out else out) out other.

Definition GCounter_Merge (g other : GCounter) : GCounter :=
  mkGCounter (max_into (counts (GCounter_Clone g)) (counts other)).

(** One of the two loops of [Equal]: every entry of [a] has the same value in [b]. *)
Definition slots_agree (a b : gmap string Z) : bool :=
  range_all (fun id v => bool_decide (zget b id = v)) a.

Definition GCounter_Equal (g other : GCounter) : bool :=
  slots_agree (counts g) (counts other) && slots_agree (counts other) (counts g).

(** ** Increment/decrement counter *)

Record PNCounter := mkPNCounter { p_half : GCounter; n_half : GCounter }.

Definition PNCounter_New : PNCounter := mkPNCounter GCounter_New GCounter_New.
Definition PNCounter_Inc (id : string) (delta : Z) (c : PNCounter) : PNCounter :=
  mkPNCounter (GCounter_Inc id delta (p_half c)) (n_half c).
Definition PNCounter_Dec (id : string) (delta : Z) (c : PNCounter) : PNCounter :=
  mkPNCounter (p_half c) (GCounter_Inc id delta (n_half c)).
Definition PNCounter_Value (c : PNCounter) : Z :=
  i64 (i64 (GCounter_Value (p_half c)) - i64 (GCounter_Value (n_half c))).
Definition PNCounter_Clone (c : PNCounter) : PNCounter :=
  mkPNCounter (GCounter_Clone (p_half c)) (GCounter_Clone (n_half c)).
Definition PNCounter_Merge (c other : PNCounter) : PNCounter :=
  mkPNCounter (GCounter_Merge (p_half c) (p_half other)) (GCounter_Merge (n_half c) (n_half other)).
Definition PNCounter_Equal (c other : PNCounter) : bool :=
  GCounter_Equal (p_half c) (p_half other) && GCounter_Equal (n_half c) (n_half other).

(** ** The map loops *)

Lemma copy_map_id m : copy_map m = m.
Proof.
  apply map_eq. intros k. unfold copy_map. rewrite (range_fold_slot _ (fun _ v => Some v)).
  - by destruct (m !! k).
  - intros. by rewrite lookup_insert.
Qed.

Lemma max_into_lookup out m k :
  max_into out m !! k =
    match m !! k with
    | Some v => if decide (v > zget out k) then Some v else out !! k
    | None => out !! k
    end.
Proof.
  unfold max_into. rewrite (range_fold_slot _ (fun o v => if decide (v > default 0 o) then Some v else o)); [done|].
  intros out' i v j. change (default 0 (out' !! i)) with (zget out' i).
  destruct (decide (v > zget out' i)); [by rewrite lookup_insert|]. by case_decide; subst.
Qed.

(** [same_slots] is the equality that [Equal] decides. *)
Definition same_slots (a b : gmap string Z) : Prop := forall k, zget a k = zget b k.

#[export] Instance same_slots_equiv : Equivalence same_slots.
Proof. split; [by intros m k|by intros a b H k|intros a b c H1 H2 k; by rewrite H1]. Qed.

(** Slots hold [uint64] values. *)
Definition slots_ok (m : gmap string Z) : Prop := map_Forall (fun _ v => is_u64 v) m.

Lemma slots_ok_zget m k : slots_ok m -> is_u64 (zget m k).
Proof. intros Hm. unfold zget. destruct (m !! k) eqn:E; cbn; [by eapply Hm|int_lia]. Qed.

Lemma max_into_zget out m k : slots_ok m -> slots_ok out -> zget (max_into out m) k = Z.max (zget out k) (zget m k).
Proof.
  intros Hm Ho. pose proof (slots_ok_zget m k Hm). pose proof (slots_ok_zget out k Ho).
  unfold zget at 1. rewrite max_into_lookup. change (default 0 (out !! k)) with (zget out k).
  destruct (m !! k) as [v|] eqn:E.
  - rewrite (zget_Some m k v E) in *. case_decide; cbn; [lia|]. fold (zget out k). lia.
  - fold (zget out k). unfold zget at 3. rewrite E. cbn. int_lia.
Qed.

Lemma max_into_proper a b m : same_slots a b -> same_slots (max_into a m) (max_into b m).
Proof.
  intros H k. unfold zget. rewrite !max_into_lookup.
  change (zget a k) with (zget a k). rewrite (H k). specialize (H k). unfold zget in H.
  destruct (m !! k); [case_decide|]; done.
Qed.

Lemma max_into_ok out m : slots_ok m -> slots_ok out -> slots_ok (max_into out m).
Proof.
  intros Hm Ho k v. rewrite max_into_lookup. destruct (m !! k) eqn:E; [case_decide|]; intros ?; simplify_eq; eauto.
Qed.

Lemma slots_agree_true a b : slots_agree a b = true <-> forall k v, a !! k = Some v -> zget b k = v.
Proof. unfold slots_agree. rewrite range_all_true. by setoid_rewrite bool_decide_eq_true. Qed.

Lemma slots_agree_both a b : slots_agree a b && slots_agree b a = true <-> same_slots a b.
Proof.
  rewrite andb_true_iff, !slots_agree_true. split.
  - intros [H1 H2] k. unfold zget at 1. destruct (a !! k) as [v|] eqn:E; cbn; [by rewrite (H1 k v)|].
    unfold zget. destruct (b !! k) as [w|] eqn:E'; cbn; [|done].
    apply H2 in E'. unfold zget in E'. by rewrite E in E'.
  - intros H. split; intros k v Hk; [rewrite <- H|rewrite H]; by apply zget_Some.
Qed.

Lemma GCounter_Equal_spec g h : GCounter_Equal g h = true <-> same_slots (counts g) (counts h).
Proof. apply slots_agree_both. Qed.

(** ** Value: the sum of the slots, modulo 2^64 *)

Definition slot_sum (m : gmap string Z) : Z := map_fold (fun _ v acc => v + acc) 0 m.

Lemma slot_sum_insert m k v : m !! k = None -> slot_sum (<[k := v]> m) = v + slot_sum m.
Proof. intros. unfold slot_sum. apply map_fold_insert_L; [lia|done]. Qed.

Lemma GCounter_Value_sum g : GCounter_Value g = u64 (slot_sum (counts g)).
Proof.
  unfold GCounter_Value, range_fold, slot_sum. rewrite map_fold_foldr.
  assert (forall l acc, foldl (fun s kv => u64 (s + kv.2)) (u64 acc) l =
    u64 (acc + foldr (uncurry (fun (_ : string) v acc => v + acc)) 0 l)) as Hl.
  { intros l. induction l as [|[k v] l IH]; intros acc; cbn.
    - by rewrite Z.add_0_r.
    - rewrite u64_add_l, IH. f_equal. lia. }
  specialize (Hl (map_to_list (counts g)) 0). rewrite Z.add_0_l in Hl. rewrite <- Hl.
  done.
Qed.

(** Zero slots do not count, so [Value] respects the counter's own equality. *)
Lemma slot_sum_nonzero m : slot_sum m = slot_sum (filter (fun kv => kv.2 <> 0) m).
Proof.
  induction m as [|k v m Hk IH] using map_ind; [done|].
  rewrite slot_sum_insert by done. destruct (decide (v = 0)) as [->|Hv].
  - rewrite map_filter_insert_False by (cbn; tauto).
    rewrite delete_id by (rewrite ?map_lookup_filter; by rewrite ?Hk). lia.
  - rewrite map_filter_insert_True by done.
    rewrite slot_sum_insert; [by rewrite IH|]. rewrite map_lookup_filter. by rewrite Hk.
Qed.

Lemma slot_sum_proper a b : same_slots a b -> slot_sum a = slot_sum b.
Proof.
  intros Hab. rewrite (slot_sum_nonzero a), (slot_sum_nonzero b). f_equal. apply map_eq. intros k.
  apply option_eq. intros v. rewrite !map_lookup_filter_Some. cbn. specialize (Hab k). unfold zget in Hab.
  destruct (a !! k) as [x|], (b !! k) as [y|]; cbn in *; split; intros [? ?]; simplify_eq; done.
Qed.

(** ** Laws *)

#[export] Instance GCounter_equiv : Equiv GCounter := fun g h => GCounter_Equal g h = true.
#[export] Instance PNCounter_equiv : Equiv PNCounter := fun c d => PNCounter_Equal c d = true.

Lemma GCounter_equiv_slots (g h : GCounter) : g ≡ h <-> same_slots (counts g) (counts h).
Proof. apply GCounter_Equal_spec. Qed.

Lemma PNCounter_equiv_halves (c d : PNCounter) : c ≡ d <-> p_half c ≡ p_half d /\ n_half c ≡ n_half d.
Proof. unfold equiv, PNCounter_equiv, PNCounter_Equal. by rewrite andb_true_iff. Qed.

#[export] Instance GCounter_equivalence : Equivalence (≡@{GCounter}).
Proof.
  split; [intros g|intros g h|intros g h i]; rewrite !GCounter_equiv_slots; [reflexivity|by symmetry|by etrans].
Qed.

#[export] Instance PNCounter_equivalence : Equivalence (≡@{PNCounter}).
Proof.
  split; [intros g|intros g h|intros g h i]; rewrite !PNCounter_equiv_halves; [done|by intros [-> ->]|by intros [-> ->]].
Qed.

#[export] Instance GCounter_Value_proper : Proper ((≡) ==> (=)) GCounter_Value.
Proof. intros g h H%GCounter_equiv_slots. by rewrite !GCounter_Value_sum, (slot_sum_proper _ _ H). Qed.

#[export] Instance PNCounter_Value_proper : Proper ((≡) ==> (=)) PNCounter_Value.
Proof. intros c d [H1 H2]%PNCounter_equiv_halves. unfold PNCounter_Value. by rewrite H1, H2. Qed.

Definition GCounter_ok (g : GCounter) : Prop := slots_ok (counts g).
Definition PNCounter_ok (c : PNCounter) : Prop := GCounter_ok (p_half c) /\ GCounter_ok (n_half c).

Lemma GCounter_Merge_slot g h k : GCounter_ok g -> GCounter_ok h ->
  zget (counts (GCounter_Merge g h)) k = Z.max (zget (counts g) k) (zget (counts h) k).
Proof. intros Hg Hh. cbn. rewrite copy_map_id. by apply max_into_zget. Qed.

Lemma GCounter_Merge_ok g h : GCounter_ok g -> GCounter_ok h -> GCounter_ok (GCounter_Merge g h).
Proof. intros Hg Hh. unfold GCounter_ok; cbn. rewrite copy_map_id. by apply max_into_ok. Qed.

Lemma GCounter_Inc_ok id d g : GCounter_ok g -> GCounter_ok (GCounter_Inc id d g).
Proof. intros Hg. apply map_Forall_insert_2; [apply u64_range|done]. Qed.

Lemma PNCounter_New_ok : PNCounter_ok PNCounter_New.
Proof. split; apply map_Forall_empty. Qed.
Lemma PNCounter_Inc_ok id d c : PNCounter_ok c -> PNCounter_ok (PNCounter_Inc id d c).
Proof. intros []. split; cbn; [by apply GCounter_Inc_ok|done]. Qed.
Lemma PNCounter_Dec_ok id d c : PNCounter_ok c -> PNCounter_ok (PNCounter_Dec id d c).
Proof. intros []. split; cbn; [done|by apply GCounter_Inc_ok]. Qed.

#[export] Hint Resolve GCounter_Merge_ok GCounter_Inc_ok PNCounter_New_ok PNCounter_Inc_ok PNCounter_Dec_ok : helix.

#[export] Instance GCounter_convergent : Convergent (≡@{GCounter}) GCounter_ok GCounter_ok GCounter_Merge.
Proof.
  split; [apply _|..].
  - intros s s' d H%GCounter_equiv_slots. apply GCounter_equiv_slots; cbn. rewrite !copy_map_id.
    by apply max_into_proper.
  - auto with helix.
  - intros s d1 d2 Hs H1 H2. apply GCounter_equiv_slots. intros k.
    rewrite !GCounter_Merge_slot by auto with helix. lia.
  - intros s d Hs Hd. apply GCounter_equiv_slots. intros k.
    rewrite !GCounter_Merge_slot by auto with helix. lia.
Qed.

#[export] Instance PNCounter_convergent : Convergent (≡@{PNCounter}) PNCounter_ok PNCounter_ok PNCounter_Merge.
Proof.
  split; [apply _|..].
  - intros s s' d [H1 H2]%PNCounter_equiv_halves. apply PNCounter_equiv_halves; cbn. split; by apply conv_proper.
  - intros s d [] []. split; cbn; auto with helix.
  - intros s d1 d2 [] [] []. apply PNCounter_equiv_halves; cbn. split; by apply conv_comm.
  - intros s d [] []. apply PNCounter_equiv_halves; cbn. split; by apply conv_idem.
Qed.

(** ** A cluster of replicas

    Each replica increments and decrements only its own slot and merges the state
    of other replicas at arbitrary times. *)

Inductive pn_op :=
  | OpInc (r : string) (delta : Z)
  | OpDec (r : string) (delta : Z)
  | OpSync (r from : string).

Definition replica (cl : gmap string PNCounter) (r : string) : PNCounter := default PNCounter_New (cl !! r).

Definition cluster_step (cl : gmap string PNCounter) (o : pn_op) : gmap string PNCounter :=
  match o with
  | OpInc r d => <[r := PNCounter_Inc r d (replica cl r)]> cl
  | OpDec r d => <[r := PNCounter_Dec r d (replica cl r)]> cl
  | OpSync r from => <[r := PNCounter_Merge (replica cl r) (replica cl from)]> cl
  end.

Definition cluster_run (ops : list pn_op) : gmap string PNCounter := foldl cluster_step ∅ ops.

(** The state any observer reaches after hearing from every replica. *)
Definition merge_all (cl : gmap string PNCounter) : PNCounter :=
  foldl PNCounter_Merge PNCounter_New (map_to_list cl).*2.

Definition op_inc (o : pn_op) : Z := match o with OpInc _ d => d | _ => 0 end.
Definition op_dec (o : pn_op) : Z := match o with OpDec _ d => d | _ => 0 end.
Definition total (f : pn_op -> Z) (ops : list pn_op) : Z := foldr (fun o acc => f o + acc) 0 ops.

(** What each replica really added to its own slot of a half. *)
Definition truth (f : pn_op -> Z) (ops : list pn_op) : gmap string Z :=
  foldl (fun m o => match o with
                    | OpInc r _ | OpDec r _ => <[r := zget m r + f o]> m
                    | OpSync _ _ => m
                    end) ∅ ops.

Lemma slot_sum_update m k v : slot_sum (<[k := v]> m) = slot_sum m - zget m k + v.
Proof.
  destruct (m !! k) as [w|] eqn:E.
  - rewrite (zget_Some _ _ _ E), <- (insert_delete_eq m k v).
    rewrite slot_sum_insert by apply lookup_delete_eq.
    rewrite <- (insert_delete_id m k w E) at 2. rewrite slot_sum_insert by apply lookup_delete_eq. lia.
  - rewrite slot_sum_insert by done. unfold zget. rewrite E. cbn. lia.
Qed.

Lemma truth_snoc f ops o :
  truth f (ops ++ [o]) = match o with
                         | OpInc r _ | OpDec r _ => <[r := zget (truth f ops) r + f o]> (truth f ops)
                         | OpSync _ _ => truth f ops
                         end.
Proof. unfold truth. by rewrite foldl_app. Qed.

Lemma total_snoc f ops o : total f (ops ++ [o]) = total f ops + f o.
Proof. unfold total. induction ops as [|o' ops IH]; cbn; [lia|]. rewrite IH. lia. Qed.

Lemma truth_sum f ops : (forall r r', f (OpSync r r') = 0) -> slot_sum (truth f ops) = total f ops.
Proof.
  intros Hf. induction ops as [|o ops IH] using rev_ind; [done|].
  rewrite truth_snoc, total_snoc. destruct o; rewrite ?slot_sum_update, ?Hf, IH; lia.
Qed.

Lemma truth_bound f ops k :
  Forall (fun o => 0 <= f o) ops -> 0 <= zget (truth f ops) k <= total f ops.
Proof.
  intros Hf. induction ops as [|o ops IH] using rev_ind; [done|].
  apply Forall_app in Hf as [Hf Ho]. apply Forall_cons in Ho as [Ho _]. specialize (IH Hf).
  rewrite truth_snoc, total_snoc. destruct o as [r d|r d|r r']; [| |lia];
    (destruct (decide (r = k)) as [->|]; [rewrite zget_insert_eq|rewrite zget_insert_ne by done]; lia).
Qed.

(** No replica is ahead of the truth, and each is exact about itself. *)
Definition half_inv (half : string -> GCounter) (t : gmap string Z) : Prop :=
  forall r, GCounter_ok (half r) /\ zget (counts (half r)) r = zget t r /\
    forall k, zget (counts (half r)) k <= zget t k.

Lemma half_inv_inc half t r d (half' : string -> GCounter) :
  half_inv half t -> 0 <= d -> zget t r + d <= MaxUint64 -> 0 <= zget t r ->
  (forall k, half' k = if decide (r = k) then GCounter_Inc r d (half r) else half k) ->
  half_inv half' (<[r := zget t r + d]> t).
Proof.
  intros Hinv Hd Hmax Hpos Hh k. rewrite Hh. destruct (Hinv k) as (Hok & Heq & Hle).
  destruct (Hinv r) as (Hokr & Heqr & Hler). case_decide as Hk; [subst k|].
  - split; [by apply GCounter_Inc_ok|]. cbn. rewrite !zget_insert_eq, Heqr, u64_id by int_lia. split; [done|].
    intros k. destruct (decide (r = k)) as [->|Hne]; [by rewrite !zget_insert_eq|].
    by rewrite !zget_insert_ne by done.
  - split; [done|]. rewrite zget_insert_ne by done. split; [done|]. intros j. specialize (Hle j).
    destruct (decide (r = j)) as [->|Hne]; [rewrite zget_insert_eq|rewrite zget_insert_ne by done]; lia.
Qed.

Lemma half_inv_sync half t r from (half' : string -> GCounter) :
  half_inv half t ->
  (forall k, half' k = if decide (r = k) then GCounter_Merge (half r) (half from) else half k) ->
  half_inv half' t.
Proof.
  intros Hinv Hh k. rewrite Hh. case_decide as Hk; [subst k|apply Hinv].
  destruct (Hinv r) as (Hok & Heq & Hle). destruct (Hinv from) as (Hokf & Heqf & Hlef).
  split; [by apply GCounter_Merge_ok|]. split; [|intros k; specialize (Hle k); specialize (Hlef k)];
    rewrite GCounter_Merge_slot by done; [specialize (Hlef r)|]; lia.
Qed.

Lemma half_inv_idle half t r (half' : string -> GCounter) :
  half_inv half t -> (forall k, half' k = half k) -> half_inv half' (<[r := zget t r + 0]> t).
Proof.
  intros Hinv Hh k. rewrite Hh. assert (forall j, zget (<[r := zget t r + 0]> t) j = zget t j) as Heq.
  { intros j. destruct (decide (r = j)) as [->|]; [rewrite zget_insert_eq; lia|by rewrite zget_insert_ne]. }
  destruct (Hinv k) as (? & ? & ?). rewrite Heq. split_and!; [done..|]. intros j. by rewrite Heq.
Qed.

Lemma replica_insert cl r c k : replica (<[r := c]> cl) k = if decide (r = k) then c else replica cl k.
Proof. unfold replica. rewrite lookup_insert. by case_decide. Qed.

Lemma cluster_inv ops :
  Forall (fun o => 0 <= op_inc o /\ 0 <= op_dec o) ops ->
  total op_inc ops <= MaxUint64 -> total op_dec ops <= MaxUint64 ->
  half_inv (fun r => p_half (replica (cluster_run ops) r)) (truth op_inc ops) /\
  half_inv (fun r => n_half (replica (cluster_run ops) r)) (truth op_dec ops).
Proof.
  induction ops as [|o ops IH] using rev_ind; intros Hops Hi Hd.
  { split; intros r; (split; [apply map_Forall_empty|done]). }
  apply Forall_app in Hops as [Hops Ho]. apply Forall_cons in Ho as [[Hoi Hod] _].
  rewrite total_snoc in Hi, Hd. destruct IH as [IHp IHn]; [done|lia|lia|].
  assert (Forall (fun o => 0 <= op_inc o) ops /\ Forall (fun o => 0 <= op_dec o) ops) as [Hfi Hfd]
    by (split; eapply Forall_impl; [exact Hops|cbn; tauto|exact Hops|cbn; tauto]).
  rewrite !truth_snoc. unfold cluster_run. rewrite foldl_app. fold (cluster_run ops).
  set (cl := cluster_run ops) in *.
  assert (forall r, 0 <= zget (truth op_inc ops) r <= total op_inc ops) as Bi by (intros; by apply truth_bound).
  assert (forall r, 0 <= zget (truth op_dec ops) r <= total op_dec ops) as Bd by (intros; by apply truth_bound).
  destruct o as [r d|r d|r from]; cbn in *; try specialize (Bi r); try specialize (Bd r); split.
  - apply (half_inv_inc (fun r => p_half (replica cl r))); [done..|lia|lia|].
    intros k. rewrite replica_insert. by case_decide.
  - apply (half_inv_idle (fun r => n_half (replica cl r))); [done|].
    intros k. rewrite replica_insert. by case_decide; subst.
  - apply (half_inv_idle (fun r => p_half (replica cl r))); [done|].
    intros k. rewrite replica_insert. by case_decide; subst.
  - apply (half_inv_inc (fun r => n_half (replica cl r))); [done..|lia|lia|].
    intros k. rewrite replica_insert. by case_decide.
  - apply (half_inv_sync (fun r => p_half (replica cl r)) _ r from); [done|].
    intros k. rewrite replica_insert. by case_decide.
  - apply (half_inv_sync (fun r => n_half (replica cl r)) _ r from); [done|].
    intros k. rewrite replica_insert. by case_decide.
Qed.

(** Merging a list of counters takes the maximum of each slot. *)
Lemma merge_list_slot (sel : PNCounter -> GCounter) (l : list PNCounter) t c :
  (forall c d, sel (PNCounter_Merge c d) = GCounter_Merge (sel c) (sel d)) ->
  GCounter_ok (sel c) -> Forall (fun d => GCounter_ok (sel d)) l ->
  (forall k, zget (counts (sel c)) k <= zget t k) ->
  Forall (fun d => forall k, zget (counts (sel d)) k <= zget t k) l ->
  let m := foldl PNCounter_Merge c l in
  GCounter_ok (sel m) /\ (forall k, zget (counts (sel m)) k <= zget t k) /\
  (forall k, zget (counts (sel c)) k <= zget (counts (sel m)) k) /\
  (forall d k, d ∈ l -> zget (counts (sel d)) k <= zget (counts (sel m)) k).
Proof.
  intros Hsel Hc Hl Hct Hlt. revert c Hc Hct. induction l as [|d l IH]; intros c Hc Hct; cbn.
  { split_and!; [done..|]. intros d k Hd. by apply elem_of_nil in Hd. }
  apply Forall_cons in Hl as [Hd Hl]. apply Forall_cons in Hlt as [Hdt Hlt].
  assert (forall k, zget (counts (sel (PNCounter_Merge c d))) k =
    Z.max (zget (counts (sel c)) k) (zget (counts (sel d)) k)) as Hm
    by (intros k; rewrite Hsel; by apply GCounter_Merge_slot).
  destruct (IH Hl Hlt (PNCounter_Merge c d)) as (? & ? & Hge & Hin).
  { rewrite Hsel. by apply GCounter_Merge_ok. }
  { intros k. rewrite Hm. specialize (Hct k). specialize (Hdt k). lia. }
  split_and!; [done..| |].
  - intros k. specialize (Hge k). rewrite Hm in Hge. lia.
  - intros d' k [->|Hd']%elem_of_cons; [|by apply Hin]. specialize (Hge k). rewrite Hm in Hge. lia.
Qed.


Lemma merge_all_slots (sel : PNCounter -> GCounter) cl t :
  (forall c d, sel (PNCounter_Merge c d) = GCounter_Merge (sel c) (sel d)) -> sel PNCounter_New = GCounter_New ->
  half_inv (fun r => sel (replica cl r)) t -> (forall k, 0 <= zget t k) ->
  same_slots (counts (sel (merge_all cl))) t.
Proof.
  intros Hsel Hnew Hinv Hpos.
  assert (forall d, d ∈ (map_to_list cl).*2 -> exists r, cl !! r = Some d) as Hin.
  { intros d ([r d'] & -> & Hd)%list_elem_of_fmap. exists r. by apply elem_of_map_to_list in Hd. }
  assert (forall r d, cl !! r = Some d -> replica cl r = d) as Hrep by (intros r d Hd; unfold replica; by rewrite Hd).
  destruct (merge_list_slot sel (map_to_list cl).*2 t PNCounter_New) as (_ & Hle & Hgec & Hge); [done|..].
  - rewrite Hnew. apply map_Forall_empty.
  - apply Forall_forall. intros d Hd. apply Hin in Hd as [r Hr]. rewrite <- (Hrep r d Hr). apply Hinv.
  - intros k. rewrite Hnew. cbn. rewrite zget_empty. apply Hpos.
  - apply Forall_forall. intros d Hd. apply Hin in Hd as [r Hr]. rewrite <- (Hrep r d Hr). apply Hinv.
  - intros k. apply Z.le_antisymm; [apply Hle|]. destruct (Hinv k) as (_ & Heq & _). rewrite <- Heq.
    destruct (cl !! k) as [d|] eqn:E.
    + rewrite (Hrep k d E). apply Hge. apply list_elem_of_fmap. exists (k, d). split; [done|]. by apply elem_of_map_to_list.
    + unfold replica. rewrite E. apply Hgec.
Qed.

(** ** Properties *)

(** Strong eventual consistency of the counters.  Two replicas that start
    from the same state and merge the same set of peer states, in any order and
    with any duplication, are [Equal] and report the same [Value]. *)
Theorem pncounter_converges c l1 l2 :
  PNCounter_ok c -> Forall PNCounter_ok l1 -> Forall PNCounter_ok l2 -> (forall d, d ∈ l1 <-> d ∈ l2) ->
  PNCounter_Equal (foldl PNCounter_Merge c l1) (foldl PNCounter_Merge c l2) = true /\
  PNCounter_Value (foldl PNCounter_Merge c l1) = PNCounter_Value (foldl PNCounter_Merge c l2).
Proof.
  intros Hc H1 H2 Hset.
  assert (foldl PNCounter_Merge c l1 ≡ foldl PNCounter_Merge c l2) as Heq
    by (eapply converge_same_updates; eauto; apply _).
  split; [exact Heq|by rewrite Heq].
Qed.

(** No increment or decrement is lost or counted twice.  Replicas update only
    their own slot and merge each other's states at arbitrary points of any run;
    merging all replicas then yields exactly the increments minus the decrements
    of the whole run (as an [int64]), provided neither total overflows [uint64]. *)
Theorem pncounter_counts_every_update ops :
  Forall (fun o => 0 <= op_inc o /\ 0 <= op_dec o) ops ->
  total op_inc ops <= MaxUint64 -> total op_dec ops <= MaxUint64 ->
  PNCounter_Value (merge_all (cluster_run ops)) = i64 (total op_inc ops - total op_dec ops).
Proof.
  intros Hops Hi Hd. destruct (cluster_inv ops Hops Hi Hd) as [Hp Hn].
  assert (forall k, 0 <= zget (truth op_inc ops) k) as Bi.
  { intros k. apply truth_bound. eapply Forall_impl; [exact Hops|cbn; tauto]. }
  assert (forall k, 0 <= zget (truth op_dec ops) k) as Bd.
  { intros k. apply truth_bound. eapply Forall_impl; [exact Hops|cbn; tauto]. }
  apply (merge_all_slots p_half) in Hp; [|done..]. apply (merge_all_slots n_half) in Hn; [|done..].
  unfold PNCounter_Value. rewrite !GCounter_Value_sum, (slot_sum_proper _ _ Hp), (slot_sum_proper _ _ Hn).
  rewrite !truth_sum by done. apply i64_sub.
Qed.

(** ** Concrete runs *)

Definition demo_ops : list pn_op :=
  [OpInc "a" 5; OpInc "b" 7; OpSync "b" "a"; OpDec "b" 2; OpSync "a" "b"; OpInc "a" 1; OpSync "c" "a"].

Lemma pncounter_counts_every_update_witness :
  PNCounter_Value (merge_all (cluster_run demo_ops)) = 11.
Proof.
  rewrite (pncounter_counts_every_update demo_ops); [reflexivity|concrete|concrete|concrete].
Defined.

Lemma pncounter_converges_witness :
  let a := PNCounter_Inc "a" 3 PNCounter_New in
  let b := PNCounter_Dec "b" 4 PNCounter_New in
  PNCounter_Equal (foldl PNCounter_Merge PNCounter_New [a; b]) (foldl PNCounter_Merge PNCounter_New [b; a; b]) = true /\
  PNCounter_Value (foldl PNCounter_Merge PNCounter_New [a; b]) = PNCounter_Value (foldl PNCounter_Merge PNCounter_New [b; a; b]).
Proof.
  cbv zeta.
  apply (pncounter_converges PNCounter_New [PNCounter_Inc "a" 3 PNCounter_New; PNCounter_Dec "b" 4 PNCounter_New]
    [PNCounter_Dec "b" 4 PNCounter_New; PNCounter_Inc "a" 3 PNCounter_New; PNCounter_Dec "b" 4 PNCounter_New]).
  - auto with helix.
  - repeat apply Forall_cons_2; auto with helix.
  - repeat apply Forall_cons_2; auto with helix.
  - intros d. rewrite !elem_of_cons. tauto.
Defined.
