(* ===== verification/Register.v ===== *)
(** * Last-writer-wins register ([src/pkg/crdt/crdt.go]: [LWWRegister])

    The register keeps the write with the largest (timestamp, replica) stamp.
    Merging is order-independent when a stamp identifies its write, which is
    what the stamps are for: [stamped w] says that every set register carries
    the value [w] that its stamp was given to. *)

From S2P Require Import Prelude.
Local Open Scope Z_scope.

Record LWWRegister := mkLWW { lww_value : string; lww_timestamp : Z; lww_replica : string; lww_set : bool }.

Definition LWWRegister_New : LWWRegister := mkLWW EmptyString 0 EmptyString false.

Definition LWWRegister_dominates (r : LWWRegister) (timestamp : Z) (id : string) : bool :=
  if negb (lww_set r) then false
  else if decide (lww_timestamp r <> timestamp) then bool_decide (lww_timestamp r > timestamp)
  else bool_decide (String.le id (lww_replica r)).

Definition LWWRegister_Set (value : string) (timestamp : Z) (id : string) (r : LWWRegister) : LWWRegister :=
  if LWWRegister_dominates r timestamp id then r else mkLWW value timestamp id true.

Definition LWWRegister_Value (r : LWWRegister) : string * bool := (lww_value r, lww_set r).

Definition LWWRegister_Clone (r : LWWRegister) : LWWRegister := r.

Definition LWWRegister_Merge (r other : LWWRegister) : LWWRegister :=
  let out := LWWRegister_Clone r in
  if lww_set other then LWWRegister_Set (lww_value other) (lww_timestamp other) (lww_replica other) out else out.

Definition LWWRegister_Equal (r other : LWWRegister) : bool :=
  if decide (lww_set r <> lww_set other) then false
  else if negb (lww_set r) then true
  else bool_decide (lww_value r = lww_value other) && bool_decide (lww_timestamp r = lww_timestamp other)
       && bool_decide (lww_replica r = lww_replica other).

(** ** Stamps *)

Definition stamp_le (t1 : Z) (id1 : string) (t2 : Z) (id2 : string) : Prop :=
  t1 < t2 \/ (t1 = t2 /\ String.le id1 id2).

Lemma stamp_le_trans t1 i1 t2 i2 t3 i3 : stamp_le t1 i1 t2 i2 -> stamp_le t2 i2 t3 i3 -> stamp_le t1 i1 t3 i3.
Proof. unfold stamp_le. intros [?|[-> ?]] [?|[-> ?]]; [left; lia..|]. right. split; [done|]. by etrans. Qed.

Lemma stamp_le_antisym t1 i1 t2 i2 : stamp_le t1 i1 t2 i2 -> stamp_le t2 i2 t1 i1 -> t1 = t2 /\ i1 = i2.
Proof. unfold stamp_le. intros [?|[-> ?]] [?|[? ?]]; try lia. split; [done|]. by apply (anti_symm String.le). Qed.

Lemma stamp_le_total t1 i1 t2 i2 : stamp_le t1 i1 t2 i2 \/ stamp_le t2 i2 t1 i1.
Proof.
  unfold stamp_le. destruct (Z.lt_trichotomy t1 t2) as [?|[->|?]]; [tauto| |tauto].
  destruct (total String.le i1 i2); auto.
Qed.

Lemma dominates_stamp r t id :
  LWWRegister_dominates r t id = true <-> lww_set r = true /\ stamp_le t id (lww_timestamp r) (lww_replica r).
Proof.
  unfold LWWRegister_dominates, stamp_le. destruct (lww_set r); cbn; [|naive_solver].
  case_decide; rewrite bool_decide_eq_true; [|intuition lia]. intuition lia.
Qed.

(** [beats r d]: [r] is set and its stamp is at least that of the set register [d]. *)
Definition beats (r d : LWWRegister) : Prop :=
  lww_set d = true ->
  lww_set r = true /\ stamp_le (lww_timestamp d) (lww_replica d) (lww_timestamp r) (lww_replica r).

Lemma beats_refl r : beats r r.
Proof. intros Hr. split; [done|]. right. done. Qed.

Lemma beats_trans a b c : beats a b -> beats b c -> beats a c.
Proof. intros Hab Hbc Hc. destruct (Hbc Hc) as [Hb Hle]. destruct (Hab Hb). split; [done|]. by eapply stamp_le_trans. Qed.

(** Merging keeps one of its arguments (up to [Equal]) and beats both. *)
Lemma LWWRegister_Merge_cases r d :
  (LWWRegister_Merge r d = r \/ (LWWRegister_Merge r d = d /\ lww_set d = true)) /\
  beats (LWWRegister_Merge r d) r /\ beats (LWWRegister_Merge r d) d.
Proof.
  destruct d as [v t id []]; unfold LWWRegister_Merge, LWWRegister_Clone, LWWRegister_Set; cbn.
  - destruct (LWWRegister_dominates r t id) eqn:E.
    + apply dominates_stamp in E as [Hs Hle]. split_and!; [by left|apply beats_refl|by intros _].
    + split_and!; [by right| |apply beats_refl]. intros Hr. split; [done|]. cbn.
      destruct (stamp_le_total (lww_timestamp r) (lww_replica r) t id) as [?|Hle]; [done|].
      rewrite (proj2 (dominates_stamp r t id)) in E; [done|auto].
  - split_and!; [by left|apply beats_refl|done].
Qed.

#[export] Instance LWWRegister_equiv : Equiv LWWRegister := fun r s => LWWRegister_Equal r s = true.

Lemma LWWRegister_Equal_spec r s :
  LWWRegister_Equal r s = true <-> lww_set r = lww_set s /\ (lww_set r = true -> r = s).
Proof.
  destruct r as [v1 t1 i1 b1], s as [v2 t2 i2 b2]. unfold LWWRegister_Equal; cbn.
  case_decide; [naive_solver|]. destruct b1; cbn; [|naive_solver].
  rewrite !andb_true_iff, !bool_decide_eq_true. destruct b2; naive_solver.
Qed.

#[export] Instance LWWRegister_equivalence : Equivalence (≡@{LWWRegister}).
Proof.
  split; unfold equiv, LWWRegister_equiv.
  - intros r. by apply LWWRegister_Equal_spec.
  - intros r s. rewrite !LWWRegister_Equal_spec. intros [H1 H2]. split; [done|]. intros. symmetry. apply H2. congruence.
  - intros r s u. rewrite !LWWRegister_Equal_spec. intros [H1 H2] [H3 H4]. split; [congruence|].
    intros Hr. rewrite H2 by done. apply H4. congruence.
Qed.

(** Every stamp identifies one write. *)
Definition stamped (w : Z -> string -> string) (r : LWWRegister) : Prop :=
  lww_set r = true -> lww_value r = w (lww_timestamp r) (lww_replica r).

Lemma beats_antisym w r s : stamped w r -> stamped w s -> beats r s -> beats s r -> r ≡ s.
Proof.
  intros Hr Hs Hrs Hsr. apply LWWRegister_Equal_spec. unfold beats, stamped in *.
  destruct r as [v1 t1 i1 []], s as [v2 t2 i2 []]; cbn in *; try done.
  - split; [done|]. intros _. destruct Hrs as [_ H1]; [done|]. destruct Hsr as [_ H2]; [done|].
    destruct (stamp_le_antisym _ _ _ _ H1 H2) as [-> ->]. by rewrite Hr, Hs.
  - destruct Hsr; done.
  - destruct Hrs; done.
Qed.

Lemma LWWRegister_Merge_stamped w r d : stamped w r -> stamped w d -> stamped w (LWWRegister_Merge r d).
Proof. intros Hr Hd. by destruct (LWWRegister_Merge_cases r d) as [[->|[-> _]] _]. Qed.

(** The merge of a list: an element of it (or the start) that beats all others. *)
Lemma LWWRegister_fold_spec l r :
  let m := foldl LWWRegister_Merge r l in
  (m = r \/ (m ∈ l /\ lww_set m = true)) /\ beats m r /\ (forall d, d ∈ l -> beats m d).
Proof.
  revert r. induction l as [|d l IH]; intros r; cbn.
  { split_and!; [by left|apply beats_refl|]. intros d Hd. by apply elem_of_nil in Hd. }
  destruct (IH (LWWRegister_Merge r d)) as (Hin & Hb & Hl).
  destruct (LWWRegister_Merge_cases r d) as (Hcase & Hr & Hd).
  split_and!.
  - destruct Hin as [->|[? ?]]; [|right; split; [by right|done]].
    destruct Hcase as [->|[-> ?]]; [by left|]. right. split; [by left|done].
  - by eapply beats_trans.
  - intros d' [->|?]%elem_of_cons; [|by apply Hl]. by eapply beats_trans.
Qed.

(** ** Properties *)

(** The last writer wins, everywhere.  Merging any registers into [r] leaves
    the contents of one of them whose (timestamp, replica) stamp is maximal, and
    two replicas that merged the same set of registers, in any order and with
    duplicates, end up [Equal], provided a stamp is never given to two writes. *)
Theorem lww_last_writer_wins w r l1 l2 :
  stamped w r -> Forall (stamped w) l1 -> (forall d, d ∈ l1 <-> d ∈ l2) ->
  let m := foldl LWWRegister_Merge r l1 in
  m ∈ r :: l1 /\ (forall d, d ∈ r :: l1 -> beats m d) /\
  LWWRegister_Equal m (foldl LWWRegister_Merge r l2) = true.
Proof.
  intros Hr Hl Hset. cbv zeta.
  destruct (LWWRegister_fold_spec l1 r) as (Hin1 & Hb1 & Hl1).
  destruct (LWWRegister_fold_spec l2 r) as (Hin2 & Hb2 & Hl2).
  rewrite Forall_forall in Hl. split_and!.
  - destruct Hin1 as [->|[? _]]; [left|by right].
  - intros d [->|?]%elem_of_cons; auto.
  - apply (beats_antisym w).
    + destruct Hin1 as [->|[? _]]; auto.
    + destruct Hin2 as [->|[? _]]; [done|]. apply Hl. by apply Hset.
    + destruct Hin2 as [->|[H2 _]]; [done|]. apply Hl1. by apply Hset.
    + destruct Hin1 as [->|[H1 _]]; [done|]. apply Hl2. by apply Hset.
Qed.

(** Two writes with the same timestamp from different replicas. *)
Lemma lww_last_writer_wins_witness :
  let a := mkLWW "x" 5 "a" true in
  let b := mkLWW "y" 5 "b" true in
  let w := fun (_ : Z) (id : string) => if decide (id = "a") then "x" else "y" in
  LWWRegister_Value (foldl LWWRegister_Merge LWWRegister_New [a; b]) = ("y", true) /\
  LWWRegister_Equal (foldl LWWRegister_Merge LWWRegister_New [a; b]) (foldl LWWRegister_Merge LWWRegister_New [b; a; a]) = true.
Proof.
  cbv zeta. split; [done|].
  apply (lww_last_writer_wins (fun (_ : Z) (id : string) => if decide (id = "a") then "x" else "y") LWWRegister_New
    [mkLWW "x" 5 "a" true; mkLWW "y" 5 "b" true] [mkLWW "y" 5 "b" true; mkLWW "x" 5 "a" true; mkLWW "x" 5 "a" true]).
  - done.
  - repeat constructor.
  - intros d. rewrite !elem_of_cons. tauto.
Defined.
