(* ===== verification/VectorClock.v ===== *)
(** * Vector clocks ([src/pkg/crdt/vectorclock.go])

    A clock is a Go map from replica to [uint64]; absent slots read as zero.
    [Compare] sweeps the two maps with early exits; it is shown to decide the
    componentwise partial order, for which [Merge] is the least upper bound. *)

From S2P Require Import Prelude Counters.
Local Open Scope Z_scope.

Inductive CausalityRelation := Before | After | Equal | Concurrent.

#[global] Instance CausalityRelation_eq_dec : EqDecision CausalityRelation.
Proof. solve_decision. Defined.

Definition CausalityRelation_String (r : CausalityRelation) : string :=
  match r with Before => "Before" | After => "After" | Equal => "Equal" | Concurrent => "Concurrent" end.

Abbreviation VectorClock := (gmap string Z) (only parsing).

Definition VectorClock_Increment (id : string) (vc : VectorClock) : VectorClock := <[id := u64 (zget vc id + 1)]> vc.

Definition VectorClock_Merge (vc other : VectorClock) : VectorClock := max_into (copy_map vc) other.

Definition VectorClock_Clone (vc : VectorClock) : VectorClock := copy_map vc.

(** The first loop of [Compare], over the entries of [vc]: [None] is the early
    return of [Concurrent], [Some (vcLess, vcGreater)] the flags at its end. *)
Fixpoint compare_loop1 (other : VectorClock) (entries : list (string * Z)) (vcLess vcGreater : bool) : option (bool * bool) :=
  match entries with
  | [] => Some (vcLess, vcGreater)
  | (id, v) :: entries =>
      let w := zget other id in
      let '(vcLess, vcGreater) :=
        if decide (v < w) then (true, vcGreater) else if decide (v > w) then (vcLess, true) else (vcLess, vcGreater) in
      if vcLess && vcGreater then None else compare_loop1 other entries vcLess vcGreater
  end.

(** The second loop, over the entries of [other] that are absent from [vc]. *)
Fixpoint compare_loop2 (vc : VectorClock) (entries : list (string * Z)) (vcLess vcGreater : bool) : option (bool * bool) :=
  match entries with
  | [] => Some (vcLess, vcGreater)
  | (id, w) :: entries =>
      match vc !! id with
      | Some _ => compare_loop2 vc entries vcLess vcGreater
      | None =>
          let vcLess := if decide (w > 0) then true else vcLess in
          if vcLess && vcGreater then None else compare_loop2 vc entries vcLess vcGreater
      end
  end.

Definition VectorClock_Compare (vc other : VectorClock) : CausalityRelation :=
  match compare_loop1 other (map_to_list vc) false false with
  | None => Concurrent
  | Some (vcLess, vcGreater) =>
      match compare_loop2 vc (map_to_list other) vcLess vcGreater with
      | None => Concurrent
      | Some (vcLess, vcGreater) =>
          if negb vcLess && negb vcGreater then Equal
          else if vcLess && negb vcGreater then Before
          else if vcGreater && negb vcLess then After
          else Concurrent
      end
  end.

Definition VectorClock_HappensBefore (vc other : VectorClock) : bool :=
  bool_decide (VectorClock_Compare vc other = Before).

(** ** The partial order *)

Definition vc_le (a b : VectorClock) : Prop := forall id, zget a id <= zget b id.

#[export] Instance vc_le_preorder : PreOrder vc_le.
Proof. split; [intros a id; lia|]. intros a b c H1 H2 id. specialize (H1 id). specialize (H2 id). lia. Qed.

(** The flags computed by a loop, once no early exit happened, say which strict
    inequalities were met; an early exit means both kinds were. *)
Lemma entries_cons (P : string -> Z -> Prop) id v (l : list (string * Z)) :
  (exists i x, (i, x) ∈ (id, v) :: l /\ P i x) <-> P id v \/ exists i x, (i, x) ∈ l /\ P i x.
Proof. setoid_rewrite elem_of_cons. naive_solver. Qed.

Lemma entries_nil (P : string -> Z -> Prop) : (exists i x, (i, x) ∈ [] /\ P i x) <-> False.
Proof. split; [|done]. intros (? & ? & ?%elem_of_nil & _). done. Qed.

Lemma entries_map (P : string -> Z -> Prop) (m : gmap string Z) :
  (exists i x, (i, x) ∈ map_to_list m /\ P i x) <-> (exists i x, m !! i = Some x /\ P i x).
Proof. by setoid_rewrite elem_of_map_to_list. Qed.

Lemma compare_loop1_spec other l less greater :
  less && greater = false ->
  match compare_loop1 other l less greater with
  | Some (less', greater') =>
      (less' = true <-> less = true \/ exists id v, (id, v) ∈ l /\ v < zget other id) /\
      (greater' = true <-> greater = true \/ exists id v, (id, v) ∈ l /\ v > zget other id) /\
      less' && greater' = false
  | None => (less = true \/ exists id v, (id, v) ∈ l /\ v < zget other id) /\
            (greater = true \/ exists id v, (id, v) ∈ l /\ v > zget other id)
  end.
Proof.
  revert less greater. induction l as [|[id v] l IH]; intros less greater Hlg; cbn [compare_loop1].
  { rewrite !(entries_nil (fun id v => v < zget other id)), !(entries_nil (fun id v => v > zget other id)). tauto. }
  pose proof (entries_cons (fun id v => v < zget other id) id v l) as El.
  pose proof (entries_cons (fun id v => v > zget other id) id v l) as Eg. cbn beta in El, Eg.
  set (f := if decide (v < zget other id) then _ else _).
  assert ((f.1 = true <-> less = true \/ v < zget other id) /\ (f.2 = true <-> greater = true \/ v > zget other id)) as [Hf1 Hf2].
  { subst f. repeat case_decide; cbn; intuition lia. }
  destruct f as [less' greater']. cbn in Hf1, Hf2. destruct (less' && greater') eqn:E.
  - apply andb_true_iff in E as [?%Hf1 ?%Hf2]. rewrite El, Eg. tauto.
  - specialize (IH less' greater' E).
    destruct (compare_loop1 other l less' greater') as [[]|]; rewrite El, Eg; tauto.
Qed.

Lemma compare_loop2_spec vc l less greater :
  less && greater = false ->
  match compare_loop2 vc l less greater with
  | Some (less', greater') =>
      (less' = true <-> less = true \/ exists id w, (id, w) ∈ l /\ vc !! id = None /\ w > 0) /\ greater' = greater
  | None => (less = true \/ exists id w, (id, w) ∈ l /\ vc !! id = None /\ w > 0) /\ greater = true
  end.
Proof.
  revert less. induction l as [|[id w] l IH]; intros less Hlg; cbn [compare_loop2].
  { rewrite (entries_nil (fun id w => vc !! id = None /\ w > 0)). tauto. }
  pose proof (entries_cons (fun id w => vc !! id = None /\ w > 0) id w l) as El. cbn beta in El.
  destruct (vc !! id) as [x|] eqn:E.
  { specialize (IH less Hlg). destruct (compare_loop2 vc l less greater) as [[]|]; rewrite El; intuition congruence. }
  set (less1 := if decide (w > 0) then true else less).
  assert (less1 = true <-> less = true \/ w > 0) as H1 by (subst less1; case_decide; intuition lia).
  destruct (less1 && greater) eqn:E'.
  - apply andb_true_iff in E' as [?%H1 ?]. rewrite El. tauto.
  - specialize (IH less1 E'). destruct (compare_loop2 vc l less1 greater) as [[]|]; rewrite El; tauto.
Qed.

Lemma vc_lt_split a b :
  slots_ok b ->
  (exists id, zget a id < zget b id) <->
  (exists id v, a !! id = Some v /\ v < zget b id) \/ (exists id w, b !! id = Some w /\ a !! id = None /\ w > 0).
Proof.
  intros Hb. split.
  - intros [id Hid]. unfold zget at 1 in Hid. destruct (a !! id) as [v|] eqn:E; [left; eauto|].
    right. cbn in Hid. unfold zget in Hid. destruct (b !! id) as [w|] eqn:E'; cbn in Hid; [|lia].
    exists id, w. split_and!; [done..|lia].
  - intros [(id & v & Hv & Hlt)|(id & w & Hw & Ha & Hpos)]; exists id.
    + by rewrite (zget_Some _ _ _ Hv).
    + rewrite (zget_Some _ _ _ Hw). unfold zget. rewrite Ha. cbn. lia.
Qed.

Lemma vc_gt_split a b :
  slots_ok b -> (exists id, zget a id > zget b id) <-> (exists id v, a !! id = Some v /\ v > zget b id).
Proof.
  intros Hb. split.
  - intros [id Hid]. unfold zget at 1 in Hid. destruct (a !! id) as [v|] eqn:E; [eauto|].
    cbn in Hid. pose proof (slots_ok_zget b id Hb). int_lia.
  - intros (id & v & Hv & Hgt). exists id. by rewrite (zget_Some _ _ _ Hv).
Qed.

(** [Compare] as the two questions it answers. *)
Lemma VectorClock_Compare_flags a b :
  slots_ok a -> slots_ok b ->
  exists less greater,
    (less = true <-> exists id, zget a id < zget b id) /\ (greater = true <-> exists id, zget a id > zget b id) /\
    VectorClock_Compare a b = match less, greater with
                              | false, false => Equal | true, false => Before | false, true => After
                              | true, true => Concurrent
                              end.
Proof.
  intros Ha Hb. unfold VectorClock_Compare.
  pose proof (vc_lt_split a b Hb) as Elt. pose proof (vc_gt_split a b Hb) as Egt.
  pose proof (compare_loop1_spec b (map_to_list a) false false eq_refl) as H1.
  pose proof (entries_map (fun id v => v < zget b id) a) as M1.
  pose proof (entries_map (fun id v => v > zget b id) a) as M2.
  pose proof (entries_map (fun id w => a !! id = None /\ w > 0) b) as M3. cbn beta in M1, M2, M3.
  destruct (compare_loop1 b (map_to_list a) false false) as [[l1 g1]|]; cycle 1.
  { exists true, true. rewrite Elt, Egt. intuition congruence. }
  destruct H1 as (Hl1 & Hg1 & Hlg).
  pose proof (compare_loop2_spec a (map_to_list b) l1 g1 Hlg) as H2.
  destruct (compare_loop2 a (map_to_list b) l1 g1) as [[l2 g2]|].
  - exists l2, g2. destruct H2 as [H2 ->]. rewrite Elt, Egt. split_and!; [intuition congruence..|].
    by destruct l2, g1.
  - exists true, true. rewrite Elt, Egt. intuition congruence.
Qed.


(** Whether one clock is below another can be checked on their finite domains. *)
#[export] Instance vc_le_dec a b : Decision (vc_le a b).
Proof.
  refine (cast_if (decide (set_Forall (fun id => zget a id <= zget b id) (dom a ∪ dom b)))).
  - abstract (intros id; destruct (decide (id ∈ dom a ∪ dom b)) as [Hin|Hout]; [by apply s|];
      apply not_elem_of_union in Hout as [Ha%not_elem_of_dom Hb%not_elem_of_dom]; unfold zget; rewrite Ha, Hb; done).
  - abstract (intros Hle; apply n; intros id _; apply Hle).
Defined.

Lemma vc_not_le a b : ¬ vc_le a b <-> exists id, zget a id > zget b id.
Proof.
  split.
  - intros Hn. destruct (decide (set_Forall (fun id => zget a id <= zget b id) (dom a ∪ dom b))) as [Hs|Hs].
    + exfalso. apply Hn. intros id. destruct (decide (id ∈ dom a ∪ dom b)) as [Hin|Hout]; [by apply Hs|].
      apply not_elem_of_union in Hout as [Ha%not_elem_of_dom Hb%not_elem_of_dom]. unfold zget. by rewrite Ha, Hb.
    + apply not_set_Forall_Exists in Hs as (id & _ & Hid); [|apply _]. exists id. cbn in Hid. lia.
  - intros [id Hid] Hle. specialize (Hle id). lia.
Qed.

(** ** Properties *)

(** Vector clocks decide causality.  [Compare] answers [Before], [After],
    [Equal] or [Concurrent] exactly as the two clocks are related in the
    componentwise order (absent slots count as zero), whatever order the maps are
    visited in; [Merge] is the least upper bound in that order; and a local event
    moves a clock strictly forward. *)
Theorem vclock_decides_causality a b :
  slots_ok a -> slots_ok b ->
  VectorClock_Compare a b =
    (if decide (vc_le a b) then if decide (vc_le b a) then Equal else Before
     else if decide (vc_le b a) then After else Concurrent) /\
  (forall c, vc_le (VectorClock_Merge a b) c <-> vc_le a c /\ vc_le b c) /\
  (forall id, zget a id < MaxUint64 -> VectorClock_HappensBefore a (VectorClock_Increment id a) = true).
Proof.
  intros Ha Hb.
  assert (forall x y, slots_ok x -> slots_ok y -> VectorClock_Compare x y =
    (if decide (vc_le x y) then if decide (vc_le y x) then Equal else Before
     else if decide (vc_le y x) then After else Concurrent)) as Hcmp.
  { intros x y Hx Hy. destruct (VectorClock_Compare_flags x y Hx Hy) as (less & greater & Hl & Hg & ->).
    assert (less = true <-> ¬ vc_le y x) as Hl'.
    { rewrite Hl, vc_not_le. split; intros [id ?]; exists id; lia. }
    rewrite <- vc_not_le in Hg. destruct less, greater; repeat case_decide; intuition congruence. }
  split_and!; [by apply Hcmp| |].
  - intros c. unfold VectorClock_Merge, vc_le. rewrite copy_map_id. setoid_rewrite max_into_zget; [|done..].
    split; [intros Hm; split; intros id; specialize (Hm id); lia|]. intros [H1 H2] id.
    specialize (H1 id). specialize (H2 id). lia.
  - intros id Hmax. unfold VectorClock_HappensBefore. apply bool_decide_eq_true.
    pose proof (slots_ok_zget a id Ha) as Hid. unfold VectorClock_Increment. rewrite u64_id by int_lia.
    rewrite Hcmp; [|done|apply map_Forall_insert_2; [int_lia|done]].
    rewrite decide_True, decide_False; [done| |].
    + intros Hle. specialize (Hle id). rewrite zget_insert_eq in Hle. lia.
    + intros j. destruct (decide (id = j)) as [->|]; [rewrite zget_insert_eq; lia|by rewrite zget_insert_ne].
Qed.

Lemma vclock_decides_causality_witness :
  let a := {[ "x" := 1; "y" := 2 ]} : VectorClock in
  let b := {[ "x" := 2; "z" := 0 ]} : VectorClock in
  VectorClock_Compare a b = Concurrent /\ VectorClock_Compare a (VectorClock_Merge a b) = Before.
Proof.
  cbv zeta. split.
  - rewrite (proj1 (vclock_decides_causality ({[ "x" := 1; "y" := 2 ]} : VectorClock) ({[ "x" := 2; "z" := 0 ]} : VectorClock)
      ltac:(by_eval) ltac:(by_eval))). by vm_compute.
  - by vm_compute.
Defined.
