(* ===== verification/OrSet.v ===== *)
(** * Observed-remove set ([src/pkg/crdt/crdt.go]: [ORSet])

    Every [Add] mints a tag; [Remove] tombstones the tags observed so far; an
    element is present while it has a tag without a tombstone.  The set is a pair
    of tag maps plus the per-replica clocks that mint tags. *)

From S2P Require Import Prelude Counters.
Local Open Scope Z_scope.

(** ** Maps from elements to tag sets *)
Section tag_maps.
Context {T : Type} `{Countable T}.
Implicit Types m out : gmap string (gset T).

(** [for el, tags := range other { out[el] ∪= tags }] *)
Definition union_into out (other : gmap string (gset T)) : gmap string (gset T) :=
  range_fold (fun out el tags => <[el := sget out el ∪ tags]> out) out other.

(** The deep copy of [Clone]: a fresh set per element. *)
Definition copy_tags m : gmap string (gset T) :=
  range_fold (fun out el tags => <[el := list_to_set (elements tags)]> out) ∅ m.

(** The entries of [sameTagMap] that have tags. *)
Definition live_entries m : gmap string (gset T) :=
  range_fold (fun out el tags => if decide (0 < size tags)%nat then <[el := tags]> out else out) ∅ m.

Definition sameTagMap (a b : gmap string (gset T)) : bool :=
  let a := live_entries a in
  let b := live_entries b in
  if decide (size a <> size b) then false
  else range_all (fun el at_ =>
    match b !! el with
    | None => false
    | Some bt => if decide (size at_ <> size bt) then false else set_all (fun t => bool_decide (t ∈ bt)) at_
    end) a.

Lemma union_into_lookup out m el :
  union_into out m !! el = match m !! el with Some tags => Some (sget out el ∪ tags) | None => out !! el end.
Proof.
  unfold union_into. rewrite (range_fold_slot _ (fun o tags => Some (default ∅ o ∪ tags))); [done|].
  intros. by rewrite lookup_insert.
Qed.

Lemma union_into_sget out m el : sget (union_into out m) el = sget out el ∪ sget m el.
Proof.
  unfold sget at 1 3. rewrite union_into_lookup. destruct (m !! el); cbn; [done|]. fold (sget out el).
  by rewrite (right_id_L ∅ (∪)).
Qed.

Lemma copy_tags_id m : copy_tags m = m.
Proof.
  apply map_eq. intros el. unfold copy_tags.
  rewrite (range_fold_slot _ (fun _ tags => Some (list_to_set (elements tags)))).
  - destruct (m !! el); cbn; [|done]. f_equal. apply list_to_set_elements_L.
  - intros. by rewrite lookup_insert.
Qed.

Lemma live_entries_lookup m el tags : live_entries m !! el = Some tags <-> m !! el = Some tags /\ tags <> ∅.
Proof.
  unfold live_entries.
  rewrite (range_fold_slot _ (fun o tags => if decide (0 < size tags)%nat then Some tags else o)).
  - destruct (m !! el) as [tags'|]; [|naive_solver]. case_decide as Hs.
    + split; [intros [= ->]|naive_solver]. split; [done|]. intros ->. rewrite size_empty in Hs. lia.
    + split; [done|]. intros [[= ->] Hne]. exfalso. apply Hne, leibniz_equiv, size_empty_iff. lia.
  - intros. case_decide as Hs; [by rewrite lookup_insert|]. by case_decide; subst.
Qed.

Definition same_tags (a b : gmap string (gset T)) : Prop := forall el, sget a el = sget b el.

#[export] Instance same_tags_equiv : Equivalence same_tags.
Proof. split; [by intros a el|by intros a b Hab el|intros a b c H1 H2 el; by rewrite H1]. Qed.

Lemma sget_live m el : sget (live_entries m) el = sget m el.
Proof.
  unfold sget. destruct (live_entries m !! el) as [tags|] eqn:E.
  - apply live_entries_lookup in E as [-> _]. done.
  - destruct (m !! el) as [tags|] eqn:E'; cbn; [|done]. symmetry. destruct (decide (tags = ∅)) as [|Hne]; [done|].
    by rewrite (proj2 (live_entries_lookup m el tags)) in E.
Qed.

Lemma live_entries_same a b : same_tags a b <-> live_entries a = live_entries b.
Proof.
  split.
  - intros Hab. apply map_eq. intros el. apply option_eq. intros tags. rewrite !live_entries_lookup.
    specialize (Hab el). unfold sget in Hab. destruct (a !! el), (b !! el); cbn in Hab; naive_solver.
  - intros Hab el. by rewrite <- (sget_live a), <- (sget_live b), Hab.
Qed.

Lemma sameTagMap_spec a b : sameTagMap a b = true <-> same_tags a b.
Proof.
  rewrite live_entries_same. unfold sameTagMap. split.
  - case_decide as Hsz; [done|]. rewrite range_all_true. intros Hall.
    apply map_subseteq_size_eq; [|lia]. apply map_subseteq_spec. intros el tags Hel.
    specialize (Hall el tags Hel). cbn in Hall. destruct (live_entries b !! el) as [bt|]; [|done].
    case_decide as Hst; [done|]. rewrite set_all_true in Hall. f_equal. symmetry. apply set_subseteq_size_eq; [|lia].
    intros t Ht. by apply Hall, bool_decide_eq_true in Ht.
  - intros ->. rewrite decide_False by lia. apply range_all_true. intros el tags ->.
    rewrite decide_False by lia. apply set_all_true. intros t Ht. by apply bool_decide_eq_true.
Qed.

End tag_maps.

#[export] Hint Rewrite @union_into_sget @copy_tags_id : helix_rw.

(** ** The set *)

Record tag := mkTag { tag_Replica : string; tag_Seq : Z }.

#[export] Instance tag_eq_dec : EqDecision tag.
Proof. solve_decision. Defined.
#[export] Instance tag_countable : Countable tag.
Proof. refine (inj_countable' (fun t => (tag_Replica t, tag_Seq t)) (fun p => mkTag p.1 p.2) _). by intros []. Defined.

Record ORSet := mkORSet {
  or_adds : gmap string (gset tag);
  or_tombs : gmap string (gset tag);
  or_clocks : gmap string Z }.

Definition ORSet_New : ORSet := mkORSet ∅ ∅ ∅.

Definition ORSet_Add (element id : string) (s : ORSet) : ORSet :=
  let seq := u64 (zget (or_clocks s) id + 1) in
  mkORSet (<[element := sget (or_adds s) element ∪ {[mkTag id seq]}]> (or_adds s)) (or_tombs s)
    (<[id := seq]> (or_clocks s)).

Definition ORSet_Remove (element : string) (s : ORSet) : ORSet :=
  let live := sget (or_adds s) element in
  if decide (size live = 0%nat) then s
  else mkORSet (or_adds s) (<[element := sget (or_tombs s) element ∪ live]> (or_tombs s)) (or_clocks s).

Definition ORSet_Contains (s : ORSet) (element : string) : bool :=
  let live := sget (or_adds s) element in
  if decide (size live = 0%nat) then false
  else let tombs := sget (or_tombs s) element in set_any (fun t => bool_decide (t ∉ tombs)) live.

Definition ORSet_Elements (s : ORSet) : list string :=
  filter (fun el => ORSet_Contains s el = true) (map_to_list (or_adds s)).*1.

Definition ORSet_Clone (s : ORSet) : ORSet :=
  mkORSet (copy_tags (or_adds s)) (copy_tags (or_tombs s)) (copy_map (or_clocks s)).

Definition ORSet_Merge (s other : ORSet) : ORSet :=
  let out := ORSet_Clone s in
  mkORSet (union_into (or_adds out) (or_adds other)) (union_into (or_tombs out) (or_tombs other))
    (max_into (or_clocks out) (or_clocks other)).

Definition ORSet_Equal (s other : ORSet) : bool :=
  sameTagMap (or_adds s) (or_adds other) && sameTagMap (or_tombs s) (or_tombs other).

(** ** Laws *)

#[export] Instance ORSet_equiv : Equiv ORSet := fun s t => ORSet_Equal s t = true.

Lemma ORSet_equiv_tags (s t : ORSet) :
  s ≡ t <-> same_tags (or_adds s) (or_adds t) /\ same_tags (or_tombs s) (or_tombs t).
Proof. unfold equiv, ORSet_equiv, ORSet_Equal. by rewrite andb_true_iff, !sameTagMap_spec. Qed.

#[export] Instance ORSet_equivalence : Equivalence (≡@{ORSet}).
Proof.
  split; [intros s|intros s t|intros s t u]; rewrite !ORSet_equiv_tags; [done|by intros [-> ->]|by intros [-> ->]].
Qed.

Lemma ORSet_Contains_spec s el :
  ORSet_Contains s el = true <-> exists t, t ∈ sget (or_adds s) el /\ t ∉ sget (or_tombs s) el.
Proof.
  unfold ORSet_Contains. case_decide as Hsz.
  - split; [done|]. intros (t & Ht & _). apply size_empty_iff, leibniz_equiv in Hsz. rewrite Hsz in Ht. set_solver.
  - rewrite set_any_true. by setoid_rewrite bool_decide_eq_true.
Qed.

#[export] Instance ORSet_Contains_proper : Proper ((≡) ==> (=) ==> (=)) ORSet_Contains.
Proof.
  intros s t [Ha Ht]%ORSet_equiv_tags el ? <-. apply eq_bool_prop_intro. rewrite !Is_true_true, !ORSet_Contains_spec.
  by rewrite (Ha el), (Ht el).
Qed.

Lemma ORSet_Elements_spec s el : el ∈ ORSet_Elements s <-> ORSet_Contains s el = true.
Proof.
  unfold ORSet_Elements. rewrite list_elem_of_filter. split; [by intros [? _]|]. intros Hc. split; [done|].
  apply ORSet_Contains_spec in Hc as (t & Ht & _). unfold sget in Ht.
  destruct (or_adds s !! el) as [tags|] eqn:E; [|cbn in Ht; set_solver].
  apply list_elem_of_fmap. exists (el, tags). split; [done|]. by apply elem_of_map_to_list.
Qed.

Lemma ORSet_Remove_tags s el el' :
  sget (or_tombs (ORSet_Remove el s)) el' =
    (if decide (el = el') then sget (or_tombs s) el' ∪ sget (or_adds s) el' else sget (or_tombs s) el') /\
  or_adds (ORSet_Remove el s) = or_adds s /\ or_clocks (ORSet_Remove el s) = or_clocks s.
Proof.
  unfold ORSet_Remove. case_decide as Hsz; cbn.
  - split; [|done]. apply size_empty_iff, leibniz_equiv in Hsz. case_decide; subst; set_solver.
  - split; [|done]. case_decide; subst; [by rewrite sget_insert_eq|by rewrite sget_insert_ne].
Qed.

Lemma ORSet_Add_tags s el id el' :
  sget (or_adds (ORSet_Add el id s)) el' =
    (if decide (el = el') then sget (or_adds s) el' ∪ {[mkTag id (u64 (zget (or_clocks s) id + 1))]} else sget (or_adds s) el').
Proof. cbn. case_decide; subst; [by rewrite sget_insert_eq|by rewrite sget_insert_ne]. Qed.

Lemma ORSet_Merge_adds s t el : sget (or_adds (ORSet_Merge s t)) el = sget (or_adds s) el ∪ sget (or_adds t) el.
Proof. cbn. by autorewrite with helix_rw. Qed.
Lemma ORSet_Merge_tombs s t el : sget (or_tombs (ORSet_Merge s t)) el = sget (or_tombs s) el ∪ sget (or_tombs t) el.
Proof. cbn. by autorewrite with helix_rw. Qed.

#[export] Instance ORSet_convergent : Convergent (≡@{ORSet}) (fun _ => True) (fun _ => True) ORSet_Merge.
Proof.
  split; [apply _|..]; try done; intros; apply ORSet_equiv_tags; split; intros el;
    rewrite ?ORSet_Merge_adds, ?ORSet_Merge_tombs.
  - apply ORSet_equiv_tags in H as [H _]. by rewrite (H el).
  - apply ORSet_equiv_tags in H as [_ H]. by rewrite (H el).
  - set_solver.
  - set_solver.
  - set_solver.
  - set_solver.
Qed.

(** ** Well-formed sets: tags are bounded by the clocks, tombstones are of known tags *)

Definition ORSet_wf (s : ORSet) : Prop :=
  slots_ok (or_clocks s) /\
  (forall el t, t ∈ sget (or_adds s) el -> tag_Seq t <= zget (or_clocks s) (tag_Replica t)) /\
  (forall el, sget (or_tombs s) el ⊆ sget (or_adds s) el).

Lemma ORSet_New_wf : ORSet_wf ORSet_New.
Proof. split_and!; [apply map_Forall_empty|intros el t Ht; cbn in Ht; set_solver|done]. Qed.

Lemma ORSet_Add_wf el id s : zget (or_clocks s) id < MaxUint64 -> ORSet_wf s -> ORSet_wf (ORSet_Add el id s).
Proof.
  intros Hmax (Hc & Ht & Hs). pose proof (slots_ok_zget _ id Hc) as Hid.
  assert (u64 (zget (or_clocks s) id + 1) = zget (or_clocks s) id + 1) as Hseq by (apply u64_id; int_lia).
  split_and!.
  - apply map_Forall_insert_2; [apply u64_range|done].
  - intros el' t. rewrite ORSet_Add_tags. cbn. rewrite Hseq.
    assert (tag_Seq t <= zget (or_clocks s) (tag_Replica t) ->
      tag_Seq t <= zget (<[id := zget (or_clocks s) id + 1]> (or_clocks s)) (tag_Replica t)) as Hmono.
    { intros. destruct (decide (id = tag_Replica t)) as [->|]; [rewrite zget_insert_eq; lia|by rewrite zget_insert_ne]. }
    case_decide; [|eauto]. rewrite elem_of_union, elem_of_singleton. intros [?| ->]; [eauto|].
    cbn. by rewrite zget_insert_eq.
  - intros el'. rewrite ORSet_Add_tags. cbn. specialize (Hs el'). case_decide; set_solver.
Qed.

Lemma ORSet_Remove_wf el s : ORSet_wf s -> ORSet_wf (ORSet_Remove el s).
Proof.
  intros (Hc & Ht & Hs). split_and!.
  - by destruct (ORSet_Remove_tags s el el) as (_ & _ & ->).
  - intros el' t. destruct (ORSet_Remove_tags s el el') as (_ & -> & ->). apply Ht.
  - intros el'. destruct (ORSet_Remove_tags s el el') as (-> & -> & _). specialize (Hs el'). case_decide; set_solver.
Qed.

Lemma ORSet_Merge_wf s t : ORSet_wf s -> ORSet_wf t -> ORSet_wf (ORSet_Merge s t).
Proof.
  intros (Hc1 & Ht1 & Hs1) (Hc2 & Ht2 & Hs2). split_and!.
  - cbn. rewrite copy_map_id. by apply max_into_ok.
  - intros el x. rewrite ORSet_Merge_adds, elem_of_union. cbn. rewrite copy_map_id, max_into_zget by done.
    intros [Hx|Hx]; [apply Ht1 in Hx|apply Ht2 in Hx]; lia.
  - intros el. rewrite ORSet_Merge_adds, ORSet_Merge_tombs. specialize (Hs1 el). specialize (Hs2 el). set_solver.
Qed.

#[export] Hint Resolve ORSet_New_wf ORSet_Add_wf ORSet_Remove_wf ORSet_Merge_wf : helix.

(** ** A cluster of replicas, each adding under its own id *)

Inductive or_op := OrAdd (r el : string) | OrRemove (r el : string) | OrSync (r from : string).

Definition or_replica (cl : gmap string ORSet) (r : string) : ORSet := default ORSet_New (cl !! r).

Definition or_step (cl : gmap string ORSet) (o : or_op) : gmap string ORSet :=
  match o with
  | OrAdd r el => <[r := ORSet_Add el r (or_replica cl r)]> cl
  | OrRemove r el => <[r := ORSet_Remove el (or_replica cl r)]> cl
  | OrSync r from => <[r := ORSet_Merge (or_replica cl r) (or_replica cl from)]> cl
  end.

Definition or_run (ops : list or_op) : gmap string ORSet := foldl or_step ∅ ops.

(** Nobody knows a later clock of a replica than the replica itself. *)
Definition or_inv (n : Z) (cl : gmap string ORSet) : Prop :=
  forall r, ORSet_wf (or_replica cl r) /\ zget (or_clocks (or_replica cl r)) r <= n /\
    forall r', zget (or_clocks (or_replica cl r')) r <= zget (or_clocks (or_replica cl r)) r.

Lemma or_replica_insert cl r s k : or_replica (<[r := s]> cl) k = if decide (r = k) then s else or_replica cl k.
Proof. unfold or_replica. rewrite lookup_insert. by case_decide. Qed.

(** A step that changes only replica [r], gives it a well-formed state and no
    clock beyond what the others allow, preserves the invariant. *)
Lemma or_inv_insert n n' cl r s :
  or_inv n cl -> n <= n' -> ORSet_wf s -> zget (or_clocks (or_replica cl r)) r <= zget (or_clocks s) r <= n' ->
  (forall k, k <> r -> zget (or_clocks s) k <= zget (or_clocks (or_replica cl k)) k) ->
  or_inv n' (<[r := s]> cl).
Proof.
  intros Hinv Hn Hwf Hr Hk k. rewrite or_replica_insert. destruct (Hinv k) as (Hwfk & Hnk & Hlek).
  case_decide as Heq; [subst k|].
  - split_and!; [done|lia|]. intros r'. rewrite or_replica_insert. case_decide; [done|]. specialize (Hlek r'). lia.
  - split_and!; [done|lia|]. intros r'. rewrite or_replica_insert. case_decide; [by apply Hk|]. apply Hlek.
Qed.

Lemma or_step_inv n cl o : n < MaxUint64 -> or_inv n cl -> or_inv (n + 1) (or_step cl o).
Proof.
  intros Hn Hinv. destruct o as [r el|r el|r from]; cbn; destruct (Hinv r) as (Hwf & Hnr & Hle).
  - pose proof Hwf as (Hc & _). pose proof (slots_ok_zget _ r Hc).
    apply (or_inv_insert n); [done|lia|apply ORSet_Add_wf; [lia|done]|..]; cbn.
    + rewrite zget_insert_eq, u64_id by int_lia. lia.
    + intros k Hk. rewrite zget_insert_ne by done. apply Hinv.
  - destruct (ORSet_Remove_tags (or_replica cl r) el el) as (_ & _ & Hcl).
    apply (or_inv_insert n); rewrite ?Hcl; [done|lia|by apply ORSet_Remove_wf|lia|]. intros k _. apply Hinv.
  - destruct (Hinv from) as (Hwf' & _).
    assert (forall k, zget (or_clocks (ORSet_Merge (or_replica cl r) (or_replica cl from))) k =
      Z.max (zget (or_clocks (or_replica cl r)) k) (zget (or_clocks (or_replica cl from)) k)) as Hm.
    { intros k. cbn. rewrite copy_map_id. apply max_into_zget; [apply Hwf'|apply Hwf]. }
    apply (or_inv_insert n); [done|lia|by apply ORSet_Merge_wf|rewrite Hm; specialize (Hle from); lia|].
    intros k _. rewrite Hm. destruct (Hinv k) as (_ & _ & Hk). pose proof (Hk r). pose proof (Hk from). lia.
Qed.

Lemma or_run_inv ops : Z.of_nat (length ops) <= MaxUint64 -> or_inv (Z.of_nat (length ops)) (or_run ops).
Proof.
  induction ops as [|o ops IH] using rev_ind; intros Hlen.
  { intros r. split_and!; [apply ORSet_New_wf|done..]. }
  rewrite length_app in *. cbn in *. unfold or_run. rewrite foldl_app. cbn. fold (or_run ops).
  replace (Z.of_nat (length ops + 1)) with (Z.of_nat (length ops) + 1) by lia.
  apply or_step_inv; [lia|]. apply IH. lia.
Qed.

(** ** Properties *)

(** The observed-remove set converges.  Replicas that merged the same set of
    peer states, in any order and with duplicates, are [Equal], contain the same
    elements and list the same elements. *)
Theorem orset_converges s l1 l2 :
  (forall d, d ∈ l1 <-> d ∈ l2) ->
  let a := foldl ORSet_Merge s l1 in
  let b := foldl ORSet_Merge s l2 in
  ORSet_Equal a b = true /\ (forall el, ORSet_Contains a el = ORSet_Contains b el) /\
  (forall el, el ∈ ORSet_Elements a <-> el ∈ ORSet_Elements b).
Proof.
  intros Hset. cbv zeta.
  assert (foldl ORSet_Merge s l1 ≡ foldl ORSet_Merge s l2) as Heq.
  { apply (converge_same_updates (Hconv := ORSet_convergent)); [done|by apply Forall_true..|done]. }
  split_and!; [exact Heq|by intros el; rewrite Heq|]. intros el. by rewrite !ORSet_Elements_spec, Heq.
Qed.

(** Add wins.  In any run of a cluster whose replicas add, remove and merge in
    any order, an element that replica [r] adds is present after merging that add
    into any other replica, however often that replica concurrently added or
    removed the element without having seen the add. *)
Theorem orset_add_wins ops r el r' :
  Z.of_nat (length ops) < MaxUint64 ->
  let cl := or_run ops in
  ORSet_Contains (ORSet_Merge (or_replica cl r') (or_replica (or_step cl (OrAdd r el)) r)) el = true.
Proof.
  intros Hlen. cbv zeta. set (cl := or_run ops).
  destruct (or_run_inv ops) with (r := r) as (Hwf & Hn & Hle); [lia|]. fold cl in Hwf, Hn, Hle.
  destruct (or_run_inv ops) with (r := r') as (Hwf' & _ & _); [lia|]. fold cl in Hwf'.
  cbn [or_step]. rewrite or_replica_insert, decide_True by done.
  set (seq := u64 (zget (or_clocks (or_replica cl r)) r + 1)).
  assert (seq = zget (or_clocks (or_replica cl r)) r + 1) as Hseq.
  { apply u64_id. pose proof (slots_ok_zget _ r (proj1 Hwf)). int_lia. }
  assert (forall s, ORSet_wf s -> zget (or_clocks s) r <= zget (or_clocks (or_replica cl r)) r ->
    mkTag r seq ∉ sget (or_tombs s) el) as Hfresh.
  { intros s (_ & Ht & Hs) Hs' Hin. apply Hs, Ht in Hin. cbn in Hin. lia. }
  apply ORSet_Contains_spec. exists (mkTag r seq). rewrite ORSet_Merge_adds, ORSet_Merge_tombs, ORSet_Add_tags.
  rewrite decide_True by done. split; [set_solver|]. apply not_elem_of_union. split; [apply Hfresh; [done|apply Hle]|].
  apply (Hfresh (or_replica cl r)); [done|lia].
Qed.

(** Remove is exactly observed-remove.  After [Remove] an element is absent
    locally and the other elements are untouched; once merged with any replica
    [b], the element is present exactly when [b] holds a live tag for it that the
    removing replica had never observed. *)
Theorem orset_remove_observed a b el :
  ORSet_wf a ->
  ORSet_Contains (ORSet_Remove el a) el = false /\
  (forall el', el' <> el -> ORSet_Contains (ORSet_Remove el a) el' = ORSet_Contains a el') /\
  (ORSet_Contains (ORSet_Merge (ORSet_Remove el a) b) el = true <->
   exists t, t ∈ sget (or_adds b) el /\ t ∉ sget (or_tombs b) el /\ t ∉ sget (or_adds a) el).
Proof.
  intros (_ & _ & Hs). split_and!.
  - apply not_true_iff_false. rewrite ORSet_Contains_spec. intros (t & Ht & Hn).
    destruct (ORSet_Remove_tags a el el) as (Htombs & Hadds & _). rewrite Htombs, Hadds in *.
    rewrite decide_True in Hn by done. set_solver.
  - intros el' Hne. apply eq_bool_prop_intro. rewrite !Is_true_true, !ORSet_Contains_spec.
    destruct (ORSet_Remove_tags a el el') as (-> & -> & _). by rewrite decide_False.
  - rewrite ORSet_Contains_spec. setoid_rewrite ORSet_Merge_adds. setoid_rewrite ORSet_Merge_tombs.
    destruct (ORSet_Remove_tags a el el) as (-> & -> & _). rewrite decide_True by done. set_solver.
Qed.

Lemma orset_converges_witness :
  let a := ORSet_Add "k" "a" ORSet_New in
  let b := ORSet_Remove "k" a in
  ORSet_Equal (foldl ORSet_Merge ORSet_New [a; b]) (foldl ORSet_Merge ORSet_New [b; a; b]) = true.
Proof.
  apply (orset_converges ORSet_New [ORSet_Add "k" "a" ORSet_New; ORSet_Remove "k" (ORSet_Add "k" "a" ORSet_New)]
    [ORSet_Remove "k" (ORSet_Add "k" "a" ORSet_New); ORSet_Add "k" "a" ORSet_New; ORSet_Remove "k" (ORSet_Add "k" "a" ORSet_New)]).
  intros d. rewrite !elem_of_cons. tauto.
Defined.

Definition demo_or_ops : list or_op := [OrAdd "a" "k"; OrSync "b" "a"; OrRemove "b" "k"].

Lemma orset_add_wins_witness :
  ORSet_Contains (or_replica (or_run demo_or_ops) "b") "k" = false /\
  ORSet_Contains (ORSet_Merge (or_replica (or_run demo_or_ops) "b")
    (or_replica (or_step (or_run demo_or_ops) (OrAdd "a" "k")) "a")) "k" = true.
Proof. split; [by vm_compute|]. apply (orset_add_wins demo_or_ops "a" "k" "b"). concrete. Defined.

Lemma orset_remove_observed_witness :
  ORSet_Contains (ORSet_Remove "k" (ORSet_Add "k" "a" ORSet_New)) "k" = false.
Proof.
  apply (orset_remove_observed (ORSet_Add "k" "a" ORSet_New) ORSet_New "k"). apply ORSet_Add_wf; [concrete|apply ORSet_New_wf].
Defined.
