(* ===== verification/Sha256.v ===== *)
(** * SHA-256 (Go's [crypto/sha256], FIPS 180-4)

    The hash the Merkle summaries and the delta-set tags use, executable on byte
    lists, with its published test vectors.  Nothing is assumed about it: the
    theorems of the clients state the absence of a collision where they need it. *)

From S2P Require Import Prelude.
Local Open Scope Z_scope.

Definition rotr (n x : Z) : Z := Z.lor (Z.shiftr x n) (u32 (Z.shiftl x (32 - n))).

Definition sha_Ch (x y z : Z) : Z := Z.lxor (Z.land x y) (Z.land (MaxUint32 - x) z).
Definition sha_Maj (x y z : Z) : Z := Z.lxor (Z.lxor (Z.land x y) (Z.land x z)) (Z.land y z).
Definition sha_S0 (x : Z) : Z := Z.lxor (Z.lxor (rotr 2 x) (rotr 13 x)) (rotr 22 x).
Definition sha_S1 (x : Z) : Z := Z.lxor (Z.lxor (rotr 6 x) (rotr 11 x)) (rotr 25 x).
Definition sha_s0 (x : Z) : Z := Z.lxor (Z.lxor (rotr 7 x) (rotr 18 x)) (Z.shiftr x 3).
Definition sha_s1 (x : Z) : Z := Z.lxor (Z.lxor (rotr 17 x) (rotr 19 x)) (Z.shiftr x 10).

(** The constants, as the standard defines them: the first 32 bits of the
    fractional parts of the cube roots of the first 64 primes, and of the square
    roots of the first 8. *)
Definition is_prime (n : nat) : bool := forallb (fun d => bool_decide (n mod d <> 0)%nat) (seq 2 (n - 2)).
Definition primes : list Z := Z.of_nat <$> List.filter is_prime (seq 2 310).

(** The greatest [r < 2^bits] with [r ^ k <= x]. *)
Fixpoint int_root (bits : nat) (k x r : Z) : Z :=
  match bits with
  | O => r
  | S bits => let r' := r + 2 ^ Z.of_nat bits in int_root bits k x (if decide (r' ^ k <= x) then r' else r)
  end.

Definition root_fraction (k p : Z) : Z := u32 (int_root 40 k (p * 2 ^ (32 * k)) 0).

Definition sha_K : list Z := Eval vm_compute in root_fraction 3 <$> take 64 primes.
Definition sha_H0 : list Z := Eval vm_compute in root_fraction 2 <$> take 8 primes.

(** The message schedule, most recent word first. *)
Fixpoint sha_schedule (n : nat) (ws : list Z) : list Z :=
  match n with
  | O => ws
  | S n =>
      let w i := nth i ws 0 in
      sha_schedule n (u32 (sha_s1 (w 1%nat) + w 6%nat + sha_s0 (w 14%nat) + w 15%nat) :: ws)
  end.

Fixpoint sha_words (n : nat) (block : list Z) : list Z :=
  match n with
  | O => []
  | S n => be_decode (take 4 block) :: sha_words n (drop 4 block)
  end.

Definition sha_round (h : list Z) (kw : Z * Z) : list Z :=
  match h with
  | [a; b; c; d; e; f; g; hh] =>
      let t1 := u32 (hh + sha_S1 e + sha_Ch e f g + kw.1 + kw.2) in
      let t2 := u32 (sha_S0 a + sha_Maj a b c) in
      [u32 (t1 + t2); a; b; c; u32 (d + t1); e; f; g]
  | _ => h
  end.

Definition sha_block (h block : list Z) : list Z :=
  let ws := rev (sha_schedule 48 (rev (sha_words 16 block))) in
  zip_with (fun x y => u32 (x + y)) h (foldl sha_round h (zip sha_K ws)).

Fixpoint sha_blocks (n : nat) (h bs : list Z) : list Z :=
  match n with
  | O => h
  | S n => sha_blocks n (sha_block h (take 64 bs)) (drop 64 bs)
  end.

(** One 1-bit, zeros up to 56 modulo 64 bytes, the bit length in 8 bytes. *)
Definition sha_pad (bs : list Z) : list Z :=
  let n := Z.of_nat (length bs) in
  bs ++ [128] ++ replicate (Z.to_nat ((55 - n) mod 64)) 0 ++ be_encode 8 (8 * n).

Definition sha256 (bs : list Z) : list Z :=
  let p := sha_pad bs in
  mjoin (be_encode 4 <$> sha_blocks (length p / 64) sha_H0 p).

(** The bytes of a Go string. *)
Fixpoint string_bytes (s : string) : list Z :=
  match s with
  | EmptyString => []
  | String c s => Z.of_N (Ascii.N_of_ascii c) :: string_bytes s
  end.

Lemma string_bytes_inj s t : string_bytes s = string_bytes t -> s = t.
Proof.
  revert t. induction s as [|c s IH]; intros [|d t]; cbn; intros Heq; simplify_eq; [done|].
  f_equal; [|by apply IH]. rewrite <- (Ascii.ascii_N_embedding c), <- (Ascii.ascii_N_embedding d). f_equal. lia.
Qed.

Example sha256_abc :
  sha256 (string_bytes "abc") = be_encode 32 0xba7816bf8f01cfea414140de5dae2223b00361a396177a9cb410ff61f20015ad.
Proof. vm_compute. reflexivity. Qed.

Example sha256_empty :
  sha256 [] = be_encode 32 0xe3b0c44298fc1c149afbf4c8996fb92427ae41e4649b934ca495991b7852b855.
Proof. vm_compute. reflexivity. Qed.

Example sha256_two_blocks :
  sha256 (string_bytes "abcdbcdecdefdefgefghfghighijhijkijkljklmklmnlmnomnopnopq") =
  be_encode 32 0x248d6a61d20638b8e5c026930c3e6039a33ce45964ff2167f6ecedd419db06c1.
Proof. vm_compute. reflexivity. Qed.

(** ** Shape of digests *)

Lemma sha_round_length h kw : length h = 8%nat -> length (sha_round h kw) = 8%nat.
Proof. intros Hh. do 9 (destruct h as [|? h]; try done). Qed.

Lemma sha_block_length h block : length h = 8%nat -> length (sha_block h block) = 8%nat.
Proof.
  intros Hh. unfold sha_block. rewrite length_zip_with, Hh.
  assert (forall l h, length h = 8%nat -> length (foldl sha_round h l) = 8%nat) as Hf.
  { induction l as [|kw l IH]; intros h' Hh'; cbn; [done|]. by apply IH, sha_round_length. }
  by rewrite Hf.
Qed.

Lemma sha_blocks_length n h bs : length h = 8%nat -> length (sha_blocks n h bs) = 8%nat.
Proof. revert h bs. induction n as [|n IH]; intros h bs Hh; cbn; [done|]. by apply IH, sha_block_length. Qed.

#[global] Arguments sha256 : simpl never.

Lemma sha256_length bs : length (sha256 bs) = 32%nat.
Proof.
  unfold sha256. assert (length (sha_blocks (length (sha_pad bs) / 64) sha_H0 (sha_pad bs)) = 8%nat) as Hl by by apply sha_blocks_length.
  destruct (sha_blocks _ _ _) as [|? l] eqn:E; [done|]. clear E.
  do 8 (destruct l as [|? l]; try done).
Qed.

Lemma sha256_bytes bs : Forall is_u8 (sha256 bs).
Proof.
  unfold sha256. generalize (sha_blocks (length (sha_pad bs) / 64) sha_H0 (sha_pad bs)).
  induction l as [|w l IH]; [constructor|]. rewrite fmap_cons. apply Forall_app. split; [apply be_encode_bytes|exact IH].
Qed.

Lemma string_bytes_u8 s : Forall is_u8 (string_bytes s).
Proof.
  induction s as [|c s IH]; cbn; [constructor|]. constructor; [|done].
  pose proof (Ascii.N_ascii_bounded c). int_lia.
Qed.

(** No two of the given inputs collide. *)
Definition collision_free (inputs : list (list Z)) : Prop :=
  Forall (fun a => Forall (fun b => sha256 a = sha256 b -> a = b) inputs) inputs.

Lemma collision_free_use inputs a b :
  collision_free inputs -> a ∈ inputs -> b ∈ inputs -> sha256 a = sha256 b -> a = b.
Proof. intros Hcf Ha Hb. exact (proj1 (Forall_forall _ _) (proj1 (Forall_forall _ _) Hcf a Ha) b Hb). Qed.
