(* ===== verification/Merkle.v ===== *)
(** * Merkle summaries for anti-entropy ([src/pkg/crdt/merkle/merkle.go])

    A tree keeps one leaf hash per key and a root over the leaf hashes in key
    order.  Replicas compare roots and exchange the keys [Diff] reports.  The
    exactness of [Diff] rests on the absence of a SHA-256 collision among the
    inputs actually hashed, which the theorem states as such. *)

From S2P Require Import Prelude Sha256.
Local Open Scope Z_scope.

Record Tree := mkTree { leaves : gmap string (list Z); root : list Z }.

(** The framed bytes [leafHash] feeds to the hash. *)
Definition leafInput (key value : string) : list Z :=
  be_encode 8 (u64 (Z.of_nat (length (string_bytes key)))) ++ string_bytes key ++
  be_encode 8 (u64 (Z.of_nat (length (string_bytes value)))) ++ string_bytes value.

Definition leafHash (key value : string) : list Z := sha256 (leafInput key value).
#[global] Arguments leafHash : simpl never.

(** The concatenated leaf hashes in key order, for one order of the map range. *)
Definition rootInput (m : gmap string (list Z)) : list Z :=
  mjoin ((fun k => default [] (m !! k)) <$> sort_strings (map_to_list m).*1).

Definition computeRoot (m : gmap string (list Z)) : list Z := sha256 (rootInput m).

Definition leavesOf (kv : gmap string string) : gmap string (list Z) :=
  range_fold (fun out k v => <[k := leafHash k v]> out) ∅ kv.

Definition Tree_New (kv : gmap string string) : Tree :=
  let m := leavesOf kv in mkTree m (computeRoot m).

Definition Tree_Root (t : Tree) : list Z := root t.

Definition Tree_Equal (t other : Tree) : bool := bool_decide (root t = root other).

(** One loop of [Diff]: the keys of [a] missing from [b] or with another hash. *)
Definition diff_into (a b : gmap string (list Z)) (diff : gset string) : gset string :=
  range_fold (fun diff k lh =>
    match b !! k with
    | Some oh => if decide (oh <> lh) then {[k]} ∪ diff else diff
    | None => {[k]} ∪ diff
    end) diff a.

Definition Tree_Diff (t other : Tree) : list string :=
  if Tree_Equal t other then []
  else sort_strings (elements (diff_into (leaves other) (leaves t) (diff_into (leaves t) (leaves other) ∅))).

(** ** Framing *)

(** The length prefixes make the leaf input injective: distinct pairs are never
    hashed from the same bytes. *)
Lemma leafInput_inj k v k' v' :
  Z.of_nat (length (string_bytes k)) <= MaxUint64 -> Z.of_nat (length (string_bytes k')) <= MaxUint64 ->
  Z.of_nat (length (string_bytes v)) <= MaxUint64 -> Z.of_nat (length (string_bytes v')) <= MaxUint64 ->
  leafInput k v = leafInput k' v' -> k = k' /\ v = v'.
Proof.
  intros Hk Hk' Hv Hv'. unfold leafInput. rewrite !u64_id by int_lia. intros Heq.
  apply app_inj_1 in Heq as [Hlen Heq]; [|by rewrite !be_encode_length].
  apply be_encode_inj in Hlen; [|cbn; int_lia..].
  apply app_inj_1 in Heq as [Hks Heq]; [|lia].
  apply app_inj_1 in Heq as [_ Hvs]; [|by rewrite !be_encode_length].
  split; by apply string_bytes_inj.
Qed.

Lemma leavesOf_lookup kv k : leavesOf kv !! k = leafHash k <$> kv !! k.
Proof.
  unfold leavesOf. rewrite (range_fold_keyed _ (fun i _ v => Some (leafHash i v))).
  - by destruct (kv !! k).
  - intros out i v j. case_decide; simplify_map_eq; done.
Qed.

Lemma elem_of_diff_into a b diff k :
  k ∈ diff_into a b diff <-> k ∈ diff \/ (exists lh, a !! k = Some lh /\ b !! k <> Some lh).
Proof.
  trans (k ∈ diff \/ exists lh, (k, lh) ∈ map_to_list a /\ b !! k <> Some lh);
    [|do 2 f_equiv; intros lh; by rewrite elem_of_map_to_list].
  unfold diff_into, range_fold. generalize (map_to_list a) as l. intros l. revert diff.
  induction l as [|[i lh] l IH]; intros diff; cbn [foldl fst snd]; [set_solver|].
  rewrite IH. clear IH. setoid_rewrite elem_of_cons.
  destruct (b !! i) eqn:Hi; [case_decide|]; rewrite ?elem_of_union, ?elem_of_singleton; naive_solver.
Qed.

Lemma diff_iff kv kv' k :
  k ∈ diff_into (leavesOf kv') (leavesOf kv) (diff_into (leavesOf kv) (leavesOf kv') ∅) <->
  leafHash k <$> kv !! k <> leafHash k <$> kv' !! k.
Proof.
  rewrite !elem_of_diff_into, !leavesOf_lookup.
  rewrite elem_of_empty. destruct (kv !! k) as [v|], (kv' !! k) as [v'|]; cbn.
  - destruct (decide (leafHash k v = leafHash k v')) as [->|Hne]; naive_solver.
  - naive_solver.
  - naive_solver.
  - naive_solver.
Qed.

(** ** Roots *)

(** Every string of the map has a Go [int] length. *)
Definition lengths_fit (kv : gmap string string) : Prop :=
  map_Forall (fun k v => Z.of_nat (length (string_bytes k)) <= MaxInt64 /\
                         Z.of_nat (length (string_bytes v)) <= MaxInt64) kv.

(** The byte strings hashed while building the tree of [kv]. *)
Definition hashed_inputs (kv : gmap string string) : list (list Z) :=
  rootInput (leavesOf kv) :: ((fun p => leafInput p.1 p.2) <$> map_to_list kv).

Definition keys_in_order (kv : gmap string string) : list string := sort_strings (map_to_list kv).*1.

Lemma elem_of_keys_in_order kv k : k ∈ keys_in_order kv <-> is_Some (kv !! k).
Proof.
  unfold keys_in_order. rewrite sort_strings_perm, list_elem_of_fmap. split.
  - intros [[k' v] [-> Hin]]. apply elem_of_map_to_list in Hin. by exists v.
  - intros [v Hv]. exists (k, v). by rewrite elem_of_map_to_list.
Qed.

Lemma leaves_keys kv : (map_to_list (leavesOf kv)).*1 ≡ₚ (map_to_list kv).*1.
Proof.
  apply NoDup_Permutation; [apply NoDup_fst_map_to_list..|].
  intros k. rewrite !list_elem_of_fmap. split; intros [[k' v] [-> Hin]]; cbn;
    apply elem_of_map_to_list in Hin; [rewrite leavesOf_lookup in Hin|].
  - apply fmap_Some in Hin as (w & Hw & _). exists (k', w). by rewrite elem_of_map_to_list.
  - exists (k', leafHash k' v). by rewrite elem_of_map_to_list, leavesOf_lookup, Hin.
Qed.

Lemma rootInput_leaves kv :
  rootInput (leavesOf kv) = mjoin ((fun k => leafHash k (default EmptyString (kv !! k))) <$> keys_in_order kv).
Proof.
  unfold rootInput. rewrite (sort_strings_proper _ _ (leaves_keys kv)). f_equal.
  apply list_fmap_ext. intros i k Hk. rewrite leavesOf_lookup.
  apply list_elem_of_lookup_2, elem_of_keys_in_order in Hk as [v ->]. done.
Qed.

Section exact.
Context (kv kv' : gmap string string).
Hypothesis Hfit : lengths_fit kv.
Hypothesis Hfit' : lengths_fit kv'.
Hypothesis Hcf : collision_free (hashed_inputs kv ++ hashed_inputs kv').

Lemma leafInput_hashed k v m : m !! k = Some v -> leafInput k v ∈ hashed_inputs m.
Proof.
  intros Hk. apply list_elem_of_further, list_elem_of_fmap. exists (k, v).
  by rewrite elem_of_map_to_list.
Qed.

Lemma leafHash_inj k v k' v' :
  kv !! k = Some v -> kv' !! k' = Some v' -> leafHash k v = leafHash k' v' -> k = k' /\ v = v'.
Proof using All.
  intros Hk Hk' Heq. destruct (Hfit _ _ Hk), (Hfit' _ _ Hk').
  apply leafInput_inj; [int_lia..|]. revert Heq. apply (collision_free_use _ _ _ Hcf);
    apply elem_of_app; eauto using leafInput_hashed.
Qed.

Lemma root_injective : computeRoot (leavesOf kv) = computeRoot (leavesOf kv') -> kv = kv'.
Proof using All.
  intros Heq. apply (collision_free_use _ _ _ Hcf) in Heq;
    [|apply elem_of_app; unfold hashed_inputs; set_solver..].
  rewrite !rootInput_leaves in Heq. apply (mjoin_chunks 32) in Heq;
    [|done|apply Forall_fmap, Forall_true; intros; apply sha256_length..].
  assert (Forall2 (fun k k' => k = k' /\ kv !! k = kv' !! k) (keys_in_order kv) (keys_in_order kv')) as HF.
  { apply Forall2_same_length_lookup. split; [by apply (f_equal length) in Heq; rewrite !length_fmap in Heq|].
    intros i k k' Hk Hk'. apply (f_equal (.!! i)) in Heq as Hh.
    rewrite !list_lookup_fmap, Hk, Hk' in Hh. cbn in Hh.
    apply list_elem_of_lookup_2, elem_of_keys_in_order in Hk as [v Hv], Hk' as [v' Hv'].
    rewrite Hv, Hv' in Hh. apply (inj Some) in Hh. cbn in Hh. destruct (leafHash_inj _ _ _ _ Hv Hv' Hh) as [<- <-].
    split; congruence. }
  assert (keys_in_order kv = keys_in_order kv') as Hkeys.
  { apply list_eq_Forall2. eapply Forall2_impl; [exact HF|]. by intros ?? [??]. }
  apply map_eq. intros k. destruct (decide (k ∈ keys_in_order kv)) as [Hin|Hout].
  - rewrite <- Hkeys in HF. apply list_elem_of_lookup in Hin as [i Hi].
    by destruct (Forall2_lookup_lr _ _ _ _ _ _ HF Hi Hi).
  - pose proof Hout as Hout'. rewrite Hkeys in Hout'. rewrite elem_of_keys_in_order in Hout, Hout'.
    rewrite <- eq_None_not_Some in Hout, Hout'. congruence.
Qed.

End exact.

(** Anti-entropy ships exactly what differs.  For any two key/value sets,
    [Diff] of their trees is a sorted list without repetition that holds a key
    exactly when the two sets disagree on it (by value or by presence), and
    [Equal] is equality of the sets; the only hypothesis is that SHA-256 has no
    collision among the byte strings hashed for the two trees. *)
Theorem merkle_diff_exact (kv kv' : gmap string string) :
  lengths_fit kv -> lengths_fit kv' -> collision_free (hashed_inputs kv ++ hashed_inputs kv') ->
  StronglySorted String.le (Tree_Diff (Tree_New kv) (Tree_New kv')) /\
  NoDup (Tree_Diff (Tree_New kv) (Tree_New kv')) /\
  (forall k, k ∈ Tree_Diff (Tree_New kv) (Tree_New kv') <-> kv !! k <> kv' !! k) /\
  (Tree_Equal (Tree_New kv) (Tree_New kv') = true <-> kv = kv').
Proof.
  intros Hfit Hfit' Hcf.
  assert (Tree_Equal (Tree_New kv) (Tree_New kv') = true <-> kv = kv') as Hequal.
  { unfold Tree_Equal. rewrite bool_decide_eq_true. split; [by apply root_injective|by intros ->]. }
  split_and!; [| | |done]; unfold Tree_Diff; destruct (Tree_Equal _ _) eqn:Heq.
  - constructor.
  - apply sort_strings_sorted.
  - constructor.
  - rewrite sort_strings_perm. apply NoDup_elements.
  - intros k. rewrite (proj1 Hequal eq_refl). split; [by intros ?%elem_of_nil|done].
  - intros k. rewrite sort_strings_perm, elem_of_elements. cbn [leaves Tree_New].
    rewrite diff_iff. destruct (kv !! k) as [v|] eqn:Hk, (kv' !! k) as [v'|] eqn:Hk'; cbn; [|done..].
    split; intros Hne Hc; apply Hne; [congruence|]. apply (inj Some) in Hc.
    by destruct (leafHash_inj kv kv' Hfit Hfit' Hcf k v k v' Hk Hk' Hc) as [_ ->].
Qed.

Lemma merkle_diff_exact_witness :
  Tree_Diff (Tree_New {["a" := "1"; "b" := "2"]}) (Tree_New {["b" := "3"; "c" := "4"]}) = ["a"; "b"; "c"] /\
  (Tree_Equal (Tree_New {["a" := "1"; "b" := "2"]}) (Tree_New {["b" := "3"; "c" := "4"]}) = true <->
   ({["a" := "1"; "b" := "2"]} : gmap string string) = {["b" := "3"; "c" := "4"]}).
Proof.
  split; [by vm_compute|].
  refine (proj2 (proj2 (proj2 (merkle_diff_exact _ _ _ _ _)))).
  - by_eval.
  - by_eval.
  - by_eval.
Defined.
