(* ===== verification/GoFmt.v ===== *)
(** * Text formatting of the Go standard library

    The verbs the program uses where the exact text matters: [%q] (a double-quoted
    Go string literal, [strconv.AppendQuote]), [%d] and [%x].  Text is a list of
    bytes.  Whether a rune beyond ASCII is printable is a table of the Unicode
    standard; it is an argument of [quote], and nothing depends on its contents. *)

From stdpp Require Import pretty.
From S2P Require Import Prelude Sha256.
Local Open Scope Z_scope.

(** ** UTF-8 ([unicode/utf8]) *)

Definition RuneError : Z := 0xFFFD.

(** Size of the encoding a first byte announces, and the range of its second byte. *)
Definition first_byte (b : Z) : option (nat * Z * Z) :=
  if decide (0xC2 <= b <= 0xDF) then Some (2%nat, 0x80, 0xBF)
  else if decide (b = 0xE0) then Some (3%nat, 0xA0, 0xBF)
  else if decide (b = 0xED) then Some (3%nat, 0x80, 0x9F)
  else if decide (0xE1 <= b <= 0xEF) then Some (3%nat, 0x80, 0xBF)
  else if decide (b = 0xF0) then Some (4%nat, 0x90, 0xBF)
  else if decide (0xF1 <= b <= 0xF3) then Some (4%nat, 0x80, 0xBF)
  else if decide (b = 0xF4) then Some (4%nat, 0x80, 0x8F)
  else None.

Definition continuation (b : Z) : Prop := 0x80 <= b <= 0xBF.

(** [DecodeRune] on a non-ASCII first byte: the rune and its bytes; [None] is
    [(RuneError, 1)] on an invalid encoding. *)
Definition decode_multi (bs : list Z) : option (Z * list Z) :=
  match bs with
  | b0 :: b1 :: rest =>
      match first_byte b0 with
      | Some (n, lo, hi) =>
          if decide (lo <= b1 <= hi) then
            if decide (n = 2%nat) then Some ((b0 mod 32) * 64 + b1 mod 64, [b0; b1])
            else match rest with
                 | b2 :: rest =>
                     if decide (continuation b2) then
                       if decide (n = 3%nat) then Some ((b0 mod 16) * 4096 + (b1 mod 64) * 64 + b2 mod 64, [b0; b1; b2])
                       else match rest with
                            | b3 :: _ =>
                                if decide (continuation b3)
                                then Some ((b0 mod 8) * 262144 + (b1 mod 64) * 4096 + (b2 mod 64) * 64 + b3 mod 64, [b0; b1; b2; b3])
                                else None
                            | [] => None
                            end
                     else None
                 | [] => None
                 end
          else None
      | None => None
      end
  | _ => None
  end.

(** [AppendRune] on a rune beyond ASCII. *)
Definition encode_rune (r : Z) : list Z :=
  if decide (r < 0x800) then [0xC0 + r / 64; 0x80 + r mod 64]
  else if decide (r < 0x10000) then [0xE0 + r / 4096; 0x80 + r / 64 mod 64; 0x80 + r mod 64]
  else [0xF0 + r / 262144; 0x80 + r / 4096 mod 64; 0x80 + r / 64 mod 64; 0x80 + r mod 64].

(** ** Hexadecimal and decimal *)

Definition hex_digit (d : Z) : Z := if decide (d < 10) then 48 + d else 87 + d.
Definition hex_value (c : Z) : Z := if decide (c < 58) then c - 48 else c - 87.

(** The low [n] hexadecimal digits, most significant first. *)
Fixpoint hex (n : nat) (z : Z) : list Z :=
  match n with O => [] | S n => hex n (z / 16) ++ [hex_digit (z mod 16)] end.
Definition unhex (ds : list Z) : Z := foldl (fun acc c => acc * 16 + hex_value c) 0 ds.

(** [%x] of a byte slice. *)
Definition fmt_x (bs : list Z) : list Z := mjoin (hex 2 <$> bs).

(** [%d] of an unsigned integer. *)
Definition fmt_d (z : Z) : list Z := string_bytes (pretty (Z.to_N z)).

(** ** Quoting *)

Section quote.
Context (isPrint : Z -> bool).

(** The escapes with a letter: code and letter. *)
Definition letter_escapes : list (Z * Z) := [(7, 97); (8, 98); (12, 102); (10, 110); (13, 114); (9, 116); (11, 118)].

Definition letter_of (r : Z) : option Z := snd <$> List.find (fun p => bool_decide (p.1 = r)) letter_escapes.
Definition code_of (c : Z) : option Z := fst <$> List.find (fun p => bool_decide (p.2 = c)) letter_escapes.

(** One ASCII byte. *)
Definition escape_ascii (r : Z) : list Z :=
  if decide (r = 34 \/ r = 92) then [92; r]
  else if decide (32 <= r <= 126) then [r]
  else match letter_of r with Some c => [92; c] | None => [92; 120] ++ hex 2 r end.

(** A valid rune beyond ASCII, and a byte that starts no valid encoding. *)
Definition escape_rune (r : Z) : list Z :=
  if isPrint r then encode_rune r
  else if decide (r < 0x10000) then [92; 117] ++ hex 4 r else [92; 85] ++ hex 8 r.

Definition escape_bad (b : Z) : list Z := [92; 120] ++ hex 2 b.

Fixpoint quote_loop (fuel : nat) (bs : list Z) : list Z :=
  match fuel, bs with
  | S fuel, b :: rest =>
      if decide (b < 128) then escape_ascii b ++ quote_loop fuel rest
      else match decode_multi bs with
           | Some (r, enc) => escape_rune r ++ quote_loop fuel (drop (length enc) bs)
           | None => escape_bad b ++ quote_loop fuel rest
           end
  | _, _ => []
  end.

(** [strconv.Quote]; each round of the loop consumes at least one byte. *)
Definition quote (bs : list Z) : list Z := [34] ++ quote_loop (length bs) bs ++ [34].

End quote.

(** ** Quoting is injective *)

Lemma encode_rune_2 b0 b1 :
  0xC2 <= b0 <= 0xDF -> continuation b1 ->
  let r := (b0 mod 32) * 64 + b1 mod 64 in 0x80 <= r <= 0x10FFFF /\ encode_rune r = [b0; b1].
Proof.
  unfold continuation. intros H0 H1. cbv zeta.
  assert (b0 mod 32 = b0 - 0xC0) as -> by (Z.to_euclidean_division_equations; lia).
  assert (b1 mod 64 = b1 - 0x80) as -> by (Z.to_euclidean_division_equations; lia).
  split; [lia|]. unfold encode_rune. rewrite decide_True by lia.
  repeat f_equal; Z.to_euclidean_division_equations; lia.
Qed.

Lemma encode_rune_3 b0 b1 b2 :
  0xE0 <= b0 <= 0xEF -> continuation b1 -> continuation b2 -> (b0 = 0xE0 -> 0xA0 <= b1) ->
  let r := (b0 mod 16) * 4096 + (b1 mod 64) * 64 + b2 mod 64 in
  0x80 <= r <= 0x10FFFF /\ encode_rune r = [b0; b1; b2].
Proof.
  unfold continuation. intros H0 H1 H2 Hmin. cbv zeta.
  assert (b0 mod 16 = b0 - 0xE0) as -> by (Z.to_euclidean_division_equations; lia).
  assert (b1 mod 64 = b1 - 0x80) as -> by (Z.to_euclidean_division_equations; lia).
  assert (b2 mod 64 = b2 - 0x80) as -> by (Z.to_euclidean_division_equations; lia).
  assert (0x800 <= (b0 - 224) * 4096 + (b1 - 128) * 64 + (b2 - 128)) by (destruct (decide (b0 = 0xE0)); lia).
  split; [lia|]. unfold encode_rune. rewrite decide_False, decide_True by lia.
  repeat f_equal; Z.to_euclidean_division_equations; lia.
Qed.

Lemma encode_rune_4 b0 b1 b2 b3 :
  0xF0 <= b0 <= 0xF4 -> continuation b1 -> continuation b2 -> continuation b3 ->
  (b0 = 0xF0 -> 0x90 <= b1) -> (b0 = 0xF4 -> b1 <= 0x8F) ->
  let r := (b0 mod 8) * 262144 + (b1 mod 64) * 4096 + (b2 mod 64) * 64 + b3 mod 64 in
  0x80 <= r <= 0x10FFFF /\ encode_rune r = [b0; b1; b2; b3].
Proof.
  unfold continuation. intros H0 H1 H2 H3 Hmin Hmax. cbv zeta.
  assert (b0 mod 8 = b0 - 0xF0) as -> by (Z.to_euclidean_division_equations; lia).
  assert (b1 mod 64 = b1 - 0x80) as -> by (Z.to_euclidean_division_equations; lia).
  assert (b2 mod 64 = b2 - 0x80) as -> by (Z.to_euclidean_division_equations; lia).
  assert (b3 mod 64 = b3 - 0x80) as -> by (Z.to_euclidean_division_equations; lia).
  assert (0x10000 <= (b0 - 240) * 262144 + (b1 - 128) * 4096 + (b2 - 128) * 64 + (b3 - 128) <= 0x10FFFF)
    by (destruct (decide (b0 = 0xF0)), (decide (b0 = 0xF4)); lia).
  split; [lia|]. unfold encode_rune. rewrite !decide_False by lia.
  repeat f_equal; Z.to_euclidean_division_equations; lia.
Qed.

Lemma first_byte_spec b n lo hi :
  first_byte b = Some (n, lo, hi) ->
  0x80 <= lo /\ hi <= 0xBF /\
  ((n = 2%nat /\ 0xC2 <= b <= 0xDF) \/
   (n = 3%nat /\ 0xE0 <= b <= 0xEF /\ (b = 0xE0 -> lo = 0xA0)) \/
   (n = 4%nat /\ 0xF0 <= b <= 0xF4 /\ (b = 0xF0 -> lo = 0x90) /\ (b = 0xF4 -> hi = 0x8F))).
Proof. unfold first_byte. repeat case_decide; intros; simplify_eq; lia. Qed.

Lemma decode_multi_sound bs r enc :
  decode_multi bs = Some (r, enc) ->
  0x80 <= r <= 0x10FFFF /\ encode_rune r = enc /\ bs = enc ++ drop (length enc) bs /\
  Forall (fun b => 128 <= b) enc /\ (2 <= length enc)%nat.
Proof.
  unfold decode_multi. intros Hd. destruct bs as [|b0 [|b1 rest]]; [done..|].
  destruct (first_byte b0) as [[[n lo] hi]|] eqn:Hf; [|done]. apply first_byte_spec in Hf as (Hlo & Hhi & Hn).
  case_decide as H1; [|done]. case_decide as H2; [|destruct rest as [|b2 rest]; [done|]; case_decide as Hc2; [|done]; case_decide as H3].
  - simplify_eq. destruct (encode_rune_2 b0 b1) as [? ->]; [lia|unfold continuation; lia|].
    split_and!; [lia..|done|done|repeat constructor; lia|done].
  - simplify_eq. destruct (encode_rune_3 b0 b1 b2) as [? ->]; [lia|unfold continuation; lia|done|lia|].
    unfold continuation in *. split_and!; [lia..|done|done|repeat constructor; lia|cbn; lia].
  - destruct rest as [|b3 rest]; [done|]. case_decide as Hc3; [|done]. simplify_eq.
    destruct (encode_rune_4 b0 b1 b2 b3) as [? ->]; [lia|unfold continuation; lia|done|done|lia|lia|].
    unfold continuation in *. split_and!; [lia..|done|done|repeat constructor; lia|cbn; lia].
Qed.

Lemma hex_length n z : length (hex n z) = n.
Proof. revert z. induction n as [|n IH]; intros z; cbn; [done|]. rewrite length_app, IH. cbn. lia. Qed.

Lemma hex_value_digit d : 0 <= d < 16 -> hex_value (hex_digit d) = d.
Proof. intros. unfold hex_value, hex_digit. repeat case_decide; lia. Qed.

Lemma unhex_hex n z : 0 <= z < 16 ^ Z.of_nat n -> unhex (hex n z) = z.
Proof.
  revert z. induction n as [|n IH]; intros z Hz.
  - cbn in *. lia.
  - cbn [hex]. unfold unhex. rewrite foldl_app. fold (unhex (hex n (z / 16))). cbn [foldl].
    rewrite Nat2Z.inj_succ, Z.pow_succ_r in Hz by lia. rewrite hex_value_digit by (Z.to_euclidean_division_equations; lia).
    rewrite IH; Z.to_euclidean_division_equations; lia.
Qed.

Lemma hex_printable n z : Forall (fun c => 48 <= c <= 102) (hex n z).
Proof.
  revert z. induction n as [|n IH]; intros z; cbn; [done|]. apply Forall_app. split; [apply IH|].
  repeat constructor; unfold hex_digit; case_decide; Z.to_euclidean_division_equations; lia.
Qed.

(** A reader for the body of a quoted literal. *)
Fixpoint unquote_loop (fuel : nat) (ts : list Z) : list Z :=
  match fuel, ts with
  | S fuel, b :: rest =>
      if decide (b = 92) then
        match rest with
        | c :: rest =>
            if decide (c = 120) then unhex (take 2 rest) :: unquote_loop fuel (drop 2 rest)
            else if decide (c = 117) then encode_rune (unhex (take 4 rest)) ++ unquote_loop fuel (drop 4 rest)
            else if decide (c = 85) then encode_rune (unhex (take 8 rest)) ++ unquote_loop fuel (drop 8 rest)
            else default c (code_of c) :: unquote_loop fuel rest
        | [] => []
        end
      else b :: unquote_loop fuel rest
  | _, _ => []
  end.

Lemma letter_code r c : letter_of r = Some c -> code_of c = Some r /\ 97 <= c <= 118 /\ c <> 117.
Proof.
  unfold letter_of, code_of, letter_escapes. cbn. repeat case_bool_decide; cbn; intros; simplify_eq; done.
Qed.

Lemma take_hex n z ts : take n (hex n z ++ ts) = hex n z.
Proof. apply take_app_length'. by rewrite hex_length. Qed.
Lemma drop_hex n z ts : drop n (hex n z ++ ts) = ts.
Proof. apply drop_app_length'. by rewrite hex_length. Qed.

Lemma unquote_x fuel b ts : 0 <= b < 256 -> unquote_loop (S fuel) (([92; 120] ++ hex 2 b) ++ ts) = b :: unquote_loop fuel ts.
Proof.
  intros Hb. rewrite <- app_assoc. cbn -[hex unhex].
  by rewrite take_hex, drop_hex, unhex_hex.
Qed.

Lemma unquote_ascii fuel b ts : 0 <= b < 128 -> unquote_loop (S fuel) (escape_ascii b ++ ts) = b :: unquote_loop fuel ts.
Proof.
  intros Hb. unfold escape_ascii. case_decide as Hq; [|case_decide as Hp].
  - destruct Hq as [-> | ->]; done.
  - cbn [app unquote_loop]. by rewrite decide_False by lia.
  - destruct (letter_of b) as [c|] eqn:Hl.
    + apply letter_code in Hl as (Hc & ? & ?). cbn [app unquote_loop].
      rewrite decide_True, !decide_False by (done || lia). by rewrite Hc.
    + apply unquote_x. lia.
Qed.

Lemma unquote_copy enc fuel ts :
  Forall (fun b => 128 <= b) enc -> unquote_loop (length enc + fuel) (enc ++ ts) = enc ++ unquote_loop fuel ts.
Proof.
  induction 1 as [|b enc Hb _ IH]; [done|]. cbn [length app Nat.add unquote_loop].
  rewrite decide_False by lia. by rewrite IH.
Qed.

Section quote_injective.
Context (isPrint : Z -> bool).

Lemma unquote_rune fuel r ts :
  0x80 <= r <= 0x10FFFF -> Forall (fun b => 128 <= b) (encode_rune r) ->
  (length (escape_rune isPrint r) <= fuel)%nat ->
  exists fuel', unquote_loop fuel (escape_rune isPrint r ++ ts) = encode_rune r ++ unquote_loop fuel' ts /\
    (fuel <= fuel' + length (escape_rune isPrint r))%nat.
Proof.
  intros Hr Henc. unfold escape_rune. destruct (isPrint r) eqn:?; intros Hf.
  - exists (fuel - length (encode_rune r))%nat. split; [|lia]. rewrite <- unquote_copy by done. f_equal. lia.
  - destruct fuel as [|fuel]; [case_decide; cbn in Hf; lia|]. exists fuel.
    case_decide; (split; [|cbn; lia]); rewrite <- app_assoc; cbn -[hex unhex encode_rune];
      by rewrite take_hex, drop_hex, unhex_hex by (cbn; lia).
Qed.

Lemma unquote_quote n m bs :
  Forall is_u8 bs -> (length bs <= n)%nat -> (length (quote_loop isPrint n bs) <= m)%nat ->
  unquote_loop m (quote_loop isPrint n bs) = bs.
Proof.
  revert m bs. induction n as [|n IH]; intros m bs Hb Hn Hm.
  { destruct bs; [by destruct m|cbn in Hn; lia]. }
  destruct bs as [|b rest]; [by destruct m|]. pose proof Hb as [Hb0 Hrest]%Forall_cons. cbn [length] in Hn.
  cbn [quote_loop] in *. case_decide as Ha; [|destruct (decode_multi (b :: rest)) as [[r enc]|] eqn:Hd].
  - rewrite length_app in Hm. destruct m as [|m].
    { unfold escape_ascii in Hm. repeat case_decide; try destruct (letter_of b); cbn in Hm; lia. }
    rewrite unquote_ascii by int_lia. f_equal. apply IH; [done|lia|].
    unfold escape_ascii in Hm. repeat case_decide; try destruct (letter_of b); cbn in Hm; lia.
  - apply decode_multi_sound in Hd as (Hr & Henc & Hsplit & Hhi & Hlen). rewrite length_app in Hm.
    rewrite <- Henc in Hhi.
    destruct (unquote_rune m r (quote_loop isPrint n (drop (length enc) (b :: rest)))) as (m' & -> & Hm'); [done|done|lia|].
    rewrite Hsplit at 2. rewrite Henc. f_equal. apply IH; [by apply Forall_drop| |lia].
    rewrite length_drop. cbn. lia.
  - unfold escape_bad in *. rewrite length_app in Hm. destruct m as [|m]; [cbn in Hm; lia|].
    rewrite unquote_x by int_lia. f_equal. apply IH; [done|lia|cbn in Hm; lia].
Qed.

Lemma quote_inj a b : Forall is_u8 a -> Forall is_u8 b -> quote isPrint a = quote isPrint b -> a = b.
Proof.
  intros Ha Hb Heq. unfold quote in Heq. apply app_inv_head, app_inv_tail in Heq.
  rewrite <- (unquote_quote (length a) (length (quote_loop isPrint (length a) a)) a) by done.
  by rewrite Heq, unquote_quote.
Qed.

End quote_injective.

(** ** Quoted text has no NUL byte *)

Lemma quote_loop_nonzero isPrint n bs : Forall is_u8 bs -> Forall (fun b => b <> 0) (quote_loop isPrint n bs).
Proof.
  revert bs. induction n as [|n IH]; intros bs Hb; [done|]. destruct bs as [|b rest]; [done|].
  pose proof Hb as [Hb0 Hrest]%Forall_cons. cbn [quote_loop].
  assert (forall k z, Forall (fun b => b <> 0) (hex k z)) as Hhex
    by (intros k z; eapply Forall_impl; [apply hex_printable|cbn; lia]).
  case_decide; [|destruct (decode_multi (b :: rest)) as [[r enc]|] eqn:Hd]; apply Forall_app; split; auto using Forall_drop.
  - unfold escape_ascii. case_decide; [|case_decide; [|destruct (letter_of b) eqn:Hl; [apply letter_code in Hl|]]];
      repeat (constructor; [lia|]); auto.
  - apply decode_multi_sound in Hd as (_ & Henc & _ & Hhi & _). unfold escape_rune.
    destruct (isPrint r); [|case_decide; repeat (constructor; [lia|]); apply Hhex].
    rewrite Henc. eapply Forall_impl; [exact Hhi|cbn; lia].
  - unfold escape_bad. repeat (constructor; [lia|]). apply Hhex.
Qed.

Lemma quote_nonzero isPrint bs : Forall is_u8 bs -> Forall (fun b => b <> 0) (quote isPrint bs).
Proof.
  intros Hb. unfold quote. repeat (apply Forall_app; split; [|]); [by repeat constructor|by apply quote_loop_nonzero|by repeat constructor].
Qed.

(** Text up to the first NUL byte is determined. *)
Lemma split_at_nul (a b x y : list Z) :
  Forall (fun c => c <> 0) a -> Forall (fun c => c <> 0) b -> a ++ [0] ++ x = b ++ [0] ++ y -> a = b /\ x = y.
Proof.
  intros Ha. revert b. induction Ha as [|c a Hc _ IH]; intros [|c' b] Hb Heq; cbn in Heq;
    [by simplify_eq|apply Forall_cons in Hb as [? _]; by simplify_eq|by simplify_eq|].
  apply Forall_cons in Hb as [_ Hb]. injection Heq as -> Heq. by destruct (IH b Hb Heq) as [-> ->].
Qed.

Lemma fmt_x_inj a b : Forall is_u8 a -> Forall is_u8 b -> fmt_x a = fmt_x b -> a = b.
Proof.
  intros Ha Hb Heq. apply (mjoin_chunks 2) in Heq; [|done|apply Forall_fmap, Forall_true; intros; apply hex_length..].
  revert b Hb Heq. induction Ha as [|x a Hx _ IH]; intros [|y b] Hb Heq; try done.
  apply Forall_cons in Hb as [Hy Hb]. change (hex 2 x :: (hex 2 <$> a) = hex 2 y :: (hex 2 <$> b)) in Heq.
  apply (inj2 cons) in Heq as [Hxy Hrest]. f_equal; [|by apply IH].
  rewrite <- (unhex_hex 2 x), <- (unhex_hex 2 y) by (cbn; int_lia). by rewrite Hxy.
Qed.

Lemma fmt_d_inj a b : 0 <= a -> 0 <= b -> fmt_d a = fmt_d b -> a = b.
Proof. intros ?? Heq. apply string_bytes_inj in Heq. apply (inj pretty) in Heq. lia. Qed.
