(* ===== verification/GoFloat.v ===== *)
(** * Floating point of the Go language and its standard library

    A [float64] is an IEEE 754 binary64 value, with the operations of the Standard Library's
    executable model: arithmetic, conversion to and from integers, [math.Pow] for integer
    exponents, [math.Round], [strconv.ParseFloat] and the text of [%v].

    Go leaves the conversion of a float beyond the range of [int64] to the implementation,
    so the value it gives is an argument of [int64_of]: [MinInt64] on amd64, saturation on
    arm64. *)

From Stdlib Require Import SpecFloat Ascii.
From stdpp Require Import pretty.
From S2P Require Import Prelude.
Local Open Scope Z_scope.

(** A [float64] is an IEEE 754 binary64 value. *)
Notation float64 := spec_float.

#[global] Instance float64_eq_dec : EqDecision float64.
Proof. solve_decision. Defined.

(** ** Arithmetic *)

Definition f64_add : float64 -> float64 -> float64 := SFadd 53 1024.
Definition f64_sub : float64 -> float64 -> float64 := SFsub 53 1024.
Definition f64_mul : float64 -> float64 -> float64 := SFmul 53 1024.
Definition f64_div : float64 -> float64 -> float64 := SFdiv 53 1024.
Definition f64_of_int (z : Z) : float64 := binary_normalize 53 1024 z 0 false.
Definition f64_ge (a b : float64) : bool := SFleb b a.
Definition f64_gt (a b : float64) : bool := SFltb b a.

Definition f64_IsNaN (f : float64) : bool := match f with S754_nan => true | _ => false end.
Definition f64_IsInf (f : float64) : bool := match f with S754_infinity _ => true | _ => false end.

(** ** Conversion to an integer *)

(** The integer part, and [None] for a value that has none. *)
Definition f64_trunc (f : float64) : option Z :=
  match f with
  | S754_zero _ => Some 0
  | S754_finite s m e =>
      let a := if decide (0 <= e) then Zpos m * 2 ^ e else Zpos m / 2 ^ (- e) in Some (if s then - a else a)
  | _ => None
  end.

(** [int64(f)]: truncation toward zero, and [oor f] where that is out of range. *)
Definition int64_of (oor : float64 -> Z) (f : float64) : Z :=
  match f64_trunc f with
  | Some z => if decide (MinInt64 <= z <= MaxInt64) then z else oor f
  | None => oor f
  end.

Definition amd64 (f : float64) : Z := MinInt64.
Definition arm64 (f : float64) : Z :=
  match f with
  | S754_nan | S754_zero _ => 0
  | S754_infinity s | S754_finite s _ _ => if s then MinInt64 else MaxInt64
  end.

(** [int(x)] on amd64. *)
Definition f64_to_int : float64 -> Z := int64_of amd64.

(** [math.Round]: to the nearest integer, halves away from zero. *)
Definition math_Round (f : float64) : float64 :=
  match f with
  | S754_finite s m e =>
      if decide (0 <= e) then f
      else let a := (2 * Zpos m + 2 ^ (- e)) / 2 ^ (1 - e) in
           if decide (a = 0) then S754_zero s else f64_of_int (if s then - a else a)
  | _ => f
  end.

(** ** [math.Pow] *)

(** The loop over the bits of the exponent: [a1 * 2^ae] is the answer so far, [x1 * 2^xe]
    the current square. *)
Fixpoint pow_loop (fuel : nat) (i : Z) (a1 : float64) (ae : Z) (x1 : float64) (xe : Z) : float64 * Z :=
  match fuel with
  | O => (a1, ae)
  | S fuel =>
      if decide (i = 0) then (a1, ae)
      else if decide (xe < - 2 ^ 12 \/ 2 ^ 12 < xe) then (a1, ae + xe)
      else
        let '(a1, ae) := if Z.odd i then (f64_mul a1 x1, ae + xe) else (a1, ae) in
        let x1 := f64_mul x1 x1 in
        let xe := 2 * xe in
        if SFltb x1 (S754_finite false (2 ^ 52) (-53)) then pow_loop fuel (i / 2) a1 ae (f64_add x1 x1) (xe - 1)
        else pow_loop fuel (i / 2) a1 ae x1 xe
  end.

(** [math.Pow(x, float64(n))] for [0 <= n < 2^53]; 64 iterations exhaust the exponent. *)
Definition math_Pow (x : float64) (n : Z) : float64 :=
  if decide (n = 0) then f64_of_int 1
  else if decide (n = 1) then x
  else match x with
       | S754_nan => S754_nan
       | S754_zero s => S754_zero (s && Z.odd n)
       | S754_infinity s => S754_infinity (s && Z.odd n)
       | S754_finite _ _ _ =>
           let '(x1, xe) := SFfrexp 53 1024 x in
           let '(a1, ae) := pow_loop 64 n (f64_of_int 1) 0 x1 xe in SFldexp 53 1024 a1 ae
       end.

(** ** [strconv.ParseFloat] *)

Definition code (c : ascii) : Z := Z.of_N (N_of_ascii c).
Definition lower (c : ascii) : Z := Z.lor (code c) 32.

(** The value of a digit in base 10 or 16. *)
Definition digit_value (base : Z) (c : ascii) : option Z :=
  if decide (48 <= code c <= 57) then Some (code c - 48)
  else if decide (base = 16 /\ 97 <= lower c <= 102) then Some (lower c - 87)
  else None.

(** The digits read: their value, how many after the leading zeros, and the position of the
    point relative to them. *)
Record mantissa := { m_val : Z; m_nd : Z; m_dp : Z; m_dot : bool; m_digits : bool; m_under : bool }.

Fixpoint scan_mantissa (base : Z) (cs : list ascii) (m : mantissa) : mantissa * list ascii :=
  match cs with
  | [] => (m, cs)
  | c :: rest =>
      if decide (c = "_"%char) then
        scan_mantissa base rest {| m_val := m_val m; m_nd := m_nd m; m_dp := m_dp m; m_dot := m_dot m; m_digits := m_digits m; m_under := true |}
      else if decide (c = "."%char) then
        if m_dot m then (m, cs)
        else scan_mantissa base rest {| m_val := m_val m; m_nd := m_nd m; m_dp := m_nd m; m_dot := true; m_digits := m_digits m; m_under := m_under m |}
      else match digit_value base c with
           | Some d =>
               if decide (c = "0"%char /\ m_nd m = 0) then
                 scan_mantissa base rest {| m_val := m_val m; m_nd := 0; m_dp := m_dp m - 1; m_dot := m_dot m; m_digits := true; m_under := m_under m |}
               else
                 scan_mantissa base rest {| m_val := base * m_val m + d; m_nd := m_nd m + 1; m_dp := m_dp m; m_dot := m_dot m; m_digits := true; m_under := m_under m |}
           | None => (m, cs)
           end
  end.

(** The digits of the exponent; beyond five of them the value no longer grows. *)
Fixpoint scan_exponent (cs : list ascii) (e : Z) (under : bool) : Z * bool * list ascii :=
  match cs with
  | [] => (e, under, cs)
  | c :: rest =>
      if decide (c = "_"%char) then scan_exponent rest e true
      else if decide (48 <= code c <= 57) then
        scan_exponent rest (if decide (e < 10000) then 10 * e + (code c - 48) else e) under
      else (e, under, cs)
  end.

(** [underscoreOK]: an underscore only between digits, the base prefix counting as one. *)
Inductive seen := SeenStart | SeenDigit | SeenUnder | SeenOther.
#[global] Instance seen_eq_dec : EqDecision seen.
Proof. solve_decision. Defined.

Fixpoint underscores (hex : bool) (cs : list ascii) (i : seen) : bool :=
  match cs with
  | [] => bool_decide (i <> SeenUnder)
  | c :: cs =>
      if decide (is_Some (digit_value (if hex then 16 else 10) c)) then underscores hex cs SeenDigit
      else if decide (c = "_"%char) then if decide (i = SeenDigit) then underscores hex cs SeenUnder else false
      else if decide (i = SeenUnder) then false
      else underscores hex cs SeenOther
  end.
Definition underscoreOK (unsigned : list ascii) : bool :=
  match unsigned with
  | z :: x :: rest =>
      if decide (z = "0"%char /\ (lower x = 98 \/ lower x = 111 \/ lower x = 120))
      then underscores (bool_decide (lower x = 120)) rest SeenDigit
      else underscores false unsigned SeenStart
  | _ => underscores false unsigned SeenStart
  end.

(** The float nearest to [m * base^e], ties to even; [None] beyond the range. *)
Definition or_range_error (f : float64) : option float64 := if f64_IsInf f then None else Some f.
Definition round_ratio (neg : bool) (num den : positive) : float64 :=
  let '(m, e, l) := SFdiv_core_binary 53 1024 (Zpos num) 0 (Zpos den) 0 in binary_round_aux 53 1024 neg m e l.
Definition decimal_value (neg : bool) (m e : Z) : float64 :=
  match m with
  | Zpos p =>
      if decide (0 <= e) then binary_normalize 53 1024 ((if neg then -1 else 1) * (m * 10 ^ e)) 0 neg
      else round_ratio neg p (Z.to_pos (10 ^ (- e)))
  | _ => S754_zero neg
  end.
Definition hex_value (neg : bool) (m e : Z) : float64 :=
  match m with
  | Zpos _ => binary_normalize 53 1024 (if neg then - m else m) e neg
  | _ => S754_zero neg
  end.

(** The exponent after the digits, if there is one: [None] where the text is malformed. *)
Definition read_exponent (expChar : Z) (cs : list ascii) : option (option Z * bool * list ascii) :=
  match cs with
  | c :: rest =>
      if decide (lower c = expChar) then
        let '(esign, rest) := match rest with
                              | s :: rest' => if decide (s = "+"%char) then (1, rest')
                                              else if decide (s = "-"%char) then (-1, rest') else (1, rest)
                              | [] => (1, [])
                              end in
        match rest with
        | d :: _ =>
            if decide (48 <= code d <= 57) then
              let '(e, u, rest) := scan_exponent rest 0 false in Some (Some (e * esign), u, rest)
            else None
        | [] => None
        end
      else Some (None, false, cs)
  | [] => Some (None, false, [])
  end.

Definition lowered (cs : list ascii) : list Z := map lower cs.
Definition ascii_text (s : string) : list Z := map code (String.list_ascii_of_string s).

(** [readFloat] and the rounding, on the text after the sign. *)
Definition read_unsigned (neg : bool) (cs : list ascii) : option float64 :=
  let hex := match cs with
             | z :: x :: _ :: _ => bool_decide (z = "0"%char /\ lower x = 120)
             | _ => false
             end in
  let base := if hex then 16 else 10 in
  let start := {| m_val := 0; m_nd := 0; m_dp := 0; m_dot := false; m_digits := false; m_under := false |} in
  let '(m, rest) := scan_mantissa base (if hex then drop 2 cs else cs) start in
  if m_digits m then
    match read_exponent (if hex then 112 else 101) rest with
    | Some (oe, u, []) =>
        if decide ((hex = true /\ oe = None) \/ ((m_under m || u) = true /\ underscoreOK cs = false)) then None
        else
          let dp := if m_dot m then m_dp m else m_nd m in
          if hex then or_range_error (hex_value neg (m_val m) (4 * (dp - m_nd m) + default 0 oe))
          else
            let dp := dp + default 0 oe in
            if decide (m_val m = 0 \/ dp < -330) then Some (S754_zero neg)
            else if decide (310 < dp) then None
            else or_range_error (decimal_value neg (m_val m) (dp - m_nd m))
    | _ => None
    end
  else None.

(** [strconv.ParseFloat(s, 64)]; [None] is a syntax or a range error. *)
Definition ParseFloat (s : string) : option float64 :=
  let cs := String.list_ascii_of_string s in
  let '(neg, signed, body) := match cs with
                              | c :: rest => if decide (c = "+"%char) then (false, true, rest)
                                             else if decide (c = "-"%char) then (true, true, rest) else (false, false, cs)
                              | [] => (false, false, [])
                              end in
  if decide (lowered body = ascii_text "inf" \/ lowered body = ascii_text "infinity") then Some (S754_infinity neg)
  else if decide (signed = false /\ lowered body = ascii_text "nan") then Some S754_nan
  else read_unsigned neg body.

(** ** The text of a number under [%v] *)

Definition decimal (z : Z) : string := pretty z.

(** [10^k] as a ratio. *)
Definition pow10 (k : Z) : Z * Z := if decide (0 <= k) then (10 ^ k, 1) else (1, 10 ^ (- k)).

(** The [n]-digit decimal nearest to [num / den], given that it has its point after [dp]
    digits: the digits as an integer and the position of the point. *)
Definition round_digits (num den : Z) (dp : Z) (n : Z) : Z * Z :=
  let '(a, b) := pow10 (n - dp) in
  let q := (num * a) / (den * b) in
  let r := (num * a) mod (den * b) in
  let d := if decide (2 * r > den * b \/ (2 * r = den * b /\ Z.odd q = true)) then q + 1 else q in
  if decide (d = 10 ^ n) then (10 ^ (n - 1), dp + 1) else (d, dp).

(** Fewest digits that read back as the same float; 17 always do. *)
Fixpoint shortest (fuel : nat) (f : float64) (num den dp n : Z) : Z * Z * Z :=
  let '(d, dp') := round_digits num den dp n in
  match fuel with
  | O => (d, dp', n)
  | S fuel => if decide (decimal_value false d (dp' - n) = f) then (d, dp', n) else shortest fuel f num den dp (n + 1)
  end.

Definition decimal_point (num den : Z) : Z :=
  let k := (Z.log2 num - Z.log2 den) * 30103 / 100000 - 1 in
  let below k := let '(a, b) := pow10 k in bool_decide (num * b < den * a) in
  if below k then k else if below (k + 1) then k + 1 else if below (k + 2) then k + 2 else k + 3.

Definition zeros (n : Z) : string := String.concat EmptyString (replicate (Z.to_nat n) "0").

(** [%e] below [10^-4] and from [10^6] on, [%f] between. *)
Definition format_digits (digits : string) (nd dp : Z) : string :=
  let exp := dp - 1 in
  if decide (exp < -4 \/ exp >= 6) then
    let frac := if decide (1 < nd) then String.append "." (String.substring 1 (Z.to_nat nd - 1) digits) else EmptyString in
    let e := decimal (Z.abs exp) in
    let e := if decide (Z.abs exp < 10) then String.append "0" e else e in
    String.substring 0 1 digits +:+ frac +:+ "e" +:+ (if decide (exp < 0) then "-" else "+") +:+ e
  else if decide (dp <= 0) then "0." +:+ zeros (- dp) +:+ digits
  else if decide (nd <= dp) then digits +:+ zeros (dp - nd)
  else String.substring 0 (Z.to_nat dp) digits +:+ "." +:+ String.substring (Z.to_nat dp) (Z.to_nat (nd - dp)) digits.

Definition format_float (f : float64) : string :=
  match f with
  | S754_nan => "NaN"
  | S754_infinity s => if s then "-Inf" else "+Inf"
  | S754_zero s => if s then "-0" else "0"
  | S754_finite s m e =>
      let num := if decide (0 <= e) then Zpos m * 2 ^ e else Zpos m in
      let den := if decide (0 <= e) then 1 else 2 ^ (- e) in
      let '(d, dp, n) := shortest 16 (S754_finite false m e) num den (decimal_point num den) 1 in
      (if s then "-" else EmptyString) +:+ format_digits (decimal d) n dp
  end.
