(* ===== verification/DeltaNet.v ===== *)
(** * Delta propagation

    The setting of [src/pkg/deltacrdt]: a mutator changes the local replica and
    returns a delta; deltas travel and are absorbed by [Merge].  [DeltaLaws] is
    what a delta type promises; a network of replicas that mutate locally and
    deliver any emitted delta to any replica, in any order and any number of
    times, is then proved to converge from the promise alone. *)

From S2P Require Import Prelude.

(** A mutator is a local shortcut for absorbing its own delta.  [okop] is the
    condition under which a mutation keeps that promise, e.g. no overflow. *)
Class DeltaLaws {S D O : Type} (R : relation S) (VS : S -> Prop) (VD : D -> Prop) (okop : O -> S -> Prop)
    (absorb : S -> D -> S) (mutate : O -> S -> S * D) (init : string -> S) : Prop := {
  dl_conv :: Convergent R VS VD absorb;
  dl_init : forall r, VS (init r);
  dl_init_same : forall r r', R (init r) (init r');
  dl_valid : forall o s, VS s -> okop o s -> VS (mutate o s).1 /\ VD (mutate o s).2;
  dl_delta : forall o s, VS s -> okop o s -> R (mutate o s).1 (absorb s (mutate o s).2)
}.

Inductive net_event {O : Type} := Local (r : string) (o : O) | Deliver (r : string) (i : nat).
Arguments net_event : clear implicits.

(** The replicas that acted so far, the deltas emitted, and the deltas each
    replica has absorbed (its own included). *)
Record net {S D : Type} := mkNet { reps : gmap string S; emitted : list D; absorbed : gmap string (list D) }.
Arguments net : clear implicits.
Arguments mkNet {S D}.

Section network.
Context {S D O : Type} {R : relation S} {VS : S -> Prop} {VD : D -> Prop} {okop : O -> S -> Prop}.
Context {absorb : S -> D -> S} {mutate : O -> S -> S * D} {init : string -> S}.
Context `{okop_dec : forall o s, Decision (okop o s)}.

Definition net_rep (n : net S D) (r : string) : S := default (init r) (reps n !! r).
Definition net_seen (n : net S D) (r : string) : list D := default [] (absorbed n !! r).

Definition net_step (n : net S D) (e : net_event O) : option (net S D) :=
  match e with
  | Local r o =>
      if decide (okop o (net_rep n r)) then
        let '(s, d) := mutate o (net_rep n r) in
        Some (mkNet (<[r := s]> (reps n)) (emitted n ++ [d]) (<[r := net_seen n r ++ [d]]> (absorbed n)))
      else None
  | Deliver r i =>
      d ← emitted n !! i;
      Some (mkNet (<[r := absorb (net_rep n r) d]> (reps n)) (emitted n) (<[r := net_seen n r ++ [d]]> (absorbed n)))
  end.

Fixpoint net_run (n : net S D) (es : list (net_event O)) : option (net S D) :=
  match es with [] => Some n | e :: es => n' ← net_step n e; net_run n' es end.

Definition net_init : net S D := mkNet ∅ [] ∅.

Lemma net_run_app n es es' : net_run n (es ++ es') = n' ← net_run n es; net_run n' es'.
Proof. revert n. induction es as [|e es IH]; intros n; cbn; [done|]. destruct (net_step n e); cbn; [apply IH|done]. Qed.

(** Invariants hold along a run. *)
Lemma net_run_ind (P : net S D -> Prop) n es n' :
  (forall n e n', P n -> net_step n e = Some n' -> P n') -> P n -> net_run n es = Some n' -> P n'.
Proof.
  intros Hstep. revert n. induction es as [|e es IH]; intros n Hn; cbn; [by intros [= <-]|].
  destruct (net_step n e) as [n1|] eqn:E; cbn; [|done]. apply IH. by eapply Hstep.
Qed.

Lemma net_rep_insert n r s em ab k :
  net_rep (mkNet (<[r := s]> (reps n)) em ab) k = if decide (r = k) then s else net_rep n k.
Proof. unfold net_rep. cbn. rewrite lookup_insert. by case_decide. Qed.

Lemma net_seen_insert n r l rp em k :
  net_seen (mkNet rp em (<[r := l]> (absorbed n))) k = if decide (r = k) then l else net_seen n k.
Proof. unfold net_seen. cbn. rewrite lookup_insert. by case_decide. Qed.

Context `{Hlaws : !DeltaLaws R VS VD okop absorb mutate init}.

(** Every replica is, up to [R], the merge of the deltas it has absorbed. *)
Definition net_inv (n : net S D) : Prop :=
  Forall VD (emitted n) /\
  forall r, VS (net_rep n r) /\ Forall VD (net_seen n r) /\ R (net_rep n r) (foldl absorb (init r) (net_seen n r)).

Lemma net_inv_absorb n r s d em :
  net_inv n -> Forall VD em -> VS s -> VD d -> R s (absorb (net_rep n r) d) ->
  net_inv (mkNet (<[r := s]> (reps n)) em (<[r := net_seen n r ++ [d]]> (absorbed n))).
Proof.
  intros [_ Hinv] Hem Hs Hd HR. split; [done|]. intros k. rewrite net_rep_insert, net_seen_insert.
  destruct (Hinv k) as (Hk & Hseen & HRk). case_decide as Heq; [subst k|done].
  split_and!; [done|apply Forall_app; by repeat constructor|]. rewrite foldl_app. cbn.
  etrans; [exact HR|]. by apply conv_proper.
Qed.

Lemma net_step_inv n e n' : net_inv n -> net_step n e = Some n' -> net_inv n'.
Proof.
  intros Hinv Hstep. pose proof Hinv as [Hem Hr]. destruct e as [r o|r i]; cbn in Hstep.
  - case_decide as Hok; [|done]. destruct (Hr r) as (HVS & _ & _).
    destruct (dl_valid o (net_rep n r) HVS Hok) as [Hs Hd]. pose proof (dl_delta o (net_rep n r) HVS Hok) as HR.
    destruct (mutate o (net_rep n r)) as [s d]. simplify_eq. cbn in *.
    apply net_inv_absorb; [done| |done..]. apply Forall_app. by repeat constructor.
  - destruct (emitted n !! i) as [d|] eqn:Hi; [|done]. cbn in Hstep. simplify_eq.
    assert (VD d) by by eapply Forall_lookup_1. destruct (Hr r) as (HVS & _ & _).
    apply net_inv_absorb; [done|done|by apply conv_valid|done|reflexivity].
Qed.

Lemma net_init_inv : net_inv net_init.
Proof. split; [constructor|]. intros r. split_and!; [apply dl_init|constructor|reflexivity]. Qed.

(** Replicas that absorbed the same deltas agree, whatever the order and the
    number of deliveries. *)
Lemma net_converges es n r r' :
  net_run net_init es = Some n -> (forall d, d ∈ net_seen n r <-> d ∈ net_seen n r') ->
  R (net_rep n r) (net_rep n r').
Proof.
  intros Hrun Hset.
  assert (net_inv n) as [_ Hinv] by (eapply net_run_ind; eauto using net_step_inv, net_init_inv).
  destruct (Hinv r) as (_ & Hs & HR), (Hinv r') as (_ & Hs' & HR').
  etrans; [exact HR|]. etrans; [|symmetry; exact HR'].
  etrans; [by apply converge_same_updates; [apply dl_init|..]|].
  apply converge_proper, dl_init_same.
Qed.

End network.

Arguments net_rep {S D} init n r.
Arguments net_seen {S D} n r.
Arguments net_step {S D O} okop absorb mutate init {okop_dec} n e.
Arguments net_run {S D O} okop absorb mutate init {okop_dec} n es.

(** Decidable forms of the hypotheses of a concrete run. *)
Lemma same_elements {D} `{!EqDecision D} (a b : list D) :
  Forall (fun d => d ∈ b) a /\ Forall (fun d => d ∈ a) b -> forall d, d ∈ a <-> d ∈ b.
Proof. intros [Ha Hb] d. rewrite Forall_forall in Ha, Hb. split; auto. Qed.

Lemma run_default {A} (x : A) (o : option A) : is_Some o -> o = Some (default x o).
Proof. by intros [y ->]. Qed.

Ltac concrete_run :=
  lazymatch goal with
  | |- _ = Some _ => apply run_default; by_eval
  | |- forall _, _ => apply same_elements; by_eval
  end.
