(* ===== verification/DeltaCrdt.v ===== *)
(** * Delta-state CRDTs ([src/pkg/deltacrdt])

    The four delta types: counters ([gcounter.go], [pncounter.go]), the
    observed-remove set ([orset.go]) and the last-writer-wins map ([lwwmap.go]).
    Each is an instance of [DeltaLaws], from which the convergence of a whole
    network of replicas follows. *)

From S2P Require Import Prelude Counters Sha256 GoFmt DeltaNet.
Local Open Scope Z_scope.

(** ** Grow-only counter *)

Record DeltaGCounter := mkDeltaGCounter { dg_nodeID : string; dg_counts : gmap string Z }.
Record GCounterDelta := mkGCounterDelta { gd_counts : gmap string Z }.

Definition DeltaGCounter_New (nodeID : string) : DeltaGCounter := mkDeltaGCounter nodeID ∅.

Definition DeltaGCounter_Increment (n : Z) (g : DeltaGCounter) : DeltaGCounter * GCounterDelta :=
  let counts := <[dg_nodeID g := u64 (zget (dg_counts g) (dg_nodeID g) + n)]> (dg_counts g) in
  (mkDeltaGCounter (dg_nodeID g) counts, mkGCounterDelta {[dg_nodeID g := zget counts (dg_nodeID g)]}).

Definition DeltaGCounter_Merge (g : DeltaGCounter) (d : GCounterDelta) : DeltaGCounter :=
  mkDeltaGCounter (dg_nodeID g) (max_into (dg_counts g) (gd_counts d)).

(** The summing loop of the [Value] methods. *)
Definition sum_counts (m : gmap string Z) : Z := range_fold (fun sum _ v => u64 (sum + v)) 0 m.

Definition DeltaGCounter_Value (g : DeltaGCounter) : Z := sum_counts (dg_counts g).

Definition DeltaGCounter_State (g : DeltaGCounter) : GCounterDelta := mkGCounterDelta (copy_map (dg_counts g)).

(** The comparison shared by [gcounterEqual] and [pncounterEqual]. *)
Definition eqMap (x y : gmap string Z) : bool :=
  if decide (size x <> size y) then false else slots_agree x y.

Definition gcounterEqual (a b : GCounterDelta) : bool := eqMap (gd_counts a) (gd_counts b).

Definition sortedNodes (m : gmap string Z) : list string := sort_strings (map_to_list m).*1.

(** ** Increment/decrement counter *)

Record DeltaPNCounter := mkDeltaPNCounter { dp_nodeID : string; dp_pos : gmap string Z; dp_neg : gmap string Z }.
Record PNCounterDelta := mkPNCounterDelta { pd_pos : gmap string Z; pd_neg : gmap string Z }.

Definition DeltaPNCounter_New (nodeID : string) : DeltaPNCounter := mkDeltaPNCounter nodeID ∅ ∅.

Definition DeltaPNCounter_Increment (n : Z) (p : DeltaPNCounter) : DeltaPNCounter * PNCounterDelta :=
  let pos := <[dp_nodeID p := u64 (zget (dp_pos p) (dp_nodeID p) + n)]> (dp_pos p) in
  (mkDeltaPNCounter (dp_nodeID p) pos (dp_neg p), mkPNCounterDelta {[dp_nodeID p := zget pos (dp_nodeID p)]} ∅).

Definition DeltaPNCounter_Decrement (n : Z) (p : DeltaPNCounter) : DeltaPNCounter * PNCounterDelta :=
  let neg := <[dp_nodeID p := u64 (zget (dp_neg p) (dp_nodeID p) + n)]> (dp_neg p) in
  (mkDeltaPNCounter (dp_nodeID p) (dp_pos p) neg, mkPNCounterDelta ∅ {[dp_nodeID p := zget neg (dp_nodeID p)]}).

Definition DeltaPNCounter_Merge (p : DeltaPNCounter) (d : PNCounterDelta) : DeltaPNCounter :=
  mkDeltaPNCounter (dp_nodeID p) (max_into (dp_pos p) (pd_pos d)) (max_into (dp_neg p) (pd_neg d)).

Definition DeltaPNCounter_Value (p : DeltaPNCounter) : Z :=
  i64 (i64 (sum_counts (dp_pos p)) - i64 (sum_counts (dp_neg p))).

Definition DeltaPNCounter_State (p : DeltaPNCounter) : PNCounterDelta :=
  mkPNCounterDelta (copy_map (dp_pos p)) (copy_map (dp_neg p)).

Definition pncounterEqual (a b : PNCounterDelta) : bool :=
  eqMap (pd_pos a) (pd_pos b) && eqMap (pd_neg a) (pd_neg b).

(** ** Observed-remove set *)

Record elementState := mkElementState { es_adds : gset (list Z); es_removes : gset (list Z) }.

Definition elementState_live (s : elementState) : bool :=
  set_any (fun t => bool_decide (t ∉ es_removes s)) (es_adds s).

Definition elementState_liveTags (s : elementState) : gset (list Z) :=
  list_to_set (filter (fun t => t ∉ es_removes s) (elements (es_adds s))).

#[export] Instance PNCounterDelta_eq_dec : EqDecision PNCounterDelta.
Proof. solve_decision. Defined.

Record DeltaORSet := mkDeltaORSet { do_nodeID : string; do_seq : Z; do_elements : gmap string elementState }.

Record ORSetDelta := mkORSetDelta { od_added : gmap string (gset (list Z)); od_removed : gmap string (gset (list Z)) }.

#[export] Instance ORSetDelta_eq_dec : EqDecision ORSetDelta.
Proof. solve_decision. Defined.

Definition DeltaORSet_New (nodeID : string) : DeltaORSet := mkDeltaORSet nodeID 0 ∅.

(** The state of an element, empty when there is none yet. *)
Definition stateFor (elements : gmap string elementState) (elem : string) : elementState :=
  default (mkElementState ∅ ∅) (elements !! elem).

Section makeTag.
Context (isPrint : Z -> bool).

Definition tagPayload (nodeID elem : string) (seq : Z) : list Z :=
  quote isPrint (string_bytes nodeID) ++ [0] ++ quote isPrint (string_bytes elem) ++ [0] ++ fmt_d seq.

Definition makeTag (nodeID elem : string) (seq : Z) : list Z := fmt_x (sha256 (tagPayload nodeID elem seq)).

Definition DeltaORSet_Add (elem : string) (o : DeltaORSet) : DeltaORSet * ORSetDelta :=
  let seq := u64 (do_seq o + 1) in
  let t := makeTag (do_nodeID o) elem seq in
  let s := stateFor (do_elements o) elem in
  (mkDeltaORSet (do_nodeID o) seq (<[elem := mkElementState (es_adds s ∪ {[t]}) (es_removes s)]> (do_elements o)),
   mkORSetDelta {[elem := {[t]}]} ∅).
End makeTag.

Definition DeltaORSet_Remove (elem : string) (o : DeltaORSet) : DeltaORSet * ORSetDelta :=
  match do_elements o !! elem with
  | None => (o, mkORSetDelta ∅ ∅)
  | Some s =>
      let live := elementState_liveTags s in
      if decide (size live = 0%nat) then (o, mkORSetDelta ∅ ∅)
      else (mkDeltaORSet (do_nodeID o) (do_seq o)
              (<[elem := mkElementState (es_adds s) (es_removes s ∪ live)]> (do_elements o)),
            mkORSetDelta ∅ {[elem := live]})
  end.

(** The two loops of [Merge]. *)
Definition merge_added (added : gmap string (gset (list Z))) (elements : gmap string elementState) : gmap string elementState :=
  range_fold (fun elements elem newTags =>
    if decide (size newTags = 0%nat) then elements
    else let s := stateFor elements elem in
         <[elem := mkElementState (es_adds s ∪ newTags) (es_removes s)]> elements) elements added.

Definition merge_removed (removed : gmap string (gset (list Z))) (elements : gmap string elementState) : gmap string elementState :=
  range_fold (fun elements elem removedTags =>
    if decide (size removedTags = 0%nat) then elements
    else let s := stateFor elements elem in
         <[elem := mkElementState (es_adds s) (es_removes s ∪ removedTags)]> elements) elements removed.

Definition DeltaORSet_Merge (o : DeltaORSet) (d : ORSetDelta) : DeltaORSet :=
  mkDeltaORSet (do_nodeID o) (do_seq o) (merge_removed (od_removed d) (merge_added (od_added d) (do_elements o))).

Definition DeltaORSet_Contains (o : DeltaORSet) (elem : string) : bool :=
  match do_elements o !! elem with Some s => elementState_live s | None => false end.

Definition DeltaORSet_Elements (o : DeltaORSet) : list string :=
  sort_strings (filter (fun p => elementState_live p.2 = true) (map_to_list (do_elements o))).*1.

Definition DeltaORSet_State (o : DeltaORSet) : ORSetDelta :=
  mkORSetDelta
    (range_fold (fun added elem s =>
       let live := elementState_liveTags s in
       if decide (size live = 0%nat) then added else <[elem := live]> added) ∅ (do_elements o)) ∅.

Definition orsetStateEqual (a b : ORSetDelta) : bool :=
  if decide (size (od_added a) <> size (od_added b)) then false
  else range_all (fun elem aTags =>
    match od_added b !! elem with
    | None => false
    | Some bTags =>
        if decide (size aTags <> size bTags) then false else set_all (fun t => bool_decide (t ∈ bTags)) aTags
    end) (od_added a).

(** ** Last-writer-wins map *)

Record lwwEntry := mkLwwEntry { le_value : string; le_ts : Z; le_nodeID : string; le_tombstone : bool }.
Record LWWMap := mkLWWMap { lm_nodeID : string; lm_entries : gmap string lwwEntry }.
Record LWWMapDelta := mkLWWMapDelta { ld_entries : gmap string lwwEntry }.

#[export] Instance lwwEntry_eq_dec : EqDecision lwwEntry.
Proof. solve_decision. Defined.

#[export] Instance LWWMapDelta_eq_dec : EqDecision LWWMapDelta.
Proof. solve_decision. Defined.

Definition LWWMap_New (nodeID : string) : LWWMap := mkLWWMap nodeID ∅.

Definition LWWMap_Put (key value : string) (ts : Z) (m : LWWMap) : LWWMap * LWWMapDelta :=
  let e := mkLwwEntry value ts (lm_nodeID m) false in
  (mkLWWMap (lm_nodeID m) (<[key := e]> (lm_entries m)), mkLWWMapDelta {[key := e]}).

Definition LWWMap_Delete (key : string) (ts : Z) (m : LWWMap) : LWWMap * LWWMapDelta :=
  let e := mkLwwEntry EmptyString ts (lm_nodeID m) true in
  (mkLWWMap (lm_nodeID m) (<[key := e]> (lm_entries m)), mkLWWMapDelta {[key := e]}).

Definition lwwWins (candidate incumbent : lwwEntry) : bool :=
  if decide (le_ts candidate <> le_ts incumbent) then bool_decide (le_ts candidate > le_ts incumbent)
  else if decide (le_nodeID candidate = le_nodeID incumbent) then le_tombstone candidate && negb (le_tombstone incumbent)
  else bool_decide (slt (le_nodeID incumbent) (le_nodeID candidate)).

Definition LWWMap_Merge (m : LWWMap) (d : LWWMapDelta) : LWWMap :=
  mkLWWMap (lm_nodeID m)
    (range_fold (fun entries key incoming =>
       match entries !! key with
       | Some existing => if lwwWins incoming existing then <[key := incoming]> entries else entries
       | None => <[key := incoming]> entries
       end) (lm_entries m) (ld_entries d)).

Definition LWWMap_Get (m : LWWMap) (key : string) : string * bool :=
  match lm_entries m !! key with
  | Some e => if le_tombstone e then (EmptyString, false) else (le_value e, true)
  | None => (EmptyString, false)
  end.

Definition LWWMap_Keys (m : LWWMap) : list string :=
  sort_strings (filter (fun p => le_tombstone p.2 = false) (map_to_list (lm_entries m))).*1.

Definition LWWMap_State (m : LWWMap) : LWWMapDelta :=
  mkLWWMapDelta (range_fold (fun cp k v => <[k := v]> cp) ∅ (lm_entries m)).

Definition lwwmapEqual (a b : LWWMapDelta) : bool :=
  if decide (size (ld_entries a) <> size (ld_entries b)) then false
  else range_all (fun k av =>
    match ld_entries b !! k with Some bv => bool_decide (av = bv) | None => false end) (ld_entries a).

(** ** Counters: laws *)

Lemma sum_counts_proper a b : same_slots a b -> sum_counts a = sum_counts b.
Proof.
  intros Hab. change (GCounter_Value (mkGCounter a) = GCounter_Value (mkGCounter b)).
  rewrite !GCounter_Value_sum. cbn [Counters.counts]. by rewrite (slot_sum_proper _ _ Hab).
Qed.

(** Bumping one's own slot is absorbing the bumped slot. *)
Lemma bump_is_max m k n :
  slots_ok m -> 0 <= n -> zget m k + n <= MaxUint64 ->
  same_slots (<[k := u64 (zget m k + n)]> m) (max_into m {[k := u64 (zget m k + n)]}).
Proof.
  intros Hm Hn Hmax j. pose proof (slots_ok_zget m k Hm). rewrite u64_id by int_lia.
  rewrite max_into_zget; [|apply map_Forall_singleton; int_lia|done].
  destruct (decide (k = j)) as [->|Hne].
  - rewrite zget_insert_eq. unfold zget at 3. rewrite lookup_singleton_eq. cbn. lia.
  - rewrite zget_insert_ne by done. unfold zget at 3. rewrite lookup_singleton_ne by done. cbn.
    pose proof (slots_ok_zget m j Hm). int_lia.
Qed.

Lemma max_into_comm m a b :
  slots_ok m -> slots_ok a -> slots_ok b -> same_slots (max_into (max_into m a) b) (max_into (max_into m b) a).
Proof. intros Hm Ha Hb k. rewrite !max_into_zget by auto using max_into_ok. lia. Qed.

Lemma max_into_idem m a : slots_ok m -> slots_ok a -> same_slots (max_into (max_into m a) a) (max_into m a).
Proof. intros Hm Ha k. rewrite !max_into_zget by auto using max_into_ok. lia. Qed.

Lemma max_into_empty m : max_into m ∅ = m.
Proof. apply map_eq. intros k. by rewrite max_into_lookup, lookup_empty. Qed.

Lemma slots_ok_bump m k z : slots_ok m -> slots_ok (<[k := u64 z]> m) /\ slots_ok {[k := zget (<[k := u64 z]> m) k]}.
Proof.
  intros Hm. rewrite zget_insert_eq. split; [by apply map_Forall_insert_2; [apply u64_range|]|].
  apply map_Forall_singleton, u64_range.
Qed.

Definition dpn_same (p q : DeltaPNCounter) : Prop := same_slots (dp_pos p) (dp_pos q) /\ same_slots (dp_neg p) (dp_neg q).
Definition dpn_ok (p : DeltaPNCounter) : Prop := slots_ok (dp_pos p) /\ slots_ok (dp_neg p).
Definition dpn_delta_ok (d : PNCounterDelta) : Prop := slots_ok (pd_pos d) /\ slots_ok (pd_neg d).

Inductive dpn_op := DpInc (n : Z) | DpDec (n : Z).

Definition dpn_mutate (o : dpn_op) : DeltaPNCounter -> DeltaPNCounter * PNCounterDelta :=
  match o with DpInc n => DeltaPNCounter_Increment n | DpDec n => DeltaPNCounter_Decrement n end.

(** The own slot does not overflow. *)
Definition dpn_okop (o : dpn_op) (p : DeltaPNCounter) : Prop :=
  match o with
  | DpInc n => 0 <= n /\ zget (dp_pos p) (dp_nodeID p) + n <= MaxUint64
  | DpDec n => 0 <= n /\ zget (dp_neg p) (dp_nodeID p) + n <= MaxUint64
  end.

#[export] Instance dpn_okop_dec o p : Decision (dpn_okop o p).
Proof. destruct o; apply _. Defined.

#[export] Instance dpn_convergent : Convergent dpn_same dpn_ok dpn_delta_ok DeltaPNCounter_Merge.
Proof.
  split; [split; [done|by intros ?? [? ?]|intros ??? [] []; split; by etrans]|..].
  - intros s s' d [H1 H2]. split; cbn; by apply max_into_proper.
  - intros s d [] []. split; cbn; by apply max_into_ok.
  - intros s d1 d2 [] [] []. split; cbn; by apply max_into_comm.
  - intros s d [] []. split; cbn; by apply max_into_idem.
Qed.

#[export] Instance dpn_laws :
  DeltaLaws dpn_same dpn_ok dpn_delta_ok dpn_okop DeltaPNCounter_Merge dpn_mutate DeltaPNCounter_New.
Proof.
  split; [apply _|intros; split; apply map_Forall_empty|done|..]; intros [n|n] p [Hp Hn] [Hpos Hmax]; cbn in *.
  - destruct (slots_ok_bump (dp_pos p) (dp_nodeID p) (zget (dp_pos p) (dp_nodeID p) + n) Hp).
    split; split; cbn; done.
  - destruct (slots_ok_bump (dp_neg p) (dp_nodeID p) (zget (dp_neg p) (dp_nodeID p) + n) Hn).
    split; split; cbn; done.
  - split; cbn; [rewrite zget_insert_eq; by apply bump_is_max|by rewrite max_into_empty].
  - split; cbn; [by rewrite max_into_empty|rewrite zget_insert_eq; by apply bump_is_max].
Qed.

(** ** Observed-remove set: laws *)

Lemma merge_added_state added els el :
  stateFor (merge_added added els) el =
    mkElementState (es_adds (stateFor els el) ∪ sget added el) (es_removes (stateFor els el)).
Proof.
  unfold stateFor at 1, merge_added.
  rewrite (range_fold_slot _ (fun o tags => if decide (size tags = 0%nat) then o else
    Some (mkElementState (es_adds (default (mkElementState ∅ ∅) o) ∪ tags) (es_removes (default (mkElementState ∅ ∅) o))))).
  - fold (stateFor els el). unfold sget. destruct (added !! el) as [tags|]; cbn.
    + case_decide as Hsz; [|done]. apply size_empty_iff, leibniz_equiv in Hsz as ->.
      fold (stateFor els el). rewrite (right_id_L ∅ (∪)). by destruct (stateFor els el).
    + fold (stateFor els el). rewrite (right_id_L ∅ (∪)). by destruct (stateFor els el).
  - intros out i v j. unfold stateFor. case_decide as Hsz; [by case_decide; subst|by rewrite lookup_insert].
Qed.

Lemma merge_removed_state removed els el :
  stateFor (merge_removed removed els) el =
    mkElementState (es_adds (stateFor els el)) (es_removes (stateFor els el) ∪ sget removed el).
Proof.
  unfold stateFor at 1, merge_removed.
  rewrite (range_fold_slot _ (fun o tags => if decide (size tags = 0%nat) then o else
    Some (mkElementState (es_adds (default (mkElementState ∅ ∅) o)) (es_removes (default (mkElementState ∅ ∅) o) ∪ tags)))).
  - fold (stateFor els el). unfold sget. destruct (removed !! el) as [tags|]; cbn.
    + case_decide as Hsz; [|done]. apply size_empty_iff, leibniz_equiv in Hsz as ->.
      fold (stateFor els el). rewrite (right_id_L ∅ (∪)). by destruct (stateFor els el).
    + fold (stateFor els el). rewrite (right_id_L ∅ (∪)). by destruct (stateFor els el).
  - intros out i v j. unfold stateFor. case_decide as Hsz; [by case_decide; subst|by rewrite lookup_insert].
Qed.

(** The per-element view of a replica, and of [Merge] on it. *)
Definition dor_view (o : DeltaORSet) (el : string) : elementState := stateFor (do_elements o) el.

Lemma DeltaORSet_Merge_view o d el :
  dor_view (DeltaORSet_Merge o d) el =
    mkElementState (es_adds (dor_view o el) ∪ sget (od_added d) el) (es_removes (dor_view o el) ∪ sget (od_removed d) el).
Proof. unfold dor_view. cbn. by rewrite merge_removed_state, merge_added_state. Qed.

Lemma elem_of_liveTags s t : t ∈ elementState_liveTags s <-> t ∈ es_adds s /\ t ∉ es_removes s.
Proof. unfold elementState_liveTags. rewrite elem_of_list_to_set, list_elem_of_filter, elem_of_elements. tauto. Qed.

Lemma elementState_live_spec s : elementState_live s = true <-> exists t, t ∈ es_adds s /\ t ∉ es_removes s.
Proof. unfold elementState_live. rewrite set_any_true. by setoid_rewrite bool_decide_eq_true. Qed.

Lemma DeltaORSet_Contains_view o el : DeltaORSet_Contains o el = elementState_live (dor_view o el).
Proof. unfold DeltaORSet_Contains, dor_view, stateFor. by destruct (do_elements o !! el). Qed.

Lemma DeltaORSet_Contains_spec o el :
  DeltaORSet_Contains o el = true <-> exists t, t ∈ es_adds (dor_view o el) /\ t ∉ es_removes (dor_view o el).
Proof. by rewrite DeltaORSet_Contains_view, elementState_live_spec. Qed.

Lemma DeltaORSet_Elements_spec o el : el ∈ DeltaORSet_Elements o <-> DeltaORSet_Contains o el = true.
Proof.
  unfold DeltaORSet_Elements, DeltaORSet_Contains. rewrite sort_strings_perm, list_elem_of_fmap. split.
  - intros ([el' s] & -> & [Hl Hin%elem_of_map_to_list]%list_elem_of_filter). cbn in *. by rewrite Hin.
  - destruct (do_elements o !! el) as [s|] eqn:E; [|done]. intros Hl. exists (el, s).
    by rewrite list_elem_of_filter, elem_of_map_to_list.
Qed.

Lemma NoDup_filter_fst {V} (P : string * V -> Prop) `{!forall x, Decision (P x)} (m : gmap string V) :
  NoDup (filter P (map_to_list m)).*1.
Proof.
  eapply sublist_NoDup; [apply (NoDup_fst_map_to_list m)|]. apply fmap_sublist, sublist_filter.
Qed.

Lemma sort_strings_ext l l' : NoDup l -> NoDup l' -> (forall x, x ∈ l <-> x ∈ l') -> sort_strings l = sort_strings l'.
Proof. intros H1 H2 Hx. by apply sort_strings_proper, NoDup_Permutation. Qed.

Definition dor_same (o o' : DeltaORSet) : Prop := forall el, dor_view o el = dor_view o' el.

Lemma dor_same_Elements o o' : dor_same o o' -> DeltaORSet_Elements o = DeltaORSet_Elements o'.
Proof.
  intros Hs. apply sort_strings_ext; [apply NoDup_filter_fst..|]. intros el.
  rewrite <- (sort_strings_perm (filter _ (map_to_list (do_elements o))).*1).
  rewrite <- (sort_strings_perm (filter _ (map_to_list (do_elements o'))).*1).
  change (el ∈ DeltaORSet_Elements o <-> el ∈ DeltaORSet_Elements o').
  by rewrite !DeltaORSet_Elements_spec, !DeltaORSet_Contains_view, Hs.
Qed.

Lemma DeltaORSet_State_lookup o el :
  od_added (DeltaORSet_State o) !! el =
    let live := elementState_liveTags (dor_view o el) in if decide (size live = 0%nat) then None else Some live.
Proof.
  unfold DeltaORSet_State, dor_view, stateFor. cbn [od_added].
  rewrite (range_fold_slot _ (fun a s => if decide (size (elementState_liveTags s) = 0%nat) then a else Some (elementState_liveTags s))).
  - destruct (do_elements o !! el); done.
  - intros out i v j. case_decide; [by case_decide; subst|by rewrite lookup_insert].
Qed.

Lemma orsetStateEqual_refl a : orsetStateEqual a a = true.
Proof.
  unfold orsetStateEqual. rewrite decide_False by tauto. apply range_all_true. intros k v ->.
  rewrite decide_False by tauto. apply set_all_true. intros t Ht. by apply bool_decide_eq_true.
Qed.

Lemma dor_same_State o o' : dor_same o o' -> DeltaORSet_State o = DeltaORSet_State o'.
Proof.
  intros Hs. assert (od_added (DeltaORSet_State o) = od_added (DeltaORSet_State o')) as Heq.
  { apply map_eq. intros el. by rewrite !DeltaORSet_State_lookup, Hs. }
  unfold DeltaORSet_State in *. cbn in Heq. by rewrite Heq.
Qed.

#[export] Instance dor_convergent : Convergent dor_same (fun _ => True) (fun _ => True) DeltaORSet_Merge.
Proof.
  split; try done; [split; [done|by intros ?? H el|intros ??? H1 H2 el; by rewrite H1]|..]; intros; intros el;
    rewrite !DeltaORSet_Merge_view; cbn; [by rewrite H|f_equal; set_solver..].
Qed.

Inductive dor_op := DoAdd (el : string) | DoRemove (el : string).

Definition dor_mutate (isPrint : Z -> bool) (o : dor_op) : DeltaORSet -> DeltaORSet * ORSetDelta :=
  match o with DoAdd el => DeltaORSet_Add isPrint el | DoRemove el => DeltaORSet_Remove el end.

Lemma dor_view_insert id seq els el s k :
  dor_view (mkDeltaORSet id seq (<[el := s]> els)) k = if decide (el = k) then s else stateFor els k.
Proof. unfold dor_view, stateFor. cbn. rewrite lookup_insert. by case_decide. Qed.

Lemma DeltaORSet_Add_view isPrint el o k :
  dor_view (DeltaORSet_Add isPrint el o).1 k =
    if decide (el = k)
    then mkElementState (es_adds (dor_view o k) ∪ {[makeTag isPrint (do_nodeID o) el (u64 (do_seq o + 1))]}) (es_removes (dor_view o k))
    else dor_view o k.
Proof. cbn [fst DeltaORSet_Add]. rewrite dor_view_insert. by case_decide; subst. Qed.

Lemma DeltaORSet_Remove_view el o k :
  dor_view (DeltaORSet_Remove el o).1 k =
    (if decide (el = k)
     then mkElementState (es_adds (dor_view o k)) (es_removes (dor_view o k) ∪ elementState_liveTags (dor_view o k))
     else dor_view o k) /\
  sget (od_removed (DeltaORSet_Remove el o).2) k = (if decide (el = k) then elementState_liveTags (dor_view o k) else ∅) /\
  od_added (DeltaORSet_Remove el o).2 = ∅.
Proof.
  assert (elementState_liveTags (dor_view o el) = ∅ ->
    (if decide (el = k)
     then mkElementState (es_adds (dor_view o k)) (es_removes (dor_view o k) ∪ elementState_liveTags (dor_view o k))
     else dor_view o k) = dor_view o k /\
    (if decide (el = k) then elementState_liveTags (dor_view o k) else ∅) = ∅) as Hnone.
  { intros Hl. case_decide; [subst k|done]. rewrite Hl, (right_id_L ∅ (∪)). by destruct (dor_view o el). }
  unfold DeltaORSet_Remove. destruct (do_elements o !! el) as [s|] eqn:E.
  - assert (dor_view o el = s) as Hs by (unfold dor_view, stateFor; by rewrite E).
    destruct (decide (size (elementState_liveTags s) = 0%nat)) as [Hsz|Hsz]; cbn [fst snd od_added od_removed].
    + apply size_empty_iff, leibniz_equiv in Hsz. rewrite <- Hs in Hsz. by destruct (Hnone Hsz) as [-> ->].
    + rewrite dor_view_insert. fold (dor_view o k). unfold sget. rewrite lookup_singleton.
      case_decide; [subst k|done]. by rewrite Hs.
  - destruct Hnone as [-> ->]; [|done]. unfold dor_view, stateFor. by rewrite E.
Qed.

#[export] Instance dor_laws isPrint :
  DeltaLaws dor_same (fun _ => True) (fun _ => True) (fun _ _ => True) DeltaORSet_Merge (dor_mutate isPrint) DeltaORSet_New.
Proof.
  split; [apply _|done|done|done|]. intros [el|el] o _ _ k; rewrite DeltaORSet_Merge_view; cbn [dor_mutate].
  - rewrite DeltaORSet_Add_view. cbn [snd DeltaORSet_Add od_added od_removed]. rewrite sget_empty, (right_id_L ∅ (∪)).
    unfold sget. rewrite lookup_singleton. case_decide; [done|]. cbn. rewrite (right_id_L ∅ (∪)). by destruct (dor_view o k).
  - destruct (DeltaORSet_Remove_view el o k) as (-> & -> & ->). rewrite sget_empty, (right_id_L ∅ (∪)).
    case_decide; [done|]. rewrite (right_id_L ∅ (∪)). by destruct (dor_view o k).
Qed.

(** ** Tags are unique *)

Lemma tagPayload_inj isPrint n e q n' e' q' :
  0 <= q -> 0 <= q' -> tagPayload isPrint n e q = tagPayload isPrint n' e' q' -> n = n' /\ e = e' /\ q = q'.
Proof.
  intros Hq Hq' Heq. unfold tagPayload in Heq.
  pose proof (fun s => quote_nonzero isPrint _ (string_bytes_u8 s)) as Hnz.
  apply split_at_nul in Heq as [Hn Heq]; [|apply Hnz..]. apply split_at_nul in Heq as [He Heq]; [|apply Hnz..].
  apply quote_inj, string_bytes_inj in Hn; [|apply string_bytes_u8..].
  apply quote_inj, string_bytes_inj in He; [|apply string_bytes_u8..].
  apply fmt_d_inj in Heq; done.
Qed.

Lemma makeTag_collides isPrint n e q n' e' q' :
  makeTag isPrint n e q = makeTag isPrint n' e' q' ->
  sha256 (tagPayload isPrint n e q) = sha256 (tagPayload isPrint n' e' q').
Proof. apply fmt_x_inj; apply sha256_bytes. Qed.

Section tags.
Context (isPrint : Z -> bool).

Abbreviation onet := (net DeltaORSet ORSetDelta).
Definition dor_run : list (net_event dor_op) -> option onet :=
  net_run (fun _ _ => True) DeltaORSet_Merge (dor_mutate isPrint) DeltaORSet_New net_init.
Definition dor_replica (n : onet) (r : string) : DeltaORSet := net_rep DeltaORSet_New n r.

(** The (node, element, sequence) triples that the adds of a run hash. *)
Definition issue (st : gmap string Z * list (string * string * Z)) (e : net_event dor_op) : gmap string Z * list (string * string * Z) :=
  match e with
  | Local r (DoAdd el) => (<[r := zget st.1 r + 1]> st.1, st.2 ++ [(r, el, zget st.1 r + 1)])
  | _ => st
  end.
Definition issued (es : list (net_event dor_op)) := foldl issue (∅, []) es.
Definition payloads (es : list (net_event dor_op)) : list (list Z) :=
  (fun p => tagPayload isPrint p.1.1 p.1.2 p.2) <$> (issued es).2.

(** A tag of element [el] stems from one of the triples. *)
Definition known (iss : list (string * string * Z)) (el : string) (t : list Z) : Prop :=
  exists r q, (r, el, q) ∈ iss /\ t = makeTag isPrint r el q.

Definition view_known iss (el : string) (s : elementState) : Prop :=
  (forall t, t ∈ es_adds s -> known iss el t) /\ (forall t, t ∈ es_removes s -> known iss el t).

Definition delta_known iss (d : ORSetDelta) : Prop :=
  forall el, (forall t, t ∈ sget (od_added d) el -> known iss el t) /\ (forall t, t ∈ sget (od_removed d) el -> known iss el t).

Definition tag_inv (bound : Z) (n : onet) (st : gmap string Z * list (string * string * Z)) : Prop :=
  (forall r, do_nodeID (dor_replica n r) = r /\ do_seq (dor_replica n r) = zget st.1 r /\ 0 <= zget st.1 r <= bound) /\
  (forall r el q, (r, el, q) ∈ st.2 -> 1 <= q <= zget st.1 r) /\
  (forall r el, view_known st.2 el (dor_view (dor_replica n r) el)) /\
  Forall (delta_known st.2) (emitted n).

Lemma known_mono iss iss' el t : (forall x, x ∈ iss -> x ∈ iss') -> known iss el t -> known iss' el t.
Proof. intros Hsub (r & q & Hin & ->). exists r, q. auto. Qed.

Lemma view_known_mono iss iss' el s : (forall x, x ∈ iss -> x ∈ iss') -> view_known iss el s -> view_known iss' el s.
Proof. intros Hsub [H1 H2]. split; intros; eapply known_mono; eauto. Qed.

Lemma delta_known_mono iss iss' d : (forall x, x ∈ iss -> x ∈ iss') -> delta_known iss d -> delta_known iss' d.
Proof. intros Hsub Hd el. destruct (Hd el). split; intros; eapply known_mono; eauto. Qed.

Lemma merge_known iss o d el :
  view_known iss el (dor_view o el) -> delta_known iss d -> view_known iss el (dor_view (DeltaORSet_Merge o d) el).
Proof.
  intros [H1 H2] Hd. destruct (Hd el). rewrite DeltaORSet_Merge_view. split; cbn; intros t [?|?]%elem_of_union; auto.
Qed.

Lemma add_delta_known iss o el :
  (do_nodeID o, el, u64 (do_seq o + 1)) ∈ iss -> delta_known iss (DeltaORSet_Add isPrint el o).2.
Proof.
  intros Hin k. cbn. split; [|set_solver]. intros t. unfold sget. rewrite lookup_singleton. case_decide; [subst k|set_solver].
  cbn. rewrite elem_of_singleton. intros ->. by exists (do_nodeID o), (u64 (do_seq o + 1)).
Qed.

Lemma remove_delta_known iss o el :
  (forall k, view_known iss k (dor_view o k)) -> delta_known iss (DeltaORSet_Remove el o).2.
Proof.
  intros Hv k. destruct (DeltaORSet_Remove_view el o k) as (_ & -> & ->). split; [set_solver|].
  intros t. case_decide; [|set_solver]. rewrite elem_of_liveTags. intros [? _]. by apply (proj1 (Hv k)).
Qed.

(** A step that installs at [r] what absorbing [d] gives keeps every tag known. *)
Lemma tag_inv_absorb bound bound' n r s d em ab (st st' : gmap string Z * list (string * string * Z)) :
  tag_inv bound n st -> bound <= bound' -> (forall x, x ∈ st.2 -> x ∈ st'.2) ->
  do_nodeID s = r -> do_seq s = zget st'.1 r -> 0 <= zget st'.1 r <= bound' ->
  (forall k, k <> r -> zget st'.1 k = zget st.1 k) -> (forall k el q, (k, el, q) ∈ st'.2 -> 1 <= q <= zget st'.1 k) ->
  (forall el, dor_view s el = dor_view (DeltaORSet_Merge (dor_replica n r) d) el) ->
  delta_known st'.2 d -> Forall (delta_known st'.2) em ->
  tag_inv bound' (mkNet (<[r := s]> (reps n)) em ab) st'.
Proof.
  intros (Hid & _ & Hv & _) Hb Hsub Hs1 Hs2 Hs3 Hother Hq Hview Hd Hem. unfold tag_inv, dor_replica.
  split_and!; [|done| |done]; intros k; rewrite net_rep_insert; fold (dor_replica n k); case_decide as Hk.
  - subst k. done.
  - rewrite Hother by done. destruct (Hid k) as (? & ? & ?). split_and!; [done|done|lia|lia].
  - subst k. intros el. rewrite Hview. apply merge_known; [|done]. by eapply view_known_mono.
  - intros el. by eapply view_known_mono.
Qed.

Lemma dor_delta_view o s k :
  dor_view (dor_mutate isPrint o s).1 k = dor_view (DeltaORSet_Merge s (dor_mutate isPrint o s).2) k.
Proof. exact (@dl_delta _ _ _ _ _ _ _ _ _ _ (dor_laws isPrint) o s I I k). Qed.

Lemma tag_inv_step bound n e n' st :
  tag_inv bound n st -> bound < MaxUint64 ->
  net_step (fun _ _ => True) DeltaORSet_Merge (dor_mutate isPrint) DeltaORSet_New n e = Some n' ->
  tag_inv (bound + 1) n' (issue st e).
Proof.
  intros Hinv Hb Hstep. pose proof Hinv as (Hid & Hq & Hv & Hem).
  destruct e as [r [el|el]|r i]; cbn -[DeltaORSet_Add DeltaORSet_Remove] in Hstep.
  - injection Hstep as <-. fold (dor_replica n r). destruct (Hid r) as (Hn & Hs & Hr).
    assert (delta_known (issue st (Local r (DoAdd el))).2 (DeltaORSet_Add isPrint el (dor_replica n r)).2) as Hd.
    { apply add_delta_known. cbn. rewrite Hn, Hs, u64_id by int_lia. apply elem_of_app. right. by left. }
    assert (forall x, x ∈ st.2 -> x ∈ (issue st (Local r (DoAdd el))).2) as Hsub by (intros; apply elem_of_app; by left).
    eapply tag_inv_absorb; [done|lia|exact Hsub|done|..|exact Hd|].
    + cbn. by rewrite Hs, zget_insert_eq, u64_id by int_lia.
    + cbn. rewrite zget_insert_eq. lia.
    + intros k Hk. cbn. by rewrite zget_insert_ne.
    + intros k el' q. cbn. rewrite elem_of_app, list_elem_of_singleton. intros [Hin|[= -> -> ->]].
      * apply Hq in Hin. destruct (decide (r = k)) as [->|]; [rewrite zget_insert_eq|rewrite zget_insert_ne by done]; lia.
      * rewrite zget_insert_eq. lia.
    + exact (dor_delta_view (DoAdd el) (dor_replica n r)).
    + apply Forall_app. split; [|by apply Forall_singleton].
      eapply Forall_impl; [exact Hem|]. intros d. by apply delta_known_mono.
  - assert (delta_known st.2 (DeltaORSet_Remove el (dor_replica n r)).2) as Hd by (apply remove_delta_known, Hv).
    destruct (Hid r) as (Hn & Hs & Hr).
    assert (forall k, dor_view (DeltaORSet_Remove el (dor_replica n r)).1 k =
      dor_view (DeltaORSet_Merge (dor_replica n r) (DeltaORSet_Remove el (dor_replica n r)).2) k) as Hview
      by exact (dor_delta_view (DoRemove el) (dor_replica n r)).
    assert (do_nodeID (DeltaORSet_Remove el (dor_replica n r)).1 = do_nodeID (dor_replica n r) /\
      do_seq (DeltaORSet_Remove el (dor_replica n r)).1 = do_seq (dor_replica n r)) as [Hn' Hs'].
    { unfold DeltaORSet_Remove. destruct (do_elements (dor_replica n r) !! el) as [s|]; [|done].
      by destruct (decide (size (elementState_liveTags s) = 0%nat)). }
    fold (dor_replica n r) in Hstep. destruct (DeltaORSet_Remove el (dor_replica n r)) as [s d]. injection Hstep as <-. cbn in *.
    eapply tag_inv_absorb; try done; [lia|congruence|congruence|lia|]. apply Forall_app. split; [done|by apply Forall_singleton].
  - destruct (emitted n !! i) as [d|] eqn:Hi; [|done]. cbn in Hstep. injection Hstep as <-.
    fold (dor_replica n r). destruct (Hid r) as (Hn & Hs & Hr).
    eapply tag_inv_absorb; try done; [lia|cbn; lia|]. by eapply Forall_lookup_1.
Qed.

Lemma dor_run_inv es n :
  Z.of_nat (length es) <= MaxUint64 -> dor_run es = Some n -> tag_inv (Z.of_nat (length es)) n (issued es).
Proof.
  revert n. induction es as [|e es IH] using rev_ind; intros n Hlen Hrun.
  { injection Hrun as <-. split_and!; [by intros r; cbn; rewrite zget_empty|by intros ??? ?%elem_of_nil|by intros r el; split; set_solver|constructor]. }
  unfold dor_run in Hrun. rewrite net_run_app in Hrun. fold (dor_run es) in Hrun.
  rewrite length_app in *. cbn [length] in *. destruct (dor_run es) as [n0|]; [|done].
  unfold issued. rewrite foldl_app. fold (issued es). cbn -[net_step issue] in Hrun |- *.
  destruct (net_step _ _ _ _ n0 e) as [n1|] eqn:Hstep; [|done]. injection Hrun as <-.
  rewrite Nat2Z.inj_add. apply (tag_inv_step _ n0); [apply IH; [lia|done]|lia|done].
Qed.

(** The tag an add is about to mint is in no tombstone set anywhere. *)
Lemma fresh_tag es n r el r' :
  dor_run es = Some n -> Z.of_nat (length es) < MaxUint64 -> collision_free (payloads (es ++ [Local r (DoAdd el)])) ->
  makeTag isPrint r el (u64 (do_seq (dor_replica n r) + 1)) ∉ es_removes (dor_view (dor_replica n r') el).
Proof.
  intros Hrun Hlen Hcf Hin. destruct (dor_run_inv es n) as (Hid & Hq & Hv & _); [lia|done|].
  destruct (Hid r) as (_ & Hs & Hr). apply Hv in Hin as (r0 & q & Hin & Htag). apply makeTag_collides in Htag.
  rewrite Hs, u64_id in Htag by int_lia.
  assert ((r0, el, q) ∈ (issued (es ++ [Local r (DoAdd el)])).2 /\
    (r, el, zget (issued es).1 r + 1) ∈ (issued (es ++ [Local r (DoAdd el)])).2) as [Hold Hnew].
  { unfold issued. rewrite foldl_app. fold (issued es). cbn. rewrite !elem_of_app, !list_elem_of_singleton. auto. }
  pose proof (Hq _ _ _ Hin) as Hq0. apply (collision_free_use _ _ _ Hcf) in Htag.
  - apply tagPayload_inj in Htag as (Hr0 & _ & Hqe); [|lia..]. subst r0. lia.
  - apply list_elem_of_fmap. by eexists (_, _, _).
  - apply list_elem_of_fmap. by eexists (_, _, _).
Qed.

End tags.

(** ** Last-writer-wins map: laws *)

(** What a (timestamp, node) stamp on a key stands for: a node writes one value
    per key and timestamp.  [val] is that value. *)
Section lww.
Context (val : string -> Z -> string -> string).

Definition entry_ok (key : string) (e : lwwEntry) : Prop :=
  le_value e = if le_tombstone e then EmptyString else val key (le_ts e) (le_nodeID e).

Lemma lwwWins_spec a b :
  lwwWins a b = true <->
  le_ts b < le_ts a \/ (le_ts a = le_ts b /\
    (slt (le_nodeID b) (le_nodeID a) \/
     (le_nodeID a = le_nodeID b /\ le_tombstone a = true /\ le_tombstone b = false))).
Proof.
  unfold lwwWins. case_decide as Ht; [rewrite bool_decide_eq_true; lia|].
  case_decide as Hn.
  - rewrite andb_true_iff, negb_true_iff, Hn. split; [naive_solver|].
    intros [?|[_ [Hlt|?]]]; [lia|by apply irreflexivity in Hlt; [|apply _]|tauto].
  - rewrite bool_decide_eq_true. split; [naive_solver|]. intros [?|[_ [?|?]]]; [lia|done|tauto].
Qed.

Lemma lwwWins_trans a b c : lwwWins a b = true -> lwwWins b c = true -> lwwWins a c = true.
Proof.
  rewrite !lwwWins_spec. intros [?|[Hab Ha]] [?|[Hbc Hb]]; [left; lia..|right]. split; [lia|].
  destruct Ha as [Ha|(Hn & ? & ?)], Hb as [Hb|(Hn' & ? & ?)]; [left; by etrans|left; congruence..|congruence].
Qed.

Lemma lwwWins_irrefl a : lwwWins a a = false.
Proof.
  apply not_true_iff_false. rewrite lwwWins_spec. intros [?|[_ [H|(_ & ? & ?)]]]; [lia| |congruence].
  by apply irreflexivity in H; [|apply _].
Qed.

Lemma lwwWins_total key a b : entry_ok key a -> entry_ok key b -> lwwWins a b = false -> lwwWins b a = false -> a = b.
Proof.
  unfold entry_ok. rewrite <- !not_true_iff_false, !lwwWins_spec. intros Ha Hb Hab Hba.
  assert (le_ts a = le_ts b) as Ht by lia. assert (le_nodeID a = le_nodeID b) as Hn.
  { destruct (slt_trichotomy (le_nodeID a) (le_nodeID b)) as [?|[?|?]]; [|done|]; exfalso; eauto 6. }
  assert (le_tombstone a = le_tombstone b) as Hd by (destruct (le_tombstone a), (le_tombstone b); naive_solver).
  rewrite Hd, Ht, Hn, <- Hb in Ha. destruct a, b; cbn in *; congruence.
Qed.

(** The winner of an optional incumbent and a candidate. *)
Definition lww_join (o : option lwwEntry) (e : lwwEntry) : option lwwEntry :=
  match o with Some x => if lwwWins e x then Some e else Some x | None => Some e end.

Lemma lww_join_comm key o a b :
  from_option (entry_ok key) True o -> entry_ok key a -> entry_ok key b ->
  lww_join (lww_join o a) b = lww_join (lww_join o b) a.
Proof.
  intros Ho Ha Hb.
  assert (forall x y, entry_ok key x -> entry_ok key y -> lwwWins x y = false -> lwwWins y x = true \/ x = y) as Htot.
  { intros x y Hx Hy Hxy. destruct (lwwWins y x) eqn:E; [by left|right]. by eapply lwwWins_total. }
  assert (forall x y, lwwWins x y = true -> lwwWins y x = true -> False) as Hasym.
  { intros x y H1 H2. pose proof (lwwWins_trans _ _ _ H1 H2) as H3. by rewrite lwwWins_irrefl in H3. }
  destruct o as [x|]; cbn in *.
  - destruct (lwwWins a x) eqn:Eax, (lwwWins b x) eqn:Ebx; cbn; rewrite ?Eax, ?Ebx; try done.
    + destruct (lwwWins b a) eqn:Eba, (lwwWins a b) eqn:Eab; try done; [by destruct (Hasym a b)|].
      f_equal. by eapply lwwWins_total.
    + destruct (lwwWins b a) eqn:Eba; [|done]. by rewrite (lwwWins_trans b a x) in Ebx.
    + destruct (lwwWins a b) eqn:Eab; [|done]. by rewrite (lwwWins_trans a b x) in Eax.
  - destruct (lwwWins b a) eqn:Eba, (lwwWins a b) eqn:Eab; try done; [by destruct (Hasym a b)|].
    f_equal. by eapply lwwWins_total.
Qed.

Lemma lww_join_idem o a : lww_join (lww_join o a) a = lww_join o a.
Proof.
  destruct o as [x|]; cbn; [destruct (lwwWins a x) eqn:E; cbn; rewrite ?E, ?lwwWins_irrefl; done|by rewrite lwwWins_irrefl].
Qed.

Lemma LWWMap_Merge_lookup m d key :
  lm_entries (LWWMap_Merge m d) !! key =
    match ld_entries d !! key with Some e => lww_join (lm_entries m !! key) e | None => lm_entries m !! key end.
Proof.
  unfold LWWMap_Merge. cbn [lm_entries]. rewrite (range_fold_slot _ lww_join); [done|].
  intros out i v j. unfold lww_join. destruct (out !! i) as [x|] eqn:E; [destruct (lwwWins v x)|].
  - by rewrite lookup_insert.
  - case_decide; by subst.
  - by rewrite lookup_insert.
Qed.

Definition lww_ok (m : LWWMap) : Prop := map_Forall entry_ok (lm_entries m).
Definition lww_delta_ok (d : LWWMapDelta) : Prop := map_Forall entry_ok (ld_entries d).
Definition lww_same (m m' : LWWMap) : Prop := lm_entries m = lm_entries m'.

Lemma lww_ok_slot m key : lww_ok m -> from_option (entry_ok key) True (lm_entries m !! key).
Proof. intros Hm. destruct (lm_entries m !! key) eqn:E; cbn; [by apply Hm|done]. Qed.

#[export] Instance lww_convergent : Convergent lww_same lww_ok lww_delta_ok LWWMap_Merge.
Proof.
  split; [split; [done|by intros ??|intros ???; apply eq_trans]|..].
  - intros s s' d Hs. apply map_eq. intros k. by rewrite !LWWMap_Merge_lookup, Hs.
  - intros s d Hs Hd k e. rewrite LWWMap_Merge_lookup. pose proof (lww_ok_slot s k Hs) as Hk.
    destruct (ld_entries d !! k) as [e'|] eqn:E; [|by apply Hs]. apply Hd in E.
    destruct (lm_entries s !! k); cbn in *; [destruct (lwwWins _ _)|]; by intros [= <-].
  - intros s d1 d2 Hs H1 H2. apply map_eq. intros k. rewrite !LWWMap_Merge_lookup.
    destruct (ld_entries d1 !! k) eqn:E1, (ld_entries d2 !! k) eqn:E2; try done.
    apply (lww_join_comm k); [by apply lww_ok_slot|by apply H1|by apply H2].
  - intros s d Hs Hd. apply map_eq. intros k. rewrite !LWWMap_Merge_lookup.
    destruct (ld_entries d !! k); [apply lww_join_idem|done].
Qed.

Inductive lww_op := LwPut (key value : string) (ts : Z) | LwDelete (key : string) (ts : Z).

Definition lww_mutate (o : lww_op) : LWWMap -> LWWMap * LWWMapDelta :=
  match o with LwPut key value ts => LWWMap_Put key value ts | LwDelete key ts => LWWMap_Delete key ts end.

Definition lww_entry (o : lww_op) (m : LWWMap) : string * lwwEntry :=
  match o with
  | LwPut key value ts => (key, mkLwwEntry value ts (lm_nodeID m) false)
  | LwDelete key ts => (key, mkLwwEntry EmptyString ts (lm_nodeID m) true)
  end.

(** The discipline on timestamps: a write carries the value its stamp stands for
    and is not older than what the replica already holds. *)
Definition lww_okop (o : lww_op) (m : LWWMap) : Prop :=
  entry_ok (lww_entry o m).1 (lww_entry o m).2 /\
  match lm_entries m !! (lww_entry o m).1 with Some x => lwwWins x (lww_entry o m).2 = false | None => True end.

#[export] Instance lww_okop_dec o m : Decision (lww_okop o m).
Proof. unfold lww_okop, entry_ok. destruct (lm_entries m !! _); apply _. Defined.

#[export] Instance lww_laws : DeltaLaws lww_same lww_ok lww_delta_ok lww_okop LWWMap_Merge lww_mutate LWWMap_New.
Proof.
  assert (forall o m, (lww_mutate o m).2 = mkLWWMapDelta {[(lww_entry o m).1 := (lww_entry o m).2]} /\
    lm_entries (lww_mutate o m).1 = <[(lww_entry o m).1 := (lww_entry o m).2]> (lm_entries m)) as Hmut by by intros [].
  split; [apply _|intros; apply map_Forall_empty|done|..]; intros o m Hm [He Hold]; destruct (Hmut o m) as [Hd Hs].
  - unfold lww_ok, lww_delta_ok. rewrite Hd, Hs. split; [by apply map_Forall_insert_2|by apply map_Forall_singleton].
  - unfold lww_same. rewrite Hs, Hd. apply map_eq. intros k. rewrite LWWMap_Merge_lookup. cbn [ld_entries].
    rewrite lookup_singleton, lookup_insert. case_decide; [subst k|done].
    pose proof (lww_ok_slot m (lww_entry o m).1 Hm) as Hx. destruct (lm_entries m !! _) as [x|]; cbn in *; [|done].
    destruct (lwwWins (lww_entry o m).2 x) eqn:E; [done|]. f_equal. by eapply lwwWins_total.
Qed.

End lww.

(** ** Properties *)

Definition dpn_run : list (net_event dpn_op) -> option (net DeltaPNCounter PNCounterDelta) :=
  net_run dpn_okop DeltaPNCounter_Merge dpn_mutate DeltaPNCounter_New net_init.

(** Delta counters converge.  In any network where replicas increment and
    decrement locally (without overflowing a slot) and deltas are delivered in any
    order, repeatedly, or not yet at all, two replicas that have absorbed the same
    deltas report the same [Value] and hold the same slots. *)
Theorem delta_pncounter_converges es n r r' :
  dpn_run es = Some n -> (forall d, d ∈ net_seen n r <-> d ∈ net_seen n r') ->
  DeltaPNCounter_Value (net_rep DeltaPNCounter_New n r) = DeltaPNCounter_Value (net_rep DeltaPNCounter_New n r') /\
  dpn_same (net_rep DeltaPNCounter_New n r) (net_rep DeltaPNCounter_New n r').
Proof.
  intros Hrun Hset. pose proof (net_converges es n r r' Hrun Hset) as [Hp Hn].
  split; [|by split]. unfold DeltaPNCounter_Value. by rewrite (sum_counts_proper _ _ Hp), (sum_counts_proper _ _ Hn).
Qed.

(** C26: the delta set converges, removes delivered before their adds included.
    Two replicas of any network that have absorbed the same add and remove deltas,
    in whatever order and multiplicity, have equal [State], contain the same
    elements and list them identically. *)
Theorem delta_orset_converges isPrint es n r r' :
  dor_run isPrint es = Some n -> (forall d, d ∈ net_seen n r <-> d ∈ net_seen n r') ->
  orsetStateEqual (DeltaORSet_State (dor_replica n r)) (DeltaORSet_State (dor_replica n r')) = true /\
  (forall el, DeltaORSet_Contains (dor_replica n r) el = DeltaORSet_Contains (dor_replica n r') el) /\
  DeltaORSet_Elements (dor_replica n r) = DeltaORSet_Elements (dor_replica n r').
Proof.
  intros Hrun Hset. assert (dor_same (dor_replica n r) (dor_replica n r')) as Hs
    by (eapply (net_converges (Hlaws := dor_laws isPrint)); done).
  split_and!; [rewrite (dor_same_State _ _ Hs); apply orsetStateEqual_refl| |by apply dor_same_Elements].
  intros el. by rewrite !DeltaORSet_Contains_view, Hs.
Qed.

(** An add always takes effect.  At any point of any network run, an [Add]
    makes the element present locally and on every replica that merges its delta,
    even one that has removed the element before: the freshly minted tag (quoting,
    formatting and SHA-256 included) is in no tombstone set, provided SHA-256 has no
    collision among the tag payloads of the run. *)
Theorem delta_orset_add_wins isPrint es n r el :
  dor_run isPrint es = Some n -> Z.of_nat (length es) < MaxUint64 ->
  collision_free (payloads isPrint (es ++ [Local r (DoAdd el)])) ->
  let '(s, d) := DeltaORSet_Add isPrint el (dor_replica n r) in
  DeltaORSet_Contains s el = true /\
  forall r', DeltaORSet_Contains (DeltaORSet_Merge (dor_replica n r') d) el = true.
Proof.
  intros Hrun Hlen Hcf. destruct (dor_run_inv isPrint es n) as (Hid & _); [lia|done|]. destruct (Hid r) as (Hn & _).
  pose proof (fun r' => fresh_tag isPrint es n r el r' Hrun Hlen Hcf) as Hfresh.
  pose proof (DeltaORSet_Add_view isPrint el (dor_replica n r) el) as Hv. rewrite decide_True, Hn in Hv by done.
  destruct (DeltaORSet_Add isPrint el (dor_replica n r)) as [s d] eqn:E. injection E as _ <-. rewrite Hn. cbn in Hv.
  split; [|intros r']; rewrite DeltaORSet_Contains_spec; exists (makeTag isPrint r el (u64 (do_seq (dor_replica n r) + 1))).
  - rewrite Hv. cbn. split; [set_solver|apply Hfresh].
  - rewrite DeltaORSet_Merge_view. cbn. unfold sget. rewrite lookup_singleton_eq, lookup_empty. cbn.
    rewrite (right_id_L ∅ (∪)). split; [set_solver|apply Hfresh].
Qed.

Definition lww_run (val : string -> Z -> string -> string) : list (net_event lww_op) -> option (net LWWMap LWWMapDelta) :=
  net_run (lww_okop val) LWWMap_Merge lww_mutate LWWMap_New net_init.
Definition lww_replica (n : net LWWMap LWWMapDelta) (r : string) : LWWMap := net_rep LWWMap_New n r.

(** The last-writer-wins map converges when writers respect time.  If every
    local [Put] and [Delete] carries a stamp not older than the entry it replaces
    and one value per stamp, then replicas that have absorbed the same deltas in any
    order and multiplicity are [lwwmapEqual], answer every [Get] alike and list the
    same [Keys]. *)
Theorem delta_lwwmap_converges val es n r r' :
  lww_run val es = Some n -> (forall d, d ∈ net_seen n r <-> d ∈ net_seen n r') ->
  lwwmapEqual (LWWMap_State (lww_replica n r)) (LWWMap_State (lww_replica n r')) = true /\
  (forall k, LWWMap_Get (lww_replica n r) k = LWWMap_Get (lww_replica n r') k) /\
  LWWMap_Keys (lww_replica n r) = LWWMap_Keys (lww_replica n r').
Proof.
  intros Hrun Hset. assert (lww_same (lww_replica n r) (lww_replica n r')) as Hs
    by (eapply (net_converges (Hlaws := lww_laws val)); done).
  unfold LWWMap_State, LWWMap_Get, LWWMap_Keys. rewrite Hs. split_and!; [|done..].
  unfold lwwmapEqual. rewrite decide_False by tauto. apply range_all_true. intros k v ->. by rewrite bool_decide_eq_true.
Qed.

(** A stale local write diverges for good.  A replica that holds an entry newer
    than the timestamp it writes with overwrites it all the same; every peer that
    holds the newer entry ignores the delta, so after full exchange of the deltas
    the writer answers with its stale value and its peers with the newer one. *)
Theorem delta_lwwmap_stale_put_diverges (m peer : LWWMap) key value ts e :
  lm_entries m !! key = Some e -> lm_entries peer !! key = Some e -> le_tombstone e = false ->
  ts < le_ts e -> value <> le_value e ->
  let '(m', d) := LWWMap_Put key value ts m in
  LWWMap_Get m' key = (value, true) /\ LWWMap_Get (LWWMap_Merge peer d) key = (le_value e, true) /\
  LWWMap_Get (LWWMap_Merge m' d) key <> LWWMap_Get (LWWMap_Merge peer d) key.
Proof.
  intros Hm Hpeer Hlive Hts Hval. cbn [LWWMap_Put].
  assert (lwwWins (mkLwwEntry value ts (lm_nodeID m) false) e = false) as Hlose.
  { apply not_true_iff_false. rewrite lwwWins_spec. cbn. lia. }
  unfold LWWMap_Get. rewrite !LWWMap_Merge_lookup. cbn [lm_entries ld_entries].
  rewrite lookup_singleton_eq, lookup_insert_eq, Hpeer. cbn [lww_join]. rewrite Hlose, lwwWins_irrefl, Hlive. cbn.
  split_and!; [done|done|congruence].
Qed.

(** ** Concrete runs *)

Definition demo_pn : list (net_event dpn_op) :=
  [Local "a" (DpInc 5); Local "b" (DpDec 2); Deliver "a" 1; Deliver "b" 0; Deliver "b" 0].
Definition demo_pn_net := default net_init (dpn_run demo_pn).

Lemma delta_pncounter_converges_witness :
  DeltaPNCounter_Value (net_rep DeltaPNCounter_New demo_pn_net "a") = DeltaPNCounter_Value (net_rep DeltaPNCounter_New demo_pn_net "b").
Proof.
  apply (delta_pncounter_converges demo_pn); concrete_run.
Defined.

Definition ascii_only : Z -> bool := fun _ => false.

(** The removal reaches replica [c] before the add it cancels. *)
Definition demo_or : list (net_event dor_op) :=
  [Local "a" (DoAdd "k"); Deliver "b" 0; Local "b" (DoRemove "k"); Deliver "c" 1; Deliver "c" 0].
Definition demo_or_net := default net_init (dor_run ascii_only demo_or).

Lemma delta_orset_converges_witness :
  orsetStateEqual (DeltaORSet_State (dor_replica demo_or_net "b")) (DeltaORSet_State (dor_replica demo_or_net "c")) = true /\
  DeltaORSet_Contains (dor_replica demo_or_net "c") "k" = false.
Proof.
  split; [|by vm_compute]. refine (proj1 (delta_orset_converges ascii_only demo_or _ "b" "c" _ _)); concrete_run.
Defined.

Lemma delta_orset_add_wins_witness :
  DeltaORSet_Contains (dor_replica demo_or_net "c") "k" = false /\
  (let '(s, d) := DeltaORSet_Add ascii_only "k" (dor_replica demo_or_net "a") in
   DeltaORSet_Contains s "k" = true /\
   forall r', DeltaORSet_Contains (DeltaORSet_Merge (dor_replica demo_or_net r') d) "k" = true).
Proof.
  split; [by vm_compute|].
  apply (delta_orset_add_wins ascii_only demo_or); [concrete_run|by_eval|by_eval].
Defined.

Definition demo_val (key : string) (ts : Z) (node : string) : string := if decide (node = "a") then "x" else "y".
Definition demo_lww : list (net_event lww_op) :=
  [Local "a" (LwPut "k" "x" 1); Local "b" (LwPut "k" "y" 1); Deliver "a" 1; Deliver "b" 0; Deliver "a" 1].
Definition demo_lww_net := default net_init (lww_run demo_val demo_lww).

Lemma delta_lwwmap_converges_witness :
  (forall k, LWWMap_Get (lww_replica demo_lww_net "a") k = LWWMap_Get (lww_replica demo_lww_net "b") k) /\
  LWWMap_Get (lww_replica demo_lww_net "a") "k" = ("y", true).
Proof.
  split; [|by vm_compute].
  apply (delta_lwwmap_converges demo_val demo_lww); concrete_run.
Defined.

Lemma delta_lwwmap_stale_put_diverges_witness :
  let e := mkLwwEntry "new" 10 "b" false in
  let '(m', d) := LWWMap_Put "k" "old" 3 (mkLWWMap "a" {["k" := e]}) in
  LWWMap_Get m' "k" = ("old", true) /\ LWWMap_Get (LWWMap_Merge (mkLWWMap "b" {["k" := e]}) d) "k" = ("new", true).
Proof.
  destruct (delta_lwwmap_stale_put_diverges (mkLWWMap "a" {["k" := mkLwwEntry "new" 10 "b" false]})
    (mkLWWMap "b" {["k" := mkLwwEntry "new" 10 "b" false]}) "k" "old" 3 (mkLwwEntry "new" 10 "b" false)) as (H1 & H2 & _);
    [done|done|done|done|done|]. split; [exact H1|exact H2].
Defined.
