(* ===== verification/Btree.v ===== *)
(** * The ordered index ([src/pkg/mvcc/btree.go])

    A B-tree with preemptive splitting.  Index operations that would panic in Go
    return [None]; the theorems show that on a well-formed tree they never do.  The
    abstract view of a tree is its in-order list of entries, for which insertion is
    sorted insertion that keeps an existing binding. *)

From S2P Require Import Prelude.

(** ** Data and operations *)

Section btree.
Context {V : Type}.

(** The value of an entry is the history pointer. *)
Abbreviation entry := (string * V)%type.

Inductive node := Node (leaf : bool) (entries : list entry) (children : list node).

Definition leaf (n : node) : bool := match n with Node l _ _ => l end.
Definition entries (n : node) : list entry := match n with Node _ es _ => es end.
Definition children (n : node) : list node := match n with Node _ _ cs => cs end.

Record btree := mkBtree { bt_root : node; degree : nat }.

Definition newBtree (d : nat) : btree := mkBtree (Node true [] []) (if decide (d < 2) then 2 else d).

Definition entry_ge (es : list entry) (key : string) (i : nat) : bool :=
  match es !! i with Some e => bool_decide (¬ slt e.1 key) | None => false end.

Definition node_search (n : node) (key : string) : nat * bool :=
  let lo := bsearch_loop (length (entries n)) (entry_ge (entries n) key) 0 (length (entries n)) in
  match entries n !! lo with
  | Some e => if decide (e.1 = key) then (lo, true) else (lo, false)
  | None => (lo, false)
  end.

(** Levels below a node; the loops that descend the tree run at most once per level. *)
Fixpoint height (n : node) : nat := match n with Node _ _ cs => S (list_max (map height cs)) end.

(** [get]: the outer [option] is a panic, the inner one Go's [nil]. *)
Fixpoint get_loop (fuel : nat) (n : node) (key : string) : option (option V) :=
  match fuel with
  | O => None
  | S fuel =>
      let '(idx, found) := node_search n key in
      if found then e ← entries n !! idx; Some (Some e.2)
      else if leaf n then Some None
      else child ← children n !! idx; get_loop fuel child key
  end.

Definition btree_get (t : btree) (key : string) : option (option V) := get_loop (height (bt_root t)) (bt_root t) key.

(** [append] one element and [copy] the tail: insertion at position [i]. *)
Definition slice_insert {A} (i : nat) (x : A) (l : list A) : list A := take i l ++ x :: drop i l.

Definition splitChild (n : node) (i degree : nat) : option node :=
  full ← children n !! i;
  let mid := degree - 1 in
  median ← entries full !! mid;
  guard (leaf full = true \/ mid + 1 <= length (children full));;
  let right := Node (leaf full) (drop (mid + 1) (entries full)) (if leaf full then [] else drop (mid + 1) (children full)) in
  let left := Node (leaf full) (take mid (entries full)) (if leaf full then children full else take (mid + 1) (children full)) in
  Some (Node (leaf n) (slice_insert i median (entries n)) (slice_insert (i + 1) right (<[i := left]> (children n)))).

Fixpoint insertNonFull (fuel degree : nat) (n : node) (key : string) (hist : V) : option node :=
  match fuel with
  | O => None
  | S fuel =>
      let descend n idx :=
        child ← children n !! idx;
        child' ← insertNonFull fuel degree child key hist;
        Some (Node (leaf n) (entries n) (<[idx := child']> (children n))) in
      let '(idx, found) := node_search n key in
      if found then Some n
      else if leaf n then Some (Node (leaf n) (slice_insert idx (key, hist) (entries n)) (children n))
      else
        child ← children n !! idx;
        if decide (length (entries child) = 2 * degree - 1) then
          n' ← splitChild n idx degree;
          e ← entries n' !! idx;
          if decide (slt e.1 key) then descend n' (idx + 1)
          else if decide (key = e.1) then Some n'
          else descend n' idx
        else descend n idx
  end.

Definition btree_insert (t : btree) (key : string) (hist : V) : option btree :=
  let r := bt_root t in
  root ← (if decide (length (entries r) = 2 * degree t - 1)
          then splitChild (Node false [] [r]) 0 (degree t) else Some r);
  root' ← insertNonFull (height root) (degree t) root key hist;
  Some (mkBtree root' (degree t)).

(** [k >= start && (end == "" || k < end)] *)
Definition in_range (start end_ k : string) : bool :=
  bool_decide (¬ slt k start) && (bool_decide (end_ = EmptyString) || bool_decide (slt k end_)).

Fixpoint range_walk (start end_ : string) (n : node) : option (list string) :=
  match n with
  | Node true es _ =>
      Some (fst <$> filter (fun e => ¬ slt e.1 start /\ ¬ (end_ <> EmptyString /\ ¬ slt e.1 end_)) es)
  | Node false es cs =>
      (fix walk (es : list entry) (cs : list node) {struct cs} : option (list string) :=
         match cs, es with
         | c :: cs, e :: es =>
             l ← range_walk start end_ c;
             l' ← walk es cs;
             Some (l ++ (if in_range start end_ e.1 then [e.1] else []) ++ l')
         | c :: _, [] => range_walk start end_ c
         | [], _ => None
         end) es cs
  end.

Definition rangeKeys (t : btree) (start end_ : string) : option (list string) := range_walk start end_ (bt_root t).

Fixpoint history_walk (n : node) : option (list V) :=
  match n with
  | Node true es _ => Some (snd <$> es)
  | Node false es cs =>
      (fix walk (es : list entry) (cs : list node) {struct cs} : option (list V) :=
         match cs, es with
         | c :: cs, e :: es => l ← history_walk c; l' ← walk es cs; Some (l ++ [e.2] ++ l')
         | c :: _, [] => history_walk c
         | [], _ => None
         end) es cs
  end.

Definition allHistories (t : btree) : option (list V) := history_walk (bt_root t).

(** ** The in-order list *)

Fixpoint interleave (cs : list (list entry)) (es : list entry) : list entry :=
  match cs, es with
  | c :: cs, e :: es => c ++ e :: interleave cs es
  | c :: _, [] => c
  | [], _ => []
  end.

Fixpoint inorder (n : node) : list entry :=
  match n with Node l es cs => if l then es else interleave (map inorder cs) es end.

(** What lies left and right of child [i]. *)
Definition left_of (i : nat) (cs : list (list entry)) (es : list entry) : list entry :=
  mjoin (zip_with (fun c e => c ++ [e]) (take i cs) (take i es)).
Definition right_of (i : nat) (cs : list (list entry)) (es : list entry) : list entry :=
  mjoin (zip_with (fun e c => e :: c) (drop i es) (drop (S i) cs)).

Lemma interleave_cons c cs es :
  length cs = length es -> interleave (c :: cs) es = c ++ mjoin (zip_with (fun e c => e :: c) es cs).
Proof.
  revert c es. induction cs as [|c' cs IH]; intros c [|e es] Hlen; try done; cbn.
  - by rewrite app_nil_r.
  - injection Hlen as Hlen. by rewrite <- IH.
Qed.

Lemma interleave_at i cs es c :
  length cs = S (length es) -> cs !! i = Some c ->
  interleave cs es = left_of i cs es ++ c ++ right_of i cs es.
Proof.
  unfold left_of, right_of. revert cs es. induction i as [|i IH]; intros [|c0 cs] es Hlen Hi; try done; cbn in *.
  - simplify_eq. rewrite !drop_0. by apply interleave_cons.
  - destruct es as [|e es]; cbn in *; [destruct cs; [done|cbn in Hlen; lia]|].
    rewrite (IH cs es) by (lia || done). by rewrite <- !app_assoc.
Qed.

Lemma left_of_insert i cs es c : left_of i (<[i := c]> cs) es = left_of i cs es.
Proof. unfold left_of. by rewrite take_insert_ge by lia. Qed.

Lemma right_of_insert i cs es c : right_of i (<[i := c]> cs) es = right_of i cs es.
Proof. unfold right_of. rewrite drop_insert_lt by lia. done. Qed.

(** Replacing child [i] replaces its segment. *)
Lemma interleave_update i cs es c :
  length cs = S (length es) -> i < length cs ->
  interleave (<[i := c]> cs) es = left_of i cs es ++ c ++ right_of i cs es.
Proof.
  intros Hlen Hi. rewrite (interleave_at i _ es c), left_of_insert, right_of_insert; [done|by rewrite length_insert|].
  by apply list_lookup_insert_eq.
Qed.

(** ** Sorted entry lists *)

Definition klt (x y : entry) : Prop := slt x.1 y.1.
Abbreviation sorted := (StronglySorted klt).
Abbreviation below key := (Forall (fun e : entry => slt e.1 key)).
Abbreviation above key := (Forall (fun e : entry => slt key e.1)).

#[local] Instance klt_trans : Transitive klt.
Proof. intros x y z. unfold klt. apply transitivity. Qed.

(** Sorted insertion that keeps an existing binding. *)
Fixpoint ins (key : string) (v : V) (l : list entry) : list entry :=
  match l with
  | [] => [(key, v)]
  | e :: l => if decide (slt key e.1) then (key, v) :: e :: l
              else if decide (key = e.1) then e :: l else e :: ins key v l
  end.

Fixpoint find_key (key : string) (l : list entry) : option V :=
  match l with [] => None | e :: l => if decide (e.1 = key) then Some e.2 else find_key key l end.

Lemma ins_below key v a l : below key a -> ins key v (a ++ l) = a ++ ins key v l.
Proof.
  induction 1 as [|e a He _ IH]; cbn; [done|]. rewrite decide_False by eauto with helix.
  rewrite decide_False; [by rewrite IH|]. intros ->. by apply irreflexivity in He; [|apply _].
Qed.

Lemma ins_above key v l b : above key b -> ins key v (l ++ b) = ins key v l ++ b.
Proof.
  intros Hb. induction l as [|e l IH]; cbn.
  - destruct Hb as [|e b He Hb]; cbn; [done|]. by rewrite decide_True.
  - repeat case_decide; [done|done|]. by rewrite IH.
Qed.

Lemma ins_here key v a b : below key a -> above key b -> ins key v (a ++ b) = a ++ (key, v) :: b.
Proof. intros Ha Hb. rewrite ins_below by done. f_equal. exact (ins_above key v [] b Hb). Qed.

Lemma ins_present key v a e b : below key a -> e.1 = key -> ins key v (a ++ e :: b) = a ++ e :: b.
Proof.
  intros Ha He. rewrite ins_below by done. cbn. rewrite decide_False, decide_True by (rewrite ?He; done || apply irreflexivity; apply _).
  done.
Qed.

Lemma sorted_below a e b : sorted (a ++ e :: b) -> below e.1 a.
Proof. intros Hs. apply Forall_forall. intros x Hx. by apply (StronglySorted_app_1_elem_of klt a (e :: b) x e) in Hs; [|done|left]. Qed.

Lemma sorted_above a e b : sorted (a ++ e :: b) -> above e.1 b.
Proof. by intros [Hf _]%StronglySorted_app_1_r%StronglySorted_cons. Qed.

Lemma ins_sorted key v l : sorted l -> sorted (ins key v l).
Proof.
  induction 1 as [|e l Hl IH He]; cbn; [by repeat constructor|]. case_decide as Hk; [|case_decide as Hk'].
  - constructor; [by constructor|]. constructor; [done|]. eapply Forall_impl; [exact He|]. unfold klt. intros x ?. by etrans.
  - by constructor.
  - constructor; [done|]. assert (klt e (key, v)) as Hek by (destruct (slt_trichotomy key e.1) as [?|[?|?]]; done).
    clear -He Hek. induction l as [|x l IHl]; cbn; [by apply Forall_singleton|]. apply Forall_cons in He as [Hx Hl].
    repeat case_decide; auto using Forall_cons_2.
Qed.

Lemma find_key_app key a l : Forall (fun e => e.1 <> key) a -> find_key key (a ++ l) = find_key key l.
Proof. induction 1 as [|e a He _ IH]; cbn; [done|]. by rewrite decide_False. Qed.

Lemma find_key_app_l key l b : Forall (fun e => e.1 <> key) b -> find_key key (l ++ b) = find_key key l.
Proof.
  intros Hb. induction l as [|e l IH]; cbn; [|by rewrite IH].
  induction Hb as [|e b He _ IH]; cbn; [done|]. by rewrite decide_False.
Qed.

Lemma below_ne key a : below key a -> Forall (fun e => e.1 <> key) a.
Proof. intros Ha. eapply Forall_impl; [exact Ha|]. cbn. intros e He Heq. rewrite Heq in He. by apply irreflexivity in He; [|apply _]. Qed.
Lemma above_ne key b : above key b -> Forall (fun e => e.1 <> key) b.
Proof. intros Ha. eapply Forall_impl; [exact Ha|]. cbn. intros e He Heq. rewrite Heq in He. by apply irreflexivity in He; [|apply _]. Qed.

Lemma find_key_ins key v l k :
  sorted l -> find_key k (ins key v l) =
    if decide (key = k) then Some (default v (find_key key l)) else find_key k l.
Proof.
  induction 1 as [|e l Hl IH He]; cbn; [done|].
  destruct (decide (slt key e.1)) as [Hk|Hk]; [|destruct (decide (key = e.1)) as [Hk'|Hk']]; cbn.
  - destruct (decide (key = k)) as [<-|]; [|done]. rewrite (decide_False (P := e.1 = key)).
    + assert (find_key key l = None) as ->; [|done]. rewrite <- (app_nil_r l), find_key_app; [done|].
      apply above_ne. eapply Forall_impl; [exact He|]. unfold klt. intros x ?. by etrans.
    + intros Heq. rewrite Heq in Hk. by apply irreflexivity in Hk; [|apply _].
  - subst key. destruct (decide (e.1 = k)); [by rewrite decide_True|done].
  - rewrite IH. rewrite (decide_False (P := e.1 = key)) by congruence. repeat case_decide; congruence.
Qed.

(** ** Well-formed trees

    [shape t lo h n]: all leaves at depth [h], every node has one child more than
    entries, at most [2t-1] entries and at least [t-1], the top node at least [lo]. *)
Inductive shape (t : nat) : nat -> nat -> node -> Prop :=
  | shape_leaf lo es : lo <= length es <= 2 * t - 1 -> shape t lo 0 (Node true es [])
  | shape_node lo h es cs :
      lo <= length es <= 2 * t - 1 -> length cs = S (length es) -> Forall (shape t (t - 1) h) cs ->
      shape t lo (S h) (Node false es cs).

Lemma shape_bounds t lo h n : shape t lo h n -> lo <= length (entries n) <= 2 * t - 1.
Proof. by destruct 1. Qed.

Lemma shape_weaken t lo lo' h n : shape t lo h n -> lo' <= length (entries n) -> shape t lo' h n.
Proof. destruct 1; cbn; intros; constructor; try done; lia. Qed.

Lemma list_max_all k l : l <> [] -> Forall (fun x => x = k) l -> list_max l = k.
Proof.
  intros Hne Hl. destruct Hl as [|x l -> Hl]; [done|]. change (Nat.max k (list_max l) = k).
  induction Hl as [|x l -> _ IH]; [apply Nat.max_0_r|]. change (Nat.max k (Nat.max k (list_max l)) = k).
  rewrite IH by done. lia.
Qed.

Lemma height_shape t lo h n : shape t lo h n -> height n = S h.
Proof.
  revert lo n. induction h as [|h IH]; intros lo n Hn; inv Hn; [done|]. cbn [height]. f_equal.
  apply list_max_all; [by destruct cs|]. apply Forall_fmap. eapply Forall_impl; [done|]. cbn. eauto.
Qed.

Lemma interleave_entries cs es : length cs = S (length es) -> forall e, e ∈ es -> e ∈ interleave cs es.
Proof.
  revert cs. induction es as [|e es IH]; intros [|c cs] Hlen x Hx; try done; [by apply elem_of_nil in Hx|].
  cbn in *. apply elem_of_app. right. apply elem_of_cons in Hx as [->|Hx]; [by left|]. right. apply IH; [lia|done].
Qed.

Lemma sorted_entries cs es : length cs = S (length es) -> sorted (interleave cs es) -> sorted es.
Proof.
  revert cs. induction es as [|e es IH]; intros [|c cs] Hlen Hs; try done; [constructor|]. cbn in *.
  apply StronglySorted_app_1_r in Hs. inv Hs. constructor; [eapply IH; [|done]; lia|].
  apply Forall_forall. intros x Hx. eapply Forall_forall; [done|]. apply interleave_entries; [lia|done].
Qed.

(** Position [i] of [es] separates the smaller from the greater keys. *)
Definition splits_at (i : nat) (es : list entry) (key : string) : Prop :=
  below key (take i es) /\ above key (drop i es).

Lemma node_search_spec n key idx found :
  sorted (entries n) -> node_search n key = (idx, found) ->
  idx <= length (entries n) /\
  (if found then exists e, entries n !! idx = Some e /\ e.1 = key /\ below key (take idx (entries n))
   else splits_at idx (entries n) key).
Proof.
  set (es := entries n). intros Hs. unfold node_search. fold es.
  assert (forall i j x y, i < j -> es !! i = Some x -> es !! j = Some y -> slt x.1 y.1) as Hord.
  { intros i j x y Hij Hx Hy. rewrite <- (take_drop_middle es i x Hx) in Hs.
    apply sorted_above in Hs. eapply Forall_forall in Hs; [exact Hs|]. apply list_elem_of_lookup.
    exists (j - S i). rewrite lookup_drop. by replace (S i + (j - S i)) with j by lia. }
  destruct (bsearch_spec (length es) (entry_ge es key) 0 (length es)) as (Hr & Hlo & Hhi); [lia|lia| |].
  { intros i j _ Hij Hj. unfold entry_ge. destruct (es !! i) as [x|] eqn:Hx; [|done].
    destruct (lookup_lt_is_Some_2 es j Hj) as [y Hy]. rewrite Hy, !bool_decide_eq_true.
    destruct (decide (i = j)) as [->|]; [by simplify_eq|]. intros Hn Hlt. apply Hn.
    etrans; [|exact Hlt]. apply (Hord i j); [lia|done..]. }
  set (r := bsearch_loop _ _ _ _) in *. cbv zeta in *.
  assert (below key (take r es)) as Hbelow.
  { apply Forall_forall. intros x [i Hi]%list_elem_of_lookup. apply lookup_take_Some in Hi as [Hi Hlt].
    specialize (Hlo i ltac:(lia)). unfold entry_ge in Hlo. rewrite Hi in Hlo.
    rewrite bool_decide_eq_false in Hlo. by apply dec_stable in Hlo. }
  destruct (es !! r) as [e|] eqn:He; [case_decide as Hk|]; intros [= <- <-]; (split; [lia|]); [by eexists|..].
  - split; [done|]. specialize (Hhi r). unfold entry_ge in Hhi. rewrite He, bool_decide_eq_true in Hhi.
    assert (slt key e.1) as Hlt.
    { destruct (slt_trichotomy key e.1) as [?|[?|Hc]]; [done|by subst|]. destruct Hhi; [|done]. apply lookup_lt_Some in He. lia. }
    rewrite (drop_S es e r He). constructor; [done|]. rewrite <- (take_drop_middle es r e He) in Hs.
    apply sorted_above in Hs. eapply Forall_impl; [exact Hs|]. cbn. intros x ?. by etrans.
  - split; [done|]. rewrite drop_ge by by apply lookup_ge_None in He. constructor.
Qed.

Lemma left_below i cs es key :
  length cs = S (length es) -> i <= length es -> sorted (interleave cs es) -> below key (take i es) ->
  below key (left_of i cs es).
Proof.
  intros Hlen Hi Hs Hb. destruct i as [|i]; [constructor|].
  destruct (lookup_lt_is_Some_2 es i ltac:(lia)) as [e He]. destruct (lookup_lt_is_Some_2 cs i ltac:(lia)) as [c Hc].
  destruct (lookup_lt_is_Some_2 cs (S i) ltac:(lia)) as [c' Hc'].
  assert (left_of (S i) cs es = (left_of i cs es ++ c) ++ [e]) as Hleft.
  { unfold left_of. rewrite (take_S_r es i e He), (take_S_r cs i c Hc), zip_with_app by (rewrite !length_take; lia).
    rewrite join_app. cbn. by rewrite app_nil_r, app_assoc. }
  rewrite (interleave_at (S i) cs es c' Hlen Hc'), Hleft, <- !app_assoc in Hs. rewrite app_assoc in Hs.
  rewrite (take_S_r es i e He) in Hb. apply Forall_app in Hb as [_ [Hek _]%Forall_cons].
  rewrite Hleft. apply Forall_app. split; [|by apply Forall_singleton].
  apply sorted_below in Hs. eapply Forall_impl; [exact Hs|]. cbn. intros x ?. by etrans.
Qed.

Lemma right_above i cs es key :
  length cs = S (length es) -> i <= length es -> sorted (interleave cs es) -> above key (drop i es) ->
  above key (right_of i cs es).
Proof.
  intros Hlen Hi Hs Hb. destruct (lookup_lt_is_Some_2 cs i ltac:(lia)) as [c Hc].
  rewrite (interleave_at i cs es c Hlen Hc), app_assoc in Hs. revert Hs. unfold right_of.
  destruct (drop i es) as [|e es'] eqn:He; [constructor|]. destruct (drop (S i) cs) as [|c' cs'] eqn:Hcs; [constructor|].
  cbn. intros Hs. apply sorted_above in Hs. apply Forall_cons in Hb as [Hek _].
  constructor; [done|]. eapply Forall_impl; [exact Hs|]. cbn. intros x ?. by etrans.
Qed.

(** Around child [i] of a node whose entries split at [i]. *)
Lemma around_child i es cs c key :
  length cs = S (length es) -> cs !! i = Some c -> sorted (interleave (map inorder cs) es) -> splits_at i es key ->
  interleave (map inorder cs) es = left_of i (map inorder cs) es ++ inorder c ++ right_of i (map inorder cs) es /\
  below key (left_of i (map inorder cs) es) /\ above key (right_of i (map inorder cs) es) /\ sorted (inorder c).
Proof.
  intros Hlen Hc Hs [Hb Ha]. assert (length (map inorder cs) = S (length es)) as Hlen' by by rewrite length_map.
  assert (i <= length es) by (apply lookup_lt_Some in Hc; lia).
  assert (map inorder cs !! i = Some (inorder c)) as Hc' by (change (map inorder cs) with (inorder <$> cs); by rewrite list_lookup_fmap, Hc).
  pose proof (interleave_at i (map inorder cs) es _ Hlen' Hc') as Heq.
  split_and!; [done|by apply left_below|by apply right_above|].
  rewrite Heq in Hs. by apply StronglySorted_app_1_r, StronglySorted_app_1_l in Hs.
Qed.

Lemma ins_elem l e v : sorted l -> e ∈ l -> ins e.1 v l = l.
Proof. intros Hs (a & b & ->)%list_elem_of_split. apply ins_present; [by eapply sorted_below|done]. Qed.

Lemma find_key_elem l e : sorted l -> e ∈ l -> find_key e.1 l = Some e.2.
Proof.
  intros Hs (a & b & ->)%list_elem_of_split. apply sorted_below in Hs.
  rewrite find_key_app by by apply below_ne. cbn. by rewrite decide_True.
Qed.

Lemma find_key_split i es key : splits_at i es key -> find_key key es = None.
Proof.
  intros [Hb Ha]. rewrite <- (take_drop i es), find_key_app by by apply below_ne.
  by rewrite <- (app_nil_l (drop i es)), find_key_app_l by by apply above_ne.
Qed.

Lemma get_loop_spec t lo h n key :
  shape t lo h n -> sorted (inorder n) -> get_loop (S h) n key = Some (find_key key (inorder n)).
Proof.
  revert lo n. induction h as [|h IH]; intros lo n Hn Hs; inv Hn; cbn [get_loop inorder leaf entries children] in *.
  - destruct (node_search _ key) as [idx found] eqn:Hsearch. apply node_search_spec in Hsearch as [Hidx Hsp]; [|done].
    cbn [entries] in *. destruct found; [|by rewrite (find_key_split idx)].
    destruct Hsp as (e & He & <- & _). rewrite He. cbn. rewrite find_key_elem; [done..|]. by eapply list_elem_of_lookup_2.
  - destruct (node_search _ key) as [idx found] eqn:Hsearch.
    assert (sorted es) as Hes by (eapply sorted_entries; [|exact Hs]; by rewrite length_map).
    apply node_search_spec in Hsearch as [Hidx Hsp]; [|done]. cbn [entries] in *. destruct found.
    + destruct Hsp as (e & He & <- & _). rewrite He. cbn [mbind option_bind]. rewrite find_key_elem; [done|done|].
      apply interleave_entries; [by rewrite length_map|by eapply list_elem_of_lookup_2].
    + destruct (lookup_lt_is_Some_2 cs idx ltac:(lia)) as [c Hc]. rewrite Hc. cbn [mbind option_bind].
      destruct (around_child idx es cs c key) as (-> & Hb & Ha & Hsc); [done..|].
      rewrite find_key_app by by apply below_ne. rewrite find_key_app_l by by apply above_ne.
      eapply IH; [|done]. by eapply Forall_lookup_1.
Qed.

(** ** Splitting a full child *)

Lemma interleave_app a b c d e :
  length a = length b -> interleave (a ++ c :: d) (b ++ e) = left_of (length a) a b ++ interleave (c :: d) e.
Proof.
  unfold left_of. rewrite take_ge by lia. intros Hlen. rewrite take_ge by lia. revert b Hlen.
  induction a as [|x a IH]; intros [|y b] Hlen; try done. cbn in *. rewrite IH by lia. by rewrite <- !app_assoc.
Qed.

Lemma interleave_split i cs es full l m r :
  length cs = S (length es) -> cs !! i = Some full -> full = l ++ m :: r ->
  interleave (slice_insert (i + 1) r (<[i := l]> cs)) (slice_insert i m es) = interleave cs es.
Proof.
  intros Hlen Hi ->. pose proof (lookup_lt_Some _ _ _ Hi).
  assert (slice_insert (i + 1) r (<[i := l]> cs) = take i cs ++ l :: r :: drop (S i) cs) as ->.
  { unfold slice_insert. rewrite Nat.add_1_r, (take_S_r _ i l) by by apply list_lookup_insert_eq.
    rewrite take_insert_ge, drop_insert_lt by lia. by rewrite <- app_assoc. }
  rewrite <- (take_drop_middle cs i _ Hi) at 3. rewrite <- (take_drop i es) at 2. unfold slice_insert.
  assert (length (take i cs) = length (take i es)) by (rewrite !length_take; lia).
  rewrite !interleave_app by done. f_equal.
  rewrite interleave_cons, (interleave_cons (l ++ m :: r)) by (cbn; rewrite !length_drop; lia).
  cbn. by rewrite <- !app_assoc.
Qed.

Lemma length_slice_insert {A} i (x : A) l : length (slice_insert i x l) = S (length l).
Proof. unfold slice_insert. rewrite length_app. cbn. rewrite length_take, length_drop. lia. Qed.

Lemma Forall_slice_insert {A} (P : A -> Prop) i x l : P x -> Forall P l -> Forall P (slice_insert i x l).
Proof. intros Hx Hl. apply Forall_app. split; [by apply Forall_take|]. constructor; [done|by apply Forall_drop]. Qed.

Lemma slice_insert_lookup {A} i (x : A) l : i <= length l -> slice_insert i x l !! i = Some x.
Proof. intros. unfold slice_insert. rewrite lookup_app_r by (rewrite length_take; lia). rewrite length_take. by replace (i - i `min` length l) with 0 by lia. Qed.

Lemma take_slice_insert {A} i (x : A) l : i <= length l -> take i (slice_insert i x l) = take i l.
Proof. intros. unfold slice_insert. rewrite take_app_length'; [done|]. rewrite length_take. lia. Qed.

Lemma drop_slice_insert {A} i (x : A) l : i <= length l -> drop i (slice_insert i x l) = x :: drop i l.
Proof. intros. unfold slice_insert. rewrite drop_app_length'; [done|]. rewrite length_take. lia. Qed.

Lemma map_slice_insert i x (l : list node) : map inorder (slice_insert i x l) = slice_insert i (inorder x) (map inorder l).
Proof. unfold slice_insert. by rewrite map_app, <- (fmap_take inorder), <- (fmap_drop inorder). Qed.

Lemma map_inorder_insert i x (l : list node) : map inorder (<[i := x]> l) = <[i := inorder x]> (map inorder l).
Proof. apply (list_fmap_insert inorder). Qed.

Lemma interleave_join a b m d e :
  length a = S (length b) -> interleave (a ++ d) (b ++ m :: e) = interleave a b ++ m :: interleave d e.
Proof.
  revert a. induction b as [|y b IH]; intros [|x a] Hlen; try done; cbn in *.
  - by destruct a.
  - rewrite IH by lia. by rewrite <- app_assoc.
Qed.

(** The two halves and the median of a full node. *)
Lemma split_halves t h full :
  1 <= t -> shape t (t - 1) h full -> length (entries full) = 2 * t - 1 ->
  exists median,
    let l := Node (leaf full) (take (t - 1) (entries full)) (if leaf full then children full else take (t - 1 + 1) (children full)) in
    let r := Node (leaf full) (drop (t - 1 + 1) (entries full)) (if leaf full then [] else drop (t - 1 + 1) (children full)) in
    entries full !! (t - 1) = Some median /\ (leaf full = true \/ t - 1 + 1 <= length (children full)) /\
    shape t (t - 1) h l /\ shape t (t - 1) h r /\
    length (entries l) = t - 1 /\ length (entries r) = t - 1 /\ inorder full = inorder l ++ median :: inorder r.
Proof.
  intros Ht Hsh Hlen. destruct (lookup_lt_is_Some_2 (entries full) (t - 1) ltac:(lia)) as [median Hm].
  exists median. cbv zeta. assert (length (take (t - 1) (entries full)) = t - 1) as Hl by (rewrite length_take; lia).
  assert (length (drop (t - 1 + 1) (entries full)) = t - 1) as Hr by (rewrite length_drop; lia).
  pose proof (take_drop_middle _ _ _ Hm) as Hmid. replace (S (t - 1)) with (t - 1 + 1) in Hmid by lia.
  inv Hsh; cbn [leaf entries children inorder] in *.
  - split_and!; [done|by left|by constructor; lia|by constructor; lia|done|done|by symmetry].
  - split_and!; [done|by right; lia|..|done|done|].
    + constructor; [lia|rewrite length_take; lia|by apply Forall_take].
    + constructor; [lia|rewrite length_drop; lia|by apply Forall_drop].
    + rewrite <- Hmid at 1. rewrite <- (take_drop (t - 1 + 1) cs) at 1. rewrite map_app.
      apply interleave_join. rewrite length_map, length_take. lia.
Qed.

Lemma splitChild_spec t lo h es cs i full :
  1 <= t -> shape t lo (S h) (Node false es cs) -> length es < 2 * t - 1 -> cs !! i = Some full ->
  length (entries full) = 2 * t - 1 ->
  exists left median right es' cs',
    splitChild (Node false es cs) i t = Some (Node false es' cs') /\
    es' = slice_insert i median es /\ cs' !! i = Some left /\ cs' !! (i + 1) = Some right /\
    shape t (S lo) (S h) (Node false es' cs') /\
    length (entries left) = t - 1 /\ length (entries right) = t - 1 /\
    inorder (Node false es' cs') = inorder (Node false es cs).
Proof.
  intros Ht Hsh Hes Hi Hfull. inv Hsh.
  destruct (split_halves t h full Ht) as (median & Hm & Hg & Hl & Hr & Hll & Hlr & Hin); [by eapply Forall_lookup_1|done|].
  pose proof (lookup_lt_Some _ _ _ Hi) as Hlt. unfold splitChild. cbn [children leaf entries]. rewrite Hi. cbn [mbind option_bind].
  rewrite Hm. cbn [mbind option_bind]. rewrite (option_guard_True _ _ Hg).
  eexists _, median, _, _, _. split_and!; [done|done|..].
  - unfold slice_insert. rewrite lookup_app_l by (rewrite length_take, length_insert; lia).
    rewrite lookup_take_lt by lia. by apply list_lookup_insert_eq.
  - apply slice_insert_lookup. rewrite length_insert. lia.
  - constructor.
    + rewrite length_slice_insert. lia.
    + rewrite !length_slice_insert, length_insert. lia.
    + apply Forall_slice_insert; [done|]. by apply Forall_insert.
  - done.
  - done.
  - cbn [inorder]. rewrite map_slice_insert, map_inorder_insert.
    eapply interleave_split; [by rewrite length_map| |exact Hin].
    change (map inorder cs) with (inorder <$> cs). by rewrite list_lookup_fmap, Hi.
Qed.

(** ** Insertion *)

Definition inserts (t h : nat) (key : string) (v : V) (n : node) : Prop :=
  forall lo, shape t lo h n -> sorted (inorder n) -> length (entries n) < 2 * t - 1 ->
  exists n', insertNonFull (S h) t n key v = Some n' /\ shape t lo h n' /\ inorder n' = ins key v (inorder n).

(** Descending into the child that the key belongs to. *)
Lemma descend_spec t lo h es cs i c key v :
  (forall n, inserts t h key v n) -> shape t lo (S h) (Node false es cs) ->
  sorted (inorder (Node false es cs)) -> splits_at i es key -> cs !! i = Some c -> length (entries c) < 2 * t - 1 ->
  exists c', insertNonFull (S h) t c key v = Some c' /\
    shape t lo (S h) (Node false es (<[i := c']> cs)) /\
    inorder (Node false es (<[i := c']> cs)) = ins key v (inorder (Node false es cs)).
Proof.
  intros IH Hsh Hs Hsp Hi Hc. inv Hsh. cbn [inorder] in *. pose proof (lookup_lt_Some _ _ _ Hi).
  destruct (around_child i es cs c key) as (Heq & Hb & Ha & Hsc); [done..|].
  destruct (IH c (t - 1)) as (c' & -> & Hc' & Hin); [by eapply Forall_lookup_1|done|done|].
  exists c'. split_and!; [done| |].
  - constructor; [done|by rewrite length_insert|by apply Forall_insert].
  - rewrite Heq, map_inorder_insert, interleave_update, Hin by (rewrite length_map; lia).
    by rewrite ins_below, ins_above.
Qed.

Lemma insert_leaf t lo es key v :
  shape t lo 0 (Node true es []) -> sorted es -> length es < 2 * t - 1 ->
  exists n', insertNonFull 1 t (Node true es []) key v = Some n' /\ shape t lo 0 n' /\ inorder n' = ins key v es.
Proof.
  intros Hsh Hs Hlen. inv Hsh. cbn [insertNonFull leaf entries children].
  destruct (node_search _ key) as [idx found] eqn:Hsearch. apply node_search_spec in Hsearch as [Hidx Hsp]; [|done]. cbn [entries] in *.
  destruct found; eexists; (split; [done|]).
  - split; [by constructor|]. destruct Hsp as (e & He & Hk & Hb). cbn [inorder].
    rewrite <- (take_drop_middle es idx e He). by rewrite ins_present.
  - destruct Hsp as [Hb Ha]. split; [constructor; rewrite length_slice_insert; lia|].
    cbn [inorder]. unfold slice_insert. rewrite <- ins_here by done. by rewrite take_drop.
Qed.

Lemma insert_internal t lo h es cs key v :
  2 <= t -> (forall n, inserts t h key v n) ->
  shape t lo (S h) (Node false es cs) -> sorted (inorder (Node false es cs)) -> length es < 2 * t - 1 ->
  exists n', insertNonFull (S (S h)) t (Node false es cs) key v = Some n' /\ shape t lo (S h) n' /\
    inorder n' = ins key v (inorder (Node false es cs)).
Proof.
  intros Ht IH Hsh Hs Hlen. pose proof Hsh as Hsh0. inv Hsh0.
  assert (sorted es) as Hes by (eapply sorted_entries; [|exact Hs]; by rewrite length_map).
  remember (S h) as fuel. cbn [insertNonFull leaf entries children]. subst fuel.
  destruct (node_search _ key) as [idx found] eqn:Hsearch. apply node_search_spec in Hsearch as [Hidx Hsp]; [|done]. cbn [entries] in *.
  destruct found.
  { eexists. split_and!; [done..|]. destruct Hsp as (e & He & <- & _). symmetry. apply ins_elem; [done|].
    apply interleave_entries; [by rewrite length_map|by eapply list_elem_of_lookup_2]. }
  destruct (lookup_lt_is_Some_2 cs idx ltac:(lia)) as [c Hc]. rewrite Hc. cbn [mbind option_bind].
  assert (length (entries c) <= 2 * t - 1) as Hcb by (eapply shape_bounds, Forall_lookup_1; done).
  case_decide as Hfull.
  - destruct (splitChild_spec t lo h es cs idx c) as (l & m & r & es' & cs' & -> & Hes' & Hl & Hr & Hsh' & Hll & Hlr & Hin); [lia|done..|].
    cbn [mbind option_bind entries children leaf]. subst es'. rewrite slice_insert_lookup by lia. cbn [mbind option_bind].
    rewrite <- Hin in Hs. destruct Hsp as [Hb Ha].
    assert (shape t lo (S h) (Node false (slice_insert idx m es) cs')) as Hshw
      by (eapply shape_weaken; [done|]; cbn; rewrite length_slice_insert; lia).
    case_decide as Hm; [|case_decide as Hm'].
    + destruct (descend_spec t lo h (slice_insert idx m es) cs' (idx + 1) r key v) as (c' & Hins & Hshc & Hinc);
        [done..| |done|lia|].
      { split.
        - rewrite Nat.add_1_r, (take_S_r _ _ m), take_slice_insert by (lia || apply slice_insert_lookup; lia).
          apply Forall_app. split; [done|by apply Forall_singleton].
        - rewrite <- drop_drop, drop_slice_insert by lia. cbn. by rewrite drop_0. }
      rewrite Hr. cbn [mbind option_bind]. rewrite Hins. cbn [mbind option_bind]. eexists. split_and!; [done|done|]. by rewrite Hinc, Hin.
    + eexists. split_and!; [done|done|]. rewrite <- Hin. subst key. symmetry. apply ins_elem; [done|].
      cbn [inorder]. inv Hsh'. apply interleave_entries; [by rewrite length_map|]. apply elem_of_app. right. by left.
    + destruct (descend_spec t lo h (slice_insert idx m es) cs' idx l key v) as (c' & Hins & Hshc & Hinc);
        [done..| |done|lia|].
      { split; [by rewrite take_slice_insert by lia|]. rewrite drop_slice_insert by lia. constructor; [|done].
        destruct (slt_trichotomy key m.1) as [?|[?|?]]; done. }
      rewrite Hl. cbn [mbind option_bind]. rewrite Hins. cbn [mbind option_bind]. eexists. split_and!; [done|done|]. by rewrite Hinc, Hin.
  - destruct (descend_spec t lo h es cs idx c key v) as (c' & -> & Hshc & Hinc); [done..|lia|].
    cbn [mbind option_bind]. by eexists.
Qed.

Lemma insertNonFull_spec t h key v n : 2 <= t -> inserts t h key v n.
Proof.
  intros Ht. revert n. induction h as [|h IH]; intros n lo Hsh Hs Hlen; inversion Hsh; subst n; cbn [entries] in Hlen.
  - subst. by apply insert_leaf.
  - subst. by apply insert_internal.
Qed.

(** ** Whole trees *)

Definition btree_wf (b : btree) : Prop :=
  2 <= degree b /\ sorted (inorder (bt_root b)) /\
  exists lo h, shape (degree b) lo h (bt_root b) /\ (h = 0 \/ 1 <= lo).

Lemma newBtree_wf d : btree_wf (newBtree d).
Proof.
  split_and!; cbn; [case_decide; lia|constructor|]. exists 0, 0. split; [constructor; cbn; lia|by left].
Qed.

Lemma btree_get_spec b key : btree_wf b -> btree_get b key = Some (find_key key (inorder (bt_root b))).
Proof. intros (_ & Hs & lo & h & Hsh & _). unfold btree_get. rewrite (height_shape _ _ _ _ Hsh). by eapply get_loop_spec. Qed.

Lemma btree_insert_spec b key v :
  btree_wf b -> exists b', btree_insert b key v = Some b' /\ btree_wf b' /\ degree b' = degree b /\
    inorder (bt_root b') = ins key v (inorder (bt_root b)).
Proof.
  intros (Ht & Hs & lo & h & Hsh & Hroot). unfold btree_insert. pose proof (shape_bounds _ _ _ _ Hsh).
  assert (exists root lo' h', (if decide (length (entries (bt_root b)) = 2 * degree b - 1)
      then splitChild (Node false [] [bt_root b]) 0 (degree b) else Some (bt_root b)) = Some root /\
    shape (degree b) lo' h' root /\ (h' = 0 \/ 1 <= lo') /\ length (entries root) < 2 * degree b - 1 /\
    inorder root = inorder (bt_root b)) as (root & lo' & h' & -> & Hsh' & Hroot' & Hlen & Hin).
  { case_decide as Hfull; [|exists (bt_root b), lo, h; split_and!; [done..|lia|done]].
    destruct (splitChild_spec (degree b) 0 h [] [bt_root b] 0 (bt_root b)) as (l & m & r & es' & cs' & -> & -> & _ & _ & Hsh' & _ & _ & Hin);
      [lia| |cbn; lia|done|done|].
    { constructor; [cbn; lia|done|]. apply Forall_singleton. eapply shape_weaken; [exact Hsh|lia]. }
    eexists _, 1, (S h). split_and!; [done|done|by right|cbn; lia|exact Hin]. }
  cbn [mbind option_bind]. rewrite (height_shape _ _ _ _ Hsh').
  destruct (insertNonFull_spec (degree b) h' key v root Ht lo') as (root' & -> & Hsh2 & Hin2); [done|by rewrite Hin|done|].
  cbn [mbind option_bind]. eexists. split_and!; [done| |done|by rewrite <- Hin].
  split_and!; [done|cbn; rewrite Hin2, Hin; by apply ins_sorted|]. by exists lo', h'.
Qed.

(** In-order traversals with a per-entry output. *)
Lemma walk_spec {A} (t : nat) (f : entry -> list A) (walk : node -> option (list A)) :
  (forall es cs, walk (Node true es cs) = Some (mbind f es)) ->
  (forall es cs, walk (Node false es cs) =
     (fix go (es : list entry) (cs : list node) {struct cs} : option (list A) :=
        match cs, es with
        | c :: cs, e :: es => l ← walk c; l' ← go es cs; Some (l ++ f e ++ l')
        | c :: _, [] => walk c
        | [], _ => None
        end) es cs) ->
  forall h lo n, shape t lo h n -> walk n = Some (mbind f (inorder n)).
Proof.
  intros Hleaf Hnode h. induction h as [|h IH]; intros lo n Hn; inv Hn; [apply Hleaf|].
  rewrite Hnode. cbn [inorder]. match goal with H : length _ = _, H' : Forall _ _ |- _ => revert H H' end. clear - Hleaf Hnode IH es cs.
  revert es. induction cs as [|c cs IHcs]; intros [|e es] Hlen Hcs; try done; apply Forall_cons in Hcs as [Hc Hcs]; cbn.
  - by eapply IH.
  - cbn in Hlen. rewrite (IH _ _ Hc). cbn. rewrite IHcs by (done || lia). cbn. by rewrite bind_app.
Qed.

Lemma in_range_spec start end_ k :
  in_range start end_ k = bool_decide (¬ slt k start /\ ¬ (end_ <> EmptyString /\ ¬ slt k end_)).
Proof.
  unfold in_range. apply eq_bool_prop_intro. rewrite !Is_true_true, andb_true_iff, orb_true_iff, !bool_decide_eq_true.
  destruct (decide (end_ = EmptyString)), (decide (slt k end_)); tauto.
Qed.

Lemma rangeKeys_spec b start end_ :
  btree_wf b ->
  rangeKeys b start end_ = Some (mbind (fun e : entry => if in_range start end_ e.1 then [e.1] else []) (inorder (bt_root b))).
Proof.
  intros (_ & _ & lo & h & Hsh & _). unfold rangeKeys. revert Hsh. apply walk_spec; [|done].
  intros es cs. cbn [range_walk]. f_equal. induction es as [|e es IH]; [done|].
  rewrite filter_cons, bind_cons, in_range_spec, <- IH.
  destruct (decide (¬ slt e.1 start /\ ¬ (end_ <> EmptyString /\ ¬ slt e.1 end_))) as [Hr|Hr];
    [by rewrite bool_decide_true|by rewrite bool_decide_false].
Qed.

Lemma allHistories_spec b : btree_wf b -> allHistories b = Some (snd <$> inorder (bt_root b)).
Proof.
  intros (_ & _ & lo & h & Hsh & _). unfold allHistories.
  assert (forall l : list entry, snd <$> l = mbind (fun e : entry => [e.2]) l) as Hb by (intros l; induction l; [done|]; cbn; by f_equal).
  rewrite Hb. revert Hsh. apply walk_spec; [|done]. intros es cs. cbn [history_walk]. by rewrite Hb.
Qed.

Lemma sorted_keys l : sorted l -> StronglySorted slt l.*1.
Proof. induction 1 as [|e l _ IH He]; cbn; constructor; [done|]. by apply Forall_fmap. Qed.

Lemma rangeKeys_sorted b start end_ :
  btree_wf b ->
  exists ks, rangeKeys b start end_ = Some ks /\ StronglySorted slt ks /\
    forall k, k ∈ ks <-> k ∈ (inorder (bt_root b)).*1 /\ ¬ slt k start /\ (end_ = EmptyString \/ slt k end_).
Proof.
  intros Hwf. eexists. split; [by apply rangeKeys_spec|].
  assert (forall l : list entry, mbind (fun e : entry => if in_range start end_ e.1 then [e.1] else []) l =
    filter (fun k => in_range start end_ k = true) l.*1) as Hf.
  { intros l. induction l as [|e l IH]; [done|]. rewrite bind_cons, fmap_cons, filter_cons, IH.
    by destruct (in_range start end_ e.1). }
  rewrite Hf. split; [apply StronglySorted_filter, sorted_keys, Hwf|].
  intros k. rewrite list_elem_of_filter. unfold in_range.
  rewrite andb_true_iff, orb_true_iff, !bool_decide_eq_true. tauto.
Qed.

(** ** Loading a tree *)

Definition btree_load (d : nat) (kvs : list entry) : option btree :=
  foldl (fun o kv => t ← o; btree_insert t kv.1 kv.2) (Some (newBtree d)) kvs.

Definition load_list (kvs : list entry) : list entry := foldl (fun l kv => ins kv.1 kv.2 l) [] kvs.

Lemma load_list_snoc kvs kv : load_list (kvs ++ [kv]) = ins kv.1 kv.2 (load_list kvs).
Proof. unfold load_list. by rewrite foldl_app. Qed.

Lemma load_list_sorted kvs : sorted (load_list kvs).
Proof. induction kvs as [|kv kvs IH] using rev_ind; [constructor|]. rewrite load_list_snoc. by apply ins_sorted. Qed.

Lemma btree_load_spec d kvs :
  exists t, btree_load d kvs = Some t /\ btree_wf t /\ degree t = degree (newBtree d) /\ inorder (bt_root t) = load_list kvs.
Proof.
  induction kvs as [|kv kvs IH] using rev_ind; [exists (newBtree d); split_and!; [done|apply newBtree_wf|done|done]|].
  destruct IH as (t & Ht & Hwf & Hd & Hin). destruct (btree_insert_spec t kv.1 kv.2 Hwf) as (t' & Ht' & Hwf' & Hd' & Hin').
  exists t'. unfold btree_load in *. rewrite foldl_app, Ht. cbn. split_and!; [done|done|by rewrite Hd'|].
  by rewrite load_list_snoc, Hin', Hin.
Qed.

Lemma find_key_snoc k kvs (kv : entry) :
  find_key k (kvs ++ [kv]) = match find_key k kvs with Some v => Some v | None => if decide (kv.1 = k) then Some kv.2 else None end.
Proof. induction kvs as [|e kvs IH]; cbn; [done|]. by destruct (decide (e.1 = k)). Qed.

(** The first binding of a key wins. *)
Lemma find_key_load k kvs : find_key k (load_list kvs) = find_key k kvs.
Proof.
  induction kvs as [|kv kvs IH] using rev_ind; [done|].
  rewrite load_list_snoc, find_key_ins, find_key_snoc by apply load_list_sorted.
  case_decide as Hk; [subst k; rewrite IH|]; rewrite ?IH; by destruct (find_key _ kvs).
Qed.

Lemma find_key_is_Some k l : is_Some (find_key k l) <-> k ∈ l.*1.
Proof.
  induction l as [|e l IH]; cbn; [by split; [intros [??]|intros ?%elem_of_nil]|]. rewrite elem_of_cons, <- IH.
  case_decide; [|naive_solver]. split; [by left|by intros _; eexists].
Qed.

Lemma load_list_keys kvs k : k ∈ (load_list kvs).*1 <-> k ∈ kvs.*1.
Proof. by rewrite <- !find_key_is_Some, find_key_load. Qed.

Lemma slt_sorted_NoDup l : StronglySorted slt l -> NoDup l.
Proof.
  induction 1 as [|x l _ IH Hx]; constructor; [|done]. intros Hin. rewrite Forall_forall in Hx.
  apply Hx in Hin. by apply irreflexivity in Hin; [|apply _].
Qed.

Lemma load_list_length kvs : length (load_list kvs) = size (list_to_set kvs.*1 : gset string).
Proof.
  rewrite <- (length_fmap fst (load_list kvs)). rewrite <- (size_list_to_set (C := gset string)).
  - f_equal. apply set_eq. intros k. by rewrite !elem_of_list_to_set, load_list_keys.
  - apply slt_sorted_NoDup, sorted_keys, load_list_sorted.
Qed.

(** ** Logarithmic height *)

Lemma interleave_size (B : nat) cs es :
  length cs = S (length es) -> Forall (fun c => B <= length c + 1) cs ->
  S (length es) * B <= length (interleave cs es) + 1.
Proof.
  revert es. induction cs as [|c cs IH]; intros [|e es] Hlen Hcs; try done; apply Forall_cons in Hcs as [Hc Hcs]; [cbn; lia|].
  cbn in Hlen. specialize (IH es ltac:(lia) Hcs). cbn [interleave length]. rewrite length_app. cbn [length]. lia.
Qed.

Lemma shape_size t h n : 1 <= t -> shape t (t - 1) h n -> t ^ S h <= length (inorder n) + 1.
Proof.
  intros Ht. revert n. induction h as [|h IH]; intros n Hn; inv Hn; cbn [inorder].
  - rewrite Nat.pow_1_r. lia.
  - rewrite Nat.pow_succ_r by lia. etrans; [|apply (interleave_size (t ^ S h)); [by rewrite length_map|]].
    + apply Nat.mul_le_mono_r. lia.
    + apply Forall_fmap. eapply Forall_impl; [done|]. cbn. auto.
Qed.

Lemma root_size t lo h n : 1 <= t -> 1 <= lo -> shape t lo (S h) n -> 2 * t ^ S h <= length (inorder n) + 1.
Proof.
  intros Ht Hlo Hn. inv Hn. cbn [inorder]. etrans; [|apply (interleave_size (t ^ S h)); [by rewrite length_map|]].
  - apply Nat.mul_le_mono_r. lia.
  - apply Forall_fmap. eapply Forall_impl; [done|]. intros. by apply shape_size.
Qed.

(** ** Properties *)

(** C6: the B-tree is a sorted map.  Any sequence of insertions into a new tree of
    any degree, preemptive splits included, succeeds without an index panic; [get]
    then returns exactly the first history inserted for the key, or nil, and
    [rangeKeys] lists the inserted keys of the interval once each, in order. *)
Theorem btree_refines_sorted_map d kvs :
  exists t, btree_load d kvs = Some t /\
    (forall k, btree_get t k = Some (find_key k kvs)) /\
    (forall start end_, exists ks, rangeKeys t start end_ = Some ks /\ StronglySorted slt ks /\
       forall k, k ∈ ks <-> k ∈ kvs.*1 /\ ¬ slt k start /\ (end_ = EmptyString \/ slt k end_)).
Proof.
  destruct (btree_load_spec d kvs) as (t & Ht & Hwf & _ & Hin). exists t. split_and!; [done|..].
  - intros k. by rewrite btree_get_spec, Hin, find_key_load.
  - intros start end_. destruct (rangeKeys_sorted t start end_ Hwf) as (ks & Hks & Hs & Hk). exists ks.
    split_and!; [done..|]. intros k. by rewrite Hk, Hin, load_list_keys.
Qed.

(** The B-tree stays balanced.  After any sequence of insertions all leaves
    are at one depth [h], every node below the root is at least half full, and a
    tree with internal nodes has at least [2 * degree ^ h - 1] distinct keys: a
    lookup visits at most [1 + log_degree ((n + 1) / 2)] nodes. *)
Theorem btree_balanced d kvs :
  exists t lo h, btree_load d kvs = Some t /\ shape (degree t) lo h (bt_root t) /\ height (bt_root t) = S h /\
    (h = 0 \/ 2 * degree t ^ h <= size (list_to_set kvs.*1 : gset string) + 1).
Proof.
  destruct (btree_load_spec d kvs) as (t & Ht & (Hd & _ & lo & h & Hsh & Hroot) & _ & Hin). exists t, lo, h.
  split_and!; [done|done|by eapply height_shape|]. destruct h as [|h]; [by left|right].
  rewrite <- load_list_length, <- Hin. eapply root_size; [lia| |exact Hsh]. lia.
Qed.

End btree.

Arguments node : clear implicits.
Arguments btree : clear implicits.
