(* ===== verification/Mvcc.v ===== *)
(** * The revision store ([src/pkg/mvcc/mvcc.go])

    Every [Put] takes the next global revision and appends a version to the history
    of its key; reads are as of a revision.  Histories are shared objects: the index
    maps a key to a location and [Put] and [Compact] mutate the history in place, so
    the store carries a heap of histories.  [None] is a Go panic. *)

From S2P Require Import Prelude Btree.
Local Open Scope Z_scope.

Record Version := mkVersion { ModRev : Z; Value : list Z }.
Record Event := mkEvent { ev_Rev : Z; ev_Key : string; ev_Value : list Z }.
Abbreviation keyHistory := (list Version).

(** A value and [true], or [nil, false]. *)
Definition keyHistory_get (versions : keyHistory) (atRev : Z) : option (list Z) :=
  if decide (length versions = 0%nat) then None
  else if decide (atRev <= 0) then Value <$> versions !! (length versions - 1)%nat
  else
    let idx := sort_Search (length versions) (fun i =>
      match versions !! i with Some v => bool_decide (ModRev v > atRev) | None => false end) in
    if decide (idx = 0%nat) then None else Value <$> versions !! (idx - 1)%nat.

(** The loop of [compact] from index [i] on. *)
Fixpoint compact_loop (rev : Z) (n i : nat) (versions : keyHistory) : keyHistory :=
  match versions with
  | [] => []
  | v :: versions =>
      let isLatest := bool_decide (i = (n - 1)%nat) in
      if negb isLatest && bool_decide (ModRev v < rev) then compact_loop rev n (i + 1) versions
      else v :: compact_loop rev n (i + 1) versions
  end.

Definition keyHistory_compact (rev : Z) (versions : keyHistory) : keyHistory :=
  if decide (length versions <= 1)%nat then versions else compact_loop rev (length versions) 0 versions.

Record Store := mkStore { st_rev : Z; st_index : btree nat; st_heap : list keyHistory; st_log : list Event }.

Definition defaultDegree : nat := 4.

Definition Store_New : Store := mkStore 0 (newBtree defaultDegree) [] [].

Definition Store_Rev (s : Store) : Z := st_rev s.

Definition Store_Put (key : string) (val : list Z) (s : Store) : option (Store * Z) :=
  let rev := i64 (st_rev s + 1) in
  found ← btree_get (st_index s) key;
  '(index, heap, h) ← match found with
                      | Some h => Some (st_index s, st_heap s, h)
                      | None => let h := length (st_heap s) in
                                index ← btree_insert (st_index s) key h; Some (index, st_heap s ++ [[]], h)
                      end;
  versions ← heap !! h;
  Some (mkStore rev index (<[h := versions ++ [mkVersion rev val]]> heap) (st_log s ++ [mkEvent rev key val]), rev).

Definition Store_Get (key : string) (atRev : Z) (s : Store) : option (option (list Z)) :=
  found ← btree_get (st_index s) key;
  match found with
  | None => Some None
  | Some h => versions ← st_heap s !! h; Some (keyHistory_get versions atRev)
  end.

Definition Store_Range (start end_ : string) (s : Store) : option (list string) := rangeKeys (st_index s) start end_.

Definition Store_Watch (fromRev : Z) (s : Store) : list Event := filter (fun e => ev_Rev e > fromRev) (st_log s).

Definition Store_Compact (rev : Z) (s : Store) : option Store :=
  hs ← allHistories (st_index s);
  Some (mkStore (st_rev s) (st_index s) (foldl (fun heap h => alter (keyHistory_compact rev) h heap) (st_heap s) hs) (st_log s)).

(** ** Histories *)

Definition history_sorted (h : keyHistory) : Prop := StronglySorted (fun a b => ModRev a < ModRev b) h.

(** The version a read at [r] sees. *)
Definition live_at (h : keyHistory) (r : Z) : option Version :=
  if decide (r <= 0) then last h else last (filter (fun v => ModRev v <= r) h).

Lemma last_lookup_pred {A} (l : list A) : last l = l !! (length l - 1)%nat.
Proof. rewrite last_lookup. f_equal. lia. Qed.

Lemma filter_none {A} (P : A -> Prop) `{!forall x, Decision (P x)} l : Forall (fun x => ¬ P x) l -> filter P l = [].
Proof. induction 1 as [|x l Hx _ IH]; [done|]. by rewrite filter_cons_False. Qed.

Lemma filter_take {A} (P : A -> Prop) `{!forall x, Decision (P x)} n l :
  Forall P (take n l) -> Forall (fun x => ¬ P x) (drop n l) -> filter P l = take n l.
Proof.
  intros H1 H2. rewrite <- (take_drop n l) at 1. rewrite filter_app.
  rewrite (filter_none P (drop n l)), app_nil_r by done. induction H1 as [|x m Hx _ IH]; [done|]. by rewrite filter_cons_True, IH.
Qed.

Lemma keyHistory_get_live h r : history_sorted h -> keyHistory_get h r = Value <$> live_at h r.
Proof.
  intros Hs. unfold keyHistory_get, live_at. case_decide as Hlen; [destruct h; [by case_decide|done]|].
  case_decide as Hr; [by rewrite last_lookup_pred|].
  set (f := fun i => match h !! i with Some v => bool_decide (ModRev v > r) | None => false end).
  destruct (sort_Search_spec (length h) f) as (Hle & Hlo & Hhi).
  { intros i j Hij Hj. unfold f. destruct (h !! i) as [x|] eqn:Hx; [|done].
    destruct (lookup_lt_is_Some_2 h j Hj) as [y Hy]. rewrite Hy, !bool_decide_eq_true.
    destruct (decide (i = j)) as [->|]; [by simplify_eq|].
    rewrite <- (take_drop_middle h i x Hx) in Hs. apply StronglySorted_app_1_r, StronglySorted_cons in Hs as [Hs _].
    assert (ModRev x < ModRev y); [|lia]. eapply Forall_forall in Hs; [exact Hs|]. apply list_elem_of_lookup.
    exists (j - S i)%nat. rewrite lookup_drop. by replace (S i + (j - S i))%nat with j by lia. }
  set (idx := sort_Search (length h) f) in *.
  rewrite (filter_take _ idx).
  - case_decide as H0; [by rewrite H0|]. rewrite last_lookup, length_take, lookup_take_lt by lia. do 2 f_equal. lia.
  - apply Forall_forall. intros x [i Hi]%list_elem_of_lookup. apply lookup_take_Some in Hi as [Hi Hlt].
    specialize (Hlo i Hlt). unfold f in Hlo. rewrite Hi, bool_decide_eq_false in Hlo. lia.
  - apply Forall_forall. intros x [i Hi]%list_elem_of_lookup. rewrite lookup_drop in Hi.
    specialize (Hhi (idx + i)%nat). unfold f in Hhi. rewrite Hi, bool_decide_eq_true in Hhi. apply lookup_lt_Some in Hi. lia.
Qed.

Lemma compact_loop_spec rev n i h x :
  n = (i + length (h ++ [x]))%nat -> compact_loop rev n i (h ++ [x]) = filter (fun v => ¬ ModRev v < rev) h ++ [x].
Proof.
  revert i. induction h as [|v h IH]; intros i Hn; cbn [app length compact_loop] in *.
  - rewrite bool_decide_true by lia. done.
  - rewrite length_app in Hn. cbn [length] in Hn. rewrite bool_decide_false by lia. cbn [negb andb]. rewrite filter_cons.
    assert (n = (i + 1 + length (h ++ [x]))%nat) by (rewrite length_app; cbn; lia). case_bool_decide as Hv.
    + rewrite decide_False by tauto. by apply IH.
    + rewrite decide_True by tauto. cbn. f_equal. by apply IH.
Qed.

Lemma keyHistory_compact_spec rev h x : keyHistory_compact rev (h ++ [x]) = filter (fun v => ¬ ModRev v < rev) h ++ [x].
Proof.
  unfold keyHistory_compact. case_decide as Hlen; [|by apply compact_loop_spec].
  rewrite length_app in Hlen. cbn in Hlen. destruct h; [done|cbn in Hlen; lia].
Qed.

(** What a read sees after compaction: versions older than the compaction revision
    are gone, unless they are their key's latest. *)
Definition survives (rev : Z) (h : keyHistory) (v : Version) : Prop := rev <= ModRev v \/ last h = Some v.

#[export] Instance Version_eq_dec : EqDecision Version.
Proof. solve_decision. Defined.
#[export] Instance survives_dec rev h v : Decision (survives rev h v).
Proof. unfold survives. apply _. Defined.

Lemma last_filter {A} (P : A -> Prop) `{!forall x, Decision (P x)} l x :
  last l = Some x -> P x -> last (filter P l) = Some x.
Proof.
  intros (l' & ->)%last_Some Hx. rewrite filter_app, filter_cons_True by done. apply last_snoc.
Qed.

Lemma last_history_max h v r : history_sorted h -> last (filter (fun v => ModRev v <= r) h) = Some v ->
  forall w, w ∈ h -> ModRev w <= r -> ModRev w <= ModRev v.
Proof.
  intros Hs (l & Hl)%last_Some w Hw Hr.
  assert (w ∈ filter (fun v => ModRev v <= r) h) as Hin by by apply list_elem_of_filter.
  apply (StronglySorted_filter _ (fun v => ModRev v <= r)) in Hs. rewrite Hl in Hin, Hs.
  apply elem_of_app in Hin as [Hin| ->%list_elem_of_singleton]; [|lia].
  apply (StronglySorted_app_1_elem_of _ l [v] w v) in Hs; [cbn in Hs; lia|done|by left].
Qed.

Lemma filter_comm {A} (P Q : A -> Prop) `{!forall x, Decision (P x)} `{!forall x, Decision (Q x)} (l : list A) :
  filter P (filter Q l) = filter Q (filter P l).
Proof.
  induction l as [|x l IH]; [done|]. rewrite !filter_cons.
  destruct (decide (P x)), (decide (Q x)); rewrite ?filter_cons_True, ?filter_cons_False by done; by rewrite IH.
Qed.

Lemma live_at_compact rev h r :
  history_sorted h ->
  live_at (keyHistory_compact rev h) r = (v ← live_at h r; if decide (survives rev h v) then Some v else None).
Proof.
  intros Hs. destruct h as [|x i _] using rev_ind; [by unfold live_at; case_decide|].
  rewrite keyHistory_compact_spec. unfold live_at. destruct (decide (r <= 0)) as [Hr|Hr].
  { rewrite !last_snoc. cbn. rewrite decide_True; [done|]. right. by rewrite last_snoc. }
  rewrite !filter_app. destruct (decide (ModRev x <= r)) as [Hx|Hx].
  { rewrite !filter_cons_True, !filter_nil, !last_snoc by done. cbn. rewrite decide_True; [done|]. right. by rewrite last_snoc. }
  rewrite !filter_cons_False, !filter_nil, !app_nil_r, filter_comm by done.
  pose proof (StronglySorted_app_1_l _ _ _ Hs) as Hsi.
  destruct (last (filter (fun v => ModRev v <= r) i)) as [v|] eqn:Hv; cbn [mbind option_bind].
  - assert (v ∈ i /\ ModRev v <= r) as [Hin Hvr].
    { apply last_Some_elem_of, list_elem_of_filter in Hv. tauto. }
    case_decide as Hsv.
    + apply last_filter; [done|]. destruct Hsv as [?|Hl]; [lia|]. rewrite last_snoc in Hl. injection Hl as ->. lia.
    + assert (filter (fun v => ¬ ModRev v < rev) (filter (fun v => ModRev v <= r) i) = []) as ->; [|done].
      apply filter_none, Forall_forall. intros w [Hwr Hw]%list_elem_of_filter Hge.
      apply Hsv. left. pose proof (last_history_max i v r Hsi Hv w Hw Hwr). lia.
  - apply last_None in Hv. by rewrite Hv.
Qed.

(** ** The store invariant *)

Definition index_list (s : Store) : list (string * nat) := inorder (bt_root (st_index s)).
Definition hist_of (s : Store) (k : string) : option keyHistory := h ← find_key k (index_list s); st_heap s !! h.

Definition history_ok (rev : Z) (h : keyHistory) : Prop :=
  h <> [] /\ history_sorted h /\ Forall (fun v => 1 <= ModRev v <= rev) h.

Record store_inv (s : Store) : Prop := {
  inv_index : btree_wf (st_index s);
  inv_fresh : NoDup (index_list s).*2;
  inv_heap : Forall (fun h => (h < length (st_heap s))%nat) (index_list s).*2;
  inv_rev : 0 <= st_rev s;
  inv_hist : forall k h, hist_of s k = Some h -> history_ok (st_rev s) h }.

Lemma find_key_elem_of {V} k (l : list (string * V)) v : find_key k l = Some v -> (k, v) ∈ l.
Proof.
  induction l as [|[k0 v0] l IH]; cbn; [done|]. case_decide as Hk; [|intros; right; auto].
  intros [= <-]. subst k. by left.
Qed.

Lemma find_key_distinct k k' (l : list (string * nat)) h :
  NoDup l.*2 -> find_key k l = Some h -> find_key k' l = Some h -> k = k'.
Proof.
  intros Hnd H1%find_key_elem_of H2%find_key_elem_of.
  apply list_elem_of_lookup in H1 as [i Hi], H2 as [j Hj].
  assert (i = j) as ->; [|by simplify_eq].
  eapply (NoDup_lookup l.*2); [done|by rewrite list_lookup_fmap, Hi|by rewrite list_lookup_fmap, Hj].
Qed.

Lemma loc_bound s k h : store_inv s -> find_key k (index_list s) = Some h -> (h < length (st_heap s))%nat.
Proof.
  intros Hinv E%find_key_elem_of. pose proof (inv_heap s Hinv) as Hb. rewrite Forall_fmap, Forall_forall in Hb. exact (Hb _ E).
Qed.

Lemma hist_of_is_Some s k : store_inv s -> is_Some (hist_of s k) <-> is_Some (find_key k (index_list s)).
Proof.
  intros Hinv. unfold hist_of. destruct (find_key k (index_list s)) as [h|] eqn:E; cbn; [|done].
  split; [by eexists|]. intros _. apply lookup_lt_is_Some. by eapply loc_bound.
Qed.

Lemma Store_Get_hist s k r : store_inv s -> Store_Get k r s = Some (h ← hist_of s k; keyHistory_get h r).
Proof.
  intros Hinv. unfold Store_Get. rewrite btree_get_spec by apply Hinv. fold (index_list s). cbn [mbind option_bind].
  destruct (find_key k (index_list s)) as [h|] eqn:E; unfold hist_of; rewrite E; cbn; [|done].
  destruct (hist_of_is_Some s k Hinv) as [_ [vs Hvs]]; [by rewrite E|]. unfold hist_of in Hvs. rewrite E in Hvs. cbn in Hvs.
  by rewrite Hvs.
Qed.

Lemma Store_Get_live s k r : store_inv s -> Store_Get k r s = Some (Value <$> (h ← hist_of s k; live_at h r)).
Proof.
  intros Hinv. rewrite Store_Get_hist by done. f_equal. destruct (hist_of s k) as [h|] eqn:E; cbn; [|done].
  apply (inv_hist s Hinv) in E as (_ & Hs & _). by apply keyHistory_get_live.
Qed.

Lemma ins_fresh k h (l : list (string * nat)) :
  find_key k l = None -> ins k h l ≡ₚ (k, h) :: l.
Proof.
  induction l as [|e l IH]; cbn; [done|]. case_decide as Hk; [done|]. intros Hf. case_decide; [done|].
  case_decide; [congruence|]. rewrite IH by done. constructor.
Qed.

Lemma history_ok_snoc rev h val :
  0 <= rev -> history_sorted h -> Forall (fun v => 1 <= ModRev v <= rev) h -> history_ok (rev + 1) (h ++ [mkVersion (rev + 1) val]).
Proof.
  intros Hrev Hs Hb. split_and!.
  - by destruct h.
  - apply StronglySorted_app_2; [|done|by repeat constructor]. intros x1 x2 Hx1 ->%list_elem_of_singleton. cbn.
    eapply Forall_forall in Hx1; [|exact Hb]. cbn in Hx1. lia.
  - apply Forall_app. split; [eapply Forall_impl; [exact Hb|cbn; lia]|]. apply Forall_singleton. cbn. lia.
Qed.

(** The effect of [Put], whether the key's history existed or was just allocated. *)
Lemma put_effect s (index : btree nat) heap h k val log :
  store_inv s -> btree_wf index -> NoDup (inorder (bt_root index)).*2 ->
  Forall (fun h => (h < length heap)%nat) (inorder (bt_root index)).*2 ->
  (forall k', k' <> k -> find_key k' (inorder (bt_root index)) = find_key k' (index_list s)) ->
  find_key k (inorder (bt_root index)) = Some h -> heap !! h = Some (default [] (hist_of s k)) ->
  (forall i, i <> h -> (i < length (st_heap s))%nat -> heap !! i = st_heap s !! i) ->
  let s' := mkStore (st_rev s + 1) index (<[h := default [] (hist_of s k) ++ [mkVersion (st_rev s + 1) val]]> heap) log in
  store_inv s' /\
  forall k', hist_of s' k' = if decide (k = k') then Some (default [] (hist_of s k) ++ [mkVersion (st_rev s + 1) val]) else hist_of s k'.
Proof.
  intros Hinv Hwf Hnd Hlt Hother Hk Hh Hheap s'. pose proof (inv_rev s Hinv) as Hrev.
  assert (forall k', hist_of s' k' = if decide (k = k') then Some (default [] (hist_of s k) ++ [mkVersion (st_rev s + 1) val]) else hist_of s k') as Hhist.
  { intros k'. unfold hist_of, index_list, s'; cbn [st_index st_heap]. case_decide as Hkk; [subst k'|].
    - rewrite Hk. cbn. apply list_lookup_insert_eq. by eapply lookup_lt_Some.
    - fold (index_list s). rewrite Hother by done. destruct (find_key k' (index_list s)) as [h'|] eqn:E; cbn; [|done].
      rewrite <- Hother in E by done. assert (h <> h') by (intros ->; by eapply Hkk, find_key_distinct).
      rewrite list_lookup_insert_ne by done. apply Hheap; [done|].
      rewrite Hother in E by done. by eapply loc_bound. }
  split; [|exact Hhist]. split; cbn; [done|done| |lia|].
  - by rewrite length_insert.
  - intros k' h' Hh'. rewrite Hhist in Hh'. case_decide as Hkk; [injection Hh' as <-|].
    + apply history_ok_snoc; [done|..]; destruct (hist_of s k) as [vs|] eqn:E; cbn; try constructor; by apply (inv_hist s Hinv) in E as (_ & ? & ?).
    + apply (inv_hist s Hinv) in Hh' as (? & ? & Hb). split_and!; [done..|]. eapply Forall_impl; [exact Hb|cbn; lia].
Qed.

Lemma Store_Put_spec k val s :
  store_inv s -> st_rev s < MaxInt64 ->
  exists s', Store_Put k val s = Some (s', st_rev s + 1) /\ store_inv s' /\ st_rev s' = st_rev s + 1 /\
    st_log s' = st_log s ++ [mkEvent (st_rev s + 1) k val] /\
    (forall k', hist_of s' k' = if decide (k = k') then Some (default [] (hist_of s k) ++ [mkVersion (st_rev s + 1) val]) else hist_of s k').
Proof.
  intros Hinv Hrev. pose proof (inv_rev s Hinv). pose proof (inv_heap s Hinv) as Hheap. unfold Store_Put. rewrite i64_id by int_lia.
  rewrite btree_get_spec by apply Hinv. fold (index_list s). cbn [mbind option_bind].
  destruct (find_key k (index_list s)) as [h|] eqn:E.
  - cbn [mbind option_bind]. destruct (hist_of_is_Some s k Hinv) as [_ [vs Hvs]]; [by rewrite E|].
    assert (st_heap s !! h = Some (default [] (hist_of s k))) as Hh by (rewrite Hvs; unfold hist_of in Hvs; by rewrite E in Hvs).
    rewrite Hh. cbn [mbind option_bind].
    destruct (put_effect s (st_index s) (st_heap s) h k val (st_log s ++ [mkEvent (st_rev s + 1) k val])) as [Hinv' Hhist];
      [done|apply Hinv|apply Hinv|done|done|done|done|done|]. eexists. split_and!; done.
  - destruct (btree_insert_spec (st_index s) k (length (st_heap s)) (inv_index s Hinv)) as (index & -> & Hwf & _ & Hin).
    fold (index_list s) in Hin. cbn [mbind option_bind]. rewrite lookup_app_r, Nat.sub_diag by lia. cbn [lookup list_lookup mbind option_bind].
    assert (hist_of s k = None) as Hnone by (unfold hist_of; by rewrite E).
    pose proof (ins_fresh k (length (st_heap s)) (index_list s) E) as Hp.
    destruct (put_effect s index (st_heap s ++ [[]]) (length (st_heap s)) k val (st_log s ++ [mkEvent (st_rev s + 1) k val])) as [Hinv' Hhist];
      [done|done|rewrite Hin|rewrite Hin|rewrite Hin|rewrite Hin|rewrite Hnone| |].
    + rewrite Hp. cbn. constructor; [|apply Hinv]. intros Hbad. eapply Forall_forall in Hbad; [|exact Hheap]. cbn in Hbad. lia.
    + rewrite Hp. cbn. constructor; [rewrite length_app; cbn; lia|].
      eapply Forall_impl; [exact Hheap|]. cbn. intros. rewrite length_app. lia.
    + intros k' Hk'. rewrite find_key_ins by apply (inv_index s Hinv). by rewrite decide_False.
    + rewrite find_key_ins by apply (inv_index s Hinv). by rewrite decide_True, E.
    + by rewrite lookup_app_r, Nat.sub_diag by lia.
    + intros i _ Hi. by rewrite lookup_app_l.
    + rewrite Hnone in *. eexists. split_and!; done.
Qed.

(** ** Compaction *)

Lemma fold_alter {A} (f : A -> A) (hs : list nat) (heap : list A) i :
  NoDup hs -> foldl (fun heap h => alter f h heap) heap hs !! i = if decide (i ∈ hs) then f <$> heap !! i else heap !! i.
Proof.
  intros Hnd. revert heap. induction Hnd as [|h hs Hh _ IH]; intros heap; cbn [foldl].
  { rewrite decide_False; [done|]. apply not_elem_of_nil. }
  rewrite IH. destruct (decide (i = h)) as [->|Hne].
  - rewrite decide_False, decide_True by (done || by left). apply list_lookup_alter_eq.
  - rewrite list_lookup_alter_ne by done. destruct (decide (i ∈ hs)).
    + by rewrite decide_True by by right.
    + rewrite decide_False; [done|]. by rewrite not_elem_of_cons.
Qed.

Lemma fold_alter_length {A} (f : A -> A) (hs : list nat) (heap : list A) :
  length (foldl (fun heap h => alter f h heap) heap hs) = length heap.
Proof. revert heap. induction hs as [|h hs IH]; intros heap; cbn; [done|]. rewrite IH. apply length_alter. Qed.

Lemma history_ok_compact rev c h : history_ok rev h -> history_ok rev (keyHistory_compact c h).
Proof.
  intros (Hne & Hs & Hb). destruct h as [|x i _] using rev_ind; [done|]. rewrite keyHistory_compact_spec.
  apply StronglySorted_app in Hs as (Hlt & Hsi & Hsx). apply Forall_app in Hb as [Hbi Hbx]. split_and!.
  - by destruct (filter _ i).
  - apply StronglySorted_app_2; [|by apply StronglySorted_filter|done]. intros a b [_ Ha]%list_elem_of_filter. by apply Hlt.
  - apply Forall_app. split; [|done]. apply Forall_forall. intros v [_ Hv]%list_elem_of_filter. revert v Hv. by apply Forall_forall.
Qed.

Lemma Store_Compact_spec c s :
  store_inv s ->
  exists s', Store_Compact c s = Some s' /\ store_inv s' /\ st_rev s' = st_rev s /\ st_log s' = st_log s /\
    st_index s' = st_index s /\ forall k, hist_of s' k = keyHistory_compact c <$> hist_of s k.
Proof.
  intros Hinv. unfold Store_Compact. rewrite allHistories_spec by apply Hinv. fold (index_list s). cbn [mbind option_bind].
  eexists. split; [done|].
  match goal with |- store_inv ?x /\ _ => set (s' := x) end.
  assert (forall k, hist_of s' k = keyHistory_compact c <$> hist_of s k) as Hhist.
  { intros k. unfold hist_of. change (index_list s') with (index_list s).
    destruct (find_key k (index_list s)) as [h|] eqn:E; cbn; [|done].
    rewrite fold_alter by apply Hinv. rewrite decide_True; [done|].
    apply list_elem_of_fmap. exists (k, h). split; [done|]. by apply find_key_elem_of. }
  assert (length (st_heap s') = length (st_heap s)) as Hlen by apply fold_alter_length.
  split_and!; [|done..]. split; [apply Hinv|apply Hinv| |apply Hinv|].
  - rewrite Hlen. apply Hinv.
  - intros k h. rewrite Hhist, fmap_Some. intros (h0 & Hh0 & ->). by apply history_ok_compact, (inv_hist s Hinv k).
Qed.

(** ** Runs *)

Inductive store_op := OpPut (key : string) (val : list Z) | OpCompact (rev : Z).

Definition Store_step (s : Store) (o : store_op) : option Store :=
  match o with OpPut key val => fst <$> Store_Put key val s | OpCompact rev => Store_Compact rev s end.

Definition Store_run (ops : list store_op) : option Store := foldl (fun o op => s ← o; Store_step s op) (Some Store_New) ops.

Lemma Store_New_inv : store_inv Store_New.
Proof. split; cbn; [apply newBtree_wf|constructor|constructor|lia|done]. Qed.

Lemma Store_run_inv ops :
  Z.of_nat (length ops) <= MaxInt64 ->
  exists s, Store_run ops = Some s /\ store_inv s /\ st_rev s <= Z.of_nat (length ops).
Proof.
  induction ops as [|o ops IH] using rev_ind; intros Hlen.
  { exists Store_New. split_and!; [done|apply Store_New_inv|done]. }
  rewrite length_app in *. cbn [length] in *. destruct IH as (s & Hs & Hinv & Hrev); [lia|].
  unfold Store_run in *. rewrite foldl_app, Hs. cbn [foldl mbind option_bind]. destruct o as [k v|c]; cbn [Store_step].
  - destruct (Store_Put_spec k v s) as (s' & -> & Hinv' & Hrev' & _); [done|int_lia|]. exists s'. split_and!; [done|done|lia].
  - destruct (Store_Compact_spec c s) as (s' & -> & Hinv' & Hrev' & _); [done|]. exists s'. split_and!; [done|done|lia].
Qed.

(** The events of a sequence of puts, from revision 1. *)
Definition events (puts : list (string * list Z)) : list Event :=
  imap (fun i kv => mkEvent (Z.of_nat i + 1) kv.1 kv.2) puts.
Definition ver (e : Event) : Version := mkVersion (ev_Rev e) (ev_Value e).

Lemma events_snoc puts kv : events (puts ++ [kv]) = events puts ++ [mkEvent (Z.of_nat (length puts) + 1) kv.1 kv.2].
Proof. unfold events. rewrite imap_app. cbn. by rewrite Nat.add_0_r. Qed.

Lemma events_lookup puts i e : events puts !! i = Some e -> ev_Rev e = Z.of_nat i + 1.
Proof. unfold events. rewrite list_lookup_imap, fmap_Some. by intros (kv & _ & ->). Qed.

Lemma events_take puts n : take n (events puts) = events (take n puts).
Proof.
  apply list_eq. intros i. unfold events. rewrite list_lookup_imap, !lookup_take. case_decide; [|done]. by rewrite list_lookup_imap.
Qed.

Lemma events_upto puts r : 0 <= r -> filter (fun e => ev_Rev e <= r) (events puts) = events (take (Z.to_nat r) puts).
Proof.
  intros Hr. rewrite <- events_take. apply filter_take; apply Forall_forall; intros e [i Hi]%list_elem_of_lookup.
  - apply lookup_take_Some in Hi as [Hi Hlt]. apply events_lookup in Hi. lia.
  - rewrite lookup_drop in Hi. apply events_lookup in Hi. lia.
Qed.

Lemma events_after puts r : filter (fun e => ev_Rev e > r) (events puts) = drop (Z.to_nat r) (events puts).
Proof.
  rewrite <- (take_drop (Z.to_nat r) (events puts)) at 1. rewrite filter_app, filter_none, app_nil_l.
  - rewrite <- (app_nil_r (drop _ _)) at 2. rewrite <- (take_ge (drop (Z.to_nat r) (events puts)) (length (events puts))) at 2
      by (rewrite length_drop; lia).
    rewrite app_nil_r. apply filter_take; apply Forall_forall; intros e [i Hi]%list_elem_of_lookup.
    + apply lookup_take_Some in Hi as [Hi _]. rewrite lookup_drop in Hi. apply events_lookup in Hi. lia.
    + rewrite lookup_drop, lookup_drop in Hi. apply lookup_lt_Some in Hi. lia.
  - apply Forall_forall. intros e [i Hi]%list_elem_of_lookup. apply lookup_take_Some in Hi as [Hi Hlt]. apply events_lookup in Hi. lia.
Qed.

(** The value a key has after a sequence of puts. *)
Definition last_put (k : string) (puts : list (string * list Z)) : option (list Z) :=
  snd <$> last (filter (fun kv => kv.1 = k) puts).

Definition versions_of (k : string) (puts : list (string * list Z)) : keyHistory :=
  ver <$> filter (fun e => ev_Key e = k) (events puts).

Lemma versions_of_snoc k puts kv :
  versions_of k (puts ++ [kv]) =
    if decide (kv.1 = k) then versions_of k puts ++ [mkVersion (Z.of_nat (length puts) + 1) kv.2] else versions_of k puts.
Proof.
  unfold versions_of. rewrite events_snoc, filter_app, filter_cons. cbn [ev_Key].
  case_decide; rewrite filter_nil, fmap_app; [done|]. by rewrite app_nil_r.
Qed.

Lemma last_versions k puts : Value <$> last (versions_of k puts) = last_put k puts.
Proof.
  induction puts as [|kv puts IH] using rev_ind; [done|]. unfold last_put in *.
  rewrite versions_of_snoc, filter_app, filter_cons, filter_nil. case_decide; [by rewrite !last_snoc|]. by rewrite app_nil_r.
Qed.

Lemma live_versions k puts r :
  Value <$> live_at (versions_of k puts) r = last_put k (if decide (r <= 0) then puts else take (Z.to_nat r) puts).
Proof.
  unfold live_at. destruct (decide (r <= 0)) as [|Hr]; [apply last_versions|]. rewrite <- last_versions. do 2 f_equal.
  unfold versions_of. rewrite <- events_upto by lia. rewrite filter_comm.
  induction (filter (fun e => ev_Key e = k) (events puts)) as [|e l IH]; [done|].
  rewrite fmap_cons, !filter_cons. cbn [ver ModRev]. case_decide; [|done]. rewrite fmap_cons. by f_equal.
Qed.

Definition put_all (puts : list (string * list Z)) : list store_op := (fun kv => OpPut kv.1 kv.2) <$> puts.

Lemma put_all_spec puts :
  Z.of_nat (length puts) <= MaxInt64 ->
  exists s, Store_run (put_all puts) = Some s /\ store_inv s /\ st_rev s = Z.of_nat (length puts) /\
    st_log s = events puts /\ forall k, default [] (hist_of s k) = versions_of k puts.
Proof.
  induction puts as [|kv puts IH] using rev_ind; intros Hlen.
  { exists Store_New. split_and!; [done|apply Store_New_inv|done..]. }
  rewrite length_app in *. cbn [length] in *. destruct IH as (s & Hs & Hinv & Hrev & Hlog & Hhist); [lia|].
  destruct (Store_Put_spec kv.1 kv.2 s) as (s' & Hput & Hinv' & Hrev' & Hlog' & Hhist'); [done|int_lia|].
  exists s'. unfold put_all, Store_run in *. rewrite fmap_app, foldl_app, Hs. cbn [fmap list_fmap foldl mbind option_bind Store_step].
  rewrite Hput. split_and!; [done|done|lia|by rewrite Hlog', Hlog, events_snoc, Hrev|].
  intros k. rewrite Hhist', versions_of_snoc, Hrev. case_decide as Hk; [|apply Hhist]. subst k. cbn. by rewrite Hhist.
Qed.

(** ** Properties *)

(** C5: time-travel reads.  After any sequence of puts (fewer than [2^63]) the
    store has not panicked, its revision is their number, and [Get key r] returns
    the value of the last put to [key] among the first [r] puts (the latest for
    [r <= 0], nothing if there is none); [Watch r] replays exactly the puts after the
    first [r] with their revisions, and [Range] lists the keys put, once, in order. *)
Theorem mvcc_time_travel puts :
  Z.of_nat (length puts) <= MaxInt64 ->
  exists s, Store_run (put_all puts) = Some s /\ Store_Rev s = Z.of_nat (length puts) /\
    (forall k r, Store_Get k r s = Some (last_put k (if decide (r <= 0) then puts else take (Z.to_nat r) puts))) /\
    (forall r, Store_Watch r s = drop (Z.to_nat r) (events puts)) /\
    (forall start end_, exists ks, Store_Range start end_ s = Some ks /\ StronglySorted slt ks /\
       forall k, k ∈ ks <-> is_Some (last_put k puts) /\ ¬ slt k start /\ (end_ = EmptyString \/ slt k end_)).
Proof.
  intros Hlen. destruct (put_all_spec puts Hlen) as (s & Hs & Hinv & Hrev & Hlog & Hhist). exists s.
  split_and!; [done|done|..].
  - intros k r. rewrite Store_Get_live by done. f_equal. rewrite <- live_versions, <- Hhist.
    destruct (hist_of s k); cbn; [done|]. unfold live_at. by case_decide.
  - intros r. unfold Store_Watch. rewrite Hlog. apply events_after.
  - intros start end_. destruct (rangeKeys_sorted (st_index s) start end_ (inv_index s Hinv)) as (ks & Hks & Hsorted & Hk).
    exists ks. split_and!; [done..|]. intros k. rewrite Hk. fold (index_list s).
    rewrite <- find_key_is_Some, <- hist_of_is_Some by done. apply and_iff_compat_r.
    rewrite <- last_versions, <- Hhist, fmap_is_Some, last_is_Some.
    destruct (hist_of s k) as [h|] eqn:E; cbn; [|split; [by intros [??]|done]].
    split; [|by eexists]. intros _. by apply (inv_hist s Hinv k h).
Qed.

(** Compaction loses exactly what it should.  In any state reached by puts and
    compactions, [Compact rev] does not panic, leaves revision, [Range] and [Watch]
    unchanged, and a read that saw version [v] sees it afterwards exactly when [v] is
    its key's latest version or has [ModRev >= rev]; otherwise it finds nothing. *)
Theorem mvcc_compact_exact ops rev :
  Z.of_nat (length ops) <= MaxInt64 ->
  exists s s', Store_run ops = Some s /\ Store_Compact rev s = Some s' /\
    Store_Rev s' = Store_Rev s /\ (forall r, Store_Watch r s' = Store_Watch r s) /\
    (forall start end_, Store_Range start end_ s' = Store_Range start end_ s) /\
    forall k r,
      Store_Get k r s = Some (h ← hist_of s k; Value <$> live_at h r) /\
      Store_Get k r s' =
        Some (h ← hist_of s k; v ← live_at h r;
              if decide (rev <= ModRev v \/ last h = Some v) then Some (Value v) else None).
Proof.
  intros Hlen. destruct (Store_run_inv ops Hlen) as (s & Hs & Hinv & _).
  destruct (Store_Compact_spec rev s Hinv) as (s' & Hs' & Hinv' & Hrev & Hlog & Hindex & Hhist).
  exists s, s'. split_and!; [done|done|exact Hrev| | |].
  - intros r. unfold Store_Watch. by rewrite Hlog.
  - intros start end_. unfold Store_Range. by rewrite Hindex.
  - intros k r. rewrite !Store_Get_live, Hhist by done. destruct (hist_of s k) as [h|] eqn:E; cbn; [|done].
    split; [done|]. f_equal. rewrite live_at_compact by by apply (inv_hist s Hinv k h).
    destruct (live_at h r) as [v|]; cbn; [|done]. unfold survives. by repeat case_decide.
Qed.

Lemma mvcc_time_travel_witness :
  exists s, Store_run (put_all [("a", [1]); ("b", [2]); ("a", [3])]) = Some s /\
    Store_Get "a" 2 s = Some (Some [1]) /\ Store_Get "a" 0 s = Some (Some [3]).
Proof.
  destruct (mvcc_time_travel [("a", [1]); ("b", [2]); ("a", [3])]) as (s & Hs & _ & Hget & _); [by vm_compute|].
  exists s. split; [exact Hs|]. split; [apply (Hget "a" 2)|apply (Hget "a" 0)].
Defined.

(** The version of ["a"] written at revision 1 is live at revision 2 and lost by
    [Compact 2], although revision 2 is not older than the compaction. *)
Lemma mvcc_compact_exact_witness :
  exists s s', Store_run (put_all [("a", [1]); ("b", [2]); ("a", [3])]) = Some s /\ Store_Compact 2 s = Some s' /\
    Store_Get "a" 2 s = Some (Some [1]) /\ Store_Get "a" 2 s' = Some None.
Proof.
  destruct (mvcc_compact_exact (put_all [("a", [1]); ("b", [2]); ("a", [3])]) 2) as (s & s' & Hs & Hs' & _); [by vm_compute|].
  exists s, s'. split; [exact Hs|]. split; [exact Hs'|]. revert Hs'. injection Hs as <-. intros [= <-]. by vm_compute.
Defined.
