(* ===== verification/Voting.v ===== *)
(** * Split-brain-safe quorum decisions ([src/pkg/voting/voting.go])

    After a partition a node may lead the primary subcluster only with a strict
    majority of the known members in reach, or half of them and the tiebreak.  The
    theorems are about the decisions of different nodes taken together: never two
    leaders with disjoint views, and exactly one leading side of a two-way split. *)

From S2P Require Import Prelude.

Inductive voting_error :=
  | ErrLocalIDRequired | ErrNoMembers | ErrEmptyMember | ErrSelfNotMember
  | ErrWitnessRequired | ErrWitnessUnknown | ErrSelfNotReachable.

Inductive Reason := ReasonHasMajority | ReasonLostQuorum | ReasonTieWon | ReasonTieLost.

Record Decision := mkDecision {
  dec_CanLeadPrimary : bool; dec_Reason : Reason; dec_Reachable : nat; dec_Total : nat; dec_Quorum : nat }.

Inductive TiebreakMode := TiebreakNone | TiebreakLowestID | TiebreakWitness.

#[export] Instance TiebreakMode_eq_dec : EqDecision TiebreakMode.
Proof. solve_decision. Defined.

Record VotingConfig := mkVotingConfig {
  cfg_LocalID : string; cfg_Members : list string; cfg_Tiebreak : TiebreakMode; cfg_WitnessID : string }.

Record QuorumDecider := mkQuorumDecider {
  qd_localID : string; qd_members : list string; qd_memberOf : gset string; qd_tiebreak : TiebreakMode; qd_witness : string }.

(** The loop that collects the members; [None] is an empty ID. *)
Fixpoint collect_members (members : list string) (set : gset string) : option (gset string) :=
  match members with
  | [] => Some set
  | m :: members => if decide (m = EmptyString) then None else collect_members members ({[m]} ∪ set)
  end.

Definition NewQuorumDecider (cfg : VotingConfig) : voting_error + QuorumDecider :=
  if decide (cfg_LocalID cfg = EmptyString) then inl ErrLocalIDRequired
  else if decide (length (cfg_Members cfg) = 0) then inl ErrNoMembers
  else match collect_members (cfg_Members cfg) ∅ with
  | None => inl ErrEmptyMember
  | Some set =>
      if decide (cfg_LocalID cfg ∉ set) then inl ErrSelfNotMember
      else if decide (cfg_Tiebreak cfg = TiebreakWitness /\ cfg_WitnessID cfg = EmptyString) then inl ErrWitnessRequired
      else if decide (cfg_Tiebreak cfg = TiebreakWitness /\ cfg_WitnessID cfg ∉ set) then inl ErrWitnessUnknown
      else inr (mkQuorumDecider (cfg_LocalID cfg) (sort_strings (elements set)) set (cfg_Tiebreak cfg) (cfg_WitnessID cfg))
  end.

Definition QuorumDecider_Quorum (d : QuorumDecider) : nat := length (qd_members d) `div` 2 + 1.
Definition QuorumDecider_Total (d : QuorumDecider) : nat := length (qd_members d).

Definition tiebreakWins (d : QuorumDecider) (reachableSet : gset string) : option bool :=
  match qd_tiebreak d with
  | TiebreakLowestID => m ← qd_members d !! 0; Some (bool_decide (m ∈ reachableSet))
  | TiebreakWitness => Some (bool_decide (qd_witness d ∈ reachableSet))
  | TiebreakNone => Some false
  end.

(** The counting loop of [Decide]: the members seen, whether self was, the count. *)
Fixpoint count_reachable (d : QuorumDecider) (reachable : list string) (seen : gset string) (self : bool) (count : nat) : gset string * bool * nat :=
  match reachable with
  | [] => (seen, self, count)
  | r :: reachable =>
      let self := if decide (r = qd_localID d) then true else self in
      if decide (r ∉ qd_memberOf d) then count_reachable d reachable seen self count
      else if decide (r ∈ seen) then count_reachable d reachable seen self count
      else count_reachable d reachable ({[r]} ∪ seen) self (count + 1)
  end.

(** [None] is the panic of [members[0]] on an empty list. *)
Definition QuorumDecider_Decide (d : QuorumDecider) (reachable : list string) : option (voting_error + Decision) :=
  let n := length (qd_members d) in
  let quorum := QuorumDecider_Quorum d in
  let '(seen, selfReachable, count) := count_reachable d reachable ∅ false 0 in
  if negb selfReachable then Some (inl ErrSelfNotReachable)
  else if decide (quorum <= count) then Some (inr (mkDecision true ReasonHasMajority count n quorum))
  else if decide (n `mod` 2 = 0 /\ count = n `div` 2) then
    wins ← tiebreakWins d seen;
    if (wins : bool) then Some (inr (mkDecision true ReasonTieWon count n quorum))
    else Some (inr (mkDecision false ReasonTieLost count n quorum))
  else Some (inr (mkDecision false ReasonLostQuorum count n quorum)).

Definition QuorumDecider_CanLeadPrimary (d : QuorumDecider) (reachable : list string) : option bool :=
  r ← QuorumDecider_Decide d reachable;
  match r with inl _ => Some false | inr dec => Some (dec_CanLeadPrimary dec) end.

(** ** What a decider is *)

(** Deciders built by [NewQuorumDecider]: sorted distinct members, self and, in
    witness mode, the witness among them. *)
Record decider_wf (d : QuorumDecider) : Prop := {
  wf_members : qd_members d = sort_strings (elements (qd_memberOf d));
  wf_self : qd_localID d ∈ qd_memberOf d;
  wf_witness : qd_tiebreak d = TiebreakWitness -> qd_witness d ∈ qd_memberOf d }.

Lemma NewQuorumDecider_inv cfg d :
  NewQuorumDecider cfg = inr d ->
  exists set, collect_members (cfg_Members cfg) ∅ = Some set /\ cfg_LocalID cfg ∈ set /\
    (cfg_Tiebreak cfg = TiebreakWitness -> cfg_WitnessID cfg ∈ set) /\
    d = mkQuorumDecider (cfg_LocalID cfg) (sort_strings (elements set)) set (cfg_Tiebreak cfg) (cfg_WitnessID cfg).
Proof.
  unfold NewQuorumDecider. destruct (decide (cfg_LocalID cfg = EmptyString)); [done|].
  destruct (decide (length (cfg_Members cfg) = 0)); [done|]. destruct (collect_members _ _) as [set|]; [|done].
  destruct (decide (cfg_LocalID cfg ∉ set)) as [|Hself]; [done|]. apply dec_stable in Hself.
  destruct (decide (cfg_Tiebreak cfg = TiebreakWitness /\ cfg_WitnessID cfg = EmptyString)); [done|].
  destruct (decide (cfg_Tiebreak cfg = TiebreakWitness /\ cfg_WitnessID cfg ∉ set)) as [|Hw]; [done|].
  intros [= <-]. exists set. split_and!; [done|done| |done]. intros Htb. destruct (decide (cfg_WitnessID cfg ∈ set)); tauto.
Qed.

Lemma NewQuorumDecider_wf cfg d : NewQuorumDecider cfg = inr d -> decider_wf d.
Proof. intros (set & _ & Hself & Hw & ->)%NewQuorumDecider_inv. by split. Qed.

Lemma collect_members_spec members set out :
  collect_members members set = Some out -> out = list_to_set members ∪ set.
Proof.
  revert set. induction members as [|m members IH]; intros set; cbn; [intros [= ->]; set_solver|].
  case_decide; [done|]. intros ->%IH. set_solver.
Qed.

Lemma NewQuorumDecider_members cfg d :
  NewQuorumDecider cfg = inr d ->
  qd_memberOf d = list_to_set (cfg_Members cfg) /\ qd_localID d = cfg_LocalID cfg /\
  qd_tiebreak d = cfg_Tiebreak cfg /\ qd_witness d = cfg_WitnessID cfg.
Proof.
  intros (set & ->%collect_members_spec & _ & _ & ->)%NewQuorumDecider_inv. cbn. split; [set_solver|done].
Qed.

Lemma members_length d : decider_wf d -> length (qd_members d) = size (qd_memberOf d).
Proof. intros Hwf. rewrite (wf_members d Hwf). by rewrite sort_strings_perm. Qed.

(** The member an even split is decided by. *)
Definition anchor (d : QuorumDecider) : option string :=
  match qd_tiebreak d with
  | TiebreakLowestID => head (qd_members d)
  | TiebreakWitness => Some (qd_witness d)
  | TiebreakNone => None
  end.

Lemma anchor_member d a : decider_wf d -> anchor d = Some a -> a ∈ qd_memberOf d.
Proof.
  intros Hwf. unfold anchor. destruct (qd_tiebreak d) eqn:E; [done| |intros [= <-]; by apply wf_witness].
  intros Ha%head_Some_elem_of. rewrite (wf_members d Hwf), sort_strings_perm in Ha. by apply elem_of_elements.
Qed.

Lemma anchor_is_Some d : decider_wf d -> qd_tiebreak d <> TiebreakNone -> is_Some (anchor d).
Proof.
  intros Hwf Hmode. unfold anchor. destruct (qd_tiebreak d); [done| |by eexists].
  pose proof (members_length d Hwf) as Hlen. destruct (qd_members d); [|by eexists]. exfalso.
  symmetry in Hlen. apply size_empty_inv in Hlen. pose proof (wf_self d Hwf). set_solver.
Qed.

Lemma count_reachable_spec d reachable seen self count :
  size seen = count ->
  count_reachable d reachable seen self count =
    let out := (list_to_set reachable ∩ qd_memberOf d) ∪ seen in
    (out, self || bool_decide (qd_localID d ∈ reachable), size out).
Proof.
  revert seen self count. induction reachable as [|r reachable IH]; intros seen self count Hcount; cbn [count_reachable].
  - assert (list_to_set [] ∩ qd_memberOf d ∪ seen = seen) as -> by set_solver.
    rewrite bool_decide_false, orb_false_r, Hcount; [done|]. apply not_elem_of_nil.
  - assert ((if decide (r = qd_localID d) then true else self) || bool_decide (qd_localID d ∈ reachable) =
      self || bool_decide (qd_localID d ∈ r :: reachable)) as Hself.
    { apply eq_bool_prop_intro. rewrite !Is_true_true, !orb_true_iff, !bool_decide_eq_true, elem_of_cons.
      destruct (decide (r = qd_localID d)); intuition congruence. }
    destruct (decide (r ∉ qd_memberOf d)) as [Hr|Hr]; [|destruct (decide (r ∈ seen)) as [Hs|Hs]]; rewrite IH, Hself; try done; cbv zeta.
    + assert (list_to_set (r :: reachable) ∩ qd_memberOf d ∪ seen = list_to_set reachable ∩ qd_memberOf d ∪ seen) as -> by set_solver.
      done.
    + assert (list_to_set (r :: reachable) ∩ qd_memberOf d ∪ seen = list_to_set reachable ∩ qd_memberOf d ∪ seen) as -> by set_solver.
      done.
    + apply dec_stable in Hr.
      assert (list_to_set (r :: reachable) ∩ qd_memberOf d ∪ seen = list_to_set reachable ∩ qd_memberOf d ∪ ({[r]} ∪ seen)) as -> by set_solver.
      done.
    + rewrite size_union, size_singleton by set_solver. lia.
Qed.

(** The members in reach. *)
Definition in_reach (d : QuorumDecider) (reachable : list string) : gset string := list_to_set reachable ∩ qd_memberOf d.

(** ** The rule *)

Lemma tiebreakWins_spec d reachable :
  decider_wf d ->
  exists b, tiebreakWins d (in_reach d reachable) = Some b /\ (b = true <-> exists a, anchor d = Some a /\ a ∈ reachable).
Proof.
  intros Hwf. pose proof (anchor_member d) as Hanchor. unfold tiebreakWins, anchor in *.
  assert (forall a, a ∈ qd_memberOf d -> a ∈ in_reach d reachable <-> a ∈ reachable) as Hin.
  { intros a Ha. unfold in_reach. rewrite elem_of_intersection, elem_of_list_to_set. tauto. }
  destruct (qd_tiebreak d) eqn:E.
  - exists false. split; [done|]. split; [done|]. by intros (? & ? & ?).
  - destruct (qd_members d) as [|m ms] eqn:Em.
    + pose proof (anchor_is_Some d Hwf) as Hsome. unfold anchor in Hsome. rewrite E, Em in Hsome. by destruct Hsome.
    + eexists. split; [done|]. rewrite bool_decide_eq_true, Hin by (apply Hanchor; [done|by rewrite ?Em]). cbn. naive_solver.
  - eexists. split; [done|]. rewrite bool_decide_eq_true, Hin by by apply wf_witness. naive_solver.
Qed.

Lemma can_lead_spec d reachable :
  decider_wf d ->
  exists b, QuorumDecider_CanLeadPrimary d reachable = Some b /\
  (b = true <-> qd_localID d ∈ reachable /\
    (size (qd_memberOf d) < 2 * size (in_reach d reachable) \/
     (size (qd_memberOf d) = 2 * size (in_reach d reachable) /\ exists a, anchor d = Some a /\ a ∈ reachable))).
Proof.
  intros Hwf. unfold QuorumDecider_CanLeadPrimary, QuorumDecider_Decide. rewrite count_reachable_spec by apply size_empty.
  cbv zeta. fold (in_reach d reachable). assert (in_reach d reachable ∪ ∅ = in_reach d reachable) as -> by set_solver.
  cbn [orb]. unfold QuorumDecider_Quorum. rewrite (members_length d Hwf). set (n := size (qd_memberOf d)).
  set (c := size (in_reach d reachable)). case_bool_decide as Hself; cbn [negb]; [|by eexists; split; [done|]; naive_solver].
  destruct (tiebreakWins_spec d reachable Hwf) as (b & Hb & Hwin). set (win := exists a, _) in *.
  pose proof (Nat.div_mod_eq n 2). pose proof (Nat.mod_upper_bound n 2).
  destruct (decide (n `div` 2 + 1 <= c)) as [Hmaj|Hmaj].
  { eexists. split; [done|]. cbn. split; [|done]. intros _. split; [done|]. left. lia. }
  destruct (decide (n `mod` 2 = 0 /\ c = n `div` 2)) as [[Heven Hhalf]|Hno].
  - rewrite Hb. exists b. split; [by destruct b|]. rewrite Hwin. split; [intros Hw; split; [done|right; split; [lia|done]]|].
    intros [_ [?|[_ ?]]]; [lia|done].
  - eexists. split; [done|]. cbn. split; [done|]. intros [_ [?|[? _]]]; exfalso; [lia|]. apply Hno.
    rewrite Nat.Div0.mod_eq. lia.
Qed.

(** Nodes of one cluster agree on the members and on the tiebreak. *)
Definition same_cluster (a b : VotingConfig) : Prop :=
  list_to_set (cfg_Members a) =@{gset string} list_to_set (cfg_Members b) /\
  cfg_Tiebreak a = cfg_Tiebreak b /\ cfg_WitnessID a = cfg_WitnessID b.

Section cluster.
Context (cfgA cfgB : VotingConfig) (dA dB : QuorumDecider).
Context (HA : NewQuorumDecider cfgA = inr dA) (HB : NewQuorumDecider cfgB = inr dB) (Hsame : same_cluster cfgA cfgB).

Lemma same_members : qd_memberOf dA = list_to_set (cfg_Members cfgA) /\ qd_memberOf dB = qd_memberOf dA.
Proof using All.
  apply NewQuorumDecider_members in HA as (-> & _), HB as (-> & _). destruct Hsame as (Hm & _). by rewrite Hm.
Qed.

Lemma same_anchor : anchor dB = anchor dA.
Proof using All.
  pose proof (wf_members dA (NewQuorumDecider_wf _ _ HA)) as Ha. pose proof (wf_members dB (NewQuorumDecider_wf _ _ HB)) as Hb.
  destruct same_members as [_ Hm]. rewrite Hm, <- Ha in Hb. unfold anchor. rewrite Hb.
  apply NewQuorumDecider_members in HA as (_ & _ & -> & ->), HB as (_ & _ & -> & ->).
  destruct Hsame as (_ & -> & ->). done.
Qed.

(** Views that miss each other cannot both hold half of the cluster twice over. *)
Lemma disjoint_views ra rb :
  (forall m, m ∈ cfg_Members cfgA -> m ∈ ra -> m ∉ rb) ->
  size (in_reach dA ra) + size (in_reach dB rb) <= size (qd_memberOf dA).
Proof using All.
  intros Hdis. destruct same_members as [Hm HmB]. unfold in_reach. rewrite HmB.
  rewrite <- size_union by set_solver. apply subseteq_size. set_solver.
Qed.
End cluster.

(** C7: no split brain.  Take any two nodes of one cluster (same members and
    tiebreak) with whatever views of who is reachable.  If both may lead the primary,
    some member is in both views: two sides that cannot see each other never both
    lead, in any mode and for any number of partitions. *)
Theorem voting_no_split_brain cfgA cfgB dA dB ra rb :
  NewQuorumDecider cfgA = inr dA -> NewQuorumDecider cfgB = inr dB -> same_cluster cfgA cfgB ->
  QuorumDecider_CanLeadPrimary dA ra = Some true -> QuorumDecider_CanLeadPrimary dB rb = Some true ->
  exists m, m ∈ cfg_Members cfgA /\ m ∈ ra /\ m ∈ rb.
Proof.
  intros HA HB Hsame Ha Hb.
  destruct (decide (Exists (fun m => m ∈ ra /\ m ∈ rb) (cfg_Members cfgA))) as [(m & ? & ?)%Exists_exists|Hno]; [by exists m|exfalso].
  assert (forall m, m ∈ cfg_Members cfgA -> m ∈ ra -> m ∉ rb) as Hdis.
  { intros m Hm Hma Hmb. apply Hno, Exists_exists. by exists m. }
  pose proof (disjoint_views _ _ _ _ HA HB Hsame ra rb Hdis) as Hsize.
  destruct (same_members _ _ _ _ HA HB Hsame) as [HmA HmB]. pose proof (same_anchor _ _ _ _ HA HB Hsame) as Hanchor.
  pose proof (NewQuorumDecider_wf _ _ HA) as HwfA. pose proof (NewQuorumDecider_wf _ _ HB) as HwfB.
  destruct (can_lead_spec dA ra HwfA) as (b & Hb1 & Hb2). rewrite Ha in Hb1. injection Hb1 as <-.
  destruct (can_lead_spec dB rb HwfB) as (b' & Hb1' & Hb2'). rewrite Hb in Hb1'. injection Hb1' as <-.
  destruct (proj1 Hb2 eq_refl) as [_ HleadA]. destruct (proj1 Hb2' eq_refl) as [_ HleadB]. rewrite HmB in HleadB.
  destruct HleadA as [?|(? & a & Haa & Hara)], HleadB as [?|(? & a' & Haa' & Harb)]; try lia.
  rewrite Hanchor in Haa'. simplify_eq. apply (Hdis a); [|done..].
  apply (anchor_member dA a HwfA) in Haa. rewrite HmA in Haa. set_solver.
Qed.

(** Exactly one side survives a two-way split.  When the members split into two
    disjoint sides and each side sees itself, then with a tiebreak configured (or
    sides of different size) every node of one side may lead and no node of the other
    may: an even split never stops the whole cluster. *)
Theorem voting_one_side_leads cfgA cfgB dA dB sideA sideB :
  NewQuorumDecider cfgA = inr dA -> NewQuorumDecider cfgB = inr dB -> same_cluster cfgA cfgB ->
  list_to_set sideA ∪ list_to_set sideB =@{gset string} list_to_set (cfg_Members cfgA) ->
  (forall m, m ∈ sideA -> m ∉ sideB) -> cfg_LocalID cfgA ∈ sideA -> cfg_LocalID cfgB ∈ sideB ->
  (cfg_Tiebreak cfgA <> TiebreakNone \/
   size (list_to_set sideA : gset string) <> size (list_to_set sideB : gset string)) ->
  exists b, QuorumDecider_CanLeadPrimary dA sideA = Some b /\ QuorumDecider_CanLeadPrimary dB sideB = Some (negb b).
Proof.
  intros HA HB Hsame Hcover Hdis HlocA HlocB Hmode.
  destruct (same_members _ _ _ _ HA HB Hsame) as [HmA HmB]. pose proof (same_anchor _ _ _ _ HA HB Hsame) as Hanchor.
  pose proof (NewQuorumDecider_wf _ _ HA) as HwfA. pose proof (NewQuorumDecider_wf _ _ HB) as HwfB.
  destruct (NewQuorumDecider_members _ _ HA) as (_ & HidA & HtbA & _), (NewQuorumDecider_members _ _ HB) as (_ & HidB & _ & _).
  destruct (can_lead_spec dA sideA HwfA) as (b & -> & Hb). destruct (can_lead_spec dB sideB HwfB) as (b' & -> & Hb').
  assert (in_reach dA sideA = list_to_set sideA) as HrA by (unfold in_reach; set_solver).
  assert (in_reach dB sideB = list_to_set sideB) as HrB by (unfold in_reach; set_solver).
  rewrite HrA, HidA in Hb. rewrite HrB, HidB, HmB, Hanchor in Hb'. 
  assert (size (qd_memberOf dA) = size (list_to_set sideA : gset string) + size (list_to_set sideB : gset string)) as Hn
    by (rewrite HmA, <- Hcover; apply size_union; set_solver).
  set (na := size (list_to_set sideA)) in *. set (nb := size (list_to_set sideB)) in *.
  exists b. split; [done|]. f_equal. destruct (decide (na = nb)) as [Heq|Hne].
  - destruct Hmode as [Hmode|]; [|done]. 
    destruct (anchor_is_Some dA HwfA) as [a Ha]; [congruence|].
    assert (a ∈ sideA \/ a ∈ sideB) as Hside.
    { pose proof (anchor_member dA a HwfA Ha) as Hm. rewrite HmA, <- Hcover in Hm. set_solver. }
    assert (forall side : list string, (exists a0, anchor dA = Some a0 /\ a0 ∈ side) <-> a ∈ side) as Hw by naive_solver.
    rewrite Hw in Hb, Hb'. destruct Hside as [Hs|Hs].
    + assert (b = true) as -> by (apply Hb; split; [done|]; right; split; [lia|done]).
      destruct b'; [|done]. destruct (proj1 Hb' eq_refl) as [_ [?|[_ ?]]]; [lia|]. by destruct (Hdis a).
    + assert (b' = true) as -> by (apply Hb'; split; [done|]; right; split; [lia|done]).
      destruct b; [|done]. destruct (proj1 Hb eq_refl) as [_ [?|[_ ?]]]; [lia|]. by destruct (Hdis a).
  - destruct (decide (nb < na)).
    + assert (b = true) as -> by (apply Hb; split; [done|]; left; lia). destruct b'; [|done]. destruct (proj1 Hb' eq_refl) as [_ [?|[? _]]]; lia.
    + assert (b' = true) as -> by (apply Hb'; split; [done|]; left; lia). destruct b; [|done]. destruct (proj1 Hb eq_refl) as [_ [?|[? _]]]; lia.
Qed.

Definition demo_voting (id : string) : VotingConfig := mkVotingConfig id ["a"; "b"; "c"; "d"] TiebreakLowestID EmptyString.
Definition demo_decider (id : string) : QuorumDecider :=
  mkQuorumDecider id ["a"; "b"; "c"; "d"] (list_to_set ["a"; "b"; "c"; "d"]) TiebreakLowestID EmptyString.

Lemma voting_no_split_brain_witness :
  exists m, m ∈ cfg_Members (demo_voting "a") /\ m ∈ ["a"; "b"; "c"] /\ m ∈ ["d"; "c"; "a"; "zz"].
Proof.
  apply (voting_no_split_brain (demo_voting "a") (demo_voting "d") (demo_decider "a") (demo_decider "d")
    ["a"; "b"; "c"] ["d"; "c"; "a"; "zz"]); [by vm_compute|by vm_compute|by split|by vm_compute|by vm_compute].
Defined.

Lemma voting_one_side_leads_witness :
  exists b, QuorumDecider_CanLeadPrimary (demo_decider "c") ["c"; "d"] = Some b /\
    QuorumDecider_CanLeadPrimary (demo_decider "a") ["a"; "b"] = Some (negb b).
Proof.
  apply (voting_one_side_leads (demo_voting "c") (demo_voting "a") (demo_decider "c") (demo_decider "a") ["c"; "d"] ["a"; "b"]);
    [by vm_compute|by vm_compute|by split|by vm_compute|set_solver|by_eval|by_eval|by left].
Defined.
