(* ===== verification/FailConfirm.v ===== *)
(** * Two-phase failure confirmation ([src/pkg/failconfirm/failconfirm.go])

    A target reported PFAIL by a quorum of distinct members becomes FAIL, once and
    for ever.  The injected clock is the list of readings the calls saw; the
    [OnDead] callback is the list of its invocations.  Correctness is stated
    against the history of reports, not against the detector's own tables. *)

From S2P Require Import Prelude.
Local Open Scope Z_scope.

Inductive fc_state := Alive | Suspect | Dead.

Definition State_String (s : fc_state) : string :=
  match s with Alive => "Alive" | Suspect => "Suspect" | Dead => "Dead" end.

Inductive fc_error := ErrTooFewMembers | ErrUnknownNode.

Record Detector := mkDetector {
  fd_members : gset string;
  fd_quorum : nat;
  fd_clock : bool;   (** a clock is configured *)
  fd_ttl : Z;
  fd_onDead : bool;  (** a callback is registered *)
  fd_susp : gmap string (gmap string Z);
  fd_dead : gset string;
  fd_fired : list string }.

(** [New] with the options [WithClock], [WithTTL] and [OnDead] applied. *)
Definition Detector_New (members : list string) (clock : bool) (ttl : Z) (onDead : bool) : fc_error + Detector :=
  let set : gset string := list_to_set members in
  if decide (size set = 0%nat) then inl ErrTooFewMembers
  else inr (mkDetector set (size set `div` 2 + 1) clock ttl onDead ∅ ∅ []).

Definition Detector_Quorum (d : Detector) : nat := fd_quorum d.
Definition Detector_Members (d : Detector) : list string := sort_strings (elements (fd_members d)).
Definition isMember (d : Detector) (n : string) : bool := bool_decide (n ∈ fd_members d).

(** [now] with the clock's reading [t]. *)
Definition Detector_now (d : Detector) (t : Z) : Z := if fd_clock d then t else 0.
Definition ttlActive (d : Detector) : bool := fd_clock d && bool_decide (fd_ttl d > 0).

Definition set_susp (d : Detector) (susp : gmap string (gmap string Z)) : Detector :=
  mkDetector (fd_members d) (fd_quorum d) (fd_clock d) (fd_ttl d) (fd_onDead d) susp (fd_dead d) (fd_fired d).

(** The deletion loop of [liveReporterCount]. *)
Definition prune (cutoff : Z) (reporters : gmap string Z) : gmap string Z :=
  range_fold (fun m r at_ => if decide (at_ <= cutoff) then delete r m else m) reporters reporters.

Definition liveReporterCount (target : string) (t : Z) (d : Detector) : Detector * nat :=
  match fd_susp d !! target with
  | None => (d, 0%nat)
  | Some reporters =>
      let reporters := if ttlActive d then prune (i64 (Detector_now d t - fd_ttl d)) reporters else reporters in
      (set_susp d (<[target := reporters]> (fd_susp d)), size reporters)
  end.

Definition promote (target : string) (d : Detector) : Detector :=
  if decide (target ∈ fd_dead d) then d
  else mkDetector (fd_members d) (fd_quorum d) (fd_clock d) (fd_ttl d) (fd_onDead d)
         (delete target (fd_susp d)) ({[target]} ∪ fd_dead d)
         (if fd_onDead d then fd_fired d ++ [target] else fd_fired d).

(** [t1] and [t2] are the clock readings of the stamp and of the expiry check. *)
Definition ReportPFAIL (reporter target : string) (t1 t2 : Z) (d : Detector) : Detector * option fc_error :=
  if negb (isMember d reporter) || negb (isMember d target) then (d, Some ErrUnknownNode)
  else if decide (target ∈ fd_dead d) then (d, None)
  else
    let reporters := default ∅ (fd_susp d !! target) in
    let d := set_susp d (<[target := <[reporter := Detector_now d t1]> reporters]> (fd_susp d)) in
    let '(d, count) := liveReporterCount target t2 d in
    if decide (fd_quorum d <= count)%nat then (promote target d, None) else (d, None).

Definition ClearPFAIL (reporter target : string) (d : Detector) : Detector * option fc_error :=
  if negb (isMember d reporter) || negb (isMember d target) then (d, Some ErrUnknownNode)
  else if decide (target ∈ fd_dead d) then (d, None)
  else match fd_susp d !! target with
       | None => (d, None)
       | Some reporters =>
           let reporters := delete reporter reporters in
           if decide (size reporters = 0%nat) then (set_susp d (delete target (fd_susp d)), None)
           else (set_susp d (<[target := reporters]> (fd_susp d)), None)
       end.

Definition Detector_State (target : string) (t : Z) (d : Detector) : Detector * fc_state :=
  if decide (target ∈ fd_dead d) then (d, Dead)
  else let '(d, count) := liveReporterCount target t d in
       if decide (0 < count)%nat then (d, Suspect) else (d, Alive).

Definition ReporterCount (target : string) (t : Z) (d : Detector) : Detector * nat :=
  if decide (target ∈ fd_dead d) then (d, fd_quorum d) else liveReporterCount target t d.

(** ** Histories *)

Inductive fc_event :=
  | FReport (reporter target : string) (t1 t2 : Z)
  | FClear (reporter target : string)
  | FState (target : string) (t : Z)
  | FCount (target : string) (t : Z).

Definition fc_step (d : Detector) (e : fc_event) : Detector :=
  match e with
  | FReport r tgt t1 t2 => (ReportPFAIL r tgt t1 t2 d).1
  | FClear r tgt => (ClearPFAIL r tgt d).1
  | FState tgt t => (Detector_State tgt t d).1
  | FCount tgt t => (ReporterCount tgt t d).1
  end.

Definition fc_run (d : Detector) (es : list fc_event) : Detector := foldl fc_step d es.

(** The clock readings of a history, in the order the code takes them. *)
Definition event_times (e : fc_event) : list Z :=
  match e with FReport _ _ t1 t2 => [t1; t2] | FClear _ _ => [] | FState _ t | FCount _ t => [t] end.
Definition times (es : list fc_event) : list Z := mbind event_times es.

(** Non-decreasing logical ticks. *)
Definition clock_ok (es : list fc_event) : Prop := StronglySorted Z.le (times es) /\ Forall (fun t => 0 <= t <= MaxInt64) (times es).

Section history.
Context (d0 : Detector).

(** The tick of [m]'s last report of [tgt], unless retracted since. *)
Definition tick_step (m tgt : string) (o : option Z) (e : fc_event) : option Z :=
  match e with
  | FReport r tgt' t1 _ =>
      if decide (r = m /\ tgt' = tgt /\ m ∈ fd_members d0 /\ tgt ∈ fd_members d0) then Some (Detector_now d0 t1) else o
  | FClear r tgt' => if decide (r = m /\ tgt' = tgt /\ m ∈ fd_members d0 /\ tgt ∈ fd_members d0) then None else o
  | _ => o
  end.
Definition last_tick (es : list fc_event) (m tgt : string) : option Z := foldl (tick_step m tgt) None es.

(** The report has not outlived the TTL at time [t]. *)
Definition fresh (t a : Z) : Prop := ttlActive d0 = true -> t - fd_ttl d0 < a.

#[export] Instance fresh_dec t a : Decision (fresh t a).
Proof. unfold fresh. apply _. Defined.

Definition live (es : list fc_event) (tgt : string) (t : Z) (m : string) : Prop :=
  from_option (fresh t) False (last_tick es m tgt).

#[export] Instance live_dec es tgt t m : Decision (live es tgt t m).
Proof. unfold live. destruct (last_tick es m tgt); cbn; apply _. Defined.

(** The distinct members whose report of [tgt] stands at time [t]. *)
Definition reporters_at (es : list fc_event) (tgt : string) (t : Z) : gset string :=
  filter (live es tgt t) (fd_members d0).

(** A report after which a strict majority of the members stands behind it. *)
Definition confirmed (es : list fc_event) (tgt : string) : Prop :=
  exists p r t1 t2 q, es = p ++ FReport r tgt t1 t2 :: q /\ r ∈ fd_members d0 /\ tgt ∈ fd_members d0 /\
    (size (fd_members d0) < 2 * size (reporters_at (p ++ [FReport r tgt t1 t2]) tgt t2))%nat.

End history.

(** ** Reporter tables against the history *)

Section tables.
Context (d0 : Detector).
Implicit Types (L : string -> option Z) (reps : gmap string Z).

(** [reps] holds only reports of [L], and all of them that are fresh from time [B] on. *)
Definition faithful L (B : Z) reps : Prop :=
  (forall m a, reps !! m = Some a -> L m = Some a) /\
  (forall m a T, B <= T -> L m = Some a -> fresh d0 T a -> reps !! m = Some a).

Lemma fresh_mono t t' a : t <= t' -> fresh d0 t' a -> fresh d0 t a.
Proof. unfold fresh. intros Ht Hf Hactive. specialize (Hf Hactive). lia. Qed.

Lemma faithful_later L B B' reps : B <= B' -> faithful L B reps -> faithful L B' reps.
Proof. intros HB [H1 H2]. split; [done|]. intros m a T HT. apply H2. lia. Qed.

Lemma faithful_ext L L' B reps : (forall m, L m = L' m) -> faithful L B reps -> faithful L' B reps.
Proof. intros HL [H1 H2]. split; intros m; [rewrite <- HL; apply H1|]. intros a T HT. rewrite <- HL. by apply H2. Qed.

Lemma faithful_insert L B reps r t :
  faithful L B reps -> faithful (fun m => if decide (r = m) then Some t else L m) B (<[r := t]> reps).
Proof.
  intros [H1 H2]. split.
  - intros m a. rewrite lookup_insert. case_decide; [done|]. apply H1.
  - intros m a T HT. rewrite lookup_insert. case_decide; [done|]. by apply H2.
Qed.

Lemma faithful_delete L B reps r :
  faithful L B reps -> faithful (fun m => if decide (r = m) then None else L m) B (delete r reps).
Proof.
  intros [H1 H2]. split.
  - intros m a. rewrite lookup_delete. case_decide; [done|]. apply H1.
  - intros m a T HT. rewrite lookup_delete. case_decide; [done|]. by apply H2.
Qed.

Lemma prune_lookup cutoff reps k :
  prune cutoff reps !! k = a ← reps !! k; if decide (a <= cutoff) then None else Some a.
Proof.
  unfold prune. rewrite (range_fold_slot _ (fun o a => if decide (a <= cutoff) then None else o)).
  - destruct (reps !! k); done.
  - intros out i v j. case_decide; [rewrite lookup_delete|]; case_decide; by subst.
Qed.

(** The table after an expiry check at time [t] with cutoff [t - ttl]. *)
Definition expire (t : Z) reps : gmap string Z := if ttlActive d0 then prune (i64 (t - fd_ttl d0)) reps else reps.

Lemma expire_exact L B t reps :
  faithful L B reps -> B <= t -> 0 <= t <= MaxInt64 -> is_i64 (fd_ttl d0) ->
  (forall m a, expire t reps !! m = Some a <-> L m = Some a /\ fresh d0 t a) /\ faithful L t (expire t reps).
Proof.
  intros [H1 H2] HB Ht Httl.
  assert (forall m a, expire t reps !! m = Some a <-> L m = Some a /\ fresh d0 t a) as Hexact.
  { intros m a. unfold expire, fresh. destruct (ttlActive d0) eqn:E.
    - assert (fd_ttl d0 > 0) as Hpos by (unfold ttlActive in E; apply andb_true_iff in E as [_ E]; by apply bool_decide_eq_true in E).
      rewrite i64_id by int_lia. rewrite prune_lookup. split.
      + destruct (reps !! m) as [a'|] eqn:Ha; cbn; [|done]. case_decide; [done|]. intros [= <-]. split; [by apply H1|lia].
      + intros [Ha Hf]. assert (reps !! m = Some a) as -> by (apply (H2 m a t HB Ha); unfold fresh; by rewrite E). cbn.
        rewrite decide_False by (specialize (Hf eq_refl); lia). done.
    - split; [intros Ha; split; [by apply H1|done]|]. intros [Ha Hf]. apply (H2 m a t HB Ha). unfold fresh. by rewrite E. }
  split; [done|]. split; [intros m a Ha; by apply Hexact in Ha as [? _]|].
  intros m a T HT Ha Hf. apply Hexact. split; [done|]. by eapply fresh_mono.
Qed.

End tables.

(** The last reading. *)
Definition clock_of (es : list fc_event) : Z := default 0 (last (times es)).

Lemma clock_of_step es e :
  clock_ok (es ++ [e]) -> clock_ok es /\ Forall (fun t => clock_of es <= t /\ 0 <= t <= MaxInt64) (event_times e) /\
    clock_of es <= clock_of (es ++ [e]) /\ (forall t, last (event_times e) = Some t -> clock_of (es ++ [e]) = t).
Proof.
  unfold clock_ok, clock_of, times. rewrite bind_app. cbn. rewrite app_nil_r. intros [Hs Hb].
  apply Forall_app in Hb as [Hb1 Hb2]. apply StronglySorted_app in Hs as (Hlt & Hs1 & Hs2).
  assert (Forall (fun t => default 0 (last (mbind event_times es)) <= t /\ 0 <= t <= MaxInt64) (event_times e)) as Hf.
  { apply Forall_forall. intros t Ht. pose proof (proj1 (Forall_forall _ _) Hb2 t Ht) as Hbt. cbn in Hbt. split; [|done].
    destruct (last (mbind event_times es)) as [x|] eqn:E; cbn; [|lia]. apply Hlt; [by apply last_Some_elem_of|done]. }
  split_and!; [done|done|done| |].
  - rewrite last_app. destruct (last (event_times e)) as [t|] eqn:E; [|done].
    apply last_Some_elem_of in E. by apply (proj1 (Forall_forall _ _) Hf) in E as [? _].
  - intros t E. by rewrite last_app, E.
Qed.

Section invariant.
Context (d0 : Detector) (Httl : is_i64 (fd_ttl d0)) (Hquorum : fd_quorum d0 = (size (fd_members d0) `div` 2 + 1)%nat).

Definition table (d : Detector) (tgt : string) : gmap string Z := default ∅ (fd_susp d !! tgt).

Definition same_config (d : Detector) : Prop :=
  fd_members d = fd_members d0 /\ fd_quorum d = fd_quorum d0 /\ fd_clock d = fd_clock d0 /\
  fd_ttl d = fd_ttl d0 /\ fd_onDead d = fd_onDead d0.

Record fc_inv (es : list fc_event) (d : Detector) : Prop := {
  fi_config : same_config d;
  fi_tables : forall tgt, tgt ∉ fd_dead d -> faithful d0 (fun m => last_tick d0 es m tgt) (clock_of es) (table d tgt);
  fi_dead : forall tgt, tgt ∈ fd_dead d <-> confirmed d0 es tgt;
  fi_fired : NoDup (fd_fired d) /\ forall x, x ∈ fd_fired d <-> fd_onDead d0 = true /\ x ∈ fd_dead d }.

Lemma last_tick_snoc es e m tgt : last_tick d0 (es ++ [e]) m tgt = tick_step d0 m tgt (last_tick d0 es m tgt) e.
Proof. unfold last_tick. by rewrite foldl_app. Qed.

Lemma last_tick_member es m tgt a : last_tick d0 es m tgt = Some a -> m ∈ fd_members d0.
Proof.
  induction es as [|e es IH] using rev_ind; [done|]. rewrite last_tick_snoc.
  destruct e; cbn; try case_decide; auto; naive_solver.
Qed.

Lemma reporters_at_size es tgt t (reps : gmap string Z) :
  (forall m a, reps !! m = Some a <-> last_tick d0 es m tgt = Some a /\ fresh d0 t a) ->
  size reps = size (reporters_at d0 es tgt t).
Proof.
  intros Hreps. rewrite <- size_dom. f_equal. apply set_eq. intros m. unfold reporters_at, live.
  rewrite elem_of_dom, elem_of_filter. split.
  - intros [a Ha]. apply Hreps in Ha as [Ha Hf]. rewrite Ha. split; [done|by eapply last_tick_member].
  - intros [Hl _]. destruct (last_tick d0 es m tgt) as [a|] eqn:E; [|done]. exists a. by apply Hreps.
Qed.

(** A confirmed target stays confirmed; new confirmations come from the last report. *)
Lemma confirmed_snoc es e tgt :
  confirmed d0 (es ++ [e]) tgt <-> confirmed d0 es tgt \/
    (exists r t1 t2, e = FReport r tgt t1 t2 /\ r ∈ fd_members d0 /\ tgt ∈ fd_members d0 /\
       (size (fd_members d0) < 2 * size (reporters_at d0 (es ++ [e]) tgt t2))%nat).
Proof.
  split.
  - intros (p & r & t1 & t2 & q & Heq & Hr & Htgt & Hsize). destruct q as [|e' q _] using rev_ind.
    + apply app_inj_tail in Heq as [-> ->]. right. by exists r, t1, t2.
    + rewrite app_comm_cons, app_assoc in Heq. apply app_inj_tail in Heq as [-> ->]. left. by exists p, r, t1, t2, q.
  - intros [(p & r & t1 & t2 & q & -> & Hr & Htgt & Hsize)|(r & t1 & t2 & -> & Hr & Htgt & Hsize)].
    + exists p, r, t1, t2, (q ++ [e]). by rewrite <- app_assoc.
    + by exists es, r, t1, t2, [].
Qed.

Lemma live_count_spec d tgt t :
  same_config d ->
  exists d', liveReporterCount tgt t d = (d', size (expire d0 t (table d tgt))) /\ same_config d' /\
    fd_dead d' = fd_dead d /\ fd_fired d' = fd_fired d /\
    forall tgt', table d' tgt' = if decide (tgt = tgt') then expire d0 t (table d tgt) else table d tgt'.
Proof.
  intros Hc. pose proof Hc as (Hm & Hq & Hclock & Httl' & Hon). unfold liveReporterCount.
  assert (ttlActive d = ttlActive d0) as Hact by (unfold ttlActive; by rewrite Hclock, Httl').
  destruct (fd_susp d !! tgt) as [reps|] eqn:E; cbv zeta.
  - assert (table d tgt = reps) as -> by (unfold table; by rewrite E).
    assert ((if ttlActive d then prune (i64 (Detector_now d t - fd_ttl d)) reps else reps) = expire d0 t reps) as ->.
    { unfold expire. rewrite Hact, Httl'. destruct (ttlActive d0) eqn:Ha; [|done]. unfold ttlActive in Ha.
      apply andb_true_iff in Ha as [Ha _]. unfold Detector_now. by rewrite Hclock, Ha. }
    eexists. split; [done|]. split_and!; [done|done|done|]. intros tgt'. unfold table. cbn. rewrite lookup_insert. by case_decide.
  - assert (table d tgt = ∅) as Ht by (unfold table; by rewrite E). rewrite Ht.
    assert (expire d0 t ∅ = ∅) as He by (unfold expire; by destruct (ttlActive d0)). rewrite He.
    exists d. split_and!; [done..|]. intros tgt'. case_decide; by subst.
Qed.

(** An event that promotes nobody. *)
Lemma inv_same_dead es e d d' :
  fc_inv es d -> same_config d' -> fd_dead d' = fd_dead d -> fd_fired d' = fd_fired d ->
  (forall tgt, tgt ∉ fd_dead d -> faithful d0 (fun m => last_tick d0 (es ++ [e]) m tgt) (clock_of (es ++ [e])) (table d' tgt)) ->
  (forall tgt, confirmed d0 (es ++ [e]) tgt -> tgt ∈ fd_dead d) ->
  fc_inv (es ++ [e]) d'.
Proof.
  intros Hinv Hc Hdead Hfired Htab Hconf. split; [done|by rewrite Hdead| |by rewrite Hdead, Hfired; apply Hinv].
  intros tgt. rewrite Hdead. split; [|apply Hconf]. intros Hin. apply confirmed_snoc. left. by apply (fi_dead es d Hinv).
Qed.

(** A table that an event neither changes nor reports about stays faithful. *)
Lemma untouched es e d d' tgt :
  fc_inv es d -> clock_ok (es ++ [e]) -> tgt ∉ fd_dead d -> table d' tgt = table d tgt ->
  (forall m, last_tick d0 (es ++ [e]) m tgt = last_tick d0 es m tgt) ->
  faithful d0 (fun m => last_tick d0 (es ++ [e]) m tgt) (clock_of (es ++ [e])) (table d' tgt).
Proof.
  intros Hinv Hclk Hd Ht HL. rewrite Ht. apply clock_of_step in Hclk as (_ & _ & Hle & _).
  eapply faithful_later; [exact Hle|]. eapply faithful_ext; [intros m; symmetry; apply HL|]. by apply (fi_tables es d Hinv).
Qed.

Lemma step_query es e d tgt t :
  fc_inv es d -> clock_ok (es ++ [e]) -> (e = FState tgt t \/ e = FCount tgt t) -> tgt ∉ fd_dead d ->
  fc_inv (es ++ [e]) (liveReporterCount tgt t d).1 /\
  (liveReporterCount tgt t d).2 = size (reporters_at d0 es tgt t).
Proof.
  intros Hinv Hclk He Hnd. destruct (live_count_spec d tgt t (fi_config es d Hinv)) as (d' & -> & Hc & Hdead & Hfired & Htab).
  cbn [fst snd]. assert (event_times e = [t]) as Het by by destruct He as [-> | ->].
  assert (forall m tgt, last_tick d0 (es ++ [e]) m tgt = last_tick d0 es m tgt) as HL
    by (intros; rewrite last_tick_snoc; by destruct He as [-> | ->]).
  pose proof (clock_of_step es e Hclk) as (_ & Hf & _ & Hnow). rewrite Het in Hf, Hnow. apply Forall_cons in Hf as [[Hle Hb] _].
  destruct (expire_exact d0 _ _ t _ (fi_tables es d Hinv tgt Hnd) Hle Hb Httl) as [Hexact Hfaith].
  split; [|by apply reporters_at_size]. apply (inv_same_dead es e d d'); [done..| |].
  - intros tgt' Hnd'. destruct (decide (tgt = tgt')) as [<-|Hne].
    + rewrite Htab, decide_True, (Hnow t) by done. by eapply faithful_ext; [|exact Hfaith].
    + apply (untouched es e d); [done..| |by intros; apply HL]. by rewrite Htab, decide_False.
  - intros tgt' [Hc'|(? & ? & ? & -> & _)]%confirmed_snoc; [by apply (fi_dead es d Hinv)|]. by destruct He.
Qed.

(** [r] and [tgt] are members and [tgt] is not confirmed yet: the call acts. *)
Definition acts (d : Detector) (r tgt : string) : Prop := r ∈ fd_members d0 /\ tgt ∈ fd_members d0 /\ tgt ∉ fd_dead d.

Lemma guard_acts {A} d r tgt (x y z : A) :
  same_config d ->
  (if negb (isMember d r) || negb (isMember d tgt) then x else if decide (tgt ∈ fd_dead d) then y else z) =
    if decide (acts d r tgt) then z else if decide (r ∈ fd_members d0 /\ tgt ∈ fd_members d0) then y else x.
Proof.
  intros (Hm & _). unfold isMember, acts. rewrite Hm. repeat case_bool_decide; cbn; repeat case_decide; tauto.
Qed.

Lemma clear_spec d r tgt :
  same_config d ->
  let d' := (ClearPFAIL r tgt d).1 in
  same_config d' /\ fd_dead d' = fd_dead d /\ fd_fired d' = fd_fired d /\
  forall tgt', table d' tgt' = if decide (tgt = tgt' /\ acts d r tgt) then delete r (table d tgt') else table d tgt'.
Proof.
  intros Hc. unfold ClearPFAIL. rewrite guard_acts by done. destruct (decide (acts d r tgt)) as [Ha|Ha].
  2: { case_decide; cbn; (split_and!; [done..|]); intros tgt'; by rewrite decide_False by tauto. }
  destruct (fd_susp d !! tgt) as [reps|] eqn:E; [case_decide as Hsz|]; cbv zeta; cbn [fst]; (split_and!; [done..|]); intros tgt'; unfold table; cbn [fd_susp set_susp].
  - rewrite lookup_delete. destruct (decide (tgt = tgt')) as [<-|]; [|by rewrite decide_False by tauto].
    rewrite decide_True, E by done. cbn. symmetry. by apply map_size_empty_inv.
  - rewrite lookup_insert. destruct (decide (tgt = tgt')) as [<-|]; [|by rewrite decide_False by tauto].
    by rewrite decide_True, E by done.
  - case_decide as Ht; [|done]. destruct Ht as [<- _]. rewrite E. cbn. by rewrite delete_empty.
Qed.

Lemma step_clear es r tgt d :
  fc_inv es d -> clock_ok (es ++ [FClear r tgt]) -> fc_inv (es ++ [FClear r tgt]) (ClearPFAIL r tgt d).1.
Proof.
  intros Hinv Hclk. destruct (clear_spec d r tgt (fi_config es d Hinv)) as (Hc & Hdead & Hfired & Htab).
  apply (inv_same_dead es _ d); [done..| |].
  - intros tgt' Hnd. rewrite Htab. destruct (decide (tgt = tgt' /\ acts d r tgt)) as [(<- & Hr & Ht & _)|Hno].
    + apply clock_of_step in Hclk as (_ & _ & Hle & _). eapply faithful_later; [exact Hle|].
      eapply faithful_ext; [|apply faithful_delete, (fi_tables es d Hinv tgt Hnd)].
      intros m. cbn. rewrite last_tick_snoc. cbn. destruct (decide (r = m)) as [->|]; [by rewrite decide_True|]. by rewrite decide_False by tauto.
    + apply (untouched es _ d d); [done..|]. intros m. rewrite last_tick_snoc. cbn. rewrite decide_False; [done|].
      unfold acts in Hno. naive_solver.
  - intros tgt' [?|(? & ? & ? & ? & _)]%confirmed_snoc; [by apply (fi_dead es d Hinv)|done].
Qed.

Lemma majority n c : (n `div` 2 + 1 <= c <-> n < 2 * c)%nat.
Proof. pose proof (Nat.div_mod_eq n 2). pose proof (Nat.mod_upper_bound n 2). lia. Qed.

(** The state after a report, before the quorum test. *)
Lemma report_spec es r tgt t1 t2 d :
  let e := FReport r tgt t1 t2 in
  fc_inv es d -> clock_ok (es ++ [e]) -> acts d r tgt ->
  exists d', (ReportPFAIL r tgt t1 t2 d).1 =
      (if decide (size (fd_members d0) < 2 * size (reporters_at d0 (es ++ [e]) tgt t2))%nat then promote tgt d' else d') /\
    same_config d' /\ fd_dead d' = fd_dead d /\ fd_fired d' = fd_fired d /\
    forall tgt', tgt' ∉ fd_dead d -> faithful d0 (fun m => last_tick d0 (es ++ [e]) m tgt') (clock_of (es ++ [e])) (table d' tgt').
Proof.
  intros e Hinv Hclk Ha. pose proof (fi_config es d Hinv) as Hc. unfold ReportPFAIL. rewrite guard_acts, decide_True by done.
  pose proof Ha as (Hr & Ht & Hnd). fold (table d tgt).
  set (d1 := set_susp d (<[tgt := <[r := Detector_now d t1]> (table d tgt)]> (fd_susp d))). cbv zeta.
  assert (Detector_now d t1 = Detector_now d0 t1) as Hnow1 by (unfold Detector_now; by destruct Hc as (_ & _ & -> & _)).
  destruct (live_count_spec d1 tgt t2) as (d' & -> & Hc' & Hdead' & Hfired' & Htab'); [done|].
  assert (table d1 tgt = <[r := Detector_now d0 t1]> (table d tgt)) as Ht1.
  { unfold table at 1, d1. cbn. by rewrite lookup_insert_eq, Hnow1. }
  pose proof (clock_of_step es e Hclk) as (_ & Hf & _ & Hlast). apply Forall_cons in Hf as [[Hle1 Hb1] [[Hle2 Hb2] _]%Forall_cons].
  assert (faithful d0 (fun m => last_tick d0 (es ++ [e]) m tgt) (clock_of es) (table d1 tgt)) as Hf1.
  { rewrite Ht1. eapply faithful_ext; [|apply faithful_insert, (fi_tables es d Hinv tgt Hnd)].
    intros m. cbn. rewrite last_tick_snoc. cbn. destruct (decide (r = m)) as [->|]; [by rewrite decide_True|]. by rewrite decide_False by tauto. }
  destruct (expire_exact d0 _ _ t2 _ Hf1 Hle2 Hb2 Httl) as [Hexact Hfaith].
  exists d'. rewrite (reporters_at_size (es ++ [e]) tgt t2 _ Hexact). split_and!; [|done..|].
  - destruct Hc' as (_ & -> & _). rewrite Hquorum. destruct (decide (_ < _)%nat) as [Hmaj|Hmaj]; rewrite <- majority in Hmaj.
    + by rewrite decide_True.
    + by rewrite decide_False.
  - intros tgt' Hnd'. rewrite Htab'. destruct (decide (tgt = tgt')) as [<-|Hne].
    + by rewrite (Hlast t2).
    + apply (untouched es e d d1); [done..| |].
      * unfold table, d1. cbn. by rewrite lookup_insert_ne.
      * intros m. rewrite last_tick_snoc. cbn. by rewrite decide_False by tauto.
Qed.

Lemma step_report es r tgt t1 t2 d :
  let e := FReport r tgt t1 t2 in
  fc_inv es d -> clock_ok (es ++ [e]) -> fc_inv (es ++ [e]) (ReportPFAIL r tgt t1 t2 d).1.
Proof.
  intros e Hinv Hclk. pose proof (fi_config es d Hinv) as Hc. destruct (decide (acts d r tgt)) as [Ha|Ha].
  - destruct (report_spec es r tgt t1 t2 d Hinv Hclk Ha) as (d' & -> & Hc' & Hdead & Hfired & Htab). fold e in Htab |- *.
    pose proof Ha as (Hr & Ht & Hnd). case_decide as Hmaj.
    + unfold promote. rewrite Hdead, decide_False by done. split; cbn [fd_dead fd_fired fd_susp].
      * done.
      * intros tgt' Hnd'. assert (tgt <> tgt') by set_solver. unfold table. cbn. rewrite lookup_delete_ne by done.
        apply Htab. set_solver.
      * intros tgt'. rewrite elem_of_union, elem_of_singleton, confirmed_snoc, (fi_dead es d Hinv). split.
        -- intros [->|?]; [right; by exists r, t1, t2|by left].
        -- intros [?|(? & ? & ? & [= <- <- <- <-] & _)]; auto.
      * destruct Hc' as (_ & _ & _ & _ & Hon). rewrite Hfired, Hon. destruct (fi_fired es d Hinv) as [Hnd' Hin].
        destruct (fd_onDead d0); split; [|intros x; rewrite elem_of_app, list_elem_of_singleton, Hin; set_solver|done|intros x; rewrite Hin; naive_solver].
        apply NoDup_app. split_and!; [done| |apply NoDup_singleton]. intros x [_ Hx]%Hin ->%list_elem_of_singleton. done.
    + apply (inv_same_dead es e d d'); [done..|]. intros tgt' [?|(? & ? & ? & [= <- <- <- <-] & _ & _ & ?)]%confirmed_snoc; [by apply (fi_dead es d Hinv)|done].
  - assert ((ReportPFAIL r tgt t1 t2 d).1 = d) as ->.
    { unfold ReportPFAIL. rewrite guard_acts, decide_False by done. by case_decide. }
    apply (inv_same_dead es e d d); [done..| |].
    + intros tgt' Hnd. apply (untouched es e d d); [done..|]. intros m. rewrite last_tick_snoc. cbn. rewrite decide_False; [done|].
      unfold acts in Ha. naive_solver.
    + intros tgt' [?|(? & ? & ? & [= <- <- <- <-] & Hr & Ht & _)]%confirmed_snoc; [by apply (fi_dead es d Hinv)|].
      unfold acts in Ha. apply dec_stable. tauto.
Qed.

(** A query about a confirmed target changes nothing. *)
Lemma step_idle es e d tgt t :
  fc_inv es d -> clock_ok (es ++ [e]) -> (e = FState tgt t \/ e = FCount tgt t) -> fc_inv (es ++ [e]) d.
Proof.
  intros Hinv Hclk He. apply (inv_same_dead es e d d); [done|apply Hinv|done|done| |].
  - intros tgt' Hnd. apply (untouched es e d d); [done..|]. intros m. rewrite last_tick_snoc. by destruct He as [-> | ->].
  - intros tgt' [?|(? & ? & ? & -> & _)]%confirmed_snoc; [by apply (fi_dead es d Hinv)|]. by destruct He.
Qed.

Lemma fc_step_inv es e d : fc_inv es d -> clock_ok (es ++ [e]) -> fc_inv (es ++ [e]) (fc_step d e).
Proof.
  intros Hinv Hclk. destruct e as [r tgt t1 t2|r tgt|tgt t|tgt t]; cbn [fc_step].
  - by apply step_report.
  - by apply step_clear.
  - unfold Detector_State. case_decide as Hd; [by eapply step_idle; [| |left]|].
    destruct (step_query es _ d tgt t Hinv Hclk) as [Hq _]; [by left|done|].
    destruct (liveReporterCount tgt t d) as [d' n]. by case_decide.
  - unfold ReporterCount. case_decide as Hd; [by eapply step_idle; [| |right]|].
    by destruct (step_query es _ d tgt t Hinv Hclk) as [Hq _]; [by right|done|].
Qed.

End invariant.

Lemma fc_run_inv members clock ttl onDead d0 es :
  Detector_New members clock ttl onDead = inr d0 -> is_i64 ttl -> clock_ok es -> fc_inv d0 es (fc_run d0 es).
Proof.
  unfold Detector_New. cbv zeta. case_decide as Hsz; [done|]. intros [= <-] Httl. set (d0 := mkDetector _ _ _ _ _ _ _ _).
  induction es as [|e es IH] using rev_ind; intros Hclk.
  - split; [done|..]; cbn.
    + intros tgt _. split; [|done]. intros m a. unfold table. cbn. rewrite lookup_empty. cbn. by rewrite lookup_empty.
    + intros tgt. split; [set_solver|]. by intros (p & ? & ? & ? & q & Heq & _); destruct p.
    + split; [constructor|]. intros x. split; [by intros ?%elem_of_nil|set_solver].
  - unfold fc_run. rewrite foldl_app. cbn [foldl]. apply fc_step_inv; [done|done| |done].
    apply IH. by apply clock_of_step in Hclk as [? _].
Qed.

(** ** Properties *)

(** FAIL is exactly majority confirmation, announced once.  In every history of
    reports, retractions and queries with a non-decreasing clock, a target is dead
    exactly when at some report a strict majority of distinct members held an
    unexpired, unretracted PFAIL for it; it is never revived, and [OnDead] has been
    called exactly once for each dead target and for no other. *)
Theorem failconfirm_majority_exact members clock ttl onDead d0 es :
  Detector_New members clock ttl onDead = inr d0 -> is_i64 ttl -> clock_ok es ->
  let d := fc_run d0 es in
  (forall tgt, tgt ∈ fd_dead d <-> confirmed d0 es tgt) /\
  NoDup (fd_fired d) /\ (forall tgt, tgt ∈ fd_fired d <-> onDead = true /\ tgt ∈ fd_dead d).
Proof.
  intros Hnew Httl Hclk. pose proof (fc_run_inv _ _ _ _ _ _ Hnew Httl Hclk) as Hinv.
  assert (fd_onDead d0 = onDead) as Hon by (unfold Detector_New in Hnew; cbv zeta in Hnew; case_decide; [done|by injection Hnew as <-]).
  destruct (fi_fired _ _ _ Hinv) as [Hnd Hin]. rewrite Hon in Hin. split; [apply Hinv|done].
Qed.

(** The reported state is the true one.  After any such history, [State target]
    is Dead exactly for a confirmed target, Suspect exactly when the target is
    unconfirmed and some member's report stands at that moment, and Alive otherwise. *)
Theorem failconfirm_state_exact members clock ttl onDead d0 es tgt t :
  Detector_New members clock ttl onDead = inr d0 -> is_i64 ttl -> clock_ok (es ++ [FState tgt t]) ->
  let s := (Detector_State tgt t (fc_run d0 es)).2 in
  (s = Dead <-> confirmed d0 es tgt) /\
  (s = Suspect <-> ¬ confirmed d0 es tgt /\ reporters_at d0 es tgt t <> ∅) /\
  (s = Alive <-> ¬ confirmed d0 es tgt /\ reporters_at d0 es tgt t = ∅).
Proof.
  intros Hnew Httl Hclk. assert (clock_ok es) as Hclk' by by apply clock_of_step in Hclk as [? _].
  pose proof (fc_run_inv _ _ _ _ _ _ Hnew Httl Hclk') as Hinv. cbv zeta. rewrite <- !(fi_dead _ _ _ Hinv tgt).
  assert (fd_ttl d0 = ttl) as Ht by (unfold Detector_New in Hnew; cbv zeta in Hnew; case_decide; [done|by injection Hnew as <-]).
  unfold Detector_State. case_decide as Hd; cbn [snd]; [split_and!; split; try done; tauto|].
  assert (is_i64 (fd_ttl d0)) as Httl' by by rewrite Ht.
  destruct (step_query d0 Httl' es (FState tgt t) (fc_run d0 es) tgt t) as [_ Hn]; [done|done|by left|done|].
  destruct (liveReporterCount tgt t (fc_run d0 es)) as [d' n]. cbn in Hn. subst n.
  assert (size (reporters_at d0 es tgt t) = 0%nat <-> reporters_at d0 es tgt t = ∅) as Hz.
  { split; [intros H0; by apply leibniz_equiv, size_empty_inv|intros ->; apply size_empty]. }
  rewrite <- !Hz. case_decide; cbn [snd]; intuition (done || lia).
Qed.

Definition demo_fc : list fc_event :=
  [FReport "a" "d" 1 1; FReport "a" "d" 2 2; FReport "b" "d" 3 3; FState "d" 3; FClear "a" "d"; FReport "c" "d" 4 4; FReport "a" "d" 5 5].
Definition demo_fc_detector : Detector :=
  mkDetector (list_to_set ["a"; "b"; "c"; "d"]) 3 true 10 true ∅ ∅ [].

Lemma failconfirm_majority_exact_witness :
  Detector_New ["a"; "b"; "c"; "d"] true 10 true = inr demo_fc_detector /\
  fd_fired (fc_run demo_fc_detector demo_fc) = ["d"] /\
  (forall tgt, tgt ∈ fd_dead (fc_run demo_fc_detector demo_fc) <-> confirmed demo_fc_detector demo_fc tgt).
Proof.
  split; [by vm_compute|]. split; [by vm_compute|].
  apply (failconfirm_majority_exact ["a"; "b"; "c"; "d"] true 10 true); [by vm_compute|by_eval|].
  split; [repeat (constructor; [|by_eval]); constructor|by_eval].
Defined.

Lemma failconfirm_state_exact_witness :
  (Detector_State "d" 4 (fc_run demo_fc_detector (take 3 demo_fc))).2 = Suspect /\
  ¬ confirmed demo_fc_detector (take 3 demo_fc) "d".
Proof.
  assert ((Detector_State "d" 4 (fc_run demo_fc_detector (take 3 demo_fc))).2 = Suspect) as Hs by by vm_compute.
  split; [exact Hs|].
  destruct (failconfirm_state_exact ["a"; "b"; "c"; "d"] true 10 true demo_fc_detector (take 3 demo_fc) "d" 4) as (_ & Hsus & _);
    [by vm_compute|by_eval|split; [repeat (constructor; [|by_eval]); constructor|by_eval]|]. by apply Hsus.
Defined.
