(* ===== verification/HashSlot.v ===== *)
(** * Hash slots and redirection ([src/pkg/hashslot/package.go])

    Keys map to 16384 slots by CRC16 of their hash tag; a slot map assigns slots to
    nodes and answers MOVED and ASK redirections.  The table-driven CRC is proved
    equal to the bit-serial register, hash-tag extraction to its grammar, and the
    slot map to a per-slot reading of the history of its operations. *)

From stdpp Require Import pretty.
From S2P Require Import Prelude Sha256.
Local Open Scope Z_scope.

Definition SlotCount : Z := 16384.

(** ** CRC16 *)

Definition crc_poly : Z := 0x1021.

(** One round of the inner loop of [init]. *)
Definition crc_shift (crc : Z) : Z :=
  if decide (Z.land crc 0x8000 <> 0) then Z.lxor (u16 (Z.shiftl crc 1)) crc_poly else u16 (Z.shiftl crc 1).

Definition crc_entry (i : Z) : Z := Nat.iter 8 crc_shift (u16 (Z.shiftl i 8)).

Definition crc16Table : list Z := crc_entry <$> seqZ 0 256.

(** [(crc << 8) ^ crc16Table[byte(crc>>8)^b]] *)
Definition crc_step (crc b : Z) : Z :=
  Z.lxor (u16 (Z.shiftl crc 8)) (nth (Z.to_nat (Z.lxor (u8 (Z.shiftr crc 8)) b)) crc16Table 0).

Definition CRC16 (data : list Z) : Z := foldl crc_step 0 data.

(** ** Hash tags *)

Definition lbrace : Z := 123.
Definition rbrace : Z := 125.

(** Index of the first byte equal to [c]. *)
Fixpoint index_byte (c : Z) (bs : list Z) : option nat :=
  match bs with
  | [] => None
  | b :: bs => if decide (b = c) then Some 0%nat else S <$> index_byte c bs
  end.

Definition HashTag (key : list Z) : list Z :=
  match index_byte lbrace key with
  | None => key
  | Some open =>
      match index_byte rbrace (drop (open + 1) key) with
      | None => key
      | Some j => if decide (j = 0%nat) then key else take j (drop (open + 1) key)
      end
  end.

Definition Slot (key : string) : Z := CRC16 (HashTag (string_bytes key)) mod SlotCount.

(** ** The slot map *)

Inductive RedirectKind := NoRedirect | Moved | Ask.

Definition RedirectKind_String (k : RedirectKind) : string :=
  match k with NoRedirect => "NONE" | Moved => "MOVED" | Ask => "ASK" end.

Record Redirect := mkRedirect { rd_Kind : RedirectKind; rd_Slot : Z; rd_Node : string }.

Definition Redirect_String (r : Redirect) : string :=
  String.append (RedirectKind_String (rd_Kind r)) (String.append " " (String.append (pretty (rd_Slot r)) (String.append " " (rd_Node r)))).

Inductive slot_error := ErrEmptyNode | ErrSlotOutOfRange (slot : Z) | ErrInvertedRange (start end_ : Z) | ErrUnassignedSlot (slot : Z).

(** An absent slot of [owners] is the empty string of the Go array. *)
Record SlotMap := mkSlotMap { sm_owners : gmap Z string; sm_migrating : gmap Z string }.

Definition NewSlotMap : SlotMap := mkSlotMap ∅ ∅.

Definition owner_at (m : SlotMap) (slot : Z) : string := default EmptyString (sm_owners m !! slot).

Definition validSlot (slot : Z) : bool := bool_decide (slot >= 0) && bool_decide (slot < SlotCount).

(** [for s := start; s <= end; s++ { owners[s] = node }] *)
Definition assign_range (start end_ : Z) (node : string) (owners : gmap Z string) : gmap Z string :=
  foldl (fun owners s => <[s := node]> owners) owners (seqZ start (end_ - start + 1)).

Definition SlotMap_Assign (start end_ : Z) (node : string) (m : SlotMap) : SlotMap * option slot_error :=
  if decide (node = EmptyString) then (m, Some ErrEmptyNode)
  else if negb (validSlot start) then (m, Some (ErrSlotOutOfRange start))
  else if negb (validSlot end_) then (m, Some (ErrSlotOutOfRange end_))
  else if decide (start > end_) then (m, Some (ErrInvertedRange start end_))
  else (mkSlotMap (assign_range start end_ node (sm_owners m)) (sm_migrating m), None).

Definition SlotMap_Reassign (slot : Z) (newNode : string) (m : SlotMap) : SlotMap * option slot_error :=
  if decide (newNode = EmptyString) then (m, Some ErrEmptyNode)
  else if negb (validSlot slot) then (m, Some (ErrSlotOutOfRange slot))
  else (mkSlotMap (<[slot := newNode]> (sm_owners m)) (delete slot (sm_migrating m)), None).

Definition SlotMap_SetMigrating (slot : Z) (target : string) (m : SlotMap) : SlotMap * option slot_error :=
  if decide (target = EmptyString) then (m, Some ErrEmptyNode)
  else if negb (validSlot slot) then (m, Some (ErrSlotOutOfRange slot))
  else if decide (owner_at m slot = EmptyString) then (m, Some (ErrUnassignedSlot slot))
  else (mkSlotMap (sm_owners m) (<[slot := target]> (sm_migrating m)), None).

Definition SlotMap_ClearMigrating (slot : Z) (m : SlotMap) : SlotMap * option slot_error :=
  if negb (validSlot slot) then (m, Some (ErrSlotOutOfRange slot))
  else (mkSlotMap (sm_owners m) (delete slot (sm_migrating m)), None).

Definition SlotMap_OwnerOf (m : SlotMap) (slot : Z) : string * bool :=
  if negb (validSlot slot) then (EmptyString, false)
  else (owner_at m slot, negb (bool_decide (owner_at m slot = EmptyString))).

Definition SlotMap_OwnerOfKey (m : SlotMap) (key : string) : string * bool := SlotMap_OwnerOf m (Slot key).

Definition SlotMap_MigrationTarget (m : SlotMap) (slot : Z) : string * bool :=
  if negb (validSlot slot) then (EmptyString, false)
  else match sm_migrating m !! slot with Some target => (target, true) | None => (EmptyString, false) end.

Definition SlotMap_Route (m : SlotMap) (local key : string) (keyPresentLocally : bool) : slot_error + Redirect :=
  let slot := Slot key in
  let owner := owner_at m slot in
  if decide (owner = EmptyString) then inl (ErrUnassignedSlot slot)
  else if decide (owner <> local) then inr (mkRedirect Moved slot owner)
  else match sm_migrating m !! slot with
       | Some target => if negb keyPresentLocally then inr (mkRedirect Ask slot target) else inr (mkRedirect NoRedirect slot local)
       | None => inr (mkRedirect NoRedirect slot local)
       end.

(** ** The CRC table *)

(** The bit-serial register: shift in one message bit, feed back the polynomial. *)
Definition crc_bit (r : Z) (bit : bool) : Z :=
  let feedback := xorb (Z.testbit r 15) bit in
  if feedback then Z.lxor (u16 (Z.shiftl r 1)) crc_poly else u16 (Z.shiftl r 1).

(** The bits of a byte, most significant first. *)
Definition byte_bits (b : Z) : list bool := (fun i => Z.testbit b i) <$> [7; 6; 5; 4; 3; 2; 1; 0].
Definition crc_serial (data : list Z) : Z := foldl crc_bit 0 (mbind byte_bits data).

Lemma u16_testbit x i : 0 <= i -> Z.testbit (u16 x) i = bool_decide (i < 16) && Z.testbit x i.
Proof.
  intros Hi. unfold u16. change 65536 with (2 ^ 16). case_bool_decide.
  - by rewrite Z.mod_pow2_bits_low by lia.
  - by rewrite Z.mod_pow2_bits_high by lia.
Qed.

Lemma u16_lxor a b : u16 (Z.lxor a b) = Z.lxor (u16 a) (u16 b).
Proof.
  apply Z.bits_inj'. intros i Hi. rewrite Z.lxor_spec, !u16_testbit, Z.lxor_spec by done. by case_bool_decide.
Qed.

Lemma land_bit15 r : bool_decide (Z.land r 0x8000 <> 0) = Z.testbit r 15.
Proof.
  change 0x8000 with (2 ^ 15). destruct (Z.testbit r 15) eqn:E.
  - apply bool_decide_true. intros H0. apply (f_equal (fun z => Z.testbit z 15)) in H0.
    by rewrite Z.land_spec, E, Z.pow2_bits_true, Z.bits_0 in H0.
  - apply bool_decide_false. intros Hne. apply Hne. apply Z.bits_inj'. intros i Hi. rewrite Z.land_spec, Z.bits_0.
    destruct (decide (i = 15)) as [->|]; [by rewrite E|]. by rewrite Z.pow2_bits_false, andb_false_r by lia.
Qed.

Lemma crc_shift_bit r : crc_shift r = crc_bit r false.
Proof.
  unfold crc_shift, crc_bit. rewrite xorb_false_r, <- land_bit15.
  destruct (decide (Z.land r 0x8000 <> 0)); [by rewrite bool_decide_true|by rewrite bool_decide_false].
Qed.

Lemma crc_shift_lxor a b : crc_shift (Z.lxor a b) = Z.lxor (crc_shift a) (crc_shift b).
Proof.
  rewrite !crc_shift_bit. unfold crc_bit. rewrite !xorb_false_r, Z.lxor_spec, Z.shiftl_lxor, u16_lxor.
  destruct (Z.testbit a 15), (Z.testbit b 15); cbn [xorb]; apply Z.bits_inj'; intros i Hi; rewrite !Z.lxor_spec;
    destruct (Z.testbit (u16 (Z.shiftl a 1)) i), (Z.testbit (u16 (Z.shiftl b 1)) i), (Z.testbit crc_poly i); done.
Qed.

Lemma crc_shift8_lxor n a b : Nat.iter n crc_shift (Z.lxor a b) = Z.lxor (Nat.iter n crc_shift a) (Nat.iter n crc_shift b).
Proof. induction n as [|n IH]; [done|]. by rewrite !Nat.iter_succ, IH, crc_shift_lxor. Qed.

Lemma crc_low_byte : forallb (fun l => bool_decide (Nat.iter 8 crc_shift l = Z.shiftl l 8)) (seqZ 0 256) = true.
Proof. vm_compute. reflexivity. Qed.

Lemma crc16Table_nth i : 0 <= i < 256 -> nth (Z.to_nat i) crc16Table 0 = crc_entry i.
Proof.
  intros Hi. apply nth_lookup_Some. unfold crc16Table. rewrite list_lookup_fmap, lookup_seqZ_lt by lia.
  cbn [fmap option_fmap option_map]. by rewrite Z2Nat.id, Z.add_0_l by lia.
Qed.

(** Eight rounds on a register split into its bytes. *)
Lemma crc_shift8 h l : 0 <= h < 256 -> 0 <= l < 256 ->
  Nat.iter 8 crc_shift (Z.lxor (Z.shiftl h 8) l) = Z.lxor (Z.shiftl l 8) (nth (Z.to_nat h) crc16Table 0).
Proof.
  intros Hh Hl. rewrite crc_shift8_lxor, crc16Table_nth by done. rewrite Z.lxor_comm. f_equal.
  - pose proof crc_low_byte as Hf. rewrite forallb_forall in Hf. specialize (Hf l).
    rewrite bool_decide_eq_true in Hf. apply Hf, list_elem_of_In, elem_of_seqZ. lia.
  - unfold crc_entry. f_equal. unfold u16. rewrite Z.shiftl_mul_pow2 by lia. symmetry. apply Z.mod_small. lia.
Qed.

Lemma crc_entry_lxor a b : crc_entry (Z.lxor a b) = Z.lxor (crc_entry a) (crc_entry b).
Proof. unfold crc_entry. by rewrite Z.shiftl_lxor, u16_lxor, crc_shift8_lxor. Qed.

Lemma crc_bit_lxor r s bit : crc_bit (Z.lxor r s) bit = Z.lxor (crc_shift r) (crc_bit s bit).
Proof.
  rewrite crc_shift_bit. unfold crc_bit. rewrite xorb_false_r, Z.lxor_spec, Z.shiftl_lxor, u16_lxor.
  destruct (Z.testbit r 15), (Z.testbit s 15), bit; cbn [xorb]; apply Z.bits_inj'; intros i Hi; rewrite !Z.lxor_spec;
    destruct (Z.testbit (u16 (Z.shiftl r 1)) i), (Z.testbit (u16 (Z.shiftl s 1)) i), (Z.testbit crc_poly i); done.
Qed.

Lemma crc_bit_u16 r bit : is_u16 (crc_bit r bit).
Proof.
  assert (forall y, y = u16 y -> is_u16 y) as Hy by (intros y ->; unfold u16; pose proof (Z.mod_pos_bound y 65536); int_lia).
  apply Hy. unfold crc_bit. cbv zeta. assert (forall x, u16 (u16 x) = u16 x) as Hidem by (intros x; unfold u16; by rewrite Z.mod_mod).
  destruct (xorb _ _); rewrite ?u16_lxor, Hidem; done.
Qed.

Lemma crc_bits_lxor bits r s : foldl crc_bit (Z.lxor r s) bits = Z.lxor (Nat.iter (length bits) crc_shift r) (foldl crc_bit s bits).
Proof.
  revert r s. induction bits as [|bit bits IH]; intros r s; [done|]. cbn [foldl length]. rewrite crc_bit_lxor, IH.
  f_equal. by rewrite Nat.iter_succ_r.
Qed.

Lemma crc_serial_byte : forallb (fun b => bool_decide (foldl crc_bit 0 (byte_bits b) = crc_entry b)) (seqZ 0 256) = true.
Proof. vm_compute. reflexivity. Qed.

Lemma split_bytes r : 0 <= r < 65536 -> r = Z.lxor (Z.shiftl (Z.shiftr r 8) 8) (r mod 256).
Proof.
  intros Hr. apply Z.bits_inj'. intros i Hi. rewrite Z.lxor_spec. change 256 with (2 ^ 8).
  destruct (decide (i < 8)).
  - by rewrite Z.shiftl_spec_low, Z.mod_pow2_bits_low by lia.
  - rewrite Z.shiftl_spec_high, Z.mod_pow2_bits_high, xorb_false_r, Z.shiftr_spec by lia. f_equal. lia.
Qed.

Lemma crc_step_serial r b : is_u16 r -> is_u8 b -> crc_step r b = foldl crc_bit r (byte_bits b) /\ is_u16 (crc_step r b).
Proof.
  intros Hr Hb. assert (0 <= Z.shiftr r 8 < 256) as Hh.
  { rewrite Z.shiftr_div_pow2 by lia. change (2 ^ 8) with 256. unfold is_u16, MaxUint16 in Hr. Z.to_euclidean_division_equations. lia. }
  assert (0 <= r mod 256 < 256) as Hl by (apply Z.mod_pos_bound; lia).
  assert (0 <= Z.lxor (Z.shiftr r 8) b < 256) as Hx.
  { assert (Z.lxor (Z.shiftr r 8) b = Z.lxor (Z.shiftr r 8) b mod 2 ^ 8) as ->; [|apply Z.mod_pos_bound; lia].
    apply Z.bits_inj'. intros i Hi. destruct (decide (i < 8)); [by rewrite Z.mod_pow2_bits_low by lia|].
    rewrite Z.mod_pow2_bits_high, Z.lxor_spec by lia.
    rewrite <- (Z.mod_small (Z.shiftr r 8) (2 ^ 8)), <- (Z.mod_small b (2 ^ 8)) by int_lia.
    by rewrite !Z.mod_pow2_bits_high by lia. }
  assert (u16 (Z.shiftl r 8) = Z.shiftl (r mod 256) 8) as Hlow.
  { unfold u16. rewrite !Z.shiftl_mul_pow2 by lia. change 65536 with (256 * 2 ^ 8). by rewrite Z.mul_mod_distr_r by lia. }
  assert (crc_step r b = foldl crc_bit r (byte_bits b)) as Heq.
  { unfold crc_step. unfold u8. rewrite (Z.mod_small (Z.shiftr r 8)) by done. rewrite crc16Table_nth, crc_entry_lxor, Hlow by done.
    transitivity (foldl crc_bit (Z.lxor r 0) (byte_bits b)); [|by rewrite Z.lxor_0_r].
    rewrite crc_bits_lxor. change (length (byte_bits b)) with 8%nat.
    assert (Nat.iter 8 crc_shift r = Z.lxor (Z.shiftl (r mod 256) 8) (crc_entry (Z.shiftr r 8))) as ->.
    { rewrite (split_bytes r) at 1 by int_lia. by rewrite crc_shift8, crc16Table_nth by done. }
    rewrite Z.lxor_assoc. do 2 f_equal.
    pose proof crc_serial_byte as Hf. rewrite forallb_forall in Hf. specialize (Hf b). rewrite bool_decide_eq_true in Hf.
    symmetry. apply Hf, list_elem_of_In, elem_of_seqZ. int_lia. }
  split; [done|]. rewrite Heq. unfold byte_bits. cbn [fmap list_fmap foldl]. apply crc_bit_u16.
Qed.

Lemma CRC16_serial data : Forall is_u8 data -> CRC16 data = crc_serial data /\ is_u16 (CRC16 data).
Proof.
  unfold CRC16, crc_serial. assert (is_u16 0) as H0 by int_lia. revert H0. generalize 0. intros r Hr Hd. revert r Hr.
  induction Hd as [|b data Hb _ IH]; intros r Hr; [done|]. cbn [foldl]. rewrite bind_cons, foldl_app.
  destruct (crc_step_serial r b Hr Hb) as [<- Hstep]. by apply IH.
Qed.

(** ** Hash tags *)

Lemma index_byte_app c pre post : c ∉ pre -> index_byte c (pre ++ c :: post) = Some (length pre).
Proof.
  induction pre as [|b pre IH]; intros Hc; cbn; [by rewrite decide_True|].
  apply not_elem_of_cons in Hc as [Hb Hc]. rewrite decide_False by done. by rewrite IH.
Qed.

Lemma index_byte_Some c bs n : index_byte c bs = Some n -> exists pre post, bs = pre ++ c :: post /\ c ∉ pre /\ length pre = n.
Proof.
  revert n. induction bs as [|b bs IH]; intros n; cbn; [done|]. case_decide as Hb.
  - intros [= <-]. exists [], bs. subst b. split_and!; [done|apply not_elem_of_nil|done].
  - destruct (index_byte c bs) as [k|] eqn:E; [|done]. intros [= <-]. destruct (IH k eq_refl) as (pre & post & -> & Hc & Hl).
    exists (b :: pre), post. split_and!; [done|by apply not_elem_of_cons|cbn; lia].
Qed.

Lemma drop_after {A} (pre : list A) x post : drop (length pre + 1) (pre ++ x :: post) = post.
Proof. rewrite Nat.add_1_r. change (x :: post) with ([x] ++ post). rewrite app_assoc. apply drop_app_length'. rewrite length_app. cbn. lia. Qed.

(** ** Histories of the slot map *)

Inductive slot_op :=
  | SAssign (start end_ : Z) (node : string)
  | SReassign (slot : Z) (node : string)
  | SSetMigrating (slot : Z) (target : string)
  | SClearMigrating (slot : Z).

Definition slot_step (m : SlotMap) (o : slot_op) : SlotMap :=
  match o with
  | SAssign start end_ node => (SlotMap_Assign start end_ node m).1
  | SReassign slot node => (SlotMap_Reassign slot node m).1
  | SSetMigrating slot target => (SlotMap_SetMigrating slot target m).1
  | SClearMigrating slot => (SlotMap_ClearMigrating slot m).1
  end.
Definition slot_run (ops : list slot_op) : SlotMap := foldl slot_step NewSlotMap ops.

(** What the history says about one slot: its owner and its migration target. *)
Definition slot_view (slot : Z) (v : string * option string) (o : slot_op) : string * option string :=
  match o with
  | SAssign start end_ node =>
      if decide (node <> EmptyString /\ 0 <= start /\ end_ < SlotCount /\ start <= slot <= end_) then (node, v.2) else v
  | SReassign s node => if decide (node <> EmptyString /\ s = slot) then (node, None) else v
  | SSetMigrating s target => if decide (target <> EmptyString /\ s = slot /\ v.1 <> EmptyString) then (v.1, Some target) else v
  | SClearMigrating s => if decide (s = slot) then (v.1, None) else v
  end.
Definition slot_history (ops : list slot_op) (slot : Z) : string * option string := foldl (slot_view slot) (EmptyString, None) ops.

Lemma validSlot_true s : validSlot s = true <-> 0 <= s < SlotCount.
Proof. unfold validSlot. rewrite andb_true_iff, !bool_decide_eq_true. lia. Qed.

Lemma assign_range_lookup start end_ node owners slot :
  assign_range start end_ node owners !! slot = if decide (start <= slot <= end_) then Some node else owners !! slot.
Proof.
  unfold assign_range. assert (forall l (owners : gmap Z string), foldl (fun owners s => <[s := node]> owners) owners l !! slot =
    if decide (slot ∈ l) then Some node else owners !! slot) as Hl.
  { intros l. induction l as [|s l IH]; intros o; cbn [foldl]; [by rewrite decide_False by apply not_elem_of_nil|].
    rewrite IH. destruct (decide (slot ∈ l)) as [Hin|Hin]; [by rewrite decide_True by by right|].
    rewrite lookup_insert. destruct (decide (s = slot)) as [->|]; [by rewrite decide_True by by left|].
    rewrite decide_False; [done|]. rewrite not_elem_of_cons. auto. }
  rewrite Hl. repeat case_decide; try done; rewrite elem_of_seqZ in *; lia.
Qed.

Lemma slot_step_view m o slot :
  0 <= slot < SlotCount ->
  (owner_at (slot_step m o) slot, sm_migrating (slot_step m o) !! slot) = slot_view slot (owner_at m slot, sm_migrating m !! slot) o.
Proof.
  intros Hslot. destruct o as [start end_ node|s node|s target|s]; cbn [slot_step slot_view fst snd].
  - unfold SlotMap_Assign. destruct (decide (node = EmptyString)) as [->|Hn]; [by rewrite decide_False by tauto|].
    destruct (validSlot start) eqn:Hs; cbn [negb]; [|rewrite decide_False; [done|]; rewrite <- not_true_iff_false, validSlot_true in Hs; lia].
    destruct (validSlot end_) eqn:He; cbn [negb]; [|rewrite decide_False; [done|]; rewrite <- not_true_iff_false, validSlot_true in He; lia].
    apply validSlot_true in Hs, He. destruct (decide (start > end_)); [rewrite decide_False by lia; done|].
    cbn [fst]. unfold owner_at at 1. cbn [sm_owners sm_migrating]. rewrite assign_range_lookup.
    destruct (decide (start <= slot <= end_)); [rewrite decide_True by (split_and!; done || lia); done|rewrite decide_False by lia; done].
  - unfold SlotMap_Reassign. destruct (decide (node = EmptyString)) as [->|Hn]; [by rewrite decide_False by tauto|].
    destruct (validSlot s) eqn:Hs; cbn [negb]; [|rewrite decide_False; [done|]; intros [_ ->]; apply validSlot_true in Hslot; congruence].
    cbn [fst]. unfold owner_at at 1. cbn [sm_owners sm_migrating]. rewrite lookup_insert, lookup_delete.
    destruct (decide (s = slot)); [by rewrite decide_True|by rewrite decide_False by tauto].
  - unfold SlotMap_SetMigrating. destruct (decide (target = EmptyString)) as [->|Hn]; [by rewrite decide_False by tauto|].
    destruct (validSlot s) eqn:Hs; cbn [negb]; [|rewrite decide_False; [done|]; intros (_ & -> & _); apply validSlot_true in Hslot; congruence].
    destruct (decide (s = slot)) as [->|Hne].
    + destruct (decide (owner_at m slot = EmptyString)); cbn [fst]; [by rewrite decide_False by tauto|].
      rewrite decide_True by done. cbn. by rewrite lookup_insert_eq.
    + rewrite (decide_False (P := _ /\ _)) by tauto. destruct (decide (owner_at m s = EmptyString)); cbn; [done|]. by rewrite lookup_insert_ne.
  - unfold SlotMap_ClearMigrating. destruct (validSlot s) eqn:Hs; cbn [negb].
    + cbn. rewrite lookup_delete. unfold owner_at. cbn. by destruct (decide (s = slot)).
    + rewrite decide_False; [done|]. intros ->. apply validSlot_true in Hslot. congruence.
Qed.

Lemma slot_run_history ops slot :
  0 <= slot < SlotCount -> (owner_at (slot_run ops) slot, sm_migrating (slot_run ops) !! slot) = slot_history ops slot.
Proof.
  intros Hslot. induction ops as [|o ops IH] using rev_ind; [done|].
  unfold slot_run, slot_history in *. rewrite !foldl_app. cbn [foldl]. rewrite slot_step_view by done. by rewrite IH.
Qed.

Lemma Slot_range key : 0 <= Slot key < SlotCount.
Proof. apply Z.mod_pos_bound. done. Qed.

(** ** Properties *)

(** The table-driven CRC is the CRC.  For every byte string, [CRC16] equals the
    bit-serial shift register with polynomial 0x1021 and zero initial value, fed most
    significant bit first, and its result is a 16-bit value. *)
Theorem crc16_is_bit_serial data : Forall is_u8 data -> CRC16 data = crc_serial data /\ is_u16 (CRC16 data).
Proof. apply CRC16_serial. Qed.

(** Hash tags follow their grammar.  When the key reads [pre{body}post] with no
    opening brace in [pre], no closing brace in [body] and [body] not empty, exactly
    [body] is hashed, so all such keys share a slot; in every other case the whole
    key is hashed. *)
Theorem hashtag_exact :
  (forall pre body post, lbrace ∉ pre -> rbrace ∉ body -> body <> [] ->
     HashTag (pre ++ lbrace :: body ++ rbrace :: post) = body) /\
  (forall key, HashTag key = key \/
     exists pre body post, key = pre ++ lbrace :: body ++ rbrace :: post /\
       lbrace ∉ pre /\ rbrace ∉ body /\ body <> [] /\ HashTag key = body).
Proof.
  split.
  - intros pre body post Hpre Hbody Hne. unfold HashTag. rewrite index_byte_app, drop_after, index_byte_app by done.
    rewrite decide_False by (destruct body; done). apply take_app_length.
  - intros key. unfold HashTag. destruct (index_byte lbrace key) as [open|] eqn:Eo; [|by left].
    apply index_byte_Some in Eo as (pre & rest & -> & Hpre & <-). rewrite drop_after.
    destruct (index_byte rbrace rest) as [j|] eqn:Ej; [|by left].
    apply index_byte_Some in Ej as (body & post & -> & Hbody & <-). case_decide as Hj; [by left|]. right.
    exists pre, body, post. rewrite take_app_length. split_and!; [done|done|done|by destruct body|done].
Qed.

(** Routing follows the history.  After any sequence of slot operations (failed
    ones included) every key is routed by what the history says about its slot:
    unassigned slots are an error everywhere, every node but the owner answers MOVED
    to the owner, the owner serves keys it has, and for a missing key it answers ASK
    to the migration target set last, if that was not cleared or reassigned since. *)
Theorem slotmap_routes_by_history ops key :
  let slot := Slot key in
  let '(owner, migrating) := slot_history ops slot in
  let m := slot_run ops in
  (owner = EmptyString -> forall local present, SlotMap_Route m local key present = inl (ErrUnassignedSlot slot)) /\
  (owner <> EmptyString ->
    (forall local present, local <> owner -> SlotMap_Route m local key present = inr (mkRedirect Moved slot owner)) /\
    SlotMap_Route m owner key true = inr (mkRedirect NoRedirect slot owner) /\
    SlotMap_Route m owner key false =
      inr (match migrating with Some target => mkRedirect Ask slot target | None => mkRedirect NoRedirect slot owner end)).
Proof.
  cbv zeta. pose proof (slot_run_history ops (Slot key) (Slot_range key)) as Hh.
  destruct (slot_history ops (Slot key)) as [owner migrating]. injection Hh as Howner Hmig.
  unfold SlotMap_Route. rewrite Howner, Hmig. split.
  - intros -> local present. by rewrite decide_True.
  - intros Hne. rewrite !(decide_False (P := owner = EmptyString)) by done. split_and!.
    + intros local present Hl. by rewrite decide_False, decide_True by (done || by intros ->).
    + rewrite decide_False by tauto. by destruct migrating.
    + rewrite decide_False by tauto. by destruct migrating.
Qed.

Lemma crc16_is_bit_serial_witness : CRC16 (string_bytes "123456789") = 0x31C3 /\ CRC16 (string_bytes "123456789") = crc_serial (string_bytes "123456789").
Proof. split; [by vm_compute|]. apply (crc16_is_bit_serial (string_bytes "123456789")). apply string_bytes_u8. Defined.

(** A migration left behind by [Assign]: the new owner is told to ask itself. *)
Example stale_migration_asks_self :
  SlotMap_Route (slot_run [SAssign (Slot "k") (Slot "k") "a"; SSetMigrating (Slot "k") "b"; SAssign (Slot "k") (Slot "k") "b"]) "b" "k" false =
    inr (mkRedirect Ask (Slot "k") "b").
Proof. by vm_compute. Qed.
