(* ===== verification/SlotMigration.v ===== *)
(** * Atomic slot migration ([src/pkg/slotmigration/package.go])

    A controller owns the slot-to-node map and drives one migration at a time through
    PREPARE, TRANSFER and COMMIT or ABORT, one logical tick per step.  Proved: a slot
    never has no owner or two, and changes hands only at the commit; a migration
    completes in exactly its budget, or aborts at the first step after a failure. *)

From stdpp Require Import pretty.
From S2P Require Import Prelude.
Local Open Scope Z_scope.

Inductive Phase := PhaseIdle | PhasePrepare | PhaseTransfer | PhaseCommitted | PhaseAborted.

#[global] Instance Phase_eq_dec : EqDecision Phase.
Proof. solve_decision. Defined.

Definition Phase_String (p : Phase) : string :=
  match p with
  | PhaseIdle => "IDLE"
  | PhasePrepare => "PREPARE"
  | PhaseTransfer => "TRANSFER"
  | PhaseCommitted => "COMMITTED"
  | PhaseAborted => "ABORTED"
  end.

(** ** Logical time *)

Class Clock (C : Type) := { Clock_Now : C -> Z; Clock_Advance : Z -> C -> C * Z }.

Record LogicalClock := mkLogicalClock { lc_t : Z }.

Definition NewLogicalClock : LogicalClock := mkLogicalClock 0.
Definition LogicalClock_Now (c : LogicalClock) : Z := lc_t c.
Definition LogicalClock_Advance (delta : Z) (c : LogicalClock) : LogicalClock * Z :=
  let delta := if decide (delta < 0) then 0 else delta in
  let t := i64 (lc_t c + delta) in
  (mkLogicalClock t, t).

#[global] Instance LogicalClock_Clock : Clock LogicalClock :=
  {| Clock_Now := LogicalClock_Now; Clock_Advance := LogicalClock_Advance |}.

(** ** The controller *)

Inductive migration_error := ErrBusy | ErrNoMigration | ErrEmptyArg | ErrSameNode | ErrUnowned.

Record migration := mkMigration {
  mg_slot : string; mg_session : string; mg_src : string; mg_dst : string;
  mg_startTick : Z; mg_transferTick : Z; mg_failAtTransfer : bool }.

Record Controller (C : Type) := mkController {
  ct_clk : C;
  ct_owner : gmap string string;
  ct_alive : gmap string bool;
  ct_phase : Phase;
  ct_transferBudget : Z;
  ct_mig : option migration }.
Arguments mkController {_}.
Arguments ct_clk {_}.
Arguments ct_owner {_}.
Arguments ct_alive {_}.
Arguments ct_phase {_}.
Arguments ct_transferBudget {_}.
Arguments ct_mig {_}.

Section controller.
Context {C : Type} `{!Clock C}.
Implicit Types c : Controller C.

Definition NewController (clk : C) (transferTicks : Z) : Controller C :=
  mkController clk ∅ ∅ PhaseIdle (if decide (transferTicks < 1) then 1 else transferTicks) None.

Definition Controller_Seed (slot session owner : string) c : Controller C * option migration_error :=
  if decide (slot = EmptyString \/ session = EmptyString \/ owner = EmptyString) then (c, Some ErrEmptyArg)
  else (mkController (ct_clk c) (<[slot := owner]> (ct_owner c)) (<[session := true]> (ct_alive c))
          (ct_phase c) (ct_transferBudget c) (ct_mig c), None).

Definition Controller_Owner c (slot : string) : string * bool :=
  match ct_owner c !! slot with
  | Some o => (o, negb (bool_decide (o = EmptyString)))
  | None => (EmptyString, false)
  end.

Definition Controller_SessionAlive c (session : string) : bool := default false (ct_alive c !! session).

Definition Controller_Elapsed c : Z :=
  match ct_mig c with
  | None => 0
  | Some m => i64 (Clock_Now (ct_clk c) - mg_startTick m)
  end.

Definition Controller_StartMigration (slot session src dst : string) c : Controller C * option migration_error :=
  if decide (slot = EmptyString \/ session = EmptyString \/ src = EmptyString \/ dst = EmptyString) then (c, Some ErrEmptyArg)
  else if decide (src = dst) then (c, Some ErrSameNode)
  else if decide (ct_phase c = PhasePrepare \/ ct_phase c = PhaseTransfer) then (c, Some ErrBusy)
  else if decide (ct_owner c !! slot <> Some src) then (c, Some ErrUnowned)
  else (mkController (ct_clk c) (ct_owner c) (<[session := true]> (ct_alive c)) PhasePrepare (ct_transferBudget c)
          (Some (mkMigration slot session src dst (Clock_Now (ct_clk c)) (-1) false)), None).

(** The guard of [InjectTransferFailure] and [Abort]. *)
Definition in_flight c : option migration :=
  match ct_mig c with
  | None => None
  | Some m => if decide (ct_phase c = PhasePrepare \/ ct_phase c = PhaseTransfer) then Some m else None
  end.

Definition Controller_InjectTransferFailure c : Controller C * option migration_error :=
  match in_flight c with
  | None => (c, Some ErrNoMigration)
  | Some m =>
      (mkController (ct_clk c) (ct_owner c) (ct_alive c) (ct_phase c) (ct_transferBudget c)
         (Some (mkMigration (mg_slot m) (mg_session m) (mg_src m) (mg_dst m) (mg_startTick m) (mg_transferTick m) true)), None)
  end.

(** Called with the migration [m] in flight. *)
Definition Controller_commitNow (m : migration) c : Controller C :=
  mkController (ct_clk c) (<[mg_slot m := mg_dst m]> (ct_owner c)) (<[mg_session m := true]> (ct_alive c))
    PhaseCommitted (ct_transferBudget c) (ct_mig c).

Definition Controller_abortNow (m : migration) c : Controller C :=
  mkController (ct_clk c) (<[mg_slot m := mg_src m]> (ct_owner c)) (<[mg_session m := true]> (ct_alive c))
    PhaseAborted (ct_transferBudget c) (ct_mig c).

Definition with_clk (clk : C) c : Controller C :=
  mkController clk (ct_owner c) (ct_alive c) (ct_phase c) (ct_transferBudget c) (ct_mig c).

Definition Controller_Step c : Controller C * (Phase * option migration_error) :=
  match ct_mig c with
  | None => (c, (ct_phase c, Some ErrNoMigration))
  | Some m =>
      if decide (ct_phase c = PhaseIdle \/ ct_phase c = PhaseCommitted \/ ct_phase c = PhaseAborted)
      then (c, (ct_phase c, Some ErrNoMigration))
      else
        let '(clk, now) := Clock_Advance 1 (ct_clk c) in
        let c := with_clk clk c in
        let c' :=
          match ct_phase c with
          | PhasePrepare =>
              if mg_failAtTransfer m then Controller_abortNow m c
              else mkController (ct_clk c) (ct_owner c) (ct_alive c) PhaseTransfer (ct_transferBudget c)
                     (Some (mkMigration (mg_slot m) (mg_session m) (mg_src m) (mg_dst m) (mg_startTick m)
                              (i64 (now + ct_transferBudget c)) (mg_failAtTransfer m)))
          | PhaseTransfer =>
              if mg_failAtTransfer m then Controller_abortNow m c
              else if decide (now >= mg_transferTick m) then Controller_commitNow m c
              else c
          | _ => c
          end in
        (c', (ct_phase c', None))
  end.

Definition Controller_Abort c : Controller C * option migration_error :=
  match in_flight c with
  | None => (c, Some ErrNoMigration)
  | Some m => (Controller_abortNow m c, None)
  end.

Definition Controller_OwnerCount c (slot : string) : Z :=
  match ct_owner c !! slot with
  | None => 0
  | Some o => if decide (o = EmptyString) then 0 else 1
  end.

Definition Controller_Migrating c : string * string * string * string * bool :=
  match ct_mig c with
  | None => (EmptyString, EmptyString, EmptyString, EmptyString, false)
  | Some m => (mg_slot m, mg_session m, mg_src m, mg_dst m, bool_decide (ct_phase c = PhasePrepare \/ ct_phase c = PhaseTransfer))
  end.

(** ** Histories *)

Inductive mig_op :=
  | MSeed (slot session owner : string)
  | MStart (slot session src dst : string)
  | MInject
  | MStep
  | MAbort
  | MTick (delta : Z). (* another holder of the clock advances it *)

Definition mig_step c (o : mig_op) : Controller C :=
  match o with
  | MSeed slot session owner => (Controller_Seed slot session owner c).1
  | MStart slot session src dst => (Controller_StartMigration slot session src dst c).1
  | MInject => (Controller_InjectTransferFailure c).1
  | MStep => (Controller_Step c).1
  | MAbort => (Controller_Abort c).1
  | MTick delta => with_clk (Clock_Advance delta (ct_clk c)).1 c
  end.

Definition mig_run (clk : C) (ticks : Z) (ops : list mig_op) : Controller C := foldl mig_step (NewController clk ticks) ops.

(** A seed does not overwrite the slot of the migration in flight. *)
Definition leaves_migration c (o : mig_op) : Prop :=
  match o, in_flight c with
  | MSeed slot _ _, Some m => slot <> mg_slot m
  | _, _ => True
  end.

Fixpoint disciplined c (ops : list mig_op) : Prop :=
  match ops with
  | [] => True
  | o :: ops => leaves_migration c o /\ disciplined (mig_step c o) ops
  end.

(** ** Invariants *)

(** Recorded owners are node names, and the migration in flight is between two of them. *)
Record mig_ok c : Prop := {
  mo_owner : forall slot o, ct_owner c !! slot = Some o -> o <> EmptyString;
  mo_mig : forall m, in_flight c = Some m -> mg_src m <> EmptyString /\ mg_dst m <> EmptyString /\ mg_src m <> mg_dst m }.

(** The slot in flight is still the source's. *)
Definition src_owns c : Prop :=
  forall m, in_flight c = Some m -> ct_owner c !! mg_slot m = Some (mg_src m) /\ Controller_SessionAlive c (mg_session m) = true.

Lemma in_flight_Some c m : in_flight c = Some m <-> ct_mig c = Some m /\ (ct_phase c = PhasePrepare \/ ct_phase c = PhaseTransfer).
Proof. unfold in_flight. destruct (ct_mig c); [case_decide|]; naive_solver. Qed.

Lemma in_flight_phase c : ct_phase c = PhaseIdle \/ ct_phase c = PhaseCommitted \/ ct_phase c = PhaseAborted -> in_flight c = None.
Proof. unfold in_flight. intros Hp. destruct (ct_mig c); [|done]. rewrite decide_False; [done|]. intuition congruence. Qed.

(** What [Step] does to the migration in flight. *)
Inductive step_outcome (m : migration) c : Controller C -> Prop :=
  | step_prepare clk tick : ct_phase c = PhasePrepare -> step_outcome m c (mkController clk (ct_owner c) (ct_alive c) PhaseTransfer (ct_transferBudget c)
      (Some (mkMigration (mg_slot m) (mg_session m) (mg_src m) (mg_dst m) (mg_startTick m) tick (mg_failAtTransfer m))))
  | step_copy clk : ct_phase c = PhaseTransfer -> step_outcome m c (with_clk clk c)
  | step_commit clk : ct_phase c = PhaseTransfer -> step_outcome m c (Controller_commitNow m (with_clk clk c))
  | step_abort clk : step_outcome m c (Controller_abortNow m (with_clk clk c)).

Lemma Step_outcome c :
  match in_flight c with
  | Some m => step_outcome m c (Controller_Step c).1
  | None => (Controller_Step c).1 = c
  end.
Proof.
  unfold in_flight, Controller_Step. destruct (ct_mig c) as [m|]; [|done].
  destruct (ct_phase c) eqn:Hp; repeat first [rewrite decide_True by auto | rewrite decide_False by intuition congruence]; try done;
    destruct (Clock_Advance 1 (ct_clk c)) as [clk now]; cbn [fst with_clk ct_phase]; rewrite Hp;
    destruct (mg_failAtTransfer m) eqn:Hf; try by constructor.
  - cbn. rewrite <- Hf. by apply step_prepare.
  - case_decide; by constructor.
Qed.

Lemma alive_insert c session s : Controller_SessionAlive c s = true -> default false (<[session := true]> (ct_alive c) !! s) = true.
Proof. unfold Controller_SessionAlive. rewrite lookup_insert. by case_decide. Qed.

(** How one operation, leading from [c] to [c'], can change the owner of one slot. *)
Inductive owner_change c (o : mig_op) c' (slot : string) : Prop :=
  | owner_kept : ct_owner c' !! slot = ct_owner c !! slot -> owner_change c o c' slot
  | owner_seeded session owner : o = MSeed slot session owner -> owner <> EmptyString ->
      ct_owner c' !! slot = Some owner -> owner_change c o c' slot
  | owner_committed m : o = MStep -> in_flight c = Some m -> mg_slot m = slot ->
      ct_phase c' = PhaseCommitted -> ct_owner c' !! slot = Some (mg_dst m) -> owner_change c o c' slot
  | owner_aborted m : in_flight c = Some m -> mg_slot m = slot ->
      ct_phase c' = PhaseAborted -> ct_owner c' !! slot = Some (mg_src m) -> owner_change c o c' slot.

Lemma owner_step c o slot : owner_change c o (mig_step c o) slot.
Proof.
  destruct o as [s session owner|s session src dst| | | |d]; cbn [mig_step]; try by apply owner_kept.
  - unfold Controller_Seed. case_decide as Hd; [by apply owner_kept|]. destruct (decide (s = slot)) as [->|Hs].
    + eapply owner_seeded; [done|tauto|]. apply lookup_insert_eq.
    + apply owner_kept. by apply lookup_insert_ne.
  - unfold Controller_StartMigration. repeat case_decide; by apply owner_kept.
  - unfold Controller_InjectTransferFailure. destruct (in_flight c); by apply owner_kept.
  - pose proof (Step_outcome c) as Ho. destruct (in_flight c) as [m|] eqn:Hm; [|rewrite Ho; by apply owner_kept].
    destruct Ho; try by apply owner_kept.
    + destruct (decide (mg_slot m = slot)) as [<-|]; [by eapply owner_committed, lookup_insert_eq|by apply owner_kept, lookup_insert_ne].
    + destruct (decide (mg_slot m = slot)) as [<-|]; [by eapply owner_aborted, lookup_insert_eq|by apply owner_kept, lookup_insert_ne].
  - unfold Controller_Abort. destruct (in_flight c) as [m|] eqn:Hm; [|by apply owner_kept].
    destruct (decide (mg_slot m = slot)) as [<-|]; [by eapply owner_aborted, lookup_insert_eq|by apply owner_kept, lookup_insert_ne].
Qed.

(** Sessions are only ever marked alive. *)
Lemma alive_step c o s : Controller_SessionAlive c s = true -> Controller_SessionAlive (mig_step c o) s = true.
Proof.
  intros Hs. destruct o as [slot session owner|slot session src dst| | | |d]; cbn [mig_step]; [| | | | |done].
  - unfold Controller_Seed. case_decide; [done|]. by apply alive_insert.
  - unfold Controller_StartMigration. repeat case_decide; by (done || apply alive_insert).
  - unfold Controller_InjectTransferFailure. by destruct (in_flight c).
  - pose proof (Step_outcome c) as Ho. destruct (in_flight c) as [m|]; [|by rewrite Ho]. destruct Ho; by (done || apply alive_insert).
  - unfold Controller_Abort. destruct (in_flight c); by (done || apply alive_insert).
Qed.

(** How one operation can change the migration in flight. *)
Lemma in_flight_step c o m' :
  in_flight (mig_step c o) = Some m' ->
  (exists m, in_flight c = Some m /\ mg_slot m' = mg_slot m /\ mg_session m' = mg_session m /\ mg_src m' = mg_src m /\ mg_dst m' = mg_dst m) \/
  (o = MStart (mg_slot m') (mg_session m') (mg_src m') (mg_dst m') /\
   ct_owner (mig_step c o) !! mg_slot m' = Some (mg_src m') /\ Controller_SessionAlive (mig_step c o) (mg_session m') = true /\
   mg_src m' <> EmptyString /\ mg_dst m' <> EmptyString /\ mg_src m' <> mg_dst m').
Proof.
  destruct o as [s session owner|s session src dst| | | |d]; cbn [mig_step].
  - unfold Controller_Seed. case_decide; intros Hm; left; by exists m'.
  - unfold Controller_StartMigration. destruct (decide (_ \/ _)) as [|Hne]; [intros Hm; left; by exists m'|].
    destruct (decide (src = dst)); [intros Hm; left; by exists m'|].
    destruct (decide (_ \/ _)); [intros Hm; left; by exists m'|].
    destruct (decide (ct_owner c !! s <> Some src)) as [|Ho]; [intros Hm; left; by exists m'|].
    apply dec_stable in Ho. intros [[= <-] _]%in_flight_Some. right. cbn. split_and!; try (done || tauto).
    unfold Controller_SessionAlive. cbn. by rewrite lookup_insert_eq.
  - unfold Controller_InjectTransferFailure. destruct (in_flight c) as [m|] eqn:Hm; [|by cbn; rewrite Hm].
    intros [[= <-] _]%in_flight_Some. left. by exists m.
  - pose proof (Step_outcome c) as Ho. destruct (in_flight c) as [m|] eqn:Hm; [|by rewrite Ho, Hm].
    intros Hf. left. exists m. revert Hf. apply in_flight_Some in Hm as [Hm Hp]. destruct Ho; intros [Hm' Hp']%in_flight_Some; cbn in Hm', Hp'; naive_solver.
  - unfold Controller_Abort. destruct (in_flight c) as [m|] eqn:Hm; [|by cbn; rewrite Hm]. rewrite in_flight_phase by (cbn; tauto). done.
  - intros Hm. left. by exists m'.
Qed.

Lemma mig_ok_step c o : mig_ok c -> mig_ok (mig_step c o).
Proof.
  intros [Ho Hm]. split.
  - intros slot x. destruct (owner_step c o slot) as [Hx|? ? _ ? Hx|m _ Hf _ _ Hx|m Hf _ _ Hx]; rewrite Hx.
    + apply Ho.
    + by intros [= <-].
    + intros [= <-]. by apply Hm.
    + intros [= <-]. by apply Hm.
  - intros m' [(m & Hf & _ & _ & -> & ->)|(_ & _ & _ & ?)]%in_flight_step; [by apply Hm|done].
Qed.

Lemma src_owns_step c o : src_owns c -> leaves_migration c o -> src_owns (mig_step c o).
Proof.
  intros Hs Hl m' Hm'. destruct (in_flight_step _ _ _ Hm') as [(m & Hf & Hslot & Hsess & Hsrc & _)|(_ & ? & ? & _)]; [|done].
  destruct (Hs m Hf) as [Hown Hal]. rewrite Hslot, Hsrc, Hsess. split; [|by apply alive_step].
  destruct (owner_step c o (mg_slot m)) as [Hx|? ? -> _ _|? _ _ _ Hp _|? _ _ Hp _].
  - by rewrite Hx.
  - cbn in Hl. by rewrite Hf in Hl.
  - rewrite in_flight_phase in Hm' by tauto. done.
  - rewrite in_flight_phase in Hm' by tauto. done.
Qed.

Lemma mig_run_ok clk ticks ops : mig_ok (mig_run clk ticks ops).
Proof.
  unfold mig_run. assert (mig_ok (NewController clk ticks)) as Hc by (split; by intros).
  revert Hc. generalize (NewController clk ticks). induction ops as [|o ops IH]; intros c Hc; [done|]. by apply IH, mig_ok_step.
Qed.

Lemma mig_run_src_owns clk ticks ops : disciplined (NewController clk ticks) ops -> src_owns (mig_run clk ticks ops).
Proof.
  unfold mig_run. assert (src_owns (NewController clk ticks)) as Hc by by intros ? ?.
  revert Hc. generalize (NewController clk ticks). induction ops as [|o ops IH]; intros c Hc; [done|].
  intros [Hl Hd]. by apply IH; [apply src_owns_step|].
Qed.

Lemma mig_run_budget clk ticks ops : ct_transferBudget (mig_run clk ticks ops) = Z.max 1 ticks.
Proof.
  unfold mig_run. assert (ct_transferBudget (NewController clk ticks) = Z.max 1 ticks) as Hc by (cbn; case_decide; lia).
  revert Hc. generalize (NewController clk ticks). induction ops as [|o ops IH]; intros c Hc; [done|]. apply IH. rewrite <- Hc.
  destruct o; cbn [mig_step]; [| | | | |done].
  - unfold Controller_Seed. by case_decide.
  - unfold Controller_StartMigration. by repeat case_decide.
  - unfold Controller_InjectTransferFailure. by destruct (in_flight c).
  - pose proof (Step_outcome c) as Ho. destruct (in_flight c); [by destruct Ho|by rewrite Ho].
  - unfold Controller_Abort. by destruct (in_flight c).
Qed.

Lemma Owner_lookup c slot x : ct_owner c !! slot = Some x -> x <> EmptyString -> Controller_Owner c slot = (x, true).
Proof. intros Hx Hne. unfold Controller_Owner. rewrite Hx. by rewrite bool_decide_false. Qed.

Lemma OwnerCount_one c slot : mig_ok c -> Controller_OwnerCount c slot = 1 <-> is_Some (ct_owner c !! slot).
Proof.
  intros Hok. unfold Controller_OwnerCount. destruct (ct_owner c !! slot) as [x|] eqn:Hx.
  - rewrite decide_False by by eapply mo_owner. split; [by eauto|done].
  - split; [done|by intros [? ?]].
Qed.
End controller.

Arguments mig_run {_ _}.

(** ** The timeline of a migration under the package's clock *)

Definition steps {C} `{!Clock C} (n : nat) (c : Controller C) : Controller C := Nat.iter n (fun c => (Controller_Step c).1) c.

Lemma steps_S {C} `{!Clock C} n (c : Controller C) : steps (S n) c = (Controller_Step (steps n c)).1.
Proof. apply Nat.iter_succ. Qed.

Section timeline.
Variables (t0 B : Z) (owner : gmap string string) (alive : gmap string bool) (slot session src dst : string).
Hypothesis budget : 1 <= B.
Hypothesis time : MinInt64 <= t0 /\ t0 + 1 + B <= MaxInt64.

(** The controller [n] steps into the migration. *)
Definition copying (n : nat) : Controller LogicalClock :=
  mkController (mkLogicalClock (t0 + Z.of_nat n)) owner alive PhaseTransfer B (Some (mkMigration slot session src dst t0 (t0 + 1 + B) false)).
Definition prepared : Controller LogicalClock :=
  mkController (mkLogicalClock t0) owner alive PhasePrepare B (Some (mkMigration slot session src dst t0 (-1) false)).

(** Unfold one step under the logical clock, resolving its guards. *)
Ltac run_step :=
  unfold Controller_Step, copying, prepared; cbn -[Z.of_nat i64]; unfold LogicalClock_Advance; cbn -[Z.of_nat i64];
  rewrite ?(decide_False (P := 1 < 0)) by lia; rewrite decide_False by intuition congruence; cbn -[Z.of_nat i64].

Lemma step_prepared : (Controller_Step prepared).1 = copying 1.
Proof.
  run_step. rewrite !(i64_id (t0 + 1)), i64_id by int_lia. done.
Qed.

Lemma step_copying n : Z.of_nat n < B -> (Controller_Step (copying n)).1 = copying (S n).
Proof.
  intros Hn. run_step. rewrite !i64_id by int_lia.
  rewrite decide_False by lia. unfold with_clk. cbn -[Z.of_nat]. do 2 f_equal. lia.
Qed.

Lemma step_copied n : Z.of_nat n = B ->
  (Controller_Step (copying n)).1 = Controller_commitNow (mkMigration slot session src dst t0 (t0 + 1 + B) false) (copying (S n)).
Proof.
  intros Hn. run_step. rewrite !i64_id by int_lia.
  rewrite decide_True by lia. unfold Controller_commitNow, with_clk. cbn -[Z.of_nat]. do 2 f_equal. lia.
Qed.

Lemma steps_copying n : (1 <= n)%nat -> Z.of_nat n <= B -> steps n prepared = copying n.
Proof.
  induction n as [|n IH]; [lia|]. intros _ Hn. rewrite steps_S. destruct n as [|n]; [apply step_prepared|].
  rewrite IH by lia. apply step_copying. lia.
Qed.

Lemma steps_committed n : Z.of_nat n = B + 1 ->
  steps n prepared = Controller_commitNow (mkMigration slot session src dst t0 (t0 + 1 + B) false) (copying n).
Proof.
  destruct n as [|n]; [lia|]. intros Hn. rewrite steps_S, steps_copying by lia. apply step_copied. lia.
Qed.

(** A failure injected before the commit aborts at the next step. *)
Lemma inject_aborts n : Z.of_nat n <= B ->
  let c' := (Controller_Step (Controller_InjectTransferFailure (steps n prepared)).1).1 in
  ct_phase c' = PhaseAborted /\ ct_owner c' = <[slot := src]> owner.
Proof.
  intros Hn. destruct n as [|n]; [done|]. rewrite steps_copying by lia. done.
Qed.
End timeline.

Lemma Start_prepared (c : Controller LogicalClock) slot session src dst :
  (Controller_StartMigration slot session src dst c).2 = None ->
  (Controller_StartMigration slot session src dst c).1 =
    prepared (lc_t (ct_clk c)) (ct_transferBudget c) (ct_owner c) (<[session := true]> (ct_alive c)) slot session src dst /\
  ct_owner c !! slot = Some src /\ src <> EmptyString /\ dst <> EmptyString.
Proof.
  unfold Controller_StartMigration. destruct (decide (_ \/ _)) as [|Hne]; [done|]. destruct (decide (src = dst)); [done|].
  destruct (decide (_ \/ _)); [done|]. destruct (decide (ct_owner c !! slot <> Some src)) as [|Ho]; [done|].
  apply dec_stable in Ho. intros _. split_and!; [unfold prepared; by destruct c as [[t] ?]|done|tauto|tauto].
Qed.

(** ** Properties *)

(** C8: ownership is atomic.  Take any history of the controller, under any clock, and
    one more operation.  A slot with exactly one owner keeps exactly one, and a live
    session stays live.  If moreover neither the history nor the operation seeds the slot
    of a migration while that migration is in flight ([reseed_then_abort] shows why), then
    throughout the migration the source, which is not the destination, is the owner and
    the session is live, and the operation changes the owner of a slot only by seeding it
    or by the committing step, which takes it from the source to the destination; an abort
    changes no owner. *)
Theorem slotmigration_ownership_atomic {C} `{!Clock C} (clk : C) ticks ops o :
  let c := mig_run clk ticks ops in
  let c' := mig_step c o in
  (forall slot, Controller_OwnerCount c slot = 1 -> Controller_OwnerCount c' slot = 1) /\
  (forall s, Controller_SessionAlive c s = true -> Controller_SessionAlive c' s = true) /\
  (disciplined (NewController clk ticks) ops -> leaves_migration c o ->
   (forall m, in_flight c = Some m ->
      mg_src m <> mg_dst m /\ Controller_Owner c (mg_slot m) = (mg_src m, true) /\ Controller_SessionAlive c (mg_session m) = true) /\
   (forall slot,
      Controller_Owner c' slot = Controller_Owner c slot \/
      (exists session owner, o = MSeed slot session owner /\ Controller_Owner c' slot = (owner, true)) \/
      (exists m, o = MStep /\ in_flight c = Some m /\ mg_slot m = slot /\ ct_phase c' = PhaseCommitted /\
         Controller_Owner c slot = (mg_src m, true) /\ Controller_Owner c' slot = (mg_dst m, true)))).
Proof.
  cbv zeta. pose proof (mig_run_ok clk ticks ops) as Hok. pose proof (mig_run_src_owns clk ticks ops) as Hsrc.
  revert Hok Hsrc. generalize (mig_run clk ticks ops). intros c Hok Hsrc. pose proof (mig_ok_step c o Hok) as Hok'. split_and!.
  - intros slot. rewrite !OwnerCount_one by done.
    destruct (owner_step c o slot) as [Hx|? ? _ ? Hx|m _ Hf _ _ Hx|m Hf _ _ Hx]; rewrite Hx; [done|by eauto..].
  - intros s. apply alive_step.
  - intros Hd Hl. specialize (Hsrc Hd).
    assert (forall m, in_flight c = Some m -> Controller_Owner c (mg_slot m) = (mg_src m, true)) as Hown.
    { intros m Hf. apply Owner_lookup; [by apply Hsrc|by apply (mo_mig c Hok)]. }
    split.
    + intros m Hf. split_and!; [by apply (mo_mig c Hok)|by apply Hown|by apply Hsrc].
    + intros slot. destruct (owner_step c o slot) as [Hx|? ? -> ? Hx|m -> Hf <- Hp Hx|m Hf <- _ Hx].
      * left. unfold Controller_Owner. by rewrite Hx.
      * right; left. eexists _, _. split; [done|]. by apply Owner_lookup.
      * right; right. exists m. split_and!; try done; [by apply Hown|]. apply Owner_lookup; [done|]. by apply (mo_mig c Hok).
      * left. rewrite (Hown m Hf). apply Owner_lookup; [done|]. by apply (mo_mig c Hok).
Qed.

(** A migration completes in its budget.  After any history, a migration that
    starts at tick [t] with a budget of [B] ticks (one at least) that do not overflow
    the clock commits at step [B + 1] and at no earlier one: until then the source
    owns the slot, from then on the destination does, and [B + 1] ticks have elapsed.
    A failure injected at any point before aborts at the next step, with the source
    the owner. *)
Theorem slotmigration_completes clk ticks ops slot session src dst :
  let c := mig_run clk ticks ops in
  let B := Z.max 1 ticks in
  let started := (Controller_StartMigration slot session src dst c).1 in
  0 <= lc_t (ct_clk c) -> lc_t (ct_clk c) + 1 + B <= MaxInt64 ->
  (Controller_StartMigration slot session src dst c).2 = None ->
  (forall n, Z.of_nat n <= B ->
     ct_phase (steps n started) = (if decide (n = 0%nat) then PhasePrepare else PhaseTransfer) /\
     Controller_Owner (steps n started) slot = (src, true)) /\
  (let done := steps (Z.to_nat (B + 1)) started in
     ct_phase done = PhaseCommitted /\ Controller_Owner done slot = (dst, true) /\
     Controller_SessionAlive done session = true /\ Controller_Elapsed done = B + 1 /\
     Controller_Step done = (done, (PhaseCommitted, Some ErrNoMigration))) /\
  (forall n, Z.of_nat n <= B ->
     let failed := (Controller_Step (Controller_InjectTransferFailure (steps n started)).1).1 in
     ct_phase failed = PhaseAborted /\ Controller_Owner failed slot = (src, true)).
Proof.
  cbv zeta. intros Ht HB Hstart. apply Start_prepared in Hstart as (-> & Hown & Hsrc & Hdst). rewrite mig_run_budget.
  revert Ht HB Hown. generalize (mig_run clk ticks ops). intros c Ht HB Hown. set (B := Z.max 1 ticks) in *.
  assert (1 <= B) as HB1 by lia. split; [|split].
  - intros n Hn. destruct n as [|n]; [split; [done|by apply Owner_lookup]|].
    rewrite steps_copying by int_lia. split; [done|by apply Owner_lookup].
  - rewrite steps_committed by int_lia. split_and!; [done| | | |done].
    + apply Owner_lookup; [apply lookup_insert_eq|done].
    + unfold Controller_SessionAlive. cbn. by rewrite lookup_insert_eq.
    + unfold Controller_Elapsed. cbn -[Z.of_nat]. unfold LogicalClock_Now. cbn -[Z.of_nat]. rewrite i64_id; int_lia.
  - intros n Hn. destruct (inject_aborts (lc_t (ct_clk c)) B (ct_owner c) (<[session:=true]> (ct_alive c)) slot session src dst HB1
      ltac:(int_lia) n Hn) as [Hp Ho].
    split; [done|]. apply Owner_lookup; [|done]. rewrite Ho. apply lookup_insert_eq.
Qed.

Lemma slotmigration_completes_witness :
  let c := mig_run NewLogicalClock 3 [MSeed "s" "u" "a"] in
  let started := (Controller_StartMigration "s" "u" "a" "b" c).1 in
  let done := steps 4 started in
  Controller_Owner (steps 3 started) "s" = ("a", true) /\ Controller_Owner done "s" = ("b", true) /\ Controller_Elapsed done = 4.
Proof.
  cbv zeta. destruct (slotmigration_completes NewLogicalClock 3 [MSeed "s" "u" "a"] "s" "u" "a" "b") as (Hc & (_ & Hd & _ & He & _) & _);
    [by_eval|by_eval|by vm_compute|]. split_and!; [apply Hc; lia|exact Hd|exact He].
Defined.

(** A migration about to commit: the next step moves the slot. *)
Lemma slotmigration_ownership_atomic_witness :
  let c := mig_run NewLogicalClock 1 [MSeed "s" "u" "a"; MStart "s" "u" "a" "b"; MStep] in
  Controller_OwnerCount (mig_step c MStep) "s" = 1 /\ Controller_SessionAlive (mig_step c MStep) "u" = true /\
  exists m, in_flight c = Some m /\ Controller_Owner c "s" = (mg_src m, true) /\ Controller_Owner (mig_step c MStep) "s" = (mg_dst m, true).
Proof.
  cbv zeta. destruct (slotmigration_ownership_atomic NewLogicalClock 1 [MSeed "s" "u" "a"; MStart "s" "u" "a" "b"; MStep] MStep) as (Hc & Ha & Hd).
  split; [apply Hc; by vm_compute|]. split; [apply Ha; by vm_compute|].
  destruct Hd as [_ Hs]; [split_and!; by vm_compute|by vm_compute|].
  destruct (Hs "s") as [E|[(? & ? & E & _)|(m & _ & Hm & _ & _ & H1 & H2)]]; [vm_compute in E; discriminate|discriminate|by exists m].
Defined.

(** A seed in mid-flight is undone by the abort. *)
Example reseed_then_abort :
  Controller_Owner (mig_run NewLogicalClock 3 [MSeed "s" "u" "a"; MStart "s" "u" "a" "b"; MSeed "s" "u" "c"; MAbort]) "s" = ("a", true).
Proof. by vm_compute. Qed.

(** Near the end of the clock's range the completion tick wraps and the copy is cut short. *)
Example late_transfer_is_cut_short :
  ct_phase (mig_run NewLogicalClock 1000 [MTick (MaxInt64 - 10); MSeed "s" "u" "a"; MStart "s" "u" "a" "b"; MStep; MStep]) = PhaseCommitted.
Proof. by vm_compute. Qed.
