(* ===== verification/SwimMember.v ===== *)
(** * SWIM membership records ([src/pkg/swim/member.go], [gossip.go], [failure_detector.go])

    A member's state with its incarnation number, the bounded buffer of membership
    events, and the failure detector's table of suspicions.  The wall clock is an
    argument [now] of the operations that read it. *)

From S2P Require Import Prelude.
Local Open Scope Z_scope.

(** ** Members *)

Inductive MemberState := StateAlive | StateSuspect | StateDead | StateLeft.

#[global] Instance MemberState_eq_dec : EqDecision MemberState.
Proof. solve_decision. Defined.

(** The constant's value, which orders the states. *)
Definition state_num (s : MemberState) : Z :=
  match s with StateAlive => 0 | StateSuspect => 1 | StateDead => 2 | StateLeft => 3 end.

Record Member := mkMember {
  mb_ID : string; mb_Address : string; mb_State : MemberState; mb_Incarnation : Z;
  mb_Metadata : gmap string string; mb_lastSeen : Z }.

Definition Member_UpdateState (state : MemberState) (incarnation now : Z) (m : Member) : Member * bool :=
  if decide (incarnation < mb_Incarnation m) then (m, false)
  else if decide (incarnation = mb_Incarnation m /\ state_num state < state_num (mb_State m)) then (m, false)
  else (mkMember (mb_ID m) (mb_Address m) state incarnation (mb_Metadata m) now, true).

Definition Member_ClearSuspect (now : Z) (m : Member) : Member * bool :=
  if decide (mb_State m = StateSuspect)
  then (mkMember (mb_ID m) (mb_Address m) StateAlive (mb_Incarnation m) (mb_Metadata m) now, true)
  else (m, false).

Definition Member_IsHealthy (m : Member) : bool := bool_decide (mb_State m = StateAlive).
(** [time.Since] saturates at the range of [time.Duration]. *)
Definition Member_TimeSinceLastSeen (now : Z) (m : Member) : Z := Z.max MinInt64 (Z.min MaxInt64 (now - mb_lastSeen m)).
Definition Member_LastSeen (m : Member) : Z := mb_lastSeen m.
Definition Member_Touch (now : Z) (m : Member) : Member :=
  mkMember (mb_ID m) (mb_Address m) (mb_State m) (mb_Incarnation m) (mb_Metadata m) now.

(** ** The gossip buffer *)

Record GossipEvent := mkGossipEvent { ge_MemberID : string; ge_State : MemberState; ge_Incarnation : Z; ge_Timestamp : Z }.
Record GossipBuffer := mkGossipBuffer { gb_events : list GossipEvent; gb_maxSize : Z }.

Definition NewGossipBuffer (maxSize : Z) : GossipBuffer :=
  mkGossipBuffer [] (if decide (maxSize <= 0) then 100 else maxSize).

Definition GossipBuffer_Add (event : GossipEvent) (gb : GossipBuffer) : GossipBuffer :=
  let events := if decide (Z.of_nat (length (gb_events gb)) >= gb_maxSize gb) then drop 1 (gb_events gb) else gb_events gb in
  mkGossipBuffer (events ++ [event]) (gb_maxSize gb).

Definition GossipBuffer_Recent (n : Z) (gb : GossipBuffer) : list GossipEvent :=
  if decide (n <= 0) then []
  else
    let len := Z.of_nat (length (gb_events gb)) in
    let n := if decide (n > len) then len else n in
    drop (Z.to_nat (len - n)) (gb_events gb).

(** [rand.Shuffle] permutes its argument; the permutation chosen is [shuffle]. *)
Definition RandomMembers (shuffle : list Member -> list Member) (members : list Member) (k : Z) (excludeID : string) : list Member :=
  if decide (k <= 0 \/ members = []) then []
  else
    let filtered := filter (fun m => mb_ID m <> excludeID /\ Member_IsHealthy m = true) members in
    if decide (filtered = []) then []
    else
      let k := if decide (k > Z.of_nat (length filtered)) then Z.of_nat (length filtered) else k in
      take (Z.to_nat k) (shuffle filtered).

(** ** The failure detector *)

(** [sr_timer] is the instant at which the record's timer fires. *)
Record suspectRecord := mkSuspectRecord { sr_memberID : string; sr_incarnation : Z; sr_startedAt : Z; sr_timer : Z }.

Record FailureDetector := mkFailureDetector { fd_suspects : gmap string suspectRecord; fd_timeout : Z }.

Definition NewFailureDetector (timeout : Z) : FailureDetector :=
  mkFailureDetector ∅ (if decide (timeout <= 0) then 5000000000 else timeout).

Definition FailureDetector_Suspect (memberID : string) (incarnation now : Z) (fd : FailureDetector) : FailureDetector :=
  match fd_suspects fd !! memberID with
  | Some existing =>
      if decide (incarnation > sr_incarnation existing)
      then mkFailureDetector (<[memberID := mkSuspectRecord (sr_memberID existing) incarnation (sr_startedAt existing) (sr_timer existing)]>
                                (fd_suspects fd)) (fd_timeout fd)
      else fd
  | None => mkFailureDetector (<[memberID := mkSuspectRecord memberID incarnation now (now + fd_timeout fd)]> (fd_suspects fd)) (fd_timeout fd)
  end.

(** [Refute] and [Confirm] drop the record and report whether the callback runs. *)
Definition FailureDetector_Refute (memberID : string) (fd : FailureDetector) : FailureDetector * bool :=
  match fd_suspects fd !! memberID with
  | None => (fd, false)
  | Some _ => (mkFailureDetector (delete memberID (fd_suspects fd)) (fd_timeout fd), true)
  end.

Definition FailureDetector_Confirm (memberID : string) (fd : FailureDetector) : FailureDetector * bool :=
  match fd_suspects fd !! memberID with
  | None => (fd, false)
  | Some _ => (mkFailureDetector (delete memberID (fd_suspects fd)) (fd_timeout fd), true)
  end.

Definition FailureDetector_IsSuspected (fd : FailureDetector) (memberID : string) : bool :=
  match fd_suspects fd !! memberID with Some _ => true | None => false end.

Definition FailureDetector_SuspectCount (fd : FailureDetector) : Z := Z.of_nat (size (fd_suspects fd)).

(** ** The order of statuses

    A status is an incarnation with a state; [UpdateState] joins a status into the
    member's in the lexicographic order. *)
Definition status : Type := Z * MemberState.

Definition status_le (a b : status) : Prop := a.1 < b.1 \/ (a.1 = b.1 /\ state_num a.2 <= state_num b.2).

#[global] Instance status_le_dec a b : Decision (status_le a b).
Proof. unfold status_le. apply _. Defined.

Definition status_join (a b : status) : status := if decide (status_le a b) then b else a.
Definition Member_status (m : Member) : status := (mb_Incarnation m, mb_State m).

Lemma state_num_inj s t : state_num s = state_num t -> s = t.
Proof. by destruct s, t. Qed.

#[global] Instance status_le_total : TotalOrder status_le.
Proof.
  unfold status_le. split; [split; [split|]|].
  - intros [i s]. right. cbn. lia.
  - intros [i s] [j t] [k u]. cbn. lia.
  - intros [i s] [j t]. cbn. intros H1 H2. assert (i = j /\ state_num s = state_num t) as [-> Hs%state_num_inj] by lia. by subst.
  - intros [i s] [j t]. unfold strict. cbn. destruct (decide (i = j)) as [->|]; [|lia].
    destruct (decide (state_num s = state_num t)) as [->%state_num_inj|]; [auto|lia].
Qed.

Lemma UpdateState_join state incarnation now m :
  Member_status (Member_UpdateState state incarnation now m).1 = status_join (Member_status m) (incarnation, state) /\
  ((Member_UpdateState state incarnation now m).2 = true <-> status_le (Member_status m) (incarnation, state)).
Proof.
  unfold Member_UpdateState, status_join, Member_status. destruct (decide (incarnation < mb_Incarnation m)) as [Hlt|Hlt].
  - rewrite decide_False by (unfold status_le; cbn; lia). cbn. split; [done|]. split; [done|]. unfold status_le. cbn. lia.
  - destruct (decide (incarnation = _ /\ _)) as [[Heq Hs]|Hs].
    + rewrite decide_False by (unfold status_le; cbn; lia). cbn. split; [done|]. split; [done|]. unfold status_le. cbn. lia.
    + rewrite decide_True by (unfold status_le; cbn; lia). cbn. split; [done|]. split; [|done]. intros _. unfold status_le. cbn. lia.
Qed.

Lemma status_join_lub a b : status_le a (status_join a b) /\ status_le b (status_join a b).
Proof. unfold status_join. case_decide; split; try done. by destruct (total status_le a b). Qed.

(** The join of a list is its largest element: it depends on the elements alone. *)
Lemma foldl_join_max (a : status) (l : list status) :
  foldl status_join a l ∈ a :: l /\ Forall (fun b => status_le b (foldl status_join a l)) (a :: l).
Proof.
  revert a. induction l as [|b l IH]; intros a; cbn [foldl].
  - split; [by left|]. by constructor.
  - destruct (IH (status_join a b)) as [Hin Hle]. destruct (status_join_lub a b) as [Ha Hb]. apply Forall_cons in Hle as [Hj Hl].
    split.
    + apply elem_of_cons in Hin as [->|Hin]; [|by do 2 right]. unfold status_join. case_decide; [right; left|left].
    + constructor; [by etrans|]. constructor; [by etrans|done].
Qed.

Lemma foldl_join_set (a : status) (l l' : list status) :
  (forall b, b ∈ l <-> b ∈ l') -> foldl status_join a l = foldl status_join a l'.
Proof.
  intros Hl. destruct (foldl_join_max a l) as [H1 H2]. destruct (foldl_join_max a l') as [H3 H4].
  rewrite Forall_forall in H2, H4. apply (anti_symm status_le).
  - apply H4. apply elem_of_cons in H1 as [->|H1]; [by left|]. right. by apply Hl.
  - apply H2. apply elem_of_cons in H3 as [->|H3]; [by left|]. right. by apply Hl.
Qed.

(** The table of suspicions, slot by slot. *)
Lemma Suspect_lookup fd id inc now x :
  is_Some (fd_suspects (FailureDetector_Suspect id inc now fd) !! x) <-> x = id \/ is_Some (fd_suspects fd !! x).
Proof.
  unfold FailureDetector_Suspect. destruct (fd_suspects fd !! id) as [r|] eqn:Hr; [case_decide|]; cbn.
  - destruct (decide (x = id)) as [->|]; [rewrite lookup_insert_eq|rewrite lookup_insert_ne by done]; naive_solver.
  - naive_solver.
  - destruct (decide (x = id)) as [->|]; [rewrite lookup_insert_eq|rewrite lookup_insert_ne by done]; naive_solver.
Qed.

Lemma Refute_lookup fd id x : fd_suspects (FailureDetector_Refute id fd).1 !! x = if decide (x = id) then None else fd_suspects fd !! x.
Proof.
  unfold FailureDetector_Refute. destruct (fd_suspects fd !! id) eqn:Hr; cbn; case_decide as Hx; subst; try done.
  - apply lookup_delete_eq.
  - by apply lookup_delete_ne.
Qed.

Lemma Confirm_Refute id fd : FailureDetector_Confirm id fd = FailureDetector_Refute id fd.
Proof. done. Qed.
