(* ===== verification/Swim.v ===== *)
(** * The SWIM protocol ([src/pkg/swim/protocol.go])

    Handlers of the gossip protocol as functions from a node's state to its next state
    and the messages it sends.  Proved: rumours about a member converge whatever their
    order and duplication; a node stays alive in its own table; and exactly when a
    suspected node's refutation is heard. *)

From S2P Require Import Prelude SwimMember.
Local Open Scope Z_scope.

Definition bumpIncarnation (inc : Z) : Z := if decide (inc = MaxUint32) then MaxUint32 else u32 (inc + 1).

Inductive MessageType := MsgPing | MsgPingReq | MsgAck | MsgSuspect | MsgAlive | MsgDead | MsgJoin | MsgLeave.

#[global] Instance MessageType_eq_dec : EqDecision MessageType.
Proof. solve_decision. Defined.

Record Message := mkMessage { m_Type : MessageType; m_SourceID : string; m_TargetID : string; m_Incarnation : Z; m_Payload : string }.

#[global] Instance Message_eq_dec : EqDecision Message.
Proof. solve_decision. Defined.

(** The context's cancellation, the closed [shutdown] channel and the closed transport
    are one flag, set by [Stop]. *)
Record Protocol := mkProtocol {
  p_localID : string; p_localAddr : string; p_members : gmap string Member;
  p_probeInterval : Z; p_probeTimeout : Z; p_suspicionMult : Z; p_gossipCount : Z; p_gossipInterval : Z;
  p_incarnation : Z; p_stopped : bool; p_gossipBuffer : GossipBuffer; p_fd : FailureDetector }.

Record Config := mkConfig {
  cf_LocalID : string; cf_ProbeInterval : Z; cf_ProbeTimeout : Z; cf_SuspicionMult : Z; cf_GossipCount : Z; cf_GossipInterval : Z }.

Definition positive_or (d x : Z) : Z := if decide (x <= 0) then d else x.

(** [localAddr] is the address of the transport, [now] the wall clock. *)
Definition NewProtocol (localAddr : string) (now : Z) (cfg : Config) : option Protocol :=
  if decide (cf_LocalID cfg = EmptyString) then None
  else
    let probeInterval := positive_or 1000000000 (cf_ProbeInterval cfg) in
    let suspicionMult := positive_or 4 (cf_SuspicionMult cfg) in
    let self := mkMember (cf_LocalID cfg) localAddr StateAlive 0 ∅ 0 in
    Some (mkProtocol (cf_LocalID cfg) localAddr {[cf_LocalID cfg := Member_Touch now self]}
            probeInterval (positive_or 500000000 (cf_ProbeTimeout cfg)) suspicionMult
            (positive_or 3 (cf_GossipCount cfg)) (positive_or 200000000 (cf_GossipInterval cfg))
            0 false (NewGossipBuffer 100) (NewFailureDetector (i64 (suspicionMult * probeInterval)))).

(** ** Field updates *)

Definition with_members (ms : gmap string Member) (p : Protocol) : Protocol :=
  mkProtocol (p_localID p) (p_localAddr p) ms (p_probeInterval p) (p_probeTimeout p) (p_suspicionMult p) (p_gossipCount p)
    (p_gossipInterval p) (p_incarnation p) (p_stopped p) (p_gossipBuffer p) (p_fd p).
Definition with_incarnation (inc : Z) (p : Protocol) : Protocol :=
  mkProtocol (p_localID p) (p_localAddr p) (p_members p) (p_probeInterval p) (p_probeTimeout p) (p_suspicionMult p) (p_gossipCount p)
    (p_gossipInterval p) inc (p_stopped p) (p_gossipBuffer p) (p_fd p).
Definition with_gossip (e : GossipEvent) (p : Protocol) : Protocol :=
  mkProtocol (p_localID p) (p_localAddr p) (p_members p) (p_probeInterval p) (p_probeTimeout p) (p_suspicionMult p) (p_gossipCount p)
    (p_gossipInterval p) (p_incarnation p) (p_stopped p) (GossipBuffer_Add e (p_gossipBuffer p)) (p_fd p).
Definition with_fd (fd : FailureDetector) (p : Protocol) : Protocol :=
  mkProtocol (p_localID p) (p_localAddr p) (p_members p) (p_probeInterval p) (p_probeTimeout p) (p_suspicionMult p) (p_gossipCount p)
    (p_gossipInterval p) (p_incarnation p) (p_stopped p) (p_gossipBuffer p) fd.

Definition Protocol_Stop (p : Protocol) : Protocol :=
  mkProtocol (p_localID p) (p_localAddr p) (p_members p) (p_probeInterval p) (p_probeTimeout p) (p_suspicionMult p) (p_gossipCount p)
    (p_gossipInterval p) (p_incarnation p) true (p_gossipBuffer p) (p_fd p).

Definition Protocol_Members (p : Protocol) : list Member := (map_to_list (p_members p)).*2.
Definition Protocol_HealthyMembers (p : Protocol) : list Member := filter (fun m => Member_IsHealthy m = true) (Protocol_Members p).
Definition Protocol_Incarnation (p : Protocol) : Z := p_incarnation p.

Section handlers.

(** [net.ResolveUDPAddr] of the host: the UDP address of a textual one, if it has one. *)
Context (resolve : string -> option string).

(** Messages sent, with the address each goes to. *)
Notation sent := (list (Message * string)).

Definition send_to (msg : Message) (address : string) : sent :=
  match resolve address with Some udp => [(msg, udp)] | None => [] end.

(** [send_ok] says which sends the transport accepts. *)
Fixpoint Protocol_Join (send_ok : Message -> string -> bool) (seedAddrs : list string) (p : Protocol) : bool * sent :=
  match seedAddrs with
  | [] => (false, [])
  | addr :: rest =>
      match resolve addr with
      | None => Protocol_Join send_ok rest p
      | Some udp =>
          let msg := mkMessage MsgJoin (p_localID p) EmptyString 0 (p_localAddr p) in
          if send_ok msg udp then (true, [(msg, udp)])
          else let '(r, out) := Protocol_Join send_ok rest p in (r, (msg, udp) :: out)
      end
  end.

(** A message to every healthy member but the local node and those in [skip]. *)
Definition send_healthy (msg : Message) (skip : list string) (p : Protocol) : sent :=
  mbind (fun m => if decide (mb_ID m = p_localID p \/ mb_ID m ∈ skip) then [] else send_to msg (mb_Address m)) (Protocol_HealthyMembers p).

Definition Protocol_Leave (now : Z) (p : Protocol) : Protocol * sent :=
  let inc := bumpIncarnation (p_incarnation p) in
  let p := with_gossip (mkGossipEvent (p_localID p) StateLeft inc now) (with_incarnation inc p) in
  (Protocol_Stop p, send_healthy (mkMessage MsgLeave (p_localID p) EmptyString inc EmptyString) [] p).

Definition Protocol_SelectRelays (shuffle : list Member -> list Member) (excludeID : string) (k : Z) (p : Protocol) : list Member :=
  RandomMembers shuffle (filter (fun m => ~ (mb_ID m = p_localID p \/ mb_ID m = excludeID)) (Protocol_HealthyMembers p)) k EmptyString.

Definition Protocol_broadcastAlive (incarnation : Z) (p : Protocol) : sent :=
  send_healthy (mkMessage MsgAlive (p_localID p) EmptyString incarnation EmptyString) [] p.

Definition Protocol_handlePing (msg : Message) (addr : string) (p : Protocol) : Protocol * sent :=
  let ack := mkMessage MsgAck (p_localID p) (m_SourceID msg) (Protocol_Incarnation p) EmptyString in
  (p, send_to ack addr ++ (if decide (m_Payload msg <> EmptyString) then send_to ack (m_Payload msg) else [])).

Definition Protocol_handlePingReq (msg : Message) (addr : string) (p : Protocol) : Protocol * sent :=
  (p, send_to (mkMessage MsgPing (p_localID p) (m_TargetID msg) 0 addr) (m_Payload msg)).

Definition Protocol_handleAck (now : Z) (msg : Message) (p : Protocol) : Protocol * sent :=
  let p := match p_members p !! m_SourceID msg with
           | Some m => with_members (<[m_SourceID msg := (Member_ClearSuspect now (Member_Touch now m)).1]> (p_members p)) p
           | None => p
           end in
  (with_fd (FailureDetector_Refute (m_SourceID msg) (p_fd p)).1 p, []).

(** Answer an accusation of the local node: raise the incarnation, tell everyone. *)
Definition refute_self (p : Protocol) : Protocol * sent :=
  let inc := bumpIncarnation (p_incarnation p) in
  let p := with_incarnation inc p in
  (p, Protocol_broadcastAlive inc p).

Definition Protocol_handleSuspect (now : Z) (msg : Message) (p : Protocol) : Protocol * sent :=
  match p_members p !! m_TargetID msg with
  | None => (p, [])
  | Some m =>
      if decide (m_TargetID msg = p_localID p) then refute_self p
      else
        let '(m', updated) := Member_UpdateState StateSuspect (m_Incarnation msg) now m in
        let p := with_members (<[m_TargetID msg := m']> (p_members p)) p in
        let p := if updated : bool then with_gossip (mkGossipEvent (m_TargetID msg) StateSuspect (m_Incarnation msg) now) p else p in
        (with_fd (FailureDetector_Suspect (m_TargetID msg) (m_Incarnation msg) now (p_fd p)) p, [])
  end.

Definition Protocol_handleAlive (now : Z) (msg : Message) (addr : string) (p : Protocol) : Protocol * sent :=
  let m := default (mkMember (m_SourceID msg) addr StateAlive 0 ∅ 0) (p_members p !! m_SourceID msg) in
  let '(m', applied) := Member_UpdateState StateAlive (m_Incarnation msg) now m in
  let p := with_members (<[m_SourceID msg := m']> (p_members p)) p in
  (if applied : bool then with_fd (FailureDetector_Refute (m_SourceID msg) (p_fd p)).1 p else p, []).

Definition Protocol_handleDead (now : Z) (msg : Message) (p : Protocol) : Protocol * sent :=
  if decide (m_TargetID msg = p_localID p) then refute_self p
  else
    let p := match p_members p !! m_TargetID msg with
             | Some m =>
                 with_gossip (mkGossipEvent (m_TargetID msg) StateDead (m_Incarnation msg) now)
                   (with_members (<[m_TargetID msg := (Member_UpdateState StateDead (m_Incarnation msg) now m).1]> (p_members p)) p)
             | None => p
             end in
    (with_fd (FailureDetector_Refute (m_TargetID msg) (p_fd p)).1 p, []).

Definition Protocol_handleJoin (now : Z) (msg : Message) (addr : string) (p : Protocol) : Protocol * sent :=
  let m' := match p_members p !! m_SourceID msg with
            | Some existing =>
                mkMember (mb_ID existing) (m_Payload msg) StateAlive (u32 (mb_Incarnation existing + 1)) (mb_Metadata existing) now
            | None => Member_Touch now (mkMember (m_SourceID msg) (m_Payload msg) StateAlive 0 ∅ 0)
            end in
  let p := with_members (<[m_SourceID msg := m']> (p_members p)) p in
  (p, send_to (mkMessage MsgAlive (p_localID p) EmptyString (Protocol_Incarnation p) EmptyString) addr).

Definition Protocol_handleLeave (now : Z) (msg : Message) (p : Protocol) : Protocol * sent :=
  match p_members p !! m_SourceID msg with
  | Some m =>
      (with_gossip (mkGossipEvent (m_SourceID msg) StateLeft (m_Incarnation msg) now)
         (with_members (<[m_SourceID msg := (Member_UpdateState StateLeft (m_Incarnation msg) now m).1]> (p_members p)) p), [])
  | None => (p, [])
  end.

Definition Protocol_handleConfirm (now : Z) (memberID : string) (p : Protocol) : Protocol :=
  match p_members p !! memberID with
  | Some m =>
      let inc := bumpIncarnation (p_incarnation p) in
      let p := with_incarnation inc p in
      with_gossip (mkGossipEvent memberID StateDead inc now)
        (with_members (<[memberID := (Member_UpdateState StateDead inc now m).1]> (p_members p)) p)
  | None => p
  end.

(** The dispatch of a received message to its registered handler. *)
Definition Protocol_receive (now : Z) (msg : Message) (addr : string) (p : Protocol) : Protocol * sent :=
  match m_Type msg with
  | MsgPing => Protocol_handlePing msg addr p
  | MsgPingReq => Protocol_handlePingReq msg addr p
  | MsgAck => Protocol_handleAck now msg p
  | MsgSuspect => Protocol_handleSuspect now msg p
  | MsgAlive => Protocol_handleAlive now msg addr p
  | MsgDead => Protocol_handleDead now msg p
  | MsgJoin => Protocol_handleJoin now msg addr p
  | MsgLeave => Protocol_handleLeave now msg p
  end.

(** A suspicion's timer fires: [fd.Confirm], whose callback is [handleConfirm]. *)
Definition Protocol_timerFires (now : Z) (memberID : string) (p : Protocol) : Protocol :=
  let '(fd, confirmed) := FailureDetector_Confirm memberID (p_fd p) in
  let p := with_fd fd p in
  if confirmed : bool then Protocol_handleConfirm now memberID p else p.

(** A probe, up to the wait for the ack: the target chosen, and the ping. *)
Definition Protocol_probeSend (shuffle : list Member -> list Member) (p : Protocol) : option (string * sent) :=
  let members := Protocol_HealthyMembers p in
  if decide (Z.of_nat (length members) <= 1) then None
  else
    match list_find (fun m => mb_ID m <> p_localID p) (shuffle members) with
    | None => None
    | Some (_, target) =>
        match resolve (mb_Address target) with
        | None => None
        | Some udp => Some (mb_ID target, [(mkMessage MsgPing (p_localID p) (mb_ID target) 0 EmptyString, udp)])
        end
    end.

(** The rest of the probe, when the wait for an ack since [sentAt] is over. *)
Definition Protocol_probeResult (now sentAt : Z) (target : string) (p : Protocol) : Protocol * sent :=
  match p_members p !! target with
  | None => (p, [])
  | Some m =>
      let acked := if p_stopped p then false else bool_decide (Member_LastSeen m > sentAt) in
      if acked then (p, [])
      else
        let inc := bumpIncarnation (p_incarnation p) in
        let p := with_incarnation inc p in
        let p := with_fd (FailureDetector_Suspect target inc now (p_fd p)) p in
        let p := with_gossip (mkGossipEvent target StateSuspect inc now) p in
        let msg := mkMessage MsgSuspect (p_localID p) target inc EmptyString in
        (p, send_to msg (mb_Address m) ++ send_healthy msg [target] p)
  end.

Definition event_type (s : MemberState) : MessageType :=
  match s with StateSuspect => MsgSuspect | StateDead => MsgDead | StateLeft => MsgLeave | StateAlive => MsgAlive end.

Definition Protocol_gossip (shuffle : list Member -> list Member) (p : Protocol) : sent :=
  let events := GossipBuffer_Recent (p_gossipCount p) (p_gossipBuffer p) in
  if decide (length events = 0%nat) then []
  else
    let targets := RandomMembers shuffle (Protocol_HealthyMembers p) (p_gossipCount p) (p_localID p) in
    mbind (fun target =>
      mbind (fun e => send_to (mkMessage (event_type (ge_State e)) (ge_MemberID e) (ge_MemberID e) (ge_Incarnation e) EmptyString)
                        (mb_Address target)) events) targets.

End handlers.

(** ** What a message does to one member *)

(** The rumour a message carries about [x]. *)
Definition rumour (x : string) (msg : Message) : list status :=
  match m_Type msg with
  | MsgSuspect => if decide (m_TargetID msg = x) then [(m_Incarnation msg, StateSuspect)] else []
  | MsgDead => if decide (m_TargetID msg = x) then [(m_Incarnation msg, StateDead)] else []
  | MsgAlive => if decide (m_SourceID msg = x) then [(m_Incarnation msg, StateAlive)] else []
  | MsgLeave => if decide (m_SourceID msg = x) then [(m_Incarnation msg, StateLeft)] else []
  | _ => []
  end.

(** The message is not an ack or a join of [x], which do not go by incarnation. *)
Definition no_direct (x : string) (msg : Message) : Prop := m_SourceID msg = x -> m_Type msg <> MsgAck /\ m_Type msg <> MsgJoin.

Definition status_of (p : Protocol) (x : string) : option status := Member_status <$> p_members p !! x.

Lemma with_members_lookup ms p : p_members (with_members ms p) = ms.
Proof. done. Qed.

Lemma insert_status (ms : gmap string Member) y x m m' s :
  ms !! x = Some m -> (y = x -> Member_status m' = s) -> (y <> x -> Member_status m = s) -> Member_status <$> (<[y := m']> ms) !! x = Some s.
Proof.
  intros Hm Heq Hne. destruct (decide (y = x)) as [->|Hyx].
  - rewrite lookup_insert_eq. cbn. f_equal. auto.
  - rewrite lookup_insert_ne, Hm by done. cbn. f_equal. auto.
Qed.

(** A table in which the member of [y] was updated to [(i, s)]. *)
Lemma updated_status (ms : gmap string Member) x y m n now i s :
  ms !! x = Some m -> (y = x -> n = m) ->
  Member_status <$> (<[y := (Member_UpdateState s i now n).1]> ms) !! x =
    Some (foldl status_join (Member_status m) (if decide (y = x) then [(i, s)] else [])).
Proof.
  intros Hm Hn. apply (insert_status _ _ _ m); [done| |].
  - intros Hyx. rewrite (Hn Hyx), decide_True by done. cbn. apply UpdateState_join.
  - intros Hyx. by rewrite decide_False.
Qed.

Lemma receive_local resolve now msg addr p : p_localID (Protocol_receive resolve now msg addr p).1 = p_localID p.
Proof.
  unfold Protocol_receive. destruct (m_Type msg); try done.
  - unfold Protocol_handleAck. by destruct (p_members p !! _).
  - unfold Protocol_handleSuspect. destruct (p_members p !! _); [|done]. case_decide; [done|].
    by destruct (Member_UpdateState _ _ _ _) as [? []].
  - unfold Protocol_handleAlive. by destruct (Member_UpdateState _ _ _ _) as [? []].
  - unfold Protocol_handleDead. case_decide; [done|]. by destruct (p_members p !! _).
  - unfold Protocol_handleLeave. by destruct (p_members p !! _).
Qed.

Lemma receive_status resolve now msg addr p x m :
  x <> p_localID p -> no_direct x msg -> p_members p !! x = Some m ->
  status_of (Protocol_receive resolve now msg addr p).1 x = Some (foldl status_join (Member_status m) (rumour x msg)).
Proof.
  unfold no_direct, Protocol_receive, rumour, status_of. intros Hx Hd Hm. destruct (m_Type msg).
  - cbn. by rewrite Hm.
  - cbn. by rewrite Hm.
  - unfold Protocol_handleAck. cbn. destruct (p_members p !! m_SourceID msg) eqn:E; cbn; [|by rewrite Hm].
    rewrite lookup_insert_ne, Hm; [done|]. naive_solver.
  - unfold Protocol_handleSuspect. destruct (p_members p !! m_TargetID msg) as [n|] eqn:E.
    + destruct (decide (m_TargetID msg = p_localID p)) as [Hl|_].
      { cbn. rewrite Hm, decide_False by congruence. done. }
      pose proof (updated_status (p_members p) x (m_TargetID msg) m n now (m_Incarnation msg) StateSuspect Hm ltac:(naive_solver)) as Hu.
      destruct (Member_UpdateState _ _ _ _) as [m' []]; exact Hu.
    + cbn. rewrite Hm, decide_False by naive_solver. done.
  - unfold Protocol_handleAlive. pose proof (updated_status (p_members p) x (m_SourceID msg) m
      (default (mkMember (m_SourceID msg) addr StateAlive 0 ∅ 0) (p_members p !! m_SourceID msg)) now (m_Incarnation msg) StateAlive Hm) as Hu.
    destruct (Member_UpdateState _ _ _ _) as [m' []]; apply Hu; intros ->; by rewrite Hm.
  - unfold Protocol_handleDead. destruct (decide (m_TargetID msg = p_localID p)) as [Hl|_].
    { cbn. rewrite Hm, decide_False by congruence. done. }
    destruct (p_members p !! m_TargetID msg) as [n|] eqn:E; [|cbn; rewrite Hm, decide_False by naive_solver; done].
    apply updated_status; [done|naive_solver].
  - cbn. rewrite lookup_insert_ne, Hm; [done|]. naive_solver.
  - unfold Protocol_handleLeave. destruct (p_members p !! m_SourceID msg) as [n|] eqn:E.
    + apply updated_status; [done|naive_solver].
    + cbn. rewrite Hm, decide_False by naive_solver. done.
Qed.

(** Receiving a sequence of messages, each with its arrival time and sender address. *)
Definition receive_all (resolve : string -> option string) (msgs : list (Z * Message * string)) (p : Protocol) : Protocol :=
  foldl (fun p '(now, msg, addr) => (Protocol_receive resolve now msg addr p).1) p msgs.

Definition rumours (x : string) (msgs : list (Z * Message * string)) : list status := mbind (fun e => rumour x e.1.2) msgs.

Lemma receive_all_status resolve msgs p x m :
  x <> p_localID p -> Forall (fun e => no_direct x e.1.2) msgs -> p_members p !! x = Some m ->
  status_of (receive_all resolve msgs p) x = Some (foldl status_join (Member_status m) (rumours x msgs)).
Proof.
  intros Hx Hd. revert p m Hx. induction Hd as [|[[now msg] addr] msgs Hd _ IH]; intros p m Hx Hm.
  - unfold status_of. cbn. by rewrite Hm.
  - unfold receive_all, rumours. cbn [foldl]. rewrite bind_cons, foldl_app.
    pose proof (receive_status resolve now msg addr p x m Hx Hd Hm) as Hs. unfold status_of in Hs.
    destruct (p_members _ !! x) as [m'|] eqn:Hm' in Hs; [|done]. injection Hs as Hs. cbn [fst snd].
    rewrite <- Hs. apply (IH _ m'); [by rewrite receive_local|done].
Qed.

(** ** Histories of a node *)

Inductive swim_event :=
  | EReceive (now : Z) (msg : Message) (addr : string)
  | ETimer (now : Z) (memberID : string)
  | EProbe (now sentAt : Z) (target : string)
  | ELeave (now : Z).

Definition swim_step (resolve : string -> option string) (p : Protocol) (e : swim_event) : Protocol :=
  match e with
  | EReceive now msg addr => (Protocol_receive resolve now msg addr p).1
  | ETimer now memberID => Protocol_timerFires now memberID p
  | EProbe now sentAt target => (Protocol_probeResult resolve now sentAt target p).1
  | ELeave now => (Protocol_Leave resolve now p).1
  end.

Definition swim_run (resolve : string -> option string) (p : Protocol) (events : list swim_event) : Protocol :=
  foldl (swim_step resolve) p events.

(** No message claims that [local] itself left, and probes go to other members. *)
Definition honest (local : string) (e : swim_event) : Prop :=
  match e with
  | EReceive _ msg _ => ~ (m_Type msg = MsgLeave /\ m_SourceID msg = local)
  | EProbe _ _ target => target <> local
  | _ => True
  end.

#[global] Instance honest_dec local e : Decision (honest local e).
Proof. destruct e; apply _. Defined.

Record self_ok (local : string) (p : Protocol) : Prop := {
  so_local : p_localID p = local;
  so_alive : exists m, p_members p !! local = Some m /\ mb_State m = StateAlive;
  so_fd : fd_suspects (p_fd p) !! local = None;
  so_inc : is_u32 (p_incarnation p) }.

Lemma bump_grows inc : is_u32 inc -> is_u32 (bumpIncarnation inc) /\ inc <= bumpIncarnation inc /\ (inc < MaxUint32 -> inc < bumpIncarnation inc).
Proof.
  unfold bumpIncarnation. intros Hi. case_decide; [int_lia|]. rewrite u32_id by int_lia. int_lia.
Qed.

(** An update that keeps the local node alive, made to the table under any key. *)
Lemma alive_insert_ok (ms : gmap string Member) local y m' :
  (exists m, ms !! local = Some m /\ mb_State m = StateAlive) -> (y = local -> mb_State m' = StateAlive) ->
  exists m, <[y := m']> ms !! local = Some m /\ mb_State m = StateAlive.
Proof.
  intros (m & Hm & Ha) Hy. destruct (decide (y = local)) as [->|].
  - exists m'. by rewrite lookup_insert_eq; auto.
  - exists m. by rewrite lookup_insert_ne.
Qed.

Lemma suspect_other fd local id inc now : fd_suspects fd !! local = None -> id <> local -> fd_suspects (FailureDetector_Suspect id inc now fd) !! local = None.
Proof.
  intros Hf Hid. apply eq_None_not_Some. intros [->|[? ?]]%Suspect_lookup; congruence.
Qed.

Lemma refute_none fd local id : fd_suspects fd !! local = None -> fd_suspects (FailureDetector_Refute id fd).1 !! local = None.
Proof. intros Hf. rewrite Refute_lookup. by case_decide. Qed.

Lemma UpdateState_alive now i m : mb_State m = StateAlive -> mb_State (Member_UpdateState StateAlive i now m).1 = StateAlive.
Proof. unfold Member_UpdateState. intros Hm. by repeat case_decide. Qed.

Create HintDb swim.
#[local] Hint Resolve alive_insert_ok suspect_other refute_none UpdateState_alive so_alive so_fd so_inc so_local : swim.

Lemma self_ok_receive resolve now msg addr local p :
  self_ok local p -> ~ (m_Type msg = MsgLeave /\ m_SourceID msg = local) -> self_ok local (Protocol_receive resolve now msg addr p).1.
Proof.
  intros [Hl Ha Hf Hi] Hh. unfold Protocol_receive. destruct (m_Type msg) eqn:Ht; try done.
  - unfold Protocol_handleAck. destruct (p_members p !! m_SourceID msg) as [n|] eqn:E; split; cbn; auto with swim.
    apply alive_insert_ok; [done|]. intros <-. destruct Ha as (m & Hm & Hs). simplify_eq. unfold Member_ClearSuspect. cbn. by rewrite Hs.
  - unfold Protocol_handleSuspect. destruct (p_members p !! m_TargetID msg) as [n|] eqn:E; [|done].
    destruct (decide (m_TargetID msg = p_localID p)) as [|Hne]; [split; cbn; auto with swim; by apply bump_grows|].
    destruct (Member_UpdateState _ _ _ _) as [m' []]; split; cbn; auto with swim; try (apply alive_insert_ok; [done|congruence]);
      apply suspect_other; congruence.
  - unfold Protocol_handleAlive. destruct Ha as (m & Hm & Hs). assert (m_SourceID msg = local ->
      mb_State (Member_UpdateState StateAlive (m_Incarnation msg) now (default (mkMember (m_SourceID msg) addr StateAlive 0 ∅ 0)
        (p_members p !! m_SourceID msg))).1 = StateAlive) as Hup by (intros ->; rewrite Hm; by apply UpdateState_alive).
    destruct (Member_UpdateState _ _ _ _) as [m' []]; split; cbn; auto with swim; apply alive_insert_ok; eauto.
  - unfold Protocol_handleDead. destruct (decide (m_TargetID msg = p_localID p)) as [|Hne]; [split; cbn; auto with swim; by apply bump_grows|].
    destruct (p_members p !! m_TargetID msg) as [n|] eqn:E; split; cbn; auto with swim. apply alive_insert_ok; [done|congruence].
  - unfold Protocol_handleJoin. split; cbn; auto. apply alive_insert_ok; [done|]. intros _. by destruct (p_members p !! m_SourceID msg).
  - unfold Protocol_handleLeave. destruct (p_members p !! m_SourceID msg) as [n|] eqn:E; split; cbn; auto.
    apply alive_insert_ok; [done|]. intros Hs. by destruct Hh.
Qed.

Lemma self_ok_step resolve local p e : self_ok local p -> honest local e -> self_ok local (swim_step resolve p e).
Proof.
  intros Hok Hh. destruct e as [now msg addr|now id|now sentAt target|now]; cbn [swim_step honest] in *.
  - by apply self_ok_receive.
  - destruct Hok as [Hl Ha Hf Hi]. unfold Protocol_timerFires. rewrite Confirm_Refute. unfold FailureDetector_Refute.
    destruct (fd_suspects (p_fd p) !! id) eqn:E; [|by split].
    assert (id <> local) as Hid by congruence. unfold Protocol_handleConfirm. cbn [with_fd p_members].
    destruct (p_members p !! id) as [n|]; split; cbn; auto; try (by apply bump_grows); try by rewrite lookup_delete_ne.
    by apply alive_insert_ok.
  - destruct Hok as [Hl Ha Hf Hi]. unfold Protocol_probeResult. destruct (p_members p !! target); [|by split].
    destruct (if p_stopped p then false else _); [by split|]. split; cbn; auto with swim. by apply bump_grows.
  - destruct Hok as [Hl Ha Hf Hi]. split; cbn; auto. by apply bump_grows.
Qed.

Lemma self_ok_run resolve local p events : self_ok local p -> Forall (honest local) events -> self_ok local (swim_run resolve p events).
Proof.
  intros Hok Hh. revert p Hok. induction Hh as [|e events He _ IH]; intros p Hok; [done|]. by apply IH, self_ok_step.
Qed.

Lemma self_ok_new localAddr now cfg p : NewProtocol localAddr now cfg = Some p -> self_ok (cf_LocalID cfg) p.
Proof.
  unfold NewProtocol. case_decide; [done|]. intros [= <-]. split; cbn; [done| |done|int_lia].
  eexists. by rewrite lookup_singleton_eq.
Qed.

Lemma HealthyMembers_elem p m : m ∈ Protocol_HealthyMembers p <-> mb_State m = StateAlive /\ exists x, p_members p !! x = Some m.
Proof.
  unfold Protocol_HealthyMembers, Protocol_Members, Member_IsHealthy. rewrite list_elem_of_filter, bool_decide_eq_true, list_elem_of_fmap.
  split.
  - intros (Hs & [x m'] & -> & Hin). apply elem_of_map_to_list in Hin. eauto.
  - intros (Hs & x & Hx). split; [done|]. exists (x, m). split; [done|]. by apply elem_of_map_to_list.
Qed.

Lemma send_healthy_elem resolve msg skip p e :
  e ∈ send_healthy resolve msg skip p <->
  exists x m, p_members p !! x = Some m /\ mb_State m = StateAlive /\ mb_ID m <> p_localID p /\ mb_ID m ∉ skip /\
    e.1 = msg /\ resolve (mb_Address m) = Some e.2.
Proof.
  unfold send_healthy, send_to. rewrite list_elem_of_bind. setoid_rewrite HealthyMembers_elem. split.
  - intros (m & Hin & Hs & x & Hx). case_decide as Hd; [by apply not_elem_of_nil in Hin|].
    destruct (resolve (mb_Address m)) eqn:Hr; [|by apply not_elem_of_nil in Hin].
    apply list_elem_of_singleton in Hin as ->. exists x, m. naive_solver.
  - intros (x & m & Hx & Hs & Hl & Hsk & He & Hr). exists m. split; [|by eauto]. rewrite decide_False by tauto. rewrite Hr.
    apply list_elem_of_singleton. destruct e; naive_solver.
Qed.

Lemma probeSend_target resolve shuffle p target out :
  (forall l, shuffle l ≡ₚ l) -> Protocol_probeSend resolve shuffle p = Some (target, out) ->
  exists x m, p_members p !! x = Some m /\ mb_ID m = target /\ mb_State m = StateAlive /\ target <> p_localID p.
Proof.
  unfold Protocol_probeSend. intros Hsh. case_decide; [done|].
  destruct (list_find _ (shuffle _)) as [[i m]|] eqn:Hf; [|done].
  destruct (resolve (mb_Address m)); [|done]. intros [= <- <-].
  apply list_find_Some in Hf as (Hi & Hne & _). apply list_elem_of_lookup_2 in Hi. rewrite Hsh in Hi.
  apply HealthyMembers_elem in Hi as (Ha & x & Hx). eauto 10.
Qed.

(** An accusation of the local node is answered, not believed. *)
Lemma accused_answers resolve now msg addr local p :
  self_ok local p -> m_Type msg = MsgSuspect \/ m_Type msg = MsgDead -> m_TargetID msg = local ->
  Protocol_receive resolve now msg addr p =
    (with_incarnation (bumpIncarnation (p_incarnation p)) p,
     Protocol_broadcastAlive resolve (bumpIncarnation (p_incarnation p)) (with_incarnation (bumpIncarnation (p_incarnation p)) p)).
Proof.
  intros [Hl (m & Hm & _) _ _] Ht Htarget. unfold Protocol_receive. destruct Ht as [-> | ->].
  - unfold Protocol_handleSuspect. rewrite Htarget, Hm. by rewrite decide_True.
  - unfold Protocol_handleDead. rewrite Htarget. by rewrite decide_True.
Qed.

(** ** Properties *)

(** C27: rumours converge.  Two nodes that know a member [x], neither being [x], at the
    same state and incarnation, and then receive any messages, but no ack or join of
    [x], agree again on the state and incarnation of [x] as soon as they heard the
    same rumours about it, in any order and any number of times: they hold the
    lexicographically largest of them. *)
Theorem swim_rumours_converge resolve resolve' (p q : Protocol) x m n msgs msgs' :
  x <> p_localID p -> x <> p_localID q ->
  p_members p !! x = Some m -> p_members q !! x = Some n -> Member_status m = Member_status n ->
  Forall (fun e => no_direct x e.1.2) msgs -> Forall (fun e => no_direct x e.1.2) msgs' ->
  (forall s, s ∈ rumours x msgs <-> s ∈ rumours x msgs') ->
  exists s, status_of (receive_all resolve msgs p) x = Some s /\ status_of (receive_all resolve' msgs' q) x = Some s /\
    s ∈ Member_status m :: rumours x msgs /\ Forall (fun r => status_le r s) (Member_status m :: rumours x msgs).
Proof.
  intros Hp Hq Hm Hn Hmn Hd Hd' Hr. exists (foldl status_join (Member_status m) (rumours x msgs)). split_and!.
  - by apply receive_all_status.
  - rewrite (foldl_join_set _ _ _ Hr), Hmn. by apply receive_all_status.
  - apply foldl_join_max.
  - apply foldl_join_max.
Qed.

(** A node is the authority on its own liveness.  From its creation on, through
    any history of messages, timers, probes and leaving in which nobody claims that
    the node itself left, the node is alive in its own table and under no suspicion
    of its own detector; every accusation it receives makes it raise its incarnation
    (up to the ceiling) and send Alive at the new incarnation to every other healthy
    member whose address resolves, and nothing else.  Probes it starts never target
    itself. *)
Theorem swim_self_authority resolve localAddr now0 cfg p0 events :
  NewProtocol localAddr now0 cfg = Some p0 ->
  Forall (honest (cf_LocalID cfg)) events ->
  let local := cf_LocalID cfg in
  let p := swim_run resolve p0 events in
  (exists self, p_members p !! local = Some self /\ Member_IsHealthy self = true) /\
  FailureDetector_IsSuspected (p_fd p) local = false /\
  (forall now msg addr, m_Type msg = MsgSuspect \/ m_Type msg = MsgDead -> m_TargetID msg = local ->
     let '(p', out) := Protocol_receive resolve now msg addr p in
     p_members p' = p_members p /\
     (p_incarnation p < p_incarnation p' \/ p_incarnation p = MaxUint32 /\ p_incarnation p' = MaxUint32) /\
     (forall e, e ∈ out <-> exists x m, p_members p !! x = Some m /\ mb_State m = StateAlive /\ mb_ID m <> local /\
        resolve (mb_Address m) = Some e.2 /\ e.1 = mkMessage MsgAlive local EmptyString (p_incarnation p') EmptyString)) /\
  (forall shuffle target out, (forall l, shuffle l ≡ₚ l) -> Protocol_probeSend resolve shuffle p = Some (target, out) -> target <> local).
Proof.
  intros Hnew Hh. cbv zeta. pose proof (self_ok_run resolve _ _ _ (self_ok_new _ _ _ _ Hnew) Hh) as Hok.
  revert Hok. generalize (swim_run resolve p0 events). intros p Hok. pose proof Hok as [Hl (m & Hm & Ha) Hf Hi]. split_and!.
  - exists m. split; [done|]. by apply bool_decide_true.
  - unfold FailureDetector_IsSuspected. by rewrite Hf.
  - intros now msg addr Ht Htarget. rewrite (accused_answers _ _ _ _ _ _ Hok Ht Htarget). split_and!; [done| |].
    + cbn. destruct (bump_grows _ Hi) as (Hr & Hle & Hlt). destruct (decide (p_incarnation p < MaxUint32)); [left; auto|right; int_lia].
    + intros e. unfold Protocol_broadcastAlive. rewrite send_healthy_elem. cbn. rewrite Hl.
      split; intros (x & m' & H); exists x, m'; set_solver.
  - intros shuffle target out Hsh Hp. apply probeSend_target in Hp as (? & ? & _ & _ & _ & ?); [congruence|done].
Qed.

(** When a refutation is heard.  A peer that knows [x] hears it suspected at
    incarnation [i], not below what it knows; [x] hears the same and answers.  The
    answer clears the suspicion at the peer, and makes [x] alive there, exactly when
    the incarnation [x] raises to exceeds [i].  Otherwise the peer keeps [x] suspect
    and its timer armed, however alive [x] is. *)
Theorem swim_refutation_exact resolve resolve' (p q : Protocol) x m s i pay now now1 now2 addr :
  self_ok x p -> x <> p_localID q -> p_members q !! x = Some m -> status_le (Member_status m) (i, StateSuspect) ->
  let suspicion := mkMessage MsgSuspect s x i pay in
  let q1 := (Protocol_receive resolve' now1 suspicion addr q).1 in
  FailureDetector_IsSuspected (p_fd q1) x = true /\
  forall answer to, (answer, to) ∈ (Protocol_receive resolve now suspicion addr p).2 ->
    let q2 := (Protocol_receive resolve' now2 answer addr q1).1 in
    if decide (i < bumpIncarnation (p_incarnation p))
    then status_of q2 x = Some (bumpIncarnation (p_incarnation p), StateAlive) /\ FailureDetector_IsSuspected (p_fd q2) x = false
    else status_of q2 x = Some (i, StateSuspect) /\ FailureDetector_IsSuspected (p_fd q2) x = true.
Proof.
  intros Hok Hq Hm Hle suspicion q1.
  assert (status_of q1 x = Some (i, StateSuspect)) as Hq1.
  { unfold q1. rewrite (receive_status _ _ _ _ _ _ m) by (done || by intros _). unfold rumour. cbn. rewrite decide_True by done. cbn.
    unfold status_join. by rewrite decide_True. }
  assert (is_Some (fd_suspects (p_fd q1) !! x)) as [r Hr].
  { unfold q1, Protocol_receive. cbn. unfold Protocol_handleSuspect. cbn. rewrite Hm, decide_False by done.
    destruct (Member_UpdateState _ _ _ _) as [m' []]; apply Suspect_lookup; by left. }
  unfold FailureDetector_IsSuspected. rewrite Hr. split; [done|]. intros answer to Hin.
  rewrite (accused_answers _ _ _ _ x p) in Hin by (done || by left). cbn [snd] in Hin. unfold Protocol_broadcastAlive in Hin.
  apply send_healthy_elem in Hin as (_ & _ & _ & _ & _ & _ & Hans & _). cbn in Hans. rewrite (so_local _ _ Hok) in Hans. subst answer.
  set (j := bumpIncarnation (p_incarnation p)). unfold status_of in Hq1. destruct (p_members q1 !! x) as [mx|] eqn:Hmx; [|done].
  injection Hq1 as Hmi Hms. unfold Protocol_receive. cbn [m_Type]. unfold Protocol_handleAlive. cbn [m_SourceID m_Incarnation]. rewrite Hmx. cbn [from_option id].
  unfold Member_UpdateState. rewrite Hmi, Hms. cbn [state_num].
  destruct (decide (i < j)) as [Hij|Hij].
  - rewrite (decide_False (P := j < i)), decide_False by lia. cbn. unfold status_of. cbn. rewrite lookup_insert_eq. split; [done|].
    rewrite Refute_lookup. by rewrite decide_True.
  - destruct (decide (j < i)); [|rewrite decide_True by lia]; cbn; unfold status_of; cbn; rewrite lookup_insert_eq, Hr;
      (split; [|done]); cbn; unfold Member_status; by rewrite Hmi, Hms.
Qed.

(** ** Concrete nodes *)

(** A node that has seen [x] join, at its creation and one message later. *)
Definition demo_config (id : string) : Config := mkConfig id 0 0 0 0 0.
Definition demo_join : Message := mkMessage MsgJoin "x" EmptyString 0 "x:1".
Definition demo_peer (id : string) : option Protocol :=
  p ← NewProtocol "h:1" 0 (demo_config id); Some (Protocol_receive Some 1 demo_join "x:1" p).1.
Definition demo_suspect (i : Z) : Message := mkMessage MsgSuspect "s" "x" i EmptyString.
Definition demo_alive (i : Z) : Message := mkMessage MsgAlive "x" EmptyString i EmptyString.

Lemma swim_rumours_converge_witness :
  exists p q s, demo_peer "a" = Some p /\ demo_peer "b" = Some q /\
    status_of (receive_all Some [(2, demo_suspect 3, "s:1"); (3, demo_alive 2, "x:1")] p) "x" = Some s /\
    status_of (receive_all Some [(2, demo_alive 2, "x:1"); (5, demo_suspect 3, "s:1"); (6, demo_suspect 3, "t:1")] q) "x" = Some s.
Proof.
  destruct (demo_peer "a") as [p|] eqn:Hp; [|done]. destruct (demo_peer "b") as [q|] eqn:Hq; [|done].
  injection Hp as <-. injection Hq as <-.
  edestruct (swim_rumours_converge Some Some) as (s & H1 & H2 & _); cycle 8.
  - eexists _, _, s. split_and!; [done|done|exact H1|exact H2].
  - by vm_compute.
  - by vm_compute.
  - by vm_compute.
  - by vm_compute.
  - by vm_compute.
  - by repeat constructor.
  - by repeat constructor.
  - intros s. vm_compute mbind. set_solver.
Defined.

Lemma swim_self_authority_witness :
  exists p, NewProtocol "h:1" 0 (demo_config "x") = Some p /\
    FailureDetector_IsSuspected (p_fd (swim_run Some p [EReceive 1 (demo_suspect 4) "s:1"; EReceive 2 (mkMessage MsgDead "s" "x" 9 EmptyString) "s:1"])) "x" = false.
Proof.
  eexists. split; [reflexivity|]. refine (proj1 (proj2 (swim_self_authority Some "h:1" 0 (demo_config "x") _ _ _ _))); [reflexivity|by_eval].
Defined.

(** The refutation at incarnation 1 does not reach a suspicion raised at 7. *)
Lemma swim_refutation_exact_witness :
  exists p q, NewProtocol "x:1" 0 (demo_config "x") = Some p /\ demo_peer "b" = Some q /\
    let p := (Protocol_receive Some 1 (mkMessage MsgJoin "b" EmptyString 0 "b:1") "b:1" p).1 in
    let q1 := (Protocol_receive Some 1 (demo_suspect 7) "s:1" q).1 in
    let q2 := (Protocol_receive Some 2 (demo_alive 1) "s:1" q1).1 in
    status_of q2 "x" = Some (7, StateSuspect) /\ FailureDetector_IsSuspected (p_fd q2) "x" = true.
Proof.
  destruct (demo_peer "b") as [q|] eqn:Hq; [|done]. eexists _, q. split; [reflexivity|]. split; [done|]. cbv zeta. injection Hq as <-.
  match goal with |- context [Protocol_receive Some 1 (demo_suspect 7) "s:1" ?q] => set (q0 := q) end.
  set (p := default (Protocol_Stop q0) (NewProtocol "x:1" 0 (demo_config "x"))).
  destruct (swim_refutation_exact Some Some (Protocol_receive Some 1 (mkMessage MsgJoin "b" EmptyString 0 "b:1") "b:1" p).1 q0 "x"
    (mkMember "x" "x:1" StateAlive 0 ∅ 1) "s" 7 EmptyString 1 1 2 "s:1") as [_ Hans].
  - apply self_ok_receive; [|intros [? _]; done]. by apply (self_ok_new "x:1" 0 (demo_config "x")).
  - done.
  - by vm_compute.
  - by_eval.
  - apply (Hans (demo_alive 1) "b:1"). apply list_elem_of_In. vm_compute. by left.
Defined.

(** Anyone can make a node consider itself gone. *)
Example forged_leave_takes_self_out :
  exists p, NewProtocol "h:1" 0 (demo_config "x") = Some p /\
    status_of (swim_run Some p [EReceive 1 (mkMessage MsgLeave "x" EmptyString 0 EmptyString) "s:1"]) "x" = Some (0, StateLeft).
Proof. eexists. split; [reflexivity|]. by vm_compute. Qed.

(** A join wraps the incarnation at its ceiling: the member falls back to the start. *)
Example join_wraps_incarnation :
  exists p, demo_peer "b" = Some p /\
    status_of (swim_run Some p [EReceive 2 (demo_alive MaxUint32) "x:1"; EReceive 3 demo_join "x:1"]) "x" = Some (0, StateAlive).
Proof. eexists. split; [reflexivity|]. by vm_compute. Qed.

(** A death confirmed at an incarnation below the member's is gossiped but not recorded. *)
Example confirmed_but_not_dead :
  exists p, demo_peer "b" = Some p /\
    let p := swim_run Some p [EReceive 2 (demo_alive 9) "x:1"; EProbe 4 3 "x"; ETimer 5 "x"] in
    status_of p "x" = Some (9, StateAlive) /\
    (mkGossipEvent "x" StateDead 2 5) ∈ gb_events (p_gossipBuffer p).
Proof. eexists. split; [reflexivity|]. cbv zeta. split; [by vm_compute|]. apply list_elem_of_In. vm_compute. by right; left. Qed.
