(* ===== verification/Heap.v ===== *)
(** * Binary heaps (Go's [container/heap])

    [up], [down], [Push] and [Pop] of the Standard Library's heap on a slice, for a
    strict order given by a type class, with the facts every client needs: the heap
    invariant and the elements are preserved, and [Pop] returns a minimum. *)

From S2P Require Import Prelude.

(** The order of [heap.Interface.Less]: strict, with incomparability transitive. *)
Class HeapOrder (A : Type) := {
  hlt : A -> A -> Prop;
  hlt_dec :: forall x y, Decision (hlt x y);
  hlt_strict :: StrictOrder hlt;
  hlt_weak : forall x y z, ~ hlt y x -> ~ hlt z y -> ~ hlt z x }.

Section heap.
Context {A : Type} `{!HeapOrder A}.
Implicit Types l : list A.

Definition heap_swap (i j : nat) l : list A :=
  match l !! i, l !! j with
  | Some x, Some y => <[i := y]> (<[j := x]> l)
  | _, _ => l
  end.

Definition heap_less l (i j : nat) : bool :=
  match l !! i, l !! j with Some x, Some y => bool_decide (hlt x y) | _, _ => false end.

Definition parent (j : nat) : nat := (j - 1) / 2.

Fixpoint heap_up (fuel : nat) l (j : nat) : list A :=
  match fuel with
  | O => l
  | S fuel =>
      let i := parent j in
      if decide (i = j) then l
      else if heap_less l j i then heap_up fuel (heap_swap i j l) i
      else l
  end.

Fixpoint heap_down (fuel : nat) l (i n : nat) : list A :=
  match fuel with
  | O => l
  | S fuel =>
      let j1 := 2 * i + 1 in
      if decide (n <= j1) then l
      else
        let j2 := j1 + 1 in
        let j := if bool_decide (j2 < n) && heap_less l j2 j1 then j2 else j1 in
        if heap_less l j i then heap_down fuel (heap_swap i j l) j n else l
  end.

Definition heap_Push (x : A) l : list A :=
  let l := l ++ [x] in heap_up (length l) l (length l - 1).

(** [None] where the Go code would index an empty slice. *)
Definition heap_Pop l : option (A * list A) :=
  let n := length l - 1 in
  let l := heap_down (length l) (heap_swap 0 n l) 0 n in
  match l !! n with Some x => Some (x, take n l) | None => None end.

(** ** The invariant *)

(** Where both indices are in range, the element at [j] does not precede that at [i]. *)
Definition le_at l (i j : nat) : Prop := forall x y, l !! i = Some x -> l !! j = Some y -> ~ hlt y x.

Definition heap_ok (n : nat) l : Prop := forall k, 0 < k < n -> le_at l (parent k) k.

Lemma parent_lt k : 0 < k -> parent k < k.
Proof. intros. unfold parent. apply Nat.Div0.div_lt_upper_bound. lia. Qed.

Lemma parent_children k i : 0 < k -> parent k = i <-> k = 2 * i + 1 \/ k = 2 * i + 2.
Proof.
  intros Hk. unfold parent. pose proof (Nat.div_mod_eq (k - 1) 2). pose proof (Nat.mod_upper_bound (k - 1) 2). lia.
Qed.

Lemma heap_swap_lookup l i j k :
  i < length l -> j < length l ->
  heap_swap i j l !! k = if decide (k = i) then l !! j else if decide (k = j) then l !! i else l !! k.
Proof.
  intros Hi Hj. unfold heap_swap. destruct (lookup_lt_is_Some_2 l i Hi) as [x Hx]. destruct (lookup_lt_is_Some_2 l j Hj) as [y Hy].
  rewrite Hx, Hy. destruct (decide (k = i)) as [->|Hki].
  - rewrite list_lookup_insert_eq; [done|]. by rewrite length_insert.
  - rewrite list_lookup_insert_ne by done. destruct (decide (k = j)) as [->|Hkj].
    + by rewrite list_lookup_insert_eq.
    + by rewrite list_lookup_insert_ne.
Qed.

Lemma heap_swap_length i j l : length (heap_swap i j l) = length l.
Proof. unfold heap_swap. destruct (l !! i), (l !! j); by rewrite ?length_insert. Qed.

Lemma heap_swap_perm i j l : heap_swap i j l ≡ₚ l.
Proof.
  unfold heap_swap. destruct (l !! i) as [x|] eqn:Hi, (l !! j) as [y|] eqn:Hj; try done.
  by apply Permutation_insert_swap.
Qed.

Lemma heap_less_true l i j : heap_less l i j = true <-> exists x y, l !! i = Some x /\ l !! j = Some y /\ hlt x y.
Proof.
  unfold heap_less. destruct (l !! i), (l !! j); try (split; [done|by intros (? & ? & ? & ? & ?)]).
  rewrite bool_decide_eq_true. naive_solver.
Qed.

Lemma heap_less_false l i j : heap_less l i j = false -> le_at l j i.
Proof.
  intros Hf x y Hx Hy Hlt. apply not_true_iff_false in Hf. apply Hf, heap_less_true. eauto.
Qed.

Lemma hlt_asym x y : hlt x y -> ~ hlt y x.
Proof. intros H1 H2. apply (irreflexivity hlt x). by etrans. Qed.

(** Index-wise facts after exchanging [i] and [j], where the element at [j] precedes that at [i]. *)
Section exchange.
Variables (l : list A) (i j : nat).
Hypothesis Hij : i <> j.
Hypothesis Hless : heap_less l j i = true.

Lemma exchange_lookup k : heap_swap i j l !! k = if decide (k = i) then l !! j else if decide (k = j) then l !! i else l !! k.
Proof.
  apply heap_less_true in Hless as (x & y & Hx & Hy & _). apply heap_swap_lookup; by eapply lookup_lt_Some.
Qed.

Lemma exchange_pair : le_at (heap_swap i j l) i j.
Proof.
  intros x y. rewrite !exchange_lookup, decide_True, decide_False, decide_True by done. intros Hx Hy.
  apply heap_less_true in Hless as (x' & y' & Hx' & Hy' & Hlt). simplify_eq. by apply hlt_asym.
Qed.

Lemma exchange_other a b : a <> i -> a <> j -> b <> i -> b <> j -> le_at l a b -> le_at (heap_swap i j l) a b.
Proof. intros ? ? ? ? Hle x y. rewrite !exchange_lookup, !decide_False by done. apply Hle. Qed.

(** The new element at [i] precedes whatever the old one did, and the new one at [j]
    follows whatever the old one did. *)
Lemma exchange_from_i b : b <> i -> b <> j -> le_at l i b -> le_at (heap_swap i j l) i b.
Proof.
  intros ? ? Hle x y. rewrite !exchange_lookup, decide_True, !decide_False by done. intros Hx Hy.
  apply heap_less_true in Hless as (x' & y' & Hx' & Hy' & Hlt). assert (x' = x) as -> by congruence.
  apply (hlt_weak x y'); [by apply hlt_asym|by apply Hle].
Qed.

(** The new element at [i] precedes whatever the old one at [j] did. *)
Lemma exchange_moved b : b <> i -> b <> j -> le_at l j b -> le_at (heap_swap i j l) i b.
Proof. intros ? ? Hle x y. rewrite !exchange_lookup, decide_True, !decide_False by done. apply Hle. Qed.

Lemma exchange_to_i a : a <> i -> a <> j -> le_at l a j -> le_at (heap_swap i j l) a i.
Proof. intros ? ? Hle x y. rewrite !exchange_lookup, !(decide_False (P := a = _)), decide_True by done. apply Hle. Qed.

Lemma exchange_from_j b : b <> i -> b <> j -> le_at l i b -> le_at (heap_swap i j l) j b.
Proof. intros ? ? Hle x y. rewrite !exchange_lookup, (decide_False (P := j = i)), decide_True, !decide_False by done. apply Hle. Qed.
End exchange.

(** ** Sifting *)

Lemma heap_up_ok fuel l j n :
  j < fuel -> j < n -> n = length l ->
  (forall k, 0 < k < n -> k <> j -> le_at l (parent k) k) ->
  (forall k, 0 < k < n -> parent k = j -> 0 < j -> le_at l (parent j) k) ->
  heap_ok n (heap_up fuel l j).
Proof.
  revert l j. induction fuel as [|fuel IH]; intros l j Hf Hj Hn Hk Hc; [lia|]. cbn [heap_up].
  case_decide as Hp.
  { intros k Hk'. apply Hk; [done|]. intros ->. pose proof (parent_lt j). lia. }
  assert (parent j < j) as Hpj by (apply parent_lt; unfold parent in *; destruct j; cbn in *; lia).
  destruct (heap_less l j (parent j)) eqn:Hless.
  - apply IH; [lia|lia|by rewrite heap_swap_length| |].
    + intros k Hk' Hkp. destruct (decide (k = j)) as [->|Hkj]; [by apply exchange_pair; [lia|]|].
      destruct (decide (parent k = j)) as [Hpk|Hpk].
      * rewrite Hpk. apply exchange_from_j; [lia|done|lia|lia|]. apply Hc; [done|done|lia].
      * destruct (decide (parent k = parent j)) as [Heq|Hne].
        -- rewrite Heq. apply exchange_from_i; [done|done|done|]. rewrite <- Heq. by apply Hk.
        -- apply exchange_other; [done..|]. by apply Hk.
    + intros k Hk' Hpk Hpos. assert (parent (parent j) < parent j) by (by apply parent_lt).
      assert (le_at l (parent (parent j)) (parent j)) as Hgp by (apply Hk; lia).
      destruct (decide (k = j)) as [->|Hkj].
      * intros x y. rewrite !exchange_lookup, !(decide_False (P := parent (parent j) = _)), (decide_False (P := j = _)), decide_True by (done || lia).
        apply Hgp.
      * assert (k <> parent j) by (intros ->; lia).
        intros x y. rewrite !exchange_lookup, !(decide_False (P := _ = parent j)), !decide_False by (done || lia). intros Hx Hy.
        apply heap_less_true in Hless as (u & v & Hu & Hv & _).
        apply (hlt_weak x v); [by apply (Hgp x v)|]. specialize (Hk k ltac:(lia) Hkj). rewrite Hpk in Hk. by apply (Hk v y).
  - intros k Hk'. destruct (decide (k = j)) as [->|]; [by apply heap_less_false|by apply Hk].
Qed.

Lemma heap_up_perm fuel l j : heap_up fuel l j ≡ₚ l.
Proof.
  revert l j. induction fuel as [|fuel IH]; intros l j; [done|]. cbn [heap_up]. case_decide; [done|].
  destruct (heap_less _ _ _); [|done]. by rewrite IH, heap_swap_perm.
Qed.

(** The child that [heap_down] compares with: in range, and not after its sibling. *)
Definition min_child l (i n : nat) : nat :=
  if bool_decide (2 * i + 1 + 1 < n) && heap_less l (2 * i + 1 + 1) (2 * i + 1) then 2 * i + 1 + 1 else 2 * i + 1.

Lemma min_child_ok l i n : 2 * i + 1 < n ->
  0 < min_child l i n < n /\ parent (min_child l i n) = i /\ i < min_child l i n /\
  forall k, 0 < k < n -> parent k = i -> k <> min_child l i n -> le_at l (min_child l i n) k.
Proof.
  intros Hn. unfold min_child. case_bool_decide as H2; cbn [andb].
  - destruct (heap_less l (2 * i + 1 + 1) (2 * i + 1)) eqn:Hless.
    + split_and!; [lia|lia|apply parent_children; lia|lia|]. intros k Hk Hp Hne. apply parent_children in Hp; [|lia].
      assert (k = 2 * i + 1) as -> by lia. apply heap_less_true in Hless as (u & v & Hu & Hv & Hlt).
      intros x y Hx Hy. simplify_eq. by apply hlt_asym.
    + split_and!; [lia|lia|apply parent_children; lia|lia|]. intros k Hk Hp Hne. apply parent_children in Hp; [|lia].
      assert (k = 2 * i + 1 + 1) as -> by lia. by apply heap_less_false.
  - split_and!; [lia|lia|apply parent_children; lia|lia|]. intros k Hk Hp Hne. apply parent_children in Hp; lia.
Qed.

Lemma heap_down_S fuel l i n :
  heap_down (S fuel) l i n =
    if decide (n <= 2 * i + 1) then l
    else if heap_less l (min_child l i n) i then heap_down fuel (heap_swap i (min_child l i n) l) (min_child l i n) n else l.
Proof. done. Qed.

Lemma heap_down_ok fuel l i n :
  n - i < fuel -> n <= length l ->
  (forall k, 0 < k < n -> parent k <> i -> le_at l (parent k) k) ->
  (forall k, 0 < k < n -> parent k = i -> 0 < i -> le_at l (parent i) k) ->
  heap_ok n (heap_down fuel l i n).
Proof.
  revert l i. induction fuel as [|fuel IH]; intros l i Hf Hn Hk Hc; [lia|]. rewrite heap_down_S.
  case_decide as Hj1.
  { intros k Hk'. apply Hk; [done|]. intros Hp. apply parent_children in Hp; lia. }
  destruct (min_child_ok l i n) as (Hj & Hpj & Hij & Hmin); [lia|]. revert Hj Hpj Hij Hmin. generalize (min_child l i n). intros j Hj Hpj Hij Hmin.
  destruct (heap_less l j i) eqn:Hless.
  - apply IH; [lia|by rewrite heap_swap_length| |].
    + intros k Hk' Hpk. destruct (decide (k = j)) as [->|Hkj]; [rewrite Hpj; by apply exchange_pair; [lia|]|].
      destruct (decide (k = i)) as [->|Hki].
      * assert (parent i < i) by (apply parent_lt; lia). apply exchange_to_i; [done|lia|lia|]. apply Hc; [lia|done|lia].
      * destruct (decide (parent k = i)) as [Hpi|Hpi].
        -- rewrite Hpi. apply exchange_moved; [done..|]. by apply Hmin.
        -- apply exchange_other; [done..|]. by apply Hk.
    + intros k Hk' Hpk _. rewrite Hpj. assert (k <> i /\ k <> j) as [? ?] by (pose proof (parent_lt k); lia).
      apply exchange_moved; [done..|]. rewrite <- Hpk. apply Hk; [done|lia].
  - intros k Hk'. destruct (decide (parent k = i)) as [Hp|Hp]; [|by apply Hk].
    rewrite Hp. destruct (decide (k = j)) as [->|Hkj]; [by apply heap_less_false|].
    intros x y Hx Hy. destruct (lookup_lt_is_Some_2 l j) as [z Hz]; [lia|].
    apply (hlt_weak x z); [by apply (heap_less_false _ _ _ Hless)|by apply (Hmin k Hk' Hp Hkj)].
Qed.

Lemma heap_down_perm fuel l i n : heap_down fuel l i n ≡ₚ l.
Proof.
  revert l i. induction fuel as [|fuel IH]; intros l i; [done|]. rewrite heap_down_S. case_decide; [done|].
  destruct (heap_less _ _ _); [|done]. by rewrite IH, heap_swap_perm.
Qed.

Lemma heap_down_above fuel l i n k : i < n -> n <= k -> heap_down fuel l i n !! k = l !! k.
Proof.
  revert l i. induction fuel as [|fuel IH]; intros l i Hi Hk; [done|]. rewrite heap_down_S. case_decide as Hj1; [done|].
  destruct (min_child_ok l i n) as (Hj & _ & _ & _); [lia|]. destruct (heap_less _ _ _) eqn:Hless; [|done].
  rewrite IH by lia. rewrite (exchange_lookup l i _ Hless), !decide_False by lia. done.
Qed.

(** ** The operations *)

Lemma heap_root l k x y : heap_ok (length l) l -> l !! 0 = Some x -> l !! k = Some y -> ~ hlt y x.
Proof.
  intros Hok Hx. revert y. induction (lt_wf k) as [k _ IH]. intros y Hy. destruct (decide (k = 0)) as [->|Hk0].
  - simplify_eq. apply irreflexivity, _.
  - assert (k < length l) by by eapply lookup_lt_Some. assert (parent k < k) as Hp by (apply parent_lt; lia).
    destruct (lookup_lt_is_Some_2 l (parent k)) as [z Hz]; [lia|].
    apply (hlt_weak x z); [by apply (IH (parent k))|]. by apply (Hok k ltac:(lia)).
Qed.

Lemma heap_Push_ok x l : heap_ok (length l) l -> heap_ok (length (heap_Push x l)) (heap_Push x l) /\ heap_Push x l ≡ₚ x :: l.
Proof.
  intros Hok. unfold heap_Push. set (l' := l ++ [x]).
  assert (length l' = S (length l)) as Hlen by (unfold l'; rewrite length_app; cbn; lia).
  split; [|rewrite heap_up_perm; unfold l'; by rewrite Permutation_app_comm].
  rewrite (Permutation_length (heap_up_perm (length l') l' (length l' - 1))). apply heap_up_ok; [lia|lia|done| |].
  - intros k Hk Hne u v Hu Hv. assert (parent k < k) by (apply parent_lt; lia). unfold l' in Hu, Hv.
    rewrite lookup_app_l in Hu, Hv by lia. by apply (Hok k ltac:(lia)).
  - intros k Hk Hp _. pose proof (parent_lt k). lia.
Qed.

Lemma heap_Pop_ok l :
  heap_ok (length l) l -> l <> [] ->
  exists x l', heap_Pop l = Some (x, l') /\ l !! 0 = Some x /\ l ≡ₚ x :: l' /\ heap_ok (length l') l' /\ forall y, y ∈ l -> ~ hlt y x.
Proof.
  intros Hok Hne. unfold heap_Pop. set (n := length l - 1). assert (length l = S n) as Hlen by (destruct l; cbn in *; [done|lia]).
  set (l1 := heap_swap 0 n l). set (l2 := heap_down (length l) l1 0 n).
  destruct (lookup_lt_is_Some_2 l 0) as [x Hx]; [lia|].
  assert (forall k, l1 !! k = if decide (k = 0) then l !! n else if decide (k = n) then l !! 0 else l !! k) as Hl1
    by (intros k; apply heap_swap_lookup; lia).
  assert (l1 !! n = Some x) as Hl1n by (rewrite Hl1; case_decide; [congruence|by rewrite decide_True]).
  assert (length l2 = S n) as Hlen2 by (unfold l2, l1; by rewrite heap_down_perm, heap_swap_perm).
  assert (l2 !! n = Some x) as Hl2.
  { unfold l2. destruct (decide (n = 0)) as [->|]; [|by rewrite heap_down_above by lia].
    rewrite Hlen, heap_down_S. by rewrite decide_True by lia. }
  rewrite Hl2. exists x, (take n l2). split_and!; [done|done| | |].
  - transitivity l2; [unfold l2, l1; by rewrite heap_down_perm, heap_swap_perm|]. rewrite <- (take_drop n l2) at 1.
    rewrite (drop_S l2 x n) by done. rewrite drop_ge by lia. by rewrite Permutation_app_comm.
  - rewrite length_take_le by lia. assert (heap_ok n l2) as Hok2.
    { apply heap_down_ok; [lia|unfold l1; rewrite heap_swap_length; lia| |lia].
      intros k Hk Hp u v. assert (parent k < k) by (apply parent_lt; lia). rewrite !Hl1, !decide_False by lia. apply Hok. lia. }
    intros k Hk u v. assert (parent k < k) by (apply parent_lt; lia). rewrite !lookup_take_lt by lia. by apply Hok2.
  - intros y [k Hk]%list_elem_of_lookup. by apply (heap_root l k).
Qed.

End heap.
