(* ===== verification/SchedQueue.v ===== *)
(** * Scheduler types and job queue ([src/pkg/scheduler/types.go], [queue.go])

    Jobs, nodes and resources, and the priority queue of pending jobs on a binary heap.
    The queue is proved to refine a list of jobs in arrival order from which the
    highest-priority job, the earliest among equals, is taken. *)

From Stdlib Require Import SpecFloat.
From S2P Require Import Prelude GoFloat Heap.
Local Open Scope Z_scope.

(** ** Types *)

Inductive JobStatus := JobStatusPending | JobStatusScheduled | JobStatusRunning | JobStatusCompleted | JobStatusFailed.

Record Resources := mkResources { CPU : float64; Memory : Z; GPU : Z }.

Record Job := mkJob {
  job_ID : string; job_Command : string; job_Resources : Resources; job_Priority : Z; job_Labels : gmap string string }.

Record Node := mkNode { node_ID : string; AvailableResources : Resources; node_Labels : gmap string string }.

#[global] Instance Resources_eq_dec : EqDecision Resources.
Proof. solve_decision. Defined.
#[global] Instance Job_eq_dec : EqDecision Job.
Proof. solve_decision. Defined.
#[global] Instance Node_eq_dec : EqDecision Node.
Proof. solve_decision. Defined.

(** ** The queue *)

(** The field [index] is written by [Swap], [Push] and [Pop] and never read. *)
Record queueItem := mkQueueItem { qi_job : Job; qi_enqueued : Z }.

Definition priorityQueue_Less (a b : queueItem) : Prop :=
  if decide (job_Priority (qi_job a) = job_Priority (qi_job b)) then qi_enqueued a < qi_enqueued b
  else job_Priority (qi_job a) > job_Priority (qi_job b).

#[global] Program Instance queueItem_order : HeapOrder queueItem := {| hlt := priorityQueue_Less |}.
Next Obligation. intros x y. unfold priorityQueue_Less. case_decide; apply _. Defined.
Next Obligation. unfold priorityQueue_Less. split; [intros x; red|intros x y z]; repeat case_decide; lia. Qed.
Next Obligation. unfold priorityQueue_Less. intros x y z. repeat case_decide; lia. Qed.

Record Queue := mkQueue { q_pq : list queueItem; q_seq : Z; q_itemsMap : gmap string queueItem }.

Definition NewQueue : Queue := mkQueue [] 0 ∅.

Definition Queue_Add (job : Job) (q : Queue) : Queue :=
  match q_itemsMap q !! job_ID job with
  | Some _ => q
  | None =>
      let seq := i64 (q_seq q + 1) in
      let item := mkQueueItem job seq in
      mkQueue (heap_Push item (q_pq q)) seq (<[job_ID job := item]> (q_itemsMap q))
  end.

Definition Queue_Pop (q : Queue) : Queue * option Job :=
  match heap_Pop (q_pq q) with
  | None => (q, None)
  | Some (item, pq) => (mkQueue pq (q_seq q) (delete (job_ID (qi_job item)) (q_itemsMap q)), Some (qi_job item))
  end.

Definition Queue_Peek (q : Queue) : option Job := qi_job <$> q_pq q !! 0%nat.
Definition Queue_Len (q : Queue) : Z := Z.of_nat (length (q_pq q)).

(** ** The specification *)

(** The highest-priority job, the earliest among equals, of a list in arrival order. *)
Definition best_job (jobs : list Job) : option Job :=
  foldl (fun best j => match best with
                       | None => Some j
                       | Some b => if decide (job_Priority j > job_Priority b) then Some j else best
                       end) None jobs.

Definition spec_add (job : Job) (jobs : list Job) : list Job :=
  if decide (job_ID job ∈ job_ID <$> jobs) then jobs else jobs ++ [job].
Definition spec_pop (jobs : list Job) : list Job * option Job :=
  match best_job jobs with
  | None => (jobs, None)
  | Some j => (filter (fun k => job_ID k <> job_ID j) jobs, Some j)
  end.

Inductive queue_op := QAdd (job : Job) | QPop | QPeek | QLen.
Inductive queue_out := OUnit | OJob (job : option Job) | OLen (n : Z).

Definition queue_step (q : Queue) (o : queue_op) : Queue * queue_out :=
  match o with
  | QAdd job => (Queue_Add job q, OUnit)
  | QPop => let '(q, j) := Queue_Pop q in (q, OJob j)
  | QPeek => (q, OJob (Queue_Peek q))
  | QLen => (q, OLen (Queue_Len q))
  end.
Definition spec_step (l : list Job) (o : queue_op) : list Job * queue_out :=
  match o with
  | QAdd job => (spec_add job l, OUnit)
  | QPop => let '(l, j) := spec_pop l in (l, OJob j)
  | QPeek => (l, OJob (best_job l))
  | QLen => (l, OLen (Z.of_nat (length l)))
  end.

(** The outputs of a sequence of operations. *)
Fixpoint outputs {S} (step : S -> queue_op -> S * queue_out) (s : S) (ops : list queue_op) : list queue_out :=
  match ops with
  | [] => []
  | o :: ops => let '(s, out) := step s o in out :: outputs step s ops
  end.

(** ** The refinement *)

Record queue_rel (q : Queue) (jobs : list Job) : Prop := {
  qr_items : exists items, jobs = qi_job <$> items /\ items ≡ₚ q_pq q /\ StronglySorted (fun a b => qi_enqueued a < qi_enqueued b) items /\
    Forall (fun a => qi_enqueued a <= q_seq q) items;
  qr_heap : heap_ok (length (q_pq q)) (q_pq q);
  qr_map : forall id, is_Some (q_itemsMap q !! id) <-> id ∈ job_ID <$> jobs;
  qr_nodup : NoDup (job_ID <$> jobs) }.

Lemma best_job_app l1 j l2 :
  Forall (fun k => job_Priority k < job_Priority j) l1 -> Forall (fun k => job_Priority k <= job_Priority j) l2 ->
  best_job (l1 ++ j :: l2) = Some j.
Proof.
  intros H1 H2. unfold best_job. rewrite foldl_app. cbn [foldl].
  assert (forall b, (forall k, b = Some k -> job_Priority k < job_Priority j) -> forall k,
    foldl (fun best j => match best with None => Some j | Some b => if decide (job_Priority j > job_Priority b) then Some j else best end) b l1 = Some k ->
    job_Priority k < job_Priority j) as Hl1.
  { induction H1 as [|x l1 Hx _ IH]; intros b Hb k; cbn; [by apply Hb|]. apply IH. intros k'. destruct b as [b|]; [case_decide|]; naive_solver. }
  match goal with |- foldl ?f ?b l2 = _ => assert (b = Some j) as -> end.
  { destruct (foldl _ None l1) as [k|] eqn:E; [|done]. rewrite decide_True; [done|]. specialize (Hl1 None ltac:(done) k E). lia. }
  induction H2 as [|x l2 Hx _ IH]; [done|]. cbn. by rewrite decide_False by lia.
Qed.

Lemma list_filter_all {A} (P : A -> Prop) `{!forall x, Decision (P x)} (l : list A) : (forall x, x ∈ l -> P x) -> filter P l = l.
Proof.
  induction l as [|x l IH]; intros Hl; [done|]. rewrite filter_cons, decide_True by (apply Hl; by left). f_equal. apply IH. intros y Hy. apply Hl. by right.
Qed.

Lemma filter_other (l1 l2 : list Job) j :
  NoDup (job_ID <$> l1 ++ j :: l2) -> filter (fun k => job_ID k <> job_ID j) (l1 ++ j :: l2) = l1 ++ l2.
Proof.
  rewrite fmap_app, fmap_cons. intros (H1 & H2 & H3)%NoDup_app. apply NoDup_cons in H3 as [H3 _].
  rewrite filter_app, filter_cons, decide_False by tauto. f_equal.
  - apply list_filter_all. intros k Hk Heq. apply (H2 (job_ID k)); [by apply list_elem_of_fmap_2|]. rewrite Heq. by left.
  - apply list_filter_all. intros k Hk Heq. apply H3. rewrite <- Heq. by apply list_elem_of_fmap_2.
Qed.

Lemma StronglySorted_middle {A} (R : relation A) l1 x l2 :
  StronglySorted R (l1 ++ x :: l2) -> StronglySorted R (l1 ++ l2) /\ Forall (fun y => R y x) l1 /\ Forall (R x) l2.
Proof.
  induction l1 as [|y l1 IH]; cbn; inversion_clear 1 as [|? ? Hs Hf]; [done|].
  destruct (IH Hs) as (Hs' & H1 & H2). rewrite Forall_app, Forall_cons in Hf. destruct Hf as (Hf1 & Hx & Hf2).
  split_and!; [constructor; [done|by apply Forall_app]|by constructor|done].
Qed.

(** The root of the heap is the job the specification picks. *)
Lemma root_is_best items x :
  StronglySorted (fun a b => qi_enqueued a < qi_enqueued b) items -> x ∈ items -> (forall y, y ∈ items -> ~ hlt y x) ->
  exists i1 i2, items = i1 ++ x :: i2 /\ best_job (qi_job <$> items) = Some (qi_job x).
Proof.
  intros Hs Hx Hmin. apply list_elem_of_split in Hx as (i1 & i2 & ->). exists i1, i2. split; [done|].
  apply StronglySorted_middle in Hs as (_ & H1 & H2). rewrite fmap_app, fmap_cons. apply best_job_app.
  - apply Forall_fmap, Forall_forall. intros y Hy. rewrite Forall_forall in H1. specialize (H1 y Hy). specialize (Hmin y ltac:(set_solver)).
    cbn [hlt queueItem_order] in Hmin. unfold priorityQueue_Less in Hmin. cbn. case_decide; lia.
  - apply Forall_fmap, Forall_forall. intros y Hy. rewrite Forall_forall in H2. specialize (H2 y Hy). specialize (Hmin y ltac:(set_solver)).
    cbn [hlt queueItem_order] in Hmin. unfold priorityQueue_Less in Hmin. cbn. case_decide; lia.
Qed.

Lemma queue_rel_best q jobs : queue_rel q jobs -> Queue_Peek q = best_job jobs.
Proof.
  intros [(items & -> & Hp & Hs & _) Hh _ _]. unfold Queue_Peek. destruct (q_pq q !! 0%nat) as [x|] eqn:Hx.
  - destruct (root_is_best items x) as (? & ? & _ & ->); [done| | |done].
    + rewrite Hp. by eapply list_elem_of_lookup_2.
    + intros y Hy. rewrite Hp in Hy. apply list_elem_of_lookup in Hy as [k Hk]. by eapply heap_root.
  - destruct (q_pq q); [|done]. apply Permutation_nil_r in Hp as ->. done.
Qed.

Lemma queue_rel_add q jobs job : 0 <= q_seq q < MaxInt64 -> queue_rel q jobs ->
  queue_rel (Queue_Add job q) (spec_add job jobs) /\ q_seq q <= q_seq (Queue_Add job q) <= q_seq q + 1.
Proof.
  intros Hseq Hr. pose proof Hr as [(items & Hj & Hp & Hs & Hle) Hh Hm Hn]. unfold Queue_Add, spec_add.
  destruct (q_itemsMap q !! job_ID job) as [i|] eqn:E.
  - rewrite decide_True by (apply Hm; eauto). split; [done|lia].
  - rewrite decide_False by (rewrite <- Hm, E; by intros [? ?]). rewrite i64_id by int_lia. cbn [q_seq]. split; [|lia].
    set (item := mkQueueItem job (q_seq q + 1)). destruct (heap_Push_ok item _ Hh) as [Hh' Hp'].
    split; cbn [q_pq q_seq q_itemsMap]; [|done| |].
    + exists (items ++ [item]). split_and!.
      * by rewrite fmap_app, Hj.
      * by rewrite Hp', <- Hp, Permutation_app_comm.
      * apply StronglySorted_app; split_and!; [|done|by repeat constructor].
        intros a b Ha ->%list_elem_of_singleton. rewrite Forall_forall in Hle. specialize (Hle a Ha). cbn. lia.
      * apply Forall_app. split; [|by constructor; cbn; [lia|]]. eapply Forall_impl; [done|]. cbn. lia.
    + intros id. rewrite fmap_app, elem_of_app. cbn. rewrite list_elem_of_singleton, <- Hm. rewrite lookup_insert.
      destruct (decide (job_ID job = id)) as [->|]; naive_solver.
    + rewrite fmap_app. apply NoDup_app. split_and!; [done| |apply NoDup_singleton].
      intros id Hid ->%list_elem_of_singleton. apply Hm in Hid as [? ?]. congruence.
Qed.

Lemma queue_rel_pop q jobs : queue_rel q jobs ->
  queue_rel (Queue_Pop q).1 (spec_pop jobs).1 /\ (Queue_Pop q).2 = (spec_pop jobs).2 /\ q_seq (Queue_Pop q).1 = q_seq q.
Proof.
  intros Hr. pose proof Hr as [(items & -> & Hp & Hs & Hle) Hh Hm Hn]. unfold Queue_Pop, spec_pop.
  destruct (decide (q_pq q = [])) as [He|Hne].
  { rewrite <- (queue_rel_best _ _ Hr). unfold Queue_Peek. rewrite He. cbn. done. }
  destruct (heap_Pop_ok _ Hh Hne) as (x & pq & -> & _ & Hpq & Hh' & Hmin).
  destruct (root_is_best items x) as (i1 & i2 & -> & ->); [done|rewrite Hp, Hpq; by left|by intros y; rewrite Hp; apply Hmin|].
  cbn [fst snd]. rewrite fmap_app, fmap_cons in *. rewrite filter_other by done. split_and!; [|done|done].
  apply StronglySorted_middle in Hs as (Hs & _). rewrite Forall_app, Forall_cons in Hle.
  rewrite fmap_app, fmap_cons in Hm, Hn. split; cbn [q_pq q_seq q_itemsMap].
  - exists (i1 ++ i2). split_and!; [by rewrite fmap_app| |done|rewrite Forall_app; tauto].
    apply (Permutation_cons_inv (a := x)). by rewrite <- Hpq, <- Hp, Permutation_middle.
  - done.
  - intros id. rewrite fmap_app, elem_of_app. specialize (Hm id). rewrite elem_of_app, elem_of_cons in Hm.
    apply NoDup_app in Hn as (_ & Hn1 & Hn2). apply NoDup_cons in Hn2 as [Hn2 _].
    destruct (decide (job_ID (qi_job x) = id)) as [<-|Hid].
    + rewrite lookup_delete_eq. split; [by intros [? ?]|]. intros [H|H]; [|done]. exfalso. apply (Hn1 _ H). by left.
    + rewrite lookup_delete_ne by done. rewrite Hm. naive_solver.
  - rewrite fmap_app. apply NoDup_app in Hn as (H1 & H2 & H3). apply NoDup_cons in H3 as [_ H3].
    apply NoDup_app. split_and!; [done| |done]. intros id Hid Hid'. apply (H2 id Hid). by right.
Qed.

Lemma queue_outputs q jobs ops :
  queue_rel q jobs -> 0 <= q_seq q -> q_seq q + Z.of_nat (length ops) <= MaxInt64 ->
  outputs queue_step q ops = outputs spec_step jobs ops.
Proof.
  revert q jobs. induction ops as [|o ops IH]; intros q jobs Hr H0 Hlen; [done|]. cbn [outputs length] in *.
  destruct o as [job| | |]; cbn [queue_step spec_step].
  - destruct (queue_rel_add q jobs job ltac:(lia) Hr) as [Hr' Hseq]. f_equal. apply IH; [done|lia|lia].
  - destruct (queue_rel_pop q jobs Hr) as (Hr' & Hout & Hseq). destruct (Queue_Pop q) as [q' j], (spec_pop jobs) as [l' j'].
    cbn in Hr', Hout, Hseq. subst. f_equal. apply IH; [done|lia|lia].
  - rewrite (queue_rel_best _ _ Hr). f_equal. apply IH; [done|lia|lia].
  - assert (Queue_Len q = Z.of_nat (length jobs)) as ->; [|f_equal; apply IH; [done|lia|lia]].
    destruct Hr as [(items & -> & Hp & _) _ _ _]. unfold Queue_Len. by rewrite length_fmap, Hp.
Qed.

(** ** Properties *)

(** The job queue is a priority queue that is first-in first-out within a priority.
    For every sequence of operations shorter than the range of the sequence counter,
    the heap-based queue answers exactly as a list of jobs in arrival order that
    ignores a job whose ID it holds, takes out the first job of the highest priority,
    and forgets its ID. *)
Theorem schedqueue_refines_priority_fifo ops :
  Z.of_nat (length ops) <= MaxInt64 -> outputs queue_step NewQueue ops = outputs spec_step [] ops.
Proof.
  intros Hlen. apply queue_outputs; [|done|done]. split; [|intros k Hk; cbn in Hk; lia| |constructor].
  - exists []. split_and!; [done|done|constructor|constructor].
  - intros id. cbn. rewrite lookup_empty. split; [by intros [? ?]|by intros ?%not_elem_of_nil].
Qed.

Lemma schedqueue_refines_priority_fifo_witness :
  let job id p := mkJob id EmptyString (mkResources S754_nan 0 0) p ∅ in
  outputs queue_step NewQueue [QAdd (job "a" 1); QAdd (job "b" 5); QAdd (job "c" 5); QAdd (job "b" 9); QPop; QPop; QLen] =
    [OUnit; OUnit; OUnit; OUnit; OJob (Some (job "b" 5)); OJob (Some (job "c" 5)); OLen 1].
Proof. cbv zeta. rewrite schedqueue_refines_priority_fifo by by_eval. by vm_compute. Defined.
