(* ===== verification/Scheduler.v ===== *)
(** * The scheduler ([src/pkg/scheduler/scheduler.go], [plugins.go], [gang_preempt.go])

    Placement of jobs on nodes through a pipeline of plugins: plain and optimistic
    scheduling, gangs placed all or nothing, and preemption of lower-priority jobs.
    What the pipeline owes the scheduler is the class [AccountedPlugins], discharged
    for the repository's plugins. *)

From Stdlib Require Import SpecFloat.
From S2P Require Import Prelude GoFloat SchedQueue.
Local Open Scope Z_scope.

(** ** Plugins *)

Record Plugin := mkPlugin {
  Name : string; Filter : Job -> Node -> bool; Score : Job -> Node -> Z; Bind : Job -> Node -> Node * bool }.

Definition with_resources (r : Resources) (n : Node) : Node := mkNode (node_ID n) r (node_Labels n).

Definition fit_filter (job : Job) (node : Node) : bool :=
  let a := AvailableResources node in
  let r := job_Resources job in
  f64_ge (CPU a) (CPU r) && bool_decide (Memory a >= Memory r) && bool_decide (GPU a >= GPU r).

Definition fit_score (job : Job) (node : Node) : Z :=
  let a := AvailableResources node in
  let r := job_Resources job in
  if negb (fit_filter job node) then 0
  else
    let score := 0 in
    let score := if f64_gt (CPU r) (S754_zero false)
                 then i64 (score + f64_to_int (f64_mul (f64_sub (CPU a) (CPU r)) (f64_of_int 100))) else score in
    let score := if decide (Memory r > 0 /\ Memory a >= Memory r) then i64 (score + i64 (u64 (Memory a - Memory r) / 1024)) else score in
    if decide (GPU r > 0) then i64 (score + i64 (i64 (GPU a - GPU r) * 1000)) else score.

(** The resources left when [r] is taken from, or given back to, a node. *)
Definition debit (r : Resources) (n : Node) : Node :=
  let a := AvailableResources n in
  with_resources (mkResources (f64_sub (CPU a) (CPU r)) (u64 (Memory a - Memory r)) (i64 (GPU a - GPU r))) n.
Definition credit (r : Resources) (n : Node) : Node :=
  let a := AvailableResources n in
  with_resources (mkResources (f64_add (CPU a) (CPU r)) (u64 (Memory a + Memory r)) (i64 (GPU a + GPU r))) n.

Definition fit_bind (job : Job) (node : Node) : Node * bool :=
  if negb (fit_filter job node) then (node, false) else (debit (job_Resources job) node, true).

Definition NodeResourcesFit : Plugin := mkPlugin "NodeResourcesFit" fit_filter fit_score fit_bind.

Definition PrioritySort : Plugin := mkPlugin "PrioritySort" (fun _ _ => true) (fun _ _ => 0) (fun _ node => (node, true)).

(** [strings.HasPrefix] followed by [strings.TrimPrefix]: the key without the prefix. *)
Definition strip_prefix (pre k : string) : option string :=
  if String.prefix pre k then Some (String.substring (String.length pre) (String.length k - String.length pre) k) else None.

Section capability_match.
(** [strings.EqualFold]: equality under Unicode case folding. *)
Context (EqualFold : string -> string -> bool).

Definition label_matches (node : Node) (key v : string) : bool :=
  match node_Labels node !! key with Some nodeVal => EqualFold nodeVal v | None => false end.

Definition capability_filter (job : Job) (node : Node) : bool :=
  range_all (fun k v => match strip_prefix "require_" k with Some reqKey => label_matches node reqKey v | None => true end) (job_Labels job).

Definition capability_score (job : Job) (node : Node) : Z :=
  if negb (capability_filter job node) then 0
  else i64 (range_fold (fun matches k v => match strip_prefix "prefer_" k with
                                      | Some prefKey => if label_matches node prefKey v then i64 (matches + 1) else matches
                                      | None => matches
                                      end) 0 (job_Labels job) * 10).

Definition CapabilityMatch : Plugin := mkPlugin "CapabilityMatch" capability_filter capability_score (fun _ node => (node, true)).
End capability_match.

Definition loadaware_score (_ : Job) (node : Node) : Z :=
  let a := AvailableResources node in
  i64 (i64 (f64_to_int (f64_mul (CPU a) (f64_of_int 10)) + i64 (Memory a / 1024)) + i64 (GPU a * 100)).

Definition LoadAware : Plugin := mkPlugin "LoadAware" (fun _ _ => true) loadaware_score (fun _ node => (node, true)).

(** ** The scheduler's state *)

(** The job a placement points to is the one with its ID. *)
Record Placement := mkPlacement { pm_JobID : string; pm_NodeID : string; pm_Priority : Z; pm_Resources : Resources }.

(** [s_status] holds the status field of the job objects. *)
Record Scheduler := mkScheduler {
  s_queue : Queue; s_plugins : list Plugin; s_nodes : gmap string Node; s_version : Z;
  s_placements : gmap string Placement; s_status : gmap string JobStatus }.

Definition NewScheduler : Scheduler := mkScheduler NewQueue [] ∅ 1 ∅ ∅.

Definition with_nodes (ns : gmap string Node) (s : Scheduler) : Scheduler :=
  mkScheduler (s_queue s) (s_plugins s) ns (s_version s) (s_placements s) (s_status s).

Definition Scheduler_AddPlugin (p : Plugin) (s : Scheduler) : Scheduler :=
  mkScheduler (s_queue s) (s_plugins s ++ [p]) (s_nodes s) (s_version s) (s_placements s) (s_status s).
Definition Scheduler_RegisterNode (n : Node) (s : Scheduler) : Scheduler := with_nodes (<[node_ID n := n]> (s_nodes s)) s.
Definition Scheduler_UnregisterNode (id : string) (s : Scheduler) : Scheduler := with_nodes (delete id (s_nodes s)) s.
Definition copyNode (n : Node) : Node :=
  mkNode (node_ID n)
    (mkResources (CPU (AvailableResources n)) (Memory (AvailableResources n)) (GPU (AvailableResources n)))
    (range_fold (fun labels k v => <[k := v]> labels) ∅ (node_Labels n)).
Definition Scheduler_GetNode (id : string) (s : Scheduler) : option Node := copyNode <$> s_nodes s !! id.
Definition Scheduler_NodeCount (s : Scheduler) : Z := Z.of_nat (size (s_nodes s)).

(** ** The plugin pipeline *)

Definition runFilters (ps : list Plugin) (job : Job) (node : Node) : bool := forallb (fun p => Filter p job node) ps.
Definition runScorers (ps : list Plugin) (job : Job) (node : Node) : Z := foldl (fun score p => i64 (score + Score p job node)) 0 ps.

Fixpoint bind_loop (snapshot : Resources) (ps : list Plugin) (job : Job) (node : Node) : Node * bool :=
  match ps with
  | [] => (node, true)
  | p :: ps =>
      let '(node, ok) := Bind p job node in
      if ok then bind_loop snapshot ps job node else (with_resources snapshot node, false)
  end.
Definition runBindLocked (ps : list Plugin) (job : Job) (node : Node) : Node * bool := bind_loop (AvailableResources node) ps job node.

(** The selection loop over nodes in order: the first of the highest score above -1. *)
Definition pick (ps : list Plugin) (job : Job) (candidates : list Node) : option Node :=
  (foldl (fun '(bestNode, bestScore) node =>
     if negb (runFilters ps job node) then (bestNode, bestScore)
     else let score := runScorers ps job node in
          if decide (score > bestScore) then (Some node, score) else (bestNode, bestScore)) (None, -1) candidates).1.

Definition id_le (a b : Node) : Prop := String.le (node_ID a) (node_ID b).
#[global] Instance id_le_dec a b : Decision (id_le a b).
Proof. unfold id_le. apply _. Defined.

Definition sorted_candidates (ns : gmap string Node) : list Node := merge_sort id_le (map_to_list ns).*2.

Definition bestNodeAmong (ps : list Plugin) (job : Job) (ns : gmap string Node) : option Node :=
  pick ps job (omap (fun id => ns !! id) (sort_strings (map_to_list ns).*1)).

(** ** Scheduling one job *)

Inductive sched_error :=
  | ErrNoNodeAvailable | ErrBindingFailed (node : string) | ErrConflict (expected got : Z)
  | ErrGangEmpty | ErrGangNotAllPlaced | ErrNoPreemptionCandidates | ErrPreemptionBinding (node : string).

Definition placement_of (job : Job) (node : string) : Placement := mkPlacement (job_ID job) node (job_Priority job) (job_Resources job).

Definition recordPlacementLocked (job : Job) (node : string) (s : Scheduler) : Scheduler :=
  mkScheduler (s_queue s) (s_plugins s) (s_nodes s) (s_version s) (<[job_ID job := placement_of job node]> (s_placements s)) (s_status s).

(** [s.version++; job.Status = JobStatusScheduled; s.recordPlacementLocked(job, node)] *)
Definition commit_job (job : Job) (node : string) (s : Scheduler) : Scheduler :=
  recordPlacementLocked job node
    (mkScheduler (s_queue s) (s_plugins s) (s_nodes s) (u64 (s_version s + 1)) (s_placements s) (<[job_ID job := JobStatusScheduled]> (s_status s))).

Definition Scheduler_Schedule (job : Job) (s : Scheduler) : Scheduler * (sched_error + string) :=
  match pick (s_plugins s) job (sorted_candidates (s_nodes s)) with
  | None => (s, inl ErrNoNodeAvailable)
  | Some bestNode =>
      let '(node, ok) := runBindLocked (s_plugins s) job bestNode in
      let s := with_nodes (<[node_ID bestNode := node]> (s_nodes s)) s in
      if ok : bool then (commit_job job (node_ID node) s, inr (node_ID node)) else (s, inl (ErrBindingFailed (node_ID node)))
  end.

Definition Scheduler_ScheduleOptimistic (job : Job) (expectedVersion : Z) (s : Scheduler) : Scheduler * (sched_error + string) :=
  if decide (s_version s <> expectedVersion) then (s, inl (ErrConflict expectedVersion (s_version s)))
  else
    match pick (s_plugins s) job (sorted_candidates (s_nodes s)) with
    | None => (s, inl ErrNoNodeAvailable)
    | Some bestNode =>
        let '(node, ok) := runBindLocked (s_plugins s) job bestNode in
        let s := with_nodes (<[node_ID bestNode := node]> (s_nodes s)) s in
        if ok : bool then (commit_job job (node_ID node) s, inr (node_ID node)) else (s, inl (ErrBindingFailed (node_ID node)))
    end.

(** ** Releasing a placement *)

Definition credit_node (id : string) (r : Resources) (ns : gmap string Node) : gmap string Node :=
  match ns !! id with Some node => <[id := credit r node]> ns | None => ns end.

Definition releasePlacementLocked (jobID : string) (finalStatus : JobStatus) (s : Scheduler) : Scheduler * bool :=
  match s_placements s !! jobID with
  | None => (s, false)
  | Some p =>
      (mkScheduler (s_queue s) (s_plugins s) (credit_node (pm_NodeID p) (pm_Resources p) (s_nodes s)) (u64 (s_version s + 1))
         (delete jobID (s_placements s)) (<[jobID := finalStatus]> (s_status s)), true)
  end.

Definition Scheduler_Complete (jobID : string) (s : Scheduler) : Scheduler * bool := releasePlacementLocked jobID JobStatusCompleted s.
Definition Scheduler_Release (jobID : string) (s : Scheduler) : Scheduler * bool := releasePlacementLocked jobID JobStatusCompleted s.
Definition Scheduler_IsRunning (jobID : string) (s : Scheduler) : bool := match s_placements s !! jobID with Some _ => true | None => false end.
Definition Scheduler_RunningPlacements (s : Scheduler) : list Placement := (map_to_list (s_placements s)).*2.

(** ** Gangs *)

(** The planning loop on the shadow nodes: [None] when a task cannot be placed. *)
Fixpoint plan_gang (ps : list Plugin) (jobs : list Job) (shadow : gmap string Node) : option (gmap string Node * list string) :=
  match jobs with
  | [] => Some (shadow, [])
  | job :: jobs =>
      match bestNodeAmong ps job shadow with
      | None => None
      | Some bestNode =>
          let '(node, ok) := runBindLocked ps job bestNode in
          if ok : bool
          then '(shadow, planned) ← plan_gang ps jobs (<[node_ID bestNode := node]> shadow); Some (shadow, node_ID node :: planned)
          else None
      end
  end.

Definition record_gang (s : Scheduler) (jobs : list (Job * string)) : Scheduler :=
  foldl (fun s '(job, node) =>
    mkScheduler (s_queue s) (s_plugins s) (s_nodes s) (s_version s) (<[job_ID job := placement_of job node]> (s_placements s))
      (<[job_ID job := JobStatusScheduled]> (s_status s))) s jobs.

Definition scheduleGangLocked (jobs : list Job) (s : Scheduler) : Scheduler * (sched_error + list (string * string)) :=
  if decide (jobs = []) then (s, inl ErrGangEmpty)
  else
    match plan_gang (s_plugins s) jobs (copyNode <$> s_nodes s) with
    | None => (s, inl ErrGangNotAllPlaced)
    | Some (shadow, planned) =>
        let s := record_gang (with_nodes (shadow ∪ s_nodes s) s) (zip jobs planned) in
        (mkScheduler (s_queue s) (s_plugins s) (s_nodes s) (u64 (s_version s + 1)) (s_placements s) (s_status s),
         inr (zip (job_ID <$> jobs) planned))
    end.

Definition Scheduler_ScheduleGang (jobs : list Job) (s : Scheduler) : Scheduler * (sched_error + list (string * string)) := scheduleGangLocked jobs s.
Definition Scheduler_ScheduleGangOptimistic (jobs : list Job) (expectedVersion : Z) (s : Scheduler)
    : Scheduler * (sched_error + list (string * string)) :=
  if decide (s_version s <> expectedVersion) then (s, inl (ErrConflict expectedVersion (s_version s))) else scheduleGangLocked jobs s.

(** ** Preemption *)

(** [sort.SliceStable] by priority. *)
Fixpoint insert_stable (v : Placement) (l : list Placement) : list Placement :=
  match l with
  | [] => [v]
  | w :: l' => if decide (pm_Priority v <= pm_Priority w) then v :: l else w :: insert_stable v l'
  end.
Definition stable_by_priority (l : list Placement) : list Placement := foldr insert_stable [] l.

(** Reclaim victims one by one until the job fits. *)
Fixpoint reclaim (ps : list Plugin) (job : Job) (sim : Node) (chosen cands : list Placement) : Node * list Placement :=
  match cands with
  | [] => (sim, chosen)
  | v :: cands =>
      if runFilters ps job sim then (sim, chosen)
      else reclaim ps job (credit (pm_Resources v) sim) (chosen ++ [v]) cands
  end.

(** The victims of [job] on one node; [order] is the order in which the placements are ranged over. *)
Definition candidate_victims (order : list Placement) (job : Job) (nodeID : string) : list Placement :=
  stable_by_priority (filter (fun p => pm_Priority p < job_Priority job /\ pm_NodeID p = nodeID) order).

Definition better_plan (ps : list Plugin) (order : list Placement) (job : Job) (ns : gmap string Node)
    (best : option (string * list Placement)) (nodeID : string) : option (string * list Placement) :=
  match ns !! nodeID with
  | None => best
  | Some node =>
      let '(sim, chosen) := reclaim ps job (copyNode node) [] (candidate_victims order job nodeID) in
      if negb (runFilters ps job sim) then best
      else match best with
           | None => Some (nodeID, chosen)
           | Some (_, victims) => if decide ((length chosen < length victims)%nat) then Some (nodeID, chosen) else best
           end
  end.

Definition preemption_plan (order : list Placement) (job : Job) (s : Scheduler) : option (string * list Placement) :=
  foldl (better_plan (s_plugins s) order job (s_nodes s)) None (sort_strings (map_to_list (s_nodes s)).*1).

(** Evict the victims from their node, restoring their resources. *)
Definition evict (nodeID : string) (victims : list Placement) (s : Scheduler) : Scheduler :=
  foldl (fun s v => mkScheduler (s_queue s) (s_plugins s) (credit_node nodeID (pm_Resources v) (s_nodes s)) (s_version s)
                      (delete (pm_JobID v) (s_placements s)) (<[pm_JobID v := JobStatusPending]> (s_status s))) s victims.

Definition preempt_slow (order : list Placement) (job : Job) (s : Scheduler) : Scheduler * (sched_error + string * list string) :=
  match preemption_plan order job s with
  | None => (s, inl ErrNoPreemptionCandidates)
  | Some (nodeID, victims) =>
      let s := evict nodeID victims s in
      match s_nodes s !! nodeID with
      | None => (s, inl ErrNoPreemptionCandidates) (* the plan's node is one of the nodes *)
      | Some node =>
          let '(node', ok) := runBindLocked (s_plugins s) job node in
          let s := with_nodes (<[nodeID := node']> (s_nodes s)) s in
          if ok : bool then (commit_job job (node_ID node') s, inr (node_ID node', pm_JobID <$> victims))
          else (s, inl (ErrPreemptionBinding (node_ID node')))
      end
  end.

Definition schedulePreemptLocked (order : list Placement) (job : Job) (s : Scheduler) : Scheduler * (sched_error + string * list string) :=
  match bestNodeAmong (s_plugins s) job (s_nodes s) with
  | None => preempt_slow order job s
  | Some bestNode =>
      let '(node, ok) := runBindLocked (s_plugins s) job bestNode in
      let s := with_nodes (<[node_ID bestNode := node]> (s_nodes s)) s in
      if ok : bool then (commit_job job (node_ID node) s, inr (node_ID node, [])) else preempt_slow order job s
  end.

Definition Scheduler_SchedulePreempt (order : list Placement) (job : Job) (s : Scheduler) : Scheduler * (sched_error + string * list string) :=
  schedulePreemptLocked order job s.

Definition Scheduler_SchedulePreemptOptimistic (order : list Placement) (job : Job) (expectedVersion : Z) (s : Scheduler)
    : Scheduler * (sched_error + string * list string) :=
  if decide (s_version s <> expectedVersion) then (s, inl (ErrConflict expectedVersion (s_version s))) else schedulePreemptLocked order job s.
