(* ===== verification/SchedSpec.v ===== *)
(** * What the scheduler guarantees (proofs about [Scheduler])

    Selection of the best node, all-or-nothing gangs, preemption of lower-priority
    jobs only, and exact accounting of every node's memory and GPUs over all
    histories, for any plugin pipeline that meets [AccountedPlugins]. *)

From Stdlib Require Import SpecFloat.
From S2P Require Import Prelude GoFloat SchedQueue Scheduler.
Local Open Scope Z_scope.

(** ** The contract between the scheduler and its plugins

    A node that passes the filters has the memory and GPUs asked for, and binding
    to it takes the job's resources, once. *)
Class AccountedPlugins (ps : list Plugin) : Prop := {
  ap_fits : forall job node, runFilters ps job node = true ->
    Memory (job_Resources job) <= Memory (AvailableResources node) /\ GPU (job_Resources job) <= GPU (AvailableResources node);
  ap_bind : forall job node, runFilters ps job node = true -> runBindLocked ps job node = (debit (job_Resources job) node, true) }.

(** A plugin whose [Bind] does nothing and does not fail. *)
Definition passive (p : Plugin) : Prop := forall job node, Bind p job node = (node, true).

Lemma bind_loop_passive snapshot ps job node : Forall passive ps -> bind_loop snapshot ps job node = (node, true).
Proof. induction 1 as [|p ps Hp _ IH]; [done|]. cbn. by rewrite Hp. Qed.

(** The repository's resource plugin followed by passive ones meets the contract. *)
Lemma fit_accounted ps : Forall passive ps -> AccountedPlugins (NodeResourcesFit :: ps).
Proof.
  intros Hps. split; intros job node Hf; cbn in Hf; apply andb_true_iff in Hf as [Hfit Hps'].
  - unfold fit_filter in Hfit. rewrite !andb_true_iff, !bool_decide_eq_true in Hfit. lia.
  - unfold runBindLocked. cbn. unfold fit_bind. rewrite Hfit. cbn. by apply bind_loop_passive.
Qed.

(** The pipeline that [src/internal/scheduler/server.go] installs. *)
Definition server_plugins (EqualFold : string -> string -> bool) : list Plugin := [NodeResourcesFit; CapabilityMatch EqualFold; LoadAware].

#[global] Instance server_plugins_accounted EqualFold : AccountedPlugins (server_plugins EqualFold).
Proof. apply fit_accounted. by repeat constructor. Qed.

(** ** Well-formed states *)

Definition nodes_keyed (ns : gmap string Node) : Prop := forall id n, ns !! id = Some n -> node_ID n = id.
Definition placements_keyed (pms : gmap string Placement) : Prop := forall id p, pms !! id = Some p -> pm_JobID p = id.

Lemma copyNode_id n : copyNode n = n.
Proof.
  destruct n as [id [c m g] labels]. unfold copyNode. cbn. f_equal. apply map_eq. intros k.
  rewrite (range_fold_slot _ (fun _ v => Some v)).
  - rewrite lookup_empty. by destruct (labels !! k).
  - intros out i v j. rewrite lookup_insert. done.
Qed.

Lemma copyNode_fmap (ns : gmap string Node) : copyNode <$> ns = ns.
Proof. apply map_eq. intros i. rewrite lookup_fmap. destruct (ns !! i); cbn; [by rewrite copyNode_id|done]. Qed.

(** ** Selection *)

#[global] Instance id_le_trans : Transitive id_le.
Proof. intros a b c. unfold id_le. by etrans. Qed.
#[global] Instance id_le_total : Total id_le.
Proof. intros a b. unfold id_le. apply (total String.le). Qed.

Section selection.
Variables (ps : list Plugin) (job : Job).

Notation eligible n := (runFilters ps job n = true).
Notation score n := (runScorers ps job n).

Definition pick_step '(bestNode, bestScore) (node : Node) : option Node * Z :=
  if negb (runFilters ps job node) then (bestNode, bestScore)
  else if decide (score node > bestScore) then (Some node, score node) else (bestNode, bestScore).

(** [n] is the first of the highest score in [l], above -1. *)
Definition first_best (l : list Node) (n : Node) : Prop :=
  eligible n /\ -1 < score n /\ exists l1 l2, l = l1 ++ n :: l2 /\
    (forall m, m ∈ l1 -> eligible m -> score m < score n) /\ (forall m, m ∈ l2 -> eligible m -> score m <= score n).

Definition pick_inv (l : list Node) (st : option Node * Z) : Prop :=
  match st with
  | (None, b) => b = -1 /\ forall m, m ∈ l -> eligible m -> score m <= -1
  | (Some n, b) => b = score n /\ first_best l n
  end.

Lemma pick_step_inv l st n : pick_inv l st -> pick_inv (l ++ [n]) (pick_step st n).
Proof.
  destruct st as [best b]. unfold pick_step. intros Hinv. destruct (runFilters ps job n) eqn:Hn; cbn [negb].
  - destruct best as [m|]; cbn [pick_inv] in *.
    + destruct Hinv as [-> (Hm & Hpos & l1 & l2 & -> & H1 & H2)]. case_decide.
      * split; [done|]. split_and!; [done|lia|]. exists (l1 ++ m :: l2), []. split_and!; [done| |by intros ? ?%not_elem_of_nil].
        intros k [Hk|[->|Hk]%elem_of_cons]%elem_of_app He; [specialize (H1 k Hk He); lia|lia|specialize (H2 k Hk He); lia].
      * split; [done|]. split_and!; [done|done|]. exists l1, (l2 ++ [n]). split_and!; [by rewrite <- app_assoc|done|].
        intros k [Hk|Hk%list_elem_of_singleton]%elem_of_app He; [by apply H2|subst k; lia].
    + destruct Hinv as [-> Hl]. case_decide.
      * split; [done|]. split_and!; [done|lia|]. exists l, []. split_and!; [done| |by intros ? ?%not_elem_of_nil].
        intros k Hk He. specialize (Hl k Hk He). lia.
      * split; [done|]. intros k [Hk|Hk%list_elem_of_singleton]%elem_of_app He; [by apply Hl|subst k; lia].
  - destruct best as [m|]; cbn [pick_inv] in *.
    + destruct Hinv as [-> (Hm & Hpos & l1 & l2 & -> & H1 & H2)]. split; [done|]. split_and!; [done|done|].
      exists l1, (l2 ++ [n]). split_and!; [by rewrite <- app_assoc|done|].
      intros k [Hk|Hk%list_elem_of_singleton]%elem_of_app He; [by apply H2|congruence].
    + destruct Hinv as [-> Hl]. split; [done|]. intros k [Hk|Hk%list_elem_of_singleton]%elem_of_app He; [by apply Hl|congruence].
Qed.

Lemma pick_spec l :
  match pick ps job l with Some n => first_best l n | None => forall m, m ∈ l -> eligible m -> score m <= -1 end.
Proof.
  assert (pick_inv l (foldl pick_step (None, -1) l)) as Hinv.
  { induction l as [|n l IH] using rev_ind; [split; [done|by intros ? ?%not_elem_of_nil]|]. rewrite foldl_app. by apply pick_step_inv. }
  change (pick ps job l) with (foldl pick_step (None, -1) l).1. revert Hinv. unfold pick_inv.
  destruct (foldl _ _ l) as [[n|] b]; cbn; tauto.
Qed.
End selection.

Lemma sorted_candidates_elem ns n : n ∈ sorted_candidates ns <-> exists id, ns !! id = Some n.
Proof.
  unfold sorted_candidates. rewrite merge_sort_Permutation, list_elem_of_fmap. split.
  - intros ([id m] & -> & Hin). apply elem_of_map_to_list in Hin. eauto.
  - intros [id Hid]. exists (id, n). split; [done|]. by apply elem_of_map_to_list.
Qed.

(** The two ways of enumerating the nodes by ID agree. *)
Lemma sorted_candidates_by_id ns : nodes_keyed ns -> omap (fun id => ns !! id) (sort_strings (map_to_list ns).*1) = sorted_candidates ns.
Proof.
  intros Hk. assert (sort_strings (map_to_list ns).*1 = node_ID <$> sorted_candidates ns) as ->.
  { apply (StronglySorted_unique String.le); [apply sort_strings_sorted| |].
    - apply (StronglySorted_fmap node_ID id_le); [done|]. apply StronglySorted_merge_sort; apply _.
    - rewrite sort_strings_perm. unfold sorted_candidates. rewrite merge_sort_Permutation, <- list_fmap_compose.
      apply reflexive_eq, list_fmap_ext. intros i [id n] Hi. apply list_elem_of_lookup_2, elem_of_map_to_list in Hi. cbn. by rewrite (Hk _ _ Hi). }
  assert (Forall (fun n => ns !! node_ID n = Some n) (sorted_candidates ns)) as Hall.
  { apply Forall_forall. intros n [id Hid]%sorted_candidates_elem. by rewrite (Hk _ _ Hid). }
  induction Hall as [|n l Hn _ IH]; [done|]. cbn. rewrite Hn. by f_equal.
Qed.

Lemma bestNodeAmong_pick ps job ns : nodes_keyed ns -> bestNodeAmong ps job ns = pick ps job (sorted_candidates ns).
Proof. intros Hk. unfold bestNodeAmong. by rewrite sorted_candidates_by_id. Qed.

(** The node chosen has the least ID among those of the highest score. *)
Lemma pick_sorted ps job ns n :
  pick ps job (sorted_candidates ns) = Some n ->
  (exists id, ns !! id = Some n) /\ runFilters ps job n = true /\ 0 <= runScorers ps job n /\
  forall id m, ns !! id = Some m -> runFilters ps job m = true ->
    runScorers ps job m < runScorers ps job n \/ runScorers ps job m = runScorers ps job n /\ String.le (node_ID n) (node_ID m).
Proof.
  intros Hp. pose proof (pick_spec ps job (sorted_candidates ns)) as Hs. rewrite Hp in Hs. destruct Hs as (He & Hpos & l1 & l2 & Hl & H1 & H2).
  split_and!; [apply sorted_candidates_elem; rewrite Hl; set_solver|done|lia|].
  intros id m Hm Hem. assert (m ∈ sorted_candidates ns) as Hin by (apply sorted_candidates_elem; eauto). rewrite Hl in Hin.
  apply elem_of_app in Hin as [Hin|[->|Hin]%elem_of_cons].
  - left. by apply H1.
  - right. split; [done|]. unfold id_le. done.
  - specialize (H2 m Hin Hem). destruct (decide (runScorers ps job m = runScorers ps job n)); [right|left; lia]. split; [done|].
    assert (StronglySorted id_le (sorted_candidates ns)) as Hsort by (apply StronglySorted_merge_sort; apply _).
    rewrite Hl in Hsort. apply StronglySorted_middle in Hsort as (_ & _ & Hle). rewrite Forall_forall in Hle. by apply Hle.
Qed.

Lemma pick_none ps job ns id m :
  pick ps job (sorted_candidates ns) = None -> ns !! id = Some m -> runFilters ps job m = true -> runScorers ps job m < 0.
Proof.
  intros Hp Hm He. pose proof (pick_spec ps job (sorted_candidates ns)) as Hs. rewrite Hp in Hs.
  assert (runScorers ps job m <= -1); [|lia]. apply Hs; [|done]. apply sorted_candidates_elem. eauto.
Qed.

(** ** Accounting *)

(** What the placements on node [id] hold of one kind of resource. *)
Definition share (f : Resources -> Z) (id : string) (p : Placement) : Z := if decide (pm_NodeID p = id) then f (pm_Resources p) else 0.
Definition used (f : Resources -> Z) (pms : gmap string Placement) (id : string) : Z := map_fold (fun _ p acc => share f id p + acc) 0 pms.

Lemma used_insert f pms id j p : pms !! j = None -> used f (<[j := p]> pms) id = share f id p + used f pms id.
Proof. intros Hj. unfold used. rewrite map_fold_insert_L; [done|intros; lia|done]. Qed.

Lemma used_delete f pms id j p : pms !! j = Some p -> used f pms id = share f id p + used f (delete j pms) id.
Proof. intros Hj. unfold used. rewrite (map_fold_delete_L _ _ j p); [done|intros; lia|done]. Qed.

Lemma used_nonneg f pms id : (forall j p, pms !! j = Some p -> 0 <= f (pm_Resources p)) -> 0 <= used f pms id.
Proof.
  induction pms as [|j p pms Hj IH] using map_ind; intros Hp; [done|]. rewrite used_insert by done.
  assert (0 <= used f pms id). { apply IH. intros k q Hk. apply (Hp k). rewrite lookup_insert_ne; [done|]. congruence. }
  specialize (Hp j p (lookup_insert_eq _ _ _)). unfold share. case_decide; lia.
Qed.

(** The memory and GPUs a node was registered with. *)
Definition capacities : Type := gmap string (Z * Z).

Definition amounts_ok (r : Resources) : Prop := 0 <= Memory r <= MaxUint64 /\ 0 <= GPU r <= MaxInt64.

(** What is available and what the placements hold add up to the capacity. *)
Definition node_accounted (pms : gmap string Placement) (id : string) (a : Resources) (cap : Z * Z) : Prop :=
  0 <= Memory a /\ Memory a + used Memory pms id = cap.1 /\ cap.1 <= MaxUint64 /\
  0 <= GPU a /\ GPU a + used GPU pms id = cap.2 /\ cap.2 <= MaxInt64.

Record accounted (cap : capacities) (ns : gmap string Node) (pms : gmap string Placement) : Prop := {
  ac_nodes : nodes_keyed ns;
  ac_pms : placements_keyed pms;
  ac_amounts : forall j p, pms !! j = Some p -> amounts_ok (pm_Resources p);
  ac_cap : forall id n, ns !! id = Some n -> exists c, cap !! id = Some c /\ node_accounted pms id (AvailableResources n) c }.

Lemma accounted_used_nonneg cap ns pms id : accounted cap ns pms -> 0 <= used Memory pms id /\ 0 <= used GPU pms id.
Proof. intros Ha. split; apply used_nonneg; intros j p Hj; apply (ac_amounts _ _ _ Ha) in Hj as [? ?]; lia. Qed.

Lemma share_other f id p : pm_NodeID p <> id -> share f id p = 0.
Proof. intros. unfold share. by rewrite decide_False. Qed.
Lemma share_same f id p : pm_NodeID p = id -> share f id p = f (pm_Resources p).
Proof. intros. unfold share. by rewrite decide_True. Qed.

(** Placing a job on a node that has room. *)
Lemma accounted_place cap ns pms job id n :
  accounted cap ns pms -> ns !! id = Some n -> pms !! job_ID job = None -> amounts_ok (job_Resources job) ->
  Memory (job_Resources job) <= Memory (AvailableResources n) -> GPU (job_Resources job) <= GPU (AvailableResources n) ->
  accounted cap (<[id := debit (job_Resources job) n]> ns) (<[job_ID job := placement_of job id]> pms).
Proof.
  intros Ha Hn Hj Hr Hm Hg. pose proof (accounted_used_nonneg _ _ _ id Ha) as [Hu1 Hu2].
  destruct (ac_cap _ _ _ Ha id n Hn) as (c & Hc & H1 & H2 & H3 & H4 & H5 & H6). destruct Hr as [Hr1 Hr2]. split.
  - intros k m. rewrite lookup_insert. case_decide as Hk; [intros [= <-]; subst k; by apply (ac_nodes _ _ _ Ha) in Hn|apply (ac_nodes _ _ _ Ha)].
  - intros k p. rewrite lookup_insert. case_decide as Hk; [by intros [= <-]|apply (ac_pms _ _ _ Ha)].
  - intros k p. rewrite lookup_insert. case_decide as Hk; [by intros [= <-]|apply (ac_amounts _ _ _ Ha)].
  - intros k m. rewrite lookup_insert. case_decide as Hk.
    + intros [= <-]. subst k. exists c. split; [done|]. unfold node_accounted. cbn. rewrite !used_insert, !share_same by done. cbn.
      rewrite u64_id, i64_id by int_lia. int_lia.
    + intros Hm'. destruct (ac_cap _ _ _ Ha k m Hm') as (c' & Hc' & Hacc). exists c'. split; [done|].
      unfold node_accounted in *. rewrite !used_insert, !share_other by done. lia.
Qed.

(** Giving a placement's resources back. *)
Lemma accounted_release cap ns pms j p :
  accounted cap ns pms -> pms !! j = Some p ->
  accounted cap (credit_node (pm_NodeID p) (pm_Resources p) ns) (delete j pms).
Proof.
  intros Ha Hj. destruct (ac_amounts _ _ _ Ha j p Hj) as [Hr1 Hr2].
  assert (forall k q, delete j pms !! k = Some q -> pms !! k = Some q) as Hdel by (intros k q; rewrite lookup_delete; by case_decide).
  assert (forall id f, 0 <= f (pm_Resources p) -> (forall k q, pms !! k = Some q -> 0 <= f (pm_Resources q)) -> 0 <= used f (delete j pms) id) as Hnn.
  { intros id f _ Hf. apply used_nonneg. intros k q Hk. eauto. }
  pose proof (fun id => Hnn id Memory ltac:(lia) ltac:(intros k q Hk; apply (ac_amounts _ _ _ Ha) in Hk as [? ?]; lia)) as Hn1.
  pose proof (fun id => Hnn id GPU ltac:(lia) ltac:(intros k q Hk; apply (ac_amounts _ _ _ Ha) in Hk as [? ?]; lia)) as Hn2.
  assert (forall k m, credit_node (pm_NodeID p) (pm_Resources p) ns !! k = Some m ->
    exists m0, ns !! k = Some m0 /\ m = if decide (k = pm_NodeID p) then credit (pm_Resources p) m0 else m0) as Hcr.
  { intros k m. unfold credit_node. destruct (ns !! pm_NodeID p) as [n|] eqn:Hn.
    - rewrite lookup_insert. case_decide as Hk; [subst k|].
      + intros [= <-]. exists n. by rewrite decide_True.
      + intros Hm. exists m. by rewrite decide_False by congruence.
    - intros Hm. exists m. split; [done|]. rewrite decide_False; [done|]. congruence. }
  split; [|intros k q Hq; by apply (ac_pms _ _ _ Ha), Hdel|intros k q Hq; by eapply (ac_amounts _ _ _ Ha), Hdel|].
  - intros k m (m0 & Hm0 & ->)%Hcr. apply (ac_nodes _ _ _ Ha) in Hm0. by case_decide.
  - intros k m (m0 & Hm0 & ->)%Hcr. destruct (ac_cap _ _ _ Ha k m0 Hm0) as (c & Hc & Hacc). exists c. split; [done|].
    unfold node_accounted in *. rewrite !(used_delete _ pms k j p Hj) in Hacc. specialize (Hn1 k). specialize (Hn2 k).
    case_decide as Hk; [subst k|]; [rewrite !share_same in Hacc by done|rewrite !share_other in Hacc by congruence; lia].
    cbn. rewrite u64_id, i64_id by int_lia. int_lia.
Qed.

(** ** The operations keep the accounts *)

Definition s_accounted (cap : capacities) (s : Scheduler) : Prop := accounted cap (s_nodes s) (s_placements s).

Definition fresh_job (s : Scheduler) (job : Job) : Prop := s_placements s !! job_ID job = None /\ amounts_ok (job_Resources job).

Section operations.
Context (ps : list Plugin) `{!AccountedPlugins ps}.
Implicit Types s : Scheduler.

(** Binding to the node picked: it succeeds, and the accounts stay right. *)
Lemma bind_picked cap ns pms job n :
  accounted cap ns pms -> pick ps job (sorted_candidates ns) = Some n -> pms !! job_ID job = None -> amounts_ok (job_Resources job) ->
  runBindLocked ps job n = (debit (job_Resources job) n, true) /\ ns !! node_ID n = Some n /\
  accounted cap (<[node_ID n := debit (job_Resources job) n]> ns) (<[job_ID job := placement_of job (node_ID n)]> pms).
Proof.
  intros Ha Hp Hj Hr. apply pick_sorted in Hp as ((id & Hid) & He & _). pose proof (ac_nodes _ _ _ Ha _ _ Hid) as <-.
  split_and!; [by apply ap_bind|done|]. destruct (ap_fits job n He). by apply accounted_place.
Qed.

Lemma schedule_accounted cap s job :
  s_plugins s = ps -> s_accounted cap s -> fresh_job s job ->
  s_accounted cap (Scheduler_Schedule job s).1 /\ s_plugins (Scheduler_Schedule job s).1 = ps.
Proof.
  intros Hps Ha [Hj Hr]. unfold Scheduler_Schedule. rewrite Hps. destruct (pick ps job _) as [n|] eqn:Hp; [|done].
  destruct (bind_picked _ _ _ _ _ Ha Hp Hj Hr) as (-> & _ & Ha'). by cbn.
Qed.

Lemma plan_gang_accounted cap jobs ns pms shadow planned :
  accounted cap ns pms -> plan_gang ps jobs ns = Some (shadow, planned) ->
  Forall (fun job => pms !! job_ID job = None /\ amounts_ok (job_Resources job)) jobs -> NoDup (job_ID <$> jobs) ->
  accounted cap shadow (foldl (fun pms '(job, node) => <[job_ID job := placement_of job node]> pms) pms (zip jobs planned)) /\
  length planned = length jobs /\ dom shadow = dom ns.
Proof.
  revert ns pms planned. induction jobs as [|job jobs IH]; intros ns pms planned Ha Hplan Hall Hnd; cbn in Hplan.
  { by simplify_eq. }
  apply Forall_cons in Hall as [[Hj Hr] Hall]. rewrite fmap_cons in Hnd. apply NoDup_cons in Hnd as [Hnin Hnd].
  rewrite bestNodeAmong_pick in Hplan by apply (ac_nodes _ _ _ Ha). destruct (pick ps job _) as [n|] eqn:Hp; [|done].
  destruct (bind_picked _ _ _ _ _ Ha Hp Hj Hr) as (Hb & Hn & Ha'). rewrite Hb in Hplan. cbn in Hplan.
  destruct (plan_gang ps jobs _) as [[shadow' planned']|] eqn:Hrec; [|done]. injection Hplan as <- <-. cbn [zip zip_with foldl].
  destruct (IH _ _ _ Ha' Hrec) as (HA & Hlen & Hdom); [|done|].
  - apply Forall_forall. intros k Hk. rewrite Forall_forall in Hall. destruct (Hall k Hk) as [Hk1 Hk2]. split; [|done].
    rewrite lookup_insert_ne; [done|]. intros Heq. apply Hnin. rewrite Heq. by apply list_elem_of_fmap_2.
  - cbn. split_and!; [done|lia|]. rewrite Hdom, dom_insert_L. assert (node_ID n ∈ dom ns) by (apply elem_of_dom; eauto). set_solver.
Qed.

Lemma record_gang_fields s jps :
  s_nodes (record_gang s jps) = s_nodes s /\ s_plugins (record_gang s jps) = s_plugins s /\ s_version (record_gang s jps) = s_version s /\
  s_placements (record_gang s jps) = foldl (fun pms '(job, node) => <[job_ID job := placement_of job node]> pms) (s_placements s) jps.
Proof.
  revert s. induction jps as [|[job node] jps IH]; intros s; [done|]. cbn [record_gang foldl].
  match goal with |- context [foldl ?f ?s' jps] => change (foldl f s' jps) with (record_gang s' jps) end.
  destruct (IH (mkScheduler (s_queue s) (s_plugins s) (s_nodes s) (s_version s) (<[job_ID job := placement_of job node]> (s_placements s))
    (<[job_ID job := JobStatusScheduled]> (s_status s)))) as (-> & -> & -> & ->). done.
Qed.

Lemma union_same_dom (m1 m2 : gmap string Node) : dom m1 = dom m2 -> m1 ∪ m2 = m1.
Proof.
  intros Hd. apply map_eq. intros i. destruct (m1 !! i) as [x|] eqn:Hi; [by apply lookup_union_Some_l|].
  rewrite lookup_union_r by done. apply not_elem_of_dom. rewrite <- Hd. by apply not_elem_of_dom.
Qed.

Lemma gang_accounted cap s jobs :
  s_plugins s = ps -> s_accounted cap s -> Forall (fresh_job s) jobs -> NoDup (job_ID <$> jobs) ->
  s_accounted cap (Scheduler_ScheduleGang jobs s).1 /\ s_plugins (Scheduler_ScheduleGang jobs s).1 = ps.
Proof.
  intros Hps Ha Hall Hnd. unfold Scheduler_ScheduleGang, scheduleGangLocked. case_decide; [done|]. rewrite Hps, copyNode_fmap.
  destruct (plan_gang ps jobs (s_nodes s)) as [[shadow planned]|] eqn:Hplan; [|done].
  destruct (plan_gang_accounted _ _ _ _ _ _ Ha Hplan Hall Hnd) as (HA & _ & Hdom). unfold s_accounted.
  cbn [fst s_nodes s_placements s_plugins]. destruct (record_gang_fields (with_nodes (shadow ∪ s_nodes s) s) (zip jobs planned)) as (-> & -> & _ & ->).
  cbn [with_nodes s_nodes s_placements s_plugins]. by rewrite union_same_dom.
Qed.

Lemma complete_accounted cap s jobID :
  s_plugins s = ps -> s_accounted cap s -> s_accounted cap (Scheduler_Complete jobID s).1 /\ s_plugins (Scheduler_Complete jobID s).1 = ps.
Proof.
  intros Hps Ha. unfold Scheduler_Complete, releasePlacementLocked. destruct (s_placements s !! jobID) as [p|] eqn:Hp; [|done].
  split; [|done]. by apply accounted_release.
Qed.
End operations.

(** ** Preemption *)

Definition reclaimed (node : Node) (victims : list Placement) : Node := foldl (fun n v => credit (pm_Resources v) n) node victims.

Lemma victim_insert_perm v l : insert_stable v l ≡ₚ v :: l.
Proof. induction l as [|w l IH]; [done|]. cbn. case_decide; [done|]. rewrite IH. apply Permutation_swap. Qed.

Lemma stable_by_priority_perm l : stable_by_priority l ≡ₚ l.
Proof. induction l as [|v l IH]; [done|]. cbn. by rewrite victim_insert_perm, IH. Qed.

Lemma candidate_victims_elem order job id v :
  v ∈ candidate_victims order job id <-> v ∈ order /\ pm_Priority v < job_Priority job /\ pm_NodeID v = id.
Proof. unfold candidate_victims. rewrite stable_by_priority_perm, list_elem_of_filter. tauto. Qed.

Lemma candidate_victims_NoDup order job id : NoDup order -> NoDup (candidate_victims order job id).
Proof. intros Hn. unfold candidate_victims. rewrite stable_by_priority_perm. by apply NoDup_filter. Qed.

(** The loop reclaims a prefix of the candidates, all of them if nothing less makes the job fit. *)
Lemma reclaim_spec ps job sim chosen cands :
  exists k, reclaim ps job sim chosen cands = (reclaimed sim (take k cands), chosen ++ take k cands) /\
    (runFilters ps job (reclaimed sim (take k cands)) = true \/ take k cands = cands).
Proof.
  revert sim chosen. induction cands as [|v cands IH]; intros sim chosen; cbn [reclaim].
  { exists 0%nat. cbn. rewrite app_nil_r. split; [done|by right]. }
  destruct (runFilters ps job sim) eqn:Hf.
  { exists 0%nat. cbn. rewrite app_nil_r. split; [done|by left]. }
  destruct (IH (credit (pm_Resources v) sim) (chosen ++ [v])) as (k & Heq & Hk). exists (S k). cbn. rewrite Heq, <- app_assoc.
  split; [done|]. destruct Hk as [Hk|Hk]; [by left|right; by f_equal].
Qed.

(** A plan that works: a prefix of a node's candidates whose reclaim makes the job fit. *)
Definition good_plan (ps : list Plugin) (order : list Placement) (job : Job) (ns : gmap string Node) (plan : string * list Placement) : Prop :=
  exists node k, ns !! plan.1 = Some node /\ plan.2 = take k (candidate_victims order job plan.1) /\
    runFilters ps job (reclaimed node plan.2) = true.

(** Evicting all lower-priority jobs of the node would not be enough. *)
Definition hopeless (ps : list Plugin) (order : list Placement) (job : Job) (ns : gmap string Node) (id : string) : Prop :=
  forall node, ns !! id = Some node -> runFilters ps job (reclaimed node (candidate_victims order job id)) = false.

Lemma better_plan_spec ps order job ns best id :
  match better_plan ps order job ns best id with
  | Some plan => good_plan ps order job ns plan \/ best = Some plan
  | None => best = None /\ hopeless ps order job ns id
  end.
Proof.
  unfold better_plan, hopeless. destruct (ns !! id) as [node|] eqn:Hn; [|destruct best; [by right|done]].
  rewrite copyNode_id. destruct (reclaim_spec ps job node [] (candidate_victims order job id)) as (k & -> & Hk). cbn [app].
  destruct (runFilters ps job _) eqn:Hf; cbn [negb].
  - assert (good_plan ps order job ns (id, take k (candidate_victims order job id))) as Hg by (exists node, k; done).
    destruct best as [[id' vs]|]; [case_decide; [by left|by right]|by left].
  - destruct best; [by right|]. split; [done|]. intros node' [= <-]. destruct Hk as [Hk|Hk]; [congruence|by rewrite <- Hk].
Qed.

Lemma preemption_plan_spec order job s :
  match preemption_plan order job s with
  | Some plan => good_plan (s_plugins s) order job (s_nodes s) plan
  | None => forall id, hopeless (s_plugins s) order job (s_nodes s) id
  end.
Proof.
  unfold preemption_plan. assert (forall ids, match foldl (better_plan (s_plugins s) order job (s_nodes s)) None ids with
    | Some plan => good_plan (s_plugins s) order job (s_nodes s) plan
    | None => forall id, id ∈ ids -> hopeless (s_plugins s) order job (s_nodes s) id end) as Hids.
  { intros ids. induction ids as [|id ids IH] using rev_ind; [by intros ? ?%not_elem_of_nil|]. rewrite foldl_app. cbn [foldl].
    pose proof (better_plan_spec (s_plugins s) order job (s_nodes s) (foldl (better_plan (s_plugins s) order job (s_nodes s)) None ids) id) as Hb.
    destruct (better_plan _ _ _ _ _ _) as [plan|].
    - destruct Hb as [Hb|Hb]; [done|]. by rewrite Hb in IH.
    - destruct Hb as [Hb Hh]. rewrite Hb in IH. intros id' [Hid|Hid%list_elem_of_singleton]%elem_of_app; [by apply IH|by subst]. }
  specialize (Hids (sort_strings (map_to_list (s_nodes s)).*1)). destruct (foldl _ None _); [done|].
  intros id node Hn. apply (Hids id); [|done]. rewrite sort_strings_perm. apply list_elem_of_fmap. exists (id, node). split; [done|].
  by apply elem_of_map_to_list.
Qed.

Lemma evict_fields id vs s node :
  s_nodes s !! id = Some node ->
  s_nodes (evict id vs s) = <[id := reclaimed node vs]> (s_nodes s) /\ s_plugins (evict id vs s) = s_plugins s /\
  s_version (evict id vs s) = s_version s /\ s_placements (evict id vs s) = foldl (fun pms v => delete (pm_JobID v) pms) (s_placements s) vs.
Proof.
  revert s node. induction vs as [|v vs IH]; intros s node Hn; [cbn; by rewrite insert_id|].
  cbn [evict foldl]. match goal with |- context [foldl ?f ?s' vs] => change (foldl f s' vs) with (evict id vs s'); set (s1 := s') end.
  assert (s_nodes s1 = <[id := credit (pm_Resources v) node]> (s_nodes s)) as Hs1 by (cbn; unfold credit_node; by rewrite Hn).
  destruct (IH s1 (credit (pm_Resources v) node)) as (-> & -> & -> & ->); [by rewrite Hs1, lookup_insert_eq|].
  rewrite Hs1, insert_insert_eq. done.
Qed.

Lemma evict_accounted cap id vs ns pms node :
  accounted cap ns pms -> ns !! id = Some node -> NoDup vs -> (forall v, v ∈ vs -> pms !! pm_JobID v = Some v /\ pm_NodeID v = id) ->
  accounted cap (<[id := reclaimed node vs]> ns) (foldl (fun pms v => delete (pm_JobID v) pms) pms vs).
Proof.
  revert ns pms node. induction vs as [|v vs IH]; intros ns pms node Ha Hn Hnd Hvs; [cbn; by rewrite insert_id|].
  apply NoDup_cons in Hnd as [Hv Hnd]. destruct (Hvs v) as [Hp Hid]; [by left|].
  pose proof (accounted_release _ _ _ _ _ Ha Hp) as Ha'. unfold credit_node in Ha'. rewrite Hid, Hn in Ha'. cbn [foldl].
  change (reclaimed node (v :: vs)) with (reclaimed (credit (pm_Resources v) node) vs).
  rewrite <- (insert_insert_eq ns id _ (credit (pm_Resources v) node)). apply IH; [done|by rewrite lookup_insert_eq|done|].
  intros w Hw. destruct (Hvs w) as [Hpw Hidw]; [by right|]. split; [|done]. rewrite lookup_delete_ne; [done|]. intros Heq.
  rewrite Heq in Hp. congruence.
Qed.

Lemma evict_lookup (pms : gmap string Placement) vs j :
  foldl (fun pms v => delete (pm_JobID v) pms) pms vs !! j = if decide (j ∈ pm_JobID <$> vs) then None else pms !! j.
Proof.
  revert pms. induction vs as [|v vs IH]; intros pms; [done|]. cbn [foldl]. rewrite IH, fmap_cons.
  destruct (decide (j ∈ pm_JobID <$> vs)); [by rewrite decide_True by by right|].
  rewrite lookup_delete. destruct (decide (pm_JobID v = j)) as [<-|]; [by rewrite decide_True by by left|].
  rewrite decide_False; [done|]. rewrite not_elem_of_cons. auto.
Qed.

(** The enumeration of the placements. *)
Lemma order_elem (pms : gmap string Placement) order p :
  placements_keyed pms -> order ≡ₚ (map_to_list pms).*2 -> p ∈ order <-> pms !! pm_JobID p = Some p.
Proof.
  intros Hk Ho. rewrite Ho, list_elem_of_fmap. split.
  - intros ([j q] & -> & Hin). apply elem_of_map_to_list in Hin. cbn. by rewrite (Hk _ _ Hin).
  - intros Hp. exists (pm_JobID p, p). split; [done|]. by apply elem_of_map_to_list.
Qed.

Lemma order_NoDup (pms : gmap string Placement) order : placements_keyed pms -> order ≡ₚ (map_to_list pms).*2 -> NoDup order.
Proof.
  intros Hk ->. apply (NoDup_fmap_1 pm_JobID). rewrite <- list_fmap_compose.
  assert ((pm_JobID ∘ snd) <$> map_to_list pms = (map_to_list pms).*1) as ->.
  { apply list_fmap_ext. intros i [j p] Hi. apply list_elem_of_lookup_2, elem_of_map_to_list in Hi. cbn. by rewrite (Hk _ _ Hi). }
  apply NoDup_fst_map_to_list.
Qed.

Section preempt.
Context (ps : list Plugin) `{!AccountedPlugins ps}.

(** The outcome of a preemptive scheduling of a fresh job. *)
Lemma preempt_outcome cap order job s :
  s_plugins s = ps -> s_accounted cap s -> fresh_job s job -> order ≡ₚ (map_to_list (s_placements s)).*2 ->
  (exists id vs s', schedulePreemptLocked order job s = (s', inr (id, pm_JobID <$> vs)) /\
     (vs <> [] -> bestNodeAmong ps job (s_nodes s) = None) /\
     (forall v, v ∈ vs -> s_placements s !! pm_JobID v = Some v /\ pm_Priority v < job_Priority job /\ pm_NodeID v = id) /\
     s_placements s' = <[job_ID job := placement_of job id]> (foldl (fun pms v => delete (pm_JobID v) pms) (s_placements s) vs) /\
     s_version s' = u64 (s_version s + 1) /\ s_plugins s' = ps /\ s_accounted cap s') \/
  (schedulePreemptLocked order job s = (s, inl ErrNoPreemptionCandidates) /\ forall id, hopeless ps order job (s_nodes s) id).
Proof.
  intros Hps Ha [Hj Hr] Ho. unfold schedulePreemptLocked. rewrite Hps. pose proof (ac_nodes _ _ _ Ha) as Hkn. pose proof (ac_pms _ _ _ Ha) as Hkp.
  destruct (bestNodeAmong ps job (s_nodes s)) as [n|] eqn:Hb.
  - rewrite bestNodeAmong_pick in Hb by done. destruct (bind_picked ps _ _ _ _ _ Ha Hb Hj Hr) as (-> & _ & Ha'). left.
    exists (node_ID n), [], (commit_job job (node_ID n) (with_nodes (<[node_ID n := debit (job_Resources job) n]> (s_nodes s)) s)).
    split_and!; try done. by intros v ?%not_elem_of_nil.
  - pose proof (preemption_plan_spec order job s) as Hplan. rewrite Hps in Hplan. unfold preempt_slow.
    destruct (preemption_plan order job s) as [[id vs]|]; [|by right]. left.
    destruct Hplan as (node & k & Hn & Hvs & Hf). cbn [fst snd] in *.
    assert (forall v, v ∈ vs -> s_placements s !! pm_JobID v = Some v /\ pm_Priority v < job_Priority job /\ pm_NodeID v = id) as Hv.
    { intros v Hin. rewrite Hvs in Hin. apply elem_of_take in Hin as (i & Hi & _). apply list_elem_of_lookup_2, candidate_victims_elem in Hi.
      rewrite (order_elem _ _ _ Hkp Ho) in Hi. tauto. }
    assert (NoDup vs) as Hnd.
    { rewrite Hvs. pose proof (candidate_victims_NoDup order job id (order_NoDup _ _ Hkp Ho)) as Hc.
      rewrite <- (take_drop k) in Hc. by apply NoDup_app in Hc as [? _]. }
    destruct (evict_fields id vs s node Hn) as (Hn' & Hps' & Hver & Hpm). rewrite Hn', lookup_insert_eq, Hps', Hps, ap_bind by done.
    pose proof (evict_accounted _ _ _ _ _ _ Ha Hn Hnd ltac:(intros v Hin; by apply Hv in Hin as (? & _ & ?))) as Ha'.
    set (s' := evict id vs s) in *. set (node' := debit (job_Resources job) (reclaimed node vs)).
    assert (node_ID (reclaimed node vs) = id) as Hid by (apply (ac_nodes _ _ _ Ha'); by rewrite lookup_insert_eq).
    assert (node_ID node' = id) as Hid' by done. rewrite Hid'.
    exists id, vs, (commit_job job id (with_nodes (<[id := node']> (<[id := reclaimed node vs]> (s_nodes s))) s')).
    split_and!; [done|done|done| | | |].
    + cbn. by rewrite Hpm.
    + cbn. by rewrite Hver.
    + cbn. by rewrite Hps'.
    + unfold s_accounted. cbn. rewrite Hpm. destruct (ap_fits job _ Hf). apply accounted_place; [done|by rewrite lookup_insert_eq| |done|done|done].
      rewrite evict_lookup. by case_decide.
Qed.
End preempt.

(** ** Histories *)

Inductive sched_op :=
  | SRegister (n : Node)
  | SUnregister (id : string)
  | SSchedule (job : Job)
  | SScheduleAt (job : Job) (version : Z)
  | SGang (jobs : list Job)
  | SPreempt (order : list Placement) (job : Job)
  | SComplete (jobID : string).

Definition sched_step (s : Scheduler) (o : sched_op) : Scheduler :=
  match o with
  | SRegister n => Scheduler_RegisterNode n s
  | SUnregister id => Scheduler_UnregisterNode id s
  | SSchedule job => (Scheduler_Schedule job s).1
  | SScheduleAt job version => (Scheduler_ScheduleOptimistic job version s).1
  | SGang jobs => (Scheduler_ScheduleGang jobs s).1
  | SPreempt order job => (schedulePreemptLocked order job s).1
  | SComplete jobID => (Scheduler_Complete jobID s).1
  end.

(** The capacities of the registered nodes. *)
Definition cap_step (cap : capacities) (o : sched_op) : capacities :=
  match o with
  | SRegister n => <[node_ID n := (Memory (AvailableResources n), GPU (AvailableResources n))]> cap
  | SUnregister id => delete id cap
  | _ => cap
  end.

(** A node is registered under a name that no registered node has and no placement names;
    a job that holds a placement is not scheduled again; amounts are in range. *)
Definition op_ok (s : Scheduler) (o : sched_op) : Prop :=
  match o with
  | SRegister n => amounts_ok (AvailableResources n) /\ s_nodes s !! node_ID n = None /\
      map_Forall (fun _ p => pm_NodeID p <> node_ID n) (s_placements s)
  | SSchedule job | SScheduleAt job _ => fresh_job s job
  | SGang jobs => Forall (fresh_job s) jobs /\ NoDup (job_ID <$> jobs)
  | SPreempt order job => fresh_job s job /\ order ≡ₚ (map_to_list (s_placements s)).*2
  | _ => True
  end.

Fixpoint ops_ok (s : Scheduler) (ops : list sched_op) : Prop :=
  match ops with [] => True | o :: ops => op_ok s o /\ ops_ok (sched_step s o) ops end.

Definition sched_start (ps : list Plugin) : Scheduler := foldl (fun s p => Scheduler_AddPlugin p s) NewScheduler ps.
Definition sched_run (ps : list Plugin) (ops : list sched_op) : Scheduler := foldl sched_step (sched_start ps) ops.

Lemma sched_start_fields ps : s_plugins (sched_start ps) = ps /\ s_nodes (sched_start ps) = ∅ /\ s_placements (sched_start ps) = ∅.
Proof.
  unfold sched_start. induction ps as [|p ps IH] using rev_ind; [done|]. rewrite foldl_app. cbn. by destruct IH as (-> & -> & ->).
Qed.

(** The optimistic variant at the current version is the plain one. *)
Lemma optimistic_schedule job v s :
  Scheduler_ScheduleOptimistic job v s =
    if decide (s_version s = v) then Scheduler_Schedule job s else (s, inl (ErrConflict v (s_version s))).
Proof.
  unfold Scheduler_ScheduleOptimistic. destruct (decide (s_version s = v)); [by rewrite decide_False by tauto|by rewrite decide_True].
Qed.

Lemma used_none f pms id : map_Forall (fun _ p => pm_NodeID p <> id) pms -> used f pms id = 0.
Proof.
  induction pms as [|j p pms Hj IH] using map_ind; intros Hp; [done|]. apply map_Forall_insert in Hp as [Hp1 Hp2]; [|done].
  rewrite used_insert, share_other by done. rewrite IH by done. done.
Qed.

Lemma sched_step_accounted ps `{!AccountedPlugins ps} cap s o :
  s_plugins s = ps -> s_accounted cap s -> op_ok s o -> s_accounted (cap_step cap o) (sched_step s o) /\ s_plugins (sched_step s o) = ps.
Proof.
  intros Hps Ha Ho. destruct o as [n|id|job|job v|jobs|order job|jobID]; cbn [sched_step cap_step op_ok] in *.
  - destruct Ho as ([Hm Hg] & Hn & Hp). split; [|done]. destruct Ha as [H1 H2 H3 H4]. split; cbn; [|done|done|].
    + intros id m. rewrite lookup_insert. case_decide; [by intros [= <-]|apply H1].
    + intros id m Hm'. setoid_rewrite lookup_insert. rewrite lookup_insert in Hm'. case_decide as Hid; [|by apply H4]. subst id. simplify_eq.
      eexists. split; [done|]. unfold node_accounted. rewrite !used_none by done. cbn. lia.
  - split; [|done]. destruct Ha as [H1 H2 H3 H4]. split; cbn; [|done|done|].
    + intros k m. rewrite lookup_delete. case_decide; [done|apply H1].
    + intros k m Hm'. setoid_rewrite lookup_delete. rewrite lookup_delete in Hm'. case_decide; [done|by apply H4].
  - by apply schedule_accounted.
  - rewrite optimistic_schedule. case_decide; [by apply schedule_accounted|done].
  - destruct Ho. by apply gang_accounted.
  - destruct Ho as [Hf Ho]. destruct (preempt_outcome ps cap order job s Hps Ha Hf Ho) as [(id & vs & s' & -> & _ & _ & _ & _ & ? & ?)|[-> _]]; done.
  - by apply complete_accounted.
Qed.

Lemma sched_run_accounted ps `{!AccountedPlugins ps} ops :
  ops_ok (sched_start ps) ops -> s_accounted (foldl cap_step ∅ ops) (sched_run ps ops) /\ s_plugins (sched_run ps ops) = ps.
Proof.
  unfold sched_run. destruct (sched_start_fields ps) as (Hps & Hns & Hpm).
  assert (s_accounted ∅ (sched_start ps)) as Ha.
  { unfold s_accounted. rewrite Hns, Hpm. split; intros ? ?; by rewrite lookup_empty. }
  revert Ha Hps. clear Hns Hpm. generalize (sched_start ps). generalize (∅ : capacities). induction ops as [|o ops IH]; intros cap s Ha Hps; [done|].
  intros [Ho Hok]. destruct (sched_step_accounted ps cap s o Hps Ha Ho) as [Ha' Hps']. by apply IH.
Qed.

(** ** Properties *)

(** C1: no node is ever overcommitted.  The plugins are any that meet their contract
    (filters that pass only nodes with the memory and GPUs asked for, a bind that
    debits them once).  The history is any sequence of registrations and removals of
    nodes, plain, optimistic, gang and preemptive scheduling and completions in which a
    node is registered only under a name that no registered node has and no placement
    names, no job that holds a placement is scheduled again, the jobs of a gang are
    distinct, and amounts are in range ([ops_ok]; [rescheduled_job_leaks] shows why).
    Then every registered node's available memory and GPUs are exactly its capacity minus
    what the jobs placed on it hold, and never negative. *)
Theorem scheduler_never_overcommits ps `{!AccountedPlugins ps} ops :
  ops_ok (sched_start ps) ops ->
  let s := sched_run ps ops in
  forall id n, s_nodes s !! id = Some n ->
    exists mem gpu, foldl cap_step ∅ ops !! id = Some (mem, gpu) /\
      Memory (AvailableResources n) = mem - used Memory (s_placements s) id /\
      GPU (AvailableResources n) = gpu - used GPU (s_placements s) id /\
      0 <= used Memory (s_placements s) id <= mem /\ 0 <= used GPU (s_placements s) id <= gpu.
Proof.
  intros Hok s id n Hn. destruct (sched_run_accounted ps ops Hok) as [Ha _].
  destruct (accounted_used_nonneg _ _ _ id Ha) as [Hm Hg].
  destruct (ac_cap _ _ _ Ha id n Hn) as ([mem gpu] & Hc & H1 & H2 & H3 & H4 & H5 & H6). cbn [fst snd] in *.
  exists mem, gpu. unfold s. split_and!; [done|lia..].
Qed.

(** C38: A job goes to the best node, or nowhere.  For any plugins, [Schedule] binds the
    job to the node of highest score among those that pass the filters, the least ID
    among equals, bumps the version once and records the placement; it reports that no
    node is available only when every node that passes scores below zero, and then
    changes nothing; when a plugin refuses to bind, every node's resources, the
    version and the placements are as before.  The optimistic variant does the same
    at the version it expects, and nothing at any other. *)
Theorem schedule_best_node job s :
  nodes_keyed (s_nodes s) ->
  (let ps := s_plugins s in
   match Scheduler_Schedule job s with
   | (s', inr id) => exists n n', s_nodes s !! node_ID n = Some n /\ runFilters ps job n = true /\
       (forall k m, s_nodes s !! k = Some m -> runFilters ps job m = true ->
          runScorers ps job m < runScorers ps job n \/ runScorers ps job m = runScorers ps job n /\ String.le (node_ID n) k) /\
       runBindLocked ps job n = (n', true) /\ id = node_ID n' /\ s_nodes s' = <[node_ID n := n']> (s_nodes s) /\
       s_version s' = u64 (s_version s + 1) /\ s_placements s' = <[job_ID job := placement_of job id]> (s_placements s) /\
       s_status s' !! job_ID job = Some JobStatusScheduled
   | (s', inl ErrNoNodeAvailable) => s' = s /\ forall k m, s_nodes s !! k = Some m -> runFilters ps job m = true -> runScorers ps job m < 0
   | (s', inl (ErrBindingFailed _)) => s_version s' = s_version s /\ s_placements s' = s_placements s /\
       forall k, AvailableResources <$> s_nodes s' !! k = AvailableResources <$> s_nodes s !! k
   | (_, inl _) => False
   end) /\
  (forall v, Scheduler_ScheduleOptimistic job v s =
     if decide (s_version s = v) then Scheduler_Schedule job s else (s, inl (ErrConflict v (s_version s)))).
Proof.
  intros Hk. split; [|intros v; apply optimistic_schedule]. cbv zeta. unfold Scheduler_Schedule.
  destruct (pick (s_plugins s) job _) as [n|] eqn:Hp; [|split; [done|]; intros k m; by apply pick_none].
  apply pick_sorted in Hp as ((id & Hid) & He & _ & Hbest). pose proof (Hk _ _ Hid) as <-.
  destruct (runBindLocked (s_plugins s) job n) as [n' [|]] eqn:Hb; cbn.
  - exists n, n'. split_and!; try done; [|by rewrite lookup_insert_eq]. intros k m Hm Hf. rewrite <- (Hk _ _ Hm). by eapply Hbest.
  - split_and!; [done|done|]. intros k. rewrite lookup_insert. case_decide as Hkn; [subst k|done]. rewrite Hid. cbn. f_equal.
    assert (forall snap qs m m', bind_loop snap qs job m = (m', false) -> AvailableResources m' = snap) as Hsnap.
    { intros snap qs. induction qs as [|q qs IH]; intros m m'; cbn; [done|]. destruct (Bind q job m) as [m1 []]; [apply IH|by intros [= <-]]. }
    by eapply Hsnap.
Qed.

Lemma gang_placements (pms : gmap string Placement) jobs planned :
  length planned = length jobs -> NoDup (job_ID <$> jobs) ->
  let pms' := foldl (fun pms '(job, node) => <[job_ID job := placement_of job node]> pms) pms (zip jobs planned) in
  (forall j, j ∉ job_ID <$> jobs -> pms' !! j = pms !! j) /\
  (forall i job, jobs !! i = Some job -> exists node, planned !! i = Some node /\ pms' !! job_ID job = Some (placement_of job node)).
Proof.
  revert pms planned. induction jobs as [|job jobs IH]; intros pms [|node planned] Hlen Hnd; try done.
  rewrite fmap_cons in Hnd. apply NoDup_cons in Hnd as [Hj Hnd]. cbn in Hlen. cbn [zip zip_with foldl].
  destruct (IH (<[job_ID job := placement_of job node]> pms) planned ltac:(lia) Hnd) as [H1 H2]. split.
  - intros j. rewrite fmap_cons, not_elem_of_cons. intros [Hne Hin]. rewrite H1 by done. by rewrite lookup_insert_ne.
  - intros [|i] job' Hi; cbn in Hi; [simplify_eq|by apply H2]. exists node. split; [done|]. rewrite H1 by done. apply lookup_insert_eq.
Qed.

(** C31: gangs are all or nothing.  The plugins meet their contract and the state
    accounts for its placements (as after any operations that are [ops_ok]); the gang is
    of distinct jobs that hold no placement and ask for amounts in range.  Scheduling it
    either leaves the scheduler exactly as it was, or places every task: each has its
    placement on the node reported for it, no other job's placement changes, the version
    advances once, and every node can still account for its jobs.  At a stale version
    nothing happens. *)
Theorem gang_all_or_nothing ps `{!AccountedPlugins ps} cap s jobs :
  s_plugins s = ps -> s_accounted cap s -> Forall (fresh_job s) jobs -> NoDup (job_ID <$> jobs) ->
  match Scheduler_ScheduleGang jobs s with
  | (s', inl e) => s' = s /\ (e = ErrGangEmpty /\ jobs = [] \/ e = ErrGangNotAllPlaced /\ jobs <> [])
  | (s', inr placed) =>
      placed.*1 = job_ID <$> jobs /\ s_accounted cap s' /\ s_version s' = u64 (s_version s + 1) /\
      (forall i job, jobs !! i = Some job ->
         exists node, placed !! i = Some (job_ID job, node) /\ s_placements s' !! job_ID job = Some (placement_of job node)) /\
      (forall j, j ∉ job_ID <$> jobs -> s_placements s' !! j = s_placements s !! j)
  end /\
  (forall v, Scheduler_ScheduleGangOptimistic jobs v s =
     if decide (s_version s = v) then Scheduler_ScheduleGang jobs s else (s, inl (ErrConflict v (s_version s)))).
Proof.
  intros Hps Ha Hall Hnd. split; cycle 1.
  { intros v. unfold Scheduler_ScheduleGangOptimistic. destruct (decide (s_version s = v)); [by rewrite decide_False by tauto|by rewrite decide_True]. }
  pose proof (gang_accounted ps cap s jobs Hps Ha Hall Hnd) as [Ha' _]. revert Ha'.
  unfold Scheduler_ScheduleGang, scheduleGangLocked. case_decide as He; [by intros; split; [|left]|]. rewrite Hps, copyNode_fmap.
  destruct (plan_gang ps jobs (s_nodes s)) as [[shadow planned]|] eqn:Hplan; [|by intros; split; [|right]].
  destruct (plan_gang_accounted ps _ _ _ _ _ _ Ha Hplan Hall Hnd) as (_ & Hlen & _). cbn [fst]. intros Ha'.
  destruct (record_gang_fields (with_nodes (shadow ∪ s_nodes s) s) (zip jobs planned)) as (_ & _ & Hv & Hp).
  destruct (gang_placements (s_placements s) jobs planned Hlen Hnd) as [Hother Hjob].
  split_and!; [apply fst_zip; rewrite length_fmap; lia|done|cbn; by rewrite Hv| |].
  - intros i job Hi. destruct (Hjob i job Hi) as (node & Hn & Hpm). exists node. split; [|cbn; by rewrite Hp].
    apply lookup_zip_with_Some. exists (job_ID job), node. split_and!; [done|by rewrite list_lookup_fmap, Hi|done].
  - intros j Hj. cbn. rewrite Hp. by apply Hother.
Qed.


(** ** A concrete cluster *)

Definition demo_job (id : string) (mem gpu p : Z) : Job := mkJob id EmptyString (mkResources (S754_zero false) mem gpu) p ∅.
Definition demo_plugins : list Plugin := server_plugins String.eqb.
Definition demo_nodes : list sched_op :=
  [SRegister (mkNode "n1" (mkResources (f64_of_int 8) 4096 2) ∅); SRegister (mkNode "n2" (mkResources (f64_of_int 4) 2048 0) ∅)].
Definition demo_ops : list sched_op :=
  demo_nodes ++ [SSchedule (demo_job "a" 1024 1 1); SGang [demo_job "b" 1024 1 2; demo_job "c" 512 0 3]; SComplete "a"].
Definition demo_sched : Scheduler := sched_run demo_plugins demo_ops.

Ltac run_checks := repeat first [exact I | by_eval | split].

Lemma scheduler_never_overcommits_witness :
  exists n, s_nodes demo_sched !! "n1" = Some n /\
    exists mem gpu, foldl cap_step ∅ demo_ops !! "n1" = Some (mem, gpu) /\
      Memory (AvailableResources n) = mem - used Memory (s_placements demo_sched) "n1" /\
      GPU (AvailableResources n) = gpu - used GPU (s_placements demo_sched) "n1" /\
      0 <= used Memory (s_placements demo_sched) "n1" <= mem /\ 0 <= used GPU (s_placements demo_sched) "n1" <= gpu.
Proof.
  destruct (s_nodes demo_sched !! "n1") as [n|] eqn:Hn; [|vm_compute in Hn; done]. exists n. split; [done|].
  apply (scheduler_never_overcommits demo_plugins demo_ops); [|done]. run_checks.
Defined.

Lemma demo_ok : ops_ok (sched_start demo_plugins) demo_ops.
Proof. run_checks. Qed.

Lemma demo_accounted : s_accounted (foldl cap_step ∅ demo_ops) demo_sched.
Proof. apply (sched_run_accounted demo_plugins demo_ops demo_ok). Qed.

Lemma demo_version : s_version demo_sched = 4.
Proof. by vm_compute. Qed.

Lemma schedule_best_node_witness :
  exists s', Scheduler_Schedule (demo_job "d" 512 0 3) demo_sched = (s', inr "n1") /\ s_version s' = 5 /\
    Scheduler_ScheduleOptimistic (demo_job "d" 512 0 3) 3 demo_sched = (demo_sched, inl (ErrConflict 3 4)).
Proof.
  assert ((Scheduler_Schedule (demo_job "d" 512 0 3) demo_sched).2 = inr "n1") as Hr by by vm_compute.
  destruct (schedule_best_node (demo_job "d" 512 0 3) demo_sched (ac_nodes _ _ _ demo_accounted)) as [Hs Ho]. specialize (Ho 3). rewrite demo_version in Ho.
  destruct (Scheduler_Schedule (demo_job "d" 512 0 3) demo_sched) as [s' r]. cbn [snd] in Hr. subst r. exists s'. split_and!.
  - reflexivity.
  - destruct Hs as (n & n' & _ & _ & _ & _ & _ & _ & Hv & _). rewrite Hv, demo_version. reflexivity.
  - exact Ho.
Defined.

Lemma gang_all_or_nothing_witness :
  (Scheduler_ScheduleGang [demo_job "d" 2048 0 3; demo_job "e" 2048 0 3; demo_job "f" 2048 0 3] demo_sched).1 = demo_sched.
Proof.
  assert ((Scheduler_ScheduleGang [demo_job "d" 2048 0 3; demo_job "e" 2048 0 3; demo_job "f" 2048 0 3] demo_sched).2 = inl ErrGangNotAllPlaced) as Hr
    by by vm_compute.
  destruct (gang_all_or_nothing demo_plugins (foldl cap_step ∅ demo_ops) demo_sched [demo_job "d" 2048 0 3; demo_job "e" 2048 0 3; demo_job "f" 2048 0 3])
    as [Hg _]; [apply (sched_run_accounted demo_plugins demo_ops demo_ok)|apply demo_accounted|by_eval|by_eval|].
  destruct (Scheduler_ScheduleGang _ demo_sched) as [s' r]. cbn [snd] in Hr. subst r. exact (proj1 Hg).
Defined.


(** A job scheduled while it runs takes its resources twice and is given them back once. *)
Example rescheduled_job_leaks :
  (fun n => Memory (AvailableResources n)) <$>
    s_nodes (sched_run demo_plugins (demo_nodes ++ [SSchedule (demo_job "a" 1024 1 1); SSchedule (demo_job "a" 1024 1 1); SComplete "a"])) !! "n1" = Some 3072.
Proof. by vm_compute. Qed.

(** Evicting the lowest priorities first is not evicting the fewest: [b] alone would do. *)
Example preemption_not_minimal :
  let s := sched_run demo_plugins [SRegister (mkNode "n" (mkResources (f64_of_int 8) 4096 2) ∅);
    SSchedule (demo_job "a" 1024 0 1); SSchedule (demo_job "b" 3072 0 2)] in
  (schedulePreemptLocked (map_to_list (s_placements s)).*2 (demo_job "c" 3072 0 9) s).2 = inr ("n", ["a"; "b"]).
Proof. by vm_compute. Qed.
