(* ===== verification/Backfill.v ===== *)
(** * Conservative backfill scheduling ([pkg/backfill])

    [timeline.go] keeps the occupancy of a cluster over time as a map of changes;
    [Schedule] of [backfill.go] walks the jobs in priority order and reserves for each the
    earliest window in which it fits.  The model keeps Go's [int] at 64 bits, with the
    wrap-around of every sum and the saturation of [addClamp].  A panic is [None].

    The theorems: no instant is ever oversubscribed and [reserve] never panics; every start
    is the least one that fits beside the jobs of higher priority; jobs of lower priority
    never move a reservation; and the plan is never longer than running the jobs in turn.
    They need a capacity below [2^62], where the sum in [fits] cannot wrap;
    [backfill_wide_capacity] shows what happens above. *)

From S2P Require Import Prelude.
Local Open Scope Z_scope.

(** ** The program *)

Record Job := { ID : string; Width : Z; WallTime : Z }.
Record Assignment := { JobID : string; StartTime : Z; EndTime : Z; Backfilled : bool }.
Record Plan := { Capacity : Z; Assignments : list Assignment }.

Inductive error := ErrInvalidCapacity | ErrJobTooWide (job : string) | ErrInvalidJob (job : string).

#[global] Instance Job_eq_dec : EqDecision Job.
Proof. solve_decision. Defined.
#[global] Instance Assignment_eq_dec : EqDecision Assignment.
Proof. solve_decision. Defined.
#[global] Instance Plan_eq_dec : EqDecision Plan.
Proof. solve_decision. Defined.
#[global] Instance error_eq_dec : EqDecision error.
Proof. solve_decision. Defined.

Fixpoint find_assignment (jobID : string) (l : list Assignment) : option Assignment :=
  match l with
  | [] => None
  | a :: l => if decide (JobID a = jobID) then Some a else find_assignment jobID l
  end.

Definition Plan_AssignmentFor (s : Plan) (jobID : string) : option Assignment := find_assignment jobID (Assignments s).

Definition addClamp (a b : Z) : Z :=
  if decide (b > 0 /\ a > i64 (MaxInt64 - b)) then MaxInt64 else i64 (a + b).

Record timeline := { capacity : Z; delta : gmap Z Z }.

Definition newTimeline (cap : Z) : timeline := {| capacity := cap; delta := ∅ |}.

Definition sort_Ints (l : list Z) : list Z := merge_sort Z.le l.

Definition timeline_boundaries (tl : timeline) : list Z := sort_Ints (map_to_list (delta tl)).*1.

Fixpoint usedAt_loop (d : gmap Z Z) (t used : Z) (bs : list Z) : Z :=
  match bs with
  | [] => used
  | b :: bs => if decide (b > t) then used else usedAt_loop d t (i64 (used + zget d b)) bs
  end.

Definition timeline_usedAt (tl : timeline) (t : Z) : Z := usedAt_loop (delta tl) t 0 (timeline_boundaries tl).

Fixpoint fits_loop (tl : timeline) (start end_ width : Z) (bs : list Z) : bool :=
  match bs with
  | [] => true
  | b :: bs =>
      if decide (b <= start) then fits_loop tl start end_ width bs
      else if decide (b >= end_) then true
      else if decide (i64 (timeline_usedAt tl b + width) > capacity tl) then false
      else fits_loop tl start end_ width bs
  end.

Definition timeline_fits (tl : timeline) (start duration width : Z) : bool :=
  let end_ := addClamp start duration in
  if decide (i64 (timeline_usedAt tl start + width) > capacity tl) then false
  else fits_loop tl start end_ width (timeline_boundaries tl).

Fixpoint first_fit (tl : timeline) (duration width : Z) (candidates : list Z) : option Z :=
  match candidates with
  | [] => None
  | c :: cs => if timeline_fits tl c duration width then Some c else first_fit tl duration width cs
  end.

Definition timeline_earliestStart (tl : timeline) (notBefore duration width : Z) : Z :=
  let candidates := sort_Ints (notBefore :: filter (fun b => b > notBefore) (timeline_boundaries tl)) in
  match first_fit tl duration width candidates with
  | Some c => c
  | None =>
      match last (timeline_boundaries tl) with
      | None => notBefore
      | Some l => if decide (l > notBefore) then l else notBefore
      end
  end.

Definition drop_zero (d : gmap Z Z) (k : Z) : gmap Z Z := if decide (zget d k = 0) then delete k d else d.

Definition timeline_reserve (tl : timeline) (start duration width : Z) : option timeline :=
  if timeline_fits tl start duration width then
    let end_ := addClamp start duration in
    let d := <[start := i64 (zget (delta tl) start + width)]> (delta tl) in
    let d := <[end_ := i64 (zget d end_ - width)]> d in
    Some {| capacity := capacity tl; delta := drop_zero (drop_zero d start) end_ |}
  else None.

Fixpoint peak_loop (d : gmap Z Z) (peak used : Z) (bs : list Z) : Z :=
  match bs with
  | [] => peak
  | b :: bs =>
      let used := i64 (used + zget d b) in
      peak_loop d (if decide (used > peak) then used else peak) used bs
  end.

Definition timeline_peakUsage (tl : timeline) : Z := peak_loop (delta tl) 0 0 (timeline_boundaries tl).

Fixpoint validate (cap : Z) (jobs : list Job) : option error :=
  match jobs with
  | [] => None
  | j :: jobs =>
      if decide (Width j < 1 \/ WallTime j < 1) then Some (ErrInvalidJob (ID j))
      else if decide (Width j > cap) then Some (ErrJobTooWide (ID j))
      else validate cap jobs
  end.

Fixpoint place (tl : timeline) (maxHigherStart : Z) (jobs : list Job) : option (list Assignment) :=
  match jobs with
  | [] => Some []
  | j :: jobs =>
      let start := timeline_earliestStart tl 0 (WallTime j) (Width j) in
      tl' ← timeline_reserve tl start (WallTime j) (Width j);
      let a := {| JobID := ID j; StartTime := start; EndTime := addClamp start (WallTime j);
                  Backfilled := bool_decide (maxHigherStart >= 0 /\ start < maxHigherStart) |} in
      rest ← place tl' (if decide (start > maxHigherStart) then start else maxHigherStart) jobs;
      Some (a :: rest)
  end.

Definition Schedule (cap : Z) (jobs : list Job) : option (error + Plan) :=
  if decide (cap < 1) then Some (inl ErrInvalidCapacity)
  else match validate cap jobs with
       | Some e => Some (inl e)
       | None => l ← place (newTimeline cap) (-1) jobs; Some (inr {| Capacity := cap; Assignments := l |})
       end.

(** ** Reference definitions

    A reservation is a window and a width; [occupancy] adds up the widths of those in force
    at an instant.  A window [fits_at] beside reservations if no instant of it, its first
    included, exceeds the capacity. *)
Record reservation := { r_start : Z; r_end : Z; r_width : Z }.

Definition active (t : Z) (r : reservation) : Z := if decide (r_start r <= t < r_end r) then r_width r else 0.
Definition occupancy (rs : list reservation) (t : Z) : Z := foldr (fun r acc => active t r + acc) 0 rs.

Definition fits_at (cap : Z) (rs : list reservation) (start duration width : Z) : Prop :=
  forall t, start <= t < Z.max (start + 1) (Z.min (start + duration) MaxInt64) -> occupancy rs t + width <= cap.

Definition least_start (cap : Z) (rs : list reservation) (duration width start : Z) : Prop :=
  0 <= start /\ fits_at cap rs start duration width /\
  forall s, 0 <= s -> fits_at cap rs s duration width -> start <= s.

Definition reserve_of (j : Job) (a : Assignment) : reservation :=
  {| r_start := StartTime a; r_end := EndTime a; r_width := Width j |}.
Definition reservations (jobs : list Job) (l : list Assignment) : list reservation := zip_with reserve_of jobs l.

Definition valid_job (cap : Z) (j : Job) : Prop := 1 <= Width j <= cap /\ 1 <= WallTime j <= MaxInt64.

Lemma occupancy_app rs rs' t : occupancy (rs ++ rs') t = occupancy rs t + occupancy rs' t.
Proof. induction rs as [|r rs IH]; simpl; lia. Qed.

Lemma addClamp_min a b : 0 <= a <= MaxInt64 -> 0 <= b <= MaxInt64 -> addClamp a b = Z.min (a + b) MaxInt64.
Proof.
  intros Ha Hb. unfold addClamp. rewrite (i64_id (MaxInt64 - b)) by int_lia.
  case_decide; [int_lia|]. rewrite i64_id; int_lia.
Qed.

(** ** The occupancy map

    [psum d t] is the exact sum of the changes up to [t]; the code's running sum is its
    residue at 64 bits. *)
Definition psum_l (t : Z) (l : list (Z * Z)) : Z := foldr (fun kv acc => (if decide (kv.1 <= t) then kv.2 else 0) + acc) 0 l.
Definition psum (d : gmap Z Z) (t : Z) : Z := psum_l t (map_to_list d).

Lemma psum_l_cons t kv l : psum_l t (kv :: l) = (if decide (kv.1 <= t) then kv.2 else 0) + psum_l t l.
Proof. done. Qed.
Lemma psum_l_above t l : Forall (fun kv => t < kv.1) l -> psum_l t l = 0.
Proof. induction 1 as [|kv l Hkv _ IH]; [done|]. by rewrite psum_l_cons, IH, decide_False by lia. Qed.

#[global] Instance psum_l_proper t : Proper ((≡ₚ) ==> eq) (psum_l t).
Proof. induction 1; unfold psum_l in *; simpl in *; lia. Qed.

Lemma psum_insert_fresh d k v t : d !! k = None -> psum (<[k:=v]> d) t = (if decide (k <= t) then v else 0) + psum d t.
Proof. intros Hk. unfold psum. by rewrite map_to_list_insert. Qed.

Lemma psum_delete d k t : psum d t = (if decide (k <= t) then zget d k else 0) + psum (delete k d) t.
Proof.
  unfold zget. destruct (d !! k) as [v|] eqn:Hk; simpl.
  - rewrite <- (insert_delete_id d k v Hk) at 1. by rewrite psum_insert_fresh by apply lookup_delete_eq.
  - rewrite delete_id by done. case_decide; lia.
Qed.

Lemma psum_insert d k v t : psum (<[k:=v]> d) t = psum d t + (if decide (k <= t) then v - zget d k else 0).
Proof.
  rewrite (psum_delete d k t), (psum_delete (<[k:=v]> d) k t), delete_insert_eq, zget_insert_eq. case_decide; lia.
Qed.

Lemma psum_drop_zero d k t : psum (drop_zero d k) t = psum d t.
Proof. unfold drop_zero. case_decide as H; [|done]. rewrite (psum_delete d k t), H. by case_decide. Qed.

Lemma psum_jump d t t' : t <= t' -> (forall k, k ∈ dom d -> ~ (t < k <= t')) -> psum d t' = psum d t.
Proof.
  intros Hle Hk. unfold psum.
  assert (forall kv, kv ∈ map_to_list d -> ~ (t < kv.1 <= t')) as Hl.
  { intros [k v] Hin. apply elem_of_map_to_list in Hin. apply Hk. by apply elem_of_dom. }
  induction (map_to_list d) as [|kv l IH]; [done|]. rewrite !psum_l_cons.
  rewrite IH by (intros; apply Hl; by right). specialize (Hl kv ltac:(by left)).
  repeat case_decide; lia.
Qed.

Lemma boundaries_perm tl : timeline_boundaries tl ≡ₚ (map_to_list (delta tl)).*1.
Proof. apply merge_sort_Permutation. Qed.

Lemma boundaries_sorted tl : StronglySorted Z.le (timeline_boundaries tl).
Proof. apply StronglySorted_merge_sort; apply _. Qed.

Lemma elem_of_boundaries tl b : b ∈ timeline_boundaries tl <-> b ∈ dom (delta tl).
Proof.
  rewrite boundaries_perm, elem_of_dom, list_elem_of_fmap. split.
  - intros ([k v] & -> & Hin). apply elem_of_map_to_list in Hin. by exists v.
  - intros [v Hv]. exists (b, v). split; [done|]. by apply elem_of_map_to_list.
Qed.

Lemma usedAt_loop_sum d t used bs :
  StronglySorted Z.le bs ->
  i64 (usedAt_loop d t used bs) = i64 (used + psum_l t ((fun b => (b, zget d b)) <$> bs)).
Proof.
  intros Hs. revert used. induction Hs as [|b bs Hs IH Hb]; intros used; [simpl; f_equal; lia|].
  cbn [usedAt_loop fmap list_fmap]. rewrite psum_l_cons. cbn [fst snd].
  destruct (decide (b > t)) as [Hgt|Hle].
  - rewrite decide_False, psum_l_above; [f_equal; lia| |lia].
    apply Forall_fmap. eapply Forall_impl; [exact Hb|]. simpl. lia.
  - rewrite decide_True by lia. rewrite IH, i64_add_l. f_equal. lia.
Qed.

Lemma usedAt_loop_range d t used bs : is_i64 used -> is_i64 (usedAt_loop d t used bs).
Proof. revert used. induction bs as [|b bs IH]; intros used Hu; simpl; [done|]. case_decide; [done|]. apply IH, i64_range. Qed.

Lemma usedAt_psum tl t : timeline_usedAt tl t = i64 (psum (delta tl) t).
Proof.
  unfold timeline_usedAt. rewrite <- (i64_id (usedAt_loop _ _ _ _)) by (apply usedAt_loop_range; int_lia).
  rewrite usedAt_loop_sum by apply boundaries_sorted. rewrite boundaries_perm, <- list_fmap_compose, Z.add_0_l.
  unfold psum. f_equal. f_equal. rewrite <- (list_fmap_id (map_to_list _)) at 2.
  apply list_fmap_ext. intros i [k v] Hi. simpl. f_equal. apply zget_Some.
  by apply elem_of_map_to_list, list_elem_of_lookup_2 with i.
Qed.

Lemma usedAt_jump tl t t' : t <= t' -> (forall k, k ∈ dom (delta tl) -> ~ (t < k <= t')) -> timeline_usedAt tl t' = timeline_usedAt tl t.
Proof. intros. by rewrite !usedAt_psum, (psum_jump _ t t'). Qed.

(** The last change of a window, if it has one. *)
Lemma last_key (X : gset Z) s t :
  (forall k, k ∈ X -> ~ (s < k <= t)) \/ (exists b, b ∈ X /\ s < b <= t /\ forall k, k ∈ X -> ~ (b < k <= t)).
Proof.
  induction X as [|x X Hx IH] using set_ind_L; [left; set_solver|].
  destruct (decide (s < x <= t)) as [Hin|Hout].
  - right. destruct IH as [IH|(b & Hb & Hst & Hmax)].
    + exists x. split; [set_solver|]. split; [done|]. intros k [->%elem_of_singleton|Hk]%elem_of_union; [lia|].
      specialize (IH k Hk). lia.
    + exists (Z.max x b). split; [destruct (Z.max_spec x b) as [[_ ->]|[_ ->]]; set_solver|]. split; [lia|].
      intros k [->%elem_of_singleton|Hk]%elem_of_union; [lia|]. specialize (Hmax k Hk). lia.
  - destruct IH as [IH|(b & Hb & Hst & Hmax)]; [left|right; exists b; split; [set_solver|]; split; [done|]];
      intros k [->%elem_of_singleton|Hk]%elem_of_union; auto; lia.
Qed.

(** ** The invariant of a timeline

    The map represents the reservations made so far, and none of its instants exceeds the
    capacity. *)
Definition well_placed (r : reservation) : Prop := 0 <= r_start r <= r_end r /\ r_end r <= MaxInt64 /\ 0 < r_width r.

Record tl_inv (tl : timeline) (rs : list reservation) : Prop := {
  inv_used : forall t, timeline_usedAt tl t = occupancy rs t;
  inv_keys : forall k, k ∈ dom (delta tl) -> 0 <= k <= MaxInt64;
  inv_placed : Forall well_placed rs;
  inv_cap : forall t, occupancy rs t <= capacity tl
}.

Lemma occupancy_nonneg rs t : Forall well_placed rs -> 0 <= occupancy rs t.
Proof. induction 1 as [|r rs Hr _ IH]; simpl; [done|]. unfold active. destruct Hr. case_decide; lia. Qed.

Lemma occupancy_after rs t : Forall (fun r => r_end r <= t) rs -> occupancy rs t = 0.
Proof. induction 1 as [|r rs Hr _ IH]; simpl; [done|]. unfold active. rewrite decide_False by lia. lia. Qed.

Lemma newTimeline_inv cap : 1 <= cap -> tl_inv (newTimeline cap) [].
Proof. intros. split; [done|set_solver|done|]. simpl. intros _. lia. Qed.

Section fitting.
Context (tl : timeline) (rs : list reservation) (Hinv : tl_inv tl rs) (Hcap : capacity tl < 2 ^ 62).
Context (d w : Z) (Hd : 1 <= d <= MaxInt64) (Hw : 1 <= w <= capacity tl).

Lemma used_plus_width t : i64 (timeline_usedAt tl t + w) = occupancy rs t + w.
Proof.
  rewrite (inv_used _ _ Hinv). pose proof (inv_cap _ _ Hinv t). pose proof (occupancy_nonneg rs t (inv_placed _ _ Hinv)).
  apply i64_id. int_lia.
Qed.

Lemma fits_loop_true s e bs :
  StronglySorted Z.le bs ->
  fits_loop tl s e w bs = true <-> forall b, b ∈ bs -> s < b < e -> occupancy rs b + w <= capacity tl.
Proof.
  induction 1 as [|b bs _ IH Hb]; simpl; [set_solver|]. rewrite Forall_forall in Hb.
  case_decide; [|case_decide; [|case_decide as Hc; rewrite used_plus_width in Hc]].
  - rewrite IH. setoid_rewrite elem_of_cons. naive_solver lia.
  - split; [|done]. intros _ c [->|Hc]%elem_of_cons; [lia|]. specialize (Hb c Hc). lia.
  - split; [done|]. intros H'. specialize (H' b ltac:(by left)). lia.
  - rewrite IH. setoid_rewrite elem_of_cons. naive_solver lia.
Qed.

Lemma fits_true s : 0 <= s <= MaxInt64 -> timeline_fits tl s d w = true <-> fits_at (capacity tl) rs s d w.
Proof.
  intros Hs. unfold timeline_fits. rewrite addClamp_min, used_plus_width by lia. unfold fits_at. case_decide as Hc.
  - split; [done|]. intros Hf. specialize (Hf s ltac:(lia)). lia.
  - rewrite fits_loop_true by apply boundaries_sorted. setoid_rewrite elem_of_boundaries. split.
    + intros Hf t Ht. destruct (last_key (dom (delta tl)) s t) as [Hno|(b & Hb & Hst & Hmax)].
      * rewrite <- (inv_used _ _ Hinv), (usedAt_jump tl s t), (inv_used _ _ Hinv) by (done || lia). lia.
      * rewrite <- (inv_used _ _ Hinv), (usedAt_jump tl b t), (inv_used _ _ Hinv) by (done || lia). apply Hf; [done|]. lia.
    + intros Hf b _ Hb. apply Hf. lia.
Qed.

(** A window that fits can be moved back to the last change before it, or to the origin. *)
Lemma fits_at_candidate s :
  0 <= s -> fits_at (capacity tl) rs s d w ->
  exists c, (c = 0 \/ c ∈ dom (delta tl) /\ c > 0) /\ 0 <= c <= s /\ fits_at (capacity tl) rs c d w.
Proof.
  intros Hs Hf.
  assert (exists c, (c = 0 \/ c ∈ dom (delta tl) /\ c > 0) /\ 0 <= c <= s /\ forall k, k ∈ dom (delta tl) -> ~ (c < k <= s))
    as (c & Hc & Hcs & Hno).
  { destruct (last_key (dom (delta tl)) 0 s) as [Hno|(b & Hb & Hst & Hmax)].
    - exists 0. split; [by left|]. split; [lia|done].
    - exists b. split; [right; split; [done|lia]|]. split; [lia|done]. }
  exists c. split; [done|]. split; [done|]. intros t Ht. destruct (decide (t <= s)) as [Hle|Hgt].
  - assert (occupancy rs t = occupancy rs s) as ->; [|apply Hf; lia].
    rewrite <- !(inv_used _ _ Hinv). symmetry. apply usedAt_jump; [done|]. intros k Hk Hks. apply (Hno k Hk). lia.
  - apply Hf. lia.
Qed.

Lemma fits_at_end : fits_at (capacity tl) rs MaxInt64 d w.
Proof.
  intros t Ht. rewrite occupancy_after; [lia|]. eapply Forall_impl; [apply (inv_placed _ _ Hinv)|].
  intros r (? & ? & ?). simpl. int_lia.
Qed.

Lemma first_fit_spec cs :
  StronglySorted Z.le cs ->
  match first_fit tl d w cs with
  | Some c => c ∈ cs /\ timeline_fits tl c d w = true /\ forall c', c' ∈ cs -> timeline_fits tl c' d w = true -> c <= c'
  | None => forall c', c' ∈ cs -> timeline_fits tl c' d w = false
  end.
Proof.
  induction 1 as [|c cs _ IH Hc]; simpl; [set_solver|]. destruct (timeline_fits tl c d w) eqn:Hfc.
  - split; [by left|]. split; [done|]. intros c' [->|Hc']%elem_of_cons _; [lia|]. rewrite Forall_forall in Hc. by apply Hc.
  - destruct (first_fit tl d w cs) as [c0|].
    + destruct IH as (? & ? & Hmin). split; [by right|]. split; [done|].
      intros c' [->|Hc']%elem_of_cons Hf; [congruence|]. by apply Hmin.
    + intros c' [->|Hc']%elem_of_cons; [done|]. by apply IH.
Qed.

Lemma earliestStart_least :
  let s := timeline_earliestStart tl 0 d w in least_start (capacity tl) rs d w s /\ s <= MaxInt64.
Proof.
  unfold timeline_earliestStart.
  set (cs := sort_Ints _).
  assert (forall c, c ∈ cs <-> c = 0 \/ c ∈ dom (delta tl) /\ c > 0) as Hcs.
  { intros c. unfold cs, sort_Ints. rewrite merge_sort_Permutation, elem_of_cons, list_elem_of_filter, elem_of_boundaries. tauto. }
  assert (forall c, c ∈ cs -> 0 <= c <= MaxInt64) as Hrange.
  { intros c [->|[Hc _]]%Hcs; [int_lia|]. by apply (inv_keys _ _ Hinv). }
  assert (forall s, 0 <= s -> fits_at (capacity tl) rs s d w -> exists c, c ∈ cs /\ c <= s /\ timeline_fits tl c d w = true) as Hcand.
  { intros s Hs (c & Hc & Hle & Hfc)%fits_at_candidate; [|done]. exists c. apply Hcs in Hc. split; [done|]. split; [lia|].
    apply fits_true; [|done]. by apply Hrange. }
  pose proof (first_fit_spec cs ltac:(apply StronglySorted_merge_sort; apply _)) as Hff.
  destruct (first_fit tl d w cs) as [c|].
  - destruct Hff as (Hc & Hfit & Hmin). split; [|by apply Hrange]. split; [by apply Hrange|].
    split; [apply fits_true; [by apply Hrange|done]|]. intros s Hs (c' & Hc' & Hle & Hf')%Hcand; [|done]. specialize (Hmin c' Hc' Hf'). lia.
  - destruct (Hcand MaxInt64 ltac:(int_lia) fits_at_end) as (c & Hc & _ & Hf). rewrite Hff in Hf by done. done.
Qed.

End fitting.

Lemma i64_shift a b c : i64 (a + (i64 b - c)) = i64 (a + (b - c)).
Proof. replace (a + (i64 b - c)) with (i64 b + (a - c)) by lia. rewrite i64_add_l. f_equal. lia. Qed.

Lemma psum_reserve dm s e w t :
  s <= e ->
  let d1 := <[s := i64 (zget dm s + w)]> dm in
  let d2 := <[e := i64 (zget d1 e - w)]> d1 in
  i64 (psum (drop_zero (drop_zero d2 s) e) t) = i64 (psum dm t + (if decide (s <= t < e) then w else 0)).
Proof.
  intros Hse d1 d2. rewrite !psum_drop_zero. unfold d2. rewrite psum_insert. unfold d1 at 1. rewrite psum_insert.
  destruct (decide (e <= t)) as [He|He].
  - rewrite i64_shift, (decide_True (P := s <= t)) by lia.
    replace (psum dm t + (i64 (zget dm s + w) - zget dm s) + (zget d1 e - w - zget d1 e))
      with ((psum dm t - w) + (i64 (zget dm s + w) - zget dm s)) by lia.
    rewrite i64_shift, decide_False by lia. f_equal. lia.
  - rewrite Z.add_0_r. destruct (decide (s <= t)) as [Hs|Hs].
    + rewrite i64_shift, decide_True by lia. f_equal. lia.
    + by rewrite decide_False by lia.
Qed.

Lemma dom_drop_zero d k : dom (drop_zero d k) ⊆ dom d.
Proof. unfold drop_zero. case_decide; [|done]. rewrite dom_delete_L. set_solver. Qed.

(** A window that fits is reserved without a panic, and the map represents it. *)
Lemma reserve_inv tl rs s d w :
  tl_inv tl rs -> capacity tl < 2 ^ 62 -> 1 <= d <= MaxInt64 -> 1 <= w <= capacity tl -> 0 <= s <= MaxInt64 ->
  fits_at (capacity tl) rs s d w ->
  exists tl', timeline_reserve tl s d w = Some tl' /\ capacity tl' = capacity tl /\
    tl_inv tl' (rs ++ [{| r_start := s; r_end := addClamp s d; r_width := w |}]).
Proof.
  intros Hinv Hcap Hd Hw Hs Hfit. unfold timeline_reserve. rewrite (proj2 (fits_true tl rs Hinv Hcap d w Hd Hw s Hs) Hfit).
  eexists. split; [done|]. split; [done|]. pose proof (addClamp_min s d Hs ltac:(lia)) as Hend.
  assert (forall t, occupancy (rs ++ [{| r_start := s; r_end := addClamp s d; r_width := w |}]) t
            = occupancy rs t + (if decide (s <= t < addClamp s d) then w else 0)) as Hocc.
  { intros t. rewrite occupancy_app. cbn [occupancy foldr]. unfold active. cbn [r_start r_end r_width]. lia. }
  assert (forall t, 0 <= occupancy rs t + (if decide (s <= t < addClamp s d) then w else 0) <= capacity tl) as Hbound.
  { intros t. pose proof (occupancy_nonneg rs t (inv_placed _ _ Hinv)). pose proof (inv_cap _ _ Hinv t).
    case_decide; [|lia]. split; [lia|]. apply Hfit. lia. }
  split.
  - intros t. rewrite usedAt_psum. cbn [delta]. rewrite psum_reserve by lia.
    rewrite <- i64_add_l, <- usedAt_psum, Hocc, (inv_used _ _ Hinv). apply i64_id. specialize (Hbound t). int_lia.
  - intros k Hk. cbn [delta] in Hk. apply dom_drop_zero, dom_drop_zero in Hk. rewrite !dom_insert_L in Hk.
    apply elem_of_union in Hk as [->%elem_of_singleton|[->%elem_of_singleton|Hk]%elem_of_union]; [int_lia|done|].
    by apply (inv_keys _ _ Hinv).
  - apply Forall_app. split; [apply (inv_placed _ _ Hinv)|]. constructor; [|done]. unfold well_placed. simpl. int_lia.
  - intros t. rewrite Hocc. apply Hbound.
Qed.

(** [peakUsage] sees no occupancy that [usedAt] does not, so it stays within the capacity. *)
Lemma usedAt_loop_prefix d t used pre post :
  Forall (fun b => b <= t) pre -> Forall (fun b => t < b) post ->
  usedAt_loop d t used (pre ++ post) = foldl (fun u b => i64 (u + zget d b)) used pre.
Proof.
  intros Hpre Hpost. revert used. induction Hpre as [|b pre Hb _ IH]; intros used; simpl.
  - destruct Hpost as [|b post Hb _]; simpl; [done|]. by rewrite decide_True by lia.
  - by rewrite decide_False by lia.
Qed.

Lemma peak_loop_bound d cap pre bs peak :
  StronglySorted Z.lt (pre ++ bs) -> peak <= cap -> (forall t, usedAt_loop d t 0 (pre ++ bs) <= cap) ->
  peak_loop d peak (foldl (fun u b => i64 (u + zget d b)) 0 pre) bs <= cap.
Proof.
  revert pre peak. induction bs as [|b bs IH]; intros pre peak Hs Hp Hu; simpl; [done|].
  specialize (IH (pre ++ [b]) (if decide (i64 (foldl (fun u b => i64 (u + zget d b)) 0 pre + zget d b) > peak)
    then i64 (foldl (fun u b => i64 (u + zget d b)) 0 pre + zget d b) else peak)).
  rewrite foldl_app, <- app_assoc in IH. apply IH; [done| |done]. case_decide; [|done].
  specialize (Hu b). change (b :: bs) with ([b] ++ bs) in Hu, Hs. rewrite app_assoc in Hu, Hs.
  apply StronglySorted_app in Hs as (Hcross & Hpre & _). rewrite usedAt_loop_prefix, foldl_app in Hu; [done| |].
  - apply StronglySorted_app in Hpre as (Hpre & _ & _). apply Forall_app. split; [|by repeat constructor].
    apply Forall_forall. intros x Hx. specialize (Hpre x b Hx ltac:(by left)). lia.
  - apply Forall_forall. intros x Hx. apply Hcross; set_solver.
Qed.

Lemma boundaries_strict tl : StronglySorted Z.lt (timeline_boundaries tl).
Proof.
  assert (NoDup (timeline_boundaries tl)) as Hnd by (rewrite boundaries_perm; apply NoDup_fst_map_to_list).
  induction (boundaries_sorted tl) as [|b bs _ IH Hb]; [constructor|]. apply NoDup_cons in Hnd as [Hb' Hnd].
  constructor; [by apply IH|]. apply Forall_forall. intros x Hx. rewrite Forall_forall in Hb. specialize (Hb x Hx).
  destruct (decide (x = b)) as [->|]; [done|lia].
Qed.

Lemma peakUsage_bound tl rs : tl_inv tl rs -> 0 <= capacity tl -> timeline_peakUsage tl <= capacity tl.
Proof.
  intros Hinv Hcap. apply (peak_loop_bound (delta tl) (capacity tl) []); [apply boundaries_strict|done|].
  intros t. change (timeline_usedAt tl t <= capacity tl). rewrite (inv_used _ _ Hinv). apply Hinv.
Qed.

(** ** Placing the jobs *)

Definition jobs_ok (cap : Z) (jobs : list Job) : Prop := 1 <= cap < 2 ^ 62 /\ Forall (valid_job cap) jobs.

(** One job: its start is the least that fits, and its reservation joins the timeline. *)
Lemma place_cons tl rs m j jobs :
  tl_inv tl rs -> capacity tl < 2 ^ 62 -> valid_job (capacity tl) j ->
  exists tl' s,
    let a := {| JobID := ID j; StartTime := s; EndTime := Z.min (s + WallTime j) MaxInt64;
                Backfilled := bool_decide (m >= 0 /\ s < m) |} in
    place tl m (j :: jobs) = (rest ← place tl' (Z.max s m) jobs; Some (a :: rest)) /\
    capacity tl' = capacity tl /\ tl_inv tl' (rs ++ [reserve_of j a]) /\
    least_start (capacity tl) rs (WallTime j) (Width j) s.
Proof.
  intros Hinv Hcap [Hw Hd]. cbn [place]. set (s := timeline_earliestStart tl 0 (WallTime j) (Width j)).
  destruct (earliestStart_least tl rs Hinv Hcap _ _ Hd Hw) as [Hleast Hmax]. fold s in Hleast, Hmax.
  assert (0 <= s <= MaxInt64) as Hs by (destruct Hleast; lia).
  destruct (reserve_inv tl rs s _ _ Hinv Hcap Hd Hw Hs ltac:(apply Hleast)) as (tl' & -> & Hc & Hinv').
  rewrite addClamp_min in Hinv' |- * by lia. exists tl', s. cbn. split; [|done].
  f_equal. f_equal. case_decide; lia.
Qed.

(** The whole loop: every start is the least beside the earlier jobs, and the flag says
    exactly whether an earlier job starts later. *)
Definition placed_well (cap : Z) (rs : list reservation) (m : Z) (jobs : list Job) (l : list Assignment) : Prop :=
  length l = length jobs /\
  (forall t, occupancy (rs ++ reservations jobs l) t <= cap) /\
  forall i j a, jobs !! i = Some j -> l !! i = Some a ->
    JobID a = ID j /\ EndTime a = Z.min (StartTime a + WallTime j) MaxInt64 /\
    least_start cap (rs ++ reservations (take i jobs) (take i l)) (WallTime j) (Width j) (StartTime a) /\
    (Backfilled a = true <-> StartTime a < m \/ exists k b, (k < i)%nat /\ l !! k = Some b /\ StartTime a < StartTime b).

Lemma place_spec tl rs m jobs :
  tl_inv tl rs -> capacity tl < 2 ^ 62 -> Forall (valid_job (capacity tl)) jobs ->
  exists l, place tl m jobs = Some l /\ placed_well (capacity tl) rs m jobs l.
Proof.
  intros Hinv Hcap Hjobs. revert tl rs m Hinv Hcap Hjobs. induction jobs as [|j jobs IH]; intros tl rs m Hinv Hcap Hjobs.
  { exists []. split; [done|]. split; [done|]. split; [|done]. intros t. rewrite app_nil_r. apply Hinv. }
  apply Forall_cons in Hjobs as [Hj Hjobs].
  destruct (place_cons tl rs m j jobs Hinv Hcap Hj) as (tl' & s & Hplace & Hc & Hinv' & Hleast). rewrite Hplace.
  set (a := {| JobID := _ |}) in *.
  destruct (IH tl' (rs ++ [reserve_of j a]) (Z.max s m) Hinv') as (l & -> & Hlen & Hocc & Hspec); [by rewrite Hc..|].
  rewrite Hc in *. assert (0 <= s) as Hs by apply Hleast. exists (a :: l). split; [done|]. split; [simpl; lia|]. split.
  - intros t. specialize (Hocc t). by rewrite <- app_assoc in Hocc.
  - intros [|i] j' a' Hj' Ha'; simplify_eq/=.
    + rewrite app_nil_r. split; [done|]. split; [done|]. split; [done|]. rewrite bool_decide_eq_true. split; [intuition lia|].
      intros [?|(k & b & ? & _)]; lia.
    + destruct (Hspec i j' a' Hj' Ha') as (? & ? & Hl & Hb). rewrite <- app_assoc in Hl. split; [done|]. split; [done|].
      split; [done|]. rewrite Hb. assert (0 <= StartTime a') by apply Hl. clear -Hs. split.
      * intros [?|(k & b & ? & ? & ?)]; [|right; exists (S k), b; split; [lia|done]].
        destruct (decide (StartTime a' < m)); [by left|]. right. exists 0%nat, a. simpl. split; [lia|]. split; [done|lia].
      * intros [?|([|k] & b & ? & ? & ?)]; simplify_eq/=; [left; lia|left; lia|]. right. exists k, b. split; [lia|done].
Qed.

Lemma place_app tl m jobs more l :
  place tl m (jobs ++ more) = Some l -> place tl m jobs = Some (take (length jobs) l).
Proof.
  revert tl m l. induction jobs as [|j jobs IH]; intros tl m l Hp; [done|]. cbn [place app] in *.
  destruct (timeline_reserve _ _ _ _) as [tl'|]; [|done]. cbn in Hp |- *.
  destruct (place tl' _ (jobs ++ more)) as [rest|] eqn:Hrest; [|done]. simplify_eq/=. by rewrite (IH _ _ _ Hrest).
Qed.

Lemma validate_None cap jobs : validate cap jobs = None <-> Forall (fun j => 1 <= Width j <= cap /\ 1 <= WallTime j) jobs.
Proof.
  induction jobs as [|j jobs IH]; simpl; [by split|]. rewrite Forall_cons, <- IH. repeat case_decide; naive_solver lia.
Qed.

Lemma Schedule_place cap jobs :
  jobs_ok cap jobs ->
  exists l, Schedule cap jobs = Some (inr {| Capacity := cap; Assignments := l |}) /\
    place (newTimeline cap) (-1) jobs = Some l /\ placed_well cap [] (-1) jobs l.
Proof.
  intros [Hcap Hjobs].
  destruct (place_spec (newTimeline cap) [] (-1) jobs) as (l & Hl & Hspec); [apply newTimeline_inv; lia|simpl; lia|done|].
  exists l. unfold Schedule. rewrite decide_False by lia. rewrite (proj2 (validate_None cap jobs)), Hl; [done|].
  eapply Forall_impl; [done|]. intros j [? ?]. lia.
Qed.

(** ** What the scheduler guarantees *)

(** Every job starts at the least instant at which it fits beside the jobs of higher
    priority for its whole wall time: the search over the changes of the occupancy is a
    search over all instants. *)
Theorem backfill_earliest cap jobs l i j a :
  jobs_ok cap jobs ->
  Schedule cap jobs = Some (inr {| Capacity := cap; Assignments := l |}) -> jobs !! i = Some j -> l !! i = Some a ->
  JobID a = ID j /\ EndTime a = Z.min (StartTime a + WallTime j) MaxInt64 /\
  least_start cap (reservations (take i jobs) (take i l)) (WallTime j) (Width j) (StartTime a).
Proof.
  intros (l' & HS & _ & _ & _ & Hspec)%Schedule_place Hl Hj Ha. rewrite HS in Hl. simplify_eq.
  destruct (Hspec i j a Hj Ha) as (? & ? & ? & _). done.
Qed.

(** Conservative backfill.  Jobs of lower priority, however many follow, leave every
    window as it was; and a job is marked backfilled exactly if it starts before some job
    of higher priority. *)
Theorem backfill_conservative cap jobs more l :
  jobs_ok cap (jobs ++ more) ->
  Schedule cap (jobs ++ more) = Some (inr {| Capacity := cap; Assignments := l |}) ->
  Schedule cap jobs = Some (inr {| Capacity := cap; Assignments := take (length jobs) l |}) /\
  forall i a, l !! i = Some a ->
    Backfilled a = true <-> exists k b, (k < i)%nat /\ l !! k = Some b /\ StartTime a < StartTime b.
Proof.
  intros Hok Hl. destruct (Schedule_place _ _ Hok) as (l' & HS & Hp & Hlen & _ & Hspec). rewrite HS in Hl. simplify_eq.
  split.
  - assert (jobs_ok cap jobs) as (l' & HS' & Hp' & _)%Schedule_place by (destruct Hok as [? [??]%Forall_app]; by split).
    rewrite HS'. by rewrite (place_app _ _ _ _ _ Hp) in Hp'; simplify_eq.
  - intros i a Ha. destruct (lookup_lt_is_Some_2 (jobs ++ more) i) as [j Hj].
    { rewrite <- Hlen. by apply lookup_lt_Some in Ha. }
    destruct (Hspec i j a Hj Ha) as (_ & _ & [? _] & ->). split; [intros [?|?]; [lia|done]|by right].
Qed.

Definition total_time (jobs : list Job) : Z := foldr (fun j acc => WallTime j + acc) 0 jobs.

Lemma total_time_take_S jobs i j : jobs !! i = Some j -> total_time (take (S i) jobs) = total_time (take i jobs) + WallTime j.
Proof.
  revert i. induction jobs as [|j' jobs IH]; intros [|i] Hj; simplify_eq/=; [lia|]. rewrite (IH i Hj). lia.
Qed.

Lemma total_time_nonneg cap jobs i : Forall (valid_job cap) jobs -> 0 <= total_time (take i jobs).
Proof. intros Hjobs. apply (Forall_take _ i) in Hjobs. induction Hjobs as [|? ? [? ?] _ IH]; simpl; lia. Qed.

Lemma fits_after cap rs s d w : w <= cap -> Forall (fun r => r_end r <= s) rs -> fits_at cap rs s d w.
Proof. intros Hw Hrs t Ht. rewrite occupancy_after; [lia|]. eapply Forall_impl; [done|]. simpl. lia. Qed.

Lemma placed_in_turn cap jobs l :
  Forall (valid_job cap) jobs -> placed_well cap [] (-1) jobs l ->
  forall i, (i <= length jobs)%nat -> Forall (fun r => r_end r <= total_time (take i jobs)) (reservations (take i jobs) (take i l)).
Proof.
  intros Hjobs (Hlen & _ & Hspec) i. induction i as [|i IH]; intros Hi; [by rewrite !take_0|].
  destruct (lookup_lt_is_Some_2 jobs i) as [j Hj]; [lia|]. destruct (lookup_lt_is_Some_2 l i) as [a Ha]; [lia|].
  destruct (Hspec i j a Hj Ha) as (_ & Hend & Hleast & _). destruct Hleast as (_ & _ & Hmin).
  assert (valid_job cap j) as [Hw Hd] by (by eapply Forall_lookup_1).
  specialize (IH ltac:(lia)). pose proof (total_time_take_S jobs i j Hj) as Hsum. rewrite Hsum.
  rewrite (take_S_r _ _ _ Hj), (take_S_r _ _ _ Ha). unfold reservations.
  rewrite zip_with_app by (rewrite !length_take; lia). apply Forall_app. split.
  - eapply Forall_impl; [exact IH|]. simpl. lia.
  - constructor; [|done]. cbn [r_end reserve_of]. rewrite Hend. enough (StartTime a <= total_time (take i jobs)) by lia.
    apply Hmin; [by eapply total_time_nonneg|by apply fits_after; [lia|]].
Qed.

Lemma ends_in_turn cap jobs l i j a :
  Forall (valid_job cap) jobs -> placed_well cap [] (-1) jobs l -> jobs !! i = Some j -> l !! i = Some a -> StartTime a + WallTime j <= total_time (take (S i) jobs).
Proof.
  intros Hjobs Hwell Hj Ha. destruct (proj2 (proj2 Hwell) i j a Hj Ha) as (_ & _ & (_ & _ & Hmin) & _).
  pose proof (lookup_lt_Some _ _ _ Hj) as Hi. pose proof (placed_in_turn cap jobs l Hjobs Hwell i ltac:(lia)) as Hends.
  rewrite (total_time_take_S jobs i j Hj).
  enough (StartTime a <= total_time (take i jobs)) by lia.
  assert (valid_job cap j) as [Hw Hd] by (by eapply Forall_lookup_1).
  apply Hmin; [by eapply total_time_nonneg|by apply fits_after; [lia|]].
Qed.

(** C29: For a capacity of at least 1 and below [2^62], and jobs whose widths are between 1
    and the capacity and whose wall times are between 1 and [MaxInt64], [Schedule] does not
    panic and returns one assignment per job, in order.  The assignment of a job carries
    its id and starts at an instant from 0 on; it ends its wall time later, cut off at
    [MaxInt64], which does not happen while the wall times up to the job sum to at most
    [MaxInt64].  At no instant do the jobs in whose windows it lies need more than the
    capacity.  (Above, see [backfill_wide_capacity].) *)
Theorem backfill_never_oversubscribes cap jobs :
  jobs_ok cap jobs ->
  exists l, Schedule cap jobs = Some (inr {| Capacity := cap; Assignments := l |}) /\ length l = length jobs /\
    (forall i j a, jobs !! i = Some j -> l !! i = Some a ->
       JobID a = ID j /\ 0 <= StartTime a /\ EndTime a = Z.min (StartTime a + WallTime j) MaxInt64 /\
       (total_time (take (S i) jobs) <= MaxInt64 -> EndTime a = StartTime a + WallTime j)) /\
    forall t, occupancy (reservations jobs l) t <= cap.
Proof.
  intros Hok. destruct (Schedule_place _ _ Hok) as (l & HS & _ & Hwell). pose proof Hwell as (Hlen & Hocc & Hspec). exists l. split_and!; [done|done| |done].
  intros i j a Hj Ha. destruct (Hspec i j a Hj Ha) as (HID & Hend & [Hs _] & _). pose proof (ends_in_turn _ _ _ _ _ _ (proj2 Hok) Hwell Hj Ha). split_and!; [done|done|done|lia].
Qed.

(** The plan is no longer than running the jobs one after the other: job [i] ends by
    the sum of the wall times up to its own.  When that sum is an [int], no end is clamped
    and every window has the job's full wall time. *)
Theorem backfill_makespan cap jobs l i j a :
  jobs_ok cap jobs ->
  Schedule cap jobs = Some (inr {| Capacity := cap; Assignments := l |}) -> jobs !! i = Some j -> l !! i = Some a ->
  StartTime a + WallTime j <= total_time (take (S i) jobs) /\
  (total_time (take (S i) jobs) <= MaxInt64 -> EndTime a = StartTime a + WallTime j).
Proof.
  intros Hok Hl Hj Ha. destruct (Schedule_place _ _ Hok) as (l' & HS & _ & Hwell). rewrite HS in Hl. simplify_eq.
  destruct (proj2 (proj2 Hwell) i j a Hj Ha) as (_ & -> & _). pose proof (ends_in_turn _ _ _ _ _ _ (proj2 Hok) Hwell Hj Ha). lia.
Qed.

(** ** Concrete schedules *)

Definition demo_jobs : list Job :=
  [ {| ID := "a"; Width := 2; WallTime := 10 |}; {| ID := "b"; Width := 4; WallTime := 5 |};
    {| ID := "c"; Width := 2; WallTime := 8 |}; {| ID := "d"; Width := 1; WallTime := 12 |} ]%string.

Definition demo_assignments : list Assignment :=
  match Schedule 4 demo_jobs with Some (inr p) => Assignments p | _ => [] end.

Lemma demo_jobs_ok : jobs_ok 4 demo_jobs.
Proof. split; [lia|]. repeat constructor; vm_compute; discriminate. Qed.

Lemma demo_schedule : Schedule 4 demo_jobs = Some (inr {| Capacity := 4; Assignments := demo_assignments |}).
Proof. by_eval. Qed.

(** The third job runs beside the first, ahead of the second; the fourth would delay the
    second and waits. *)
Example demo_starts : (fun a => (StartTime a, EndTime a, Backfilled a)) <$> demo_assignments =
  [(0, 10, false); (10, 15, false); (0, 8, true); (15, 27, false)].
Proof. by_eval. Qed.

Definition demo_c : Assignment := {| JobID := "c"; StartTime := 0; EndTime := 8; Backfilled := true |}.
Definition demo_d : Assignment := {| JobID := "d"; StartTime := 15; EndTime := 27; Backfilled := false |}.

Lemma demo_lookup : demo_assignments !! 2%nat = Some demo_c /\ demo_assignments !! 3%nat = Some demo_d.
Proof. by_eval. Qed.

Lemma backfill_never_oversubscribes_witness :
  exists l, Schedule 4 demo_jobs = Some (inr {| Capacity := 4; Assignments := l |}) /\ length l = length demo_jobs /\
    forall t, occupancy (reservations demo_jobs l) t <= 4.
Proof. destruct (backfill_never_oversubscribes 4 demo_jobs demo_jobs_ok) as (l & HS & Hlen & _ & Hocc). exact (ex_intro _ l (conj HS (conj Hlen Hocc))). Defined.

Lemma backfill_earliest_witness :
  least_start 4 (reservations (take 2 demo_jobs) (take 2 demo_assignments)) 8 2 (StartTime demo_c).
Proof.
  exact (proj2 (proj2 (backfill_earliest 4 demo_jobs demo_assignments 2 _ demo_c demo_jobs_ok demo_schedule eq_refl (proj1 demo_lookup)))).
Defined.

Lemma backfill_conservative_witness :
  Schedule 4 (take 2 demo_jobs) =
    Some (inr {| Capacity := 4; Assignments := take (length (take 2 demo_jobs)) demo_assignments |}).
Proof. exact (proj1 (backfill_conservative 4 (take 2 demo_jobs) (drop 2 demo_jobs) demo_assignments demo_jobs_ok demo_schedule)). Defined.

Lemma backfill_makespan_witness : StartTime demo_d + 12 <= total_time (take 4 demo_jobs).
Proof.
  exact (proj1 (backfill_makespan 4 demo_jobs demo_assignments 3 _ demo_d demo_jobs_ok demo_schedule eq_refl (proj2 demo_lookup))).
Defined.

(** From a capacity of [2^62] on, the sum [usedAt(start)+width] of [fits] can wrap to a
    negative number: two jobs that each need the whole cluster are given the same window. *)
Example backfill_wide_capacity :
  exists l, Schedule MaxInt64 [ {| ID := "a"; Width := MaxInt64; WallTime := 5 |};
                                {| ID := "b"; Width := MaxInt64; WallTime := 5 |} ]%string
      = Some (inr {| Capacity := MaxInt64; Assignments := l |}) /\
    (fun a => (StartTime a, EndTime a)) <$> l = [(0, 5); (0, 5)].
Proof. eexists. split; vm_compute; reflexivity. Qed.

(** At the horizon of the clock, a window is clamped to nothing: the job is planned for no
    time at all. *)
Example backfill_horizon :
  exists l, Schedule 1 [ {| ID := "a"; Width := 1; WallTime := MaxInt64 |};
                         {| ID := "b"; Width := 1; WallTime := 5 |} ]%string
      = Some (inr {| Capacity := 1; Assignments := l |}) /\
    (fun a => (StartTime a, EndTime a)) <$> l = [(0, MaxInt64); (MaxInt64, MaxInt64)].
Proof. eexists. split; vm_compute; reflexivity. Qed.

(** Looking up a job finds its assignment, if job names are distinct. *)
Lemma AssignmentFor_spec p i a :
  NoDup (JobID <$> Assignments p) -> Assignments p !! i = Some a -> Plan_AssignmentFor p (JobID a) = Some a.
Proof.
  unfold Plan_AssignmentFor. generalize (Assignments p). intros l. revert i. induction l as [|b l IH]; intros i Hnd Ha; [done|].
  cbn in Hnd. apply NoDup_cons in Hnd as [Hb Hnd]. destruct i as [|i]; simplify_eq/=; [by rewrite decide_True|].
  rewrite decide_False; [by eapply IH|]. intros Heq. apply Hb. rewrite Heq. apply list_elem_of_fmap_2, list_elem_of_lookup_2 with i. done.
Qed.
