(* ===== verification/Porcupine.v ===== *)
(** * The linearizability checker ([pkg/porcupine])

    [package.go] decides by the search of Wing and Gong whether a concurrent history has a
    sequential order that the model accepts and that respects real time; configurations
    proven to be dead ends are remembered, keyed by the set of operations already ordered
    (a bit mask printed in base 36) and compared by the model's [Equal].  [recorder.go]
    collects such histories.

    States, inputs and outputs are types of the model's choice (Go's [interface{}]); the
    model is a record of functions, as in the source, and its contract on [Equal] is the
    class [ModelLaws].  The search carries its mutable variables in [search_state].

    The theorems: the verdict is exactly linearizability, with and without memoization; a
    refused history comes with a longest admissible prefix after which the reported
    operation is rejected; and a recorded history is well formed, and orders operations as
    they happened, under every interleaving of the recorder's atomic steps. *)

From S2P Require Import Prelude GoFmt.
Local Open Scope Z_scope.

(** ** The program *)

Record Model (St I O : Type) := { Init : St; Step : St -> I -> O -> bool * St; Equal : option (St -> St -> bool) }.
Arguments Init {St I O} _.
Arguments Step {St I O} _ _ _ _.
Arguments Equal {St I O} _.

Record Operation (I O : Type) := { ClientID : Z; Input : I; Output : O; Call : Z; Return : Z }.
Arguments ClientID {I O} _.
Arguments Input {I O} _.
Arguments Output {I O} _.
Arguments Call {I O} _.
Arguments Return {I O} _.

#[global] Instance Operation_eq_dec {I O} `{EqDecision I, EqDecision O} : EqDecision (Operation I O).
Proof. solve_decision. Defined.

Record CheckResult (I O : Type) := { OK : bool; Offending : option (Operation I O); memoHits : Z }.
Arguments OK {I O} _.
Arguments Offending {I O} _.
Arguments memoHits {I O} _.

(** [strconv.FormatUint(z, 36)], and the keys of the memo. *)
Fixpoint format_loop (fuel : nat) (z : Z) : list Z :=
  match fuel with
  | O => []
  | S fuel => if decide (z < 36) then [hex_digit z] else format_loop fuel (z / 36) ++ [hex_digit (z mod 36)]
  end.
Definition FormatUint36 (z : Z) : list Z := format_loop 64 z.

Fixpoint mask_loop (used : list bool) (i : Z) (mask : Z) : Z :=
  match used with
  | [] => mask
  | b :: used => mask_loop used (i + 1) (if b : bool then Z.lor mask (Z.shiftl 1 i) else mask)
  end.

Fixpoint words_loop (n : Z) (used : list bool) (i : Z) (word : Z) : list Z :=
  match used with
  | [] => []
  | b :: used =>
      let bit := i mod 64 in
      let word := if b : bool then Z.lor word (Z.shiftl 1 bit) else word in
      if decide (bit = 63 \/ i = n - 1) then FormatUint36 word ++ [46] ++ words_loop n used (i + 1) 0
      else words_loop n used (i + 1) word
  end.

Definition usedKey (used : list bool) : list Z :=
  let n := Z.of_nat (length used) in
  if decide (n <= 64) then FormatUint36 (mask_loop used 0 0) else words_loop n used 0 0.

Record search_state (St : Type) := { visited : gmap (list Z) (list St); hits : Z; deepestStuck : Z; deepestDepth : Z }.
Arguments Build_search_state {St} _ _ _ _.
Arguments visited {St} _.
Arguments hits {St} _.
Arguments deepestStuck {St} _.
Arguments deepestDepth {St} _.

Section checker.
Context {St I O : Type} (model : Model St I O) (ops : list (Operation I O)).

Fixpoint minReturn_loop (l : list (Operation I O)) (used : list bool) (acc : Z) : Z :=
  match l, used with
  | op :: l, u :: used => minReturn_loop l used (if decide (u = false /\ Return op < acc) then Return op else acc)
  | _, _ => acc
  end.
Definition minReturn (used : list bool) : Z := minReturn_loop ops used MaxInt64.

Definition seen_states (st : search_state St) (key : list Z) : list St := default [] (visited st !! key).

(** The probe of the memo, and the record of a dead end. *)
Definition probe (used : list bool) (state : St) (st : search_state St) : bool :=
  match Equal model with
  | None => false
  | Some equal => existsb (fun s => equal s state) (seen_states st (usedKey used))
  end.

Definition remember (used : list bool) (state : St) (st : search_state St) : search_state St :=
  match Equal model with
  | None => st
  | Some _ => Build_search_state (<[usedKey used := seen_states st (usedKey used) ++ [state]]> (visited st))
                (hits st) (deepestStuck st) (deepestDepth st)
  end.

Fixpoint first_unused (p : Operation I O -> bool) (l : list (Operation I O)) (used : list bool) (i : Z) : Z :=
  match l, used with
  | op :: l, u :: used => if negb u && p op then i else first_unused p l used (i + 1)
  | _, _ => -1
  end.

Definition find_stuck (used : list bool) (minRet : Z) : Z :=
  let i := first_unused (fun op => bool_decide (Call op <= minRet)) ops used 0 in
  if decide (i = -1) then first_unused (fun _ => true) ops used 0 else i.

Definition note_stuck (used : list bool) (minRet : Z) (depth : nat) (st : search_state St) : search_state St :=
  if decide (Z.of_nat depth > deepestDepth st)
  then Build_search_state (visited st) (hits st) (find_stuck used minRet) (Z.of_nat depth)
  else st.

Fixpoint try_ops (search : list bool -> St -> nat -> search_state St -> bool * search_state St)
    (used : list bool) (state : St) (depth : nat) (minRet : Z) (idxs : list nat) (st : search_state St) : bool * search_state St :=
  match idxs with
  | [] => (false, st)
  | i :: idxs =>
      match used !! i, ops !! i with
      | Some false, Some op =>
          if decide (Call op > minRet) then try_ops search used state depth minRet idxs st
          else match Step model state (Input op) (Output op) with
               | (false, _) => try_ops search used state depth minRet idxs st
               | (true, next) =>
                   match search (<[i := true]> used) next (S depth) st with
                   | (true, st) => (true, st)
                   | (false, st) => try_ops search used state depth minRet idxs st
                   end
               end
      | _, _ => try_ops search used state depth minRet idxs st
      end
  end.

Fixpoint search (fuel : nat) (used : list bool) (state : St) (depth : nat) (st : search_state St) : bool * search_state St :=
  match fuel with
  | 0%nat => (false, st)
  | S fuel =>
      if decide (depth = length ops) then (true, st)
      else if probe used state st
      then (false, Build_search_state (visited st) (i64 (hits st + 1)) (deepestStuck st) (deepestDepth st))
      else
        let minRet := minReturn used in
        match try_ops (search fuel) used state depth minRet (seq 0 (length ops)) st with
        | (true, st) => (true, st)
        | (false, st) => (false, note_stuck used minRet depth (remember used state st))
        end
  end.

Definition check_sorted : CheckResult I O :=
  if decide (length ops = 0%nat) then {| OK := true; Offending := None; memoHits := 0 |}
  else match search (S (length ops)) (replicate (length ops) false) (Init model) 0 (Build_search_state ∅ 0 (-1) (-1)) with
       | (true, st) => {| OK := true; Offending := None; memoHits := hits st |}
       | (false, st) =>
           {| OK := false; memoHits := hits st;
              Offending := if decide (deepestStuck st >= 0) then ops !! Z.to_nat (deepestStuck st) else None |}
       end.

End checker.

Definition call_le {I O} (a b : Operation I O) : Prop := Call a < Call b \/ Call a = Call b /\ Return a <= Return b.
#[global] Instance call_le_dec {I O} (a b : Operation I O) : Decision (call_le a b).
Proof. unfold call_le. apply _. Defined.

Definition CheckOperationsVerbose {St I O} (model : Model St I O) (history : list (Operation I O)) : CheckResult I O :=
  check_sorted model (merge_sort call_le history).

Definition CheckOperations {St I O} (model : Model St I O) (history : list (Operation I O)) : bool :=
  OK (CheckOperationsVerbose model history).

(** ** Memo keys identify the set of ordered operations *)

Definition unformat36 (ds : list Z) : Z := foldl (fun acc c => acc * 36 + hex_value c) 0 ds.

Lemma digit_value d : 0 <= d < 36 -> hex_value (hex_digit d) = d.
Proof. intros. unfold hex_value, hex_digit. repeat case_decide; lia. Qed.

Lemma unformat_format fuel z : 0 <= z < 36 ^ Z.of_nat fuel -> unformat36 (format_loop fuel z) = z.
Proof.
  revert z. induction fuel as [|fuel IH]; intros z Hz; [cbn in Hz |- *; lia|]. cbn [format_loop].
  case_decide; [unfold unformat36; cbn [foldl]; rewrite digit_value; lia|].
  replace (Z.of_nat (S fuel)) with (Z.of_nat fuel + 1) in Hz by lia. rewrite Z.pow_add_r in Hz by lia.
  pose proof (Z.div_mod z 36). pose proof (Z.mod_pos_bound z 36).
  assert (0 <= z / 36 < 36 ^ Z.of_nat fuel) by (split; [apply Z.div_pos; lia|apply Z.div_lt_upper_bound; lia]).
  unfold unformat36. rewrite foldl_app. cbn [foldl]. fold (unformat36 (format_loop fuel (z / 36))).
  rewrite IH, digit_value by lia. lia.
Qed.

Lemma FormatUint36_inj a b : 0 <= a < 2 ^ 64 -> 0 <= b < 2 ^ 64 -> FormatUint36 a = FormatUint36 b -> a = b.
Proof.
  intros Ha Hb Heq. rewrite <- (unformat_format 64 a), <- (unformat_format 64 b) by lia.
  unfold FormatUint36 in Heq. by rewrite Heq.
Qed.

Lemma format_loop_digits fuel z : 0 <= z -> Forall (fun c => 48 <= c) (format_loop fuel z).
Proof.
  revert z. induction fuel as [|fuel IH]; intros z Hz; simpl; [done|]. unfold hex_digit.
  case_decide; [constructor; [case_decide; lia|done]|]. apply Forall_app. split; [apply IH, Z.div_pos; lia|].
  pose proof (Z.mod_pos_bound z 36). constructor; [case_decide; lia|done].
Qed.

(** Two texts that end at the first full stop split in one way. *)
Lemma split_at_dot (a b x y : list Z) :
  Forall (fun c => 48 <= c) a -> Forall (fun c => 48 <= c) b -> a ++ [46] ++ x = b ++ [46] ++ y -> a = b /\ x = y.
Proof.
  intros Ha. revert b. induction Ha as [|c a Hc _ IH]; intros [|d b] Hb Heq; cbn in Heq.
  - by injection Heq as ->.
  - injection Heq as <- _. apply Forall_cons in Hb as [? _]. lia.
  - injection Heq as -> _. lia.
  - injection Heq as -> Heq. apply Forall_cons in Hb as [_ Hb]. destruct (IH b Hb Heq) as [-> ->]. done.
Qed.

(** Setting a bit above all others adds its power of two. *)
Definition set_bit (b : bool) (w i : Z) : Z := if b then Z.lor w (Z.shiftl 1 i) else w.

Lemma set_bit_add b w i : 0 <= i -> 0 <= w < 2 ^ i -> set_bit b w i = w + (if b then 2 ^ i else 0).
Proof.
  intros Hi Hw. unfold set_bit. destruct b; [|lia]. rewrite Z.shiftl_1_l.
  assert (Z.land w (2 ^ i) = 0) as Hland.
  { apply Z.bits_inj'. intros k Hk. rewrite Z.land_spec, Z.bits_0, Z.pow2_bits_eqb by done.
    destruct (Z.eqb_spec i k) as [->|]; [|by rewrite andb_false_r]. rewrite andb_true_r.
    destruct (decide (w = 0)) as [->|]; [apply Z.bits_0|]. apply Z.bits_above_log2; [lia|]. apply Z.log2_lt_pow2; lia. }
  rewrite (Z.add_nocarry_lxor _ _ Hland). by rewrite Z.lxor_lor.
Qed.

Lemma set_bit_inj b b' w w' i :
  0 <= i -> 0 <= w < 2 ^ i -> 0 <= w' < 2 ^ i -> set_bit b w i = set_bit b' w' i -> b = b' /\ w = w'.
Proof. intros Hi Hw Hw'. rewrite !set_bit_add by done. destruct b, b'; intros; (split; [done || lia|lia]) || lia. Qed.

Lemma set_bit_range b w i : 0 <= i -> 0 <= w < 2 ^ i -> 0 <= set_bit b w i < 2 ^ (i + 1).
Proof. intros Hi Hw. rewrite set_bit_add, Z.pow_add_r by lia. destruct b; lia. Qed.

Lemma mask_loop_inj us us' i w w' :
  length us = length us' -> 0 <= i -> 0 <= w < 2 ^ i -> 0 <= w' < 2 ^ i ->
  mask_loop us i w = mask_loop us' i w' -> us = us' /\ w = w'.
Proof.
  revert us' i w w'. induction us as [|b us IH]; intros [|b' us'] i w w' Hlen Hi Hw Hw' Heq; simplify_eq/=; [done|].
  fold (set_bit b w i) (set_bit b' w' i) in Heq.
  destruct (IH us' (i + 1) (set_bit b w i) (set_bit b' w' i)) as [-> Hs]; [done|lia|by apply set_bit_range..|done|].
  destruct (set_bit_inj b b' w w' i) as [-> ->]; done.
Qed.

Lemma mask_loop_range us i w : 0 <= i -> 0 <= w < 2 ^ i -> 0 <= mask_loop us i w < 2 ^ (i + Z.of_nat (length us)).
Proof.
  revert i w. induction us as [|b us IH]; intros i w Hi Hw; [cbn; by rewrite Z.add_0_r|]. cbn [mask_loop].
  fold (set_bit b w i). replace (i + Z.of_nat (length (b :: us))) with ((i + 1) + Z.of_nat (length us)) by (cbn [length]; lia).
  apply IH; [lia|]. by apply set_bit_range.
Qed.

Lemma words_loop_inj n us us' i w w' :
  length us = length us' -> us <> [] -> 0 <= i -> i + Z.of_nat (length us) = n ->
  0 <= w < 2 ^ (i mod 64) -> 0 <= w' < 2 ^ (i mod 64) ->
  words_loop n us i w = words_loop n us' i w' -> us = us' /\ w = w'.
Proof.
  revert us' i w w'. induction us as [|b us IH]; intros [|b' us'] i w w' Hlen Hne Hi Hn Hw Hw' Heq; [done..|]. injection Hlen as Hlen. cbn [words_loop] in Heq.
  fold (set_bit b w (i mod 64)) (set_bit b' w' (i mod 64)) in Heq.
  pose proof (Z.mod_pos_bound i 64 ltac:(lia)) as Hbit.
  pose proof (set_bit_range b w (i mod 64) ltac:(lia) Hw). pose proof (set_bit_range b' w' (i mod 64) ltac:(lia) Hw').
  assert (2 ^ (i mod 64 + 1) <= 2 ^ 64) by (apply Z.pow_le_mono_r; lia).
  case_decide as Hflush.
  - apply split_at_dot in Heq as [Hword Hrest]; [|apply format_loop_digits; lia..].
    apply FormatUint36_inj in Hword; [|lia..].
    destruct (set_bit_inj b b' w w' (i mod 64)) as [-> ->]; [lia|done..|]. split; [|done]. f_equal.
    assert (0 <= 0 < 2 ^ ((i + 1) mod 64)) as Hz.
    { split; [done|]. apply Z.pow_pos_nonneg; [done|]. by apply Z.mod_pos_bound. }
    destruct us as [|c us]; [by destruct us'|].
    refine (proj1 (IH us' (i + 1) 0 0 Hlen ltac:(done) ltac:(lia) _ Hz Hz Hrest)). cbn [length] in *. lia.
  - assert (us <> []) as Hus by (intros ->; cbn in Hn; lia).
    assert ((i + 1) mod 64 = i mod 64 + 1) as Hnext.
    { rewrite <- Zplus_mod_idemp_l. apply Z.mod_small. lia. }
    destruct (IH us' (i + 1) (set_bit b w (i mod 64)) (set_bit b' w' (i mod 64))) as [-> Hs];
      [done|done|lia|cbn [length] in Hn; lia|by rewrite Hnext..|done|].
    destruct (set_bit_inj b b' w w' (i mod 64)) as [-> ->]; [lia|done..|]. done.
Qed.

Lemma usedKey_inj us us' : length us = length us' -> usedKey us = usedKey us' -> us = us'.
Proof.
  intros Hlen. unfold usedKey. rewrite Hlen. case_decide as Hn.
  - assert (forall l : list bool, length l = length us' -> 0 <= mask_loop l 0 0 < 2 ^ 64) as Hr.
    { intros l Hl. pose proof (mask_loop_range l 0 0 ltac:(lia) ltac:(lia)) as Hm. rewrite Hl, Z.add_0_l in Hm.
      assert (2 ^ Z.of_nat (length us') <= 2 ^ 64) by (apply Z.pow_le_mono_r; lia). lia. }
    intros Heq%FormatUint36_inj; [|by apply Hr..]. by apply (mask_loop_inj us us' 0 0 0).
  - destruct us as [|b us]; [by destruct us'|]. intros Heq.
    apply (words_loop_inj (Z.of_nat (length us')) (b :: us) us' 0 0 0); rewrite ?Zmod_0_l; lia || done.
Qed.

(** ** Linearizability

    The reference notion: some order of the operations is accepted by the model step by
    step, and in it no operation precedes one that had returned before it was called. *)
Definition may_precede {I O} (a b : Operation I O) : Prop := Call a <= Return b.

Fixpoint legal {St I O} (model : Model St I O) (s : St) (l : list (Operation I O)) : Prop :=
  match l with
  | [] => True
  | op :: l => (Step model s (Input op) (Output op)).1 = true /\ legal model (Step model s (Input op) (Output op)).2 l
  end.

Definition linearizable_from {St I O} (model : Model St I O) (s : St) (h : list (Operation I O)) : Prop :=
  exists l, l ≡ₚ h /\ StronglySorted may_precede l /\ legal model s l.

Definition linearizable {St I O} (model : Model St I O) (h : list (Operation I O)) : Prop :=
  linearizable_from model (Init model) h.

(** The state after a sequence, and the prefixes from which a linearization may go on. *)
Definition run {St I O} (model : Model St I O) (s : St) (l : list (Operation I O)) : St :=
  foldl (fun s op => (Step model s (Input op) (Output op)).2) s l.

Definition prefix_from {St I O} (model : Model St I O) (s : St) (h pre rest : list (Operation I O)) : Prop :=
  pre ++ rest ≡ₚ h /\ StronglySorted may_precede pre /\ (forall a b, a ∈ pre -> b ∈ rest -> may_precede a b) /\ legal model s pre.

Lemma prefix_from_perm {St I O} (model : Model St I O) s h h' pre rest :
  h ≡ₚ h' -> prefix_from model s h pre rest -> prefix_from model s h' pre rest.
Proof. intros Hp (? & ? & ? & ?). split; [by rewrite <- Hp|done]. Qed.

(** The contract on a model's [Equal]: equal states accept the same operations and stay equal. *)
Class ModelLaws {St I O} (model : Model St I O) : Prop := {
  equal_step : forall equal s1 s2 i o, Equal model = Some equal -> equal s1 s2 = true ->
    (Step model s1 i o).1 = (Step model s2 i o).1 /\ equal (Step model s1 i o).2 (Step model s2 i o).2 = true
}.

(** Completed operations: called before they return, at 64-bit times. *)
Definition completed {I O} (op : Operation I O) : Prop := Call op <= Return op <= MaxInt64.

Section remaining.
Context {I O : Type}.
Implicit Types (op : Operation I O) (l ops : list (Operation I O)).

(** The operations still to be ordered. *)
Definition remaining (l : list (Operation I O)) (used : list bool) : list (Operation I O) :=
  (filter (fun x => x.2 = false) (zip l used)).*1.

Lemma remaining_cons op l u used : remaining (op :: l) (u :: used) = if decide (u = false) then op :: remaining l used else remaining l used.
Proof. unfold remaining. cbn [zip zip_with]. rewrite filter_cons. cbn [snd]. by case_decide. Qed.

Lemma remaining_take l used i op :
  used !! i = Some false -> l !! i = Some op -> remaining l used ≡ₚ op :: remaining l (<[i := true]> used).
Proof.
  revert l used. induction i as [|i IH]; intros [|op' l] [|u used] Hu Hop; simplify_eq/=.
  - by rewrite !remaining_cons.
  - rewrite !remaining_cons. case_decide; rewrite (IH l used Hu Hop); [|done]. apply perm_swap.
Qed.

Lemma elem_of_remaining l used op :
  length used = length l -> op ∈ remaining l used <-> exists i, used !! i = Some false /\ l !! i = Some op.
Proof.
  revert l. induction used as [|u used IH]; intros [|op' l] Hlen; try done.
  - split; [set_solver|intros (i & ? & ?); done].
  - rewrite remaining_cons. injection Hlen as Hlen. specialize (IH l Hlen). split.
    + case_decide as Hu; [subst; intros [->|Hin]%elem_of_cons; [by exists 0%nat|]|intros Hin];
        apply IH in Hin as (i & ? & ?); by exists (S i).
    + intros ([|i] & Hu & Hop); simplify_eq/=; [by left|].
      assert (op ∈ remaining l used) by (apply IH; by exists i). case_decide; [by right|done].
Qed.

Lemma minReturn_loop_le l used acc c :
  c <= minReturn_loop l used acc <-> c <= acc /\ forall op, op ∈ remaining l used -> c <= Return op.
Proof.
  revert used acc. induction l as [|op l IH]; intros [|u used] acc; cbn [minReturn_loop]; [set_solver..|].
  rewrite IH, remaining_cons. destruct (decide (u = false)) as [->|Hu].
  - setoid_rewrite elem_of_cons. case_decide; naive_solver lia.
  - rewrite decide_False by tauto. done.
Qed.

Lemma eligible_iff ops used op : Call op <= MaxInt64 ->
  Call op <= minReturn ops used <-> forall op', op' ∈ remaining ops used -> may_precede op op'.
Proof. intros Hc. unfold minReturn, may_precede. rewrite minReturn_loop_le. naive_solver. Qed.

End remaining.

Section correctness.
Context {St I O : Type} (model : Model St I O) `{!ModelLaws model} (ops : list (Operation I O)).
Context (Hops : Forall completed ops).
Let n := length ops.

(** A sequence of choices the search may make. *)
Fixpoint follow (used : list bool) (s : St) (path : list nat) : option (list bool * St) :=
  match path with
  | [] => Some (used, s)
  | i :: path =>
      match used !! i, ops !! i with
      | Some false, Some op =>
          if decide (Call op <= minReturn ops used) then
            match Step model s (Input op) (Output op) with
            | (true, next) => follow (<[i := true]> used) next path
            | (false, _) => None
            end
          else None
      | _, _ => None
      end
  end.

(** Unless all is ordered, some operation may come next: the one that returned first. *)
Lemma some_eligible used : length used = n -> remaining ops used <> [] ->
  exists i op, used !! i = Some false /\ ops !! i = Some op /\ Call op <= minReturn ops used.
Proof.
  intros Hlen Hne.
  assert (exists op, op ∈ remaining ops used /\ forall op', op' ∈ remaining ops used -> Return op <= Return op') as (op & Hin & Hmin).
  { clear -Hne. induction (remaining ops used) as [|a l IH]; [done|]. destruct l as [|b l].
    - exists a. split; [by left|]. by intros op' ->%list_elem_of_singleton.
    - destruct IH as (m & Hm & Hmin); [done|]. destruct (decide (Return a <= Return m)).
      + exists a. split; [by left|]. intros op' [->|Hop']%elem_of_cons; [lia|]. specialize (Hmin op' Hop'). lia.
      + exists m. split; [by right|]. intros op' [->|Hop']%elem_of_cons; [lia|by apply Hmin]. }
  apply elem_of_remaining in Hin as (i & Hu & Hop); [|done]. exists i, op. split; [done|]. split; [done|].
  assert (completed op) as [Hc Hr] by (by eapply Forall_lookup_1). apply eligible_iff; [lia|].
  intros op' Hop'. unfold may_precede. specialize (Hmin op' Hop'). lia.
Qed.

(** The search's choices are the linearizations of what remains. *)
Lemma follow_length used s path used' s' : follow used s path = Some (used', s') -> length used' = length used.
Proof.
  revert used s. induction path as [|i path IH]; intros used s Hf; cbn [follow] in Hf; [by simplify_eq|].
  destruct (used !! i) as [[]|]; [done| |done]. destruct (ops !! i); [|done]. case_decide; [|done].
  destruct (Step _ _ _ _) as [[] next]; [|done]. apply IH in Hf. by rewrite length_insert in Hf.
Qed.

Lemma remaining_insert_length used i op :
  used !! i = Some false -> ops !! i = Some op -> length (remaining ops used) = S (length (remaining ops (<[i:=true]> used))).
Proof. intros Hu Hop. by rewrite (remaining_take _ _ _ _ Hu Hop). Qed.

Lemma follow_linearizes used s :
  length used = n ->
  (exists path, is_Some (follow used s path) /\ length path = length (remaining ops used)) <->
  linearizable_from model s (remaining ops used).
Proof.
  remember (length (remaining ops used)) as m eqn:Hm. revert used s Hm. induction m as [|m IH]; intros used s Hm Hlen.
  { symmetry in Hm. apply nil_length_inv in Hm. rewrite Hm. split; intros _; [by exists []; split; [|split; [constructor|]]|exists []; by split]. }
  split.
  - intros ([|i path] & Hf & Hp); [done|]. cbn [follow] in Hf.
    destruct (used !! i) as [[]|] eqn:Hu; [by destruct Hf| |by destruct Hf].
    destruct (ops !! i) as [op|] eqn:Hop; [|by destruct Hf]. case_decide as Hel; [|by destruct Hf].
    destruct (Step model s (Input op) (Output op)) as [[] next] eqn:Hstep; [|by destruct Hf].
    pose proof (remaining_insert_length used i op Hu Hop) as Hrem.
    destruct (proj1 (IH (<[i:=true]> used) next ltac:(lia) ltac:(by rewrite length_insert))) as (l & Hperm & Hsort & Hleg).
    { exists path. split; [done|]. simpl in Hp. lia. }
    exists (op :: l). split; [by rewrite Hperm, <- remaining_take|].
    assert (completed op) as [? ?] by (by eapply Forall_lookup_1). rewrite eligible_iff in Hel by lia. split.
    + constructor; [done|]. apply Forall_forall. intros op' Hin. apply Hel.
      rewrite (remaining_take _ _ _ _ Hu Hop). right. by rewrite <- Hperm.
    + cbn [legal]. by rewrite Hstep.
  - intros ([|op l] & Hperm & Hsort & Hleg); [by rewrite <- Hperm in Hm|].
    assert (op ∈ remaining ops used) as Hin by (rewrite <- Hperm; by left).
    apply elem_of_remaining in Hin as (i & Hu & Hop); [|done]. destruct Hleg as [Hok Hleg].
    destruct (Step model s (Input op) (Output op)) as [ok next] eqn:Hstep. simpl in Hok, Hleg. subst ok.
    pose proof (remaining_insert_length used i op Hu Hop) as Hrem. apply StronglySorted_inv in Hsort as [Hsort Hall].
    destruct (proj2 (IH (<[i:=true]> used) next ltac:(lia) ltac:(by rewrite length_insert))) as (path & Hf & Hp).
    { exists l. split; [|done]. rewrite (remaining_take _ _ _ _ Hu Hop) in Hperm. by apply Permutation_cons_inv in Hperm. }
    assert (completed op) as [? ?] by (by eapply Forall_lookup_1).
    exists (i :: path). split; [|simpl; lia]. cbn [follow]. rewrite Hu, Hop, decide_True, Hstep; [done|].
    apply eligible_iff; [lia|]. intros op' Hin. rewrite <- Hperm in Hin. apply elem_of_cons in Hin as [->|Hin]; [done|].
    rewrite Forall_forall in Hall. by apply Hall.
Qed.

(** ** The search

    [left] counts what remains; it shrinks by one along a path. *)
Definition left_ (used : list bool) : nat := length (remaining ops used).

Lemma follow_left used s path used' s' : follow used s path = Some (used', s') -> left_ used = (length path + left_ used')%nat.
Proof.
  revert used s. induction path as [|i path IH]; intros used s Hf; cbn [follow] in Hf; [by simplify_eq|].
  destruct (used !! i) as [[]|] eqn:Hu; [done| |done]. destruct (ops !! i) as [op|] eqn:Hop; [|done]. case_decide; [|done].
  destruct (Step _ _ _ _) as [[] next]; [|done]. unfold left_ in *. rewrite (remaining_insert_length _ _ _ Hu Hop), (IH _ _ Hf). simpl. lia.
Qed.

Lemma follow_app used s p q :
  follow used s (p ++ q) = match follow used s p with Some (used', s') => follow used' s' q | None => None end.
Proof.
  revert used s. induction p as [|i p IH]; intros used s; [done|]. cbn [app follow]. repeat case_match; simplify_eq; try done; rewrite IH; by simplify_option_eq.
Qed.

Lemma follow_cons used s i path :
  is_Some (follow used s (i :: path)) -> exists op next, used !! i = Some false /\ ops !! i = Some op /\
    Call op <= minReturn ops used /\ Step model s (Input op) (Output op) = (true, next) /\ is_Some (follow (<[i:=true]> used) next path).
Proof.
  cbn [follow]. intros [x Hf]. destruct (used !! i) as [[]|]; [done| |done]. destruct (ops !! i) as [op|]; [|done].
  case_decide; [|done]. destruct (Step _ _ _ _) as [[] next] eqn:?; [|done]. exists op, next. split_and!; eauto.
Qed.

(** Equal states offer the same paths. *)
Lemma follow_equal equal used s1 s2 path :
  Equal model = Some equal -> equal s1 s2 = true -> is_Some (follow used s2 path) -> is_Some (follow used s1 path).
Proof.
  intros Heq. revert used s1 s2. induction path as [|i path IH]; intros used s1 s2 H12 Hf; [by eexists|].
  apply follow_cons in Hf as (op & next & Hu & Hop & Hel & Hstep & Hf). cbn [follow]. rewrite Hu, Hop, decide_True by done.
  destruct (equal_step equal s1 s2 (Input op) (Output op) Heq H12) as [Hok Hnext]. rewrite Hstep in Hok, Hnext.
  destruct (Step model s1 (Input op) (Output op)) as [ok next1]. simpl in Hok, Hnext. subst ok. by apply (IH _ next1 next).
Qed.

(** No path from a configuration at [depth] leads deeper than [d]. *)
Definition no_deeper (used : list bool) (s : St) (d : Z) : Prop :=
  forall path, is_Some (follow used s path) -> Z.of_nat (n - left_ used + length path) <= d.

Definition start : list bool := replicate n false.
Definition reached (pre : list nat) (used : list bool) (s : St) : Prop := follow start (Init model) pre = Some (used, s).

(** Nothing can follow in the configuration, and operation [i] is one that is due. *)
Definition stuck_at (used : list bool) (s : St) (i : nat) : Prop :=
  (exists op, used !! i = Some false /\ ops !! i = Some op /\ Call op <= minReturn ops used) /\
  forall j, follow used s [j] = None.

Record search_inv (st : search_state St) : Prop := {
  si_depth : -1 <= deepestDepth st < Z.of_nat n;
  si_memo : forall used s, length used = n -> s ∈ seen_states st (usedKey used) -> no_deeper used s (deepestDepth st);
  si_stuck : 0 <= deepestDepth st -> exists pre used s i, reached pre used s /\ Z.of_nat (length pre) = deepestDepth st /\
    deepestStuck st = Z.of_nat i /\ stuck_at used s i
}.

Lemma no_deeper_mono used s d d' : d <= d' -> no_deeper used s d -> no_deeper used s d'.
Proof. intros Hd H path Hp. specialize (H path Hp). lia. Qed.

Lemma left_start : left_ start = n.
Proof.
  unfold left_, start. enough (forall l : list (Operation I O), length (remaining l (replicate (length l) false)) = length l) as H by apply H.
  induction l as [|op l IH]; [done|]. cbn [length replicate]. rewrite remaining_cons, decide_True by done. simpl. by rewrite IH.
Qed.

Lemma reached_facts pre used s : reached pre used s -> length used = n /\ n = (length pre + left_ used)%nat.
Proof.
  intros Hr. split; [apply follow_length in Hr; rewrite Hr; apply length_replicate|]. apply follow_left in Hr. by rewrite left_start in Hr.
Qed.

Lemma reached_snoc pre used s i op next :
  reached pre used s -> used !! i = Some false -> ops !! i = Some op -> Call op <= minReturn ops used ->
  Step model s (Input op) (Output op) = (true, next) -> reached (pre ++ [i]) (<[i:=true]> used) next.
Proof.
  intros Hr Hu Hop Hel Hstep. unfold reached in *. rewrite follow_app, Hr. cbn [follow]. by rewrite Hu, Hop, decide_True, Hstep.
Qed.

Lemma find_stuck_eligible used :
  length used = n -> left_ used <> 0%nat ->
  exists i op, find_stuck ops used (minReturn ops used) = Z.of_nat i /\ used !! i = Some false /\ ops !! i = Some op /\
    Call op <= minReturn ops used.
Proof.
  intros Hlen Hleft. destruct (some_eligible used Hlen) as (i0 & op0 & Hu0 & Hop0 & Hel0).
  { intros H. apply Hleft. unfold left_. by rewrite H. }
  unfold find_stuck. set (p := fun op => bool_decide _).
  assert (forall (l : list (Operation I O)) us k i op, us !! i = Some false -> l !! i = Some op -> p op = true -> 0 <= k ->
    exists j op', first_unused p l us k = k + Z.of_nat j /\ us !! j = Some false /\ l !! j = Some op' /\ p op' = true) as Hfirst.
  { induction l as [|o l IH]; intros [|u us] k i op Hu Hop Hp Hk; try done. cbn [first_unused].
    destruct (negb u && p o) eqn:Hb.
    - apply andb_true_iff in Hb as [Hu0'%negb_true_iff Hp0]. subst u. exists 0%nat, o. split; [lia|]. done.
    - destruct i as [|i]; simplify_eq/=; [by rewrite Hp in Hb|].
      destruct (IH us (k + 1) i op Hu Hop Hp ltac:(lia)) as (j & op' & -> & ?). exists (S j), op'. split; [lia|done]. }
  destruct (Hfirst ops used 0 i0 op0 Hu0 Hop0 ltac:(by apply bool_decide_eq_true) ltac:(done)) as (j & op' & Hj & ? & ? & Hp').
  rewrite Hj, decide_False by lia. exists j, op'. split; [lia|]. split; [done|]. split; [done|]. by apply bool_decide_eq_true in Hp'.
Qed.

Definition outcome (used : list bool) (s : St) (st : search_state St) (r : bool * search_state St) : Prop :=
  if r.1 then exists path, is_Some (follow used s path) /\ length path = left_ used
  else search_inv r.2 /\ deepestDepth st <= deepestDepth r.2 /\ no_deeper used s (deepestDepth r.2).

Definition search_ok (fuel : nat) : Prop :=
  forall pre used s st, reached pre used s -> search_inv st -> (left_ used < fuel)%nat ->
    outcome used s st (search model ops fuel used s (length pre) st).

Lemma try_ops_ok fuel pre used s idxs st :
  search_ok fuel -> reached pre used s -> search_inv st -> (left_ used < S fuel)%nat ->
  let r := try_ops model ops (search model ops fuel) used s (length pre) (minReturn ops used) idxs st in
  if r.1 then exists path, is_Some (follow used s path) /\ length path = left_ used
  else search_inv r.2 /\ deepestDepth st <= deepestDepth r.2 /\
    forall i path, i ∈ idxs -> is_Some (follow used s (i :: path)) -> Z.of_nat (n - left_ used + S (length path)) <= deepestDepth r.2.
Proof.
  intros IH Hr Hinv Hfuel. revert st Hinv. induction idxs as [|i idxs IHi]; intros st Hinv; cbn [try_ops].
  { split; [done|]. split; [done|]. intros i path Hi. by apply elem_of_nil in Hi. }
  (* an index that the loop passes over starts no path *)
  assert ((forall path, ~ is_Some (follow used s (i :: path))) ->
    let r := try_ops model ops (search model ops fuel) used s (length pre) (minReturn ops used) idxs st in
    if r.1 then exists path, is_Some (follow used s path) /\ length path = left_ used
    else search_inv r.2 /\ deepestDepth st <= deepestDepth r.2 /\
      forall j path, j ∈ i :: idxs -> is_Some (follow used s (j :: path)) -> Z.of_nat (n - left_ used + S (length path)) <= deepestDepth r.2) as Hskip.
  { intros Hno. specialize (IHi st Hinv). cbn zeta in IHi |- *. destruct (try_ops _ _ _ _ _ _ _ _ _) as [[] st']; [done|].
    destruct IHi as (? & ? & Hd). split; [done|]. split; [done|]. intros j path [->|Hj]%elem_of_cons Hf; [by apply Hno in Hf|eauto]. }
  destruct (used !! i) as [[]|] eqn:Hu; [apply Hskip; intros path (? & ? & ? & _)%follow_cons; congruence| |
    apply Hskip; intros path (? & ? & ? & _)%follow_cons; congruence].
  destruct (ops !! i) as [op|] eqn:Hop; [|apply Hskip; intros path (? & ? & ? & ? & _)%follow_cons; congruence].
  case_decide as Hel; [apply Hskip; intros path (? & ? & ? & ? & ? & _)%follow_cons; simplify_eq; lia|].
  destruct (Step model s (Input op) (Output op)) as [[] next] eqn:Hstep;
    [|apply Hskip; intros path (? & ? & ? & ? & ? & ? & _)%follow_cons; congruence].
  pose proof (reached_snoc pre used s i op next Hr Hu Hop ltac:(lia) Hstep) as Hr'.
  assert (left_ used = S (left_ (<[i:=true]> used))) as Hleft by (by eapply remaining_insert_length).
  pose proof (reached_facts _ _ _ Hr) as [_ Hn].
  specialize (IH _ _ _ st Hr' Hinv ltac:(lia)). rewrite length_app, Nat.add_1_r in IH.
  destruct (search model ops fuel _ _ _ _) as [[] st']; cbn [outcome fst snd] in IH |- *.
  - destruct IH as (path & Hf & Hp). exists (i :: path). split; [|simpl; lia]. cbn [follow]. by rewrite Hu, Hop, decide_True, Hstep by lia.
  - destruct IH as (Hinv' & Hmono & Hnd). specialize (IHi st' Hinv'). cbn zeta in IHi |- *.
    destruct (try_ops _ _ _ _ _ _ _ _ _) as [[] st'']; [done|]. destruct IHi as (? & ? & Hd). split; [done|]. split; [simpl in *; lia|].
    intros j path [->|Hj]%elem_of_cons Hf; [|by eapply Hd].
    apply follow_cons in Hf as (op' & next' & _ & Hop' & _ & Hstep' & Hf). simplify_eq. rewrite Hstep in Hstep'. simplify_eq. specialize (Hnd path Hf). simpl in *. lia.
Qed.

(** Recording a dead end keeps the invariant, and nothing below it is deeper than recorded. *)
Lemma dead_end_ok pre used s st :
  reached pre used s -> search_inv st -> left_ used <> 0%nat ->
  (forall i path, is_Some (follow used s (i :: path)) -> Z.of_nat (n - left_ used + S (length path)) <= deepestDepth st) ->
  let st' := note_stuck ops used (minReturn ops used) (length pre) (remember model used s st) in
  search_inv st' /\ deepestDepth st <= deepestDepth st' /\ no_deeper used s (deepestDepth st').
Proof.
  intros Hr Hinv Hleft Hd st'. destruct (reached_facts _ _ _ Hr) as [Hlen Hn].
  assert (deepestDepth st' = Z.max (deepestDepth st) (Z.of_nat (length pre))) as Hdd.
  { unfold st', note_stuck, remember. destruct (Equal model); simpl; case_decide; simpl; lia. }
  assert (visited st' = visited (remember model used s st)) as Hvis by (unfold st', note_stuck; by case_decide).
  assert (no_deeper used s (deepestDepth st')) as Hnd.
  { intros [|i path] Hf; rewrite Hdd; [simpl; lia|]. specialize (Hd i path Hf). simpl in *. lia. }
  destruct Hinv as [Hdepth Hmemo Hstuck]. split; [|split; [lia|done]]. split.
  - lia.
  - intros used' s' Hlen' Hin. unfold seen_states in Hin. rewrite Hvis in Hin. unfold remember in Hin.
    destruct (Equal model) as [equal|]; [|by eapply no_deeper_mono; [|apply Hmemo]; [lia|..]]. cbn [visited] in Hin.
    destruct (decide (usedKey used = usedKey used')) as [Hkey|Hkey].
    + apply usedKey_inj in Hkey; [|congruence]. subst used'. rewrite lookup_insert_eq in Hin. cbn [default from_option id] in Hin.
      apply elem_of_app in Hin as [Hin| ->%list_elem_of_singleton]; [|done].
      eapply no_deeper_mono; [|by apply Hmemo]. lia.
    + rewrite lookup_insert_ne in Hin by done. eapply no_deeper_mono; [|by apply Hmemo]. lia.
  - intros _. destruct (decide (Z.of_nat (length pre) > deepestDepth st)) as [Hgt|Hle].
    + destruct (find_stuck_eligible used Hlen Hleft) as (i & op & Hfind & Hu & Hop & Hel).
      exists pre, used, s, i. split; [done|]. split; [lia|]. split.
      * unfold st', note_stuck. assert (deepestDepth (remember model used s st) = deepestDepth st) as -> by (unfold remember; by case_match).
        by rewrite decide_True.
      * split; [by exists op|]. intros j. destruct (follow used s [j]) eqn:Hf; [|done]. specialize (Hd j [] ltac:(by eexists)). simpl in Hd. lia.
    + destruct Hstuck as (pre' & used' & s' & i & ? & ? & Hi & ?); [lia|]. exists pre', used', s', i. split; [done|]. split; [lia|].
      split; [|done]. rewrite <- Hi. unfold st', note_stuck.
      assert (deepestDepth (remember model used s st) = deepestDepth st) as -> by (unfold remember; by case_match).
      rewrite decide_False by done. unfold remember. by case_match.
Qed.

Lemma search_spec fuel : search_ok fuel.
Proof.
  induction fuel as [|fuel IH]; intros pre used s st Hr Hinv Hfuel; [lia|]. cbn [search].
  destruct (reached_facts _ _ _ Hr) as [Hlen Hn]. fold n. case_decide as Hfull.
  { exists []. split; [by eexists|]. simpl. lia. }
  destruct (probe model used s st) eqn:Hprobe.
  - unfold probe in Hprobe. destruct (Equal model) as [equal|] eqn:Heq; [|done].
    apply existsb_exists in Hprobe as (s' & Hin%list_elem_of_In & Heqs). cbn [outcome fst snd deepestDepth].
    split; [by destruct Hinv|]. split; [lia|]. intros path Hf. apply (si_memo _ Hinv used s' Hlen Hin).
    by eapply follow_equal.
  - pose proof (try_ops_ok fuel pre used s (seq 0 n) st IH Hr Hinv Hfuel) as Htry. cbn zeta in Htry.
    destruct (try_ops _ _ _ _ _ _ _ _ _) as [[] st']; cbn [outcome fst snd] in *; [done|].
    destruct Htry as (Hinv' & Hmono & Hd). edestruct dead_end_ok as (? & ? & ?); [done|exact Hinv'|lia| |split; [done|]; split; [lia|done]].
    intros i path Hf. eapply Hd; [|exact Hf]. apply follow_cons in Hf as (op & _ & _ & Hop & _). apply lookup_lt_Some in Hop.
    apply list_elem_of_In, in_seq. unfold n. lia.
Qed.

(** The verdict on a sorted history, and what a refusal reports. *)
Lemma check_sorted_spec :
  (OK (check_sorted model ops) = true <-> linearizable model ops) /\
  (OK (check_sorted model ops) = false -> exists pre used s i op,
     reached pre used s /\ (forall path, is_Some (follow start (Init model) path) -> (length path <= length pre)%nat) /\
     stuck_at used s i /\ ops !! i = Some op /\ Offending (check_sorted model ops) = Some op).
Proof.
  assert (linearizable model ops <-> exists path, is_Some (follow start (Init model) path) /\ length path = n) as Hlin.
  { pose proof (follow_linearizes start (Init model) ltac:(apply length_replicate)) as H.
    fold (left_ start) in H. rewrite left_start in H.
    assert (remaining ops start = ops) as Hall; [|rewrite Hall in H; by symmetry].
    unfold start. clear. unfold n. induction ops as [|op l IH]; [done|]. cbn [length replicate]. rewrite remaining_cons. simpl. by rewrite IH. }
  rewrite Hlin. unfold check_sorted. fold n. case_decide as Hz.
  { split; [|done]. split; [|done]. intros _. exists []. split; [by eexists|done]. }
  assert (search_inv (Build_search_state ∅ 0 (-1) (-1))) as Hinit.
  { split; simpl; [lia| |lia]. intros used s _ Hin. by apply elem_of_nil in Hin. }
  pose proof (search_spec (S n) [] start (Init model) _ eq_refl Hinit ltac:(rewrite left_start; lia)) as Hs.
  fold start. destruct (search _ _ _ _ _ _ _) as [[] st]; cbn [outcome fst snd OK Offending] in *.
  - rewrite left_start in Hs. done.
  - destruct Hs as (Hinv & _ & Hnd). split.
    + split; [done|]. intros (path & Hf & Hp). specialize (Hnd path Hf). rewrite left_start in Hnd. pose proof (si_depth _ Hinv). lia.
    + intros _. assert (0 <= deepestDepth st) as Hd by (specialize (Hnd [] ltac:(by eexists)); lia).
      destruct (si_stuck _ Hinv Hd) as (pre & used & s & i & Hr & Hp & Hi & Hst).
      destruct Hst as [(op & Hu & Hop & Hel) Hno]. exists pre, used, s, i, op. split; [done|]. split.
      * intros path Hf. specialize (Hnd path Hf). rewrite left_start in Hnd. lia.
      * split; [by split; [exists op|]|]. split; [done|]. rewrite Hi, decide_True, Nat2Z.id by lia. done.
Qed.

(** Paths are the admissible prefixes of linearizations. *)
Lemma follow_prefix used s path used' s' :
  length used = n -> follow used s path = Some (used', s') ->
  exists l, length l = length path /\ prefix_from model s (remaining ops used) l (remaining ops used') /\ s' = run model s l.
Proof.
  revert used s. induction path as [|i path IH]; intros used s Hlen Hf.
  { cbn in Hf. simplify_eq. exists []. split; [done|]. split; [|done]. split; [done|]. split; [constructor|]. split; [set_solver|done]. }
  destruct (follow_cons used s i path ltac:(by eexists)) as (op & next & Hu & Hop & Hel & Hstep & _).
  cbn [follow] in Hf. rewrite Hu, Hop, decide_True, Hstep in Hf by done.
  destruct (IH _ _ ltac:(by rewrite length_insert) Hf) as (l & Hl & (Hperm & Hsort & Hcross & Hleg) & Hs').
  assert (completed op) as [? ?] by (by eapply Forall_lookup_1). rewrite eligible_iff in Hel by lia.
  pose proof (remaining_take _ _ _ _ Hu Hop) as Htake. rewrite <- Hperm in Htake.
  exists (op :: l). split; [simpl; lia|]. split; [|cbn [run foldl]; by rewrite Hstep]. split; [by rewrite Htake|]. split.
  - constructor; [done|]. apply Forall_forall. intros b Hb. apply Hel. rewrite Htake. set_solver.
  - split; [|cbn [legal]; by rewrite Hstep]. intros a b [->|Ha]%elem_of_cons Hb; [|by apply Hcross]. apply Hel. rewrite Htake. set_solver.
Qed.

Lemma prefix_follow used s l rest :
  length used = n -> prefix_from model s (remaining ops used) l rest ->
  exists path, length path = length l /\ is_Some (follow used s path).
Proof.
  revert used s. induction l as [|op l IH]; intros used s Hlen (Hperm & Hsort & Hcross & Hleg); [exists []; by split; [|eexists]|].
  destruct Hleg as [Hok Hleg]. apply StronglySorted_inv in Hsort as [Hsort Hall].
  assert (op ∈ remaining ops used) as Hin by (rewrite <- Hperm; by left).
  apply elem_of_remaining in Hin as (i & Hu & Hop); [|done].
  destruct (Step model s (Input op) (Output op)) as [ok next] eqn:Hstep. simpl in Hok, Hleg. subst ok.
  destruct (IH (<[i:=true]> used) next ltac:(by rewrite length_insert)) as (path & Hp & Hf).
  { split; [|split; [done|]; split; [set_solver|done]]. rewrite (remaining_take _ _ _ _ Hu Hop) in Hperm. by apply Permutation_cons_inv in Hperm. }
  exists (i :: path). split; [simpl; lia|]. assert (completed op) as [? ?] by (by eapply Forall_lookup_1).
  cbn [follow]. rewrite Hu, Hop, decide_True, Hstep; [done|]. apply eligible_iff; [lia|]. intros op' Hin. rewrite <- Hperm in Hin.
  apply elem_of_cons in Hin as [->|[Hin|Hin]%elem_of_app]; [done|by rewrite Forall_forall in Hall; apply Hall|]. apply Hcross; set_solver.
Qed.

Lemma stuck_rejects used s i :
  length used = n -> stuck_at used s i -> forall op, op ∈ remaining ops used -> (forall b, b ∈ remaining ops used -> may_precede op b) ->
  (Step model s (Input op) (Output op)).1 = false.
Proof.
  intros Hlen [_ Hno] op Hin Hdue. apply elem_of_remaining in Hin as (j & Hu & Hop); [|done]. specialize (Hno j). cbn [follow] in Hno.
  assert (completed op) as [? ?] by (by eapply Forall_lookup_1). apply eligible_iff in Hdue; [|lia].
  rewrite Hu, Hop, decide_True in Hno by done. by destruct (Step _ _ _ _) as [[] ?].
Qed.

End correctness.

Lemma remaining_start {I O} (ops : list (Operation I O)) : remaining ops (replicate (length ops) false) = ops.
Proof. induction ops as [|op l IH]; [done|]. cbn [length replicate]. rewrite remaining_cons. simpl. by rewrite IH. Qed.

Lemma linearizable_perm {St I O} (model : Model St I O) h h' : h ≡ₚ h' -> linearizable model h <-> linearizable model h'.
Proof. intros Hp. unfold linearizable, linearizable_from. by setoid_rewrite Hp. Qed.

Lemma check_decides {St I O} (model : Model St I O) (h : list (Operation I O)) :
  ModelLaws model -> Forall completed h -> CheckOperations model h = true <-> linearizable model h.
Proof.
  intros Hlaws Hh. assert (merge_sort call_le h ≡ₚ h) as Hp by apply merge_sort_Permutation.
  rewrite <- (linearizable_perm model _ _ Hp). apply check_sorted_spec; [done|]. by rewrite Hp.
Qed.

(** C4: the checker accepts a history exactly if it is linearizable, whatever order the
    sort leaves operations of equal times in, and whether or not [Equal] prunes the search. *)
Theorem porcupine_decides_linearizability {St I O} (model : Model St I O) (h : list (Operation I O)) :
  ModelLaws model -> Forall completed h ->
  (CheckOperations model h = true <-> linearizable model h) /\
  forall ops, ops ≡ₚ h -> OK (check_sorted model ops) = CheckOperations model h.
Proof.
  intros Hlaws Hh. split; [by apply check_decides|]. intros ops Hp. apply eq_true_iff_eq.
  rewrite (proj1 (check_sorted_spec model ops ltac:(by rewrite Hp))), (linearizable_perm model _ _ Hp). symmetry. by apply check_decides.
Qed.

(** A refusal carries evidence.  There is a legal admissible prefix of the history, as
    long as any, after which every operation that is due is rejected by the model, and the
    reported operation is one of those. *)
Theorem porcupine_refusal_evidence {St I O} (model : Model St I O) (h : list (Operation I O)) :
  ModelLaws model -> Forall completed h -> CheckOperations model h = false ->
  exists pre rest op,
    Offending (CheckOperationsVerbose model h) = Some op /\
    prefix_from model (Init model) h pre rest /\
    (forall pre' rest', prefix_from model (Init model) h pre' rest' -> (length pre' <= length pre)%nat) /\
    op ∈ rest /\ (forall b, b ∈ rest -> may_precede op b) /\
    (forall a, a ∈ rest -> (forall b, b ∈ rest -> may_precede a b) -> (Step model (run model (Init model) pre) (Input a) (Output a)).1 = false).
Proof.
  intros Hlaws Hh Hno. unfold CheckOperations, CheckOperationsVerbose in *. set (ops := merge_sort call_le h) in *.
  assert (ops ≡ₚ h) as Hp by apply merge_sort_Permutation.
  assert (Forall completed ops) as Hops by (by rewrite Hp).
  destruct (proj2 (check_sorted_spec model ops Hops) Hno) as (pre & used & s & i & op & Hr & Hmax & Hstuck & Hop & Hoff).
  destruct (reached_facts _ _ _ _ _ Hr) as [Hlen _].
  destruct (follow_prefix model ops Hops _ _ _ _ _ (length_replicate _ _) Hr) as (l & Hl & Hpre & ->).
  rewrite remaining_start in Hpre. exists l, (remaining ops used), op. split; [done|].
  split; [by apply (prefix_from_perm _ _ _ _ _ _ Hp)|]. split.
  { intros pre' rest' Hpre'. apply (prefix_from_perm _ _ _ _ _ _ (symmetry Hp)) in Hpre'. rewrite <- (remaining_start ops) in Hpre'.
    destruct (prefix_follow model ops Hops _ _ _ _ (length_replicate _ _) Hpre') as (path & <- & Hf). rewrite Hl. by apply Hmax. }
  destruct Hstuck as [(op' & Hu & Hop' & Hel) Hno']. rewrite Hop in Hop'. injection Hop' as <-.
  split; [rewrite elem_of_remaining by done; by exists i|]. split.
  - assert (completed op) as [? ?] by (by eapply Forall_lookup_1). apply (eligible_iff ops used op); [lia|done].
  - intros a. apply (stuck_rejects model ops Hops used _ i Hlen). split; [by exists op|done].
Qed.

(** ** The recorder ([recorder.go])

    [Begin] and [End] first take a tick of the atomic clock and then the lock, so another
    goroutine may run between the two: the calls in flight are part of the configuration,
    and the events are the atomic steps. *)
Record partial (I : Type) := { p_client : Z; p_input : I; p_call : Z }.
Arguments Build_partial {I} _ _ _.
Arguments p_client {I} _.
Arguments p_input {I} _.
Arguments p_call {I} _.

Record Recorder (I O : Type) := { clock : Z; rec_ops : list (Operation I O); pending : gmap Z (partial I); nextTok : Z }.
Arguments Build_Recorder {I O} _ _ _ _.
Arguments clock {I O} _.
Arguments rec_ops {I O} _.
Arguments pending {I O} _.
Arguments nextTok {I O} _.

Section recorder.
Context {I O : Type}.
Implicit Types r : Recorder I O.

Definition NewRecorder : Recorder I O := Build_Recorder 0 [] ∅ 0.

Definition Recorder_tick r : Z * Recorder I O :=
  let t := i64 (clock r + 1) in (t, Build_Recorder t (rec_ops r) (pending r) (nextTok r)).

Definition Begin_locked r (p : partial I) : Z * Recorder I O :=
  let tok := nextTok r in (tok, Build_Recorder (clock r) (rec_ops r) (<[tok := p]> (pending r)) (i64 (tok + 1))).

Definition End_locked r (token : Z) (output : O) (ret : Z) : Recorder I O :=
  match pending r !! token with
  | None => r
  | Some p =>
      Build_Recorder (clock r)
        (rec_ops r ++ [{| ClientID := p_client p; Input := p_input p; Output := output; Call := p_call p; Return := ret |}])
        (delete token (pending r)) (nextTok r)
  end.

Definition Recorder_Begin r (clientID : Z) (input : I) : Z * Recorder I O :=
  let (call, r) := Recorder_tick r in Begin_locked r (Build_partial clientID input call).

Definition Recorder_End r (token : Z) (output : O) : Recorder I O :=
  let (ret, r) := Recorder_tick r in End_locked r token output ret.

Definition call_time_le (a b : Operation I O) : Prop := Call a <= Call b.
#[global] Instance call_time_le_dec a b : Decision (call_time_le a b).
Proof. unfold call_time_le. apply _. Defined.

#[global] Instance call_time_le_trans : Transitive call_time_le.
Proof. unfold call_time_le. intros a b c. lia. Qed.
#[global] Instance call_time_le_total : Total call_time_le.
Proof. unfold call_time_le. intros a b. lia. Qed.

Definition Recorder_History r : list (Operation I O) := merge_sort call_time_le (rec_ops r).

(** Goroutines between the two halves of a call. *)
Record config := { cf_rec : Recorder I O; cf_begins : gmap nat (partial I); cf_ends : gmap nat (Z * O * Z) }.

Inductive event :=
  | BeginTick (g : nat) (clientID : Z) (input : I)
  | BeginLock (g : nat)
  | EndTick (g : nat) (token : Z) (output : O)
  | EndLock (g : nat).

Definition exec (c : config) (e : event) : config :=
  match e with
  | BeginTick g client input =>
      let (t, r) := Recorder_tick (cf_rec c) in
      {| cf_rec := r; cf_begins := <[g := Build_partial client input t]> (cf_begins c); cf_ends := cf_ends c |}
  | BeginLock g =>
      match cf_begins c !! g with
      | Some p => {| cf_rec := (Begin_locked (cf_rec c) p).2; cf_begins := delete g (cf_begins c); cf_ends := cf_ends c |}
      | None => c
      end
  | EndTick g token output =>
      let (t, r) := Recorder_tick (cf_rec c) in
      {| cf_rec := r; cf_begins := cf_begins c; cf_ends := <[g := (token, output, t)]> (cf_ends c) |}
  | EndLock g =>
      match cf_ends c !! g with
      | Some (token, output, t) => {| cf_rec := End_locked (cf_rec c) token output t; cf_begins := cf_begins c; cf_ends := delete g (cf_ends c) |}
      | None => c
      end
  end.

Definition init_config : config := {| cf_rec := NewRecorder; cf_begins := ∅; cf_ends := ∅ |}.

(** Callers pass [End] a token that [Begin] has given them. *)
Definition issued (c : config) (e : event) : Prop :=
  match e with EndTick _ token _ => 0 <= token < nextTok (cf_rec c) | _ => True end.

Fixpoint valid_trace (c : config) (evs : list event) : Prop :=
  match evs with [] => True | e :: evs => issued c e /\ valid_trace (exec c e) evs end.

(** After [k] events: times lie in the past, and a call about to return was begun before it. *)
Record rec_inv (k : Z) (c : config) : Prop := {
  ri_bounds : 0 <= clock (cf_rec c) <= k /\ 0 <= nextTok (cf_rec c) <= k;
  ri_ops : Forall (fun op => 0 < Call op < Return op /\ Return op <= clock (cf_rec c)) (rec_ops (cf_rec c));
  ri_pending : forall tok p, pending (cf_rec c) !! tok = Some p -> 0 < p_call p <= clock (cf_rec c) /\ 0 <= tok < nextTok (cf_rec c);
  ri_begins : forall g p, cf_begins c !! g = Some p -> 0 < p_call p <= clock (cf_rec c);
  ri_ends : forall g tok o t, cf_ends c !! g = Some (tok, o, t) ->
    t <= clock (cf_rec c) /\ tok < nextTok (cf_rec c) /\ forall p, pending (cf_rec c) !! tok = Some p -> p_call p < t
}.

Lemma exec_inv k c e : 0 <= k < MaxInt64 - 1 -> rec_inv k c -> issued c e -> rec_inv (k + 1) (exec c e).
Proof.
  intros Hk [[Hc Hn] Hops Hpend Hbeg Hend] Hiss. destruct e as [g client input|g|g tok out|g]; cbn [exec].
  - cbn [Recorder_tick]. rewrite i64_id by int_lia. split; cbn; [lia| | | |].
    + eapply Forall_impl; [exact Hops|]. cbn. lia.
    + intros tok p Hp. specialize (Hpend tok p Hp). lia.
    + intros g' p [[<- <-]|[_ Hp]]%lookup_insert_Some; [cbn; lia|]. specialize (Hbeg g' p Hp). lia.
    + intros g' tok o t Ht. specialize (Hend g' tok o t Ht). naive_solver lia.
  - destruct (cf_begins c !! g) as [p|] eqn:Hg; [|by split; [lia|..]]. unfold Begin_locked. cbn [snd].
    rewrite i64_id by int_lia. split; cbn; [lia|done| | |].
    + intros tok q [[<- <-]|[_ Hq]]%lookup_insert_Some; [specialize (Hbeg g p Hg); lia|]. specialize (Hpend tok q Hq). lia.
    + intros g' q [_ Hq]%lookup_delete_Some. by apply (Hbeg g').
    + intros g' tok o t Ht. specialize (Hend g' tok o t Ht) as (? & ? & Hp). split; [done|]. split; [lia|].
      intros q [[? _]|[_ Hq]]%lookup_insert_Some; [lia|by apply Hp].
  - cbn [Recorder_tick]. rewrite i64_id by int_lia. split; cbn; [lia| | | |].
    + eapply Forall_impl; [exact Hops|]. cbn. lia.
    + intros tok' p Hp. specialize (Hpend tok' p Hp). lia.
    + intros g' p Hp. specialize (Hbeg g' p Hp). lia.
    + intros g' tok' o t [[_ [= <- <- <-]]|[_ Ht]]%lookup_insert_Some.
      * split; [lia|]. split; [apply Hiss|]. intros p Hp. specialize (Hpend _ p Hp). lia.
      * specialize (Hend g' tok' o t Ht). naive_solver lia.
  - destruct (cf_ends c !! g) as [[[tok out] t]|] eqn:Hg; [|by split; [lia|..]].
    destruct (Hend g tok out t Hg) as (Ht & Htok & Hp). unfold End_locked.
    destruct (pending (cf_rec c) !! tok) as [p|] eqn:Htp; split; cbn; try lia; try done.
    + apply Forall_app. split; [done|]. constructor; [|done]. cbn. specialize (Hp p eq_refl). specialize (Hpend tok p Htp). lia.
    + intros tok' q [_ Hq]%lookup_delete_Some. by apply Hpend.
    + intros g' tok' o t' [_ Ht']%lookup_delete_Some. destruct (Hend g' tok' o t' Ht') as (? & ? & Hp'). split; [done|]. split; [done|].
      intros q [_ Hq]%lookup_delete_Some. by apply Hp'.
    + intros g' tok' o t' [_ Ht']%lookup_delete_Some. by eapply (Hend g').
Qed.

Lemma trace_inv evs c k : 0 <= k -> k + Z.of_nat (length evs) < MaxInt64 -> rec_inv k c -> valid_trace c evs ->
  rec_inv (k + Z.of_nat (length evs)) (foldl exec c evs).
Proof.
  revert c k. induction evs as [|e evs IH]; intros c k Hk Hlen Hinv Hv; cbn [length foldl] in *; [by rewrite Z.add_0_r|].
  destruct Hv as [He Hv]. replace (k + Z.of_nat (S (length evs))) with ((k + 1) + Z.of_nat (length evs)) by lia.
  apply IH; [lia|lia| |done]. apply exec_inv; [lia|done|done].
Qed.

Lemma init_inv : rec_inv 0 init_config.
Proof. split; cbn; [lia|constructor|intros ? ? H; done..]. Qed.

Lemma valid_trace_app c evs evs' : valid_trace c (evs ++ evs') -> valid_trace c evs.
Proof. revert c. induction evs as [|e evs IH]; intros c; cbn; [done|]. intros [? ?]. split; [done|]. by apply IH. Qed.

End recorder.

(** Under every interleaving of calls, a recorded history consists of completed
    operations, sorted by call time; whatever is begun after an operation was recorded is
    called after its return; and checking the history decides linearizability of what was
    recorded. *)
Theorem recorder_history_wellformed {St I O} (model : Model St I O) (before after : list (event (I := I) (O := O))) :
  ModelLaws model -> valid_trace init_config (before ++ after) -> Z.of_nat (length (before ++ after)) < MaxInt64 ->
  let r := cf_rec (foldl exec init_config (before ++ after)) in
  Forall (fun op => 0 < Call op < Return op) (Recorder_History r) /\
  StronglySorted (fun a b => Call a <= Call b) (Recorder_History r) /\
  (forall op, op ∈ rec_ops (cf_rec (foldl exec init_config before)) ->
     Return op < (Recorder_tick (cf_rec (foldl exec init_config before))).1) /\
  (CheckOperations model (Recorder_History r) = true <-> linearizable model (rec_ops r)).
Proof.
  intros Hlaws Hv Hlen r. pose proof (trace_inv (before ++ after) init_config 0 ltac:(lia) ltac:(lia) init_inv Hv) as Hinv. fold r in Hinv.
  assert (Recorder_History r ≡ₚ rec_ops r) as Hp by apply merge_sort_Permutation.
  pose proof (ri_ops _ _ Hinv) as Hops. fold r in Hops. split_and!.
  - rewrite Hp. eapply Forall_impl; [exact Hops|]. cbn. tauto.
  - apply (StronglySorted_merge_sort call_time_le).
  - intros op Hin. pose proof (valid_trace_app _ _ _ Hv) as Hv'. rewrite length_app in Hlen.
    pose proof (trace_inv before init_config 0 ltac:(lia) ltac:(lia) init_inv Hv') as Hinv'. destruct Hinv' as [[Hc _] Hops' _ _ _].
    rewrite Forall_forall in Hops'. specialize (Hops' op Hin). cbn. rewrite i64_id by int_lia. lia.
  - rewrite <- (linearizable_perm model _ _ Hp). apply check_decides; [done|]. rewrite Hp. eapply Forall_impl; [exact Hops|].
    destruct (ri_bounds _ _ Hinv) as [Hc _]. fold r in Hc. unfold completed. cbn beta. intros op. lia.
Qed.

(** ** A register

    Reads return the last value written; states are compared by equality. *)
Inductive reg_input := RWrite (v : Z) | RRead.

Definition register : Model Z reg_input Z := {|
  Init := 0;
  Step := fun s i o => match i with RWrite v => (true, v) | RRead => (bool_decide (o = s), s) end;
  Equal := Some Z.eqb
|}.

#[global] Instance register_laws : ModelLaws register.
Proof. split. intros equal s1 s2 i o [= <-] ->%Z.eqb_eq. split; [done|]. apply Z.eqb_refl. Qed.

Definition op_at (input : reg_input) (output call ret : Z) : Operation reg_input Z :=
  {| ClientID := 0; Input := input; Output := output; Call := call; Return := ret |}.

(** A read that overlaps two writes may see either; a read after both may not see the first. *)
Definition overlapping : list (Operation reg_input Z) := [op_at (RWrite 1) 0 1 4; op_at (RWrite 2) 0 2 6; op_at RRead 1 3 7].
Definition stale : list (Operation reg_input Z) := [op_at (RWrite 1) 0 1 2; op_at (RWrite 2) 0 3 4; op_at RRead 1 5 6].

Lemma demo_completed : Forall completed overlapping /\ Forall completed stale.
Proof. by_eval. Qed.

Lemma porcupine_decides_witness : linearizable register overlapping /\ ~ linearizable register stale.
Proof.
  split.
  - apply (proj1 (porcupine_decides_linearizability register overlapping _ (proj1 demo_completed))). by vm_compute.
  - intros H. apply (proj1 (porcupine_decides_linearizability register stale _ (proj2 demo_completed))) in H. by vm_compute in H.
Defined.

Lemma porcupine_refusal_witness : exists pre rest op,
  Offending (CheckOperationsVerbose register stale) = Some op /\ prefix_from register 0 stale pre rest /\ op ∈ rest.
Proof.
  destruct (porcupine_refusal_evidence register stale _ (proj2 demo_completed)) as (pre & rest & op & ? & ? & _ & ? & _); [by vm_compute|].
  by exists pre, rest, op.
Defined.

(** Two goroutines whose ticks and locks interleave. *)
Definition demo_events : list (event (I := reg_input) (O := Z)) :=
  [BeginTick 0 7 (RWrite 5); BeginTick 1 8 RRead; BeginLock 1; BeginLock 0; EndTick 0 1 0; EndTick 1 0 5; EndLock 1; EndLock 0].

Lemma recorder_history_witness :
  CheckOperations register (Recorder_History (cf_rec (foldl exec init_config (demo_events ++ [])))) = true <->
  linearizable register (rec_ops (cf_rec (foldl exec init_config (demo_events ++ [])))).
Proof.
  refine (proj2 (proj2 (proj2 (recorder_history_wellformed register demo_events [] _ _ _)))).
  - by_eval.
  - by_eval.
Defined.
