(* ===== verification/WatchManager.v ===== *)
(** * The watch manager ([pkg/watchmanager])

    Mutations get consecutive revisions and are kept in an append-only store; watchers on a
    key prefix receive the matching events through bounded channels.  Synced watchers are
    fed as events happen; a watcher whose buffer is full, or which starts in the past,
    catches up by replaying the store in [Sync].

    Watchers are shared objects: the manager's heap [watchers] holds them under their IDs,
    and its three Go maps are the sets of the IDs they contain.  A channel is the list of
    events buffered in it.  The clock that stamps events is any instance of [Clock].

    The theorems: every watcher receives exactly the matching events from its start, once
    each and in revision order, under every interleaving of puts, registrations, passes and
    receptions; the three groups partition the watchers; and a watcher whose channel is
    drained is caught up after as many passes as it is owed events.  A start beyond the
    next revision is not honoured ([future_start_ignored]). *)

From S2P Require Import Prelude.
Local Open Scope Z_scope.

(** ** The program *)

Inductive Group := GroupSynced | GroupUnsynced | GroupVictim.
#[global] Instance Group_eq_dec : EqDecision Group.
Proof. solve_decision. Defined.

Definition Group_String (g : Group) : string :=
  match g with GroupSynced => "synced" | GroupUnsynced => "unsynced" | GroupVictim => "victim" end.

Class Clock (C : Type) := Tick : C -> Z * C.

Record LogicalClock := { now : Z }.
#[global] Instance LogicalClock_Tick : Clock LogicalClock := fun c => let t := i64 (now c + 1) in (t, {| now := t |}).

Record Event := { Revision : Z; Key : string; Value : string; ev_Tick : Z }.
#[global] Instance Event_eq_dec : EqDecision Event.
Proof. solve_decision. Defined.

Record Watcher := { w_ID : Z; w_Prefix : string; nextRev : Z; bufSize : Z; w_c : list Event; w_group : Group }.

Definition set_nextRev (r : Z) (w : Watcher) : Watcher :=
  {| w_ID := w_ID w; w_Prefix := w_Prefix w; nextRev := r; bufSize := bufSize w; w_c := w_c w; w_group := w_group w |}.
Definition set_c (c : list Event) (w : Watcher) : Watcher :=
  {| w_ID := w_ID w; w_Prefix := w_Prefix w; nextRev := nextRev w; bufSize := bufSize w; w_c := c; w_group := w_group w |}.
Definition set_group (g : Group) (w : Watcher) : Watcher :=
  {| w_ID := w_ID w; w_Prefix := w_Prefix w; nextRev := nextRev w; bufSize := bufSize w; w_c := w_c w; w_group := g |}.

Record Manager (C : Type) := {
  clock : C; currentRev : Z; store : list Event; nextWatcherID : Z;
  watchers : gmap Z Watcher; synced : gset Z; unsynced : gset Z; victim : gset Z
}.
Arguments Build_Manager {C} _ _ _ _ _ _ _ _.
Arguments clock {C} _.
Arguments currentRev {C} _.
Arguments store {C} _.
Arguments nextWatcherID {C} _.
Arguments watchers {C} _.
Arguments synced {C} _.
Arguments unsynced {C} _.
Arguments victim {C} _.

(** A non-blocking send into a channel of capacity [bufSize]. *)
Definition Manager_trySend (w : Watcher) (ev : Event) : option Watcher :=
  if decide (Z.of_nat (length (w_c w)) < bufSize w) then Some (set_c (w_c w ++ [ev]) w) else None.

Definition HasPrefix (s prefix : string) : bool := String.prefix prefix s.

Definition indexAtOrAfter (st : list Event) (rev : Z) : nat :=
  sort_Search (length st) (fun i => match st !! i with Some ev => bool_decide (Revision ev >= rev) | None => false end).

(** The replay loop of [Sync]: the watcher afterwards, whether it overflowed, and how many
    events it was sent. *)
Fixpoint replay (w : Watcher) (evs : list Event) (delivered : Z) : Watcher * bool * Z :=
  match evs with
  | [] => (w, false, delivered)
  | ev :: evs =>
      if negb (HasPrefix (Key ev) (w_Prefix w)) then replay (set_nextRev (i64 (Revision ev + 1)) w) evs delivered
      else match Manager_trySend w ev with
           | None => (w, true, delivered)
           | Some w => replay (set_nextRev (i64 (Revision ev + 1)) w) evs (i64 (delivered + 1))
           end
  end.

Section manager.
Context {C : Type} `{Clock C}.
Implicit Types m : Manager C.

Definition New (clk : C) : Manager C := Build_Manager clk 0 [] 0 ∅ ∅ ∅ ∅.

Definition Manager_CurrentRevision m : Z := currentRev m.

(** One iteration of the fan-out loop of [Put]. *)
Definition fan_out (ev : Event) m (id : Z) : Manager C :=
  match watchers m !! id with
  | None => m
  | Some w =>
      let put w' := Build_Manager (clock m) (currentRev m) (store m) (nextWatcherID m) (<[id := w']> (watchers m)) in
      if negb (HasPrefix (Key ev) (w_Prefix w))
      then put (set_nextRev (i64 (Revision ev + 1)) w) (synced m) (unsynced m) (victim m)
      else match Manager_trySend w ev with
           | None => put (set_group GroupUnsynced w) (synced m ∖ {[id]}) ({[id]} ∪ unsynced m) (victim m)
           | Some w' => put (set_nextRev (i64 (Revision ev + 1)) w') (synced m) (unsynced m) (victim m)
           end
  end.

Definition Manager_Put m (key value : string) : Z * Manager C :=
  let rev := i64 (currentRev m + 1) in
  let (t, clk) := Tick (clock m) in
  let ev := {| Revision := rev; Key := key; Value := value; ev_Tick := t |} in
  let m := Build_Manager clk rev (store m ++ [ev]) (nextWatcherID m) (watchers m) (synced m) (unsynced m) (victim m) in
  (rev, foldl (fan_out ev) m (elements (synced m))).

Definition Manager_Watch m (prefix : string) (fromRev bufsize : Z) : Z * Manager C :=
  let bufsize := if decide (bufsize < 1) then 1 else bufsize in
  let fromRev := if decide (fromRev < 1) then 1 else fromRev in
  let id := i64 (nextWatcherID m + 1) in
  let live := bool_decide (fromRev > currentRev m) in
  let w := {| w_ID := id; w_Prefix := prefix; nextRev := fromRev; bufSize := bufsize; w_c := [];
              w_group := if live then GroupSynced else GroupUnsynced |} in
  (id, Build_Manager (clock m) (currentRev m) (store m) id (<[id := w]> (watchers m))
         (if live then {[id]} ∪ synced m else synced m) (if live then unsynced m else {[id]} ∪ unsynced m) (victim m)).

Definition Manager_GroupOf m (id : Z) : option Group := w_group <$> watchers m !! id.

Definition Manager_Counts m : Z * Z * Z :=
  (Z.of_nat (size (synced m)), Z.of_nat (size (unsynced m)), Z.of_nat (size (victim m))).

(** One watcher's turn in [Sync]. *)
Definition sync_one (md : Manager C * Z) (id : Z) : Manager C * Z :=
  let (m, delivered) := md in
  if decide (id ∈ unsynced m \/ id ∈ victim m) then
    match watchers m !! id with
    | None => (m, delivered)
    | Some w =>
        let '(w, overflowed, delivered) := replay w (drop (indexAtOrAfter (store m) (nextRev w)) (store m)) delivered in
        let uns := unsynced m ∖ {[id]} in
        let vic := victim m ∖ {[id]} in
        let put w' := Build_Manager (clock m) (currentRev m) (store m) (nextWatcherID m) (<[id := w']> (watchers m)) in
        (if overflowed : bool then put (set_group GroupVictim w) (synced m) uns ({[id]} ∪ vic)
         else if decide (nextRev w > currentRev m) then put (set_group GroupSynced w) ({[id]} ∪ synced m) uns vic
         else put (set_group GroupUnsynced w) (synced m) ({[id]} ∪ uns) vic, delivered)
    end
  else (m, delivered).

Definition Manager_Sync m : Z * Manager C :=
  let ids := merge_sort Z.le (elements (unsynced m) ++ elements (victim m)) in
  let (m, delivered) := foldl sync_one (m, 0) ids in (delivered, m).

(** A receive on the watcher's channel, by its owner. *)
Definition receive m (id : Z) : option Event * Manager C :=
  match watchers m !! id with
  | Some w =>
      match w_c w with
      | [] => (None, m)
      | ev :: c => (Some ev, Build_Manager (clock m) (currentRev m) (store m) (nextWatcherID m)
                               (<[id := set_c c w]> (watchers m)) (synced m) (unsynced m) (victim m))
      end
  | None => (None, m)
  end.

End manager.

(** ** One watcher

    [wanted p s]: the events a watcher on prefix [p] from revision [s] is to receive.  A
    watcher that has taken [g] from its channel has been sent exactly the wanted events
    below [nextRev]. *)
Definition wanted (p : string) (s : Z) (ev : Event) : Prop := HasPrefix (Key ev) p = true /\ s <= Revision ev.
#[global] Instance wanted_dec p s ev : Decision (wanted p s ev).
Proof. unfold wanted. apply _. Defined.

Definition numbered (st : list Event) : Prop := forall i ev, st !! i = Some ev -> Revision ev = Z.of_nat i + 1.

Definition sent (st : list Event) (p : string) (s upto : Z) : list Event := filter (wanted p s) (take (Z.to_nat (upto - 1)) st).

Record watch_ok (st : list Event) (p : string) (s : Z) (g : list Event) (w : Watcher) : Prop := {
  wo_prefix : w_Prefix w = p;
  wo_start : 1 <= s <= nextRev w;
  wo_sent : g ++ w_c w = sent st p s (nextRev w);
  wo_buffer : Z.of_nat (length (w_c w)) <= bufSize w /\ 1 <= bufSize w;
  wo_group : match w_group w with
             | GroupSynced => nextRev w = Z.of_nat (length st) + 1 \/ s = Z.of_nat (length st) + 1
             | _ => nextRev w <= Z.of_nat (length st)
             end
}.

Lemma sent_step st p s k ev :
  numbered st -> st !! k = Some ev -> s <= Z.of_nat k + 1 ->
  sent st p s (Z.of_nat k + 2) = sent st p s (Z.of_nat k + 1) ++ (if HasPrefix (Key ev) p then [ev] else []).
Proof.
  intros Hnum Hk Hs. unfold sent. replace (Z.to_nat (Z.of_nat k + 2 - 1)) with (S k) by lia.
  replace (Z.to_nat (Z.of_nat k + 1 - 1)) with k by lia. rewrite (take_S_r _ _ _ Hk), filter_app. f_equal.
  rewrite filter_cons, filter_nil. pose proof (Hnum k ev Hk). destruct (HasPrefix (Key ev) p) eqn:Hp.
  - rewrite decide_True; [done|]. split; [done|lia].
  - rewrite decide_False; [done|]. intros [? _]. congruence.
Qed.

Lemma sent_app st ev p s upto : upto <= Z.of_nat (length st) + 1 -> sent (st ++ [ev]) p s upto = sent st p s upto.
Proof. intros Hle. unfold sent. f_equal. apply take_app_le. lia. Qed.

Lemma sent_early st p s upto : numbered st -> Z.min (Z.of_nat (length st)) (upto - 1) < s -> sent st p s upto = [].
Proof.
  intros Hnum Hs. unfold sent. destruct (filter (wanted p s) _) as [|ev l] eqn:Hf; [done|].
  assert (ev ∈ filter (wanted p s) (take (Z.to_nat (upto - 1)) st)) as [[_ Hrev] Hin]%list_elem_of_filter by (rewrite Hf; by left).
  apply elem_of_take in Hin as (i & Hi & Hlt). pose proof (lookup_lt_Some _ _ _ Hi). rewrite (Hnum i ev Hi) in Hrev. lia.
Qed.

Lemma numbered_snoc st ev : numbered st -> Revision ev = Z.of_nat (length st) + 1 -> numbered (st ++ [ev]).
Proof.
  intros Hnum Hev i e [Hi|[Hlen Hi]]%lookup_app_Some; [by apply Hnum|].
  apply list_lookup_singleton_Some in Hi as [Hz <-]. lia.
Qed.

(** What the fan-out does to a watcher. *)
Definition live (ev : Event) (w : Watcher) : Watcher :=
  if negb (HasPrefix (Key ev) (w_Prefix w)) then set_nextRev (i64 (Revision ev + 1)) w
  else match Manager_trySend w ev with
       | None => set_group GroupUnsynced w
       | Some w' => set_nextRev (i64 (Revision ev + 1)) w'
       end.

Lemma live_ok st ev p s g w :
  numbered st -> Revision ev = Z.of_nat (length st) + 1 -> Revision ev < MaxInt64 ->
  w_group w = GroupSynced -> watch_ok st p s g w -> watch_ok (st ++ [ev]) p s g (live ev w).
Proof.
  intros Hnum Hev Hmax Hg [Hp Hs Hsent Hbuf Hgrp]. rewrite Hg in Hgrp.
  assert (numbered (st ++ [ev])) as Hnum' by (by apply numbered_snoc).
  assert ((st ++ [ev]) !! length st = Some ev) as Hlast by (rewrite lookup_app_r, Nat.sub_diag by lia; done).
  (* what was sent so far is what is wanted up to the new revision *)
  assert (g ++ w_c w = sent (st ++ [ev]) p s (Z.of_nat (length st) + 1)) as Hsofar.
  { rewrite sent_app by lia. rewrite Hsent. destruct Hgrp as [->| ->]; [done|]. by rewrite !sent_early by (done || lia). }
  assert (s <= Z.of_nat (length st) + 1) as Hs' by lia.
  assert (i64 (Revision ev + 1) = Z.of_nat (length st) + 2) as Hnext by (rewrite i64_id; int_lia).
  pose proof (sent_step _ p s _ _ Hnum' Hlast Hs') as Hstep. unfold live. rewrite Hp.
  destruct (HasPrefix (Key ev) p) eqn:Hmatch; cbn [negb]; [|split; cbn; rewrite ?Hnext, ?Hg, ?length_app; cbn [length]; try done; try lia].
  - unfold Manager_trySend. case_decide as Hroom.
    + split; cbn; rewrite ?Hnext, ?Hg, ?length_app; cbn [length]; try done; try lia.
      rewrite Hstep, app_assoc, Hsofar. done.
    + (* a full buffer is not that of a watcher waiting for its first event *)
      assert (nextRev w = Z.of_nat (length st) + 1) as Hnr.
      { destruct Hgrp as [?|Heq]; [done|]. rewrite sent_early in Hsent by (done || lia).
        apply app_eq_nil in Hsent as [_ Hc]. rewrite Hc in Hroom. cbn in Hroom. lia. }
      split; cbn; rewrite ?Hnr, ?length_app; cbn [length]; try done; try lia.
  - rewrite Hstep, app_nil_r. done.
Qed.

Lemma idle_ok st ev p s g w : w_group w <> GroupSynced -> watch_ok st p s g w -> watch_ok (st ++ [ev]) p s g w.
Proof.
  intros Hg [Hp Hs Hsent Hbuf Hgrp]. assert (nextRev w <= Z.of_nat (length st)) by (by destruct (w_group w)).
  split; try done; [rewrite sent_app by lia; done|]. rewrite length_app. destruct (w_group w); [done|lia..].
Qed.

(** What a turn of [Sync] does to a watcher that is behind. *)
Lemma indexAtOrAfter_numbered st rev : numbered st -> 1 <= rev <= Z.of_nat (length st) + 1 -> indexAtOrAfter st rev = Z.to_nat (rev - 1).
Proof.
  intros Hnum Hrev. unfold indexAtOrAfter. set (f := fun i => _).
  assert (forall i, (i < length st)%nat -> f i = bool_decide (Z.to_nat (rev - 1) <= i)%nat) as Hf.
  { intros i Hi. apply lookup_lt_is_Some in Hi as [ev Hev]. unfold f. rewrite Hev, (Hnum i ev Hev). apply bool_decide_ext. lia. }
  destruct (sort_Search_spec (length st) f) as (Hle & Hlo & Hhi).
  { intros i j Hij Hj. rewrite !Hf, !bool_decide_eq_true by lia. lia. }
  set (r := sort_Search (length st) f) in *. destruct (lt_eq_lt_dec r (Z.to_nat (rev - 1))) as [[Hlt|Heq]|Hgt]; [|done|].
  - specialize (Hhi r ltac:(lia)). rewrite Hf, bool_decide_eq_true in Hhi by lia. lia.
  - specialize (Hlo (Z.to_nat (rev - 1)) Hgt). rewrite Hf, bool_decide_eq_false in Hlo by lia. lia.
Qed.

Lemma replay_ok st p s g k w d :
  numbered st -> Z.of_nat (length st) < MaxInt64 -> (k <= length st)%nat ->
  w_Prefix w = p -> 1 <= s <= nextRev w -> nextRev w = Z.of_nat k + 1 -> g ++ w_c w = sent st p s (nextRev w) ->
  Z.of_nat (length (w_c w)) <= bufSize w /\ 1 <= bufSize w ->
  let '(w', over, _) := replay w (drop k st) d in
  w_Prefix w' = p /\ bufSize w' = bufSize w /\ s <= nextRev w' /\ g ++ w_c w' = sent st p s (nextRev w') /\
  Z.of_nat (length (w_c w')) <= bufSize w' /\ nextRev w <= nextRev w' /\
  if over : bool then nextRev w' <= Z.of_nat (length st) /\ Z.of_nat (length (w_c w')) = bufSize w'
  else nextRev w' = Z.of_nat (length st) + 1.
Proof.
  intros Hnum Hmax. remember (length st - k)%nat as n eqn:Hn. revert k w d Hn.
  induction n as [|n IH]; intros k w d Hn Hk Hp Hs Hnr Hsent Hbuf.
  { rewrite drop_ge by lia. cbn. split_and!; try done; lia. }
  destruct (lookup_lt_is_Some_2 st k) as [ev Hev]; [lia|]. rewrite (drop_S _ _ _ Hev). cbn [replay].
  pose proof (sent_step st p s k ev Hnum Hev ltac:(lia)) as Hstep.
  assert (i64 (Revision ev + 1) = Z.of_nat (S k) + 1) as Hnext by (rewrite (Hnum k ev Hev), i64_id; int_lia).
  replace (Z.of_nat k + 2) with (Z.of_nat (S k) + 1) in Hstep by lia. rewrite Hp.
  destruct (HasPrefix (Key ev) p) eqn:Hmatch; cbn [negb].
  - unfold Manager_trySend. case_decide as Hroom; [|split_and!; try done; lia].
    pose proof (IH (S k) (set_nextRev (i64 (Revision ev + 1)) (set_c (w_c w ++ [ev]) w)) (i64 (d + 1))) as IHk.
    destruct (replay _ (drop (S k) st) _) as [[w' over] d']. cbn in IHk. rewrite Hnext, length_app in IHk. cbn [length] in IHk.
    destruct IHk as (? & ? & ? & ? & ? & ? & ?); try done; try lia.
    { rewrite app_assoc, Hsent, Hnr, Hstep. done. }
    split_and!; try done; lia.
  - pose proof (IH (S k) (set_nextRev (i64 (Revision ev + 1)) w) d) as IHk.
    destruct (replay _ (drop (S k) st) _) as [[w' over] d']. cbn in IHk. rewrite Hnext in IHk.
    destruct IHk as (? & ? & ? & ? & ? & ? & ?); try done; try lia.
    { rewrite Hsent, Hnr, Hstep, app_nil_r. done. }
    split_and!; try done; lia.
Qed.

Definition catch_up (st : list Event) (cur : Z) (w : Watcher) : Watcher :=
  let '(w, overflowed, _) := replay w (drop (indexAtOrAfter st (nextRev w)) st) 0 in
  set_group (if overflowed : bool then GroupVictim else if decide (nextRev w > cur) then GroupSynced else GroupUnsynced) w.

Lemma replay_delivered w evs d : (replay w evs d).1 = (replay w evs 0).1.
Proof.
  generalize 0 as d'. intros d'. revert w d d'. induction evs as [|ev evs IH]; intros w d d'; cbn [replay]; [done|].
  destruct (negb _); [apply IH|]. destruct (Manager_trySend w ev); [apply IH|done].
Qed.

Lemma catch_up_ok st p s g w :
  numbered st -> Z.of_nat (length st) < MaxInt64 -> w_group w <> GroupSynced -> watch_ok st p s g w ->
  let w' := catch_up st (Z.of_nat (length st)) w in
  watch_ok st p s g w' /\ bufSize w' = bufSize w /\
  (w_group w' = GroupSynced /\ nextRev w' = Z.of_nat (length st) + 1 \/ w_group w' = GroupVictim /\ Z.of_nat (length (w_c w')) = bufSize w').
Proof.
  intros Hnum Hmax Hg [Hp Hs Hsent Hbuf Hgrp].
  assert (nextRev w <= Z.of_nat (length st)) as Hle by (by destruct (w_group w)). unfold catch_up.
  rewrite indexAtOrAfter_numbered by (done || lia).
  pose proof (replay_ok st p s g (Z.to_nat (nextRev w - 1)) w 0 Hnum Hmax ltac:(lia) Hp Hs ltac:(lia) Hsent Hbuf) as Hr.
  destruct (replay _ _ _) as [[w' over] d']. destruct Hr as (Hp' & Hb' & Hs' & Hsent' & Hc' & Hnr' & Hover). destruct over.
  - destruct Hover as [Hlt Hfull]. split; [split; cbn; try done; lia|]. cbn. split; [done|]. by right.
  - rewrite decide_True by lia. split; [split; cbn; try done; try lia; by left|]. cbn. split; [done|]. by left.
Qed.

(** ** The manager

    The Go maps mirror the groups of the watchers they hold. *)
Section invariant.
Context {C : Type} `{Clock C}.
Implicit Types m : Manager C.

Definition mirrors m : Prop := forall id,
  (id ∈ synced m <-> Manager_GroupOf m id = Some GroupSynced) /\
  (id ∈ unsynced m <-> Manager_GroupOf m id = Some GroupUnsynced) /\
  (id ∈ victim m <-> Manager_GroupOf m id = Some GroupVictim).

Definition same_store m m' : Prop := clock m' = clock m /\ currentRev m' = currentRev m /\ store m' = store m /\ nextWatcherID m' = nextWatcherID m.

Lemma mirrors_insert m id w' (S U V : gset Z) :
  mirrors m ->
  (forall i, i <> id -> (i ∈ S <-> i ∈ synced m) /\ (i ∈ U <-> i ∈ unsynced m) /\ (i ∈ V <-> i ∈ victim m)) ->
  (id ∈ S <-> w_group w' = GroupSynced) -> (id ∈ U <-> w_group w' = GroupUnsynced) -> (id ∈ V <-> w_group w' = GroupVictim) ->
  mirrors (Build_Manager (clock m) (currentRev m) (store m) (nextWatcherID m) (<[id := w']> (watchers m)) S U V).
Proof.
  intros Hm Hframe HS HU HV i. unfold Manager_GroupOf. cbn. destruct (decide (i = id)) as [->|Hne].
  - rewrite lookup_insert_eq. cbn. rewrite HS, HU, HV. split_and!; split; congruence.
  - rewrite lookup_insert_ne by done. destruct (Hframe i Hne) as (-> & -> & ->). apply Hm.
Qed.

Lemma mirrors_group m id w : mirrors m -> watchers m !! id = Some w ->
  (id ∈ synced m <-> w_group w = GroupSynced) /\ (id ∈ unsynced m <-> w_group w = GroupUnsynced) /\ (id ∈ victim m <-> w_group w = GroupVictim).
Proof. intros Hm Hw. destruct (Hm id) as (HS & HU & HV). unfold Manager_GroupOf in *. rewrite Hw in *. cbn in *. rewrite HS, HU, HV. split_and!; split; congruence. Qed.

Lemma fan_out_step ev m id w :
  mirrors m -> watchers m !! id = Some w -> w_group w = GroupSynced ->
  mirrors (fan_out ev m id) /\ same_store m (fan_out ev m id) /\ watchers (fan_out ev m id) = <[id := live ev w]> (watchers m).
Proof.
  intros Hm Hw Hg. destruct (mirrors_group m id w Hm Hw) as (HS & HU & HV). rewrite Hg in HS, HU, HV.
  unfold fan_out, live, Manager_trySend. rewrite Hw. destruct (negb _); [|case_decide];
    (split; [apply mirrors_insert; [done|set_solver|cbn; rewrite ?Hg; set_solver..]|by split_and!]).
Qed.

Lemma fan_out_loop ev m l :
  mirrors m -> NoDup l -> (forall i, i ∈ l -> Manager_GroupOf m i = Some GroupSynced) ->
  let m' := foldl (fan_out ev) m l in
  mirrors m' /\ same_store m m' /\ forall i, watchers m' !! i = if decide (i ∈ l) then live ev <$> watchers m !! i else watchers m !! i.
Proof.
  intros Hm Hnd Hl. revert m Hm Hl. induction Hnd as [|id l Hid Hnd IH]; intros m Hm Hl; cbn.
  { split; [done|]. split; [done|]. done. }
  assert (exists w, watchers m !! id = Some w /\ w_group w = GroupSynced) as (w & Hw & Hg).
  { specialize (Hl id ltac:(by left)). unfold Manager_GroupOf in Hl. destruct (watchers m !! id) as [w|]; [|done]. exists w. by simplify_eq/=. }
  destruct (fan_out_step ev m id w Hm Hw Hg) as (Hm1 & (E1 & E2 & E3 & E4) & Hw1).
  destruct (IH (fan_out ev m id) Hm1) as (Hm' & (F1 & F2 & F3 & F4) & Hw').
  { intros i Hi. unfold Manager_GroupOf. rewrite Hw1, lookup_insert_ne by (intros ->; done). apply Hl. by right. }
  split; [done|]. split; [by split_and!; congruence|]. intros i. rewrite Hw', Hw1.
  destruct (decide (i = id)) as [->|Hne].
  - rewrite (decide_False (P := id ∈ l)), decide_True, lookup_insert_eq, Hw by (done || by left). done.
  - rewrite lookup_insert_ne by done. destruct (decide (i ∈ l)).
    + by rewrite decide_True by (by right).
    + rewrite decide_False; [done|]. by intros [?|?]%elem_of_cons.
Qed.

(** The order in which [Put] ranges over the synced watchers does not matter. *)
Lemma fan_out_order ev m l l' :
  mirrors m -> NoDup l -> (forall i, i ∈ l -> Manager_GroupOf m i = Some GroupSynced) -> l ≡ₚ l' ->
  foldl (fan_out ev) m l = foldl (fan_out ev) m l'.
Proof.
  intros Hm Hnd Hl Hp. destruct (fan_out_loop ev m l Hm Hnd Hl) as (M1 & (E1 & E2 & E3 & E4) & W1).
  destruct (fan_out_loop ev m l') as (M2 & (F1 & F2 & F3 & F4) & W2); [done|by rewrite <- Hp|intros i Hi; apply Hl; by rewrite Hp|].
  assert (watchers (foldl (fan_out ev) m l) = watchers (foldl (fan_out ev) m l')) as HW.
  { apply map_eq. intros i. rewrite W1, W2. apply decide_ext. by rewrite Hp. }
  destruct (foldl (fan_out ev) m l) as [c r st n W S U V], (foldl (fan_out ev) m l') as [c' r' st' n' W' S' U' V'].
  cbn in *. subst. f_equal; apply set_eq; intros i; destruct (M1 i) as (A & B & D), (M2 i) as (A' & B' & D');
    unfold Manager_GroupOf in *; cbn in *; [by rewrite A, A'|by rewrite B, B'|by rewrite D, D'].
Qed.

Lemma sync_one_step m d id w :
  mirrors m -> watchers m !! id = Some w -> w_group w <> GroupSynced ->
  let m' := (sync_one (m, d) id).1 in
  mirrors m' /\ same_store m m' /\ watchers m' = <[id := catch_up (store m) (currentRev m) w]> (watchers m).
Proof.
  intros Hm Hw Hg. destruct (mirrors_group m id w Hm Hw) as (HS & HU & HV). cbn [sync_one].
  rewrite decide_True by (destruct (w_group w); [done|left; by apply HU|right; by apply HV]). rewrite Hw. unfold catch_up.
  pose proof (replay_delivered w (drop (indexAtOrAfter (store m) (nextRev w)) (store m)) d) as Hd.
  destruct (replay w _ d) as [[w1 o1] d1]. destruct (replay w _ 0) as [[w2 o2] d2]. cbn in Hd. simplify_eq.
  destruct o2; [|case_decide]; cbn [fst];
    (split; [apply mirrors_insert; [done|set_solver|cbn; destruct (w_group w); set_solver..]|by split_and!]).
Qed.

Lemma sync_loop m d l :
  mirrors m -> NoDup l -> (forall i, i ∈ l -> exists w, watchers m !! i = Some w /\ w_group w <> GroupSynced) ->
  let m' := (foldl sync_one (m, d) l).1 in
  mirrors m' /\ same_store m m' /\
  forall i, watchers m' !! i = if decide (i ∈ l) then catch_up (store m) (currentRev m) <$> watchers m !! i else watchers m !! i.
Proof.
  intros Hm Hnd Hl. revert m d Hm Hl. induction Hnd as [|id l Hid Hnd IH]; intros m d Hm Hl; cbn [foldl].
  { split; [done|]. split; [done|]. done. }
  destruct (Hl id ltac:(by left)) as (w & Hw & Hg).
  destruct (sync_one_step m d id w Hm Hw Hg) as (Hm1 & (E1 & E2 & E3 & E4) & Hw1).
  destruct (sync_one (m, d) id) as [m1 d1]. cbn [fst] in *.
  destruct (IH m1 d1 Hm1) as (Hm' & (F1 & F2 & F3 & F4) & Hw').
  { intros i Hi. rewrite Hw1, lookup_insert_ne by (intros ->; done). apply Hl. by right. }
  split; [done|]. split; [by split_and!; congruence|]. intros i. rewrite Hw', Hw1, E2, E3.
  destruct (decide (i = id)) as [->|Hne].
  - rewrite (decide_False (P := id ∈ l)), decide_True, lookup_insert_eq, Hw by (done || by left). done.
  - rewrite lookup_insert_ne by done. destruct (decide (i ∈ l)).
    + by rewrite decide_True by (by right).
    + rewrite decide_False; [done|]. by intros [?|?]%elem_of_cons.
Qed.

Lemma Put_spec m key value :
  mirrors m ->
  let ev := {| Revision := i64 (currentRev m + 1); Key := key; Value := value; ev_Tick := (Tick (clock m)).1 |} in
  let m' := (Manager_Put m key value).2 in
  mirrors m' /\ currentRev m' = Revision ev /\ store m' = store m ++ [ev] /\ nextWatcherID m' = nextWatcherID m /\
  forall i, watchers m' !! i = (fun w => if decide (w_group w = GroupSynced) then live ev w else w) <$> watchers m !! i.
Proof.
  intros Hm. cbn zeta. unfold Manager_Put. destruct (Tick (clock m)) as [t clk]. cbn [snd fst synced]. set (ev := {| Revision := _ |}).
  set (m1 := Build_Manager _ _ _ _ _ _ _ _). assert (mirrors m1) as Hm1 by (intros id; apply Hm).
  destruct (fan_out_loop ev m1 (elements (synced m)) Hm1) as (Hm' & (_ & E2 & E3 & E4) & Hw); [apply NoDup_elements| |].
  { intros i Hi%elem_of_elements. by apply Hm. }
  split_and!; try done. intros i. rewrite Hw. cbn. destruct (watchers m !! i) as [w|] eqn:Hi; [|by case_decide]. cbn.
  destruct (mirrors_group m i w Hm Hi) as (HS & _). destruct (decide (i ∈ elements _)) as [Hin|Hin];
    rewrite elem_of_elements, HS in Hin; case_decide; done.
Qed.

Lemma Sync_spec m :
  mirrors m ->
  let m' := (Manager_Sync m).2 in
  mirrors m' /\ same_store m m' /\
  forall i, watchers m' !! i = (fun w => if decide (w_group w = GroupSynced) then w else catch_up (store m) (currentRev m) w) <$> watchers m !! i.
Proof.
  intros Hm. cbn zeta. unfold Manager_Sync. set (l := merge_sort _ _).
  assert (l ≡ₚ elements (unsynced m) ++ elements (victim m)) as Hp by apply merge_sort_Permutation.
  assert (forall i, i ∈ l <-> i ∈ unsynced m \/ i ∈ victim m) as Hl.
  { intros i. rewrite Hp, elem_of_app, !elem_of_elements. done. }
  destruct (sync_loop m 0 l Hm) as (Hm' & Hst & Hw).
  - rewrite Hp. apply NoDup_app. split_and!; [apply NoDup_elements| |apply NoDup_elements].
    intros i Hu%elem_of_elements Hv%elem_of_elements. destruct (Hm i) as (_ & HU & HV). apply HU in Hu. apply HV in Hv. congruence.
  - intros i [Hi|Hi]%Hl; apply Hm in Hi; unfold Manager_GroupOf in Hi; destruct (watchers m !! i) as [w|]; try done;
      exists w; simplify_eq/=; split; [done|congruence|done|congruence].
  - destruct (foldl sync_one (m, 0) l) as [m' d']. cbn [snd fst] in *. split; [done|]. split; [done|]. intros i. rewrite Hw.
    destruct (watchers m !! i) as [w|] eqn:Hi; [|by case_decide]. cbn.
    destruct (mirrors_group m i w Hm Hi) as (HS & HU & HV). destruct (w_group w) eqn:Hg; rewrite ?(decide_True (P := _ = _)), ?(decide_False (P := _ = _)) by done.
    + rewrite decide_False; [done|]. rewrite Hl. intros [?%HU|?%HV]; done.
    + by rewrite decide_True by (apply Hl; left; by apply HU).
    + by rewrite decide_True by (apply Hl; right; by apply HV).
Qed.

(** ** Histories

    A run of the manager together with what its clients see: [reg] is what each watcher was
    registered with (its prefix and the revision it asked to start from) and the current
    revision at that time, [got] what its owner has received. *)
Record world := { mgr : Manager C; reg : gmap Z (string * Z * Z); got : gmap Z (list Event) }.

Inductive op := OpPut (key value : string) | OpWatch (prefix : string) (fromRev bufsize : Z) | OpSync | OpRecv (id : Z).

(** The first revision a registration made at revision [rev] is sent.  Revisions start at
    1, so this is [fromRev] if [fromRev <= rev + 1] ([wanted_start]); a later start is not
    honoured by the code ([future_start_ignored]). *)
Definition watch_start (rev fromRev : Z) : Z := Z.max 1 (Z.min fromRev (rev + 1)).

Definition step (w : world) (o : op) : world :=
  match o with
  | OpPut key value => {| mgr := (Manager_Put (mgr w) key value).2; reg := reg w; got := got w |}
  | OpWatch prefix fromRev bufsize =>
      let (id, m) := Manager_Watch (mgr w) prefix fromRev bufsize in
      {| mgr := m; reg := <[id := (prefix, fromRev, currentRev (mgr w))]> (reg w); got := <[id := []]> (got w) |}
  | OpSync => {| mgr := (Manager_Sync (mgr w)).2; reg := reg w; got := got w |}
  | OpRecv id =>
      match receive (mgr w) id with
      | (Some ev, m) => {| mgr := m; reg := reg w; got := <[id := default [] (got w !! id) ++ [ev]]> (got w) |}
      | (None, m) => {| mgr := m; reg := reg w; got := got w |}
      end
  end.

Definition begin_world (clk : C) : world := {| mgr := New clk; reg := ∅; got := ∅ |}.

Definition received (w : world) (id : Z) : list Event := default [] (got w !! id).

Record world_inv (k : Z) (w : world) : Prop := {
  in_rev : currentRev (mgr w) = Z.of_nat (length (store (mgr w))) /\ currentRev (mgr w) <= k;
  in_ids : 0 <= nextWatcherID (mgr w) <= k /\ forall id, is_Some (reg w !! id) -> 1 <= id <= nextWatcherID (mgr w);
  in_store : numbered (store (mgr w));
  in_mirrors : mirrors (mgr w);
  in_watch : forall id, match watchers (mgr w) !! id, reg w !! id with
             | Some wt, Some (p, fromRev, rev) => watch_ok (store (mgr w)) p (watch_start rev fromRev) (received w id) wt
             | None, None => True
             | _, _ => False
             end
}.

Lemma begin_inv clk : world_inv 0 (begin_world clk).
Proof.
  split; cbn; [done| |by intros i ev|intros id; unfold Manager_GroupOf; cbn; rewrite lookup_empty; set_solver|intros id; by rewrite !lookup_empty].
  split; [done|]. intros id. rewrite lookup_empty. by intros [? ?].
Qed.

Lemma put_inv k w key value : 0 <= k < MaxInt64 - 1 -> world_inv k w -> world_inv (k + 1) (step w (OpPut key value)).
Proof.
  intros Hk [[Hrev Hmax] [Hid Hids] Hnum Hm Hw]. cbn [step].
  destruct (Put_spec (mgr w) key value Hm) as (Hm' & Hrev' & Hst' & Hid' & Hw'). set (ev := {| Revision := _ |}) in *.
  assert (Revision ev = Z.of_nat (length (store (mgr w))) + 1) as Hev by (cbn; rewrite i64_id; int_lia).
  split; cbn [mgr reg got].
  - rewrite Hrev', Hst', length_app. cbn [length]. lia.
  - rewrite Hid'. split; [lia|done].
  - rewrite Hst'. by apply numbered_snoc.
  - done.
  - intros id. specialize (Hw id). rewrite Hw', Hst'. destruct (watchers (mgr w) !! id) as [wt|]; cbn; [|done].
    destruct (reg w !! id) as [[[p f] r]|]; [|done]. case_decide; [|by apply idle_ok]. apply live_ok; [done|done|int_lia|done|done].
Qed.

Lemma watch_inv k w prefix fromRev bufsize :
  0 <= k < MaxInt64 - 1 -> world_inv k w -> world_inv (k + 1) (step w (OpWatch prefix fromRev bufsize)).
Proof.
  intros Hk [[Hrev Hmax] [Hid Hids] Hnum Hm Hw]. cbn [step Manager_Watch].
  set (m := mgr w) in *. set (id := i64 (nextWatcherID m + 1)).
  assert (id = nextWatcherID m + 1) as Hnew by (unfold id; rewrite i64_id; int_lia).
  assert (reg w !! id = None) as Hfresh.
  { destruct (reg w !! id) eqn:Hr; [|done]. specialize (Hids id ltac:(by eexists)). lia. }
  assert (watchers m !! id = None) as Hfresh'.
  { specialize (Hw id). rewrite Hfresh in Hw. by destruct (watchers m !! id). }
  assert (id ∉ synced m /\ id ∉ unsynced m /\ id ∉ victim m) as (HS & HU & HV).
  { destruct (Hm id) as (A & B & D). unfold Manager_GroupOf in *. rewrite Hfresh' in *. cbn in *. rewrite A, B, D. split_and!; done. }
  split; cbn [mgr reg got currentRev store nextWatcherID].
  - lia.
  - split; [lia|]. intros i [? [[<- _]|[_ Hi]]%lookup_insert_Some]; [lia|]. specialize (Hids i ltac:(by eexists)). lia.
  - done.
  - apply mirrors_insert; [done|case_bool_decide; set_solver|cbn; case_bool_decide; set_solver..].
  - intros i. unfold received. cbn [got watchers reg]. destruct (decide (i = id)) as [->|Hne].
    + rewrite !lookup_insert_eq. cbn beta iota. unfold watch_start. fold m.
      assert (0 <= currentRev m) by lia.
      split; cbn; [done|repeat case_decide; lia| |case_decide; lia|].
      * rewrite sent_early; [done|done|]. repeat case_decide; lia.
      * repeat case_decide; case_bool_decide; lia.
    + rewrite !lookup_insert_ne by done. apply (Hw i).
Qed.

Lemma sync_inv k w : 0 <= k < MaxInt64 - 1 -> world_inv k w -> world_inv (k + 1) (step w OpSync).
Proof.
  intros Hk [[Hrev Hmax] [Hid Hids] Hnum Hm Hw]. cbn [step].
  destruct (Sync_spec (mgr w) Hm) as (Hm' & (_ & E2 & E3 & E4) & Hw').
  split; cbn [mgr reg got]; rewrite ?E2, ?E3, ?E4; try done; try lia; [split; [lia|done]|].
  intros id. specialize (Hw id). rewrite Hw'. destruct (watchers (mgr w) !! id) as [wt|]; cbn; [|done].
  destruct (reg w !! id) as [[[p f] r]|]; [|done]. case_decide; [done|]. rewrite Hrev. apply catch_up_ok; [done|int_lia|done|done].
Qed.

Lemma recv_inv k w id : 0 <= k -> world_inv k w -> world_inv (k + 1) (step w (OpRecv id)).
Proof.
  intros Hk Hinv. assert (world_inv (k + 1) {| mgr := mgr w; reg := reg w; got := got w |}) as Hsame.
  { destruct w, Hinv as [[??] [[??] ?] ???]. cbn in *. split; cbn; try done; [lia|split; [lia|done]]. }
  destruct Hinv as [[Hrev Hmax] [Hid Hids] Hnum Hm Hw]. cbn [step]. unfold receive.
  destruct (watchers (mgr w) !! id) as [wt|] eqn:Hwt; [|done].
  destruct (w_c wt) as [|ev c] eqn:Hc; [done|].
  destruct (mirrors_group _ _ _ Hm Hwt) as (HS & HU & HV).
  split; cbn [mgr reg got currentRev store nextWatcherID]; [lia|split; [lia|done]|done|by apply mirrors_insert|].
  intros i. specialize (Hw i). unfold received in *. cbn [got watchers]. destruct (decide (i = id)) as [->|Hne].
  - rewrite !lookup_insert_eq. rewrite Hwt in Hw. destruct (reg w !! id) as [[[p f] r]|]; [|done].
    destruct Hw as [? ? Hsent [? ?] ?]. rewrite Hc in *. split; cbn in *; try done; try lia. by rewrite <- app_assoc.
  - by rewrite !lookup_insert_ne by done.
Qed.

Lemma step_inv k w o : 0 <= k < MaxInt64 - 1 -> world_inv k w -> world_inv (k + 1) (step w o).
Proof. intros Hk Hw. destruct o; [by apply put_inv|by apply watch_inv|by apply sync_inv|apply recv_inv; [lia|done]]. Qed.

Lemma run_inv ops k w : 0 <= k -> k + Z.of_nat (length ops) < MaxInt64 -> world_inv k w -> world_inv (k + Z.of_nat (length ops)) (foldl step w ops).
Proof.
  revert k w. induction ops as [|o ops IH]; intros k w Hk Hlen Hw; cbn [length foldl] in *; [by rewrite Z.add_0_r|].
  replace (k + Z.of_nat (S (length ops))) with ((k + 1) + Z.of_nat (length ops)) by lia. apply IH; [lia|lia|]. apply step_inv; [lia|done].
Qed.

(** A start no later than the next revision is where the watcher starts. *)
Lemma wanted_start st p rev fromRev : numbered st -> fromRev <= rev + 1 -> filter (wanted p (watch_start rev fromRev)) st = filter (wanted p fromRev) st.
Proof.
  intros Hnum Hle. assert (forall ev, ev ∈ st -> 1 <= Revision ev) as H1 by (intros ev [i Hi]%list_elem_of_lookup; rewrite (Hnum i ev Hi); lia). clear Hnum.
  induction st as [|ev st IH]; [done|]. rewrite !filter_cons, IH by (intros ev' ?; apply H1; by right). specialize (H1 ev ltac:(by left)).
  unfold wanted, watch_start. do 2 case_decide; intuition lia.
Qed.

Lemma numbered_take st n : numbered st -> numbered (take n st).
Proof. intros Hnum i ev [Hi _]%lookup_take_Some. by apply Hnum. Qed.

Lemma sent_all st p s : sent st p s (Z.of_nat (length st) + 1) = filter (wanted p s) st.
Proof. unfold sent. by rewrite take_ge by lia. Qed.

Lemma synced_sent st p s g w : numbered st -> watch_ok st p s g w -> w_group w = GroupSynced -> g ++ w_c w = filter (wanted p s) st.
Proof.
  intros Hnum [_ Hs Hsent _ Hg] Hgrp. rewrite Hgrp in Hg. rewrite Hsent, <- sent_all. destruct Hg as [->|Hg]; [done|].
  by rewrite !sent_early by (done || lia).
Qed.

(** One round of a consumer that empties its channel before a pass of [Sync]. *)
Definition round (id : Z) (b : nat) : list op := replicate b (OpRecv id) ++ [OpSync].

Lemma recv_head w id wt ev c :
  watchers (mgr w) !! id = Some wt -> w_c wt = ev :: c ->
  let w' := step w (OpRecv id) in
  store (mgr w') = store (mgr w) /\ currentRev (mgr w') = currentRev (mgr w) /\ reg w' = reg w /\
  watchers (mgr w') !! id = Some (set_c c wt) /\ received w' id = received w id ++ [ev].
Proof.
  intros Hwt Hc. cbn. unfold receive. rewrite Hwt, Hc. split_and!; try done; [apply lookup_insert_eq|].
  unfold received. cbn. by rewrite lookup_insert_eq.
Qed.

Lemma drain_ok id b w k wt :
  0 <= k -> k + Z.of_nat b < MaxInt64 -> world_inv k w -> watchers (mgr w) !! id = Some wt ->
  let w' := foldl step w (replicate b (OpRecv id)) in
  world_inv (k + Z.of_nat b) w' /\ store (mgr w') = store (mgr w) /\ currentRev (mgr w') = currentRev (mgr w) /\ reg w' = reg w /\
  watchers (mgr w') !! id = Some (set_c (drop b (w_c wt)) wt) /\ received w' id ++ drop b (w_c wt) = received w id ++ w_c wt.
Proof.
  intros Hk Hlen Hinv Hwt. pose proof (run_inv (replicate b (OpRecv id)) k w Hk) as Hrun. rewrite length_replicate in Hrun.
  specialize (Hrun Hlen Hinv). cbn zeta. split; [done|]. clear Hrun Hinv Hlen.
  revert w wt Hwt. induction b as [|b IH]; intros w wt Hwt; cbn [replicate foldl].
  { rewrite drop_0. by destruct wt. }
  destruct (w_c wt) as [|ev c] eqn:Hc.
  - replace (step w (OpRecv id)) with w by (cbn; unfold receive; rewrite Hwt, Hc; by destruct w).
    destruct (IH w wt Hwt) as (-> & -> & -> & -> & Hgot). rewrite Hc in *. by rewrite !drop_nil in *.
  - destruct (recv_head w id wt ev c Hwt Hc) as (E1 & E2 & E3 & E4 & E5).
    destruct (IH _ _ E4) as (-> & -> & -> & -> & Hgot). cbn [set_c w_c drop] in *.
    split_and!; try done. by rewrite Hgot, E5, <- app_assoc.
Qed.

(** What is known of watcher [id] in a world: its registration and its object. *)
Definition watching (w : world) (id : Z) (p : string) (s : Z) (wt : Watcher) : Prop :=
  watchers (mgr w) !! id = Some wt /\ exists fromRev rev, reg w !! id = Some (p, fromRev, rev) /\ s = watch_start rev fromRev.

Lemma watching_ok k w id p s wt : world_inv k w -> watching w id p s wt -> watch_ok (store (mgr w)) p s (received w id) wt.
Proof. intros Hinv [Hwt (f & r & Hreg & ->)]. pose proof (in_watch _ _ Hinv id) as Hw. by rewrite Hwt, Hreg in Hw. Qed.

Lemma round_ok id b w k p s wt :
  0 <= k -> k + Z.of_nat b + 1 < MaxInt64 -> world_inv k w -> watching w id p s wt -> bufSize wt <= Z.of_nat b ->
  let w' := foldl step w (round id b) in
  world_inv (k + Z.of_nat b + 1) w' /\ store (mgr w') = store (mgr w) /\
  exists wt', watching w' id p s wt' /\ bufSize wt' = bufSize wt /\
    (w_group wt' = GroupSynced \/
     w_group wt <> GroupSynced /\ (length (received w id ++ w_c wt) < length (received w' id ++ w_c wt'))%nat).
Proof.
  intros Hk Hlen Hinv Hwat Hb. pose proof (watching_ok _ _ _ _ _ _ Hinv Hwat) as Hok. destruct Hwat as [Hwt Hreg].
  unfold round. rewrite foldl_app. cbn [foldl].
  destruct (drain_ok id b w k wt Hk ltac:(lia) Hinv Hwt) as (Hinv1 & Hst1 & Hrev1 & Hreg1 & Hwt1 & Hgot1).
  set (w1 := foldl step w _) in *. rewrite drop_ge in Hwt1, Hgot1 by (pose proof (wo_buffer _ _ _ _ _ Hok); lia). rewrite app_nil_r in Hgot1.
  pose proof (sync_inv (k + Z.of_nat b) w1 ltac:(lia) Hinv1) as Hinv2. cbn zeta. split; [done|].
  destruct (Sync_spec (mgr w1) (in_mirrors _ _ Hinv1)) as (_ & (_ & E2 & E3 & _) & Hw2). cbn [step mgr reg]. split; [by rewrite E3|].
  specialize (Hw2 id). rewrite Hwt1 in Hw2. cbn in Hw2.
  assert (watching w1 id p s (set_c [] wt)) as Hwat1 by (split; [done|by rewrite Hreg1]).
  pose proof (watching_ok _ _ _ _ _ _ Hinv1 Hwat1) as Hok1.
  destruct (decide (w_group wt = GroupSynced)) as [Hg|Hg].
  - eexists. split; [split; [exact Hw2|by rewrite Hreg1]|]. split; [done|]. by left.
  - eexists. split; [split; [exact Hw2|by rewrite Hreg1]|].
    destruct (in_rev _ _ Hinv1) as [Hr1 Hr2]. rewrite Hr1.
    destruct (catch_up_ok _ _ _ _ (set_c [] wt) (in_store _ _ Hinv1) ltac:(lia) Hg Hok1) as (_ & Hb' & [[Hg' _]|[_ Hfull]]).
    + split; [done|]. by left.
    + split; [done|]. right. split; [done|]. change (received {| mgr := _; reg := _; got := _ |} id) with (received w1 id). rewrite Hgot1, (length_app _ (w_c (catch_up _ _ _))).
      pose proof (wo_buffer _ _ _ _ _ Hok). cbn in Hb'. lia.
Qed.

Lemma rounds_ok n id b w k p s wt :
  0 <= k -> k + Z.of_nat n * (Z.of_nat b + 1) < MaxInt64 -> world_inv k w -> watching w id p s wt -> bufSize wt <= Z.of_nat b ->
  w_group wt = GroupSynced \/ (length (filter (wanted p s) (store (mgr w))) < length (received w id ++ w_c wt) + n)%nat ->
  let w' := foldl step w (mjoin (replicate n (round id b))) in
  store (mgr w') = store (mgr w) /\ exists wt', watching w' id p s wt' /\ w_group wt' = GroupSynced /\
    received w' id ++ w_c wt' = filter (wanted p s) (store (mgr w)).
Proof.
  revert w k wt. induction n as [|n IH]; intros w k wt Hk Hlen Hinv Hwat Hb Howed; cbn [replicate mjoin foldl list_join].
  - split; [done|]. exists wt. pose proof (watching_ok _ _ _ _ _ _ Hinv Hwat) as Hok. destruct Howed as [Hg|Howed].
    { split; [done|]. split; [done|]. by eapply synced_sent; [apply Hinv|..]. }
    exfalso. rewrite (wo_sent _ _ _ _ _ Hok) in Howed. unfold sent in Howed.
    pose proof (take_drop (Z.to_nat (nextRev wt - 1)) (store (mgr w))) as Htd. rewrite <- Htd, filter_app, length_app in Howed at 1. lia.
  - rewrite foldl_app. destruct (round_ok id b w k p s wt Hk ltac:(lia) Hinv Hwat Hb) as (Hinv1 & Hst1 & wt1 & Hwat1 & Hb1 & Hg1).
    rewrite <- Hst1. apply (IH _ (k + Z.of_nat b + 1) wt1); [lia|lia|done|done|lia|]. rewrite Hst1.
    destruct Hg1 as [?|[Hng Hlt]]; [by left|]. right. destruct Howed; [done|lia].
Qed.

End invariant.

(** C9: every watcher receives exactly once, in revision order, the events on its prefix
    from its start.  Take any history of puts, registrations, passes and receptions (fewer
    than 2^63 of them), and a watcher registered to start at a revision no later than the
    next one to be written then.  What its owner has received and what its channel holds
    are the events on its prefix from that revision on, inclusive, below [nextRev], and all
    of them while it is synced.  It is in exactly the Go map of its group.  (A later start
    is not honoured, see [future_start_ignored].) *)
Theorem watch_exactly_once {C} `{Clock C} (clk : C) (ops : list op) (id : Z) (p : string) (fromRev rev : Z) :
  Z.of_nat (length ops) < MaxInt64 -> let w := foldl step (begin_world clk) ops in
  reg w !! id = Some (p, fromRev, rev) -> fromRev <= rev + 1 ->
  exists wt, watchers (mgr w) !! id = Some wt /\
    received w id ++ w_c wt = filter (wanted p fromRev) (take (Z.to_nat (nextRev wt - 1)) (store (mgr w))) /\
    (w_group wt = GroupSynced -> received w id ++ w_c wt = filter (wanted p fromRev) (store (mgr w))) /\
    (id ∈ synced (mgr w) <-> w_group wt = GroupSynced) /\ (id ∈ unsynced (mgr w) <-> w_group wt = GroupUnsynced) /\
    (id ∈ victim (mgr w) <-> w_group wt = GroupVictim).
Proof.
  intros Hlen w Hreg Hstart. pose proof (run_inv ops 0 (begin_world clk) ltac:(lia) ltac:(lia) (begin_inv clk)) as Hinv. fold w in Hinv.
  pose proof (in_watch _ _ Hinv id) as Hw. rewrite Hreg in Hw. destruct (watchers (mgr w) !! id) as [wt|] eqn:Hwt; [|done].
  exists wt. split; [done|]. pose proof (in_store _ _ Hinv) as Hnum. rewrite <- !(wanted_start _ p rev fromRev) by (done || by apply numbered_take).
  split; [apply Hw|]. split; [by apply synced_sent|]. apply mirrors_group; [apply Hinv|done].
Qed.

(** A watcher whose owner drains its channel before each pass is synced, and has been
    sent every event it wants, after as many passes as it is owed events and one more. *)
Theorem watch_catches_up {C} `{Clock C} (clk : C) (ops : list op) (id : Z) (p : string) (s : Z) (wt : Watcher) (b n : nat) :
  let w := foldl step (begin_world clk) ops in
  watching w id p s wt -> bufSize wt <= Z.of_nat b ->
  (length (filter (wanted p s) (store (mgr w))) < length (received w id ++ w_c wt) + n)%nat ->
  Z.of_nat (length ops) + Z.of_nat n * (Z.of_nat b + 1) < MaxInt64 ->
  let w' := foldl step (begin_world clk) (ops ++ mjoin (replicate n (round id b))) in
  exists wt', watching w' id p s wt' /\ w_group wt' = GroupSynced /\ received w' id ++ w_c wt' = filter (wanted p s) (store (mgr w)).
Proof.
  intros w Hwat Hb Howed Hlen. cbn zeta. rewrite foldl_app. fold w.
  pose proof (run_inv ops 0 (begin_world clk) ltac:(lia) ltac:(lia) (begin_inv clk)) as Hinv. fold w in Hinv.
  apply (rounds_ok n id b w (0 + Z.of_nat (length ops)) p s wt ltac:(lia) ltac:(lia) Hinv Hwat Hb). by right.
Qed.

(** ** Concrete runs *)

Definition clock0 : LogicalClock := {| now := 0 |}.

(** Four puts, a watcher from revision 1 with room for one event, then a pass. *)
Definition demo_ops : list op :=
  [OpPut "a/x" "1"; OpPut "b" "2"; OpPut "a/y" "3"; OpPut "a/z" "4"; OpWatch "a/" 1 1; OpSync]%string.
Definition demo_world : world := foldl step (begin_world clock0) demo_ops.
Definition demo_watcher : Watcher :=
  {| w_ID := 1; w_Prefix := "a/"; nextRev := 3; bufSize := 1; w_group := GroupVictim;
     w_c := [{| Revision := 1; Key := "a/x"; Value := "1"; ev_Tick := 1 |}] |}%string.

Lemma demo_watching : watching demo_world 1 "a/" 1 demo_watcher.
Proof. split; [|exists 1, 4; split]; vm_compute; reflexivity. Qed.

Lemma watch_exactly_once_witness : exists wt, watchers (mgr demo_world) !! 1 = Some wt /\
  received demo_world 1 ++ w_c wt = filter (wanted "a/" 1) (take (Z.to_nat (nextRev wt - 1)) (store (mgr demo_world))).
Proof.
  destruct (watch_exactly_once clock0 demo_ops 1 "a/" 1 4) as (wt & Hwt & Hs & _);
    [by_eval|vm_compute; reflexivity|by_eval|]. by exists wt.
Defined.

Lemma watch_catches_up_witness :
  let w' := foldl step (begin_world clock0) (demo_ops ++ mjoin (replicate 3 (round 1 1))) in
  exists wt', watching w' 1 "a/" 1 wt' /\ w_group wt' = GroupSynced /\
    received w' 1 ++ w_c wt' = filter (wanted "a/" 1) (store (mgr demo_world)).
Proof.
  apply (watch_catches_up clock0 demo_ops 1 "a/" 1 demo_watcher 1 3);
    [exact demo_watching|by_eval|apply (bool_decide_unpack _); vm_compute; exact I|by_eval].
Defined.

(** A watcher that asks to start at revision 10 while nothing has been written is put in
    the synced group, whose fan-out does not look at [nextRev]: it is sent revision 1. *)
Example future_start_ignored :
  let w := foldl step (begin_world clock0) [OpWatch "k" 10 4; OpPut "k" "v"; OpRecv 1]%string in
  Revision <$> received w 1 = [1].
Proof. vm_compute. reflexivity. Qed.
