(* ===== verification/WsEnvelope.v ===== *)
(** * The message envelope of the remote terminal ([pkg/websocket/envelope.go])

    A hand-written subset of MessagePack: a map of four entries holding the message type,
    the pane, a timestamp and the payload.  Bytes are integers below 256; the decoder's
    cursor is the list of bytes that remain, and its errors keep their kind and drop their
    text.

    The theorems: decoding returns what was encoded and nothing else, whatever follows it;
    the encoding is therefore unambiguous; and whatever bytes are decoded, the result is a
    well-typed envelope. *)

From S2P Require Import Prelude.
Local Open Scope Z_scope.

(** ** The program *)

Definition MsgError : Z := 6.

Record Envelope := { Type_ : Z; PaneID : list Z; Timestamp : Z; Payload : list Z }.
#[global] Instance Envelope_eq_dec : EqDecision Envelope.
Proof. solve_decision. Defined.

Notation mpFixmap4 := 0x84 (only parsing).
Notation mpUint8 := 0xcc (only parsing).
Notation mpUint16 := 0xcd (only parsing).
Notation mpUint32 := 0xce (only parsing).
Notation mpUint64 := 0xcf (only parsing).
Notation mpBin8 := 0xc4 (only parsing).
Notation mpBin16 := 0xc5 (only parsing).
Notation mpBin32 := 0xc6 (only parsing).
Notation mpFixstrBase := 0xa0 (only parsing).
Notation mpStr8 := 0xd9 (only parsing).

(** [byte((v >> k) & 0xff)] *)
Definition low_byte (v k : Z) : Z := Z.land (Z.shiftr v k) 0xff.

Definition appendUint (dst : list Z) (v : Z) : list Z :=
  if decide (v <= 0x7f) then dst ++ [low_byte v 0]
  else if decide (v <= 0xff) then dst ++ [mpUint8; low_byte v 0]
  else if decide (v <= 0xffff) then dst ++ [mpUint16; low_byte v 8; low_byte v 0]
  else if decide (v <= 0xffffffff) then dst ++ [mpUint32; low_byte v 24; low_byte v 16; low_byte v 8; low_byte v 0]
  else dst ++ [mpUint64; low_byte v 56; low_byte v 48; low_byte v 40; low_byte v 32;
               low_byte v 24; low_byte v 16; low_byte v 8; low_byte v 0].

Definition appendStr (dst : list Z) (s : list Z) : list Z :=
  let s := if decide (Z.of_nat (length s) > 0xff) then take 0xff s else s in
  let n := Z.of_nat (length s) in
  (if decide (n <= 31) then dst ++ [Z.lor mpFixstrBase (low_byte n 0)] else dst ++ [mpStr8; low_byte n 0]) ++ s.

Definition appendBin (dst : list Z) (b : list Z) : list Z :=
  let b := if decide (Z.of_nat (length b) > 0xffffffff) then take (Z.to_nat 0xffffffff) b else b in
  let n := Z.of_nat (length b) in
  (if decide (n <= 0xff) then dst ++ [mpBin8; low_byte n 0]
   else if decide (n <= 0xffff) then dst ++ [mpBin16; low_byte n 8; low_byte n 0]
   else dst ++ [mpBin32; low_byte n 24; low_byte n 16; low_byte n 8; low_byte n 0]) ++ b.

(** The keys ["t"], ["p"], ["ts"] and ["pl"]. *)
Definition key_t : list Z := [116].
Definition key_p : list Z := [112].
Definition key_ts : list Z := [116; 115].
Definition key_pl : list Z := [112; 108].

Definition EncodeEnvelope (e : Envelope) : list Z :=
  let dst := [mpFixmap4] in
  let dst := appendUint (appendStr dst key_t) (Type_ e) in
  let dst := appendStr (appendStr dst key_p) (PaneID e) in
  let dst := appendUint (appendStr dst key_ts) (Timestamp e) in
  appendBin (appendStr dst key_pl) (Payload e).

Inductive error :=
  | EOF | ShortRead | ExpectedInteger | ExpectedStr | ExpectedBin | ExpectedMap
  | InvalidType (v : Z) | UnexpectedKey (k : list Z) | MissingKey (k : list Z).
#[global] Instance error_eq_dec : EqDecision error.
Proof. solve_decision. Defined.

Definition readByte : reader error Z := fun buf => match buf with [] => (inl EOF, []) | b :: buf => (inr b, buf) end.

Definition readN (n : Z) : reader error (list Z) := fun buf =>
  if decide (n > Z.of_nat (length buf)) then (inl ShortRead, buf) else (inr (take (Z.to_nat n) buf), drop (Z.to_nat n) buf).

Definition readUint : reader error Z :=
  b ← readByte;
  if decide (b <= 0x7f) then mret b
  else if decide (b = mpUint8) then readByte
  else if decide (b = mpUint16) then bs ← readN 2; mret (be_decode bs)
  else if decide (b = mpUint32) then bs ← readN 4; mret (be_decode bs)
  else if decide (b = mpUint64) then bs ← readN 8; mret (be_decode bs)
  else fail ExpectedInteger.

Definition readStr : reader error (list Z) :=
  b ← readByte;
  n ← (if decide (Z.land b 0xe0 = 0xa0) then mret (Z.land b 0x1f)
       else if decide (b = mpStr8) then readByte
       else fail ExpectedStr);
  readN n.

Definition readBin : reader error (list Z) :=
  b ← readByte;
  n ← (if decide (b = mpBin8) then readByte
       else if decide (b = mpBin16) then bs ← readN 2; mret (be_decode bs)
       else if decide (b = mpBin32) then bs ← readN 4; mret (be_decode bs)
       else fail ExpectedBin);
  if decide (n = 0) then mret [] else readN n.

(** The loop over the entries: the envelope so far and which keys were seen. *)
Record decoding := { dec : Envelope; seen_t : bool; seen_p : bool; seen_ts : bool; seen_pl : bool }.

Definition decode_entry (d : decoding) : reader error decoding :=
  let e := dec d in
  key ← readStr;
  if decide (key = key_t) then
    v ← readUint;
    if decide (v > MsgError) then fail (InvalidType v)
    else mret {| dec := {| Type_ := u8 v; PaneID := PaneID e; Timestamp := Timestamp e; Payload := Payload e |};
                 seen_t := true; seen_p := seen_p d; seen_ts := seen_ts d; seen_pl := seen_pl d |}
  else if decide (key = key_p) then
    s ← readStr;
    mret {| dec := {| Type_ := Type_ e; PaneID := s; Timestamp := Timestamp e; Payload := Payload e |};
            seen_t := seen_t d; seen_p := true; seen_ts := seen_ts d; seen_pl := seen_pl d |}
  else if decide (key = key_ts) then
    v ← readUint;
    mret {| dec := {| Type_ := Type_ e; PaneID := PaneID e; Timestamp := v; Payload := Payload e |};
            seen_t := seen_t d; seen_p := seen_p d; seen_ts := true; seen_pl := seen_pl d |}
  else if decide (key = key_pl) then
    b ← readBin;
    mret {| dec := {| Type_ := Type_ e; PaneID := PaneID e; Timestamp := Timestamp e; Payload := b |};
            seen_t := seen_t d; seen_p := seen_p d; seen_ts := seen_ts d; seen_pl := true |}
  else fail (UnexpectedKey key).

Fixpoint decode_entries (n : nat) (d : decoding) : reader error decoding :=
  match n with
  | O => mret d
  | S n => d ← decode_entry d; decode_entries n d
  end.

Definition no_envelope : Envelope := {| Type_ := 0; PaneID := []; Timestamp := 0; Payload := [] |}.

Definition decodeEnvelope : reader error Envelope :=
  b ← readByte;
  if decide (b <> mpFixmap4) then fail ExpectedMap
  else
    d ← decode_entries 4 {| dec := no_envelope; seen_t := false; seen_p := false; seen_ts := false; seen_pl := false |};
    if negb (seen_t d) then fail (MissingKey key_t)
    else if negb (seen_p d) then fail (MissingKey key_p)
    else if negb (seen_ts d) then fail (MissingKey key_ts)
    else if negb (seen_pl d) then fail (MissingKey key_pl)
    else mret (dec d).

Definition DecodeEnvelope (data : list Z) : error + Envelope := (decodeEnvelope data).1.

(** ** Reading back what was written *)

Lemma low_byte_div v k : 0 <= k -> low_byte v k = (v / 2 ^ k) mod 256.
Proof. intros Hk. unfold low_byte. rewrite Z.shiftr_div_pow2 by done. apply (Z.land_ones _ 8). lia. Qed.

Lemma low_byte_0 v : 0 <= v < 256 -> low_byte v 0 = v.
Proof. intros Hv. rewrite low_byte_div, Z.div_1_r by done. apply Z.mod_small. lia. Qed.

Ltac be_bytes := cbn [be_encode app]; rewrite ?low_byte_div, ?Z.div_div, ?Z.div_1_r by done; reflexivity.

Lemma low_bytes_2 v : [low_byte v 8; low_byte v 0] = be_encode 2 v.
Proof. be_bytes. Qed.
Lemma low_bytes_4 v : [low_byte v 24; low_byte v 16; low_byte v 8; low_byte v 0] = be_encode 4 v.
Proof. be_bytes. Qed.
Lemma low_bytes_8 v :
  [low_byte v 56; low_byte v 48; low_byte v 40; low_byte v 32; low_byte v 24; low_byte v 16; low_byte v 8; low_byte v 0] = be_encode 8 v.
Proof. be_bytes. Qed.

Lemma readN_app a rest n : n = Z.of_nat (length a) -> readN n (a ++ rest) = (inr a, rest).
Proof.
  intros ->. unfold readN. rewrite decide_False by (rewrite length_app; lia). rewrite Nat2Z.id, take_app_length, drop_app_length. done.
Qed.

Lemma read_be n v rest : 0 <= v < 256 ^ Z.of_nat n ->
  (bs ← readN (Z.of_nat n); mret (be_decode bs) : reader error Z) (be_encode n v ++ rest) = (inr v, rest).
Proof.
  intros Hv. erewrite reader_bind_ok; [|apply readN_app; by rewrite be_encode_length].
  by rewrite be_decode_encode, Z.mod_small.
Qed.

Lemma readByte_cons {B} b rest (k : Z -> reader error B) : (readByte ≫= k) (b :: rest) = k b rest.
Proof. done. Qed.

Lemma readUint_ok v rest : 0 <= v < 2 ^ 64 -> readUint (appendUint [] v ++ rest) = (inr v, rest).
Proof.
  intros Hv. unfold appendUint, readUint.
  destruct (decide (v <= 0x7f)); [cbn [app]; rewrite readByte_cons, low_byte_0, decide_True by lia; done|].
  destruct (decide (v <= 0xff)); [cbn [app]; rewrite readByte_cons, low_byte_0 by lia; done|].
  destruct (decide (v <= 0xffff)); [rewrite low_bytes_2; apply (read_be 2); lia|].
  destruct (decide (v <= 0xffffffff)); [rewrite low_bytes_4; apply (read_be 4); lia|].
  rewrite low_bytes_8. apply (read_be 8). lia.
Qed.

(** The fixed-length string headers: tag and length share a byte. *)
Lemma fixstr_header n : 0 <= n <= 31 -> Z.land (Z.lor mpFixstrBase n) 0xe0 = 0xa0 /\ Z.land (Z.lor mpFixstrBase n) 0x1f = n.
Proof.
  intros Hn. assert (Forall (fun k => Z.land (Z.lor mpFixstrBase k) 0xe0 = 0xa0 /\ Z.land (Z.lor mpFixstrBase k) 0x1f = k) (seqZ 0 32)) as H.
  { by_eval. }
  rewrite Forall_forall in H. apply H. apply elem_of_seqZ. lia.
Qed.

Lemma readStr_ok s rest : Z.of_nat (length s) <= 255 -> readStr (appendStr [] s ++ rest) = (inr s, rest).
Proof.
  intros Hs. unfold appendStr, readStr. rewrite (decide_False (P := _ > 255)) by lia. remember (Z.of_nat (length s)) as n eqn:Hn. assert (0 <= n) by lia.
  destruct (decide (n <= 31)); cbn [app]; rewrite readByte_cons, low_byte_0 by lia.
  - destruct (fixstr_header n ltac:(lia)) as [Htag Hlen]. rewrite (decide_True (P := _ = 0xa0)) by done.
    unfold mret, reader_ret, mbind, reader_bind at 1. rewrite Hlen. by apply readN_app.
  - by apply (readN_app s).
Qed.

Lemma readBin_ok b rest : Z.of_nat (length b) <= 0xffffffff -> readBin (appendBin [] b ++ rest) = (inr b, rest).
Proof.
  intros Hb. unfold appendBin, readBin. rewrite (decide_False (P := _ > 0xffffffff)) by lia. remember (Z.of_nat (length b)) as n eqn:Hn. assert (0 <= n) by lia.
  assert ((if decide (n = 0) then mret [] else readN n) (b ++ rest) = (inr b, rest)) as Hread.
  { case_decide; [destruct b; [done|cbn in *; lia]|]. by apply readN_app. }
  destruct (decide (n <= 0xff)); [cbn [app]; rewrite readByte_cons, low_byte_0 by lia; exact Hread|].
  destruct (decide (n <= 0xffff)).
  - rewrite low_bytes_2. cbn [app]. rewrite readByte_cons, <- app_assoc.
    erewrite reader_bind_ok; [exact Hread|]. cbn -[be_encode]. apply (read_be 2). lia.
  - rewrite low_bytes_4. cbn [app]. rewrite readByte_cons, <- app_assoc.
    erewrite reader_bind_ok; [exact Hread|]. cbn -[be_encode]. apply (read_be 4). lia.
Qed.

Lemma appendUint_app dst v : appendUint dst v = dst ++ appendUint [] v.
Proof. unfold appendUint. repeat case_decide; done. Qed.
Lemma appendStr_app dst s : appendStr dst s = dst ++ appendStr [] s.
Proof. unfold appendStr. destruct (decide (Z.of_nat (length _) <= 31)); cbn [app]; by rewrite <- app_assoc. Qed.
Lemma appendBin_app dst b : appendBin dst b = dst ++ appendBin [] b.
Proof.
  unfold appendBin. destruct (decide (Z.of_nat (length _) <= 0xff)); [cbn [app]; by rewrite <- app_assoc|].
  destruct (decide (Z.of_nat (length _) <= 0xffff)); cbn [app]; by rewrite <- app_assoc.
Qed.

Lemma EncodeEnvelope_app e :
  EncodeEnvelope e = mpFixmap4 :: appendStr [] key_t ++ appendUint [] (Type_ e) ++ appendStr [] key_p ++ appendStr [] (PaneID e) ++
    appendStr [] key_ts ++ appendUint [] (Timestamp e) ++ appendStr [] key_pl ++ appendBin [] (Payload e).
Proof.
  unfold EncodeEnvelope. cbn zeta. rewrite (appendBin_app (appendStr _ key_pl)), (appendStr_app _ key_pl).
  rewrite (appendUint_app (appendStr _ key_ts)), (appendStr_app _ key_ts), (appendStr_app _ (PaneID e)), (appendStr_app _ key_p).
  rewrite (appendUint_app (appendStr _ key_t)), (appendStr_app _ key_t). by rewrite <- !app_assoc.
Qed.

Lemma appendStr_clip s : appendStr [] s = appendStr [] (take 255 s).
Proof.
  unfold appendStr. rewrite (decide_False (P := Z.of_nat (length (take 255 s)) > 255)) by (rewrite length_take; lia).
  destruct (decide (Z.of_nat (length s) > 255)); [done|]. by rewrite take_ge by lia.
Qed.

(** What the fields of an envelope are in Go: the type is a [uint8] with six values, the
    timestamp a [uint64], the strings byte strings within the format's limits. *)
Record well_typed (e : Envelope) : Prop := {
  wt_type : 0 <= Type_ e <= MsgError;
  wt_pane : Z.of_nat (length (PaneID e)) <= 255 /\ Forall is_u8 (PaneID e);
  wt_time : is_u64 (Timestamp e);
  wt_payload : Z.of_nat (length (Payload e)) <= 0xffffffff /\ Forall is_u8 (Payload e)
}.

(** An envelope whose fields fit the format, up to the length of its pane. *)
Definition encodable (e : Envelope) : Prop :=
  0 <= Type_ e < 256 /\ is_u64 (Timestamp e) /\ Z.of_nat (length (Payload e)) <= 0xffffffff.

Definition clip (e : Envelope) : Envelope :=
  {| Type_ := Type_ e; PaneID := take 255 (PaneID e); Timestamp := Timestamp e; Payload := Payload e |}.

(** One entry at a time. *)
Lemma entry_t d v rest : 0 <= v < 256 ->
  decode_entry d (appendStr [] key_t ++ appendUint [] v ++ rest) =
    if decide (v > MsgError) then (inl (InvalidType v), rest)
    else (inr {| dec := {| Type_ := v; PaneID := PaneID (dec d); Timestamp := Timestamp (dec d); Payload := Payload (dec d) |};
                 seen_t := true; seen_p := seen_p d; seen_ts := seen_ts d; seen_pl := seen_pl d |}, rest).
Proof.
  intros Hv. unfold decode_entry. erewrite reader_bind_ok by (by apply readStr_ok). rewrite decide_True by done.
  erewrite reader_bind_ok by (apply readUint_ok; lia). case_decide; [done|]. unfold u8. by rewrite Z.mod_small.
Qed.

Lemma entry_p d s rest : Z.of_nat (length s) <= 255 ->
  decode_entry d (appendStr [] key_p ++ appendStr [] s ++ rest) =
    (inr {| dec := {| Type_ := Type_ (dec d); PaneID := s; Timestamp := Timestamp (dec d); Payload := Payload (dec d) |};
            seen_t := seen_t d; seen_p := true; seen_ts := seen_ts d; seen_pl := seen_pl d |}, rest).
Proof.
  intros Hs. unfold decode_entry. erewrite reader_bind_ok by (by apply readStr_ok).
  rewrite decide_False, decide_True by done. by erewrite reader_bind_ok by (by apply readStr_ok).
Qed.

Lemma entry_ts d v rest : is_u64 v ->
  decode_entry d (appendStr [] key_ts ++ appendUint [] v ++ rest) =
    (inr {| dec := {| Type_ := Type_ (dec d); PaneID := PaneID (dec d); Timestamp := v; Payload := Payload (dec d) |};
            seen_t := seen_t d; seen_p := seen_p d; seen_ts := true; seen_pl := seen_pl d |}, rest).
Proof.
  intros Hv. unfold decode_entry. erewrite reader_bind_ok by (by apply readStr_ok).
  rewrite decide_False, decide_False, decide_True by done. by erewrite reader_bind_ok by (apply readUint_ok; int_lia).
Qed.

Lemma entry_pl d b rest : Z.of_nat (length b) <= 0xffffffff ->
  decode_entry d (appendStr [] key_pl ++ appendBin [] b ++ rest) =
    (inr {| dec := {| Type_ := Type_ (dec d); PaneID := PaneID (dec d); Timestamp := Timestamp (dec d); Payload := b |};
            seen_t := seen_t d; seen_p := seen_p d; seen_ts := seen_ts d; seen_pl := true |}, rest).
Proof.
  intros Hb. unfold decode_entry. erewrite reader_bind_ok by (by apply readStr_ok).
  rewrite decide_False, decide_False, decide_False, decide_True by done. by erewrite reader_bind_ok by (by apply readBin_ok).
Qed.

Lemma decode_encode e rest :
  encodable e ->
  (decodeEnvelope (EncodeEnvelope e ++ rest)).1 = (if decide (Type_ e > MsgError) then inl (InvalidType (Type_ e)) else inr (clip e)) /\
  (Type_ e <= MsgError -> (decodeEnvelope (EncodeEnvelope e ++ rest)).2 = rest).
Proof.
  intros (Ht & Hts & Hpl). rewrite EncodeEnvelope_app, (appendStr_clip (PaneID e)). cbn [app]. rewrite <- !app_assoc.
  unfold decodeEnvelope. rewrite readByte_cons, decide_False by tauto. cbn [decode_entries].
  destruct (decide (Type_ e > MsgError)) as [Hgt|Hle].
  - split; [|lia]. unfold mbind, reader_bind. rewrite entry_t, decide_True by done. done.
  - erewrite reader_bind_ok; [|erewrite reader_bind_ok; [|rewrite entry_t, decide_False by done; reflexivity];
      erewrite reader_bind_ok; [|apply entry_p; rewrite length_take; lia];
      erewrite reader_bind_ok; [|by apply entry_ts]; erewrite reader_bind_ok; [|by apply entry_pl]; reflexivity].
    cbn [negb seen_t seen_p seen_ts seen_pl]. done.
Qed.

(** ** Well-typed results *)

(** A reader that, on bytes, leaves bytes and returns values with property [P]. *)
Definition reads {A} (m : reader error A) (P : A -> Prop) : Prop :=
  forall bs a bs', Forall is_u8 bs -> m bs = (inr a, bs') -> P a /\ Forall is_u8 bs'.

Lemma reads_ret {A} (a : A) (P : A -> Prop) : P a -> reads (mret a) P.
Proof. intros Ha bs a' bs' Hbs Hm. unfold mret, reader_ret in Hm. by simplify_eq. Qed.
Lemma reads_fail {A} e (P : A -> Prop) : reads (fail e) P.
Proof. intros bs a bs' _ Hm. done. Qed.
Lemma reads_bind {A B} (m : reader error A) (k : A -> reader error B) P Q :
  reads m P -> (forall a, P a -> reads (k a) Q) -> reads (m ≫= k) Q.
Proof. intros Hm Hk bs b bs' Hbs (a & bs1 & Ha & Hb)%reader_bind_inv. destruct (Hm _ _ _ Hbs Ha). by eapply (Hk a). Qed.
Lemma reads_impl {A} (m : reader error A) (P Q : A -> Prop) : reads m P -> (forall a, P a -> Q a) -> reads m Q.
Proof. intros Hm HPQ bs a bs' Hbs Ha. destruct (Hm _ _ _ Hbs Ha). auto. Qed.

Lemma reads_readByte : reads readByte is_u8.
Proof. intros [|b bs] a bs' Hbs Hm; simplify_eq/=. by apply Forall_cons in Hbs. Qed.

Lemma reads_readN n : 0 <= n -> reads (readN n) (fun bs => Z.of_nat (length bs) = n /\ Forall is_u8 bs).
Proof.
  intros Hn bs a bs' Hbs Hm. unfold readN in Hm. case_decide; [done|]. simplify_eq. rewrite length_take.
  split; [split; [lia|by apply Forall_take]|by apply Forall_drop].
Qed.

Lemma reads_be n : reads (bs ← readN (Z.of_nat n); mret (be_decode bs)) (fun v => 0 <= v < 256 ^ Z.of_nat n).
Proof.
  eapply reads_bind; [apply reads_readN; lia|]. intros bs [Hlen Hbs]. apply reads_ret.
  replace n with (length bs) by lia. by apply be_decode_range.
Qed.

Lemma reads_readUint : reads readUint is_u64.
Proof.
  eapply reads_bind; [apply reads_readByte|]. intros b Hb. repeat case_decide.
  - apply reads_ret. int_lia.
  - eapply reads_impl; [apply reads_readByte|]. intros. int_lia.
  - eapply reads_impl; [apply (reads_be 2)|]. intros. int_lia.
  - eapply reads_impl; [apply (reads_be 4)|]. intros. int_lia.
  - eapply reads_impl; [apply (reads_be 8)|]. intros. int_lia.
  - apply reads_fail.
Qed.

Lemma reads_readStr : reads readStr (fun s => Z.of_nat (length s) <= 255 /\ Forall is_u8 s).
Proof.
  eapply reads_bind; [apply reads_readByte|]. intros b Hb. apply (reads_bind _ _ is_u8).
  - repeat case_decide; [|apply reads_readByte|apply reads_fail]. apply reads_ret.
    change 0x1f with (Z.ones 5). rewrite Z.land_ones by done. pose proof (Z.mod_pos_bound b (2 ^ 5)). int_lia.
  - intros n Hn. eapply reads_impl; [apply reads_readN; int_lia|]. intros s [? ?]. split; [int_lia|done].
Qed.

Lemma reads_readBin : reads readBin (fun s => Z.of_nat (length s) <= 0xffffffff /\ Forall is_u8 s).
Proof.
  eapply reads_bind; [apply reads_readByte|]. intros b Hb. apply (reads_bind _ _ (fun n => 0 <= n < 256 ^ 4)).
  - repeat case_decide; [eapply reads_impl; [apply reads_readByte|]; intros; int_lia| |apply (reads_be 4)|apply reads_fail].
    eapply reads_impl; [apply (reads_be 2)|]. intros n Hn. cbn in *. lia.
  - intros n Hn. case_decide; [by apply reads_ret; split|]. eapply reads_impl; [apply reads_readN; lia|]. intros s [? ?]. split; [lia|done].
Qed.

Lemma reads_entry d : well_typed (dec d) -> reads (decode_entry d) (fun d => well_typed (dec d)).
Proof.
  intros [Ht Hp Hts Hpl]. eapply reads_bind; [apply reads_readStr|]. intros key _. repeat case_decide.
  - eapply reads_bind; [apply reads_readUint|]. intros v Hv. case_decide; [apply reads_fail|]. apply reads_ret.
    split; cbn; try done. unfold u8, MsgError in *. rewrite Z.mod_small; int_lia.
  - eapply reads_bind; [apply reads_readStr|]. intros s Hs. apply reads_ret. by split.
  - eapply reads_bind; [apply reads_readUint|]. intros v Hv. apply reads_ret. by split.
  - eapply reads_bind; [apply reads_readBin|]. intros s Hs. apply reads_ret. by split.
  - apply reads_fail.
Qed.

Lemma reads_entries n d : well_typed (dec d) -> reads (decode_entries n d) (fun d => well_typed (dec d)).
Proof.
  revert d. induction n as [|n IH]; intros d Hd; cbn [decode_entries]; [by apply reads_ret|].
  eapply reads_bind; [by apply reads_entry|]. intros d' Hd'. by apply IH.
Qed.

(** Decoding an encoded envelope returns it, with its pane cut to 255 bytes, and leaves
    what follows; a type beyond the six is refused.  So no two well-typed envelopes share
    an encoding, even with other data after them. *)
Theorem envelope_roundtrip e rest :
  encodable e ->
  (decodeEnvelope (EncodeEnvelope e ++ rest)).1 = (if decide (Type_ e > MsgError) then inl (InvalidType (Type_ e)) else inr (clip e)) /\
  (well_typed e -> decodeEnvelope (EncodeEnvelope e ++ rest) = (inr e, rest) /\
     forall e' rest', well_typed e' -> EncodeEnvelope e ++ rest = EncodeEnvelope e' ++ rest' -> e = e' /\ rest = rest').
Proof.
  intros He. split; [by apply decode_encode|]. intros Hwt.
  assert (forall e rest, well_typed e -> decodeEnvelope (EncodeEnvelope e ++ rest) = (inr e, rest)) as Hok.
  { clear. intros e rest [Ht [Hp _] Hts [Hpl _]].
    assert (encodable e) as He by (split; [unfold MsgError in *; lia|done]).
    destruct (decode_encode e rest He) as [H1 H2]. specialize (H2 ltac:(lia)). rewrite decide_False in H1 by lia.
    destruct (decodeEnvelope _) as [r bs]. cbn in *. subst. destruct e. unfold clip. cbn in *. by rewrite take_ge by lia. }
  split; [by apply Hok|]. intros e' rest' Hwt' Heq. pose proof (Hok e rest Hwt) as H1. rewrite Heq, Hok in H1 by done. by simplify_eq.
Qed.

(** Whatever bytes arrive, an envelope that is decoded is well typed: its type is one of
    the known ones, its timestamp fits 64 bits, its strings fit their formats. *)
Theorem envelope_well_typed data e rest :
  Forall is_u8 data -> decodeEnvelope data = (inr e, rest) -> well_typed e.
Proof.
  intros Hdata Hdec. refine (proj1 (_ : well_typed e /\ Forall is_u8 rest)). revert Hdec. revert Hdata.
  assert (reads decodeEnvelope well_typed) as Hr; [|apply Hr].
  eapply reads_bind; [apply reads_readByte|]. intros b _. case_decide; [apply reads_fail|].
  eapply reads_bind; [apply reads_entries; split; cbn; unfold MsgError; (lia || int_lia || by split; [lia|])|].
  intros d Hd. repeat (case_match; [apply reads_fail|]). by apply reads_ret.
Qed.

(** ** A concrete envelope *)

Definition demo_envelope : Envelope := {| Type_ := 1; PaneID := [112; 49]; Timestamp := 1700000000000000000; Payload := [104; 105] |}.

Lemma demo_encodable : encodable demo_envelope.
Proof. by_eval. Qed.

Lemma envelope_roundtrip_witness : DecodeEnvelope (EncodeEnvelope demo_envelope) = inr demo_envelope.
Proof.
  unfold DecodeEnvelope. rewrite <- (app_nil_r (EncodeEnvelope demo_envelope)).
  exact (proj1 (envelope_roundtrip demo_envelope [] demo_encodable)).
Defined.

Lemma envelope_well_typed_witness : well_typed demo_envelope.
Proof.
  apply (envelope_well_typed (EncodeEnvelope demo_envelope) demo_envelope []); [by_eval|vm_compute; reflexivity].
Defined.

(** The reader takes four entries, so bytes after them are ignored, and a repeated key
    leaves another one missing. *)
Example trailing_bytes_ignored : DecodeEnvelope (EncodeEnvelope demo_envelope ++ [1; 2; 3]) = inr demo_envelope.
Proof. vm_compute. reflexivity. Qed.
