(* ===== verification/WsFrame.v ===== *)
(** * The WebSocket framing layer ([pkg/websocket/frame.go])

    The frame codec of RFC 6455 and the server-side connection above it: masking, the three
    length encodings, control frames answered while a message is reassembled, size limits
    and the closing handshake.

    Bytes are integers below 256.  A connection holds the bytes its peer will send
    ([raw_in], which ends when the peer closes), the bytes it has written, and a script of
    the outcomes of its writes, each of which may fail after a part of its bytes, so that
    every failure of the network is covered.  Go's [make] panics beyond [maxAlloc] bytes;
    the panic is one of the errors.  That [append] would panic for a message of more than
    [maxAlloc] bytes, collected from fragments, is not modelled.

    The theorems: a reader gets back the frame a writer sent, in both directions; a message
    split into fragments, with pings and pongs between them, is delivered whole and the
    pings are answered in order; reading returns on every input, never more than the limit
    and, with a limit set, without a panic; and an envelope of [WsEnvelope] written to a
    connection is decoded from it. *)

From S2P Require Import Prelude WsEnvelope.
Local Open Scope Z_scope.

(** ** The program *)

Notation TextMessage := 1 (only parsing).
Notation BinaryMessage := 2 (only parsing).

Notation opContinuation := 0x0 (only parsing).
Notation opText := 0x1 (only parsing).
Notation opBinary := 0x2 (only parsing).
Notation opClose := 0x8 (only parsing).
Notation opPing := 0x9 (only parsing).
Notation opPong := 0xA (only parsing).

Notation CloseProtocolError := 1002 (only parsing).
Notation CloseNoStatusRcvd := 1005 (only parsing).
Notation CloseMessageTooBig := 1009 (only parsing).

(** The largest slice the runtime allocates on a 64-bit platform. *)
Definition maxAlloc : Z := 2 ^ 48.

Inductive werror :=
  | EOF_ | UnexpectedEOF | ErrUnmaskedClientFrame | ErrMaskedServerFrame | ErrMessageTooLarge
  | ErrControlFrameTooLarge | ErrReservedBitsSet | CloseError (code : Z) (text : list Z)
  | UnknownOpcode (op : Z) | InvalidMessageType (mt : Z) | WriteFailed | MakeslicePanic.
#[global] Instance werror_eq_dec : EqDecision werror.
Proof. solve_decision. Defined.

Record frame := { fin : bool; opcode : Z; payload : list Z }.
#[global] Instance frame_eq_dec : EqDecision frame.
Proof. solve_decision. Defined.

(** [data[i] ^= key[(offset+i)&3]] for every index. *)
Fixpoint maskBytes (data key : list Z) (offset : Z) : list Z :=
  match data with
  | [] => []
  | b :: data => Z.lxor b (nth (Z.to_nat (Z.land offset 3)) key 0) :: maskBytes data key (offset + 1)
  end.

(** [io.ReadFull] into a buffer of [n] bytes. *)
Definition ReadFull (n : Z) : reader werror (list Z) := fun buf =>
  if decide (n <= 0) then (inr [], buf)
  else if decide (buf = []) then (inl EOF_, [])
  else if decide (Z.of_nat (length buf) < n) then (inl UnexpectedEOF, [])
  else (inr (take (Z.to_nat n) buf), drop (Z.to_nat n) buf).

Definition read_length (lenCode : Z) : reader werror Z :=
  if decide (lenCode = 126) then ext ← ReadFull 2; mret (be_decode ext)
  else if decide (lenCode = 127) then
    ext ← ReadFull 8;
    if decide (be_decode ext > MaxInt64) then fail ErrMessageTooLarge else mret (be_decode ext)
  else mret lenCode.

Definition read_body (masked : bool) (payloadLen : Z) : reader werror (list Z) :=
  key ← (if masked then ReadFull 4 else mret []);
  if decide (payloadLen > maxAlloc) then fail MakeslicePanic
  else
    data ← ReadFull payloadLen;
    mret (if masked then maskBytes data key 0 else data).

Definition readFrame (isServer : bool) (maxPayload : Z) : reader werror frame :=
  hdr ← ReadFull 2;
  let b0 := nth 0 hdr 0 in
  let b1 := nth 1 hdr 0 in
  let fin_ := bool_decide (Z.land b0 0x80 <> 0) in
  let op := Z.land b0 0x0f in
  let masked := bool_decide (Z.land b1 0x80 <> 0) in
  let lenCode := Z.land b1 0x7f in
  if decide (Z.land b0 0x70 <> 0) then fail ErrReservedBitsSet
  else
    let isControl := bool_decide (Z.land op 0x08 <> 0) in
    if isControl && negb fin_ then fail ErrControlFrameTooLarge
    else if isControl && bool_decide (lenCode > 125) then fail ErrControlFrameTooLarge
    else if isServer && negb masked then fail ErrUnmaskedClientFrame
    else if negb isServer && masked then fail ErrMaskedServerFrame
    else
      payloadLen ← read_length lenCode;
      if negb isControl && bool_decide (maxPayload > 0) && bool_decide (payloadLen > maxPayload) then fail ErrMessageTooLarge
      else
        data ← read_body masked payloadLen;
        mret {| fin := fin_; opcode := op; payload := data |}.

(** The header of a server frame. *)
Definition frame_header (fin_ : bool) (op n : Z) : list Z :=
  let b0 := if fin_ then Z.lor (Z.land op 0x0f) 0x80 else Z.land op 0x0f in
  if decide (n <= 125) then [b0; u8 n]
  else if decide (n <= 0xFFFF) then [b0; 126] ++ be_encode 2 (u16 n)
  else [b0; 127] ++ be_encode 8 (u64 n).

Record Conn := {
  raw_in : list Z; raw_out : list Z; raw_script : list (option nat); raw_closed : bool;
  maxMsg : Z; closeOnce : bool; closeSent : bool
}.

Definition newServerConn (input : list Z) (script : list (option nat)) (max : Z) : Conn :=
  {| raw_in := input; raw_out := []; raw_script := script; raw_closed := false; maxMsg := max; closeOnce := false; closeSent := false |}.
Definition NewServerConn := newServerConn.

(** [raw.Write]: succeeds or fails as the script says, and succeeds once it is exhausted;
    a write that fails may have sent the first [n] bytes. *)
Definition raw_Write (c : Conn) (bs : list Z) : option werror * Conn :=
  let failed := if raw_closed c then Some O else hd None (raw_script c) in
  (match failed with None => None | Some _ => Some WriteFailed end,
   {| raw_in := raw_in c; raw_out := raw_out c ++ match failed with None => bs | Some n => take n bs end; raw_script := tail (raw_script c);
      raw_closed := raw_closed c; maxMsg := maxMsg c; closeOnce := closeOnce c; closeSent := closeSent c |}).

Definition writeFrame (c : Conn) (fin_ : bool) (op : Z) (data : list Z) : option werror * Conn :=
  match raw_Write c (frame_header fin_ op (Z.of_nat (length data))) with
  | (Some err, c) => (Some err, c)
  | (None, c) => if decide (Z.of_nat (length data) > 0) then raw_Write c data else (None, c)
  end.

Definition Conn_writeControl (c : Conn) (op : Z) (data : list Z) : option werror * Conn :=
  if decide (Z.of_nat (length data) > 125) then (Some ErrControlFrameTooLarge, c) else writeFrame c true op data.

Definition Conn_WritePing (c : Conn) (data : list Z) := Conn_writeControl c opPing data.
Definition Conn_WritePong (c : Conn) (data : list Z) := Conn_writeControl c opPong data.

Definition Conn_WriteMessage (c : Conn) (mt : Z) (data : list Z) : option werror * Conn :=
  if decide (mt = TextMessage) then writeFrame c true opText data
  else if decide (mt = BinaryMessage) then writeFrame c true opBinary data
  else (Some (InvalidMessageType mt), c).

Definition mark_closing (c : Conn) : Conn :=
  {| raw_in := raw_in c; raw_out := raw_out c; raw_script := raw_script c; raw_closed := raw_closed c;
     maxMsg := maxMsg c; closeOnce := true; closeSent := true |}.

Definition close_body (code : Z) (reason : list Z) : list Z :=
  let cc := if decide (code < 0) then 0 else if decide (code > 0xffff) then 0xffff else code in
  let body := be_encode 2 (u16 cc) ++ reason in
  if decide (Z.of_nat (length body) > 125) then take 125 body else body.

Definition Conn_sendClose (c : Conn) (code : Z) (reason : list Z) : option werror * Conn :=
  if closeOnce c then (None, c) else writeFrame (mark_closing c) true opClose (close_body code reason).

Definition Conn_Close := Conn_sendClose.

Definition Conn_CloseNow (c : Conn) (code : Z) (reason : list Z) : option werror * Conn :=
  let (err, c) := Conn_sendClose c code reason in
  let cerr := if raw_closed c then Some WriteFailed else None in
  (match err with Some e => Some e | None => cerr end,
   {| raw_in := raw_in c; raw_out := raw_out c; raw_script := raw_script c; raw_closed := true;
      maxMsg := maxMsg c; closeOnce := closeOnce c; closeSent := closeSent c |}).

Definition set_in (c : Conn) (bs : list Z) : Conn :=
  {| raw_in := bs; raw_out := raw_out c; raw_script := raw_script c; raw_closed := raw_closed c;
     maxMsg := maxMsg c; closeOnce := closeOnce c; closeSent := closeSent c |}.

(** The reasons the connection gives when it closes. *)
Definition bytes_of (s : string) : list Z := (fun a => Z.of_N (Ascii.N_of_ascii a)) <$> String.list_ascii_of_string s.

Definition read_result : Type := (werror + (Z * list Z)) * Conn.

(** What [ReadMessage] does with a frame that could not be read. *)
Definition refuse (c : Conn) (err : werror) : read_result :=
  (inl err,
   match err with
   | ErrMessageTooLarge => (Conn_sendClose c CloseMessageTooBig (bytes_of "message too big")).2
   | ErrUnmaskedClientFrame | ErrReservedBitsSet | ErrControlFrameTooLarge =>
       (Conn_sendClose c CloseProtocolError (bytes_of "protocol error")).2
   | _ => c
   end).

Definition receive_close (c : Conn) (data : list Z) : read_result :=
  let '(code, reason) :=
    if decide (Z.of_nat (length data) >= 2) then (be_decode (take 2 data), drop 2 data) else (CloseNoStatusRcvd, []) in
  (inl (CloseError code reason), (Conn_sendClose c code []).2).

Definition too_big (c : Conn) : read_result :=
  (inl ErrMessageTooLarge, (Conn_sendClose c CloseMessageTooBig (bytes_of "message too big")).2).

(** The loop of [ReadMessage]; [None] is a loop that outlasts its fuel. *)
Fixpoint read_loop (fuel : nat) (c : Conn) (msg : list Z) (msgType : Z) (fragmented haveDataType : bool) : option read_result :=
  match fuel with
  | O => None
  | S fuel =>
      match readFrame true (maxMsg c) (raw_in c) with
      | (inl err, rest) => Some (refuse (set_in c rest) err)
      | (inr fr, rest) =>
          let c := set_in c rest in
          if decide (opcode fr = opPing) then
            match Conn_writeControl c opPong (payload fr) with
            | (Some err, c) => Some (inl err, c)
            | (None, c) => read_loop fuel c msg msgType fragmented haveDataType
            end
          else if decide (opcode fr = opPong) then read_loop fuel c msg msgType fragmented haveDataType
          else if decide (opcode fr = opClose) then Some (receive_close c (payload fr))
          else if decide (opcode fr = opText \/ opcode fr = opBinary) then
            if fragmented then Some (inl ErrReservedBitsSet, (Conn_sendClose c CloseProtocolError (bytes_of "unexpected data frame")).2)
            else
              let msgType := if decide (opcode fr = opText) then TextMessage else BinaryMessage in
              let msg := msg ++ payload fr in
              if decide (maxMsg c > 0 /\ Z.of_nat (length msg) > maxMsg c) then Some (too_big c)
              else if fin fr then Some (inr (msgType, msg), c)
              else read_loop fuel c msg msgType true true
          else if decide (opcode fr = opContinuation) then
            if negb haveDataType then Some (inl ErrReservedBitsSet, (Conn_sendClose c CloseProtocolError (bytes_of "continuation without start")).2)
            else
              let msg := msg ++ payload fr in
              if decide (maxMsg c > 0 /\ Z.of_nat (length msg) > maxMsg c) then Some (too_big c)
              else if fin fr then Some (inr (msgType, msg), c)
              else read_loop fuel c msg msgType fragmented haveDataType
          else Some (inl (UnknownOpcode (opcode fr)), (Conn_sendClose c CloseProtocolError (bytes_of "unknown opcode")).2)
      end
  end.

Definition Conn_ReadMessage (c : Conn) : option read_result := read_loop (S (length (raw_in c))) c [] 0 false false.

(** ** The frame format

    The encoding of a frame, from a client (masked with its key) or from a server. *)
Definition mask_bit (mask : option (list Z)) : Z := match mask with Some _ => 128 | None => 0 end.

Definition encode_length (m n : Z) : list Z :=
  if decide (n <= 125) then [m + n] else if decide (n <= 0xFFFF) then (m + 126) :: be_encode 2 n else (m + 127) :: be_encode 8 n.

Definition encode_frame (mask : option (list Z)) (fr : frame) : list Z :=
  ((if fin fr then 128 else 0) + opcode fr) :: encode_length (mask_bit mask) (Z.of_nat (length (payload fr))) ++
  match mask with Some key => key ++ maskBytes (payload fr) key 0 | None => payload fr end.

(** The frames the protocol allows: control frames are whole and short, data frames within
    the reader's limit. *)
Definition is_control (op : Z) : Prop := 8 <= op.

Record frame_ok (maxPayload : Z) (fr : frame) : Prop := {
  fo_opcode : 0 <= opcode fr < 16;
  fo_control : is_control (opcode fr) -> fin fr = true /\ Z.of_nat (length (payload fr)) <= 125;
  fo_limit : ~ is_control (opcode fr) -> 0 < maxPayload -> Z.of_nat (length (payload fr)) <= maxPayload;
  fo_alloc : Z.of_nat (length (payload fr)) <= maxAlloc
}.

Lemma maskBytes_length data key o : length (maskBytes data key o) = length data.
Proof. revert o. induction data as [|b data IH]; intros o; simpl; [done|]. by rewrite IH. Qed.

Lemma maskBytes_involutive data key o : maskBytes (maskBytes data key o) key o = data.
Proof. revert o. induction data as [|b data IH]; intros o; simpl; [done|]. by rewrite IH, Z.lxor_assoc, Z.lxor_nilpotent, Z.lxor_0_r. Qed.

Lemma ReadFull_app a rest n : n = Z.of_nat (length a) -> ReadFull n (a ++ rest) = (inr a, rest).
Proof.
  intros ->. unfold ReadFull. destruct a as [|x a]; [by rewrite decide_True|].
  rewrite decide_False by (cbn; lia). rewrite decide_False by done. rewrite decide_False by (rewrite length_app; lia).
  by rewrite Nat2Z.id, take_app_length, drop_app_length.
Qed.

(** The bit fields of the two header bytes, by enumeration. *)
Lemma first_byte_bits (f : bool) op : 0 <= op < 16 ->
  let b := (if f then 128 else 0) + op in
  bool_decide (Z.land b 0x80 <> 0) = f /\ Z.land b 0x70 = 0 /\ Z.land b 0x0f = op /\ bool_decide (Z.land op 0x08 <> 0) = bool_decide (is_control op).
Proof.
  intros Hop.
  assert (Forall (fun op => Forall (fun f : bool =>
    bool_decide (Z.land ((if f then 128 else 0) + op) 0x80 <> 0) = f /\ Z.land ((if f then 128 else 0) + op) 0x70 = 0 /\
    Z.land ((if f then 128 else 0) + op) 0x0f = op /\
    bool_decide (Z.land op 0x08 <> 0) = bool_decide (8 <= op)) [true; false]) (seqZ 0 16)) as H by by_eval.
  rewrite Forall_forall in H. specialize (H op ltac:(apply elem_of_seqZ; lia)). rewrite Forall_forall in H. apply H.
  destruct f; set_solver.
Qed.

Lemma second_byte_bits mask l : 0 <= l < 128 ->
  let b := mask_bit mask + l in bool_decide (Z.land b 0x80 <> 0) = bool_decide (is_Some mask) /\ Z.land b 0x7f = l.
Proof.
  intros Hl.
  assert (Forall (fun l => bool_decide (Z.land (128 + l) 0x80 <> 0) = true /\ bool_decide (Z.land (0 + l) 0x80 <> 0) = false /\
    Z.land (128 + l) 0x7f = l /\ Z.land (0 + l) 0x7f = l) (seqZ 0 128)) as H.
  { by_eval. }
  rewrite Forall_forall in H. destruct (H l) as (H1 & H2 & H3 & H4); [apply elem_of_seqZ; lia|].
  destruct mask; cbn [mask_bit]; split; done.
Qed.

(** The length field: its code, and the bytes that follow the code. *)
Definition length_code (n : Z) : Z := if decide (n <= 125) then n else if decide (n <= 0xFFFF) then 126 else 127.
Definition length_ext (n : Z) : list Z :=
  if decide (n <= 125) then [] else if decide (n <= 0xFFFF) then be_encode 2 n else be_encode 8 n.

Lemma encode_length_split m n : encode_length m n = (m + length_code n) :: length_ext n.
Proof. unfold encode_length, length_code, length_ext. repeat case_decide; done. Qed.

Lemma length_code_range n : 0 <= n -> 0 <= length_code n < 128 /\ (length_code n > 125 <-> n > 125).
Proof. unfold length_code. repeat case_decide; lia. Qed.

Lemma read_length_ok n rest : 0 <= n <= MaxInt64 -> read_length (length_code n) (length_ext n ++ rest) = (inr n, rest).
Proof.
  intros Hn. unfold read_length, length_code, length_ext. destruct (decide (n <= 125)).
  { rewrite !decide_False by lia. done. }
  destruct (decide (n <= 0xFFFF)).
  - rewrite decide_True by done. erewrite reader_bind_ok; [|by apply ReadFull_app; rewrite be_encode_length].
    by rewrite be_decode_encode, Z.mod_small by (cbn; lia).
  - rewrite decide_False, decide_True by done. erewrite reader_bind_ok; [|by apply ReadFull_app; rewrite be_encode_length].
    rewrite be_decode_encode, Z.mod_small by (unfold MaxInt64 in *; cbn; lia). by rewrite decide_False by lia.
Qed.

Lemma readFrame_ok mask maxPayload fr rest :
  frame_ok maxPayload fr -> (forall key, mask = Some key -> length key = 4%nat) ->
  readFrame (bool_decide (is_Some mask)) maxPayload (encode_frame mask fr ++ rest) = (inr fr, rest).
Proof.
  intros [Hop Hctl Hlim Halloc] Hkey. set (n := Z.of_nat (length (payload fr))) in *. assert (0 <= n) as Hn by (unfold n; lia).
  destruct (length_code_range n Hn) as [Hcode Hlong]. unfold encode_frame. fold n. rewrite encode_length_split.
  set (body := match mask with Some key => _ | None => _ end).
  change (?x :: (?y :: ?l) ++ body) with ([x; y] ++ l ++ body). rewrite <- !app_assoc.
  unfold readFrame. erewrite reader_bind_ok; [|by apply ReadFull_app]. cbn [nth].
  destruct (first_byte_bits (fin fr) (opcode fr) Hop) as (-> & -> & -> & ->).
  destruct (second_byte_bits mask (length_code n) Hcode) as [-> ->].
  rewrite decide_False by tauto.
  assert (bool_decide (is_control (opcode fr)) && negb (fin fr) = false) as ->.
  { case_bool_decide as Hc; [|done]. by destruct (Hctl Hc) as [-> _]. }
  assert (bool_decide (is_control (opcode fr)) && bool_decide (length_code n > 125) = false) as ->.
  { case_bool_decide as Hc; [|done]. apply bool_decide_eq_false. destruct (Hctl Hc). lia. }
  rewrite andb_negb_r, andb_negb_l. erewrite reader_bind_ok; [|apply read_length_ok; unfold maxAlloc, MaxInt64 in *; lia].
  assert (negb (bool_decide (is_control (opcode fr))) && bool_decide (maxPayload > 0) && bool_decide (n > maxPayload) = false) as ->.
  { case_bool_decide as Hc; [done|]. case_bool_decide; [|done]. apply bool_decide_eq_false. specialize (Hlim Hc). lia. }
  rewrite (reader_bind_ok _ _ _ (payload fr) rest); [by destruct fr|]. unfold read_body, body. destruct mask as [key|].
  - rewrite bool_decide_true by by eexists. rewrite <- app_assoc. erewrite reader_bind_ok; [|apply ReadFull_app; by rewrite (Hkey key eq_refl)].
    rewrite decide_False by lia. erewrite reader_bind_ok; [|apply ReadFull_app; by rewrite maskBytes_length].
    by rewrite maskBytes_involutive.
  - rewrite bool_decide_false by by intros []. erewrite reader_bind_ok; [|reflexivity].
    rewrite decide_False by lia. by erewrite reader_bind_ok; [|apply ReadFull_app].
Qed.

Lemma frame_header_ok f op n : 0 <= op < 16 -> 0 <= n < 2 ^ 63 ->
  frame_header f op n = ((if f then 128 else 0) + op) :: encode_length 0 n.
Proof.
  intros Hop Hn. assert (Forall (fun op => Z.lor (Z.land op 0x0f) 0x80 = 128 + op /\ Z.land op 0x0f = 0 + op) (seqZ 0 16)) as H by by_eval.
  rewrite Forall_forall in H. destruct (H op) as [H1 H2]; [apply elem_of_seqZ; lia|].
  unfold frame_header, encode_length, u8, u16, u64. rewrite H1, H2.
  destruct (decide (n <= 125)); [rewrite Z.mod_small by lia|destruct (decide (n <= 0xFFFF)); rewrite Z.mod_small by lia]; by destruct f.
Qed.

(** A connection whose writes succeed. *)
Definition open_conn (c : Conn) : Prop := raw_closed c = false /\ raw_script c = [].

Definition add_out (bs : list Z) (c : Conn) : Conn :=
  {| raw_in := raw_in c; raw_out := raw_out c ++ bs; raw_script := raw_script c; raw_closed := raw_closed c;
     maxMsg := maxMsg c; closeOnce := closeOnce c; closeSent := closeSent c |}.

Lemma writeFrame_open c f op data :
  open_conn c -> 0 <= op < 16 -> Z.of_nat (length data) < 2 ^ 63 ->
  writeFrame c f op data = (None, add_out (encode_frame None {| fin := f; opcode := op; payload := data |}) c).
Proof.
  intros [Hclosed Hscript] Hop Hn. unfold writeFrame, raw_Write. rewrite Hclosed, Hscript, frame_header_ok by lia. cbn.
  destruct c as [i o sc cl m once sent]. cbn in *. subst. unfold encode_frame, add_out. cbn.
  case_decide as Hd; [by rewrite <- app_assoc|]. assert (data = []) as -> by (destruct data; [done|cbn in Hd; lia]). by rewrite app_nil_r.
Qed.

(** What one side writes, the other reads.  A frame the server writes is the frame a
    client reads, and a frame a client sends under any masking key is the frame the server
    reads; in both cases the bytes after it are left. *)
Theorem ws_frame_roundtrip fr maxPayload c rest :
  open_conn c -> frame_ok maxPayload fr ->
  (exists bytes, (writeFrame c (fin fr) (opcode fr) (payload fr)).2 = add_out bytes c /\
     readFrame false maxPayload (bytes ++ rest) = (inr fr, rest)) /\
  (forall key, length key = 4%nat -> readFrame true maxPayload (encode_frame (Some key) fr ++ rest) = (inr fr, rest)).
Proof.
  intros Hc Hok. split.
  - eexists. split; [|by apply (readFrame_ok None)]. destruct Hok as [Hop _ _ Halloc].
    rewrite writeFrame_open; [by destruct fr|done|done|unfold maxAlloc in *; lia].
  - intros key Hkey. apply (readFrame_ok (Some key)); [done|]. by intros k [= <-].
Qed.

(** ** Reading always ends

    Readers never give bytes back; a frame takes at least its two header bytes. *)
Definition shrinks {A} (m : reader werror A) : Prop := forall bs r bs', m bs = (r, bs') -> (length bs' <= length bs)%nat.

Lemma shrinks_ret {A} (a : A) : shrinks (mret a).
Proof. intros bs r bs' Hm. unfold mret, reader_ret in Hm. by simplify_eq. Qed.
Lemma shrinks_fail {A} e : shrinks (fail e : reader werror A).
Proof. intros bs r bs' Hm. unfold fail in Hm. by simplify_eq. Qed.
Lemma shrinks_bind {A B} (m : reader werror A) (k : A -> reader werror B) : shrinks m -> (forall a, shrinks (k a)) -> shrinks (m ≫= k).
Proof.
  intros Hm Hk bs r bs'. unfold mbind, reader_bind. destruct (m bs) as [[e|a] bs1] eqn:Hb; apply Hm in Hb.
  - intros. by simplify_eq.
  - intros Hr%Hk. lia.
Qed.
Lemma shrinks_ReadFull n : shrinks (ReadFull n).
Proof. intros bs r bs' Hm. unfold ReadFull in Hm. repeat case_decide; simplify_eq; cbn; rewrite ?length_drop; lia. Qed.

Create HintDb reader.
#[local] Hint Resolve shrinks_ret shrinks_fail shrinks_bind shrinks_ReadFull : reader.

Lemma shrinks_read_length l : shrinks (read_length l).
Proof. unfold read_length. repeat case_decide; auto with reader. apply shrinks_bind; auto with reader. intros. case_decide; auto with reader. Qed.
Lemma shrinks_read_body m n : shrinks (read_body m n).
Proof.
  apply shrinks_bind; [destruct m; auto with reader|]. intros key. case_decide; auto with reader.
Qed.
#[local] Hint Resolve shrinks_read_length shrinks_read_body : reader.

Lemma readFrame_consumes s m bs fr rest : readFrame s m bs = (inr fr, rest) -> (length rest + 2 <= length bs)%nat.
Proof.
  intros (hdr & bs1 & Hhdr & Hrest)%reader_bind_inv.
  assert (length bs1 + 2 = length bs)%nat as Hlen.
  { clear Hrest. unfold ReadFull in Hhdr. repeat (case_decide; simplify_eq); try lia; try done. rewrite length_drop. lia. }
  enough (length rest <= length bs1)%nat by lia. revert Hrest.
  set (k := if decide _ then _ else _). enough (shrinks k) as Hk by apply Hk. unfold k.
  case_decide; [auto with reader|]. repeat (case_match; [auto with reader|]).
  apply shrinks_bind; [auto with reader|]. intros n. case_match; [auto with reader|]. auto with reader.
Qed.

(** Readers that do not panic. *)
Definition safe {A} (m : reader werror A) : Prop := forall bs, (m bs).1 <> inl MakeslicePanic.

Lemma safe_ret {A} (a : A) : safe (mret a).
Proof. done. Qed.
Lemma safe_fail {A} e : e <> MakeslicePanic -> safe (fail e : reader werror A).
Proof. intros He bs Hm. cbn in Hm. congruence. Qed.
Lemma safe_bind {A B} (m : reader werror A) (k : A -> reader werror B) : safe m -> (forall a, safe (k a)) -> safe (m ≫= k).
Proof. intros Hm Hk bs. unfold mbind, reader_bind. specialize (Hm bs). destruct (m bs) as [[e|a] bs1]; [|apply Hk]. cbn in *. congruence. Qed.
Lemma safe_ReadFull n : safe (ReadFull n).
Proof. intros bs. unfold ReadFull. repeat case_decide; done. Qed.
Lemma safe_bind_ret {A B} (a : A) (k : A -> reader werror B) : safe (k a) -> safe (mret a ≫= k).
Proof. done. Qed.
#[local] Hint Resolve safe_ret safe_bind safe_ReadFull : reader.
#[local] Hint Extern 1 (safe (fail _)) => apply safe_fail; discriminate : reader.

Lemma safe_read_length l : safe (read_length l).
Proof. unfold read_length. repeat case_decide; auto with reader. apply safe_bind; auto with reader. intros. case_decide; auto with reader. Qed.
Lemma safe_read_body m n : n <= maxAlloc -> safe (read_body m n).
Proof. intros Hn. apply safe_bind; [destruct m; auto with reader|]. intros key. rewrite decide_False by lia. auto with reader. Qed.

Lemma readFrame_safe s m : 0 < m <= maxAlloc -> safe (readFrame s m).
Proof.
  intros Hm. apply safe_bind; [auto with reader|]. intros hdr. set (op := Z.land (nth 0 hdr 0) 15). set (lc := Z.land (nth 1 hdr 0) 127).
  cbn zeta. fold op lc. case_decide; [auto with reader|].
  destruct (bool_decide (Z.land op 8 <> 0)); cbn [andb negb].
  - destruct (bool_decide (Z.land (nth 0 hdr 0) 128 <> 0)); cbn [negb]; [|auto with reader].
    case_bool_decide; [auto with reader|]. do 2 (case_match; [auto with reader|]).
    unfold read_length. rewrite !decide_False by lia. apply safe_bind_ret, safe_bind; [|auto with reader].
    apply safe_read_body. unfold maxAlloc. lia.
  - do 2 (case_match; [auto with reader|]). apply safe_bind; [apply safe_read_length|]. intros n.
    rewrite bool_decide_true by lia. cbn [andb].
    destruct (bool_decide_reflect (n > m)); [auto with reader|]. apply safe_bind; [apply safe_read_body; lia|auto with reader].
Qed.

(** The connection below the message loop. *)
Lemma writeFrame_frame c f op data : raw_in (writeFrame c f op data).2 = raw_in c /\ maxMsg (writeFrame c f op data).2 = maxMsg c.
Proof. unfold writeFrame, raw_Write. cbn. destruct (if raw_closed c then _ else _); cbn; [done|]. by case_decide. Qed.

Lemma writeControl_frame c op data err c' :
  Conn_writeControl c op data = (err, c') -> raw_in c' = raw_in c /\ maxMsg c' = maxMsg c /\ (err <> Some MakeslicePanic).
Proof.
  unfold Conn_writeControl. case_decide; [intros; by simplify_eq|]. pose proof (writeFrame_frame c true op data) as [H1 H2].
  assert ((writeFrame c true op data).1 <> Some MakeslicePanic) as H3.
  { unfold writeFrame, raw_Write. cbn. destruct (if raw_closed c then _ else _); cbn; [done|]. case_decide; cbn; [|done]. by destruct (if raw_closed c then _ else _). }
  destruct (writeFrame c true op data) as [e c1]. intros. simplify_eq/=. done.
Qed.

Lemma read_loop_total fuel c msg mt frag have : (length (raw_in c) < fuel)%nat -> is_Some (read_loop fuel c msg mt frag have).
Proof.
  revert c msg mt frag have. induction fuel as [|fuel IH]; intros c msg mt frag have Hlen; [lia|]. cbn [read_loop].
  destruct (readFrame true (maxMsg c) (raw_in c)) as [[err|fr] rest] eqn:Hfr; [by eexists|]. apply readFrame_consumes in Hfr.
  assert (forall msg mt frag have, is_Some (read_loop fuel (set_in c rest) msg mt frag have)) as Hgo by (intros; apply IH; cbn; lia).
  case_decide.
  { destruct (Conn_writeControl _ _ _) as [[err|] c1] eqn:Hw; [by eexists|]. apply writeControl_frame in Hw as (Hin & _). apply IH. rewrite Hin. cbn. lia. }
  repeat (case_decide || case_match); first [by eexists | apply Hgo].
Qed.

(** What a call of [ReadMessage] can return. *)
Definition sound_result (max : Z) (r : werror + (Z * list Z)) : Prop :=
  match r with
  | inr (mt, msg) => (mt = TextMessage \/ mt = BinaryMessage) /\ (0 < max -> Z.of_nat (length msg) <= max)
  | inl err => 0 < max <= maxAlloc -> err <> MakeslicePanic
  end.

Lemma read_loop_sound fuel c msg mt frag have r c' :
  (have = true -> mt = TextMessage \/ mt = BinaryMessage) ->
  read_loop fuel c msg mt frag have = Some (r, c') -> sound_result (maxMsg c) r.
Proof.
  revert c msg mt frag have. induction fuel as [|fuel IH]; intros c msg mt frag have Hmt Hr; [done|]. cbn [read_loop] in Hr.
  destruct (readFrame true (maxMsg c) (raw_in c)) as [[err|fr] rest] eqn:Hfr.
  { unfold refuse in Hr. simplify_eq. intros Hmax ->. pose proof (readFrame_safe true (maxMsg c) Hmax (raw_in c)) as Hs. by rewrite Hfr in Hs. }
  assert (forall msg mt frag have, (have = true -> mt = TextMessage \/ mt = BinaryMessage) ->
    read_loop fuel (set_in c rest) msg mt frag have = Some (r, c') -> sound_result (maxMsg c) r) as Hgo.
  { intros msg' mt' frag' have' Hmt' Hr'. by apply (IH _ _ _ _ _ Hmt' Hr'). }
  case_decide.
  { destruct (Conn_writeControl _ _ _) as [[err|] c1] eqn:Hw; apply writeControl_frame in Hw as (_ & Hmax & Hp).
    - simplify_eq. cbn. congruence.
    - apply IH in Hr; [|done]. by rewrite Hmax in Hr. }
  case_decide; [by eapply Hgo|]. case_decide; [unfold receive_close in Hr; case_match; by simplify_eq|].
  case_decide.
  { destruct frag; [by simplify_eq|]. case_decide; [by simplify_eq|]. assert (forall b, (if decide (opcode fr = opText) then TextMessage else BinaryMessage) = b -> b = TextMessage \/ b = BinaryMessage) as Ht.
    { intros b <-. case_decide; auto. }
    destruct (fin fr); [|by eapply Hgo; [|exact Hr]; intros; eapply Ht]. simplify_eq. split; [by eapply Ht|]. cbn in *. lia. }
  case_decide; [|by simplify_eq]. destruct have; cbn [negb] in Hr; [|by simplify_eq]. case_decide; [by simplify_eq|].
  destruct (fin fr); [|by eapply Hgo; [|exact Hr]]. simplify_eq. split; [by apply Hmt|]. cbn in *. lia.
Qed.

(** C40: [ReadMessage] returns on every input, however the peer splits or corrupts its frames
    and whatever becomes of the writes.  A message it delivers is text or binary and no
    longer than the limit; with a limit that can be allocated, it does not panic. *)
Theorem ws_read_terminates c :
  exists r c', Conn_ReadMessage c = Some (r, c') /\ sound_result (maxMsg c) r.
Proof.
  destruct (read_loop_total (S (length (raw_in c))) c [] 0 false false ltac:(lia)) as [[r c'] Hr].
  exists r, c'. split; [done|]. by eapply (read_loop_sound _ c [] 0 false false).
Qed.

(** ** Reassembling a message

    A message as a client may send it: fragments, each preceded by control frames, and each
    frame masked with a key of its own. *)
Record control := { ct_ping : bool; ct_key : list Z; ct_data : list Z }.
Record fragment := { fg_before : list control; fg_key : list Z; fg_data : list Z }.

Definition control_frame (ct : control) : frame := {| fin := true; opcode := if ct_ping ct then opPing else opPong; payload := ct_data ct |}.
Definition pong_frame (ct : control) : frame := {| fin := true; opcode := opPong; payload := ct_data ct |}.

Definition controls_bytes (cs : list control) : list Z := mjoin ((fun ct => encode_frame (Some (ct_key ct)) (control_frame ct)) <$> cs).
Definition pongs (cs : list control) : list Z := mjoin ((fun ct => if ct_ping ct then encode_frame None (pong_frame ct) else []) <$> cs).

Fixpoint message_bytes (op : Z) (fgs : list fragment) : list Z :=
  match fgs with
  | [] => []
  | fg :: fgs =>
      controls_bytes (fg_before fg) ++
      encode_frame (Some (fg_key fg)) {| fin := bool_decide (fgs = []); opcode := op; payload := fg_data fg |} ++
      message_bytes opContinuation fgs
  end.

Definition message_data (fgs : list fragment) : list Z := mjoin (fg_data <$> fgs).
Definition message_pongs (fgs : list fragment) : list Z := mjoin ((fun fg => pongs (fg_before fg)) <$> fgs).

Definition control_ok (ct : control) : Prop := length (ct_key ct) = 4%nat /\ Z.of_nat (length (ct_data ct)) <= 125.
Definition fragment_ok (fg : fragment) : Prop :=
  Forall control_ok (fg_before fg) /\ length (fg_key fg) = 4%nat /\ Z.of_nat (length (fg_data fg)) <= maxAlloc.

Definition frames (fgs : list fragment) : nat := sum_list_with (fun fg => S (length (fg_before fg))) fgs.

Lemma open_add_out bs c : open_conn c -> open_conn (add_out bs c).
Proof. done. Qed.
Lemma add_out_app a b c : add_out b (add_out a c) = add_out (a ++ b) c.
Proof. unfold add_out. cbn. by rewrite <- app_assoc. Qed.
Lemma add_out_nil c : add_out [] c = c.
Proof. unfold add_out. rewrite app_nil_r. by destruct c. Qed.

Lemma read_control fuel c ct rest msg mt frag have :
  open_conn c -> control_ok ct ->
  read_loop (S fuel) (set_in c (encode_frame (Some (ct_key ct)) (control_frame ct) ++ rest)) msg mt frag have =
  read_loop fuel (set_in (add_out (if ct_ping ct then encode_frame None (pong_frame ct) else []) c) rest) msg mt frag have.
Proof.
  intros Hopen [Hkey Hlen]. cbn [read_loop maxMsg raw_in set_in].
  rewrite (readFrame_ok (Some (ct_key ct))); [|split; cbn; unfold is_control, maxAlloc; destruct (ct_ping ct); (done || lia)|by intros k [= <-]].
  cbn [opcode control_frame payload]. destruct (ct_ping ct).
  - rewrite decide_True by done. unfold Conn_writeControl. rewrite decide_False by lia.
    rewrite writeFrame_open; [done|done|done|lia].
  - rewrite decide_False, decide_True by done. by rewrite add_out_nil.
Qed.

Lemma read_controls fuel c cs rest msg mt frag have :
  open_conn c -> Forall control_ok cs ->
  read_loop (length cs + fuel) (set_in c (controls_bytes cs ++ rest)) msg mt frag have =
  read_loop fuel (set_in (add_out (pongs cs) c) rest) msg mt frag have.
Proof.
  intros Hopen Hcs. revert c Hopen. induction Hcs as [|ct cs Hct _ IH]; intros c Hopen; [by rewrite add_out_nil|].
  unfold controls_bytes, pongs. cbn [fmap list_fmap mjoin list_join length Nat.add]. rewrite <- app_assoc, read_control by done.
  fold (controls_bytes cs) (pongs cs). rewrite IH by by apply open_add_out. by rewrite add_out_app.
Qed.

(** One data frame: the first of a message or a continuation. *)
Definition data_opcode (frag have : bool) (mt op : Z) : Prop :=
  op = opContinuation /\ have = true \/ op = mt /\ frag = false /\ (op = opText \/ op = opBinary).

Lemma read_data fuel c fg (f : bool) op rest msg mt0 mt frag have :
  open_conn c -> length (fg_key fg) = 4%nat -> Z.of_nat (length (fg_data fg)) <= maxAlloc ->
  data_opcode frag have mt op -> (have = true -> mt0 = mt) ->
  (0 < maxMsg c -> Z.of_nat (length (msg ++ fg_data fg)) <= maxMsg c) ->
  read_loop (S fuel) (set_in c (encode_frame (Some (fg_key fg)) {| fin := f; opcode := op; payload := fg_data fg |} ++ rest)) msg mt0 frag have =
  if f then Some (inr (mt, msg ++ fg_data fg), set_in c rest)
  else read_loop fuel (set_in c rest) (msg ++ fg_data fg) mt (if decide (op = opContinuation) then frag else true) true.
Proof.
  intros Hopen Hkey Halloc Hop Hmt Hmax. cbn [read_loop maxMsg raw_in set_in].
  assert (op = opContinuation \/ op = opText \/ op = opBinary) as Hcases by (destruct Hop; tauto).
  unfold data_opcode in *.
  rewrite (readFrame_ok (Some (fg_key fg))); [|split; cbn; [lia|unfold is_control; lia| |done]|by intros k [= <-]].
  2: { intros _ Hm. specialize (Hmax Hm). rewrite length_app in Hmax. lia. }
  cbn [opcode payload fin]. rewrite !(decide_False (P := op = _)) by lia.
  assert (~ (maxMsg c > 0 /\ Z.of_nat (length (msg ++ fg_data fg)) > maxMsg c)) as Hlim.
  { intros [H1 H2]. specialize (Hmax ltac:(lia)). lia. }
  destruct Hop as [[-> ->]|(-> & -> & Hop)].
  - rewrite (decide_False (P := _ \/ _)), !(decide_True (P := 0 = 0)) by lia. cbn [negb maxMsg set_in].
    rewrite (decide_False (P := maxMsg c > 0 /\ _)) by done. by rewrite Hmt.
  - rewrite decide_True by done. cbn [maxMsg set_in]. rewrite (decide_False (P := maxMsg c > 0 /\ _)) by done.
    assert ((if decide (mt = 1) then TextMessage else BinaryMessage) = mt) as ->.
    { case_decide; lia. }
    destruct f; [done|]. by rewrite decide_False by lia.
Qed.

Lemma read_fragments fgs fuel c op rest msg mt0 mt frag have :
  open_conn c -> fgs <> [] -> Forall fragment_ok fgs -> data_opcode frag have mt op -> (have = true -> mt0 = mt) ->
  (0 < maxMsg c -> Z.of_nat (length (msg ++ message_data fgs)) <= maxMsg c) -> (frames fgs <= fuel)%nat ->
  read_loop fuel (set_in c (message_bytes op fgs ++ rest)) msg mt0 frag have =
  Some (inr (mt, msg ++ message_data fgs), set_in (add_out (message_pongs fgs) c) rest).
Proof.
  intros Hopen Hne Hok. revert fuel c op msg mt0 frag have Hopen Hne. induction Hok as [|fg fgs (Hctl & Hkey & Halloc) Hok IH]; [done|].
  intros fuel c op msg mt0 frag have Hopen _ Hop Hmt Hmax Hfuel.
  unfold frames in Hfuel. cbn [sum_list_with] in Hfuel. fold (frames fgs) in Hfuel.
  unfold message_data, message_pongs. cbn [message_bytes fmap list_fmap mjoin list_join]. fold (message_data fgs) (message_pongs fgs) in *.
  unfold message_data in Hmax. cbn [fmap list_fmap mjoin list_join] in Hmax. fold (message_data fgs) in Hmax.
  replace fuel with (length (fg_before fg) + S (fuel - S (length (fg_before fg))))%nat by lia.
  rewrite <- !app_assoc, read_controls by done. rewrite !app_assoc in Hmax.
  rewrite (read_data _ _ _ _ _ _ _ _ mt); [|by apply open_add_out|done|done|done|done|].
  2: { cbn [maxMsg add_out]. intros Hm. specialize (Hmax Hm). rewrite length_app in Hmax. lia. }
  case_bool_decide as Hlast.
  - subst fgs. cbn. by rewrite !app_nil_r.
  - rewrite (IH _ _ _ _ mt); [|by apply open_add_out|done|by left|done|done|lia].
    rewrite add_out_app, <- !app_assoc. done.
Qed.

Lemma encode_frame_length mask fr : (2 <= length (encode_frame mask fr))%nat.
Proof. unfold encode_frame. rewrite encode_length_split. cbn [length app]. lia. Qed.

Lemma controls_length cs : (length cs <= length (controls_bytes cs))%nat.
Proof.
  induction cs as [|ct cs IH]; [done|]. change (controls_bytes (ct :: cs)) with (encode_frame (Some (ct_key ct)) (control_frame ct) ++ controls_bytes cs).
  rewrite length_app. pose proof (encode_frame_length (Some (ct_key ct)) (control_frame ct)). cbn [length]. lia.
Qed.

Lemma frames_bytes op fgs : (frames fgs <= length (message_bytes op fgs))%nat.
Proof.
  revert op. induction fgs as [|fg fgs IH]; intros op; [done|]. unfold frames. cbn [sum_list_with message_bytes]. fold (frames fgs).
  rewrite !length_app. specialize (IH opContinuation). pose proof (encode_frame_length (Some (fg_key fg)) {| fin := bool_decide (fgs = []); opcode := op; payload := fg_data fg |}).
  pose proof (controls_length (fg_before fg)). lia.
Qed.

(** C30: a message sent in any number of fragments, under any keys, with pings and pongs
    before each fragment, is delivered whole if it is within the limit; every ping is
    answered by a pong with its payload, in order, and the bytes after the message stay. *)
Theorem ws_message_reassembled c mt fgs rest :
  open_conn c -> raw_in c = message_bytes mt fgs ++ rest -> mt = TextMessage \/ mt = BinaryMessage ->
  fgs <> [] -> Forall fragment_ok fgs -> (0 < maxMsg c -> Z.of_nat (length (message_data fgs)) <= maxMsg c) ->
  Conn_ReadMessage c = Some (inr (mt, message_data fgs), set_in (add_out (message_pongs fgs) c) rest).
Proof.
  intros Hopen Hin Hmt Hne Hok Hmax. unfold Conn_ReadMessage. rewrite Hin.
  replace c with (set_in c (message_bytes mt fgs ++ rest)) at 1 by (destruct c; cbn in *; by subst).
  apply (read_fragments fgs _ c mt rest [] 0 mt false false); try done.
  - right. split; [done|]. split; [done|]. done.
  - rewrite length_app. pose proof (frames_bytes mt fgs). lia.
Qed.

Lemma EncodeEnvelope_length e : Z.of_nat (length (Payload e)) <= 0xffffffff -> Z.of_nat (length (EncodeEnvelope e)) <= 2 ^ 33.
Proof.
  intros Hp. rewrite EncodeEnvelope_app.
  assert (forall v, length (appendUint [] v) <= 9)%nat as HU by (intros v; unfold appendUint; repeat case_decide; cbn; lia).
  assert (forall s, length (appendStr [] s) <= 257)%nat as HS.
  { intros s. rewrite appendStr_clip. unfold appendStr. rewrite (decide_False (P := Z.of_nat (length (take 255 s)) > 255)) by (rewrite length_take; lia).
    rewrite length_app, length_take. case_decide; cbn [length app]; lia. }
  assert (Z.of_nat (length (appendBin [] (Payload e))) <= 0xffffffff + 5) as HB.
  { unfold appendBin. rewrite (decide_False (P := _ > 0xffffffff)) by lia. rewrite length_app. repeat case_decide; cbn [length app]; lia. }
  cbn [length]. rewrite !length_app. pose proof (HS key_t). pose proof (HS key_p). pose proof (HS key_ts). pose proof (HS key_pl).
  pose proof (HS (PaneID e)). pose proof (HU (Type_ e)). pose proof (HU (Timestamp e)). lia.
Qed.

(** The two layers together.  An envelope that the server writes as a binary message
    reaches the client: the client reads one whole frame and decodes the envelope from it. *)
Theorem attach_roundtrip c e rest :
  open_conn c -> well_typed e ->
  exists bytes, (Conn_WriteMessage c BinaryMessage (EncodeEnvelope e)) = (None, add_out bytes c) /\
    exists fr, readFrame false 0 (bytes ++ rest) = (inr fr, rest) /\
      fin fr = true /\ opcode fr = opBinary /\ DecodeEnvelope (payload fr) = inr e.
Proof.
  intros Hopen Hwt. pose proof (EncodeEnvelope_length e ltac:(apply Hwt)) as Hlen.
  unfold Conn_WriteMessage. rewrite decide_False, decide_True by done. rewrite writeFrame_open by (done || lia).
  eexists. split; [done|]. eexists. split; [apply (readFrame_ok None); [|done]|].
  - split; cbn; unfold is_control, maxAlloc; lia.
  - split; [done|]. split; [done|]. cbn [payload]. rewrite <- (app_nil_r (EncodeEnvelope e)). unfold DecodeEnvelope.
    destruct (decode_encode e []) as [-> _]; [destruct Hwt as [? _ ? [? _]]; split; [unfold MsgError in *; lia|done]|].
    destruct Hwt as [? [? _] _ _]. rewrite decide_False by lia. f_equal. destruct e. unfold clip. cbn in *. by rewrite take_ge by lia.
Qed.

(** The close frame is sent once: later calls write nothing. *)
Lemma close_once c code reason code' reason' :
  let c' := (Conn_sendClose c code reason).2 in Conn_sendClose c' code' reason' = (None, c').
Proof.
  cbn zeta. assert (closeOnce (Conn_sendClose c code reason).2 = true) as H.
  { unfold Conn_sendClose. destruct (closeOnce c) eqn:Hc; [done|]. unfold writeFrame, raw_Write. cbn.
    match goal with |- context [match ?x with None => None | Some _ => Some WriteFailed end] => destruct x end; cbn; [done|]. by case_decide. }
  unfold Conn_sendClose at 1. by rewrite H.
Qed.

(** ** Concrete connections *)

Definition demo_fragments : list fragment :=
  [ {| fg_before := []; fg_key := [1; 2; 3; 4]; fg_data := [72; 101] |};
    {| fg_before := [{| ct_ping := true; ct_key := [9; 9; 9; 9]; ct_data := [7] |}]; fg_key := [5; 6; 7; 8]; fg_data := [108; 108; 111] |} ].
Definition demo_conn : Conn := newServerConn (message_bytes TextMessage demo_fragments ++ [1]) [] 100.

Lemma demo_fragments_ok : Forall fragment_ok demo_fragments.
Proof. by_eval. Qed.

Lemma ws_message_reassembled_witness :
  Conn_ReadMessage demo_conn = Some (inr (TextMessage, [72; 101; 108; 108; 111]), set_in (add_out [138; 1; 7] demo_conn) [1]).
Proof.
  refine (ws_message_reassembled demo_conn TextMessage demo_fragments [1] _ _ _ _ demo_fragments_ok _);
    [done|done|by left|done|intros _; by_eval].
Defined.

Lemma ws_frame_roundtrip_witness :
  readFrame true 10 (encode_frame (Some [1; 2; 3; 4]) {| fin := true; opcode := opText; payload := [104; 105] |} ++ [9]) =
    (inr {| fin := true; opcode := opText; payload := [104; 105] |}, [9]).
Proof.
  refine (proj2 (ws_frame_roundtrip {| fin := true; opcode := opText; payload := [104; 105] |} 10 demo_conn [9] _ _) [1; 2; 3; 4] _);
    [done|split; cbn; unfold is_control, maxAlloc; lia|done].
Defined.

Lemma attach_roundtrip_witness :
  exists bytes, (Conn_WriteMessage demo_conn BinaryMessage (EncodeEnvelope demo_envelope)) = (None, add_out bytes demo_conn) /\
    exists fr, readFrame false 0 (bytes ++ []) = (inr fr, []) /\
      fin fr = true /\ opcode fr = opBinary /\ DecodeEnvelope (payload fr) = inr demo_envelope.
Proof.
  refine (attach_roundtrip demo_conn demo_envelope [] _ _); [done|]. split; [by_eval|by_eval|by_eval|by_eval].
Defined.

(** With the limit disabled, fourteen bytes that announce a huge frame make the reader panic. *)
Example unlimited_reader_panics :
  fst <$> Conn_ReadMessage (newServerConn ([130; 255] ++ be_encode 8 (2 ^ 60) ++ [0; 0; 0; 0]) [] 0) = Some (inl MakeslicePanic).
Proof. vm_compute. reflexivity. Qed.

(** An empty Close frame is answered with status 1005, which RFC 6455 reserves for the case
    that no status was received and forbids on the wire. *)
Example reserved_status_is_sent :
  (fun r => raw_out r.2) <$> Conn_ReadMessage (newServerConn [136; 128; 0; 0; 0; 0] [] 0) = Some [136; 2; 3; 237].
Proof. vm_compute. reflexivity. Qed.

(** Data can still be written after the Close frame: [closeSent] is never read. *)
Example write_after_close :
  let c := (Conn_Close (newServerConn [] [] 0) 1000 []).2 in
  raw_out (Conn_WriteMessage c TextMessage [104]).2 = [136; 2; 3; 232; 129; 1; 104].
Proof. vm_compute. reflexivity. Qed.
