(* ===== verification/Backoff.v ===== *)
(** * Exponential backoff ([pkg/backoff])

    The delay before attempt [n] is computed in floating point: [Base * Factor^n], converted
    to a 64-bit duration and then capped.  What the conversion gives beyond the range of
    [int64] is an argument.

    The default schedules double exactly up to their caps.  Where the product leaves the
    64-bit range the cap depends on that conversion ([overflow_escapes_the_cap]). *)

From Stdlib Require Import SpecFloat.
From S2P Require Import Prelude GoFloat.
Local Open Scope Z_scope.

(** ** The program *)

Record Config := { Base : Z; Max : Z; Factor : float64 }.

Definition Millisecond : Z := 1000000.
Definition Second : Z := 1000 * Millisecond.

Definition Default : Config := {| Base := 100 * Millisecond; Max := 30 * Second; Factor := f64_of_int 2 |}.

Definition Config_Duration (oor : float64 -> Z) (c : Config) (n : Z) : Z :=
  let n := if decide (n < 0) then 0 else n in
  let d := int64_of oor (f64_mul (f64_of_int (Base c)) (math_Pow (Factor c) n)) in
  if decide (d > Max c) then Max c else d.

(** ** Schedules *)

(** Whatever the platform, the delays of a schedule are exact powers of two up to the cap
    while the uncapped product is a 64-bit integer. *)
Definition exact_up_to (base max : Z) (n : nat) : Prop :=
  Forall (fun k => f64_trunc (f64_mul (f64_of_int base) (math_Pow (f64_of_int 2) k)) = Some (base * 2 ^ k) /\
                   base * 2 ^ k <= MaxInt64) (seqZ 0 (Z.of_nat n)).

Lemma Duration_exact oor base max n k :
  exact_up_to base max n -> 0 <= base -> 0 <= k < Z.of_nat n ->
  Config_Duration oor {| Base := base; Max := max; Factor := f64_of_int 2 |} k = Z.min (base * 2 ^ k) max.
Proof.
  intros Hex Hb Hk. unfold exact_up_to in Hex. rewrite Forall_forall in Hex.
  destruct (Hex k) as [Htr Hmax]; [apply elem_of_seqZ; lia|]. unfold Config_Duration, int64_of. cbn [Base Max Factor].
  rewrite (decide_False (P := k < 0)) by lia. rewrite Htr.
  pose proof (Z.pow_pos_nonneg 2 k). rewrite (decide_True (P := MinInt64 <= _ <= _)) by (unfold MinInt64 in *; nia).
  case_decide; lia.
Qed.

(** The default schedule: 100ms doubling to the cap of 30s, for the first 37 attempts. *)
Lemma Default_schedule oor n : n < 37 -> Config_Duration oor Default n = Z.min (100 * Millisecond * 2 ^ Z.max 0 n) (30 * Second).
Proof.
  intros Hn. destruct (decide (n < 0)) as [Hneg|Hpos].
  - replace (Z.max 0 n) with 0 by lia. unfold Config_Duration. rewrite (decide_True (P := n < 0)) by done.
    change (Config_Duration oor Default 0 = Z.min (100 * Millisecond * 2 ^ 0) (30 * Second)).
    apply (Duration_exact oor _ _ 37); [|done|lia]. unfold exact_up_to. by_eval.
  - rewrite Z.max_r by lia. apply (Duration_exact oor _ _ 37); [|done|lia]. unfold exact_up_to. by_eval.
Qed.

(** At attempt 37 the product exceeds [2^63]: on amd64 the conversion gives a negative
    number, which the cap does not catch; on arm64 it saturates and is capped. *)
Example overflow_escapes_the_cap :
  Config_Duration amd64 Default 37 = MinInt64 /\ Config_Duration arm64 Default 37 = 30 * Second.
Proof. split; vm_compute; reflexivity. Qed.
