(* ===== verification/WorkQueue.v ===== *)
(** * The rate-limited work queue ([pkg/workqueue])

    Controllers share one queue of keys.  [dirty] holds the keys that need processing,
    [processing] the keys checked out by workers, [queue] the FIFO of the keys that are
    dirty and not checked out; deferred adds wait in [waiters] until the clock reaches them.
    The condition variable is the number of workers blocked in [Get] and the number that
    have been signalled and not yet run again.

    A [World] adds the clock and the log of accepted requests, deliveries and completions;
    [step] interleaves the calls of any number of producers and workers, each worker calling
    [Done] only on a key it holds.

    The theorems: no request is lost, whatever happens between it and the delivery; a key is
    held by one worker at a time, queued at most once, and delivered no more often than
    requested; the delays of failing keys double up to the cap; and while no deferred add is
    pending a queued key never waits for a worker that sleeps.  With deferred adds the last
    one fails ([deferred_wakeup_lost]). *)

From Stdlib Require Import SpecFloat.
From S2P Require Import Prelude GoFloat Backoff.
Local Open Scope Z_scope.

(** ** The program *)

Record ManualClock := { t : Z }.
Definition ManualClock_Now (c : ManualClock) : Z := t c.
Definition ManualClock_Step (c : ManualClock) (d : Z) : Z * ManualClock := (t c + d, {| t := t c + d |}).

Record RateLimitConfig := { rl_Base : Z; rl_Max : Z }.

Definition DefaultRateLimit : RateLimitConfig := {| rl_Base := 5 * Millisecond; rl_Max := 1000 * Second |}.

Definition backoffConfig (c : RateLimitConfig) : Config :=
  {| Base := rl_Base c; Max := rl_Max c; Factor := f64_of_int 2 |}.

Definition delayForFailures (oor : float64 -> Z) (c : RateLimitConfig) (failures : Z) : Z :=
  Config_Duration oor (backoffConfig c) failures.

(** [sync.Cond]: the goroutines blocked in [Wait], and those signalled that have still to
    take the lock. *)
Record Cond := { sleeping : nat; woken : nat }.
Definition Cond_Wait (c : Cond) : Cond := {| sleeping := S (sleeping c); woken := woken c |}.
Definition Cond_Signal (c : Cond) : Cond :=
  match sleeping c with O => c | S n => {| sleeping := n; woken := S (woken c) |} end.
Definition Cond_Broadcast (c : Cond) : Cond := {| sleeping := 0; woken := sleeping c + woken c |}.

Section WorkQueue.
  Context {A : Type} `{Countable A} (oor : float64 -> Z).

Record waiting := { w_item : A; w_t : Z }.

Record Queue := {
  rl : RateLimitConfig;
  cond : Cond;
  queue : list A;
  dirty : gset A;
  processing : gset A;
  waiters : list waiting;
  failures : gmap A Z;
  shuttingDown : bool
}.

Definition with_cond (q : Queue) (c : Cond) : Queue :=
  {| rl := rl q; cond := c; queue := queue q; dirty := dirty q; processing := processing q;
     waiters := waiters q; failures := failures q; shuttingDown := shuttingDown q |}.
Definition with_keys (q : Queue) (ks : list A) (d p : gset A) : Queue :=
  {| rl := rl q; cond := cond q; queue := ks; dirty := d; processing := p;
     waiters := waiters q; failures := failures q; shuttingDown := shuttingDown q |}.
Definition with_waiters (q : Queue) (ws : list waiting) : Queue :=
  {| rl := rl q; cond := cond q; queue := queue q; dirty := dirty q; processing := processing q;
     waiters := ws; failures := failures q; shuttingDown := shuttingDown q |}.
Definition with_failures (q : Queue) (m : gmap A Z) : Queue :=
  {| rl := rl q; cond := cond q; queue := queue q; dirty := dirty q; processing := processing q;
     waiters := waiters q; failures := m; shuttingDown := shuttingDown q |}.

Definition Queue_New (rl : RateLimitConfig) : Queue :=
  {| rl := rl; cond := {| sleeping := 0; woken := 0 |}; queue := []; dirty := ∅; processing := ∅;
     waiters := []; failures := ∅; shuttingDown := false |}.

Definition enqueueLocked (q : Queue) (item : A) : Queue :=
  if decide (item ∈ dirty q) then q
  else if decide (item ∈ processing q) then with_keys q (queue q) ({[item]} ∪ dirty q) (processing q)
  else with_keys q (queue q ++ [item]) ({[item]} ∪ dirty q) (processing q).

(** The loop of [readyLocked]: the waiters kept and the queue after those that are due. *)
Fixpoint ready_loop (now : Z) (ws : list waiting) (kept : list waiting) (q : Queue) : list waiting * Queue :=
  match ws with
  | [] => (kept, q)
  | w :: ws =>
      if decide (w_t w > now) then ready_loop now ws (kept ++ [w]) q
      else ready_loop now ws kept (enqueueLocked q (w_item w))
  end.
Definition readyLocked (now : Z) (q : Queue) : Queue :=
  let '(kept, q) := ready_loop now (waiters q) [] q in with_waiters q kept.

Definition Signal (q : Queue) : Queue := with_cond q (Cond_Signal (cond q)).

Definition Queue_Add (q : Queue) (item : A) : Queue :=
  if shuttingDown q then q else Signal (enqueueLocked q item).

Definition AddAfter (now : Z) (q : Queue) (item : A) (delay : Z) : Queue :=
  if shuttingDown q then q
  else if decide (delay <= 0) then Signal (enqueueLocked q item)
  else Signal (with_waiters q (waiters q ++ [{| w_item := item; w_t := now + delay |}])).

Definition AddRateLimited (now : Z) (q : Queue) (item : A) : Z * Queue :=
  if shuttingDown q then (0, q)
  else
    let n := zget (failures q) item in
    let delay := delayForFailures oor (rl q) n in
    let q := with_failures q (<[item := i64 (n + 1)]> (failures q)) in
    let q := if decide (delay <= 0) then enqueueLocked q item
             else with_waiters q (waiters q ++ [{| w_item := item; w_t := now + delay |}]) in
    (delay, Signal q).

Definition Forget (q : Queue) (item : A) : Queue := with_failures q (delete item (failures q)).
Definition Failures (q : Queue) (item : A) : Z := zget (failures q) item.

Inductive GetResult := Item (item : A) | Shutdown | Blocked.

(** One turn of the loop of [Get]: it returns, or it goes to sleep on the condition variable
    and takes another turn when it is woken. *)
Definition Get (now : Z) (q : Queue) : GetResult * Queue :=
  let q := readyLocked now q in
  match queue q with
  | item :: rest => (Item item, with_keys q rest (dirty q ∖ {[item]}) ({[item]} ∪ processing q))
  | [] => if shuttingDown q then (Shutdown, q) else (Blocked, with_cond q (Cond_Wait (cond q)))
  end.

Definition Done (q : Queue) (item : A) : Queue :=
  let q := with_keys q (queue q) (dirty q) (processing q ∖ {[item]}) in
  if decide (item ∈ dirty q) then Signal (with_keys q (queue q ++ [item]) (dirty q) (processing q)) else q.

Definition Queue_Len (now : Z) (q : Queue) : nat * Queue := let q := readyLocked now q in (length (queue q), q).

Definition ShutDown (q : Queue) : Queue :=
  {| rl := rl q; cond := Cond_Broadcast (cond q); queue := queue q; dirty := dirty q; processing := processing q;
     waiters := waiters q; failures := failures q; shuttingDown := true |}.

Definition ShuttingDown (q : Queue) : bool := shuttingDown q.

(** ** Executions *)

(** The log, newest entry first: a request accepted for a time, a delivery and a completion. *)
Inductive entry := Req (item : A) (due : Z) | Dlv (item : A) (at_ : Z) | Fin (item : A).

Record World := { clock : ManualClock; q : Queue; log : list entry }.

Definition request (w : World) (item : A) (delay : Z) (q' : Queue) : World :=
  {| clock := clock w; q := q';
     log := if shuttingDown (q w) then log w else Req item (ManualClock_Now (clock w) + Z.max 0 delay) :: log w |}.

Definition got (w : World) (r : GetResult * Queue) : World :=
  {| clock := clock w; q := r.2;
     log := match r.1 with Item x => Dlv x (ManualClock_Now (clock w)) :: log w | _ => log w end |}.

Definition quiet (w : World) (q' : Queue) : World := {| clock := clock w; q := q'; log := log w |}.

(** A woken worker takes the lock again. *)
Definition wake (q : Queue) : Queue :=
  with_cond q {| sleeping := sleeping (cond q); woken := pred (woken (cond q)) |}.

Inductive step (w : World) : World -> Prop :=
  | step_tick d : 0 <= d -> step w {| clock := (ManualClock_Step (clock w) d).2; q := q w; log := log w |}
  | step_add x : step w (request w x 0 (Queue_Add (q w) x))
  | step_add_after x d : step w (request w x d (AddAfter (ManualClock_Now (clock w)) (q w) x d))
  | step_add_limited x :
      let r := AddRateLimited (ManualClock_Now (clock w)) (q w) x in step w (request w x r.1 r.2)
  | step_forget x : step w (quiet w (Forget (q w) x))
  | step_get : step w (got w (Get (ManualClock_Now (clock w)) (q w)))
  | step_resume :
      (0 < woken (cond (q w)))%nat -> step w (got w (Get (ManualClock_Now (clock w)) (wake (q w))))
  | step_done x :
      x ∈ processing (q w) -> step w {| clock := clock w; q := Done (q w) x; log := Fin x :: log w |}
  | step_len : step w (quiet w (Queue_Len (ManualClock_Now (clock w)) (q w)).2)
  | step_shutdown : step w (quiet w (ShutDown (q w))).

Definition init (start : Z) (rl : RateLimitConfig) : World :=
  {| clock := {| t := start |}; q := Queue_New rl; log := [] |}.

(** The steps as commands, to run concrete executions. *)
Inductive cmd :=
  | CTick (d : Z) | CAdd (x : A) | CAddAfter (x : A) (d : Z) | CAddRateLimited (x : A) | CForget (x : A)
  | CGet | CResume | CDone (x : A) | CLen | CShutDown.

Definition exec (w : World) (c : cmd) : option World :=
  let now := ManualClock_Now (clock w) in
  match c with
  | CTick d => if decide (0 <= d) then Some {| clock := (ManualClock_Step (clock w) d).2; q := q w; log := log w |} else None
  | CAdd x => Some (request w x 0 (Queue_Add (q w) x))
  | CAddAfter x d => Some (request w x d (AddAfter now (q w) x d))
  | CAddRateLimited x => let r := AddRateLimited now (q w) x in Some (request w x r.1 r.2)
  | CForget x => Some (quiet w (Forget (q w) x))
  | CGet => Some (got w (Get now (q w)))
  | CResume => if decide (0 < woken (cond (q w)))%nat then Some (got w (Get now (wake (q w)))) else None
  | CDone x =>
      if decide (x ∈ processing (q w)) then Some {| clock := clock w; q := Done (q w) x; log := Fin x :: log w |} else None
  | CLen => Some (quiet w (Queue_Len now (q w)).2)
  | CShutDown => Some (quiet w (ShutDown (q w)))
  end.

Definition execs (cs : list cmd) (w : World) : option World :=
  foldl (fun ow c => w ← ow; exec w c) (Some w) cs.

Lemma exec_step w c w' : exec w c = Some w' -> step w w'.
Proof. destruct c; cbn; try case_decide; intros; simplify_eq; by constructor. Qed.

Lemma execs_cons c cs w w' : execs (c :: cs) w = Some w' -> exists w1, exec w c = Some w1 /\ execs cs w1 = Some w'.
Proof.
  unfold execs. cbn. destruct (exec w c) as [w1|]; cbn; [by eauto|]. intros Hn. exfalso. by induction cs; cbn in Hn; auto.
Qed.

Lemma execs_steps cs : forall w w', execs cs w = Some w' -> rtc step w w'.
Proof.
  induction cs as [|c cs IH]; intros w w' He; [cbn in He; by simplify_eq|].
  apply execs_cons in He as (w1 & Hc & He). eapply rtc_l; [by eapply exec_step|by apply IH].
Qed.

(** ** The invariant *)

Definition req1 (x : A) (e : entry) : nat := match e with Req y _ => if decide (y = x) then 1 else 0 | _ => 0 end.
Definition dlv1 (x : A) (e : entry) : nat := match e with Dlv y _ => if decide (y = x) then 1 else 0 | _ => 0 end.
Definition fin1 (x : A) (e : entry) : nat := match e with Fin y => if decide (y = x) then 1 else 0 | _ => 0 end.
Definition requests (x : A) (l : list entry) : nat := sum_list_with (req1 x) l.
Definition deliveries (x : A) (l : list entry) : nat := sum_list_with (dlv1 x) l.
Definition completions (x : A) (l : list entry) : nat := sum_list_with (fin1 x) l.
Definition waits (x : A) (ws : list waiting) : nat := length (filter (fun w => w_item w = x) ws).
Definition member (x : A) (s : gset A) : nat := if decide (x ∈ s) then 1 else 0.

(** What holds of the keys [q], the deferred adds [ws] and the log at time [now]. *)
Record inv (now : Z) (q : Queue) (ws : list waiting) (l : list entry) : Prop := {
  inv_nodup : NoDup (queue q);
  inv_exact x : x ∈ queue q <-> x ∈ dirty q /\ x ∉ processing q;
  inv_served l1 x due l2 :
    l = l1 ++ Req x due :: l2 ->
    (exists at_, Dlv x at_ ∈ l1 /\ due <= at_) \/
    (exists w, w ∈ ws /\ w_item w = x /\ w_t w = due) \/
    (x ∈ dirty q /\ due <= now);
  inv_count x : (deliveries x l + member x (dirty q) + waits x ws <= requests x l)%nat;
  inv_held x : deliveries x l = (completions x l + member x (processing q))%nat;
  inv_origin w : w ∈ ws -> Req (w_item w) (w_t w) ∈ l;
  inv_cause x : x ∈ dirty q -> exists due, Req x due ∈ l /\ due <= now;
  inv_justified l1 x at_ l2 : l = l1 ++ Dlv x at_ :: l2 -> exists due, Req x due ∈ l2 /\ due <= at_
}.

Ltac counts := unfold deliveries, requests, completions in *; cbn in *; repeat case_decide; simplify_eq/=; lia.

Lemma member_add x s y : member y ({[x]} ∪ s) = if decide (x = y) then 1%nat else member y s.
Proof. unfold member. repeat case_decide; set_solver. Qed.
Lemma member_del x s y : member y (s ∖ {[x]}) = if decide (x = y) then 0%nat else member y s.
Proof. unfold member. repeat case_decide; set_solver. Qed.
Lemma member_true x s : x ∈ s -> member x s = 1%nat.
Proof. intros. unfold member. by rewrite decide_True. Qed.
Lemma member_false x s : x ∉ s -> member x s = 0%nat.
Proof. intros. unfold member. by rewrite decide_False. Qed.

Lemma enqueue_dirty q x : dirty (enqueueLocked q x) = {[x]} ∪ dirty q.
Proof. unfold enqueueLocked. repeat case_decide; set_solver. Qed.

Lemma enqueue_rest q x :
  let q' := enqueueLocked q x in
  processing q' = processing q /\ waiters q' = waiters q /\ cond q' = cond q /\ shuttingDown q' = shuttingDown q.
Proof. unfold enqueueLocked. by repeat case_decide. Qed.

Lemma inv_perm now q ws ws' l : ws ≡ₚ ws' -> inv now q ws l -> inv now q ws' l.
Proof.
  intros Hp [Hn He Hs Hc Hh Ho Hz Hj]. split; try done.
  - intros l1 x due l2 Hl. destruct (Hs l1 x due l2 Hl) as [?|[(w & Hw & ?)|?]]; eauto.
    right; left. exists w. by rewrite <- Hp.
  - intros x. specialize (Hc x). unfold waits in *. by rewrite <- Hp.
  - intros w. rewrite <- Hp. apply Ho.
Qed.

Lemma inv_later now now' q ws l : now <= now' -> inv now q ws l -> inv now' q ws l.
Proof.
  intros Hle [Hn He Hs Hc Hh Ho Hz Hj]. split; try done.
  - intros l1 x due l2 Hl. destruct (Hs l1 x due l2 Hl) as [?|[?|[? ?]]]; eauto. right; right. split; [done|lia].
  - intros x (due & ? & ?)%Hz. exists due. split; [done|lia].
Qed.

(** Accepting a request is deferring it. *)
Lemma inv_request now q ws l x due :
  inv now q ws l -> inv now q ({| w_item := x; w_t := due |} :: ws) (Req x due :: l).
Proof.
  intros [Hn He Hs Hc Hh Ho Hz Hj]. split; try done.
  - intros l1 y d l2 Hl. destruct l1 as [|e l1]; simplify_eq/=.
    + right; left. eexists; split; [left|done].
    + destruct (Hs l1 y d l2) as [(a & ? & ?)|[(w & ? & ?)|?]]; [done|..|eauto].
      * left. exists a. split; [by right|done].
      * right; left. exists w. split; [by right|done].
  - intros y. specialize (Hc y). unfold waits in *. rewrite filter_cons. counts.
  - intros w [->|Hw]%elem_of_cons; [left|right; by apply Ho].
  - intros y (d & ? & ?)%Hz. exists d. split; [by right|done].
  - intros [|e l1] y a l2 Hl; simplify_eq/=. by eapply Hj.
Qed.

(** A deferred add that is due becomes a dirty key. *)
Lemma inv_promote now q w ws l :
  inv now q (w :: ws) l -> w_t w <= now -> inv now (enqueueLocked q (w_item w)) ws l.
Proof.
  intros [Hn He Hs Hc Hh Ho Hz Hj] Hdue. destruct (enqueue_rest q (w_item w)) as (Hproc & _). split.
  - unfold enqueueLocked. repeat case_decide; try done. cbn. apply NoDup_app. repeat split; [done| |apply NoDup_singleton].
    intros y Hy. rewrite list_elem_of_singleton. intros ->. apply He in Hy. naive_solver.
  - intros y. rewrite enqueue_dirty, Hproc. specialize (He y). unfold enqueueLocked.
    repeat case_decide; cbn; rewrite ?elem_of_app, ?list_elem_of_singleton; set_solver.
  - intros l1 y d l2 Hl. rewrite enqueue_dirty. destruct (Hs l1 y d l2 Hl) as [?|[(w' & Hw & <- & <-)|[? ?]]]; [by left|..].
    + apply elem_of_cons in Hw as [->|Hw]; [right; right; split; [set_solver|done]|right; left; by exists w'].
    + right; right. split; [set_solver|done].
  - intros y. specialize (Hc y). rewrite enqueue_dirty, member_add. unfold waits in *. rewrite filter_cons in Hc. counts.
  - intros y. rewrite Hproc. apply Hh.
  - intros w' Hw. apply Ho. by right.
  - intros y. rewrite enqueue_dirty, elem_of_union, elem_of_singleton. intros [->|Hy]; [|by apply Hz].
    exists (w_t w). split; [apply Ho; left|done].
  - done.
Qed.

Lemma ready_loop_inv now ws : forall kept q l,
  inv now q (ws ++ kept) l -> let '(kept', q') := ready_loop now ws kept q in inv now q' kept' l.
Proof.
  induction ws as [|w ws IH]; intros kept q l Hi; cbn; [done|]. case_decide.
  - apply IH. eapply inv_perm; [|exact Hi]. cbn. solve_Permutation.
  - apply IH. apply inv_promote; [exact Hi|lia].
Qed.

Lemma readyLocked_inv now q l : inv now q (waiters q) l -> inv now (readyLocked now q) (waiters (readyLocked now q)) l.
Proof.
  intros Hi. unfold readyLocked. pose proof (ready_loop_inv now (waiters q) [] q l) as Hr.
  rewrite app_nil_r in Hr. specialize (Hr Hi). destruct (ready_loop now (waiters q) [] q) as [kept q'].
  destruct Hr. by split.
Qed.

(** Handing a key to a worker. *)
Lemma inv_deliver now q x rest l :
  inv now q (waiters q) l -> queue q = x :: rest ->
  inv now (with_keys q rest (dirty q ∖ {[x]}) ({[x]} ∪ processing q)) (waiters q) (Dlv x now :: l).
Proof.
  intros [Hn He Hs Hc Hh Ho Hz Hj] Hq. pose proof (proj1 (He x)) as Hx. rewrite Hq in *. apply NoDup_cons in Hn as [Hni Hn].
  destruct Hx as [Hxd Hxp]; [left|]. split; cbn.
  - done.
  - intros y. specialize (He y). rewrite elem_of_cons in He. destruct (decide (y = x)) as [->|]; set_solver.
  - intros l1 y d l2 Hl. destruct l1 as [|e l1]; simplify_eq/=.
    destruct (Hs l1 y d l2 eq_refl) as [(a & ? & ?)|[?|[Hd ?]]].
    + left. exists a. split; [by right|done].
    + by right; left.
    + destruct (decide (y = x)) as [->|]; [left; exists now; split; [left|done]|right; right; split; [set_solver|done]].
  - intros y. specialize (Hc y). rewrite member_del. pose proof (member_true x _ Hxd).
    counts.
  - intros y. specialize (Hh y). rewrite member_add. pose proof (member_false x _ Hxp).
    counts.
  - intros w Hw. right. by apply Ho.
  - intros y [Hy _]%elem_of_difference. destruct (Hz y Hy) as (d & ? & ?). exists d. split; [by right|done].
  - intros [|e l1] y a l2 Hl; simplify_eq/=; [by apply Hz|by eapply Hj].
Qed.

(** A worker finishing the key it holds. *)
Lemma inv_finish now q x l :
  inv now q (waiters q) l -> x ∈ processing q -> inv now (Done q x) (waiters q) (Fin x :: l).
Proof.
  intros [Hn He Hs Hc Hh Ho Hz Hj] Hx. pose proof (He x) as Hex.
  assert (Hserved : forall l1 y d l2, Fin x :: l = l1 ++ Req y d :: l2 ->
    (exists at_, Dlv y at_ ∈ l1 /\ d <= at_) \/ (exists w, w ∈ waiters q /\ w_item w = y /\ w_t w = d) \/
    (y ∈ dirty q /\ d <= now)).
  { intros l1 y d l2 Hl. destruct l1 as [|e l1]; simplify_eq/=.
    destruct (Hs l1 y d l2 eq_refl) as [(a & ? & ?)|?]; [|by right]. left. exists a. split; [by right|done]. }
  assert (Hheld : forall y, deliveries y (Fin x :: l) = (completions y (Fin x :: l) + member y (processing q ∖ {[x]}))%nat).
  { intros y. specialize (Hh y). rewrite member_del. pose proof (member_true x _ Hx). counts. }
  assert (Horigin : forall w, w ∈ waiters q -> Req (w_item w) (w_t w) ∈ Fin x :: l) by (intros w Hw; right; by apply Ho).
  assert (Hcause : forall y, y ∈ dirty q -> exists d, Req y d ∈ Fin x :: l /\ d <= now).
  { intros y (d & ? & ?)%Hz. exists d. split; [by right|done]. }
  assert (Hjust : forall l1 y a l2, Fin x :: l = l1 ++ Dlv y a :: l2 -> exists d, Req y d ∈ l2 /\ d <= a).
  { intros [|e l1] y a l2 Hl; simplify_eq/=. by eapply Hj. }
  unfold Done. case_decide as Hd; cbn in Hd; split; try done; cbn.
  - apply NoDup_app. repeat split; [done| |apply NoDup_singleton]. set_solver.
  - intros y. specialize (He y). destruct (decide (y = x)) as [->|]; set_solver.
  - intros y. specialize (He y). destruct (decide (y = x)) as [->|]; set_solver.
Qed.

Lemma inv_get now q l :
  inv now q (waiters q) l ->
  let r := Get now q in
  inv now r.2 (waiters r.2) (match r.1 with Item x => Dlv x now :: l | _ => l end).
Proof.
  intros Hi%readyLocked_inv. unfold Get. set (q' := readyLocked now q) in *.
  destruct (queue q') as [|x rest] eqn:Hq; [|exact (inv_deliver now q' x rest l Hi Hq)]. destruct (shuttingDown q'); [done|].
  destruct Hi. by split.
Qed.

(** A request for now is promoted at once. *)
Lemma inv_request_now now q x l :
  inv now q (waiters q) l -> inv now (enqueueLocked q x) (waiters (enqueueLocked q x)) (Req x now :: l).
Proof.
  intros Hi%(inv_request now q _ l x now). apply inv_promote in Hi; [|done]. cbn in Hi.
  by destruct (enqueue_rest q x) as (_ & -> & _).
Qed.

Lemma inv_request_later now q x d l :
  inv now q (waiters q) l ->
  inv now q (waiters q ++ [{| w_item := x; w_t := now + d |}]) (Req x (now + d) :: l).
Proof. intros Hi%(inv_request now q _ l x (now + d)). eapply inv_perm; [|exact Hi]. solve_Permutation. Qed.

Definition World_inv (w : World) : Prop := inv (ManualClock_Now (clock w)) (q w) (waiters (q w)) (log w).

Lemma inv_congr now q q' ws l :
  queue q' = queue q -> dirty q' = dirty q -> processing q' = processing q -> inv now q ws l -> inv now q' ws l.
Proof. intros H1 H2 H3 [Hn He Hs Hc Hh Ho Hz Hj]. split; rewrite ?H1, ?H2, ?H3; try done; intros; rewrite ?H1, ?H2, ?H3; auto. Qed.

Lemma AddAfter_inv w x d :
  World_inv w -> World_inv (request w x d (AddAfter (ManualClock_Now (clock w)) (q w) x d)).
Proof.
  unfold World_inv, request, AddAfter. intros Hi. cbn [clock q log]. destruct (shuttingDown (q w)); [done|]. case_decide.
  - rewrite Z.max_l, Z.add_0_r by lia. eapply inv_congr; [..|by apply inv_request_now]; done.
  - rewrite Z.max_r by lia. eapply inv_congr; [..|by apply inv_request_later]; done.
Qed.

Lemma AddRateLimited_inv w x :
  let r := AddRateLimited (ManualClock_Now (clock w)) (q w) x in World_inv w -> World_inv (request w x r.1 r.2).
Proof.
  unfold World_inv, request, AddRateLimited. intros Hi. destruct (shuttingDown (q w)); cbn [clock q log fst snd]; [done|].
  set (d := delayForFailures _ _ _). set (q1 := with_failures _ _).
  assert (Hi1 : inv (ManualClock_Now (clock w)) q1 (waiters q1) (log w)) by (eapply inv_congr; [..|exact Hi]; done).
  case_decide.
  - rewrite Z.max_l, Z.add_0_r by lia. eapply inv_congr; [..|by apply inv_request_now]; done.
  - rewrite Z.max_r by lia. eapply inv_congr; [..|by apply inv_request_later]; done.
Qed.

Lemma world_step_inv w w' : step w w' -> World_inv w -> World_inv w'.
Proof.
  intros Hst Hi. destruct Hst as [d Hd|x|x d|x|x| |Hw|x Hx| |].
  - eapply inv_later; [|exact Hi]. cbn. unfold ManualClock_Now. lia.
  - exact (AddAfter_inv w x 0 Hi).
  - by apply AddAfter_inv.
  - by apply AddRateLimited_inv.
  - eapply inv_congr; [..|exact Hi]; done.
  - exact (inv_get _ _ _ Hi).
  - apply (inv_get _ (wake (q w)) (log w)). eapply inv_congr; [..|exact Hi]; done.
  - unfold World_inv. cbn [clock q log]. replace (waiters (Done (q w) x)) with (waiters (q w)); [by apply inv_finish|].
    unfold Done. by case_decide.
  - exact (readyLocked_inv _ _ _ Hi).
  - eapply inv_congr; [..|exact Hi]; done.
Qed.

Lemma world_init_inv start rl : World_inv (init start rl).
Proof.
  split; cbn; [constructor|set_solver|intros []; done| | |set_solver..|intros []; done];
    intros x; by rewrite member_false by set_solver.
Qed.

Lemma steps_inv start rl w : rtc step (init start rl) w -> World_inv w.
Proof.
  intros Hr. pose proof (world_init_inv start rl) as Hi. revert Hi. induction Hr as [|w1 w2 w3 Hst _ IH]; [done|].
  intros Hi. apply IH. by eapply world_step_inv.
Qed.

(** ** Wake-ups *)

(** Steps after which no deferred add is pending. *)
Definition step_now (w w' : World) : Prop := step w w' /\ waiters (q w') = [].

Definition awake (q : Queue) : Prop :=
  ((0 < sleeping (cond q))%nat -> (length (queue q) <= woken (cond q))%nat) /\
  (shuttingDown q = true -> sleeping (cond q) = 0%nat).

Lemma readyLocked_none now q : waiters q = [] -> readyLocked now q = q.
Proof. destruct q. cbn. intros ->. done. Qed.

Lemma awake_enqueue q x : awake q -> shuttingDown q = false -> awake (Signal (enqueueLocked q x)).
Proof.
  unfold awake, Signal, enqueueLocked, Cond_Signal. intros [Hlen Hsd] Hf.
  repeat case_decide; cbn; rewrite Hf; destruct (sleeping (cond q)) eqn:Hsl; cbn; rewrite ?Hsl, ?length_app; cbn;
    (split; [lia|done]).
Qed.

Lemma awake_get now q :
  waiters q = [] -> awake q \/ (exists q0, q = wake q0 /\ awake q0 /\ (0 < woken (cond q0))%nat) -> awake (Get now q).2.
Proof.
  intros Hw Ha. unfold Get. rewrite readyLocked_none by done.
  destruct (queue q) as [|x rest] eqn:Hq.
  - destruct (shuttingDown q) eqn:Hsd; [|split; cbn; rewrite ?Hq, ?Hsd; [cbn; lia|done]].
    destruct Ha as [Ha|(q0 & -> & [Hlen Hs] & Hpos)]; [done|]. split; cbn in *; [rewrite Hq; cbn; lia|done].
  - destruct Ha as [[Hlen Hs]|(q0 & -> & [Hlen Hs] & Hpos)]; split; cbn in *; rewrite ?Hq in *; cbn in *; auto; lia.
Qed.

Lemma step_now_awake w w' : step_now w w' -> waiters (q w) = [] -> awake (q w) -> awake (q w').
Proof.
  intros [Hst Hnil] Hw Ha. destruct Hst as [d Hd|x|x d|x|x| |Hwk|x Hx| |]; cbn in Hnil |- *; try done.
  - unfold Queue_Add. destruct (shuttingDown (q w)) eqn:Hs; [done|by apply awake_enqueue].
  - unfold AddAfter in *. destruct (shuttingDown (q w)) eqn:Hs; [done|].
    case_decide; [by apply awake_enqueue|by destruct (waiters (q w))].
  - unfold r, AddRateLimited in *. destruct (shuttingDown (q w)) eqn:Hs; [done|]. cbn in *.
    case_decide; [by apply awake_enqueue|cbn in Hnil; by destruct (waiters (q w))].
  - apply awake_get; auto.
  - apply awake_get; [done|]. right. by exists (q w).
  - unfold Done. case_decide; [|done]. destruct Ha as [Hlen Hs]. unfold awake, Signal, Cond_Signal. cbn.
    destruct (sleeping (cond (q w))) eqn:Hsl; cbn; rewrite ?Hsl, ?length_app; cbn; (split; [lia|intros ?%Hs; lia]).
  - by rewrite readyLocked_none.
  - destruct Ha. split; cbn; [lia|done].
Qed.

Lemma steps_now_awake start rl w : rtc step_now (init start rl) w -> awake (q w).
Proof.
  intros Hr. assert (Hw : waiters (q (init start rl)) = []) by done.
  assert (Ha : awake (q (init start rl))) by (split; cbn; [lia|done]). revert Hw Ha.
  induction Hr as [|w1 w2 w3 Hst _ IH]; [done|]. intros Hw Ha.
  apply IH; [exact (proj2 Hst)|by eapply step_now_awake].
Qed.

(** The delay of the next rate-limited add, and the count it leaves. *)
Lemma AddRateLimited_schedule now q x :
  rl q = DefaultRateLimit -> shuttingDown q = false -> 0 <= Failures q x < 41 ->
  let r := AddRateLimited now q x in
  r.1 = Z.min (5 * Millisecond * 2 ^ Failures q x) (1000 * Second) /\
  waiters r.2 = waiters q ++ [{| w_item := x; w_t := now + r.1 |}] /\
  Failures r.2 x = Failures q x + 1 /\ forall y, y <> x -> Failures r.2 y = Failures q y.
Proof.
  intros Hrl Hsd Hn. unfold AddRateLimited, Failures in *. rewrite Hsd, Hrl. cbn zeta. cbn [fst snd].
  set (n := zget (failures q) x) in *.
  assert (Hd : delayForFailures oor DefaultRateLimit n = Z.min (5 * Millisecond * 2 ^ n) (1000 * Second)).
  { apply (Duration_exact oor _ _ 41); [unfold exact_up_to; by_eval|done|lia]. }
  rewrite Hd. pose proof (Z.pow_pos_nonneg 2 n). rewrite decide_False by (unfold Second, Millisecond; nia). cbn.
  rewrite zget_insert_eq, i64_id by int_lia. repeat split; try done. intros y Hy. by rewrite zget_insert_ne.
Qed.

End WorkQueue.

Arguments waiting : clear implicits.
Arguments entry : clear implicits.
Arguments Queue A {_ _}.
Arguments cmd : clear implicits.
Arguments World A {_ _}.
#[global] Instance waiting_eq_dec {A} `{EqDecision A} : EqDecision (waiting A).
Proof. solve_decision. Defined.
#[global] Instance entry_eq_dec {A} `{EqDecision A} : EqDecision (entry A).
Proof. solve_decision. Defined.

(** ** The theorems *)

(** C28: No update is lost.  In every interleaving of adds, deferred and rate-limited adds,
    gets, completions, wake-ups and clock advances, every accepted request for a key has
    been answered by a delivery of that key after the request and not before its time, or
    it is still deferred, or the key is queued, or the key is being processed and marked to
    be queued again when its worker is done. *)
Theorem workqueue_no_lost_update {A} `{Countable A} oor start rl (w : World A) l1 x due l2 :
  rtc (step oor) (init start rl) w -> log w = l1 ++ Req x due :: l2 ->
  (exists at_, Dlv x at_ ∈ l1 /\ due <= at_) \/
  (exists wt, wt ∈ waiters (q w) /\ w_item wt = x /\ w_t wt = due) \/
  x ∈ queue (q w) \/
  (x ∈ processing (q w) /\ x ∈ queue (Done (q w) x)).
Proof.
  intros Hr Hl. pose proof (steps_inv _ _ _ _ Hr) as Hi.
  destruct (inv_served _ _ _ _ Hi _ _ _ _ Hl) as [?|[?|[Hd _]]]; [by left|by right; left|]. right; right.
  destruct (decide (x ∈ processing (q w))) as [Hp|Hp].
  - right. split; [done|]. unfold Done. cbn. rewrite decide_True by done. cbn. set_solver.
  - left. by apply (inv_exact _ _ _ _ Hi).
Qed.

(** A worker sleeps, is woken by an add, and the key is added again while it works. *)
Definition readded : list (cmd string) := [CGet; CAdd "a"; CResume; CAdd "a"; CAdd "a"; CAddAfter "b" 5; CTick 7].
Definition readded_world : World string := default (init 0 DefaultRateLimit) (execs amd64 readded (init 0 DefaultRateLimit)).

Lemma readded_runs : rtc (step amd64) (init 0 DefaultRateLimit) readded_world.
Proof. apply (execs_steps amd64 readded). vm_compute. reflexivity. Qed.

Lemma readded_log : log readded_world = [Req "b" 5; Req "a" 0] ++ Req "a" 0 :: [Dlv "a" 0; Req "a" 0].
Proof. by_eval. Qed.

Lemma workqueue_no_lost_update_witness :
  (exists at_, Dlv "a" at_ ∈ [Req "b" 5; Req "a" 0] /\ 0 <= at_) \/
  (exists wt, wt ∈ waiters (q readded_world) /\ w_item wt = "a" /\ w_t wt = 0) \/
  "a" ∈ queue (q readded_world) \/
  ("a" ∈ processing (q readded_world) /\ "a" ∈ queue (Done (q readded_world) "a")).
Proof. exact (workqueue_no_lost_update amd64 0 DefaultRateLimit readded_world _ _ _ _ readded_runs readded_log). Defined.

(** Deduplication and exclusion.  In every reachable state a key is queued at most once,
    and exactly when it needs processing and no worker holds it; it is held by at most one
    worker, as many deliveries as completions apart from the one in progress; it is
    delivered no more often than requested, a request still pending not being counted; and
    every delivery follows a request whose time has come. *)
Theorem workqueue_exclusive {A} `{Countable A} oor start rl (w : World A) x :
  rtc (step oor) (init start rl) w ->
  NoDup (queue (q w)) /\
  (x ∈ queue (q w) <-> x ∈ dirty (q w) /\ x ∉ processing (q w)) /\
  deliveries x (log w) = (completions x (log w) + member x (processing (q w)))%nat /\
  (deliveries x (log w) + member x (dirty (q w)) + waits x (waiters (q w)) <= requests x (log w))%nat /\
  (forall l1 at_ l2, log w = l1 ++ Dlv x at_ :: l2 -> exists due, Req x due ∈ l2 /\ due <= at_).
Proof.
  intros Hi%steps_inv. repeat split.
  - apply Hi.
  - by apply (inv_exact _ _ _ _ Hi).
  - by apply (inv_exact _ _ _ _ Hi).
  - intros [? ?]. by apply (inv_exact _ _ _ _ Hi).
  - apply Hi.
  - apply (inv_count _ _ _ _ Hi).
  - intros l1 at_ l2. apply (inv_justified _ _ _ _ Hi).
Qed.

Lemma workqueue_exclusive_witness :
  (deliveries "a" (log readded_world) + member "a" (dirty (q readded_world)) + waits "a" (waiters (q readded_world))
   <= requests "a" (log readded_world))%nat.
Proof. exact (proj1 (proj2 (proj2 (proj2 (workqueue_exclusive amd64 0 DefaultRateLimit readded_world "a" readded_runs))))). Defined.

(** No wake-up is lost while nothing is deferred.  In every execution in which no
    deferred add is pending, if some worker sleeps in [Get] then every queued key has a
    worker that has been signalled and will find it. *)
Theorem workqueue_no_lost_wakeup {A} `{Countable A} oor start rl (w : World A) :
  rtc (step_now oor) (init start rl) w ->
  (0 < sleeping (cond (q w)))%nat -> (length (queue (q w)) <= woken (cond (q w)))%nat.
Proof. intros Ha%steps_now_awake Hs. by apply Ha. Qed.

(** Two workers asleep, two keys added: both workers are signalled; a third call to [Get]
    takes the first key before they run. *)
Lemma two_sleepers : exists w, rtc (step_now amd64) (init 0 DefaultRateLimit) w /\
  queue (q w) = ["b"] /\ cond (q w) = {| sleeping := 1; woken := 2 |}.
Proof.
  eexists. split.
  { do 3 (eapply rtc_l; [split; [apply step_get|reflexivity]|]).
    eapply rtc_l; [split; [apply (step_add amd64 _ "a")|reflexivity]|].
    eapply rtc_l; [split; [apply (step_add amd64 _ "b")|reflexivity]|].
    eapply rtc_l; [split; [apply step_get|reflexivity]|]. apply rtc_refl. }
  split; vm_compute; reflexivity.
Qed.

Lemma workqueue_no_lost_wakeup_witness : exists w : World string,
  (0 < sleeping (cond (q w)))%nat /\ (0 < length (queue (q w)))%nat /\
  (length (queue (q w)) <= woken (cond (q w)))%nat.
Proof.
  destruct two_sleepers as (w & Hr & Hq & Hc). exists w.
  assert (Hs : (0 < sleeping (cond (q w)))%nat) by (rewrite Hc; cbn; lia).
  repeat split; [exact Hs|rewrite Hq; cbn; lia|].
  exact (workqueue_no_lost_wakeup amd64 0 DefaultRateLimit w Hr Hs).
Defined.

(** With deferred adds a wake-up is lost.  Two workers sleep while two adds are deferred;
    when both are due a third key is added, one worker is signalled, moves all three into
    the queue and takes one: two keys stay queued, the other worker sleeps and nobody is
    signalled. *)
Definition deferred : list (cmd string) :=
  [CGet; CGet; CAddAfter "a" 5; CResume; CAddAfter "b" 5; CResume; CTick 5; CAdd "c"; CResume].

Example deferred_wakeup_lost :
  exists w, execs amd64 deferred (init 0 DefaultRateLimit) = Some w /\
  queue (q w) = ["a"; "b"] /\ cond (q w) = {| sleeping := 1; woken := 0 |}.
Proof. eexists. split; [vm_compute; reflexivity|]. split; vm_compute; reflexivity. Qed.

(** [Done] on a key that is queued and not held queues it a second time. *)
Example done_unheld_duplicates : queue (Done (Queue_Add (Queue_New DefaultRateLimit) "a") "a") = ["a"; "a"].
Proof. vm_compute. reflexivity. Qed.

(** After [ShutDown] the keys already queued are still delivered. *)
Example shutdown_drains : (Get 0 (ShutDown (Queue_Add (Queue_New DefaultRateLimit) "a"))).1 = Item "a".
Proof. vm_compute. reflexivity. Qed.

(** After 41 failures the product [5ms * 2^41] exceeds [2^63]; on amd64 the delay is negative
    and the failing key is queued at once, on every further failure, without any delay. *)
Example failing_key_hot_loop :
  let q := with_failures (Queue_New DefaultRateLimit) {["a" := 41]} in
  let r := AddRateLimited amd64 0 q "a" in r.1 = MinInt64 /\ queue r.2 = ["a"] /\ waiters r.2 = [].
Proof. vm_compute. auto. Qed.
