(* ===== verification/ClassAdsGrammar.v ===== *)
(** * ClassAd expressions: the grammar and the parser's correctness

    [derives k dep e s] says that the text [s] is an expression of level [k] with tree [e]:
    level 0 is the unary expressions, levels 1 to 6 the left-associative operators from
    multiplication to disjunction; [dep] is the nesting the text may still use.  White
    space may precede every token.  The parser is proved sound and complete for it. *)

From Stdlib Require Import SpecFloat Ascii.
From S2P Require Import Prelude GoFloat ClassAds.
Local Open Scope Z_scope.

(** ** The grammar *)

Definition ops_at (k : nat) : list string :=
  match k with
  | 1%nat => ["*"; "/"] | 2%nat => ["+"; "-"] | 3%nat => ["<="; ">="; "<"; ">"]
  | 4%nat => ["=="; "!="] | 5%nat => ["&&"] | 6%nat => ["||"] | _ => []
  end.

Definition spaces (w : list ascii) : Prop := Forall (fun c => IsSpace c = true) w.

Inductive string_text : list ascii -> Prop :=
  | text_nil : string_text []
  | text_char c v : c <> dquote -> c <> backslash -> string_text v -> string_text (c :: v)
  | text_escape d v : string_text v -> string_text (backslash :: d :: v).

Definition digits (t : list ascii) : Prop := Forall (fun c => IsDigit c = true) t.
Definition number_text (t : list ascii) : Prop :=
  t <> [] /\ (digits t \/ exists a b, t = a ++ "."%char :: b /\ digits a /\ digits b).

Definition ident_text (t : list ascii) : Prop :=
  (exists c t', t = c :: t' /\ isIdentStart c = true) /\ Forall (fun c => isIdentChar c = true) t /\
  t <> text "true" /\ t <> text "false".

Notation str := String.string_of_list_ascii (only parsing).

Inductive derives : nat -> nat -> Expr -> list ascii -> Prop :=
  | d_operand k dep e s : (k < 6)%nat -> derives k dep e s -> derives (S k) dep e s
  | d_binary k dep op l r s1 w s2 :
      op ∈ ops_at (S k) -> spaces w -> derives (S k) dep l s1 -> derives k dep r s2 ->
      derives (S k) dep (BinaryOp op l r) (s1 ++ w ++ text op ++ s2)
  | d_prefix dep op w e s :
      op ∈ ["!"; "-"] -> spaces w -> derives 0 dep e s -> derives 0 (S dep) (UnaryOp op e) (w ++ text op ++ s)
  | d_string dep w v :
      spaces w -> string_text v -> derives 0 (S dep) (Literal (VString (str v))) (w ++ dquote :: v ++ [dquote])
  | d_number dep w t f :
      spaces w -> number_text t -> ParseFloat (str t) = Some f -> derives 0 (S dep) (Literal (VFloat f)) (w ++ t)
  | d_true dep w : spaces w -> derives 0 (S dep) (Literal (VBool true)) (w ++ text "true")
  | d_false dep w : spaces w -> derives 0 (S dep) (Literal (VBool false)) (w ++ text "false")
  | d_paren dep w e s w' :
      spaces w -> spaces w' -> derives 6 dep e s -> derives 0 (S (S dep)) e (w ++ text "(" ++ s ++ w' ++ text ")")
  | d_ident dep w t : spaces w -> ident_text t -> derives 0 (S dep) (Identifier (str t)) (w ++ t)
  | d_call_empty dep w t w1 w2 :
      spaces w -> spaces w1 -> spaces w2 -> ident_text t ->
      derives 0 (S dep) (FunctionCall (str t) []) (w ++ t ++ w1 ++ text "(" ++ w2 ++ text ")")
  | d_call dep w t w1 args s w2 :
      spaces w -> spaces w1 -> spaces w2 -> ident_text t -> derives_args dep args s ->
      derives 0 (S (S dep)) (FunctionCall (str t) args) (w ++ t ++ w1 ++ text "(" ++ s ++ w2 ++ text ")")
with derives_args : nat -> list Expr -> list ascii -> Prop :=
  | a_one dep e s : derives 6 dep e s -> derives_args dep [e] s
  | a_more dep e es s w s' :
      spaces w -> derives 6 dep e s -> derives_args dep es s' -> derives_args dep (e :: es) (s ++ w ++ text "," ++ s').

(** A whole input: an expression with white space around it. *)
Definition expression (dep : nat) (e : Expr) (input : string) : Prop :=
  exists s w, text input = s ++ w /\ spaces w /\ derives 6 dep e s.

(** ** White space and tokens *)

Lemma spaces_nil : spaces [].
Proof. constructor. Qed.
Lemma spaces_cons c w : IsSpace c = true -> spaces w -> spaces (c :: w).
Proof. by constructor. Qed.
Lemma spaces_app w w' : spaces w -> spaces w' -> spaces (w ++ w').
Proof. apply Forall_app_2. Qed.
#[local] Hint Resolve spaces_nil spaces_cons spaces_app : core.

Lemma skip_spaces w s : spaces w -> skipWhitespace (w ++ s) = skipWhitespace s.
Proof. induction 1 as [|c w Hc _ IH]; cbn; [done|]. by rewrite Hc. Qed.

Lemma skip_split s : exists w, spaces w /\ s = w ++ skipWhitespace s.
Proof.
  induction s as [|c s (w & Hw & IH)]; [by exists []|]. cbn. destruct (IsSpace c) eqn:Hc.
  - exists (c :: w). split; [auto|]. cbn. by rewrite <- IH.
  - exists []. auto.
Qed.

Lemma skip_head s : match skipWhitespace s with c :: _ => IsSpace c = false | [] => True end.
Proof. induction s as [|c s IH]; cbn; [done|]. by destruct (IsSpace c) eqn:Hc. Qed.

Lemma skip_stop c s : IsSpace c = false -> skipWhitespace (c :: s) = c :: s.
Proof. intros Hc. cbn. by rewrite Hc. Qed.

Lemma skip_idem s : skipWhitespace (skipWhitespace s) = skipWhitespace s.
Proof. pose proof (skip_head s). destruct (skipWhitespace s); [done|by apply skip_stop]. Qed.

Lemma HasPrefix_Some s p r : HasPrefix s p = Some r <-> s = p ++ r.
Proof.
  revert s; induction p as [|c p IH]; intros s; cbn; [split; congruence|]. destruct s as [|d s]; [split; congruence|].
  case_decide; [subst; rewrite IH|]; split; congruence.
Qed.

Lemma consume_true t s r : consume t s = inr (true, r) -> exists w, spaces w /\ s = w ++ text t ++ r.
Proof.
  unfold consume. destruct (HasPrefix (skipWhitespace s) (text t)) as [r'|] eqn:Hp; intros [=]; subst.
  apply HasPrefix_Some in Hp. destruct (skip_split s) as (w & Hw & Hs). exists w. split; [done|]. by rewrite Hs at 1; rewrite Hp.
Qed.

Lemma consume_false t s r : consume t s = inr (false, r) -> r = skipWhitespace s.
Proof. unfold consume. destruct (HasPrefix _ _); by intros [=]. Qed.

Lemma consume_cases t s : (exists r, consume t s = inr (true, r)) \/ consume t s = inr (false, skipWhitespace s).
Proof. unfold consume. destruct (HasPrefix _ _); eauto. Qed.

Lemma consume_skip t s s' : skipWhitespace s = skipWhitespace s' -> consume t s = consume t s'.
Proof. unfold consume. by intros ->. Qed.

Lemma consume_ok t w s c t' :
  spaces w -> text t = c :: t' -> IsSpace c = false -> consume t (w ++ text t ++ s) = inr (true, s).
Proof.
  intros Hw Ht Hc. unfold consume. rewrite skip_spaces by done. rewrite Ht. cbn [app]. rewrite skip_stop by done.
  by rewrite (proj2 (HasPrefix_Some (c :: t' ++ s) (c :: t') s)).
Qed.

(** ** Parsers *)

Lemma pbind_inv {A B} (p : parser A) (k : A -> parser B) s x :
  (p ≫= k) s = inr x -> exists a s', p s = inr (a, s') /\ k a s' = inr x.
Proof. unfold mbind, parser_bind. destruct (p s) as [|[a s']]; [done|eauto]. Qed.

Lemma pbind_ok {A B} (p : parser A) (k : A -> parser B) s a s' : p s = inr (a, s') -> (p ≫= k) s = k a s'.
Proof. unfold mbind, parser_bind. by intros ->. Qed.

Lemma consume_first_some ts s op r :
  consume_first ts s = inr (Some op, r) -> op ∈ ts /\ exists w, spaces w /\ s = w ++ text op ++ r.
Proof.
  revert s; induction ts as [|t ts IH]; intros s; cbn; [done|]. intros (b & s' & Hc & Hk)%pbind_inv. destruct b.
  - injection Hk as -> ->. split; [left|by apply consume_true].
  - apply IH in Hk as (Hin & w & Hw & Hs). split; [by right|]. apply consume_false in Hc. subst s'.
    destruct (skip_split s) as (w' & Hw' & Hs'). exists (w' ++ w). split; [by apply spaces_app|].
    rewrite <- app_assoc, <- Hs. done.
Qed.

Lemma consume_first_none ts s r : consume_first ts s = inr (None, r) -> exists w, spaces w /\ s = w ++ r.
Proof.
  revert s; induction ts as [|t ts IH]; intros s; cbn.
  - intros [=]; subst. exists []. auto.
  - intros (b & s' & Hc & Hk)%pbind_inv. destruct b; [done|]. apply consume_false in Hc. subst s'.
    destruct (IH _ Hk) as (w & Hw & Hs). destruct (skip_split s) as (w' & Hw' & Hs'). exists (w' ++ w).
    split; [by apply spaces_app|]. rewrite <- app_assoc, <- Hs. done.
Qed.

(** The six levels over a parser of unary expressions. *)
Fixpoint levels (k : nat) (unary : parser Expr) : parser Expr :=
  match k with O => unary | S k' => binary_level (ops_at k) (levels k' unary) end.

Lemma levels_or unary : levels 6 unary = parseOr_body unary.
Proof. reflexivity. Qed.

(** ** Soundness *)

Definition sound (p : parser Expr) (D : Expr -> list ascii -> Prop) : Prop :=
  forall s e r, p s = inr (e, r) -> exists s1 w, spaces w /\ s = s1 ++ w ++ r /\ D e s1.

Lemma binary_loop_sound k dep next fuel : forall left s0 w0 s e r,
  sound next (derives k dep) -> derives (S k) dep left s0 -> spaces w0 ->
  binary_loop fuel (ops_at (S k)) next left s = inr (e, r) ->
  exists s1 w, spaces w /\ s0 ++ w0 ++ s = s1 ++ w ++ r /\ derives (S k) dep e s1.
Proof.
  induction fuel as [|fuel IH]; intros left s0 w0 s e r Hn Hl Hw0; [done|]. cbn [binary_loop].
  intros (o & s' & Ho & Hk)%pbind_inv. destruct o as [op|].
  - apply consume_first_some in Ho as (Hop & w & Hw & ->). apply pbind_inv in Hk as (right & s'' & Hr & Hk).
    destruct (Hn _ _ _ Hr) as (s2 & w2 & Hw2 & -> & Hd).
    destruct (IH _ _ w2 _ _ _ Hn (d_binary k dep op left right s0 (w0 ++ w) s2 Hop (spaces_app _ _ Hw0 Hw) Hl Hd) Hw2 Hk)
      as (s1 & w1 & ? & Heq & ?). exists s1, w1. split; [done|]. split; [|done]. rewrite <- Heq. by rewrite <- !app_assoc.
  - injection Hk as <- <-. apply consume_first_none in Ho as (w & Hw & ->). exists s0, (w0 ++ w).
    split; [auto|]. split; [|done]. by rewrite <- !app_assoc.
Qed.

Lemma levels_sound k dep unary : (k <= 6)%nat -> sound unary (derives 0 dep) -> sound (levels k unary) (derives k dep).
Proof.
  intros Hk Hu. induction k as [|k IH]; [done|]. specialize (IH ltac:(lia)). intros s e r. cbn [levels]. unfold binary_level.
  intros (left & s' & Hn & Hl)%pbind_inv. unfold mbind, parser_bind, remaining in Hl. destruct (IH _ _ _ Hn) as (s0 & w0 & Hw0 & -> & Hd).
  eapply binary_loop_sound in Hl; [exact Hl|exact IH| |done]. apply d_operand; [lia|done].
Qed.

Lemma string_body_sound n s v r :
  (length s <= n)%nat -> string_body s = Some (v, r) -> s = v ++ dquote :: r /\ string_text v.
Proof.
  revert s v r; induction n as [|n IH]; intros [|c s] v r Hn; cbn [length string_body] in *; try done; [lia|].
  case_decide; [intros [=]; subst; split; [done|constructor]|]. destruct s as [|d s]; [done|]. cbn [length] in Hn.
  case_decide.
  - destruct (string_body s) as [[v' r']|] eqn:Hs; intros [=]; subst. apply IH in Hs as [-> Ht]; [|lia].
    split; [done|by constructor].
  - destruct (string_body (d :: s)) as [[v' r']|] eqn:Hs; intros [=]; subst. apply IH in Hs as [Hs Ht]; [|cbn; lia].
    split; [by rewrite Hs|by constructor].
Qed.

Lemma number_lexeme_sound dot s v r :
  number_lexeme dot s = (v, r) ->
  s = v ++ r /\ (digits v \/ (dot = false /\ exists a b, v = a ++ "."%char :: b /\ digits a /\ digits b)).
Proof.
  revert dot v r; induction s as [|c s IH]; intros dot v r; cbn; [intros [=]; subst; split; [done|left; constructor]|].
  destruct (IsDigit c) eqn:Hc.
  - destruct (number_lexeme dot s) as [v' r'] eqn:Hs. intros [=]; subst. apply IH in Hs as [-> Hd]. split; [done|].
    destruct Hd as [Hd|(-> & a & b & -> & Ha & Hb)]; [left; by constructor|]. right. split; [done|].
    exists (c :: a), b. split; [done|]. split; [by constructor|done].
  - case_decide; [|intros [=]; subst; split; [done|left; constructor]]. subst c.
    destruct dot; [intros [=]; subst; split; [done|left; constructor]|].
    destruct (number_lexeme true s) as [v' r'] eqn:Hs. intros [=]; subst. apply IH in Hs as [-> Hd]. split; [done|].
    destruct Hd as [Hd|[? _]]; [|done]. right. split; [done|]. exists [], v'. split; [done|]. split; [constructor|done].
Qed.

Lemma ident_chars_sound s v r :
  ident_chars s = (v, r) ->
  s = v ++ r /\ Forall (fun c => isIdentChar c = true) v /\ match r with c :: _ => isIdentChar c = false | [] => True end.
Proof.
  revert v r; induction s as [|c s IH]; intros v r; cbn; [intros [=]; subst; by repeat split|].
  destruct (isIdentChar c) eqn:Hc; [|intros [=]; subst; by repeat split].
  destruct (ident_chars s) as [v' r'] eqn:Hs. intros [=]; subst. destruct (IH _ _ eq_refl) as (-> & Hv & Hr).
  repeat split; [by constructor|done].
Qed.

Lemma keyword_sound k s r : keyword k s = Some r -> s = text k ++ r.
Proof.
  unfold keyword. destruct (HasPrefix s (text k)) as [r'|] eqn:Hp; [|done]. apply HasPrefix_Some in Hp. subst.
  destruct r' as [|c r']; [|destruct (isIdentChar c)]; by intros [=]; subst.
Qed.

(** No keyword: the text of an identifier that is all there is of it is not the keyword. *)
Lemma keyword_none k t r :
  keyword k (t ++ r) = None -> match r with c :: _ => isIdentChar c = false | [] => True end -> t <> text k.
Proof.
  intros Hk Hr ->. unfold keyword in Hk. rewrite (proj2 (HasPrefix_Some _ _ r)) in Hk by done.
  destruct r as [|c r]; [done|]. by rewrite Hr in Hk.
Qed.

(** White space may be put before an expression. *)
Lemma derives_spaces k dep e s : derives k dep e s -> forall w, spaces w -> derives k dep e (w ++ s).
Proof.
  induction 1; intros w0 Hw0; [by apply d_operand; auto|rewrite app_assoc; by apply d_binary; auto|rewrite app_assoc..].
  all: constructor; auto.
Qed.

Lemma derives_args_spaces d es s w : spaces w -> derives_args d es s -> derives_args d es (w ++ s).
Proof.
  intros Hw [dep e t Hd|dep e es' t w' s' Hw' Hd Hds]; [|rewrite app_assoc]; constructor; auto; by apply derives_spaces.
Qed.

Section Primary.
  Context (or : parser Expr) (dep : nat).
  (** What the parser of parenthesised expressions does below depth [dep]. *)
  Context (or_sound : forall s e r, or s = inr (e, r) ->
             exists d s1 w, dep = S d /\ spaces w /\ s = s1 ++ w ++ r /\ derives 6 d e s1).

Lemma args_loop_sound fuel : forall s es r,
  args_loop fuel or s = inr (es, r) ->
  exists d s1 w, dep = S d /\ spaces w /\ s = s1 ++ w ++ r /\ derives_args d es s1.
Proof.
  induction fuel as [|fuel IH]; intros s es r; [done|]. cbn [args_loop]. intros (arg & s' & Ho & Hk)%pbind_inv.
  destruct (or_sound _ _ _ Ho) as (d & s1 & w & Hdep & Hw & -> & Hd). apply pbind_inv in Hk as (comma & s'' & Hc & Hk).
  destruct comma.
  - apply consume_true in Hc as (w' & Hw' & ->). apply pbind_inv in Hk as (args & s3 & Ha & Hk). injection Hk as <- <-.
    destruct (IH _ _ _ Ha) as (d' & s2 & w2 & Hdep' & Hw2 & -> & Hds). assert (d' = d) as -> by lia.
    exists d, (s1 ++ (w ++ w') ++ text "," ++ s2), w2. split; [done|]. split; [done|]. split; [by rewrite <- !app_assoc|].
    apply a_more; auto.
  - injection Hk as <- <-. apply consume_false in Hc as ->. destruct (skip_split s') as (w' & Hw' & Hs).
    exists d, s1, (w ++ w'). split; [done|]. split; [auto|]. split; [by rewrite <- app_assoc, <- Hs|by constructor].
Qed.

Lemma parseArgs_sound s es r :
  parseArgs or s = inr (es, r) ->
  (es = [] /\ exists w, spaces w /\ s = w ++ r) \/
  (exists d s1 w w', dep = S d /\ spaces w' /\ spaces w /\ s = w' ++ s1 ++ w ++ r /\ derives_args d es s1).
Proof.
  unfold parseArgs. destruct (skip_split s) as (w' & Hw' & Hs). destruct (skipWhitespace s) as [|c t] eqn:Hsk.
  - intros (d & s1 & w & ? & ? & Heq & ?)%args_loop_sound. right. exists d, s1, w, w'.
    repeat (split; [done|]). split; [by rewrite Hs, Heq|done].
  - case_decide.
    + intros [=]; subst. left. split; [done|]. by exists w'.
    + intros (d & s1 & w & ? & ? & Heq & ?)%args_loop_sound. right. exists d, s1, w, w'.
      repeat (split; [done|]). split; [by rewrite Hs, Heq|done].
Qed.

(** A parenthesised expression, after its opening parenthesis. *)
Lemma parens_sound w0 t s s1 e r :
  spaces w0 -> s = w0 ++ t -> consume "(" t = inr (true, s1) ->
  parseParens or s1 = inr (e, r) ->
  exists s2 w, spaces w /\ s = s2 ++ w ++ r /\ derives 0 (S dep) e s2.
Proof.
  intros Hw0 -> (w1 & Hw1 & ->)%consume_true (expr & s2 & Ho & Hk)%pbind_inv.
  destruct (or_sound _ _ _ Ho) as (d & s3 & w3 & -> & Hw3 & -> & Hd).
  apply pbind_inv in Hk as (close & s4 & Hc & Hk). destruct close; [|done]. injection Hk as <- <-.
  apply consume_true in Hc as (w4 & Hw4 & ->).
  exists ((w0 ++ w1) ++ text "(" ++ s3 ++ (w3 ++ w4) ++ text ")"), []. split; [auto|].
  split; [by rewrite <- !app_assoc|]. apply d_paren; auto.
Qed.

(** An identifier or a call. *)
Lemma identifier_sound w0 ch s' s e r :
  spaces w0 -> s = w0 ++ ch :: s' -> isIdentStart ch = true ->
  keyword "true" (ch :: s') = None -> keyword "false" (ch :: s') = None ->
  parseCall or (ch :: s') = inr (e, r) ->
  exists s2 w, spaces w /\ s = s2 ++ w ++ r /\ derives 0 (S dep) e s2.
Proof.
  intros Hw0 -> Hid Ht Hf (name & s1 & Hn & Hk)%pbind_inv. unfold parseIdentifier in Hn.
  destruct (ident_chars (ch :: s')) as [t r'] eqn:Hi. injection Hn as <- <-.
  pose proof (ident_chars_sound _ _ _ Hi) as (Heq & Hall & Hhd). rewrite Heq in Ht, Hf |- *.
  assert (Hit : ident_text t).
  { split; [|split; [done|split; by eapply keyword_none]]. cbn [ident_chars] in Hi.
    assert (Hc : isIdentChar ch = true) by (unfold isIdentStart, isIdentChar in *; destruct (IsLetter ch), (IsDigit ch); done).
    rewrite Hc in Hi. destruct (ident_chars s'). injection Hi as <- _. by eexists _, _. }
  apply pbind_inv in Hk as (call & s2 & Hc & Hk). destruct call.
  - apply consume_true in Hc as (w1 & Hw1 & ->). apply pbind_inv in Hk as (args & s3 & Ha & Hk).
    apply pbind_inv in Hk as (close & s4 & Hc & Hk). destruct close; [|done]. injection Hk as <- <-.
    apply consume_true in Hc as (w4 & Hw4 & ->). apply parseArgs_sound in Ha as [(-> & w2 & Hw2 & ->)|Ha].
    + exists (w0 ++ t ++ w1 ++ text "(" ++ (w2 ++ w4) ++ text ")"), []. split; [auto|].
      split; [by rewrite <- !app_assoc|]. apply d_call_empty; auto.
    + destruct Ha as (d & s5 & w & w' & -> & Hw' & Hw & -> & Hd).
      exists (w0 ++ t ++ w1 ++ text "(" ++ (w' ++ s5) ++ (w ++ w4) ++ text ")"), []. split; [auto|].
      split; [by rewrite <- !app_assoc|]. apply d_call; auto. by apply derives_args_spaces.
  - injection Hk as <- <-. apply consume_false in Hc as ->. destruct (skip_split r') as (w & Hw & Hs).
    exists (w0 ++ t), w. split; [done|]. split; [by rewrite <- app_assoc, <- Hs|]. by apply d_ident.
Qed.

Lemma parsePrimary_sound s e r :
  parsePrimary or s = inr (e, r) -> exists s1 w, spaces w /\ s = s1 ++ w ++ r /\ derives 0 (S dep) e s1.
Proof.
  unfold parsePrimary. destruct (skip_split s) as (w0 & Hw0 & Hs). destruct (skipWhitespace s) as [|ch s'] eqn:Hsk; [done|].
  assert (Hsp : IsSpace ch = false) by (pose proof (skip_head s) as Hh; by rewrite Hsk in Hh).
  (* a result whose text starts at the first character *)
  assert (Hexact : forall t e', derives 0 (S dep) e' (w0 ++ t) -> forall r', ch :: s' = t ++ r' ->
            exists s1 w, spaces w /\ s = s1 ++ w ++ r' /\ derives 0 (S dep) e' s1).
  { intros t e' Hd r' Ht. exists (w0 ++ t), []. split; [auto|]. split; [|done]. by rewrite Hs, Ht, <- app_assoc. }
  case_decide as Hq.
  { subst ch. unfold parseString. destruct (string_body s') as [[v r']|] eqn:Hb; intros [=]; subst.
    apply (string_body_sound (length s')) in Hb as [-> Ht]; [|done].
    apply (Hexact (dquote :: v ++ [dquote])); [by apply d_string|]. cbn. by rewrite <- app_assoc. }
  case_decide as Hnum.
  { unfold parseNumber. destruct (number_lexeme false (ch :: s')) as [t r'] eqn:Hl.
    destruct (ParseFloat _) as [f|] eqn:Hf; intros [=]; subst. apply number_lexeme_sound in Hl as [Heq Hd].
    apply (Hexact t); [|done]. apply d_number; [done| |done]. split; [|tauto]. intros ->.
    by vm_compute in Hf. }
  destruct (keyword "true" (ch :: s')) as [r'|] eqn:Ht.
  { intros [=]; subst. apply keyword_sound in Ht. apply (Hexact (text "true")); [by apply d_true|done]. }
  destruct (keyword "false" (ch :: s')) as [r'|] eqn:Hf.
  { intros [=]; subst. apply keyword_sound in Hf. apply (Hexact (text "false")); [by apply d_false|done]. }
  intros (paren & s1 & Hp & Hk)%pbind_inv. destruct paren; [by eapply parens_sound|].
  apply consume_false in Hp. rewrite skip_stop in Hp by done. subst s1.
  destruct (isIdentStart ch) eqn:Hid; [|done]. by eapply identifier_sound.
Qed.

End Primary.

Lemma parseUnary_sound dep : sound (parseUnary dep) (derives 0 dep).
Proof.
  induction dep as [dep IH] using lt_wf_ind. destruct dep as [|dep]; [done|]. intros s e r. cbn [parseUnary].
  intros (bang & s1 & Hb & Hk)%pbind_inv. destruct bang.
  { apply consume_true in Hb as (w & Hw & ->). apply pbind_inv in Hk as (x & s2 & Hu & Hk). injection Hk as <- <-.
    destruct (IH dep ltac:(lia) _ _ _ Hu) as (s3 & w3 & Hw3 & -> & Hd). exists (w ++ text "!" ++ s3), w3.
    split; [done|]. split; [by rewrite <- !app_assoc|]. apply d_prefix; [set_solver|done..]. }
  apply consume_false in Hb. subst s1. destruct (skip_split s) as (w0 & Hw0 & Hs).
  apply pbind_inv in Hk as (minus & s1 & Hm & Hk). destruct minus.
  { apply consume_true in Hm as (w & Hw & Hs1). apply pbind_inv in Hk as (x & s2 & Hu & Hk). injection Hk as <- <-.
    destruct (IH dep ltac:(lia) _ _ _ Hu) as (s3 & w3 & Hw3 & -> & Hd). exists ((w0 ++ w) ++ text "-" ++ s3), w3.
    split; [done|]. split; [by rewrite Hs, Hs1, <- !app_assoc|]. apply d_prefix; [set_solver|auto..]. }
  apply consume_false in Hm. subst s1. apply (parsePrimary_sound _ dep) in Hk as (s3 & w3 & Hw3 & Hs1 & Hd).
  - exists (w0 ++ s3), w3. split; [done|]. rewrite skip_idem in Hs1.
    split; [by rewrite Hs, Hs1, <- !app_assoc|by apply derives_spaces].
  - intros s2 e2 r2 Ho. destruct dep as [|d]; [done|]. rewrite <- levels_or in Ho.
    apply (levels_sound 6 d) in Ho as (s4 & w4 & ?); [by exists d, s4, w4|done|apply IH; lia].
Qed.

Lemma parseOr_sound dep : sound (parseOr dep) (fun e s => exists d, dep = S d /\ derives 6 d e s).
Proof.
  destruct dep as [|d]; [done|]. intros s e r. cbn [parseOr]. rewrite <- levels_or.
  intros (s1 & w & ? & ? & ?)%(levels_sound 6 d); [|done|apply parseUnary_sound]. exists s1, w. by eauto.
Qed.

(** ** Completeness: what may follow an expression *)

Definition heads_at (k : nat) : list ascii :=
  match k with
  | 1%nat => ["*"; "/"]%char | 2%nat => ["+"; "-"]%char | 3%nat => ["<"; ">"]%char
  | 4%nat => ["="; "!"]%char | 5%nat => ["&"]%char | 6%nat => ["|"]%char | _ => []
  end.
(** The characters that may come after an expression of level [k]. *)
Definition following (k : nat) : list ascii := [")"; ","]%char ++ mjoin (map heads_at (seq (S k) (6 - k))).

Definition follow (k : nat) (r : list ascii) : Prop :=
  match skipWhitespace r with c :: _ => c ∈ following k | [] => True end.

Lemma following_weaken k c : (k <= 6)%nat -> c ∈ following (S k) -> c ∈ following k.
Proof.
  intros Hk. do 7 (destruct k as [|k]; [revert c; apply Forall_forall; by_eval|]). lia.
Qed.

Lemma following_heads k c : (1 <= k <= 6)%nat -> c ∈ heads_at k -> c ∈ following (pred k) /\ c ∉ following k.
Proof.
  intros Hk. do 7 (destruct k as [|k]; [first [lia|revert c; apply Forall_forall; by_eval]|]). lia.
Qed.

(** No operator of level [k] or tighter, and no character that would extend a token. *)
Definition separates (c : ascii) : Prop :=
  IsSpace c = false /\ isIdentChar c = false /\ IsDigit c = false /\ c <> "."%char /\ c <> "("%char.
Lemma following_separates k c : (k <= 6)%nat -> c ∈ following k -> separates c.
Proof.
  intros Hk. unfold separates. do 7 (destruct k as [|k]; [revert c; apply Forall_forall; by_eval|]). lia.
Qed.

Lemma op_head k op : op ∈ ops_at k -> exists c t, text op = c :: t /\ c ∈ heads_at k.
Proof.
  intros Hop. do 7 (destruct k as [|k]; [cbn in Hop; set_unfold in Hop; destruct_or? Hop; subst; try done; (eexists _, _; split; [reflexivity|set_solver])|]).
  set_solver.
Qed.

Lemma op_level k op : op ∈ ops_at k -> (1 <= k <= 6)%nat.
Proof. do 7 (destruct k as [|k]; [set_solver by lia|]). set_solver. Qed.

Lemma follow_op k op w s : op ∈ ops_at (S k) -> spaces w -> follow k (w ++ text op ++ s).
Proof.
  intros Hop Hw. pose proof (op_level _ _ Hop). destruct (op_head _ _ Hop) as (c & t & -> & Hc).
  apply following_heads in Hc as [Hc _]; [|done]. unfold follow. rewrite skip_spaces by done. cbn [app].
  rewrite skip_stop; [done|]. by apply (following_separates k); [lia|].
Qed.

Lemma follow_close k c w s : (k <= 6)%nat -> c ∈ [")"; ","]%char -> spaces w -> follow k (w ++ c :: s).
Proof.
  intros Hk Hc Hw. assert (Hf : c ∈ following k) by (unfold following; set_solver).
  unfold follow. rewrite skip_spaces, skip_stop; [done| |done]. by apply (following_separates k).
Qed.

Lemma follow_weaken k r : (k <= 6)%nat -> follow (S k) r -> follow k r.
Proof. intros Hk. unfold follow. destruct (skipWhitespace r); [done|by apply following_weaken]. Qed.

Lemma follow_skip k r r' : skipWhitespace r = skipWhitespace r' -> follow k r -> follow k r'.
Proof. unfold follow. by intros ->. Qed.

(** The first character of what follows separates tokens, unless it is white space. *)
Lemma space_separates c : IsSpace c = true -> isIdentChar c = false /\ IsDigit c = false /\ c <> "."%char /\ c <> "("%char.
Proof. destruct c as [[] [] [] [] [] [] [] []]; vm_compute; intros; first [done|by repeat split]. Qed.

Lemma follow_head k r :
  (k <= 6)%nat -> follow k r ->
  match r with c :: _ => isIdentChar c = false /\ IsDigit c = false /\ c <> "."%char | [] => True end.
Proof.
  intros Hk Hf. destruct r as [|c r]; [done|]. destruct (IsSpace c) eqn:Hc.
  - apply space_separates in Hc. tauto.
  - unfold follow in Hf. rewrite skip_stop in Hf by done. apply following_separates in Hf as (_ & ? & ? & ? & _); done.
Qed.

Lemma consume_miss t c t' s :
  text t = c :: t' -> match skipWhitespace s with d :: _ => c <> d | [] => True end ->
  consume t s = inr (false, skipWhitespace s).
Proof.
  intros Ht Hs. unfold consume. rewrite Ht. destruct (skipWhitespace s) as [|d r]; [done|]. cbn. by rewrite decide_False.
Qed.

Lemma follow_no_paren k r : (k <= 6)%nat -> follow k r -> consume "(" r = inr (false, skipWhitespace r).
Proof.
  intros Hk Hf. eapply consume_miss; [reflexivity|]. unfold follow in Hf. destruct (skipWhitespace r) as [|d r']; [done|].
  apply following_separates in Hf as (_ & _ & _ & _ & Hd); [congruence|done].
Qed.

Lemma consume_first_miss ts s :
  (forall t, t ∈ ts -> consume t s = inr (false, skipWhitespace s)) ->
  consume_first ts s = inr (None, match ts with [] => s | _ => skipWhitespace s end).
Proof.
  revert s; induction ts as [|t ts IH]; intros s Hm; [done|]. cbn [consume_first].
  rewrite (pbind_ok _ _ _ _ _ (Hm t ltac:(left))). rewrite IH; [by destruct ts; rewrite ?skip_idem|].
  intros t' Ht'. rewrite skip_idem, (consume_skip t' _ s) by apply skip_idem. apply Hm. by right.
Qed.

Lemma consume_first_follow k s : follow k s -> (1 <= k <= 6)%nat -> consume_first (ops_at k) s = inr (None, skipWhitespace s).
Proof.
  intros Hf Hk. rewrite consume_first_miss.
  - do 7 (destruct k as [|k]; [first [lia|done]|]). lia.
  - intros t Ht. destruct (op_head _ _ Ht) as (c & t' & Htx & Hc). eapply consume_miss; [exact Htx|].
    unfold follow in Hf. destruct (skipWhitespace s) as [|d r]; [done|]. intros <-. by apply following_heads in Hc as [_ ?].
Qed.

(** An operator is recognised, the tokens that extend it excluded. *)
Lemma consume_first_op k op s t :
  op ∈ ops_at k -> skipWhitespace s = text op ++ t -> match t with c :: _ => c <> "="%char | [] => True end ->
  consume_first (ops_at k) s = inr (Some op, t).
Proof.
  intros Hop Hs Ht. pose proof (op_level _ _ Hop) as Hk.
  assert (Hsp : skipWhitespace (text op ++ t) = text op ++ t) by (by rewrite <- Hs, skip_idem).
  assert (Hstep : consume_first (ops_at k) s = consume_first (ops_at k) (text op ++ t)).
  { destruct (ops_at k) as [|x ts]; [set_solver|]. cbn [consume_first]. unfold mbind, parser_bind.
    by rewrite (consume_skip x s (text op ++ t)) by (by rewrite Hs, Hsp). }
  rewrite Hstep. clear Hstep Hsp Hs.
  assert (k = 1 \/ k = 2 \/ k = 3 \/ k = 4 \/ k = 5 \/ k = 6)%nat as Hcases by lia.
  destruct_or! Hcases; subst k; cbn [ops_at] in *; set_unfold in Hop; destruct_or? Hop; subst op.
  all: destruct t as [|c t]; [reflexivity|]; try reflexivity.
  all: destruct c as [[] [] [] [] [] [] [] []]; first [reflexivity|by destruct Ht].
Qed.

(** ** Completeness: the operator levels *)

Definition complete (p : parser Expr) (k : nat) (D : Expr -> list ascii -> Prop) : Prop :=
  forall e s r, D e s -> follow k r -> exists r', p (s ++ r) = inr (e, r') /\ skipWhitespace r' = skipWhitespace r.

Lemma sound_shrinks p D s e r : sound p D -> p s = inr (e, r) -> (length r <= length s)%nat.
Proof. intros Hp (s1 & w & _ & -> & _)%Hp. rewrite !length_app. lia. Qed.

Lemma skip_length s : (length (skipWhitespace s) <= length s)%nat.
Proof. destruct (skip_split s) as (w & _ & Hs). rewrite Hs at 2. rewrite length_app. lia. Qed.

Lemma consume_first_shrinks k s op r : consume_first (ops_at k) s = inr (Some op, r) -> (length r < length s)%nat.
Proof.
  intros (Hop & w & _ & ->)%consume_first_some. destruct (op_head _ _ Hop) as (c & t & -> & _). rewrite !length_app. cbn. lia.
Qed.

(** More fuel than there is input changes nothing. *)
Lemma binary_loop_fuel k next D f1 : sound next D -> forall f2 left s,
  (length s < f1)%nat -> (length s < f2)%nat ->
  binary_loop f1 (ops_at k) next left s = binary_loop f2 (ops_at k) next left s.
Proof.
  intros Hn. induction f1 as [|f1 IH]; intros [|f2] left s H1 H2; [lia..|]. cbn [binary_loop]. unfold mbind, parser_bind.
  destruct (consume_first (ops_at k) s) as [|[[op|] s']] eqn:Ho; [done| |done].
  destruct (next s') as [|[right s'']] eqn:Hr; [done|].
  pose proof (consume_first_shrinks _ _ _ _ Ho). pose proof (sound_shrinks _ _ _ _ _ Hn Hr). apply IH; lia.
Qed.

(** The characters that can start an expression. *)
Definition starts (c : ascii) : bool :=
  bool_decide (c = dquote \/ c = "."%char \/ c = "("%char \/ c = "!"%char \/ c = "-"%char) || IsDigit c || isIdentStart c.

Lemma starts_facts c : starts c = true -> IsSpace c = false /\ c <> ")"%char /\ c <> "="%char.
Proof. destruct c as [[] [] [] [] [] [] [] []]; vm_compute; intros; first [done|by repeat split]. Qed.

Lemma number_text_head t : number_text t -> exists c t', t = c :: t' /\ (IsDigit c = true \/ c = "."%char).
Proof.
  intros [Hne [Hd|(a & b & -> & Ha & _)]].
  - destruct t as [|c t]; [done|]. apply Forall_cons in Hd as [? _]. eauto.
  - destruct a as [|c a]; [by eexists _, _; eauto|]. apply Forall_cons in Ha as [? _]. eexists _, _; eauto.
Qed.

Lemma derives_head k dep e s :
  derives k dep e s -> exists w c t, s = w ++ c :: t /\ spaces w /\ starts c = true.
Proof.
  assert (Hid : forall t, ident_text t -> exists c t', t = c :: t' /\ starts c = true).
  { intros t [(c & t' & -> & Hc) _]. exists c, t'. split; [done|]. unfold starts. rewrite Hc. by rewrite orb_true_r. }
  induction 1 as [|? ? ? ? ? ? w ? ? ? ? (w' & c & t & -> & ? & ?) ? ?|? op ? ? ? Hop| |? ? t ? ? Ht| | | |? ? t ? Ht|? ? t ? ? ? ? ? Ht|? ? t ? ? ? ? ? ? ? Ht].
  - done.
  - exists w', c. eexists. by rewrite <- app_assoc.
  - set_unfold in Hop. destruct_or? Hop; subst; try done; eexists _, _, _; by split_and!.
  - eexists _, _, _. by split_and!.
  - destruct (number_text_head t Ht) as (c & t' & -> & Hc). eexists _, c, _. split_and!; [done..|].
    unfold starts. destruct Hc as [-> | ->]; [by rewrite orb_true_r|done].
  - eexists _, _, _. by split_and!.
  - eexists _, _, _. by split_and!.
  - eexists _, _, _. by split_and!.
  - destruct (Hid _ Ht) as (c & t' & -> & ?). eexists _, c, _. by split_and!.
  - destruct (Hid _ Ht) as (c & t' & -> & ?). eexists _, c, _. by split_and!.
  - destruct (Hid _ Ht) as (c & t' & -> & ?). eexists _, c, _. by split_and!.
Qed.

(** An operand does not start with the character that would extend an operator. *)
Lemma derives_no_eq k dep e s r : derives k dep e s -> match s ++ r with c :: _ => c <> "="%char | [] => True end.
Proof.
  intros (w & c & t & -> & Hw & Hc)%derives_head. apply starts_facts in Hc as (_ & _ & Hc).
  destruct Hw as [|c' w Hc' _]; [done|]. cbn. intros ->. done.
Qed.

Lemma binary_loop_op f ops next left s op s' right s'' :
  consume_first ops s = inr (Some op, s') -> next s' = inr (right, s'') ->
  binary_loop (S f) ops next left s = binary_loop f ops next (BinaryOp op left right) s''.
Proof. intros Ho Hn. cbn [binary_loop]. rewrite (pbind_ok _ _ _ _ _ Ho). by rewrite (pbind_ok _ _ _ _ _ Hn). Qed.

Lemma level_run k dep next :
  sound next (derives k dep) -> complete next k (derives k dep) -> forall e s,
  derives (S k) dep e s -> forall r, follow k r ->
  exists r', skipWhitespace r' = skipWhitespace r /\
    binary_level (ops_at (S k)) next (s ++ r) = binary_loop (S (length r')) (ops_at (S k)) next e r'.
Proof.
  intros Hsd Hc e s Hd. remember (S k) as k' eqn:Hk. revert Hk.
  induction Hd as [k0 d0 e s Hlt Hd _|k0 d0 op l rt s1 w s2 Hop Hw Hl IHl Hr _| | | | | | | | |]; intros Hk; try done;
    injection Hk as ->; intros r Hf.
  - destruct (Hc _ _ _ Hd Hf) as (r' & Hp & Hr'). exists r'. split; [done|].
    unfold binary_level. rewrite (pbind_ok _ _ _ _ _ Hp). done.
  - destruct (IHl Hsd Hc eq_refl (w ++ text op ++ s2 ++ r)) as (r1 & Hr1 & Hp); [by apply follow_op|].
    destruct (Hc _ _ _ Hr Hf) as (r' & Hn & Hr').
    assert (Hop1 : consume_first (ops_at (S k)) r1 = inr (Some op, s2 ++ r)).
    { apply consume_first_op; [done| |by eapply derives_no_eq]. rewrite Hr1, skip_spaces by done.
      pose proof (op_level _ _ Hop). destruct (op_head _ _ Hop) as (c & t & -> & Hhd). cbn [app]. apply skip_stop.
      apply following_heads in Hhd as [Hhd _]; [|done]. by apply (following_separates k); [lia|]. }
    exists r'. split; [done|]. replace ((s1 ++ w ++ text op ++ s2) ++ r) with (s1 ++ w ++ text op ++ s2 ++ r) by (by rewrite <- !app_assoc).
    rewrite Hp, (binary_loop_op _ _ _ _ _ _ _ _ _ Hop1 Hn).
    apply consume_first_shrinks in Hop1. pose proof (sound_shrinks _ _ _ _ _ Hsd Hn).
    apply (binary_loop_fuel (S k) next (derives k d0)); [done|lia..].
Qed.

Lemma levels_complete k dep unary :
  (k <= 6)%nat -> sound unary (derives 0 dep) -> complete unary 0 (derives 0 dep) ->
  complete (levels k unary) k (derives k dep).
Proof.
  intros Hk Hs Hu. induction k as [|k IH]; [done|]. specialize (IH ltac:(lia)). intros e s r Hd Hf. cbn [levels].
  destruct (level_run k dep (levels k unary) (levels_sound k dep unary ltac:(lia) Hs) IH e s Hd r) as (r' & Hr & Hp).
  { apply follow_weaken; [lia|done]. }
  exists (skipWhitespace r'). split; [|by rewrite skip_idem]. rewrite Hp. cbn [binary_loop].
  assert (Hn : consume_first (ops_at (S k)) r' = inr (None, skipWhitespace r')).
  { apply consume_first_follow; [by eapply follow_skip|lia]. }
  by rewrite (pbind_ok _ _ _ _ _ Hn).
Qed.

(** ** Completeness: tokens *)

Lemma string_body_complete v r : string_text v -> string_body (v ++ dquote :: r) = Some (v, r).
Proof.
  induction 1 as [|c v Hq Hb Hv IH|d v Hv IH].
  - cbn. by rewrite decide_True.
  - cbn [app string_body]. rewrite decide_False by done. destruct (v ++ dquote :: r) as [|d t] eqn:Ht; [by destruct v|].
    rewrite decide_False by done. by rewrite IH.
  - cbn [app string_body]. rewrite decide_False by done. rewrite decide_True by done. by rewrite IH.
Qed.

Definition no_digit (r : list ascii) : Prop :=
  match r with c :: _ => IsDigit c = false /\ c <> "."%char | [] => True end.

Lemma lexeme_digits dot a r : digits a -> number_lexeme dot (a ++ r) = (a ++ (number_lexeme dot r).1, (number_lexeme dot r).2).
Proof. induction 1 as [|c a Hc _ IH]; cbn; [by destruct (number_lexeme dot r)|]. by rewrite Hc, IH. Qed.

Lemma lexeme_stop dot r : no_digit r -> number_lexeme dot r = ([], r).
Proof. destruct r as [|c r]; [done|]. intros [Hc Hd]. cbn. rewrite Hc. by rewrite decide_False. Qed.

Lemma number_lexeme_complete t r : number_text t -> no_digit r -> number_lexeme false (t ++ r) = (t, r).
Proof.
  intros [_ [Hd|(a & b & -> & Ha & Hb)]] Hr.
  - rewrite lexeme_digits by done. rewrite lexeme_stop by done. cbn. by rewrite app_nil_r.
  - rewrite <- app_assoc, lexeme_digits by done.
    assert (Hdot : number_lexeme false ("."%char :: b ++ r) = ("."%char :: b, r)); [|cbn [app]; by rewrite Hdot].
    cbn [number_lexeme]. change (IsDigit ".") with false. rewrite decide_True by done.
    rewrite lexeme_digits by done. rewrite lexeme_stop by done. cbn. by rewrite app_nil_r.
Qed.

Definition no_ident (r : list ascii) : Prop := match r with c :: _ => isIdentChar c = false | [] => True end.

Lemma ident_chars_complete t r : Forall (fun c => isIdentChar c = true) t -> no_ident r -> ident_chars (t ++ r) = (t, r).
Proof.
  induction 1 as [|c t Hc _ IH]; intros Hr; cbn; [|by rewrite Hc, IH].
  destruct r as [|c r]; [done|]. cbn in *. by rewrite Hr.
Qed.

Lemma keyword_complete k r : no_ident r -> keyword k (text k ++ r) = Some r.
Proof.
  intros Hr. unfold keyword. rewrite (proj2 (HasPrefix_Some _ _ r)) by done. destruct r as [|c r]; [done|]. by rewrite Hr.
Qed.

Lemma keyword_ident k t r :
  Forall (fun c => isIdentChar c = true) t -> Forall (fun c => isIdentChar c = true) (text k) -> t <> text k ->
  no_ident r -> keyword k (t ++ r) = None.
Proof.
  intros Ht Hk Hne Hr. unfold keyword. destruct (HasPrefix (t ++ r) (text k)) as [r'|] eqn:Hp; [|done].
  apply HasPrefix_Some in Hp. apply app_eq_app in Hp as (l & [[-> Heq]|[Heq ->]]).
  - apply Forall_app in Ht as [_ Ht]. subst r'. destruct l as [|c l]; [by rewrite app_nil_r in Hne|].
    apply Forall_cons in Ht as [Hc _]. cbn. by rewrite Hc.
  - rewrite Heq in Hk. apply Forall_app in Hk as [_ Hk]. destruct l as [|c l]; [by rewrite Heq, app_nil_r in Hne|].
    apply Forall_cons in Hk as [Hc _]. cbn in Hr. congruence.
Qed.

Lemma ident_start_facts c :
  isIdentStart c = true ->
  isIdentChar c = true /\ IsSpace c = false /\ c <> dquote /\ c <> "."%char /\ IsDigit c = false /\ c <> "("%char /\
  c <> "!"%char /\ c <> "-"%char.
Proof. destruct c as [[] [] [] [] [] [] [] []]; vm_compute; intros; first [done|by repeat split]. Qed.

Lemma digit_facts c :
  IsDigit c = true \/ c = "."%char -> IsSpace c = false /\ c <> dquote /\ c <> "!"%char /\ c <> "-"%char.
Proof. intros [Hc| ->]; [revert Hc; destruct c as [[] [] [] [] [] [] [] []]; vm_compute; intros; first [done|by repeat split]|by_eval]. Qed.

Lemma follow_no_ident k r : (k <= 6)%nat -> follow k r -> no_ident r.
Proof. intros Hk Hf%follow_head; [|done]. by destruct r; [|apply Hf]. Qed.
Lemma follow_no_digit k r : (k <= 6)%nat -> follow k r -> no_digit r.
Proof. intros Hk Hf%follow_head; [|done]. by destruct r; [|apply Hf]. Qed.

Lemma space_or_paren_no_ident w s : spaces w -> no_ident (w ++ "("%char :: s).
Proof. intros [|c w' Hc _]; [done|]. by apply space_separates in Hc as [? _]. Qed.

(** The parsers skip white space first. *)
Definition skips (p : parser Expr) : Prop := forall s s', skipWhitespace s = skipWhitespace s' -> p s = p s'.

Lemma parsePrimary_skips or : skips (parsePrimary or).
Proof. intros s s' Hs. unfold parsePrimary. by rewrite Hs. Qed.

Lemma parseUnary_skips dep : skips (parseUnary dep).
Proof.
  destruct dep as [|dep]; [done|]. intros s s' Hs. cbn [parseUnary]. unfold mbind, parser_bind.
  by rewrite (consume_skip "!" s s' Hs).
Qed.

Lemma levels_skips k unary : skips unary -> skips (levels k unary).
Proof.
  intros Hu. induction k as [|k IH]; [done|]. intros s s' Hs. cbn [levels]. unfold binary_level, mbind, parser_bind.
  by rewrite (IH s s' Hs).
Qed.

(** A text that starts as a primary is parsed as one. *)
Lemma unary_primary dep w c s :
  spaces w -> IsSpace c = false -> c <> "!"%char -> c <> "-"%char ->
  parseUnary (S dep) (w ++ c :: s) =
  parsePrimary (match dep with O => pfail DepthLimit | S dep' => parseOr_body (parseUnary dep') end) (c :: s).
Proof.
  intros Hw Hc Hb Hm. cbn [parseUnary]. pose proof (skip_spaces w (c :: s) Hw) as Hs. rewrite skip_stop in Hs by done.
  assert (Hmiss : forall t t', text t = t' :: [] -> t' <> c -> forall x, skipWhitespace x = c :: s ->
            consume t x = inr (false, c :: s)).
  { intros t t' Ht Hne x Hx. rewrite <- Hx. eapply consume_miss; [exact Ht|]. by rewrite Hx. }
  rewrite (pbind_ok _ _ _ _ _ (Hmiss "!" _ eq_refl (not_eq_sym Hb) _ Hs)).
  rewrite (pbind_ok _ _ _ _ _ (Hmiss "-" _ eq_refl (not_eq_sym Hm) (c :: s) (skip_stop c s Hc))). done.
Qed.

(** ** Completeness: primaries *)

Lemma derives_args_head d es s :
  derives_args d es s ->
  exists c t, skipWhitespace s = c :: t /\ starts c = true /\ (length es <= length (skipWhitespace s))%nat /\
  forall r, skipWhitespace (s ++ r) = c :: t ++ r.
Proof.
  assert (Hstart : forall k e s0, derives k d e s0 -> exists c t, starts c = true /\
            forall r, skipWhitespace (s0 ++ r) = c :: t ++ r).
  { intros k e s0 (w & c & t & -> & Hw & Hc)%derives_head. exists c, t. split; [done|]. intros r.
    rewrite <- app_assoc, skip_spaces by done. apply skip_stop. by apply starts_facts in Hc as (? & _). }
  intros Hd. induction Hd as [d e s0 He|d e es s0 w s' Hw He Hes IH]; destruct (Hstart _ _ _ He) as (c & t & Hc & Hr).
  - exists c, t. pose proof (Hr []) as H0. rewrite !app_nil_r in H0. rewrite H0. cbn. repeat split; [done|lia|done].
  - destruct (IH Hstart) as (c' & t' & _ & _ & Hlen & _). exists c, (t ++ w ++ text "," ++ s').
    rewrite Hr. pose proof (skip_length s'). cbn [length]. rewrite !length_app. cbn [length].
    split; [done|]. split; [done|]. split; [cbn; lia|]. intros r. rewrite <- !app_assoc. rewrite Hr. done.
Qed.

Section PrimaryComplete.
  Context (or : parser Expr) (dep : nat).
  Context (or_skips : skips or) (or_complete : forall d, dep = S d -> complete or 6 (derives 6 d)).

Lemma args_loop_complete d es s : derives_args d es s -> dep = S d -> forall fuel x w r,
  (length es <= fuel)%nat -> spaces w -> skipWhitespace x = skipWhitespace (s ++ w ++ ")"%char :: r) ->
  exists r', args_loop fuel or x = inr (es, r') /\ skipWhitespace r' = ")"%char :: r.
Proof.
  intros Hd Hdep. induction Hd as [d e s He|d e es s w1 s' Hw1 He Hes IH]; intros fuel x w r Hf Hw Hx;
    (destruct fuel as [|fuel]; [cbn in Hf; lia|]); cbn [args_loop].
  - destruct (or_complete d Hdep e s (w ++ ")"%char :: r) He) as (r' & Ho & Hr').
    { apply follow_close; [done|set_solver|done]. }
    rewrite (pbind_ok _ _ _ _ _ (eq_trans (or_skips x _ Hx) Ho)). rewrite skip_spaces in Hr' by done.
    rewrite (pbind_ok _ _ r' false (skipWhitespace r')); [|eapply consume_miss; [reflexivity|by rewrite Hr']].
    exists (skipWhitespace r'). split; [done|]. by rewrite skip_idem, Hr'.
  - rewrite <- !app_assoc in Hx.
    destruct (or_complete d Hdep e s (w1 ++ text "," ++ s' ++ w ++ ")"%char :: r) He) as (r' & Ho & Hr').
    { apply (follow_close 6 ","%char w1); [done|set_solver|done]. }
    rewrite (pbind_ok _ _ _ _ _ (eq_trans (or_skips x _ Hx) Ho)).
    rewrite (pbind_ok _ _ r' true (s' ++ w ++ ")"%char :: r)).
    2:{ rewrite (consume_skip _ _ _ Hr'). by apply (consume_ok "," w1 _ ","%char []). }
    destruct (IH Hdep fuel _ w r ltac:(cbn in Hf; lia) Hw eq_refl) as (r'' & Ha & Hr'').
    rewrite (pbind_ok _ _ _ _ _ Ha). by exists r''.
Qed.

Lemma parseArgs_complete d es s w r :
  derives_args d es s -> dep = S d -> spaces w ->
  exists r', parseArgs or (s ++ w ++ ")"%char :: r) = inr (es, r') /\ skipWhitespace r' = ")"%char :: r.
Proof.
  intros Hd Hdep Hw. destruct (derives_args_head _ _ _ Hd) as (c & t & Hs & Hc & Hlen & Hr). unfold parseArgs.
  rewrite Hr. apply starts_facts in Hc as (Hsp & Hcp & _). rewrite decide_False by done.
  apply (args_loop_complete d es s Hd Hdep _ _ w r); [|done|].
  - rewrite Hs in Hlen. cbn in *. rewrite !length_app. lia.
  - rewrite Hr. by apply skip_stop.
Qed.

(** Past the literals. *)
Lemma primary_other c t :
  IsSpace c = false -> c <> dquote -> c <> "."%char -> IsDigit c = false ->
  keyword "true" (c :: t) = None -> keyword "false" (c :: t) = None ->
  parsePrimary or (c :: t) = if decide (c = "("%char) then parseParens or t
                             else if isIdentStart c then parseCall or (c :: t) else inl (UnexpectedCharacter (c :: t)).
Proof.
  intros Hsp Hq Hd Hdg Ht Hf. unfold parsePrimary. rewrite skip_stop by done. rewrite decide_False by done.
  rewrite decide_False by (intros [?|?]; congruence). rewrite Ht, Hf. unfold mbind, parser_bind, consume.
  rewrite skip_stop by done. cbn. destruct (decide ("("%char = c)) as [<-|Hne].
  - by rewrite decide_True.
  - rewrite decide_False by congruence. by destruct (isIdentStart c).
Qed.

Lemma parens_complete d e s w' r :
  spaces w' -> derives 6 d e s -> dep = S d -> parsePrimary or ("("%char :: s ++ w' ++ text ")" ++ r) = inr (e, r).
Proof.
  intros Hw' Hd Hdep. destruct (or_complete d Hdep e s (w' ++ text ")" ++ r) Hd) as (r1 & Ho & Hr1).
  { apply (follow_close 6 ")"%char w'); [done|set_solver|done]. }
  rewrite primary_other by done. rewrite decide_True by done. unfold parseParens. rewrite (pbind_ok _ _ _ _ _ Ho).
  rewrite (pbind_ok _ _ r1 true r); [done|]. rewrite (consume_skip _ _ _ Hr1). by apply (consume_ok ")" w' _ ")"%char []).
Qed.

(** Parsing reaches the identifier's name. *)
Lemma primary_ident t r :
  ident_text t -> no_ident r -> exists c t', t = c :: t' /\ IsSpace c = false /\ c <> "!"%char /\ c <> "-"%char /\
    parsePrimary or (t ++ r) =
    (call ← consume "(";
     if (call : bool) then
       args ← parseArgs or; close ← consume ")";
       if (close : bool) then mret (FunctionCall (str t) args) else pfail_at ExpectedParenAfterArgs
     else mret (Identifier (str t))) r.
Proof.
  intros [(c & t' & -> & Hc) (Hall & Hnt & Hnf)] Hr. exists c, t'.
  pose proof (ident_start_facts c Hc) as (_ & ? & ? & ? & ? & ? & ? & ?). repeat (split; [done|]).
  change ((c :: t') ++ r) with (c :: t' ++ r). rewrite primary_other; [|done..| |].
  - rewrite decide_False by done. rewrite Hc. unfold parseCall.
    rewrite (pbind_ok _ _ _ (str (c :: t')) r); [done|]. unfold parseIdentifier.
    change (c :: t' ++ r) with ((c :: t') ++ r). by rewrite ident_chars_complete.
  - apply (keyword_ident "true" (c :: t') r); [done| |done..]. by_eval.
  - apply (keyword_ident "false" (c :: t') r); [done| |done..]. by_eval.
Qed.

Lemma call_complete d t w1 args s w2 r :
  spaces w1 -> spaces w2 -> ident_text t -> derives_args d args s -> dep = S d ->
  parsePrimary or (t ++ w1 ++ text "(" ++ s ++ w2 ++ text ")" ++ r) = inr (FunctionCall (str t) args, r).
Proof.
  intros Hw1 Hw2 Ht Hd Hdep. destruct (primary_ident t (w1 ++ text "(" ++ s ++ w2 ++ text ")" ++ r) Ht) as (_ & _ & _ & _ & _ & _ & Hp).
  { by apply space_or_paren_no_ident. }
  rewrite Hp. rewrite (pbind_ok _ _ _ _ _ (consume_ok "(" w1 _ "("%char [] Hw1 eq_refl eq_refl)).
  destruct (parseArgs_complete d args s w2 r Hd Hdep Hw2) as (r' & Ha & Hr'). rewrite (pbind_ok _ _ _ _ _ Ha).
  rewrite (pbind_ok _ _ r' true r); [done|]. rewrite (consume_skip _ r' (text ")" ++ r)) by (by rewrite Hr').
  by apply (consume_ok ")" [] _ ")"%char []).
Qed.

Lemma call_empty_complete t w1 w2 r :
  spaces w1 -> spaces w2 -> ident_text t ->
  parsePrimary or (t ++ w1 ++ text "(" ++ w2 ++ text ")" ++ r) = inr (FunctionCall (str t) [], r).
Proof.
  intros Hw1 Hw2 Ht. destruct (primary_ident t (w1 ++ text "(" ++ w2 ++ text ")" ++ r) Ht) as (_ & _ & _ & _ & _ & _ & Hp).
  { by apply space_or_paren_no_ident. }
  rewrite Hp. rewrite (pbind_ok _ _ _ _ _ (consume_ok "(" w1 _ "("%char [] Hw1 eq_refl eq_refl)).
  rewrite (pbind_ok _ _ _ [] (")"%char :: r)).
  2:{ unfold parseArgs. rewrite skip_spaces by done. cbn [app String.list_ascii_of_string]. rewrite skip_stop by done. by rewrite decide_True. }
  by rewrite (pbind_ok _ _ _ _ _ (consume_ok ")" [] r ")"%char [] spaces_nil eq_refl eq_refl)).
Qed.

End PrimaryComplete.

Lemma prefix_complete dep op w s :
  op ∈ ["!"; "-"] -> spaces w ->
  parseUnary (S dep) (w ++ text op ++ s) = (expr ← parseUnary dep; mret (UnaryOp op expr)) s.
Proof.
  intros Hop Hw. cbn [parseUnary]. set_unfold in Hop. destruct_or? Hop; subst op.
  - by rewrite (pbind_ok _ _ _ _ _ (consume_ok "!" w s "!"%char [] Hw eq_refl eq_refl)).
  - assert (Hs : skipWhitespace (w ++ text "-" ++ s) = "-"%char :: s) by (rewrite skip_spaces by done; reflexivity).
    rewrite (pbind_ok _ _ _ false ("-"%char :: s)); [|rewrite <- Hs; eapply consume_miss; [reflexivity|by rewrite Hs]].
    by rewrite (pbind_ok _ _ _ _ _ (consume_ok "-" [] s "-"%char [] spaces_nil eq_refl eq_refl)).
Qed.

Lemma parseUnary_complete dep : complete (parseUnary dep) 0 (derives 0 dep).
Proof.
  induction dep as [dep IH] using lt_wf_ind. intros e s r Hd Hf.
  assert (Hni : no_ident r) by exact (follow_no_ident 0 r ltac:(lia) Hf).
  assert (Hor : forall d0 d, d0 = S d -> (d0 < dep)%nat ->
            complete (match d0 with O => pfail DepthLimit | S d' => parseOr_body (parseUnary d') end) 6 (derives 6 d)).
  { intros d0 d -> Hlt. rewrite <- levels_or. apply levels_complete; [done|apply parseUnary_sound|apply IH; lia]. }
  assert (Hsk : forall d0, skips (match d0 with O => pfail DepthLimit | S d' => parseOr_body (parseUnary d') end)).
  { intros [|d']; [done|]. rewrite <- levels_or. apply levels_skips, parseUnary_skips. }
  remember 0%nat as k0 eqn:Hk. destruct Hd as [| |dep op w e s Hop Hw Hd|dep w v Hw Hv|dep w t f Hw Ht Hpf|dep w Hw|dep w Hw
    |dep w e s w' Hw Hw' Hd|dep w t Hw Ht|dep w t w1 w2 Hw Hw1 Hw2 Ht|dep w t w1 args s w2 Hw Hw1 Hw2 Ht Hd]; try done; clear Hk.
  - rewrite <- !app_assoc, prefix_complete by done. destruct (IH dep ltac:(lia) _ _ _ Hd Hf) as (r' & Hp & Hr').
    rewrite (pbind_ok _ _ _ _ _ Hp). by exists r'.
  - rewrite <- app_assoc. cbn [app]. rewrite unary_primary by done. unfold parsePrimary. rewrite skip_stop by done.
    rewrite decide_True by done. unfold parseString. rewrite <- app_assoc. cbn [app]. rewrite string_body_complete by done. by exists r.
  - destruct (number_text_head t Ht) as (c & t' & -> & Hc). pose proof (digit_facts c Hc) as (? & ? & ? & ?).
    rewrite <- app_assoc. cbn [app]. rewrite unary_primary by done. unfold parsePrimary. rewrite skip_stop by done.
    rewrite decide_False by done. rewrite decide_True by tauto. unfold parseNumber. change (c :: t' ++ r) with ((c :: t') ++ r).
    rewrite number_lexeme_complete; [|done|exact (follow_no_digit 0 r ltac:(lia) Hf)]. rewrite Hpf. by exists r.
  - rewrite <- app_assoc. change (text "true" ++ r) with ("t"%char :: text "rue" ++ r). rewrite unary_primary by done.
    unfold parsePrimary. rewrite skip_stop by done. change ("t"%char :: text "rue" ++ r) with (text "true" ++ r).
    rewrite keyword_complete by done. by exists r.
  - rewrite <- app_assoc. change (text "false" ++ r) with ("f"%char :: text "alse" ++ r). rewrite unary_primary by done.
    unfold parsePrimary. rewrite skip_stop by done.
    change (keyword "true" ("f"%char :: text "alse" ++ r)) with (@None (list ascii)).
    change ("f"%char :: text "alse" ++ r) with (text "false" ++ r). rewrite keyword_complete by done. by exists r.
  - rewrite <- !app_assoc. change (text "(" ++ ?x) with ("("%char :: x). rewrite unary_primary by done.
    exists r. split; [|done]. apply (parens_complete _ (S dep) (Hsk (S dep)) (fun d H => Hor (S dep) d H ltac:(lia)) dep); done.
  - destruct (primary_ident (match dep with O => pfail DepthLimit | S d' => parseOr_body (parseUnary d') end) t r Ht Hni)
      as (c & t' & -> & Hc & Hb & Hm & Hp). rewrite <- app_assoc. cbn [app]. rewrite unary_primary by done.
    cbn [app] in Hp. rewrite Hp. exists (skipWhitespace r). split; [|by rewrite skip_idem].
    by rewrite (pbind_ok _ _ _ _ _ (follow_no_paren 0 r ltac:(lia) Hf)).
  - pose proof (call_empty_complete (match dep with O => pfail DepthLimit | S d' => parseOr_body (parseUnary d') end) t w1 w2 r Hw1 Hw2 Ht) as Hp.
    destruct Ht as [(c & t' & -> & Hc) _]. pose proof (ident_start_facts c Hc) as (_ & ? & _ & _ & _ & _ & ? & ?).
    rewrite <- !app_assoc. cbn [app]. rewrite unary_primary by done. exists r. split; [exact Hp|done].
  - pose proof (call_complete _ (S dep) (Hsk (S dep)) (fun d H => Hor (S dep) d H ltac:(lia)) dep t w1 args s w2 r Hw1 Hw2 Ht Hd eq_refl) as Hp.
    destruct Ht as [(c & t' & -> & Hc) _]. pose proof (ident_start_facts c Hc) as (_ & ? & _ & _ & _ & _ & ? & ?).
    rewrite <- !app_assoc. cbn [app]. rewrite unary_primary by done. exists r. split; [exact Hp|done].
Qed.

(** ** Termination: the fuel of the loops is never exhausted *)

Definition ends {A} (p : parser A) : Prop := forall s, p s <> inl OutOfFuel.

Lemma ends_bind {A B} (p : parser A) (k : A -> parser B) : ends p -> (forall a, ends (k a)) -> ends (p ≫= k).
Proof. intros Hp Hk s. unfold mbind, parser_bind. specialize (Hp s). destruct (p s) as [e|[a s']]; [congruence|apply Hk]. Qed.

Lemma ends_mret {A} (a : A) : ends (mret a : parser A).
Proof. done. Qed.
Lemma ends_consume t : ends (consume t).
Proof. intros s. unfold consume. by destruct (HasPrefix _ _). Qed.
Lemma ends_consume_first ts : ends (consume_first ts).
Proof. induction ts as [|t ts IH]; cbn; [done|]. apply ends_bind; [apply ends_consume|]. by intros []. Qed.

Lemma binary_loop_ends k next D fuel left s :
  sound next D -> ends next -> (length s < fuel)%nat -> binary_loop fuel (ops_at k) next left s <> inl OutOfFuel.
Proof.
  intros Hs Hn. revert left s. induction fuel as [|fuel IH]; intros left s Hf; [lia|]. cbn [binary_loop]. unfold mbind, parser_bind.
  pose proof (ends_consume_first (ops_at k) s). destruct (consume_first (ops_at k) s) as [|[[op|] s']] eqn:Ho; [congruence| |done].
  pose proof (Hn s'). destruct (next s') as [|[right s'']] eqn:Hr; [congruence|].
  pose proof (consume_first_shrinks _ _ _ _ Ho). pose proof (sound_shrinks _ _ _ _ _ Hs Hr). apply IH. lia.
Qed.

Lemma levels_ends k dep unary : (k <= 6)%nat -> sound unary (derives 0 dep) -> ends unary -> ends (levels k unary).
Proof.
  intros Hk Hs Hu. induction k as [|k IH]; [done|]. specialize (IH ltac:(lia)). intros s. cbn [levels].
  unfold binary_level, mbind, parser_bind, remaining. pose proof (IH s). destruct (levels k unary s) as [|[left s']]; [congruence|].
  apply (binary_loop_ends _ _ (derives k dep)); [apply levels_sound; [lia|done]|done|lia].
Qed.

Lemma args_loop_ends or dep fuel s :
  (forall s e r, or s = inr (e, r) -> exists d s1 w, dep = S d /\ spaces w /\ s = s1 ++ w ++ r /\ derives 6 d e s1) ->
  ends or -> (length s < fuel)%nat -> args_loop fuel or s <> inl OutOfFuel.
Proof.
  intros Hs Ho. revert s. induction fuel as [|fuel IH]; intros s Hf; [lia|]. cbn [args_loop]. unfold mbind, parser_bind.
  pose proof (Ho s). destruct (or s) as [|[arg s']] eqn:Ha; [congruence|]. destruct (Hs _ _ _ Ha) as (d & s1 & w & _ & _ & -> & _).
  destruct (consume_cases "," s') as [(r & Hc)| ->]; [|done]. rewrite Hc. apply consume_true in Hc as (w' & _ & ->).
  specialize (IH r). rewrite !length_app in Hf. cbn in Hf. destruct (args_loop fuel or r) as [|[]]; [|done].
  intros [= ->]. apply IH; [lia|done].
Qed.

Lemma parsePrimary_ends or dep :
  (forall s e r, or s = inr (e, r) -> exists d s1 w, dep = S d /\ spaces w /\ s = s1 ++ w ++ r /\ derives 6 d e s1) ->
  ends or -> ends (parsePrimary or).
Proof.
  intros Hs Ho s. unfold parsePrimary. destruct (skipWhitespace s) as [|ch s']; [done|].
  case_decide; [unfold parseString; by destruct (string_body s') as [[]|]|].
  case_decide; [unfold parseNumber; destruct (number_lexeme _ _); by destruct (ParseFloat _)|].
  destruct (keyword "true" _); [done|]. destruct (keyword "false" _); [done|].
  apply (ends_bind (consume "(")); [apply ends_consume|]. intros [].
  { apply ends_bind; [done|]. intros x. apply ends_bind; [apply ends_consume|]. by intros []. }
  destruct (isIdentStart ch); [|done]. apply ends_bind; [intros t; unfold parseIdentifier; by destruct (ident_chars t)|].
  intros name. apply ends_bind; [apply ends_consume|]. intros []; [|done]. apply ends_bind.
  - intros t. unfold parseArgs. pose proof (args_loop_ends or dep) as Ha.
    destruct (skipWhitespace t); [apply Ha; [done..|cbn; lia]|]. case_decide; [done|]. apply Ha; [done..|lia].
  - intros args. apply ends_bind; [apply ends_consume|]. by intros [].
Qed.

Lemma parseUnary_ends dep : ends (parseUnary dep).
Proof.
  induction dep as [dep IH] using lt_wf_ind. destruct dep as [|dep]; [done|]. cbn [parseUnary].
  apply ends_bind; [apply ends_consume|]. intros []; [apply ends_bind; [apply IH; lia|done]|].
  apply ends_bind; [apply ends_consume|]. intros []; [apply ends_bind; [apply IH; lia|done]|].
  apply (parsePrimary_ends _ dep).
  - intros s e r Ho. destruct dep as [|d]; [done|]. rewrite <- levels_or in Ho.
    apply (levels_sound 6 d) in Ho as (s4 & w4 & ?); [by exists d, s4, w4|done|apply parseUnary_sound].
  - destruct dep as [|d]; [done|]. rewrite <- levels_or. apply (levels_ends 6 d); [done|apply parseUnary_sound|apply IH; lia].
Qed.

(** ** The theorems *)

Lemma Parse_at_exact dep input e : Parse_at (S dep) input = inr e <-> expression dep e input.
Proof.
  unfold Parse_at, expression. split.
  - destruct (parseOr (S dep) (skipWhitespace (text input))) as [|[x rest]] eqn:Hp; [done|].
    destruct (skipWhitespace rest) eqn:Hr; intros [=]; subst.
    apply parseOr_sound in Hp as (s1 & w & Hw & Hs & d & [= <-] & Hd). destruct (skip_split (text input)) as (w0 & Hw0 & Hi).
    destruct (skip_split rest) as (w1 & Hw1 & Hrest). rewrite Hr, app_nil_r in Hrest. subst rest.
    exists (w0 ++ s1), (w ++ w1). split; [by rewrite Hi, Hs, <- !app_assoc|]. split; [auto|by apply derives_spaces].
  - intros (s & w & Hi & Hw & Hd). rewrite Hi. cbn [parseOr]. rewrite <- levels_or.
    rewrite (levels_skips 6 _ (parseUnary_skips dep) _ (s ++ w)) by apply skip_idem.
    destruct (levels_complete 6 dep (parseUnary dep) ltac:(lia) (parseUnary_sound dep) (parseUnary_complete dep) e s w Hd) as (r' & Hp & Hr').
    { unfold follow. pose proof (skip_spaces w [] Hw) as Hn. rewrite app_nil_r in Hn. by rewrite Hn. }
    pose proof (skip_spaces w [] Hw) as Hn. rewrite app_nil_r in Hn. by rewrite Hp, Hr', Hn.
Qed.

Lemma Parse_exact input e : Parse input = inr e <-> expression (pred maxParseDepth) e input.
Proof. apply (Parse_at_exact (pred maxParseDepth)). Qed.

(** C3: The parser is exactly the grammar.  It accepts a text as the tree [e] if and only if
    the grammar of the operators' precedences, left associativity, literals, parentheses and
    calls derives [e] from the text within the nesting limit; so every text has at most one
    tree. *)
Theorem classads_parser_exact (input : string) :
  (forall e, Parse input = inr e <-> expression (pred maxParseDepth) e input) /\
  (forall e e', expression (pred maxParseDepth) e input -> expression (pred maxParseDepth) e' input -> e = e').
Proof. split; [apply Parse_exact|]. intros e e' He%Parse_exact He'%Parse_exact. congruence. Qed.

(** Parsing ends: on no input does a loop of the parser exceed the number of characters
    that remain when it is entered. *)
Theorem classads_parser_terminates (input : string) : Parse input <> inl OutOfFuel.
Proof.
  unfold Parse, Parse_at. change maxParseDepth with (S (pred maxParseDepth)). generalize (pred maxParseDepth) as dep. intros dep.
  cbn [parseOr]. rewrite <- levels_or.
  pose proof (levels_ends 6 dep _ ltac:(lia) (parseUnary_sound dep) (parseUnary_ends dep) (skipWhitespace (text input))).
  destruct (levels 6 (parseUnary dep) _) as [|[x rest]]; [congruence|]. by destruct (skipWhitespace rest).
Qed.
