(* ===== verification/ClassAdsEval.v ===== *)
(** * ClassAd expressions: evaluation ([pkg/classads/eval.go], [package.go])

    Expressions are evaluated on a map of attributes with dynamic values.  The recursion of
    [evalExprD] is bounded by [maxEvalDepth].  [regexp.MatchString] is an argument; every
    statement holds for all functions in its place.

    [evals] is the meaning of an expression on its own: a big-step semantics with
    short-circuiting operators and no depth limit.  The theorems: evaluation computes it, on
    every tree within the limit; and on attributes that are booleans, float64s and strings
    evaluation stays within these types, so a match never fails for want of a boolean.
    The parser bounds the nesting of a text but not the height of its tree
    ([chain_parses_but_fails]). *)

From Stdlib Require Import SpecFloat Ascii.
From S2P Require Import Prelude GoFloat ClassAds ClassAdsGrammar.
Local Open Scope Z_scope.

(** ** The program *)

Definition ClassAd : Type := gmap string Value.
Definition ClassAd_New : ClassAd := ∅.
Definition ClassAd_Set (c : ClassAd) (key : string) (value : Value) : ClassAd := <[key := value]> c.
Definition ClassAd_Get (c : ClassAd) (key : string) : option Value := c !! key.

Inductive eval_error :=
  | ParseError (e : parse_error) | NotABool | TooDeep | UndefinedAttribute (name : string)
  | RequiresBool (op : string) | RequiresNumber | RequiresNumbers (op : string)
  | UnknownUnaryOp (op : string) | UnknownBinaryOp (op : string) | DivisionByZero
  | RegexpArgs (n : nat) | RegexpStrings | InvalidRegexp | UnknownFunction (name : string).

Definition toBool (v : Value) : option bool :=
  match v with
  | VBool b => Some b
  | VFloat f => Some (negb (SFeqb f (S754_zero false)))
  | VString s => Some (bool_decide (s <> EmptyString))
  | _ => None
  end.

Definition toFloat (v : Value) : option float64 :=
  match v with
  | VFloat f => Some f
  | VInt z | VInt64 z => Some (f64_of_int z)
  | VString s => ParseFloat s
  | _ => None
  end.

(** [fmt.Sprintf] with the verb [%v]. *)
Definition Sprint (v : Value) : string :=
  match v with
  | VBool b => if b then "true" else "false"
  | VFloat f => format_float f
  | VString s => s
  | VInt z | VInt64 z => decimal z
  | VOther text => text
  end.

Definition valuesEqual (a b : Value) : bool :=
  match a with
  | VFloat av => match toFloat b with Some bv => SFeqb av bv | None => false end
  | VString av => match b with VString bv => bool_decide (av = bv) | _ => false end
  | VBool av => match b with VBool bv => bool_decide (av = bv) | _ => false end
  | _ => bool_decide (Sprint a = Sprint b)
  end.

Definition evalBinary (op : string) (left right : Value) : eval_error + Value :=
  if decide (op ∈ ["+"; "-"; "*"; "/"]) then
    match toFloat left, toFloat right with
    | Some lf, Some rf =>
        if decide (op = "+") then inr (VFloat (f64_add lf rf))
        else if decide (op = "-") then inr (VFloat (f64_sub lf rf))
        else if decide (op = "*") then inr (VFloat (f64_mul lf rf))
        else if SFeqb rf (S754_zero false) then inl DivisionByZero
        else inr (VFloat (f64_div lf rf))
    | _, _ => inl (RequiresNumbers op)
    end
  else if decide (op ∈ ["=="; "!="]) then
    let eq := valuesEqual left right in inr (VBool (if decide (op = "==") then eq else negb eq))
  else if decide (op ∈ ["<"; "<="; ">"; ">="]) then
    match toFloat left, toFloat right with
    | Some lf, Some rf =>
        inr (VBool (if decide (op = "<") then SFltb lf rf
                    else if decide (op = "<=") then SFleb lf rf
                    else if decide (op = ">") then SFltb rf lf
                    else SFleb rf lf))
    | _, _ => inl (RequiresNumbers op)
    end
  else inl (UnknownBinaryOp op).

(** The arguments of a call, from left to right. *)
Definition eval_args (eval : Expr -> eval_error + Value) : list Expr -> eval_error + list Value :=
  fix go l := match l with
              | [] => inr []
              | a :: l =>
                  match eval a with
                  | inl err => inl err
                  | inr v => match go l with inl err => inl err | inr vs => inr (v :: vs) end
                  end
              end.

Definition evalUnary (op : string) (v : Value) : eval_error + Value :=
  if decide (op = "!") then match toBool v with Some b => inr (VBool (negb b)) | None => inl (RequiresBool "!") end
  else if decide (op = "-") then match toFloat v with Some f => inr (VFloat (SFopp f)) | None => inl RequiresNumber end
  else inl (UnknownUnaryOp op).

Section Eval.
  Context (MatchString : string -> string -> option bool) (attrs : gmap string Value).

(** The functions, on the values of their arguments. *)
Definition evalCall (name : string) (args : list Value) : eval_error + Value :=
  if decide (name = "regexp") then
    match args with
    | [a; b] =>
        match a, b with
        | VString pattern, VString target =>
            match MatchString pattern target with Some matched => inr (VBool matched) | None => inl InvalidRegexp end
        | _, _ => inl RegexpStrings
        end
    | _ => inl (RegexpArgs (length args))
    end
  else inl (UnknownFunction name).

Definition maxEvalDepth : Z := 10000.

(** The right operand of a short-circuiting operator, or any result as a boolean. *)
Definition as_bool (op : string) (r : eval_error + Value) : eval_error + Value :=
  match r with
  | inl e => inl e
  | inr v => match toBool v with Some b => inr (VBool b) | None => inl (RequiresBool op) end
  end.

Fixpoint evalExprD (e : Expr) (depth : Z) : eval_error + Value :=
  if decide (depth > maxEvalDepth) then inl TooDeep
  else
    let depth := depth + 1 in
    match e with
    | Literal v => inr v
    | Identifier name => match attrs !! name with Some v => inr v | None => inl (UndefinedAttribute name) end
    | UnaryOp op e => match evalExprD e depth with inl err => inl err | inr v => evalUnary op v end
    | BinaryOp op l r =>
        match evalExprD l depth with
        | inl err => inl err
        | inr vl =>
            if decide (op = "&&") then
              match toBool vl with
              | None => inl (RequiresBool "&&")
              | Some lb => if lb then as_bool "&&" (evalExprD r depth) else inr (VBool false)
              end
            else if decide (op = "||") then
              match toBool vl with
              | None => inl (RequiresBool "||")
              | Some lb => if lb then inr (VBool true) else as_bool "||" (evalExprD r depth)
              end
            else match evalExprD r depth with inl err => inl err | inr vr => evalBinary op vl vr end
        end
    | FunctionCall name args =>
        match eval_args (fun a => evalExprD a depth) args with
        | inl err => inl err
        | inr vs => evalCall name vs
        end
    end.

Definition evalExpr (e : Expr) : eval_error + Value := evalExprD e 0.

Definition Eval (expr : string) : eval_error + Value :=
  match Parse expr with inl err => inl (ParseError err) | inr ast => evalExpr ast end.

Definition Match (requirements : string) : eval_error + bool :=
  match Eval requirements with
  | inl err => inl err
  | inr result => match toBool result with Some b => inr b | None => inl NotABool end
  end.

(** ** The semantics *)

Inductive evals : Expr -> Value -> Prop :=
  | e_literal v : evals (Literal v) v
  | e_identifier name v : attrs !! name = Some v -> evals (Identifier name) v
  | e_unary op e v v' : evals e v -> evalUnary op v = inr v' -> evals (UnaryOp op e) v'
  | e_binary op l r vl vr v :
      op <> "&&" -> op <> "||" -> evals l vl -> evals r vr -> evalBinary op vl vr = inr v -> evals (BinaryOp op l r) v
  | e_and_false l r vl : evals l vl -> toBool vl = Some false -> evals (BinaryOp "&&" l r) (VBool false)
  | e_and_true l r vl vr b :
      evals l vl -> toBool vl = Some true -> evals r vr -> toBool vr = Some b -> evals (BinaryOp "&&" l r) (VBool b)
  | e_or_true l r vl : evals l vl -> toBool vl = Some true -> evals (BinaryOp "||" l r) (VBool true)
  | e_or_false l r vl vr b :
      evals l vl -> toBool vl = Some false -> evals r vr -> toBool vr = Some b -> evals (BinaryOp "||" l r) (VBool b)
  | e_call name args vs v : evals_all args vs -> evalCall name vs = inr v -> evals (FunctionCall name args) v
with evals_all : list Expr -> list Value -> Prop :=
  | e_nil : evals_all [] []
  | e_cons e es v vs : evals e v -> evals_all es vs -> evals_all (e :: es) (v :: vs).

Lemma Expr_rect_args (P : Expr -> Prop) :
  (forall v, P (Literal v)) -> (forall n, P (Identifier n)) -> (forall op l r, P l -> P r -> P (BinaryOp op l r)) ->
  (forall op e, P e -> P (UnaryOp op e)) -> (forall n args, Forall P args -> P (FunctionCall n args)) -> forall e, P e.
Proof.
  intros Hl Hi Hb Hu Hc. fix IH 1. intros [v|n|op l r|op e|n args]; [apply Hl|apply Hi|apply Hb; apply IH|apply Hu; apply IH|apply Hc].
  induction args as [|a args IHargs]; constructor; [apply IH|exact IHargs].
Qed.

Lemma as_bool_inv op r v : as_bool op r = inr v -> exists v' b, r = inr v' /\ toBool v' = Some b /\ v = VBool b.
Proof. destruct r as [|v']; [done|]. cbn. destruct (toBool v') eqn:Hb; [|done]. intros [= <-]. eauto. Qed.

Lemma eval_args_evals f args vs :
  Forall (fun a => forall v, f a = inr v -> evals a v) args -> eval_args f args = inr vs -> evals_all args vs.
Proof.
  intros Hf. revert vs. induction Hf as [|a args Ha _ IH]; intros vs; cbn; [intros [= <-]; constructor|].
  destruct (f a) as [|v]; [done|]. fold (eval_args f args). destruct (eval_args f args) as [|vs']; [done|].
  intros [= <-]. constructor; auto.
Qed.

(** What evaluation returns, the semantics derives. *)
Lemma evalExprD_sound e : forall depth v, evalExprD e depth = inr v -> evals e v.
Proof.
  induction e as [v|n|op l r IHl IHr|op e IHe|n args IHargs] using Expr_rect_args; intros depth v0; cbn;
    (case_decide; [done|]).
  - intros [= ->]. constructor.
  - destruct (attrs !! n) eqn:Hn; [|done]. intros [= ->]. by constructor.
  - destruct (evalExprD l (depth + 1)) as [|vl] eqn:Hl; [done|]. apply IHl in Hl. case_decide as Hand; [subst op|].
    { destruct (toBool vl) as [[]|] eqn:Hb; [|intros [= <-]; by eapply e_and_false|done].
      intros (v' & b & Hr & Hb' & ->)%as_bool_inv. eapply e_and_true; eauto. }
    case_decide as Hor; [subst op|].
    { destruct (toBool vl) as [[]|] eqn:Hb; [intros [= <-]; by eapply e_or_true| |done].
      intros (v' & b & Hr & Hb' & ->)%as_bool_inv. eapply e_or_false; eauto. }
    destruct (evalExprD r (depth + 1)) as [|vr] eqn:Hr; [done|]. intros Hv. eapply e_binary; eauto.
  - destruct (evalExprD e (depth + 1)) as [|v] eqn:He; [done|]. intros Hv. eapply e_unary; eauto.
  - destruct (eval_args _ args) as [|vs] eqn:Ha; [done|]. intros Hv. eapply e_call; [|exact Hv].
    eapply eval_args_evals; [|exact Ha]. eapply Forall_impl; [exact IHargs|]. cbn. intros a Hv' v'. apply Hv'.
Qed.

Fixpoint height (e : Expr) : Z :=
  match e with
  | Literal _ | Identifier _ => 1
  | UnaryOp _ e => 1 + height e
  | BinaryOp _ l r => 1 + Z.max (height l) (height r)
  | FunctionCall _ args => 1 + foldr (fun a m => Z.max (height a) m) 0 args
  end.

Scheme evals_mut := Induction for evals Sort Prop
with evals_all_mut := Induction for evals_all Sort Prop.
Combined Scheme evals_both from evals_mut, evals_all_mut.

Lemma height_pos e : 1 <= height e.
Proof.
  induction e as [v|n|op l r IHl IHr|op e IHe|n args _] using Expr_rect_args; cbn; [lia..|].
  assert (0 <= foldr (fun a m => Z.max (height a) m) 0 args); [induction args; cbn; lia|lia].
Qed.

(** What the semantics derives, evaluation returns within the limit. *)
Lemma evalExprD_complete :
  (forall e v, evals e v -> forall depth, height e + depth <= maxEvalDepth + 1 -> evalExprD e depth = inr v) /\
  (forall es vs, evals_all es vs -> forall depth, foldr (fun a m => Z.max (height a) m) 0 es + depth <= maxEvalDepth + 1 ->
     eval_args (fun a => evalExprD a depth) es = inr vs).
Proof.
  assert (Hgo : forall e depth, height e + depth <= maxEvalDepth + 1 -> ~ depth > maxEvalDepth).
  { intros e depth Hh. pose proof (height_pos e). lia. }
  apply evals_both; intros; cbn [evalExprD eval_args];
    match goal with
    | Hh : height ?e + ?d <= _ |- _ => rewrite (decide_False (P := d > maxEvalDepth)) by exact (Hgo _ _ Hh); cbn [height] in Hh
    | Hh : foldr _ _ _ + _ <= _ |- _ => cbn in Hh
    end.
  all: repeat match goal with
              | H : forall d, _ -> evalExprD ?e d = inr _ |- context [evalExprD ?e ?d] => rewrite (H d) by lia
              | H : forall d, _ -> eval_args _ ?es = inr _ |- context [eval_args (fun a => evalExprD a ?d) ?es] => rewrite (H d) by lia
              | H : toBool ?v = _ |- context [toBool ?v] => rewrite H; cbn
              | H : attrs !! ?n = _ |- context [attrs !! ?n] => rewrite H
              end; rewrite ?decide_False by done; try done.
Qed.
End Eval.

(** ** Types *)

(** The values an expression can produce by itself. *)
Definition ad_value (v : Value) : Prop := match v with VBool _ | VFloat _ | VString _ => True | _ => False end.
#[global] Instance ad_value_dec v : Decision (ad_value v).
Proof. destruct v; cbn; apply _. Defined.

Fixpoint ad_expr (e : Expr) : Prop :=
  match e with
  | Literal v => ad_value v
  | Identifier _ => True
  | UnaryOp _ e => ad_expr e
  | BinaryOp _ l r => ad_expr l /\ ad_expr r
  | FunctionCall _ args => foldr (fun a P => ad_expr a /\ P) True args
  end.

Scheme derives_mut := Induction for derives Sort Prop
with derives_args_mut := Induction for derives_args Sort Prop.
Combined Scheme derives_both from derives_mut, derives_args_mut.

(** The literals of the grammar are booleans, numbers and strings. *)
Lemma derives_ad_expr :
  (forall k dep e s, derives k dep e s -> ad_expr e) /\
  (forall dep es s, derives_args dep es s -> foldr (fun a P => ad_expr a /\ P) True es).
Proof. apply derives_both; cbn; tauto. Qed.

Lemma Parse_ad_expr input e : Parse input = inr e -> ad_expr e.
Proof. intros (s & w & _ & _ & Hd)%Parse_exact. by apply (proj1 derives_ad_expr) in Hd. Qed.

Definition typed (r : eval_error + Value) : Prop :=
  match r with inr v => ad_value v | inl (RequiresBool _) | inl NotABool => False | inl _ => True end.

Lemma ad_toBool v : ad_value v -> exists b, toBool v = Some b.
Proof. destruct v; cbn; eauto; done. Qed.

Lemma evalUnary_typed op v : ad_value v -> typed (evalUnary op v).
Proof.
  intros Hv. unfold evalUnary. destruct (ad_toBool v Hv) as [b Hb]. rewrite Hb. case_decide; [done|]. case_decide; [|done].
  by destruct (toFloat v).
Qed.

Lemma evalBinary_typed op l r : typed (evalBinary op l r).
Proof. unfold evalBinary. repeat case_decide; repeat case_match; try done; by destruct (toFloat l), (toFloat r). Qed.

Lemma as_bool_typed op r : typed r -> typed (as_bool op r).
Proof. destruct r as [|v]; [done|]. cbn. intros Hv. by destruct (ad_toBool v Hv) as [b ->]. Qed.

Section Typed.
  Context (MatchString : string -> string -> option bool) (attrs : gmap string Value).
  Context (attrs_ok : map_Forall (fun _ v => ad_value v) attrs).

Lemma evalCall_typed name vs : typed (evalCall MatchString name vs).
Proof. unfold evalCall. repeat (case_decide || case_match); done. Qed.

Lemma eval_args_typed f args :
  Forall (fun a => typed (f a)) args ->
  match eval_args f args with inr vs => Forall ad_value vs | inl e => typed (inl e) end.
Proof.
  induction 1 as [|a args Ha _ IH]; cbn; [constructor|]. fold (eval_args f args). destruct (f a) as [|v]; [done|].
  destruct (eval_args f args); [done|by constructor].
Qed.

Lemma evalExprD_typed e : ad_expr e -> forall depth, typed (evalExprD MatchString attrs e depth).
Proof.
  induction e as [v|n|op l r IHl IHr|op e IHe|n args IHargs] using Expr_rect_args; intros He depth; cbn; (case_decide; [done|]).
  - done.
  - destruct (attrs !! n) eqn:Hn; [|done]. by apply (attrs_ok n).
  - destruct He as [Hl Hr]. specialize (IHl Hl (depth + 1)). specialize (IHr Hr (depth + 1)).
    destruct (evalExprD _ _ l (depth + 1)) as [|vl]; [done|]. destruct (ad_toBool vl IHl) as [b ->].
    case_decide; [destruct b; [by apply as_bool_typed|done]|]. case_decide; [destruct b; [done|by apply as_bool_typed]|].
    destruct (evalExprD _ _ r (depth + 1)); [done|apply evalBinary_typed].
  - specialize (IHe He (depth + 1)). destruct (evalExprD _ _ e (depth + 1)); [done|by apply evalUnary_typed].
  - assert (Ha : Forall (fun a => typed (evalExprD MatchString attrs a (depth + 1))) args).
    { cbn in He. clear - IHargs He. induction IHargs as [|a args Ha _ IH]; [constructor|]. destruct He as [? ?]. constructor; [by apply Ha|by apply IH]. }
    apply eval_args_typed in Ha. destruct (eval_args _ args); [done|apply evalCall_typed].
Qed.

Lemma Eval_typed expr : typed (Eval MatchString attrs expr).
Proof.
  unfold Eval. destruct (Parse expr) as [|ast] eqn:Hp; [done|]. apply evalExprD_typed. by eapply Parse_ad_expr.
Qed.
End Typed.

(** ** The theorems *)

(** Evaluation computes the semantics.  Whatever evaluation returns is the value the
    big-step semantics gives, operators short-circuiting and arguments evaluated in order;
    and every value the semantics gives is returned when the tree is no higher than the
    depth limit allows. *)
Theorem classads_eval_exact MatchString attrs e v :
  (evalExpr MatchString attrs e = inr v -> evals MatchString attrs e v) /\
  (height e <= maxEvalDepth + 1 -> (evalExpr MatchString attrs e = inr v <-> evals MatchString attrs e v)).
Proof.
  split; [apply evalExprD_sound|]. intros Hh. split; [apply evalExprD_sound|]. intros He.
  by apply (proj1 (evalExprD_complete MatchString attrs)); [|rewrite Z.add_0_r].
Qed.

(** C39: Matching is well typed.  On attributes that are booleans, float64 numbers and strings
    (the attributes of nodes are; an int or int64 is not enough, see
    [int_attribute_is_no_bool]), every expression that parses evaluates to a boolean, a
    float64 or a string or fails for another reason; neither a logical operator nor the
    match itself is ever refused a boolean. *)
Theorem classads_match_typed MatchString attrs requirements :
  map_Forall (fun _ v => ad_value v) attrs ->
  (forall v, Eval MatchString attrs requirements = inr v -> ad_value v) /\
  Match MatchString attrs requirements <> inl NotABool /\
  (forall op, Match MatchString attrs requirements <> inl (RequiresBool op)).
Proof.
  intros Ha. pose proof (Eval_typed MatchString attrs Ha requirements) as Ht. unfold Match.
  destruct (Eval MatchString attrs requirements) as [err|v] eqn:He.
  - split; [done|]. split; [intros [= ->]; done|intros op [= ->]; done].
  - cbn in Ht. destruct (ad_toBool v Ht) as [b ->]. split; [congruence|done].
Qed.

Definition demo_attrs : gmap string Value := {["gpu" := VFloat (f64_of_int 4); "zone" := VString "eu"; "spot" := VBool false]}.

Lemma classads_match_typed_witness :
  Match (fun _ _ => None) demo_attrs "gpu >= 2 && !spot" = inr true /\
  Match (fun _ _ => None) demo_attrs "gpu >= 2 && !spot" <> inl NotABool.
Proof.
  split; [vm_compute; reflexivity|].
  exact (proj1 (proj2 (classads_match_typed (fun _ _ => None) demo_attrs "gpu >= 2 && !spot" ltac:(by_eval)))).
Defined.

(** The height of a tree is not bounded by the nesting of its text: ten thousand and one
    additions parse, and fail to evaluate. *)
Fixpoint chain (n : nat) : string := match n with O => "1" | S n => "1+" +:+ chain n end.
Example chain_parses_but_fails :
  let s := chain (S maxParseDepth) in
  (match Parse s with inr _ => true | inl _ => false end) = true /\ Eval (fun _ _ => None) ∅ s = inl TooDeep.
Proof. split; vm_compute; reflexivity. Qed.

(** An integer attribute is not a truth value, and is equal to a number only if both print
    alike. *)
Example int_attribute_is_no_bool : Match (fun _ _ => None) {["cpus" := VInt 4]} "cpus" = inl NotABool.
Proof. vm_compute. reflexivity. Qed.
Example int_attribute_equality :
  let m := Match (fun _ _ => None) {["mem" := VInt 1000000]} in
  m "mem == 1000000" = inr false /\ m "1000000 == mem" = inr true /\ m "mem >= 1000000 && mem <= 1000000" = inr true.
Proof. vm_compute. auto. Qed.
