(* ===== verification/ClassAdMatch.v ===== *)
(** * ClassAd matching in the scheduler ([pkg/scheduler/classad_match.go], [classad_named_plugins.go])

    The plugin that admits and ranks nodes by the expressions a job carries in its labels,
    evaluated on the attributes a node advertises, and the two plugins that do the halves of
    it.  A plugin is called with a job and a node, neither of them nil.

    The theorems: the filter admits a node exactly when the requirements are an expression of
    the grammar that evaluates to a true value on the node's attributes; a job that the
    scheduler places satisfies its requirements on the node it is bound to, as the semantics
    reads them; and the pair of plugins schedules as the one does.  A rank below zero keeps
    a job from every node ([negative_rank_unschedulable]). *)

From Stdlib Require Import SpecFloat Ascii.
From S2P Require Import Prelude GoFloat SchedQueue Scheduler SchedSpec ClassAds ClassAdsGrammar ClassAdsEval.
Local Open Scope Z_scope.

(** ** The program *)

(** [strings.TrimSpace]; each round removes a byte, so the length is enough. *)
Definition TrimSpace (s : string) : string :=
  let cs := String.list_ascii_of_string s in
  let cs := trim_left code (length cs) space_runes cs in
  String.string_of_list_ascii (reverse (trim_left code (length cs) (map reverse space_runes) (reverse cs))).

(** [strings.ToLower] where it is compared with ASCII text: no other rune lowers to the
    letters of [true] and [false]. *)
Definition ToLower (s : string) : string :=
  String.string_of_list_ascii
    (map (fun c => if decide (65 <= code c <= 90) then ascii_of_N (N_of_ascii c + 32) else c) (String.list_ascii_of_string s)).

Notation LabelClassAdRequirements := "classad_requirements" (only parsing).
Notation LabelClassAdRank := "classad_rank" (only parsing).
Notation rankScale := 1000 (only parsing).

Definition with_job_label (job : Job) (key value : string) : Job :=
  mkJob (job_ID job) (job_Command job) (job_Resources job) (job_Priority job) (<[key := value]> (job_Labels job)).
Definition SetRequirements (job : Job) (expr : string) : Job := with_job_label job LabelClassAdRequirements expr.
Definition SetRank (job : Job) (expr : string) : Job := with_job_label job LabelClassAdRank expr.
Definition SetNodeAttribute (node : Node) (key value : string) : Node :=
  mkNode (node_ID node) (AvailableResources node) (<[key := value]> (node_Labels node)).

Definition requirementsExpr (job : Job) : string :=
  TrimSpace (default EmptyString (job_Labels job !! LabelClassAdRequirements)).
Definition rankExpr (job : Job) : string := TrimSpace (default EmptyString (job_Labels job !! LabelClassAdRank)).

Definition coerceAttr (raw : string) : Value :=
  if decide (ToLower (TrimSpace raw) = "true") then VBool true
  else if decide (ToLower (TrimSpace raw) = "false") then VBool false
  else match ParseFloat (TrimSpace raw) with Some f => VFloat f | None => VString raw end.

Definition resource_attributes (r : Resources) : gmap string Value :=
  <["GPU" := VFloat (f64_of_int (GPU r))]> (<["Memory" := VFloat (f64_of_int (Memory r))]> {["CPU" := VFloat (CPU r)]}).

Definition nodeAttributes (node : Node) : gmap string Value :=
  range_fold (fun attrs k raw =>
                if decide (k = LabelClassAdRequirements \/ k = LabelClassAdRank) then attrs
                else <[k := coerceAttr raw]> attrs)
    (resource_attributes (AvailableResources node)) (node_Labels node).

Definition toRankFloat (v : Value) : option float64 :=
  match v with
  | VFloat f => Some f
  | VInt z | VInt64 z => Some (f64_of_int z)
  | VBool b => Some (f64_of_int (if b then 1 else 0))
  | _ => None
  end.

Section Plugins.
  Context (MatchString : string -> string -> option bool).

(** The filter of [ClassAdMatch] and of [ClassAdFilterPlugin]. *)
Definition classad_filter (job : Job) (node : Node) : bool :=
  let req := requirementsExpr job in
  if decide (req = EmptyString) then true
  else match Match MatchString (nodeAttributes node) req with inl _ => false | inr ok => ok end.

(** The ranking of [ClassAdScorePlugin], and of [ClassAdMatch] after its filter. *)
Definition classad_rank (job : Job) (node : Node) : Z :=
  let rank := rankExpr job in
  if decide (rank = EmptyString) then 0
  else match Eval MatchString (nodeAttributes node) rank with
       | inl _ => 0
       | inr v =>
           match toRankFloat v with
           | Some f => if f64_IsNaN f || f64_IsInf f then 0 else f64_to_int (math_Round (f64_mul f (f64_of_int rankScale)))
           | None => 0
           end
       end.

Definition classad_score (job : Job) (node : Node) : Z :=
  if negb (classad_filter job node) then 0 else classad_rank job node.

Definition ClassAdMatch : Plugin := mkPlugin "ClassAdMatch" classad_filter classad_score (fun _ node => (node, true)).
Definition ClassAdFilterPlugin : Plugin :=
  mkPlugin "ClassAdFilterPlugin" classad_filter (fun _ _ => 0) (fun _ node => (node, true)).
Definition ClassAdScorePlugin : Plugin :=
  mkPlugin "ClassAdScorePlugin" (fun _ _ => true) classad_rank (fun _ node => (node, true)).

(** [RequirementsError]: the expression and the error, where the match fails. *)
Definition RequirementsError (job : Job) (node : Node) : option (string * eval_error) :=
  let req := requirementsExpr job in
  if decide (req = EmptyString) then None
  else match Match MatchString (nodeAttributes node) req with inl err => Some (req, err) | inr _ => None end.

(** ** Attributes *)

Lemma nodeAttributes_lookup node k :
  nodeAttributes node !! k =
  match node_Labels node !! k with
  | Some raw => if decide (k = LabelClassAdRequirements \/ k = LabelClassAdRank)
                then resource_attributes (AvailableResources node) !! k else Some (coerceAttr raw)
  | None => resource_attributes (AvailableResources node) !! k
  end.
Proof.
  pose (f := fun (i : string) (o : option Value) (raw : string) =>
               if decide (i = LabelClassAdRequirements \/ i = LabelClassAdRank) then o else Some (coerceAttr raw)).
  apply (range_fold_keyed _ f). unfold f.
  intros out i v j. destruct (decide (i = LabelClassAdRequirements \/ i = LabelClassAdRank)).
  - by case_decide; subst.
  - rewrite lookup_insert. by case_decide.
Qed.

Lemma coerceAttr_typed raw : ad_value (coerceAttr raw).
Proof. unfold coerceAttr. repeat case_decide; [done..|]. by destruct (ParseFloat _). Qed.

Lemma nodeAttributes_typed node : map_Forall (fun _ v => ad_value v) (nodeAttributes node).
Proof.
  assert (Hr : forall r, map_Forall (fun _ v => ad_value v) (resource_attributes r)).
  { intros r k v. unfold resource_attributes. rewrite !lookup_insert, lookup_singleton. repeat case_decide; by intros [= <-]. }
  intros k v. rewrite nodeAttributes_lookup. destruct (node_Labels node !! k) as [raw|]; [|apply Hr].
  case_decide; [apply Hr|]. intros [= <-]. apply coerceAttr_typed.
Qed.

(** ** The filter *)

(** The requirements as the semantics reads them. *)
Definition satisfies (node : Node) (req : string) : Prop :=
  exists e v, expression (pred maxParseDepth) e req /\ evals MatchString (nodeAttributes node) e v /\ toBool v = Some true.

Lemma filter_satisfies job node :
  classad_filter job node = true -> requirementsExpr job <> EmptyString -> satisfies node (requirementsExpr job).
Proof.
  unfold classad_filter, Match, Eval. intros Hf Hne. rewrite decide_False in Hf by done.
  destruct (Parse (requirementsExpr job)) as [|e] eqn:Hp; [done|].
  destruct (evalExpr MatchString (nodeAttributes node) e) as [|v] eqn:He; [done|].
  destruct (toBool v) as [b|] eqn:Hb; [|done]. subst b. exists e, v.
  split; [by apply Parse_exact|]. split; [by eapply evalExprD_sound|done].
Qed.

Lemma satisfies_filter job node e v :
  expression (pred maxParseDepth) e (requirementsExpr job) -> evals MatchString (nodeAttributes node) e v ->
  toBool v = Some true -> height e <= maxEvalDepth + 1 -> classad_filter job node = true.
Proof.
  intros Hx He Hb Hh. unfold classad_filter. case_decide; [done|]. unfold Match, Eval. rewrite (proj2 (Parse_exact _ _) Hx).
  unfold evalExpr. rewrite (proj1 (evalExprD_complete MatchString (nodeAttributes node)) e v He) by lia. by rewrite Hb.
Qed.

(** ** The plugins in a pipeline *)

Lemma ClassAdMatch_passive : passive ClassAdMatch.
Proof. done. Qed.

Lemma runFilters_elem ps job node p : runFilters ps job node = true -> p ∈ ps -> Filter p job node = true.
Proof. intros Hf Hp. unfold runFilters in Hf. rewrite forallb_forall in Hf. apply Hf. by apply list_elem_of_In. Qed.

(** The pair of plugins stands for the one, wherever it is in the pipeline. *)
Lemma pair_filters ps1 ps2 job node :
  runFilters (ps1 ++ ClassAdFilterPlugin :: ClassAdScorePlugin :: ps2) job node = runFilters (ps1 ++ ClassAdMatch :: ps2) job node.
Proof. unfold runFilters. rewrite !forallb_app. done. Qed.

Lemma pair_scores ps1 ps2 job node :
  classad_filter job node = true ->
  runScorers (ps1 ++ ClassAdFilterPlugin :: ClassAdScorePlugin :: ps2) job node = runScorers (ps1 ++ ClassAdMatch :: ps2) job node.
Proof.
  intros Hf. unfold runScorers. rewrite !foldl_app. cbn. f_equal. unfold classad_score. rewrite Hf. cbn.
  apply i64_congr. rewrite Z.add_0_r. set (x := foldl _ 0 ps1).
  rewrite <- (u64_add_l (i64 x)), <- (u64_add_l x). by rewrite i64_residue.
Qed.
End Plugins.

Lemma pair_binds MatchString snapshot ps1 ps2 job node :
  bind_loop snapshot (ps1 ++ ClassAdFilterPlugin MatchString :: ClassAdScorePlugin MatchString :: ps2) job node =
  bind_loop snapshot (ps1 ++ ClassAdMatch MatchString :: ps2) job node.
Proof. revert node. induction ps1 as [|p ps1 IH]; intros node; [done|]. cbn. destruct (Bind p job node) as [n []]; [apply IH|done]. Qed.

Lemma pair_picks MatchString ps1 ps2 job l :
  pick (ps1 ++ ClassAdFilterPlugin MatchString :: ClassAdScorePlugin MatchString :: ps2) job l =
  pick (ps1 ++ ClassAdMatch MatchString :: ps2) job l.
Proof.
  unfold pick. f_equal. generalize (None : option Node, -1) as st. induction l as [|n l IH]; intros [b sc]; [done|]. cbn [foldl].
  rewrite pair_filters. destruct (runFilters (ps1 ++ ClassAdMatch MatchString :: ps2) job n) eqn:Hf; [|apply IH].
  rewrite pair_scores; [apply IH|]. apply (runFilters_elem _ _ _ (ClassAdMatch MatchString)) in Hf; [done|set_solver].
Qed.

(** The state with another pipeline. *)
Definition with_plugins (ps : list Plugin) (s : Scheduler) : Scheduler :=
  mkScheduler (s_queue s) ps (s_nodes s) (s_version s) (s_placements s) (s_status s).

(** ** The theorems *)

(** C34: A placed job's requirements hold.  The pipeline of the scheduler meets its contract
    and has the ClassAd plugin in it, and nodes are stored under their names.  When the
    scheduler places a job whose requirements are not empty, they are an expression of the
    grammar and evaluate to a true value on the attributes of the node the job is recorded
    on, as they were when it was chosen; and the plugin turns away no node on which they
    do, if the expression has at most [maxEvalDepth + 1] levels
    ([chain_parses_but_fails] is a deeper one). *)
Theorem classad_placement_sound MatchString job s s' id `{!AccountedPlugins (s_plugins s)} :
  nodes_keyed (s_nodes s) -> ClassAdMatch MatchString ∈ s_plugins s -> requirementsExpr job <> EmptyString ->
  Scheduler_Schedule job s = (s', inr id) ->
  (exists n, s_nodes s !! id = Some n /\ satisfies MatchString n (requirementsExpr job) /\
     s_placements s' !! job_ID job = Some (placement_of job id)) /\
  (forall n e v, expression (pred maxParseDepth) e (requirementsExpr job) -> evals MatchString (nodeAttributes n) e v ->
     toBool v = Some true -> height e <= maxEvalDepth + 1 -> Filter (ClassAdMatch MatchString) job n = true).
Proof.
  intros Hk Hin Hne Hs. split; [|intros; by eapply satisfies_filter].
  unfold Scheduler_Schedule in Hs. destruct (pick (s_plugins s) job _) as [n|] eqn:Hp; [|done].
  apply pick_sorted in Hp as ((k & Hid) & He & _). pose proof (Hk _ _ Hid) as <-.
  rewrite ap_bind in Hs by done. injection Hs as <- <-. exists n. split; [done|].
  split; [|cbn; by rewrite lookup_insert_eq]. apply filter_satisfies; [|done]. by apply (runFilters_elem _ _ _ (ClassAdMatch MatchString)) in He.
Qed.

(** A cluster of a trusted node with one GPU and a larger node without. *)
Definition gpu_job : Job := SetRequirements (demo_job "j" 256 0 1) " GPU >= 1 && trusted ".
Definition demo_pipeline : list Plugin := [NodeResourcesFit; ClassAdMatch (fun _ _ => None)].
Definition demo_cluster : Scheduler :=
  sched_run demo_pipeline
    [SRegister (SetNodeAttribute (mkNode "n1" (mkResources (f64_of_int 8) 4096 1) ∅) "trusted" "TRUE");
     SRegister (mkNode "n2" (mkResources (f64_of_int 8) 8192 0) ∅)].

#[global] Instance demo_pipeline_accounted : AccountedPlugins demo_pipeline.
Proof. apply fit_accounted. by repeat constructor. Qed.

Lemma demo_cluster_keyed : nodes_keyed (s_nodes demo_cluster).
Proof. intros id n. vm_compute (s_nodes demo_cluster). intros Hn. apply elem_of_map_to_list in Hn. vm_compute in Hn. set_solver. Qed.

Lemma demo_placed : (Scheduler_Schedule gpu_job demo_cluster).2 = inr "n1".
Proof. vm_compute. reflexivity. Qed.
Lemma demo_requirements : requirementsExpr gpu_job = "GPU >= 1 && trusted".
Proof. vm_compute. reflexivity. Qed.

Lemma classad_placement_sound_witness :
  exists n, s_nodes demo_cluster !! "n1" = Some n /\ satisfies (fun _ _ => None) n "GPU >= 1 && trusted".
Proof.
  pose proof demo_placed as Hp. destruct (Scheduler_Schedule gpu_job demo_cluster) as [s' r] eqn:Hs. cbn [snd] in Hp. subst r.
  assert (Hne : requirementsExpr gpu_job <> EmptyString) by (rewrite demo_requirements; done).
  destruct (classad_placement_sound (fun _ _ => None) gpu_job demo_cluster s' "n1" demo_cluster_keyed ltac:(right; left) Hne Hs)
    as [(n & Hn & Hsat & _) _]. exists n. split; [exact Hn|]. rewrite demo_requirements in Hsat. exact Hsat.
Defined.

(** The two named plugins are the one.  Wherever the ClassAd plugin stands in a pipeline,
    putting the filter plugin and the score plugin in its place makes every call of
    [Schedule] choose the same node, with the same effect on the nodes, the placements, the
    jobs and the version. *)
Theorem classad_pair_equivalent MatchString ps1 ps2 job s :
  let one := Scheduler_Schedule job (with_plugins (ps1 ++ ClassAdMatch MatchString :: ps2) s) in
  let two := Scheduler_Schedule job (with_plugins (ps1 ++ ClassAdFilterPlugin MatchString :: ClassAdScorePlugin MatchString :: ps2) s) in
  two.2 = one.2 /\ with_plugins [] two.1 = with_plugins [] one.1.
Proof.
  unfold Scheduler_Schedule, runBindLocked. cbn [with_plugins s_plugins s_nodes]. rewrite pair_picks.
  destruct (pick _ job _) as [n|]; [|done]. rewrite pair_binds. by destruct (bind_loop _ _ job n) as [n' []].
Qed.

(** A rank below zero is not a low preference: the selection starts above it, so a job whose
    rank is negative on every node is told that no node is available. *)
Example negative_rank_unschedulable :
  let job := SetRank (demo_job "j" 0 0 1) "0 - Memory" in
  runFilters demo_pipeline job (mkNode "n2" (mkResources (f64_of_int 8) 8192 0) ∅) = true /\
  (Scheduler_Schedule job demo_cluster).2 = inl ErrNoNodeAvailable.
Proof. split; vm_compute; reflexivity. Qed.
