(* ===== verification/Idempotent.v ===== *)
(** * The idempotent broker ([pkg/idempotent])

    Producers number their messages and send them again until they are acknowledged; the
    broker commits a message only as the successor of the last one it committed from the
    same producer.

    The theorems: what a producer has in the log is always a run of consecutive numbers from
    the base, without a gap or a repetition, whatever arrives; and when the network carries
    a producer's messages in order at least once, among any retries, late copies and
    messages of others, the log holds each of them exactly once and in order. *)

From S2P Require Import Prelude.
Local Open Scope Z_scope.

(** ** The program *)

Inductive Result := Accepted | AlreadyApplied.
#[global] Instance Result_eq_dec : EqDecision Result.
Proof. solve_decision. Defined.

Record Message := { ProducerID : string; Seq : Z; Payload : string }.
#[global] Instance Message_eq_dec : EqDecision Message.
Proof. solve_decision. Defined.

Record Broker := { base : Z; lastSeq : gmap string Z; seen : gmap string Z; log : list Message }.

Definition Broker_New (base : Z) : Broker := {| base := base; lastSeq := ∅; seen := ∅; log := [] |}.

(** The next number as the error reports it; it wraps after the largest. *)
Definition expected (b : Broker) (pid : string) : Z :=
  match lastSeq b !! pid with Some last => i64 (last + 1) | None => base b end.

Definition LastSeq (b : Broker) (pid : string) : Z * bool :=
  match lastSeq b !! pid with Some s => (s, true) | None => (0, false) end.

(** [ErrOutOfSequence], with the number that arrived and the one expected. *)
Inductive append_error := ErrOutOfSequence (pid : string) (seq expected : Z).

Definition Append (b : Broker) (msg : Message) : (Result * option append_error) * Broker :=
  let '(accept, duplicate) :=
    match lastSeq b !! ProducerID msg with
    | Some last =>
        if decide (Seq msg <= last) then (false, true)
        else if decide (i64 (Seq msg - 1) = last) then (true, false)
        else (false, false)
    | None =>
        if decide (Seq msg < base b) then (false, true)
        else if decide (Seq msg = base b) then (true, false)
        else (false, false)
    end in
  if accept : bool then
    ((Accepted, None),
     {| base := base b; lastSeq := <[ProducerID msg := Seq msg]> (lastSeq b);
        seen := <[ProducerID msg := i64 (zget (seen b) (ProducerID msg) + 1)]> (seen b); log := log b ++ [msg] |})
  else if duplicate : bool then ((AlreadyApplied, None), b)
  else ((AlreadyApplied, Some (ErrOutOfSequence (ProducerID msg) (Seq msg) (expected b (ProducerID msg)))), b).

Definition Log (b : Broker) : list Message := log b.
Definition LogFor (b : Broker) (pid : string) : list Message := filter (fun m => ProducerID m = pid) (log b).

(** ** Histories *)

(** The broker after any sequence of arrivals. *)
Definition appends (b : Broker) (msgs : list Message) : Broker := foldl (fun b m => (Append b m).2) b msgs.

Definition well_formed (b : Broker) (pid : string) : Prop :=
  let n := length (LogFor b pid) in
  Seq <$> LogFor b pid = seqZ (base b) (Z.of_nat n) /\
  lastSeq b !! pid = (if decide (n = 0%nat) then None else Some (base b + Z.of_nat n - 1)).

Lemma LogFor_append b m pid :
  LogFor (Append b m).2 pid = LogFor b pid \/ (ProducerID m = pid /\ LogFor (Append b m).2 pid = LogFor b pid ++ [m]).
Proof.
  unfold Append. repeat (case_match || case_decide); simplify_eq; cbn; try (by left).
  all: unfold LogFor; cbn; rewrite filter_app, filter_cons; case_decide; cbn; [by right|left; by rewrite app_nil_r].
Qed.

(** The next message of a producer, and only it, is committed. *)
Lemma Append_next b pid m :
  well_formed b pid -> is_i64 (base b) -> is_i64 (Seq m) -> ProducerID m = pid ->
  let n := Z.of_nat (length (LogFor b pid)) in
  Append b m =
    if decide (Seq m = base b + n) then
      ((Accepted, None), {| base := base b; lastSeq := <[pid := Seq m]> (lastSeq b);
                            seen := <[pid := i64 (zget (seen b) pid + 1)]> (seen b); log := log b ++ [m] |})
    else if decide (Seq m < base b + n) then ((AlreadyApplied, None), b)
    else ((AlreadyApplied, Some (ErrOutOfSequence pid (Seq m) (expected b pid))), b).
Proof.
  intros [_ Hl] Hb Hs <-. cbn zeta. unfold Append. rewrite Hl.
  destruct (decide (length (LogFor b (ProducerID m)) = 0%nat)) as [H0|H0].
  - rewrite H0, Z.add_0_r. repeat case_decide; try lia; done.
  - destruct (decide (Seq m <= base b + Z.of_nat (length (LogFor b (ProducerID m))) - 1)).
    + repeat case_decide; try lia; done.
    + rewrite i64_id by int_lia. repeat case_decide; try lia; done.
Qed.

Lemma Append_base b m : base (Append b m).2 = base b.
Proof. unfold Append. repeat (case_match || case_decide); by simplify_eq. Qed.

Lemma Append_other b m pid :
  ProducerID m <> pid -> LogFor (Append b m).2 pid = LogFor b pid /\ lastSeq (Append b m).2 !! pid = lastSeq b !! pid.
Proof.
  intros Hne. split; [by destruct (LogFor_append b m pid) as [|[? _]]|].
  unfold Append. repeat (case_match || case_decide); simplify_eq; cbn; rewrite ?lookup_insert_ne by done; done.
Qed.

Lemma well_formed_append b m pid :
  well_formed b pid -> is_i64 (base b) -> is_i64 (Seq m) -> well_formed (Append b m).2 pid.
Proof.
  intros Hw Hb Hs. destruct (decide (ProducerID m = pid)) as [Hp|Hp].
  - rewrite (Append_next b pid m Hw Hb Hs Hp). pose proof (proj1 Hw) as Hseq.
    repeat case_decide; cbn; [|done..]. unfold well_formed, LogFor in *. cbn. rewrite filter_app, filter_cons, decide_True by done.
    cbn. rewrite length_app, fmap_app, Hseq. cbn. rewrite lookup_insert_eq, decide_False by lia. split; [|f_equal; lia].
    rewrite Nat2Z.inj_add, seqZ_app by lia. f_equal. cbn. rewrite seqZ_cons by lia. cbn. f_equal. lia.
  - destruct (Append_other b m pid Hp) as [Hlog Hlast]. unfold well_formed. by rewrite Hlog, Hlast, Append_base.
Qed.

Lemma well_formed_new base pid : well_formed (Broker_New base) pid.
Proof. split; [done|]. by rewrite decide_True. Qed.

Lemma appends_inv msgs : forall b pid,
  well_formed b pid -> is_i64 (base b) -> Forall (fun m => is_i64 (Seq m)) msgs ->
  well_formed (appends b msgs) pid /\ base (appends b msgs) = base b.
Proof.
  induction msgs as [|m msgs IH]; intros b pid Hw Hb Hall; [done|]. apply Forall_cons in Hall as [Hm Hall]. cbn.
  destruct (IH (Append b m).2 pid) as [Hw' Hb']; [by apply well_formed_append|by rewrite Append_base|done|].
  split; [done|]. by rewrite Append_base in Hb'.
Qed.

(** A producer's stream: consecutive numbers from the base. *)
Definition stream (base : Z) (pid : string) (ms : list Message) : Prop :=
  forall i m, ms !! i = Some m -> ProducerID m = pid /\ Seq m = base + Z.of_nat i.

(** As long as the rest of the stream is still to come in order, none of it is missing at
    the end. *)
Lemma stream_delivered pid ms msgs : forall b n k,
  stream (base b) pid ms -> well_formed b pid -> is_i64 (base b) -> Forall (fun m => is_i64 (Seq m)) msgs ->
  Forall (fun m => ProducerID m = pid -> m ∈ ms) msgs ->
  LogFor b pid = take n ms -> (k <= n <= length ms)%nat -> sublist (drop k ms) msgs ->
  LogFor (appends b msgs) pid = ms.
Proof.
  induction msgs as [|m msgs IH]; intros b n k Hst Hw Hb Hi Hin Hlog Hk Hsub.
  - apply sublist_nil_r in Hsub. assert (length (drop k ms) = 0%nat) as Hd by (by rewrite Hsub). rewrite length_drop in Hd.
    cbn. rewrite Hlog. apply take_ge. lia.
  - apply Forall_cons in Hi as [Hm Hi]. apply Forall_cons in Hin as [Hmin Hin]. cbn.
    (* how far the log reaches after this message *)
    assert (exists n', LogFor (Append b m).2 pid = take n' ms /\ (n <= n' <= length ms)%nat /\
              (ms !! n = Some m -> n' = S n)) as (n' & Hlog' & Hn' & Hnext).
    { destruct (decide (ProducerID m = pid)) as [Hp|Hp].
      - destruct (list_elem_of_lookup_1 _ _ (Hmin Hp)) as [i Hmi]. destruct (Hst i m Hmi) as [_ Hseq].
        pose proof (lookup_lt_Some _ _ _ Hmi) as Hlt. rewrite (Append_next b pid m Hw Hb Hm Hp).
        assert (length (LogFor b pid) = n) as Hlen by (rewrite Hlog, length_take; lia). rewrite Hlen.
        case_decide as Hacc; [|exists n; split; [case_decide; done|]; split; [lia|]; intros Hn; destruct (Hst n m Hn); lia].
        assert (i = n) as -> by lia. exists (S n). split; [|split; [lia|done]].
        unfold LogFor. cbn. rewrite filter_app, filter_cons, decide_True by done. cbn. fold (LogFor b pid).
        by rewrite Hlog, (take_S_r _ _ _ Hmi).
      - exists n. rewrite (proj1 (Append_other b m pid Hp)). split; [done|]. split; [lia|].
        intros Hn. by destruct (Hst n m Hn). }
    assert (forall k', (k' <= n')%nat -> sublist (drop k' ms) msgs -> LogFor (appends (Append b m).2 msgs) pid = ms) as Hgo.
    { intros k' Hk' Hs. eapply (IH _ n' k'); rewrite ?Append_base; try done; [by apply well_formed_append|lia]. }
    destruct (drop k ms) as [|x rest] eqn:Hd.
    + apply (Hgo k); [lia|]. rewrite Hd. apply sublist_nil_l.
    + apply sublist_cons_l in Hsub as (l1 & l2 & Heq & Hs). destruct l1 as [|y l1]; cbn in Heq; injection Heq as -> ->.
      * assert (ms !! k = Some x) as Hkx by (rewrite <- (Nat.add_0_r k), <- lookup_drop, Hd; done).
        apply (Hgo (S k)); [destruct (decide (k = n)) as [->|]; [by rewrite Hnext|lia]|].
        by rewrite <- Nat.add_1_r, <- drop_drop, Hd.
      * apply (Hgo k); [lia|]. rewrite Hd. apply sublist_inserts_l. by apply sublist_skip.
Qed.

(** ** The theorems *)

(** Exactly once.  Whatever arrives, what the broker has committed from a producer is
    numbered consecutively from the base, without gap or repetition.  If moreover everything
    that arrives from the producer belongs to its stream, and the stream arrives in order at
    least once among retries, late copies and the messages of others, then the broker has
    committed exactly the stream, in order. *)
Theorem idempotent_exactly_once base pid ms msgs :
  is_i64 base -> Forall (fun m => is_i64 (Seq m)) msgs ->
  let b := appends (Broker_New base) msgs in
  (exists n, Seq <$> LogFor b pid = seqZ base n) /\
  (stream base pid ms -> Forall (fun m => ProducerID m = pid -> m ∈ ms) msgs -> sublist ms msgs -> LogFor b pid = ms).
Proof.
  intros Hb Hi. cbn zeta. split.
  - destruct (appends_inv msgs (Broker_New base) pid (well_formed_new base pid) Hb Hi) as [[Hs _] Hbase].
    rewrite Hbase in Hs. by eexists.
  - intros Hst Hin Hsub. apply (stream_delivered pid ms msgs (Broker_New base) 0 0); try done; first [apply well_formed_new|lia].
Qed.

(** A retry, a message of another producer, one that skips ahead and a late copy. *)
Definition demo_msg (i : Z) : Message := {| ProducerID := "p"; Seq := i; Payload := "x" |}.
Definition demo_trace : list Message :=
  [demo_msg 5; demo_msg 5; {| ProducerID := "q"; Seq := 9; Payload := "y" |}; demo_msg 7; demo_msg 6; demo_msg 5; demo_msg 7].
Definition demo_stream : list Message := [demo_msg 5; demo_msg 6; demo_msg 7].

Lemma demo_stream_ok : stream 5 "p" demo_stream.
Proof. intros [|[|[|i]]] m Hm; cbn in Hm; simplify_eq; done. Qed.

Lemma idempotent_exactly_once_witness : LogFor (appends (Broker_New 5) demo_trace) "p" = demo_stream.
Proof.
  refine (proj2 (idempotent_exactly_once 5 "p" demo_stream demo_trace _ _) demo_stream_ok _ _); [done|by_eval|by_eval|].
  unfold demo_stream, demo_trace. repeat constructor.
Defined.
