(* ===== verification/PriorityQueue.v ===== *)
(** * The multifactor priority queue ([pkg/priorityqueue])

    Jobs are dequeued by a composite of service class, age, fair share and size, computed in
    64-bit arithmetic against the time of the call, with ties broken by submission time and
    identifier.

    The theorems: popping the queue empty gives the jobs in the order that [Order] announces,
    which is the stable sort of the queue by a strict weak order, overflow or not; and, while
    the priorities fit 64 bits, that order does not depend on the time at all, for aging
    raises every queued job alike. *)

From S2P Require Import Prelude.
Local Open Scope Z_scope.

(** ** The program *)

Inductive QoS := QoSBestEffort | QoSBurstable | QoSGuaranteed.

Definition qosBase (q : QoS) : Z := match q with QoSGuaranteed => 300 | QoSBurstable => 150 | QoSBestEffort => 0 end.

Record Job := { ID : string; SubmitTick : Z; FairShare : Z; Size : Z; job_QoS : QoS }.
Record Weights := { w_Age : Z; w_FairShare : Z; w_Size : Z }.

Definition DefaultWeights : Weights := {| w_Age := 2; w_FairShare := 5; w_Size := 1 |}.

Definition Priority (w : Weights) (j : Job) (now : Z) : Z :=
  let age := i64 (now - SubmitTick j) in
  i64 (i64 (i64 (qosBase (job_QoS j) + i64 (w_Age w * age)) + i64 (w_FairShare w * FairShare j)) - i64 (w_Size w * Size j)).

Record PQ := { weights : Weights; jobs : list Job }.

Definition PQ_New (w : Weights) : PQ := {| weights := w; jobs := [] |}.
Definition PQ_Len (q : PQ) : nat := length (jobs q).
Definition PQ_Push (q : PQ) (j : Job) : PQ := {| weights := weights q; jobs := jobs q ++ [j] |}.

Definition less (w : Weights) (now : Z) (a b : Job) : bool :=
  let pa := Priority w a now in
  let pb := Priority w b now in
  if decide (pa <> pb) then bool_decide (pa > pb)
  else if decide (SubmitTick a <> SubmitTick b) then bool_decide (SubmitTick a < SubmitTick b)
  else bool_decide (slt (ID a) (ID b)).

(** The scan of [Pop]: the jobs before the best one so far, the best, and the jobs after it
    that have been looked at. *)
Fixpoint scan (lt : Job -> Job -> bool) (before : list Job) (best : Job) (after rest : list Job) : list Job * Job * list Job :=
  match rest with
  | [] => (before, best, after)
  | j :: rest => if lt j best then scan lt (before ++ best :: after) j [] rest else scan lt before best (after ++ [j]) rest
  end.

Definition PQ_Pop (q : PQ) (now : Z) : option Job * PQ :=
  match jobs q with
  | [] => (None, q)
  | j :: rest =>
      let '(before, best, after) := scan (less (weights q) now) [] j [] rest in
      (Some best, {| weights := weights q; jobs := before ++ after |})
  end.

Definition PQ_Order (q : PQ) (now : Z) : list Job := sort_SliceStable (less (weights q) now) (jobs q).

(** ** Stable selection is stable sorting *)

Section Selection.
  Context (lt : Job -> Job -> bool).
  Context (lt_asym : forall a b, lt a b = true -> lt b a = false) (lt_cotrans : forall a b c, lt a b = true -> lt a c = true \/ lt c b = true).

(** [best] is the first of the best of [before ++ best :: after]. *)
Definition first_best_of (before : list Job) (best : Job) (after : list Job) : Prop :=
  Forall (fun x => lt best x = true) before /\ Forall (fun x => lt x best = false) after.

Lemma scan_spec rest : forall before best after before' best' after',
  first_best_of before best after -> scan lt before best after rest = (before', best', after') ->
  first_best_of before' best' after' /\ before' ++ best' :: after' = before ++ best :: after ++ rest.
Proof.
  induction rest as [|j rest IH]; intros before best after before' best' after' Hf; cbn.
  - intros [= <- <- <-]. by rewrite app_nil_r.
  - destruct Hf as [Hb Ha]. destruct (lt j best) eqn:Hj; intros Hs.
    + apply IH in Hs as [Hf Heq]; [|].
      * split; [done|]. rewrite Heq. cbn. by rewrite <- !app_assoc.
      * split; [|constructor]. apply Forall_app. split; [|constructor; [done|]].
        -- eapply Forall_impl; [exact Hb|]. cbn. intros x Hx.
           destruct (lt_cotrans best x j Hx) as [H|]; [|done]. apply lt_asym in Hj. congruence.
        -- eapply Forall_impl; [exact Ha|]. cbn. intros x Hx. destruct (lt_cotrans j best x Hj) as [|]; [done|congruence].
    + apply IH in Hs as [Hf Heq]; [|split; [done|]; apply Forall_app; split; [done|by constructor]].
      split; [done|]. rewrite Heq. by rewrite <- !app_assoc.
Qed.

(** Taking the first of the best out of a list takes the head off its sort. *)
Lemma sort_first_best before best after :
  first_best_of before best after ->
  sort_SliceStable lt (before ++ best :: after) = best :: sort_SliceStable lt (before ++ after).
Proof.
  intros [Hb Ha]. induction Hb as [|x before Hx _ IH]; cbn.
  - apply sort_stable_front. fold (sort_SliceStable lt after). rewrite Forall_forall in *. intros y. rewrite sort_stable_perm. apply Ha.
  - fold (sort_SliceStable lt (before ++ best :: after)). rewrite IH. cbn. by rewrite Hx.
Qed.
End Selection.

(** ** The order of jobs *)

Lemma less_asym w now a b : less w now a b = true -> less w now b a = false.
Proof.
  unfold less. pose proof (slt_asym (ID a) (ID b)). repeat case_decide; rewrite ?bool_decide_eq_true, ?bool_decide_eq_false; try lia; tauto.
Qed.

Lemma less_cotrans w now a b c : less w now a b = true -> less w now a c = true \/ less w now c b = true.
Proof.
  unfold less. pose proof (slt_cotrans (ID a) (ID b) (ID c)). repeat case_decide; rewrite ?bool_decide_eq_true; try lia; tauto.
Qed.

(** ** Exact priorities *)

Definition exact_priority (w : Weights) (j : Job) (now : Z) : Z :=
  qosBase (job_QoS j) + w_Age w * (now - SubmitTick j) + w_FairShare w * FairShare j - w_Size w * Size j.

(** The intermediate wrap-arounds amount to one. *)
Lemma Priority_wraps w j now : Priority w j now = i64 (exact_priority w j now).
Proof.
  unfold Priority, exact_priority. cbn zeta. by rewrite i64_mul_r, !i64_add_r, i64_add_l, i64_sub_r, i64_sub_l.
Qed.

Definition fits (w : Weights) (now : Z) (j : Job) : Prop := is_i64 (exact_priority w j now).

Lemma less_now w a b now now' :
  fits w now a -> fits w now b -> fits w now' a -> fits w now' b -> less w now a b = less w now' a b.
Proof.
  unfold fits. intros H1 H2 H3 H4. unfold less. rewrite !Priority_wraps, !i64_id by done.
  assert (exact_priority w a now - exact_priority w b now = exact_priority w a now' - exact_priority w b now')
    by (unfold exact_priority; lia).
  repeat case_decide; try lia; try done.
Qed.

(** ** The theorems *)

(** Popping [n] times at one time. *)
Fixpoint drain (n : nat) (q : PQ) (now : Z) : list Job * PQ :=
  match n with
  | O => ([], q)
  | S n => match PQ_Pop q now with
           | (Some j, q') => let '(js, q'') := drain n q' now in (j :: js, q'')
           | (None, q') => ([], q')
           end
  end.

Lemma Pop_spec q now j q' :
  PQ_Pop q now = (Some j, q') ->
  PQ_Order q now = j :: PQ_Order q' now /\ weights q' = weights q /\ length (jobs q) = S (length (jobs q')).
Proof.
  unfold PQ_Pop, PQ_Order. destruct (jobs q) as [|x rest] eqn:Hq; [done|].
  destruct (scan _ [] x [] rest) as [[before best] after] eqn:Hs. intros [= <- <-]. cbn [jobs weights].
  apply (scan_spec _ (less_asym _ _) (less_cotrans _ _)) in Hs as [Hf Heq]; [|split; constructor]. cbn in Heq. rewrite <- Heq.
  split; [by apply sort_first_best|]. split; [done|]. rewrite !length_app. cbn. lia.
Qed.

Lemma Pop_none q now q' : PQ_Pop q now = (None, q') -> jobs q = [].
Proof. unfold PQ_Pop. destruct (jobs q); [done|]. by destruct (scan _ _ _ _ _) as [[? ?] ?]. Qed.

(** Popping the queue empty at a time gives the jobs in the order [Order] announces for
    that time, which is a rearrangement of the queue in which no job is due before one that
    precedes it; this holds at all weights and times, overflow included. *)
Theorem priorityqueue_drains_in_order q now :
  drain (length (jobs q)) q now = (PQ_Order q now, {| weights := weights q; jobs := [] |}) /\
  PQ_Order q now ≡ₚ jobs q /\ StronglySorted (fun a b => less (weights q) now b a = false) (PQ_Order q now).
Proof.
  split; [|split; [apply sort_stable_perm|apply sort_stable_sorted; [apply less_asym|apply less_cotrans]]].
  remember (length (jobs q)) as n eqn:Hn. revert q Hn. induction n as [|n IH]; intros q Hn.
  - destruct q as [w [|]]; done.
  - cbn. destruct (PQ_Pop q now) as [[j|] q'] eqn:Hp.
    + apply Pop_spec in Hp as (-> & <- & Hlen). rewrite (IH q') by lia. done.
    + apply Pop_none in Hp. by rewrite Hp in Hn.
Qed.

(** The order does not age.  While the priorities of the queued jobs fit 64 bits at two
    times, [Order] is the same at both, and [Pop] takes the same job: aging raises all the
    jobs of the queue alike, so none overtakes another by waiting. *)
Theorem priorityqueue_order_ignores_now q now now' :
  Forall (fits (weights q) now) (jobs q) -> Forall (fits (weights q) now') (jobs q) ->
  PQ_Order q now = PQ_Order q now' /\ (PQ_Pop q now).1 = (PQ_Pop q now').1.
Proof.
  intros Hf Hf'. rewrite Forall_forall in Hf, Hf'.
  assert (Ho : PQ_Order q now = PQ_Order q now') by (apply sort_stable_ext; intros; apply less_now; auto).
  split; [done|]. destruct (PQ_Pop q now) as [[j|] q1] eqn:H1, (PQ_Pop q now') as [[j'|] q2] eqn:H2; cbn.
  - apply Pop_spec in H1 as (H1 & _), H2 as (H2 & _). congruence.
  - apply Pop_none in H2. unfold PQ_Pop in H1. by rewrite H2 in H1.
  - apply Pop_none in H1. unfold PQ_Pop in H2. by rewrite H1 in H2.
  - done.
Qed.

Definition demo_queue : PQ :=
  {| weights := DefaultWeights;
     jobs := [{| ID := "old"; SubmitTick := 0; FairShare := 1; Size := 4; job_QoS := QoSBestEffort |};
              {| ID := "new"; SubmitTick := 100; FairShare := 1; Size := 4; job_QoS := QoSGuaranteed |}] |}.

Lemma priorityqueue_order_ignores_now_witness : PQ_Order demo_queue 100 = PQ_Order demo_queue 1000000.
Proof. exact (proj1 (priorityqueue_order_ignores_now demo_queue 100 1000000 ltac:(repeat constructor; by_eval) ltac:(repeat constructor; by_eval))). Defined.
