(* ===== verification/Rebalance.v ===== *)
(** * Cooperative-sticky rebalancing (pkg/rebalance/rebalance.go)

    [Reassign] computes a new assignment of partitions to the members of a
    consumer group: it keeps what surviving members own, gives the free
    partitions to the least loaded members and then moves partitions until the
    loads are within one of each other.  An assignment is a finite map from
    member to the list of its partitions; the loop of [rebalanceDown] runs on
    fuel, [None] when it runs out, and [Reassign] gives it twice the number of
    partitions plus one, which is shown to be enough.

    The main theorem says that the result is exact and balanced and that no
    exact and balanced assignment moves fewer partitions. *)
From stdpp Require Import base gmap sets list strings sorting.
From Stdlib Require Import ZArith Lia.
From S2P Require Import Prelude.

Notation Assignment := (gmap string (list string)).

(** Reading a Go map of slices: an absent key reads as the empty slice. *)
Definition parts (a : Assignment) (m : string) : list string := default [] (a !! m).

Definition load (a : Assignment) (m : string) : Z := Z.of_nat (length (parts a m)).

(** The de-duplication loops: the set seen and the list in first-seen order. *)
Definition dedup (l : list string) : gset string * list string :=
  foldl (fun '(seen, out) m => if decide (m ∈ seen) then (seen, out) else ({[m]} ∪ seen, out ++ [m])) (∅, []) l.

(** One partition of a member's previous list (Step 1). *)
Definition keep_part (validPart : gset string) (m : string) (st : gmap string string * Assignment) (p : string) : gmap string string * Assignment :=
  let '(owned, next) := st in
  if decide (p ∈ validPart)
  then if decide (is_Some (owned !! p)) then st else (<[p := m]> owned, <[m := parts next m ++ [p]]> next)
  else st.

Definition keep_sticky (prev : Assignment) (validPart : gset string) (sortedMembers : list string) (next : Assignment) : gmap string string * Assignment :=
  foldl (fun st m => foldl (keep_part validPart m) st (sort_strings (parts prev m))) (∅, next) sortedMembers.

(** The selection loop shared by [leastLoadedUnderCap] and
    [leastLoadedReceiver]: [-1] is "none yet". *)
Definition scan_under (a : Assignment) (cap : Z) (st : string * Z) (m : string) : string * Z :=
  let '(best, bestLoad) := st in
  let l := load a m in
  if decide (cap <= l)%Z then st
  else if decide (bestLoad = -1 \/ l < bestLoad)%Z then (m, l) else st.

Definition leastLoadedReceiver (a : Assignment) (members : list string) (cap : Z) : string :=
  fst (foldl (scan_under a cap) (EmptyString, -1)%Z members).

Definition leastLoadedUnderCap (a : Assignment) (members : list string) (cap : Z) : string :=
  let '(best, bestLoad) := foldl (scan_under a cap) (EmptyString, -1)%Z members in
  if decide (best <> EmptyString) then best
  else fst (foldl (fun '(best, bestLoad) m =>
              let l := load a m in
              if decide (bestLoad = -1 \/ l < bestLoad)%Z then (m, l) else (best, bestLoad)) (best, bestLoad) members).

(** [moveOne] sorts the donor's slice in place and moves its last element. *)
Definition moveOne (a : Assignment) (donor receiver : string) : Assignment :=
  match last (sort_strings (parts a donor)) with
  | None => a
  | Some moved =>
      let a' := <[donor := removelast (sort_strings (parts a donor))]> a in
      <[receiver := parts a' receiver ++ [moved]]> a'
  end.

(** The first member of the list that satisfies a test, or the empty string:
    the loops of [rebalanceDown] that break at the first hit. *)
Definition first_member (f : string -> bool) (members : list string) : string :=
  default EmptyString (List.find f members).

Fixpoint rebalanceDown (fuel : nat) (a : Assignment) (members : list string) (floor ceil : Z) : option Assignment :=
  match fuel with
  | 0 => None
  | S fuel =>
      let donor := first_member (fun m => bool_decide (ceil < load a m)%Z) members in
      if decide (donor = EmptyString) then
        let receiver := first_member (fun m => bool_decide (load a m < floor)%Z) members in
        if decide (receiver = EmptyString) then Some a
        else
          let donor := first_member (fun m => bool_decide (floor < load a m)%Z) members in
          if decide (donor = EmptyString) then Some a
          else rebalanceDown fuel (moveOne a donor receiver) members floor ceil
      else
        let receiver := leastLoadedReceiver a members ceil in
        if decide (receiver = EmptyString \/ receiver = donor) then Some a
        else rebalanceDown fuel (moveOne a donor receiver) members floor ceil
  end.

Definition assign_free (sortedMembers : list string) (ceil : Z) (next : Assignment) (free : list string) : Assignment :=
  foldl (fun next part =>
    let m := leastLoadedUnderCap next sortedMembers ceil in
    <[m := parts next m ++ [part]]> next) next free.

Definition Reassign (prev : Assignment) (members partitions : list string) : option Assignment :=
  let sortedMembers := sort_strings (snd (dedup members)) in
  let next := foldl (fun next m => <[m := []]> next) ∅ sortedMembers in
  if decide (length sortedMembers = 0) then Some next
  else
    let validPart := fst (dedup partitions) in
    let sortedParts := sort_strings (snd (dedup partitions)) in
    let '(owned, next) := keep_sticky prev validPart sortedMembers next in
    let free := filter (fun p => ¬ is_Some (owned !! p)) sortedParts in
    let n := Z.of_nat (length sortedMembers) in
    let p := Z.of_nat (length sortedParts) in
    let floor := (p / n)%Z in
    let rem := (p mod n)%Z in
    let ceil := (if decide (0 < rem) then floor + 1 else floor)%Z in
    let next := assign_free sortedMembers ceil next free in
    next ← rebalanceDown (S (2 * length sortedParts)) next sortedMembers floor ceil;
    Some (foldl (fun next m => <[m := sort_strings (parts next m)]> next) next sortedMembers).

(** The owner of each partition; Go ranges over the consumers. *)
Definition owners (a : Assignment) : gmap string string :=
  range_fold (fun o c ps => foldl (fun o p => <[p := c]> o) o ps) ∅ a.

Definition Moved (prev next : Assignment) : list string :=
  let prevOwner := owners prev in
  let nextOwner := owners next in
  let movedSet := range_fold (fun (s : gset string) p no =>
    if decide (default EmptyString (prevOwner !! p) <> no) then {[p]} ∪ s else s) ∅ nextOwner in
  let movedSet := range_fold (fun (s : gset string) p (_ : string) =>
    if decide (nextOwner !! p = None) then {[p]} ∪ s else s) movedSet prevOwner in
  sort_strings (elements movedSet).

Definition Loads (a : Assignment) : gmap string Z := (fun ps : list string => Z.of_nat (length ps)) <$> a.

(** ** Lists of partitions *)

Lemma dedup_spec l : fst (dedup l) = list_to_set l /\ NoDup (snd (dedup l)) /\ forall x, x ∈ snd (dedup l) <-> x ∈ l.
Proof.
  induction l as [|x l IH] using rev_ind; [split_and!; [done|constructor|done]|].
  unfold dedup in *. rewrite foldl_snoc. destruct (foldl _ _ l) as [s out] eqn:E. simpl in *.
  destruct IH as (-> & Hnd & Hin). rewrite list_to_set_app_L, list_to_set_cons.
  case_decide as Hx; simpl; apply elem_of_list_to_set in Hx || rewrite elem_of_list_to_set in Hx.
  - split_and!; [set_solver|done|]. intros y. rewrite Hin, elem_of_app, list_elem_of_singleton. naive_solver.
  - split_and!; [set_solver| |intros y; by rewrite !elem_of_app, Hin].
    apply NoDup_app. split_and!; [done| |apply NoDup_singleton]. intros y Hy ->%list_elem_of_singleton. by apply Hx, Hin.
Qed.

Section sums.
Implicit Types (f g : string -> Z) (l : list string).
Open Scope Z_scope.

Definition zsum f l : Z := foldr (fun m s => f m + s) 0 l.

Lemma zsum_ext f g l : (forall m, m ∈ l -> f m = g m) -> zsum f l = zsum g l.
Proof. induction l as [|x l IH]; intros H; [done|]. simpl. rewrite (H x), IH; set_solver. Qed.

Lemma zsum_le f g l : (forall m, m ∈ l -> f m <= g m) -> zsum f l <= zsum g l.
Proof.
  induction l as [|x l IH]; intros H; [done|]. simpl.
  assert (f x <= g x) by set_solver. assert (zsum f l <= zsum g l) by set_solver. lia.
Qed.

Lemma zsum_lt f g l x : (forall m, m ∈ l -> f m <= g m) -> x ∈ l -> f x < g x -> zsum f l < zsum g l.
Proof.
  intros H Hx Hlt. apply list_elem_of_split in Hx as (l1 & l2 & ->). unfold zsum. rewrite !foldr_app. simpl.
  assert (forall l c d, (forall m, m ∈ l -> f m <= g m) -> c < d ->
    foldr (fun m s => f m + s) c l < foldr (fun m s => g m + s) d l) as Hmono.
  { intros l c d Hl Hcd. induction l as [|y l IH]; [done|]. simpl.
    assert (f y <= g y) by set_solver. assert (foldr (fun m s => f m + s) c l < foldr (fun m s => g m + s) d l); [|lia].
    apply IH. set_solver. }
  apply Hmono; [set_solver|]. assert (zsum f l2 <= zsum g l2); [apply zsum_le; set_solver|unfold zsum in *; lia].
Qed.

Lemma zsum_const c l : zsum (fun _ => c) l = c * Z.of_nat (length l).
Proof. induction l as [|x l IH]; [simpl; lia|]. cbn [zsum foldr length] in *. unfold zsum in IH. lia. Qed.

Lemma zsum_add f g l : zsum (fun m => f m + g m) l = zsum f l + zsum g l.
Proof. induction l as [|x l IH]; [done|]. simpl. lia. Qed.

(** Changing one summand of a list without duplicates. *)
Lemma zsum_update f g l x :
  NoDup l -> x ∈ l -> (forall m, m <> x -> g m = f m) -> zsum g l = zsum f l + (g x - f x).
Proof.
  intros Hnd Hx Hg. induction l as [|y l IH]; [by apply elem_of_nil in Hx|].
  apply NoDup_cons in Hnd as [Hy Hnd]. simpl. apply elem_of_cons in Hx as [->|Hx].
  - rewrite (zsum_ext g f l); [lia|]. intros m Hm. apply Hg. by intros ->.
  - rewrite IH, (Hg y) by (done || by intros ->). lia.
Qed.
End sums.

(** ** Assignments over a fixed list of members *)

Section members.
Context (ms : list string) (Hms : NoDup ms).
Implicit Types (a : Assignment) (m p : string).
Open Scope Z_scope.

Definition assigned a : list string := mjoin (parts a <$> ms).

Lemma parts_insert a m l m' : parts (<[m := l]> a) m' = if decide (m = m') then l else parts a m'.
Proof. unfold parts. case_decide; subst; [by rewrite lookup_insert_eq|by rewrite lookup_insert_ne]. Qed.

Lemma parts_insert_eq a m l : parts (<[m := l]> a) m = l.
Proof. rewrite parts_insert. by case_decide. Qed.

Lemma parts_insert_ne a m l m' : m <> m' -> parts (<[m := l]> a) m' = parts a m'.
Proof. intros. rewrite parts_insert. by case_decide. Qed.

Lemma assigned_insert a m l : m ∈ ms -> assigned (<[m := l]> a) ++ parts a m ≡ₚ assigned a ++ l.
Proof.
  unfold assigned. intros Hm. apply list_elem_of_split in Hm as (l1 & l2 & E).
  rewrite E in Hms. rewrite E, !fmap_app, !join_app. simpl.
  assert (forall l' : list string, m ∉ l' -> parts (<[m := l]> a) <$> l' = parts a <$> l') as Hext.
  { intros l' Hl'. apply list_fmap_ext. intros i x Hx. apply parts_insert_ne. intros ->. by apply Hl', list_elem_of_lookup_2 with i. }
  apply NoDup_app in Hms as (_ & H1 & H2). apply NoDup_cons in H2 as [H2 _].
  rewrite !Hext, parts_insert_eq; [|done|set_solver]. solve_Permutation.
Qed.

Lemma assigned_give a m p : m ∈ ms -> assigned (<[m := parts a m ++ [p]]> a) ≡ₚ assigned a ++ [p].
Proof.
  intros Hm. pose proof (assigned_insert a m (parts a m ++ [p]) Hm) as H.
  apply Permutation_app_inv_r with (parts a m). rewrite H. solve_Permutation.
Qed.

Lemma assigned_length a : Z.of_nat (length (assigned a)) = zsum (load a) ms.
Proof.
  unfold assigned, load. clear Hms. induction ms as [|m l IH]; [done|].
  rewrite fmap_cons. simpl. rewrite length_app, Nat2Z.inj_add, IH. done.
Qed.

Lemma assigned_elem a p : p ∈ assigned a <-> exists m, m ∈ ms /\ p ∈ parts a m.
Proof. unfold assigned. rewrite list_elem_of_join. setoid_rewrite list_elem_of_fmap. naive_solver. Qed.

Lemma assigned_nodup_parts a m : NoDup (assigned a) -> m ∈ ms -> NoDup (parts a m).
Proof.
  intros Hnd Hm. unfold assigned in Hnd. apply list_elem_of_split in Hm as (l1 & l2 & E).
  rewrite E, fmap_app, join_app in Hnd. simpl in Hnd. apply NoDup_app in Hnd as (_ & _ & Hnd).
  by apply NoDup_app in Hnd as (? & _).
Qed.

Lemma assigned_disjoint a m m' p :
  NoDup (assigned a) -> m ∈ ms -> m' ∈ ms -> p ∈ parts a m -> p ∈ parts a m' -> m = m'.
Proof.
  intros Hnd Hm Hm' Hp Hp'. destruct (decide (m = m')) as [|Hne]; [done|exfalso].
  assert (m' ∈ ms) as Hd by done. apply list_elem_of_split in Hm as (l1 & l2 & E).
  unfold assigned in Hnd. rewrite E, fmap_app, join_app in Hnd. simpl in Hnd.
  rewrite E in Hd. rewrite (Permutation_app_comm (mjoin _)) in Hnd.
  rewrite <- app_assoc in Hnd. apply NoDup_app in Hnd as (_ & Hnd & _). apply (Hnd p Hp).
  rewrite elem_of_app, !list_elem_of_join. rewrite elem_of_app, elem_of_cons in Hd.
  setoid_rewrite list_elem_of_fmap. destruct Hd as [?|[?|?]]; naive_solver.
Qed.
End members.

(** ** Choosing and moving *)

Section choose.
Context (ms : list string) (Hms : NoDup ms) (Hne : EmptyString ∉ ms).
Implicit Types (a : Assignment) (m p : string).
Open Scope Z_scope.

(** [r] is a least loaded member among those below [cap]. *)
Definition least_under a (cap : Z) (r : string) : Prop :=
  r ∈ ms /\ load a r < cap /\ forall m, m ∈ ms -> load a m < cap -> load a r <= load a m.

Lemma load_nonneg a m : 0 <= load a m.
Proof. unfold load. lia. Qed.

Lemma scan_under_spec a cap (l : list string) :
  let st := foldl (scan_under a cap) (EmptyString, -1) l in
  (st = (EmptyString, -1) /\ forall m, m ∈ l -> cap <= load a m) \/
  (st.1 ∈ l /\ st.2 = load a st.1 /\ load a st.1 < cap /\ forall m, m ∈ l -> load a m < cap -> load a st.1 <= load a m).
Proof.
  clear Hms Hne. induction l as [|x l IH] using rev_ind; [left; set_solver|].
  rewrite foldl_snoc. destruct (foldl _ _ l) as [b bl] eqn:E. simpl in *. pose proof (load_nonneg a b).
  destruct IH as [[[= -> ->] Hall]|(Hb & -> & Hlt & Hmin)]; case_decide as Hc; try case_decide as Hc'.
  - left. split; [done|]. intros m [?| ->%list_elem_of_singleton]%elem_of_app; auto.
  - right. simpl. split_and!; [set_solver|done|lia|].
    intros m [Hm| ->%list_elem_of_singleton]%elem_of_app ?; [apply Hall in Hm; lia|lia].
  - naive_solver.
  - right. simpl. split_and!; [set_solver|done|lia|].
    intros m [Hm| ->%list_elem_of_singleton]%elem_of_app ?; [auto|lia].
  - right. simpl. split_and!; [set_solver|done|lia|].
    intros m [Hm| ->%list_elem_of_singleton]%elem_of_app Hm'; [specialize (Hmin m Hm Hm'); lia|lia].
  - right. simpl. split_and!; [set_solver|done|lia|].
    intros m [Hm| ->%list_elem_of_singleton]%elem_of_app Hm'; [by auto|lia].
Qed.

Lemma leastLoadedReceiver_spec a cap :
  (exists m, m ∈ ms /\ load a m < cap) -> least_under a cap (leastLoadedReceiver a ms cap).
Proof.
  intros (m & Hm & Hlt). unfold leastLoadedReceiver, least_under.
  destruct (scan_under_spec a cap ms) as [[-> Hall]|(? & _ & ? & ?)]; [|done]. apply Hall in Hm. lia.
Qed.

Lemma leastLoadedUnderCap_spec a cap :
  (exists m, m ∈ ms /\ load a m < cap) -> least_under a cap (leastLoadedUnderCap a ms cap).
Proof.
  intros Hex. apply leastLoadedReceiver_spec in Hex. unfold leastLoadedReceiver in Hex. unfold leastLoadedUnderCap.
  destruct (foldl _ _ ms) as [b bl]. simpl in Hex. rewrite decide_True; [done|]. intros ->. by apply Hne, Hex.
Qed.

Lemma first_member_spec (f : string -> bool) :
  (first_member f ms = EmptyString /\ forall m, m ∈ ms -> f m = false) \/
  (first_member f ms <> EmptyString /\ first_member f ms ∈ ms /\ f (first_member f ms) = true).
Proof.
  unfold first_member. destruct (List.find f ms) as [m|] eqn:E; simpl.
  - apply find_some in E as [Hm%list_elem_of_In Hf]. right. split_and!; [|done|done]. by intros ->.
  - left. split; [done|]. intros m Hm. eapply find_none; [exact E|]. by apply list_elem_of_In.
Qed.

Lemma removelast_last (l : list string) x : last l = Some x -> l = removelast l ++ [x].
Proof.
  intros H. destruct l as [|y l] using rev_ind; [done|]. rewrite last_snoc in H. simplify_eq.
  by rewrite removelast_last.
Qed.

(** What [moveOne] does when the donor has something to give. *)
Lemma moveOne_spec a d r :
  d <> r -> 0 < load a d ->
  exists p, parts a d ≡ₚ p :: parts (moveOne a d r) d /\
    parts (moveOne a d r) r = parts a r ++ [p] /\
    (forall m, m <> d -> m <> r -> parts (moveOne a d r) m = parts a m).
Proof.
  intros Hdr Hl. unfold moveOne.
  destruct (last (sort_strings (parts a d))) as [p|] eqn:E.
  - exists p. apply removelast_last in E. rewrite parts_insert_ne, !parts_insert_eq, parts_insert_ne by done.
    split_and!; [|done|intros m ? ?; by rewrite !parts_insert_ne].
    rewrite <- (sort_strings_perm (parts a d)), E at 1. solve_Permutation.
  - apply last_None in E. unfold load in Hl. rewrite <- (sort_strings_perm (parts a d)), E in Hl. simpl in Hl. lia.
Qed.

Lemma moveOne_assigned a d r :
  d ∈ ms -> r ∈ ms -> d <> r -> 0 < load a d -> assigned ms (moveOne a d r) ≡ₚ assigned ms a.
Proof.
  intros Hd Hr Hdr Hl. unfold moveOne.
  destruct (last (sort_strings (parts a d))) as [p|] eqn:E; [|done]. apply removelast_last in E.
  set (rest := removelast _) in *. rewrite assigned_give by done.
  apply Permutation_app_inv_r with rest. rewrite <- (assigned_insert ms Hms a d rest Hd).
  rewrite <- (sort_strings_perm (parts a d)), E. solve_Permutation.
Qed.

Lemma load_moveOne a d r m :
  d <> r -> 0 < load a d ->
  load (moveOne a d r) m = load a m + (if decide (m = d) then -1 else if decide (m = r) then 1 else 0).
Proof.
  intros Hdr Hl. destruct (moveOne_spec a d r Hdr Hl) as (p & Hp & Hr & Hm). unfold load in *.
  repeat case_decide; subst; [| |by rewrite Hm, Z.add_0_r].
  - apply Permutation_length in Hp. simpl in Hp. lia.
  - rewrite Hr, length_app. simpl. lia.
Qed.
End choose.

(** ** The two phases of the redistribution

    [K m] are the partitions member [m] owned and may keep.  While partitions
    are handed out and surpluses shed ([growing]) a member either still has all
    of [K m] or holds only partitions of [K m] and at least [ceil] of them.
    Once no member is above [ceil] ([settling]) members above [floor] fill
    those below it, and this only happens when nobody was raised above
    [floor]. *)
Section phases.
Context (ms : list string) (K : string -> list string) (floor ceil : Z).
Context (Hms : NoDup ms) (Hne : EmptyString ∉ ms) (HK : forall m, m ∈ ms -> NoDup (K m)).
Open Scope Z_scope.
Context (Hfc : floor <= ceil <= floor + 1).
Implicit Types (a : Assignment) (m p : string).

Notation k m := (Z.of_nat (length (K m))).

Definition raised a y : Prop := y ∈ ms /\ k y < load a y /\ floor < load a y.

Record growing a : Prop := {
  g_split m : m ∈ ms ->
    (K m ⊆ parts a m /\ (parts a m ⊆ K m \/ load a m <= ceil)) \/ (parts a m ⊆ K m /\ ceil <= load a m);
  g_raised y m : raised a y -> m ∈ ms -> floor <= load a m;
}.

Record settling a : Prop := {
  s_top m : m ∈ ms -> load a m <= ceil;
  s_split m : m ∈ ms -> K m ⊆ parts a m \/ (parts a m ⊆ K m /\ floor <= load a m);
  s_raised y m : raised a y -> m ∈ ms -> floor <= load a m;
  s_min x y : x ∈ ms -> load a x < k x -> load a x < ceil -> raised a y -> False;
}.

Lemma sub_load a m : NoDup (assigned ms a) -> m ∈ ms -> parts a m ⊆ K m -> load a m <= k m.
Proof.
  intros Hnd Hm Hs. unfold load. apply Nat2Z.inj_le, submseteq_length, NoDup_submseteq; [|done].
  by eapply assigned_nodup_parts.
Qed.

Lemma sup_load a m : m ∈ ms -> K m ⊆ parts a m -> k m <= load a m.
Proof. intros Hm Hs. unfold load. apply Nat2Z.inj_le, submseteq_length, NoDup_submseteq; auto. Qed.

(** As many elements and included: the same elements. *)
Lemma sup_sub a m : NoDup (assigned ms a) -> m ∈ ms -> K m ⊆ parts a m -> load a m <= k m -> parts a m ⊆ K m.
Proof.
  intros Hnd Hm Hs Hl x Hx. assert (K m ⊆+ parts a m) as Hsub by (apply NoDup_submseteq; auto).
  assert (K m ≡ₚ parts a m) as Hp; [|by rewrite Hp].
  apply submseteq_length_Permutation; [done|]. unfold load in Hl. lia.
Qed.

(** Taking from a member above [ceil]. *)
Lemma growing_shed a a' d :
  growing a -> NoDup (assigned ms a) -> NoDup (assigned ms a') -> d ∈ ms -> ceil < load a d ->
  load a' d = load a d - 1 -> parts a' d ⊆ parts a d -> (forall m, m <> d -> parts a' m = parts a m) -> growing a'.
Proof.
  intros [Hsp Hr] Hnd Hnd' Hd Hc Hl Hsub Hoth.
  assert (forall m, m <> d -> load a' m = load a m) as Hlo' by (intros m Hm; unfold load; by rewrite Hoth).
  assert (parts a' d ⊆ K d) as Hd'. { destruct (Hsp d Hd) as [[_ [?|?]]|[? _]]; [set_solver|lia|set_solver]. }
  split.
  - intros m Hm. destruct (decide (m = d)) as [->|Hmd]; [right; split; [done|lia]|].
    rewrite Hlo', Hoth by done. auto.
  - intros y m (Hy & Hk & Hf) Hm.
    assert (y <> d) as Hyd. { intros ->. pose proof (sub_load a' d Hnd' Hd Hd'). lia. }
    rewrite Hlo' in Hk, Hf by done. assert (floor <= load a m) by (apply (Hr y); done).
    destruct (decide (m = d)) as [->|Hmd]; [lia|]. by rewrite Hlo'.
Qed.

(** Giving to a least loaded member below [ceil]. *)
Lemma growing_give a r p :
  growing a -> least_under ms a ceil r -> growing (<[r := parts a r ++ [p]]> a).
Proof.
  intros [Hsp Hr] (Hrm & Hlt & Hmin). set (a' := <[r := _]> a).
  assert (forall m, load a' m = load a m + (if decide (m = r) then 1 else 0)) as Hl.
  { intros m. unfold load, a'. rewrite parts_insert. destruct (decide (r = m)), (decide (m = r)); subst; try done; [|lia].
    rewrite length_app. simpl. lia. }
  assert (forall m, m ∈ ms -> floor <= load a r -> floor <= load a m) as Hall.
  { intros m Hm Hfr. destruct (decide (load a m < ceil)); [specialize (Hmin m Hm); lia|lia]. }
  split.
  - intros m Hm. rewrite Hl. unfold a'. rewrite parts_insert.
    destruct (decide (r = m)) as [<-|Hmr]; case_decide; try done.
    + left. destruct (Hsp r Hm) as [[Hs _]|[_ ?]]; [|lia]. split; [set_solver|lia].
    + rewrite Z.add_0_r. auto.
  - intros y m (Hy & Hk & Hf) Hm. rewrite !Hl in *. case_decide as Hyr; [subst y|].
    + assert (floor <= load a m) by (apply Hall; [done|lia]). case_decide; lia.
    + assert (floor <= load a m) by (apply (Hr y); [by split_and!; [|lia..]|done]). case_decide; lia.
Qed.

Lemma growing_settling a : growing a -> (forall m, m ∈ ms -> load a m <= ceil) -> settling a.
Proof.
  intros [Hsp Hr] Htop. split; [done| |done|].
  - intros m Hm. destruct (Hsp m Hm) as [[? _]|[? ?]]; [by left|right; split; [done|lia]].
  - intros x y Hx Hk Hc _. destruct (Hsp x Hx) as [[Hs _]|[_ ?]]; [|lia].
    pose proof (sup_load a x Hx Hs). lia.
Qed.

(** From a member above [floor] to one below it. *)
Lemma settling_move a d r :
  settling a -> NoDup (assigned ms a) -> d ∈ ms -> r ∈ ms -> floor < load a d -> load a r < floor ->
  0 <= floor -> settling (moveOne a d r).
Proof.
  intros [Ht Hsp Hq Hmn] Hnd Hd Hr Hld Hlr Hf0.
  assert (forall y, ~ raised a y) as Hnr. { intros y Hy. specialize (Hq y r Hy Hr). lia. }
  assert (d <> r) as Hdr by (intros ->; lia).
  assert (parts a d ⊆ K d) as HdK.
  { destruct (Hsp d Hd) as [Hs|[? _]]; [|done]. apply sup_sub; [done..|].
    destruct (decide (load a d <= k d)) as [|Hgt]; [done|]. exfalso. apply (Hnr d). split_and!; [done|lia|done]. }
  destruct (moveOne_spec a d r Hdr ltac:(lia)) as (p & Hp & Hpr & Hoth).
  pose proof (fun m => load_moveOne a d r m Hdr ltac:(lia)) as Hl.
  assert (forall y, ~ raised (moveOne a d r) y) as Hnr'.
  { intros y (Hy & Hk & Hf). rewrite Hl in Hk, Hf. repeat case_decide; subst.
    - apply (Hnr d). split_and!; [done|lia..].
    - lia.
    - apply (Hnr y). split_and!; [done|lia..]. }
  split.
  - intros m Hm. rewrite Hl. specialize (Ht m Hm). repeat case_decide; subst; lia.
  - intros m Hm. rewrite Hl. repeat case_decide; subst.
    + right. split; [|lia]. intros x Hx. apply HdK. rewrite Hp. set_solver.
    + left. rewrite Hpr. destruct (Hsp r Hr) as [?|[_ ?]]; [set_solver|lia].
    + rewrite Hoth, Z.add_0_r by done. auto.
  - intros y m Hy. by apply Hnr' in Hy.
  - intros x y _ _ _ Hy. by apply Hnr' in Hy.
Qed.

(** From a member above [ceil] to a least loaded one below it. *)
Lemma growing_move a d r :
  growing a -> NoDup (assigned ms a) -> d ∈ ms -> ceil < load a d -> 0 <= ceil -> least_under ms a ceil r ->
  growing (moveOne a d r).
Proof.
  intros Hg Hnd Hd Hld Hc0 (Hr & Hlr & Hmin). assert (d <> r) as Hdr by (intros ->; lia). unfold moveOne.
  destruct (last (sort_strings (parts a d))) as [p|] eqn:E; [|done]. apply removelast_last in E.
  set (rest := removelast _) in *. set (a1 := <[d := rest]> a).
  assert (parts a d ≡ₚ rest ++ [p]) as Hpd by (by rewrite <- E, sort_strings_perm).
  assert (load a1 d = load a d - 1) as Hl1.
  { unfold load, a1. rewrite parts_insert_eq, Hpd, length_app. simpl. lia. }
  assert (forall m, m <> d -> parts a1 m = parts a m) as Hoth by (intros m ?; unfold a1; by rewrite parts_insert_ne).
  assert (growing a1) as Hg1.
  { eapply (growing_shed a a1 d); try done.
    - assert (assigned ms a1 ++ [p] ≡ₚ assigned ms a) as Hp.
      { apply Permutation_app_inv_r with rest. unfold a1. rewrite <- (assigned_insert ms Hms a d rest Hd), Hpd. solve_Permutation. }
      rewrite <- Hp in Hnd. by apply NoDup_app in Hnd as (? & _).
    - unfold a1. rewrite parts_insert_eq. intros x Hx. rewrite Hpd. set_solver. }
  apply growing_give; [done|].
  assert (forall m, m <> d -> load a1 m = load a m) as Hl2 by (intros m ?; unfold load; by rewrite Hoth).
  split_and!; [done|by rewrite Hl2|]. intros m Hm Hlm.
  destruct (decide (m = d)) as [->|Hmd]; [lia|].
  rewrite (Hl2 m) in Hlm |- * by done. rewrite (Hl2 r) by done. auto.
Qed.

Context (ps : list string) (Hps : NoDup ps).
Context (Hlo : floor * Z.of_nat (length ms) <= Z.of_nat (length ps)).
Context (Hhi : Z.of_nat (length ps) <= ceil * Z.of_nat (length ms)).

Definition imbalance a : Z := zsum (fun m => Z.max 0 (load a m - ceil) + Z.max 0 (floor - load a m)) ms.

Lemma imbalance_nonneg a : 0 <= imbalance a.
Proof.
  unfold imbalance. transitivity (zsum (fun _ => 0) ms); [rewrite zsum_const; lia|]. apply zsum_le. lia.
Qed.

Lemma imbalance_move a d r :
  d ∈ ms -> r ∈ ms -> 0 <= floor -> load a r < ceil -> floor < load a d ->
  ceil < load a d \/ load a r < floor ->
  imbalance (moveOne a d r) < imbalance a.
Proof.
  intros Hd Hr Hf Hlr Hld Hc. assert (d <> r) as Hdr by (intros ->; lia).
  pose proof (fun m => load_moveOne a d r m Hdr ltac:(lia)) as Hl. unfold imbalance.
  destruct Hc as [Hc|Hc]; (apply zsum_lt with (if decide (ceil < load a d) then d else r));
    try (intros m Hm; rewrite Hl; repeat case_decide; subst; lia);
    case_decide; try done; try lia; rewrite Hl; repeat case_decide; subst; try done; lia.
Qed.

Lemma exists_below a d : d ∈ ms -> assigned ms a ≡ₚ ps -> ceil < load a d -> exists m, m ∈ ms /\ load a m < ceil.
Proof.
  intros Hd Hex Hc. destruct (decide (Exists (fun m => load a m < ceil) ms)) as [H|H].
  - apply Exists_exists in H. naive_solver.
  - exfalso. apply Permutation_length in Hex. pose proof (assigned_length ms a) as Hlen.
    assert (zsum (fun _ => ceil) ms < zsum (load a) ms) as Hlt.
    { apply zsum_lt with d; [|done..]. intros m Hm. destruct (decide (load a m < ceil)); [|lia].
      exfalso. apply H, Exists_exists. eauto. }
    rewrite zsum_const in Hlt. lia.
Qed.

Lemma exists_above a r : r ∈ ms -> assigned ms a ≡ₚ ps -> load a r < floor -> exists m, m ∈ ms /\ floor < load a m.
Proof.
  intros Hd Hex Hc. destruct (decide (Exists (fun m => floor < load a m) ms)) as [H|H].
  - apply Exists_exists in H. naive_solver.
  - exfalso. apply Permutation_length in Hex. pose proof (assigned_length ms a) as Hlen.
    assert (zsum (load a) ms < zsum (fun _ => floor) ms) as Hlt.
    { apply zsum_lt with r; [|done..]. intros m Hm. destruct (decide (floor < load a m)); [|lia].
      exfalso. apply H, Exists_exists. eauto. }
    rewrite zsum_const in Hlt. lia.
Qed.

(** With fuel for the remaining imbalance the loop ends in a balanced, exact
    and settled assignment. *)
Lemma rebalanceDown_spec fuel a :
  0 <= floor -> growing a \/ settling a -> assigned ms a ≡ₚ ps -> imbalance a < Z.of_nat fuel ->
  exists a', rebalanceDown fuel a ms floor ceil = Some a' /\ settling a' /\ assigned ms a' ≡ₚ ps /\
    forall m, m ∈ ms -> floor <= load a' m.
Proof.
  intros Hf0. revert a. induction fuel as [|fuel IH]; intros a Hinv Hex Hfuel.
  { pose proof (imbalance_nonneg a). lia. }
  assert (NoDup (assigned ms a)) as Hnd by (by rewrite Hex). simpl.
  destruct (first_member_spec ms Hne (fun m => bool_decide (ceil < load a m))) as [[-> Htop]|(Hd0 & Hd & Hdc)].
  - assert (forall m, m ∈ ms -> load a m <= ceil) as Htop'.
    { intros m Hm. apply Htop, bool_decide_eq_false in Hm. lia. }
    assert (settling a) as Hs by (destruct Hinv; [by apply growing_settling|done]).
    rewrite decide_True by done.
    destruct (first_member_spec ms Hne (fun m => bool_decide (load a m < floor))) as [[-> Hbot]|(Hr0 & Hr & Hrf)].
    + rewrite decide_True by done. exists a. split_and!; [done..|].
      intros m Hm. apply Hbot, bool_decide_eq_false in Hm. lia.
    + rewrite decide_False by done. apply bool_decide_eq_true in Hrf.
      destruct (first_member_spec ms Hne (fun m => bool_decide (floor < load a m))) as [[_ Hno]|(Hd0 & Hd & Hdf)].
      { destruct (exists_above a _ Hr Hex Hrf) as (m & Hm & Hlm). apply Hno, bool_decide_eq_false in Hm. lia. }
      rewrite decide_False by done. apply bool_decide_eq_true in Hdf.
      set (d := first_member (fun m => bool_decide (floor < load a m)) ms) in *.
      set (r := first_member (fun m => bool_decide (load a m < floor)) ms) in *.
      pose proof (imbalance_move a d r Hd Hr Hf0). apply IH.
      * right. by apply settling_move.
      * rewrite moveOne_assigned; [done|done..| |lia]. intros Heq. rewrite Heq in Hdf. lia.
      * lia.
  - apply bool_decide_eq_true in Hdc. rewrite decide_False by done. set (d := first_member _ ms) in *.
    pose proof (leastLoadedReceiver_spec ms a ceil (exists_below a d Hd Hex Hdc)) as Hleast.
    set (r := leastLoadedReceiver a ms ceil) in *. pose proof Hleast as (Hr & Hlr & _).
    assert (d <> r) as Hdr by (intros Heq; rewrite Heq in Hdc; lia).
    rewrite decide_False by (intros [Heq|?]; [apply Hne; by rewrite <- Heq|by subst]).
    pose proof (imbalance_move a d r Hd Hr Hf0). apply IH.
    + left. destruct Hinv as [Hg|[Ht _ _ _]]; [by apply growing_move; try done; lia|]. specialize (Ht d Hd). lia.
    + rewrite moveOne_assigned; [done|done..|lia].
    + lia.
Qed.
End phases.

(** ** Steps 1 and 2 *)

Lemma assigned_nodup ms a :
  NoDup ms -> (forall m, NoDup (parts a m)) -> (forall m m' p, p ∈ parts a m -> p ∈ parts a m' -> m = m') ->
  NoDup (assigned ms a).
Proof.
  intros Hms Hnd Hdis. unfold assigned. induction Hms as [|m l Hm _ IH]; [constructor|].
  rewrite fmap_cons. simpl. apply NoDup_app. split_and!; [done| |done].
  intros p Hp (l' & Hp' & (m' & -> & Hm')%list_elem_of_fmap)%list_elem_of_join. by rewrite (Hdis m m' p) in Hm.
Qed.

Section sticky.
Context (prev : Assignment) (valid : gset string).
Implicit Types (done : list string) (st : gmap string string * Assignment).

(** What the members [done] and the partitions [cur] of member [m] have
    contributed so far. *)
Record sticky_inv done m (cur : list string) st : Prop := {
  sk_owned p c : st.1 !! p = Some c <-> p ∈ parts st.2 c;
  sk_nodup c : NoDup (parts st.2 c);
  sk_from p c : st.1 !! p = Some c -> p ∈ valid /\ ((c ∈ done /\ p ∈ parts prev c) \/ (c = m /\ p ∈ cur));
  sk_all p : p ∈ valid -> (exists c, c ∈ done /\ p ∈ parts prev c) \/ p ∈ cur -> is_Some (st.1 !! p);
}.

Lemma keep_part_inv done m cur st p :
  sticky_inv done m cur st -> sticky_inv done m (cur ++ [p]) (keep_part valid m st p).
Proof.
  intros [Ho Hn Hf Ha]. destruct st as [owned next]. unfold keep_part; simpl in *.
  case_decide as Hv; [case_decide as Hs|].
  - split; [done..| |]; setoid_rewrite elem_of_app; setoid_rewrite list_elem_of_singleton; [naive_solver|].
    intros q Hq [?|[?| ->]]; auto.
  - assert (forall c, p ∉ parts next c) as Hfresh. { intros c Hc. apply Hs. exists c. by apply Ho. }
    split; simpl.
    + intros q c. rewrite parts_insert. destruct (decide (p = q)) as [<-|Hne].
      * rewrite lookup_insert_eq. case_decide; subst; [set_solver|]. split; [congruence|]. by intros ?%Hfresh.
      * rewrite lookup_insert_ne, Ho by done. case_decide; subst; set_solver.
    + intros c. rewrite parts_insert. case_decide; [|done]. apply NoDup_app. split_and!; [done| |apply NoDup_singleton].
      intros q Hq ->%list_elem_of_singleton. by apply (Hfresh m).
    + intros q c [[<- <-]|[? Hq]]%lookup_insert_Some; [set_solver|]. apply Hf in Hq. set_solver.
    + intros q Hq H. destruct (decide (p = q)) as [<-|Hne]; [rewrite lookup_insert_eq; by eexists|].
      rewrite lookup_insert_ne by done. apply Ha; [done|]. set_solver.
  - split; [done..| |]; setoid_rewrite elem_of_app; setoid_rewrite list_elem_of_singleton; [naive_solver|].
    intros q Hq [?|[?| ->]]; auto. done.
Qed.

Lemma keep_parts_inv done m l cur st :
  sticky_inv done m cur st -> sticky_inv done m (cur ++ l) (foldl (keep_part valid m) st l).
Proof.
  revert cur st. induction l as [|p l IH]; intros cur st H; [by rewrite app_nil_r|]. simpl.
  rewrite cons_middle, app_assoc. by apply IH, keep_part_inv.
Qed.

Lemma keep_sticky_inv ms next :
  (forall m, parts next m = []) -> sticky_inv ms EmptyString [] (keep_sticky prev valid ms next).
Proof.
  intros Hnext. unfold keep_sticky. induction ms as [|m l IH] using rev_ind.
  - split; simpl.
    + intros p c. by rewrite Hnext, lookup_empty, elem_of_nil.
    + intros c. rewrite Hnext. constructor.
    + intros p c. by rewrite lookup_empty.
    + intros p _ [(c & []%elem_of_nil & _)|[]%elem_of_nil].
  - rewrite foldl_snoc. destruct IH as [Ho Hn Hf Ha].
    assert (sticky_inv l m [] (foldl (fun st m => foldl (keep_part valid m) st (sort_strings (parts prev m))) (∅, next) l)) as Hst.
    { split; [done..| |done]. intros p c Hp. destruct (Hf p c Hp) as [? [?|[_ ?%elem_of_nil]]]; [auto|done]. }
    apply (keep_parts_inv l m (sort_strings (parts prev m))) in Hst. destruct Hst as [Ho' Hn' Hf' Ha'].
    split; [done..| |]; intros p.
    + intros c Hp. destruct (Hf' p c Hp) as [? [[? ?]|[-> Hin]]]; (split; [done|left]); [set_solver|].
      rewrite app_nil_l, sort_strings_perm in Hin. set_solver.
    + intros Hp Hc. apply Ha'; [done|]. rewrite app_nil_l, sort_strings_perm. set_solver.
Qed.

Lemma keep_sticky_dom ms next :
  list_to_set ms ⊆ dom next -> dom (keep_sticky prev valid ms next).2 = dom next.
Proof.
  intros Hd. unfold keep_sticky. induction ms as [|m l IH] using rev_ind; [done|]. rewrite foldl_snoc.
  rewrite <- (IH ltac:(set_solver)). rewrite list_to_set_app_L in Hd.
  assert (m ∈ dom (foldl (fun st m => foldl (keep_part valid m) st (sort_strings (parts prev m))) (∅, next) l).2) as Hm.
  { rewrite IH by set_solver. set_solver. }
  revert Hm. generalize (foldl (fun st m => foldl (keep_part valid m) st (sort_strings (parts prev m))) (∅, next) l).
  induction (sort_strings (parts prev m)) as [|p ps IHp]; intros st Hm; [done|]. simpl.
  assert (dom (keep_part valid m st p).2 = dom st.2) as E.
  { destruct st as [o n]. unfold keep_part. repeat case_decide; simpl in *; [done| |done]. rewrite dom_insert_L. set_solver. }
  rewrite IHp, E; [done|]. by rewrite E.
Qed.
End sticky.

Lemma assign_free_spec ms ps K floor ceil a free :
  NoDup ms -> EmptyString ∉ ms -> (forall m, m ∈ ms -> NoDup (K m)) -> (floor <= ceil <= floor + 1)%Z ->
  (Z.of_nat (length ps) <= ceil * Z.of_nat (length ms))%Z -> growing ms K floor ceil a -> assigned ms a ++ free ≡ₚ ps ->
  growing ms K floor ceil (assign_free ms ceil a free) /\ assigned ms (assign_free ms ceil a free) ≡ₚ ps /\
  (dom a = list_to_set ms -> dom (assign_free ms ceil a free) = list_to_set ms).
Proof.
  intros Hms Hne HK Hfc Hhi. revert a. induction free as [|p free IH]; intros a Hg Hp; [by rewrite app_nil_r in Hp|].
  simpl. assert (exists m, m ∈ ms /\ load a m < ceil)%Z as Hex.
  { destruct (decide (Exists (fun m => load a m < ceil)%Z ms)) as [H|H]; [apply Exists_exists in H; naive_solver|exfalso].
    apply Permutation_length in Hp. rewrite length_app in Hp. simpl in Hp. pose proof (assigned_length ms a).
    assert (zsum (fun _ => ceil) ms <= zsum (load a) ms)%Z as Hle; [|rewrite zsum_const in Hle; lia].
    apply zsum_le. intros m Hm. destruct (decide (load a m < ceil)%Z); [|lia]. exfalso. apply H, Exists_exists. eauto. }
  pose proof (leastLoadedUnderCap_spec ms Hne a ceil Hex) as Hl. pose proof Hl as (Hm & _).
  destruct (IH (<[leastLoadedUnderCap a ms ceil := parts a (leastLoadedUnderCap a ms ceil) ++ [p]]> a)) as (? & ? & Hd).
  - by apply growing_give.
  - rewrite assigned_give by done. rewrite <- Hp. solve_Permutation.
  - split_and!; [done..|]. intros Hda. apply Hd. rewrite dom_insert_L, Hda. set_solver.
Qed.

(** ** The whole reassignment *)

Lemma assigned_proper ms a b : (forall m, m ∈ ms -> parts a m ≡ₚ parts b m) -> assigned ms a ≡ₚ assigned ms b.
Proof.
  unfold assigned. induction ms as [|m l IH]; intros H; [done|]. rewrite !fmap_cons. simpl.
  rewrite IH by set_solver. rewrite (H m) by set_solver. done.
Qed.

Lemma settling_proper ms K floor ceil a b :
  (forall m, m ∈ ms -> parts a m ≡ₚ parts b m) -> settling ms K floor ceil a -> settling ms K floor ceil b.
Proof.
  intros Hp [Ht Hs Hr Hm].
  assert (forall m, m ∈ ms -> load b m = load a m) as Hl by (intros m Hm'; unfold load; by rewrite Hp).
  assert (forall y, raised ms K floor b y -> raised ms K floor a y) as Hra.
  { intros y (Hy & ? & ?). rewrite Hl in * by done. by split_and!. }
  split.
  - intros m Hm'. rewrite Hl; auto.
  - intros m Hm'. rewrite Hl by done. destruct (Hs m Hm') as [H|[H ?]]; [left|right; split; [|done]];
      intros x Hx; [rewrite <- Hp by done|apply H; rewrite Hp by done]; auto.
  - intros y m Hy Hm'. rewrite Hl; eauto.
  - intros x y Hx. rewrite Hl by done. eauto.
Qed.

Lemma foldl_insert_parts (f : Assignment -> string -> list string) l (next : Assignment) m :
  NoDup l -> (forall a b m, parts a m = parts b m -> f a m = f b m) ->
  parts (foldl (fun a m => <[m := f a m]> a) next l) m = if decide (m ∈ l) then f next m else parts next m.
Proof.
  intros Hnd Hf. revert next. induction Hnd as [|x l Hx _ IH]; intros next; simpl; [done|].
  rewrite IH, parts_insert. destruct (decide (x = m)) as [->|Hne].
  - rewrite decide_False by done. by rewrite decide_True by set_solver.
  - destruct (decide (m ∈ l)).
    + rewrite decide_True by set_solver. apply Hf. by rewrite parts_insert_ne.
    + by rewrite decide_False by set_solver.
Qed.

Lemma foldl_insert_dom (f : Assignment -> string -> list string) l (next : Assignment) :
  dom (foldl (fun a m => <[m := f a m]> a) next l) = dom next ∪ list_to_set l.
Proof.
  revert next. induction l as [|x l IH]; intros next; simpl; [set_solver|]. rewrite IH, dom_insert_L. set_solver.
Qed.

Lemma rebalanceDown_dom fuel a ms floor ceil a' :
  EmptyString ∉ ms -> rebalanceDown fuel a ms floor ceil = Some a' -> dom a = list_to_set ms -> dom a' = list_to_set ms.
Proof.
  intros Hne. revert a. induction fuel as [|fuel IH]; intros a E Hd; [done|]. simpl in E.
  assert (forall d r, d ∈ ms -> r ∈ ms -> dom (moveOne a d r) = list_to_set ms) as Hmv.
  { intros d r Hdm Hr. unfold moveOne. destruct (last _); [|done]. rewrite !dom_insert_L. set_solver. }
  assert (forall f, first_member f ms <> EmptyString -> first_member f ms ∈ ms) as Hfm.
  { intros f Hf. destruct (first_member_spec ms Hne f) as [[? _]|(_ & ? & _)]; done. }
  repeat case_decide; simplify_eq; [done|done| |done|].
  - eapply IH; [exact E|]. apply Hmv; by apply Hfm.
  - eapply IH; [exact E|]. apply Hmv; [by apply Hfm|]. unfold leastLoadedReceiver in *.
    destruct (scan_under_spec a ceil ms) as [[E0 _]|[? _]]; [|done].
    exfalso. match goal with H : ¬ (_ \/ _) |- _ => apply H end. left. by rewrite E0.
Qed.

(** The outcome of [Reassign], in terms of what Step 1 kept. *)
Definition sticky (prev : Assignment) (members partitions : list string) (m : string) : list string :=
  parts (keep_sticky prev (fst (dedup partitions)) (sort_strings (snd (dedup members)))
           (foldl (fun next m => <[m := []]> next) ∅ (sort_strings (snd (dedup members))))).2 m.

Section reassign.
Context (prev : Assignment) (members partitions : list string).
Context (Hmem : members <> []) (Hne : EmptyString ∉ members).
Open Scope Z_scope.

Notation ms := (sort_strings (snd (dedup members))).
Notation ps := (sort_strings (snd (dedup partitions))).
Notation K := (sticky prev members partitions).
Notation floor := (Z.of_nat (length ps) / Z.of_nat (length ms)).
Notation ceil := (if decide (0 < Z.of_nat (length ps) mod Z.of_nat (length ms)) then floor + 1 else floor).

Lemma ms_elem m : m ∈ ms <-> m ∈ members.
Proof. rewrite sort_strings_perm. apply dedup_spec. Qed.

Lemma ms_nodup : NoDup ms.
Proof. rewrite sort_strings_perm. apply dedup_spec. Qed.

Lemma ps_elem p : p ∈ ps <-> p ∈ partitions.
Proof. rewrite sort_strings_perm. apply dedup_spec. Qed.

Lemma ps_nodup : NoDup ps.
Proof. rewrite sort_strings_perm. apply dedup_spec. Qed.

Lemma ms_length : (0 < length ms)%nat.
Proof.
  destruct members as [|x l] eqn:E; [done|]. assert (x ∈ ms) as Hx by (rewrite ms_elem, E; set_solver).
  rewrite E in Hx. destruct (sort_strings _); [by apply elem_of_nil in Hx|simpl; lia].
Qed.

Lemma quota : 0 <= floor /\ floor <= ceil <= floor + 1 /\
  floor * Z.of_nat (length ms) <= Z.of_nat (length ps) <= ceil * Z.of_nat (length ms).
Proof.
  pose proof ms_length. assert (0 < Z.of_nat (length ms)) by lia.
  pose proof (Z.div_mod (Z.of_nat (length ps)) (Z.of_nat (length ms)) ltac:(lia)).
  pose proof (Z.mod_pos_bound (Z.of_nat (length ps)) (Z.of_nat (length ms)) ltac:(lia)).
  assert (0 <= floor) by (apply Z.div_pos; lia). case_decide; nia.
Qed.

Lemma K_sticky_inv : exists owned, sticky_inv prev (fst (dedup partitions)) ms EmptyString []
  (owned, (keep_sticky prev (fst (dedup partitions)) ms (foldl (fun next m => <[m := []]> next) ∅ ms)).2) /\
  owned = (keep_sticky prev (fst (dedup partitions)) ms (foldl (fun next m => <[m := []]> next) ∅ ms)).1.
Proof.
  eexists. split; [|done]. rewrite <- surjective_pairing. apply keep_sticky_inv. intros m.
  rewrite (foldl_insert_parts (fun _ _ => [])); [|apply ms_nodup|done]. by case_decide.
Qed.

Lemma imbalance_bound a : assigned ms a ≡ₚ ps -> imbalance ms floor ceil a < Z.of_nat (S (2 * length ps)).
Proof.
  intros Hp. destruct quota as (Hf & Hfc & Hlo & _). apply Permutation_length in Hp.
  pose proof (assigned_length ms a) as Hl.
  assert (imbalance ms floor ceil a <= zsum (fun m => load a m + floor) ms) as Hle.
  { apply zsum_le. intros m _. pose proof (load_nonneg a m). lia. }
  rewrite (zsum_add (load a) (fun _ => floor)), zsum_const in Hle. lia.
Qed.

Lemma Reassign_settles : exists next, Reassign prev members partitions = Some next /\
  dom next = list_to_set members /\ assigned ms next ≡ₚ ps /\ settling ms K floor ceil next /\
  (forall m, m ∈ ms -> floor <= load next m) /\ (forall m, m ∈ ms -> StronglySorted String.le (parts next m)).
Proof.
  pose proof ms_nodup as Hms. pose proof ps_nodup as Hps. destruct quota as (Hf & Hfc & Hlo & Hhi).
  assert (EmptyString ∉ ms) as Hne' by (by rewrite ms_elem).
  destruct K_sticky_inv as (owned & [Ho Hn Hfr Ha] & Ew). unfold Reassign. pose proof ms_length as Hlen.
  rewrite decide_False by lia.
  pose proof (keep_sticky_dom prev (fst (dedup partitions)) ms (foldl (fun next m => <[m := []]> next) ∅ ms)) as Hdom.
  rewrite (foldl_insert_dom (fun _ _ => [])), dom_empty_L, union_empty_l_L in Hdom. specialize (Hdom ltac:(done)).
  unfold sticky in *. destruct (keep_sticky _ _ _ _) as [owned' a0] eqn:Ek. cbn [fst snd] in *. subst owned'.
  assert (forall m, m ∈ ms -> NoDup (parts a0 m)) as HK by auto.
  assert (growing ms (parts a0) floor ceil a0) as Hg.
  { split; [intros m _; left; split; [done|by left]|]. intros y m (_ & Hk & _). unfold load in Hk. lia. }
  assert (assigned ms a0 ++ filter (fun p => ¬ is_Some (owned !! p)) ps ≡ₚ ps) as Hsplit.
  { apply NoDup_Permutation; [|done|].
    - apply NoDup_app. split_and!; [|intros p Hp Hp'|by apply NoDup_filter].
      + apply assigned_nodup; [done..|]. intros m m' p Hp%Ho Hp'%Ho. congruence.
      + apply list_elem_of_filter in Hp' as [Hp' _]. apply Hp'. apply assigned_elem in Hp as (m & _ & Hp%Ho). by eexists.
    - intros p. rewrite elem_of_app, list_elem_of_filter, assigned_elem. split.
      + intros [(m & _ & Hp%Ho)|[_ ?]]; [|done]. apply Hfr in Hp as [Hp _].
        destruct (dedup_spec partitions) as (E & _). rewrite E, elem_of_list_to_set in Hp. by apply ps_elem.
      + intros Hp. destruct (decide (is_Some (owned !! p))) as [[c Hc]|]; [left|by right].
        exists c. split; [|by apply Ho]. apply Hfr in Hc as [_ [[? _]|[_ []%elem_of_nil]]]. done. }
  destruct (assign_free_spec ms ps (parts a0) floor ceil a0 _ Hms Hne' HK Hfc Hhi Hg Hsplit) as (Hg1 & Hp1 & Hd1).
  set (a1 := assign_free _ _ _ _) in *.
  destruct (rebalanceDown_spec ms (parts a0) floor ceil Hms Hne' HK Hfc ps Hps Hlo Hhi (S (2 * length ps)) a1
    Hf (or_introl Hg1) Hp1 (imbalance_bound a1 Hp1)) as (a2 & E2 & Hs2 & Hp2 & Hbot).
  rewrite E2. cbn [mbind option_bind]. eexists. split; [done|].
  assert (forall m, m ∈ ms -> parts a2 m ≡ₚ parts (foldl (fun next m => <[m:=sort_strings (parts next m)]> next) a2 ms) m) as Hsort.
  { intros m Hm. rewrite (foldl_insert_parts (fun a m => sort_strings (parts a m))); [|done|by intros ? ? ? ->].
    rewrite decide_True by done. by rewrite sort_strings_perm. }
  split_and!.
  - rewrite (foldl_insert_dom (fun a m => sort_strings (parts a m))), (rebalanceDown_dom _ _ _ _ _ _ Hne' E2) by auto.
    apply set_eq. intros x. rewrite elem_of_union, !elem_of_list_to_set, ms_elem. naive_solver.
  - rewrite <- Hp2. symmetry. by apply assigned_proper.
  - by eapply settling_proper.
  - intros m Hm. unfold load. rewrite <- Hsort by done. by apply Hbot.
  - intros m Hm. rewrite (foldl_insert_parts (fun a m => sort_strings (parts a m))); [|done|by intros ? ? ? ->].
    rewrite decide_True by done. apply sort_strings_sorted.
Qed.
End reassign.

(** ** Owners and moved partitions *)

Definition disjoint_parts (a : Assignment) : Prop := forall m m' p, p ∈ parts a m -> p ∈ parts a m' -> m = m'.

Lemma owners_fold (l : list (string * list string)) (o : gmap string string) q :
  (forall c, (forall c' ps, (c', ps) ∈ l -> q ∈ ps -> c' = c) -> (exists ps, (c, ps) ∈ l /\ q ∈ ps) ->
    foldl (fun o cps => foldl (fun o p => <[p := cps.1]> o) o cps.2) o l !! q = Some c) /\
  ((forall c ps, (c, ps) ∈ l -> q ∉ ps) -> foldl (fun o cps => foldl (fun o p => <[p := cps.1]> o) o cps.2) o l !! q = o !! q).
Proof.
  assert (forall c ps (o : gmap string string), foldl (fun o p => <[p := c]> o) o ps !! q = if decide (q ∈ ps) then Some c else o !! q) as Hone.
  { intros c ps. induction ps as [|p ps IH] using rev_ind; intros o'; [done|]. rewrite foldl_snoc, lookup_insert, IH.
    destruct (decide (p = q)); subst; repeat case_decide; set_solver. }
  induction l as [|[c' ps'] l IH] using rev_ind; [split; [intros c _ (? & ?%elem_of_nil & _)|]; done|].
  destruct IH as [IH1 IH2]. rewrite foldl_snoc. simpl. rewrite Hone. split.
  - intros c Hu (ps & Hin & Hq). case_decide as Hq'; [f_equal; apply (Hu c' ps'); set_solver|].
    apply IH1; [intros c'' ps'' H; apply (Hu c'' ps''); set_solver|]. exists ps. split; [|done].
    apply elem_of_app in Hin as [?|[= -> ->]%list_elem_of_singleton]; done.
  - intros Hno. rewrite decide_False by (apply (Hno c'); set_solver). apply IH2. intros c ps H. apply (Hno c). set_solver.
Qed.

Lemma parts_Some a c ps : a !! c = Some ps -> parts a c = ps.
Proof. unfold parts. by intros ->. Qed.

Lemma owners_spec a p c : disjoint_parts a -> owners a !! p = Some c <-> p ∈ parts a c.
Proof.
  intros Hd. unfold owners, range_fold. destruct (owners_fold (map_to_list a) ∅ p) as [H1 H2].
  assert (forall c', p ∈ parts a c' -> exists ps, (c', ps) ∈ map_to_list a /\ p ∈ ps) as Hin.
  { intros c' Hp. unfold parts in Hp. destruct (a !! c') as [ps|] eqn:E; [|by apply elem_of_nil in Hp].
    exists ps. by rewrite elem_of_map_to_list. }
  assert (forall c' ps, (c', ps) ∈ map_to_list a -> p ∈ ps -> p ∈ parts a c') as Hout.
  { intros c' ps H%elem_of_map_to_list%parts_Some. by rewrite H. }
  split; [|intros Hp; apply H1; [|auto]; intros c' ps Hc Hp'; by eapply Hd; [eapply Hout|]].
  intros Ho. destruct (decide (Exists (fun cps => p ∈ cps.2) (map_to_list a))) as [Hex|Hno].
  - apply Exists_exists in Hex as ([c' ps] & Hc & Hp). simpl in Hp. pose proof (Hout c' ps Hc Hp) as Hp'.
    rewrite (H1 c') in Ho; [by simplify_eq| |eauto]. intros c'' ps' Hc' Hp''. by eapply Hd; [eapply Hout|].
  - rewrite H2 in Ho; [done|]. intros c' ps Hc Hp. apply Hno, Exists_exists. by exists (c', ps).
Qed.

Lemma range_fold_add {V} (P : string -> V -> Prop) `{!forall k v, Decision (P k v)} (s0 : gset string) (m : gmap string V) k :
  k ∈ range_fold (fun (s : gset string) k v => if decide (P k v) then {[k]} ∪ s else s) s0 m <->
  k ∈ s0 \/ exists v, m !! k = Some v /\ P k v.
Proof.
  unfold range_fold. transitivity (k ∈ s0 \/ exists v, (k, v) ∈ map_to_list m /\ P k v).
  2: { by setoid_rewrite elem_of_map_to_list. }
  induction (map_to_list m) as [|[k' v] l IH] using rev_ind; [simpl; set_solver|].
  rewrite foldl_snoc. simpl. case_decide as HP; [rewrite elem_of_union, elem_of_singleton|]; rewrite IH;
    setoid_rewrite elem_of_app; setoid_rewrite list_elem_of_singleton; naive_solver.
Qed.

(** The partitions of [a] that were their owner's before. *)
Definition kept (prev a : Assignment) (m : string) : Z := Z.of_nat (length (filter (fun p => p ∈ parts prev m) (parts a m))).

Lemma Moved_length prev a ms ps :
  NoDup ms -> EmptyString ∉ ms -> disjoint_parts prev -> disjoint_parts a -> NoDup ps -> assigned ms a ≡ₚ ps ->
  (forall m p, p ∈ parts a m -> m ∈ ms) ->
  Z.of_nat (length (Moved prev a)) =
    (Z.of_nat (size (dom (owners prev) ∖ list_to_set ps)) + Z.of_nat (length ps) - zsum (kept prev a) ms)%Z.
Proof.
  intros Hms Hne Hdp Hda Hps Hex Hin. unfold Moved. rewrite sort_strings_perm.
  set (mv := range_fold _ _ _). change (length (elements mv)) with (size mv).
  set (kp := mjoin ((fun m => filter (fun p => p ∈ parts prev m) (parts a m)) <$> ms)).
  assert (forall p, p ∈ kp <-> exists m, m ∈ ms /\ p ∈ parts prev m /\ p ∈ parts a m) as Hkp.
  { intros p. unfold kp. rewrite list_elem_of_join. setoid_rewrite list_elem_of_fmap. split.
    - intros (? & Hp & m & -> & Hm). apply list_elem_of_filter in Hp. naive_solver.
    - intros (m & ? & ? & ?). eexists. rewrite list_elem_of_filter. naive_solver. }
  assert (NoDup kp) as Hkn.
  { pose proof Hps as Hnd. rewrite <- Hex in Hnd. clear -Hnd. unfold kp, assigned in *.
    induction ms as [|m l IH]; [constructor|]. rewrite fmap_cons in *. simpl in *.
    apply NoDup_app in Hnd as (H1 & H2 & H3). apply NoDup_app. split_and!; [by apply NoDup_filter| |auto].
    intros x [_ Hx]%list_elem_of_filter (? & Hp & (m' & -> & Hm')%list_elem_of_fmap)%list_elem_of_join. apply (H2 x Hx).
    apply list_elem_of_filter in Hp as [_ ?]. apply list_elem_of_join. eexists; split; [done|]. apply list_elem_of_fmap. eauto. }
  assert (Z.of_nat (length kp) = zsum (kept prev a) ms) as Hlen.
  { unfold kp, kept. clear. induction ms as [|m l IH]; [done|]. rewrite fmap_cons. simpl. by rewrite length_app, Nat2Z.inj_add, IH. }
  assert (mv = (dom (owners prev) ∖ list_to_set ps) ∪ (list_to_set ps ∖ list_to_set kp)) as Emv.
  { apply set_eq. intros p. unfold mv.
    rewrite (range_fold_add (fun p (_ : string) => owners a !! p = None)).
    rewrite (range_fold_add (fun p no => default EmptyString (owners prev !! p) <> no)).
    rewrite elem_of_union, !elem_of_difference, !elem_of_list_to_set, Hkp, elem_of_dom, elem_of_empty, <- Hex, assigned_elem.
    assert (is_Some (owners a !! p) <-> exists m, m ∈ ms /\ p ∈ parts a m) as Hown.
    { split; [intros [c Hc%(owners_spec a p c Hda)]; eauto|]. intros (m & _ & Hm%(owners_spec a p m Hda)). by eexists. }
    rewrite <- Hown. clear Hown. destruct (owners a !! p) as [no|] eqn:Eo.
    2: { split; [intros [[[]|(? & ? & _)]|(v & Hv & _)]|intros [[[v Hv] _]|[[? ?] _]]]; try done.
         - left. split; [by eexists|by intros [??]].
         - right. eauto. }
    apply (owners_spec a p no Hda) in Eo. pose proof (Hin no p Eo) as Hno.
    assert (default EmptyString (owners prev !! p) <> no <-> ~ exists m, m ∈ ms /\ p ∈ parts prev m /\ p ∈ parts a m) as Hd.
    2: { rewrite <- Hd. split; [intros [[[]|(? & [= <-] & ?)]|(? & _ & ?)]|intros [[_ []]|[_ ?]]]; try done; eauto. }
    destruct (owners prev !! p) as [c|] eqn:Ep; simpl.
    - apply (owners_spec prev p c Hdp) in Ep. split; [|intros H ->; apply H; eauto].
      intros Hc (m & _ & H1 & H2). apply Hc. rewrite (Hdp c m p Ep H1). by eapply Hda.
    - split; [|intros _ <-; done]. intros _ (m & _ & Hm%(owners_spec prev p m Hdp) & _). congruence. }
  assert (kp ⊆ ps) as Hsub by (intros x Hx%Hkp; rewrite <- Hex, assigned_elem; naive_solver).
  assert (length kp <= length ps) by (by apply submseteq_length, NoDup_submseteq).
  rewrite Emv, size_union by set_solver. rewrite (size_difference (list_to_set ps)) by set_solver.
  rewrite !size_list_to_set by done. lia.
Qed.

(** ** Correctness of the reassignment *)

(** What the package promises of an assignment of [partitions] to [members]. *)
Record balanced_assignment (members partitions : list string) (a : Assignment) : Prop := {
  ba_members : dom a = list_to_set members;
  ba_exact p : p ∈ partitions <-> exists m, m ∈ members /\ p ∈ parts a m;
  ba_once m : NoDup (parts a m);
  ba_owner : disjoint_parts a;
  ba_loads m m' : m ∈ members -> m' ∈ members -> (load a m <= load a m' + 1)%Z;
}.

Section minimal.
Context (prev : Assignment) (members partitions : list string).
Context (Hmem : members <> []) (Hne : EmptyString ∉ members).
Open Scope Z_scope.
Implicit Types a : Assignment.

Notation ms := (sort_strings (snd (dedup members))).
Notation ps := (sort_strings (snd (dedup partitions))).
Notation K := (sticky prev members partitions).
Notation floor := (Z.of_nat (length ps) / Z.of_nat (length ms)).

Lemma parts_member a m p : dom a = list_to_set members -> p ∈ parts a m -> m ∈ ms.
Proof.
  intros Hd Hp. apply ms_elem. unfold parts in Hp. destruct (a !! m) eqn:E; [|by apply elem_of_nil in Hp].
  apply elem_of_dom_2 in E. rewrite Hd in E. by apply elem_of_list_to_set in E.
Qed.

Lemma balanced_assigned a : balanced_assignment members partitions a -> assigned ms a ≡ₚ ps.
Proof.
  intros [Hd Hex Ho Hdis _]. apply NoDup_Permutation; [by apply assigned_nodup; [apply ms_nodup|..]|apply ps_nodup|].
  intros p. rewrite assigned_elem, ps_elem, Hex. by setoid_rewrite ms_elem.
Qed.

Lemma balanced_loads a m :
  balanced_assignment members partitions a -> m ∈ ms -> floor <= load a m <= floor + 1.
Proof.
  intros Hb Hm. pose proof (balanced_assigned a Hb) as Hp. apply Permutation_length in Hp.
  pose proof (assigned_length ms a) as Hl. pose proof (ms_length members Hmem Hne) as Hn.
  assert (Z.of_nat (length ps) < (floor + 1) * Z.of_nat (length ms)) as Hup.
  { rewrite Z.mul_comm, Z.add_1_r. apply Z.mul_succ_div_gt. lia. }
  assert (floor * Z.of_nat (length ms) <= Z.of_nat (length ps)) by (rewrite Z.mul_comm; apply Z.mul_div_le; lia).
  assert (forall m', m' ∈ ms -> load a m <= load a m' + 1 /\ load a m' <= load a m + 1) as Hpm.
  { intros m' Hm'. rewrite ms_elem in Hm, Hm'. split; by apply (ba_loads _ _ _ Hb). }
  split; [destruct (decide (floor <= load a m))|destruct (decide (load a m <= floor + 1))]; try done; exfalso.
  - assert (zsum (load a) ms < zsum (fun _ => floor) ms) as Hlt; [|rewrite zsum_const in Hlt; lia].
    apply zsum_lt with m; [|done|lia]. intros m' Hm'. specialize (Hpm m' Hm'). lia.
  - assert (zsum (fun _ => floor + 1) ms < zsum (load a) ms) as Hlt; [|rewrite zsum_const in Hlt; lia].
    apply zsum_lt with m; [|done|lia]. intros m' Hm'. specialize (Hpm m' Hm'). lia.
Qed.

Lemma sticky_elem m p : disjoint_parts prev -> m ∈ ms -> p ∈ K m <-> p ∈ parts prev m /\ p ∈ partitions.
Proof.
  intros Hdis Hm. destruct (K_sticky_inv prev members partitions) as (owned & [Ho _ Hf Ha] & _).
  unfold sticky. cbn [fst snd] in *. rewrite <- Ho. destruct (dedup_spec partitions) as (E & _).
  rewrite E in *. setoid_rewrite elem_of_list_to_set in Hf. setoid_rewrite elem_of_list_to_set in Ha. split.
  - intros Hp. destruct (Hf p m Hp) as [? [[_ ?]|[_ []%elem_of_nil]]]. done.
  - intros [Hp Hv]. destruct (Ha p Hv (or_introl (ex_intro _ m (conj Hm Hp)))) as [c Hc].
    destruct (Hf p c Hc) as [_ [[_ Hp']|[_ []%elem_of_nil]]]. by rewrite (Hdis m c p).
Qed.

Lemma sticky_nodup m : NoDup (K m).
Proof. destruct (K_sticky_inv prev members partitions) as (owned & [_ Hn _ _] & _). apply Hn. Qed.

Lemma kept_le a m :
  disjoint_parts prev -> balanced_assignment members partitions a -> m ∈ ms ->
  kept prev a m <= Z.min (Z.of_nat (length (K m))) (load a m).
Proof.
  intros Hdis Hb Hm. unfold kept, load. apply Z.min_glb.
  - apply Nat2Z.inj_le, submseteq_length, NoDup_submseteq; [apply NoDup_filter, Hb|].
    intros p [Hp Hpa]%list_elem_of_filter. apply sticky_elem; [done..|]. split; [done|].
    apply (ba_exact _ _ _ Hb). exists m. by rewrite <- ms_elem.
  - apply Nat2Z.inj_le, length_filter.
Qed.

Lemma kept_ge a ceil m :
  disjoint_parts prev -> settling ms K floor ceil a -> m ∈ ms ->
  Z.min (Z.of_nat (length (K m))) (load a m) <= kept prev a m.
Proof.
  intros Hdis [_ Hsp _ _] Hm. unfold kept, load. destruct (Hsp m Hm) as [Hs|[Hs _]].
  - etransitivity; [apply Z.le_min_l|]. apply Nat2Z.inj_le, submseteq_length, NoDup_submseteq; [apply sticky_nodup|].
    intros p Hp. apply list_elem_of_filter. split; [by apply sticky_elem in Hp as [? _]|auto].
  - etransitivity; [apply Z.le_min_r|]. apply Nat2Z.inj_le.
    assert (forall l : list string, l ⊆ parts prev m -> (length l <= length (filter (fun p => p ∈ parts prev m) l))%nat) as H.
    { induction l as [|x l IH]; intros Hl; [done|]. rewrite filter_cons, decide_True by set_solver. simpl.
      apply le_n_S, IH. set_solver. }
    apply H. intros p Hp. by apply Hs, sticky_elem in Hp as [? _].
Qed.

Lemma balanced_ceil a m :
  balanced_assignment members partitions a -> m ∈ ms ->
  load a m <= if decide (0 < Z.of_nat (length ps) mod Z.of_nat (length ms)) then floor + 1 else floor.
Proof.
  intros Hb Hm. pose proof (balanced_loads a m Hb Hm) as Hl. case_decide as Hr; [lia|].
  destruct (decide (load a m <= floor)) as [|Hgt]; [done|exfalso].
  pose proof (ms_length members Hmem Hne) as Hn. pose proof (assigned_length ms a) as Hlen.
  pose proof (Permutation_length (balanced_assigned a Hb)) as Hp.
  pose proof (Z.div_mod (Z.of_nat (length ps)) (Z.of_nat (length ms)) ltac:(lia)).
  pose proof (Z.mod_pos_bound (Z.of_nat (length ps)) (Z.of_nat (length ms)) ltac:(lia)).
  assert (zsum (fun _ => floor) ms < zsum (load a) ms) as Hlt; [|rewrite zsum_const in Hlt; lia].
  apply zsum_lt with m; [|done|lia]. intros m' Hm'. apply (balanced_loads a m' Hb Hm').
Qed.

(** The exchange argument: no other balanced loads keep more. *)
Lemma settled_keeps_most a other ceil :
  settling ms K floor ceil a -> (forall m, m ∈ ms -> floor <= load a m) -> ceil <= floor + 1 ->
  (forall m, m ∈ ms -> floor <= load other m <= ceil) -> zsum (load a) ms = zsum (load other) ms ->
  zsum (fun m => Z.min (Z.of_nat (length (K m))) (load other m)) ms <=
  zsum (fun m => Z.min (Z.of_nat (length (K m))) (load a m)) ms.
Proof.
  intros [Ht _ _ Hmn] Hlo Hc Hoth Hsum.
  destruct (decide (Exists (fun x => load a x < Z.of_nat (length (K x)) /\ load a x < ceil) ms)) as [Hx|Hx].
  - apply Exists_exists in Hx as (x & Hxm & Hxk & Hxc).
    assert (zsum (fun m => Z.min (Z.of_nat (length (K m))) (load other m) + load a m) ms <=
            zsum (fun m => Z.min (Z.of_nat (length (K m))) (load a m) + load other m) ms) as Hle.
    2: { rewrite (zsum_add _ (load a)), (zsum_add _ (load other)) in Hle. lia. }
    apply zsum_le. intros m Hm. specialize (Hlo m Hm). specialize (Hoth m Hm). specialize (Ht m Hm).
    destruct (decide (Z.of_nat (length (K m)) < load a m /\ floor < load a m)) as [Hr|]; [|lia].
    exfalso. apply (Hmn x m Hxm Hxk Hxc). by split_and!; [|apply Hr..].
  - apply zsum_le. intros m Hm. specialize (Hlo m Hm). specialize (Hoth m Hm). specialize (Ht m Hm).
    destruct (decide (load a m < Z.of_nat (length (K m)) /\ load a m < ceil)) as [Hr|]; [exfalso; apply Hx, Exists_exists; eauto|].
    lia.
Qed.

Lemma Reassign_balanced next :
  dom next = list_to_set members -> assigned ms next ≡ₚ ps -> (forall m, m ∈ ms -> floor <= load next m) ->
  (forall m, m ∈ ms -> load next m <= floor + 1) -> balanced_assignment members partitions next.
Proof.
  intros Hd Hp Hlo Hhi. assert (NoDup (assigned ms next)) as Hnd by (rewrite Hp; apply ps_nodup). split; [done|..].
  - intros p. rewrite <- ps_elem, <- Hp, assigned_elem. by setoid_rewrite ms_elem.
  - intros m. destruct (decide (m ∈ ms)) as [Hm|Hm]; [by eapply assigned_nodup_parts|].
    unfold parts. destruct (next !! m) eqn:E; [|constructor]. apply elem_of_dom_2 in E.
    rewrite Hd, elem_of_list_to_set, <- ms_elem in E. done.
  - intros m m' p H1 H2. eapply (assigned_disjoint ms); [apply ms_nodup|exact Hnd|..|exact H1|exact H2]; by eapply parts_member.
  - intros m m' Hm%ms_elem Hm'%ms_elem. specialize (Hlo m' Hm'). specialize (Hhi m Hm). lia.
Qed.
End minimal.

(** C19: For a group of at least one member, none of them the empty string,
    [Reassign] ends, whatever the previous assignment, in an assignment to
    exactly the members that places every partition exactly once, with loads
    within one of each other.  If the previous assignment gave no partition to
    two consumers, no such assignment of the partitions moves fewer partitions
    than the one returned. *)
Theorem rebalance_balanced_minimal (prev : Assignment) (members partitions : list string) :
  members <> [] -> EmptyString ∉ members ->
  exists next, Reassign prev members partitions = Some next /\ balanced_assignment members partitions next /\
    (disjoint_parts prev -> forall other, balanced_assignment members partitions other ->
      length (Moved prev next) <= length (Moved prev other)).
Proof.
  intros Hmem Hne. destruct (Reassign_settles prev members partitions Hmem Hne) as (next & E & Hd & Hp & Hs & Hlo & _).
  destruct (quota members partitions Hmem Hne) as (_ & [_ Hc] & _).
  exists next. split; [done|].
  assert (balanced_assignment members partitions next) as Hb.
  { apply Reassign_balanced; try done. intros m Hm. pose proof (s_top _ _ _ _ _ Hs m Hm). lia. }
  split; [done|]. intros Hdis other Ho.
  assert (EmptyString ∉ sort_strings (dedup members).2) as Hne' by (by rewrite ms_elem).
  apply Nat2Z.inj_le. pose proof (balanced_assigned members partitions other Ho) as Hpo.
  rewrite (Moved_length prev next _ _ (ms_nodup members) Hne' Hdis (ba_owner _ _ _ Hb) (ps_nodup partitions) Hp)
    by (intros; by eapply parts_member; [apply Hb|]).
  rewrite (Moved_length prev other _ _ (ms_nodup members) Hne' Hdis (ba_owner _ _ _ Ho) (ps_nodup partitions) Hpo)
    by (intros; by eapply parts_member; [apply Ho|]).
  pose proof (settled_keeps_most prev members partitions next other _ Hs Hlo Hc) as Hmost.
  assert (forall m, m ∈ sort_strings (dedup members).2 -> kept prev other m <= Z.min (Z.of_nat (length (sticky prev members partitions m))) (load other m))%Z
    as Hk1%zsum_le by (intros; by apply kept_le).
  assert (forall m, m ∈ sort_strings (dedup members).2 -> Z.min (Z.of_nat (length (sticky prev members partitions m))) (load next m) <= kept prev next m)%Z
    as Hk2%zsum_le by (intros; by eapply kept_ge).
  assert (zsum (load next) (sort_strings (dedup members).2) = zsum (load other) (sort_strings (dedup members).2)) as Hsum.
  { by rewrite <- !assigned_length, Hp, Hpo. }
  specialize (Hmost (fun m Hm => conj (proj1 (balanced_loads members partitions Hmem Hne other m Ho Hm))
    (balanced_ceil members partitions Hmem Hne other m Ho Hm)) Hsum). lia.
Qed.

(** A consumer that joins a group of one. *)
Definition demo_prev : Assignment := {["a" := ["p1"; "p2"; "p3"; "p4"]]}.
Definition demo_next : Assignment := {["a" := ["p1"; "p2"]; "b" := ["p3"; "p4"]]}.

Lemma demo_reassign : Reassign demo_prev ["b"; "a"] ["p1"; "p2"; "p3"; "p4"] = Some demo_next.
Proof. by_eval. Qed.

Lemma rebalance_balanced_minimal_witness :
  balanced_assignment ["b"; "a"] ["p1"; "p2"; "p3"; "p4"] demo_next.
Proof.
  destruct (rebalance_balanced_minimal demo_prev ["b"; "a"] ["p1"; "p2"; "p3"; "p4"]) as (next & E & H & _).
  - discriminate.
  - intros H. repeat (apply elem_of_cons in H as [H|H]; [discriminate H|]). by apply elem_of_nil in H.
  - rewrite demo_reassign in E. injection E as <-. exact H.
Defined.

(** A member whose identifier is empty is never relieved: the searches use the
    empty string for "none found". *)
Lemma rebalance_empty_id :
  Reassign {[EmptyString := ["p1"; "p2"; "p3"]]} [EmptyString; "b"] ["p1"; "p2"; "p3"] =
    Some {[EmptyString := ["p1"; "p2"; "p3"]; "b" := []]}.
Proof. by_eval. Qed.
