(* ===== verification/AntiEntropy.v ===== *)
(** * Anti-entropy repair (pkg/antientropy/antientropy.go)

    A coordinator writes to every replica that is up, keeps a hint for each
    one that is down, replays the hints when the replica is back and repairs
    stale replicas on reads.  Replicas are objects of a heap, because the
    coordinator and its clients hold pointers to them; a history is a sequence
    of calls.

    The main theorem says that a replica without pending hints holds, for every
    key, the newest of all the writes of the history, whatever the outages and
    the order of the calls, and that a read answers with it. *)
From stdpp Require Import base gmap sets list strings sorting.
From Stdlib Require Import ZArith Lia.
From S2P Require Import Prelude.

Record VersionedValue := mkVV { Value : string; Version : Z }.

#[global] Instance VersionedValue_eq : EqDecision VersionedValue.
Proof. solve_decision. Defined.

Definition newer (v other : VersionedValue) : bool :=
  if decide (Version v <> Version other) then bool_decide (Version other < Version v)%Z
  else bool_decide (slt (Value other) (Value v)).

Record Replica := mkReplica { ID : string; up : bool; store : gmap string VersionedValue }.

Definition NewReplica (id : string) : Replica := mkReplica id true ∅.

(** The store after [apply], and whether it changed. *)
Definition apply (r : Replica) (key : string) (vv : VersionedValue) : Replica * bool :=
  match store r !! key with
  | Some cur => if newer vv cur then (mkReplica (ID r) (up r) (<[key := vv]> (store r)), true) else (r, false)
  | None => (mkReplica (ID r) (up r) (<[key := vv]> (store r)), true)
  end.

Definition Snapshot (r : Replica) : gmap string string :=
  range_fold (fun out k vv => <[k := Value vv]> out) ∅ (store r).

(** A hint is the key and the value of a missed write. *)
Notation hint := (string * VersionedValue)%type.

(** The replicas a coordinator fronts are pointers into the heap of replicas. *)
Record Coordinator := mkCoordinator { replicas : list nat; hints : gmap string (list hint) }.

Definition NewCoordinator (replicas : list nat) : Coordinator := mkCoordinator replicas ∅.

Record State := mkState { heap : gmap nat Replica; coord : Coordinator }.

(** Running a method on the object behind a pointer; the pointers of the model
    are never nil. *)
Definition update (p : nat) (f : Replica -> Replica) (s : State) : State :=
  mkState (alter f p (heap s)) (coord s).

Definition hints_of (c : Coordinator) (id : string) : list hint := default [] (hints c !! id).

Definition PendingHints (c : Coordinator) (id : string) : nat := length (hints_of c id).

(** One iteration of [Write]: the pair is the state and the count of replicas
    that took the write. *)
Definition write_one (key : string) (vv : VersionedValue) (st : State * nat) (p : nat) : State * nat :=
  let '(s, applied) := st in
  match heap s !! p with
  | None => st
  | Some r =>
      if up r then (update p (fun r => (apply r key vv).1) s, S applied)
      else (mkState (heap s) (mkCoordinator (replicas (coord s))
              (<[ID r := hints_of (coord s) (ID r) ++ [(key, vv)]]> (hints (coord s)))), applied)
  end.

Definition Write (s : State) (key value : string) (version : Z) : State * nat :=
  foldl (write_one key (mkVV value version)) (s, 0) (replicas (coord s)).

Definition replayHints (s : State) (p : nat) : State * nat :=
  match heap s !! p with
  | None => (s, 0)
  | Some r =>
      if up r then
        let pending := hints_of (coord s) (ID r) in
        let s' := foldl (fun s h => update p (fun r => (apply r h.1 h.2).1) s) s pending in
        (mkState (heap s') (mkCoordinator (replicas (coord s')) (delete (ID r) (hints (coord s')))), length pending)
      else (s, 0)
  end.

Definition SetUp (s : State) (p : nat) (b : bool) : State :=
  update p (fun r => mkReplica (ID r) b (store r)) s.

Record ReadResult := mkReadResult { rr_Value : string; rr_Version : Z; Found : bool; Repaired : list string }.

(** First pass of [Read]: the newest value among the replicas that are up. *)
Definition find_best (s : State) (key : string) : option VersionedValue :=
  foldl (fun best p =>
    match heap s !! p with
    | Some r => if up r then match store r !! key with
                  | Some vv => match best with
                                | Some b => if newer vv b then Some vv else best
                                | None => Some vv
                                end
                  | None => best
                  end else best
    | None => best
    end) None (replicas (coord s)).

(** Second pass: write it back, collecting the identifiers repaired. *)
Definition repair_one (key : string) (best : VersionedValue) (st : State * list string) (p : nat) : State * list string :=
  let '(s, repaired) := st in
  match heap s !! p with
  | Some r => if up r then
                let '(r', changed) := apply r key best in
                (update p (fun _ => r') s, if changed : bool then repaired ++ [ID r] else repaired)
              else st
  | None => st
  end.

Definition Read (s : State) (key : string) : State * ReadResult :=
  match find_best s key with
  | None => (s, mkReadResult EmptyString 0 false [])
  | Some best =>
      let '(s', repaired) := foldl (repair_one key best) (s, []) (replicas (coord s)) in
      (s', mkReadResult (Value best) (Version best) true (sort_strings repaired))
  end.

(** ** The order of versioned values *)

Lemma newer_irrefl v : newer v v = false.
Proof. unfold newer. rewrite decide_False by auto. apply bool_decide_eq_false. intros H. by apply (irreflexivity slt _ H). Qed.

Lemma newer_total v w : v <> w -> newer v w = negb (newer w v).
Proof.
  intros Hne. destruct v as [a m], w as [b n]. unfold newer. simpl. destruct (decide (m = n)) as [->|Hmn].
  - rewrite !decide_False by auto. destruct (slt_trichotomy a b) as [H|[->|H]]; [|done|].
    + rewrite bool_decide_eq_false_2 by eauto using slt_asym. by rewrite bool_decide_eq_true_2.
    + rewrite bool_decide_eq_true_2 by done. rewrite bool_decide_eq_false_2; [done|]. eauto using slt_asym.
  - rewrite !decide_True by auto. repeat case_bool_decide; try done; lia.
Qed.

Lemma newer_trans u v w : newer u v = true -> newer v w = true -> newer u w = true.
Proof.
  unfold newer. destruct u as [a l], v as [b m], w as [c n]; simpl.
  assert (forall (x y : Z) (P Q : bool), (if decide (x <> y) then P else Q) = if decide (x = y) then Q else P) as Hd.
  { intros x y P Q. destruct (decide (x = y)) as [->|]; [rewrite decide_False|rewrite decide_True]; auto. }
  rewrite !Hd. repeat case_decide; subst; rewrite ?bool_decide_eq_true; try lia. by transitivity b.
Qed.

(** Applying a write to a store. *)
Definition absorb (st : gmap string VersionedValue) (h : hint) : gmap string VersionedValue :=
  match st !! h.1 with
  | Some cur => if newer h.2 cur then <[h.1 := h.2]> st else st
  | None => <[h.1 := h.2]> st
  end.

(** The effect on one slot. *)
Definition join (o : option VersionedValue) (v : VersionedValue) : option VersionedValue :=
  match o with Some c => if newer v c then Some v else Some c | None => Some v end.

Lemma absorb_lookup st h k : absorb st h !! k = if decide (h.1 = k) then join (st !! k) h.2 else st !! k.
Proof.
  unfold absorb. case_decide as Hk; [subst k|].
  - destruct (st !! h.1) as [c|] eqn:E; simpl; [destruct (newer h.2 c)|]; by rewrite ?lookup_insert_eq.
  - destruct (st !! h.1) as [c|]; [destruct (newer h.2 c)|]; by rewrite ?lookup_insert_ne.
Qed.

Lemma join_comm o v w : join (join o v) w = join (join o w) v.
Proof.
  destruct (decide (v = w)) as [->|Hvw]; [done|]. pose proof (newer_total v w Hvw) as Hn.
  destruct o as [c|]; simpl.
  - destruct (newer v c) eqn:E1, (newer w c) eqn:E2; simpl; rewrite ?E1, ?E2; try done.
    + rewrite Hn. by destruct (newer w v).
    + destruct (newer w v) eqn:E3; [|done]. by rewrite (newer_trans w v c E3 E1) in E2.
    + rewrite Hn. destruct (newer w v) eqn:E3; simpl; [done|]. simpl in Hn. by rewrite (newer_trans v w c Hn E2) in E1.
  - rewrite Hn. by destruct (newer w v).
Qed.

Lemma join_idem o v : join (join o v) v = join o v.
Proof. destruct o as [c|]; simpl; [destruct (newer v c) eqn:E; simpl|]; by rewrite ?newer_irrefl, ?E. Qed.

#[global] Instance absorb_convergent : Convergent (=) (fun _ => True) (fun _ => True) absorb.
Proof.
  split; [apply _|by intros ? ? ? ->|done|..].
  - intros st h h' _ _ _. apply map_eq. intros k. rewrite !absorb_lookup. repeat case_decide; subst; auto using join_comm.
  - intros st h _ _. apply map_eq. intros k. rewrite !absorb_lookup. case_decide; auto using join_idem.
Qed.

(** [o] is the newest of the writes [ws] to [k]. *)
Definition newest (ws : list hint) (k : string) (o : option VersionedValue) : Prop :=
  match o with
  | Some v => (k, v) ∈ ws /\ forall v', (k, v') ∈ ws -> newer v' v = false
  | None => forall v, (k, v) ∉ ws
  end.

Lemma absorb_newest ws k : newest ws k (foldl absorb ∅ ws !! k).
Proof.
  induction ws as [|[k' v] ws IH] using rev_ind; [simpl; rewrite lookup_empty; intros v; by apply not_elem_of_nil|].
  rewrite foldl_snoc, absorb_lookup. simpl. case_decide as Hk; [subst k'|].
  - destruct (foldl absorb ∅ ws !! k) as [c|]; simpl in *.
    + destruct IH as [Hin Hmax]. destruct (newer v c) eqn:E; simpl; setoid_rewrite elem_of_app; setoid_rewrite list_elem_of_singleton.
      * split; [by right|]. intros v' [Hv'|[= ->]]; [|apply newer_irrefl]. specialize (Hmax v' Hv').
        destruct (newer v' v) eqn:E'; [|done]. by rewrite (newer_trans v' v c E' E) in Hmax.
      * split; [by left|]. intros v' [Hv'|[= ->]]; auto.
    + setoid_rewrite elem_of_app. setoid_rewrite list_elem_of_singleton. split; [by right|].
      intros v' [Hv'|[= ->]]; [by apply IH in Hv'|apply newer_irrefl].
  - destruct (foldl absorb ∅ ws !! k) as [c|]; simpl in *; setoid_rewrite elem_of_app; setoid_rewrite list_elem_of_singleton; naive_solver.
Qed.

Lemma newest_unique ws k o o' : newest ws k o -> newest ws k o' -> o = o'.
Proof.
  destruct o as [v|], o' as [v'|]; simpl; try naive_solver. intros [H1 H2] [H3 H4].
  destruct (decide (v = v')) as [->|Hne]; [done|]. pose proof (newer_total v v' Hne). specialize (H2 v' H3). specialize (H4 v H1).
  by rewrite H4, H2 in H.
Qed.

Lemma apply_absorb r k v : (apply r k v).1 = mkReplica (ID r) (up r) (absorb (store r) (k, v)).
Proof. destruct r as [i u st]. unfold apply, absorb. simpl. destruct (st !! k) as [c|]; [destruct (newer v c)|]; done. Qed.

(** ** Histories *)

Inductive call :=
  | CWrite (key value : string) (version : Z)
  | CReplay (p : nat)
  | CSetUp (p : nat) (b : bool)
  | CRead (key : string).

Definition do_call (s : State) (c : call) : State :=
  match c with
  | CWrite key value version => (Write s key value version).1
  | CReplay p => (replayHints s p).1
  | CSetUp p b => SetUp s p b
  | CRead key => (Read s key).1
  end.

Definition run (s : State) (cs : list call) : State := foldl do_call s cs.

(** The writes of a history. *)
Definition writes (cs : list call) : list hint :=
  omap (fun c => match c with CWrite key value version => Some (key, mkVV value version) | _ => None end) cs.

Section history.
Context (ps : list nat) (id : nat -> string) (Hid : forall p q, p ∈ ps -> q ∈ ps -> id p = id q -> p = q).
Implicit Types (s : State) (W : nat -> hint -> Prop) (ws : list hint).

(** Replica [p] has absorbed some writes and has hints for others; together
    they are [W p]. *)
Definition replica_ok s p (W : hint -> Prop) : Prop :=
  exists r seen, heap s !! p = Some r /\ ID r = id p /\ store r = foldl absorb ∅ seen /\
    forall h, h ∈ seen \/ h ∈ hints_of (coord s) (id p) <-> W h.

Definition inv W s : Prop := replicas (coord s) = ps /\ forall p, p ∈ ps -> replica_ok s p (W p).

Lemma replica_ok_proper s p (W W' : hint -> Prop) : (forall h, W h <-> W' h) -> replica_ok s p W -> replica_ok s p W'.
Proof. intros HW (r & seen & ? & ? & ? & H). exists r, seen. split_and!; [done..|]. intros h. by rewrite <- HW. Qed.

(** Changing the replica behind one pointer. *)
Lemma update_other s p q f V : p <> q -> replica_ok s q V -> replica_ok (update p f s) q V.
Proof. intros Hpq (r & seen & E & H). exists r, seen. split; [|done]. simpl. by rewrite lookup_alter_ne. Qed.

Lemma update_absorb s p (h : hint) V :
  replica_ok s p V -> replica_ok (update p (fun r => (apply r h.1 h.2).1) s) p (fun h' => V h' \/ h' = h).
Proof.
  intros (r & seen & E & Hi & Hs & HW). exists ((apply r h.1 h.2).1), (seen ++ [h]). simpl.
  rewrite lookup_alter_eq, E. simpl. rewrite apply_absorb, foldl_snoc, <- Hs, <- surjective_pairing. split_and!; [done..|].
  intros h'. rewrite <- HW, elem_of_app, list_elem_of_singleton. tauto.
Qed.

Lemma inv_update_absorb W s p (h : hint) :
  inv W s -> p ∈ ps -> inv (fun q h' => W q h' \/ (q = p /\ h' = h)) (update p (fun r => (apply r h.1 h.2).1) s).
Proof.
  intros [Hp Hok] Hpp. split; [done|]. intros q Hq. destruct (decide (p = q)) as [<-|Hne].
  - eapply replica_ok_proper; [|by apply update_absorb, Hok]. naive_solver.
  - eapply replica_ok_proper; [|by apply update_other, Hok]. naive_solver.
Qed.

Lemma inv_proper W W' s : (forall p h, p ∈ ps -> W p h <-> W' p h) -> inv W s -> inv W' s.
Proof. intros HW [? Hok]. split; [done|]. intros p Hp. eapply replica_ok_proper; [|by apply Hok]. auto. Qed.

Lemma write_one_inv W s n k v p :
  inv W s -> p ∈ ps -> inv (fun q h => W q h \/ (q = p /\ h = (k, v))) (write_one k v (s, n) p).1.
Proof.
  intros Hinv Hp. pose proof Hinv as [Hps Hok]. destruct (Hok p Hp) as (r & seen & E & Hi & Hs & HW).
  unfold write_one. rewrite E. destruct (up r); [by apply (inv_update_absorb W s p (k, v))|]. split; [done|].
  intros q Hq. simpl. rewrite Hi. destruct (Hok q Hq) as (r' & seen' & E' & Hi' & Hs' & HW').
  exists r', seen'. split_and!; [done..|]. intros h. unfold hints_of at 1. simpl. destruct (decide (p = q)) as [<-|Hne].
  - rewrite lookup_insert_eq. simpl. rewrite elem_of_app, list_elem_of_singleton, <- HW'. tauto.
  - rewrite lookup_insert_ne by (intros Heq; by apply Hne, Hid). rewrite (HW' h). naive_solver.
Qed.

Lemma write_fold_inv l k v W s c :
  l ⊆ ps -> inv W s -> inv (fun q h => W q h \/ (q ∈ l /\ h = (k, v))) (foldl (write_one k v) (s, c) l).1.
Proof.
  revert W s c. induction l as [|p l IH]; intros W s c Hl Hinv.
  { eapply inv_proper; [|exact Hinv]. simpl. intros q h _. rewrite elem_of_nil. tauto. }
  cbn [foldl]. pose proof (write_one_inv W s c k v p Hinv ltac:(set_solver)) as Hone.
  destruct (write_one k v (s, c) p) as [s' c'].
  eapply inv_proper; [|apply IH; [set_solver|exact Hone]]. simpl. intros q h _. rewrite elem_of_cons. tauto.
Qed.

Lemma Write_inv W s k v n : inv W s -> inv (fun q h => W q h \/ h = (k, mkVV v n)) (Write s k v n).1.
Proof.
  intros Hinv. unfold Write. rewrite (proj1 Hinv). eapply inv_proper; [|by apply write_fold_inv].
  simpl. intros q h Hq. tauto.
Qed.

Lemma replay_fold_inv W s p (l : list hint) :
  inv W s -> p ∈ ps -> let s' := foldl (fun s h => update p (fun r => (apply r h.1 h.2).1) s) s l in
  inv (fun q h => W q h \/ (q = p /\ h ∈ l)) s' /\ coord s' = coord s /\
  exists r seen, heap s' !! p = Some r /\ ID r = id p /\ store r = foldl absorb ∅ seen /\ (forall h, h ∈ l -> h ∈ seen) /\
    (forall h, h ∈ seen \/ h ∈ hints_of (coord s) (id p) <-> W p h \/ h ∈ l).
Proof.
  intros Hinv Hp. induction l as [|h l IH] using rev_ind.
  - simpl. split_and!; [eapply inv_proper; [|exact Hinv]; simpl; intros q h _; rewrite elem_of_nil; tauto|done|].
    destruct (proj2 Hinv p Hp) as (r & seen & ? & ? & ? & H). exists r, seen. split_and!; try done.
    + by intros h ?%elem_of_nil.
    + intros h. rewrite H, elem_of_nil. tauto.
  - rewrite foldl_snoc. destruct IH as (H1 & H2 & r & seen & E & Hi & Hs & Hl & HW). cbv zeta. split_and!.
    + eapply inv_proper; [|by apply inv_update_absorb]. simpl. intros q h' _. rewrite elem_of_app, list_elem_of_singleton. tauto.
    + done.
    + exists ((apply r h.1 h.2).1), (seen ++ [h]). simpl.
      rewrite lookup_alter_eq, E. simpl. rewrite apply_absorb, foldl_snoc, <- Hs, <- surjective_pairing. split_and!; [done..| |].
      * intros h'. rewrite !elem_of_app, list_elem_of_singleton. naive_solver.
      * intros h'. rewrite !elem_of_app, list_elem_of_singleton. specialize (HW h'). tauto.
Qed.

Lemma replayHints_inv W s p : inv W s -> p ∈ ps -> inv W (replayHints s p).1.
Proof.
  intros Hinv Hp. pose proof (proj2 Hinv p Hp) as (r & seen & E & Hi & Hs & HW). unfold replayHints. rewrite E.
  destruct (up r); [|done]. rewrite Hi. set (l := hints_of (coord s) (id p)).
  destruct (replay_fold_inv W s p l Hinv Hp) as ([Hps Hok] & Hc & r' & seen' & E' & Hi' & Hs' & Hl & HW').
  set (s' := foldl _ s l) in *. split; [by simpl; rewrite Hps|]. intros q Hq. simpl. destruct (decide (p = q)) as [<-|Hne].
  - exists r', seen'. split_and!; [done..|]. intros h. unfold hints_of. simpl. rewrite lookup_delete_eq. simpl.
    rewrite elem_of_nil. specialize (HW' h). fold l in HW, HW'. specialize (HW h). specialize (Hl h). naive_solver.
  - destruct (Hok q Hq) as (r'' & seen'' & E'' & Hi'' & Hs'' & HW''). exists r'', seen''. split_and!; [done..|].
    intros h. unfold hints_of. simpl. rewrite lookup_delete_ne by (intros Heq; by apply Hne, Hid).
    specialize (HW'' h). unfold hints_of in HW''. naive_solver.
Qed.

Lemma SetUp_inv W s p b : inv W s -> inv W (SetUp s p b).
Proof.
  intros [Hps Hok]. split; [done|]. intros q Hq. destruct (decide (p = q)) as [<-|Hne]; [|by apply update_other, Hok].
  destruct (Hok p Hq) as (r & seen & E & H). exists (mkReplica (ID r) b (store r)), seen. simpl.
  by rewrite lookup_alter_eq, E.
Qed.

(** *** Reads *)

(** The values of [k] on the replicas that are up. *)
Definition slots s k : list VersionedValue :=
  omap (fun p => r ← heap s !! p; if up r then store r !! k else None) (replicas (coord s)).

Lemma find_best_newest s k : newest (pair k <$> slots s k) k (find_best s k).
Proof.
  assert (forall l, foldl absorb ∅ (pair k <$> l) !! k = foldl join None l) as Hj.
  { induction l as [|v l IH] using rev_ind; [done|]. rewrite fmap_app, !foldl_app. simpl. rewrite absorb_lookup, IH. by case_decide. }
  assert (find_best s k = foldl join None (slots s k)) as ->; [|rewrite <- Hj; apply absorb_newest].
  unfold find_best, slots. induction (replicas (coord s)) as [|p l IH] using rev_ind; [done|].
  rewrite omap_app, !foldl_app, IH. simpl. destruct (heap s !! p) as [r|]; simpl; [|done].
  destruct (up r); [|done]. destruct (store r !! k); [|done]. simpl. by destruct (foldl join None _).
Qed.

Lemma slots_elem s k v :
  v ∈ slots s k <-> exists p r, p ∈ replicas (coord s) /\ heap s !! p = Some r /\ up r = true /\ store r !! k = Some v.
Proof.
  unfold slots. rewrite list_elem_of_omap. split.
  - intros (p & Hp & (r & E & Hr)%bind_Some). destruct (up r) eqn:Hu; [|done]. naive_solver.
  - intros (p & r & Hp & E & Hu & Hv). exists p. split; [done|]. rewrite E. simpl. by rewrite Hu.
Qed.

(** Every value found on a replica is one of the writes. *)
Lemma slot_written ws s p r k v :
  inv (fun _ h => h ∈ ws) s -> p ∈ ps -> heap s !! p = Some r -> store r !! k = Some v -> (k, v) ∈ ws.
Proof.
  intros [_ Hok] Hp E Hv. destruct (Hok p Hp) as (r' & seen & E' & _ & Hs & HW). rewrite E in E'. simplify_eq.
  rewrite Hs in Hv. apply (HW (k, v)). left. pose proof (absorb_newest seen k) as Hn. rewrite Hv in Hn. apply Hn.
Qed.

Lemma repair_one_update k best s rep p :
  exists rep',
    ((exists r, heap s !! p = Some r /\ up r = true) /\ repair_one k best (s, rep) p = (update p (fun r => (apply r k best).1) s, rep')) \/
    (~ (exists r, heap s !! p = Some r /\ up r = true) /\ repair_one k best (s, rep) p = (s, rep')).
Proof.
  unfold repair_one. destruct (heap s !! p) as [r|] eqn:E; [destruct (up r) eqn:Hu|].
  - destruct (apply r k best) as [r' ch] eqn:Ea. eexists. left. split; [eauto|]. f_equal. unfold update. f_equal.
    apply map_eq. intros q. rewrite !lookup_alter. case_decide; [subst q|done]. rewrite E. simpl. by rewrite Ea.
  - eexists. right. split; [|done]. intros (r' & [= <-] & ?). congruence.
  - eexists. right. split; [|done]. by intros (r' & ? & _).
Qed.

(** The second pass keeps the invariant, keeps flags and identifiers, and
    brings the replicas it visits to [best] when nothing is newer. *)
Lemma repair_fold ws k best l s rep :
  inv (fun _ h => h ∈ ws) s -> (k, best) ∈ ws -> l ⊆ ps ->
  (forall p r v, p ∈ ps -> heap s !! p = Some r -> up r = true -> store r !! k = Some v -> newer v best = false) ->
  let s' := (foldl (repair_one k best) (s, rep) l).1 in
  inv (fun _ h => h ∈ ws) s' /\
  forall p r', p ∈ ps -> heap s' !! p = Some r' -> exists r, heap s !! p = Some r /\ up r' = up r /\
    (p ∈ l -> up r = true -> store r' !! k = Some best) /\ (p ∉ l -> r' = r).
Proof.
  intros Hinv Hws. revert s rep Hinv. induction l as [|q l IH]; intros s rep Hinv Hl Hmax; cbv zeta.
  { split; [done|]. intros p r Hp E. exists r. split_and!; [done..| |done]. by intros ?%elem_of_nil. }
  cbn [foldl]. destruct (repair_one_update k best s rep q) as [rep' [[Hq ->]|[Hq ->]]].
  2: { destruct (IH s rep' Hinv ltac:(set_solver) Hmax) as [H1 H2]. split; [done|]. intros p r' Hp E.
       destruct (H2 p r' Hp E) as (r & Er & Hu & Hin & Hout). exists r. split_and!; [done..| |].
       - intros [->|?]%elem_of_cons Hup; [|auto]. exfalso. apply Hq. eauto.
       - intros Hn. apply Hout. set_solver. }
  destruct Hq as (rq & Eq & Huq). set (s1 := update q (fun r => (apply r k best).1) s).
  assert (inv (fun _ h => h ∈ ws) s1) as Hinv1.
  { eapply inv_proper; [|apply (inv_update_absorb (fun _ h => h ∈ ws) s q (k, best)); [done|set_solver]]. simpl. naive_solver. }
  assert (heap s1 !! q = Some (apply rq k best).1) as Eq1 by (simpl; by rewrite lookup_alter_eq, Eq).
  assert (forall p, p <> q -> heap s1 !! p = heap s !! p) as Hoth by (intros p ?; simpl; by rewrite lookup_alter_ne).
  assert (store (apply rq k best).1 !! k = Some best) as Hbest.
  { rewrite apply_absorb. simpl. rewrite absorb_lookup, decide_True by done. simpl.
    destruct (store rq !! k) as [c|] eqn:Ec; [|done]. simpl. destruct (newer best c) eqn:En; [done|].
    destruct (decide (c = best)) as [->|Hne]; [done|]. specialize (Hmax q rq c ltac:(set_solver) Eq Huq Ec).
    by rewrite (newer_total c best Hne), En in Hmax. }
  destruct (IH s1 rep' Hinv1 ltac:(set_solver)) as [H1 H2].
  { intros p r v Hp E Hu Hv. destruct (decide (p = q)) as [->|Hne]; [|rewrite Hoth in E; eauto].
    rewrite Eq1 in E. injection E as <-. rewrite Hbest in Hv. injection Hv as <-. apply newer_irrefl. }
  split; [done|]. intros p r' Hp E. destruct (H2 p r' Hp E) as (r & Er & Hu & Hin & Hout).
  destruct (decide (p = q)) as [->|Hne]; [|rewrite Hoth in Er by done].
  - rewrite Eq1 in Er. injection Er as <-. exists rq. rewrite Hu, apply_absorb. simpl. split_and!; [done..| |].
    + intros _ _. destruct (decide (q ∈ l)) as [Hql|Hql]; [|by rewrite (Hout Hql)]. apply Hin; [done|]. by rewrite apply_absorb.
    + set_solver.
  - exists r. split_and!; [done..| |]; [intros [?|?]%elem_of_cons; [done|auto]|set_solver].
Qed.

Lemma best_bounds ws s k best :
  inv (fun _ h => h ∈ ws) s -> find_best s k = Some best ->
  (k, best) ∈ ws /\ forall p r v, p ∈ ps -> heap s !! p = Some r -> up r = true -> store r !! k = Some v -> newer v best = false.
Proof.
  intros Hinv Hb. pose proof (find_best_newest s k) as Hn. rewrite Hb in Hn. destruct Hn as [Hin Hmax].
  apply list_elem_of_fmap in Hin as (v & [= <-] & Hv). pose proof Hinv as [Hps _]. rewrite slots_elem, Hps in Hv.
  destruct Hv as (p & r & Hp & E & Hu & Hv). split; [by eapply slot_written|].
  intros p' r' v' Hp' E' Hu' Hv'. apply Hmax, list_elem_of_fmap. exists v'. split; [done|].
  rewrite slots_elem, Hps. eauto 10.
Qed.

Lemma Read_inv ws s k : inv (fun _ h => h ∈ ws) s -> inv (fun _ h => h ∈ ws) (Read s k).1.
Proof.
  intros Hinv. unfold Read. destruct (find_best s k) as [best|] eqn:Eb; [|done].
  destruct (best_bounds ws s k best Hinv Eb) as [Hws Hmax]. pose proof Hinv as [Hps _]. rewrite Hps.
  destruct (repair_fold ws k best ps s [] Hinv Hws ltac:(done) Hmax) as [H _].
  by destruct (foldl _ _ ps).
Qed.

(** A call of the history names replicas of the coordinator. *)
Definition call_ok (c : call) : Prop := match c with CReplay p => p ∈ ps | _ => True end.

Lemma calls_inv cs s ws :
  inv (fun _ h => h ∈ ws) s -> Forall call_ok cs -> inv (fun _ h => h ∈ ws ++ writes cs) (run s cs).
Proof.
  revert s ws. induction cs as [|c cs IH]; intros s ws Hinv Hc.
  { eapply inv_proper; [|exact Hinv]. simpl. intros. by rewrite app_nil_r. }
  apply Forall_cons in Hc as [Hc Hcs]. unfold run. simpl. fold (run (do_call s c) cs).
  destruct c as [k v n|p|p b|k]; simpl.
  - eapply inv_proper; [|apply (IH _ (ws ++ [(k, mkVV v n)])); [|done]]; [intros; cbv beta; by rewrite <- app_assoc|].
    eapply inv_proper; [|by apply Write_inv]. intros. cbv beta. by rewrite elem_of_app, list_elem_of_singleton.
  - by apply IH; [apply replayHints_inv|].
  - by apply IH; [apply SetUp_inv|].
  - by apply IH; [apply Read_inv|].
Qed.

Lemma caught_up ws s p r k :
  inv (fun _ h => h ∈ ws) s -> p ∈ ps -> heap s !! p = Some r -> hints_of (coord s) (ID r) = [] ->
  newest ws k (store r !! k).
Proof.
  intros [_ Hok] Hp E Hh. destruct (Hok p Hp) as (r' & seen & E' & Hi & Hs & HW). rewrite E in E'. simplify_eq.
  rewrite Hs. rewrite Hi in Hh. rewrite Hh in HW.
  assert (foldl absorb ∅ seen = foldl absorb ∅ ws) as ->; [|apply absorb_newest].
  apply (converge_same_updates (R := (=)) (VS := fun _ => True) (VD := fun _ => True)); [done|by apply Forall_true..|].
  intros h. rewrite <- HW, elem_of_nil. tauto.
Qed.

(** What a read reports. *)
Definition read_value (res : ReadResult) : option VersionedValue :=
  if Found res then Some (mkVV (rr_Value res) (rr_Version res)) else None.

Lemma Read_newest ws s k p r :
  inv (fun _ h => h ∈ ws) s -> p ∈ ps -> heap s !! p = Some r -> up r = true -> hints_of (coord s) (ID r) = [] ->
  newest ws k (read_value (Read s k).2) /\
  forall q r', q ∈ ps -> heap (Read s k).1 !! q = Some r' -> up r' = true -> store r' !! k = read_value (Read s k).2.
Proof.
  intros Hinv Hp E Hu Hh. pose proof (caught_up ws s p r k Hinv Hp E Hh) as Hnew. pose proof Hinv as [Hps _].
  unfold Read. destruct (find_best s k) as [best|] eqn:Eb.
  - destruct (best_bounds ws s k best Hinv Eb) as [Hws Hmax]. rewrite Hps.
    destruct (repair_fold ws k best ps s [] Hinv Hws ltac:(done) Hmax) as [_ Hrep].
    destruct (foldl _ _ ps) as [s' rep]. simpl in *. unfold read_value. simpl.
    destruct best as [bv bn]. simpl in *. split; [split; [done|]|].
    + intros v' Hv'. destruct (store r !! k) as [c|] eqn:Ec; [|by apply Hnew in Hv'].
      destruct Hnew as [Hc Hcmax]. specialize (Hmax p r c Hp E Hu Ec). pose proof (Hcmax _ Hws) as Hcb.
      destruct (decide (c = mkVV bv bn)) as [<-|Hne]; [by apply Hcmax|]. by rewrite (newer_total c _ Hne), Hcb in Hmax.
    + intros q r' Hq Er Hur. destruct (Hrep q r' Hq Er) as (r0 & E0 & Hu0 & Hin & _). apply Hin; [done|]. congruence.
  - simpl. unfold read_value. simpl. pose proof (find_best_newest s k) as Hn. rewrite Eb in Hn. simpl in Hn.
    assert (forall q r', q ∈ ps -> heap s !! q = Some r' -> up r' = true -> store r' !! k = None) as Hnone.
    { intros q r' Hq Er Hur. destruct (store r' !! k) as [v|] eqn:Ev; [|done]. exfalso. apply (Hn v), list_elem_of_fmap.
      exists v. split; [done|]. rewrite slots_elem, Hps. eauto 10. }
    split; [|done]. by rewrite (Hnone p r Hp E Hu) in Hnew.
Qed.
End history.

(** C24: Hinted handoff, replay and read repair lose nothing.  In any history of
    writes, outages, recoveries, replays and reads of a coordinator over fresh
    replicas with distinct identifiers, a replica with no pending hints holds
    for every key the newest of all the writes of the history, by version and
    then by value.  If such a replica is up, a read returns that newest write
    (or "not found" if there is none), and leaves every replica that is up with
    it. *)
Theorem antientropy_converges (h0 : gmap nat Replica) (ps : list nat) (cs : list call) :
  (forall p, p ∈ ps -> exists r, h0 !! p = Some r /\ store r = ∅) ->
  (forall p q r r', p ∈ ps -> q ∈ ps -> h0 !! p = Some r -> h0 !! q = Some r' -> ID r = ID r' -> p = q) ->
  Forall (call_ok ps) cs ->
  let s := run (mkState h0 (NewCoordinator ps)) cs in
  forall p r k, p ∈ ps -> heap s !! p = Some r -> hints_of (coord s) (ID r) = [] ->
    newest (writes cs) k (store r !! k) /\
    (up r = true -> newest (writes cs) k (read_value (Read s k).2) /\
      forall q r', q ∈ ps -> heap (Read s k).1 !! q = Some r' -> up r' = true -> store r' !! k = read_value (Read s k).2).
Proof.
  intros Hinit Hdist Hcs s p r k Hp E Hh.
  set (id := fun p => default EmptyString (ID <$> h0 !! p)).
  assert (forall p q, p ∈ ps -> q ∈ ps -> id p = id q -> p = q) as Hid.
  { intros x y Hx Hy Hxy. destruct (Hinit x Hx) as (rx & Ex & _), (Hinit y Hy) as (ry & Ey & _).
    unfold id in Hxy. rewrite Ex, Ey in Hxy. by eapply Hdist. }
  assert (inv ps id (fun _ h => h ∈ []) (mkState h0 (NewCoordinator ps))) as H0.
  { split; [done|]. intros x Hx. destruct (Hinit x Hx) as (rx & Ex & Hs). exists rx, []. split_and!; [done| |done|].
    - unfold id. by rewrite Ex.
    - intros h. unfold hints_of. simpl. rewrite lookup_empty, elem_of_nil. simpl. rewrite elem_of_nil. tauto. }
  pose proof (calls_inv ps id Hid cs _ [] H0 Hcs) as Hinv. split.
  - by eapply (caught_up ps id).
  - intros Hu. by eapply (Read_newest ps id).
Qed.

(** An outage: the second replica misses two writes to one key, stamped in the
    wrong order, and catches up. *)
Definition demo_heap : gmap nat Replica := {[0 := NewReplica "a"; 1 := NewReplica "b"]}.
Definition demo_calls : list call :=
  [CWrite "k" "v1" 1; CSetUp 1 false; CWrite "k" "v3" 3; CWrite "k" "v2" 2; CSetUp 1 true; CReplay 1].

Lemma antientropy_converges_witness :
  exists r, heap (run (mkState demo_heap (NewCoordinator [0; 1])) demo_calls) !! 1 = Some r /\
    store r !! "k" = Some (mkVV "v3" 3) /\ newest (writes demo_calls) "k" (store r !! "k").
Proof.
  eexists. split; [vm_compute; reflexivity|]. split; [reflexivity|].
  refine (proj1 (antientropy_converges demo_heap [0; 1] demo_calls _ _ _ 1 _ "k" _ _ _)).
  - intros p [->|[->|[]%elem_of_nil]%elem_of_cons]%elem_of_cons; eexists; (split; [reflexivity|reflexivity]).
  - intros p q r r' [->|[->|[]%elem_of_nil]%elem_of_cons]%elem_of_cons [->|[->|[]%elem_of_nil]%elem_of_cons]%elem_of_cons E1 E2;
      vm_compute in E1, E2; simplify_eq; done.
  - repeat constructor.
  - repeat constructor.
  - vm_compute. reflexivity.
  - vm_compute. reflexivity.
Defined.
