(* ===== verification/AeMerkle.v ===== *)
(** * Hierarchical Merkle trees (pkg/antientropy/merkle.go)

    The tree that summarises a replica: one leaf per key in key order, parents
    pairing the nodes of a level, an odd node carried up.  Two trees over the
    same keys are compared by descending where hashes differ; otherwise leaf by
    leaf.  A child pointer may be nil in the source's type, so children are
    options; a tree built by [NewMerkleTree] never has a nil child.

    The main theorem says that the reported keys are exactly those the two
    stores disagree on, and how few node pairs the descent visits.  Its
    hypotheses exclude collisions of SHA-256 among the inputs hashed, and a
    leaf whose input is that of an internal node, which the source does not
    rule out because both are hashed without a tag. *)
From S2P Require Import Prelude Sha256 Merkle AntiEntropy.
Local Open Scope Z_scope.

Inductive node := mkNode (hash : list Z) (left right : option node) (leaf : string) (isLeaf : bool).

Definition hash (n : node) : list Z := let '(mkNode h _ _ _ _) := n in h.

Definition leafDigest (key value : string) : list Z :=
  sha256 (be_encode 8 (u64 (Z.of_nat (length (string_bytes key)))) ++ string_bytes key ++
          be_encode 8 (u64 (Z.of_nat (length (string_bytes value)))) ++ string_bytes value).

Definition internalDigest (l r : list Z) : list Z := sha256 (l ++ r).
#[global] Arguments leafDigest : simpl never.
#[global] Arguments internalDigest : simpl never.

Definition leafNode (key value : string) : node := mkNode (leafDigest key value) None None key true.
Definition innerNode (l r : node) : node := mkNode (internalDigest (hash l) (hash r)) (Some l) (Some r) EmptyString false.

(** One level of [buildLevel]: pairs are combined, an odd last element is
    carried up. *)
Fixpoint pair_level {A} (f : A -> A -> A) (nodes : list A) : list A :=
  match nodes with
  | l :: r :: rest => f l r :: pair_level f rest
  | _ => nodes
  end.

(** The loop, [None] when the list is empty (the source would panic) or the
    fuel too small. *)
Fixpoint fold_level {A} (f : A -> A -> A) (fuel : nat) (nodes : list A) : option A :=
  match nodes with
  | [] => None
  | [n] => Some n
  | _ => match fuel with O => None | S fuel => fold_level f fuel (pair_level f nodes) end
  end.

Definition buildLevel (nodes : list node) : option node := fold_level innerNode (length nodes) nodes.

Record MerkleTree := mkMerkleTree { mt_root : option node; mt_keys : list string }.

Definition NewMerkleTree (kv : gmap string string) : MerkleTree :=
  let keys := sort_strings (map_to_list kv).*1 in
  if decide (length keys = 0)%nat then mkMerkleTree None keys
  else mkMerkleTree (buildLevel ((fun k => leafNode k (default EmptyString (kv !! k))) <$> keys)) keys.

Definition Root (t : MerkleTree) : list Z :=
  match mt_root t with None => replicate 32 0 | Some n => hash n end.

Definition Equal (t other : MerkleTree) : bool := bool_decide (Root t = Root other).

(** The set of differing keys and the counters of [diffStats]. *)
Record diffState := mkDiff { diff : gset string; visited : Z; pruned : Z }.

Fixpoint collectLeaves (n : node) (s : gset string) : gset string :=
  match n with
  | mkNode _ l r k true => {[k]} ∪ s
  | mkNode _ l r k false =>
      let s := match l with Some l => collectLeaves l s | None => s end in
      match r with Some r => collectLeaves r s | None => s end
  end.

Definition descendChildStats (descend : node -> node -> diffState -> diffState) (x y : option node) (st : diffState) : diffState :=
  match x, y with
  | None, None => st
  | None, Some y => mkDiff (collectLeaves y (diff st)) (visited st) (pruned st)
  | Some x, None => mkDiff (collectLeaves x (diff st)) (visited st) (pruned st)
  | Some x, Some y => descend x y st
  end.

Fixpoint descendStats (x y : node) (st : diffState) {struct x} : diffState :=
  let '(mkNode hx lx rx kx leafx) := x in
  let '(mkNode hy ly ry ky leafy) := y in
  let st := mkDiff (diff st) (visited st + 1) (pruned st) in
  if decide (hx = hy) then mkDiff (diff st) (visited st) (pruned st + 1)
  else if leafx : bool then mkDiff ({[kx]} ∪ diff st) (visited st) (pruned st)
  else descendChildStats descendStats rx ry (descendChildStats descendStats lx ly st).

Definition descend (x y : node) (s : gset string) : gset string := diff (descendStats x y (mkDiff s 0 0)).

Fixpoint walkLeaves (n : node) (out : gmap string (list Z)) : gmap string (list Z) :=
  match n with
  | mkNode h l r k true => <[k := h]> out
  | mkNode h l r k false =>
      let out := match l with Some l => walkLeaves l out | None => out end in
      match r with Some r => walkLeaves r out | None => out end
  end.

Definition leafHashes (t : MerkleTree) : gmap string (list Z) :=
  match mt_root t with Some n => walkLeaves n ∅ | None => ∅ end.

Definition sameKeys (a b : list string) : bool :=
  if decide (length a <> length b) then false else forallb (fun ab => bool_decide (ab.1 = ab.2)) (zip a b).

(** [leafSetDiff] compares the leaf hashes both ways; each way is the loop of
    the flat tree's [Diff]. *)
Definition leafSetDiff (a b : MerkleTree) (s : gset string) : gset string :=
  let la := leafHashes a in
  let lb := leafHashes b in
  diff_into lb la (diff_into la lb s).

Definition MerkleDiff (a b : MerkleTree) : list string :=
  if Equal a b then []
  else
    let s := match mt_root a, mt_root b with
             | Some x, Some y => if sameKeys (mt_keys a) (mt_keys b) then descend x y ∅ else leafSetDiff a b ∅
             | _, _ => leafSetDiff a b ∅
             end in
    sort_strings (elements s).

Definition MerkleDiffInstrumented (a b : MerkleTree) : list string * (Z * Z) :=
  if Equal a b then ([], match mt_root a, mt_root b with Some _, Some _ => (1, 1) | _, _ => (0, 0) end)
  else
    let st := match mt_root a, mt_root b with
              | Some x, Some y => if sameKeys (mt_keys a) (mt_keys b) then descendStats x y (mkDiff ∅ 0 0)
                                  else mkDiff (leafSetDiff a b ∅) 0 0
              | _, _ => mkDiff (leafSetDiff a b ∅) 0 0
              end in
    (sort_strings (elements (diff st)), (visited st, pruned st)).

(** ** Building by levels *)

Section levels.
Context {A : Type} (f : A -> A -> A).
Implicit Types l : list A.

Lemma pair_ind (P : list A -> Prop) : P [] -> (forall x, P [x]) -> (forall x y l, P l -> P (x :: y :: l)) -> forall l, P l.
Proof. intros H0 H1 H2. fix IH 1. intros [|x [|y l]]; [done|apply H1|apply H2, IH]. Qed.

Lemma pair_level_length l : (2 * length (pair_level f l) <= S (length l))%nat.
Proof. induction l as [| |x y l IH] using pair_ind; simpl in *; lia. Qed.

Lemma pair_level_nonempty l : l <> [] -> pair_level f l <> [].
Proof. by destruct l as [|x [|y l]]. Qed.

Lemma pair_level_Forall (P : A -> Prop) l : (forall a b, P a -> P b -> P (f a b)) -> Forall P l -> Forall P (pair_level f l).
Proof.
  intros Hf. induction l as [| |x y l IH] using pair_ind; simpl; [done..|].
  intros (Hx & Hy & Hl)%Forall_cons_1%(fun H => conj (proj1 H) (Forall_cons_1 _ _ _ (proj2 H))). constructor; auto.
Qed.

Lemma fold_level_Some fuel l : l <> [] -> (length l <= S fuel)%nat -> is_Some (fold_level f fuel l).
Proof.
  revert l. induction fuel as [|fuel IH]; intros [|x [|y l]] Hne Hlen; try done; simpl in Hlen; [lia|].
  apply IH; [done|]. pose proof (pair_level_length (x :: y :: l)). simpl in *. lia.
Qed.

(** A property indexed by a height that grows by one per level. *)
Lemma fold_level_height (P : nat -> A -> Prop) :
  (forall h a b, P h a -> P h b -> P (S h) (f a b)) -> (forall h a, P h a -> P (S h) a) ->
  forall d fuel l h x, Forall (P h) l -> (length l <= 2 ^ d)%nat -> fold_level f fuel l = Some x -> P (h + d)%nat x.
Proof.
  intros Hf Hmono. induction d as [|d IH]; intros fuel l h x Hl Hlen E.
  - destruct l as [|y [|]]; simpl in Hlen; [by destruct fuel| |lia].
    assert (y = x) as -> by (destruct fuel; simpl in E; congruence). rewrite Nat.add_0_r. rewrite Forall_singleton in Hl. done.
  - assert (forall n y, P h y -> P (h + n)%nat y) as Hup.
    { clear -Hmono. intros n y Hy. induction n as [|n IH]; [by rewrite Nat.add_0_r|]. rewrite Nat.add_succ_r. auto. }
    destruct l as [|y [|z l]]; [by destruct fuel| |].
    { assert (y = x) as -> by (destruct fuel; simpl in E; congruence). rewrite Forall_singleton in Hl. by apply Hup. }
    destruct fuel as [|fuel]; [done|]. rewrite Nat.add_succ_r, <- Nat.add_succ_l.
    change (fold_level f fuel (pair_level f (y :: z :: l)) = Some x) in E. eapply IH; [| |exact E].
    + assert (Forall (P h) (y :: z :: l)) as Hl' by done. revert Hl'. generalize (y :: z :: l). clear -Hf Hmono.
      induction l as [|a|a b l IHl] using pair_ind; simpl; intros Hl; [constructor| |].
      * rewrite Forall_singleton in Hl. constructor; auto.
      * apply Forall_cons in Hl as [? Hl]. apply Forall_cons in Hl as [? Hl]. constructor; auto.
    + pose proof (pair_level_length (y :: z :: l)). rewrite Nat.pow_succ_r' in Hlen. lia.
Qed.

(** A measure into lists that [f] concatenates. *)
Lemma fold_level_join {B} (g : A -> list B) fuel l x :
  (forall a b, g (f a b) = g a ++ g b) -> fold_level f fuel l = Some x -> g x = mjoin (g <$> l).
Proof.
  intros Hg. assert (forall l, mjoin (g <$> pair_level f l) = mjoin (g <$> l)) as Hp.
  { induction l0 as [| |a b l0 IH] using pair_ind; [done..|]. cbn [pair_level]. rewrite !fmap_cons. simpl.
    by rewrite IH, Hg, app_assoc. }
  revert l. induction fuel as [|fuel IH]; intros [|a [|b l]] E; try done; cbn [fold_level] in E; simplify_eq;
    try (simpl; by rewrite app_nil_r).
  apply IH in E. by rewrite E, Hp.
Qed.
End levels.

Lemma fold_level_fmap {A B} (g : A -> B) (f : A -> A -> A) (f' : B -> B -> B) fuel l :
  (forall a b, g (f a b) = f' (g a) (g b)) -> fold_level f' fuel (g <$> l) = g <$> fold_level f fuel l.
Proof.
  intros Hg. assert (forall l, pair_level f' (g <$> l) = g <$> pair_level f l) as Hp.
  { induction l0 as [| |a b l0 IH] using pair_ind; [done..|]. rewrite !fmap_cons. cbn [pair_level].
    by rewrite fmap_cons, Hg, IH. }
  revert l. induction fuel as [|fuel IH]; intros [|a [|b l]]; try done.
  change (fold_level f' fuel (pair_level f' (g <$> (a :: b :: l))) = g <$> fold_level f fuel (pair_level f (a :: b :: l))).
  by rewrite Hp, IH.
Qed.

(** ** Trees as summaries of stores *)

(** [n] summarises the keys [ks] of the store. *)
Inductive summary (kv : gmap string string) : node -> list string -> Prop :=
  | summary_leaf k v : kv !! k = Some v -> summary kv (leafNode k v) [k]
  | summary_inner l r ks ks' : summary kv l ks -> summary kv r ks' -> summary kv (innerNode l r) (ks ++ ks').

(** Two trees of the same shape over the same keys, of height at most [h]. *)
Inductive twin (kv kv' : gmap string string) : nat -> node -> node -> list string -> Prop :=
  | twin_leaf h k v v' : kv !! k = Some v -> kv' !! k = Some v' -> twin kv kv' h (leafNode k v) (leafNode k v') [k]
  | twin_inner h x y x' y' ks ks' :
      twin kv kv' h x y ks -> twin kv kv' h x' y' ks' -> twin kv kv' (S h) (innerNode x x') (innerNode y y') (ks ++ ks').

Lemma twin_mono kv kv' h x y ks : twin kv kv' h x y ks -> twin kv kv' (S h) x y ks.
Proof. induction 1; by constructor. Qed.

Lemma mjoin_singletons {A} (l : list A) : mjoin ((fun x => [x]) <$> l) = l.
Proof. induction l as [|x l IH]; [done|]. rewrite fmap_cons. simpl. by rewrite IH. Qed.

Lemma pow2_ge n : (n <= 2 ^ n)%nat.
Proof. induction n as [|n IH]; [lia|]. rewrite Nat.pow_succ_r'. assert (2 ^ n <> 0)%nat by (apply Nat.pow_nonzero; lia). lia. Qed.

Lemma NewMerkleTree_keys kv : mt_keys (NewMerkleTree kv) = keys_in_order kv.
Proof. unfold NewMerkleTree, keys_in_order. by case_decide. Qed.

Lemma NewMerkleTree_summary kv :
  (kv = ∅ /\ mt_root (NewMerkleTree kv) = None) \/
  (exists n, mt_root (NewMerkleTree kv) = Some n /\ summary kv n (keys_in_order kv)).
Proof.
  unfold NewMerkleTree. fold (keys_in_order kv). case_decide as Hk.
  { left. split; [|done]. apply map_empty. intros k. apply eq_None_not_Some. rewrite <- elem_of_keys_in_order.
    destruct (keys_in_order kv); [apply not_elem_of_nil|done]. }
  right. simpl. set (lt := (fun k => (leafNode k (default EmptyString (kv !! k)), [k])) <$> keys_in_order kv).
  set (ft := fun a b : node * list string => (innerNode a.1 b.1, a.2 ++ b.2)).
  assert ((fun k => leafNode k (default EmptyString (kv !! k))) <$> keys_in_order kv = fst <$> lt) as ->.
  { unfold lt. by rewrite <- list_fmap_compose. }
  unfold buildLevel. rewrite (fold_level_fmap fst ft innerNode), !length_fmap by done.
  destruct (fold_level_Some ft (length lt) lt) as [[n ks] E].
  { intros Hl. apply (f_equal length) in Hl. unfold lt in Hl. rewrite length_fmap in Hl. simpl in Hl. lia. }
  { lia. }
  exists n. rewrite E. split; [done|].
  assert (ks = keys_in_order kv) as <-.
  { apply (fold_level_join ft snd) in E; [|done]. simpl in E. rewrite E. unfold lt. rewrite <- list_fmap_compose.
    apply (mjoin_singletons (keys_in_order kv)). }
  apply (fold_level_height ft (fun _ t => summary kv t.1 t.2)) with (d := length lt) (h := 0%nat) in E; try done.
  - intros _ [a ka] [b kb] ? ?. by constructor.
  - apply Forall_fmap, Forall_forall. intros k Hk'. apply elem_of_keys_in_order in Hk' as [v Hv]. simpl. rewrite Hv. by constructor.
  - apply pow2_ge.
Qed.

Lemma NewMerkleTree_twin kv kv' d x y :
  keys_in_order kv = keys_in_order kv' -> (length (keys_in_order kv) <= 2 ^ d)%nat ->
  mt_root (NewMerkleTree kv) = Some x -> mt_root (NewMerkleTree kv') = Some y -> twin kv kv' d x y (keys_in_order kv).
Proof.
  intros Hkeys Hlen. unfold NewMerkleTree. fold (keys_in_order kv) (keys_in_order kv'). rewrite <- Hkeys.
  case_decide as Hk; [done|]. simpl.
  set (lt := (fun k => (leafNode k (default EmptyString (kv !! k)), leafNode k (default EmptyString (kv' !! k)), [k])) <$> keys_in_order kv).
  set (ft := fun a b : node * node * list string => (innerNode a.1.1 b.1.1, innerNode a.1.2 b.1.2, a.2 ++ b.2)).
  assert ((fun k => leafNode k (default EmptyString (kv !! k))) <$> keys_in_order kv = (fun t => t.1.1) <$> lt) as ->.
  { unfold lt. by rewrite <- list_fmap_compose. }
  assert ((fun k => leafNode k (default EmptyString (kv' !! k))) <$> keys_in_order kv = (fun t => t.1.2) <$> lt) as ->.
  { unfold lt. by rewrite <- list_fmap_compose. }
  unfold buildLevel. rewrite (fold_level_fmap (fun t => t.1.1) ft innerNode), (fold_level_fmap (fun t => t.1.2) ft innerNode) by done.
  rewrite !length_fmap. destruct (fold_level ft _ lt) as [[[n n'] ks]|] eqn:E; [|done]. simpl. intros [= <-] [= <-].
  assert (ks = keys_in_order kv) as <-.
  { apply (fold_level_join ft snd) in E; [|done]. simpl in E. rewrite E. unfold lt. rewrite <- list_fmap_compose.
    apply (mjoin_singletons (keys_in_order kv)). }
  apply (fold_level_height ft (fun h t => twin kv kv' h t.1.1 t.1.2 t.2)) with (d := d) (h := 0%nat) in E; try done.
  - intros h [[a a'] ka] [[b b'] kb] ? ?. by constructor.
  - intros h [[a a'] ka]. apply twin_mono.
  - apply Forall_fmap, Forall_forall. intros k Hk'. pose proof Hk' as Hk''. rewrite Hkeys in Hk''.
    apply elem_of_keys_in_order in Hk' as [v Hv], Hk'' as [v' Hv']. simpl. rewrite Hv, Hv'. by constructor.
  - unfold lt. by rewrite length_fmap.
Qed.

(** ** What the hashes say *)

Definition leaf_inputs (kv : gmap string string) : list (list Z) := (fun p => leafInput p.1 p.2) <$> map_to_list kv.

Fixpoint inner_inputs (n : node) : list (list Z) :=
  match n with
  | mkNode _ (Some l) (Some r) _ false => (hash l ++ hash r) :: inner_inputs l ++ inner_inputs r
  | _ => []
  end.

Definition tree_inner_inputs (kv : gmap string string) : list (list Z) :=
  match mt_root (NewMerkleTree kv) with Some n => inner_inputs n | None => [] end.

Definition tree_inputs (kv : gmap string string) : list (list Z) := leaf_inputs kv ++ tree_inner_inputs kv.

(** No collision among the inputs hashed for the two trees, no leaf input that
    is also the input of an internal node, and no input that hashes to the zero
    digest, which stands for the empty tree. *)
Definition hashes_apart (kv kv' : gmap string string) : Prop :=
  collision_free (tree_inputs kv ++ tree_inputs kv') /\
  Forall (fun i => i ∉ tree_inner_inputs kv ++ tree_inner_inputs kv') (leaf_inputs kv ++ leaf_inputs kv') /\
  Forall (fun i => sha256 i <> replicate 32 0) (tree_inputs kv ++ tree_inputs kv').

(** Leaves whose key and value do not make 48 bytes are never confused with
    internal nodes. *)
Lemma leaf_inputs_apart kv kv' :
  map_Forall (fun k v => length (string_bytes k) + length (string_bytes v) <> 48)%nat kv ->
  map_Forall (fun k v => length (string_bytes k) + length (string_bytes v) <> 48)%nat kv' ->
  (forall n, mt_root (NewMerkleTree kv) = Some n -> Forall (fun i => length i = 64)%nat (inner_inputs n)) ->
  (forall n, mt_root (NewMerkleTree kv') = Some n -> Forall (fun i => length i = 64)%nat (inner_inputs n)) ->
  Forall (fun i => i ∉ tree_inner_inputs kv ++ tree_inner_inputs kv') (leaf_inputs kv ++ leaf_inputs kv').
Proof.
  intros Hkv Hkv' Hn Hn'.
  assert (Forall (fun i => length i = 64)%nat (tree_inner_inputs kv ++ tree_inner_inputs kv')) as H64.
  { unfold tree_inner_inputs. apply Forall_app. destruct (mt_root (NewMerkleTree kv)), (mt_root (NewMerkleTree kv')); auto. }
  rewrite Forall_forall in H64. apply Forall_forall. intros i Hi Hin. apply H64 in Hin.
  apply elem_of_app in Hi as [Hi|Hi]; apply list_elem_of_fmap in Hi as ([k v] & -> & Hi%elem_of_map_to_list);
    [apply Hkv in Hi|apply Hkv' in Hi]; unfold leafInput in Hin; rewrite !length_app, !be_encode_length in Hin; simpl in *; lia.
Qed.

Lemma inner_inputs_length kv n ks : summary kv n ks -> Forall (fun i => length i = 64)%nat (inner_inputs n).
Proof.
  assert (forall n ks, summary kv n ks -> length (hash n) = 32%nat) as Hh by (intros ? ? [|]; apply sha256_length).
  induction 1 as [|l r ks ks' Hl IHl Hr IHr]; [constructor|]. simpl. constructor; [|by apply Forall_app].
  by rewrite length_app, (Hh _ _ Hl), (Hh _ _ Hr).
Qed.

Section exact.
Context (kv kv' : gmap string string).
Context (Hfit : lengths_fit kv) (Hfit' : lengths_fit kv') (Hap : hashes_apart kv kv').
Implicit Types (x y n : node) (ks : list string) (k : string).

Lemma leafInput_in k v : kv !! k = Some v -> leafInput k v ∈ leaf_inputs kv.
Proof. intros H. apply list_elem_of_fmap. exists (k, v). by rewrite elem_of_map_to_list. Qed.

Lemma leafInput_in' k v : kv' !! k = Some v -> leafInput k v ∈ leaf_inputs kv'.
Proof. intros H. apply list_elem_of_fmap. exists (k, v). by rewrite elem_of_map_to_list. Qed.

Lemma leafDigest_inj k v k' v' :
  kv !! k = Some v -> kv' !! k' = Some v' -> leafDigest k v = leafDigest k' v' -> k = k' /\ v = v'.
Proof.
  intros Hk Hk' Heq. destruct (Hfit _ _ Hk), (Hfit' _ _ Hk'). apply leafInput_inj; [int_lia..|].
  revert Heq. apply (collision_free_use _ _ _ (proj1 Hap)); unfold tree_inputs; rewrite !elem_of_app;
    eauto using leafInput_in, leafInput_in'.
Qed.

Lemma summary_hash_length m n ks : summary m n ks -> length (hash n) = 32%nat.
Proof. intros [|]; apply sha256_length. Qed.

(** Equal hashes, equal contents. *)
Lemma summary_inj x y ks ks' :
  summary kv x ks -> summary kv' y ks' ->
  inner_inputs x ⊆ tree_inner_inputs kv -> inner_inputs y ⊆ tree_inner_inputs kv' ->
  hash x = hash y -> ks = ks' /\ forall k, k ∈ ks -> kv !! k = kv' !! k.
Proof.
  destruct Hap as (Hcf & Htag & _). rewrite Forall_forall in Htag. intros Hx. revert y ks'.
  induction Hx as [k v Hk|l r ks1 ks2 Hl IHl Hr IHr]; intros y ks' [k' v' Hk'|l' r' ks1' ks2' Hl' Hr'] Hix Hiy Heq.
  - destruct (leafDigest_inj k v k' v' Hk Hk' Heq) as [<- <-]. split; [done|].
    intros ? ->%list_elem_of_singleton. congruence.
  - exfalso. apply (Htag (leafInput k v)); [apply elem_of_app; eauto using leafInput_in|]. apply elem_of_app. right. apply Hiy.
    change (sha256 (leafInput k v) = sha256 (hash l' ++ hash r')) in Heq. apply (collision_free_use _ _ _ Hcf) in Heq.
    + rewrite Heq. simpl. by left.
    + unfold tree_inputs. rewrite !elem_of_app. eauto using leafInput_in.
    + unfold tree_inputs. rewrite !elem_of_app. right. right. apply Hiy. simpl. by left.
  - exfalso. apply (Htag (leafInput k' v')); [apply elem_of_app; eauto using leafInput_in'|]. apply elem_of_app. left. apply Hix.
    change (sha256 (hash l ++ hash r) = sha256 (leafInput k' v')) in Heq. apply (collision_free_use _ _ _ Hcf) in Heq.
    + rewrite <- Heq. simpl. by left.
    + unfold tree_inputs. rewrite !elem_of_app. left. right. apply Hix. simpl. by left.
    + unfold tree_inputs. rewrite !elem_of_app. eauto using leafInput_in'.
  - change (sha256 (hash l ++ hash r) = sha256 (hash l' ++ hash r')) in Heq. apply (collision_free_use _ _ _ Hcf) in Heq.
    2: { unfold tree_inputs. rewrite !elem_of_app. left. right. apply Hix. simpl. by left. }
    2: { unfold tree_inputs. rewrite !elem_of_app. right. right. apply Hiy. simpl. by left. }
    apply app_inj_1 in Heq as [Hhl Hhr]; [|by rewrite (summary_hash_length _ _ _ Hl), (summary_hash_length _ _ _ Hl')].
    simpl in Hix, Hiy. destruct (IHl l' ks1' Hl') as [<- Hl1]; [set_solver..|done|].
    destruct (IHr r' ks2' Hr') as [<- Hr1]; [set_solver..|done|]. split; [done|].
    intros k [?|?]%elem_of_app; auto.
Qed.

Lemma Equal_iff : Equal (NewMerkleTree kv) (NewMerkleTree kv') = true <-> kv = kv'.
Proof.
  unfold Equal. rewrite bool_decide_eq_true. split; [|by intros ->].
  pose proof (proj2 (proj2 Hap)) as Hz. rewrite Forall_forall in Hz.
  assert (forall m n ks, summary m n ks -> inner_inputs n ⊆ tree_inner_inputs m -> exists i, i ∈ tree_inputs m /\ hash n = sha256 i) as Hin.
  { intros m n ks [k v Hk|l r ks1 ks2 _ _] Hsub; unfold tree_inputs; setoid_rewrite elem_of_app.
    - exists (leafInput k v). split; [|done]. left. apply list_elem_of_fmap. exists (k, v). by rewrite elem_of_map_to_list.
    - exists (hash l ++ hash r). split; [|done]. right. apply Hsub. simpl. by left. }
  unfold Root.
  destruct (NewMerkleTree_summary kv) as [[-> E]|(x & E & Hx)], (NewMerkleTree_summary kv') as [[-> E']|(y & E' & Hy)];
    rewrite ?E, ?E'; intros Heq; [done|exfalso|exfalso|].
  - destruct (Hin kv' y _ Hy) as (i & Hi & Hiy); [unfold tree_inner_inputs; by rewrite E'|].
    apply (Hz i); [rewrite elem_of_app; by right|congruence].
  - destruct (Hin kv x _ Hx) as (i & Hi & Hix); [unfold tree_inner_inputs; by rewrite E|].
    apply (Hz i); [rewrite elem_of_app; by left|congruence].
  - destruct (summary_inj x y _ _ Hx Hy) as [Hkeys Hk]; [unfold tree_inner_inputs; by rewrite ?E, ?E'..|done|].
    apply map_eq. intros k. destruct (decide (k ∈ keys_in_order kv)) as [Hin'|Hout]; [auto|].
    pose proof Hout as Hout'. rewrite Hkeys in Hout'. rewrite elem_of_keys_in_order, <- eq_None_not_Some in Hout, Hout'. congruence.
Qed.

(** *** The descent *)

Lemma twin_summaries h x y ks : twin kv kv' h x y ks -> summary kv x ks /\ summary kv' y ks.
Proof. induction 1 as [|h x y x' y' ks ks' _ [] _ []]; split; by constructor. Qed.

Lemma twin_hash h x y ks : twin kv kv' h x y ks -> (forall k, k ∈ ks -> kv !! k = kv' !! k) -> hash x = hash y.
Proof.
  clear. induction 1 as [h k v v' Hk Hk'|h x y x' y' ks ks' _ IH _ IH']; intros Heq.
  - assert (Some v = Some v') as [= <-]; [|done]. rewrite <- Hk, <- Hk'. apply Heq. set_solver.
  - simpl. rewrite IH, IH'; [done|set_solver..].
Qed.

(** How many of the keys differ. *)
Definition differing ks : list string := filter (fun k => kv !! k <> kv' !! k) ks.

Lemma differing_some h x y ks : twin kv kv' h x y ks -> hash x <> hash y -> (1 <= length (differing ks))%nat.
Proof.
  intros Ht Hne. destruct (differing ks) as [|k l] eqn:E; [|simpl; lia]. exfalso. apply Hne. eapply twin_hash; [done|].
  intros k Hk. destruct (decide (kv !! k = kv' !! k)) as [|Hk']; [done|]. exfalso.
  apply (not_elem_of_nil k). rewrite <- E. by apply list_elem_of_filter.
Qed.

Lemma tree_descend_spec h x y ks st :
  twin kv kv' h x y ks -> inner_inputs x ⊆ tree_inner_inputs kv -> inner_inputs y ⊆ tree_inner_inputs kv' ->
  (forall k, k ∈ diff (descendStats x y st) <-> k ∈ diff st \/ k ∈ differing ks) /\
  visited (descendStats x y st) <= visited st + 1 + 2 * Z.of_nat h * Z.of_nat (length (differing ks)).
Proof.
  intros Ht. revert st. induction Ht as [h k v v' Hk Hk'|h x y x' y' ks ks' Ht1 IH1 Ht2 IH2]; intros st Hix Hiy.
  - simpl. unfold differing. rewrite filter_cons, filter_nil, Hk, Hk'. case_decide as Heq; simpl.
    + destruct (leafDigest_inj k v k v' Hk Hk' Heq) as [_ <-]. rewrite decide_False by auto. simpl. split; [set_solver|lia].
    + rewrite decide_True by congruence. simpl. split; [set_solver|lia].
  - pose proof (twin_inner _ _ _ _ _ _ _ _ _ Ht1 Ht2) as Ht. pose proof (twin_summaries _ _ _ _ Ht) as [Hs Hs'].
    cbn [descendStats innerNode]. case_decide as Heq; simpl.
    + destruct (summary_inj _ _ _ _ Hs Hs' Hix Hiy Heq) as [_ Hall]. split; [|lia].
      intros k. split; [by left|]. intros [?|[Hne Hk]%list_elem_of_filter]; [done|]. by destruct (Hne (Hall k Hk)).
    + pose proof (differing_some _ _ _ _ Ht Heq) as Hd. unfold differing in *. rewrite filter_app in *. simpl in Hix, Hiy.
      destruct (IH1 (mkDiff (diff st) (visited st + 1) (pruned st))) as [H1 V1]; [set_solver..|].
      destruct (IH2 (descendStats x y (mkDiff (diff st) (visited st + 1) (pruned st)))) as [H2 V2]; [set_solver..|].
      split.
      * intros k. rewrite H2, H1, elem_of_app. simpl. tauto.
      * rewrite length_app in *. simpl in V1. nia.
Qed.

Lemma walkLeaves_spec n ks (m : gmap string string) out k :
  summary m n ks -> walkLeaves n out !! k = if decide (k ∈ ks) then leafHash k <$> m !! k else out !! k.
Proof.
  clear. intros Hs. revert out. induction Hs as [k' v Hk|l r ks ks' _ IH _ IH']; intros out.
  - simpl. rewrite lookup_insert. destruct (decide (k' = k)) as [->|Hne].
    + rewrite decide_True by set_solver. by rewrite Hk.
    + by rewrite decide_False by set_solver.
  - simpl. rewrite IH', IH. repeat case_decide; set_solver.
Qed.

Lemma leafHashes_spec (m : gmap string string) : leafHashes (NewMerkleTree m) = leavesOf m.
Proof.
  clear. apply map_eq. intros k. rewrite leavesOf_lookup. unfold leafHashes.
  destruct (NewMerkleTree_summary m) as [[-> ->]|(n & -> & Hn)]; [by rewrite !lookup_empty|].
  rewrite (walkLeaves_spec _ _ _ _ _ Hn). case_decide as Hk; [done|].
  rewrite elem_of_keys_in_order, <- eq_None_not_Some in Hk. by rewrite Hk, lookup_empty.
Qed.

Lemma leafSetDiff_spec k : k ∈ leafSetDiff (NewMerkleTree kv) (NewMerkleTree kv') ∅ <-> kv !! k <> kv' !! k.
Proof.
  unfold leafSetDiff. rewrite !leafHashes_spec, diff_iff.
  destruct (kv !! k) as [v|] eqn:Hk, (kv' !! k) as [v'|] eqn:Hk'; simpl; [|done..].
  split; intros Hne Hc; apply Hne; [congruence|]. apply (inj Some) in Hc.
  by destruct (leafDigest_inj k v k v' Hk Hk' Hc) as [_ ->].
Qed.

Lemma sameKeys_spec a b : sameKeys a b = true <-> a = b.
Proof.
  clear. unfold sameKeys. destruct (decide (length a = length b)) as [Hl|Hl].
  - rewrite decide_False by auto. revert b Hl. induction a as [|x a IH]; intros [|y b] Hl; simpl in *; try done; try lia.
    rewrite andb_true_iff, bool_decide_eq_true, IH by lia. naive_solver.
  - rewrite decide_True by done. split; [done|]. by intros ->.
Qed.

(** The set of keys either comparison yields, and the pairs visited. *)
Lemma diff_set_spec d :
  (length (keys_in_order kv) <= 2 ^ d)%nat ->
  let st := match mt_root (NewMerkleTree kv), mt_root (NewMerkleTree kv') with
            | Some x, Some y => if sameKeys (mt_keys (NewMerkleTree kv)) (mt_keys (NewMerkleTree kv')) then descendStats x y (mkDiff ∅ 0 0)
                                else mkDiff (leafSetDiff (NewMerkleTree kv) (NewMerkleTree kv') ∅) 0 0
            | _, _ => mkDiff (leafSetDiff (NewMerkleTree kv) (NewMerkleTree kv') ∅) 0 0
            end in
  (forall k, k ∈ diff st <-> kv !! k <> kv' !! k) /\ visited st <= 1 + 2 * Z.of_nat d * Z.of_nat (size (diff st)).
Proof.
  intros Hd. cbv zeta. assert (forall s : gset string, 0 <= 1 + 2 * Z.of_nat d * Z.of_nat (size s)) as Hpos by (intros; nia).
  destruct (mt_root (NewMerkleTree kv)) as [x|] eqn:E; [|split; [apply leafSetDiff_spec|apply Hpos]].
  destruct (mt_root (NewMerkleTree kv')) as [y|] eqn:E'; [|split; [apply leafSetDiff_spec|apply Hpos]].
  rewrite !NewMerkleTree_keys. destruct (sameKeys _ _) eqn:Es; [|split; [apply leafSetDiff_spec|apply Hpos]].
  apply sameKeys_spec in Es. pose proof (NewMerkleTree_twin kv kv' d x y Es Hd E E') as Ht.
  destruct (tree_descend_spec d x y _ (mkDiff ∅ 0 0) Ht) as [Hdiff Hvis]; [unfold tree_inner_inputs; by rewrite ?E, ?E'..|].
  split.
  - intros k. rewrite Hdiff. simpl. unfold differing. rewrite elem_of_empty, list_elem_of_filter.
    split; [naive_solver|]. intros Hne. right. split; [done|].
    destruct (decide (k ∈ keys_in_order kv)) as [|Hout]; [done|]. pose proof Hout as Hout'. rewrite Es in Hout'.
    rewrite elem_of_keys_in_order, <- eq_None_not_Some in Hout, Hout'. congruence.
  - assert (length (differing (keys_in_order kv)) <= size (diff (descendStats x y (mkDiff ∅ 0 0))))%nat as Hsz; [|simpl in Hvis; nia].
    rewrite <- (size_list_to_set (C := gset string) (differing (keys_in_order kv))).
    + apply subseteq_size. intros k. rewrite elem_of_list_to_set, Hdiff. by right.
    + apply NoDup_filter. unfold keys_in_order. rewrite sort_strings_perm. apply NoDup_fst_map_to_list.
Qed.
End exact.

(** C37: The hierarchical diff is exact and cheap.  For two stores whose keys
    and values have Go [int] lengths, and under three assumptions on the hash
    at the inputs of their two trees (no two collide, no input of a leaf is the input
    of an internal node, none hashes to the zero digest): [MerkleDiff] of the
    trees lists, sorted and once each, exactly the keys on which the stores
    disagree; [Equal] is equality of the stores; the instrumented version
    reports the same keys, and with at most [2 ^ d] keys in the first store it
    visits at most [1 + 2 * d * k] node pairs for [k] differing keys. *)
Theorem merkle_tree_diff_exact (kv kv' : gmap string string) :
  lengths_fit kv -> lengths_fit kv' -> hashes_apart kv kv' ->
  let a := NewMerkleTree kv in
  let b := NewMerkleTree kv' in
  StronglySorted String.le (MerkleDiff a b) /\ NoDup (MerkleDiff a b) /\
  (forall k, k ∈ MerkleDiff a b <-> kv !! k <> kv' !! k) /\ (Equal a b = true <-> kv = kv') /\
  fst (MerkleDiffInstrumented a b) = MerkleDiff a b /\
  (forall d, (size kv <= 2 ^ d)%nat ->
     fst (snd (MerkleDiffInstrumented a b)) <= 1 + 2 * Z.of_nat d * Z.of_nat (length (MerkleDiff a b))).
Proof.
  intros Hfit Hfit' Hap a b. pose proof (Equal_iff kv kv' Hfit Hfit' Hap) as Heq. fold a b in Heq.
  assert (size kv = length (keys_in_order kv)) as Hsize.
  { unfold keys_in_order. rewrite sort_strings_perm, length_fmap. by rewrite length_map_to_list. }
  pose proof (diff_set_spec kv kv' Hfit Hfit' Hap) as Hset. fold a b in Hset. cbv zeta in Hset.
  unfold MerkleDiffInstrumented. set (st := match mt_root a with Some _ => _ | None => _ end) in *.
  assert (MerkleDiff a b = if Equal a b then [] else sort_strings (elements (diff st))) as ->.
  { unfold MerkleDiff, st, descend. destruct (Equal a b); [done|].
    destruct (mt_root a), (mt_root b); [by destruct (sameKeys _ _)|done..]. }
  rewrite Hsize. destruct (Equal a b) eqn:E; simpl.
  - destruct (proj1 Heq eq_refl). split_and!; [constructor|constructor| |done|done|].
    + intros k. split; [by intros ?%elem_of_nil|done].
    + intros d _. destruct (mt_root a), (mt_root b); simpl; lia.
  - split_and!; [apply sort_strings_sorted|rewrite sort_strings_perm; apply NoDup_elements| |done|done|].
    + intros k. rewrite sort_strings_perm, elem_of_elements. apply (Hset (length (keys_in_order kv)) (pow2_ge _)).
    + intros d Hd. rewrite sort_strings_perm. apply (Hset d Hd).
Qed.

(** Two replicas that share two of their three keys. *)
Definition demo_a : gmap string string := {["a" := "1"; "b" := "2"; "c" := "3"]}.
Definition demo_b : gmap string string := {["a" := "1"; "b" := "5"; "c" := "3"]}.

Lemma demo_apart : lengths_fit demo_a /\ lengths_fit demo_b /\ hashes_apart demo_a demo_b.
Proof. split_and!; by_eval. Qed.

Lemma demo_diff : MerkleDiff (NewMerkleTree demo_a) (NewMerkleTree demo_b) = ["b"].
Proof. by_eval. Qed.

Lemma merkle_tree_diff_exact_witness : "b" ∈ ["b"] <-> demo_a !! "b" <> demo_b !! "b".
Proof.
  destruct demo_apart as (H1 & H2 & H3).
  pose proof (proj1 (proj2 (proj2 (merkle_tree_diff_exact demo_a demo_b H1 H2 H3))) "b") as H.
  rewrite demo_diff in H. exact H.
Defined.

(** Replicas of one coordinator that have caught up have equal trees: the
    snapshot of a store keeps the value of every key. *)
Lemma Snapshot_lookup r k : Snapshot r !! k = Value <$> store r !! k.
Proof.
  unfold Snapshot. rewrite (range_fold_keyed _ (fun i _ vv => Some (Value vv))).
  - by destruct (store r !! k).
  - intros out i v j. case_decide; simplify_map_eq; done.
Qed.
