(* ===== verification/MultiRaft.v ===== *)
(** * Sharded Raft groups: driving the Raft library (pkg/multiraft)

    This file models multiraft.go: shards of Raft peers, the loop that drains
    the library's Ready batches, and the message queue between peers.  The Raft
    engine (go.etcd.io/raft) and the storage backend are not part of the
    repository; they are the class [Raft], a type of node states and one of
    storage states with the functions the source calls on them.  Nothing is
    assumed of them: the theorems hold for every engine and every storage,
    however it fails.

    Go ranges over the nodes of a shard in an arbitrary order, so every pass of
    the loop takes the order it visits them in from an argument.  The loop runs
    on fuel ([None] when it runs out), since how long it runs depends on the
    engine.  [log] is not in the source: it records the calls made to the
    engine and to the storage, in order, so that the durability protocol can be
    stated. *)
From S2P Require Import Prelude.
Local Open Scope Z_scope.

Inductive EntryType := EntryNormal | EntryConfChange | EntryConfChangeV2.

Record Entry := mkEntry { Index : Z; EType : EntryType; Data : list Z }.

(** The engine and the storage: what the source uses of them. *)
Class Raft := {
  RawNode : Type;
  Persister : Type;
  HardState : Type;
  Payload : Type;
  ConfChange : Type;
  error : Type;
  IsEmptyHardState : HardState -> bool;
  unmarshalConfChange : list Z -> option ConfChange;
  unmarshalConfChangeV2 : list Z -> option ConfChange;
  SetHardState : Persister -> HardState -> Persister * option error;
  StorAppend : Persister -> list Entry -> Persister * option error;
}.

Record Message `{Raft} := mkMessage { From : Z; To : Z; Body : Payload }.

Record Ready `{Raft} := mkReady {
  rd_HardState : HardState;
  Entries : list Entry;
  Messages : list Message;
  CommittedEntries : list Entry;
}.

(** The methods of a RawNode; each reads the storage the node was given. *)
Class RaftNode `{Raft} := {
  NewRawNode : Persister -> Z -> option RawNode;
  Bootstrap : Persister -> RawNode -> list Z -> option RawNode;
  HasReady : Persister -> RawNode -> bool;
  raw_Ready : Persister -> RawNode -> Ready * RawNode;
  raw_Advance : Persister -> RawNode -> Ready -> RawNode;
  raw_Step : Persister -> RawNode -> Message -> RawNode;
  raw_Tick : Persister -> RawNode -> RawNode;
  raw_Campaign : Persister -> RawNode -> RawNode * option error;
  raw_Propose : Persister -> RawNode -> list Z -> RawNode * option error;
  ApplyConfChange : Persister -> RawNode -> ConfChange -> RawNode;
  IsLeader : Persister -> RawNode -> bool;
}.

Section multiraft.
Context `{HR : Raft, HN : !RaftNode}.

(** A parked Ready is [pendingReady]; [hasPendingReady] of the source is
    whether it is there. *)
Record node := mkNode {
  id : Z; raw : RawNode; storage : Persister;
  committed : list (list Z); applied : Z; stopped : bool; pendingReady : option Ready;
}.

Definition park (rd : Ready) (n : node) : node :=
  mkNode (id n) (raw n) (storage n) (committed n) (applied n) (stopped n) (Some rd).

Definition clearParked (n : node) : node :=
  mkNode (id n) (raw n) (storage n) (committed n) (applied n) (stopped n) None.

Definition set_raw (r : RawNode) (n : node) : node :=
  mkNode (id n) r (storage n) (committed n) (applied n) (stopped n) (pendingReady n).

Definition set_storage (st : Persister) (n : node) : node :=
  mkNode (id n) (raw n) st (committed n) (applied n) (stopped n) (pendingReady n).

(** The calls to the engine and the storage that the protocol orders. *)
Inductive event :=
  | EvReady (n : Z) (rd : Ready)
  | EvSetHardState (n : Z) (hs : HardState) (ok : bool)
  | EvAppend (n : Z) (es : list Entry) (ok : bool)
  | EvDeliver (n : Z) (msg : Message)
  | EvApply (n : Z) (e : Entry)
  | EvAdvance (n : Z) (rd : Ready).

Definition event_node (e : event) : Z :=
  match e with
  | EvReady n _ | EvSetHardState n _ _ | EvAppend n _ _ | EvDeliver n _ | EvApply n _ | EvAdvance n _ => n
  end.

(** [RemoveShard] sets the node map of the shard to nil; the read handlers keep
    their nodes, so the map stays and [nodes_nil] says it was dropped. *)
Record shard := mkShard { sh_id : string; nodes : gmap Z node; nodes_nil : bool; pending : list Message; log : list event }.

Definition set_nodes (s : shard) (ns : gmap Z node) : shard := mkShard (sh_id s) ns (nodes_nil s) (pending s) (log s).
Definition record (s : shard) (es : list event) : shard := mkShard (sh_id s) (nodes s) (nodes_nil s) (pending s) (log s ++ es).

(** [sh.nodes[id]] *)
Definition sh_node (s : shard) (i : Z) : option node := if nodes_nil s then None else nodes s !! i.

Definition with_node (s : shard) (i : Z) (f : node -> node) : shard := set_nodes s (alter f i (nodes s)).

(** Stepping a message into its destination if it is a live node: the inbox
    handler, and the self-directed case of [deliver]. *)
Definition step_into (s : shard) (msg : Message) : shard :=
  match sh_node s (To msg) with
  | Some dst => if stopped dst then s else with_node s (To msg) (fun n => set_raw (raw_Step (storage n) (raw n) msg) n)
  | None => s
  end.

Definition deliver (s : shard) (msg : Message) : shard :=
  if decide (To msg = From msg) then step_into s msg
  else mkShard (sh_id s) (nodes s) (nodes_nil s) (pending s ++ [msg]) (log s).

(** One committed entry. *)
Definition apply_entry (n : node) (ent : Entry) : node :=
  let n := match EType ent with
    | EntryConfChange => match unmarshalConfChange (Data ent) with
                         | Some cc => set_raw (ApplyConfChange (storage n) (raw n) cc) n | None => n end
    | EntryConfChangeV2 => match unmarshalConfChangeV2 (Data ent) with
                           | Some cc => set_raw (ApplyConfChange (storage n) (raw n) cc) n | None => n end
    | EntryNormal => if decide (0 < length (Data ent))%nat
                     then mkNode (id n) (raw n) (storage n) (committed n ++ [Data ent]) (applied n) (stopped n) (pendingReady n)
                     else n
    end in
  if decide (applied n < Index ent)
  then mkNode (id n) (raw n) (storage n) (committed n) (Index ent) (stopped n) (pendingReady n) else n.

(** A persistence error names the node and the failed call. *)
Inductive persist_error := ErrSetHardState (n : Z) (e : error) | ErrAppend (n : Z) (e : error).

(** (1) Persisting a Ready: the storage, the calls made and the error. *)
Definition persist (n : node) (rd : Ready) : node * list event * option persist_error :=
  let '(n, ev, err) :=
    if IsEmptyHardState (rd_HardState rd) then (n, [], None)
    else let '(st, e) := SetHardState (storage n) (rd_HardState rd) in
         (set_storage st n, [EvSetHardState (id n) (rd_HardState rd) (bool_decide (e = None))], ErrSetHardState (id n) <$> e) in
  match err with
  | Some err => (n, ev, Some err)
  | None =>
      if decide (0 < length (Entries rd))%nat
      then let '(st, e) := StorAppend (storage n) (Entries rd) in
           (set_storage st n, ev ++ [EvAppend (id n) (Entries rd) (bool_decide (e = None))], ErrAppend (id n) <$> e)
      else (n, ev, None)
  end.

Inductive outcome := Skipped | Faulted (e : persist_error) | Progressed.

(** (2) to (4): queue the messages, apply the committed entries, advance. *)
Definition handle (s : shard) (i : Z) (rd : Ready) : shard :=
  let s := foldl (fun s msg => record (deliver s msg) [EvDeliver i msg]) s (Messages rd) in
  let s := foldl (fun s ent => record (with_node s i (fun n => apply_entry n ent)) [EvApply i ent]) s (CommittedEntries rd) in
  record (with_node s i (fun n => set_raw (raw_Advance (storage n) (raw n) rd) n)) [EvAdvance i rd].

Definition attempt (s : shard) (i : Z) (n : node) (rd : Ready) : shard * outcome :=
  let '(n', ev, err) := persist n rd in
  let s := record (with_node s i (fun _ => n')) ev in
  match err with
  | Some e => (with_node s i (park rd), Faulted e)
  | None => (handle (with_node s i clearParked) i rd, Progressed)
  end.

(** One iteration of the inner loop. *)
Definition process_one (s : shard) (i : Z) : shard * outcome :=
  match sh_node s i with
  | None => (s, Skipped)
  | Some n =>
      if stopped n then (s, Skipped)
      else match pendingReady n with
        | Some rd => attempt s i n rd
        | None =>
            if HasReady (storage n) (raw n)
            then let '(rd, r) := raw_Ready (storage n) (raw n) in
                 attempt (record (with_node s i (set_raw r)) [EvReady i rd]) i (set_raw r n) rd
            else (s, Skipped)
        end
  end.

(** A pass over the nodes in the given order: the shard, whether a node made
    progress, and the first error so far. *)
Definition process_pass (s : shard) (firstErr : option persist_error) (order : list Z) : shard * bool * option persist_error :=
  foldl (fun '(s, did, firstErr) i =>
    match process_one s i with
    | (s, Skipped) => (s, did, firstErr)
    | (s, Faulted e) => (s, did, match firstErr with None => Some e | _ => firstErr end)
    | (s, Progressed) => (s, true, firstErr)
    end) (s, false, firstErr) order.

(** The outer loop; [order k] is the order of the pass with [k] more to go. *)
Fixpoint process_loop (fuel : nat) (order : nat -> list Z) (s : shard) (progressed : bool) (firstErr : option persist_error)
  : option (shard * bool * option persist_error) :=
  match fuel with
  | O => None
  | S fuel =>
      let '(s, did, firstErr) := process_pass s firstErr (order fuel) in
      if did : bool then process_loop fuel order s true firstErr else Some (s, progressed, firstErr)
  end.

Definition processReadyLockedErr (fuel : nat) (order : nat -> list Z) (s : shard) : option (shard * bool * option persist_error) :=
  process_loop fuel order s false None.

Definition error_node (e : persist_error) : Z := match e with ErrSetHardState n _ | ErrAppend n _ => n end.

(** ** The durability protocol

    A node's calls, as a language.  [log_ok n parked l] says that [l] is a
    sequence of complete rounds, each a Ready, failed attempts to persist it, a
    successful attempt, the delivery of its messages, the application of its
    committed entries and its Advance, in this order, followed by an unfinished
    round if a Ready is parked. *)
Definition hard_events (n : Z) (rd : Ready) (ok : bool) : list event :=
  if IsEmptyHardState (rd_HardState rd) then [] else [EvSetHardState n (rd_HardState rd) ok].

Definition append_events (n : Z) (rd : Ready) (ok : bool) : list event :=
  if decide (0 < length (Entries rd))%nat then [EvAppend n (Entries rd) ok] else [].

Inductive failed_attempt (n : Z) (rd : Ready) : list event -> Prop :=
  | fail_hard : IsEmptyHardState (rd_HardState rd) = false -> failed_attempt n rd (hard_events n rd false)
  | fail_append : (0 < length (Entries rd))%nat -> failed_attempt n rd (hard_events n rd true ++ append_events n rd false).

Definition good_round (n : Z) (rd : Ready) : list event :=
  hard_events n rd true ++ append_events n rd true ++ (EvDeliver n <$> Messages rd) ++
  (EvApply n <$> CommittedEntries rd) ++ [EvAdvance n rd].

Inductive log_ok (n : Z) : option Ready -> list event -> Prop :=
  | log_nil : log_ok n None []
  | log_take rd l : log_ok n None l -> log_ok n (Some rd) (l ++ [EvReady n rd])
  | log_fail rd l f : log_ok n (Some rd) l -> failed_attempt n rd f -> log_ok n (Some rd) (l ++ f)
  | log_done rd l : log_ok n (Some rd) l -> log_ok n None (l ++ good_round n rd).

(** The calls for one node. *)
Definition node_log (n : Z) (l : list event) : list event := filter (fun e => event_node e = n) l.

(** The application payload of a committed entry. *)
Definition payload (ent : Entry) : option (list Z) :=
  match EType ent with EntryNormal => if decide (0 < length (Data ent))%nat then Some (Data ent) else None | _ => None end.

Definition applied_entries (l : list event) : list Entry :=
  omap (fun e => match e with EvApply _ ent => Some ent | _ => None end) l.

(** What is known of a node, given the calls made for it. *)
Record node_ok (i : Z) (n : node) (l : list event) : Prop := {
  ok_id : id n = i;
  ok_log : log_ok i (pendingReady n) (node_log i l);
  ok_committed : committed n = omap payload (applied_entries (node_log i l));
}.

Definition shard_ok (s : shard) : Prop := forall i n, nodes s !! i = Some n -> node_ok i n (log s).

(** *** Proofs *)

(** The part of a node the protocol is about. *)
Definition book (n : node) : Z * option Ready * list (list Z) * bool := (id n, pendingReady n, committed n, stopped n).

Definition same_books (s s' : shard) (j : Z) : Prop := book <$> nodes s' !! j = book <$> nodes s !! j.

Lemma same_books_trans s s' s'' j : same_books s s' j -> same_books s' s'' j -> same_books s s'' j.
Proof. unfold same_books. congruence. Qed.

Lemma with_node_books s i f j : (forall n, book (f n) = book n) -> same_books s (with_node s i f) j.
Proof.
  intros Hf. unfold same_books, with_node. simpl. rewrite lookup_alter. case_decide; [subst|done].
  destruct (nodes s !! j); simpl; by rewrite ?Hf.
Qed.

Lemma with_node_other s i f j : i <> j -> same_books s (with_node s i f) j.
Proof. intros Hij. unfold same_books, with_node. simpl. by rewrite lookup_alter_ne. Qed.

Lemma deliver_books s msg j : same_books s (deliver s msg) j.
Proof.
  unfold deliver, step_into. case_decide; [|done]. destruct (sh_node s (To msg)) as [dst|]; [|done].
  destruct (stopped dst); [done|]. by apply with_node_books.
Qed.

Lemma deliver_log s msg : log (deliver s msg) = log s.
Proof.
  unfold deliver, step_into. case_decide; [|done]. destruct (sh_node s (To msg)) as [dst|]; [|done]. by destruct (stopped dst).
Qed.

Lemma messages_spec (ms : list Message) s i :
  let s' := foldl (fun s msg => record (deliver s msg) [EvDeliver i msg]) s ms in
  (forall j, same_books s s' j) /\ log s' = log s ++ (EvDeliver i <$> ms).
Proof.
  induction ms as [|msg ms IH] using rev_ind; [simpl; by rewrite app_nil_r|].
  rewrite foldl_snoc. destruct IH as [Hb Hl]. cbv zeta. split.
  - intros j. eapply same_books_trans; [apply Hb|]. apply deliver_books.
  - simpl. by rewrite deliver_log, Hl, fmap_app, app_assoc.
Qed.

Lemma apply_entry_book n ent :
  book (apply_entry n ent) = (id n, pendingReady n, committed n ++ option_list (payload ent), stopped n).
Proof.
  unfold apply_entry, payload, book. destruct (EType ent).
  - case_decide as Hd; simpl; case_decide; simpl; by rewrite ?app_nil_r.
  - destruct (unmarshalConfChange _); simpl; case_decide; simpl; by rewrite app_nil_r.
  - destruct (unmarshalConfChangeV2 _); simpl; case_decide; simpl; by rewrite app_nil_r.
Qed.

Lemma entries_spec (es : list Entry) s i :
  let s' := foldl (fun s ent => record (with_node s i (fun n => apply_entry n ent)) [EvApply i ent]) s es in
  (forall j, i <> j -> same_books s s' j) /\
  book <$> nodes s' !! i = (fun n => (id n, pendingReady n, committed n ++ omap payload es, stopped n)) <$> nodes s !! i /\
  log s' = log s ++ (EvApply i <$> es).
Proof.
  induction es as [|ent es IH] using rev_ind.
  { simpl. rewrite !app_nil_r. split_and!; [done| |done]. destruct (nodes s !! i); simpl; [by rewrite app_nil_r|done]. }
  rewrite foldl_snoc. destruct IH as (Ho & Hi & Hl). cbv zeta. set (s1 := foldl _ _ es) in *. split_and!.
  - intros j Hij. eapply same_books_trans; [by apply Ho|]. by apply with_node_other.
  - simpl. rewrite lookup_alter_eq. destruct (nodes s1 !! i) as [n1|], (nodes s !! i) as [n|]; simpl in *; try done.
    unfold book in Hi. injection Hi as Hid Hp Hc Hst. f_equal. rewrite apply_entry_book, Hid, Hp, Hc, Hst, omap_app, app_assoc.
    simpl. by destruct (payload ent).
  - simpl. by rewrite Hl, fmap_app, app_assoc.
Qed.

Lemma handle_spec s i rd :
  (forall j, i <> j -> same_books s (handle s i rd) j) /\
  book <$> nodes (handle s i rd) !! i =
    (fun n => (id n, pendingReady n, committed n ++ omap payload (CommittedEntries rd), stopped n)) <$> nodes s !! i /\
  log (handle s i rd) = log s ++ (EvDeliver i <$> Messages rd) ++ (EvApply i <$> CommittedEntries rd) ++ [EvAdvance i rd].
Proof.
  unfold handle. destruct (messages_spec (Messages rd) s i) as [Hb1 Hl1]. set (s1 := foldl _ s _) in *.
  destruct (entries_spec (CommittedEntries rd) s1 i) as (Ho2 & Hi2 & Hl2). set (s2 := foldl _ s1 _) in *. split_and!.
  - intros j Hij. eapply same_books_trans; [apply Hb1|]. eapply same_books_trans; [by apply Ho2|]. by apply with_node_other.
  - pose proof (with_node_books s2 i (fun n => set_raw (raw_Advance (storage n) (raw n) rd) n) i ltac:(done)) as Hb.
    unfold same_books in Hb. simpl in *. rewrite Hb, Hi2. specialize (Hb1 i). unfold same_books in Hb1.
    destruct (nodes s1 !! i) as [n1|], (nodes s !! i) as [n|]; simpl in *; try done.
    unfold book in Hb1. by injection Hb1 as -> -> -> ->.
  - simpl. by rewrite Hl2, Hl1, <- !app_assoc.
Qed.

Lemma persist_spec n rd n' ev err :
  persist n rd = (n', ev, err) ->
  book n' = book n /\ Forall (fun e => event_node e = id n) ev /\
  match err with
  | Some _ => failed_attempt (id n) rd ev
  | None => ev = hard_events (id n) rd true ++ append_events (id n) rd true
  end.
Proof.
  unfold persist. destruct (IsEmptyHardState (rd_HardState rd)) eqn:Eh.
  - case_decide as He.
    + destruct (StorAppend _ _) as [st e]. intros [= <- <- <-]. split_and!; [done|by repeat constructor|].
      destruct e; simpl.
      * pose proof (fail_append (id n) rd He) as H. unfold hard_events, append_events in H. by rewrite Eh, decide_True in H.
      * unfold hard_events, append_events. by rewrite Eh, decide_True.
    + intros [= <- <- <-]. split_and!; [done|constructor|]. unfold hard_events, append_events. by rewrite Eh, decide_False.
  - destruct (SetHardState _ _) as [st e]. destruct e as [e|]; simpl.
    + intros [= <- <- <-]. split_and!; [done|by repeat constructor|].
      pose proof (fail_hard (id n) rd Eh) as H. unfold hard_events in H. by rewrite Eh in H.
    + case_decide as He.
      * destruct (StorAppend _ _) as [st' e']. intros [= <- <- <-]. split_and!; [done|by repeat constructor|].
        destruct e'; simpl.
        -- pose proof (fail_append (id n) rd He) as H. unfold hard_events, append_events in H. by rewrite Eh, decide_True in H.
        -- unfold hard_events, append_events. by rewrite Eh, decide_True.
      * intros [= <- <- <-]. split_and!; [done|by repeat constructor|]. unfold hard_events, append_events. by rewrite Eh, decide_False.
Qed.

Lemma node_log_app i l l' : node_log i (l ++ l') = node_log i l ++ node_log i l'.
Proof. apply filter_app. Qed.

Lemma node_log_self i l : Forall (fun e => event_node e = i) l -> node_log i l = l.
Proof. intros H. unfold node_log. induction H as [|e l He _ IH]; [done|]. by rewrite filter_cons_True, IH. Qed.

Lemma node_log_other i j l : i <> j -> Forall (fun e => event_node e = i) l -> node_log j l = [].
Proof.
  intros Hij H. unfold node_log. induction H as [|e l He _ IH]; [done|]. rewrite filter_cons_False; [done|]. congruence.
Qed.

Lemma failed_attempt_events i rd l : failed_attempt i rd l -> Forall (fun e => event_node e = i) l /\ applied_entries l = [].
Proof.
  intros [|]; unfold hard_events, append_events; repeat case_match; try case_decide; split; by repeat constructor.
Qed.

Lemma persist_events i rd h a :
  Forall (fun e => event_node e = i) (hard_events i rd h ++ append_events i rd a) /\ applied_entries (hard_events i rd h ++ append_events i rd a) = [].
Proof. unfold hard_events, append_events. repeat case_match; split; by repeat constructor. Qed.

Lemma finish_events i rd :
  let l := (EvDeliver i <$> Messages rd) ++ (EvApply i <$> CommittedEntries rd) ++ [EvAdvance i rd] in
  Forall (fun e => event_node e = i) l /\ applied_entries l = CommittedEntries rd.
Proof.
  unfold applied_entries. cbv zeta. split.
  - repeat apply Forall_app_2; try apply Forall_fmap, Forall_true; try done. by repeat constructor.
  - rewrite !omap_app.
    assert (forall l, omap (fun e => match e with EvApply _ ent => Some ent | _ => None end) (EvDeliver i <$> l) = []) as ->
      by (intros l; by induction l).
    assert (forall l, omap (fun e => match e with EvApply _ ent => Some ent | _ => None end) (EvApply i <$> l) = l) as ->
      by (intros l; induction l as [|x l IH]; [done|]; rewrite fmap_cons; cbn; f_equal; exact IH).
    simpl. by rewrite app_nil_r.
Qed.

Lemma good_round_events i rd :
  Forall (fun e => event_node e = i) (good_round i rd) /\ applied_entries (good_round i rd) = CommittedEntries rd.
Proof.
  unfold good_round. rewrite app_assoc. destruct (persist_events i rd true true) as [H1 H2], (finish_events i rd) as [H3 H4]. cbv zeta in *. split; [by apply Forall_app_2|].
  unfold applied_entries in *. by rewrite omap_app, H2, H4.
Qed.

(** Extending the log with calls of node [i] keeps what is known of the others. *)
Lemma node_ok_frame s s' i j n' es :
  i <> j -> (forall n, nodes s !! j = Some n -> node_ok j n (log s)) -> same_books s s' j ->
  log s' = log s ++ es -> Forall (fun e => event_node e = i) es -> nodes s' !! j = Some n' -> node_ok j n' (log s').
Proof.
  intros Hij Hok Hb Hl Hes Hn'. unfold same_books in Hb. rewrite Hn' in Hb. destruct (nodes s !! j) as [n|]; [|done].
  simpl in Hb. injection Hb as Hid Hp Hc _. destruct (Hok n eq_refl) as [H1 H2 H3].
  rewrite Hl. split; rewrite ?node_log_app, ?(node_log_other i j es Hij Hes), ?app_nil_r; congruence.
Qed.

Lemma attempt_ok s i n rd :
  nodes s !! i = Some n -> id n = i -> log_ok i (Some rd) (node_log i (log s)) ->
  committed n = omap payload (applied_entries (node_log i (log s))) ->
  (forall j nj, i <> j -> nodes s !! j = Some nj -> node_ok j nj (log s)) -> shard_ok (attempt s i n rd).1.
Proof.
  intros Hn Hid Hlog Hcom Hoth. unfold attempt. destruct (persist n rd) as [[n' ev] err] eqn:Ep.
  apply persist_spec in Ep as (Hb & Hev & Herr). rewrite Hid in Hev, Herr.
  set (s1 := record (with_node s i (fun _ => n')) ev).
  assert (nodes s1 !! i = Some n') as Hn1 by (simpl; by rewrite lookup_alter_eq, Hn).
  unfold book in Hb. injection Hb as Hid' Hp' Hc' _.
  destruct err as [e|]; simpl; intros j nj Hj.
  - destruct (failed_attempt_events _ _ _ Herr) as [_ Ha]. destruct (decide (i = j)) as [<-|Hij].
    + assert (nj = park rd n') as -> by (simpl in Hj; rewrite !lookup_alter_eq, Hn in Hj; by simplify_eq/=).
      split; simpl; [congruence|..]; rewrite node_log_app, (node_log_self i ev Hev); [by constructor|].
      unfold applied_entries in *. by rewrite omap_app, Ha, app_nil_r, <- Hcom.
    + eapply (node_ok_frame s (with_node s1 i (park rd)) i j nj ev Hij); try done; [auto|].
      eapply same_books_trans; [|by apply with_node_other]. by apply (with_node_other s i (fun _ => n')).
  - subst ev. destruct (handle_spec (with_node s1 i clearParked) i rd) as (Ho & Hi & Hl).
    assert (log (handle (with_node s1 i clearParked) i rd) = log s ++ good_round i rd) as Hl'.
    { rewrite Hl. simpl. unfold good_round. by rewrite <- !app_assoc. }
    destruct (good_round_events i rd) as [Hg Ha]. destruct (decide (i = j)) as [<-|Hij].
    + rewrite Hj in Hi. simpl in Hi. rewrite !lookup_alter_eq, Hn in Hi. simpl in Hi. unfold book in Hi.
      injection Hi as Hi1 Hi2 Hi3 _.
      split; [congruence|..]; rewrite Hl', node_log_app, (node_log_self i _ Hg).
      * rewrite Hi2. by constructor.
      * unfold applied_entries in *. by rewrite omap_app, Ha, omap_app, Hi3, Hc', Hcom.
    + eapply (node_ok_frame s _ i j nj (good_round i rd) Hij); try done; [auto|].
      eapply same_books_trans; [|by apply Ho]. eapply same_books_trans; [|by apply with_node_other].
      by apply (with_node_other s i (fun _ => n')).
Qed.

Lemma sh_node_lookup s i n : sh_node s i = Some n -> nodes s !! i = Some n.
Proof. unfold sh_node. by destruct (nodes_nil s). Qed.

Lemma process_one_ok s i : shard_ok s -> shard_ok (process_one s i).1.
Proof.
  intros Hok. unfold process_one. destruct (sh_node s i) as [n|] eqn:En; [|done]. apply sh_node_lookup in En.
  destruct (stopped n); [done|]. destruct (Hok i n En) as [Hid Hlog Hcom].
  destruct (pendingReady n) as [rd|] eqn:Ep; [by apply attempt_ok; auto|].
  destruct (HasReady _ _); [|done]. destruct (raw_Ready _ _) as [rd r].
  apply attempt_ok; simpl.
  - by rewrite lookup_alter_eq, En.
  - done.
  - rewrite node_log_app, (node_log_self i [EvReady i rd]) by (by repeat constructor). by constructor.
  - rewrite node_log_app, (node_log_self i [EvReady i rd]) by (by repeat constructor). unfold applied_entries in *.
    by rewrite omap_app, app_nil_r.
  - intros j nj Hij Hj.
    eapply (node_ok_frame s (record (with_node s i (set_raw r)) [EvReady i rd]) i j nj [EvReady i rd] Hij); try done.
    + auto.
    + by apply (with_node_other s i (set_raw r)).
    + by repeat constructor.
Qed.

Lemma process_pass_ok order s fe : shard_ok s -> shard_ok (process_pass s fe order).1.1.
Proof.
  intros Hok. unfold process_pass. generalize false as did.
  revert s fe Hok. induction order as [|i order IH]; intros s fe Hok did; [done|]. simpl.
  pose proof (process_one_ok s i Hok) as H. destruct (process_one s i) as [s' []]; by apply IH.
Qed.

Lemma process_loop_ok fuel order s b fe s' b' fe' :
  process_loop fuel order s b fe = Some (s', b', fe') -> shard_ok s -> shard_ok s'.
Proof.
  revert s b fe. induction fuel as [|fuel IH]; intros s b fe E Hok; [done|]. simpl in E.
  pose proof (process_pass_ok (order fuel) s fe Hok) as H. destruct (process_pass s fe (order fuel)) as [[s1 did] fe1].
  destruct did; [by eapply IH|]. by simplify_eq.
Qed.

(** *** What the loop leaves behind *)

(** The shard keeps its name, its nodes and which of them are stopped. *)
Definition tag (n : node) : Z * bool := (id n, stopped n).

Definition same_shape (s s' : shard) : Prop :=
  tag <$> nodes s' = tag <$> nodes s /\ nodes_nil s' = nodes_nil s /\ sh_id s' = sh_id s.

Lemma same_shape_trans s s' s'' : same_shape s s' -> same_shape s' s'' -> same_shape s s''.
Proof. intros (? & ? & ?) (? & ? & ?). split_and!; congruence. Qed.

Lemma same_shape_lookup s s' i : same_shape s s' -> tag <$> nodes s' !! i = tag <$> nodes s !! i.
Proof. intros [H _]. by rewrite <- !lookup_fmap, H. Qed.

Lemma with_node_shape s i f : (forall n, nodes s !! i = Some n -> tag (f n) = tag n) -> same_shape s (with_node s i f).
Proof.
  intros Hf. split_and!; [|done..]. apply map_eq. intros j. simpl. rewrite !lookup_fmap, lookup_alter. case_decide; [subst|done].
  destruct (nodes s !! j) eqn:E; simpl; [by rewrite Hf|done].
Qed.

Lemma step_into_shape s msg : same_shape s (step_into s msg).
Proof. unfold step_into. destruct (sh_node s (To msg)) as [dst|]; [|done]. destruct (stopped dst); [done|]. by apply with_node_shape. Qed.

Lemma deliver_shape s msg : same_shape s (deliver s msg).
Proof. unfold deliver. case_decide; [apply step_into_shape|done]. Qed.

Lemma apply_entry_tag n ent : tag (apply_entry n ent) = tag n.
Proof. pose proof (apply_entry_book n ent) as H. unfold book in H. injection H as H1 _ _ H2. unfold tag. congruence. Qed.

Lemma handle_shape s i rd : same_shape s (handle s i rd).
Proof.
  unfold handle. eapply same_shape_trans; [|by apply with_node_shape].
  assert (forall es s, same_shape s (foldl (fun s ent => record (with_node s i (fun n => apply_entry n ent)) [EvApply i ent]) s es)) as He.
  { induction es as [|e es IH]; intros s0; [done|]. simpl. eapply same_shape_trans; [|apply IH].
    apply (with_node_shape s0 i (fun n => apply_entry n e)). intros n _. apply apply_entry_tag. }
  eapply same_shape_trans; [|apply He].
  generalize (Messages rd). intros ms. revert s. induction ms as [|m ms IH]; intros s; [done|]. simpl.
  eapply same_shape_trans; [|apply IH]. by apply deliver_shape.
Qed.

Lemma attempt_shape s i n rd : nodes s !! i = Some n -> same_shape s (attempt s i n rd).1.
Proof.
  intros Hn. unfold attempt. destruct (persist n rd) as [[n' ev] err] eqn:Ep. apply persist_spec in Ep as (Hb & _).
  unfold book in Hb. injection Hb as Hid _ _ Hst.
  assert (same_shape s (record (with_node s i (fun _ => n')) ev)) as H1.
  { apply (with_node_shape s i (fun _ => n')). intros n0 Hn0. unfold tag. congruence. }
  destruct err as [e|]; simpl; (eapply same_shape_trans; [exact H1|]).
  - by apply with_node_shape.
  - eapply same_shape_trans; [|apply handle_shape]. by apply with_node_shape.
Qed.

Lemma process_one_shape s i : same_shape s (process_one s i).1.
Proof.
  unfold process_one. destruct (sh_node s i) as [n|] eqn:En; [|done]. apply sh_node_lookup in En. destruct (stopped n); [done|].
  destruct (pendingReady n); [by apply attempt_shape|]. destruct (HasReady _ _); [|done]. destruct (raw_Ready _ _).
  eapply same_shape_trans; [|apply attempt_shape; simpl; by rewrite lookup_alter_eq, En].
  by apply (with_node_shape s i (set_raw _)).
Qed.

(** A live node with nothing to do: its Ready is parked, or the engine has none. *)
Definition idle (n : node) : Prop := stopped n = true \/ is_Some (pendingReady n) \/ HasReady (storage n) (raw n) = false.

(** An iteration without progress touches no other node and leaves its own
    idle; it parks a Ready only with an error. *)
Lemma process_one_idle s i :
  (process_one s i).2 <> Progressed ->
  (forall j, i <> j -> nodes (process_one s i).1 !! j = nodes s !! j) /\
  (forall n, sh_node (process_one s i).1 i = Some n -> idle n) /\
  ((process_one s i).2 = Skipped -> forall n, sh_node (process_one s i).1 i = Some n -> stopped n = true \/ HasReady (storage n) (raw n) = false).
Proof.
  assert (forall s0 n rd, (forall j, i <> j -> nodes s0 !! j = nodes s !! j) -> (attempt s0 i n rd).2 <> Progressed ->
    (forall j, i <> j -> nodes (attempt s0 i n rd).1 !! j = nodes s !! j) /\
    (forall n', sh_node (attempt s0 i n rd).1 i = Some n' -> idle n') /\ (attempt s0 i n rd).2 <> Skipped) as Hatt.
  { intros s0 n rd Hs0. unfold attempt. destruct (persist n rd) as [[n' ev] [e|]]; simpl; [|done]. intros _. split_and!; [..|done].
    - intros j Hij. by rewrite !lookup_alter_ne, Hs0.
    - unfold sh_node. simpl. destruct (nodes_nil s0); [done|]. intros n'' Hn''. rewrite lookup_alter_eq in Hn''.
      apply fmap_Some in Hn'' as (n0 & _ & ->). right. left. by eexists. }
  unfold process_one. destruct (sh_node s i) as [n|] eqn:En.
  2: { simpl. rewrite En. done. }
  destruct (stopped n) eqn:Es; [simpl; rewrite En; intros _; split_and!; [done|intros ? [= <-]; by left|intros _ ? [= <-]; by left]|].
  destruct (pendingReady n) as [rd|] eqn:Ep.
  { intros Hne. destruct (Hatt s n rd ltac:(done) Hne) as (? & ? & ?). split_and!; done. }
  destruct (HasReady _ _) eqn:Eh.
  2: { simpl. rewrite En. intros _. split_and!; [done|intros ? [= <-]; by right; right|intros _ ? [= <-]; by right]. }
  destruct (raw_Ready _ _) as [rd r]. intros Hne.
  destruct (Hatt (record (with_node s i (set_raw r)) [EvReady i rd]) (set_raw r n) rd) as (? & ? & ?); [|done|split_and!; done].
  intros j Hij. simpl. by rewrite lookup_alter_ne.
Qed.

Lemma process_pass_idle order s fe s' fe' :
  process_pass s fe order = (s', false, fe') ->
  same_shape s s' /\ (forall i n, i ∈ order -> sh_node s' i = Some n -> idle n) /\
  (fe' = None -> forall i n, i ∈ order -> sh_node s' i = Some n -> stopped n = true \/ HasReady (storage n) (raw n) = false) /\
  (forall j, j ∉ order -> nodes s' !! j = nodes s !! j).
Proof.
  unfold process_pass. revert s'  fe'. induction order as [|i order IH] using rev_ind; intros s' fe'.
  { simpl. intros [= <- <-]. split_and!; [done|by intros ? ? ?%elem_of_nil|by intros _ ? ? ?%elem_of_nil|done]. }
  rewrite foldl_snoc. destruct (foldl _ _ order) as [[s1 did] fe1] eqn:E1.
  pose proof (process_one_idle s1 i) as Hone. pose proof (process_one_shape s1 i) as Hsh.
  destruct (process_one s1 i) as [s2 out] eqn:E2. simpl in Hone, Hsh.
  destruct out as [|e|]; intros [= <- Hdid <-].
  - subst did. destruct (IH s1 fe1 eq_refl) as (H1 & H2 & H3 & H4). destruct Hone as (Ho & Hi & Hs); [done|].
    assert (forall j, i <> j -> sh_node s2 j = sh_node s1 j) as Hsn.
    { intros j Hij. unfold sh_node. rewrite (proj1 (proj2 Hsh)). by rewrite Ho. }
    split_and!; [by eapply same_shape_trans|..].
    + intros j n Hj Hn. rewrite elem_of_app, list_elem_of_singleton in Hj. destruct (decide (i = j)) as [<-|Hij]; [by apply Hi|]. rewrite Hsn in Hn by done. apply (H2 j); [by destruct Hj as [?| ->]|done].
    + intros Hfe j n Hj Hn. rewrite elem_of_app, list_elem_of_singleton in Hj. destruct (decide (i = j)) as [<-|Hij]; [by apply Hs|].
      rewrite Hsn in Hn by done. apply (H3 Hfe j); [by destruct Hj as [?| ->]|done].
    + intros j Hj. rewrite elem_of_app, list_elem_of_singleton in Hj. rewrite Ho by (intros ->; apply Hj; by right). apply H4. intros ?. apply Hj. by left.
  - subst did. destruct (IH s1 fe1 eq_refl) as (H1 & H2 & H3 & H4). destruct Hone as (Ho & Hi & Hs); [done|].
    assert (forall j, i <> j -> sh_node s2 j = sh_node s1 j) as Hsn.
    { intros j Hij. unfold sh_node. rewrite (proj1 (proj2 Hsh)). by rewrite Ho. }
    split_and!; [by eapply same_shape_trans| |by destruct fe1|].
    + intros j n Hj Hn. rewrite elem_of_app, list_elem_of_singleton in Hj. destruct (decide (i = j)) as [<-|Hij]; [by apply Hi|].
      rewrite Hsn in Hn by done. apply (H2 j); [by destruct Hj as [?| ->]|done].
    + intros j Hj. rewrite elem_of_app, list_elem_of_singleton in Hj. rewrite Ho by (intros ->; apply Hj; by right).
      apply H4. intros ?. apply Hj. by left.
Qed.

Lemma process_pass_shape order s fe : same_shape s (process_pass s fe order).1.1.
Proof.
  unfold process_pass. generalize false as did. revert s fe. induction order as [|i order IH]; intros s fe did; [done|]. simpl.
  pose proof (process_one_shape s i) as H. destruct (process_one s i) as [s' []]; (eapply same_shape_trans; [exact H|apply IH]).
Qed.

Lemma process_loop_idle fuel order s b fe s' b' fe' :
  process_loop fuel order s b fe = Some (s', b', fe') ->
  (forall k i n, sh_node s i = Some n -> i ∈ order k) ->
  same_shape s s' /\ (forall i n, sh_node s' i = Some n -> idle n) /\
  (fe' = None -> forall i n, sh_node s' i = Some n -> stopped n = true \/ HasReady (storage n) (raw n) = false).
Proof.
  revert s b fe. induction fuel as [|fuel IH]; intros s b fe E Hord; [done|]. simpl in E.
  pose proof (process_pass_shape (order fuel) s fe) as Hsh.
  destruct (process_pass s fe (order fuel)) as [[s1 did] fe1] eqn:Ep. simpl in Hsh.
  assert (forall i n, sh_node s1 i = Some n -> exists n', sh_node s i = Some n') as Hback.
  { intros i n. unfold sh_node. pose proof (same_shape_lookup _ _ i Hsh) as Hi. destruct Hsh as (_ & Hn & _). rewrite Hn.
    destruct (nodes_nil s); [done|]. intros H. rewrite H in Hi. destruct (nodes s !! i); [eauto|done]. }
  destruct did.
  - eapply IH in E as (H1 & H2); [|intros k i n Hi; destruct (Hback i n Hi); eauto].
    split; [by eapply same_shape_trans|done].
  - injection E as <- <- <-. destruct (process_pass_idle _ _ _ _ _ Ep) as (H1 & H2 & H3 & _). split_and!; [done|..].
    + intros i n Hi. destruct (Hback i n Hi). eauto.
    + intros Hfe i n Hi. destruct (Hback i n Hi). eauto.
Qed.

(** ** The critical sections of a shard *)

(** Every live node ticks. *)
Definition tick_nodes (s : shard) : shard :=
  if nodes_nil s then s
  else set_nodes s ((fun n => if stopped n then n else set_raw (raw_Tick (storage n) (raw n)) n) <$> nodes s).

(** The first live leader in the order the nodes are visited in. *)
Fixpoint leaderLocked (order : list Z) (s : shard) : option node :=
  match order with
  | [] => None
  | i :: order =>
      match sh_node s i with
      | Some n => if stopped n then leaderLocked order s
                  else if IsLeader (storage n) (raw n) then Some n else leaderLocked order s
      | None => leaderLocked order s
      end
  end.

Definition propose_to (s : shard) (i : Z) (data : list Z) : shard :=
  with_node s i (fun n => set_raw (raw_Propose (storage n) (raw n) data).1 n).

Definition campaign_node (s : shard) (i : Z) : shard :=
  with_node s i (fun n => set_raw (raw_Campaign (storage n) (raw n)).1 n).

Definition stop_node (s : shard) (i : Z) : shard :=
  with_node s i (fun n => mkNode (id n) (raw n) (storage n) (committed n) (applied n) true (pendingReady n)).

Definition take_pending (s : shard) : shard := mkShard (sh_id s) (nodes s) (nodes_nil s) [] (log s).

Definition drop_nodes (s : shard) : shard := mkShard (sh_id s) (nodes s) true (pending s) (log s).

(** What can happen to a shard while its lock is held: the calls of the public
    operations, and messages handed to it by any transport at any time. *)
Inductive shard_step : shard -> shard -> Prop :=
  | step_process s s' fuel order b fe : processReadyLockedErr fuel order s = Some (s', b, fe) -> shard_step s s'
  | step_tick s : shard_step s (tick_nodes s)
  | step_propose s i data : shard_step s (propose_to s i data)
  | step_campaign s i : shard_step s (campaign_node s i)
  | step_receive s msg : shard_step s (step_into s msg)
  | step_flush s : shard_step s (take_pending s)
  | step_stop s i : shard_step s (stop_node s i)
  | step_remove s : shard_step s (drop_nodes s).

(** A shard as [CreateShard] leaves it. *)
Definition fresh_shard (s : shard) : Prop :=
  log s = [] /\ forall i n, nodes s !! i = Some n -> id n = i /\ committed n = [] /\ pendingReady n = None.

Lemma books_ok s s' :
  shard_ok s -> log s' = log s ->
  (forall j, (fun n => (id n, pendingReady n, committed n)) <$> nodes s' !! j = (fun n => (id n, pendingReady n, committed n)) <$> nodes s !! j) ->
  shard_ok s'.
Proof.
  intros Hok Hl Hb i n' Hn'. specialize (Hb i). rewrite Hn' in Hb. destruct (nodes s !! i) as [n|] eqn:En; [|done].
  simpl in Hb. injection Hb as H1 H2 H3. destruct (Hok i n En). rewrite Hl. split; congruence.
Qed.

Lemma shard_step_ok s s' : shard_step s s' -> shard_ok s -> shard_ok s'.
Proof.
  assert (forall s i f, (forall n, (id (f n), pendingReady (f n), committed (f n)) = (id n, pendingReady n, committed n)) ->
    shard_ok s -> shard_ok (with_node s i f)) as Hw.
  { intros s0 i f Hf Hok. apply (books_ok s0); [done|done|]. intros j. simpl. rewrite lookup_alter. case_decide; [subst|done].
    destruct (nodes s0 !! j); simpl; [by rewrite Hf|done]. }
  destruct 1 as [s s' fuel order b fe E|s|s i data|s i|s msg|s|s i|s]; intros Hok.
  - by eapply process_loop_ok.
  - unfold tick_nodes. destruct (nodes_nil s); [done|]. apply (books_ok s); [done|done|]. intros j. simpl.
    rewrite lookup_fmap. destruct (nodes s !! j) as [n|]; simpl; [by destruct (stopped n)|done].
  - by apply Hw.
  - by apply Hw.
  - unfold step_into. destruct (sh_node s (To msg)) as [dst|]; [|done]. destruct (stopped dst); [done|]. by apply Hw.
  - by apply (books_ok s).
  - by apply Hw.
  - by apply (books_ok s).
Qed.

Lemma fresh_shard_ok s : fresh_shard s -> shard_ok s.
Proof. intros [Hl Hf] i n Hn. destruct (Hf i n Hn) as (? & ? & ?). rewrite Hl. split; [done|..]; simpl; [|done]. rewrite H1. constructor. Qed.
End multiraft.

(** C2: The durability protocol of the Ready loop, for every Raft engine, every
    storage however it fails, every transport and every interleaving of the
    critical sections of a shard.  The calls made for a node are complete
    rounds in the order the engine requires: a Ready is taken only after the
    previous one was advanced, the very same Ready is persisted again until its
    hard state and its entries are both accepted, and only then are its
    messages handed over, its committed entries applied and the Ready advanced;
    an unfinished round is exactly a parked Ready.  The node's committed
    payloads are the non-empty normal entries applied, in order.  When a
    drain of the shard returns, every live node has its Ready parked or the
    engine has none for it, and without a reported error none is parked. *)
Theorem multiraft_ready_protocol `{HR : Raft} `{HN : !RaftNode} (s0 s : shard) :
  fresh_shard s0 -> rtc shard_step s0 s ->
  (forall i n, nodes s !! i = Some n -> node_ok i n (log s)) /\
  (forall fuel order s' b fe,
     processReadyLockedErr fuel order s = Some (s', b, fe) -> (forall k i n, sh_node s i = Some n -> i ∈ order k) ->
     (forall i n, sh_node s' i = Some n -> idle n) /\
     (fe = None -> forall i n, sh_node s' i = Some n -> stopped n = true \/ HasReady (storage n) (raw n) = false)).
Proof.
  intros Hf Hrun. split.
  - assert (shard_ok s); [|done]. apply fresh_shard_ok in Hf. induction Hrun as [|s1 s2 s3 Hs _ IH]; [done|].
    apply IH. by eapply shard_step_ok.
  - intros fuel order s' b fe E Hord. by destruct (process_loop_idle _ _ _ _ _ _ _ _ E Hord) as (_ & H1 & H2).
Qed.

(** An engine with one batch to hand out and a storage that fails once. *)
Module Toy.
#[export] Instance toy_raft : Raft := {|
  RawNode := nat; Persister := nat; HardState := bool; Payload := unit; ConfChange := unit; error := unit;
  IsEmptyHardState := negb; unmarshalConfChange := fun _ => None; unmarshalConfChangeV2 := fun _ => None;
  SetHardState := fun st _ => match st with O => (O, None) | S k => (k, Some tt) end;
  StorAppend := fun st _ => match st with O => (O, None) | S k => (k, Some tt) end;
|}.

#[export] Instance toy_node : RaftNode := {|
  NewRawNode := fun _ _ => Some 1%nat; Bootstrap := fun _ r _ => Some r; HasReady := fun _ r => bool_decide (r <> O);
  raw_Ready := fun _ r => (mkReady toy_raft true [mkEntry 1 EntryNormal [7]] [] [mkEntry 1 EntryNormal [7]], r);
  raw_Advance := fun _ r _ => pred r; raw_Step := fun _ r _ => r; raw_Tick := fun _ r => r;
  raw_Campaign := fun _ r => (r, None); raw_Propose := fun _ r _ => (r, None);
  ApplyConfChange := fun _ r _ => r; IsLeader := fun _ _ => true;
|}.

Definition demo : shard := mkShard "s" {[1 := mkNode 1 1%nat 1%nat [] 0 false None]} false [] [].

(** The state after two drains: the first parks the batch. *)
Definition drain (s : shard) : shard :=
  match processReadyLockedErr 5 (fun _ => [1]) s with Some (s', _, _) => s' | None => s end.
End Toy.
Import Toy.

Lemma multiraft_ready_protocol_witness :
  exists n, nodes (Toy.drain (Toy.drain Toy.demo)) !! 1 = Some n /\ committed n = [[7]] /\
    node_ok 1 n (log (Toy.drain (Toy.drain Toy.demo))).
Proof.
  eexists. split; [vm_compute; reflexivity|]. split; [reflexivity|].
  refine (proj1 (multiraft_ready_protocol Toy.demo (Toy.drain (Toy.drain Toy.demo)) _ _) 1 _ _).
  - split; [reflexivity|]. intros i n H. unfold Toy.demo in H. cbn [nodes] in H. apply lookup_singleton_Some in H as [<- <-]. done.
  - eapply rtc_l; [eapply (step_process _ (Toy.drain Toy.demo) 5 (fun _ => [1])); vm_compute; reflexivity|].
    eapply rtc_once, (step_process _ (Toy.drain (Toy.drain Toy.demo)) 5 (fun _ => [1])). vm_compute. reflexivity.
  - vm_compute. reflexivity.
Defined.
