(* ===== verification/MultiRaftManager.v ===== *)
(** * Sharded Raft groups: the manager, its transport and lease reads (pkg/multiraft)

    The manager of multiraft.go over the in-process transport of transport.go
    and the lease tracker of lease.go, on top of the shards of [MultiRaft].
    Shards and lease trackers are objects of a heap, because the handlers
    registered with the transport hold pointers to shards and clients hold
    pointers to trackers.  Times are nanoseconds; the clock a tracker was given
    and the clock of a reader are arguments.

    A call is given here as it runs when nothing disturbs it.  [MultiRaftLease]
    cuts the calls that lease reads depend on where the code releases a lock,
    and proves who serves a lease read and what it returns. *)
From S2P Require Import Prelude MultiRaft.
Local Open Scope Z_scope.

(** ** Lease tracker *)

Record lease := mkLease { holder : Z; expiresAt : Z }.

Definition lease_valid (l : lease) (nodeID now : Z) : bool :=
  if decide (holder l <> nodeID) then false else bool_decide (now < expiresAt l).

Record LeaseTracker := mkLeaseTracker { duration : Z; lt_leases : gmap string lease }.

Definition NewLeaseTracker (duration : Z) : option LeaseTracker :=
  if decide (duration <= 0) then None else Some (mkLeaseTracker duration ∅).

(** [now] is what the tracker's clock reads. *)
Definition Grant (lt : LeaseTracker) (now : Z) (shard : string) (h : Z) : LeaseTracker * Z :=
  let exp := now + duration lt in
  (mkLeaseTracker (duration lt) (<[shard := mkLease h exp]> (lt_leases lt)), exp).

Definition Revoke (lt : LeaseTracker) (shard : string) : LeaseTracker :=
  mkLeaseTracker (duration lt) (delete shard (lt_leases lt)).

Definition Leaseholder (lt : LeaseTracker) (shard : string) : option Z := holder <$> lt_leases lt !! shard.

Definition IsLocalLeaseholder (lt : LeaseTracker) (shard : string) (nodeID now : Z) : bool :=
  match lt_leases lt !! shard with None => false | Some l => lease_valid l nodeID now end.

(** ** In-process transport *)

(** A message handler is the shard object it steps messages into; a read
    handler is the shard object that owns its node. *)
Record InProcTransport := mkTransport {
  inbox : gmap (string * Z) nat; readHandlers : gmap (string * Z) nat; dropped : Z; routedReads : Z;
}.

Definition NewInProcTransport : InProcTransport := mkTransport ∅ ∅ 0 0.

Definition RegisterPeer (sid : string) (n : Z) (sh : nat) (t : InProcTransport) : InProcTransport :=
  mkTransport (<[(sid, n) := sh]> (inbox t)) (readHandlers t) (dropped t) (routedReads t).

Definition UnregisterPeer (sid : string) (n : Z) (t : InProcTransport) : InProcTransport :=
  mkTransport (delete (sid, n) (inbox t)) (readHandlers t) (dropped t) (routedReads t).

Definition RegisterReadHandler (sid : string) (n : Z) (sh : nat) (t : InProcTransport) : InProcTransport :=
  mkTransport (inbox t) (<[(sid, n) := sh]> (readHandlers t)) (dropped t) (routedReads t).

Definition UnregisterReadHandler (sid : string) (n : Z) (t : InProcTransport) : InProcTransport :=
  mkTransport (inbox t) (delete (sid, n) (readHandlers t)) (dropped t) (routedReads t).

(** ** Manager *)

Inductive mr_error (E : Type) :=
  | NeedsPeer | ErrShardExists | ErrShardNotFound | ErrNoLeader | ErrNoNode | ErrEngine (e : option E)
  | ErrReadsDisabled | ErrNotLeader | ErrNoLease | ErrLeaseExpired | ErrNoReadHandler | ErrCanceled.
Arguments NeedsPeer {E}. Arguments ErrShardExists {E}. Arguments ErrShardNotFound {E}. Arguments ErrNoLeader {E}.
Arguments ErrNoNode {E}. Arguments ErrEngine {E} _. Arguments ErrReadsDisabled {E}. Arguments ErrNotLeader {E}.
Arguments ErrNoLease {E}. Arguments ErrLeaseExpired {E}. Arguments ErrNoReadHandler {E}. Arguments ErrCanceled {E}.

Record ReadResult := mkReadResult { rValue : list Z; Local : bool; Routed : bool; ServedBy : Z }.

Section manager.
Context `{HR : Raft, HN : !RaftNode}.
Notation errors := (mr_error error).

Record MultiRaftManager := mkManager {
  objs : gmap nat shard; next_obj : nat; shards : gmap string nat; transport : InProcTransport;
  leases : option nat; trackers : gmap nat LeaseTracker; readEnabled : bool;
  newStorage : Persister;
  hooked : bool; hookCalls : list (string * Z * persist_error);
  lastPersistErr : gmap string (Z * Z * persist_error);
}.

Definition NewMultiRaftManager (st : Persister) (lts : gmap nat LeaseTracker) : MultiRaftManager :=
  mkManager ∅ 0 ∅ NewInProcTransport None lts false st false [] ∅.

Definition set_objs (m : MultiRaftManager) (o : gmap nat shard) : MultiRaftManager :=
  mkManager o (next_obj m) (shards m) (transport m) (leases m) (trackers m) (readEnabled m) (newStorage m) (hooked m) (hookCalls m) (lastPersistErr m).
Definition set_transport (m : MultiRaftManager) (t : InProcTransport) : MultiRaftManager :=
  mkManager (objs m) (next_obj m) (shards m) t (leases m) (trackers m) (readEnabled m) (newStorage m) (hooked m) (hookCalls m) (lastPersistErr m).
Definition set_trackers (m : MultiRaftManager) (lts : gmap nat LeaseTracker) : MultiRaftManager :=
  mkManager (objs m) (next_obj m) (shards m) (transport m) (leases m) lts (readEnabled m) (newStorage m) (hooked m) (hookCalls m) (lastPersistErr m).

(** The shard object behind an identifier. *)
Definition find_shard (m : MultiRaftManager) (sid : string) : option (nat * shard) :=
  p ← shards m !! sid; sh ← objs m !! p; Some (p, sh).

Definition with_shard (m : MultiRaftManager) (p : nat) (f : shard -> shard) : MultiRaftManager := set_objs m (alter f p (objs m)).

Definition nodes_of (sh : shard) : list Z := if nodes_nil sh then [] else (map_to_list (nodes sh)).*1.

Definition registerShardReadHandlers (p : nat) (sh : shard) (t : InProcTransport) : InProcTransport :=
  foldl (fun t i => RegisterReadHandler (sh_id sh) i p t) t (nodes_of sh).

(** Creating the nodes of a shard; an error of the engine aborts. *)
Fixpoint create_nodes (st : Persister) (peers rest : list Z) (ns : gmap Z node) : option (gmap Z node) :=
  match rest with
  | [] => Some ns
  | pid :: rest =>
      r ← NewRawNode st pid;
      r ← Bootstrap st r peers;
      create_nodes st peers rest (<[pid := mkNode pid r st [] 0 false None]> ns)
  end.

Definition CreateShard (m : MultiRaftManager) (sid : string) (peers : list Z) : MultiRaftManager * option errors :=
  if decide (length peers = 0)%nat then (m, Some NeedsPeer)
  else match shards m !! sid with
  | Some _ => (m, Some ErrShardExists)
  | None =>
      let sorted := merge_sort Z.le peers in
      match create_nodes (newStorage m) sorted sorted ∅ with
      | None => (m, Some (ErrEngine None))
      | Some ns =>
          let p := next_obj m in
          let sh := mkShard sid ns false [] [] in
          let t := foldl (fun t i => RegisterPeer sid i p t) (transport m) (nodes_of sh) in
          let t := if readEnabled m then registerShardReadHandlers p sh t else t in
          (mkManager (<[p := sh]> (objs m)) (S p) (<[sid := p]> (shards m)) t (leases m) (trackers m) (readEnabled m)
             (newStorage m) (hooked m) (hookCalls m) (lastPersistErr m), None)
      end
  end.

(** *** Persistence errors *)

Definition surfacePersistError (m : MultiRaftManager) (sid : string) (nodeID : Z) (e : persist_error) : MultiRaftManager :=
  let count := match lastPersistErr m !! sid with Some (c, _, _) => c | None => 0 end in
  mkManager (objs m) (next_obj m) (shards m) (transport m) (leases m) (trackers m) (readEnabled m) (newStorage m) (hooked m)
    (if hooked m then hookCalls m ++ [(sid, nodeID, e)] else hookCalls m)
    (<[sid := (i64 (count + 1), nodeID, e)]> (lastPersistErr m)).

Definition OnPersistError (m : MultiRaftManager) (h : bool) : MultiRaftManager :=
  mkManager (objs m) (next_obj m) (shards m) (transport m) (leases m) (trackers m) (readEnabled m) (newStorage m) h (hookCalls m) (lastPersistErr m).

Definition LastPersistError (m : MultiRaftManager) (sid : string) : option (Z * Z * persist_error) := lastPersistErr m !! sid.

(** [processReadyLocked] on the object [p]: the manager and whether a node made
    progress. *)
Definition processReadyLocked (fuel : nat) (order : nat -> list Z) (m : MultiRaftManager) (p : nat) : option (MultiRaftManager * bool) :=
  match objs m !! p with
  | None => Some (m, false)
  | Some sh =>
      r ← processReadyLockedErr fuel order sh;
      let '(sh', progressed, err) := r in
      let m := with_shard m p (fun _ => sh') in
      Some (match err with Some e => surfacePersistError m (sh_id sh) (error_node e) e | None => m end, progressed)
  end.

(** *** Messages *)

(** [InProcTransport.Send]: the handler takes the lock of its shard object and
    steps the message.  The error for a zero destination is ignored by the
    only caller. *)
Definition Send (m : MultiRaftManager) (sid : string) (msg : Message) : MultiRaftManager :=
  if decide (To msg = 0) then m
  else match inbox (transport m) !! (sid, To msg) with
  | None => set_transport m (mkTransport (inbox (transport m)) (readHandlers (transport m)) (i64 (dropped (transport m) + 1)) (routedReads (transport m)))
  | Some p => with_shard m p (fun sh => step_into sh msg)
  end.

Definition deliverPending (m : MultiRaftManager) (p : nat) : MultiRaftManager :=
  match objs m !! p with
  | None => m
  | Some sh => foldl (fun m msg => Send m (sh_id sh) msg) (with_shard m p take_pending) (pending sh)
  end.

(** *** Driving *)

(** How each shard is driven: the fuel and the node orders of its loop. *)
Notation schedule := (nat -> nat * (nat -> list Z)).

Definition drive (sched : schedule) (m : MultiRaftManager) (p : nat) : option (MultiRaftManager * bool) :=
  '(m, progressed) ← processReadyLocked (sched p).1 (sched p).2 m p;
  let hadPending := match objs m !! p with Some sh => bool_decide (pending sh <> []) | None => false end in
  Some (deliverPending m p, progressed || hadPending).

(** [Tick] over the shards in the order of the range. *)
Fixpoint Tick (sched : schedule) (m : MultiRaftManager) (order : list nat) : option MultiRaftManager :=
  match order with
  | [] => Some m
  | p :: order => '(m, _) ← drive sched (with_shard m p tick_nodes) p; Tick sched m order
  end.

(** One turn of the loop of [Run]. *)
Fixpoint run_turn (sched : schedule) (m : MultiRaftManager) (progressed : bool) (order : list nat) : option (MultiRaftManager * bool) :=
  match order with
  | [] => Some (m, progressed)
  | p :: order => '(m, b) ← drive sched m p; run_turn sched m (progressed || b) order
  end.

Fixpoint Run (fuel : nat) (sched : schedule) (m : MultiRaftManager) (order : list nat) : option MultiRaftManager :=
  match fuel with
  | O => None
  | S fuel =>
      '(m, progressed) ← run_turn sched m false order;
      if progressed : bool then Run fuel sched m order else Some m
  end.

(** [Propose]; [canceled] is whether the context was already done, [order] the
    order in which the nodes are searched for the leader. *)
Definition Propose (sched : schedule) (order : list Z) (m : MultiRaftManager) (canceled : bool) (sid : string) (data : list Z)
  : option (MultiRaftManager * option errors) :=
  if canceled then Some (m, Some ErrCanceled)
  else match find_shard m sid with
  | None => Some (m, Some ErrShardNotFound)
  | Some (p, sh) =>
      match leaderLocked order sh with
      | None => Some (m, Some ErrNoLeader)
      | Some leader =>
          let m := with_shard m p (fun sh => propose_to sh (id leader) data) in
          match (raw_Propose (storage leader) (raw leader) data).2 with
          | Some e => Some (m, Some (ErrEngine (Some e)))
          | None => '(m, _) ← drive sched m p; Some (m, None)
          end
      end
  end.

Definition Campaign (sched : schedule) (m : MultiRaftManager) (sid : string) (nodeID : Z) : option (MultiRaftManager * option errors) :=
  match find_shard m sid with
  | None => Some (m, Some ErrShardNotFound)
  | Some (p, sh) =>
      match sh_node sh nodeID with
      | None => Some (m, Some ErrNoNode)
      | Some n =>
          if stopped n then Some (m, Some ErrNoNode)
          else
            let m := with_shard m p (fun sh => campaign_node sh nodeID) in
            match (raw_Campaign (storage n) (raw n)).2 with
            | Some e => Some (m, Some (ErrEngine (Some e)))
            | None => '(m, _) ← drive sched m p; Some (m, None)
            end
      end
  end.

(** *** Stopping and removing *)

Definition revokeReadAccess (m : MultiRaftManager) (sid : string) (nodeID : Z) : MultiRaftManager :=
  let m := match leases m with
    | Some p => match trackers m !! p with
                | Some lt => if decide (Leaseholder lt sid = Some nodeID) then set_trackers m (<[p := Revoke lt sid]> (trackers m)) else m
                | None => m
                end
    | None => m
    end in
  if readEnabled m then set_transport m (UnregisterReadHandler sid nodeID (transport m)) else m.

Definition StopNode (m : MultiRaftManager) (sid : string) (nodeID : Z) : MultiRaftManager * option errors :=
  match find_shard m sid with
  | None => (m, Some ErrShardNotFound)
  | Some (p, sh) =>
      match sh_node sh nodeID with
      | None => (m, Some ErrNoNode)
      | Some _ =>
          let m := with_shard m p (fun sh => stop_node sh nodeID) in
          let m := set_transport m (UnregisterPeer sid nodeID (transport m)) in
          (revokeReadAccess m sid nodeID, None)
      end
  end.

Definition RemoveShard (m : MultiRaftManager) (sid : string) : MultiRaftManager * option errors :=
  match find_shard m sid with
  | None => (m, Some ErrShardNotFound)
  | Some (p, sh) =>
      let ids := nodes_of sh in
      let t := foldl (fun t i => UnregisterPeer sid i t) (transport m) ids in
      let lts := match leases m with
        | Some q => match trackers m !! q with Some lt => <[q := Revoke lt sid]> (trackers m) | None => trackers m end
        | None => trackers m
        end in
      let t := if readEnabled m then foldl (fun t i => UnregisterReadHandler sid i t) t ids else t in
      (mkManager (alter drop_nodes p (objs m)) (next_obj m) (delete sid (shards m)) t (leases m) lts (readEnabled m)
         (newStorage m) (hooked m) (hookCalls m) (lastPersistErr m), None)
  end.

(** *** Queries *)

Definition LeaderID (order : list Z) (m : MultiRaftManager) (sid : string) : Z :=
  match find_shard m sid with
  | None => 0
  | Some (_, sh) => match leaderLocked order sh with Some n => id n | None => 0 end
  end.

Definition CommittedEntries (m : MultiRaftManager) (sid : string) (nodeID : Z) : errors + list (list Z) :=
  match find_shard m sid with
  | None => inl ErrShardNotFound
  | Some (_, sh) => match sh_node sh nodeID with None => inl ErrNoNode | Some n => inr (committed n) end
  end.

Definition CommittedCount (m : MultiRaftManager) (sid : string) (nodeID : Z) : errors + Z :=
  match CommittedEntries m sid nodeID with inl e => inl e | inr l => inr (Z.of_nat (length l)) end.

(** *** Lease reads *)

Definition latestCommittedLocked (n : node) : option (list Z) := last (committed n).

Definition EnableLeaseholderReads (m : MultiRaftManager) (lt : nat) (order : list nat) : MultiRaftManager :=
  let t := foldl (fun t p => match objs m !! p with Some sh => registerShardReadHandlers p sh t | None => t end) (transport m) order in
  mkManager (objs m) (next_obj m) (shards m) t (Some lt) (trackers m) true (newStorage m) (hooked m) (hookCalls m) (lastPersistErr m).

Definition AcquireLease (order : list Z) (m : MultiRaftManager) (now : Z) (sid : string) (nodeID : Z) : MultiRaftManager * (errors + Z) :=
  match find_shard m sid with
  | None => (m, inl ErrShardNotFound)
  | Some (_, sh) =>
      match p ← leases m; lt ← trackers m !! p; Some (p, lt) with
      | None => (m, inl ErrReadsDisabled)
      | Some (p, lt) =>
          match leaderLocked order sh with
          | None => (m, inl ErrNotLeader)
          | Some leader =>
              if decide (id leader <> nodeID) then (m, inl ErrNotLeader)
              else let '(lt', exp) := Grant lt now sid nodeID in (set_trackers m (<[p := lt']> (trackers m)), inr exp)
          end
      end
  end.

(** [SendRead]: the handler reads the node it was registered for. *)
Definition SendRead (m : MultiRaftManager) (sid : string) (h : Z) : MultiRaftManager * (errors + list Z) :=
  match readHandlers (transport m) !! (sid, h) with
  | None => (m, inl ErrNoReadHandler)
  | Some p =>
      let t := transport m in
      (set_transport m (mkTransport (inbox t) (readHandlers t) (dropped t) (i64 (routedReads t + 1))),
       inr (default [] (sh ← objs m !! p; n ← nodes sh !! h; latestCommittedLocked n)))
  end.

Definition Read (m : MultiRaftManager) (sid : string) (askingNode now : Z) : MultiRaftManager * (errors + ReadResult) :=
  match find_shard m sid with
  | None => (m, inl ErrShardNotFound)
  | Some (_, sh) =>
      match p ← leases m; trackers m !! p with
      | None => (m, inl ErrReadsDisabled)
      | Some lt =>
          if negb (readEnabled m) then (m, inl ErrReadsDisabled)
          else if IsLocalLeaseholder lt sid askingNode now then
            match sh_node sh askingNode with
            | None => (m, inl ErrNoNode)
            | Some n => if stopped n then (m, inl ErrNoNode)
                        else (m, inr (mkReadResult (default [] (latestCommittedLocked n)) true false askingNode))
            end
          else match Leaseholder lt sid with
            | None => (m, inl ErrNoLease)
            | Some h =>
                if negb (IsLocalLeaseholder lt sid h now) then (m, inl ErrLeaseExpired)
                else match SendRead m sid h with
                  | (m, inl e) => (m, inl e)
                  | (m, inr v) => (m, inr (mkReadResult v false true h))
                  end
            end
      end
  end.

(** Driving changes only the Raft state of the nodes. *)
Record frame (m m' : MultiRaftManager) : Prop := {
  fr_shards : shards m' = shards m;
  fr_next : next_obj m' = next_obj m;
  fr_leases : leases m' = leases m;
  fr_trackers : trackers m' = trackers m;
  fr_enabled : readEnabled m' = readEnabled m;
  fr_handlers : readHandlers (transport m') = readHandlers (transport m);
  fr_objs p : option_Forall2 same_shape (objs m !! p) (objs m' !! p);
}.

Lemma same_shape_refl s : same_shape s s.
Proof. done. Qed.

Lemma frame_refl m : frame m m.
Proof. split; try done. intros p. destruct (objs m !! p); by constructor. Qed.

Lemma frame_trans m m' m'' : frame m m' -> frame m' m'' -> frame m m''.
Proof.
  intros H1 H2. split; [etrans; [apply H2|apply H1]..|]. intros p. pose proof (fr_objs _ _ H1 p) as Ho1. pose proof (fr_objs _ _ H2 p) as Ho2.
  inversion Ho1 as [x y Hxy E1 E2|E1 E2]; rewrite <- E2 in Ho2; inversion Ho2; simplify_eq; constructor.
  by eapply same_shape_trans.
Qed.

Lemma frame_with_shard m p f : (forall sh, same_shape sh (f sh)) -> frame m (with_shard m p f).
Proof.
  intros Hf. split; try done. intros q. simpl. rewrite lookup_alter. case_decide; [subst|]; destruct (objs m !! q); by constructor.
Qed.

Lemma process_loop_shape fuel order s b fe s' b' fe' : process_loop fuel order s b fe = Some (s', b', fe') -> same_shape s s'.
Proof.
  revert s b fe. induction fuel as [|fuel IH]; intros s b fe E; [done|]. simpl in E.
  pose proof (process_pass_shape (order fuel) s fe) as H. destruct (process_pass s fe (order fuel)) as [[s1 did] fe1].
  destruct did; [|by injection E as <- _ _]. eapply same_shape_trans; [exact H|]. by eapply IH.
Qed.

Lemma processReadyLocked_frame fuel order m p m' b : processReadyLocked fuel order m p = Some (m', b) -> frame m m'.
Proof.
  unfold processReadyLocked. destruct (objs m !! p) as [sh|] eqn:Eo; [|intros [= <- _]; apply frame_refl].
  intros ([[sh' pr] err] & E & E')%bind_Some. injection E' as <- _. apply process_loop_shape in E.
  assert (frame m (with_shard m p (fun _ => sh'))) as H.
  { split; try done. intros q. simpl. rewrite lookup_alter. case_decide as Hq; [subst q|destruct (objs m !! q); by constructor].
    rewrite Eo. by constructor. }
  destruct err; [|done]. eapply frame_trans; [exact H|]. split; try done. intros q. simpl. destruct (alter _ p (objs m) !! q); by constructor.
Qed.

Lemma Send_frame m sid msg : frame m (Send m sid msg).
Proof.
  unfold Send. case_decide; [apply frame_refl|]. destruct (inbox (transport m) !! (sid, To msg)).
  - apply frame_with_shard. intros sh. apply step_into_shape.
  - split; try done. intros p. simpl. destruct (objs m !! p); by constructor.
Qed.

Lemma tick_nodes_shape s : same_shape s (tick_nodes s).
Proof.
  unfold tick_nodes. destruct (nodes_nil s) eqn:E; [done|]. split_and!; [|done..]. apply map_eq. intros i. simpl.
  rewrite !lookup_fmap. destruct (nodes s !! i) as [n|]; [|done]. simpl. by destruct (stopped n).
Qed.

Lemma frame_obj m m' p sh : frame m m' -> objs m !! p = Some sh -> exists sh', objs m' !! p = Some sh' /\ same_shape sh sh'.
Proof. intros H E. pose proof (fr_objs _ _ H p) as Ho. rewrite E in Ho. inversion Ho; subst. eauto. Qed.

Lemma frame_obj' m m' p sh' : frame m m' -> objs m' !! p = Some sh' -> exists sh, objs m !! p = Some sh /\ same_shape sh sh'.
Proof. intros H E. pose proof (fr_objs _ _ H p) as Ho. rewrite E in Ho. inversion Ho; subst. eauto. Qed.

Lemma same_shape_node s s' i n : same_shape s s' -> nodes s !! i = Some n -> exists n', nodes s' !! i = Some n' /\ tag n' = tag n.
Proof. intros H E. apply (same_shape_lookup _ _ i) in H. rewrite E in H. destruct (nodes s' !! i) as [n'|]; [|done]. apply (inj Some) in H. eauto. Qed.

Lemma same_shape_node' s s' i n' : same_shape s s' -> nodes s' !! i = Some n' -> exists n, nodes s !! i = Some n /\ tag n' = tag n.
Proof. intros H E. apply (same_shape_lookup _ _ i) in H. rewrite E in H. destruct (nodes s !! i) as [n|]; [|done]. apply (inj Some) in H. eauto. Qed.

(** *** The other operations *)

Lemma nodes_of_elem sh i : i ∈ nodes_of sh <-> is_Some (sh_node sh i).
Proof.
  unfold nodes_of, sh_node. destruct (nodes_nil sh); [rewrite elem_of_nil; split; [done|by intros [? ?]]|].
  rewrite list_elem_of_fmap. split.
  - intros ([j n] & -> & H%elem_of_map_to_list). by exists n.
  - intros [n Hn]. exists (i, n). by rewrite elem_of_map_to_list.
Qed.

Lemma register_peers_handlers sid p l t : readHandlers (foldl (fun t i => RegisterPeer sid i p t) t l) = readHandlers t.
Proof. revert t. induction l as [|i l IH]; intros t; [done|]. simpl. by rewrite IH. Qed.

Lemma unregister_peers_handlers sid l t : readHandlers (foldl (fun t i => UnregisterPeer sid i t) t l) = readHandlers t.
Proof. revert t. induction l as [|i l IH]; intros t; [done|]. simpl. by rewrite IH. Qed.

Lemma register_handlers_lookup p sh t k q :
  readHandlers (registerShardReadHandlers p sh t) !! k = Some q ->
  (k.1 = sh_id sh /\ is_Some (sh_node sh k.2) /\ q = p) \/ readHandlers t !! k = Some q.
Proof.
  unfold registerShardReadHandlers. setoid_rewrite <- nodes_of_elem.
  generalize (nodes_of sh) as l. intros l. induction l as [|i l IH] using rev_ind; [by right|]. rewrite foldl_snoc.
  simpl. rewrite lookup_insert. case_decide as Hk; [subst k|].
  - intros [= <-]. left. simpl. set_solver.
  - intros H. apply IH in H. set_solver.
Qed.

Lemma create_nodes_ids st peers rest ns ns' :
  create_nodes st peers rest ns = Some ns' -> (forall i n, ns !! i = Some n -> id n = i) -> forall i n, ns' !! i = Some n -> id n = i.
Proof.
  revert ns. induction rest as [|pid rest IH]; intros ns E Hns; simpl in E; [by simplify_eq|].
  apply bind_Some in E as (r & _ & E). apply bind_Some in E as (r' & _ & E). eapply IH; [exact E|].
  intros i n [[<- <-]|[_ H]]%lookup_insert_Some; [done|eauto].
Qed.

Lemma find_shard_Some m sid p sh : find_shard m sid = Some (p, sh) <-> shards m !! sid = Some p /\ objs m !! p = Some sh.
Proof.
  unfold find_shard. split.
  - intros (q & Hq & (sh' & E & [= <- <-])%bind_Some)%bind_Some. done.
  - intros [H1 H2]. rewrite H1. simpl. by rewrite H2.
Qed.

(** Stopping a node leaves every other node of every shard as it was. *)
Lemma stop_node_lookup sh i j : sh_node (stop_node sh i) j = (if decide (i = j) then (fun n => mkNode (id n) (raw n) (storage n) (committed n) (applied n) true (pendingReady n)) <$> sh_node sh j else sh_node sh j).
Proof.
  unfold sh_node, stop_node, with_node. simpl. destruct (nodes_nil sh); [by case_decide|]. rewrite lookup_alter. by case_decide; subst.
Qed.

Lemma leaderLocked_live order sh n : leaderLocked order sh = Some n ->
  stopped n = false /\ IsLeader (storage n) (raw n) = true /\ exists i, sh_node sh i = Some n.
Proof.
  induction order as [|i order IH]; [done|]. simpl. destruct (sh_node sh i) as [n'|] eqn:E; [|done].
  destruct (stopped n') eqn:Es; [done|]. destruct (IsLeader (storage n') (raw n')) eqn:El; [|done]. intros [= <-]. eauto.
Qed.

Lemma IsLocalLeaseholder_true lt sid i now :
  IsLocalLeaseholder lt sid i now = true <-> exists l, lt_leases lt !! sid = Some l /\ holder l = i /\ now < expiresAt l.
Proof.
  unfold IsLocalLeaseholder, lease_valid. destruct (lt_leases lt !! sid) as [l|]; [|naive_solver].
  destruct (decide (holder l = i)) as [He|He].
  - rewrite decide_False by auto. rewrite bool_decide_eq_true. naive_solver.
  - rewrite decide_True by done. naive_solver.
Qed.

End manager.
