(* ===== verification/MultiRaftLease.v ===== *)
(** * Lease reads under concurrency (pkg/multiraft/lease.go, multiraft.go, transport.go)

    The calls of a manager that lease reads depend on, cut where the code
    releases a lock: between two steps of a call ([advance]) any step of any
    other call may run.  The locks are those of the manager, of a shard, of the
    lease tracker and of the transport; wiring the read handlers of one shard
    is one step, because its lock is held.  The driving calls change the Raft
    state of the nodes only ([driving]).

    The main theorem says, over all interleavings, who was granted a lease, who
    served a read and what it returned.  The one race it has to name is a lease
    granted too late: [AcquireLease] asks for the leader under the lock of the
    shard and records the lease after releasing it, and the node may be stopped
    in between ([late], [late_lease_serves_stopped]). *)
From S2P Require Import Prelude MultiRaft MultiRaftManager.
Local Open Scope Z_scope.

Section lease.
Context `{HR : Raft, HN : !RaftNode}.
Notation errors := (mr_error error).

(** ** Calls in progress *)

Inductive outcome :=
  | OAcquired (r : errors + Z) | OStopped (e : option errors) | ORemoved (e : option errors) | OEnabled
  | ORead (sid : string) (asking now : Z) (r : errors + ReadResult).

(** A call, by what it does next and the variables it still needs. *)
Inductive task :=
  | TAcquire (sid : string) (i : Z) | AcqLeader (sid : string) (i : Z) (p lt : nat) | AcqGrant (sid : string) (i : Z) (p lt : nat)
  | TStop (sid : string) (i : Z) | StopMark (sid : string) (i : Z) (p : nat) | StopPeer (sid : string) (i : Z) | StopAccess (sid : string) (i : Z)
  | StopHolder (sid : string) (i : Z) (lt : option nat) (enabled : bool) | StopRevoke (sid : string) (i : Z) (lt : nat) (enabled : bool)
  | StopHandler (sid : string) (i : Z) (enabled : bool)
  | TRemove (sid : string) | RemNodes (sid : string) (p : nat) | RemAccess (sid : string) (p : nat) (ids : list Z)
  | RemRevoke (sid : string) (p : nat) (ids : list Z) (lt : option nat) (enabled : bool) | RemHandlers (sid : string) (p : nat) (ids : list Z)
  | TEnable (lt : nat) | EnRegister (ps : list nat)
  | TRead (sid : string) (asking now : Z) | RdCheck (sid : string) (asking now : Z) (p lt : nat) | RdLocal (sid : string) (asking now : Z) (p : nat)
  | RdHolder (sid : string) (asking now : Z) (lt : nat) | RdValid (sid : string) (asking now : Z) (lt : nat) (h : Z)
  | RdSend (sid : string) (asking now h : Z) | RdServe (sid : string) (asking now h : Z) (q : nat)
  | Finished (o : outcome).

(** What a step reads from outside: the order in which nodes are searched for
    the leader, the clock of the tracker, the order of the range over shards. *)
Record env := mkEnv { e_leader : list Z; e_clock : Z; e_shards : list nat }.

Definition revoke (m : MultiRaftManager) (lt : nat) (sid : string) : MultiRaftManager :=
  match trackers m !! lt with Some t => set_trackers m (<[lt := Revoke t sid]> (trackers m)) | None => m end.

(** The tracker of the manager. *)
Definition current (m : MultiRaftManager) : option nat := lt ← leases m; _ ← trackers m !! lt; Some lt.

(** [AcquireLease] *)
Definition advance_acquire (e : env) (m : MultiRaftManager) (t : task) : MultiRaftManager * task :=
  match t with
  | TAcquire sid i =>
      (m, match shards m !! sid with
          | None => Finished (OAcquired (inl ErrShardNotFound))
          | Some p => match current m with None => Finished (OAcquired (inl ErrReadsDisabled)) | Some lt => AcqLeader sid i p lt end
          end)
  | AcqLeader sid i p lt =>
      (m, match sh ← objs m !! p; leaderLocked (e_leader e) sh with
          | None => Finished (OAcquired (inl ErrNotLeader))
          | Some leader => if decide (id leader <> i) then Finished (OAcquired (inl ErrNotLeader)) else AcqGrant sid i p lt
          end)
  | AcqGrant sid i p lt =>
      match trackers m !! lt with
      | None => (m, Finished (OAcquired (inl ErrReadsDisabled)))
      | Some t => let '(t, exp) := Grant t (e_clock e) sid i in (set_trackers m (<[lt := t]> (trackers m)), Finished (OAcquired (inr exp)))
      end
  | _ => (m, t)
  end.

(** [StopNode] with [revokeReadAccess] *)
Definition advance_stop (m : MultiRaftManager) (t : task) : MultiRaftManager * task :=
  match t with
  | TStop sid i => (m, match shards m !! sid with None => Finished (OStopped (Some ErrShardNotFound)) | Some p => StopMark sid i p end)
  | StopMark sid i p =>
      match sh ← objs m !! p; sh_node sh i with
      | None => (m, Finished (OStopped (Some ErrNoNode)))
      | Some _ => (with_shard m p (fun sh => stop_node sh i), StopPeer sid i)
      end
  | StopPeer sid i => (set_transport m (UnregisterPeer sid i (transport m)), StopAccess sid i)
  | StopAccess sid i => (m, StopHolder sid i (leases m) (readEnabled m))
  | StopHolder sid i lt enabled =>
      (m, match p ← lt; t ← trackers m !! p; Some (p, t) with
          | Some (p, t) => if decide (Leaseholder t sid = Some i) then StopRevoke sid i p enabled else StopHandler sid i enabled
          | None => StopHandler sid i enabled
          end)
  | StopRevoke sid i lt enabled => (revoke m lt sid, StopHandler sid i enabled)
  | StopHandler sid i enabled => (if enabled then set_transport m (UnregisterReadHandler sid i (transport m)) else m, Finished (OStopped None))
  | _ => (m, t)
  end.

(** [RemoveShard] *)
Definition advance_remove (m : MultiRaftManager) (t : task) : MultiRaftManager * task :=
  match t with
  | TRemove sid =>
      match shards m !! sid with
      | None => (m, Finished (ORemoved (Some ErrShardNotFound)))
      | Some p => (mkManager (objs m) (next_obj m) (delete sid (shards m)) (transport m) (leases m) (trackers m) (readEnabled m) (newStorage m)
                     (hooked m) (hookCalls m) (lastPersistErr m), RemNodes sid p)
      end
  | RemNodes sid p =>
      let ids := match objs m !! p with Some sh => nodes_of sh | None => [] end in
      (with_shard (set_transport m (foldl (fun t i => UnregisterPeer sid i t) (transport m) ids)) p drop_nodes, RemAccess sid p ids)
  | RemAccess sid p ids => (m, RemRevoke sid p ids (leases m) (readEnabled m))
  | RemRevoke sid p ids lt enabled =>
      (match lt with Some lt => revoke m lt sid | None => m end, if enabled then RemHandlers sid p ids else Finished (ORemoved None))
  | RemHandlers sid p [] => (m, Finished (ORemoved None))
  | RemHandlers sid p (i :: ids) => (set_transport m (UnregisterReadHandler sid i (transport m)), RemHandlers sid p ids)
  | _ => (m, t)
  end.

(** [EnableLeaseholderReads] *)
Definition advance_enable (e : env) (m : MultiRaftManager) (t : task) : MultiRaftManager * task :=
  match t with
  | TEnable lt =>
      (mkManager (objs m) (next_obj m) (shards m) (transport m) (Some lt) (trackers m) true (newStorage m) (hooked m) (hookCalls m) (lastPersistErr m),
       EnRegister (e_shards e))
  | EnRegister [] => (m, Finished OEnabled)
  | EnRegister (p :: ps) =>
      (match objs m !! p with Some sh => set_transport m (registerShardReadHandlers p sh (transport m)) | None => m end, EnRegister ps)
  | _ => (m, t)
  end.

(** [Read] with [SendRead] *)
Definition advance_read (m : MultiRaftManager) (t : task) : MultiRaftManager * task :=
  let failed sid asking now err := Finished (ORead sid asking now (inl err)) in
  match t with
  | TRead sid asking now =>
      (m, match shards m !! sid with
          | None => failed sid asking now ErrShardNotFound
          | Some p =>
              match current m with
              | None => failed sid asking now ErrReadsDisabled
              | Some lt => if negb (readEnabled m) then failed sid asking now ErrReadsDisabled else RdCheck sid asking now p lt
              end
          end)
  | RdCheck sid asking now p lt =>
      (m, match trackers m !! lt with
          | None => failed sid asking now ErrReadsDisabled
          | Some t => if IsLocalLeaseholder t sid asking now then RdLocal sid asking now p else RdHolder sid asking now lt
          end)
  | RdLocal sid asking now p =>
      (m, match sh ← objs m !! p; sh_node sh asking with
          | None => failed sid asking now ErrNoNode
          | Some n => if stopped n then failed sid asking now ErrNoNode
                      else Finished (ORead sid asking now (inr (mkReadResult (default [] (latestCommittedLocked n)) true false asking)))
          end)
  | RdHolder sid asking now lt =>
      (m, match t ← trackers m !! lt; Leaseholder t sid with None => failed sid asking now ErrNoLease | Some h => RdValid sid asking now lt h end)
  | RdValid sid asking now lt h =>
      (m, match trackers m !! lt with
          | Some t => if IsLocalLeaseholder t sid h now then RdSend sid asking now h else failed sid asking now ErrLeaseExpired
          | None => failed sid asking now ErrLeaseExpired
          end)
  | RdSend sid asking now h =>
      match readHandlers (transport m) !! (sid, h) with
      | None => (m, failed sid asking now ErrNoReadHandler)
      | Some q =>
          let t := transport m in
          (set_transport m (mkTransport (inbox t) (readHandlers t) (dropped t) (i64 (routedReads t + 1))), RdServe sid asking now h q)
      end
  | RdServe sid asking now h q =>
      (m, Finished (ORead sid asking now (inr (mkReadResult (default [] (sh ← objs m !! q; n ← nodes sh !! h; latestCommittedLocked n)) false true h))))
  | _ => (m, t)
  end.

Definition advance (e : env) (m : MultiRaftManager) (t : task) : MultiRaftManager * task :=
  match t with
  | TAcquire _ _ | AcqLeader _ _ _ _ | AcqGrant _ _ _ _ => advance_acquire e m t
  | TStop _ _ | StopMark _ _ _ | StopPeer _ _ | StopAccess _ _ | StopHolder _ _ _ _ | StopRevoke _ _ _ _ | StopHandler _ _ _ => advance_stop m t
  | TRemove _ | RemNodes _ _ | RemAccess _ _ _ | RemRevoke _ _ _ _ _ | RemHandlers _ _ _ => advance_remove m t
  | TEnable _ | EnRegister _ => advance_enable e m t
  | _ => advance_read m t
  end.

(** ** Interleavings *)

(** The manager, the calls in progress or finished, and the shards whose lease
    on record was granted late: to a node that was stopped, or whose shard was
    no longer the one under that identifier.  [late] is not in the source. *)
Record world := mkWorld { mg : MultiRaftManager; ops : gmap nat task; late : gset string }.

Definition live_in (m : MultiRaftManager) (sid : string) (p : nat) (i : Z) : bool :=
  bool_decide (shards m !! sid = Some p) && match sh ← objs m !! p; sh_node sh i with Some n => negb (stopped n) | None => false end.

Definition late_after (m : MultiRaftManager) (t : task) (late : gset string) : gset string :=
  match t with
  | AcqGrant sid i p _ => if live_in m sid p i then late ∖ {[sid]} else late ∪ {[sid]}
  | StopRevoke sid _ _ _ | RemRevoke sid _ _ (Some _) _ => late ∖ {[sid]}
  | _ => late
  end.

Definition begins (lt0 : nat) (t : task) : bool :=
  match t with TAcquire _ _ | TStop _ _ | TRemove _ | TRead _ _ _ => true | TEnable lt => bool_decide (lt = lt0) | _ => false end.

(** The critical sections of the calls that drive Raft, and messages. *)
Inductive driving : MultiRaftManager -> MultiRaftManager -> Prop :=
  | dr_tick m p : driving m (with_shard m p tick_nodes)
  | dr_process m m' fuel order p b : processReadyLocked fuel order m p = Some (m', b) -> driving m m'
  | dr_propose m p i data : driving m (with_shard m p (fun sh => propose_to sh i data))
  | dr_campaign m p i : driving m (with_shard m p (fun sh => campaign_node sh i))
  | dr_take m p : driving m (with_shard m p take_pending)
  | dr_send m sid msg : driving m (Send m sid msg)
  | dr_hook m h : driving m (OnPersistError m h).

Inductive cstep (lt0 : nat) : world -> world -> Prop :=
  | cs_call w k t : ops w !! k = None -> begins lt0 t = true -> cstep lt0 w (mkWorld (mg w) (<[k := t]> (ops w)) (late w))
  | cs_advance w k t e : ops w !! k = Some t -> e_shards e ≡ₚ (map_to_list (shards (mg w))).*2 ->
      cstep lt0 w (mkWorld (advance e (mg w) t).1 (<[k := (advance e (mg w) t).2]> (ops w)) (late_after (mg w) t (late w)))
  | cs_create w sid peers : cstep lt0 w (mkWorld (CreateShard (mg w) sid peers).1 (ops w) (late w))
  | cs_drive w m' : driving (mg w) m' -> cstep lt0 w (mkWorld m' (ops w) (late w)).

Definition begin_lease (st : Persister) (lts : gmap nat LeaseTracker) : world := mkWorld (NewMultiRaftManager st lts) ∅ ∅.

(** ** Calls that run alone *)

(** [n] steps of a call with nothing in between. *)
Definition alone (e : env) (n : nat) (m : MultiRaftManager) (t : task) : MultiRaftManager * task :=
  Nat.iter n (fun mt => advance e mt.1 mt.2) (m, t).

Definition registered (m : MultiRaftManager) : Prop := forall sid p, shards m !! sid = Some p -> is_Some (objs m !! p).

Lemma find_shard_registered m sid : registered m ->
  match shards m !! sid with
  | Some p => exists sh, objs m !! p = Some sh /\ find_shard m sid = Some (p, sh)
  | None => find_shard m sid = None
  end.
Proof.
  intros Hr. unfold find_shard. destruct (shards m !! sid) as [p|] eqn:E; [|done]. destruct (Hr sid p E) as [sh Hsh].
  exists sh. split; [done|]. simpl. by rewrite Hsh.
Qed.

Lemma AcquireLease_alone e m sid i : registered m ->
  alone e 3 m (TAcquire sid i) = ((AcquireLease (e_leader e) m (e_clock e) sid i).1, Finished (OAcquired (AcquireLease (e_leader e) m (e_clock e) sid i).2)).
Proof.
  intros Hr. pose proof (find_shard_registered m sid Hr) as Hf. unfold alone, AcquireLease, current. simpl.
  destruct (shards m !! sid) as [p|]; [|by rewrite Hf]. destruct Hf as (sh & Ho & ->). unfold current.
  destruct (leases m) as [lt|]; [|done]. simpl. destruct (trackers m !! lt) as [t|] eqn:Et; [|done]. simpl. rewrite Ho. simpl.
  destruct (leaderLocked (e_leader e) sh) as [n|]; [|done]. destruct (decide (id n <> i)); [done|]. simpl. by rewrite Et.
Qed.

Lemma StopNode_alone e m sid i : registered m ->
  alone e 7 m (TStop sid i) = ((StopNode m sid i).1, Finished (OStopped (StopNode m sid i).2)).
Proof.
  intros Hr. pose proof (find_shard_registered m sid Hr) as Hf. unfold alone, StopNode. simpl.
  destruct (shards m !! sid) as [p|]; [|by rewrite Hf]. destruct Hf as (sh & Ho & ->). simpl. rewrite Ho. simpl.
  destruct (sh_node sh i); [|done]. simpl. unfold revokeReadAccess. simpl. destruct (leases m) as [lt|]; simpl.
  - destruct (trackers m !! lt) as [t|] eqn:Et; simpl; [|by destruct (readEnabled m) eqn:Ee; simpl; rewrite ?Ee]. destruct (decide _); simpl.
    + unfold revoke. simpl. rewrite Et. by destruct (readEnabled m) eqn:Ee; simpl; rewrite ?Ee.
    + by destruct (readEnabled m) eqn:Ee; simpl; rewrite ?Ee.
  - by destruct (readEnabled m) eqn:Ee; simpl; rewrite ?Ee.
Qed.

Lemma Read_alone e m sid asking now : registered m ->
  alone e 6 m (TRead sid asking now) = ((Read m sid asking now).1, Finished (ORead sid asking now (Read m sid asking now).2)).
Proof.
  intros Hr. pose proof (find_shard_registered m sid Hr) as Hf. unfold alone, Read, current. simpl.
  destruct (shards m !! sid) as [p|]; [|by rewrite Hf]. destruct Hf as (sh & Ho & ->). unfold current.
  destruct (leases m) as [lt|]; [|done]. simpl. destruct (trackers m !! lt) as [t|] eqn:Et; [|done]. simpl.
  destruct (negb (readEnabled m)); [done|]. simpl. rewrite Et. destruct (IsLocalLeaseholder t sid asking now); simpl.
  - rewrite Ho. simpl. destruct (sh_node sh asking) as [n|]; [|done]. by destruct (stopped n).
  - rewrite Et. simpl. destruct (Leaseholder t sid) as [h|]; [|done]. simpl. rewrite Et. destruct (IsLocalLeaseholder t sid h now); [|done]. simpl.
    unfold SendRead. by destruct (readHandlers (transport m) !! (sid, h)).
Qed.

Lemma remove_handlers_alone e m sid p ids :
  alone e (S (length ids)) m (RemHandlers sid p ids) = (set_transport m (foldl (fun t i => UnregisterReadHandler sid i t) (transport m) ids), Finished (ORemoved None)).
Proof.
  revert m. induction ids as [|i ids IH]; intros m; [by destruct m|]. unfold alone in *. cbn [length]. rewrite Nat.iter_succ_r. simpl advance. rewrite IH. done.
Qed.

Lemma RemoveShard_alone e m sid : registered m ->
  exists n, alone e n m (TRemove sid) = ((RemoveShard m sid).1, Finished (ORemoved (RemoveShard m sid).2)).
Proof.
  intros Hr. pose proof (find_shard_registered m sid Hr) as Hf. unfold RemoveShard. destruct (shards m !! sid) as [p|] eqn:Es.
  2:{ exists 1%nat. rewrite Hf. unfold alone. simpl. by rewrite Es. }
  destruct Hf as (sh & Ho & ->). exists (if readEnabled m then S (length (nodes_of sh)) + 4 else 4)%nat. unfold alone.
  assert (Nat.iter 4 (fun mt => advance e mt.1 mt.2) (m, TRemove sid) =
    (mkManager (alter drop_nodes p (objs m)) (next_obj m) (delete sid (shards m)) (foldl (fun t i => UnregisterPeer sid i t) (transport m) (nodes_of sh)) (leases m)
       (match leases m with Some q => match trackers m !! q with Some lt => <[q := Revoke lt sid]> (trackers m) | None => trackers m end | None => trackers m end) (readEnabled m)
       (newStorage m) (hooked m) (hookCalls m) (lastPersistErr m), if readEnabled m then RemHandlers sid p (nodes_of sh) else Finished (ORemoved None))) as H4.
  { simpl. rewrite Es. simpl. rewrite Ho. unfold revoke. simpl. destruct (leases m) as [q|]; [|done]. simpl. by destruct (trackers m !! q). }
  destruct (readEnabled m) eqn:Ee; [|exact H4]. rewrite Nat.iter_add, H4. apply (remove_handlers_alone e).
Qed.

Lemma register_alone e m ps :
  alone e (S (length ps)) m (EnRegister ps) =
    (set_transport m (foldl (fun t p => match objs m !! p with Some sh => registerShardReadHandlers p sh t | None => t end) (transport m) ps), Finished OEnabled).
Proof.
  revert m. induction ps as [|p ps IH]; intros m; [by destruct m|]. unfold alone in *. cbn [length]. rewrite Nat.iter_succ_r. simpl advance. rewrite IH. cbn [foldl]. by destruct (objs m !! p).
Qed.

Lemma EnableLeaseholderReads_alone e m lt :
  alone e (S (length (e_shards e)) + 1) m (TEnable lt) = (EnableLeaseholderReads m lt (e_shards e), Finished OEnabled).
Proof. unfold alone. rewrite Nat.iter_add. exact (register_alone e (advance_enable e m (TEnable lt)).1 (e_shards e)). Qed.

(** ** What is known of calls in progress *)

Definition covered (T : gmap nat task) (R : task -> Prop) : Prop := exists k t, T !! k = Some t /\ R t.

(** A call that will take the lease of node [i] of the shard off the record. *)
Definition revokes (lt0 : nat) (sid : string) (i : Z) (t : task) : Prop :=
  match t with
  | StopPeer sid' i' | StopAccess sid' i' => sid' = sid /\ i' = i
  | StopHolder sid' i' lt _ => sid' = sid /\ i' = i /\ lt = Some lt0
  | StopRevoke sid' _ lt _ => sid' = sid /\ lt = lt0
  | RemNodes sid' _ | RemAccess sid' _ _ => sid' = sid
  | RemRevoke sid' _ _ lt _ => sid' = sid /\ lt = Some lt0
  | _ => False
  end.

(** A call that will unregister the read handler of node [i] of object [q]. *)
Definition clears (sid : string) (i : Z) (q : nat) (t : task) : Prop :=
  match t with
  | RemNodes sid' q' => sid' = sid /\ q' = q
  | RemAccess sid' q' ids | RemHandlers sid' q' ids => sid' = sid /\ q' = q /\ i ∈ ids
  | RemRevoke sid' q' ids _ enabled => sid' = sid /\ q' = q /\ i ∈ ids /\ enabled = true
  | _ => False
  end.

Definition object (m : MultiRaftManager) (sid : string) (p : nat) : Prop := exists sh, objs m !! p = Some sh /\ sh_id sh = sid.
Definition has_node (m : MultiRaftManager) (sid : string) (p : nat) (i : Z) : Prop := exists sh n, objs m !! p = Some sh /\ sh_id sh = sid /\ nodes sh !! i = Some n.

(** The variables of a call. *)
Definition task_ok (lt0 : nat) (m : MultiRaftManager) (t : task) : Prop :=
  match t with
  | AcqLeader sid _ p lt | AcqGrant sid _ p lt | RdCheck sid _ _ p lt => object m sid p /\ lt = lt0 /\ leases m = Some lt0
  | StopMark sid _ p | RdLocal sid _ _ p => object m sid p
  | StopHolder _ _ lt _ | RemRevoke _ _ _ lt _ => lt = None \/ lt = Some lt0
  | StopRevoke _ _ lt _ | TEnable lt | RdHolder _ _ _ lt | RdValid _ _ _ lt _ => lt = lt0
  | EnRegister ps => readEnabled m = true /\ forall p, p ∈ ps -> is_Some (objs m !! p)
  | RdServe sid _ _ h q => has_node m sid q h
  | _ => True
  end.

Definition live_at (m : MultiRaftManager) (sid : string) (i : Z) : Prop :=
  exists p sh n, shards m !! sid = Some p /\ objs m !! p = Some sh /\ sh_node sh i = Some n /\ stopped n = false.

Record winv (lt0 : nat) (m : MultiRaftManager) (T : gmap nat task) (lates : gset string) : Prop := {
  wi_shard sid p : shards m !! sid = Some p -> exists sh, objs m !! p = Some sh /\ sh_id sh = sid /\ nodes_nil sh = false;
  wi_next p sh : objs m !! p = Some sh -> (p < next_obj m)%nat;
  wi_ids p sh i n : objs m !! p = Some sh -> nodes sh !! i = Some n -> id n = i;
  wi_obj p sh : objs m !! p = Some sh -> shards m !! sh_id sh = Some p \/ nodes_nil sh = true \/ covered T (eq (RemNodes (sh_id sh) p));
  wi_removing k sid p : T !! k = Some (RemNodes sid p) ->
    (exists sh, objs m !! p = Some sh /\ sh_id sh = sid /\ nodes_nil sh = false) /\ shards m !! sid <> Some p /\
    forall k' sid', T !! k' = Some (RemNodes sid' p) -> k' = k;
  wi_tracker : leases m = None \/ leases m = Some lt0;
  wi_task k t : T !! k = Some t -> task_ok lt0 m t;
  wi_handler sid i q : readHandlers (transport m) !! (sid, i) = Some q ->
    readEnabled m = true /\ has_node m sid q i /\ (shards m !! sid = Some q \/ covered T (clears sid i q));
  wi_lease sid lt l : trackers m !! lt0 = Some lt -> lt_leases lt !! sid = Some l ->
    leases m = Some lt0 /\ (sid ∉ lates -> live_at m sid (holder l) \/ covered T (revokes lt0 sid (holder l)));
}.

(** Nothing the calls rely on is ever lost. *)
Record grows (m m' : MultiRaftManager) : Prop := {
  gr_obj p sh : objs m !! p = Some sh -> exists sh', objs m' !! p = Some sh' /\ sh_id sh' = sh_id sh /\ forall i, is_Some (nodes sh !! i) -> is_Some (nodes sh' !! i);
  gr_leases lt : leases m = Some lt -> leases m' = Some lt;
  gr_enabled : readEnabled m = true -> readEnabled m' = true;
}.

Lemma object_grows m m' sid p : grows m m' -> object m sid p -> object m' sid p.
Proof. intros Hg (sh & E & <-). destruct (gr_obj _ _ Hg p sh E) as (sh' & ? & ? & _). by exists sh'. Qed.

Lemma has_node_grows m m' sid p i : grows m m' -> has_node m sid p i -> has_node m' sid p i.
Proof.
  intros Hg (sh & n & E & <- & En). destruct (gr_obj _ _ Hg p sh E) as (sh' & ? & ? & Hn). destruct (Hn i (mk_is_Some _ _ En)) as [n' ?]. by exists sh', n'.
Qed.

Lemma task_ok_grows lt0 m m' t : grows m m' -> task_ok lt0 m t -> task_ok lt0 m' t.
Proof.
  intros Hg. destruct t; simpl; try done; try (intros (? & -> & ?); split_and!; [by eapply object_grows|done|by apply Hg]); try by apply object_grows.
  - intros [? Hps]. split; [by apply Hg|]. intros p Hp. destruct (Hps p Hp) as [sh E]. destruct (gr_obj _ _ Hg p sh E) as (sh' & ? & _). by exists sh'.
  - by apply has_node_grows.
Qed.

Lemma covered_replace (T : gmap nat task) (R : task -> Prop) k t t' : T !! k = Some t -> (R t -> R t') -> covered T R -> covered (<[k := t']> T) R.
Proof.
  intros Hk Hr (j & s & Hj & Hs). destruct (decide (j = k)) as [->|Hne].
  - exists k, t'. rewrite lookup_insert_eq. simplify_eq. auto.
  - exists j, s. by rewrite lookup_insert_ne.
Qed.

Lemma frame_grows m m' : frame m m' -> grows m m'.
Proof.
  intros Hf. split.
  - intros p sh E. destruct (frame_obj _ _ _ _ Hf E) as (sh' & E' & Hs). exists sh'. split_and!; [done|apply Hs|].
    intros i [n En]. destruct (same_shape_node _ _ _ _ Hs En) as (n' & ? & _). by exists n'.
  - intros lt. by rewrite (fr_leases _ _ Hf).
  - by rewrite (fr_enabled _ _ Hf).
Qed.

Lemma frame_live m m' sid i : frame m m' -> live_at m sid i -> live_at m' sid i.
Proof.
  intros Hf (p & sh & n & Hp & E & En & Hst). destruct (frame_obj _ _ _ _ Hf E) as (sh' & E' & Hs). unfold sh_node in En. destruct (nodes_nil sh) eqn:Enil; [done|].
  destruct (same_shape_node _ _ _ _ Hs En) as (n' & En' & [= _ Ht]). exists p, sh', n'. rewrite (fr_shards _ _ Hf). split_and!; [done..| |congruence].
  unfold sh_node. destruct Hs as (_ & -> & _). by rewrite Enil.
Qed.

(** A step that changes only the Raft state of nodes, and the calls. *)
Lemma winv_frame lt0 m m' T T' lates :
  winv lt0 m T lates -> frame m m' -> (forall j sid p, T' !! j = Some (RemNodes sid p) <-> T !! j = Some (RemNodes sid p)) ->
  (forall j t, T' !! j = Some t -> task_ok lt0 m' t) ->
  (forall sid lt l, trackers m !! lt0 = Some lt -> lt_leases lt !! sid = Some l -> covered T (revokes lt0 sid (holder l)) -> covered T' (revokes lt0 sid (holder l))) ->
  (forall sid i q, readHandlers (transport m) !! (sid, i) = Some q -> covered T (clears sid i q) -> covered T' (clears sid i q)) ->
  winv lt0 m' T' lates.
Proof.
  intros Hw Hf Hrn Hok Hrev Hcl. pose proof (frame_grows _ _ Hf) as Hg. pose proof Hw as [W1 W2 W3 W4 W5 W6 W7 W8 W9]. pose proof Hf as [F1 F2 F3 F4 F5 F6 F7]. split.
  - intros sid p. rewrite F1. intros Hp. destruct (W1 sid p Hp) as (sh & E & ? & ?). destruct (frame_obj _ _ _ _ Hf E) as (sh' & E' & (_ & ? & ?)). exists sh'. split_and!; congruence.
  - intros p sh' E'. destruct (frame_obj' _ _ _ _ Hf E') as (sh & E & _). rewrite F2. eauto.
  - intros p sh' i n' E' En. destruct (frame_obj' _ _ _ _ Hf E') as (sh & E & Hs). destruct (same_shape_node' _ _ _ _ Hs En) as (n & En0 & [= Ht _]). rewrite Ht. eauto.
  - intros p sh' E'. destruct (frame_obj' _ _ _ _ Hf E') as (sh & E & (_ & Hn & Hi)). rewrite F1, Hn, Hi. destruct (W4 p sh E) as [?|[?|(j & t & Hj & <-)]]; auto. right. right.
    exists j, (RemNodes (sh_id sh) p). split; [by apply Hrn|done].
  - intros j sid p Hj%Hrn. destruct (W5 j sid p Hj) as ((sh & E & Hi & Hn) & Hno & Hu). rewrite F1. split_and!; [|done|].
    + destruct (frame_obj _ _ _ _ Hf E) as (sh' & E' & (_ & ? & ?)). exists sh'. split_and!; congruence.
    + intros j' sid' Hj'%Hrn. eauto.
  - by rewrite F3.
  - done.
  - intros sid i q. rewrite F6, F5, F1. intros Hh. destruct (W8 sid i q Hh) as (? & ? & Hc). split_and!; [done|by eapply has_node_grows|]. destruct Hc; auto.
  - intros sid lt l. rewrite F4, F3. intros Hlt Hl. destruct (W9 sid lt l Hlt Hl) as [? Hc]. split; [done|]. intros Hla. destruct (Hc Hla) as [?|Hc']; [left; by eapply frame_live|right; eauto].
Qed.

Lemma winv_drive lt0 m m' T lates : winv lt0 m T lates -> frame m m' -> winv lt0 m' T lates.
Proof.
  intros Hw Hf. eapply winv_frame; [exact Hw|exact Hf|done| |done|done]. intros j t Hj. eapply task_ok_grows; [by apply frame_grows|]. by eapply wi_task.
Qed.

(** Call [k] goes from [t] to [t']. *)
Lemma winv_task lt0 m m' T lates k t t' :
  winv lt0 m T lates -> frame m m' -> T !! k = Some t -> task_ok lt0 m' t' ->
  (forall sid p, t <> RemNodes sid p) -> (forall sid p, t' <> RemNodes sid p) ->
  (forall sid lt l, trackers m !! lt0 = Some lt -> lt_leases lt !! sid = Some l -> revokes lt0 sid (holder l) t -> revokes lt0 sid (holder l) t') ->
  (forall sid i q, readHandlers (transport m) !! (sid, i) = Some q -> clears sid i q t -> clears sid i q t') ->
  winv lt0 m' (<[k := t']> T) lates.
Proof.
  intros Hw Hf Hk Hok Hrem Hrem' Hrev Hcl. eapply winv_frame; [exact Hw|exact Hf| | | |].
  - intros j sid p. destruct (decide (j = k)) as [->|Hne]; [|by rewrite lookup_insert_ne]. rewrite lookup_insert_eq, Hk. split; intros [= E]; [by destruct (Hrem' sid p)|by destruct (Hrem sid p)].
  - intros j s [[<- <-]|[_ Hj]]%lookup_insert_Some; [done|]. eapply task_ok_grows; [by apply frame_grows|]. by eapply wi_task.
  - intros sid lt l Hlt Hl. eapply covered_replace; [exact Hk|]. by eapply Hrev.
  - intros sid i q Hh. eapply covered_replace; [exact Hk|]. by apply Hcl.
Qed.

(** A call begins. *)
Lemma winv_call lt0 m T lates k t : winv lt0 m T lates -> T !! k = None -> begins lt0 t = true -> winv lt0 m (<[k := t]> T) lates.
Proof.
  intros Hw Hk Hb. assert (forall R, covered T R -> covered (<[k := t]> T) R) as Hc.
  { intros R (j & s & Hj & Hs). exists j, s. rewrite lookup_insert_ne; [done|]. intros ->. congruence. }
  eapply winv_frame; [exact Hw|apply frame_refl| | |by auto|by auto].
  - intros j sid p. rewrite lookup_insert_Some. split; [|by right; split; [intros ->; congruence|]]. intros [[_ ->]|[_ ?]]; [done|done].
  - intros j s [[<- <-]|[_ Hj]]%lookup_insert_Some; [|by eapply wi_task]. destruct t; try done. simpl in *. by apply bool_decide_eq_true in Hb.
Qed.

(** *** Handlers and leases *)

Lemma winv_unhandle lt0 m T lates sid i : winv lt0 m T lates -> winv lt0 (set_transport m (UnregisterReadHandler sid i (transport m))) T lates.
Proof.
  intros [W1 W2 W3 W4 W5 W6 W7 W8 W9]. split; try done. intros sid' i' q. simpl. intros [_ H]%lookup_delete_Some. by apply W8.
Qed.

Lemma winv_revoke lt0 m T lates sid : winv lt0 m T lates -> winv lt0 (revoke m lt0 sid) T (lates ∖ {[sid]}).
Proof.
  intros Hw. pose proof Hw as [W1 W2 W3 W4 W5 W6 W7 W8 W9]. unfold revoke. destruct (trackers m !! lt0) as [t|] eqn:Et.
  - split; try done. simpl. intros sid' lt l. rewrite lookup_insert_eq. intros [= <-]. simpl. intros [Hne Hl]%lookup_delete_Some.
    destruct (W9 sid' t l eq_refl Hl) as [? Hc]. split; [done|]. intros Hla. apply Hc. set_solver.
  - split; try done. intros sid' lt l Hlt. congruence.
Qed.

Lemma live_in_true m sid p i : live_in m sid p i = true -> live_at m sid i.
Proof.
  unfold live_in, live_at. rewrite andb_true_iff, bool_decide_eq_true. intros [Hp H]. destruct (objs m !! p) as [sh|] eqn:E; simpl in H; [|done].
  destruct (sh_node sh i) as [n|] eqn:En; [|done]. exists p, sh, n. split_and!; [done..|]. by destruct (stopped n).
Qed.

Lemma winv_grant lt0 m T lates sid i p t now :
  winv lt0 m T lates -> leases m = Some lt0 -> trackers m !! lt0 = Some t ->
  winv lt0 (set_trackers m (<[lt0 := (Grant t now sid i).1]> (trackers m))) T (if live_in m sid p i then lates ∖ {[sid]} else lates ∪ {[sid]}).
Proof.
  intros Hw Hls Et. pose proof Hw as [W1 W2 W3 W4 W5 W6 W7 W8 W9]. split; try done. simpl. intros sid' lt l. rewrite lookup_insert_eq. intros [= <-]. simpl.
  intros [[<- <-]|[Hne Hl]]%lookup_insert_Some; simpl.
  - split; [done|]. destruct (live_in m sid p i) eqn:Elv; [|set_solver]. intros _. left. by eapply live_in_true.
  - destruct (W9 sid' t l Et Hl) as [? Hc]. split; [done|]. intros Hla. apply Hc. destruct (live_in m sid p i); set_solver.
Qed.

Lemma winv_enable lt0 m T lates :
  winv lt0 m T lates ->
  winv lt0 (mkManager (objs m) (next_obj m) (shards m) (transport m) (Some lt0) (trackers m) true (newStorage m) (hooked m) (hookCalls m) (lastPersistErr m)) T lates.
Proof.
  intros [W1 W2 W3 W4 W5 W6 W7 W8 W9]. split; try done; simpl.
  - by right.
  - intros k t Hk. eapply task_ok_grows; [|by eapply W7]. split; simpl; [eauto|intros lt E; destruct W6; congruence|done].
  - intros sid i q Hh. destruct (W8 sid i q Hh) as (_ & ? & ?). done.
  - intros sid lt l Hlt Hl. destruct (W9 sid lt l Hlt Hl) as [_ ?]. done.
Qed.

Lemma winv_register lt0 m T lates p sh :
  winv lt0 m T lates -> readEnabled m = true -> objs m !! p = Some sh -> winv lt0 (set_transport m (registerShardReadHandlers p sh (transport m))) T lates.
Proof.
  intros Hw He Ho. pose proof Hw as [W1 W2 W3 W4 W5 W6 W7 W8 W9]. split; try done. intros sid i q. simpl.
  intros [(Hs & [n Hn] & ->)|Hh]%register_handlers_lookup; [|by apply W8]. simpl in Hs, Hn. subst sid. pose proof (sh_node_lookup _ _ _ Hn) as Hn'.
  assert (nodes_nil sh = false) as Hnil by (unfold sh_node in Hn; by destruct (nodes_nil sh)).
  split_and!; [done|by exists sh, n|]. destruct (W4 p sh Ho) as [?|[?|(k & t & Hk & <-)]]; [by left|congruence|right]. exists k, (RemNodes (sh_id sh) p). done.
Qed.

(** *** Nodes and shards *)

Lemma stop_node_nodes sh i j : nodes (stop_node sh i) !! j = (if decide (i = j) then (fun n => mkNode (id n) (raw n) (storage n) (committed n) (applied n) true (pendingReady n)) <$> nodes sh !! j else nodes sh !! j).
Proof. unfold stop_node, with_node. simpl. rewrite lookup_alter. by case_decide; subst. Qed.

Lemma grows_alter m p f : (forall sh, sh_id (f sh) = sh_id sh /\ forall i, is_Some (nodes sh !! i) -> is_Some (nodes (f sh) !! i)) -> grows m (with_shard m p f).
Proof.
  intros Hf. split; [|done..]. intros q sh E. simpl. rewrite lookup_alter. case_decide; [subst q|by exists sh]. rewrite E. exists (f sh). split; [done|apply Hf].
Qed.

Lemma stop_node_grows m p i : grows m (with_shard m p (fun sh => stop_node sh i)).
Proof.
  apply grows_alter. intros sh. split; [done|]. intros j [n Hn]. rewrite stop_node_nodes, Hn. by case_decide.
Qed.

(** A node is marked as stopped by a call that goes on to revoke its lease. *)
Lemma winv_stop lt0 m T lates sid i p :
  winv lt0 m T lates -> object m sid p -> covered T (revokes lt0 sid i) -> winv lt0 (with_shard m p (fun sh => stop_node sh i)) T lates.
Proof.
  intros Hw (sh0 & Eo & Hsid) Hcov. pose proof (stop_node_grows m p i) as Hg. pose proof Hw as [W1 W2 W3 W4 W5 W6 W7 W8 W9].
  assert (forall q sh, objs m !! q = Some sh -> objs (with_shard m p (fun sh => stop_node sh i)) !! q = Some (if decide (p = q) then stop_node sh i else sh)) as Ho.
  { intros q sh E. simpl. rewrite lookup_alter. case_decide; [subst|done]. by rewrite E. }
  assert (forall q sh', objs (with_shard m p (fun sh => stop_node sh i)) !! q = Some sh' -> exists sh, objs m !! q = Some sh /\ sh' = (if decide (p = q) then stop_node sh i else sh)) as Ho'.
  { intros q sh' E. simpl in E. rewrite lookup_alter in E. case_decide; [subst|eauto]. apply fmap_Some in E as (sh & E & ->). eauto. }
  split.
  - intros sid' q Hq. destruct (W1 sid' q Hq) as (sh & E & ? & ?). eexists. split; [by apply Ho|]. by case_decide.
  - intros q sh' (sh & E & _)%Ho'. by eapply W2.
  - intros q sh' j n (sh & E & ->)%Ho'. case_decide; [|eauto]. rewrite stop_node_nodes. case_decide; [|eauto]. intros (n' & En & ->)%fmap_Some. simpl. eauto.
  - intros q sh' (sh & E & ->)%Ho'. destruct (W4 q sh E); by case_decide; auto.
  - intros k sid' q Hk. destruct (W5 k sid' q Hk) as ((sh & E & ? & ?) & ? & ?). split_and!; [|done..]. eexists. split; [by apply Ho|]. by case_decide.
  - done.
  - intros k t Hk. eapply task_ok_grows; eauto.
  - intros sid' j q Hh. destruct (W8 sid' j q Hh) as (? & ? & ?). split_and!; [done|by eapply has_node_grows|done].
  - intros sid' lt l Hlt Hl. destruct (W9 sid' lt l Hlt Hl) as [? Hc]. split; [done|]. intros Hla. destruct (Hc Hla) as [(q & sh & n & Hq & E & En & Hst)|?]; [|by right].
    destruct (decide (p = q /\ i = holder l)) as [[<- <-]|Hne].
    + right. destruct (W1 sid' p Hq) as (? & ? & ? & _). replace sid' with sid by congruence. done.
    + left. exists q, (if decide (p = q) then stop_node sh i else sh), n. split_and!; [done|by apply Ho| |done]. destruct (decide (p = q)) as [<-|]; [|done].
      rewrite stop_node_lookup, decide_False; [done|]. intros ->. by apply Hne.
Qed.

(** [RemoveShard] takes the shard off the manager's map. *)
Lemma winv_remove lt0 m T lates k sid p :
  winv lt0 m T lates -> T !! k = Some (TRemove sid) -> shards m !! sid = Some p ->
  winv lt0 (mkManager (objs m) (next_obj m) (delete sid (shards m)) (transport m) (leases m) (trackers m) (readEnabled m) (newStorage m) (hooked m) (hookCalls m) (lastPersistErr m))
    (<[k := RemNodes sid p]> T) lates.
Proof.
  intros Hw Hk Hp. pose proof Hw as [W1 W2 W3 W4 W5 W6 W7 W8 W9]. destruct (W1 sid p Hp) as (sh0 & E0 & Hi0 & Hn0).
  assert (forall R, ~ R (TRemove sid) -> covered T R -> covered (<[k := RemNodes sid p]> T) R) as Hc by (intros R HRt; by eapply covered_replace).
  assert (forall R, R (RemNodes sid p) -> covered (<[k := RemNodes sid p]> T) R) as Hnew by (intros R HRt; exists k, (RemNodes sid p); by rewrite lookup_insert_eq).
  split; simpl.
  - intros sid' q [_ Hq]%lookup_delete_Some. eauto.
  - exact W2.
  - exact W3.
  - intros q sh E. destruct (W4 q sh E) as [Hq|[?|Hcv]]; [|auto|right; right; by apply Hc]. destruct (decide (sh_id sh = sid)) as [Es|Hne]; [|left; by rewrite lookup_delete_ne].
    right. right. rewrite Es in *. rewrite Hp in Hq. injection Hq as <-. by apply Hnew.
  - intros j sid' q [[<- [= <- <-]]|[Hne Hj]]%lookup_insert_Some.
    + split_and!; [eauto|by rewrite lookup_delete_eq|]. intros j' sid' [[<- _]|[Hne' Hj']]%lookup_insert_Some; [done|].
      destruct (W5 j' sid' p Hj') as ((sh & ? & ? & _) & Hno & _). destruct Hno. congruence.
    + destruct (W5 j sid' q Hj) as (? & Hno & Hu). split_and!; [done|by rewrite lookup_delete_Some; intros [_ ?]|]. intros j' sid'' [[<- [= _ <-]]|[_ Hj']]%lookup_insert_Some; [|eauto].
      destruct (W5 j sid' p Hj) as ((sh & ? & ? & _) & Hno' & _). destruct Hno'. congruence.
  - exact W6.
  - intros j t [[<- <-]|[_ Hj]]%lookup_insert_Some; [done|]. by apply (W7 j).
  - intros sid' i q Hh. destruct (W8 sid' i q Hh) as (? & Hn & Hcv). split_and!; [done|done|]. destruct Hcv as [Hq|Hcv]; [|right; apply Hc; [by intros []|done]].
    destruct (decide (sid' = sid)) as [->|Hne]; [|left; by rewrite lookup_delete_ne]. right. rewrite Hp in Hq. injection Hq as <-. by apply Hnew.
  - intros sid' lt l Hlt Hl. destruct (W9 sid' lt l Hlt Hl) as [? Hcv]. split; [done|]. intros Hla. destruct (decide (sid' = sid)) as [->|Hne]; [right; by apply Hnew|].
    destruct (Hcv Hla) as [(q & sh & n & Hq & ?)|?]; [left; exists q, sh, n; simpl; by rewrite lookup_delete_ne|right; apply Hc; [by intros []|done]].
Qed.

(** [RemoveShard] drops the nodes of the shard. *)
Lemma winv_drop lt0 m T lates k sid p t sh :
  winv lt0 m T lates -> T !! k = Some (RemNodes sid p) -> objs m !! p = Some sh ->
  readHandlers t = readHandlers (transport m) -> winv lt0 (with_shard (set_transport m t) p drop_nodes) (<[k := RemAccess sid p (nodes_of sh)]> T) lates.
Proof.
  intros Hw Hk Eo Ht. pose proof Hw as [W1 W2 W3 W4 W5 W6 W7 W8 W9]. destruct (W5 k sid p Hk) as ((sh0 & E0 & Hi0 & Hn0) & Hno & Hu). rewrite Eo in E0. injection E0 as <-.
  assert (grows m (with_shard (set_transport m t) p drop_nodes)) as Hg.
  { destruct (grows_alter (set_transport m t) p drop_nodes ltac:(done)) as [G1 G2 G3]. by split. }
  assert (forall sid' q, shards m !! sid' = Some q -> p <> q) as Hreg.
  { intros sid' q Hq <-. destruct (W1 sid' p Hq) as (? & ? & ? & _). apply Hno. congruence. }
  assert (forall sid' p' j, <[k := RemAccess sid p (nodes_of sh)]> T !! j = Some (RemNodes sid' p') -> T !! j = Some (RemNodes sid' p') /\ p <> p') as Hold.
  { intros sid' p' j [[_ ?]|[Hne Hj]]%lookup_insert_Some; [done|]. split; [done|]. intros <-. by apply Hne, eq_sym, (Hu j sid'). }
  split; simpl.
  - intros sid' q Hq. rewrite lookup_alter_ne by eauto. auto.
  - intros q sh'. rewrite lookup_alter. case_decide; [subst q|eauto]. intros _. by apply (W2 p sh).
  - intros q sh' i n. rewrite lookup_alter. case_decide; [subst q|eauto]. rewrite Eo. intros [= <-]. simpl. eauto.
  - intros q sh'. rewrite lookup_alter. case_decide as Hpq; [subst q; rewrite Eo; intros [= <-]; auto|]. intros E. destruct (W4 q sh' E) as [?|[?|(j & t' & Hj & <-)]]; auto.
    right. right. exists j, (RemNodes (sh_id sh') q). split; [|done]. rewrite lookup_insert_ne; [done|]. intros <-. congruence.
  - intros j sid' q [Hj Hne]%Hold. destruct (W5 j sid' q Hj) as (Hs & ? & Hu'). rewrite lookup_alter_ne by done. split_and!; [done..|]. intros j' sid'' [Hj' _]%Hold. eauto.
  - exact W6.
  - intros j s [[<- <-]|[_ Hj]]%lookup_insert_Some; [done|]. eapply task_ok_grows; eauto.
  - intros sid' i q. rewrite Ht. intros Hh. destruct (W8 sid' i q Hh) as (? & Hn & Hcv). split_and!; [done|by eapply has_node_grows|]. destruct Hcv as [?|Hcv]; [by left|right].
    eapply covered_replace; [exact Hk| |exact Hcv]. simpl. intros [<- <-]. split_and!; [done|done|]. apply nodes_of_elem. unfold sh_node. rewrite Hn0.
    destruct Hn as (sh' & n & E & _ & En). rewrite Eo in E. injection E as <-. by exists n.
  - intros sid' lt l Hlt Hl. destruct (W9 sid' lt l Hlt Hl) as [? Hcv]. split; [done|]. intros Hla. destruct (Hcv Hla) as [(q & sh' & n & Hq & E & ?)|Hc]; [left|right].
    + exists q, sh', n. simpl. rewrite lookup_alter_ne by eauto. done.
    + eapply covered_replace; [exact Hk| |exact Hc]. done.
Qed.

Lemma winv_create lt0 m T lates sid peers : winv lt0 m T lates -> winv lt0 (CreateShard m sid peers).1 T lates.
Proof.
  intros Hw. unfold CreateShard. case_decide; [done|]. destruct (shards m !! sid) eqn:Es; [done|].
  destruct (create_nodes _ _ _ _) as [ns|] eqn:Ec; [|done]. simpl. pose proof Hw as [W1 W2 W3 W4 W5 W6 W7 W8 W9].
  set (sh := mkShard sid ns false [] []). set (p := next_obj m).
  assert (objs m !! p = None) as Hfresh by (destruct (objs m !! p) as [sh0|] eqn:E; [apply W2 in E; unfold p in E; lia|done]).
  assert (forall q sh0, objs m !! q = Some sh0 -> <[p := sh]> (objs m) !! q = Some sh0) as Hold by (intros q sh0 E; rewrite lookup_insert_ne; [done|]; intros ->; congruence).
  assert (forall sid' q, shards m !! sid' = Some q -> <[sid := p]> (shards m) !! sid' = Some q) as Hreg by (intros sid' q E; rewrite lookup_insert_ne; [done|]; intros ->; congruence).
  assert (forall t, grows m (mkManager (<[p := sh]> (objs m)) (S p) (<[sid := p]> (shards m)) t (leases m) (trackers m) (readEnabled m) (newStorage m) (hooked m) (hookCalls m) (lastPersistErr m))) as Hg.
  { intros t. split; [|done..]. intros q sh0 E. exists sh0. split; [by apply Hold|done]. }
  split; simpl.
  - intros sid' q [[<- <-]|[Hne Hq]]%lookup_insert_Some; [exists sh; by rewrite lookup_insert_eq|]. destruct (W1 sid' q Hq) as (sh0 & E & ?). exists sh0. split; [by apply Hold|done].
  - intros q sh0 [[<- _]|[_ E]]%lookup_insert_Some; [unfold p; lia|]. apply W2 in E. unfold p. lia.
  - intros q sh0 i n [[<- <-]|[_ E]]%lookup_insert_Some; [|eauto]. simpl. eapply create_nodes_ids; [exact Ec|]. intros ? ? ?; by simplify_map_eq.
  - intros q sh0 [[<- <-]|[_ E]]%lookup_insert_Some; [left; by rewrite lookup_insert_eq|]. destruct (W4 q sh0 E) as [?|?]; [left; by apply Hreg|by right].
  - intros k sid' q Hk. destruct (W5 k sid' q Hk) as ((sh0 & E & ?) & Hno & ?). split_and!; [exists sh0; split; [by apply Hold|done]| |done].
    rewrite lookup_insert_Some. intros [[_ <-]|[_ ?]]; [congruence|done].
  - exact W6.
  - intros k t Hk. eapply task_ok_grows; eauto.
  - intros sid' i q Hh.
    assert ((sid' = sid /\ is_Some (ns !! i) /\ q = p /\ readEnabled m = true) \/ readHandlers (transport m) !! (sid', i) = Some q) as [(-> & [n Hn] & -> & ->)|Hh'].
    { destruct (readEnabled m) eqn:Ere.
      - apply register_handlers_lookup in Hh as [(? & ? & ?)|Hh]; [left; by split_and!|right; by rewrite register_peers_handlers in Hh].
      - right. by rewrite register_peers_handlers in Hh. }
    + split_and!; [done| |left; by rewrite lookup_insert_eq]. exists sh, n. split; [simpl; by rewrite lookup_insert_eq|done].
    + destruct (W8 sid' i q Hh') as (? & ? & Hc). split_and!; [done|by eapply has_node_grows|]. destruct Hc; auto.
  - intros sid' lt l Hlt Hl. destruct (W9 sid' lt l Hlt Hl) as (? & Hc). split; [done|]. intros Hla. destruct (Hc Hla) as [(q & sh0 & n & Hq & E & ?)|?]; [left|by right].
    exists q, sh0, n. simpl. split; [by apply Hreg|]. split; [by apply Hold|done].
Qed.

(** ** Steps *)

Lemma current_Some lt0 m T lates lt : winv lt0 m T lates -> current m = Some lt -> lt = lt0 /\ leases m = Some lt0.
Proof.
  intros Hw. unfold current. destruct (wi_tracker _ _ _ _ Hw) as [-> | ->]; [done|]. simpl. destruct (trackers m !! lt0); [|done]. by intros [= <-].
Qed.

Lemma winv_object lt0 m T lates sid p : winv lt0 m T lates -> shards m !! sid = Some p -> object m sid p.
Proof. intros Hw Hp. destruct (wi_shard _ _ _ _ Hw sid p Hp) as (sh & ? & ? & _). by exists sh. Qed.

(** Calls that owe nothing. *)
Definition owes (t : task) : bool :=
  match t with
  | StopPeer _ _ | StopAccess _ _ | StopHolder _ _ _ _ | StopRevoke _ _ _ _ | RemNodes _ _ | RemAccess _ _ _ | RemRevoke _ _ _ _ _ | RemHandlers _ _ _ => true
  | _ => false
  end.

Lemma winv_free lt0 m m' T lates k t t' :
  winv lt0 m T lates -> frame m m' -> T !! k = Some t -> owes t = false -> task_ok lt0 m' t' -> (forall sid p, t' <> RemNodes sid p) -> winv lt0 m' (<[k := t']> T) lates.
Proof. intros Hw Hf Hk Ho Hok Hn. eapply winv_task; [exact Hw|exact Hf|exact Hk|exact Hok| |exact Hn| |]; destruct t; by intros. Qed.

Lemma revoke_lookup m lt sid t : trackers (revoke m lt sid) !! lt = Some t -> lt_leases t !! sid = None.
Proof.
  unfold revoke. destruct (trackers m !! lt) as [t0|] eqn:E; [|congruence]. simpl. rewrite lookup_insert_eq. intros [= <-]. simpl. by rewrite lookup_delete_eq.
Qed.

Lemma frame_transport m t : readHandlers t = readHandlers (transport m) -> frame m (set_transport m t).
Proof. intros Ht. split; try done. intros p. simpl. destruct (objs m !! p); by constructor. Qed.

Ltac free_step Hw Hk := eapply winv_free; [exact Hw|apply frame_refl|exact Hk|done|try done|done].

Lemma advance_acquire_inv lt0 e m T lates k t :
  winv lt0 m T lates -> T !! k = Some t -> owes t = false ->
  (forall sid i p lt, t <> AcqGrant sid i p lt) -> winv lt0 (advance_acquire e m t).1 (<[k := (advance_acquire e m t).2]> T) lates.
Proof.
  intros Hw Hk Ho Hng. pose proof (wi_task _ _ _ _ Hw k t Hk) as Hok. destruct t; simpl; try (free_step Hw Hk; fail); try done.
  - destruct (shards m !! sid) as [p|] eqn:Es; [|free_step Hw Hk]. destruct (current m) as [lt|] eqn:Ec; [|free_step Hw Hk]. free_step Hw Hk.
    destruct (current_Some _ _ _ _ _ Hw Ec) as [-> ?]. split; [by eapply winv_object|done].
  - destruct (objs m !! p ≫= _) as [n|]; [|free_step Hw Hk]. case_decide; free_step Hw Hk.
  - by destruct (Hng sid i p lt).
Qed.

Lemma advance_grant_inv lt0 e m T lates k sid i p lt :
  winv lt0 m T lates -> T !! k = Some (AcqGrant sid i p lt) ->
  winv lt0 (advance e m (AcqGrant sid i p lt)).1 (<[k := (advance e m (AcqGrant sid i p lt)).2]> T) (late_after m (AcqGrant sid i p lt) lates).
Proof.
  intros Hw Hk. pose proof (wi_task _ _ _ _ Hw _ _ Hk) as (_ & -> & Hls). simpl. destruct (trackers m !! lt0) as [t|] eqn:Et; simpl.
  - eapply winv_free; [by apply winv_grant|apply frame_refl|exact Hk|done|done|done].
  - eapply winv_free; [|apply frame_refl|exact Hk|done|done|done]. pose proof Hw as [W1 W2 W3 W4 W5 W6 W7 W8 W9]. split; try done. intros sid' lt' l' Hlt'. congruence.
Qed.

Lemma advance_read_inv lt0 m T lates k t :
  winv lt0 m T lates -> T !! k = Some t -> owes t = false -> winv lt0 (advance_read m t).1 (<[k := (advance_read m t).2]> T) lates.
Proof.
  intros Hw Hk Ho. pose proof (wi_task _ _ _ _ Hw k t Hk) as Hok. destruct t; simpl; try (free_step Hw Hk; fail); try done.
  - destruct (shards m !! sid) as [p|] eqn:Es; [|free_step Hw Hk]. destruct (current m) as [lt|] eqn:Ec; [|free_step Hw Hk]. destruct (negb (readEnabled m)); [free_step Hw Hk|].
    free_step Hw Hk. destruct (current_Some _ _ _ _ _ Hw Ec) as [-> ?]. split; [by eapply winv_object|done].
  - destruct Hok as (? & -> & ?). destruct (trackers m !! lt0) as [t|]; [|free_step Hw Hk]. destruct (IsLocalLeaseholder t sid asking now); free_step Hw Hk.
  - destruct (objs m !! p ≫= _) as [n|]; [|free_step Hw Hk]. destruct (stopped n); free_step Hw Hk.
  - destruct (trackers m !! lt ≫= _) as [h|]; free_step Hw Hk.
  - destruct (trackers m !! lt) as [t|]; [|free_step Hw Hk]. destruct (IsLocalLeaseholder t sid h now); free_step Hw Hk.
  - destruct (readHandlers (transport m) !! (sid, h)) as [q|] eqn:Eh; [|free_step Hw Hk]. simpl. eapply winv_free; [exact Hw|by apply frame_transport|exact Hk|done| |done].
    simpl. destruct (wi_handler _ _ _ _ Hw sid h q Eh) as (_ & ? & _). done.
Qed.

Lemma advance_enable_inv lt0 e m T lates k t :
  winv lt0 m T lates -> T !! k = Some t -> owes t = false -> e_shards e ≡ₚ (map_to_list (shards m)).*2 ->
  winv lt0 (advance_enable e m t).1 (<[k := (advance_enable e m t).2]> T) lates.
Proof.
  intros Hw Hk Ho He. pose proof (wi_task _ _ _ _ Hw k t Hk) as Hok. destruct t; simpl; try (free_step Hw Hk; fail); try done.
  - simpl in Hok. subst lt. eapply winv_free; [by apply winv_enable|apply frame_refl|exact Hk|done| |done]. split; [done|]. intros p Hp. simpl.
    rewrite He, list_elem_of_fmap in Hp. destruct Hp as ([sid q] & -> & Hq%elem_of_map_to_list). destruct (wi_shard _ _ _ _ Hw sid q Hq) as (sh & ? & _). by exists sh.
  - destruct Hok as [Hen Hps]. destruct ps as [|p ps]; [free_step Hw Hk|]. destruct (Hps p ltac:(left)) as [sh Eo]. simpl. rewrite Eo.
    eapply winv_free; [by apply winv_register|apply frame_refl|exact Hk|done| |done]. split; [done|]. intros q Hq. apply Hps. by right.
Qed.

Lemma advance_stop_inv lt0 m T lates k t :
  winv lt0 m T lates -> T !! k = Some t -> match t with TStop _ _ | StopMark _ _ _ | StopPeer _ _ | StopAccess _ _ | StopHolder _ _ _ _ | StopRevoke _ _ _ _ | StopHandler _ _ _ => True | _ => False end ->
  winv lt0 (advance_stop m t).1 (<[k := (advance_stop m t).2]> T) (late_after m t lates).
Proof.
  intros Hw Hk Hst. pose proof (wi_task _ _ _ _ Hw k t Hk) as Hok. destruct t; simpl; try done; clear Hst.
  - destruct (shards m !! sid) as [p|] eqn:Es; free_step Hw Hk. by eapply winv_object.
  - destruct (objs m !! p ≫= _) as [n|]; [simpl|free_step Hw Hk]. apply winv_stop with sid; [free_step Hw Hk|done|]. exists k, (StopPeer sid i). by rewrite lookup_insert_eq.
  - eapply winv_task; [exact Hw|by apply frame_transport|exact Hk|done..].
  - eapply winv_task; [exact Hw|apply frame_refl|exact Hk|apply (wi_tracker _ _ _ _ Hw)|done|done| |done]. intros sid' lt l Hlt Hl [-> ->]. split_and!; [done|done|].
    by destruct (wi_lease _ _ _ _ Hw sid' lt l Hlt Hl).
  - destruct lt as [p|]; simpl; [|eapply winv_task; [exact Hw|apply frame_refl|exact Hk|done|done|done|by intros ? ? ? ? ? (_ & _ & ?)|done]].
    destruct Hok as [|[= ->]]; [done|]. destruct (trackers m !! lt0) as [t|] eqn:Et; simpl; [case_decide as Hh|]; (eapply winv_task; [exact Hw|apply frame_refl|exact Hk|done|done|done| |done]).
    + intros sid' lt l _ _ (-> & _ & _). done.
    + intros sid' lt l Hlt Hl (-> & -> & _). destruct Hh. unfold Leaseholder. rewrite Et in Hlt. injection Hlt as <-. by rewrite Hl.
    + intros sid' lt l Hlt. congruence.
  - simpl in Hok. subst lt. eapply winv_task; [by apply winv_revoke|apply frame_refl|exact Hk|done|done|done| |done].
    intros sid' lt l Hlt Hl [-> _]. apply revoke_lookup in Hlt. congruence.
  - destruct enabled; simpl; [|free_step Hw Hk]. eapply winv_free; [by apply winv_unhandle|apply frame_refl|exact Hk|done|done|done].
Qed.

Lemma advance_remove_inv lt0 m T lates k t :
  winv lt0 m T lates -> T !! k = Some t -> match t with TRemove _ | RemNodes _ _ | RemAccess _ _ _ | RemRevoke _ _ _ _ _ | RemHandlers _ _ _ => True | _ => False end ->
  winv lt0 (advance_remove m t).1 (<[k := (advance_remove m t).2]> T) (late_after m t lates).
Proof.
  intros Hw Hk Hst. pose proof (wi_task _ _ _ _ Hw k t Hk) as Hok. destruct t; simpl; try done; clear Hst.
  - destruct (shards m !! sid) as [p|] eqn:Es; [by apply winv_remove|free_step Hw Hk].
  - destruct (wi_removing _ _ _ _ Hw k sid p Hk) as ((sh & Eo & _) & _). rewrite Eo. apply winv_drop; [done|done|done|by rewrite unregister_peers_handlers].
  - eapply winv_task; [exact Hw|apply frame_refl|exact Hk|apply (wi_tracker _ _ _ _ Hw)|done|done| |].
    + intros sid' lt l Hlt Hl <-. split; [done|]. by destruct (wi_lease _ _ _ _ Hw sid lt l Hlt Hl).
    + intros sid' i q Hh (-> & -> & ?). split_and!; [done..|]. by destruct (wi_handler _ _ _ _ Hw sid' i q Hh).
  - destruct lt as [lt|].
    + destruct Hok as [|[= ->]]; [done|]. eapply winv_task; [by apply winv_revoke|apply frame_refl|exact Hk|by destruct enabled|done|by destruct enabled| |].
      * intros sid' lt l Hlt Hl [-> _]. apply revoke_lookup in Hlt. congruence.
      * intros sid' i q _ (-> & -> & ? & ->). done.
    + eapply winv_task; [exact Hw|apply frame_refl|exact Hk|by destruct enabled|done|by destruct enabled|by intros ? ? ? ? ? [_ ?]|]. intros sid' i q _ (-> & -> & ? & ->). done.
  - destruct ids as [|i ids]; simpl.
    + eapply winv_task; [exact Hw|apply frame_refl|exact Hk|done|done|done|done|]. by intros sid' i q _ (_ & _ & ?%elem_of_nil).
    + eapply winv_task; [by apply winv_unhandle|apply frame_refl|exact Hk|done|done|done|done|]. simpl. intros sid' i' q Hh (-> & -> & Hi). split_and!; [done..|].
      apply lookup_delete_Some in Hh as [Hne _]. apply elem_of_cons in Hi as [->|?]; [by destruct Hne|done].
Qed.

Lemma advance_inv lt0 e m T lates k t :
  winv lt0 m T lates -> T !! k = Some t -> e_shards e ≡ₚ (map_to_list (shards m)).*2 ->
  winv lt0 (advance e m t).1 (<[k := (advance e m t).2]> T) (late_after m t lates).
Proof.
  intros Hw Hk He. destruct t; try (by apply advance_stop_inv); try (by apply advance_remove_inv); try (by apply (advance_read_inv lt0)); try (by apply (advance_enable_inv lt0));
    try (by apply (advance_acquire_inv lt0)); by apply advance_grant_inv.
Qed.

Lemma driving_frame m m' : driving m m' -> frame m m'.
Proof.
  destruct 1; [apply frame_with_shard, tick_nodes_shape|by eapply processReadyLocked_frame| | |by apply frame_with_shard|apply Send_frame|].
  - apply frame_with_shard. intros sh. by apply with_node_shape.
  - apply frame_with_shard. intros sh. by apply with_node_shape.
  - split; try done. intros q. simpl. destruct (objs m !! q); by constructor.
Qed.

Lemma cstep_inv lt0 w w' : cstep lt0 w w' -> winv lt0 (mg w) (ops w) (late w) -> winv lt0 (mg w') (ops w') (late w').
Proof.
  destruct 1; intros Hw; simpl; [by apply winv_call|by apply advance_inv|by apply winv_create|]. eapply winv_drive; [exact Hw|by apply driving_frame].
Qed.

Lemma reachable_inv lt0 st lts w :
  (forall lt, lts !! lt0 = Some lt -> lt_leases lt = ∅) -> rtc (cstep lt0) (begin_lease st lts) w -> winv lt0 (mg w) (ops w) (late w).
Proof.
  intros Hlts Hr. assert (winv lt0 (mg (begin_lease st lts)) (ops (begin_lease st lts)) (late (begin_lease st lts))) as H0.
  { split; simpl; try (intros *; by rewrite lookup_empty); [by left|]. intros sid lt l Hlt Hl. rewrite (Hlts lt Hlt), lookup_empty in Hl. done. }
  induction Hr as [|w1 w2 w3 Hs _ IH]; [done|]. apply IH. by eapply cstep_inv.
Qed.

(** ** What happened before *)

(** Something held at some moment of the run so far. *)
Definition once (lt0 : nat) (w0 w : world) (P : world -> Prop) : Prop :=
  exists w1, rtc (cstep lt0) w0 w1 /\ rtc (cstep lt0) w1 w /\ P w1.

(** Node [i] of the shard object is live and the engine reports it as leader. *)
Definition led (p : nat) (sid : string) (i : Z) (m : MultiRaftManager) : Prop :=
  exists sh n, objs m !! p = Some sh /\ sh_id sh = sid /\ sh_node sh i = Some n /\ stopped n = false /\ IsLeader (storage n) (raw n) = true.

(** Call [k] of [AcquireLease] looks for the leader and finds node [i]. *)
Definition elects (k : nat) (sid : string) (i : Z) (w : world) : Prop :=
  exists p lt, ops w !! k = Some (AcqLeader sid i p lt) /\ led p sid i (mg w).

(** Node [i] has the lease on record, unexpired at [now]. *)
Definition leased (lt0 : nat) (sid : string) (i now : Z) (m : MultiRaftManager) : Prop :=
  exists lt l, trackers m !! lt0 = Some lt /\ lt_leases lt !! sid = Some l /\ holder l = i /\ now < expiresAt l.

(** The result is the last payload its node has committed; a node that serves
    locally is live. *)
Definition held (sid : string) (res : ReadResult) (m : MultiRaftManager) : Prop :=
  exists q sh n, objs m !! q = Some sh /\ sh_id sh = sid /\ nodes sh !! ServedBy res = Some n /\ rValue res = default [] (last (committed n)) /\
    (Local res = true -> sh_node sh (ServedBy res) = Some n /\ stopped n = false).

(** A read in progress. *)
Definition reads (sid : string) (asking now : Z) (t : task) : Prop :=
  match t with
  | TRead sid' a n | RdCheck sid' a n _ _ | RdLocal sid' a n _ | RdHolder sid' a n _ | RdValid sid' a n _ _ | RdSend sid' a n _ | RdServe sid' a n _ _ => sid' = sid /\ a = asking /\ n = now
  | _ => False
  end.

(** While call [k] reads, [P] holds of the manager. *)
Definition while_reading (k : nat) (sid : string) (asking now : Z) (P : MultiRaftManager -> Prop) (w : world) : Prop :=
  (exists t, ops w !! k = Some t /\ reads sid asking now t) /\ P (mg w).

Definition task_past (lt0 : nat) (w0 w : world) (k : nat) (t : task) : Prop :=
  match t with
  | AcqGrant sid i _ _ => once lt0 w0 w (elects k sid i)
  | RdLocal sid asking now _ => once lt0 w0 w (while_reading k sid asking now (leased lt0 sid asking now))
  | RdSend sid asking now h | RdServe sid asking now h _ => once lt0 w0 w (while_reading k sid asking now (leased lt0 sid h now))
  | Finished (ORead sid asking now (inr res)) =>
      once lt0 w0 w (while_reading k sid asking now (leased lt0 sid (ServedBy res) now)) /\ once lt0 w0 w (while_reading k sid asking now (held sid res)) /\
      (Local res = true -> asking = ServedBy res) /\ Routed res = negb (Local res)
  | _ => True
  end.

(** A lease on record is what a finished call of [AcquireLease] returned. *)
Definition granted (lt0 : nat) (w0 w : world) (sid : string) (l : lease) : Prop :=
  exists k, ops w !! k = Some (Finished (OAcquired (inr (expiresAt l)))) /\ once lt0 w0 w (elects k sid (holder l)).

Record past (lt0 : nat) (w0 w : world) : Prop := {
  pa_task k t : ops w !! k = Some t -> task_past lt0 w0 w k t;
  pa_lease sid lt l : trackers (mg w) !! lt0 = Some lt -> lt_leases lt !! sid = Some l -> granted lt0 w0 w sid l;
}.

Lemma once_later lt0 w0 w w' P : rtc (cstep lt0) w w' -> once lt0 w0 w P -> once lt0 w0 w' P.
Proof. intros Hs (w1 & H1 & H2 & HP). exists w1. split_and!; [done|by etrans|done]. Qed.

Lemma task_past_later lt0 w0 w w' k t : rtc (cstep lt0) w w' -> task_past lt0 w0 w k t -> task_past lt0 w0 w' k t.
Proof.
  intros Hs. destruct t; simpl; eauto using once_later. destruct o; try done. destruct r; [done|]. intros (? & ? & ?). eauto using once_later.
Qed.

(** A finished call stays as it is. *)
Lemma finished_step lt0 w w' k o : cstep lt0 w w' -> ops w !! k = Some (Finished o) -> ops w' !! k = Some (Finished o).
Proof.
  destruct 1 as [w j t Hj Hb|w j t e Hj He|w sid peers|w m' Hd]; intros Hk; simpl; [| |done|done].
  - rewrite lookup_insert_ne; [done|]. intros ->. congruence.
  - destruct (decide (j = k)) as [->|Hne]; [|by rewrite lookup_insert_ne]. rewrite lookup_insert_eq. rewrite Hk in Hj. injection Hj as <-. done.
Qed.

Lemma granted_later lt0 w0 w w' sid l : cstep lt0 w w' -> granted lt0 w0 w sid l -> granted lt0 w0 w' sid l.
Proof.
  intros Hs (k & Hk & Ho). exists k. split; [by eapply finished_step|]. eapply once_later; [by apply rtc_once|done].
Qed.

(** The step call [k] takes, from what is known when it takes it. *)
Lemma advance_past lt0 e w0 w k t :
  ops w !! k = Some t -> task_ok lt0 (mg w) t -> (forall p sh i n, objs (mg w) !! p = Some sh -> nodes sh !! i = Some n -> id n = i) -> rtc (cstep lt0) w0 w ->
  task_past lt0 w0 w k t -> task_past lt0 w0 w k (advance e (mg w) t).2.
Proof.
  intros Hk Hok Hids Hr Hp.
  assert (forall sid asking now (P : MultiRaftManager -> Prop), reads sid asking now t -> P (mg w) -> once lt0 w0 w (while_reading k sid asking now P)) as Hnow.
  { intros sid asking now P Ht HP. exists w. split_and!; [done|done|]. split; [by exists t|done]. }
  destruct t; simpl in *; try done.
  - destruct (shards _ !! sid); [|done]. by destruct (current _).
  - destruct Hok as ((sh & Eo & Hsid) & _). rewrite Eo. simpl. destruct (leaderLocked (e_leader e) sh) as [n|] eqn:El; [|done]. case_decide as Hi; [done|].
    exists w. split_and!; [done|done|]. exists p, lt. split; [done|]. apply leaderLocked_live in El as (Hst & Hl & j & Hj). exists sh, n. split_and!; try done.
    rewrite <- (Hids p sh j n Eo (sh_node_lookup _ _ _ Hj)) in Hj. destruct (decide (id n = i)) as [<-|]; [done|by destruct Hi].
  - by destruct (trackers (mg w) !! lt).
  - by destruct (shards (mg w) !! sid).
  - by destruct (objs (mg w) !! p ≫= _).
  - destruct (p ← lt; t ← trackers (mg w) !! p; Some (p, t)) as [[p t]|]; [|done]. by case_decide.
  - by destruct (shards (mg w) !! sid).
  - by destruct enabled.
  - by destruct ids.
  - by destruct ps.
  - destruct (shards _ !! sid); [|done]. destruct (current _); [|done]. by destruct (negb _).
  - destruct Hok as (_ & -> & _). destruct (trackers (mg w) !! lt0) as [t|] eqn:Et; [|done]. destruct (IsLocalLeaseholder t sid asking now) eqn:El; [|done].
    apply IsLocalLeaseholder_true in El as (l & ? & ? & ?). apply Hnow; [done|]. by exists t, l.
  - destruct Hok as (sh & Eo & Hsid). rewrite Eo. simpl. destruct (sh_node sh asking) as [n|] eqn:En; [|done]. destruct (stopped n) eqn:Es; [done|]. simpl. split_and!; [done| |done|done].
    apply Hnow; [done|]. exists p, sh, n. split_and!; [done|done|by apply sh_node_lookup|done|done].
  - by destruct (trackers (mg w) !! lt ≫= _).
  - subst lt. destruct (trackers (mg w) !! lt0) as [t|] eqn:Et; [|done]. destruct (IsLocalLeaseholder t sid h now) eqn:El; [|done].
    apply IsLocalLeaseholder_true in El as (l & ? & ? & ?). apply Hnow; [done|]. by exists t, l.
  - by destruct (readHandlers (transport (mg w)) !! (sid, h)).
  - split_and!; [done| |done|done]. destruct Hok as (sh & n & Eo & Hsid & En). apply Hnow; [done|]. exists q, sh, n. simpl. rewrite Eo. simpl. rewrite En. done.
Qed.

Lemma revoke_subset lt0 m lt sid lt1 sid' l : trackers (revoke m lt sid) !! lt0 = Some lt1 -> lt_leases lt1 !! sid' = Some l -> exists lt2, trackers m !! lt0 = Some lt2 /\ lt_leases lt2 !! sid' = Some l.
Proof.
  unfold revoke. destruct (trackers m !! lt) as [t|] eqn:E; [|eauto]. simpl. intros [[<- <-]|[_ ?]]%lookup_insert_Some; [|eauto]. simpl. intros [_ ?]%lookup_delete_Some. eauto.
Qed.

(** A lease comes on record only when it is granted. *)
Lemma advance_leases lt0 e m t lt1 sid l :
  trackers (advance e m t).1 !! lt0 = Some lt1 -> lt_leases lt1 !! sid = Some l ->
  (exists lt, trackers m !! lt0 = Some lt /\ lt_leases lt !! sid = Some l) \/
  exists p lt, t = AcqGrant sid (holder l) p lt /\ (advance e m t).2 = Finished (OAcquired (inr (expiresAt l))).
Proof.
  destruct t; simpl; eauto.
  - destruct (trackers m !! lt) as [t|] eqn:Et; [|simpl; eauto]. simpl. intros [[<- <-]|[_ ?]]%lookup_insert_Some; [|eauto]. simpl. intros [[<- <-]|[_ ?]]%lookup_insert_Some; simpl; eauto 6.
  - destruct (objs m !! p ≫= _); simpl; eauto.
  - intros Hlt Hl. left. by eapply revoke_subset.
  - destruct enabled; simpl; eauto.
  - destruct (shards m !! sid0); simpl; eauto.
  - destruct lt; [|simpl; eauto]. intros Hlt Hl. left. by eapply revoke_subset.
  - destruct ids; simpl; eauto.
  - destruct ps as [|p ps]; simpl; [eauto|]. destruct (objs m !! p); simpl; eauto.
  - destruct (readHandlers (transport m) !! (sid0, h)); simpl; eauto.
Qed.

Lemma past_step lt0 w0 w w' : winv lt0 (mg w) (ops w) (late w) -> rtc (cstep lt0) w0 w -> past lt0 w0 w -> cstep lt0 w w' -> past lt0 w0 w'.
Proof.
  intros Hw Hr [Ht Hl] Hs. pose proof (rtc_once _ _ Hs) as Hs'.
  assert (forall sid lt l, trackers (mg w) !! lt0 = Some lt -> lt_leases lt !! sid = Some l -> granted lt0 w0 w' sid l) as Hold.
  { intros sid lt l Hlt Hl'. eapply granted_later; [exact Hs|eauto]. }
  destruct Hs as [w k t Hk Hb|w k t e Hk He|w sid peers|w m' Hd]; split; simpl; [|exact Hold| | | | | |].
  - intros j s [[<- <-]|[_ Hj]]%lookup_insert_Some; [by destruct t|]. eapply task_past_later; eauto.
  - intros j s [[<- <-]|[_ Hj]]%lookup_insert_Some; (eapply task_past_later; [exact Hs'|]); [|eauto].
    apply advance_past; [done|by eapply wi_task|apply (wi_ids _ _ _ _ Hw)|done|eauto].
  - intros sid lt l Hlt Hl'. destruct (advance_leases _ _ _ _ _ _ _ Hlt Hl') as [(lt' & ? & ?)|(p & lt' & -> & Hfin)]; [eauto|]. exists k.
    split; [cbn [ops]; by rewrite lookup_insert_eq, Hfin|]. eapply once_later; [exact Hs'|]. exact (Ht k _ Hk).
  - intros j s Hj. eapply task_past_later; eauto.
  - intros sid' lt l Hlt Hl'. eapply Hold; [|exact Hl']. revert Hlt. unfold CreateShard. case_decide; [done|].
    destruct (shards (mg w) !! sid); [done|]. by destruct (create_nodes _ _ _ _).
  - intros j s Hj. eapply task_past_later; eauto.
  - intros sid lt l Hlt Hl'. rewrite (fr_trackers _ _ (driving_frame _ _ Hd)) in Hlt. eauto.
Qed.

Lemma reachable_past lt0 st lts w :
  (forall lt, lts !! lt0 = Some lt -> lt_leases lt = ∅) -> rtc (cstep lt0) (begin_lease st lts) w -> past lt0 (begin_lease st lts) w.
Proof.
  intros Hlts. revert w. apply rtc_ind_r.
  - split; simpl; [intros *; by rewrite lookup_empty|]. intros sid lt l Hlt Hl. by rewrite (Hlts lt Hlt), lookup_empty in Hl.
  - intros w1 w2 Hr Hs IH. eapply past_step; [by eapply reachable_inv|exact Hr|exact IH|exact Hs].
Qed.

(** ** Reads *)

(** No call that stops a node of the shard or removes it is in progress. *)
Definition disturbs (sid : string) (t : task) : bool :=
  match t with
  | TStop sid' _ | StopMark sid' _ _ | StopPeer sid' _ | StopAccess sid' _ | StopHolder sid' _ _ _ | StopRevoke sid' _ _ _ | StopHandler sid' _ _
  | TRemove sid' | RemNodes sid' _ | RemAccess sid' _ _ | RemRevoke sid' _ _ _ _ | RemHandlers sid' _ _ => bool_decide (sid' = sid)
  | _ => false
  end.

Definition undisturbed (sid : string) (T : gmap nat task) : Prop := forall k t, T !! k = Some t -> disturbs sid t = false.

Lemma undisturbed_covered sid T (R : task -> Prop) : undisturbed sid T -> (forall t, R t -> disturbs sid t = true) -> ~ covered T R.
Proof. intros Hu HRt (k & t & Hk & Ht). apply HRt in Ht. rewrite (Hu k t Hk) in Ht. done. Qed.

Lemma revokes_disturbs lt0 sid i t : revokes lt0 sid i t -> disturbs sid t = true.
Proof. destruct t; simpl; try done; intros H; apply bool_decide_eq_true; naive_solver. Qed.

Lemma clears_disturbs sid i q t : clears sid i q t -> disturbs sid t = true.
Proof. destruct t; simpl; try done; intros H; apply bool_decide_eq_true; naive_solver. Qed.

Lemma lease_live lt0 m T lates sid lt l :
  winv lt0 m T lates -> trackers m !! lt0 = Some lt -> lt_leases lt !! sid = Some l -> sid ∉ lates -> undisturbed sid T -> live_at m sid (holder l).
Proof.
  intros Hw Hlt Hl Hla Hu. destruct (wi_lease _ _ _ _ Hw sid lt l Hlt Hl) as [_ Hc]. destruct (Hc Hla) as [?|Hcv]; [done|]. exfalso.
  revert Hcv. apply undisturbed_covered with sid; [done|]. intros t. apply revokes_disturbs.
Qed.

(** Who served a read and what it returned. *)
Definition served (m : MultiRaftManager) (lt0 : nat) (sid : string) (asking now : Z) (res : ReadResult) : Prop :=
  exists p sh n lt l, shards m !! sid = Some p /\ objs m !! p = Some sh /\ sh_node sh (ServedBy res) = Some n /\ stopped n = false /\
    trackers m !! lt0 = Some lt /\ lt_leases lt !! sid = Some l /\ holder l = ServedBy res /\ now < expiresAt l /\
    rValue res = default [] (last (committed n)) /\ Local res = bool_decide (asking = ServedBy res) /\ Routed res = negb (Local res).

Lemma Read_served lt0 m T lates sid asking now m' res :
  winv lt0 m T lates -> sid ∉ lates -> undisturbed sid T -> Read m sid asking now = (m', inr res) -> served m lt0 sid asking now res.
Proof.
  intros Hw Hla Hu. unfold Read. destruct (find_shard m sid) as [[p sh]|] eqn:Ef; [|done].
  apply find_shard_Some in Ef as [Hp Eo]. destruct (wi_tracker _ _ _ _ Hw) as [El|El]; rewrite El; [done|]. simpl.
  destruct (trackers m !! lt0) as [lt|] eqn:Et; [|done]. destruct (negb (readEnabled m)); [done|].
  destruct (IsLocalLeaseholder lt sid asking now) eqn:Eloc.
  - apply IsLocalLeaseholder_true in Eloc as (l & Hl & Hh & Hnow). destruct (sh_node sh asking) as [n|] eqn:En; [|done].
    destruct (stopped n) eqn:Es; [done|]. intros [= <- <-]. exists p, sh, n, lt, l. simpl. rewrite bool_decide_eq_true_2 by done. by split_and!.
  - destruct (Leaseholder lt sid) as [h|] eqn:Eh; [|done]. destruct (IsLocalLeaseholder lt sid h now) eqn:Ev; [|done]. simpl.
    assert (asking <> h) as Hne by congruence. apply IsLocalLeaseholder_true in Ev as (l & Hl & Hh & Hnow). unfold SendRead.
    destruct (readHandlers (transport m) !! (sid, h)) as [q|] eqn:Ehd; [|done]. intros [= <- <-].
    destruct (lease_live _ _ _ _ _ _ _ Hw Et Hl Hla Hu) as (p' & sh' & n & Hp' & Eo' & En & Hst). rewrite Hh in En.
    assert (q = p) as ->.
    { destruct (wi_handler _ _ _ _ Hw sid h q Ehd) as (_ & _ & [Hq|Hcv]); [congruence|]. exfalso.
      revert Hcv. apply undisturbed_covered with sid; [done|]. intros t. apply clears_disturbs. }
    assert (p' = p) as -> by congruence. rewrite Eo in Eo'. injection Eo' as <-. exists p, sh, n, lt, l. simpl. rewrite bool_decide_eq_false_2 by done. split_and!; try done.
    rewrite Eo. simpl. apply sh_node_lookup in En. by rewrite En.
Qed.

(** Once the holder is stopped the shard has no lease. *)
Lemma StopNode_no_read lt0 m T lates sid i lt asking now :
  winv lt0 m T lates -> (StopNode m sid i).2 = None -> trackers m !! lt0 = Some lt -> Leaseholder lt sid = Some i ->
  exists e, (Read (StopNode m sid i).1 sid asking now).2 = inl e.
Proof.
  intros Hw Hok Hlt Hh. assert (exists l, lt_leases lt !! sid = Some l) as [l Hl] by (apply fmap_Some in Hh as (l & ? & _); eauto).
  destruct (wi_lease _ _ _ _ Hw sid lt l Hlt Hl) as [Hls _]. revert Hok. unfold StopNode. destruct (find_shard m sid) as [[q sh0]|]; [|done]. destruct (sh_node sh0 i); [|done]. intros _. simpl.
  unfold revokeReadAccess. simpl. rewrite Hls, Hlt. rewrite decide_True by done. simpl. set (m' := if readEnabled m then _ else _).
  assert (leases m' = Some lt0 /\ trackers m' = <[lt0 := Revoke lt sid]> (trackers m)) as [Hls' Htr'] by (unfold m'; by destruct (readEnabled m)).
  unfold Read. destruct (find_shard m' sid) as [[p sh]|]; [|by eexists]. rewrite Hls'. simpl. rewrite Htr', lookup_insert_eq. destruct (negb (readEnabled m')); [by eexists|].
  unfold IsLocalLeaseholder, Leaseholder, Revoke. simpl. rewrite lookup_delete_eq. by eexists.
Qed.

(** ** Driving calls as sequences of steps *)

Lemma drive_driving sched m p m' b : drive sched m p = Some (m', b) -> rtc driving m m'.
Proof.
  unfold drive. intros ([m1 b1] & E & E')%bind_Some. injection E' as <- _. eapply rtc_l; [by eapply dr_process|]. clear E. unfold deliverPending.
  destruct (objs m1 !! p) as [sh|]; [|done]. eapply rtc_l; [apply (dr_take m1 p)|]. generalize (with_shard m1 p take_pending). induction (pending sh) as [|msg ms IH]; intros m0; [apply rtc_refl|].
  simpl. eapply rtc_l; [apply (dr_send m0 (sh_id sh) msg)|apply IH].
Qed.

Lemma Tick_driving sched m order m' : Tick sched m order = Some m' -> rtc driving m m'.
Proof.
  revert m. induction order as [|p order IH]; intros m E; simpl in E; [by simplify_eq|]. apply bind_Some in E as ([m1 b] & E1 & E2).
  eapply rtc_l; [apply (dr_tick m p)|]. etrans; [by eapply drive_driving|by apply IH].
Qed.

Lemma Run_driving fuel sched m order m' : Run fuel sched m order = Some m' -> rtc driving m m'.
Proof.
  assert (forall l m b m' b', run_turn sched m b l = Some (m', b') -> rtc driving m m') as Hturn.
  { induction l as [|p l IH]; intros m1 b m2 b' E; simpl in E; [by simplify_eq|]. apply bind_Some in E as ([m3 b3] & E1 & E2). etrans; [by eapply drive_driving|by eapply IH]. }
  revert m. induction fuel as [|fuel IH]; intros m E; simpl in E; [done|]. apply bind_Some in E as ([m1 b1] & E1%Hturn & E2). destruct b1; [|by simplify_eq]. etrans; [exact E1|by apply IH].
Qed.

Lemma Propose_driving sched order m c sid data m' e : Propose sched order m c sid data = Some (m', e) -> rtc driving m m'.
Proof.
  unfold Propose. destruct c; [by intros [= <- _]|]. destruct (find_shard m sid) as [[p sh]|]; [|by intros [= <- _]]. destruct (leaderLocked order sh) as [l|]; [|by intros [= <- _]].
  pose proof (rtc_once _ _ (dr_propose m p (id l) data)) as H. destruct (raw_Propose _ _ _).2; [by intros [= <- _]|]. intros ([m1 b] & E & E')%bind_Some. injection E' as <- _.
  etrans; [exact H|by eapply drive_driving].
Qed.

Lemma Campaign_driving sched m sid i m' e : Campaign sched m sid i = Some (m', e) -> rtc driving m m'.
Proof.
  unfold Campaign. destruct (find_shard m sid) as [[p sh]|]; [|by intros [= <- _]]. destruct (sh_node sh i) as [n|]; [|by intros [= <- _]]. destruct (stopped n); [by intros [= <- _]|].
  pose proof (rtc_once _ _ (dr_campaign m p i)) as H. destruct (raw_Campaign _ _).2; [by intros [= <- _]|]. intros ([m1 b] & E & E')%bind_Some. injection E' as <- _.
  etrans; [exact H|by eapply drive_driving].
Qed.

Lemma driving_cstep lt0 m m' T lates : rtc driving m m' -> rtc (cstep lt0) (mkWorld m T lates) (mkWorld m' T lates).
Proof. induction 1 as [|m1 m2 m3 Hd _ IH]; [done|]. eapply rtc_l; [by apply (cs_drive lt0 (mkWorld m1 T lates) m2)|done]. Qed.

End lease.

(** C23: Leaseholder-local reads, under every interleaving of calls at the
    points where the code releases a lock, for every Raft engine and storage,
    when lease reads use one tracker, empty at first.  A lease on record is one
    that a finished call of [AcquireLease] returned, which while it ran found
    the holder live and leader of the shard.  Unless it was granted late (the
    node had been stopped, or its shard removed, between these two steps of the
    call), its holder is a live node of the shard whenever no call that stops a
    node of the shard or removes it is in progress.  Of a read that returned a
    result: at a moment of the read the node that served it had the lease on
    record, unexpired at the reader's time, and at a moment of the read the
    result was the last payload that node had committed; if it was served
    locally the asking node is that node, live at the latter moment.  A read
    that runs while nothing disturbs it, of a shard whose lease is not late, is
    served by a live node with an unexpired lease on record, locally exactly
    if that node asks.  And a read after an undisturbed [StopNode] of the
    holder fails. *)
Theorem multiraft_lease_reads `{HR : Raft} `{HN : !RaftNode} (st : Persister) (lts : gmap nat LeaseTracker) (lt0 : nat) (w : world) :
  (forall lt, lts !! lt0 = Some lt -> lt_leases lt = ∅) -> rtc (cstep lt0) (begin_lease st lts) w ->
  let happened := once lt0 (begin_lease st lts) w in
  (forall sid lt l, trackers (mg w) !! lt0 = Some lt -> lt_leases lt !! sid = Some l ->
     (exists k, ops w !! k = Some (Finished (OAcquired (inr (expiresAt l)))) /\ happened (elects k sid (holder l))) /\
     (sid ∉ late w -> undisturbed sid (ops w) -> live_at (mg w) sid (holder l))) /\
  (forall k sid asking now res, ops w !! k = Some (Finished (ORead sid asking now (inr res))) ->
     happened (while_reading k sid asking now (leased lt0 sid (ServedBy res) now)) /\ happened (while_reading k sid asking now (held sid res)) /\
     (Local res = true -> asking = ServedBy res) /\ Routed res = negb (Local res)) /\
  (forall sid asking now m' res, sid ∉ late w -> undisturbed sid (ops w) -> Read (mg w) sid asking now = (m', inr res) -> served (mg w) lt0 sid asking now res) /\
  (forall sid i lt asking now, (StopNode (mg w) sid i).2 = None -> trackers (mg w) !! lt0 = Some lt -> Leaseholder lt sid = Some i ->
     exists e, (Read (StopNode (mg w) sid i).1 sid asking now).2 = inl e).
Proof.
  intros Hlts Hrun happened. pose proof (reachable_inv _ _ _ _ Hlts Hrun) as Hw. pose proof (reachable_past _ _ _ _ Hlts Hrun) as [Ht Hl]. split_and!.
  - intros sid lt l Hlt Hl'. split; [by eapply Hl|]. intros Hla Hu. by eapply lease_live.
  - intros k sid asking now res Hk. exact (Ht k _ Hk).
  - intros sid asking now m' res. by apply Read_served.
  - intros sid i lt asking now. by eapply StopNode_no_read.
Qed.

(** A shard of two nodes under the engine of [Toy]: reads are enabled, node 1
    acquires the lease, and the read of the follower is routed to it. *)
Module LeaseDemo.
Import Toy.
Definition sched : nat -> nat * (nat -> list Z) := fun _ => (5%nat, fun _ => [1; 2]).
Definition e : env := mkEnv [1; 2] 100 [0%nat].

(** One step of call [k], and [n] of them. *)
Definition go (k : nat) (w : world) : world :=
  match ops w !! k with
  | Some t => mkWorld (advance e (mg w) t).1 (<[k := (advance e (mg w) t).2]> (ops w)) (late_after (mg w) t (late w))
  | None => w
  end.
Definition call (k : nat) (t : task) (w : world) : world := mkWorld (mg w) (<[k := t]> (ops w)) (late w).

Definition w0 : world := begin_lease (0%nat : Persister) {[0%nat := mkLeaseTracker 10 ∅]}.
Definition m1 : MultiRaftManager := (CreateShard (mg w0) "s" [2; 1]).1.
Definition m2 : MultiRaftManager := default m1 (Run 5 sched m1 [0%nat]).
Definition w2 : world := mkWorld m2 ∅ ∅.
Definition w3 : world := Nat.iter 3 (go 0) (call 0 (TEnable 0) w2).
Definition w4 : world := Nat.iter 3 (go 1) (call 1 (TAcquire "s" 1) w3).
Definition w5 : world := Nat.iter 6 (go 2) (call 2 (TRead "s" 2 105) w4).

Lemma go_rtc k n w : (forall j, (j <= n)%nat -> shards (mg (Nat.iter j (go k) w)) = {[ "s" := 0%nat ]}) -> rtc (cstep 0) w (Nat.iter n (go k) w).
Proof.
  induction n as [|n IH]; intros Hs; [apply rtc_refl|]. assert (rtc (cstep 0) w (Nat.iter n (go k) w)) as H by (apply IH; intros j Hj; apply Hs; lia). simpl.
  unfold go at 1. destruct (ops (Nat.iter n (go k) w) !! k) as [t|] eqn:Ek; [|done]. eapply rtc_r; [exact H|]. apply (cs_advance 0 _ k t e); [done|].
  rewrite (Hs n) by lia. vm_compute. reflexivity.
Qed.

(** The steps of a call begun in [w], while the shard stays. *)
Lemma call_rtc k t n w :
  ops w !! k = None -> begins 0 t = true -> forallb (fun j => bool_decide (shards (mg (Nat.iter j (go k) (call k t w))) = {[ "s" := 0%nat ]})) (seq 0 (S n)) = true ->
  rtc (cstep 0) w (Nat.iter n (go k) (call k t w)).
Proof.
  intros Hk Hb Hs. eapply rtc_l; [by apply (cs_call 0 w k t)|]. apply go_rtc. intros j Hj. rewrite forallb_forall in Hs.
  specialize (Hs j). rewrite bool_decide_eq_true in Hs. apply Hs, in_seq. lia.
Qed.

Lemma w5_reachable : rtc (cstep 0) w0 w5.
Proof.
  eapply rtc_l; [apply (cs_create 0 w0 "s" [2; 1])|]. etrans; [apply (driving_cstep 0 m1 m2 ∅ ∅), (Run_driving 5 sched m1 [0%nat]); vm_compute; reflexivity|].
  etrans; [apply (call_rtc 0 (TEnable 0) 3 w2); vm_compute; reflexivity|]. etrans; [apply (call_rtc 1 (TAcquire "s" 1) 3 w3); vm_compute; reflexivity|].
  apply (call_rtc 2 (TRead "s" 2 105) 6 w4); vm_compute; reflexivity.
Qed.

Lemma pair_snd {A B} (x : A * B) b : x.2 = b -> x = (x.1, b).
Proof. destruct x. by intros <-. Qed.

Lemma w5_read : (Read (mg w5) "s" 2 105).2 = inr (mkReadResult [7] false true 1).
Proof. vm_compute. reflexivity. Qed.

Lemma multiraft_lease_reads_witness :
  once 0 w0 w5 (while_reading 2 "s" 2 105 (leased 0 "s" 1 105)) /\ once 0 w0 w5 (while_reading 2 "s" 2 105 (held "s" (mkReadResult [7] false true 1))) /\
  served (mg w5) 0 "s" 2 105 (mkReadResult [7] false true 1).
Proof.
  destruct (multiraft_lease_reads (0%nat : @Persister Toy.toy_raft) {[0%nat := mkLeaseTracker 10 ∅]} 0 w5) as (_ & Hfin & Hread & _).
  - intros lt H. apply lookup_singleton_Some in H as [_ <-]. reflexivity.
  - exact w5_reachable.
  - destruct (Hfin 2%nat "s" 2 105 (mkReadResult [7] false true 1)) as (H1 & H2 & _); [vm_compute; reflexivity|]. split_and!; [exact H1|exact H2|].
    apply (Hread "s" 2 105 (Read (mg w5) "s" 2 105).1).
    + apply (bool_decide_unpack _). vm_compute. reflexivity.
    + intros k t Hk. assert (map_Forall (fun _ t => disturbs "s" t = false) (ops w5)) as H by (apply (bool_decide_unpack _); vm_compute; reflexivity). exact (H k t Hk).
    + exact (pair_snd _ _ w5_read).
Defined.

(** The race: node 1 passes the leader check, is stopped, and is then granted
    the lease.  As soon as reads are enabled again, which registers handlers
    for stopped nodes too, it serves the follower. *)
Lemma late_lease_serves_stopped :
  let w := Nat.iter 2 (go 1) (call 1 (TAcquire "s" 1) w3) in
  let w := Nat.iter 7 (go 2) (call 2 (TStop "s" 1) w) in
  let w := go 1 w in
  let w' := Nat.iter 3 (go 3) (call 3 (TEnable 0) w) in
  "s" ∈ late w' /\ (Read (mg w) "s" 2 105).2 = inl ErrNoReadHandler /\ (Read (mg w') "s" 2 105).2 = inr (mkReadResult [7] false true 1).
Proof. split_and!; [apply (bool_decide_unpack _)| |]; vm_compute; reflexivity. Qed.

(** Enabling reads with a second tracker and back again brings back the lease
    of a node that was stopped in between: it serves the read. *)
Lemma swapped_tracker_serves_stopped :
  let m := EnableLeaseholderReads (mg w4) 1 [0%nat] in
  let m := (StopNode m "s" 1).1 in
  let m := EnableLeaseholderReads m 0 [0%nat] in
  (Read m "s" 2 105).2 = inr (mkReadResult [7] false true 1).
Proof. vm_compute. reflexivity. Qed.
End LeaseDemo.
