(* ===== verification/FlowControl.v ===== *)
(** * API priority and fairness (pkg/flowcontrol/flowcontrol.go)

    A controller classifies requests by flow schemas onto priority levels.  A
    level has a number of seats and one queue per flow; [Offer] seats a request
    at once, queues it or rejects it, [Finish] frees a seat, and [Tick] fills
    the free seats of every level by going round the flows of the level.
    The matching functions of schemas are arguments, a missing one is [None];
    the reading of the clock and the order in which [Finish] ranges over the
    map of levels are arguments of the operations.  The dispatch loop of [Tick]
    runs on fuel, the number of waiting requests plus one, and [None] says that
    the fuel ran out, which is shown not to happen.

    Two theorems: the accounting of seats and requests (the concurrency limit,
    first in first out within a flow, nothing lost or started twice, no idle
    seat while a request waits), and fairness (of two flows that keep waiting,
    neither is served two times more than the other while no new flow appears).
    [new_flows_starve] shows what happens when new flows do appear. *)
From stdpp Require Import base gmap sets list strings sorting.
From Stdlib Require Import ZArith Lia.
From S2P Require Import Prelude.
Open Scope Z_scope.

(** ** Data *)

Record Request := mkRequest { ID : string; FlowID : string }.

Record Classification := mkClassification { Level : string; Flow : string }.

Inductive AdmissionDecision := DecisionAdmit | DecisionEnqueue | DecisionReject.

Inductive fc_error := ErrLevelExists | ErrUnknownLevel | ErrSchemaExists | ErrBadConcurrency | ErrBadQueueLength
  | ErrNilClassifier | ErrNoMatchingFlow | ErrUnknownRequest | ErrDuplicateID.

Record FlowSchema := mkFlowSchema {
  Name : string; fs_Level : string; MatchOrder : Z; Match : option (Request -> bool); Distinguish : option (Request -> string) }.

Record queued := mkQueued { req : Request; flow : string; arrival : Z; seq : Z }.

Record priorityLevel := mkLevel {
  name : string; concurrency : Z; maxQueueLen : Z; inFlight : Z;
  queues : gmap string (list queued); rrOrder : list string; rrCursor : Z; seats : gmap string string }.

Record Controller := mkController {
  levels : gmap string priorityLevel; schemas : list FlowSchema; c_seq : Z;
  admitted : gmap string Z; maxInFlightSeen : gmap string Z }.

Definition NewController : Controller := mkController ∅ [] 0 ∅ ∅.

Definition set_level (c : Controller) (n : string) (l : priorityLevel) : Controller :=
  mkController (<[n := l]> (levels c)) (schemas c) (c_seq c) (admitted c) (maxInFlightSeen c).

Definition set_queues (l : priorityLevel) (q : gmap string (list queued)) (order : list string) (cursor : Z) : priorityLevel :=
  mkLevel (name l) (concurrency l) (maxQueueLen l) (inFlight l) q order cursor (seats l).

(** ** The queues of a level

    Counts of what is in memory do not reach the end of Go's [int], and
    [inFlight] moves between zero and the limit ([seats_counted], [level_ok]):
    these are plain integers.  The counters that only grow wrap around. *)

Definition queue_of (l : priorityLevel) (f : string) : list queued := default [] (queues l !! f).

Definition totalQueued (l : priorityLevel) : Z := range_fold (fun n _ q => n + Z.of_nat (length q)) 0 (queues l).

Definition enqueue (l : priorityLevel) (q : queued) : priorityLevel :=
  let l := match queues l !! flow q with
           | None => set_queues l (<[flow q := []]> (queues l)) (sort_strings (rrOrder l ++ [flow q])) (rrCursor l)
           | Some _ => l
           end in
  set_queues l (<[flow q := queue_of l (flow q) ++ [q]]> (queues l)) (rrOrder l) (rrCursor l).

(** The scan of [dispatchNext] from offset [i] on, [more] offsets to go. *)
Fixpoint scan_flows (l : priorityLevel) (n : Z) (more : nat) (i : Z) : option (queued * priorityLevel) :=
  match more with
  | O => None
  | S more =>
      let idx := (rrCursor l + i) mod n in
      let f := default EmptyString (rrOrder l !! Z.to_nat idx) in
      match queue_of l f with
      | [] => scan_flows l n more (i + 1)
      | head :: rest => Some (head, set_queues l (<[f := rest]> (queues l)) (rrOrder l) ((idx + 1) mod n))
      end
  end.

Definition dispatchNext (l : priorityLevel) : option (queued * priorityLevel) :=
  if decide (rrOrder l = []) then None
  else scan_flows l (Z.of_nat (length (rrOrder l))) (length (rrOrder l)) 0.

(** ** Registration and classification *)

Definition RegisterPriorityLevel (c : Controller) (n : string) (concurrency maxQueueLen : Z) : Controller * option fc_error :=
  match levels c !! n with
  | Some _ => (c, Some ErrLevelExists)
  | None =>
      if decide (concurrency < 1) then (c, Some ErrBadConcurrency)
      else if decide (maxQueueLen < 1) then (c, Some ErrBadQueueLength)
      else (mkController (<[n := mkLevel n concurrency maxQueueLen 0 ∅ [] 0 ∅]> (levels c)) (schemas c) (c_seq c) (admitted c)
                         (<[n := 0]> (maxInFlightSeen c)), None)
  end.

(** The order of schemas: by [MatchOrder], then by name. *)
Definition schema_lt (a b : FlowSchema) : bool :=
  if decide (MatchOrder a <> MatchOrder b) then bool_decide (MatchOrder a < MatchOrder b) else bool_decide (slt (Name a) (Name b)).

Definition RegisterFlowSchema (c : Controller) (fs : FlowSchema) : Controller * option fc_error :=
  match levels c !! fs_Level fs with
  | None => (c, Some ErrUnknownLevel)
  | Some _ =>
      match Match fs with
      | None => (c, Some ErrNilClassifier)
      | Some _ =>
          if existsb (fun e => bool_decide (Name e = Name fs)) (schemas c) then (c, Some ErrSchemaExists)
          else (mkController (levels c) (sort_SliceStable schema_lt (schemas c ++ [fs])) (c_seq c) (admitted c) (maxInFlightSeen c), None)
      end
  end.

Fixpoint classify (fss : list FlowSchema) (r : Request) : option Classification :=
  match fss with
  | [] => None
  | fs :: fss =>
      if default (fun _ => false) (Match fs) r
      then Some (mkClassification (fs_Level fs) (match Distinguish fs with Some d => d r | None => FlowID r end))
      else classify fss r
  end.

Definition Classify (c : Controller) (r : Request) : option Classification := classify (schemas c) r.

(** ** Admission and dispatch *)

Definition idInFlight (c : Controller) (id : string) : bool :=
  range_any (fun _ l => bool_decide (is_Some (seats l !! id))) (levels c).

(** The level is stored back under its own name, as the code changes it in place. *)
Definition start (c : Controller) (l : priorityLevel) (r : Request) (f : string) : Controller :=
  let l := mkLevel (name l) (concurrency l) (maxQueueLen l) (inFlight l + 1) (queues l) (rrOrder l) (rrCursor l) (<[ID r := f]> (seats l)) in
  let key := String.append (name l) (String.append "/" f) in
  mkController (<[name l := l]> (levels c)) (schemas c) (c_seq c) (<[key := i64 (zget (admitted c) key + 1)]> (admitted c))
    (if decide (zget (maxInFlightSeen c) (name l) < inFlight l) then <[name l := inFlight l]> (maxInFlightSeen c) else maxInFlightSeen c).

Definition nextSeq (c : Controller) : Controller * Z :=
  let s := u64 (c_seq c + 1) in (mkController (levels c) (schemas c) s (admitted c) (maxInFlightSeen c), s).

(** [None] is the dereference of a nil level, shown not to happen. *)
Definition Offer (c : Controller) (r : Request) (now : Z) : option (Controller * Classification * AdmissionDecision * option fc_error) :=
  match Classify c r with
  | None => Some (c, mkClassification EmptyString EmptyString, DecisionReject, Some ErrNoMatchingFlow)
  | Some cls =>
      l ← levels c !! Level cls;
      if idInFlight c (ID r) then Some (c, cls, DecisionReject, Some ErrDuplicateID)
      else if bool_decide (inFlight l < concurrency l) && bool_decide (totalQueued l = 0) then Some (start c l r (Flow cls), cls, DecisionAdmit, None)
      else if decide (maxQueueLen l <= Z.of_nat (length (queue_of l (Flow cls)))) then Some (c, cls, DecisionReject, None)
      else
        let '(c, s) := nextSeq c in
        Some (set_level c (Level cls) (enqueue l (mkQueued r (Flow cls) now s)), cls, DecisionEnqueue, None)
  end.

(** [order] is the order in which the map of levels is ranged over. *)
Fixpoint finish_in (c : Controller) (id : string) (order : list string) : Controller * option fc_error :=
  match order with
  | [] => (c, Some ErrUnknownRequest)
  | n :: order =>
      match levels c !! n with
      | Some l =>
          match seats l !! id with
          | Some _ => (set_level c n (mkLevel (name l) (concurrency l) (maxQueueLen l) (inFlight l - 1) (queues l) (rrOrder l) (rrCursor l)
                                              (delete id (seats l))), None)
          | None => finish_in c id order
          end
      | None => finish_in c id order
      end
  end.

Definition Finish (c : Controller) (id : string) (order : list string) : Controller * option fc_error := finish_in c id order.

(** The dispatch loop of one level: what it starts, in order. *)
Fixpoint tick_level (fuel : nat) (c : Controller) (n : string) (started : list (string * queued)) : option (Controller * list (string * queued)) :=
  match fuel with
  | O => None
  | S fuel =>
      l ← levels c !! n;
      if decide (inFlight l < concurrency l) then
        match dispatchNext l with
        | None => Some (c, started)
        | Some (q, l) => tick_level fuel (start (set_level c n l) l (req q) (flow q)) n (started ++ [(n, q)])
        end
      else Some (c, started)
  end.

(** The number of iterations the loop of a level needs at most. *)
Definition tick_fuel (c : Controller) (n : string) : nat :=
  match levels c !! n with Some l => S (length (mjoin ((map_to_list (queues l)).*2))) | None => 1 end.

Fixpoint tick_levels (c : Controller) (names : list string) (started : list (string * queued)) : option (Controller * list (string * queued)) :=
  match names with
  | [] => Some (c, started)
  | n :: names => '(c, started) ← tick_level (tick_fuel c n) c n started; tick_levels c names started
  end.

Definition sortedLevelNames (c : Controller) : list string := sort_strings (map_to_list (levels c)).*1.

Definition dispatch_all (c : Controller) : option (Controller * list (string * queued)) := tick_levels c (sortedLevelNames c) [].

Definition Tick (c : Controller) : option (Controller * list Classification) :=
  match dispatch_all c with
  | Some (c, started) => Some (c, (fun s => mkClassification s.1 (flow s.2)) <$> started)
  | None => None
  end.

(** ** Observers *)

Definition AdmittedCount (c : Controller) (level f : string) : Z := zget (admitted c) (String.append level (String.append "/" f)).

Definition InFlight (c : Controller) (level : string) : Z := match levels c !! level with Some l => inFlight l | None => 0 end.

Definition PeakInFlight (c : Controller) (level : string) : Z := zget (maxInFlightSeen c) level.

Definition QueuedTotal (c : Controller) (level : string) : Z := match levels c !! level with Some l => totalQueued l | None => 0 end.

(** ** Histories

    What happens to the queues of a level, and to a controller. *)
Inductive qev := Enq (q : queued) | Disp (q : queued).

Inductive ev := Started (lvl : string) (r : Request) (f : string) | Queue (lvl : string) (e : qev).

Inductive op := ORegisterLevel (n : string) (concurrency maxQueueLen : Z) | ORegisterSchema (fs : FlowSchema)
  | OOffer (r : Request) (now : Z) | OFinish (id : string) (order : list string) | OTick.

Definition do_op (c : Controller) (o : op) : option (Controller * list ev) :=
  match o with
  | ORegisterLevel n k m => Some ((RegisterPriorityLevel c n k m).1, [])
  | ORegisterSchema fs => Some ((RegisterFlowSchema c fs).1, [])
  | OOffer r now =>
      match Offer c r now with
      | Some (c', cls, d, _) =>
          Some (c', match d with
                    | DecisionAdmit => [Started (Level cls) r (Flow cls)]
                    | DecisionEnqueue => [Queue (Level cls) (Enq (mkQueued r (Flow cls) now (c_seq c')))]
                    | DecisionReject => []
                    end)
      | None => None
      end
  | OFinish id order => Some ((Finish c id order).1, [])
  | OTick =>
      match dispatch_all c with
      | Some (c', started) => Some (c', (fun s => Queue s.1 (Disp s.2)) <$> started)
      | None => None
      end
  end.

Fixpoint run (c : Controller) (ops : list op) : option (Controller * list ev) :=
  match ops with
  | [] => Some (c, [])
  | o :: ops =>
      match do_op c o with
      | Some (c, l1) => match run c ops with Some (c, l2) => Some (c, l1 ++ l2) | None => None end
      | None => None
      end
  end.

Definition level_events (n : string) (log : list ev) : list qev :=
  omap (fun e => match e with Queue n' e => if decide (n' = n) then Some e else None | Started _ _ _ => None end) log.

(** The requests of a flow that were queued, and those that were started from the queue. *)
Definition enqueued (f : string) (evs : list qev) : list queued :=
  omap (fun e => match e with Enq q => if decide (flow q = f) then Some q else None | Disp _ => None end) evs.
Definition dispatched (f : string) (evs : list qev) : list queued :=
  omap (fun e => match e with Disp q => if decide (flow q = f) then Some q else None | Enq _ => None end) evs.
Definition dispatches (evs : list qev) : Z :=
  Z.of_nat (length (omap (fun e => match e with Disp q => Some q | Enq _ => None end) evs)).

(** ** The queues of one level *)

Definition core (l : priorityLevel) : gmap string (list queued) * list string * Z := (queues l, rrOrder l, rrCursor l).

Record queues_ok (l : priorityLevel) : Prop := {
  qo_nodup : NoDup (rrOrder l);
  qo_flows : forall f, f ∈ rrOrder l <-> is_Some (queues l !! f);
  qo_cursor : 0 <= rrCursor l /\ (rrCursor l < Z.of_nat (length (rrOrder l)) \/ rrCursor l = 0);
  qo_keys : forall f q, q ∈ queue_of l f -> flow q = f }.

Lemma scan_flows_spec l n more i :
  match scan_flows l n more i with
  | None => forall k, i <= k < i + Z.of_nat more -> queue_of l (default EmptyString (rrOrder l !! Z.to_nat ((rrCursor l + k) mod n))) = []
  | Some (q, l') => exists k rest, let f := default EmptyString (rrOrder l !! Z.to_nat ((rrCursor l + k) mod n)) in
      i <= k < i + Z.of_nat more /\ queue_of l f = q :: rest /\
      l' = set_queues l (<[f := rest]> (queues l)) (rrOrder l) (((rrCursor l + k) mod n + 1) mod n) /\
      forall j, i <= j < k -> queue_of l (default EmptyString (rrOrder l !! Z.to_nat ((rrCursor l + j) mod n))) = []
  end.
Proof.
  revert i. induction more as [|more IH]; intros i; simpl; [intros; lia|].
  destruct (queue_of l (default EmptyString (rrOrder l !! Z.to_nat ((rrCursor l + i) mod n)))) as [|q rest] eqn:Eq.
  - specialize (IH (i + 1)). destruct (scan_flows l n more (i + 1)) as [[q l']|].
    + destruct IH as (k & rest & Hk & Hq & -> & Hj). exists k, rest. split_and!; try lia; try done.
      intros j Hj'. destruct (decide (j = i)) as [->|]; [done|]. apply Hj. lia.
    + intros k Hk. destruct (decide (k = i)) as [->|]; [done|]. apply IH. lia.
  - exists i, rest. split_and!; try lia; done.
Qed.

Lemma queue_of_set l qs order cur f : queue_of (set_queues l qs order cur) f = default [] (qs !! f).
Proof. done. Qed.

(** What a dispatch does: the first waiting flow at or after the cursor is served. *)
Lemma dispatchNext_spec l :
  queues_ok l ->
  match dispatchNext l with
  | None => forall f, queue_of l f = []
  | Some (q, l') => exists k (j : nat) rest, let n := Z.of_nat (length (rrOrder l)) in
      0 <= k < n /\ (rrCursor l + k) mod n = Z.of_nat j /\ rrOrder l !! j = Some (flow q) /\ queue_of l (flow q) = q :: rest /\
      l' = set_queues l (<[flow q := rest]> (queues l)) (rrOrder l) ((rrCursor l + k + 1) mod n) /\
      forall i (j' : nat) f, 0 <= i < k -> (rrCursor l + i) mod n = Z.of_nat j' -> rrOrder l !! j' = Some f -> queue_of l f = []
  end.
Proof.
  intros [Hnd Hfl [Hc0 Hc] Hk]. unfold dispatchNext. case_decide as He.
  { intros f. unfold queue_of. destruct (queues l !! f) eqn:E; [|done]. assert (f ∈ rrOrder l) as Hin by (apply Hfl; by rewrite E).
    rewrite He in Hin. by apply elem_of_nil in Hin. }
  assert (0 < Z.of_nat (length (rrOrder l))) as Hn by (destruct (rrOrder l); [done|simpl; lia]).
  remember (Z.of_nat (length (rrOrder l))) as n eqn:En.
  pose proof (scan_flows_spec l n (length (rrOrder l)) 0) as H. destruct (scan_flows l n (length (rrOrder l)) 0) as [[q l']|].
  - destruct H as (k & rest & Hk' & Hq & -> & Hj). destruct (Z.mod_pos_bound (rrCursor l + k) n Hn) as [Hm1 Hm2].
    destruct (lookup_lt_is_Some_2 (rrOrder l) (Z.to_nat ((rrCursor l + k) mod n))) as [f Ef]; [lia|]. rewrite Ef in Hq |- *. simpl in Hq |- *.
    assert (flow q = f) as <- by (apply Hk; rewrite Hq; left).
    exists k, (Z.to_nat ((rrCursor l + k) mod n)), rest. split_and!; try lia; try done.
    + f_equal. by rewrite Zplus_mod_idemp_l.
    + intros i j' f Hi Hij Hf. specialize (Hj i). rewrite Hij, Nat2Z.id, Hf in Hj. apply Hj. lia.
  - intros f. destruct (decide (f ∈ rrOrder l)) as [Hin|Hin].
    + apply list_elem_of_lookup in Hin as [j Hj]. pose proof (lookup_lt_Some _ _ _ Hj) as Hlt.
      specialize (H ((Z.of_nat j - rrCursor l) mod n)). rewrite Zplus_mod_idemp_r, Zplus_minus, (Z.mod_small (Z.of_nat j)), Nat2Z.id, Hj in H by lia.
      apply H. pose proof (Z.mod_pos_bound (Z.of_nat j - rrCursor l) n Hn). lia.
    + unfold queue_of. destruct (queues l !! f) eqn:E; [|done]. destruct Hin. apply Hfl. by rewrite E.
Qed.

Lemma core_queue_of l l' f : core l' = core l -> queue_of l' f = queue_of l f.
Proof. unfold core, queue_of. congruence. Qed.

Lemma core_ok l l' : core l' = core l -> queues_ok l -> queues_ok l'.
Proof.
  intros Hc [H1 H2 H3 H4]. pose proof (fun f => core_queue_of l l' f Hc) as Hq. unfold core in Hc. injection Hc as E1 E2 E3.
  split; rewrite ?E1, ?E2, ?E3; try done. intros f q. rewrite Hq. apply H4.
Qed.

Lemma enqueue_queue_of l q f : queue_of (enqueue l q) f = if decide (f = flow q) then queue_of l f ++ [q] else queue_of l f.
Proof.
  unfold enqueue, queue_of. destruct (queues l !! flow q) as [qs|] eqn:E; simpl; case_decide as Hf; subst; rewrite ?E; simpl;
    try (rewrite !lookup_insert_eq; done); by rewrite !lookup_insert_ne by done.
Qed.

Lemma enqueue_ok l q : queues_ok l -> queues_ok (enqueue l q).
Proof.
  intros [H1 H2 [H3 H3'] H4]. split.
  - unfold enqueue. destruct (queues l !! flow q) eqn:E; simpl; [done|]. rewrite sort_strings_perm. apply NoDup_app. split_and!; [done| |by apply NoDup_singleton].
    intros f Hf ->%list_elem_of_singleton. apply H2 in Hf as [? ?]. congruence.
  - intros f. unfold enqueue. destruct (queues l !! flow q) eqn:E; simpl.
    + rewrite lookup_insert_is_Some. rewrite H2. destruct (decide (flow q = f)) as [<-|]; [rewrite E; naive_solver|naive_solver].
    + rewrite !lookup_insert_is_Some, sort_strings_perm, elem_of_app, list_elem_of_singleton, H2. destruct (decide (flow q = f)); naive_solver.
  - unfold enqueue. destruct (queues l !! flow q) eqn:E; simpl; [done|]. rewrite sort_strings_perm, length_app. simpl. lia.
  - intros f q' Hq'. rewrite enqueue_queue_of in Hq'. case_decide as Hf; [|by apply H4]. apply elem_of_app in Hq' as [?| ->%list_elem_of_singleton]; [by apply H4|done].
Qed.

Lemma dispatch_core l l0 q l1 :
  core l0 = core l -> dispatchNext l = Some (q, l1) -> exists l2, dispatchNext l0 = Some (q, l2) /\ core l2 = core l1.
Proof.
  intros Hc. pose proof (fun f => core_queue_of l l0 f Hc) as Hq. unfold core in Hc. injection Hc as E1 E2 E3. unfold dispatchNext. rewrite E2. case_decide; [done|].
  generalize (Z.of_nat (length (rrOrder l))) as n. intros n. generalize 0 as i. induction (length (rrOrder l)) as [|more IH]; intros i; simpl; [done|].
  rewrite E2, E3, Hq. destruct (queue_of l _) as [|hd rest]; [apply IH|]. intros [= <- <-]. eexists. split; [done|]. unfold core. simpl. by rewrite E1.
Qed.

Lemma dispatch_queue_of l q l' f :
  queues_ok l -> dispatchNext l = Some (q, l') -> queue_of l f = (if decide (f = flow q) then [q] else []) ++ queue_of l' f.
Proof.
  intros Hok Hd. pose proof (dispatchNext_spec l Hok) as H. rewrite Hd in H. destruct H as (k & j & rest & _ & _ & _ & Hq & -> & _).
  rewrite queue_of_set. case_decide as Hf; [subst f; rewrite lookup_insert_eq; done|]. by rewrite lookup_insert_ne.
Qed.

Lemma dispatch_ok l q l' : queues_ok l -> dispatchNext l = Some (q, l') -> queues_ok l'.
Proof.
  intros Hok Hd. pose proof (dispatchNext_spec l Hok) as H. pose proof (fun f => dispatch_queue_of l q l' f Hok Hd) as Hqs. rewrite Hd in H.
  destruct H as (k & j & rest & Hk & _ & Hj & Hq & El & _). pose proof Hok as [H1 H2 H3 H4]. rewrite El. split; simpl; try done.
  - intros f. rewrite lookup_insert_is_Some, H2. destruct (decide (flow q = f)) as [<-|]; [|naive_solver].
    split; [by left|]. intros _. apply H2. by eapply list_elem_of_lookup_2.
  - pose proof (Z.mod_pos_bound (rrCursor l + k + 1) (Z.of_nat (length (rrOrder l)))). lia.
  - rewrite <- El. intros f q' Hq'. apply H4. rewrite Hqs. apply elem_of_app. by right.
Qed.

(** Runs of the queues of a level, up to what does not concern them. *)
Inductive lrun : priorityLevel -> list qev -> priorityLevel -> Prop :=
  | lr_done l l' : core l' = core l -> lrun l [] l'
  | lr_enq l l1 q evs l' : core l1 = core l -> lrun (enqueue l1 q) evs l' -> lrun l (Enq q :: evs) l'
  | lr_disp l l1 q l2 evs l' : core l1 = core l -> dispatchNext l1 = Some (q, l2) -> lrun l2 evs l' -> lrun l (Disp q :: evs) l'.

Lemma lrun_core l l0 evs l' : core l = core l0 -> lrun l evs l' -> lrun l0 evs l'.
Proof. intros Hc H. revert Hc. destruct H; intros Hc; [eapply lr_done|eapply lr_enq; [|done]|eapply lr_disp; [|done|done]]; congruence. Qed.

Lemma lrun_app l evs l1 evs' l2 : lrun l evs l1 -> lrun l1 evs' l2 -> lrun l (evs ++ evs') l2.
Proof.
  induction 1 as [l l' Hc|l l1' q evs l' Hc _ IH|l l1' q l2' evs l' Hc Hd _ IH]; intros H; simpl.
  - by eapply lrun_core.
  - eapply lr_enq; [done|auto].
  - eapply lr_disp; [done|done|auto].
Qed.

Lemma lrun_ok l evs l' : lrun l evs l' -> queues_ok l -> queues_ok l'.
Proof.
  induction 1 as [l l' Hc|l l1' q evs l' Hc _ IH|l l1' q l2' evs l' Hc Hd _ IH]; intros H.
  - by eapply core_ok.
  - apply IH, enqueue_ok. by eapply core_ok.
  - apply IH. eapply dispatch_ok; [|done]. by eapply core_ok.
Qed.

(** First in, first out: what was waiting and what came is what was started and what waits. *)
Lemma lrun_fifo l evs l' f : lrun l evs l' -> queues_ok l -> queue_of l f ++ enqueued f evs = dispatched f evs ++ queue_of l' f.
Proof.
  induction 1 as [l l' Hc|l l1' q evs l' Hc _ IH|l l1' q l2' evs l' Hc Hd _ IH]; intros H; simpl.
  - rewrite app_nil_r. by rewrite (core_queue_of l l').
  - rewrite <- IH by (apply enqueue_ok; by eapply core_ok). rewrite enqueue_queue_of, (core_queue_of l l1') by done.
    unfold enqueued. simpl. destruct (decide (flow q = f)), (decide (f = flow q)); try congruence. by rewrite <- app_assoc.
  - assert (queues_ok l1') as H1 by by eapply core_ok. rewrite <- (core_queue_of l l1' f Hc), (dispatch_queue_of _ _ _ f H1 Hd).
    specialize (IH (dispatch_ok _ _ _ H1 Hd)). unfold dispatched. simpl. fold (dispatched f evs).
    destruct (decide (flow q = f)), (decide (f = flow q)); try congruence; simpl; [f_equal; exact IH|exact IH].
Qed.

Lemma enqueue_order l q : rrOrder (enqueue l q) = rrOrder l /\ rrCursor (enqueue l q) = rrCursor l \/ (length (rrOrder l) < length (rrOrder (enqueue l q)))%nat.
Proof.
  unfold enqueue. destruct (queues l !! flow q); simpl; [by left|]. right. rewrite sort_strings_perm, length_app. simpl. lia.
Qed.

Lemma dispatch_order l q l' : queues_ok l -> dispatchNext l = Some (q, l') -> rrOrder l' = rrOrder l.
Proof.
  intros Hok Hd. pose proof (dispatchNext_spec l Hok) as H. rewrite Hd in H. by destruct H as (k & j & rest & _ & _ & _ & _ & -> & _).
Qed.

Lemma lrun_order l evs l' : lrun l evs l' -> queues_ok l -> (length (rrOrder l) <= length (rrOrder l'))%nat.
Proof.
  induction 1 as [l l' Hc|l l1' q evs l' Hc _ IH|l l1' q l2' evs l' Hc Hd _ IH]; intros H; pose proof Hc as Hc'; unfold core in Hc'; injection Hc' as _ E2 _.
  - by rewrite E2.
  - etrans; [|apply IH, enqueue_ok; by eapply core_ok]. destruct (enqueue_order l1' q) as [[-> _]|]; [by rewrite E2|]. rewrite <- E2. lia.
  - assert (queues_ok l1') as H1 by by eapply core_ok. etrans; [|apply IH; by eapply dispatch_ok]. rewrite (dispatch_order _ _ _ H1 Hd), E2. done.
Qed.

(** ** Round robin

    [passes n j x] counts the instants before [x] at which a cursor that goes
    round [n] places stands on place [j]. *)
Definition passes (n j x : Z) : Z := (x - j + n - 1) / n.

Lemma passes_step n j x : 0 <= j < n -> passes n j (x + 1) = passes n j x + if decide (x mod n = j) then 1 else 0.
Proof.
  intros Hj. unfold passes. pose proof (Z.mod_pos_bound x n ltac:(lia)). pose proof (Z.div_mod x n ltac:(lia)) as Hx.
  set (q := x / n) in *. set (r := x mod n) in *. case_decide as Hr.
  - rewrite <- (Z.div_unique (x + 1 - j + n - 1) n (q + 1) 0), <- (Z.div_unique (x - j + n - 1) n q (n - 1)); lia.
  - destruct (decide (j < r)).
    + rewrite <- (Z.div_unique (x + 1 - j + n - 1) n (q + 1) (r - j)), <- (Z.div_unique (x - j + n - 1) n (q + 1) (r - j - 1)); lia.
    + rewrite <- (Z.div_unique (x + 1 - j + n - 1) n q (r - j + n)), <- (Z.div_unique (x - j + n - 1) n q (r - j + n - 1)); lia.
Qed.

Lemma passes_skip n j x (k : nat) :
  0 <= j < n -> (forall i, 0 <= i < Z.of_nat k -> (x + i) mod n <> j) -> passes n j (x + Z.of_nat k) = passes n j x.
Proof.
  intros Hj. induction k as [|k IH]; intros Hi; [by rewrite Z.add_0_r|].
  rewrite Nat2Z.inj_succ, <- Z.add_1_r, Z.add_assoc, passes_step, decide_False, IH; try lia.
  - intros i Hi'. apply Hi. lia.
  - apply Hi. lia.
Qed.

Lemma passes_close n j k p p' :
  0 <= j < n -> 0 <= k < n -> Z.abs ((passes n j p' - passes n j p) - (passes n k p' - passes n k p)) <= 1.
Proof.
  assert (forall j k x, 0 <= j <= k -> k < n -> passes n k x <= passes n j x <= passes n k x + 1) as H.
  { clear. intros j k x Hj Hk. unfold passes. split; [apply Z.div_le_mono; lia|].
    replace ((x - k + n - 1) / n + 1) with ((x - k + n - 1 + 1 * n) / n) by (by rewrite Z.div_add by lia). apply Z.div_le_mono; lia. }
  intros Hj Hk. destruct (decide (j <= k)).
  - pose proof (H j k p). pose proof (H j k p'). lia.
  - pose proof (H k j p). pose proof (H k j p'). lia.
Qed.

Lemma passes_lower n j p p' : 0 <= j < n -> p <= p' -> (p' - p) / n <= passes n j p' - passes n j p.
Proof.
  intros Hj Hp. unfold passes. set (a := p - j + n - 1). replace (p' - j + n - 1) with (a + (p' - p)) by lia.
  pose proof (Z.div_mod a n ltac:(lia)). pose proof (Z.div_mod (p' - p) n ltac:(lia)).
  pose proof (Z.mod_pos_bound a n ltac:(lia)). pose proof (Z.mod_pos_bound (p' - p) n ltac:(lia)).
  assert (a / n + (p' - p) / n <= (a + (p' - p)) / n); [|lia]. apply Z.div_le_lower_bound; lia.
Qed.

Definition is_disp (e : qev) : Prop := match e with Disp _ => True | Enq _ => False end.

Lemma enqueued_disp f evs : Forall is_disp evs -> enqueued f evs = [].
Proof. induction 1 as [|[q|q] evs Hq _ IH]; [done|done|]. exact IH. Qed.

Lemma lrun_shrinks l evs l' f :
  Forall is_disp evs -> lrun l evs l' -> queues_ok l -> queue_of l' f <> [] -> queue_of l f <> [].
Proof.
  intros Hd Hr Hok Hne Hq. pose proof (lrun_fifo l evs l' f Hr Hok) as H. rewrite Hq, enqueued_disp in H by done. by destruct (dispatched f evs), (queue_of l' f).
Qed.

Lemma dispatches_cons q evs : dispatches (Disp q :: evs) = 1 + dispatches evs.
Proof. unfold dispatches. cbn [omap list_omap]. simpl length. rewrite Nat2Z.inj_succ. lia. Qed.

Lemma dispatched_cons f q evs :
  Z.of_nat (length (dispatched f (Disp q :: evs))) = (if decide (flow q = f) then 1 else 0) + Z.of_nat (length (dispatched f evs)).
Proof. unfold dispatched at 1. cbn [omap list_omap]. fold (dispatched f evs). case_decide; simpl length; fold (dispatched f evs); lia. Qed.

(** While only dispatches happen the cursor moves on, and a flow that still
    waits at the end is served at exactly the instants at which it stands there. *)
Lemma disp_fair l evs l' :
  lrun l evs l' -> queues_ok l -> Forall is_disp evs -> let n := Z.of_nat (length (rrOrder l)) in
  0 < n -> forall p, p mod n = rrCursor l -> exists p',
  p' mod n = rrCursor l' /\ rrOrder l' = rrOrder l /\ dispatches evs <= p' - p /\
  forall f (j : nat), rrOrder l !! j = Some f -> queue_of l' f <> [] ->
    Z.of_nat (length (dispatched f evs)) = passes n (Z.of_nat j) p' - passes n (Z.of_nat j) p.
Proof.
  induction 1 as [l l' Hc|l l1 q evs l' Hc _ IH|l l1 q l2 evs l' Hc Hd Hr IH]; intros Hok Hdi n Hn p Hp.
  - unfold core in Hc. injection Hc as _ E2 E3. exists p. rewrite E2, E3. split_and!; try done; [unfold dispatches; simpl; lia|]. intros. simpl. lia.
  - by inversion Hdi.
  - assert (queues_ok l1) as Hok1 by by eapply core_ok. pose proof Hc as Hc'. unfold core in Hc'. injection Hc' as _ E2 E3.
    pose proof (dispatchNext_spec l1 Hok1) as H. pose proof (dispatch_ok _ _ _ Hok1 Hd) as Hok2. pose proof (dispatch_order _ _ _ Hok1 Hd) as Eo.
    rewrite Hd in H. destruct H as (k & j0 & rest & Hk & Hj0 & Hlk & Hq & El2 & Hskip). rewrite E2, E3 in *. fold n in Hk, Hj0, Hskip.
    inversion Hdi as [|? ? _ Hdi']; subst. simpl in IH.
    destruct (IH Hok2 Hdi' Hn (p + k + 1)) as (p' & Hp' & Ho & Hdn & Hf).
    { fold n. by rewrite <- Hp, <- !Z.add_assoc, Zplus_mod_idemp_l. }
    fold n in Hf.
    exists p'. split_and!; [done|done|rewrite dispatches_cons; lia|]. intros f j Hj Hw. specialize (Hf f j Hj Hw).
    assert (queue_of l1 f <> []) as Hw1.
    { apply (lrun_shrinks l1 (Disp q :: evs) l'); [done| |done|done]. by eapply (lr_disp l1 l1). }
    pose proof (lookup_lt_Some _ _ _ Hj) as Hlt.
    assert (passes n (Z.of_nat j) (p + k) = passes n (Z.of_nat j) p) as Hsk.
    { rewrite <- (Z2Nat.id k) by lia. apply passes_skip; [lia|]. intros i Hi Hij. apply Hw1. apply (Hskip i j f); [lia| |done].
      by rewrite <- Hij, <- Hp, Zplus_mod_idemp_l. }
    pose proof (passes_step n (Z.of_nat j) (p + k) ltac:(lia)) as Hst. rewrite Hsk in Hst.
    rewrite <- Hp, Zplus_mod_idemp_l in Hj0. rewrite Hj0 in Hst. rewrite dispatched_cons.
    destruct (decide (flow q = f)) as [<-|Hne].
    + assert (j0 = j) as -> by (eapply NoDup_lookup; [apply Hok|done|done]). rewrite decide_True in Hst by done. lia.
    + rewrite decide_False in Hst; [lia|]. intros ->%Nat2Z.inj. congruence.
Qed.

(** ** The invariant of a controller *)

Record level_ok (c : Controller) (n : string) (l : priorityLevel) : Prop := {
  lo_name : name l = n;
  lo_queues : queues_ok l;
  lo_flight : Z.of_nat (size (seats l)) <= inFlight l <= concurrency l;
  lo_len : forall f, Z.of_nat (length (queue_of l f)) <= maxQueueLen l;
  lo_peak : inFlight l <= zget (maxInFlightSeen c) n <= concurrency l }.

Record controller_ok (c : Controller) : Prop := {
  co_level : forall n l, levels c !! n = Some l -> level_ok c n l;
  co_schema : forall fs, fs ∈ schemas c -> is_Some (levels c !! fs_Level fs) }.

(** What the operations on one level leave as it was. *)
Definition same_limits (l l' : priorityLevel) : Prop :=
  name l' = name l /\ concurrency l' = concurrency l /\ maxQueueLen l' = maxQueueLen l.

Lemma set_level_ok c n l l' :
  controller_ok c -> levels c !! n = Some l -> level_ok c n l' -> controller_ok (set_level c n l').
Proof.
  intros [Hl Hs] Hn Hl'. split; simpl.
  - intros m lm. rewrite lookup_insert_Some. intros [[<- <-]|[Hne Hm]]; [|by destruct (Hl m lm Hm); split]. by destruct Hl'; split.
  - intros fs Hfs. rewrite lookup_insert_is_Some. destruct (decide (n = fs_Level fs)); [by left|right]. split; [done|]. by apply Hs.
Qed.

Lemma start_ok c n l r f :
  controller_ok c -> levels c !! n = Some l -> inFlight l < concurrency l -> controller_ok (start c l r f).
Proof.
  intros [Hl Hs] Hn Hlt. destruct (Hl n l Hn) as [<- H2 H3 H4 H5]. unfold start. split; simpl.
  - intros m lm. rewrite lookup_insert_Some. intros [[<- <-]|[Hne Hm]].
    + split; simpl; try done.
      * by apply (core_ok l).
      * destruct (seats l !! ID r) eqn:E; [rewrite map_size_insert_Some by (by eexists)|rewrite map_size_insert_None by done]; lia.
      * case_decide; rewrite ?zget_insert_eq; lia.
    + destruct (Hl m lm Hm) as [E1 E2 E3 E4 E5]. split; simpl; try done. case_decide; [|done]. by rewrite zget_insert_ne.
  - intros fs Hfs. rewrite lookup_insert_is_Some. destruct (decide (name l = fs_Level fs)); [by left|right]. split; [done|]. by apply Hs.
Qed.

Lemma dispatch_level_ok c n l q l' :
  level_ok c n l -> dispatchNext l = Some (q, l') -> level_ok c n l' /\ same_limits l l' /\ inFlight l' = inFlight l /\ seats l' = seats l.
Proof.
  intros [H1 H2 H3 H4 H5] Hd. pose proof (dispatch_ok _ _ _ H2 Hd) as H2'. pose proof (fun f => dispatch_queue_of _ _ _ f H2 Hd) as Hq.
  pose proof (dispatchNext_spec l H2) as H. rewrite Hd in H. destruct H as (k & j & rest & _ & _ & _ & _ & El & _).
  assert (forall f, Z.of_nat (length (queue_of l' f)) <= maxQueueLen l) as Hlen.
  { intros f. specialize (H4 f). rewrite Hq, length_app in H4. lia. }
  split; [|by rewrite El]. clear Hq. rewrite El in Hlen, H2' |- *. by split.
Qed.

(** What is preserved by one dispatch is preserved by the dispatches of a tick. *)
Lemma tick_level_preserves (P : Controller -> Prop) n :
  (forall c l q l', controller_ok c -> levels c !! n = Some l -> inFlight l < concurrency l -> dispatchNext l = Some (q, l') -> P c ->
     P (start (set_level c n l') l' (req q) (flow q))) ->
  forall fuel c started c' started', tick_level fuel c n started = Some (c', started') -> controller_ok c -> P c -> controller_ok c' /\ P c'.
Proof.
  intros Hstep. induction fuel as [|fuel IH]; intros c started c' started'; simpl; [done|].
  destruct (levels c !! n) as [l|] eqn:Hn; [|done]. simpl. case_decide as Hlt; [|by intros [= <- <-]].
  destruct (dispatchNext l) as [[q l1]|] eqn:Hd; [|by intros [= <- <-]]. intros H Hok HP. apply IH in H; [done| |by eapply Hstep].
  destruct (dispatch_level_ok c n l q l1) as (Hl1 & (_ & Ec & _) & Ei & _); [by apply co_level|done|].
  eapply (start_ok _ n); [by eapply set_level_ok|simpl; by rewrite lookup_insert_eq|lia].
Qed.

(** ** The number of waiting requests *)

Definition waiting (l : priorityLevel) : nat := length (mjoin ((map_to_list (queues l)).*2)).

Lemma waiting_perm l l' : (map_to_list (queues l)) ≡ₚ l' -> waiting l = length (mjoin l'.*2).
Proof. intros H. unfold waiting. by rewrite H. Qed.

Lemma dispatch_waiting l q l' : queues_ok l -> dispatchNext l = Some (q, l') -> waiting l = S (waiting l').
Proof.
  intros Hok Hd. pose proof (dispatchNext_spec l Hok) as H. rewrite Hd in H. destruct H as (k & j & rest & _ & _ & _ & Hq & -> & _).
  unfold queue_of in Hq. destruct (queues l !! flow q) as [qs|] eqn:E; [|done]. simpl in Hq. subst qs.
  rewrite (waiting_perm (set_queues _ _ _ _) ((flow q, rest) :: map_to_list (delete (flow q) (queues l)))).
  - rewrite (waiting_perm l ((flow q, q :: rest) :: map_to_list (delete (flow q) (queues l)))); [done|]. by rewrite map_to_list_delete.
  - simpl. rewrite <- insert_delete_eq. by apply map_to_list_insert, lookup_delete_eq.
Qed.

Lemma waiting_zero l : waiting l = O <-> forall f, queue_of l f = [].
Proof.
  unfold waiting, queue_of. rewrite length_zero_iff_nil. split.
  - intros H f. destruct (queues l !! f) as [[|q qs]|] eqn:E; [done| |done]. assert (q ∈ []) as []%elem_of_nil. rewrite <- H.
    apply list_elem_of_join. exists (q :: qs). split; [left|]. apply list_elem_of_fmap. exists (f, q :: qs). split; [done|]. by apply elem_of_map_to_list.
  - intros H. apply elem_of_nil_inv. intros q (qs & Hq & Hqs)%list_elem_of_join. apply list_elem_of_fmap in Hqs as ([f qs'] & -> & Hf).
    apply elem_of_map_to_list in Hf. specialize (H f). rewrite Hf in H. simpl in *. subst. by apply elem_of_nil in Hq.
Qed.

Lemma totalQueued_waiting l : totalQueued l = Z.of_nat (waiting l).
Proof.
  unfold totalQueued, waiting, range_fold. rewrite <- (Z.add_0_l (Z.of_nat (length (mjoin _)))). generalize 0 as a.
  induction (map_to_list (queues l)) as [|[f qs] m IH]; intros a; [simpl; lia|]. rewrite fmap_cons. simpl. rewrite IH, length_app. lia.
Qed.

(** ** One pass of dispatches *)

Lemma level_events_app n log log' : level_events n (log ++ log') = level_events n log ++ level_events n log'.
Proof. apply omap_app. Qed.

Definition tick_log (started : list (string * queued)) : list ev := (fun s => Queue s.1 (Disp s.2)) <$> started.

Lemma level_events_tick n m qs : level_events n (tick_log (pair m <$> qs)) = if decide (m = n) then Disp <$> qs else [].
Proof.
  unfold level_events, tick_log. induction qs as [|q qs IH]; [by case_decide|]. rewrite !fmap_cons. cbn [omap list_omap fst snd].
  rewrite IH. by case_decide.
Qed.

(** Nothing waits, or no seat is free. *)
Definition settled (l : priorityLevel) : Prop := inFlight l = concurrency l \/ forall f, queue_of l f = [].

Lemma tick_level_spec n fuel c l started :
  controller_ok c -> levels c !! n = Some l -> (waiting l < fuel)%nat ->
  exists c' qs l', tick_level fuel c n started = Some (c', started ++ (pair n <$> qs)) /\ controller_ok c' /\
    levels c' !! n = Some l' /\ (forall m, m <> n -> levels c' !! m = levels c !! m) /\ schemas c' = schemas c /\
    lrun l (Disp <$> qs) l' /\ same_limits l l' /\ settled l'.
Proof.
  revert c l started. induction fuel as [|fuel IH]; intros c l started Hok Hn Hf; [lia|]. pose proof (co_level _ Hok _ _ Hn) as Hl. simpl. rewrite Hn. simpl.
  assert (settled l -> exists c' qs l', Some (c, started) = Some (c', started ++ (pair n <$> qs)) /\ controller_ok c' /\
    levels c' !! n = Some l' /\ (forall m, m <> n -> levels c' !! m = levels c !! m) /\ schemas c' = schemas c /\
    lrun l (Disp <$> qs) l' /\ same_limits l l' /\ settled l') as Hstop.
  { intros Hs. exists c, [], l. rewrite app_nil_r. split_and!; try done. by constructor. }
  case_decide as Hlt; [|apply Hstop; left; destruct Hl; lia].
  destruct (dispatchNext l) as [[q l1]|] eqn:Hd.
  - destruct (dispatch_level_ok c n l q l1 Hl Hd) as (Hl1 & (En & Ec & Em) & Ei & _).
    assert (controller_ok (start (set_level c n l1) l1 (req q) (flow q))) as Hok1.
    { eapply (start_ok _ n); [by eapply set_level_ok|simpl; by rewrite lookup_insert_eq|lia]. }
    assert (name l1 = n) as Hn1 by apply Hl1.
    destruct (IH (start (set_level c n l1) l1 (req q) (flow q))
      (mkLevel (name l1) (concurrency l1) (maxQueueLen l1) (inFlight l1 + 1) (queues l1) (rrOrder l1) (rrCursor l1) (<[ID (req q) := flow q]> (seats l1)))
      (started ++ [(n, q)])) as (c' & qs & l' & Ht & Hok' & Hl' & Ho & Hs & Hr & (E1 & E2 & E3) & Hse); [done|simpl; rewrite Hn1; apply lookup_insert_eq| |].
    { pose proof (dispatch_waiting l q l1 (lo_queues _ _ _ Hl) Hd). unfold waiting in *. simpl. lia. }
    exists c', (q :: qs), l'. simpl in E1, E2, E3. split_and!; try done; try congruence.
    + rewrite Ht, <- app_assoc. done.
    + intros m Hm. rewrite Ho by done. simpl. by rewrite Hn1, !lookup_insert_ne by done.
    + rewrite fmap_cons. eapply (lr_disp l l); [done|exact Hd|]. eapply lrun_core; [|exact Hr]. done.
    + split_and!; congruence.
  - apply Hstop. right. pose proof (dispatchNext_spec l (lo_queues _ _ _ Hl)) as H. by rewrite Hd in H.
Qed.

Lemma tick_levels_spec names : forall c started,
  controller_ok c -> NoDup names -> (forall n, n ∈ names -> is_Some (levels c !! n)) ->
  exists c' new, tick_levels c names started = Some (c', started ++ new) /\ controller_ok c' /\ schemas c' = schemas c /\
    (forall n, n ∉ names -> levels c' !! n = levels c !! n /\ level_events n (tick_log new) = []) /\
    (forall n l, n ∈ names -> levels c !! n = Some l -> exists qs l', levels c' !! n = Some l' /\
       level_events n (tick_log new) = Disp <$> qs /\ lrun l (Disp <$> qs) l' /\ same_limits l l' /\ settled l').
Proof.
  induction names as [|m names IH]; intros c started Hok Hnd Hin; simpl.
  { exists c, []. rewrite app_nil_r. split_and!; try done. by intros n l ?%elem_of_nil. }
  apply NoDup_cons in Hnd as [Hm Hnd]. destruct (Hin m) as [l Hl]; [left|].
  destruct (tick_level_spec m (tick_fuel c m) c l started Hok Hl) as (c1 & qs & l1 & -> & Hok1 & Hl1 & Ho1 & Hs1 & Hr1 & Hsl1 & Hse1).
  { unfold tick_fuel. rewrite Hl. unfold waiting. lia. }
  simpl. destruct (IH c1 (started ++ (pair m <$> qs)) Hok1 Hnd) as (c' & new & -> & Hok' & Hs' & Hout & Hins).
  { intros n Hn. destruct (decide (n = m)) as [->|]; [done|]. rewrite Ho1 by done. apply Hin. by right. }
  assert (forall n, level_events n (tick_log ((pair m <$> qs) ++ new)) = (if decide (m = n) then Disp <$> qs else []) ++ level_events n (tick_log new)) as Hev.
  { intros n. unfold tick_log. rewrite fmap_app, level_events_app. f_equal. apply level_events_tick. }
  exists c', ((pair m <$> qs) ++ new). rewrite app_assoc. split_and!; try done; [congruence|..].
  - intros n [Hne Hn]%not_elem_of_cons. rewrite Hev, decide_False by done. destruct (Hout n Hn) as [-> ->]. by rewrite Ho1.
  - intros n ln Hn Hln. rewrite Hev. case_decide as Hmn; simpl.
    + subst n. destruct (Hout m Hm) as [E1 E2]. rewrite E1, E2, app_nil_r. rewrite Hl in Hln. injection Hln as <-. by exists qs, l1.
    + apply elem_of_cons in Hn as [->|Hn]; [done|]. apply Hins; [done|]. by rewrite Ho1.
Qed.

Lemma dispatch_all_spec c :
  controller_ok c -> exists c' new, dispatch_all c = Some (c', new) /\ controller_ok c' /\ schemas c' = schemas c /\
    (forall n, levels c !! n = None -> levels c' !! n = None /\ level_events n (tick_log new) = []) /\
    (forall n l, levels c !! n = Some l -> exists qs l', levels c' !! n = Some l' /\
       level_events n (tick_log new) = Disp <$> qs /\ lrun l (Disp <$> qs) l' /\ same_limits l l' /\ settled l').
Proof.
  intros Hok. assert (forall n, n ∈ sortedLevelNames c <-> is_Some (levels c !! n)) as Hin.
  { intros n. unfold sortedLevelNames. rewrite sort_strings_perm, list_elem_of_fmap. split.
    - intros ([n' l] & -> & H%elem_of_map_to_list). by eexists.
    - intros [l H]. exists (n, l). by rewrite elem_of_map_to_list. }
  destruct (tick_levels_spec (sortedLevelNames c) c [] Hok) as (c' & new & Ht & Hok' & Hs & Hout & Hins).
  { unfold sortedLevelNames. rewrite sort_strings_perm. apply NoDup_fst_map_to_list. }
  { intros n. by rewrite Hin. }
  exists c', new. split_and!; try done.
  - intros n Hn. destruct (Hout n) as [E1 E2]; [by rewrite Hin, Hn; intros []|]. by rewrite E1.
  - intros n l Hn. apply Hins; [|done]. rewrite Hin. by eexists.
Qed.

(** ** The effect of an operation on every level *)

Definition op_effect (c c' : Controller) (log : list ev) : Prop :=
  forall n, let evs := level_events n log in
    (Forall is_disp evs \/ exists q, evs = [Enq q]) /\
    match levels c !! n with
    | Some l => exists l', levels c' !! n = Some l' /\ lrun l evs l' /\ same_limits l l'
    | None => evs = [] /\ forall l', levels c' !! n = Some l' -> forall f, queue_of l' f = []
    end.

Lemma effect_none c c' : levels c' = levels c -> op_effect c c' [].
Proof.
  intros E n. simpl. split; [by left|]. rewrite E. destruct (levels c !! n) as [l|]; [|done]. exists l. split_and!; try done. by constructor.
Qed.

Lemma effect_one c c' n l l' evs log :
  levels c !! n = Some l -> levels c' = <[n := l']> (levels c) -> (forall m, level_events m log = if decide (m = n) then evs else []) ->
  (Forall is_disp evs \/ exists q, evs = [Enq q]) -> lrun l evs l' -> same_limits l l' -> op_effect c c' log.
Proof.
  intros Hn Hc Hev Hsh Hr Hs m. simpl. rewrite Hev, Hc. destruct (decide (m = n)) as [->|Hne].
  - split; [done|]. rewrite Hn, lookup_insert_eq. by exists l'.
  - split; [by left|]. rewrite lookup_insert_ne by done. destruct (levels c !! m) as [lm|]; [|done]. exists lm. split_and!; try done. by constructor.
Qed.

Lemma classify_level fss r cls : classify fss r = Some cls -> exists fs, fs ∈ fss /\ Level cls = fs_Level fs.
Proof.
  induction fss as [|fs fss IH]; simpl; [done|]. destruct (default (fun _ => false) (Match fs) r).
  - intros [= <-]. exists fs. split; [left|done].
  - intros H. destruct (IH H) as (fs' & Hin & E). exists fs'. split; [by right|done].
Qed.

Lemma register_level_spec c n k m : controller_ok c -> controller_ok (RegisterPriorityLevel c n k m).1 /\ op_effect c (RegisterPriorityLevel c n k m).1 [].
Proof.
  intros Hok. unfold RegisterPriorityLevel. destruct (levels c !! n) as [l|] eqn:Hn; [by split; [|apply effect_none]|].
  case_decide; [by split; [|apply effect_none]|]. case_decide; [by split; [|apply effect_none]|]. simpl. split.
  - destruct Hok as [Hl Hs]. split; simpl.
    + intros n' l'. rewrite lookup_insert_Some. intros [[<- <-]|[Hne Hm]].
      * split; simpl; rewrite ?map_size_empty, ?zget_insert_eq; try done; try lia.
        -- split; simpl; [constructor| |lia|].
           ++ intros f. rewrite lookup_empty, elem_of_nil. split; [done|by intros []].
           ++ intros f q. unfold queue_of. simpl. rewrite lookup_empty. by intros ?%elem_of_nil.
        -- intros f. unfold queue_of. simpl. rewrite lookup_empty. simpl. lia.
      * destruct (Hl n' l' Hm). split; simpl; rewrite ?zget_insert_ne by done; done.
    + intros fs Hfs. rewrite lookup_insert_is_Some'. right. by apply Hs.
  - intros n'. split; [by left|]. simpl. destruct (decide (n = n')) as [<-|Hne].
    + rewrite Hn, lookup_insert_eq. split; [done|]. intros l' [= <-] f. unfold queue_of. simpl. by rewrite lookup_empty.
    + rewrite lookup_insert_ne by done. destruct (levels c !! n') as [l|]; [|done]. exists l. split_and!; try done. by constructor.
Qed.

Lemma register_schema_spec c fs : controller_ok c -> controller_ok (RegisterFlowSchema c fs).1 /\ op_effect c (RegisterFlowSchema c fs).1 [].
Proof.
  intros Hok. unfold RegisterFlowSchema. destruct (levels c !! fs_Level fs) as [l|] eqn:Hn; [|by split; [|apply effect_none]].
  destruct (Match fs); [|by split; [|apply effect_none]]. destruct (existsb _ _); [by split; [|apply effect_none]|]. split; [|by apply effect_none].
  destruct Hok as [Hl Hs]. split; simpl; [intros n' l' Hn'; destruct (Hl n' l' Hn'); by split|].
  intros fs'. rewrite sort_stable_perm, elem_of_app, list_elem_of_singleton. intros [H| ->]; [by apply Hs|by rewrite Hn].
Qed.

Lemma finish_spec c id order : controller_ok c -> controller_ok (finish_in c id order).1 /\ op_effect c (finish_in c id order).1 [].
Proof.
  intros Hok. induction order as [|n order IH]; simpl; [by split; [|apply effect_none]|]. destruct (levels c !! n) as [l|] eqn:Hn; [|done].
  destruct (seats l !! id) as [f|] eqn:Hseat; [|done]. simpl. split.
  - eapply set_level_ok; [done|done|]. destruct (co_level _ Hok _ _ Hn) as [E1 E2 E3 E4 E5]. split; simpl; try done; [by apply (core_ok l)| |lia].
    rewrite map_size_delete_Some by (by eexists). assert (size (seats l) <> O) by (apply map_size_non_empty_iff; by intros E; rewrite E in Hseat). lia.
  - eapply (effect_one c _ n l _ []); [done|reflexivity|intros m; by case_decide|by left|by constructor|done].
Qed.

Lemma nextSeq_ok c : controller_ok c -> controller_ok (nextSeq c).1.
Proof. intros [Hl Hs]. split; [|done]. intros n l Hn. destruct (Hl n l Hn). by split. Qed.

Lemma enqueue_spec c n l q :
  controller_ok c -> levels c !! n = Some l -> Z.of_nat (length (queue_of l (flow q))) < maxQueueLen l ->
  controller_ok (set_level (nextSeq c).1 n (enqueue l q)) /\ op_effect c (set_level (nextSeq c).1 n (enqueue l q)) [Queue n (Enq q)].
Proof.
  intros Hok Hl Hlen. pose proof (co_level _ (nextSeq_ok _ Hok) _ _ Hl) as [E1 E2 E3 E4 E5].
  assert (same_limits l (enqueue l q) /\ inFlight (enqueue l q) = inFlight l /\ seats (enqueue l q) = seats l) as ((L1 & L2 & L3) & Hfl & Hse)
    by (unfold enqueue; by destruct (queues l !! flow q)).
  split.
  - eapply set_level_ok; [by apply nextSeq_ok|exact Hl|]. split; rewrite ?L1, ?L2, ?L3, ?Hfl, ?Hse; try done; [by apply enqueue_ok|].
    intros f. rewrite enqueue_queue_of. specialize (E4 f). case_decide as Hf; [|done]. rewrite length_app. subst f. simpl. lia.
  - apply (effect_one c _ n l (enqueue l q) [Enq q]); [done|done| |right; by eexists|apply (lr_enq l l); [done|by constructor]|done].
    intros m. unfold level_events. cbn [omap list_omap]. destruct (decide (m = n)), (decide (n = m)); congruence.
Qed.

Lemma offer_spec c r now :
  controller_ok c -> exists c' log, do_op c (OOffer r now) = Some (c', log) /\ controller_ok c' /\ op_effect c c' log.
Proof.
  intros Hok. assert (exists c' log, Some (c, []) = Some (c', log) /\ controller_ok c' /\ op_effect c c' log) as Hsame.
  { exists c, []. split_and!; try done. by apply effect_none. }
  simpl. unfold Offer. destruct (Classify c r) as [cls|] eqn:Hcls; [|done].
  destruct (classify_level _ _ _ Hcls) as (fs & Hin & HL). destruct (co_schema _ Hok fs Hin) as [l Hl]. rewrite <- HL in Hl. rewrite Hl. simpl.
  pose proof (lo_name _ _ _ (co_level _ Hok _ _ Hl)) as E1.
  destruct (idInFlight c (ID r)); [done|]. destruct (bool_decide (inFlight l < concurrency l) && bool_decide (totalQueued l = 0)) eqn:Hnow.
  - apply andb_true_iff in Hnow as [Hlt%bool_decide_eq_true _]. eexists _, _. split; [reflexivity|]. split; [by eapply (start_ok _ (Level cls))|].
    eapply (effect_one c _ (Level cls) l _ []); [done|unfold start; simpl; by rewrite E1|by intros m; destruct (decide (m = Level cls))|by left|by constructor|by split_and!].
  - clear Hnow. case_decide as Hlen; [done|]. eexists _, _. split; [reflexivity|]. apply (enqueue_spec c (Level cls) l (mkQueued r (Flow cls) now (u64 (c_seq c + 1)))); [done|done|simpl; lia].
Qed.

Lemma do_op_spec c o : controller_ok c -> exists c' log, do_op c o = Some (c', log) /\ controller_ok c' /\ op_effect c c' log.
Proof.
  intros Hok. destruct o as [n k m|fs|r now|id order|]; simpl.
  - eexists _, _. split; [reflexivity|]. by apply register_level_spec.
  - eexists _, _. split; [reflexivity|]. by apply register_schema_spec.
  - by apply offer_spec.
  - eexists _, _. split; [reflexivity|]. by apply finish_spec.
  - destruct (dispatch_all_spec c Hok) as (c' & new & -> & Hok' & _ & Hout & Hin). eexists _, _. split; [reflexivity|]. split; [done|].
    intros n. fold (tick_log new). simpl. destruct (levels c !! n) as [l|] eqn:Hn.
    + destruct (Hin n l Hn) as (qs & l' & Hl' & -> & Hr & Hlim & _). split; [left; apply Forall_fmap, Forall_true; done|]. by exists l'.
    + destruct (Hout n Hn) as [E1 ->]. split; [by left|]. split; [done|]. by rewrite E1.
Qed.

(** ** Runs *)

Lemma controller_run ops : forall c, controller_ok c -> exists c' log, run c ops = Some (c', log) /\ controller_ok c'.
Proof.
  induction ops as [|o ops IH]; intros c Hok; simpl; [by exists c, []|].
  destruct (do_op_spec c o Hok) as (c1 & log1 & -> & Hok1 & _). destruct (IH c1 Hok1) as (c' & log2 & -> & Hok'). by exists c', (log1 ++ log2).
Qed.

Lemma run_cons c o ops c' log : controller_ok c -> run c (o :: ops) = Some (c', log) ->
  exists c1 log1 log2, do_op c o = Some (c1, log1) /\ controller_ok c1 /\ op_effect c c1 log1 /\ run c1 ops = Some (c', log2) /\ log = log1 ++ log2.
Proof.
  intros Hok. simpl. destruct (do_op_spec c o Hok) as (c1 & log1 & E & Hok1 & He). rewrite E. destruct (run c1 ops) as [[c2 log2]|] eqn:Er; [|done].
  intros [= <- <-]. by exists c1, log1, log2.
Qed.

Lemma run_level ops : forall c c' log n l,
  controller_ok c -> run c ops = Some (c', log) -> levels c !! n = Some l ->
  exists l', levels c' !! n = Some l' /\ lrun l (level_events n log) l' /\ same_limits l l'.
Proof.
  induction ops as [|o ops IH]; intros c c' log n l Hok Hr Hn.
  { injection Hr as <- <-. exists l. split_and!; try done. by constructor. }
  destruct (run_cons _ _ _ _ _ Hok Hr) as (c1 & log1 & log2 & _ & Hok1 & He & Hr2 & ->). destruct (He n) as [_ Hl]. rewrite Hn in Hl.
  destruct Hl as (l1 & Hl1 & Hr1 & (L1 & L2 & L3)). destruct (IH _ _ _ _ _ Hok1 Hr2 Hl1) as (l' & Hl' & Hr' & (L1' & L2' & L3')).
  exists l'. rewrite level_events_app. split_and!; [done|by eapply lrun_app|split_and!; congruence].
Qed.

Lemma run_fifo ops : forall c c' log n l' f,
  controller_ok c -> run c ops = Some (c', log) -> (forall l, levels c !! n = Some l -> queue_of l f = []) -> levels c' !! n = Some l' ->
  enqueued f (level_events n log) = dispatched f (level_events n log) ++ queue_of l' f.
Proof.
  induction ops as [|o ops IH]; intros c c' log n l' f Hok Hr Hnew Hn.
  { injection Hr as <- <-. simpl. by rewrite Hnew. }
  destruct (levels c !! n) as [l|] eqn:E.
  - destruct (run_level _ _ _ _ _ _ Hok Hr E) as (l2 & E2 & Hlr & _). rewrite Hn in E2. injection E2 as <-.
    pose proof (lrun_fifo _ _ _ f Hlr (lo_queues _ _ _ (co_level _ Hok _ _ E))) as H. by rewrite Hnew in H.
  - destruct (run_cons _ _ _ _ _ Hok Hr) as (c1 & log1 & log2 & _ & Hok1 & He & Hr2 & ->). destruct (He n) as [_ Hl]. rewrite E in Hl.
    destruct Hl as [Hev Hemp]. rewrite level_events_app, Hev. simpl. eapply IH; [done|done| |done]. intros l Hl. by apply Hemp.
Qed.

(** The flow has a request waiting now and after each of the operations. *)
Definition waits (c : Controller) (n f : string) : Prop := exists l, levels c !! n = Some l /\ queue_of l f <> [].

Fixpoint keeps_waiting (n f : string) (c : Controller) (ops : list op) : Prop :=
  waits c n f /\
  match ops with
  | [] => True
  | o :: ops => match do_op c o with Some (c, _) => keeps_waiting n f c ops | None => False end
  end.

Lemma keeps_waiting_now n f c ops : keeps_waiting n f c ops -> waits c n f.
Proof. by destruct ops; intros [? _]. Qed.

Lemma core_fields l l' : core l' = core l -> rrOrder l' = rrOrder l /\ rrCursor l' = rrCursor l.
Proof. unfold core. by intros [= _ -> ->]. Qed.

Lemma run_fair ops : forall c c' log n l l' p,
  controller_ok c -> run c ops = Some (c', log) -> levels c !! n = Some l -> levels c' !! n = Some l' -> rrOrder l' = rrOrder l ->
  let k := Z.of_nat (length (rrOrder l)) in
  0 < k -> p mod k = rrCursor l -> exists p', dispatches (level_events n log) <= p' - p /\
  forall f (j : nat), rrOrder l !! j = Some f -> keeps_waiting n f c ops ->
    Z.of_nat (length (dispatched f (level_events n log))) = passes k (Z.of_nat j) p' - passes k (Z.of_nat j) p.
Proof.
  induction ops as [|o ops IH]; intros c c' log n l l' p Hok Hr Hn Hn' Ho k Hk Hp.
  { injection Hr as <- <-. exists p. unfold dispatches. simpl. split; [lia|]. intros. lia. }
  destruct (run_cons _ _ _ _ _ Hok Hr) as (c1 & log1 & log2 & Eo & Hok1 & He & Hr2 & ->). destruct (He n) as [Hsh Hl]. rewrite Hn in Hl.
  destruct Hl as (l1 & Hl1 & Hr1 & _). pose proof (lo_queues _ _ _ (co_level _ Hok _ _ Hn)) as Hq. pose proof (lo_queues _ _ _ (co_level _ Hok1 _ _ Hl1)) as Hq1.
  assert (exists p1, rrOrder l1 = rrOrder l /\ p1 mod k = rrCursor l1 /\ dispatches (level_events n log1) <= p1 - p /\
    forall f (j : nat), rrOrder l !! j = Some f -> queue_of l1 f <> [] ->
      Z.of_nat (length (dispatched f (level_events n log1))) = passes k (Z.of_nat j) p1 - passes k (Z.of_nat j) p) as (p1 & Eo1 & Hp1 & Hd1 & Hf1).
  { destruct Hsh as [Hdi|[q Eq]].
    - destruct (disp_fair _ _ _ Hr1 Hq Hdi Hk p Hp) as (p1 & ? & ? & ? & ?). by exists p1.
    - exists p. rewrite Eq in Hr1 |- *. unfold dispatches. simpl.
      assert (rrOrder l1 = rrOrder l /\ rrCursor l1 = rrCursor l) as [-> ->]; [|split_and!; [done|done|lia|intros; lia]].
      inversion Hr1 as [|? la ? ? ? Hc Hen|]; subst. inversion Hen as [? ? Hc'| |]; subst. apply core_fields in Hc as [C2 C3], Hc' as [C2' C3'].
      rewrite C2', C3'. destruct (enqueue_order la q) as [[-> ->]|Hlt]; [by rewrite C2, C3|].
      destruct (run_level _ _ _ _ _ _ Hok1 Hr2 Hl1) as (l2 & E2 & Hlr & _). rewrite Hn' in E2. injection E2 as <-.
      pose proof (lrun_order _ _ _ Hlr Hq1) as Hle. rewrite Ho, C2' in Hle. rewrite C2 in Hlt. lia. }
  subst k. rewrite <- Eo1 in *. destruct (IH _ _ _ _ _ _ p1 Hok1 Hr2 Hl1 Hn' Ho Hk Hp1) as (p' & Hd2 & Hf2).
  exists p'. rewrite level_events_app. unfold dispatches, dispatched in *. rewrite omap_app. rewrite length_app. split; [lia|]. intros f j Hj [_ Hw].
  rewrite Eo in Hw. specialize (Hf2 f j Hj Hw). apply keeps_waiting_now in Hw as (lw & Hlw & Hne). rewrite Hl1 in Hlw. injection Hlw as <-.
  specialize (Hf1 f j Hj Hne). rewrite omap_app, length_app. lia.
Qed.

(** ** Seats and request ids *)

Definition queued_at (c : Controller) (n f : string) (i : nat) (q : queued) : Prop :=
  exists l, levels c !! n = Some l /\ queue_of l f !! i = Some q.

(** No waiting request has the id of [r]. *)
Definition fresh (c : Controller) (r : Request) : Prop := forall n f i q, queued_at c n f i q -> ID (req q) <> ID r.

Definition unseated (c : Controller) (r : Request) : Prop := forall n l, levels c !! n = Some l -> seats l !! ID r = None.

Record ids_ok (c : Controller) : Prop := {
  io_queue : forall n f i q n' f' i' q', queued_at c n f i q -> queued_at c n' f' i' q' -> ID (req q) = ID (req q') -> n = n' /\ f = f' /\ i = i';
  io_seats : forall n f i q, queued_at c n f i q -> unseated c (req q);
  io_count : forall n l, levels c !! n = Some l -> inFlight l = Z.of_nat (size (seats l)) }.

(** A change that leaves the queues alone or removes from them. *)
Lemma ids_weaken c c' (g : string -> string -> nat -> nat) :
  (forall n f i j, g n f i = g n f j -> i = j) ->
  (forall n f i q, queued_at c' n f i q -> queued_at c n f (g n f i) q /\ unseated c' (req q)) ->
  (forall n l, levels c' !! n = Some l -> inFlight l = Z.of_nat (size (seats l))) -> ids_ok c -> ids_ok c'.
Proof.
  intros Hg Hq Hc [H1 H2 H3]. split; [|by intros n f i q [_ Hu]%Hq|done].
  intros n f i q n' f' i' q' [Ha _]%Hq [Hb _]%Hq He. destruct (H1 _ _ _ _ _ _ _ _ Ha Hb He) as (<- & <- & E). split_and!; try done. by eapply Hg.
Qed.

Lemma start_queued c l r f n g i q :
  levels c !! name l = Some l -> queued_at (start c l r f) n g i q <-> queued_at c n g i q.
Proof.
  intros Hl. unfold queued_at, start. simpl. split.
  - intros (l' & [[<- <-]|[Hne Hn]]%lookup_insert_Some & Hq); [by exists l|by exists l'].
  - intros (l' & Hn & Hq). destruct (decide (name l = n)) as [<-|Hne].
    + rewrite Hl in Hn. injection Hn as <-. rewrite lookup_insert_eq. by eexists.
    + rewrite lookup_insert_ne by done. by exists l'.
Qed.

Lemma start_ids c l r f : levels c !! name l = Some l -> unseated c r -> fresh c r -> ids_ok c -> ids_ok (start c l r f).
Proof.
  intros Hl Hu Hf Hok. apply (ids_weaken c _ (fun _ _ i => i)); [done| | |done].
  - intros n g i q Hq. rewrite start_queued in Hq by done. split; [done|]. intros m lm. simpl. rewrite lookup_insert_Some.
    pose proof (io_seats _ Hok _ _ _ _ Hq) as Hs. intros [[<- <-]|[_ Hm]]; simpl; [|by eapply Hs].
    rewrite lookup_insert_ne; [by eapply Hs|]. intros E. by eapply Hf.
  - intros n lm. simpl. rewrite lookup_insert_Some. intros [[<- <-]|[_ Hm]]; simpl; [|by eapply io_count].
    rewrite map_size_insert_None by (by eapply Hu). rewrite (io_count _ Hok _ _ Hl). lia.
Qed.

Lemma dispatch_ids c n l q l' :
  controller_ok c -> levels c !! n = Some l -> dispatchNext l = Some (q, l') -> ids_ok c ->
  ids_ok (set_level c n l') /\ unseated (set_level c n l') (req q) /\ fresh (set_level c n l') (req q).
Proof.
  intros Hc Hn Hd Hok. pose proof (co_level _ Hc _ _ Hn) as Hl. destruct (dispatch_level_ok c n l q l' Hl Hd) as (_ & _ & Ei & Es).
  pose proof (fun f => dispatch_queue_of _ _ _ f (lo_queues _ _ _ Hl) Hd) as Hqs.
  set (g := fun n' f i => if decide (n' = n /\ f = flow q) then S i else i).
  assert (queued_at c n (flow q) 0 q) as Hhead by (exists l; split; [done|]; rewrite Hqs, decide_True by done; done).
  assert (forall m f i q', queued_at (set_level c n l') m f i q' -> queued_at c m f (g m f i) q') as Hback.
  { intros m f i q' (lm & Hm & Hq'). simpl in Hm. apply lookup_insert_Some in Hm as [[<- <-]|[Hne Hm]]; unfold g.
    - exists l. split; [done|]. rewrite Hqs. destruct (decide (f = flow q)) as [->|]; [by rewrite decide_True|]. by rewrite decide_False by naive_solver.
    - rewrite decide_False by naive_solver. by exists lm. }
  assert (forall r, unseated c r -> unseated (set_level c n l') r) as Hus.
  { intros r Hr m lm. simpl. rewrite lookup_insert_Some. intros [[<- <-]|[_ Hm]]; [rewrite Es|]; by eapply Hr. }
  split_and!.
  - apply (ids_weaken c _ g); [| | |done].
    + intros m f i j. unfold g. case_decide; lia.
    + intros m f i q' Hq'%Hback. split; [done|]. apply Hus. by eapply io_seats.
    + intros m lm. simpl. rewrite lookup_insert_Some. intros [[<- <-]|[_ Hm]]; [rewrite Es, Ei|]; by eapply io_count.
  - apply Hus. by eapply io_seats.
  - intros m f i q' Hq'%Hback E. destruct (io_queue _ Hok _ _ _ _ _ _ _ _ Hq' Hhead E) as (-> & -> & E'). unfold g in E'. rewrite decide_True in E' by done. lia.
Qed.

Lemma tick_levels_ids names : forall c started c' started',
  tick_levels c names started = Some (c', started') -> controller_ok c -> ids_ok c -> controller_ok c' /\ ids_ok c'.
Proof.
  induction names as [|n names IH]; intros c started c' started'; simpl; [by intros [= <- <-]|].
  destruct (tick_level (tick_fuel c n) c n started) as [[c1 st1]|] eqn:E; [|done]. simpl. intros H Hok Hi.
  apply (tick_level_preserves ids_ok n) in E as [Hok1 Hi1]; [by eapply IH| |done|done].
  clear. intros c l q l' Hok Hn Hlt Hd Hi. destruct (dispatch_ids c n l q l' Hok Hn Hd Hi) as (Hi' & Hu & Hf).
  apply start_ids; try done. simpl. destruct (dispatch_level_ok c n l q l' (co_level _ Hok _ _ Hn) Hd) as ([-> _ _ _ _] & _). by rewrite lookup_insert_eq.
Qed.

Lemma finish_ids c id order : ids_ok c -> ids_ok (finish_in c id order).1.
Proof.
  intros Hok. induction order as [|n order IH]; simpl; [done|]. destruct (levels c !! n) as [l|] eqn:Hn; [|done].
  destruct (seats l !! id) as [f|] eqn:Hs; [|done]. simpl. apply (ids_weaken c _ (fun _ _ i => i)); [done| | |done].
  - intros m g i q (lm & Hm & Hq). simpl in Hm. assert (queued_at c m g i q) as Hat.
    { apply lookup_insert_Some in Hm as [[<- <-]|[_ Hm]]; [by exists l|by exists lm]. }
    split; [done|]. intros k lk. simpl. rewrite lookup_insert_Some. intros [[<- <-]|[_ Hk]]; simpl; [|by eapply (io_seats _ Hok _ _ _ _ Hat)].
    apply lookup_delete_None. right. by eapply (io_seats _ Hok _ _ _ _ Hat).
  - intros m lm. simpl. rewrite lookup_insert_Some. intros [[<- <-]|[_ Hm]]; simpl; [|by apply (io_count _ Hok _ _ Hm)].
    rewrite map_size_delete_Some by (by eexists). rewrite (io_count _ Hok _ _ Hn).
    assert (size (seats l) <> O) by (apply map_size_non_empty_iff; by intros E; rewrite E in Hs). lia.
Qed.

Lemma idInFlight_unseated c r : idInFlight c (ID r) = false -> unseated c r.
Proof.
  intros H n l Hn. destruct (seats l !! ID r) eqn:E; [|done]. assert (idInFlight c (ID r) = true); [|congruence].
  apply range_any_true. exists n, l. split; [done|]. apply bool_decide_eq_true. by eexists.
Qed.

Lemma enqueue_ids c n l q :
  levels c !! n = Some l -> unseated c (req q) -> fresh c (req q) -> ids_ok c -> ids_ok (set_level (nextSeq c).1 n (enqueue l q)).
Proof.
  intros Hn Hu Hf Hok. assert (seats (enqueue l q) = seats l /\ inFlight (enqueue l q) = inFlight l) as [Es Ei] by (unfold enqueue; by destruct (queues l !! flow q)).
  assert (forall r, unseated c r -> unseated (set_level (nextSeq c).1 n (enqueue l q)) r) as Hus.
  { intros r Hr m lm. simpl. rewrite lookup_insert_Some. intros [[<- <-]|[_ Hm]]; [rewrite Es|]; by eapply Hr. }
  assert (forall m f i q', queued_at (set_level (nextSeq c).1 n (enqueue l q)) m f i q' ->
    queued_at c m f i q' \/ m = n /\ f = flow q /\ i = length (queue_of l f) /\ q' = q) as Hcase.
  { intros m f i q' (lm & Hm & Hq'). simpl in Hm. apply lookup_insert_Some in Hm as [[<- <-]|[_ Hm]]; [|left; by exists lm].
    rewrite enqueue_queue_of in Hq'. case_decide as Hfq; [|left; by exists l]. apply lookup_app_Some in Hq' as [H|[Hi H]]; [left; by exists l|right].
    apply list_lookup_singleton_Some in H as [Hi' ->]. split_and!; try done. lia. }
  split.
  - intros m f i q1 m' f' i' q2 H1%Hcase H2%Hcase He. destruct H1 as [H1|(-> & -> & -> & ->)], H2 as [H2|(-> & -> & -> & ->)]; [by eapply io_queue| | |done].
    + by edestruct Hf.
    + by edestruct Hf.
  - intros m f i q' [H|(-> & -> & -> & ->)]%Hcase; apply Hus; [by eapply io_seats|done].
  - intros m lm. simpl. rewrite lookup_insert_Some. intros [[<- <-]|[_ Hm]]; [rewrite Es, Ei|]; by eapply io_count.
Qed.

(** Callers give no request the id of one that waits. *)
Fixpoint fresh_offers (c : Controller) (ops : list op) : Prop :=
  match ops with
  | [] => True
  | o :: ops =>
      match o with OOffer r _ => fresh c r | _ => True end /\
      match do_op c o with Some (c, _) => fresh_offers c ops | None => False end
  end.

Lemma same_levels_ids c c' : levels c' = levels c -> ids_ok c -> ids_ok c'.
Proof.
  intros E Hok. assert (forall n f i q, queued_at c' n f i q <-> queued_at c n f i q) as Hq by (intros; unfold queued_at; by rewrite E).
  apply (ids_weaken c _ (fun _ _ i => i)); [done| | |done].
  - intros n f i q Hat%Hq. split; [done|]. intros m l. rewrite E. by eapply (io_seats _ Hok _ _ _ _ Hat).
  - rewrite E. apply Hok.
Qed.

Lemma register_level_ids c n k m : ids_ok c -> ids_ok (RegisterPriorityLevel c n k m).1.
Proof.
  intros Hok. unfold RegisterPriorityLevel. destruct (levels c !! n) as [l|] eqn:Hn; [done|]. case_decide; [done|]. case_decide; [done|]. simpl.
  apply (ids_weaken c _ (fun _ _ i => i)); [done| | |done]; simpl.
  - intros m' f i q (l & Hm & Hq). simpl in Hm. apply lookup_insert_Some in Hm as [[<- <-]|[_ Hm]].
    + unfold queue_of in Hq. simpl in Hq. by rewrite lookup_empty in Hq.
    + assert (queued_at c m' f i q) as Hat by by exists l. split; [done|]. intros k' lk. simpl. rewrite lookup_insert_Some.
      intros [[<- <-]|[_ Hk]]; [apply lookup_empty|]. by eapply (io_seats _ Hok _ _ _ _ Hat).
  - intros m' l. rewrite lookup_insert_Some. intros [[<- <-]|[_ Hm]]; [done|]. by apply (io_count _ Hok _ _ Hm).
Qed.

Lemma do_op_ids c o c' log :
  controller_ok c -> ids_ok c -> match o with OOffer r _ => fresh c r | _ => True end -> do_op c o = Some (c', log) -> ids_ok c'.
Proof.
  intros Hc Hok Hf. destruct o as [n k m|fs|r now|id order|]; simpl.
  - intros [= <- _]. by apply register_level_ids.
  - intros [= <- _]. eapply same_levels_ids; [|done]. unfold RegisterFlowSchema. destruct (levels c !! fs_Level fs); [|done]. destruct (Match fs); [|done]. by destruct (existsb _ _).
  - unfold Offer. destruct (Classify c r) as [cls|]; [|by intros [= <- _]]. destruct (levels c !! Level cls) as [l|] eqn:Hl; [|done]. simpl.
    destruct (idInFlight c (ID r)) eqn:Hin; [by intros [= <- _]|]. apply idInFlight_unseated in Hin.
    destruct (bool_decide (inFlight l < concurrency l) && bool_decide (totalQueued l = 0)).
    + intros [= <- _]. apply start_ids; try done. by rewrite (lo_name _ _ _ (co_level _ Hc _ _ Hl)).
    + case_decide; [by intros [= <- _]|]. intros [= <- _]. by apply enqueue_ids.
  - intros [= <- _]. by apply finish_ids.
  - destruct (dispatch_all c) as [[c1 st]|] eqn:E; [|done]. intros [= <- _]. by eapply tick_levels_ids.
Qed.

Lemma run_ids ops : forall c c' log, controller_ok c -> ids_ok c -> fresh_offers c ops -> run c ops = Some (c', log) -> ids_ok c'.
Proof.
  induction ops as [|o ops IH]; intros c c' log Hc Hok Hf Hr; [by injection Hr as <- _|].
  destruct (run_cons _ _ _ _ _ Hc Hr) as (c1 & log1 & log2 & Eo & Hok1 & _ & Hr2 & _). destruct Hf as [Hf1 Hf2]. rewrite Eo in Hf2.
  eapply (IH c1); [done| |done|done]. by apply (do_op_ids c o c1 log1).
Qed.

Lemma no_levels n : levels NewController !! n = None.
Proof. apply lookup_empty. Qed.

Lemma NewController_ok : controller_ok NewController /\ ids_ok NewController.
Proof.
  split; [split; [intros n l H; by rewrite no_levels in H|by intros fs ?%elem_of_nil]|].
  split; [intros n f i q n' f' i' q' (l & H & _); by rewrite no_levels in H|intros n f i q (l & H & _); by rewrite no_levels in H|intros n l H; by rewrite no_levels in H].
Qed.

(** C20: The accounting of flow control.  Every sequence of operations on a new
    controller runs to an end, and in the state it reaches: no level has more
    requests in flight than its limit, now or at its peak; in every flow, the
    requests that were queued are those that were started from the queue
    followed by those that wait, in order, so that nothing is lost, started
    twice or overtaken; no queue is longer than its cap; if no offered request
    had the id of a waiting one, the requests in flight are exactly those that
    hold a seat; and a [Tick] ends with every level full or with nothing
    waiting in it. *)
Theorem flowcontrol_accounting (ops : list op) :
  exists c log, run NewController ops = Some (c, log) /\
  (forall n l, levels c !! n = Some l ->
    0 <= InFlight c n <= concurrency l /\ InFlight c n <= PeakInFlight c n <= concurrency l /\
    (forall f, enqueued f (level_events n log) = dispatched f (level_events n log) ++ queue_of l f) /\
    (forall f, Z.of_nat (length (queue_of l f)) <= maxQueueLen l) /\
    (fresh_offers NewController ops -> InFlight c n = Z.of_nat (size (seats l)))) /\
  exists c' started, Tick c = Some (c', started) /\
    forall n l, levels c !! n = Some l -> InFlight c' n = concurrency l \/ QueuedTotal c' n = 0.
Proof.
  destruct NewController_ok as [Hc Hi]. destruct (controller_run ops _ Hc) as (c & log & Hr & Hok). exists c, log. split; [done|]. split.
  - intros n l Hn. unfold InFlight, PeakInFlight. rewrite Hn. destruct (co_level _ Hok _ _ Hn) as [H1 H2 H3 H4 H5]. split_and!; try lia; try done.
    + intros f. eapply run_fifo; [exact Hc|done| |done]. intros l0 H0. by rewrite no_levels in H0.
    + intros Hf. apply (io_count c) with n; [|done]. by eapply (run_ids ops NewController).
  - destruct (dispatch_all_spec c Hok) as (c' & new & Ht & Hok' & _ & _ & Hl). unfold Tick. rewrite Ht. eexists _, _. split; [done|].
    intros n l Hn. destruct (Hl n l Hn) as (qs & l' & Hl' & _ & _ & (_ & Ec & _) & Hs). unfold InFlight, QueuedTotal. rewrite Hl', <- Ec.
    destruct Hs as [Hs|Hs]; [by left|right]. rewrite totalQueued_waiting. apply waiting_zero in Hs. lia.
Qed.

(** C21: Fairness.  Take any reachable state, any operations that follow it and
    two flows of a level that have requests waiting all along.  As long as no
    new flow appears at the level, the numbers of their requests started differ
    by at most one, and each flow gets at least its share of the starts: one
    in every round of as many starts as the level has flows. *)
Theorem flowcontrol_fair (ops ops' : list op) (c c' : Controller) (log log' : list ev) (n : string) (l l' : priorityLevel) :
  run NewController ops = Some (c, log) -> run c ops' = Some (c', log') ->
  levels c !! n = Some l -> levels c' !! n = Some l' -> rrOrder l' = rrOrder l ->
  (forall f g, keeps_waiting n f c ops' -> keeps_waiting n g c ops' ->
     Z.abs (Z.of_nat (length (dispatched f (level_events n log'))) - Z.of_nat (length (dispatched g (level_events n log')))) <= 1) /\
  (forall f, keeps_waiting n f c ops' ->
     dispatches (level_events n log') / Z.of_nat (length (rrOrder l)) <= Z.of_nat (length (dispatched f (level_events n log')))).
Proof.
  intros Hr Hr' Hn Hn' Ho. destruct NewController_ok as [Hc _]. destruct (controller_run ops _ Hc) as (c0 & log0 & Hr0 & Hok). rewrite Hr in Hr0. injection Hr0 as <- <-.
  pose proof (lo_queues _ _ _ (co_level _ Hok _ _ Hn)) as Hq.
  assert (forall f, keeps_waiting n f c ops' -> exists j : nat, rrOrder l !! j = Some f) as Hidx.
  { intros f (lw & Hlw & Hne)%keeps_waiting_now. rewrite Hn in Hlw. injection Hlw as <-. apply list_elem_of_lookup, (qo_flows _ Hq).
    unfold queue_of in Hne. by destruct (queues l !! f). }
  assert (forall f, keeps_waiting n f c ops' -> 0 < Z.of_nat (length (rrOrder l))) as Hpos.
  { intros f (j & Hj)%Hidx. apply lookup_lt_Some in Hj. lia. }
  assert (forall f, keeps_waiting n f c ops' -> rrCursor l mod Z.of_nat (length (rrOrder l)) = rrCursor l) as Hcur.
  { intros f Hw%Hpos. apply Z.mod_small. destruct (qo_cursor _ Hq). lia. }
  split.
  - intros f g Hf Hg. destruct (run_fair ops' _ _ _ _ _ _ (rrCursor l) Hok Hr' Hn Hn' Ho (Hpos f Hf) (Hcur f Hf)) as (p' & _ & Hs).
    destruct (Hidx f Hf) as [j Hj], (Hidx g Hg) as [k Hk]. rewrite (Hs f j Hj Hf), (Hs g k Hk Hg).
    apply lookup_lt_Some in Hj, Hk. apply passes_close; lia.
  - intros f Hf. destruct (run_fair ops' _ _ _ _ _ _ (rrCursor l) Hok Hr' Hn Hn' Ho (Hpos f Hf) (Hcur f Hf)) as (p' & Hd & Hs).
    destruct (Hidx f Hf) as [j Hj]. rewrite (Hs f j Hj Hf). pose proof (Hpos f Hf). apply lookup_lt_Some in Hj.
    assert (0 <= dispatches (level_events n log')) by (unfold dispatches; lia). etrans; [|apply passes_lower; lia]. by apply Z.div_le_mono.
Qed.

(** A level with one seat, which is taken, and two flows with three requests each. *)
Definition all_schema : FlowSchema := mkFlowSchema "all" "L" 0 (Some (fun _ => true)) None.
Definition demo_ops : list op :=
  [ORegisterLevel "L" 1 10; ORegisterSchema all_schema; OOffer (mkRequest "r0" "x") 0] ++
  ((fun p => OOffer (mkRequest p.1 p.2) 0) <$> [("a1", "a"); ("a2", "a"); ("a3", "a"); ("b1", "b"); ("b2", "b"); ("b3", "b")]).
Definition demo_next : list op := mjoin ((fun id => [OFinish id ["L"]; OTick]) <$> ["r0"; "a1"; "b1"]).
Definition demo_state (ops : list op) : Controller * list ev := default (NewController, []) (run NewController ops).
Definition demo_end : Controller * list ev := default (NewController, []) (run (demo_state demo_ops).1 demo_next).
Definition demo_level (c : Controller) : priorityLevel := default (mkLevel EmptyString 0 0 0 ∅ [] 0 ∅) (levels c !! "L").

Lemma demo_waits f : f = "a" \/ f = "b" -> keeps_waiting "L" f (demo_state demo_ops).1 demo_next.
Proof.
  intros [->| ->]; vm_compute; repeat (split; [eexists; split; [reflexivity|discriminate]|]); exact I.
Qed.

Lemma flowcontrol_fair_witness :
  dispatched "a" (level_events "L" demo_end.2) = [mkQueued (mkRequest "a1" "a") "a" 0 1; mkQueued (mkRequest "a2" "a") "a" 0 2] /\
  Z.abs (Z.of_nat (length (dispatched "a" (level_events "L" demo_end.2))) - Z.of_nat (length (dispatched "b" (level_events "L" demo_end.2)))) <= 1.
Proof.
  split; [vm_compute; reflexivity|].
  refine (proj1 (flowcontrol_fair demo_ops demo_next (demo_state demo_ops).1 demo_end.1 (demo_state demo_ops).2 demo_end.2 "L"
    (demo_level (demo_state demo_ops).1) (demo_level demo_end.1) _ _ _ _ _) "a" "b" (demo_waits "a" (or_introl eq_refl)) (demo_waits "b" (or_intror eq_refl)));
    vm_compute; reflexivity.
Defined.

(** Without the condition on new flows fairness is lost: a newcomer that sorts
    before the flow just served shifts the cursor back onto it.  With one
    newcomer before every tick, the flow [b] gets every seat and [z], which
    waits from the start, gets none. *)
Definition starve_start : list op :=
  [ORegisterLevel "L" 1 10; ORegisterSchema all_schema; OOffer (mkRequest "r0" "x") 0] ++
  ((fun p => OOffer (mkRequest p.1 p.2) 0) <$> [("z1", "z"); ("b1", "b"); ("b2", "b"); ("b3", "b"); ("b4", "b"); ("b5", "b")]).
Definition starve_round (p : string * string) : list op := [OOffer (mkRequest p.1 p.1) 0; OFinish p.2 ["L"]; OTick].

Lemma new_flows_starve :
  let log := (demo_state (starve_start ++ [OFinish "r0" ["L"]; OTick] ++
                mjoin (starve_round <$> [("a1", "b1"); ("a2", "b2"); ("a3", "b3"); ("a4", "b4")]))).2 in
  ID ∘ req <$> dispatched "b" (level_events "L" log) = ["b1"; "b2"; "b3"; "b4"; "b5"] /\ dispatches (level_events "L" log) = 5.
Proof. vm_compute. split; reflexivity. Qed.

(** Two waiting requests with one id: both are started but hold one seat
    between them, and once it is given back the level stays short of a seat. *)
Lemma duplicate_waiting_id_leaks :
  let ops := [ORegisterLevel "L" 2 10; ORegisterSchema all_schema] ++ ((fun id => OOffer (mkRequest id "x") 0) <$> ["p"; "q"; "y"; "y"])
             ++ [OFinish "p" ["L"]; OFinish "q" ["L"]; OTick; OFinish "y" ["L"]] in
  let c := (demo_state ops).1 in
  InFlight c "L" = 1 /\ seats (demo_level c) = ∅ /\ (Finish c "y" ["L"]).2 = Some ErrUnknownRequest.
Proof. vm_compute. split_and!; reflexivity. Qed.
