(* ===== verification/TieredCache.v ===== *)
(** * The tiered cache (pkg/tieredcache/tieredcache.go)

    A cache of three tiers: a map in memory with a bound on its size, kept in
    the order of use by a list, and two backing tiers that callers supply.
    The backing tiers are the type class [Tier], whose operations may fail and
    may change the tier; the class [TierLaws] states what the interface
    documents.  The list of [container/list] is a list of elements with an
    identity, to which the records of the map point.  The reading of the clock,
    in nanoseconds, and the order in which maintenance ranges over the map are
    arguments of the operations.  The eviction loop runs on fuel, the length of
    the list plus one; [None] says that it ran out, which is shown not to happen.

    The main theorem: when deletions from the warm tier and writes to the cold
    tier do not fail, a lookup returns what was last stored, whatever else
    fails.  [cold_failure_serves_stale] shows that the condition is needed. *)
From stdpp Require Import base gmap sets list strings.
From Stdlib Require Import ZArith Lia.
From S2P Require Import Prelude.
Open Scope Z_scope.

(** ** Backing tiers *)

Inductive tier_error := ErrNotFound | ErrCapabilityAbsent | ErrOther.

Notation bytes := (list Z).

Class Tier (T : Type) := {
  t_Get : T -> string -> T * (tier_error + bytes);
  t_Put : T -> string -> bytes -> T * option tier_error;
  t_Delete : T -> string -> T * option tier_error;
  AccessLatency : T -> Z }.

(** What the interface documents: [ErrNotFound] means that the key is absent, a
    lookup changes nothing, an operation that fails does nothing, and one that
    succeeds does what it says. *)
Class TierLaws (T : Type) `{Tier T} := {
  contents : T -> gmap string bytes;
  t_Get_law t k : contents (t_Get t k).1 = contents t /\
    match (t_Get t k).2 with inr v => contents t !! k = Some v | inl ErrNotFound => contents t !! k = None | inl _ => True end;
  t_Put_law t k v : contents (t_Put t k v).1 = match (t_Put t k v).2 with None => <[k := v]> (contents t) | Some _ => contents t end;
  t_Delete_law t k : contents (t_Delete t k).1 = match (t_Delete t k).2 with None => delete k (contents t) | Some _ => contents t end }.

Inductive TierName := TierHot | TierWarm | TierCold.

Record Record_ := mkRecord { Value : bytes; lastAccess : Z; elem : nat }.

Record Stats := mkStats { HotHits : Z; WarmHits : Z; ColdHits : Z }.

Section cache.
Context {W C : Type} `{Tier W, Tier C}.

Record Cache := mkCache {
  hot : gmap string Record_; lru : list (nat * string); next_elem : nat; maxHotEntries : Z;
  warm : W; cold : C; idleThreshold : Z; stats : Stats }.

Definition DefaultMaxHotEntries : Z := 4096.

(** [New]; a nil tier is [None], the clock is given. *)
Inductive config_error := NilWarm | NilCold | BadThreshold | BadWarmLatency | BadColdLatency.

Definition New (w : option W) (c : option C) (idle maxHot : Z) : config_error + Cache :=
  match w with
  | None => inl NilWarm
  | Some w =>
      match c with
      | None => inl NilCold
      | Some c =>
          if decide (idle <= 0) then inl BadThreshold
          else if decide (AccessLatency w <= 0) then inl BadWarmLatency
          else if decide (AccessLatency c <= AccessLatency w) then inl BadColdLatency
          else inr (mkCache ∅ [] 0 (if decide (maxHot <= 0) then DefaultMaxHotEntries else maxHot) w c idle (mkStats 0 0 0))
      end
  end.

(** ** container/list *)

Definition list_Remove (l : list (nat * string)) (e : nat) : list (nat * string) := filter (fun x => x.1 <> e) l.

Definition MoveToFront (l : list (nat * string)) (e : nat) : list (nat * string) :=
  filter (fun x => x.1 = e) l ++ list_Remove l e.

Definition set_Value (l : list (nat * string)) (e : nat) (key : string) : list (nat * string) :=
  (fun x => if decide (x.1 = e) then (e, key) else x) <$> l.

(** ** The hot tier *)

Definition with_hot (c : Cache) (h : gmap string Record_) (l : list (nat * string)) : Cache :=
  mkCache h l (next_elem c) (maxHotEntries c) (warm c) (cold c) (idleThreshold c) (stats c).
Definition with_warm (c : Cache) (w : W) : Cache :=
  mkCache (hot c) (lru c) (next_elem c) (maxHotEntries c) w (cold c) (idleThreshold c) (stats c).
Definition with_cold (c : Cache) (t : C) : Cache :=
  mkCache (hot c) (lru c) (next_elem c) (maxHotEntries c) (warm c) t (idleThreshold c) (stats c).
Definition with_stats (c : Cache) (s : Stats) : Cache :=
  mkCache (hot c) (lru c) (next_elem c) (maxHotEntries c) (warm c) (cold c) (idleThreshold c) s.

Definition touchHot (c : Cache) (rec : Record_) : Cache := with_hot c (hot c) (MoveToFront (lru c) (elem rec)).

Definition hotDelete (c : Cache) (key : string) : Cache :=
  match hot c !! key with
  | Some rec => with_hot c (delete key (hot c)) (list_Remove (lru c) (elem rec))
  | None => c
  end.

Fixpoint enforceHotCap (fuel : nat) (c : Cache) : option Cache :=
  match fuel with
  | O => None
  | S fuel =>
      if decide (maxHotEntries c < Z.of_nat (size (hot c))) then
        match last (lru c) with
        | None => Some c
        | Some (e, key) =>
            match hot c !! key with
            | None => enforceHotCap fuel (with_hot c (hot c) (list_Remove (lru c) e))
            | Some rec =>
                let '(w, err) := t_Put (warm c) key (Value rec) in
                match err with
                | Some _ => Some (with_warm c w)
                | None => enforceHotCap fuel (hotDelete (with_warm c w) key)
                end
            end
        end
      else Some c
  end.

Definition hotSet (c : Cache) (key : string) (value : bytes) (lastAccess : Z) : option Cache :=
  match hot c !! key with
  | Some existing =>
      Some (with_hot c (<[key := mkRecord value lastAccess (elem existing)]> (hot c))
                     (MoveToFront (set_Value (lru c) (elem existing) key) (elem existing)))
  | None =>
      let e := next_elem c in
      let c := mkCache (<[key := mkRecord value lastAccess e]> (hot c)) ((e, key) :: lru c) (S e) (maxHotEntries c)
                       (warm c) (cold c) (idleThreshold c) (stats c) in
      enforceHotCap (S (length (lru c))) c
  end.

(** ** Operations *)

Definition Put (c : Cache) (key : string) (value : bytes) (now : Z) : option Cache := hotSet c key value now.

Definition Get (c : Cache) (key : string) (now : Z) : option (Cache * (tier_error + bytes * TierName)) :=
  match hot c !! key with
  | Some rec =>
      let c := touchHot (with_hot c (<[key := mkRecord (Value rec) now (elem rec)]> (hot c)) (lru c)) rec in
      let s := stats c in
      Some (with_stats c (mkStats (i64 (HotHits s + 1)) (WarmHits s) (ColdHits s)), inr (Value rec, TierHot))
  | None =>
      let '(w, r) := t_Get (warm c) key in
      let c := with_warm c w in
      match r with
      | inr val =>
          match hotSet c key val now with
          | Some c =>
              let s := stats c in
              Some (with_stats c (mkStats (HotHits s) (i64 (WarmHits s + 1)) (ColdHits s)), inr (val, TierWarm))
          | None => None
          end
      | inl ErrNotFound =>
          let '(t, r) := t_Get (cold c) key in
          let c := with_cold c t in
          match r with
          | inr val =>
              match hotSet c key val now with
              | Some c =>
                  let c := with_warm c (t_Put (warm c) key val).1 in
                  let s := stats c in
                  Some (with_stats c (mkStats (HotHits s) (WarmHits s) (i64 (ColdHits s + 1))), inr (val, TierCold))
              | None => None
              end
          | inl e => Some (c, inl e)
          end
      | inl e => Some (c, inl e)
      end
  end.

(** The body of the loop of [RunMaintenance] for one key. *)
Definition maintain_key (deadline : Z) (c : Cache) (key : string) : Cache :=
  match hot c !! key with
  | None => c
  | Some rec =>
      if decide (lastAccess rec < deadline) then
        let '(w, r) := t_Get (warm c) key in
        let c := with_warm c w in
        match r with
        | inr _ =>
            let c := with_cold c (t_Put (cold c) key (Value rec)).1 in
            let c := with_warm c (t_Delete (warm c) key).1 in
            hotDelete c key
        | inl ErrNotFound =>
            let '(w, err) := t_Put (warm c) key (Value rec) in
            let c := with_warm c w in
            match err with None => hotDelete c key | Some _ => c end
        | inl _ => c
        end
      else c
  end.

(** [order] is the order in which the map is ranged over. *)
Definition RunMaintenance (c : Cache) (now : Z) (order : list string) : Cache :=
  foldl (maintain_key (now - idleThreshold c)) c order.

Definition HotCount (c : Cache) : Z := Z.of_nat (size (hot c)).

End cache.
Arguments Cache : clear implicits.

(** ** Histories *)

Inductive op := OPut (key : string) (value : list Z) (now : Z) | OGet (key : string) (now : Z) | OMaintain (now : Z) (order : list string).

Section runs.
Context {W C : Type} `{Tier W, Tier C}.

Definition do_op (c : Cache W C) (o : op) : option (Cache W C) :=
  match o with
  | OPut k v now => Put c k v now
  | OGet k now => fst <$> Get c k now
  | OMaintain now order => Some (RunMaintenance c now order)
  end.

Fixpoint run (c : Cache W C) (ops : list op) : option (Cache W C) :=
  match ops with
  | [] => Some c
  | o :: ops => match do_op c o with Some c => run c ops | None => None end
  end.
End runs.

Definition last_put (ops : list op) (k : string) : option (list Z) :=
  foldl (fun o op => match op with OPut k' v _ => if decide (k' = k) then Some v else o | _ => o end) None ops.

(** ** Proofs *)

Section proofs.
Context {W C : Type} {TW : Tier W} {LW : TierLaws W} {TC : Tier C} {LC : TierLaws C}.
Implicit Types (c : Cache W C) (k key : string).

(** The map and the list of the hot tier agree. *)
Record hot_ok c : Prop := {
  ho_nodup : NoDup (lru c).*1;
  ho_list : forall e k, (e, k) ∈ lru c -> exists rec, hot c !! k = Some rec /\ elem rec = e;
  ho_map : forall k rec, hot c !! k = Some rec -> (elem rec, k) ∈ lru c;
  ho_next : forall e k, (e, k) ∈ lru c -> (e < next_elem c)%nat;
  ho_cap : 1 <= maxHotEntries c }.

(** What a lookup is meant to find. *)
Definition view c k : option (list Z) :=
  match hot c !! k with
  | Some rec => Some (Value rec)
  | None => match contents (warm c) !! k with Some v => Some v | None => contents (cold c) !! k end
  end.

Lemma elem_of_Remove (l : list (nat * string)) e x : x ∈ list_Remove l e <-> x ∈ l /\ x.1 <> e.
Proof. unfold list_Remove. rewrite list_elem_of_filter. tauto. Qed.

Lemma elem_of_MoveToFront (l : list (nat * string)) e x : x ∈ MoveToFront l e <-> x ∈ l.
Proof. unfold MoveToFront. rewrite elem_of_app, elem_of_Remove, list_elem_of_filter. destruct (decide (x.1 = e)); tauto. Qed.

Lemma NoDup_Remove (l : list (nat * string)) e : NoDup l.*1 -> NoDup (list_Remove l e).*1.
Proof. intros Hn. eapply sublist_NoDup; [exact Hn|]. apply fmap_sublist, sublist_filter. Qed.

Lemma filter_elem_Remove (l : list (nat * string)) e : filter (fun x => x.1 = e) l ++ list_Remove l e ≡ₚ l.
Proof.
  unfold list_Remove. induction l as [|x l IH]; [done|]. rewrite !filter_cons. destruct (decide (x.1 = e)).
  - rewrite decide_False by tauto. simpl. by constructor.
  - rewrite decide_True by done. by rewrite <- Permutation_middle, IH.
Qed.

Lemma NoDup_MoveToFront (l : list (nat * string)) e : NoDup l.*1 -> NoDup (MoveToFront l e).*1.
Proof. unfold MoveToFront. by rewrite (filter_elem_Remove l e). Qed.

(** The list holds each key once. *)
Lemma hot_ok_same c e e' k : hot_ok c -> (e, k) ∈ lru c -> (e', k) ∈ lru c -> e = e'.
Proof. intros Hc H1 H2. destruct (ho_list _ Hc _ _ H1) as (r & E1 & <-), (ho_list _ Hc _ _ H2) as (r' & E2 & <-). congruence. Qed.

Lemma lru_key c e k k' : hot_ok c -> (e, k) ∈ lru c -> (e, k') ∈ lru c -> k = k'.
Proof.
  intros Hc [i Hi]%list_elem_of_lookup [j Hj]%list_elem_of_lookup. assert (i = j) as ->; [|congruence].
  eapply NoDup_lookup; [apply (ho_nodup _ Hc)|rewrite list_lookup_fmap, Hi; done|rewrite list_lookup_fmap, Hj; done].
Qed.

(** A change of recency, of values and of the other fields. *)
Lemma hot_ok_update c c' :
  hot_ok c -> (lru c').*1 ≡ₚ (lru c).*1 -> (forall x, x ∈ lru c' <-> x ∈ lru c) -> (forall k, elem <$> hot c' !! k = elem <$> hot c !! k) ->
  next_elem c' = next_elem c -> maxHotEntries c' = maxHotEntries c -> hot_ok c'.
Proof.
  intros [H1 H2 H3 H4 H5] Hnd Hel Hhot En Em. split; rewrite ?En, ?Em; try done.
  - by rewrite Hnd.
  - intros e k Hek%Hel. destruct (H2 e k Hek) as (rec & Hr & <-). specialize (Hhot k). rewrite Hr in Hhot. simpl in Hhot.
    apply fmap_Some in Hhot as (rec' & -> & ->). by exists rec'.
  - intros k rec Hk. rewrite Hel. specialize (Hhot k). rewrite Hk in Hhot. simpl in Hhot. symmetry in Hhot. apply fmap_Some in Hhot as (rec' & Hr & ->). by apply H3.
  - intros e k Hek%Hel. by eapply H4.
Qed.

Lemma hotDelete_ok c key : hot_ok c -> hot_ok (hotDelete c key).
Proof.
  intros Hc. pose proof Hc as [H1 H2 H3 H4 H5]. unfold hotDelete. destruct (hot c !! key) as [rec|] eqn:E; [|done]. split; simpl; try done.
  - by apply NoDup_Remove.
  - intros e k [Hek Hne]%elem_of_Remove. simpl in Hne. destruct (H2 e k Hek) as (r & Hr & <-). exists r. split; [|done].
    rewrite lookup_delete_ne; [done|]. intros ->. congruence.
  - intros k r [Hne Hr]%lookup_delete_Some. apply elem_of_Remove. split; [by apply H3|]. simpl. intros Ee. apply Hne.
    eapply (lru_key c); [done|by apply H3|]. rewrite <- Ee. by apply H3.
  - intros e k [Hek _]%elem_of_Remove. by eapply H4.
Qed.

Lemma hotDelete_fields c key :
  hot (hotDelete c key) = delete key (hot c) /\ warm (hotDelete c key) = warm c /\ cold (hotDelete c key) = cold c /\
  maxHotEntries (hotDelete c key) = maxHotEntries c /\ idleThreshold (hotDelete c key) = idleThreshold c.
Proof. unfold hotDelete. destruct (hot c !! key) eqn:E; [done|]. by rewrite delete_id. Qed.

Lemma hotDelete_shorter c key rec : hot_ok c -> hot c !! key = Some rec -> (length (lru (hotDelete c key)) < length (lru c))%nat.
Proof.
  intros Hc Hk. unfold hotDelete. rewrite Hk. simpl. unfold list_Remove.
  apply (length_filter_lt _ _ (elem rec, key)); [by apply ho_map|]. simpl. tauto.
Qed.

(** Moving the value of a key from the hot tier to the warm one changes nothing
    that a lookup can see. *)
Lemma view_demote c key rec w :
  hot c !! key = Some rec -> contents w = <[key := Value rec]> (contents (warm c)) -> forall k, view (hotDelete (with_warm c w) key) k = view c k.
Proof.
  intros Hk Hw k. unfold view. destruct (hotDelete_fields (with_warm c w) key) as (-> & -> & -> & _). simpl. rewrite Hw. destruct (decide (key = k)) as [<-|Hne].
  - by rewrite lookup_delete_eq, lookup_insert_eq, Hk.
  - by rewrite lookup_delete_ne, lookup_insert_ne by done.
Qed.

Lemma view_same_warm c w k : contents w = contents (warm c) -> view (with_warm c w) k = view c k.
Proof. intros Hw. unfold view. simpl. by rewrite Hw. Qed.

Lemma hot_ok_warm c w : hot_ok c -> hot_ok (with_warm c w).
Proof. by intros [H1 H2 H3 H4 H5]. Qed.

(** The writes of the warm tier never fail. *)
Definition warm_writable : Prop := forall (w : W) k v, (t_Put w k v).2 = None.

Lemma enforceHotCap_spec fuel : forall c,
  hot_ok c -> (length (lru c) < fuel)%nat ->
  exists c', enforceHotCap fuel c = Some c' /\ hot_ok c' /\ (forall k, view c' k = view c k) /\
    maxHotEntries c' = maxHotEntries c /\ idleThreshold c' = idleThreshold c /\ (warm_writable -> HotCount c' <= maxHotEntries c).
Proof.
  induction fuel as [|fuel IH]; intros c Hc Hf; [lia|]. simpl. case_decide as Hsz; [|exists c; split_and!; try done; intros _; unfold HotCount; lia].
  destruct (last (lru c)) as [[e key]|] eqn:El.
  - apply last_Some_elem_of in El. destruct (ho_list _ Hc _ _ El) as (rec & Hr & <-). rewrite Hr.
    pose proof (t_Put_law (warm c) key (Value rec)) as Hl. destruct (t_Put (warm c) key (Value rec)) as [w [err|]] eqn:Ep; simpl in Hl.
    + exists (with_warm c w). split_and!; try done; [by apply hot_ok_warm|intros k; by apply view_same_warm|].
      intros Hw. specialize (Hw (warm c) key (Value rec)). by rewrite Ep in Hw.
    + destruct (hotDelete_fields (with_warm c w) key) as (_ & _ & _ & Em & Ei).
      destruct (IH (hotDelete (with_warm c w) key)) as (c' & -> & Hc' & Hv & Em' & Ei' & Hb).
      * by apply hotDelete_ok, hot_ok_warm.
      * pose proof (hotDelete_shorter (with_warm c w) key rec (hot_ok_warm _ _ Hc) Hr) as Hs. simpl in Hs. lia.
      * exists c'. rewrite Em in Em', Hb. rewrite Ei in Ei'. split_and!; try done. intros k. rewrite Hv. by eapply view_demote.
  - apply last_None in El. assert (hot c = ∅) as E0.
    { apply map_empty. intros k. destruct (hot c !! k) as [rec|] eqn:E; [|done]. pose proof (ho_map _ Hc _ _ E) as Hin. rewrite El in Hin. by apply elem_of_nil in Hin. }
    rewrite E0, map_size_empty in Hsz. pose proof (ho_cap _ Hc). simpl in Hsz. lia.
Qed.

Lemma set_Value_same c key e : hot_ok c -> (e, key) ∈ lru c -> set_Value (lru c) e key = lru c.
Proof.
  intros Hc Hin. unfold set_Value. rewrite <- (list_fmap_id (lru c)) at 2. apply list_fmap_ext. intros i [e' k'] Hi.
  apply list_elem_of_lookup_2 in Hi. simpl. case_decide as E; [|done]. subst e'. f_equal. by eapply lru_key.
Qed.

Lemma hotSet_spec c key v now :
  hot_ok c -> exists c', hotSet c key v now = Some c' /\ hot_ok c' /\
    (forall k, view c' k = if decide (k = key) then Some v else view c k) /\
    maxHotEntries c' = maxHotEntries c /\ idleThreshold c' = idleThreshold c /\
    (warm_writable -> HotCount c <= maxHotEntries c -> HotCount c' <= maxHotEntries c).
Proof.
  intros Hc. unfold hotSet. destruct (hot c !! key) as [rec|] eqn:E.
  - rewrite (set_Value_same c) by (done || by apply ho_map). eexists. split; [reflexivity|]. split_and!; try done.
    + apply (hot_ok_update c); try done; simpl.
      * unfold MoveToFront. by rewrite filter_elem_Remove.
      * apply elem_of_MoveToFront.
      * intros k. destruct (decide (k = key)) as [->|]; [by rewrite lookup_insert_eq, E|by rewrite lookup_insert_ne].
    + intros k. unfold view. simpl. case_decide as Hk; [by subst; rewrite lookup_insert_eq|by rewrite lookup_insert_ne].
    + unfold HotCount. simpl. intros _. by rewrite map_size_insert_Some by (by eexists).
  - set (c1 := mkCache (<[key := mkRecord v now (next_elem c)]> (hot c)) ((next_elem c, key) :: lru c) (S (next_elem c)) (maxHotEntries c)
                       (warm c) (cold c) (idleThreshold c) (stats c)).
    assert (hot_ok c1) as Hc1.
    { destruct Hc as [H1 H2 H3 H4 H5]. split; simpl; try done.
      - apply NoDup_cons. split; [|done]. intros ([e k] & Ee & Hek)%list_elem_of_fmap. simpl in Ee. apply H4 in Hek. lia.
      - intros e k [[= -> ->]|Hek]%elem_of_cons; [rewrite lookup_insert_eq; by eexists|]. destruct (H2 e k Hek) as (r & Hr & <-).
        rewrite lookup_insert_ne by congruence. by exists r.
      - intros k r [[<- <-]|[Hne Hr]]%lookup_insert_Some; [left|right]. by apply H3.
      - intros e k [[= -> ->]|Hek]%elem_of_cons; [lia|]. apply H4 in Hek. lia. }
    destruct (enforceHotCap_spec (S (length (lru c1))) c1 Hc1) as (c' & Ee & Hc' & Hv & Em & Ei & Hb); [lia|].
    exists c'. split; [exact Ee|]. split_and!; try done; [|by intros Hw _; apply Hb].
    intros k. rewrite Hv. unfold view. simpl. case_decide as Hk; [by subst; rewrite lookup_insert_eq|by rewrite lookup_insert_ne].
Qed.

(** ** Lookups *)

Lemma view_with_stats c s k : view (with_stats c s) k = view c k.
Proof. done. Qed.

Lemma hot_ok_stats c s : hot_ok c -> hot_ok (with_stats c s).
Proof. by intros [H1 H2 H3 H4 H5]. Qed.

(** Rewriting a value that a lookup finds anyway. *)
Lemma view_rewarm c key v k : view c key = Some v -> view (with_warm c (t_Put (warm c) key v).1) k = view c k.
Proof.
  intros Hv. unfold view in *. simpl. rewrite t_Put_law. destruct (t_Put (warm c) key v).2; [done|]. destruct (decide (k = key)) as [->|].
  - rewrite lookup_insert_eq. destruct (hot c !! key); [done|]. by destruct (contents (warm c) !! key).
  - by rewrite lookup_insert_ne.
Qed.

Definition answers (r : tier_error + list Z * TierName) (o : option (list Z)) : Prop :=
  match r with inr (v, _) => o = Some v | inl ErrNotFound => o = None | inl _ => True end.

Lemma Get_spec c key now :
  hot_ok c -> exists c' r, Get c key now = Some (c', r) /\ hot_ok c' /\ (forall k, view c' k = view c k) /\ answers r (view c key) /\
    maxHotEntries c' = maxHotEntries c /\ idleThreshold c' = idleThreshold c /\
    (warm_writable -> HotCount c <= maxHotEntries c -> HotCount c' <= maxHotEntries c).
Proof.
  intros Hc. unfold Get. destruct (hot c !! key) as [rec|] eqn:E.
  - eexists _, _. split; [reflexivity|]. split_and!; try done.
    + apply hot_ok_stats, (hot_ok_update c); try done; simpl.
      * unfold MoveToFront. by rewrite filter_elem_Remove.
      * apply elem_of_MoveToFront.
      * intros k. destruct (decide (k = key)) as [->|]; [by rewrite lookup_insert_eq, E|by rewrite lookup_insert_ne].
    + intros k. unfold view. simpl. destruct (decide (k = key)) as [->|]; [by rewrite lookup_insert_eq, E|by rewrite lookup_insert_ne].
    + simpl. unfold view. by rewrite E.
    + unfold HotCount. simpl. intros _. by rewrite map_size_insert_Some by (by eexists).
  - destruct (t_Get_law (warm c) key) as [Hw Hr]. destruct (t_Get (warm c) key) as [w [err|val]]; simpl in Hw, Hr |- *.
    + assert (hot_ok (with_warm c w)) as Hcw by by apply hot_ok_warm.
      assert (forall k, view (with_warm c w) k = view c k) as Hvw by (intros k; by apply view_same_warm).
      destruct err; try (eexists _, _; split; [reflexivity|]; by split_and!).
      destruct (t_Get_law (cold c) key) as [Ht Hr']. destruct (t_Get (cold c) key) as [t [err|val]]; simpl in Ht, Hr' |- *.
      all: assert (hot_ok (with_cold (with_warm c w) t)) as Hct by (by destruct Hcw).
      all: assert (forall k, view (with_cold (with_warm c w) t) k = view c k) as Hvt by (intros k; unfold view; simpl; by rewrite Hw, Ht).
      * eexists _, _. split; [reflexivity|]. split_and!; try done. destruct err; simpl; try done. unfold view. by rewrite E, Hr.
      * destruct (hotSet_spec (with_cold (with_warm c w) t) key val now Hct) as (c' & -> & Hc' & Hv & Em & Ei & Hb).
        assert (view c key = Some val) as Hkey by (unfold view; by rewrite E, Hr).
        eexists _, _. split; [reflexivity|]. split_and!; try done; [by apply hot_ok_stats, hot_ok_warm|].
        intros k. rewrite view_with_stats, view_rewarm, Hv; [|by rewrite Hv, decide_True]. case_decide; [by subst|done].
    + assert (view c key = Some val) as Hkey by (unfold view; by rewrite E, Hr).
      destruct (hotSet_spec (with_warm c w) key val now (hot_ok_warm _ _ Hc)) as (c' & -> & Hc' & Hv & Em & Ei & Hb).
      eexists _, _. split; [reflexivity|]. split_and!; try done; [by apply hot_ok_stats|].
      intros k. rewrite view_with_stats, Hv. case_decide; [by subst|]. by apply view_same_warm.
Qed.

(** ** Maintenance *)

Section reliable.
Context (warm_deletes : forall (w : W) k, (t_Delete w k).2 = None) (cold_writes : forall (t : C) k v, (t_Put t k v).2 = None).

Lemma maintain_key_spec deadline c key :
  hot_ok c -> hot_ok (maintain_key deadline c key) /\ (forall k, view (maintain_key deadline c key) k = view c k) /\
    maxHotEntries (maintain_key deadline c key) = maxHotEntries c /\ idleThreshold (maintain_key deadline c key) = idleThreshold c /\
    HotCount (maintain_key deadline c key) <= HotCount c.
Proof.
  intros Hc. unfold maintain_key. destruct (hot c !! key) as [rec|] eqn:E; [|split_and!; done || lia]. case_decide; [|split_and!; done || lia].
  destruct (t_Get_law (warm c) key) as [Hw Hr]. destruct (t_Get (warm c) key) as [w [err|val]]; simpl in Hw, Hr |- *.
  - destruct err; try (split_and!; [by apply hot_ok_warm|intros k; by apply view_same_warm|done|done|unfold HotCount; simpl; lia]).
    pose proof (t_Put_law w key (Value rec)) as Hp. destruct (t_Put w key (Value rec)) as [w' [err|]]; simpl in Hp |- *.
    + split_and!; [by do 2 apply hot_ok_warm|intros k; rewrite view_same_warm; [by apply view_same_warm|done]|done|done|unfold HotCount; simpl; lia].
    + destruct (hotDelete_fields (with_warm (with_warm c w) w') key) as (Eh & _ & _ & -> & ->). split_and!; try done.
      * by apply hotDelete_ok, hot_ok_warm, hot_ok_warm.
      * intros k. rewrite (view_demote (with_warm c w) key rec w' E Hp). by apply view_same_warm.
      * unfold HotCount. rewrite Eh. simpl. rewrite map_size_delete, E. lia.
  - set (c1 := with_warm (with_cold (with_warm c w) (t_Put (cold c) key (Value rec)).1) (t_Delete w key).1).
    destruct (hotDelete_fields c1 key) as (Eh & Ew & Ec & -> & ->). split_and!; try done.
    + apply hotDelete_ok. by destruct Hc.
    + intros k. unfold view. rewrite Eh, Ew, Ec. unfold c1. simpl. rewrite t_Delete_law, warm_deletes, t_Put_law, cold_writes, Hw.
      destruct (decide (key = k)) as [<-|Hne]; [by rewrite !lookup_delete_eq, lookup_insert_eq, E|].
      by rewrite !lookup_delete_ne, lookup_insert_ne by done.
    + unfold HotCount. rewrite Eh. simpl. rewrite map_size_delete, E. lia.
Qed.

Lemma RunMaintenance_spec c now order :
  hot_ok c -> hot_ok (RunMaintenance c now order) /\ (forall k, view (RunMaintenance c now order) k = view c k) /\
    maxHotEntries (RunMaintenance c now order) = maxHotEntries c /\ HotCount (RunMaintenance c now order) <= HotCount c.
Proof.
  unfold RunMaintenance. generalize (now - idleThreshold c) as d. intros d. revert c. induction order as [|key order IH]; intros c Hc; simpl; [split_and!; done || lia|].
  destruct (maintain_key_spec d c key Hc) as (Hc1 & Hv1 & Em1 & _ & Hb1). destruct (IH _ Hc1) as (Hc2 & Hv2 & Em2 & Hb2).
  split_and!; [done| |by rewrite Em2|lia]. intros k. by rewrite Hv2.
Qed.

Lemma cache_run ops : forall c,
  hot_ok c -> exists c', run c ops = Some c' /\ hot_ok c' /\ maxHotEntries c' = maxHotEntries c /\
    (forall k, view c' k = foldl (fun o op => match op with OPut k' v _ => if decide (k' = k) then Some v else o | _ => o end) (view c k) ops) /\
    (warm_writable -> HotCount c <= maxHotEntries c -> HotCount c' <= maxHotEntries c).
Proof.
  induction ops as [|o ops IH]; intros c Hc; simpl; [by exists c|].
  assert (exists c1, do_op c o = Some c1 /\ hot_ok c1 /\ maxHotEntries c1 = maxHotEntries c /\
    (forall k, view c1 k = match o with OPut k' v _ => if decide (k' = k) then Some v else view c k | _ => view c k end) /\
    (warm_writable -> HotCount c <= maxHotEntries c -> HotCount c1 <= maxHotEntries c)) as (c1 & -> & Hc1 & Em1 & Hv1 & Hb1).
  { destruct o as [key v now|key now|now order]; simpl.
    - destruct (hotSet_spec c key v now Hc) as (c1 & E & Hc1 & Hv & Em & _ & Hb). exists c1. split_and!; try done. intros k. rewrite Hv.
      destruct (decide (k = key)), (decide (key = k)); congruence.
    - destruct (Get_spec c key now Hc) as (c1 & r & -> & Hc1 & Hv & _ & Em & _ & Hb). by exists c1.
    - destruct (RunMaintenance_spec c now order Hc) as (Hc1 & Hv & Em & Hb). eexists. split; [reflexivity|]. split_and!; try done. intros _ Hle. lia. }
  destruct (IH c1 Hc1) as (c' & -> & Hc' & Em' & Hv' & Hb'). exists c'. split_and!; [done|done|by rewrite Em'| |].
  - intros k. rewrite Hv', Hv1. by destruct o.
  - intros Hw Hle. rewrite <- Em1. apply Hb'; [done|]. rewrite Em1. by apply Hb1.
Qed.
End reliable.

Lemma New_spec w t idle maxHot c :
  New (Some w) (Some t) idle maxHot = inr c -> contents w = ∅ -> contents t = ∅ -> hot_ok c /\ HotCount c <= maxHotEntries c /\ forall k, view c k = None.
Proof.
  unfold New. case_decide; [done|]. case_decide; [done|]. case_decide; [done|]. intros [= <-] Hw Ht. split_and!.
  - split; simpl; try done; [constructor|by intros e k ?%elem_of_nil|by intros e k ?%elem_of_nil|].
    unfold DefaultMaxHotEntries. case_decide; lia.
  - unfold HotCount, DefaultMaxHotEntries. simpl. rewrite map_size_empty. case_decide; lia.
  - intros k. unfold view. simpl. by rewrite lookup_empty, Hw, Ht, !lookup_empty.
Qed.
End proofs.

(** C22: The cache is coherent.  For every pair of empty backing tiers that
    keep to the interface, whose warm deletions and cold writes succeed but
    whose other operations may fail in any way: every sequence of stores,
    lookups and maintenance passes runs to an end, at whatever times and in
    whatever order the map is ranged over; a lookup that follows returns the
    value last stored under the key, reports a key as not found only if it was
    never stored, and otherwise passes on the failure of a tier; and as long as
    writes to the warm tier succeed the hot tier stays within its bound. *)
Theorem tieredcache_coherent {W C : Type} `{TierLaws W} `{TierLaws C} (w : W) (t : C) (idle maxHot : Z) (c0 : Cache W C) (ops : list op) :
  New (Some w) (Some t) idle maxHot = inr c0 -> contents w = ∅ -> contents t = ∅ ->
  (forall (w : W) k, (t_Delete w k).2 = None) -> (forall (t : C) k v, (t_Put t k v).2 = None) ->
  exists c, run c0 ops = Some c /\
  (forall k now, exists c' r, Get c k now = Some (c', r) /\ answers r (last_put ops k)) /\
  ((forall (w : W) k v, (t_Put w k v).2 = None) -> HotCount c <= maxHotEntries c0).
Proof.
  intros Hnew Hw Ht Hdel Hput. destruct (New_spec _ _ _ _ _ Hnew Hw Ht) as (Hc0 & Hb0 & Hv0).
  destruct (cache_run Hdel Hput ops c0 Hc0) as (c & Hr & Hc & Em & Hv & Hb). exists c. split_and!; [done| |intros Hwr; by apply Hb].
  intros k now. destruct (Get_spec c k now Hc) as (c' & r & HG & _ & _ & Ha & _). exists c', r. split; [done|].
  rewrite Hv, Hv0 in Ha. exact Ha.
Qed.

(** ** A tier that fails on demand

    Its contents, its latency, and the number of writes that succeed before
    all writes fail. *)
Module MapTier.
Record t := mk { data : gmap string (list Z); latency : Z; writes : nat }.

#[export] Instance map_tier : Tier t := {
  t_Get m k := (m, match data m !! k with Some v => inr v | None => inl ErrNotFound end);
  t_Put m k v := match writes m with
                 | S n => (mk (<[k := v]> (data m)) (latency m) n, None)
                 | O => (m, Some ErrCapabilityAbsent)
                 end;
  t_Delete m k := (mk (delete k (data m)) (latency m) (writes m), None);
  AccessLatency m := latency m }.

#[export] Instance map_tier_laws : TierLaws t.
Proof.
  refine {| contents := data |}.
  - intros m k. simpl. split; [done|]. by destruct (data m !! k).
  - intros m k v. simpl. by destruct (writes m).
  - done.
Defined.

(** A tier whose writes always succeed. *)
Record r := mk_r { rdata : gmap string (list Z); rlatency : Z }.

#[export] Instance reliable_tier : Tier r := {
  t_Get m k := (m, match rdata m !! k with Some v => inr v | None => inl ErrNotFound end);
  t_Put m k v := (mk_r (<[k := v]> (rdata m)) (rlatency m), None);
  t_Delete m k := (mk_r (delete k (rdata m)) (rlatency m), None);
  AccessLatency m := rlatency m }.

#[export] Instance reliable_tier_laws : TierLaws r.
Proof. refine {| contents := rdata |}; [|done|done]. intros m k. simpl. split; [done|]. by destruct (rdata m !! k). Defined.

Definition cache (writes : nat) : Cache t r :=
  mkCache ∅ [] 0 1 (mk ∅ 5 writes) (mk_r ∅ 9) 10 (mkStats 0 0 0).

(** Store twice under [a], push it out by [b], bring it back, let all of it go cold. *)
Definition ops : list op :=
  [OPut "a" [1] 0; OPut "a" [2] 1; OPut "b" [3] 2; OGet "a" 3; OMaintain 20 ["a"; "b"]; OMaintain 40 ["b"]].
End MapTier.
Import MapTier.

Lemma tieredcache_coherent_witness :
  exists c, run (MapTier.cache 1) MapTier.ops = Some c /\ exists c' r, Get c "a" 50 = Some (c', r) /\ answers r (Some [2]).
Proof.
  destruct (tieredcache_coherent (MapTier.mk ∅ 5 1) (MapTier.mk_r ∅ 9) 10 1 (MapTier.cache 1) MapTier.ops) as (c & Hr & Hg & _).
  - vm_compute. reflexivity.
  - reflexivity.
  - reflexivity.
  - intros [d l n] k. reflexivity.
  - intros [d l] k v. reflexivity.
  - exists c. split; [exact Hr|]. exact (Hg "a" 50).
Defined.

(** When a write to the cold tier fails during maintenance, the newest value is
    dropped and an older one left in the cold tier comes back: here [1] is
    found although [2] was stored after it. *)
Lemma cold_failure_serves_stale :
  let cold := MapTier.mk ∅ 9 1 in
  let c := mkCache ∅ [] 0 1 (MapTier.mk_r ∅ 5) cold 10 (mkStats 0 0 0) in
  let ops := [OPut "a" [1] 0; OMaintain 20 ["a"]; OGet "a" 21; OMaintain 40 ["a"]; OGet "a" 41; OPut "a" [2] 42; OMaintain 60 ["a"]] in
  match run c ops with Some c => option_map snd (Get c "a" 61) | None => None end = Some (inr ([1], TierCold)) /\ last_put ops "a" = Some [2].
Proof. vm_compute. split; reflexivity. Qed.
