(* ===== verification/Informer.v ===== *)
(** * The informer cache (pkg/informer/informer.go)

    A store of objects with secondary indexes, filled from a list and kept up
    to date by a stream of events, and an informer that passes every change on
    to handlers.  The index functions are arguments: functions of the object,
    as the code applies them again to the old object when it takes it out of
    the index.  Objects are values; nobody changes the labels of an object
    after handing it over.  A handler is the set of callbacks it has, and the
    informer keeps a log of the calls made to each handler.  [Run] and [Resync]
    are split where the code lets go of the lock: the change of the store and
    the calls of the handlers are separate steps, which other goroutines may
    come between.

    The theorems: in every state the indexes say what a scan of the store says
    ([informer_index_exact]), and a handler that is only driven by [Run] can
    rebuild the store from the calls it gets ([informer_mirrors]); the lemma
    [resync_resurrects] shows that a concurrent [Resync] breaks the latter. *)
From stdpp Require Import base gmap sets list strings sorting.
From Stdlib Require Import ZArith Lia.
From S2P Require Import Prelude.

(** ** Objects and events *)

Record Object := mkObject { Namespace : string; Name : string; Value : string; Labels : gmap string string }.

#[global] Instance Object_eq_dec : EqDecision Object.
Proof. solve_decision. Defined.

Definition Key (o : Object) : string :=
  if decide (Namespace o = EmptyString) then Name o else String.append (Namespace o) (String.append "/" (Name o)).

(** An event type is an integer in the code: any other value is [Unknown]. *)
Inductive EventType := Added | Updated | Deleted | Unknown (n : Z).

Record Event := mkEvent { Type_ : EventType; Obj : Object }.

Notation IndexFunc := (Object -> list string).

(** ** The store *)

Record Store := mkStore {
  items : gmap string Object; indexes : gmap string IndexFunc; indexed : gmap string (gmap string (gset string)) }.

Definition NewStore : Store := mkStore ∅ ∅ ∅.

Definition set_indexed (s : Store) (ix : gmap string (gmap string (gset string))) : Store := mkStore (items s) (indexes s) ix.

Definition bucket_add (key : string) (ix : gmap string (gset string)) (v : string) : gmap string (gset string) :=
  <[v := {[key]} ∪ sget ix v]> ix.

Definition bucket_remove (key : string) (ix : gmap string (gset string)) (v : string) : gmap string (gset string) :=
  match ix !! v with
  | None => ix
  | Some bucket => let bucket := bucket ∖ {[key]} in if decide (bucket = ∅) then delete v ix else <[v := bucket]> ix
  end.

Definition addToIndexLocked (s : Store) (name : string) (fn : IndexFunc) (key : string) (obj : Object) : Store :=
  set_indexed s (alter (fun ix => foldl (bucket_add key) ix (fn obj)) name (indexed s)).

Definition removeFromIndexLocked (s : Store) (name : string) (fn : IndexFunc) (key : string) (obj : Object) : Store :=
  set_indexed s (alter (fun ix => foldl (bucket_remove key) ix (fn obj)) name (indexed s)).

Definition AddIndexer (s : Store) (name : string) (fn : IndexFunc) : Store :=
  range_fold (fun s key obj => addToIndexLocked s name fn key obj)
    (mkStore (items s) (<[name := fn]> (indexes s)) (<[name := ∅]> (indexed s))) (items s).

Definition indexAllLocked (s : Store) (key : string) (obj : Object) : Store :=
  range_fold (fun s name fn => addToIndexLocked s name fn key obj) s (indexes s).

Definition deindexAllLocked (s : Store) (key : string) (obj : Object) : Store :=
  range_fold (fun s name fn => removeFromIndexLocked s name fn key obj) s (indexes s).

Definition GetByKey (s : Store) (key : string) : option Object := items s !! key.

Definition List (s : Store) : list Object := omap (fun k => items s !! k) (sort_strings (map_to_list (items s)).*1).

Definition ByIndex (s : Store) (name value : string) : list Object :=
  match indexed s !! name with
  | None => []
  | Some buckets =>
      match buckets !! value with
      | None => []
      | Some set => omap (fun k => items s !! k) (sort_strings (elements set))
      end
  end.

(** The effective type of the event with the old and the new object, when there
    is something to notify. *)
Definition apply (s : Store) (ev : Event) : Store * option (EventType * option Object * option Object) :=
  let key := Key (Obj ev) in
  match Type_ ev with
  | Added | Updated =>
      let prev := items s !! key in
      let s := match prev with Some p => deindexAllLocked s key p | None => s end in
      let s := mkStore (<[key := Obj ev]> (items s)) (indexes s) (indexed s) in
      let s := indexAllLocked s key (Obj ev) in
      match prev with
      | Some p => (s, Some (Updated, Some p, Some (Obj ev)))
      | None => (s, Some (Added, None, Some (Obj ev)))
      end
  | Deleted =>
      match items s !! key with
      | None => (s, None)
      | Some p =>
          let s := deindexAllLocked s key p in
          (mkStore (delete key (items s)) (indexes s) (indexed s), Some (Deleted, Some p, None))
      end
  | Unknown n => (s, None)
  end.

(** ** The informer *)

(** Which callbacks a handler has, and the calls they get. *)
Record ResourceEventHandler := mkHandler { OnAdd : bool; OnUpdate : bool; OnDelete : bool }.

Inductive call := CAdd (o : Object) | CUpdate (old new : Object) | CDelete (o : Object).

(** [pending] is the notification [Run] has still to make, [resyncs] what every
    running [Resync] has still to deliver, and whether as adds. *)
Record Informer := mkInformer {
  store : Store; handlers : list (ResourceEventHandler * list call); synced : bool;
  pending : option (EventType * option Object * option Object); resyncs : list (bool * list Object) }.

Definition NewInformer : Informer := mkInformer NewStore [] false None [].

Definition AddEventHandler (inf : Informer) (h : ResourceEventHandler) : Informer :=
  mkInformer (store inf) (handlers inf ++ [(h, [])]) (synced inf) (pending inf) (resyncs inf).

Definition no_object : Object := mkObject EmptyString EmptyString EmptyString ∅.

Definition call_handler (effType : EventType) (old new : option Object) (h : ResourceEventHandler * list call) : ResourceEventHandler * list call :=
  match effType with
  | Added => if OnAdd h.1 then (h.1, h.2 ++ [CAdd (default no_object new)]) else h
  | Updated => if OnUpdate h.1 then (h.1, h.2 ++ [CUpdate (default no_object old) (default no_object new)]) else h
  | Deleted => if OnDelete h.1 then (h.1, h.2 ++ [CDelete (default no_object old)]) else h
  | Unknown _ => h
  end.

Definition dispatch (inf : Informer) (effType : EventType) (old new : option Object) : Informer :=
  mkInformer (store inf) (call_handler effType old new <$> handlers inf) (synced inf) (pending inf) (resyncs inf).

(** One round of [Run]: the change of the store, and the calls. *)
Definition run_apply (inf : Informer) (ev : Event) : Informer :=
  let '(s, fire) := apply (store inf) ev in mkInformer s (handlers inf) (synced inf) fire (resyncs inf).

Definition run_dispatch (inf : Informer) : Informer :=
  match pending inf with
  | None => inf
  | Some (t, old, new) =>
      let inf := dispatch inf t old new in mkInformer (store inf) (handlers inf) (synced inf) None (resyncs inf)
  end.

Definition markSynced (inf : Informer) : Informer := mkInformer (store inf) (handlers inf) true (pending inf) (resyncs inf).

(** [Run] when nothing comes between its steps: the list, then the events it
    takes before the watch ends or it is stopped. *)
Definition handle (inf : Informer) (ev : Event) : Informer := run_dispatch (run_apply inf ev).

Definition Run (inf : Informer) (listed : list Object) (taken : list Event) : Informer :=
  foldl handle (markSynced (foldl (fun (inf : Informer) (o : Object) => handle inf (mkEvent Added o)) inf listed)) taken.

(** [Resync] and [ResyncAsAdds]: a snapshot, and then one call after the other. *)
Definition resync_start (inf : Informer) (as_adds : bool) : Informer :=
  mkInformer (store inf) (handlers inf) (synced inf) (pending inf) (resyncs inf ++ [(as_adds, List (store inf))]).

Definition resync_call (inf : Informer) (as_adds : bool) (o : Object) : Informer :=
  if as_adds then dispatch inf Added None (Some o) else dispatch inf Updated (Some o) (Some o).

Definition resync_step (inf : Informer) (i : nat) : Informer :=
  match resyncs inf !! i with
  | Some (as_adds, o :: rest) =>
      let inf' := resync_call inf as_adds o in
      mkInformer (store inf') (handlers inf') (synced inf') (pending inf') (<[i := (as_adds, rest)]> (resyncs inf'))
  | _ => inf
  end.

Definition Resync (inf : Informer) : Informer * nat :=
  let current := List (store inf) in
  (foldl (fun (inf : Informer) (o : Object) => resync_call inf false o) inf current, length current).

Definition ResyncAsAdds (inf : Informer) : Informer * nat :=
  let current := List (store inf) in
  (foldl (fun (inf : Informer) (o : Object) => resync_call inf true o) inf current, length current).

(** ** Buckets *)

Lemma add_values key vs ix k v : k ∈ sget (foldl (bucket_add key) ix vs) v <-> k ∈ sget ix v \/ k = key /\ v ∈ vs.
Proof.
  revert ix. induction vs as [|x vs IH]; intros ix; simpl; [set_solver|]. rewrite IH. unfold bucket_add.
  destruct (decide (x = v)) as [->|Hne]; [rewrite sget_insert_eq; set_solver|]. rewrite sget_insert_ne by done. set_solver.
Qed.

Lemma remove_value key ix k v x : k ∈ sget (bucket_remove key ix x) v <-> k ∈ sget ix v /\ ~ (k = key /\ v = x).
Proof.
  unfold bucket_remove. destruct (ix !! x) as [b|] eqn:E.
  - case_decide as Hb.
    + unfold sget. destruct (decide (x = v)) as [->|Hne]; [rewrite lookup_delete_eq, E; simpl; set_solver|]. rewrite lookup_delete_ne by done. set_solver.
    + destruct (decide (x = v)) as [->|Hne]; [rewrite sget_insert_eq; unfold sget; rewrite E; simpl; set_solver|]. rewrite sget_insert_ne by done. set_solver.
  - split; [|tauto]. intros Hk. split; [done|]. intros [-> ->]. unfold sget in Hk. rewrite E in Hk. simpl in Hk. set_solver.
Qed.

Lemma remove_values key vs ix k v : k ∈ sget (foldl (bucket_remove key) ix vs) v <-> k ∈ sget ix v /\ ~ (k = key /\ v ∈ vs).
Proof.
  revert ix. induction vs as [|x vs IH]; intros ix; simpl; [set_solver|]. rewrite IH, remove_value. set_solver.
Qed.

Definition no_empty (ix : gmap string (gset string)) : Prop := forall v b, ix !! v = Some b -> b <> ∅.

Lemma add_values_no_empty key vs ix : no_empty ix -> no_empty (foldl (bucket_add key) ix vs).
Proof.
  revert ix. induction vs as [|x vs IH]; intros ix Hix; simpl; [done|]. apply IH. intros v b. unfold bucket_add. rewrite lookup_insert_Some.
  intros [[<- <-]|[_ Hv]]; [set_solver|by eapply Hix].
Qed.

Lemma remove_values_no_empty key vs ix : no_empty ix -> no_empty (foldl (bucket_remove key) ix vs).
Proof.
  revert ix. induction vs as [|x vs IH]; intros ix Hix; simpl; [done|]. apply IH. intros v b. unfold bucket_remove.
  destruct (ix !! x) as [b'|]; [|apply Hix]. case_decide; [rewrite lookup_delete_Some; intros [_ Hv]; by eapply Hix|].
  rewrite lookup_insert_Some. intros [[<- <-]|[_ Hv]]; [done|by eapply Hix].
Qed.

(** ** The indexes agree with the items *)

(** The index says of every key what the function says of the object stored there. *)
Definition index_exact (objs : gmap string Object) (fn : IndexFunc) (ix : gmap string (gset string)) : Prop :=
  no_empty ix /\ forall v k, k ∈ sget ix v <-> exists o, objs !! k = Some o /\ v ∈ fn o.

Record store_ok (s : Store) : Prop := {
  so_keys : forall k o, items s !! k = Some o -> Key o = k;
  so_index : forall name, match indexes s !! name with
    | Some fn => exists ix, indexed s !! name = Some ix /\ index_exact (items s) fn ix
    | None => indexed s !! name = None end }.

Lemma range_indexed (F : IndexFunc -> gmap string (gset string) -> gmap string (gset string)) s m :
  let s' := range_fold (fun s name fn => set_indexed s (alter (F fn) name (indexed s))) s m in
  items s' = items s /\ indexes s' = indexes s /\
  forall name, indexed s' !! name = match m !! name with Some fn => F fn <$> indexed s !! name | None => indexed s !! name end.
Proof.
  simpl. assert (range_fold (fun s name fn => set_indexed s (alter (F fn) name (indexed s))) s m =
    set_indexed s (range_fold (fun ix name fn => alter (F fn) name ix) (indexed s) m)) as ->.
  { unfold range_fold. generalize (map_to_list m) as l. intros l. revert s. induction l as [|[n fn] l IH]; intros s; simpl; [by destruct s|]. by rewrite IH. }
  split_and!; [done|done|]. intros name. simpl. apply (range_fold_slot _ (fun o fn => F fn <$> o)).
  intros out i v j. case_decide as E; [subst; apply lookup_alter_eq|by apply lookup_alter_ne].
Qed.

Lemma index_exact_add objs fn ix k o :
  index_exact objs fn ix -> objs !! k = None -> index_exact (<[k := o]> objs) fn (foldl (bucket_add k) ix (fn o)).
Proof.
  intros [Hne Hix] Hk. split; [by apply add_values_no_empty|]. intros v k'. rewrite add_values, Hix. destruct (decide (k' = k)) as [->|Hne'].
  - rewrite lookup_insert_eq, Hk. naive_solver.
  - rewrite lookup_insert_ne by done. naive_solver.
Qed.

Lemma index_exact_remove objs fn ix k o :
  index_exact objs fn ix -> objs !! k = Some o -> index_exact (delete k objs) fn (foldl (bucket_remove k) ix (fn o)).
Proof.
  intros [Hne Hix] Hk. split; [by apply remove_values_no_empty|]. intros v k'. rewrite remove_values, Hix. destruct (decide (k' = k)) as [->|Hne'].
  - rewrite lookup_delete_eq, Hk. naive_solver.
  - rewrite lookup_delete_ne by done. naive_solver.
Qed.

Lemma indexAll_ok s k o :
  store_ok s -> items s !! k = None -> Key o = k -> store_ok (indexAllLocked (mkStore (<[k := o]> (items s)) (indexes s) (indexed s)) k o).
Proof.
  intros [Hk Hi] Hn Ho. unfold indexAllLocked, addToIndexLocked. cbn [indexes].
  destruct (range_indexed (fun fn ix => foldl (bucket_add k) ix (fn o)) (mkStore (<[k := o]> (items s)) (indexes s) (indexed s)) (indexes s)) as (E1 & E2 & E3).
  simpl in E1, E2, E3. split.
  - rewrite E1. intros k' o'. rewrite lookup_insert_Some. intros [[<- <-]|[_ H]]; [done|by apply Hk].
  - intros name. rewrite E1, E2, E3. specialize (Hi name). destruct (indexes s !! name) as [fn|]; [|done].
    destruct Hi as (ix & -> & Hix). eexists. split; [reflexivity|]. by apply index_exact_add.
Qed.

Lemma deindexAll_ok s k o :
  store_ok s -> items s !! k = Some o ->
  store_ok (mkStore (delete k (items (deindexAllLocked s k o))) (indexes (deindexAllLocked s k o)) (indexed (deindexAllLocked s k o))).
Proof.
  intros [Hk Hi] Hn. unfold deindexAllLocked, removeFromIndexLocked.
  destruct (range_indexed (fun fn ix => foldl (bucket_remove k) ix (fn o)) s (indexes s)) as (E1 & E2 & E3). simpl in E1, E2, E3. rewrite E1, E2. split; simpl.
  - intros k' o' [_ H]%lookup_delete_Some. by apply Hk.
  - intros name. rewrite E3. specialize (Hi name). destruct (indexes s !! name) as [fn|]; [|done].
    destruct Hi as (ix & -> & Hix). eexists. split; [reflexivity|]. by apply index_exact_remove.
Qed.

Lemma AddIndexer_ok s name fn : store_ok s -> store_ok (AddIndexer s name fn).
Proof.
  intros [Hk Hi]. unfold AddIndexer, range_fold. set (s0 := mkStore (items s) (<[name := fn]> (indexes s)) (<[name := ∅]> (indexed s))).
  assert (forall l s1 ix, items s1 = items s -> indexes s1 = indexes s0 -> indexed s1 !! name = Some ix -> no_empty ix ->
    (forall n, n <> name -> indexed s1 !! n = indexed s0 !! n) ->
    let s2 := foldl (fun s kv => addToIndexLocked s name fn kv.1 kv.2) s1 l in
    items s2 = items s /\ indexes s2 = indexes s0 /\ (forall n, n <> name -> indexed s2 !! n = indexed s0 !! n) /\
    exists ix', indexed s2 !! name = Some ix' /\ no_empty ix' /\
      forall v k, k ∈ sget ix' v <-> k ∈ sget ix v \/ exists o, (k, o) ∈ l /\ v ∈ fn o) as Hl.
  { clear Hk Hi. induction l as [|[k o] l IH]; intros s1 ix E1 E2 E3 Hne E4; simpl.
    - split_and!; try done. exists ix. split_and!; try done. intros v k. set_solver.
    - destruct (IH (addToIndexLocked s1 name fn k o) (foldl (bucket_add k) ix (fn o))) as (F1 & F2 & F3 & ix' & F4 & F5 & F6); try done.
      + simpl. by rewrite lookup_alter_eq, E3.
      + by apply add_values_no_empty.
      + intros n Hn. simpl. rewrite lookup_alter_ne by done. by apply E4.
      + split_and!; try done. exists ix'. split_and!; try done. intros v k'. rewrite F6, add_values. set_solver. }
  destruct (Hl (map_to_list (items s)) s0 ∅) as (F1 & F2 & F3 & ix' & F4 & F5 & F6);
    [done|done|apply lookup_insert_eq|by intros v b ?%lookup_empty_Some|done|].
  split; [rewrite F1; exact Hk|]. intros n. rewrite F1, F2. unfold s0. simpl. destruct (decide (n = name)) as [->|Hn].
  - rewrite lookup_insert_eq. exists ix'. split; [done|]. split; [done|]. intros v k. rewrite F6, sget_empty. setoid_rewrite elem_of_map_to_list. set_solver.
  - rewrite lookup_insert_ne, F3 by done. unfold s0. simpl. rewrite lookup_insert_ne by done. apply Hi.
Qed.

Lemma NewStore_ok : store_ok NewStore.
Proof. split; [intros k o H; simpl in H; by rewrite lookup_empty in H|]. intros name. simpl. by rewrite !lookup_empty. Qed.

(** ** Applying an event *)

Lemma indexAll_items s k o : items (indexAllLocked s k o) = items s.
Proof. unfold indexAllLocked, addToIndexLocked. by destruct (range_indexed (fun fn ix => foldl (bucket_add k) ix (fn o)) s (indexes s)) as (-> & _ & _). Qed.

Lemma deindexAll_items s k o : items (deindexAllLocked s k o) = items s.
Proof. unfold deindexAllLocked, removeFromIndexLocked. by destruct (range_indexed (fun fn ix => foldl (bucket_remove k) ix (fn o)) s (indexes s)) as (-> & _ & _). Qed.

(** What an event does to the items. *)
Definition apply_items (m : gmap string Object) (ev : Event) : gmap string Object :=
  match Type_ ev with
  | Added | Updated => <[Key (Obj ev) := Obj ev]> m
  | Deleted => delete (Key (Obj ev)) m
  | Unknown _ => m
  end.

Lemma put_spec s k o :
  store_ok s -> Key o = k ->
  let s1 := match items s !! k with Some p => deindexAllLocked s k p | None => s end in
  let s2 := indexAllLocked (mkStore (<[k := o]> (items s1)) (indexes s1) (indexed s1)) k o in
  store_ok s2 /\ items s2 = <[k := o]> (items s).
Proof.
  intros Hs Hk s1 s2. split; [|unfold s2, s1; rewrite indexAll_items; simpl; destruct (items s !! k); by rewrite ?deindexAll_items].
  assert (store_ok (mkStore (delete k (items s1)) (indexes s1) (indexed s1))) as Hs1.
  { unfold s1. destruct (items s !! k) as [p|] eqn:E; [by apply deindexAll_ok|]. rewrite delete_id by done. by destruct s. }
  pose proof (indexAll_ok _ k o Hs1 (lookup_delete_eq _ _) Hk) as H. simpl in H. by rewrite insert_delete_eq in H.
Qed.

Lemma apply_spec s ev : store_ok s -> store_ok (apply s ev).1 /\ items (apply s ev).1 = apply_items (items s) ev.
Proof.
  intros Hs. pose proof (put_spec s (Key (Obj ev)) (Obj ev) Hs eq_refl) as Hput. simpl in Hput. unfold apply, apply_items.
  destruct (Type_ ev); [..|done].
  1,2: by destruct (items s !! Key (Obj ev)).
  destruct (items s !! Key (Obj ev)) as [p|] eqn:E; simpl; [split; [by apply deindexAll_ok|by rewrite deindexAll_items]|by rewrite delete_id].
Qed.

(** ** The answers of the store *)

Lemma keys_of (m : gmap string Object) k : k ∈ (map_to_list m).*1 <-> is_Some (m !! k).
Proof.
  rewrite list_elem_of_fmap. split; [intros ([k' o] & -> & H%elem_of_map_to_list); by eexists|].
  intros [o H]. exists (k, o). by rewrite elem_of_map_to_list.
Qed.

Lemma sort_strings_filter (P : string -> Prop) `{!forall x, Decision (P x)} l l' :
  NoDup l -> NoDup l' -> (forall x, x ∈ l' <-> x ∈ l /\ P x) -> sort_strings l' = filter P (sort_strings l).
Proof.
  intros Hl Hl' He. apply (StronglySorted_unique String.le); [apply sort_strings_sorted|apply StronglySorted_filter, sort_strings_sorted|].
  apply NoDup_Permutation; [by rewrite sort_strings_perm|apply NoDup_filter; by rewrite sort_strings_perm|].
  intros x. rewrite list_elem_of_filter, !sort_strings_perm, He. tauto.
Qed.

Definition object_in (m : gmap string Object) (fn : IndexFunc) (v k : string) : Prop :=
  match m !! k with Some o => v ∈ fn o | None => False end.

#[global] Instance object_in_dec m fn v k : Decision (object_in m fn v k).
Proof. unfold object_in. destruct (m !! k); apply _. Defined.

Lemma omap_filter_items (m : gmap string Object) fn v (l : list string) :
  omap (fun k => m !! k) (filter (object_in m fn v) l) = filter (fun o => v ∈ fn o) (omap (fun k => m !! k) l).
Proof.
  induction l as [|k l IH]; [done|]. rewrite filter_cons. cbn [omap list_omap]. destruct (decide (object_in m fn v k)) as [Hk|Hk]; unfold object_in in Hk.
  - cbn [omap list_omap]. destruct (m !! k) as [o|]; [|done]. rewrite filter_cons_True by done. f_equal. exact IH.
  - destruct (m !! k) as [o|]; [|exact IH]. rewrite filter_cons_False by done. exact IH.
Qed.

Lemma ByIndex_spec s name v :
  store_ok s -> ByIndex s name v = match indexes s !! name with Some fn => filter (fun o => v ∈ fn o) (List s) | None => [] end.
Proof.
  intros [_ Hi]. specialize (Hi name). unfold ByIndex, List. destruct (indexes s !! name) as [fn|]; [|by rewrite Hi].
  destruct Hi as (ix & -> & Hne & Hix). rewrite <- omap_filter_items. unfold sget in Hix. specialize (Hix v).
  assert (forall b : gset string, (forall k, k ∈ b <-> exists o, items s !! k = Some o /\ v ∈ fn o) ->
    omap (fun k => items s !! k) (sort_strings (elements b)) = omap (fun k => items s !! k) (filter (object_in (items s) fn v) (sort_strings (map_to_list (items s)).*1))) as Hb.
  { intros b Hb. f_equal. apply sort_strings_filter; [apply NoDup_fst_map_to_list|apply NoDup_elements|].
    intros k. rewrite elem_of_elements, Hb, keys_of. unfold object_in. destruct (items s !! k); naive_solver. }
  destruct (ix !! v) as [b|] eqn:Ev; simpl in Hix; [by apply Hb|].
  rewrite <- (Hb ∅) by done. by rewrite elements_empty.
Qed.

(** ** Steps of the informer and its callers *)

Inductive inf_step : Informer -> Informer -> Prop :=
  | is_indexer inf name fn :
      inf_step inf (mkInformer (AddIndexer (store inf) name fn) (handlers inf) (synced inf) (pending inf) (resyncs inf))
  | is_handler inf h : inf_step inf (AddEventHandler inf h)
  | is_apply inf ev : pending inf = None -> inf_step inf (run_apply inf ev)
  | is_dispatch inf : inf_step inf (run_dispatch inf)
  | is_synced inf : inf_step inf (markSynced inf)
  | is_resync inf b : inf_step inf (resync_start inf b)
  | is_resync_step inf i : inf_step inf (resync_step inf i).

Lemma resync_step_store inf i : store (resync_step inf i) = store inf /\ pending (resync_step inf i) = pending inf.
Proof. unfold resync_step. destruct (resyncs inf !! i) as [[b [|o rest]]|]; [done| |done]. unfold resync_call. by destruct b. Qed.

Lemma run_dispatch_store inf : store (run_dispatch inf) = store inf.
Proof. unfold run_dispatch. by destruct (pending inf) as [[[t old] new]|]. Qed.

Lemma run_apply_store inf ev : store (run_apply inf ev) = (apply (store inf) ev).1.
Proof. unfold run_apply. by destruct (apply (store inf) ev). Qed.

Lemma inf_step_ok inf inf' : inf_step inf inf' -> store_ok (store inf) -> store_ok (store inf').
Proof.
  intros Hs Hok. destruct Hs as [inf name fn|inf h|inf ev _|inf|inf|inf b|inf i]; try done.
  - by apply AddIndexer_ok.
  - rewrite run_apply_store. by apply apply_spec.
  - by rewrite run_dispatch_store.
  - by destruct (resync_step_store inf i) as [-> _].
Qed.

Lemma reachable_ok inf : rtc inf_step NewInformer inf -> store_ok (store inf).
Proof.
  intros Hr. assert (store_ok (store NewInformer)) as H0 by apply NewStore_ok. revert H0. induction Hr as [|i1 i2 i3 Hs _ IH]; [done|].
  intros H0. by apply IH, (inf_step_ok i1).
Qed.

(** The indexes are exact.  In every state that the informer, its handlers
    and its callers can reach, in whatever order they interleave: looking up a
    value in an index gives exactly the objects for which the function of the
    index returns that value, in the order of the list of all objects; an
    unknown index gives nothing; the list is the objects of the store, each
    once, in the order of their keys; and the next event changes the store as
    it says. *)
Theorem informer_index_exact (inf : Informer) :
  rtc inf_step NewInformer inf ->
  (forall name v, ByIndex (store inf) name v =
     match indexes (store inf) !! name with Some fn => filter (fun o => v ∈ fn o) (List (store inf)) | None => [] end) /\
  StronglySorted String.le (Key <$> List (store inf)) /\ NoDup (Key <$> List (store inf)) /\
  (forall o, o ∈ List (store inf) <-> GetByKey (store inf) (Key o) = Some o) /\
  (forall ev, items (apply (store inf) ev).1 = apply_items (items (store inf)) ev).
Proof.
  intros Hr. pose proof (reachable_ok inf Hr) as Hok. set (s := store inf) in *.
  assert (Key <$> List s = sort_strings (map_to_list (items s)).*1) as Hkeys.
  { unfold List. assert (forall k, k ∈ sort_strings (map_to_list (items s)).*1 -> is_Some (items s !! k)) as Hin by (intros k; rewrite sort_strings_perm; apply keys_of).
    revert Hin. induction (sort_strings (map_to_list (items s)).*1) as [|k l IH]; intros Hin; [done|]. cbn [omap list_omap].
    destruct (Hin k) as [o Ho]; [left|]. rewrite Ho. rewrite fmap_cons, (so_keys _ Hok _ _ Ho). f_equal. apply IH. intros k' Hk'. apply Hin. by right. }
  split_and!.
  - intros name v. by apply ByIndex_spec.
  - rewrite Hkeys. apply sort_strings_sorted.
  - rewrite Hkeys, sort_strings_perm. apply NoDup_fst_map_to_list.
  - intros o. unfold List, GetByKey. rewrite list_elem_of_omap. setoid_rewrite sort_strings_perm. setoid_rewrite keys_of. split.
    + intros (k & _ & Hk). by rewrite (so_keys _ Hok _ _ Hk).
    + intros Hk. exists (Key o). split; [by eexists|done].
  - intros ev. by apply apply_spec.
Qed.

(** ** What a handler sees *)

(** A handler that keeps its own copy of the store. *)
Definition mirror_call (m : gmap string Object) (c : call) : gmap string Object :=
  match c with
  | CAdd o => <[Key o := o]> m
  | CUpdate _ new => <[Key new := new]> m
  | CDelete o => delete (Key o) m
  end.

Definition mirror (log : list call) : gmap string Object := foldl mirror_call ∅ log.

(** A call fits the copy: an object is added when it is new, updated from and
    deleted with its current value. *)
Definition call_fits (m : gmap string Object) (c : call) : Prop :=
  match c with
  | CAdd o => m !! Key o = None
  | CUpdate old new => Key old = Key new /\ m !! Key old = Some old
  | CDelete o => m !! Key o = Some o
  end.

Fixpoint calls_fit (m : gmap string Object) (log : list call) : Prop :=
  match log with [] => True | c :: log => call_fits m c /\ calls_fit (mirror_call m c) log end.

(** Steps of [Run] and of callers that do not resync. *)
Inductive run_step : Informer -> Informer -> Prop :=
  | rs_indexer inf name fn :
      run_step inf (mkInformer (AddIndexer (store inf) name fn) (handlers inf) (synced inf) (pending inf) (resyncs inf))
  | rs_handler inf h : run_step inf (AddEventHandler inf h)
  | rs_apply inf ev : pending inf = None -> run_step inf (run_apply inf ev)
  | rs_dispatch inf : run_step inf (run_dispatch inf)
  | rs_synced inf : run_step inf (markSynced inf).

Definition complete (h : ResourceEventHandler) : Prop := OnAdd h = true /\ OnUpdate h = true /\ OnDelete h = true.

(** The calls still to come for a complete handler. *)
Definition pending_calls (p : option (EventType * option Object * option Object)) : list call :=
  match p with None => [] | Some (t, old, new) => (call_handler t old new (mkHandler true true true, [])).2 end.

Definition mirrors (n : nat) (inf : Informer) : Prop :=
  forall i h log, (i < n)%nat -> handlers inf !! i = Some (h, log) -> complete h ->
    calls_fit ∅ (log ++ pending_calls (pending inf)) /\ mirror (log ++ pending_calls (pending inf)) = items (store inf).

Lemma calls_fit_app m log log' : calls_fit m (log ++ log') <-> calls_fit m log /\ calls_fit (foldl mirror_call m log) log'.
Proof. revert m. induction log as [|c log IH]; intros m; simpl; [tauto|]. rewrite IH. tauto. Qed.

Lemma call_handler_complete t old new h log :
  complete h -> call_handler t old new (h, log) = (h, log ++ pending_calls (Some (t, old, new))).
Proof. intros (H1 & H2 & H3). unfold pending_calls, call_handler. simpl. rewrite H1, H2, H3. destruct t; simpl; rewrite ?app_nil_r; done. Qed.

Lemma AddIndexer_items s name fn : items (AddIndexer s name fn) = items s.
Proof.
  unfold AddIndexer, range_fold. assert (forall l s0, items (foldl (fun s kv => addToIndexLocked s name fn kv.1 kv.2) s0 l) = items s0) as H; [|by rewrite H].
  induction l as [|[k o] l IH]; intros s0; simpl; [done|]. by rewrite IH.
Qed.

(** An event changes the items as its notification says. *)
Lemma apply_notifies s ev :
  store_ok s -> calls_fit (items s) (pending_calls (apply s ev).2) /\ foldl mirror_call (items s) (pending_calls (apply s ev).2) = items (apply s ev).1.
Proof.
  intros Hs. destruct (apply_spec s ev Hs) as [_ ->]. unfold apply, apply_items. destruct (Type_ ev); [..|done].
  1,2: destruct (items s !! Key (Obj ev)) as [p|] eqn:E; simpl; [|done]; pose proof (so_keys _ Hs _ _ E) as Hk; rewrite Hk; done.
  destruct (items s !! Key (Obj ev)) as [p|] eqn:E; simpl; [|by rewrite delete_id]. pose proof (so_keys _ Hs _ _ E) as Hk. by rewrite Hk.
Qed.

Lemma run_step_mirrors n inf inf' :
  run_step inf inf' -> store_ok (store inf) -> (n <= length (handlers inf))%nat -> mirrors n inf ->
  store_ok (store inf') /\ (n <= length (handlers inf'))%nat /\ mirrors n inf'.
Proof.
  intros Hs Hok Hn Hm. destruct Hs as [inf name fn|inf h|inf ev Hp|inf|inf].
  - split; [by apply AddIndexer_ok|]. split; [done|]. intros i h log Hi Hl Hc. simpl. rewrite AddIndexer_items. by apply (Hm i h).
  - split; [done|]. split; [simpl; rewrite length_app; lia|]. intros i h' log Hi Hl. simpl in Hl. rewrite lookup_app_l in Hl by lia. by apply (Hm i h').
  - rewrite run_apply_store. split; [by apply apply_spec|]. unfold run_apply. pose proof (apply_notifies (store inf) ev Hok) as [Hf Hi'].
    destruct (apply (store inf) ev) as [s fire]. simpl in *. split; [done|]. intros i h log Hi Hl Hc. simpl. specialize (Hm i h log Hi Hl Hc).
    rewrite Hp in Hm. simpl in Hm. rewrite app_nil_r in Hm. destruct Hm as [Hm1 Hm2]. unfold mirror in *. rewrite calls_fit_app, foldl_app, Hm2. by split_and!.
  - rewrite run_dispatch_store. split; [done|]. unfold run_dispatch. destruct (pending inf) as [[[t old] new]|] eqn:Hp; [|done].
    split; [simpl; by rewrite length_fmap|]. intros i h log Hi Hl Hc. simpl in Hl |- *. rewrite list_lookup_fmap in Hl.
    destruct (handlers inf !! i) as [[h0 log0]|] eqn:E; [|done]. simpl in Hl. assert (h0 = h) as ->.
    { injection Hl as Hl. unfold call_handler in Hl. simpl in Hl. destruct t; [destruct (OnAdd h0)|destruct (OnUpdate h0)|destruct (OnDelete h0)|]; by injection Hl. }
    specialize (Hm i h log0 Hi E Hc). rewrite Hp in Hm. rewrite call_handler_complete in Hl by done. injection Hl as <-. by rewrite app_nil_r.
  - done.
Qed.

(** C25: A handler can rebuild the store.  Take handlers registered before
    [Run], and let [Run] go through any list and any events, with other
    handlers and indexers being added meanwhile, and nobody calling [Resync] or
    [ResyncAsAdds] ([resync_resurrects] shows why).  Whenever no notification is
    outstanding, each of the first handlers that has all three callbacks has
    been called so that, starting from nothing, every call fits the copy it
    keeps (an added object was absent, an updated or deleted one was there
    with the value reported as old), and its copy is the store. *)
Theorem informer_mirrors (hs : list ResourceEventHandler) (inf : Informer) :
  rtc run_step (foldl AddEventHandler NewInformer hs) inf -> pending inf = None ->
  forall i h log, (i < length hs)%nat -> handlers inf !! i = Some (h, log) -> complete h ->
    calls_fit ∅ log /\ mirror log = items (store inf).
Proof.
  intros Hr Hp i h log Hi Hl Hc.
  assert (store (foldl AddEventHandler NewInformer hs) = NewStore /\ pending (foldl AddEventHandler NewInformer hs) = None /\
    handlers (foldl AddEventHandler NewInformer hs) = (fun h => (h, [])) <$> hs) as (E1 & E2 & E3).
  { clear. induction hs as [|h hs IH] using rev_ind; [done|]. rewrite foldl_app, fmap_app. simpl. destruct IH as (-> & -> & ->). done. }
  assert (store_ok (store inf) /\ (length hs <= length (handlers inf))%nat /\ mirrors (length hs) inf) as (_ & _ & Hm).
  { assert (store_ok (store (foldl AddEventHandler NewInformer hs)) /\ (length hs <= length (handlers (foldl AddEventHandler NewInformer hs)))%nat /\
      mirrors (length hs) (foldl AddEventHandler NewInformer hs)) as H0.
    { rewrite E1, E3, length_fmap. split_and!; [apply NewStore_ok|done|]. intros j h' log' _ Hl' _. rewrite E3, list_lookup_fmap in Hl'. rewrite E1, E2.
      destruct (hs !! j); [|done]. injection Hl' as _ <-. done. }
    clear E1 E2 E3 Hp Hl. induction Hr as [|i1 i2 i3 Hs _ IH]; [done|]. apply IH. destruct H0 as (? & ? & ?). by eapply run_step_mirrors. }
  destruct (Hm i h log Hi Hl Hc) as [H1 H2]. rewrite Hp in H1, H2. simpl in H1, H2. by rewrite app_nil_r in H1, H2.
Qed.

(** ** Examples *)

Definition full : ResourceEventHandler := mkHandler true true true.
Definition pod (n v : string) : Object := mkObject "ns" n v ∅.
Definition by_value : IndexFunc := fun o => [Value o].

Definition demo_inf0 : Informer := AddEventHandler NewInformer full.
Definition demo_inf1 : Informer :=
  mkInformer (AddIndexer (store demo_inf0) "value" by_value) (handlers demo_inf0) (synced demo_inf0) (pending demo_inf0) (resyncs demo_inf0).
Definition demo_inf : Informer :=
  Run demo_inf1 [pod "a" "x"; pod "b" "x"] [mkEvent Updated (pod "a" "y"); mkEvent Deleted (pod "b" "x"); mkEvent Added (pod "c" "y")].

(** What [Run] does are steps. *)
Lemma handle_steps inf ev : pending inf = None -> rtc run_step inf (handle inf ev) /\ pending (handle inf ev) = None.
Proof.
  intros Hp. unfold handle. split; [eapply rtc_l; [by apply rs_apply|apply rtc_once, rs_dispatch]|].
  unfold run_dispatch. by destruct (pending (run_apply inf ev)) as [[[t old] new]|] eqn:E.
Qed.

Lemma Run_steps inf listed taken : pending inf = None -> rtc run_step inf (Run inf listed taken) /\ pending (Run inf listed taken) = None.
Proof.
  intros Hp. assert (forall evs inf, pending inf = None -> rtc run_step inf (foldl handle inf evs) /\ pending (foldl handle inf evs) = None) as Hevs.
  { clear. induction evs as [|ev evs IH]; intros inf Hp; simpl; [done|]. destruct (handle_steps inf ev Hp) as [H1 H2], (IH _ H2) as [H3 H4]. split; [by etrans|done]. }
  unfold Run. assert (foldl (fun (inf : Informer) (o : Object) => handle inf (mkEvent Added o)) inf listed = foldl handle inf (mkEvent Added <$> listed)) as ->
    by (clear; revert inf; induction listed as [|o l IH]; intros inf; [done|]; apply IH).
  destruct (Hevs (mkEvent Added <$> listed) inf Hp) as [H1 H2]. set (i1 := foldl handle inf (mkEvent Added <$> listed)) in *.
  destruct (Hevs taken (markSynced i1) H2) as [H3 H4]. split; [|done]. etrans; [exact H1|]. eapply rtc_l; [apply rs_synced|done].
Qed.

Lemma run_step_inf_step inf inf' : run_step inf inf' -> inf_step inf inf'.
Proof. destruct 1; by constructor. Qed.

Lemma demo_reachable : rtc run_step demo_inf0 demo_inf.
Proof. eapply rtc_l; [apply rs_indexer|]. apply Run_steps. reflexivity. Qed.

Lemma informer_index_exact_witness :
  ByIndex (store demo_inf) "value" "y" = [pod "a" "y"; pod "c" "y"] /\
  ByIndex (store demo_inf) "value" "y" =
    match indexes (store demo_inf) !! "value" with Some fn => filter (fun o => "y" ∈ fn o) (List (store demo_inf)) | None => [] end.
Proof.
  split; [vm_compute; reflexivity|]. refine (proj1 (informer_index_exact demo_inf _) "value" "y").
  eapply rtc_l; [apply is_handler|]. eapply rtc_subrel; [apply run_step_inf_step|exact demo_reachable].
Defined.

Lemma informer_mirrors_witness :
  exists log, handlers demo_inf !! 0 = Some (full, log) /\ calls_fit ∅ log /\ mirror log = items (store demo_inf).
Proof.
  exists [CAdd (pod "a" "x"); CAdd (pod "b" "x"); CUpdate (pod "a" "x") (pod "a" "y"); CDelete (pod "b" "x"); CAdd (pod "c" "y")].
  assert (handlers demo_inf !! 0 = Some (full, [CAdd (pod "a" "x"); CAdd (pod "b" "x"); CUpdate (pod "a" "x") (pod "a" "y"); CDelete (pod "b" "x"); CAdd (pod "c" "y")])) as E
    by (vm_compute; reflexivity).
  split; [exact E|]. refine (informer_mirrors [full] demo_inf demo_reachable _ 0 full _ _ E _).
  - vm_compute. reflexivity.
  - simpl. lia.
  - split_and!; reflexivity.
Defined.

(** A [Resync] that took its snapshot before an object was deleted reports the
    object to handlers after they were told of the deletion: a handler's copy
    keeps an object that the store no longer has. *)
Lemma resync_resurrects :
  let inf := handle demo_inf0 (mkEvent Added (pod "a" "x")) in
  let inf := resync_start inf false in
  let inf := handle inf (mkEvent Deleted (pod "a" "x")) in
  let inf := resync_step inf 0 in
  items (store inf) = ∅ /\ exists log, handlers inf = [(full, log)] /\ mirror log = {["ns/a" := pod "a" "x"]}.
Proof. vm_compute. split; [reflexivity|]. eexists. split; reflexivity. Qed.

(** Different objects may have one key. *)
Lemma Key_not_injective : Key (mkObject "a" "b/c" EmptyString ∅) = Key (mkObject "a/b" "c" EmptyString ∅).
Proof. reflexivity. Qed.
