(* ===== verification/TraceContext.v ===== *)
(** * W3C trace context (pkg/tracing/w3c.go)

    Parsing, printing and propagation of the [traceparent] and [tracestate]
    headers.  A Go string is the list of its bytes.  The random reader of
    [NewTraceParent] is the list of the blocks it returns, and reading past its
    end is the panic of the code.  An HTTP header is any type with [Set] and
    [Get]; the map carrier is the instance of the package.

    The theorems: [ParseTraceParent] accepts exactly the printed forms of valid
    values, with the trailing data that later versions may have; and what is
    injected into a carrier is what is extracted from it.
    [stale_tracestate] shows that the latter fails for a carrier that is used
    again with an empty state. *)
From stdpp Require Import base gmap sets list strings.
From Stdlib Require Import ZArith Lia.
From S2P Require Import Prelude.
Open Scope Z_scope.

Notation str := (list Z).

(** ** Hexadecimal digits *)

Definition dash : Z := 45.

Definition hexDigit (n : Z) : Z := if decide (n < 10) then 48 + n else 87 + n.

Definition hexByte (b : Z) : str := [hexDigit (Z.shiftr b 4); hexDigit (Z.land b 15)].

Definition hexVal (c : Z) : option Z :=
  if decide (48 <= c <= 57) then Some (c - 48) else if decide (97 <= c <= 102) then Some (c - 97 + 10) else None.

Definition parseHexByte (s : str) : option Z :=
  match s with
  | [a; b] => hi ← hexVal a; lo ← hexVal b; Some (Z.lor (u8 (Z.shiftl hi 4)) lo)
  | _ => None
  end.

Definition isLowerHex (s : str) : bool := bool_decide (s <> []) && forallb (fun c => bool_decide (is_Some (hexVal c))) s.

Definition isAllZeroHex (s : str) : bool := forallb (fun c => bool_decide (c = 48)) s.

(** ** traceparent *)

Record TraceParent := mkTraceParent { Version : Z; TraceID : str; ParentID : str; Flags : Z }.

Definition SampledFromFlags (flags : Z) : bool := bool_decide (Z.land flags 1 <> 0).

Definition Sampled (tp : TraceParent) : bool := SampledFromFlags (Flags tp).

Definition SetSampled (tp : TraceParent) (sampled : bool) : TraceParent :=
  mkTraceParent (Version tp) (TraceID tp) (ParentID tp) (if sampled then Z.lor (Flags tp) 1 else Z.ldiff (Flags tp) 1).

Definition tp_String (tp : TraceParent) : str :=
  hexByte (Version tp) ++ [dash] ++ TraceID tp ++ [dash] ++ ParentID tp ++ [dash] ++ hexByte (Flags tp).

(** [s[a:b]], in range. *)
Definition slice (s : str) (a b : nat) : str := take (b - a) (drop a s).

Definition ParseTraceParent (s : str) : option TraceParent :=
  if decide (length s < 55)%nat then None
  else if decide (s !! 2%nat <> Some dash \/ s !! 35%nat <> Some dash \/ s !! 52%nat <> Some dash) then None
  else
    let traceID := slice s 3 35 in
    let parentID := slice s 36 52 in
    version ← parseHexByte (slice s 0 2);
    if decide (version = 255) then None
    else if decide ((55 < length s)%nat /\ (version = 0 \/ s !! 55%nat <> Some dash)) then None
    else if decide (length traceID <> 32%nat) then None
    else if negb (isLowerHex traceID) || isAllZeroHex traceID then None
    else if decide (length parentID <> 16%nat) then None
    else if negb (isLowerHex parentID) || isAllZeroHex parentID then None
    else flags ← parseHexByte (slice s 53 55); Some (mkTraceParent version traceID parentID flags).

(** [draws] are the blocks that the random reader returns. *)
Fixpoint randomHex (n : nat) (draws : list str) : option (str * list str) :=
  match draws with
  | [] => None
  | b :: draws =>
      if decide (length b <> n) then None
      else if forallb (fun x => bool_decide (x = 0)) b then randomHex n draws
      else Some (mjoin (hexByte <$> b), draws)
  end.

Definition NewTraceParent (sampled : bool) (draws : list str) : option (TraceParent * list str) :=
  '(t, draws) ← randomHex 16 draws;
  '(p, draws) ← randomHex 8 draws;
  Some (SetSampled (mkTraceParent 0 t p 0) sampled, draws).

(** ** tracestate *)

Record TraceStateMember := mkMember { Key : str; Value : str }.

Notation TraceState := (list TraceStateMember).

Definition maxTraceStateMembers : nat := 32.

Definition lower_alnum (c : Z) : bool := bool_decide (97 <= c <= 122) || bool_decide (48 <= c <= 57).

(** The loop of [validTraceStateKey] from the second character on. *)
Fixpoint key_rest (atCount : Z) (k : str) : bool :=
  match k with
  | [] => true
  | c :: k =>
      if lower_alnum c || bool_decide (c = 95 \/ c = 45 \/ c = 42 \/ c = 47) then key_rest atCount k
      else if decide (c = 64) then (if decide (atCount + 1 > 1) then false else key_rest (atCount + 1) k)
      else false
  end.

Definition validTraceStateKey (k : str) : bool :=
  match k with
  | [] => false
  | c :: rest => if decide (256 < length k)%nat then false else lower_alnum c && key_rest 0 rest
  end.

Definition validTraceStateValue (v : str) : bool :=
  match last v with
  | None => false
  | Some z =>
      if decide (256 < length v)%nat then false
      else forallb (fun c => negb (bool_decide (c < 32 \/ c > 126 \/ c = 44 \/ c = 61))) v && negb (bool_decide (z = 32 \/ z = 9))
  end.

(** [strings.TrimSpace], [strings.Trim] of blanks and tabs, [strings.Split] at a
    comma and [strings.IndexByte], which splits at the first equals sign. *)
Definition TrimSpace (s : str) : str :=
  let s := trim_left id (length s) space_runes s in
  reverse (trim_left id (length s) (map reverse space_runes) (reverse s)).

Fixpoint trim_blanks (s : str) : str :=
  match s with
  | c :: s' => if decide (c = 32 \/ c = 9) then trim_blanks s' else s
  | [] => []
  end.

Definition Trim (s : str) : str := reverse (trim_blanks (reverse (trim_blanks s))).

Fixpoint Split (s : str) : list str :=
  match s with
  | [] => [[]]
  | c :: s => if decide (c = 44) then [] :: Split s else match Split s with p :: ps => (c :: p) :: ps | [] => [[c]] end
  end.

Fixpoint split_eq (s : str) : option (str * str) :=
  match s with
  | [] => None
  | c :: s => if decide (c = 61) then Some ([], s) else '(k, v) ← split_eq s; Some (c :: k, v)
  end.

Fixpoint parse_members (parts : list str) (seen : gset str) (members : TraceState) : option TraceState :=
  match parts with
  | [] => Some members
  | part :: parts =>
      let part := Trim part in
      if decide (part = []) then None
      else
        '(key, value) ← split_eq part;
        if negb (validTraceStateKey key) || negb (validTraceStateValue value) then None
        else if decide (key ∈ seen) then None
        else
          let members := members ++ [mkMember key value] in
          if decide (maxTraceStateMembers < length members)%nat then None
          else parse_members parts ({[key]} ∪ seen) members
  end.

Definition ParseTraceState (s : str) : option TraceState :=
  let s := TrimSpace s in
  if decide (s = []) then Some [] else parse_members (Split s) ∅ [].

(** A nil state is [None]. *)
Definition Len (ts : option TraceState) : nat := match ts with Some ms => length ms | None => 0 end.

Definition ts_Get (ts : option TraceState) (key : str) : str :=
  match ts with
  | None => []
  | Some ms => match filter (fun m => Key m = key) ms with m :: _ => Value m | [] => [] end
  end.

Definition Keys (ts : option TraceState) : list str := match ts with Some ms => Key <$> ms | None => [] end.

Definition Upsert (ts : option TraceState) (key value : str) : option TraceState :=
  match ts with
  | None => None
  | Some ms =>
      if negb (validTraceStateKey key) || negb (validTraceStateValue value) then Some ms
      else Some (take maxTraceStateMembers (mkMember key value :: filter (fun m => Key m <> key) ms))
  end.

Definition member_String (m : TraceStateMember) : str := Key m ++ [61] ++ Value m.

Fixpoint members_String (ms : TraceState) : str :=
  match ms with
  | [] => []
  | [m] => member_String m
  | m :: ms => member_String m ++ [44] ++ members_String ms
  end.

Definition ts_String (ts : option TraceState) : str := match ts with Some ms => members_String ms | None => [] end.

(** ** Propagation *)

Definition ascii_bytes (s : string) : str := map (fun c => Z.of_N (Ascii.N_of_ascii c)) (String.list_ascii_of_string s).
Definition h_traceparent : str := ascii_bytes "traceparent".
Definition h_tracestate : str := ascii_bytes "tracestate".

Inductive trace_error := ErrInvalidTraceParent | ErrTraceParentMissing.

(** A nil carrier is [None]. *)
Definition Inject (carrier : option (gmap str str)) (tp : TraceParent) (ts : option TraceState) : option (gmap str str) :=
  match carrier with
  | None => None
  | Some c =>
      let c := <[h_traceparent := tp_String tp]> c in
      Some (if decide (0 < Len ts)%nat then <[h_tracestate := ts_String ts]> c else c)
  end.

(** What [Extract] and [ExtractHTTP] do with the two values read. *)
Definition extract_values (raw state : str) : trace_error + TraceParent * TraceState :=
  if decide (raw = []) then inl ErrTraceParentMissing
  else match ParseTraceParent raw with
       | None => inl ErrInvalidTraceParent
       | Some tp => inr (tp, default [] (ParseTraceState state))
       end.

Definition Extract (carrier : option (gmap str str)) : trace_error + TraceParent * TraceState :=
  match carrier with
  | None => inl ErrTraceParentMissing
  | Some c =>
      match c !! h_traceparent with
      | None => inl ErrTraceParentMissing
      | Some raw => extract_values raw (default [] (c !! h_tracestate))
      end
  end.

Section http.
Context {H : Type} (Set_ : H -> str -> str -> H) (Get_ : H -> str -> str).

Definition InjectHTTP (h : option H) (tp : TraceParent) (ts : option TraceState) : option H :=
  match h with
  | None => None
  | Some h =>
      let h := Set_ h h_traceparent (tp_String tp) in
      Some (if decide (0 < Len ts)%nat then Set_ h h_tracestate (ts_String ts) else h)
  end.

Definition ExtractHTTP (h : option H) : trace_error + TraceParent * TraceState :=
  match h with
  | None => inl ErrTraceParentMissing
  | Some h => extract_values (Get_ h h_traceparent) (Get_ h h_tracestate)
  end.
End http.

(** ** Hexadecimal digits are read as they are written *)

Lemma parseHexByte_print b : is_u8 b -> parseHexByte (hexByte b) = Some b.
Proof.
  intros Hb. assert (Forall (fun b => parseHexByte (hexByte b) = Some b) (seqZ 0 256)) as H by by_eval.
  rewrite Forall_forall in H. apply H, elem_of_seqZ. unfold is_u8 in Hb. lia.
Qed.

Lemma hexVal_digit c n : hexVal c = Some n -> 0 <= n < 16 /\ c = hexDigit n.
Proof. unfold hexVal, hexDigit. repeat case_decide; intros [= <-]; lia. Qed.

Lemma parseHexByte_inv s b : parseHexByte s = Some b -> is_u8 b /\ s = hexByte b.
Proof.
  unfold parseHexByte. destruct s as [|x [|y [|]]]; try done. destruct (hexVal x) as [hi|] eqn:Ex; [|done]. destruct (hexVal y) as [lo|] eqn:Ey; [|done]. simpl.
  apply hexVal_digit in Ex as [Hhi ->], Ey as [Hlo ->]. intros [= <-].
  assert (Forall (fun hi => Forall (fun lo => 0 <= Z.lor (u8 (Z.shiftl hi 4)) lo < 256 /\ [hexDigit hi; hexDigit lo] = hexByte (Z.lor (u8 (Z.shiftl hi 4)) lo)) (seqZ 0 16)) (seqZ 0 16)) as H by by_eval.
  rewrite Forall_forall in H. specialize (H hi). rewrite Forall_forall in H. apply H; apply elem_of_seqZ; lia.
Qed.

(** ** traceparent *)

Definition valid_id (n : nat) (s : str) : Prop := length s = n /\ isLowerHex s = true /\ isAllZeroHex s = false.

Definition valid_tp (tp : TraceParent) : Prop :=
  0 <= Version tp < 255 /\ valid_id 32 (TraceID tp) /\ valid_id 16 (ParentID tp) /\ is_u8 (Flags tp).

Lemma slice_at (pre x post : str) a b : length pre = a -> length x = (b - a)%nat -> slice (pre ++ x ++ post) a b = x.
Proof. intros <- Hx. unfold slice. by rewrite drop_app_length, <- Hx, take_app_length. Qed.

Lemma at_dash (pre post : str) n : length pre = n -> (pre ++ dash :: post) !! n = Some dash.
Proof. intros <-. apply list_lookup_middle. done. Qed.

(** A header that is long enough and has its separators is its four fields. *)
Lemma header_fields (s : str) :
  (55 <= length s)%nat -> s !! 2%nat = Some dash -> s !! 35%nat = Some dash -> s !! 52%nat = Some dash ->
  s = slice s 0 2 ++ [dash] ++ slice s 3 35 ++ [dash] ++ slice s 36 52 ++ [dash] ++ slice s 53 55 ++ drop 55 s.
Proof.
  intros Hl H2 H35 H52. unfold slice. cbn [Nat.sub]. rewrite <- (take_drop 2 s) at 1. rewrite (drop_S _ _ _ H2).
  assert (forall n m, drop n s = take m (drop n s) ++ drop (n + m) s) as Hd by (intros n m; by rewrite <- drop_drop, take_drop).
  rewrite (Hd 3%nat 32%nat) at 1. cbn [Nat.add]. rewrite (drop_S _ _ _ H35). rewrite (Hd 36%nat 16%nat) at 1. cbn [Nat.add]. rewrite (drop_S _ _ _ H52).
  rewrite (Hd 53%nat 2%nat) at 1. done.
Qed.

Lemma hexByte_length b : length (hexByte b) = 2%nat.
Proof. done. Qed.

(** The fields of a header put together. *)
Lemma parse_fields (v t p f rest : str) :
  length v = 2%nat -> length t = 32%nat -> length p = 16%nat -> length f = 2%nat ->
  let s := v ++ [dash] ++ t ++ [dash] ++ p ++ [dash] ++ f ++ rest in
  (55 <= length s)%nat /\ s !! 2%nat = Some dash /\ s !! 35%nat = Some dash /\ s !! 52%nat = Some dash /\
  slice s 0 2 = v /\ slice s 3 35 = t /\ slice s 36 52 = p /\ slice s 53 55 = f /\ length s = (55 + length rest)%nat /\ s !! 55%nat = head rest.
Proof.
  intros Hv Ht Hp Hf s. assert (length s = (55 + length rest)%nat) as Hlen by (unfold s; rewrite !length_app; simpl; lia). split_and!; try lia.
  - unfold s. by apply at_dash.
  - unfold s. replace (v ++ [dash] ++ t ++ [dash] ++ p ++ [dash] ++ f ++ rest) with ((v ++ [dash] ++ t) ++ dash :: p ++ [dash] ++ f ++ rest) by (by rewrite <- !app_assoc).
    apply at_dash. rewrite !length_app. simpl. lia.
  - unfold s. replace (v ++ [dash] ++ t ++ [dash] ++ p ++ [dash] ++ f ++ rest) with ((v ++ [dash] ++ t ++ [dash] ++ p) ++ dash :: f ++ rest) by (by rewrite <- !app_assoc).
    apply at_dash. rewrite !length_app. simpl. lia.
  - apply (slice_at [] v); simpl; lia.
  - unfold s. rewrite (app_assoc v). apply slice_at; rewrite ?length_app; simpl; lia.
  - unfold s. replace (v ++ [dash] ++ t ++ [dash] ++ p ++ [dash] ++ f ++ rest) with ((v ++ [dash] ++ t ++ [dash]) ++ p ++ [dash] ++ f ++ rest) by (by rewrite <- !app_assoc).
    apply slice_at; rewrite ?length_app; simpl; lia.
  - unfold s. replace (v ++ [dash] ++ t ++ [dash] ++ p ++ [dash] ++ f ++ rest) with ((v ++ [dash] ++ t ++ [dash] ++ p ++ [dash]) ++ f ++ rest) by (by rewrite <- !app_assoc).
    apply slice_at; rewrite ?length_app; simpl; lia.
  - unfold s. replace (v ++ [dash] ++ t ++ [dash] ++ p ++ [dash] ++ f ++ rest) with ((v ++ [dash] ++ t ++ [dash] ++ p ++ [dash] ++ f) ++ rest) by (by rewrite <- !app_assoc).
    rewrite lookup_app_r; rewrite !length_app; simpl; [|lia]. replace (55 - _)%nat with 0%nat by lia. by destruct rest.
Qed.

Lemma tp_String_app tp rest :
  tp_String tp ++ rest = hexByte (Version tp) ++ [dash] ++ TraceID tp ++ [dash] ++ ParentID tp ++ [dash] ++ hexByte (Flags tp) ++ rest.
Proof. unfold tp_String. by rewrite <- !app_assoc. Qed.

(** The trailing data that a header may have. *)
Definition trailing_ok (version : Z) (rest : str) : Prop := rest = [] \/ version <> 0 /\ head rest = Some dash.

Lemma ParseTraceParent_spec s tp :
  ParseTraceParent s = Some tp <-> valid_tp tp /\ exists rest, s = tp_String tp ++ rest /\ trailing_ok (Version tp) rest.
Proof.
  split.
  - unfold ParseTraceParent. case_decide as Hl; [done|]. case_decide as Hd; [done|].
    assert (s !! 2%nat = Some dash /\ s !! 35%nat = Some dash /\ s !! 52%nat = Some dash) as (H2 & H35 & H52)
      by (split_and!; apply dec_stable; intros ?; apply Hd; tauto). clear Hd.
    destruct (parseHexByte (slice s 0 2)) as [v|] eqn:Ev; [|done]. simpl. case_decide as Hv; [done|]. case_decide as Ht; [done|]. case_decide as HT; [done|].
    destruct (negb (isLowerHex (slice s 3 35)) || isAllZeroHex (slice s 3 35)) eqn:E1; [done|]. case_decide as HP; [done|].
    destruct (negb (isLowerHex (slice s 36 52)) || isAllZeroHex (slice s 36 52)) eqn:E2; [done|].
    destruct (parseHexByte (slice s 53 55)) as [f|] eqn:Ef; [|done]. simpl. intros [= <-].
    apply orb_false_iff in E1 as [E1%negb_false_iff E1'], E2 as [E2%negb_false_iff E2'].
    apply parseHexByte_inv in Ev as [Hv8 Ev], Ef as [Hf8 Ef]. unfold is_u8 in Hv8. split.
    + split_and!; simpl; try lia; try done.
    + exists (drop 55 s). split.
      * pose proof (header_fields s ltac:(lia) H2 H35 H52) as Hs. rewrite Ev, Ef in Hs.
        change (s = tp_String (mkTraceParent v (slice s 3 35) (slice s 36 52) f) ++ drop 55 s). rewrite tp_String_app. exact Hs.
      * unfold trailing_ok. simpl. destruct (decide (55 < length s)%nat) as [Hlen|Hlen]; [|left; apply drop_ge; lia].
        right. assert (v <> 0 /\ s !! 55%nat = Some dash) as [? H55] by (split; [|apply dec_stable]; tauto). split; [done|]. by rewrite (drop_S _ _ _ H55).
  - destruct tp as [v t p f]. intros [(Hv & (Lt & Ht & Zt) & (Lp & Hp & Zp) & Hf) (rest & -> & Hr)]. rewrite tp_String_app.
    cbn [Version TraceID ParentID Flags] in *.
    destruct (parse_fields (hexByte v) t p (hexByte f) rest) as (Hl & H2 & H35 & H52 & S1 & S2 & S3 & S4 & Hlen & H55); try done.
    cbn zeta in *. set (s := hexByte v ++ _) in *. clearbody s.
    unfold is_u8 in Hf. unfold ParseTraceParent. rewrite decide_False by lia. rewrite decide_False by (rewrite H2, H35, H52; tauto).
    rewrite S1, S2, S3, S4, !parseHexByte_print by (unfold is_u8; lia). simpl. rewrite decide_False by lia.
    rewrite decide_False; [|rewrite Hlen, H55; destruct Hr as [->|[? ?]]; simpl; intros [? [?|?]]; done || lia].
    rewrite decide_False by lia. rewrite Ht, Zt. simpl. rewrite decide_False by lia. by rewrite Hp, Zp.
Qed.

(** ** New values are valid *)

Lemma hexByte_lower b : is_u8 b -> forallb (fun c => bool_decide (is_Some (hexVal c))) (hexByte b) = true /\ (isAllZeroHex (hexByte b) = true <-> b = 0).
Proof.
  intros Hb. assert (Forall (fun b => forallb (fun c => bool_decide (is_Some (hexVal c))) (hexByte b) = true /\ (isAllZeroHex (hexByte b) = true <-> b = 0)) (seqZ 0 256)) as H by by_eval.
  rewrite Forall_forall in H. apply H, elem_of_seqZ. unfold is_u8 in Hb. lia.
Qed.

Lemma hexBytes_valid (b : str) :
  b <> [] -> Forall is_u8 b -> forallb (fun x => bool_decide (x = 0)) b = false -> valid_id (2 * length b) (mjoin (hexByte <$> b)).
Proof.
  intros Hne Hb Hz. assert (length (mjoin (hexByte <$> b)) = (2 * length b)%nat /\ forallb (fun c => bool_decide (is_Some (hexVal c))) (mjoin (hexByte <$> b)) = true /\
    isAllZeroHex (mjoin (hexByte <$> b)) = forallb (fun x => bool_decide (x = 0)) b) as (H1 & H2 & H3).
  { clear Hne Hz. induction Hb as [|x b Hx _ (IH1 & IH2 & IH3)]; [done|]. rewrite fmap_cons.
    change (mjoin (hexByte x :: (hexByte <$> b))) with (hexByte x ++ mjoin (hexByte <$> b)). destruct (hexByte_lower x Hx) as [L Hz].
    rewrite length_app, IH1, forallb_app, L, IH2. unfold isAllZeroHex in *. rewrite forallb_app, IH3. split_and!; [simpl; lia|done|]. simpl forallb at 3.
    f_equal. apply eq_true_iff_eq. rewrite Hz, bool_decide_eq_true. done. }
  split_and!; [done| |by rewrite H3]. unfold isLowerHex. rewrite H2, andb_true_r. apply bool_decide_eq_true. intros E. rewrite E in H1. destruct b; [done|]. simpl in H1. lia.
Qed.

Lemma randomHex_valid n draws s rest :
  (0 < n)%nat -> Forall (Forall is_u8) draws -> randomHex n draws = Some (s, rest) -> valid_id (2 * n) s /\ Forall (Forall is_u8) rest.
Proof.
  intros Hn Hd. induction Hd as [|b draws Hb Hd IH]; [done|]. simpl. case_decide as Hl; [done|].
  destruct (forallb (fun x => bool_decide (x = 0)) b) eqn:E; [done|]. intros [= <- <-]. split; [|done]. rewrite <- Hl. apply hexBytes_valid; try done.
  intros ->. simpl in Hl. lia.
Qed.

Lemma SetSampled_valid tp b : valid_tp tp -> valid_tp (SetSampled tp b) /\ Sampled (SetSampled tp b) = b.
Proof.
  intros (Hv & Ht & Hp & Hf). assert (is_u8 (if b then Z.lor (Flags tp) 1 else Z.ldiff (Flags tp) 1) /\
    SampledFromFlags (if b then Z.lor (Flags tp) 1 else Z.ldiff (Flags tp) 1) = b) as [H1 H2]; [|split; [exact (conj Hv (conj Ht (conj Hp H1)))|exact H2]].
  assert (Forall (fun f => (0 <= Z.lor f 1 < 256 /\ SampledFromFlags (Z.lor f 1) = true) /\ 0 <= Z.ldiff f 1 < 256 /\ SampledFromFlags (Z.ldiff f 1) = false) (seqZ 0 256)) as H by by_eval.
  rewrite Forall_forall in H. destruct (H (Flags tp)) as [Ha Hb]; [apply elem_of_seqZ; unfold is_u8 in Hf; lia|]. by destruct b.
Qed.

Lemma NewTraceParent_valid sampled draws tp rest :
  Forall (Forall is_u8) draws -> NewTraceParent sampled draws = Some (tp, rest) -> valid_tp tp /\ Sampled tp = sampled.
Proof.
  intros Hd. unfold NewTraceParent. destruct (randomHex 16 draws) as [[t d1]|] eqn:E1; [|done]. simpl. destruct (randomHex 8 d1) as [[p d2]|] eqn:E2; [|done]. simpl.
  intros [= <- _]. apply randomHex_valid in E1 as [Ht Hd1]; [|lia|done]. apply randomHex_valid in E2 as [Hp _]; [|lia|done].
  apply SetSampled_valid. split_and!; simpl; [lia|lia|done..|]. unfold is_u8. lia.
Qed.

(** ** tracestate *)

Definition member_ok (m : TraceStateMember) : Prop := validTraceStateKey (Key m) = true /\ validTraceStateValue (Value m) = true.

Definition valid_ts (ms : TraceState) : Prop := Forall member_ok ms /\ NoDup (Key <$> ms) /\ (length ms <= maxTraceStateMembers)%nat.

(** Printable characters other than blank, comma and equals sign. *)
Definition graphic (c : Z) : Prop := 33 <= c <= 126 /\ c <> 44 /\ c <> 61.

Lemma lower_alnum_graphic c : lower_alnum c = true -> graphic c.
Proof. unfold lower_alnum, graphic. rewrite orb_true_iff, !bool_decide_eq_true. lia. Qed.

Lemma key_rest_graphic n k : key_rest n k = true -> Forall graphic k.
Proof.
  revert n. induction k as [|c k IH]; intros n; simpl; [done|]. destruct (lower_alnum c || bool_decide (c = 95 \/ c = 45 \/ c = 42 \/ c = 47)) eqn:E.
  - intros H%IH. constructor; [|done]. apply orb_true_iff in E as [E|E]; [by apply lower_alnum_graphic|]. apply bool_decide_eq_true in E. unfold graphic. lia.
  - destruct (decide (c = 64)) as [Hc|]; [|done]. destruct (decide (n + 1 > 1)); [done|]. intros H%IH. constructor; [|done]. unfold graphic. lia.
Qed.

Lemma key_facts k : validTraceStateKey k = true -> k <> [] /\ Forall graphic k.
Proof.
  unfold validTraceStateKey. destruct k as [|c k]; [done|]. case_decide; [done|]. rewrite andb_true_iff. intros [Hc%lower_alnum_graphic Hk%key_rest_graphic].
  split; [done|by constructor].
Qed.

Lemma value_facts v : validTraceStateValue v = true -> exists pre z, v = pre ++ [z] /\ graphic z /\ Forall (fun c => c <> 44 /\ c <> 61) v.
Proof.
  unfold validTraceStateValue. destruct (last v) as [z|] eqn:E; [|done]. case_decide; [done|]. rewrite andb_true_iff. intros [Hf Hz].
  apply last_Some in E as [pre ->]. exists pre, z. apply negb_true_iff, bool_decide_eq_false in Hz.
  assert (forall c, c ∈ pre ++ [z] -> 32 <= c <= 126 /\ c <> 44 /\ c <> 61) as Hc.
  { intros c Hc. rewrite forallb_forall in Hf. specialize (Hf c). rewrite <- list_elem_of_In in Hf. apply Hf in Hc. apply negb_true_iff, bool_decide_eq_false in Hc. lia. }
  split_and!; [done| |rewrite Forall_forall; intros c H'; by apply Hc]. specialize (Hc z). unfold graphic. rewrite elem_of_app, list_elem_of_singleton in Hc. lia.
Qed.

(** No white space begins, or ends, with a graphic character. *)
Definition not_graphic_head (r : list Z) : Prop := match r with c :: _ => c < 33 \/ 126 < c | [] => False end.
#[local] Instance not_graphic_head_dec r : Decision (not_graphic_head r).
Proof. destruct r; apply _. Defined.

Lemma trim_left_stop runes fuel c (s : str) : Forall not_graphic_head runes -> graphic c -> trim_left id fuel runes (c :: s) = c :: s.
Proof.
  intros Hr [Hc _]. destruct fuel as [|fuel]; [done|]. simpl. assert (strip_space id runes (c :: s) = None) as ->; [|done].
  unfold strip_space. assert (omap (fun r => if decide (take (length r) (map id (c :: s)) = r) then Some (drop (length r) (c :: s)) else None) runes = []) as ->; [|done].
  induction Hr as [|r runes Hr _ IH]; [done|]. cbn [omap list_omap]. destruct r as [|b r]; [done|]. simpl in Hr. rewrite decide_False; [exact IH|].
  simpl. unfold id. intros [= -> _]. lia.
Qed.

(** Text that begins and ends with a graphic character is not trimmed. *)
Definition tight (s : str) : Prop := exists c x pre z, s = c :: x /\ s = pre ++ [z] /\ graphic c /\ graphic z.

Lemma TrimSpace_tight s : tight s -> TrimSpace s = s.
Proof.
  intros (c & x & pre & z & E1 & E2 & Hc & Hz). unfold TrimSpace. cbn zeta.
  rewrite E1, trim_left_stop, <- E1 by (by_eval || done). rewrite E2, reverse_snoc.
  rewrite trim_left_stop by (by_eval || done). by rewrite reverse_cons, reverse_involutive.
Qed.

Lemma trim_blanks_stop c (s : str) : graphic c -> trim_blanks (c :: s) = c :: s.
Proof. intros [Hc _]. simpl. rewrite decide_False; [done|]. lia. Qed.

Lemma Trim_tight s : tight s -> Trim s = s.
Proof.
  intros (c & x & pre & z & E1 & E2 & Hc & Hz). unfold Trim. rewrite E1, trim_blanks_stop, <- E1 by done. rewrite E2, reverse_snoc. rewrite trim_blanks_stop by done. by rewrite reverse_cons, reverse_involutive.
Qed.

Lemma member_tight m : member_ok m -> tight (member_String m).
Proof.
  intros [(Hne & Hk)%key_facts (pre & z & Hv & Hz & _)%value_facts]. unfold member_String. destruct (Key m) as [|c k]; [done|].
  exists c, (k ++ [61] ++ Value m), ((c :: k) ++ [61] ++ pre), z. rewrite Hv. split_and!; [done|by rewrite <- !app_assoc| |done]. by inversion Hk.
Qed.

Lemma tight_app (s t u : str) : tight s -> tight t -> tight (s ++ u ++ t).
Proof.
  intros (c & x & _ & _ & -> & _ & Hc & _) (_ & _ & pre & z & _ & -> & _ & Hz). exists c, (x ++ u ++ pre ++ [z]), ((c :: x) ++ u ++ pre), z.
  split_and!; [done|by rewrite <- !app_assoc|done|done].
Qed.

Lemma members_tight ms : ms <> [] -> Forall member_ok ms -> tight (members_String ms).
Proof.
  intros Hne Hms. induction Hms as [|m ms Hm Hms IH]; [done|]. simpl. destruct ms as [|m' ms]; [by apply member_tight|].
  change (member_String m ++ 44 :: members_String (m' :: ms)) with (member_String m ++ [44] ++ members_String (m' :: ms)). apply tight_app; [by apply member_tight|by apply IH].
Qed.

Lemma Split_app (s t : str) : Forall (fun c => c <> 44) s -> Split (s ++ [44] ++ t) = s :: Split t.
Proof. induction 1 as [|c s Hc _ IH]; simpl; [done|]. rewrite decide_False by done. simpl in IH. by rewrite IH. Qed.

Lemma Split_last (s : str) : Forall (fun c => c <> 44) s -> Split s = [s].
Proof. induction 1 as [|c s Hc _ IH]; simpl; [done|]. rewrite decide_False by done. by rewrite IH. Qed.

Lemma member_no_comma m : member_ok m -> Forall (fun c => c <> 44) (member_String m).
Proof.
  intros [(_ & Hk)%key_facts (_ & _ & _ & _ & Hv)%value_facts]. unfold member_String. apply Forall_app. split; [eapply Forall_impl; [exact Hk|]; by intros c (_ & ? & _)|].
  apply Forall_app. split; [by constructor|]. eapply Forall_impl; [exact Hv|]. by intros c [? _].
Qed.

Lemma members_Split ms : ms <> [] -> Forall member_ok ms -> Split (members_String ms) = member_String <$> ms.
Proof.
  intros Hne Hms. induction Hms as [|m ms Hm Hms IH]; [done|]. simpl. destruct ms as [|m' ms]; [by apply Split_last, member_no_comma|].
  change (member_String m ++ 44 :: members_String (m' :: ms)) with (member_String m ++ [44] ++ members_String (m' :: ms)).
  rewrite Split_app by (by apply member_no_comma). f_equal. by apply IH.
Qed.

Lemma split_eq_member m : member_ok m -> split_eq (member_String m) = Some (Key m, Value m).
Proof.
  intros [(_ & Hk)%key_facts _]. unfold member_String. induction Hk as [|c k (_ & _ & Hc) _ IH]; simpl; [done|].
  rewrite decide_False by done. simpl in IH. by rewrite IH.
Qed.

Lemma parse_members_print ms : forall seen acc,
  Forall member_ok ms -> NoDup (Key <$> ms) -> (forall m, m ∈ ms -> Key m ∉ seen) -> (length acc + length ms <= maxTraceStateMembers)%nat ->
  parse_members (member_String <$> ms) seen acc = Some (acc ++ ms).
Proof.
  induction ms as [|m ms IH]; intros seen acc Hok Hnd Hs Hl; simpl; [by rewrite app_nil_r|].
  inversion Hok as [|? ? Hm Hok']; subst. rewrite fmap_cons in Hnd. apply NoDup_cons in Hnd as [Hn Hnd]. pose proof (member_tight m Hm) as Ht.
  rewrite (Trim_tight _ Ht), (split_eq_member m Hm). rewrite decide_False by (by destruct Ht as (? & ? & ? & ? & -> & _)). simpl.
  destruct Hm as [-> ->]. simpl. rewrite decide_False by (apply Hs; left). rewrite decide_False by (rewrite length_app; simpl in *; lia).
  rewrite IH; [by rewrite <- app_assoc; destruct m|done|done| |rewrite length_app; simpl in *; lia].
  intros m' Hm'. apply not_elem_of_union. split; [|apply Hs; by right]. rewrite not_elem_of_singleton. intros E. apply Hn. rewrite <- E. by apply list_elem_of_fmap_2.
Qed.

Lemma ParseTraceState_print ms : valid_ts ms -> ParseTraceState (members_String ms) = Some ms.
Proof.
  intros (Hok & Hnd & Hl). unfold ParseTraceState. destruct (decide (ms = [])) as [->|Hne]; [done|].
  pose proof (members_tight ms Hne Hok) as Ht. rewrite (TrimSpace_tight _ Ht). rewrite decide_False by (by destruct Ht as (? & ? & ? & ? & -> & _)).
  rewrite members_Split by done. rewrite (parse_members_print ms ∅ []); done.
Qed.

Lemma parse_members_valid parts : forall seen acc ms,
  valid_ts acc -> (forall k, k ∈ Key <$> acc -> k ∈ seen) -> parse_members parts seen acc = Some ms -> valid_ts ms.
Proof.
  induction parts as [|part parts IH]; intros seen acc ms Hv Hs; simpl; [by intros [= <-]|]. destruct (decide (Trim part = [])); [done|].
  destruct (split_eq (Trim part)) as [[k v]|]; [|done]. simpl. destruct (validTraceStateKey k) eqn:Ek; [|done]. destruct (validTraceStateValue v) eqn:Ev; [|done]. simpl.
  destruct (decide (k ∈ seen)) as [|Hk]; [done|]. destruct (decide (maxTraceStateMembers < length (acc ++ [mkMember k v]))%nat) as [|Hl]; [done|].
  apply IH.
  - destruct Hv as (H1 & H2 & H3). split_and!; [apply Forall_app; split; [done|by repeat constructor]| |lia].
    rewrite fmap_app. apply NoDup_app. split_and!; [done| |apply NoDup_singleton]. intros x Hx ->%list_elem_of_singleton. by apply Hk, Hs.
  - intros x. rewrite fmap_app, elem_of_app. intros [Hx| ->%list_elem_of_singleton]; apply elem_of_union; [right; by apply Hs|left; by apply elem_of_singleton].
Qed.

Lemma valid_ts_nil : valid_ts [].
Proof. split_and!; [constructor|constructor|simpl; unfold maxTraceStateMembers; lia]. Qed.

Lemma ParseTraceState_valid s ms : ParseTraceState s = Some ms -> valid_ts ms.
Proof.
  unfold ParseTraceState. case_decide; [intros [= <-]; apply valid_ts_nil|]. apply parse_members_valid; [apply valid_ts_nil|]. by intros k ?%elem_of_nil.
Qed.

Lemma Upsert_valid ms key value : valid_ts ms -> exists ms', Upsert (Some ms) key value = Some ms' /\ valid_ts ms' /\
  (member_ok (mkMember key value) -> ts_Get (Some ms') key = value /\ head (Keys (Some ms')) = Some key).
Proof.
  intros Hv. unfold Upsert. destruct (validTraceStateKey key) eqn:Ek; simpl; [|exists ms; split_and!; try done; by intros [? _]; simpl in *; congruence].
  destruct (validTraceStateValue value) eqn:Ev; simpl; [|exists ms; split_and!; try done; by intros [_ ?]; simpl in *; congruence].
  eexists. split; [reflexivity|]. destruct Hv as (H1 & H2 & H3). set (rest := take 31 (filter (fun m => Key m <> key) ms)).
  assert (rest `sublist_of` ms) as Hsub by (etrans; [apply sublist_take|apply sublist_filter]).
  assert (forall m, m ∈ rest -> Key m <> key) as Hne by (intros m Hm%subseteq_take; by apply list_elem_of_filter in Hm as [? _]).
  split; [split_and!|].
  - constructor; [done|]. rewrite Forall_forall in *. intros m Hm. apply H1. by apply subseteq_take, list_elem_of_filter in Hm as [_ Hm].
  - rewrite fmap_cons. apply NoDup_cons. split; [intros (m & E & Hm)%list_elem_of_fmap; by apply (Hne m)|].
    eapply sublist_NoDup; [exact H2|]. by apply fmap_sublist.
  - unfold rest, maxTraceStateMembers. simpl length. rewrite length_take. lia.
  - intros _. unfold ts_Get. rewrite filter_cons_True by done. done.
Qed.

(** ** Theorems *)

Lemma h_names_ne : h_traceparent <> h_tracestate.
Proof. by_eval. Qed.

Lemma tp_String_ne tp : tp_String tp <> [].
Proof. done. Qed.

Lemma extract_printed tp ms : valid_tp tp -> valid_ts ms -> extract_values (tp_String tp) (members_String ms) = inr (tp, ms).
Proof.
  intros Htp Hms. unfold extract_values. rewrite decide_False by apply tp_String_ne.
  assert (ParseTraceParent (tp_String tp) = Some tp) as ->.
  { apply ParseTraceParent_spec. split; [done|]. exists []. rewrite app_nil_r. split; [done|by left]. }
  by rewrite ParseTraceState_print.
Qed.

(** The traceparent parser is exact.  It accepts a header and returns a
    value exactly when the value is valid (version below 255, identifiers of
    32 and 16 lower-case hexadecimal digits that are not all zero, flags of a
    byte) and the header is its printed form, followed by nothing or, for
    versions other than 0, by data that begins with a dash. *)
Theorem traceparent_exact (s : list Z) (tp : TraceParent) :
  ParseTraceParent s = Some tp <->
  valid_tp tp /\ exists rest, s = tp_String tp ++ rest /\ trailing_ok (Version tp) rest.
Proof. apply ParseTraceParent_spec. Qed.

(** Propagation of a trace.  Extracting from a carrier what was injected
    into it gives back the trace parent and the trace state, from a map and
    from any header type whose [Get] returns what [Set] stored, provided the
    state is not empty or the carrier has no state yet.  Everything extracted
    is valid, new trace parents are valid and sampled as asked, and an update
    of a valid state is valid, has the new value and has its key in front: so
    a trace can be passed on any number of times. *)
Theorem tracecontext_propagates (tp : TraceParent) (ms : TraceState) :
  valid_tp tp -> valid_ts ms ->
  (forall c, (ms = [] -> c !! h_tracestate = None) -> Extract (Inject (Some c) tp (Some ms)) = inr (tp, ms)) /\
  (forall (H : Type) (Set_ : H -> list Z -> list Z -> H) (Get_ : H -> list Z -> list Z),
     (forall h k v, Get_ (Set_ h k v) k = v) -> (forall h k k' v, k <> k' -> Get_ (Set_ h k v) k' = Get_ h k') ->
     forall h, (ms = [] -> Get_ h h_tracestate = []) -> ExtractHTTP Get_ (InjectHTTP Set_ (Some h) tp (Some ms)) = inr (tp, ms)) /\
  (forall c tp' ms', Extract c = inr (tp', ms') -> valid_tp tp' /\ valid_ts ms') /\
  (forall sampled draws tp' rest, Forall (Forall is_u8) draws -> NewTraceParent sampled draws = Some (tp', rest) -> valid_tp tp' /\ Sampled tp' = sampled) /\
  (forall key value, exists ms', Upsert (Some ms) key value = Some ms' /\ valid_ts ms' /\
     (member_ok (mkMember key value) -> ts_Get (Some ms') key = value /\ head (Keys (Some ms')) = Some key)).
Proof.
  intros Htp Hms. pose proof h_names_ne as Hne. split_and!.
  - intros c Hc. unfold Inject, Extract. destruct ms as [|m ms].
    + rewrite decide_False by (simpl; lia). rewrite lookup_insert_eq, lookup_insert_ne, Hc by done. by apply (extract_printed tp []).
    + rewrite decide_True by (simpl; lia). rewrite lookup_insert_ne, !lookup_insert_eq by done. by apply (extract_printed tp (m :: ms)).
  - intros H Set_ Get_ Hsame Hother h Hh. unfold InjectHTTP, ExtractHTTP. destruct ms as [|m ms].
    + rewrite decide_False by (simpl; lia). rewrite Hsame, Hother, Hh by done. by apply (extract_printed tp []).
    + rewrite decide_True by (simpl; lia). rewrite Hother, !Hsame by done. by apply (extract_printed tp (m :: ms)).
  - intros [c|] tp' ms'; [|done]. unfold Extract, extract_values. destruct (c !! h_traceparent) as [raw|]; [|done]. case_decide; [done|].
    destruct (ParseTraceParent raw) as [tp0|] eqn:E; [|done]. intros [= <- <-]. split; [by apply ParseTraceParent_spec in E as [? _]|].
    destruct (ParseTraceState (default [] (c !! h_tracestate))) as [ms0|] eqn:E'; [by eapply ParseTraceState_valid|apply valid_ts_nil].
  - intros *. apply NewTraceParent_valid.
  - intros key value. by apply Upsert_valid.
Qed.

Definition demo_tp : TraceParent :=
  mkTraceParent 0 (ascii_bytes "4bf92f3577b34da6a3ce929d0e0e4736") (ascii_bytes "00f067aa0ba902b7") 1.
Definition demo_ts : TraceState := [mkMember (ascii_bytes "rojo") (ascii_bytes "00f0 67"); mkMember (ascii_bytes "a@b") (ascii_bytes "t61")].

Lemma demo_valid : valid_tp demo_tp /\ valid_ts demo_ts.
Proof.
  split; [split_and!; by_eval|]. split; [repeat constructor; by_eval|]. split; [by_eval|]. by_eval.
Qed.

Lemma tracecontext_propagates_witness :
  Extract (Inject (Some ∅) demo_tp (Some demo_ts)) = inr (demo_tp, demo_ts) /\
  tp_String demo_tp = ascii_bytes "00-4bf92f3577b34da6a3ce929d0e0e4736-00f067aa0ba902b7-01".
Proof.
  split; [|vm_compute; reflexivity].
  refine (proj1 (tracecontext_propagates demo_tp demo_ts (proj1 demo_valid) (proj2 demo_valid)) ∅ _). discriminate.
Defined.

(** A carrier that is used again keeps the old state when the new one is empty. *)
Lemma stale_tracestate :
  Extract (Inject (Inject (Some ∅) demo_tp (Some demo_ts)) demo_tp (Some [])) = inr (demo_tp, demo_ts).
Proof. vm_compute. reflexivity. Qed.
