(* ===== verification/SwimTopology.v ===== *)
(** * Hierarchical gossip topology (pkg/swim/hierarchical.go)

    A snapshot of the membership is divided into groups; the members of a group
    with the smallest hashes of their names are its delegates, and a member
    gossips to peers of its group and, if it is a delegate, to the delegates of
    the other groups.  The members are those of [SwimMember]; the ids of a
    snapshot are distinct, so that the sorts of the code, whose order is total
    on ids, have one result.  The hash is FNV-1a on 64 bits.

    The main theorem: when the fan-out covers the groups, every eligible member
    reaches every other in at most three hops, with a number of targets outside
    the own group that depends on the number of groups only.
    [small_fanout_isolates] shows a member that nobody ever gossips to when the
    fan-out is smaller. *)
From stdpp Require Import base gmap sets list strings sorting.
From Stdlib Require Import ZArith Lia.
From S2P Require Import Prelude SwimMember.
Open Scope Z_scope.

(** ** The program *)

Definition DefaultGroupKeyFn (m : Member) : string := default EmptyString (mb_Metadata m !! "zone").

Definition fnv_offset : Z := 14695981039346656037.
Definition fnv_prime : Z := 1099511628211.

Definition stableHash (s : string) : Z :=
  foldl (fun h c => u64 (Z.lxor h (Z.of_N (Ascii.N_of_ascii c)) * fnv_prime)) fnv_offset (String.list_ascii_of_string s).

Definition hash_lt (a b : Member) : bool :=
  let hi := stableHash (mb_ID a) in let hj := stableHash (mb_ID b) in
  if decide (hi <> hj) then bool_decide (hi < hj) else bool_decide (slt (mb_ID a) (mb_ID b)).

Definition id_lt (a b : Member) : bool := bool_decide (slt (mb_ID a) (mb_ID b)).

Record HierarchicalTopology := mkTopology {
  groups : gmap string (list string); delegates : gmap string (list Member); memberGroup : gmap string string;
  delegateSet : gset string; memberByID : gmap string Member; sortedGroupKeys : list string }.

(** The first loop of [NewHierarchicalTopology]. *)
Definition collect (groupKeyFn : Member -> string) (st : gmap string (list Member) * gmap string string * gmap string Member) (m : Member)
  : gmap string (list Member) * gmap string string * gmap string Member :=
  let '(groupMembers, mgroup, byID) := st in
  if decide (mb_State m = StateDead \/ mb_State m = StateLeft) then st
  else
    let key := groupKeyFn m in
    (<[key := default [] (groupMembers !! key) ++ [m]]> groupMembers, <[mb_ID m := key]> mgroup, <[mb_ID m := m]> byID).

(** The delegates of a group, in the order of their hashes. *)
Definition elect (delegatesPerGroup : Z) (alive : list Member) : list Member :=
  let k := if decide (delegatesPerGroup > Z.of_nat (length alive)) then Z.of_nat (length alive) else delegatesPerGroup in
  take (Z.to_nat k) (sort_SliceStable hash_lt alive).

Definition NewHierarchicalTopology (members : list Member) (groupKeyFn : option (Member -> string)) (delegatesPerGroup : Z) : HierarchicalTopology :=
  let groupKeyFn := default DefaultGroupKeyFn groupKeyFn in
  let delegatesPerGroup := if decide (delegatesPerGroup <= 0) then 1 else delegatesPerGroup in
  let '(groupMembers, mgroup, byID) := foldl (collect groupKeyFn) (∅, ∅, ∅) members in
  let sortedGroupKeys := sort_strings (map_to_list groupMembers).*1 in
  let '(delegates, delegateSet) :=
    foldl (fun st gk =>
             let elected := elect delegatesPerGroup (default [] (groupMembers !! gk)) in
             (<[gk := sort_SliceStable id_lt elected]> st.1, list_to_set (mb_ID <$> elected) ∪ st.2))
          (∅ : gmap string (list Member), ∅ : gset string) sortedGroupKeys in
  mkTopology ((fun ms => sort_strings (mb_ID <$> ms)) <$> groupMembers) delegates mgroup delegateSet byID sortedGroupKeys.

Definition Groups (ht : HierarchicalTopology) : list string := sortedGroupKeys ht.

Definition Delegates (ht : HierarchicalTopology) (group : string) : list Member := default [] (delegates ht !! group).

Definition IsDelegate (ht : HierarchicalTopology) (memberID : string) : bool := bool_decide (memberID ∈ delegateSet ht).

Definition GroupFor (ht : HierarchicalTopology) (memberID : string) : string := default EmptyString (memberGroup ht !! memberID).

(** The peers of the own group, in the order of their hashes. *)
Definition intraByHash (ht : HierarchicalTopology) (selfID : string) : list Member :=
  sort_SliceStable hash_lt
    (omap (fun id => if decide (id = selfID) then None else memberByID ht !! id) (default [] (groups ht !! GroupFor ht selfID))).

(** A member is added to the result unless its id was seen. *)
Definition add_unseen (st : gset string * list Member) (m : Member) : gset string * list Member :=
  if decide (mb_ID m ∈ st.1) then st else ({[mb_ID m]} ∪ st.1, st.2 ++ [m]).

Definition SelectGossipTargets (ht : HierarchicalTopology) (selfID : string) (intraFanout : Z) : list Member :=
  let peers := intraByHash ht selfID in
  let intra := if decide (intraFanout > 0)
               then take (Z.to_nat (if decide (intraFanout > Z.of_nat (length peers)) then Z.of_nat (length peers) else intraFanout)) peers
               else [] in
  if negb (IsDelegate ht selfID) then intra
  else
    let st := foldl add_unseen (∅, []) intra in
    let st := foldl (fun st gk =>
                if decide (gk = GroupFor ht selfID) then st
                else foldl (fun st d => if decide (mb_ID d = selfID) then st else add_unseen st d) st (Delegates ht gk))
              st (sortedGroupKeys ht) in
    sort_SliceStable id_lt st.2.

(** ** The snapshot *)

Definition eligible (m : Member) : Prop := ~ (mb_State m = StateDead \/ mb_State m = StateLeft).

Section topology.
Context (members : list Member) (groupKeyFn : option (Member -> string)) (delegatesPerGroup : Z).
Context (distinct : NoDup (mb_ID <$> members)).

Notation key := (default DefaultGroupKeyFn groupKeyFn).
Notation K := (if decide (delegatesPerGroup <= 0) then 1 else delegatesPerGroup).
Notation top := (NewHierarchicalTopology members groupKeyFn delegatesPerGroup).

Definition group (k : string) : list Member := filter (fun m => eligible m /\ key m = k) members.

Definition snapshot (m : Member) : Prop := m ∈ members /\ eligible m.

Lemma elem_of_group k m : m ∈ group k <-> snapshot m /\ key m = k.
Proof. unfold group, snapshot. rewrite list_elem_of_filter. tauto. Qed.

Lemma same_id m m' : m ∈ members -> m' ∈ members -> mb_ID m = mb_ID m' -> m = m'.
Proof.
  intros [i Hi]%list_elem_of_lookup [j Hj]%list_elem_of_lookup E. assert (i = j) as ->; [|congruence].
  eapply NoDup_lookup; [exact distinct|rewrite list_lookup_fmap, Hi; done|rewrite list_lookup_fmap, Hj; simpl; by rewrite E].
Qed.

Lemma NoDup_members : NoDup members.
Proof. eapply NoDup_fmap_1. exact distinct. Qed.

Lemma collect_spec :
  let '(gm, mg, bi) := foldl (collect key) (∅, ∅, ∅) members in
  (forall k, gm !! k = if decide (group k = []) then None else Some (group k)) /\
  (forall id k, mg !! id = Some k <-> exists m, snapshot m /\ mb_ID m = id /\ key m = k) /\
  (forall id m, bi !! id = Some m <-> snapshot m /\ mb_ID m = id).
Proof.
  unfold group, snapshot. revert distinct. induction members as [|m ms IH] using rev_ind; intros Hd.
  { simpl. split_and!; [done| |]; intros; rewrite lookup_empty; (split; [done|]).
    - by intros (m & [?%elem_of_nil _] & _).
    - by intros [[?%elem_of_nil _] _]. }
  rewrite fmap_app in Hd. apply NoDup_app in Hd as (Hd & Hnew & _). specialize (IH Hd). rewrite foldl_app. simpl.
  destruct (foldl (collect key) (∅, ∅, ∅) ms) as [[gm mg] bi]. destruct IH as (H1 & H2 & H3). unfold collect.
  assert (forall m', m' ∈ ms -> mb_ID m' <> mb_ID m) as Hne.
  { intros m' Hm' E. apply (Hnew (mb_ID m')); [by apply list_elem_of_fmap_2|]. rewrite E. by apply list_elem_of_singleton. }
  case_decide as He.
  - assert (forall k, filter (fun m => eligible m /\ key m = k) (ms ++ [m]) = filter (fun m => eligible m /\ key m = k) ms) as Hf.
    { intros k. rewrite filter_app. rewrite filter_cons_False, filter_nil, app_nil_r; [done|]. intros [Hel _]. by apply Hel. }
    assert (forall x, (x ∈ ms ++ [m] /\ eligible x) <-> (x ∈ ms /\ eligible x)) as Hs.
    { intros x. rewrite elem_of_app, list_elem_of_singleton. split; [|tauto]. intros [[?| ->] Hx]; [done|]. by destruct Hx. }
    split_and!; [intros k; by rewrite Hf|intros id k; rewrite H2; by setoid_rewrite Hs|intros id x; rewrite H3; by rewrite Hs].
  - assert (forall x, (x ∈ ms ++ [m] /\ eligible x) <-> (x ∈ ms /\ eligible x) \/ x = m) as Hs.
    { intros x. rewrite elem_of_app, list_elem_of_singleton. split; [intros [[?| ->] ?]; [by left|by right]|intros [[? ?]| ->]; [by split; [left|]|by split; [right|]]]. }
    split_and!.
    + intros k. rewrite filter_app. destruct (decide (key m = k)) as [<-|Hk].
      * rewrite lookup_insert_eq, filter_cons_True, filter_nil by done. rewrite decide_False by (by intros [_ ?]%app_eq_nil). rewrite H1. by case_decide as E; [rewrite E|].
      * rewrite lookup_insert_ne, filter_cons_False, filter_nil, app_nil_r by (done || by intros [_ ?]). apply H1.
    + intros id k. setoid_rewrite Hs. rewrite lookup_insert_Some, H2. split.
      * intros [[<- <-]|[Hid (m' & Hm' & E)]]; [exists m; by split; [right|]|exists m'; by split; [left|]].
      * intros (m' & [Hm'| ->] & <- & <-); [right|by left]. split; [intros E; by apply (Hne m' (proj1 Hm'))|by exists m'].
    + intros id x. rewrite Hs, lookup_insert_Some, H3. split.
      * intros [[<- <-]|[Hid [Hm' E]]]; [by split; [right|]|by split; [left|]].
      * intros [[Hm'| ->] <-]; [right|by left]. split; [intros E; by apply (Hne x (proj1 Hm'))|done].
Qed.

Lemma elect_sub k l m : m ∈ elect k l -> m ∈ l.
Proof. intros Hm%subseteq_take. by rewrite sort_stable_perm in Hm. Qed.

(** The loop that elects delegates. *)
Lemma elect_loop (f : string -> list Member) keys dm ds :
  NoDup keys ->
  let st := foldl (fun st gk => (<[gk := sort_SliceStable id_lt (f gk)]> st.1, list_to_set (mb_ID <$> f gk) ∪ st.2))
                  (dm : gmap string (list Member), ds : gset string) keys in
  (forall k, st.1 !! k = if decide (k ∈ keys) then Some (sort_SliceStable id_lt (f k)) else dm !! k) /\
  (forall id, id ∈ st.2 <-> id ∈ ds \/ exists k m, k ∈ keys /\ m ∈ f k /\ mb_ID m = id).
Proof.
  revert dm ds. induction keys as [|gk keys IH]; intros dm ds Hnd; simpl.
  { split; [done|]. intros id. split; [by left|]. intros [?|(k & m & ?%elem_of_nil & _)]; done. }
  apply NoDup_cons in Hnd as [Hn Hnd]. destruct (IH (<[gk := sort_SliceStable id_lt (f gk)]> dm) (list_to_set (mb_ID <$> f gk) ∪ ds) Hnd) as [H1 H2]. split.
  - intros k. rewrite H1. destruct (decide (k = gk)) as [->|Hne].
    + rewrite decide_False by done. rewrite decide_True by left. by rewrite lookup_insert_eq.
    + rewrite lookup_insert_ne by done. destruct (decide (k ∈ keys)) as [Hk|Hk]; [rewrite decide_True by (by right); done|].
      rewrite decide_False; [done|]. by intros [?|?]%elem_of_cons.
  - intros id. rewrite H2, elem_of_union, elem_of_list_to_set, list_elem_of_fmap. split.
    + intros [[(m & -> & Hm)|Hds]|(k & m & Hk & Hm & E)]; [right; exists gk, m; by split; [left|]|by left|right; exists k, m; by split; [right|]].
    + intros [Hds|(k & m & [->|Hk]%elem_of_cons & Hm & <-)]; [left; by right|left; left; by exists m|right; by exists k, m].
Qed.

Definition chosen (k : string) : list Member := elect K (group k).

Lemma top_spec :
  (forall k, k ∈ sortedGroupKeys top <-> group k <> []) /\ NoDup (sortedGroupKeys top) /\
  (forall k, groups top !! k = if decide (group k = []) then None else Some (sort_strings (mb_ID <$> group k))) /\
  (forall k, Delegates top k = if decide (group k = []) then [] else sort_SliceStable id_lt (chosen k)) /\
  (forall id, id ∈ delegateSet top <-> exists k m, m ∈ chosen k /\ mb_ID m = id) /\
  (forall id k, memberGroup top !! id = Some k <-> exists m, snapshot m /\ mb_ID m = id /\ key m = k) /\
  (forall id m, memberByID top !! id = Some m <-> snapshot m /\ mb_ID m = id).
Proof.
  unfold NewHierarchicalTopology, Delegates, chosen. pose proof collect_spec as Hc. destruct (foldl (collect key) (∅, ∅, ∅) members) as [[gm mg] bi].
  destruct Hc as (H1 & H2 & H3). set (keys := sort_strings (map_to_list gm).*1).
  assert (forall k, k ∈ keys <-> group k <> []) as Hkeys.
  { intros k. unfold keys. rewrite sort_strings_perm, list_elem_of_fmap. split.
    - intros ([k' l] & -> & Hk%elem_of_map_to_list). simpl. rewrite H1 in Hk. by case_decide.
    - intros Hne. exists (k, group k). split; [done|]. rewrite elem_of_map_to_list, H1. by rewrite decide_False. }
  assert (NoDup keys) as Hnd by (unfold keys; rewrite sort_strings_perm; apply NoDup_fst_map_to_list).
  assert (forall k, default [] (gm !! k) = group k) as Hg by (intros k; rewrite H1; by case_decide as E; [rewrite E|]).
  pose proof (elect_loop (fun gk => elect K (default [] (gm !! gk))) keys ∅ ∅ Hnd) as He. simpl in He.
  destruct (foldl _ _ keys) as [dm ds]. simpl in *. destruct He as [He1 He2]. split_and!; try done.
  - intros k. rewrite lookup_fmap, H1. by destruct (decide (group k = [])).
  - intros k. rewrite He1. destruct (decide (group k = [])) as [E|E].
    + rewrite decide_False by (rewrite Hkeys; tauto). by rewrite lookup_empty.
    + rewrite decide_True by (by rewrite Hkeys). simpl. by rewrite Hg.
  - intros id. rewrite He2. setoid_rewrite Hkeys. setoid_rewrite Hg. split.
    + intros [?%not_elem_of_empty|(k & m & _ & Hm & E)]; [done|]. by exists k, m.
    + intros (k & m & Hm & E). right. exists k, m. split_and!; try done. intros Eg. apply elect_sub in Hm. rewrite Eg in Hm. by apply elem_of_nil in Hm.
Qed.


(** Every group that has members has a delegate, and no more than [K]. *)
Lemma chosen_some k : group k <> [] -> exists m, m ∈ chosen k.
Proof.
  intros Hne. unfold chosen, elect. assert (length (sort_SliceStable hash_lt (group k)) = length (group k)) as Hl by (by rewrite sort_stable_perm).
  destruct (group k) as [|x l] eqn:E; [done|]. destruct (sort_SliceStable hash_lt (x :: l)) as [|y l'] eqn:Es; [simpl in Hl; lia|]. exists y.
  set (n := Z.to_nat _). assert (0 < n)%nat as Hn by (unfold n; simpl length; repeat case_decide; lia). destruct n; [lia|]. left.
Qed.

Lemma chosen_length k : Z.of_nat (length (chosen k)) <= K.
Proof. unfold chosen, elect. rewrite length_take. repeat case_decide; lia. Qed.

Lemma chosen_snapshot k m : m ∈ chosen k -> snapshot m /\ key m = k.
Proof. intros Hm%elect_sub. by apply elem_of_group. Qed.

Lemma GroupFor_snapshot a : snapshot a -> GroupFor top (mb_ID a) = key a.
Proof.
  intros Ha. destruct top_spec as (_ & _ & _ & _ & _ & Hg & _). unfold GroupFor.
  rewrite (proj2 (Hg (mb_ID a) (key a))); [done|]. by exists a.
Qed.

Lemma intra_spec a m : snapshot a -> m ∈ intraByHash top (mb_ID a) <-> snapshot m /\ key m = key a /\ mb_ID m <> mb_ID a.
Proof.
  intros Ha. unfold intraByHash. rewrite sort_stable_perm, list_elem_of_omap, (GroupFor_snapshot a Ha). destruct top_spec as (_ & _ & Hgr & _ & _ & _ & Hid).
  rewrite Hgr. rewrite decide_False by (intros E; by apply (elem_of_nil a); rewrite <- E; apply elem_of_group). simpl.
  setoid_rewrite sort_strings_perm. setoid_rewrite list_elem_of_fmap. split.
  - intros (id & (m' & -> & Hm') & Hm). case_decide; [done|]. apply Hid in Hm as [Hm E]. apply elem_of_group in Hm' as [Hm' Ek].
    assert (m = m') as <- by (apply same_id; [apply Hm|apply Hm'|done]). done.
  - intros (Hm & Ek & Hne). exists (mb_ID m). split; [exists m; split; [done|]; by apply elem_of_group|]. rewrite decide_False by done. by apply Hid.
Qed.

Lemma omap_ids (f : string -> option Member) ids :
  (forall id m, f id = Some m -> mb_ID m = id) -> mb_ID <$> omap f ids `sublist_of` ids.
Proof.
  intros Hf. induction ids as [|id ids IH]; [done|]. cbn [omap list_omap]. destruct (f id) as [m|] eqn:E; [|by constructor].
  rewrite fmap_cons, (Hf _ _ E). by constructor.
Qed.

Lemma intra_NoDup a : snapshot a -> NoDup (mb_ID <$> intraByHash top (mb_ID a)).
Proof.
  intros Ha. unfold intraByHash. rewrite sort_stable_perm, (GroupFor_snapshot a Ha). destruct top_spec as (_ & _ & Hgr & _ & _ & _ & Hid).
  eapply sublist_NoDup; [|apply omap_ids; intros id m; case_decide; [done|]; intros Hm%Hid; apply Hm]. rewrite Hgr. case_decide; simpl; [constructor|].
  rewrite sort_strings_perm. unfold group. eapply sublist_NoDup; [exact distinct|]. apply fmap_sublist, sublist_filter.
Qed.

Lemma intra_length a : snapshot a -> (length (intraByHash top (mb_ID a)) < length (group (key a)))%nat.
Proof.
  intros Ha. assert (a ∈ group (key a)) as Hin by (by apply elem_of_group).
  assert (a :: intraByHash top (mb_ID a) ⊆+ group (key a)) as Hsub%submseteq_length; [|simpl in Hsub; lia].
  apply NoDup_submseteq.
  - apply NoDup_cons. split; [rewrite intra_spec by done; by intros (_ & _ & ?)|]. by eapply NoDup_fmap_1, intra_NoDup.
  - intros x [->|Hx]%elem_of_cons; [done|]. rewrite intra_spec in Hx by done. apply elem_of_group. tauto.
Qed.

(** The loops that merge the targets keep one member for each id. *)
Lemma add_unseen_fold l st :
  st.1 = list_to_set (mb_ID <$> st.2) -> NoDup (mb_ID <$> st.2) ->
  let st' := foldl add_unseen st l in
  NoDup (mb_ID <$> st'.2) /\ (forall m, m ∈ st'.2 -> m ∈ st.2 \/ m ∈ l) /\
  (forall m, m ∈ st.2 \/ m ∈ l -> exists m', m' ∈ st'.2 /\ mb_ID m' = mb_ID m).
Proof.
  revert st. induction l as [|x l IH]; intros st Hseen Hnd; simpl.
  { split_and!; [done|by left|]. intros m [Hm|?%elem_of_nil]; [by exists m|done]. }
  assert (forall id, id ∈ st.1 <-> exists m, id = mb_ID m /\ m ∈ st.2) as Hin by (intros id; by rewrite Hseen, elem_of_list_to_set, list_elem_of_fmap).
  unfold add_unseen at 2 4 6. destruct (decide (mb_ID x ∈ st.1)) as [Hx|Hx].
  - destruct (IH st Hseen Hnd) as (H1 & H2 & H3). split_and!; [done|intros m [?|?]%H2; [by left|right; by right]|].
    intros m [Hm|[->|Hm]%elem_of_cons]; [apply H3; by left| |apply H3; by right].
    apply Hin in Hx as (m' & -> & Hm'). apply H3. by left.
  - destruct (IH ({[mb_ID x]} ∪ st.1, st.2 ++ [x])) as (H1 & H2 & H3); simpl.
    { rewrite Hseen, fmap_app, list_to_set_app_L, union_comm_L. f_equal. simpl. by rewrite union_empty_r_L. }
    { rewrite fmap_app. apply NoDup_app. split_and!; [done| |apply NoDup_singleton]. intros id Hid ->%list_elem_of_singleton. apply Hx. rewrite Hseen. by apply elem_of_list_to_set. }
    simpl in *. split_and!; [done| |].
    + intros m [[?| ->%list_elem_of_singleton]%elem_of_app|?]%H2; [by left|right; left|right; by right].
    + intros m Hm. apply H3. rewrite elem_of_app, list_elem_of_singleton. rewrite elem_of_cons in Hm. tauto.
Qed.

Lemma foldl_skip {A B} (P : B -> Prop) `{forall b, Decision (P b)} (f : A -> B -> A) l st :
  foldl (fun st b => if decide (P b) then st else f st b) st l = foldl f st (filter (fun b => ~ P b) l).
Proof.
  revert st. induction l as [|b l IH]; intros st; [done|]. simpl. rewrite filter_cons.
  destruct (decide (P b)) as [Hb|Hb]; [rewrite decide_False by tauto|rewrite decide_True by done]; apply IH.
Qed.

Lemma foldl_nested {A B C} (f : A -> B -> A) (g : C -> list B) (h : A -> C -> A) l st :
  (forall st c, h st c = foldl f st (g c)) -> foldl h st l = foldl f st (l ≫= g).
Proof. intros Hh. revert st. induction l as [|c l IH]; intros st; [done|]. simpl. by rewrite IH, Hh, <- foldl_app. Qed.

(** The peers of the own group a member gossips to. *)
Definition intra (fanout : Z) (a : Member) : list Member := take (Z.to_nat fanout) (intraByHash top (mb_ID a)).

(** The delegates of the other groups. *)
Definition wan (a : Member) : list Member :=
  filter (fun gk => gk <> key a) (sortedGroupKeys top) ≫= fun gk => filter (fun d => mb_ID d <> mb_ID a) (Delegates top gk).

Lemma targets_eq fanout a :
  snapshot a ->
  SelectGossipTargets top (mb_ID a) fanout =
  if decide (mb_ID a ∈ delegateSet top) then sort_SliceStable id_lt (foldl add_unseen (∅, []) (intra fanout a ++ wan a)).2 else intra fanout a.
Proof.
  intros Ha. unfold SelectGossipTargets, IsDelegate, intra, wan. rewrite (GroupFor_snapshot a Ha). set (peers := intraByHash top (mb_ID a)).
  assert ((if decide (fanout > 0)
           then take (Z.to_nat (if decide (fanout > Z.of_nat (length peers)) then Z.of_nat (length peers) else fanout)) peers
           else []) = take (Z.to_nat fanout) peers) as ->.
  { repeat case_decide; [by rewrite !take_ge by lia|done|]. by replace (Z.to_nat fanout) with 0%nat by lia. }
  destruct (decide (mb_ID a ∈ delegateSet top)) as [Hd|Hd]; [rewrite bool_decide_true by done|by rewrite bool_decide_false by done]. simpl.
  f_equal. f_equal. rewrite foldl_app, foldl_skip. apply foldl_nested. intros st gk. apply foldl_skip.
Qed.

Lemma elem_of_wan a m : m ∈ wan a <-> key m <> key a /\ m ∈ chosen (key m) /\ mb_ID m <> mb_ID a.
Proof.
  destruct top_spec as (Hk & _ & _ & Hde & _). unfold wan. rewrite list_elem_of_bind. setoid_rewrite list_elem_of_filter. setoid_rewrite Hk. setoid_rewrite Hde. split.
  - intros (k & [Hid Hm] & Hne & Hg). rewrite decide_False, sort_stable_perm in Hm by done. pose proof (chosen_snapshot k m Hm) as [_ <-]. done.
  - intros (Hne & Hm & Hid). exists (key m). pose proof (elect_sub _ _ _ Hm) as Hg. assert (group (key m) <> []) as Hg' by (intros E; rewrite E in Hg; by apply elem_of_nil in Hg).
    by rewrite decide_False, sort_stable_perm.
Qed.

(** The targets of a member, as a set. *)
Lemma targets_spec fanout a :
  snapshot a ->
  NoDup (mb_ID <$> SelectGossipTargets top (mb_ID a) fanout) /\
  forall m, m ∈ SelectGossipTargets top (mb_ID a) fanout <-> m ∈ intra fanout a \/ (a ∈ chosen (key a) /\ m ∈ wan a).
Proof.
  intros Ha. rewrite (targets_eq fanout a Ha). assert (mb_ID a ∈ delegateSet top <-> a ∈ chosen (key a)) as Hdel.
  { destruct top_spec as (_ & _ & _ & _ & -> & _). split; [|by exists (key a), a]. intros (k & m & Hm & E).
    pose proof (chosen_snapshot k m Hm) as [Hs <-]. assert (m = a) as -> by (apply same_id; [apply Hs|apply Ha|done]). done. }
  assert (forall m, m ∈ intra fanout a ++ wan a -> snapshot m) as Hsn.
  { intros m [Hm%subseteq_take|Hm]%elem_of_app; [rewrite intra_spec in Hm by done; apply Hm|]. apply elem_of_wan in Hm as (_ & Hm & _). by apply chosen_snapshot in Hm as [? _]. }
  destruct (decide (mb_ID a ∈ delegateSet top)) as [Hd|Hd].
  - destruct (add_unseen_fold (intra fanout a ++ wan a) (∅, [])) as (H1 & H2 & H3); [done|constructor|]. cbn [snd] in *.
    split; [by rewrite sort_stable_perm|]. intros m. rewrite sort_stable_perm. split.
    + intros [?%elem_of_nil|[?|?]%elem_of_app]%H2; [done|by left|right; split; [by apply Hdel|done]].
    + intros Hm. assert (m ∈ intra fanout a ++ wan a) as Hin by (rewrite elem_of_app; tauto).
      destruct (H3 m (or_intror Hin)) as (m' & Hm' & E). assert (m' = m) as <-; [|done].
      apply H2 in Hm' as Hm2. destruct Hm2 as [?%elem_of_nil|Hm2]; [done|]. apply same_id; [apply (Hsn _ Hm2)|apply (Hsn _ Hin)|done].
  - split; [|intros m; rewrite Hdel in Hd; tauto]. unfold intra. rewrite fmap_take. eapply sublist_NoDup; [by apply intra_NoDup|apply sublist_take].
Qed.

Lemma length_bind_le {A B} (g : A -> list B) n l :
  (forall x, Z.of_nat (length (g x)) <= n) -> Z.of_nat (length (l ≫= g)) <= n * Z.of_nat (length l).
Proof.
  intros Hg. induction l as [|x l IH]; [simpl; lia|]. change ((x :: l) ≫= g) with (g x ++ (l ≫= g)). rewrite length_app. specialize (Hg x). simpl length. nia.
Qed.

Lemma wan_length a : snapshot a -> Z.of_nat (length (wan a)) <= K * (Z.of_nat (length (Groups top)) - 1).
Proof.
  intros Ha. destruct top_spec as (Hk & _ & _ & Hde & _). unfold wan, Groups.
  assert (length (filter (fun gk => gk <> key a) (sortedGroupKeys top)) < length (sortedGroupKeys top))%nat as Hl.
  { eapply (length_filter_lt _ _ (key a)); [|tauto]. apply Hk. intros E. by apply (elem_of_nil a); rewrite <- E; apply elem_of_group. }
  etrans; [apply (length_bind_le _ K)|].
  - intros gk. etrans; [apply inj_le, length_filter|]. rewrite Hde. pose proof (chosen_length gk).
    destruct (decide (group gk = [])); [simpl; case_decide; lia|]. by rewrite sort_stable_perm.
  - assert (0 < K) by (case_decide; lia). nia.
Qed.

Definition hop (fanout : Z) (a b : Member) : Prop := b ∈ SelectGossipTargets top (mb_ID a) fanout.

Lemma hop_group fanout a b :
  (forall k, Z.of_nat (length (group k)) <= fanout + 1) -> snapshot a -> snapshot b -> key a = key b -> bsteps (hop fanout) 1 a b.
Proof.
  intros Hf Ha Hb E. destruct (decide (mb_ID a = mb_ID b)) as [Ei|Ei].
  { assert (a = b) as -> by (apply same_id; [apply Ha|apply Hb|done]). apply bsteps_refl. }
  apply bsteps_once. unfold hop. apply targets_spec; [done|]. left. unfold intra. rewrite take_ge; [by apply intra_spec|].
  pose proof (intra_length a Ha). specialize (Hf (key a)). lia.
Qed.

Lemma hop_wan fanout a b :
  snapshot a -> key a <> key b -> a ∈ chosen (key a) -> b ∈ chosen (key b) -> bsteps (hop fanout) 1 a b.
Proof.
  intros Ha Hne Hca Hcb. apply bsteps_once, targets_spec; [done|]. right. split; [done|]. apply elem_of_wan. split_and!; [done|done|].
  intros E. apply Hne. apply chosen_snapshot in Hcb as [Hb _]. by assert (b = a) as -> by (apply same_id; [apply Hb|apply Ha|done]).
Qed.

(** The bound of the fan-out, on the groups the topology exposes. *)
Lemma groups_length k : length (default [] (groups top !! k)) = length (group k).
Proof.
  destruct top_spec as (_ & _ & -> & _). destruct (decide (group k = [])) as [E|]; simpl; [by rewrite E|].
  by rewrite sort_strings_perm, length_fmap.
Qed.

Lemma snapshot_iff m : snapshot m <-> m ∈ members /\ mb_State m <> StateDead /\ mb_State m <> StateLeft.
Proof. unfold snapshot, eligible. tauto. Qed.

Lemma target_spec fanout a m :
  snapshot a -> m ∈ SelectGossipTargets top (mb_ID a) fanout ->
  snapshot m /\ m <> a /\ (key m <> key a -> IsDelegate top (mb_ID a) = true /\ m ∈ Delegates top (key m) /\ m ∈ wan a).
Proof.
  intros Ha Hm. apply (proj2 (targets_spec fanout a Ha)) in Hm as [Hm|[Hc Hw]].
  - apply subseteq_take, intra_spec in Hm as (Hs & E & Hne); [|done]. split_and!; [done|by intros ->|by intros ?].
  - pose proof Hw as (Hne & Hm & Hid)%elem_of_wan. pose proof (chosen_snapshot _ _ Hm) as [Hs _]. split_and!; [done|by intros ->|intros _].
    destruct top_spec as (_ & _ & _ & Hde & Hds & _). split_and!; [|rewrite Hde|done].
    + unfold IsDelegate. apply bool_decide_eq_true. apply Hds. by exists (key a), a.
    + rewrite decide_False, sort_stable_perm; [done|]. intros E.
      apply (elem_of_nil m). rewrite <- E. by apply elem_of_group.
Qed.

Lemma outside_length fanout a :
  snapshot a ->
  Z.of_nat (length (filter (fun m => key m <> key a) (SelectGossipTargets top (mb_ID a) fanout)))
  <= K * (Z.of_nat (length (Groups top)) - 1).
Proof.
  intros Ha. etrans; [|by apply wan_length]. apply inj_le, submseteq_length, NoDup_submseteq.
  - apply NoDup_filter. eapply NoDup_fmap_1. apply (proj1 (targets_spec fanout a Ha)).
  - intros m [Hne Hm]%list_elem_of_filter. destruct (target_spec fanout a m Ha Hm) as (_ & _ & Hw). by apply Hw.
Qed.

Lemma hops fanout a b :
  (forall k, Z.of_nat (length (group k)) <= fanout + 1) -> snapshot a -> snapshot b -> bsteps (hop fanout) 3 a b.
Proof.
  intros Hf Ha Hb. destruct (decide (key a = key b)) as [E|Hne].
  { eapply bsteps_weaken; [|by apply hop_group]. lia. }
  assert (forall x, snapshot x -> exists d, d ∈ chosen (key x) /\ snapshot d /\ key d = key x) as Hdel.
  { intros x Hx. destruct (chosen_some (key x)) as [d Hd].
    - intros E. apply (elem_of_nil x). rewrite <- E. by apply elem_of_group.
    - exists d. split; [done|]. by apply chosen_snapshot. }
  destruct (Hdel a Ha) as (da & Hda & Hsa & Eka), (Hdel b Hb) as (db & Hdb & Hsb & Ekb).
  change 3%nat with (1 + (1 + 1))%nat. eapply bsteps_trans; [by apply (hop_group fanout a da)|].
  eapply bsteps_trans; [apply (hop_wan fanout da db); [done|congruence|by rewrite Eka|by rewrite Ekb]|]. by apply hop_group.
Qed.

End topology.

(** C35: Hierarchical gossip reaches everybody at a bounded wide-area cost.  For
    a snapshot of members with distinct ids, whatever the function that groups
    them, the targets of an eligible member are eligible, distinct and not the
    member itself; a target in another group is a delegate of its group and is
    chosen only by delegates, and there are at most [delegatesPerGroup] times
    the number of other groups of those.  If the fan-out covers the other
    members of every group, any eligible member reaches any other in at most
    three hops. *)
Theorem hierarchical_gossip_connected members groupKeyFn delegatesPerGroup fanout :
  NoDup (mb_ID <$> members) ->
  let top := NewHierarchicalTopology members groupKeyFn delegatesPerGroup in
  let key := default DefaultGroupKeyFn groupKeyFn in
  let live m := m ∈ members /\ mb_State m <> StateDead /\ mb_State m <> StateLeft in
  let targets a := SelectGossipTargets top (mb_ID a) fanout in
  (forall a, live a ->
     NoDup (mb_ID <$> targets a) /\
     (forall m, m ∈ targets a -> live m /\ m <> a /\ (key m <> key a -> IsDelegate top (mb_ID a) = true /\ m ∈ Delegates top (key m))) /\
     Z.of_nat (length (filter (fun m => key m <> key a) (targets a))) <= Z.max 1 delegatesPerGroup * (Z.of_nat (length (Groups top)) - 1)) /\
  ((forall k, Z.of_nat (length (default [] (groups top !! k))) <= fanout + 1) ->
   forall a b, live a -> live b -> bsteps (fun a b => b ∈ targets a) 3 a b).
Proof.
  intros Hnd. cbn zeta. split.
  - intros a Ha%snapshot_iff. split_and!.
    + apply targets_spec; [done|done].
    + intros m Hm. apply target_spec in Hm as (Hs & Hne & Hw); [|done|done]. split; [by apply snapshot_iff|]. split; [done|]. intros Hk. by destruct (Hw Hk) as (? & ? & _).
    + etrans; [by apply outside_length|]. case_decide; [by rewrite Z.max_l by lia|by rewrite Z.max_r by lia].
  - intros Hf a b Ha%snapshot_iff Hb%snapshot_iff. apply hops; [done| |done|done]. intros k. rewrite <- (groups_length _ _ delegatesPerGroup) by done. apply Hf.
Qed.

Module TopologyDemo.

Definition demo_member (id zone : string) (st : MemberState) : Member := mkMember id id st 0 {[ "zone" := zone ]} 0.

Definition demo_members : list Member :=
  [demo_member "n1" "east" StateAlive; demo_member "n2" "east" StateSuspect; demo_member "n3" "east" StateAlive;
   demo_member "n4" "west" StateAlive; demo_member "n5" "west" StateAlive; demo_member "n6" "west" StateDead].

Definition demo_topology : HierarchicalTopology := NewHierarchicalTopology demo_members None 1.

Lemma demo_groups k : Z.of_nat (length (default [] (groups demo_topology !! k))) <= 2 + 1.
Proof.
  assert (groups demo_topology = {[ "east" := ["n1"; "n2"; "n3"]; "west" := ["n4"; "n5"] ]}) as -> by by_eval.
  destruct (decide (k = "east")) as [->|H1]; [by_eval|]. destruct (decide (k = "west")) as [->|H2]; [by_eval|].
  rewrite lookup_insert_ne, lookup_singleton_ne by done. done.
Qed.

(** A live member that is nobody's target: the peers with the smallest hashes
    are always the ones chosen. *)
Lemma small_fanout_isolates a m :
  a ∈ demo_members -> m ∈ SelectGossipTargets demo_topology (mb_ID a) 1 -> mb_ID m <> "n2".
Proof.
  intros Ha Hm. assert (Forall (fun a => Forall (fun m => mb_ID m <> "n2") (SelectGossipTargets demo_topology (mb_ID a) 1)) demo_members) as Hall.
  { apply (bool_decide_unpack _). by vm_compute. }
  rewrite Forall_forall in Hall. specialize (Hall a Ha). rewrite Forall_forall in Hall. by apply Hall.
Qed.

Lemma hierarchical_gossip_connected_witness :
  bsteps (fun a b => b ∈ SelectGossipTargets demo_topology (mb_ID a) 2) 3
         (demo_member "n2" "east" StateSuspect) (demo_member "n4" "west" StateAlive).
Proof.
  apply (hierarchical_gossip_connected demo_members None 1 2).
  - apply (bool_decide_unpack _). by vm_compute.
  - exact demo_groups.
  - split; [|done]. right. left.
  - split; [|done]. do 3 right. left.
Defined.

End TopologyDemo.
