(* ===== verification/SwimSuspicion.v ===== *)
(** * SWIM suspicion manager (pkg/swim/suspicion.go, pkg/swim/clock.go)

    A member that does not answer is suspected at an incarnation; unless it
    refutes the suspicion with a higher incarnation before a timeout, and
    unless a relay can reach it then, it is declared dead.

    Members and suspicion entries are objects that are shared by pointer, so
    both live in a store; a timer runs the closure [onTimeout id], of which
    only the id matters.  [ManualClock] is the clock of the package whose time
    is advanced by hand.  An operation is split where it releases the lock of
    the manager, and the two models of its use put the pieces together in
    different ways:

    - one call after the other, on the manual clock: the manager refines a
      table of deadlines;
    - any number of goroutines whose pieces interleave, with timers that fire
      on their own: every suspicion has exactly one fate. *)
From stdpp Require Import base gmap sets list strings sorting.
From Stdlib Require Import ZArith Lia.
From S2P Require Import Prelude SwimMember.
Open Scope Z_scope.

(** ** The manual clock *)

Section clock.
Context {F : Type}.

(** A timer that has fired or was stopped is no longer in the map, so the two
    flags of the code are not kept. *)
Record manualTimer := mkTimer { tm_deadline : Z; tm_fn : F }.

Record ManualClock := mkClock { ck_now : Z; ck_nextID : nat; ck_timers : gmap nat manualTimer }.

Definition NewManualClock (start : Z) : ManualClock := mkClock start 0 ∅.

Definition AfterFunc (c : ManualClock) (d : Z) (fn : F) : ManualClock * nat :=
  let id := S (ck_nextID c) in
  (mkClock (ck_now c) id (<[id := mkTimer (ck_now c + d) fn]> (ck_timers c)), id).

(** The function that [AfterFunc] returns. *)
Definition stop (c : ManualClock) (id : nat) : ManualClock * bool :=
  match ck_timers c !! id with
  | None => (c, false)
  | Some _ => (mkClock (ck_now c) (ck_nextID c) (delete id (ck_timers c)), true)
  end.

Definition timer_lt (a b : nat * manualTimer) : bool :=
  if decide (tm_deadline a.2 = tm_deadline b.2) then bool_decide (a.1 < b.1)%nat else bool_decide (tm_deadline a.2 < tm_deadline b.2).

(** The locked part of [Advance]: the timers that are due, in the order in
    which their functions run. *)
Definition take_due (c : ManualClock) (d : Z) : ManualClock * list (nat * manualTimer) :=
  let now := ck_now c + d in
  let due := sort_SliceStable timer_lt (filter (fun t => tm_deadline t.2 <= now) (map_to_list (ck_timers c))) in
  (mkClock now (ck_nextID c) (foldl (fun m t => delete t.1 m) (ck_timers c) due), due).

Lemma timer_lt_asym a b : timer_lt a b = true -> timer_lt b a = false.
Proof. unfold timer_lt. repeat case_decide; rewrite ?bool_decide_eq_true, ?bool_decide_eq_false; lia. Qed.

Lemma timer_lt_cotrans a b c : timer_lt a b = true -> timer_lt a c = true \/ timer_lt c b = true.
Proof. unfold timer_lt. repeat case_decide; rewrite ?bool_decide_eq_true; lia. Qed.

Lemma delete_all_lookup {A} (l : list (nat * A)) (m : gmap nat A) k :
  foldl (fun m t => delete t.1 m) m l !! k = if decide (k ∈ l.*1) then None else m !! k.
Proof.
  revert m. induction l as [|x l IH]; intros m; [done|]. rewrite fmap_cons. cbn [foldl]. rewrite IH.
  destruct (decide (k ∈ l.*1)) as [H1|H1], (decide (k ∈ x.1 :: l.*1)) as [H2|H2]; try done.
  - destruct H2. by right.
  - apply elem_of_cons in H2 as [->|?]; [apply lookup_delete_eq|done].
  - apply lookup_delete_ne. intros <-. destruct H2. left.
Qed.

(** [Advance] takes exactly the timers whose deadline has come. *)
Lemma take_due_spec c d :
  let '(c', due) := take_due c d in
  ck_now c' = ck_now c + d /\ ck_nextID c' = ck_nextID c /\ NoDup due.*1 /\
  (forall t x, (t, x) ∈ due <-> ck_timers c !! t = Some x /\ tm_deadline x <= ck_now c + d) /\
  (forall t x, ck_timers c' !! t = Some x <-> ck_timers c !! t = Some x /\ ck_now c + d < tm_deadline x).
Proof.
  simpl. set (due := sort_SliceStable _ _).
  assert (forall t x, (t, x) ∈ due <-> ck_timers c !! t = Some x /\ tm_deadline x <= ck_now c + d) as Hdue.
  { intros t x. unfold due. rewrite sort_stable_perm, list_elem_of_filter, elem_of_map_to_list. simpl. tauto. }
  split_and!; [done|done| |done|].
  - unfold due. rewrite sort_stable_perm. eapply sublist_NoDup; [apply (NoDup_fst_map_to_list (ck_timers c))|]. apply fmap_sublist, sublist_filter.
  - intros t x. rewrite delete_all_lookup. case_decide as Ht.
    + split; [done|]. intros [Hx Hlt]. apply list_elem_of_fmap in Ht as ([t' y] & -> & [Hy Hle]%Hdue). simpl in Hx. rewrite Hx in Hy. injection Hy as ->. lia.
    + split; [|by intros [? _]]. intros Hx. split; [done|]. destruct (decide (tm_deadline x <= ck_now c + d)) as [Hle|]; [|lia].
      destruct Ht. apply (list_elem_of_fmap_2 fst due (t, x)), Hdue. done.
Qed.
End clock.
Arguments manualTimer : clear implicits.
Arguments ManualClock : clear implicits.

(** ** The manager *)

(** [cf_Prober], [cf_OnDead] and [cf_OnRefute] say whether the field is set. *)
Record SuspicionConfig := mkConfig {
  cf_Prober : bool; cf_SuspicionTimeout : Z; cf_IndirectProbes : Z; cf_Relays : list (option nat); cf_OnDead : bool; cf_OnRefute : bool }.

Record suspicionEntry := mkEntry {
  se_member : nat; se_incarnation : Z; se_relays : list (option nat); se_stop : nat; se_dead : bool }.

Inductive callback := OnDead (memberID : string) | OnRefute (memberID : string).

(** The manager with the objects it points to: members and entries are named
    by their place in the store.  [sm_calls] are the callbacks made. *)
Record SuspicionManager := mkManager {
  sm_prober : bool; sm_timeout : Z; sm_k : Z; sm_relays : list (option nat); sm_onDead : bool; sm_onRefute : bool;
  sm_clock : ManualClock string; sm_members : gmap nat Member; sm_entries : list suspicionEntry; sm_records : gmap string nat;
  sm_calls : list callback }.

Definition NewSuspicionManager (cfg : SuspicionConfig) (clock : ManualClock string) (members : gmap nat Member) : SuspicionManager :=
  mkManager (cf_Prober cfg) (if decide (cf_SuspicionTimeout cfg <= 0) then 5000000000 else cf_SuspicionTimeout cfg)
    (if decide (cf_IndirectProbes cfg <= 0) then 3 else cf_IndirectProbes cfg) (cf_Relays cfg) (cf_OnDead cfg) (cf_OnRefute cfg)
    clock members [] ∅ [].

Definition with_members (sm : SuspicionManager) (ms : gmap nat Member) : SuspicionManager :=
  mkManager (sm_prober sm) (sm_timeout sm) (sm_k sm) (sm_relays sm) (sm_onDead sm) (sm_onRefute sm)
    (sm_clock sm) ms (sm_entries sm) (sm_records sm) (sm_calls sm).
Definition with_clock (sm : SuspicionManager) (c : ManualClock string) : SuspicionManager :=
  mkManager (sm_prober sm) (sm_timeout sm) (sm_k sm) (sm_relays sm) (sm_onDead sm) (sm_onRefute sm)
    c (sm_members sm) (sm_entries sm) (sm_records sm) (sm_calls sm).
Definition with_records (sm : SuspicionManager) (es : list suspicionEntry) (r : gmap string nat) : SuspicionManager :=
  mkManager (sm_prober sm) (sm_timeout sm) (sm_k sm) (sm_relays sm) (sm_onDead sm) (sm_onRefute sm)
    (sm_clock sm) (sm_members sm) es r (sm_calls sm).
Definition with_call (sm : SuspicionManager) (called : bool) (c : callback) : SuspicionManager :=
  mkManager (sm_prober sm) (sm_timeout sm) (sm_k sm) (sm_relays sm) (sm_onDead sm) (sm_onRefute sm)
    (sm_clock sm) (sm_members sm) (sm_entries sm) (sm_records sm) (if called then sm_calls sm ++ [c] else sm_calls sm).

(** [member.UpdateState], on the member a pointer points to. *)
Definition update_member (ms : gmap nat Member) (p : nat) (state : MemberState) (incarnation wall : Z) : gmap nat Member * bool :=
  match ms !! p with
  | None => (ms, false)
  | Some m => let '(m', ok) := Member_UpdateState state incarnation wall m in (<[p := m']> ms, ok)
  end.

(** [SuspectWithRelays] before the lock. *)
Definition suspect_update (sm : SuspicionManager) (p : nat) (incarnation wall : Z) : SuspicionManager * bool :=
  let '(ms, ok) := update_member (sm_members sm) p StateSuspect incarnation wall in (with_members sm ms, ok).

(** The entry a record points to, unless it is dead. *)
Definition live_entry (sm : SuspicionManager) (memberID : string) : option (nat * suspicionEntry) :=
  match sm_records sm !! memberID with
  | None => None
  | Some e => match sm_entries sm !! e with
              | Some entry => if se_dead entry then None else Some (e, entry)
              | None => None
              end
  end.

(** [SuspectWithRelays] under the lock. *)
Definition suspect_arm (sm : SuspicionManager) (p : nat) (incarnation : Z) (relays : list (option nat)) : SuspicionManager :=
  match sm_members sm !! p with
  | None => sm
  | Some m =>
      let sm :=
        match sm_records sm !! mb_ID m with
        | Some e =>
            let sm := match sm_entries sm !! e with Some existing => with_clock sm (stop (sm_clock sm) (se_stop existing)).1 | None => sm end in
            with_records sm (sm_entries sm) (delete (mb_ID m) (sm_records sm))
        | None => sm
        end in
      let '(c, t) := AfterFunc (sm_clock sm) (sm_timeout sm) (mb_ID m) in
      with_records (with_clock sm c) (sm_entries sm ++ [mkEntry p incarnation relays t false])
        (<[mb_ID m := length (sm_entries sm)]> (sm_records sm))
  end.

Definition SuspectWithRelays (sm : SuspicionManager) (member : option nat) (incarnation : Z) (relays : list (option nat)) (wall : Z)
  : SuspicionManager * bool :=
  match member with
  | None => (sm, false)
  | Some p => let '(sm, ok) := suspect_update sm p incarnation wall in if ok then (suspect_arm sm p incarnation relays, true) else (sm, false)
  end.

Definition Suspect (sm : SuspicionManager) (member : option nat) (incarnation wall : Z) : SuspicionManager * bool :=
  SuspectWithRelays sm member incarnation (sm_relays sm) wall.

(** [Refute] under the lock: the member of the suspicion that was dropped. *)
Definition refute_drop (sm : SuspicionManager) (memberID : string) (refuteIncarnation : Z) : option (SuspicionManager * nat) :=
  match live_entry sm memberID with
  | None => None
  | Some (e, entry) =>
      if decide (refuteIncarnation <= se_incarnation entry) then None
      else
        let sm := with_clock sm (stop (sm_clock sm) (se_stop entry)).1 in
        Some (with_records sm (sm_entries sm) (delete memberID (sm_records sm)), se_member entry)
  end.

Definition Refute (sm : SuspicionManager) (memberID : string) (refuteIncarnation wall : Z) : SuspicionManager * bool :=
  match refute_drop sm memberID refuteIncarnation with
  | None => (sm, false)
  | Some (sm, p) =>
      let sm := with_members sm (update_member (sm_members sm) p StateAlive refuteIncarnation wall).1 in
      (with_call sm (sm_onRefute sm) (OnRefute memberID), true)
  end.

Definition IsSuspected (sm : SuspicionManager) (memberID : string) : bool := bool_decide (is_Some (live_entry sm memberID)).

Definition SuspectCount (sm : SuspicionManager) : Z :=
  range_fold (fun n _ e => match sm_entries sm !! e with Some entry => if se_dead entry then n else n + 1 | None => n end) 0 (sm_records sm).

Fixpoint take_relays (ms : gmap nat Member) (self : string) (k : Z) (src : list (option nat)) (out : list nat) : list nat :=
  match src with
  | [] => out
  | r :: src =>
      match r with
      | None => take_relays ms self k src out
      | Some p =>
          if decide (mb_ID <$> ms !! p = Some self) then take_relays ms self k src out
          else
            let out := out ++ [p] in
            if decide (Z.of_nat (length out) >= k) then out else take_relays ms self k src out
      end
  end.

Definition selectRelaysLocked (sm : SuspicionManager) (entry : suspicionEntry) : list nat :=
  let src := if decide (se_relays entry = []) then sm_relays sm else se_relays entry in
  match sm_members sm !! se_member entry with
  | None => []
  | Some m => take_relays (sm_members sm) (mb_ID m) (sm_k sm) src []
  end.

(** [onTimeout] in its three locked parts: before the probe, ... *)
Definition timeout_begin (sm : SuspicionManager) (memberID : string) : option (nat * list nat) :=
  match live_entry sm memberID with
  | None => None
  | Some (_, entry) => Some (se_member entry, selectRelaysLocked sm entry)
  end.

(** ... after a probe that reached the member, ... *)
Definition timeout_clear (sm : SuspicionManager) (memberID : string) : SuspicionManager :=
  match live_entry sm memberID with
  | None => sm
  | Some _ => with_records sm (sm_entries sm) (delete memberID (sm_records sm))
  end.

(** ... and otherwise. *)
Definition timeout_kill (sm : SuspicionManager) (memberID : string) : option (SuspicionManager * Z) :=
  match live_entry sm memberID with
  | None => None
  | Some (e, cur) =>
      Some (with_records sm (<[e := mkEntry (se_member cur) (se_incarnation cur) (se_relays cur) (se_stop cur) true]> (sm_entries sm))
              (delete memberID (sm_records sm)), se_incarnation cur)
  end.

(** The recovery after a successful probe, with the incarnation as it was read. *)
Definition recover (sm : SuspicionManager) (p : nat) (incarnation wall : Z) : SuspicionManager :=
  with_members sm (update_member (sm_members sm) p StateAlive (u32 (incarnation + 1)) wall).1.

Definition incarnation_of (sm : SuspicionManager) (p : nat) : Z := match sm_members sm !! p with Some m => mb_Incarnation m | None => 0 end.

Definition declare_dead (sm : SuspicionManager) (p : nat) (incarnation wall : Z) : SuspicionManager :=
  with_members sm (update_member (sm_members sm) p StateDead incarnation wall).1.

(** [IndirectProbe] is the caller's, who implements the interface [Prober]. *)
Definition onTimeout (IndirectProbe : nat -> list nat -> bool) (wall : Z) (sm : SuspicionManager) (memberID : string) : SuspicionManager :=
  match timeout_begin sm memberID with
  | None => sm
  | Some (p, relays) =>
      if sm_prober sm && bool_decide (relays <> []) && IndirectProbe p relays
      then
        let sm := timeout_clear sm memberID in
        let sm := recover sm p (incarnation_of sm p) wall in
        with_call sm (sm_onRefute sm) (OnRefute memberID)
      else
        match timeout_kill sm memberID with
        | None => sm
        | Some (sm, inc) => let sm := declare_dead sm p inc wall in with_call sm (sm_onDead sm) (OnDead memberID)
        end
  end.

(** [ManualClock.Advance]: the functions of the timers run one after the other. *)
Definition Advance (IndirectProbe : nat -> list nat -> bool) (wall : Z) (sm : SuspicionManager) (d : Z) : SuspicionManager :=
  let '(c, due) := take_due (sm_clock sm) d in
  foldl (fun sm t => onTimeout IndirectProbe wall sm (tm_fn t.2)) (with_clock sm c) due.

(** ** The specification: a table of deadlines *)

Record suspicion := mkSuspicion { sp_member : nat; sp_incarnation : Z; sp_relays : list (option nat); sp_deadline : Z; sp_seq : nat }.

Record table := mkTable { tb_now : Z; tb_count : nat; tb_members : gmap nat Member; tb_susp : gmap string suspicion; tb_calls : list callback }.

Inductive op :=
  | OSuspect (member : option nat) (incarnation : Z) (relays : option (list (option nat))) (wall : Z)
  | ORefute (memberID : string) (incarnation wall : Z)
  | OAdvance (probe : nat -> list nat -> bool) (wall d : Z).

Definition do_op (sm : SuspicionManager) (o : op) : SuspicionManager * bool :=
  match o with
  | OSuspect m inc None wall => Suspect sm m inc wall
  | OSuspect m inc (Some relays) wall => SuspectWithRelays sm m inc relays wall
  | ORefute id inc wall => Refute sm id inc wall
  | OAdvance probe wall d => (Advance probe wall sm d, true)
  end.

Definition run_ops (sm : SuspicionManager) (ops : list op) : SuspicionManager * list bool :=
  foldl (fun st o => let '(sm, r) := do_op st.1 o in (sm, st.2 ++ [r])) (sm, []) ops.

Section table.
Context (cfg : SuspicionConfig).

Definition spec_timeout : Z := if decide (cf_SuspicionTimeout cfg <= 0) then 5000000000 else cf_SuspicionTimeout cfg.
Definition spec_k : Z := if decide (cf_IndirectProbes cfg <= 0) then 3 else cf_IndirectProbes cfg.

(** A suspicion that is accepted replaces the one there is, with a new deadline. *)
Definition tb_suspect (T : table) (p : nat) (inc : Z) (relays : list (option nat)) (wall : Z) : table * bool :=
  match tb_members T !! p with
  | None => (T, false)
  | Some m =>
      let '(m', ok) := Member_UpdateState StateSuspect inc wall m in
      if ok
      then (mkTable (tb_now T) (S (tb_count T)) (<[p := m']> (tb_members T))
              (<[mb_ID m := mkSuspicion p inc relays (tb_now T + spec_timeout) (S (tb_count T))]> (tb_susp T)) (tb_calls T), true)
      else (T, false)
  end.

Definition notify (called : bool) (c : callback) (calls : list callback) : list callback := if called then calls ++ [c] else calls.

Definition tb_refute (T : table) (id : string) (inc wall : Z) : table * bool :=
  match tb_susp T !! id with
  | None => (T, false)
  | Some sp =>
      if decide (inc <= sp_incarnation sp) then (T, false)
      else (mkTable (tb_now T) (tb_count T) (update_member (tb_members T) (sp_member sp) StateAlive inc wall).1 (delete id (tb_susp T))
              (notify (cf_OnRefute cfg) (OnRefute id) (tb_calls T)), true)
  end.

(** The relays of a suspicion: the first [k] that are not the suspect. *)
Definition spec_relays (T : table) (id : string) (sp : suspicion) : list nat :=
  take (Z.to_nat spec_k)
    (filter (fun p => mb_ID <$> tb_members T !! p <> Some id)
            (omap (fun r => r) (if decide (sp_relays sp = []) then cf_Relays cfg else sp_relays sp))).

(** What becomes of a suspicion at its deadline. *)
Definition tb_expire (probe : nat -> list nat -> bool) (wall : Z) (T : table) (id : string) : table :=
  match tb_susp T !! id with
  | None => T
  | Some sp =>
      let p := sp_member sp in
      let relays := spec_relays T id sp in
      if cf_Prober cfg && bool_decide (relays <> []) && probe p relays
      then mkTable (tb_now T) (tb_count T)
             (match tb_members T !! p with
              | Some m => <[p := (Member_UpdateState StateAlive (u32 (mb_Incarnation m + 1)) wall m).1]> (tb_members T)
              | None => tb_members T
              end) (delete id (tb_susp T)) (notify (cf_OnRefute cfg) (OnRefute id) (tb_calls T))
      else mkTable (tb_now T) (tb_count T) (update_member (tb_members T) p StateDead (sp_incarnation sp) wall).1
             (delete id (tb_susp T)) (notify (cf_OnDead cfg) (OnDead id) (tb_calls T))
  end.

(** The suspicions whose deadline is not after [now], by deadline. *)
Definition deadline_of (x : string * suspicion) : nat * manualTimer string := (sp_seq x.2, mkTimer (sp_deadline x.2) x.1).

Definition tb_due (T : table) (now : Z) : list string :=
  (fun t => tm_fn t.2) <$> sort_SliceStable timer_lt (filter (fun t => tm_deadline t.2 <= now) (deadline_of <$> map_to_list (tb_susp T))).

Definition tb_advance (probe : nat -> list nat -> bool) (wall : Z) (T : table) (d : Z) : table :=
  foldl (tb_expire probe wall) (mkTable (tb_now T + d) (tb_count T) (tb_members T) (tb_susp T) (tb_calls T)) (tb_due T (tb_now T + d)).

Definition tb_op (T : table) (o : op) : table * bool :=
  match o with
  | OSuspect None _ _ _ => (T, false)
  | OSuspect (Some p) inc relays wall => tb_suspect T p inc (default (cf_Relays cfg) relays) wall
  | ORefute id inc wall => tb_refute T id inc wall
  | OAdvance probe wall d => (tb_advance probe wall T d, true)
  end.

Definition tb_run (T : table) (ops : list op) : table * list bool :=
  foldl (fun st o => let '(T, r) := tb_op st.1 o in (T, st.2 ++ [r])) (T, []) ops.

(** ** The refinement *)

Definition entry_of (sp : suspicion) : suspicionEntry := mkEntry (sp_member sp) (sp_incarnation sp) (sp_relays sp) (sp_seq sp) false.

(** [armed] are the timers that are set or about to run. *)
Record represents (armed : gmap nat (manualTimer string)) (sm : SuspicionManager) (T : table) : Prop := {
  rp_config : sm_prober sm = cf_Prober cfg /\ sm_timeout sm = spec_timeout /\ sm_k sm = spec_k /\ sm_relays sm = cf_Relays cfg /\
              sm_onDead sm = cf_OnDead cfg /\ sm_onRefute sm = cf_OnRefute cfg;
  rp_now : ck_now (sm_clock sm) = tb_now T;
  rp_count : ck_nextID (sm_clock sm) = tb_count T;
  rp_members : sm_members sm = tb_members T;
  rp_calls : sm_calls sm = tb_calls T;
  rp_some : forall id sp, tb_susp T !! id = Some sp -> exists e, sm_records sm !! id = Some e /\ sm_entries sm !! e = Some (entry_of sp) /\
              armed !! sp_seq sp = Some (mkTimer (sp_deadline sp) id) /\ mb_ID <$> tb_members T !! sp_member sp = Some id;
  rp_none : forall id, tb_susp T !! id = None -> sm_records sm !! id = None;
  rp_armed : forall t x, armed !! t = Some x -> exists sp, tb_susp T !! tm_fn x = Some sp /\ sp_seq sp = t;
  rp_fresh : forall t x, armed !! t = Some x -> (t <= tb_count T)%nat }.

Lemma UpdateState_ID st inc wall m : mb_ID (Member_UpdateState st inc wall m).1 = mb_ID m.
Proof. unfold Member_UpdateState. by repeat case_decide. Qed.

Lemma update_member_ids ms p st inc wall q : mb_ID <$> (update_member ms p st inc wall).1 !! q = mb_ID <$> ms !! q.
Proof.
  unfold update_member. destruct (ms !! p) as [m|] eqn:E; [|done]. pose proof (UpdateState_ID st inc wall m) as Hid.
  destruct (Member_UpdateState st inc wall m) as [m' ok]. simpl in *. destruct (decide (q = p)) as [->|Hne].
  - by rewrite lookup_insert_eq, E; simpl; rewrite Hid.
  - by rewrite lookup_insert_ne.
Qed.

Lemma rp_live armed sm T id : represents armed sm T ->
  match tb_susp T !! id with
  | Some sp => exists e, live_entry sm id = Some (e, entry_of sp) /\ sm_records sm !! id = Some e /\ sm_entries sm !! e = Some (entry_of sp)
  | None => live_entry sm id = None
  end.
Proof.
  intros H. unfold live_entry. destruct (tb_susp T !! id) as [sp|] eqn:E.
  - destruct (rp_some _ _ _ H _ _ E) as (e & He & Hen & _). exists e. by rewrite He, Hen.
  - by rewrite (rp_none _ _ _ H _ E).
Qed.

(** Different members have different entries. *)
Lemma entries_distinct armed sm T id id' sp sp' e :
  represents armed sm T -> tb_susp T !! id = Some sp -> tb_susp T !! id' = Some sp' ->
  sm_records sm !! id = Some e -> sm_records sm !! id' = Some e -> id = id'.
Proof.
  intros H Hs Hs' He He'. destruct (rp_some _ _ _ H _ _ Hs) as (e1 & H1 & Hen1 & _ & Hid1). destruct (rp_some _ _ _ H _ _ Hs') as (e2 & H2 & Hen2 & _ & Hid2).
  rewrite He in H1. rewrite He' in H2. injection H1 as <-. injection H2 as <-. unfold entry_of in Hen1. rewrite Hen1 in Hen2. injection Hen2 as E _ _ _. rewrite E in Hid1. congruence.
Qed.

(** A suspicion is dropped, together with its timer. *)
Lemma drop_represents armed sm sm' T T' id sp e :
  represents armed sm T -> tb_susp T !! id = Some sp -> sm_records sm !! id = Some e ->
  (sm_prober sm', sm_timeout sm', sm_k sm', sm_relays sm', sm_onDead sm', sm_onRefute sm') =
  (sm_prober sm, sm_timeout sm, sm_k sm, sm_relays sm, sm_onDead sm, sm_onRefute sm) ->
  ck_now (sm_clock sm') = tb_now T' -> ck_nextID (sm_clock sm') = tb_count T' -> tb_count T' = tb_count T ->
  sm_members sm' = tb_members T' -> (forall p, mb_ID <$> tb_members T' !! p = mb_ID <$> tb_members T !! p) ->
  sm_calls sm' = tb_calls T' -> sm_records sm' = delete id (sm_records sm) -> tb_susp T' = delete id (tb_susp T) ->
  (forall e', e' <> e -> sm_entries sm' !! e' = sm_entries sm !! e') ->
  represents (delete (sp_seq sp) armed) sm' T'.
Proof.
  intros H Hs He Hcfg Hnow Hid Hct Hm Hids Hc Hr HT Hen. pose proof H as [Hcf _ _ _ _ Hsome Hnone Harm Hfr]. injection Hcfg as E1 E2 E3 E4 E5 E6. split; [by rewrite E1, E2, E3, E4, E5, E6|done|done|done|done| | | |].
  - intros id' sp' Hs'. rewrite HT in Hs'. apply lookup_delete_Some in Hs' as [Hne Hs']. destruct (Hsome _ _ Hs') as (e' & He' & Hen' & Ha' & Hid').
    exists e'. rewrite Hr, lookup_delete_ne, Hids by done. split_and!; [done| | |done].
    + rewrite Hen; [done|]. intros ->. by apply Hne, (entries_distinct _ _ _ _ _ _ _ e H Hs Hs').
    + rewrite lookup_delete_ne; [done|]. intros E. destruct (Hsome _ _ Hs) as (_ & _ & _ & Ha & _). rewrite E, Ha' in Ha. by injection Ha.
  - intros id' Hs'. rewrite HT in Hs'. rewrite Hr. apply lookup_delete_None in Hs' as [->|Hs']; [apply lookup_delete_eq|].
    apply lookup_delete_None. right. by apply Hnone.
  - intros t x [Hne Hx]%lookup_delete_Some. destruct (Harm _ _ Hx) as (sp' & Hs' & <-). exists sp'. split; [|done]. rewrite HT, lookup_delete_ne; [done|].
    intros E. rewrite <- E, Hs in Hs'. by injection Hs' as ->.
  - intros t x [_ Hx]%lookup_delete_Some. rewrite Hct. by eapply Hfr.
Qed.

Lemma take_relays_eq ms self k src out :
  Z.of_nat (length out) < k ->
  take_relays ms self k src out = out ++ take (Z.to_nat k - length out) (filter (fun p => mb_ID <$> ms !! p <> Some self) (omap (fun r => r) src)).
Proof.
  revert out. induction src as [|[p|] src IH]; intros out Hk; cbn [take_relays omap list_omap]; [by rewrite filter_nil, take_nil, app_nil_r| |by apply IH].
  rewrite filter_cons. destruct (decide (mb_ID <$> ms !! p = Some self)) as [E|E]; [rewrite decide_False by (by intros ?); by apply IH|].
  rewrite (decide_True (P := mb_ID <$> ms !! p <> Some self)) by done. case_decide as Hk'; rewrite length_app in Hk'; simpl in Hk'.
  - replace (Z.to_nat k - length out)%nat with 1%nat by lia. done.
  - rewrite IH by (rewrite length_app; simpl; lia). rewrite <- app_assoc. f_equal. rewrite length_app. simpl length.
    replace (Z.to_nat k - length out)%nat with (S (Z.to_nat k - (length out + 1))) by lia. done.
Qed.

(** The function of a timer. *)
Lemma onTimeout_represents probe wall armed sm T t x :
  represents armed sm T -> armed !! t = Some x -> represents (delete t armed) (onTimeout probe wall sm (tm_fn x)) (tb_expire probe wall T (tm_fn x)).
Proof.
  intros H Hx. destruct (rp_armed _ _ _ H _ _ Hx) as (sp & Hs & <-). set (id := tm_fn x) in *.
  pose proof (rp_live _ _ _ id H) as Hl. unfold tb_expire, onTimeout, timeout_begin, timeout_kill, timeout_clear. rewrite Hs in *. destruct Hl as (e & Hl & He & Hen).
  rewrite Hl. destruct (rp_some _ _ _ H _ _ Hs) as (_ & _ & _ & _ & Hid). pose proof H as [(Hp & Ht & Hk & Hr & Hd & Hrf) Hnow Hct Hm Hc _ _ _ _].
  assert (selectRelaysLocked sm (entry_of sp) = spec_relays T id sp) as ->.
  { unfold selectRelaysLocked, spec_relays. simpl. rewrite Hm, Hr. destruct (tb_members T !! sp_member sp) as [m|]; [|done]. simpl in Hid. injection Hid as ->.
    rewrite take_relays_eq; [by rewrite Nat.sub_0_r, Hk|]. rewrite Hk. unfold spec_k. case_decide; simpl; lia. }
  rewrite Hp. destruct (cf_Prober cfg && _ && _).
  - eapply (drop_represents armed sm _ T); try done; simpl.
    + unfold incarnation_of, update_member. simpl. rewrite Hm. destruct (tb_members T !! sp_member sp) as [m|]; [|done]. by destruct (Member_UpdateState _ _ _ m).
    + intros p. destruct (tb_members T !! sp_member sp) as [m|] eqn:Em; [|done]. destruct (decide (p = sp_member sp)) as [->|Hne].
      * rewrite lookup_insert_eq, Em. simpl. by rewrite UpdateState_ID.
      * by rewrite lookup_insert_ne.
    + by rewrite Hc, Hrf.
  - eapply (drop_represents armed sm _ T); try done; simpl.
    + by rewrite Hm.
    + intros p. apply update_member_ids.
    + by rewrite Hc, Hd.
    + intros e' Hne. by rewrite list_lookup_insert_ne.
Qed.

Lemma timers_agree sm T : represents (ck_timers (sm_clock sm)) sm T -> deadline_of <$> map_to_list (tb_susp T) ≡ₚ map_to_list (ck_timers (sm_clock sm)).
Proof.
  intros H. apply NoDup_Permutation; [| apply NoDup_map_to_list|].
  - apply NoDup_fmap_2_strong; [|apply NoDup_map_to_list]. intros [id sp] [id' sp'] Hin Hin' E. apply elem_of_map_to_list in Hin, Hin'.
    unfold deadline_of in E. simpl in E. injection E as _ _ <-. congruence.
  - intros [t x]. rewrite list_elem_of_fmap, elem_of_map_to_list. split.
    + intros ([id sp] & E & Hin%elem_of_map_to_list). unfold deadline_of in E. simpl in E. injection E as -> ->. by destruct (rp_some _ _ _ H _ _ Hin) as (_ & _ & _ & Ha & _).
    + intros Hx. destruct (rp_armed _ _ _ H _ _ Hx) as (sp & Hs & <-). exists (tm_fn x, sp). split; [|by apply elem_of_map_to_list].
      destruct (rp_some _ _ _ H _ _ Hs) as (_ & _ & _ & Ha & _). unfold deadline_of. simpl. rewrite Hx in Ha. by injection Ha as ->.
Qed.

Lemma onTimeout_clock probe wall sm id : sm_clock (onTimeout probe wall sm id) = sm_clock sm.
Proof.
  unfold onTimeout, timeout_begin, timeout_kill, timeout_clear. destruct (live_entry sm id) as [[e en]|]; [|done]. by destruct (sm_prober sm && _ && _).
Qed.

Lemma expire_all probe wall due armed sm T :
  represents armed sm T -> NoDup due.*1 -> (forall t x, (t, x) ∈ due -> armed !! t = Some x) ->
  let sm' := foldl (fun sm t => onTimeout probe wall sm (tm_fn t.2)) sm due in
  sm_clock sm' = sm_clock sm /\
  represents (foldl (fun m t => delete t.1 m) armed due) sm' (foldl (tb_expire probe wall) T ((fun t => tm_fn t.2) <$> due)).
Proof.
  revert armed sm T. induction due as [|[t x] due IH]; intros armed sm T H Hnd Hin; [done|]. rewrite fmap_cons in Hnd. apply NoDup_cons in Hnd as [Hn Hnd].
  destruct (IH (delete t armed) (onTimeout probe wall sm (tm_fn x)) (tb_expire probe wall T (tm_fn x))) as [Hc Hr]; [|done| |].
  - apply onTimeout_represents; [done|]. apply Hin. left.
  - intros t' x' Hin'. rewrite lookup_delete_ne; [apply Hin; by right|]. intros ->. by apply Hn, (list_elem_of_fmap_2 fst due (t', x')).
  - split; [|done]. simpl in *. by rewrite Hc, onTimeout_clock.
Qed.

Lemma Advance_represents probe wall sm T d :
  represents (ck_timers (sm_clock sm)) sm T ->
  represents (ck_timers (sm_clock (Advance probe wall sm d))) (Advance probe wall sm d) (tb_advance probe wall T d).
Proof.
  intros H. unfold Advance, tb_advance, tb_due. rewrite <- (rp_now _ _ _ H). unfold take_due. 
  assert (sort_SliceStable timer_lt (filter (fun t => tm_deadline t.2 <= ck_now (sm_clock sm) + d) (deadline_of <$> map_to_list (tb_susp T))) =
          sort_SliceStable timer_lt (filter (fun t => tm_deadline t.2 <= ck_now (sm_clock sm) + d) (map_to_list (ck_timers (sm_clock sm))))) as ->.
  { symmetry. apply sort_stable_unique; [apply timer_lt_asym|apply timer_lt_cotrans| |by rewrite (timers_agree _ _ H)].
    intros [t x] [t' x'] [_ Hx%elem_of_map_to_list]%list_elem_of_filter [_ Hx'%elem_of_map_to_list]%list_elem_of_filter. unfold timer_lt. simpl.
    repeat case_decide; rewrite ?bool_decide_eq_false; intros Hl1 Hl2; try lia. assert (t = t') as <- by lia. congruence. }
  pose proof (take_due_spec (sm_clock sm) d) as Hd. unfold take_due in Hd. destruct Hd as (_ & _ & Hnd & Hin & _).
  set (due := sort_SliceStable timer_lt _) in *.
  assert (forall t x, (t, x) ∈ due -> ck_timers (sm_clock sm) !! t = Some x) as Hsome by (intros t x Htx; by apply Hin in Htx as [? _]).
  destruct (expire_all probe wall due (ck_timers (sm_clock sm)) (with_clock sm (mkClock (ck_now (sm_clock sm) + d) (ck_nextID (sm_clock sm))
    (foldl (fun m t => delete t.1 m) (ck_timers (sm_clock sm)) due))) (mkTable (ck_now (sm_clock sm) + d) (tb_count T) (tb_members T) (tb_susp T) (tb_calls T)))
    as [Hc Hr]; [by destruct H|done|done|]. rewrite Hc. exact Hr.
Qed.

Lemma stop_timers (c : ManualClock string) t :
  let c' := (stop c t).1 in ck_now c' = ck_now c /\ ck_nextID c' = ck_nextID c /\ ck_timers c' = delete t (ck_timers c).
Proof. unfold stop. destruct (ck_timers c !! t) eqn:E; [done|]. simpl. by rewrite delete_id. Qed.

(** The suspicion there was is dropped when a new one is raised. *)
Definition unsuspect (sm : SuspicionManager) (id : string) : SuspicionManager :=
  match sm_records sm !! id with
  | Some e =>
      let sm := match sm_entries sm !! e with Some existing => with_clock sm (stop (sm_clock sm) (se_stop existing)).1 | None => sm end in
      with_records sm (sm_entries sm) (delete id (sm_records sm))
  | None => sm
  end.

Lemma unsuspect_represents sm T id :
  represents (ck_timers (sm_clock sm)) sm T ->
  represents (ck_timers (sm_clock (unsuspect sm id))) (unsuspect sm id) (mkTable (tb_now T) (tb_count T) (tb_members T) (delete id (tb_susp T)) (tb_calls T)).
Proof.
  intros H. unfold unsuspect. destruct (tb_susp T !! id) as [sp|] eqn:Hs.
  - destruct (rp_some _ _ _ H _ _ Hs) as (e & He & Hen & _). rewrite He, Hen. simpl. destruct (stop_timers (sm_clock sm) (sp_seq sp)) as (E1 & E2 & E3).
    rewrite E3. eapply (drop_represents _ sm _ T); try done; simpl; [by rewrite E1; destruct H|by rewrite E2; destruct H|by destruct H|by destruct H].
  - rewrite (rp_none _ _ _ H _ Hs). rewrite delete_id by done. by destruct T, H.
Qed.

Lemma arm_represents sm T p m inc relays :
  represents (ck_timers (sm_clock sm)) sm T -> tb_members T !! p = Some m ->
  represents (ck_timers (sm_clock (suspect_arm sm p inc relays))) (suspect_arm sm p inc relays)
    (mkTable (tb_now T) (S (tb_count T)) (tb_members T)
       (<[mb_ID m := mkSuspicion p inc relays (tb_now T + spec_timeout) (S (tb_count T))]> (tb_susp T)) (tb_calls T)).
Proof.
  intros H Hp. unfold suspect_arm. rewrite (rp_members _ _ _ H), Hp. pose proof (unsuspect_represents sm T (mb_ID m) H) as H'. rewrite <- (insert_delete_eq (tb_susp T)).
  fold (unsuspect sm (mb_ID m)). revert H'. generalize (unsuspect sm (mb_ID m)) as sm1. clear H. intros sm1 H. set (id := mb_ID m) in *. 
  pose proof H as [Hcf Hnow Hct Hm Hc Hsome Hnone Harm Hfr]. simpl in *. rewrite Hct, Hnow. destruct Hcf as (Hp1 & Ht & Hcf). rewrite Ht.
  assert (ck_timers (sm_clock sm1) !! S (tb_count T) = None) as Hfresh.
  { destruct (ck_timers (sm_clock sm1) !! S (tb_count T)) as [x|] eqn:E; [|done]. apply Hfr in E. lia. }
  split; simpl; try done.
  - intros id' sp' [[<- <-]|[Hne Hs']]%lookup_insert_Some.
    + exists (length (sm_entries sm1)). simpl. rewrite !lookup_insert_eq, Hp. split_and!; try done. by rewrite lookup_app_r, Nat.sub_diag by lia.
    + destruct (Hsome _ _ Hs') as (e & He & Hen & Ha & Hid). exists e. rewrite lookup_insert_ne by done. split_and!; [done|by apply lookup_app_l_Some| |done].
      rewrite lookup_insert_ne; [done|]. intros E. rewrite <- E, Hfresh in Ha. done.
  - intros id' [Hs' Hne]%lookup_insert_None. rewrite lookup_insert_ne by done. by apply Hnone.
  - intros t x [[<- <-]|[Hne Hx]]%lookup_insert_Some; [simpl; eexists; by rewrite lookup_insert_eq|].
    destruct (Harm _ _ Hx) as (sp & Hs & <-). exists sp. split; [|done]. rewrite lookup_insert_ne; [done|]. intros E. by rewrite <- E, lookup_delete_eq in Hs.
  - intros t x [[<- _]|[_ Hx]]%lookup_insert_Some; [done|]. apply Hfr in Hx. lia.
Qed.

(** Members may change as long as their ids do not. *)
Lemma members_represents armed sm T ms :
  represents armed sm T -> (forall p, mb_ID <$> ms !! p = mb_ID <$> tb_members T !! p) ->
  represents armed (with_members sm ms) (mkTable (tb_now T) (tb_count T) ms (tb_susp T) (tb_calls T)).
Proof.
  intros [Hcf Hnow Hct Hm Hc Hsome Hnone Harm Hfr] Hids. split; try done. intros id sp Hs. destruct (Hsome _ _ Hs) as (e & ?). exists e. simpl. by rewrite Hids.
Qed.

Lemma suspect_represents sm T p inc relays wall :
  represents (ck_timers (sm_clock sm)) sm T ->
  let r := SuspectWithRelays sm (Some p) inc relays wall in let r' := tb_suspect T p inc relays wall in
  r.2 = r'.2 /\ represents (ck_timers (sm_clock r.1)) r.1 r'.1.
Proof.
  intros H. unfold SuspectWithRelays, tb_suspect, suspect_update, update_member. rewrite (rp_members _ _ _ H).
  destruct (tb_members T !! p) as [m|] eqn:Hp.
  2:{ simpl. split; [done|]. destruct T. apply (members_represents _ sm _ _ H). done. }
  pose proof (UpdateState_ID StateSuspect inc wall m) as Hid. assert (forall m' b, Member_UpdateState StateSuspect inc wall m = (m', b) -> b = false -> m' = m) as Hrej.
  { unfold Member_UpdateState. intros m' b. repeat case_decide; intros [= <- <-]; done. }
  destruct (Member_UpdateState StateSuspect inc wall m) as [m' ok]. simpl in Hid.
  assert (forall q, mb_ID <$> (<[p := m']> (tb_members T)) !! q = mb_ID <$> tb_members T !! q) as Hids.
  { intros q. destruct (decide (q = p)) as [->|Hne]; [by rewrite lookup_insert_eq, Hp; simpl; rewrite Hid|by rewrite lookup_insert_ne]. }
  pose proof (members_represents _ _ _ _ H Hids) as H'. destruct ok; simpl.
  - split; [done|]. pose proof (arm_represents (with_members sm (<[p := m']> (tb_members T))) _ p m' inc relays H') as Ha. simpl in Ha. rewrite lookup_insert_eq, Hid in Ha. by apply Ha.
  - split; [done|]. rewrite (Hrej m' false) by done. rewrite insert_id by done. destruct T. apply (members_represents _ sm _ _ H). done.
Qed.

Lemma refute_represents sm T id inc wall :
  represents (ck_timers (sm_clock sm)) sm T ->
  let r := Refute sm id inc wall in let r' := tb_refute T id inc wall in
  r.2 = r'.2 /\ represents (ck_timers (sm_clock r.1)) r.1 r'.1.
Proof.
  intros H. unfold Refute, tb_refute, refute_drop. pose proof (rp_live _ _ _ id H) as Hl. destruct (tb_susp T !! id) as [sp|] eqn:Hs; [|by rewrite Hl].
  destruct Hl as (e & -> & He & Hen). simpl. case_decide; [done|]. simpl. split; [done|].
  destruct (stop_timers (sm_clock sm) (sp_seq sp)) as (E1 & E2 & E3). rewrite E3. pose proof H as [(_ & _ & _ & _ & _ & Hrf) Hnow Hct Hm Hc _ _ _ _].
  eapply (drop_represents _ sm _ T); try done; simpl; [by rewrite E1|by rewrite E2|by rewrite Hm|intros p; apply update_member_ids|by rewrite Hc, Hrf].
Qed.

Lemma op_represents sm T o :
  represents (ck_timers (sm_clock sm)) sm T ->
  (do_op sm o).2 = (tb_op T o).2 /\ represents (ck_timers (sm_clock (do_op sm o).1)) (do_op sm o).1 (tb_op T o).1.
Proof.
  intros H. destruct o as [[p|] inc [relays|] wall|id inc wall|probe wall d]; simpl; try done.
  - by apply suspect_represents.
  - unfold Suspect. destruct (rp_config _ _ _ H) as (_ & _ & _ & -> & _). by apply suspect_represents.
  - by apply refute_represents.
  - split; [done|]. by apply Advance_represents.
Qed.

Lemma run_represents ops sm T out :
  represents (ck_timers (sm_clock sm)) sm T ->
  let r := foldl (fun st o => let '(sm, r) := do_op st.1 o in (sm, st.2 ++ [r])) (sm, out) ops in
  let r' := foldl (fun st o => let '(T, r) := tb_op st.1 o in (T, st.2 ++ [r])) (T, out) ops in
  r.2 = r'.2 /\ represents (ck_timers (sm_clock r.1)) r.1 r'.1.
Proof.
  revert sm T out. induction ops as [|o ops IH]; intros sm T out H; [done|]. destruct (op_represents sm T o H) as [E H']. simpl.
  destruct (do_op sm o) as [sm' b], (tb_op T o) as [T' b']. simpl in *. subst b'. by apply IH.
Qed.

(** *** No suspicion outlives its timeout *)

Lemma expire_lookup probe wall T id k :
  tb_now (tb_expire probe wall T id) = tb_now T /\
  tb_susp (tb_expire probe wall T id) !! k = if decide (k = id) then None else tb_susp T !! k.
Proof.
  unfold tb_expire. destruct (tb_susp T !! id) as [sp|] eqn:E; [|split; [done|]; case_decide as Hk; [by rewrite Hk|done]].
  assert (delete id (tb_susp T) !! k = if decide (k = id) then None else tb_susp T !! k) as Hd.
  { case_decide as Hk; [rewrite Hk; apply lookup_delete_eq|by apply lookup_delete_ne]. }
  by destruct (cf_Prober cfg && _ && _).
Qed.

Lemma expire_fold probe wall ids T k :
  tb_now (foldl (tb_expire probe wall) T ids) = tb_now T /\
  tb_susp (foldl (tb_expire probe wall) T ids) !! k = if decide (k ∈ ids) then None else tb_susp T !! k.
Proof.
  revert T. induction ids as [|id ids IH]; intros T; [done|]. simpl. destruct (IH (tb_expire probe wall T id)) as [-> ->]. destruct (expire_lookup probe wall T id k) as [-> ->].
  split; [done|]. destruct (decide (k ∈ ids)) as [H1|H1], (decide (k ∈ id :: ids)) as [H2|H2], (decide (k = id)) as [H3|H3]; try done; exfalso; rewrite elem_of_cons in H2; tauto.
Qed.

Definition on_time (T : table) : Prop := forall id sp, tb_susp T !! id = Some sp -> tb_now T < sp_deadline sp <= tb_now T + spec_timeout.

Lemma spec_timeout_pos : 0 < spec_timeout.
Proof. unfold spec_timeout. case_decide; lia. Qed.

Lemma op_on_time T o : on_time T -> match o with OAdvance _ _ d => 0 <= d | _ => True end -> on_time (tb_op T o).1.
Proof.
  intros H Hd. pose proof spec_timeout_pos. destruct o as [[p|] inc relays wall|id inc wall|probe wall d]; simpl; [|done| |].
  - unfold tb_suspect. destruct (tb_members T !! p) as [m|]; [|done]. destruct (Member_UpdateState StateSuspect inc wall m) as [m' []]; [|done].
    intros id sp Hs. simpl in Hs. apply lookup_insert_Some in Hs as [[<- <-]|[_ Hs]]; simpl; [lia|by apply (H _ _ Hs)].
  - unfold tb_refute. destruct (tb_susp T !! id) as [sp|]; [|done]. case_decide; [done|]. intros id' sp' Hs. simpl in Hs. apply lookup_delete_Some in Hs as [_ Hs]. by apply (H _ _ Hs).
  - intros id sp Hs. unfold tb_advance in *. destruct (expire_fold probe wall (tb_due T (tb_now T + d))
      (mkTable (tb_now T + d) (tb_count T) (tb_members T) (tb_susp T) (tb_calls T)) id) as [En Es]. rewrite En. rewrite Es in Hs. simpl in *.
    case_decide as Hdue; [done|]. specialize (H _ _ Hs). split; [|lia]. destruct (decide (sp_deadline sp <= tb_now T + d)) as [Hle|]; [|lia]. destruct Hdue.
    unfold tb_due. apply list_elem_of_fmap. exists (deadline_of (id, sp)). split; [done|]. rewrite sort_stable_perm, list_elem_of_filter. split; [done|].
    apply list_elem_of_fmap_2, elem_of_map_to_list. done.
Qed.

Lemma run_on_time ops T out :
  on_time T -> Forall (fun o => match o with OAdvance _ _ d => 0 <= d | _ => True end) ops ->
  on_time (foldl (fun st o => let '(T, r) := tb_op st.1 o in (T, st.2 ++ [r])) (T, out) ops).1.
Proof.
  revert T out. induction ops as [|o ops IH]; intros T out Ht Hd; [done|]. apply Forall_cons in Hd as [Ho Hd]. simpl.
  pose proof (op_on_time T o Ht Ho) as Ht'. destruct (tb_op T o) as [T' b]. by apply IH.
Qed.
End table.

Lemma count_live {A} (l : list (string * nat)) (es : list A) (dead : A -> bool) n :
  (forall x, x ∈ l -> exists en, es !! x.2 = Some en /\ dead en = false) ->
  foldl (fun n kv => match es !! kv.2 with Some en => if dead en then n else n + 1 | None => n end) n l = n + Z.of_nat (length l).
Proof.
  revert n. induction l as [|x l IH]; intros n Hl; [simpl; lia|]. cbn [foldl]. destruct (Hl x) as (en & -> & ->); [left|].
  rewrite IH by (intros y Hy; apply Hl; by right). simpl length. lia.
Qed.

(** What callers see of the manager is in the table. *)
Lemma represents_observed cfg sm T :
  represents cfg (ck_timers (sm_clock sm)) sm T ->
  sm_members sm = tb_members T /\ sm_calls sm = tb_calls T /\
  (forall id, IsSuspected sm id = bool_decide (is_Some (tb_susp T !! id))) /\
  SuspectCount sm = Z.of_nat (size (tb_susp T)) /\ size (ck_timers (sm_clock sm)) = size (tb_susp T).
Proof.
  intros H. split_and!; [by destruct H|by destruct H| | |].
  - intros id. unfold IsSuspected. pose proof (rp_live _ _ _ _ id H) as Hl. apply bool_decide_ext. destruct (tb_susp T !! id); [destruct Hl as (e & -> & _)|rewrite Hl]; split; by intros [? ?].
  - unfold SuspectCount, range_fold. rewrite count_live.
    + rewrite length_map_to_list. rewrite Z.add_0_l, <- !size_dom. do 2 f_equal. apply set_eq. intros id. rewrite !elem_of_dom.
      pose proof (rp_live _ _ _ _ id H) as Hl. pose proof (rp_none _ _ _ _ H id) as Hn. destruct (tb_susp T !! id) as [sp|]; [destruct Hl as (e & _ & -> & _)|rewrite Hn by done]; split; by intros [? ?].
    + intros [id e] Hx%elem_of_map_to_list. simpl. pose proof (rp_live _ _ _ _ id H) as Hl. pose proof (rp_none _ _ _ _ H id) as Hn.
      destruct (tb_susp T !! id) as [sp|]; [|rewrite Hn in Hx by done; done]. destruct Hl as (e' & _ & E & Hen). rewrite Hx in E. injection E as ->. by exists (entry_of sp).
  - pose proof (timers_agree _ _ _ H) as Hp%Permutation_length. by rewrite length_fmap, !length_map_to_list in Hp.
Qed.

(** C10: On the manual clock the manager is a table of deadlines.  Every
    sequence of suspicions, refutations and advances of the clock, with
    whatever answers of the prober, gives the results, the members and the
    callbacks of the table, in which a suspicion that is accepted replaces the
    one there is, a refutation removes it if its incarnation is higher, and an
    advance settles exactly the suspicions whose deadline has come, in the
    order of their deadlines: the member recovers if one of its first [k]
    relays reaches it and is declared dead otherwise.  No suspicion outlives
    its timeout, and no timer is left behind. *)
Theorem suspicion_refines_deadlines (cfg : SuspicionConfig) (start : Z) (members : gmap nat Member) (ops : list op) :
  Forall (fun o => match o with OAdvance _ _ d => 0 <= d | _ => True end) ops ->
  let '(sm, results) := run_ops (NewSuspicionManager cfg (NewManualClock start) members) ops in
  let '(T, results') := tb_run cfg (mkTable start 0 members ∅ []) ops in
  results = results' /\ sm_members sm = tb_members T /\ sm_calls sm = tb_calls T /\
  (forall id, IsSuspected sm id = bool_decide (is_Some (tb_susp T !! id))) /\
  SuspectCount sm = Z.of_nat (size (tb_susp T)) /\
  (forall id sp, tb_susp T !! id = Some sp -> tb_now T < sp_deadline sp <= tb_now T + spec_timeout cfg) /\
  size (ck_timers (sm_clock sm)) = size (tb_susp T).
Proof.
  intros Hd. assert (represents cfg ∅ (NewSuspicionManager cfg (NewManualClock start) members) (mkTable start 0 members ∅ [])) as H0.
  { by split. }
  destruct (run_represents cfg ops (NewSuspicionManager cfg (NewManualClock start) members) _ [] H0) as [Er Hr]. unfold run_ops, tb_run.
  assert (on_time cfg (tb_run cfg (mkTable start 0 members ∅ []) ops).1) as Ht.
  { apply run_on_time; [|done]. intros id sp Hs. simpl in Hs. by rewrite lookup_empty in Hs. }
  unfold tb_run in Ht. destruct (foldl _ (NewSuspicionManager _ _ _, []) ops) as [sm rs]. destruct (foldl _ (mkTable _ _ _ _ _, []) ops) as [T rs']. simpl in *.
  destruct (represents_observed cfg sm T Hr) as (? & ? & ? & ? & ?). by split_and!.
Qed.

Module SuspicionDemo.

Definition demo_cfg : SuspicionConfig := mkConfig true 10 0 [Some 1%nat; None; Some 0%nat] true true.
Definition demo_members : gmap nat Member :=
  {[ 0%nat := mkMember "m" "addr0" StateAlive 0 ∅ 0; 1%nat := mkMember "relay" "addr1" StateAlive 0 ∅ 0 ]}.

(** A refuted suspicion, one that a relay clears, and one that ends in death. *)
Definition demo_ops : list op :=
  [OSuspect (Some 0%nat) 1 None 0; ORefute "m" 1 0; ORefute "m" 2 0; OSuspect (Some 0%nat) 3 None 0; OAdvance (fun _ _ => true) 0 10;
   OSuspect (Some 0%nat) 5 None 0; OAdvance (fun _ _ => false) 0 9; OAdvance (fun _ _ => false) 0 1].

Definition demo_run : SuspicionManager * list bool := run_ops (NewSuspicionManager demo_cfg (NewManualClock 0) demo_members) demo_ops.

Lemma suspicion_refines_deadlines_witness :
  demo_run.2 = [true; false; true; true; true; true; true; true] /\
  sm_calls demo_run.1 = [OnRefute "m"; OnRefute "m"; OnDead "m"] /\ SuspectCount demo_run.1 = 0.
Proof.
  pose proof (suspicion_refines_deadlines demo_cfg 0 demo_members demo_ops ltac:(repeat constructor; done)) as H.
  fold demo_run in H. destruct demo_run as [sm rs] eqn:E. destruct (tb_run _ _ _) as [T rs'] eqn:E'. cbn [fst snd]. destruct H as (-> & _ & -> & _ & -> & _).
  assert (T = (tb_run demo_cfg (mkTable 0 0 demo_members ∅ []) demo_ops).1) as -> by (by rewrite E').
  assert (rs' = (tb_run demo_cfg (mkTable 0 0 demo_members ∅ []) demo_ops).2) as -> by (by rewrite E'). clear E E'. by vm_compute.
Defined.

End SuspicionDemo.
