(* ===== verification/SuspicionRace.v ===== *)
(** * Goroutines in the SWIM suspicion manager (pkg/swim/suspicion.go)

    The operations of [SwimSuspicion], cut where the manager's lock is
    released and where the member's own lock is taken, as steps that may
    interleave: timers fire in goroutines of their own, callers suspect and
    refute at any time, and the rest of the program changes members.  A step
    that settles a suspicion is labelled with the entry and its fate.

    The main theorem: in every interleaving every suspicion has at most one
    fate, has one exactly when it is no longer recorded, is refuted only by a
    higher incarnation, and leads to one [OnDead] call if its fate is death
    and to none otherwise.  [stale_timeout_kills_early] shows what is not
    guaranteed: a timer that fired before its suspicion was refuted settles
    the next suspicion of the same member, however young it is. *)
From stdpp Require Import base gmap sets list strings sorting.
From Stdlib Require Import ZArith Lia.
From S2P Require Import Prelude SwimMember SwimSuspicion.
Open Scope Z_scope.

(** ** Steps *)

(** Where a goroutine is. *)
Inductive pc :=
  | PArm (p : nat) (inc : Z) (relays : list (option nat))
  | PAlive (p : nat) (id : string) (inc : Z)
  | PRefuted (id : string)
  | PTimeout (id : string)
  | PProbe (id : string) (p : nat) (relays : list nat)
  | PReached (id : string) (p : nat)
  | PRecover (id : string) (p : nat)
  | PRecoverAt (id : string) (p : nat) (inc : Z)
  | PUnreached (id : string) (p : nat)
  | PDead (id : string) (p : nat) (inc : Z)
  | PDied (id : string).

(** The next piece of code of a goroutine: the state after it and what remains.
    [reached] is the answer of the prober, which may take any time to come. *)
Definition pc_step (reached : bool) (wall : Z) (sm : SuspicionManager) (c : pc) : SuspicionManager * option pc :=
  match c with
  | PArm p inc relays => (suspect_arm sm p inc relays, None)
  | PAlive p id inc => (with_members sm (update_member (sm_members sm) p StateAlive inc wall).1, Some (PRefuted id))
  | PRefuted id => (with_call sm (sm_onRefute sm) (OnRefute id), None)
  | PTimeout id =>
      match timeout_begin sm id with
      | None => (sm, None)
      | Some (p, relays) => (sm, Some (if sm_prober sm && bool_decide (relays <> []) then PProbe id p relays else PUnreached id p))
      end
  | PProbe id p _ => (sm, Some (if reached then PReached id p else PUnreached id p))
  | PReached id p => (timeout_clear sm id, Some (PRecover id p))
  | PRecover id p => (sm, Some (PRecoverAt id p (incarnation_of sm p)))
  | PRecoverAt id p inc => (recover sm p inc wall, Some (PRefuted id))
  | PUnreached id p =>
      match timeout_kill sm id with
      | None => (sm, None)
      | Some (sm, inc) => (sm, Some (PDead id p inc))
      end
  | PDead id p inc => (declare_dead sm p inc wall, Some (PDied id))
  | PDied id => (with_call sm (sm_onDead sm) (OnDead id), None)
  end.

(** A goroutine that nobody interrupts. *)
Fixpoint pc_finish (fuel : nat) (probe : nat -> list nat -> bool) (wall : Z) (sm : SuspicionManager) (c : option pc) : SuspicionManager * option pc :=
  match fuel, c with
  | S fuel, Some c =>
      let reached := match c with PProbe _ p relays => probe p relays | _ => false end in
      let '(sm, c) := pc_step reached wall sm c in pc_finish fuel probe wall sm c
  | _, _ => (sm, c)
  end.

(** The steps are those of the operations. *)
Lemma onTimeout_steps probe wall sm id : pc_finish 6 probe wall sm (Some (PTimeout id)) = (onTimeout probe wall sm id, None).
Proof.
  simpl. unfold onTimeout. destruct (timeout_begin sm id) as [[p relays]|]; [|done].
  destruct (sm_prober sm && bool_decide (relays <> [])); simpl; [destruct (probe p relays); simpl; [done|]|]; by destruct (timeout_kill sm id) as [[sm' inc]|].
Qed.

Lemma Refute_steps probe wall sm id inc :
  Refute sm id inc wall = match refute_drop sm id inc with
                          | None => (sm, false)
                          | Some (sm', p) => ((pc_finish 2 probe wall sm' (Some (PAlive p id inc))).1, true)
                          end.
Proof. unfold Refute. by destruct (refute_drop sm id inc) as [[sm' p]|]. Qed.

Inductive fate := Replaced | Refuted (inc : Z) | Reached | Died.

Definition settles (sm : SuspicionManager) (id : string) (f : fate) : list (nat * fate) :=
  match sm_records sm !! id with Some e => [(e, f)] | None => [] end.

Definition pc_fates (sm : SuspicionManager) (c : pc) : list (nat * fate) :=
  match c with
  | PArm p _ _ => match sm_members sm !! p with Some m => settles sm (mb_ID m) Replaced | None => [] end
  | PReached id _ => settles sm id Reached
  | PUnreached id _ => settles sm id Died
  | _ => []
  end.

Definition same_ids (ms ms' : gmap nat Member) : Prop :=
  forall p m, ms !! p = Some m -> exists m', ms' !! p = Some m' /\ mb_ID m' = mb_ID m.

Inductive step : SuspicionManager * list pc -> list (nat * fate) -> SuspicionManager * list pc -> Prop :=
  | step_suspect sm pool p inc relays wall sm' :
      suspect_update sm p inc wall = (sm', true) -> step (sm, pool) [] (sm', PArm p inc relays :: pool)
  | step_refute sm pool id inc sm' p :
      refute_drop sm id inc = Some (sm', p) -> step (sm, pool) (settles sm id (Refuted inc)) (sm', PAlive p id inc :: pool)
  | step_fire sm pool t x :
      ck_timers (sm_clock sm) !! t = Some x -> tm_deadline x <= ck_now (sm_clock sm) ->
      step (sm, pool) [] (with_clock sm (stop (sm_clock sm) t).1, PTimeout (tm_fn x) :: pool)
  | step_time sm pool d :
      0 <= d -> step (sm, pool) [] (with_clock sm (mkClock (ck_now (sm_clock sm) + d) (ck_nextID (sm_clock sm)) (ck_timers (sm_clock sm))), pool)
  | step_members sm pool ms : same_ids (sm_members sm) ms -> step (sm, pool) [] (with_members sm ms, pool)
  | step_pc sm pool c rest reached wall :
      pool ≡ₚ c :: rest ->
      step (sm, pool) (pc_fates sm c) ((pc_step reached wall sm c).1, option_list (pc_step reached wall sm c).2 ++ rest).

Inductive exec (cfg : SuspicionConfig) (start : Z) (members : gmap nat Member) : SuspicionManager * list pc -> list (nat * fate) -> Prop :=
  | exec_start : exec cfg start members (NewSuspicionManager cfg (NewManualClock start) members, []) []
  | exec_step s tr l s' : exec cfg start members s tr -> step s l s' -> exec cfg start members s' (tr ++ l).

(** ** The invariant *)

Definition entry_id (sm : SuspicionManager) (e : nat) : option string :=
  match sm_entries sm !! e with Some en => mb_ID <$> sm_members sm !! se_member en | None => None end.

Record race_ok (sm : SuspicionManager) (tr : list (nat * fate)) : Prop := {
  ro_entry : forall e en, sm_entries sm !! e = Some en -> is_Some (entry_id sm e);
  ro_record : forall id e, sm_records sm !! id = Some e -> entry_id sm e = Some id /\ e ∉ tr.*1;
  ro_settled : forall e en, sm_entries sm !! e = Some en -> e ∉ tr.*1 -> se_dead en = false /\ exists id, sm_records sm !! id = Some e;
  ro_fate : forall e f, (e, f) ∈ tr -> exists en, sm_entries sm !! e = Some en /\ (se_dead en = true <-> f = Died) /\
              match f with Refuted inc => se_incarnation en < inc | _ => True end;
  ro_once : NoDup tr.*1 }.

(** The calls of [OnDead] made and about to be made are the deaths. *)
Definition dead_call (c : callback) : option string := match c with OnDead id => Some id | OnRefute _ => None end.
Definition dead_pending (c : pc) : option string := match c with PDead id _ _ => Some id | PDied id => Some id | _ => None end.
Definition died_id (sm : SuspicionManager) (x : nat * fate) : option string := match x.2 with Died => entry_id sm x.1 | _ => None end.

Definition calls_ok (sm : SuspicionManager) (pool : list pc) (tr : list (nat * fate)) : Prop :=
  omap dead_call (sm_calls sm) ++ omap dead_pending pool ≡ₚ omap (died_id sm) tr.

Lemma same_ids_refl ms : same_ids ms ms.
Proof. intros p m Hm. by exists m. Qed.

Lemma same_ids_update ms p st inc wall : same_ids ms (update_member ms p st inc wall).1.
Proof.
  intros q m Hq. pose proof (update_member_ids ms p st inc wall q) as E. rewrite Hq in E. simpl in E.
  destruct ((update_member ms p st inc wall).1 !! q) as [m'|]; [|done]. exists m'. split; [done|]. by injection E.
Qed.
#[local] Hint Resolve same_ids_refl same_ids_update : core.

(** Entries keep their members and members keep their ids. *)
Definition keeps (sm sm' : SuspicionManager) : Prop := forall e s, entry_id sm e = Some s -> entry_id sm' e = Some s.

Lemma keeps_intro sm sm' :
  (forall e en, sm_entries sm !! e = Some en -> exists en', sm_entries sm' !! e = Some en' /\ se_member en' = se_member en) ->
  same_ids (sm_members sm) (sm_members sm') -> keeps sm sm'.
Proof.
  intros He Hm e s. unfold entry_id. destruct (sm_entries sm !! e) as [en|] eqn:E; [|done]. destruct (He _ _ E) as (en' & -> & ->).
  destruct (sm_members sm !! se_member en) as [m|] eqn:Em; [|done]. destruct (Hm _ _ Em) as (m' & -> & Hid). simpl. by rewrite Hid.
Qed.

Lemma died_stable sm sm' tr : race_ok sm tr -> keeps sm sm' -> omap (died_id sm') tr = omap (died_id sm) tr.
Proof.
  intros H Hk. apply list_omap_ext. apply Forall2_same_length_lookup_2; [done|]. intros i x y Hx Hy. rewrite Hx in Hy. injection Hy as <-.
  destruct x as [e f]. unfold died_id. simpl. destruct f; try done. destruct (ro_fate _ _ H e Died) as (en & Hen & _); [by eapply list_elem_of_lookup_2|].
  destruct (ro_entry _ _ H e en Hen) as [s Hs]. by rewrite Hs, (Hk _ _ Hs).
Qed.

(** A step that leaves entries and records alone. *)
Lemma frame_ok sm sm' tr :
  race_ok sm tr -> sm_entries sm' = sm_entries sm -> sm_records sm' = sm_records sm -> same_ids (sm_members sm) (sm_members sm') ->
  race_ok sm' tr /\ keeps sm sm'.
Proof.
  intros H Ee Er Hm. assert (keeps sm sm') as Hk by (apply keeps_intro; [rewrite Ee; eauto|done]). split; [|done].
  destruct H as [H1 H2 H3 H4 H5]. split; rewrite ?Ee, ?Er; try done.
  - intros e en Hen. destruct (H1 e en Hen) as [s Hs]. exists s. by apply Hk.
  - intros id e He. destruct (H2 id e He) as [Hs Hn]. split; [by apply Hk|done].
Qed.

(** A step that settles the suspicion of a member. *)
Lemma settle_ok sm sm' tr id e f en en' :
  race_ok sm tr -> sm_records sm !! id = Some e -> sm_entries sm !! e = Some en ->
  sm_entries sm' = <[e := en']> (sm_entries sm) -> sm_records sm' = delete id (sm_records sm) -> sm_members sm' = sm_members sm ->
  se_member en' = se_member en -> se_incarnation en' = se_incarnation en -> (se_dead en' = true <-> f = Died) ->
  match f with Refuted inc => se_incarnation en < inc | _ => True end ->
  race_ok sm' (tr ++ [(e, f)]) /\ keeps sm sm'.
Proof.
  intros H He Hen Ee Er Em Hm Hi Hd Hf. pose proof (lookup_lt_Some _ _ _ Hen) as Hlt.
  assert (forall e', e' <> e -> sm_entries sm' !! e' = sm_entries sm !! e') as Hother by (intros e' Hne; rewrite Ee; by rewrite list_lookup_insert_ne).
  assert (sm_entries sm' !! e = Some en') as Hthis by (rewrite Ee; by apply list_lookup_insert_eq).
  assert (keeps sm sm') as Hk.
  { apply keeps_intro; [|rewrite Em; done]. intros e0 en0 H0. destruct (decide (e0 = e)) as [->|Hne]; [|rewrite Hother by done; by exists en0].
    exists en'. split; [done|]. rewrite Hm. congruence. }
  split; [|done]. destruct H as [H1 H2 H3 H4 H5]. destruct (H2 id e He) as [Hid Hnew]. split.
  - intros e0 en0 H0. destruct (decide (e0 = e)) as [->|Hne]; [exists id; by apply Hk|]. rewrite Hother in H0 by done. destruct (H1 _ _ H0) as [s Hs]. exists s. by apply Hk.
  - intros id0 e0 H0. rewrite Er in H0. apply lookup_delete_Some in H0 as [Hne H0]. destruct (H2 _ _ H0) as [Hs Hn]. split; [by apply Hk|].
    rewrite fmap_app, elem_of_app. intros [?| ->%list_elem_of_singleton]; [done|]. simpl in Hs. congruence.
  - intros e0 en0 H0 Hn. rewrite fmap_app, elem_of_app in Hn. assert (e0 <> e) as Hne by (intros ->; apply Hn; right; by apply list_elem_of_singleton).
    rewrite Hother in H0 by done. destruct (H3 _ _ H0) as [Hd0 [id0 Hid0]]; [tauto|]. split; [done|]. exists id0. rewrite Er, lookup_delete_ne; [done|]. intros <-. congruence.
  - intros e0 f0 [H0|[= -> ->]%list_elem_of_singleton]%elem_of_app.
    + destruct (H4 _ _ H0) as (en0 & Hen0 & Hr). exists en0. split; [|done]. rewrite Hother; [done|]. intros ->. by apply Hnew, (list_elem_of_fmap_2 fst tr (e, f0)).
    + exists en'. split; [done|]. rewrite Hi. by split.
  - rewrite fmap_app. apply NoDup_app. split_and!; [done| |apply NoDup_singleton]. intros x Hx ->%list_elem_of_singleton. done.
Qed.

Lemma live_record sm tr id :
  race_ok sm tr ->
  match sm_records sm !! id with
  | Some e => exists en, live_entry sm id = Some (e, en) /\ sm_entries sm !! e = Some en /\ se_dead en = false
  | None => live_entry sm id = None
  end.
Proof.
  intros H. unfold live_entry. destruct (sm_records sm !! id) as [e|] eqn:E; [|done]. destruct (ro_record _ _ H _ _ E) as [Hid Hn].
  unfold entry_id in Hid. destruct (sm_entries sm !! e) as [en|] eqn:Een; [|done]. destruct (ro_settled _ _ H _ _ Een Hn) as [Hd _]. exists en. by rewrite Hd.
Qed.

(** A new suspicion. *)
Lemma push_ok sm sm' tr p m inc relays t :
  race_ok sm tr -> sm_members sm !! p = Some m -> sm_records sm !! mb_ID m = None ->
  sm_members sm' = sm_members sm -> sm_entries sm' = sm_entries sm ++ [mkEntry p inc relays t false] ->
  sm_records sm' = <[mb_ID m := length (sm_entries sm)]> (sm_records sm) ->
  race_ok sm' tr /\ keeps sm sm'.
Proof.
  intros H Hp Hr Em Ee Er.
  assert (keeps sm sm') as Hk by (apply keeps_intro; [intros e en Hen; exists en; split; [rewrite Ee; by apply lookup_app_l_Some|done]|rewrite Em; done]).
  assert (entry_id sm' (length (sm_entries sm)) = Some (mb_ID m)) as Hnew.
  { unfold entry_id. rewrite Ee, lookup_app_r, Nat.sub_diag by lia. simpl. by rewrite Em, Hp. }
  split; [|done]. destruct H as [H1 H2 H3 H4 H5].
  assert (length (sm_entries sm) ∉ tr.*1) as Hn.
  { intros ([e f] & E & Hin)%list_elem_of_fmap. simpl in E. destruct (H4 _ _ Hin) as (en & Hen%lookup_lt_Some & _). lia. }
  assert (forall e en, sm_entries sm' !! e = Some en -> (sm_entries sm !! e = Some en \/ e = length (sm_entries sm) /\ se_dead en = false)) as Hcase.
  { intros e en Hen. rewrite Ee in Hen. apply lookup_app_Some in Hen as [?|[Hge Hen]]; [by left|]. right. apply list_lookup_singleton_Some in Hen as [? <-]. split; [lia|done]. }
  split; [| | | |done].
  - intros e en [Hen|[-> _]]%Hcase; [|by exists (mb_ID m)]. destruct (H1 _ _ Hen) as [s Hs]. exists s. by apply Hk.
  - intros id e He. rewrite Er in He. apply lookup_insert_Some in He as [[<- <-]|[Hne He]]; [done|]. destruct (H2 _ _ He). split; [by apply Hk|done].
  - intros e en [Hen|[-> Hd]]%Hcase Hnt.
    + destruct (H3 _ _ Hen Hnt) as [? [id Hid]]. split; [done|]. exists id. rewrite Er, lookup_insert_ne; [done|]. intros <-. congruence.
    + split; [done|]. exists (mb_ID m). by rewrite Er, lookup_insert_eq.
  - intros e f Hin. destruct (H4 _ _ Hin) as (en & Hen & Hr'). exists en. split; [|done]. rewrite Ee. by apply lookup_app_l_Some.
Qed.

Lemma keeps_refl sm : keeps sm sm.
Proof. by intros e s. Qed.
#[local] Hint Resolve keeps_refl : core.

Lemma keeps_trans sm1 sm2 sm3 : keeps sm1 sm2 -> keeps sm2 sm3 -> keeps sm1 sm3.
Proof. intros H1 H2 e s Hs. by apply H2, H1. Qed.

Lemma arm_ok sm tr p inc relays :
  race_ok sm tr ->
  race_ok (suspect_arm sm p inc relays) (tr ++ pc_fates sm (PArm p inc relays)) /\ keeps sm (suspect_arm sm p inc relays).
Proof.
  intros H. unfold suspect_arm. simpl. destruct (sm_members sm !! p) as [m|] eqn:Hp; [|rewrite app_nil_r; by split]. fold (unsuspect sm (mb_ID m)).
  unfold settles. pose proof (live_record sm tr (mb_ID m) H) as Hl.
  assert (exists tr', tr' = tr ++ (match sm_records sm !! mb_ID m with Some e => [(e, Replaced)] | None => [] end) /\
    race_ok (unsuspect sm (mb_ID m)) tr' /\ keeps sm (unsuspect sm (mb_ID m)) /\
    sm_members (unsuspect sm (mb_ID m)) = sm_members sm /\ sm_records (unsuspect sm (mb_ID m)) !! mb_ID m = None) as (tr' & <- & H' & Hk & Em & Er).
  { eexists. split; [done|]. unfold unsuspect. destruct (sm_records sm !! mb_ID m) as [e|] eqn:E; [|rewrite app_nil_r; by split_and!].
    destruct Hl as (en & _ & Hen & Hd). rewrite Hen. simpl. 
    match goal with |- ?A /\ ?B /\ _ => enough (A /\ B) as [? ?] by (split_and!; [done|done|done|apply lookup_delete_eq]) end.
    eapply (settle_ok sm _ tr (mb_ID m) e Replaced en en); try done; simpl; [by rewrite list_insert_id|by rewrite Hd; split]. }
  revert H' Hk Em Er. generalize (unsuspect sm (mb_ID m)) as sm1. intros sm1 H1 Hk Em Er. simpl.
  edestruct (push_ok sm1) as [H2 Hk2]; [exact H1|by rewrite Em|exact Er| | | |split; [exact H2|by eapply keeps_trans]]; done.
Qed.

Lemma pc_step_ok reached wall sm tr c :
  race_ok sm tr ->
  race_ok (pc_step reached wall sm c).1 (tr ++ pc_fates sm c) /\ keeps sm (pc_step reached wall sm c).1.
Proof.
  intros H. assert (race_ok sm (tr ++ []) /\ keeps sm sm) as Hstay by (rewrite app_nil_r; by split).
  destruct c as [p inc relays|p id inc|id|id|id p relays|id p|id p|id p inc|id p|id p inc|id]; simpl; try done.
  - by apply arm_ok.
  - rewrite app_nil_r. apply frame_ok; simpl; auto.
  - rewrite app_nil_r. apply frame_ok; simpl; auto.
  - by destruct (timeout_begin sm id) as [[p relays]|].
  - unfold timeout_clear, settles. pose proof (live_record sm tr id H) as Hl. destruct (sm_records sm !! id) as [e|] eqn:E; [|by rewrite Hl].
    destruct Hl as (en & -> & Hen & Hd). eapply (settle_ok sm _ tr id e Reached en en); try done; simpl; [by rewrite list_insert_id|by rewrite Hd; split].
  - rewrite app_nil_r. apply frame_ok; simpl; auto.
  - unfold timeout_kill, settles. pose proof (live_record sm tr id H) as Hl. destruct (sm_records sm !! id) as [e|] eqn:E; [|by rewrite Hl].
    destruct Hl as (en & -> & Hen & Hd). by eapply (settle_ok sm _ tr id e Died en).
  - rewrite app_nil_r. apply frame_ok; simpl; auto.
  - rewrite app_nil_r. apply frame_ok; simpl; auto.
Qed.

Lemma suspect_arm_env sm p inc relays : sm_onDead (suspect_arm sm p inc relays) = sm_onDead sm /\ sm_calls (suspect_arm sm p inc relays) = sm_calls sm.
Proof. unfold suspect_arm. destruct (sm_members sm !! p) as [m|]; [|done]. destruct (sm_records sm !! mb_ID m) as [e|]; [|done]. by destruct (sm_entries sm !! e). Qed.

(** Deaths and calls of [OnDead] go together. *)
Lemma pc_step_calls reached wall sm tr c pool rest :
  race_ok sm tr -> sm_onDead sm = true -> pool ≡ₚ c :: rest -> calls_ok sm pool tr ->
  let '(sm', next) := pc_step reached wall sm c in
  sm_onDead sm' = true /\ calls_ok sm' (option_list next ++ rest) (tr ++ pc_fates sm c).
Proof.
  intros H Hon Hp Hc. destruct (pc_step_ok reached wall sm tr c H) as [_ Hk]. unfold calls_ok in *. rewrite Hp in Hc.
  assert (forall sm', keeps sm sm' -> omap (died_id sm') tr = omap (died_id sm) tr) as Hst by (intros sm'; by apply died_stable).
  assert (forall sm' id f, f <> Died -> omap (died_id sm') (tr ++ settles sm id f) = omap (died_id sm') tr) as Hnd.
  { intros sm' id f Hf. unfold settles. destruct (sm_records sm !! id); [|by rewrite app_nil_r]. rewrite omap_app. unfold died_id at 2. simpl. destruct f; by rewrite ?app_nil_r. }
  destruct c as [p inc relays|p id inc|id|id|id p relays|id p|id p|id p inc|id p|id p inc|id]; cbn [pc_step pc_fates] in *.
  - destruct (suspect_arm_env sm p inc relays) as [-> Ecalls]. split; [done|]. rewrite Ecalls. simpl in Hk.
    destruct (sm_members sm !! p); [rewrite Hnd by done|rewrite app_nil_r]; by rewrite Hst.
  - split; [done|]. rewrite app_nil_r, Hst by done. done.
  - split; [done|]. rewrite app_nil_r, Hst by done. simpl. by destruct (sm_onRefute sm); [rewrite omap_app; simpl; rewrite ?app_nil_r|].
  - destruct (timeout_begin sm id) as [[p relays]|]; rewrite app_nil_r; [|done]. split; [done|]. by destruct (sm_prober sm && _).
  - rewrite app_nil_r. split; [done|]. by destruct reached.
  - unfold timeout_clear in *. rewrite Hnd by done. destruct (live_entry sm id); split; done.
  - rewrite app_nil_r. done.
  - rewrite app_nil_r, Hst by done. done.
  - unfold timeout_kill, settles in *. pose proof (live_record sm tr id H) as Hl. destruct (sm_records sm !! id) as [e|] eqn:E; [|rewrite Hl, app_nil_r; done].
    destruct Hl as (en & Hle & _). rewrite Hle in *. split; [done|]. rewrite (omap_app _ tr), Hst by done. simpl in *. unfold died_id at 2. simpl.
    rewrite (Hk e id) by (by apply (ro_record _ _ H)). rewrite <- Hc. by rewrite <- Permutation_middle, <- Permutation_cons_append.
  - rewrite app_nil_r, Hst by done. done.
  - split; [done|]. rewrite app_nil_r, Hst by done. simpl. rewrite Hon, omap_app, <- Hc. simpl. by rewrite <- app_assoc.
Qed.

Lemma refute_drop_ok sm tr id inc sm' p :
  race_ok sm tr -> refute_drop sm id inc = Some (sm', p) ->
  race_ok sm' (tr ++ settles sm id (Refuted inc)) /\ keeps sm sm' /\ sm_onDead sm' = sm_onDead sm /\ sm_calls sm' = sm_calls sm.
Proof.
  intros H. unfold refute_drop, settles. pose proof (live_record sm tr id H) as Hl. destruct (sm_records sm !! id) as [e|] eqn:E; [|by rewrite Hl].
  destruct Hl as (en & -> & Hen & Hd). case_decide as Hle; [done|]. intros [= <- <-].
  match goal with |- ?A /\ ?B /\ _ => enough (A /\ B) as [? ?] by (split_and!; done) end.
  eapply (settle_ok sm _ tr id e (Refuted inc) en en); try done; simpl; [by rewrite list_insert_id|by rewrite Hd; split|lia].
Qed.

(** Everything that holds in every interleaving. *)
Definition system_ok (s : SuspicionManager * list pc) (tr : list (nat * fate)) : Prop :=
  race_ok s.1 tr /\ (sm_onDead s.1 = true -> calls_ok s.1 s.2 tr).

Lemma frame_system sm sm' pool pool' tr :
  system_ok (sm, pool) tr -> sm_entries sm' = sm_entries sm -> sm_records sm' = sm_records sm -> same_ids (sm_members sm) (sm_members sm') ->
  sm_onDead sm' = sm_onDead sm -> sm_calls sm' = sm_calls sm -> omap dead_pending pool' = omap dead_pending pool ->
  system_ok (sm', pool') (tr ++ []).
Proof.
  intros [H Hc] Ee Er Hm Ed Ec Ep. simpl in *. destruct (frame_ok sm sm' tr H Ee Er Hm) as [H' Hk]. rewrite app_nil_r. split; [done|]. simpl.
  rewrite Ed. intros Hd. unfold calls_ok in *. rewrite Ec, Ep, (died_stable sm sm') by done. by apply Hc.
Qed.

Lemma step_ok s l s' tr : step s l s' -> system_ok s tr -> system_ok s' (tr ++ l).
Proof.
  intros Hs Hok. destruct Hs as [sm pool p inc relays wall sm' Hu|sm pool id inc sm' p Hd|sm pool t x Ht Hle|sm pool d Hd|sm pool ms Hms|sm pool c rest reached wall Hp].
  - unfold suspect_update in Hu. pose proof (same_ids_update (sm_members sm) p StateSuspect inc wall) as Hids.
    destruct (update_member (sm_members sm) p StateSuspect inc wall) as [ms ok]. injection Hu as <- ->. by eapply (frame_system sm).
  - destruct Hok as [H Hc]. simpl in *. destruct (refute_drop_ok _ _ _ _ _ _ H Hd) as (H' & Hk & Ed & Ec). split; [done|]. simpl. rewrite Ed. intros Hon.
    unfold calls_ok in *. rewrite Ec, omap_app, (died_stable sm sm') by done. simpl. unfold settles. destruct (sm_records sm !! id); simpl; rewrite ?app_nil_r; by apply Hc.
  - by eapply (frame_system sm).
  - by eapply (frame_system sm).
  - by eapply (frame_system sm).
  - destruct Hok as [H Hc]. simpl in *. split; [by apply pc_step_ok|]. simpl. intros Hon.
    assert (sm_onDead sm = true) as Hon0.
    { destruct c as [p inc relays| | |id| |id| | |id| |]; simpl in Hon; try done.
      - by rewrite (proj1 (suspect_arm_env sm p inc relays)) in Hon.
      - by destruct (timeout_begin sm id) as [[? ?]|].
      - unfold timeout_clear in Hon. by destruct (live_entry sm id).
      - unfold timeout_kill in Hon. by destruct (live_entry sm id) as [[? ?]|]. }
    pose proof (pc_step_calls reached wall sm tr c pool rest H Hon0 Hp (Hc Hon0)) as Hpc. destruct (pc_step reached wall sm c) as [sm' next]. apply Hpc.
Qed.

Lemma exec_ok cfg start members s tr : exec cfg start members s tr -> system_ok s tr.
Proof.
  induction 1 as [|s tr l s' _ IH Hs]; [|by eapply step_ok]. split; [|by intros _; constructor]. split; simpl; try done.
  - intros e f H%elem_of_nil. done.
  - constructor.
Qed.

(** C11: Every suspicion has one fate.  However the goroutines of callers,
    timers and probes interleave, and whatever else happens to the members: a
    suspicion is settled at most once (replaced, refuted, cleared by a probe
    or declared dead), and it is settled exactly when it is no longer
    recorded; while it is recorded it is not dead.  A refutation had a higher
    incarnation, a refuted suspicion is never declared dead, and the calls of
    [OnDead], made or about to be made, are the deaths, one call for each. *)
Theorem suspicion_one_fate (cfg : SuspicionConfig) (start : Z) (members : gmap nat Member) (sm : SuspicionManager) (pool : list pc) (tr : list (nat * fate)) :
  exec cfg start members (sm, pool) tr ->
  NoDup tr.*1 /\
  (forall e en, sm_entries sm !! e = Some en ->
     ((exists f, (e, f) ∈ tr) <-> ~ exists id, sm_records sm !! id = Some e) /\ (se_dead en = true <-> (e, Died) ∈ tr)) /\
  (forall e inc, (e, Refuted inc) ∈ tr -> exists en, sm_entries sm !! e = Some en /\ se_incarnation en < inc /\ se_dead en = false) /\
  (sm_onDead sm = true ->
     omap dead_call (sm_calls sm) ++ omap dead_pending pool ≡ₚ omap (fun x => match x.2 with Died => entry_id sm x.1 | _ => None end) tr).
Proof.
  intros He%exec_ok. destruct He as [H Hc]. simpl in *. pose proof H as [H1 H2 H3 H4 H5].
  assert (forall e, (exists f, (e, f) ∈ tr) <-> e ∈ tr.*1) as Hdom.
  { intros e. rewrite list_elem_of_fmap. split; [intros [f Hf]; by exists (e, f)|intros ([e' f] & -> & Hf); by exists f]. }
  split_and!; [done| | |exact Hc].
  - intros e en Hen. rewrite Hdom. split; [split|split].
    + intros Hin [id Hid]. by destruct (H2 _ _ Hid).
    + intros Hno. destruct (decide (e ∈ tr.*1)) as [|Hn]; [done|]. destruct (H3 _ _ Hen Hn) as [_ ?]. done.
    + intros Hd. destruct (decide (e ∈ tr.*1)) as [Hin|Hn]; [|destruct (H3 _ _ Hen Hn); congruence].
      apply Hdom in Hin as [f Hf]. destruct (H4 _ _ Hf) as (en' & Hen' & Hiff & _). rewrite Hen in Hen'. injection Hen' as <-. by rewrite <- (proj1 Hiff Hd).
    + intros Hin. destruct (H4 _ _ Hin) as (en' & Hen' & Hiff & _). rewrite Hen in Hen'. injection Hen' as <-. by apply Hiff.
  - intros e inc Hin. destruct (H4 _ _ Hin) as (en & Hen & Hiff & Hlt). exists en. split_and!; try done. destruct (se_dead en); [|done]. by pose proof (proj1 Hiff eq_refl).
Qed.

(** ** Schedules that can be run *)

Inductive action := ASuspect (p : nat) (inc : Z) | ARefute (id : string) (inc : Z) | AFire (t : nat) | ATime (d : Z) | AGo (i : nat) (reached : bool).

Definition act (s : SuspicionManager * list pc) (a : action) : option ((SuspicionManager * list pc) * list (nat * fate)) :=
  let '(sm, pool) := s in
  match a with
  | ASuspect p inc => match suspect_update sm p inc 0 with (sm', true) => Some ((sm', PArm p inc (sm_relays sm) :: pool), []) | _ => None end
  | ARefute id inc => match refute_drop sm id inc with Some (sm', p) => Some ((sm', PAlive p id inc :: pool), settles sm id (Refuted inc)) | None => None end
  | AFire t =>
      match ck_timers (sm_clock sm) !! t with
      | Some x => if decide (tm_deadline x <= ck_now (sm_clock sm))
                  then Some ((with_clock sm (stop (sm_clock sm) t).1, PTimeout (tm_fn x) :: pool), []) else None
      | None => None
      end
  | ATime d => if decide (0 <= d)
               then Some ((with_clock sm (mkClock (ck_now (sm_clock sm) + d) (ck_nextID (sm_clock sm)) (ck_timers (sm_clock sm))), pool), []) else None
  | AGo i reached =>
      match pool !! i with
      | Some c => Some (((pc_step reached 0 sm c).1, option_list (pc_step reached 0 sm c).2 ++ delete i pool), pc_fates sm c)
      | None => None
      end
  end.

Fixpoint acts (s : SuspicionManager * list pc) (tr : list (nat * fate)) (l : list action) : option ((SuspicionManager * list pc) * list (nat * fate)) :=
  match l with
  | [] => Some (s, tr)
  | a :: l => match act s a with Some (s', f) => acts s' (tr ++ f) l | None => None end
  end.

Lemma act_step s a s' f : act s a = Some (s', f) -> step s f s'.
Proof.
  destruct s as [sm pool], a as [p inc|id inc|t|d|i reached]; simpl.
  - destruct (suspect_update sm p inc 0) as [sm' []] eqn:E; [|done]. intros [= <- <-]. by eapply step_suspect.
  - destruct (refute_drop sm id inc) as [[sm' p]|] eqn:E; [|done]. intros [= <- <-]. by apply step_refute.
  - destruct (ck_timers (sm_clock sm) !! t) as [x|] eqn:E; [|done]. case_decide; [|done]. intros [= <- <-]. by apply step_fire.
  - case_decide; [|done]. intros [= <- <-]. by apply step_time.
  - destruct (pool !! i) as [c|] eqn:E; [|done]. intros [= <- <-]. apply step_pc. by apply delete_Permutation.
Qed.

Lemma acts_exec cfg start members l s tr s' tr' : exec cfg start members s tr -> acts s tr l = Some (s', tr') -> exec cfg start members s' tr'.
Proof.
  revert s tr. induction l as [|a l IH]; intros s tr He; simpl; [by intros [= <- <-]|]. destruct (act s a) as [[s1 f]|] eqn:E; [|done].
  apply IH. eapply exec_step; [done|]. by eapply act_step.
Qed.

Module RaceDemo.

Definition demo_cfg : SuspicionConfig := mkConfig false 10 0 [] true true.
Definition demo_members : gmap nat Member := {[ 0%nat := mkMember "m" "addr" StateAlive 0 ∅ 0 ]}.
Definition demo_start : SuspicionManager * list pc := (NewSuspicionManager demo_cfg (NewManualClock 0) demo_members, []).

(** The timer fires, then the suspicion is refuted and the member suspected
    again, then the function of the timer runs. *)
Definition demo_schedule : list action :=
  [ASuspect 0 1; AGo 0 false; ATime 10; AFire 1; ARefute "m" 2; AGo 0 false; AGo 0 false; ASuspect 0 3; AGo 0 false;
   AGo 0 false; AGo 0 false; AGo 0 false; AGo 0 false].

Definition demo_end : (SuspicionManager * list pc) * list (nat * fate) := default (demo_start, []) (acts demo_start [] demo_schedule).

Lemma demo_exec : exec demo_cfg 0 demo_members (demo_end.1.1, demo_end.1.2) demo_end.2.
Proof.
  eapply (acts_exec demo_cfg 0 demo_members demo_schedule demo_start []); [constructor|]. unfold demo_end.
  destruct (acts demo_start [] demo_schedule) as [[[sm pool] tr]|] eqn:E; [done|]. by vm_compute in E.
Qed.

(** The second suspicion is ten nanoseconds short of its deadline when its
    member is declared dead. *)
Lemma stale_timeout_kills_early :
  demo_end.2 = [(0%nat, Refuted 2); (1%nat, Died)] /\ sm_calls demo_end.1.1 = [OnRefute "m"; OnDead "m"] /\
  ck_now (sm_clock demo_end.1.1) = 10 /\ tm_deadline <$> ck_timers (sm_clock demo_end.1.1) !! 2%nat = Some 20.
Proof. by vm_compute. Qed.

Lemma suspicion_one_fate_witness : NoDup [0%nat; 1%nat] /\ exists en, sm_entries demo_end.1.1 !! 0%nat = Some en /\ se_incarnation en < 2 /\ se_dead en = false.
Proof.
  destruct (suspicion_one_fate demo_cfg 0 demo_members demo_end.1.1 demo_end.1.2 demo_end.2 demo_exec) as (H1 & _ & H3 & _).
  rewrite (proj1 stale_timeout_kills_early) in H1, H3. split; [exact H1|]. apply H3. left.
Defined.

End RaceDemo.
