(* ===== verification/Avro.v ===== *)
(** * Avro records with schema resolution (pkg/events/avro.go)

    Flat records of primitive fields, encoded in the order of the writer's
    schema behind a header with the fingerprint of that schema, and decoded
    into the fields of the reader's schema.  Bytes are integers from 0 to 255;
    a Go value of type [any] is a [gval], with strings as their bytes and
    floating-point numbers as their bits.  A registry maps fingerprints to
    schemas, which nobody changes after they are registered.

    The main theorem: what one schema writes, any other schema reads by the
    rules of schema resolution, and nothing that is shorter or longer is
    accepted.  The fingerprint by table is the bit-serial one. *)
From stdpp Require Import base gmap sets list strings.
From Stdlib Require Import ZArith Lia.
From S2P Require Import Prelude Sha256.
Open Scope Z_scope.

Notation bytes := (list Z).

(** ** Schemas *)

Inductive AvroType := AvroString | AvroLong | AvroInt | AvroBoolean | AvroBytes | AvroDouble | AvroOther (name : string).

Definition type_name (t : AvroType) : string :=
  match t with
  | AvroString => "string" | AvroLong => "long" | AvroInt => "int" | AvroBoolean => "boolean" | AvroBytes => "bytes" | AvroDouble => "double"
  | AvroOther name => name
  end.

Inductive gval :=
  | VString (s : bytes) | VBytes (b : bytes) | VInt (n : Z) | VInt32 (n : Z) | VInt64 (n : Z) | VUint32 (n : Z) | VBool (b : bool)
  | VFloat64 (bits : Z) | VFloat32 (bits : Z) | VOther.

Record AvroField := mkField { Name : string; Type_ : AvroType; HasDefault : bool; Default : gval }.

Record AvroSchema := mkSchema { SchemaName : string; Fields : list AvroField }.

Definition dq : string := String (Ascii.ascii_of_nat 34) EmptyString.

(** A quoted name. *)
Definition quoted (s : string) : string := String.append dq (String.append s dq).

Fixpoint canonical_fields (first : bool) (fs : list AvroField) : string :=
  match fs with
  | [] => EmptyString
  | f :: fs =>
      String.append (if first then EmptyString else ",")
        (String.append "{" (String.append (quoted "name") (String.append ":" (String.append (quoted (Name f))
          (String.append "," (String.append (quoted "type") (String.append ":" (String.append (quoted (type_name (Type_ f)))
            (String.append "}" (canonical_fields false fs))))))))))
  end.

Definition canonicalForm (s : AvroSchema) : string :=
  String.append "{" (String.append (quoted "name") (String.append ":" (String.append (quoted (SchemaName s))
    (String.append "," (String.append (quoted "type") (String.append ":" (String.append (quoted "record")
      (String.append "," (String.append (quoted "fields") (String.append ":[" (String.append (canonical_fields true (Fields s)) "]}"))))))))))).

(** ** The fingerprint *)

Definition crc64_empty : Z := 0xc15d213aa4d7a795.

(** One turn of the inner loop of [init]. *)
Definition crc64_bit (fp : Z) : Z := Z.lxor (Z.shiftr fp 1) (Z.land crc64_empty (u64 (- Z.land fp 1))).

(** The entry of the table, which [init] computes. *)
Definition crc64AvroTable (i : Z) : Z := Nat.iter 8 crc64_bit i.

Definition crc64Avro (buf : bytes) : Z :=
  foldl (fun fp b => Z.lxor (Z.shiftr fp 8) (crc64AvroTable (Z.lxor (Z.land fp 255) b))) crc64_empty buf.

Definition Fingerprint (s : AvroSchema) : Z := crc64Avro (string_bytes (canonicalForm s)).

(** ** The registry *)

Definition SchemaRegistry : Type := gmap Z AvroSchema.
Definition NewSchemaRegistry : SchemaRegistry := ∅.
Definition Register (r : SchemaRegistry) (s : AvroSchema) : SchemaRegistry := <[Fingerprint s := s]> r.
Definition Lookup (r : SchemaRegistry) (fp : Z) : option AvroSchema := r !! fp.

(** ** Primitive values *)

(** [Panic] is not an error value: it stands for an index or a slice out of range. *)
Inductive avro_error :=
  | ErrMissingField | ErrWrongType | ErrIntRange | ErrUnsupported | ErrVarintOverflow | ErrVarintTruncated | ErrNegativeLength | ErrLength
  | ErrTruncated | ErrBoolean | ErrTooShort | ErrMarker | ErrUnknownSchema | ErrTrailing | ErrNotResolvable | Panic.

Notation result A := (avro_error + A)%type.

Definition bind_ {A B} (r : result A) (f : A -> result B) : result B := match r with inl e => inl e | inr x => f x end.
Notation "'do' p <- r ; k" := (bind_ r (fun x => let p := x in k)) (at level 200, p pattern, r at level 100, k at level 200).

(** The loop writes into an array of ten bytes. *)
Fixpoint varint_loop (room : nat) (u : Z) : option bytes :=
  match room with
  | O => None
  | S room =>
      if decide (128 <= u) then rest ← varint_loop room (Z.shiftr u 7); Some (Z.lor (u8 u) 128 :: rest)
      else Some [u8 u]
  end.

Definition zigzag (n : Z) : Z := Z.lxor (u64 (Z.shiftl n 1)) (u64 (Z.shiftr n 63)).

Definition encodeVarint (n : Z) : result bytes := match varint_loop 10 (zigzag n) with Some l => inr l | None => inl Panic end.

Definition unzigzag (u : Z) : Z := Z.lxor (i64 (Z.shiftr u 1)) (- Z.land u 1).

(** The value and the number of bytes read. *)
Fixpoint decode_loop (data : bytes) (u shift : Z) (i : nat) : result (Z * nat) :=
  match data with
  | [] => inl ErrVarintTruncated
  | b :: data =>
      if decide (64 <= shift) then inl ErrVarintOverflow
      else
        let u := Z.lor u (u64 (Z.shiftl (Z.land b 127) shift)) in
        if decide (Z.land b 128 = 0) then inr (unzigzag u, S i) else decode_loop data u (shift + 7) (S i)
  end.

Definition decodeVarint (data : bytes) : result (Z * nat) := decode_loop data 0 0 0.

Definition encodeBytesLike (b : bytes) : result bytes := do out <- encodeVarint (Z.of_nat (length b)); inr (out ++ b).

(** [data[lo:hi]] *)
Definition slice (data : bytes) (lo hi : Z) : result bytes :=
  if decide (0 <= lo <= hi /\ hi <= Z.of_nat (length data)) then inr (take (Z.to_nat (hi - lo)) (drop (Z.to_nat lo) data)) else inl Panic.

(** The sum of an offset and a length wraps around like every [int]. *)
Definition decodeBytesLike (data : bytes) : result (bytes * nat) :=
  do (n, adv) <- decodeVarint data;
  if decide (n < 0) then inl ErrNegativeLength
  else
    let end_ := i64 (Z.of_nat adv + n) in
    if decide (Z.of_nat (length data) < end_ \/ Z.of_nat (length data) < n) then inl ErrLength
    else do out <- slice data (Z.of_nat adv) end_; inr (out, Z.to_nat end_).

Definition toInt64 (v : gval) : option Z := match v with VInt n | VInt32 n | VInt64 n | VUint32 n => Some n | _ => None end.

(** The conversion of a single to a double; a NaN becomes quiet. *)
Definition widen (b : Z) : Z :=
  let s := Z.shiftr b 31 in let e := Z.land (Z.shiftr b 23) 255 in let m := Z.land b 8388607 in
  let join e m := m + e * 2 ^ 52 + s * 2 ^ 63 in
  if decide (e = 255) then join 2047 (if decide (m = 0) then 0 else Z.lor (Z.shiftl m 29) (Z.shiftl 1 51))
  else if decide (e = 0) then
    if decide (m = 0) then join 0 0 else let k := Z.log2 m in join (k + 874) (Z.shiftl (m - 2 ^ k) (52 - k))
  else join (e + 896) (Z.shiftl m 29).

Definition toFloat64 (v : gval) : option Z := match v with VFloat64 f => Some f | VFloat32 f => Some (widen f) | _ => None end.

Fixpoint PutUint (n : nat) (v : Z) : bytes := match n with O => [] | S n => u8 v :: PutUint n (Z.shiftr v 8) end.
Definition Uint (l : bytes) : Z := foldr (fun b acc => Z.lor b (Z.shiftl acc 8)) 0 l.

Definition encodeValue (t : AvroType) (v : gval) : result bytes :=
  match t with
  | AvroString => match v with VString s => encodeBytesLike s | _ => inl ErrWrongType end
  | AvroBytes => match v with VBytes b => encodeBytesLike b | _ => inl ErrWrongType end
  | AvroLong => match toInt64 v with Some n => encodeVarint n | None => inl ErrWrongType end
  | AvroInt =>
      match toInt64 v with
      | Some n => if decide (2147483647 < n \/ n < -2147483648) then inl ErrIntRange else encodeVarint n
      | None => inl ErrWrongType
      end
  | AvroBoolean => match v with VBool b => inr [if b then 1 else 0] | _ => inl ErrWrongType end
  | AvroDouble => match toFloat64 v with Some f => inr (PutUint 8 f) | None => inl ErrWrongType end
  | AvroOther _ => inl ErrUnsupported
  end.

Definition decodeValue (t : AvroType) (data : bytes) : result (gval * nat) :=
  match t with
  | AvroString => do (b, n) <- decodeBytesLike data; inr (VString b, n)
  | AvroBytes => do (b, n) <- decodeBytesLike data; inr (VBytes b, n)
  | AvroLong | AvroInt => do (n, adv) <- decodeVarint data; inr (VInt64 n, adv)
  | AvroBoolean =>
      match data with
      | [] => inl ErrTruncated
      | b :: _ => if decide (b = 0) then inr (VBool false, 1%nat) else if decide (b = 1) then inr (VBool true, 1%nat) else inl ErrBoolean
      end
  | AvroDouble => if decide (length data < 8)%nat then inl ErrTruncated else inr (VFloat64 (Uint (take 8 data)), 8%nat)
  | AvroOther _ => inl ErrUnsupported
  end.

(** ** Records *)

Fixpoint encode_fields (fs : list AvroField) (record : gmap string gval) (body : bytes) : result bytes :=
  match fs with
  | [] => inr body
  | f :: fs =>
      match record !! Name f with
      | None => inl ErrMissingField
      | Some v => do enc <- encodeValue (Type_ f) v; encode_fields fs record (body ++ enc)
      end
  end.

Definition encodeBody (schema : AvroSchema) (record : gmap string gval) : result bytes := encode_fields (Fields schema) record [].

Definition AvroEncode (schema : AvroSchema) (record : gmap string gval) : result bytes :=
  do body <- encodeBody schema record; inr ([195; 1] ++ PutUint 8 (Fingerprint schema) ++ body).

(** The loop over the writer's fields. *)
Fixpoint decode_fields (fs : list AvroField) (data : bytes) (pos : nat) (written : gmap string gval) : result (gmap string gval * nat) :=
  match fs with
  | [] => inr (written, pos)
  | f :: fs =>
      do rest <- slice data (Z.of_nat pos) (Z.of_nat (length data));
      do (v, n) <- decodeValue (Type_ f) rest;
      decode_fields fs data (pos + n) (<[Name f := v]> written)
  end.

Fixpoint resolve (fs : list AvroField) (written out : gmap string gval) : result (gmap string gval) :=
  match fs with
  | [] => inr out
  | rf :: fs =>
      match written !! Name rf with
      | Some v => resolve fs written (<[Name rf := v]> out)
      | None => if HasDefault rf then resolve fs written (<[Name rf := Default rf]> out) else inl ErrNotResolvable
      end
  end.

Definition AvroDecode (data : bytes) (registry : SchemaRegistry) (readerSchema : AvroSchema) : result (gmap string gval) :=
  if decide (length data < 10)%nat then inl ErrTooShort
  else if decide (take 2 data <> [195; 1]) then inl ErrMarker
  else
    match Lookup registry (Uint (take 8 (drop 2 data))) with
    | None => inl ErrUnknownSchema
    | Some writer =>
        do (written, pos) <- decode_fields (Fields writer) data 10 ∅;
        if decide (pos <> length data) then inl ErrTrailing else resolve (Fields readerSchema) written ∅
    end.

(** ** Machine arithmetic *)

Lemma testbit_high a s n : 0 <= a < 2 ^ s -> 0 <= s <= n -> Z.testbit a n = false.
Proof. intros Ha Hn. rewrite <- (Z.mod_small a (2 ^ s)) by lia. by rewrite Z.mod_pow2_bits_high. Qed.

Lemma lor_shiftl a x s : 0 <= s -> 0 <= a < 2 ^ s -> Z.lor a (Z.shiftl x s) = a + x * 2 ^ s.
Proof.
  intros Hs Ha. rewrite <- Z.shiftl_mul_pow2 by done. assert (Z.land a (Z.shiftl x s) = 0) as Hd; [|by rewrite Z.add_nocarry_lxor, Z.lxor_lor].
  apply Z.bits_inj'. intros n Hn. rewrite Z.land_spec, Z.bits_0. destruct (decide (n < s)).
  - by rewrite Z.shiftl_spec_low, andb_false_r by lia.
  - by rewrite (testbit_high a s n) by lia.
Qed.

Lemma lxor_ones x k : 0 <= k -> 0 <= x < 2 ^ k -> Z.lxor x (Z.ones k) = Z.ones k - x.
Proof.
  intros Hk Hx. rewrite Z.sub_nocarry_ldiff.
  - apply Z.bits_inj'. intros n Hn. rewrite Z.lxor_spec, Z.ldiff_spec. destruct (decide (n < k)).
    + rewrite Z.ones_spec_low by lia. by destruct (Z.testbit x n).
    + rewrite Z.ones_spec_high, (testbit_high x k n) by lia. done.
  - apply Z.bits_inj'. intros n Hn. rewrite Z.ldiff_spec, Z.bits_0. destruct (decide (n < k)).
    + by rewrite Z.ones_spec_low, andb_false_r by lia.
    + by rewrite (testbit_high x k n) by lia.
Qed.

Lemma zigzag_spec n : is_i64 n -> zigzag n = if decide (0 <= n) then 2 * n else - 2 * n - 1.
Proof.
  unfold is_i64, MaxInt64, MinInt64, zigzag, u64. intros Hn. rewrite Z.shiftl_mul_pow2, Z.shiftr_div_pow2 by lia. case_decide as Hp.
  - rewrite (Z.div_small n) by lia. rewrite Z.mod_0_l, Z.lxor_0_r by lia. rewrite Z.mod_small by lia. lia.
  - replace (n / 2 ^ 63) with (-1) by (apply (Z.div_unique_pos n (2 ^ 63) (-1) (n + 2 ^ 63)); lia). change (-1 mod 18446744073709551616) with (Z.ones 64).
    replace (n * 2 ^ 1 mod 18446744073709551616) with (2 ^ 64 + 2 * n) by (apply (Z.mod_unique_pos _ _ (-1)); lia). rewrite lxor_ones by lia.
    rewrite Z.ones_equiv. lia.
Qed.

Lemma unzigzag_zigzag n : is_i64 n -> unzigzag (zigzag n) = n.
Proof.
  intros Hn. rewrite zigzag_spec by done. unfold unzigzag, is_i64, MaxInt64, MinInt64, i64 in *. rewrite Z.shiftr_div_pow2 by lia. rewrite (Z.land_ones _ 1) by lia.
  case_decide as Hp.
  - replace (2 * n mod 2 ^ 1) with 0 by (Z.to_euclidean_division_equations; lia). rewrite Z.lxor_0_r. change (2 ^ 1) with 2. Z.to_euclidean_division_equations; lia.
  - replace ((-2 * n - 1) mod 2 ^ 1) with 1 by (Z.to_euclidean_division_equations; lia). rewrite Z.lxor_m1_r. unfold Z.lnot. change (2 ^ 1) with 2.
    Z.to_euclidean_division_equations; lia.
Qed.

Lemma zigzag_range n : is_i64 n -> 0 <= zigzag n < 2 ^ 64.
Proof. intros Hn. rewrite zigzag_spec by done. unfold is_i64, MaxInt64, MinInt64 in Hn. case_decide; lia. Qed.

(** ** Varints *)

(** The loop ends before the array is full. *)
Lemma varint_total room u : 0 <= u < 2 ^ (7 * Z.of_nat room) -> (0 < room)%nat -> exists l, varint_loop room u = Some l /\ l <> [].
Proof.
  revert u. induction room as [|room IH]; intros u Hu Hr; [lia|]. cbn [varint_loop]. case_decide as Hc; [|by exists [u8 u]].
  assert (Z.shiftr u 7 = u / 2 ^ 7) as E by (by apply Z.shiftr_div_pow2). destruct room as [|room]; [exfalso; lia|].
  destruct (IH (Z.shiftr u 7)) as (l & -> & _); [|lia|]. { rewrite E. replace (7 * Z.of_nat (S (S room))) with (7 * Z.of_nat (S room) + 7) in Hu by lia. rewrite Z.pow_add_r in Hu by lia.
    split; [apply Z.div_pos; lia|]. apply Z.div_lt_upper_bound; lia. }
  eexists. by split.
Qed.

Lemma low_bits u : 0 <= u -> Z.land (Z.lor (u8 u) 128) 127 = u mod 128 /\ Z.land (Z.lor (u8 u) 128) 128 <> 0.
Proof.
  intros Hu. unfold u8. assert (0 <= u mod 256 < 256) as Hr by (apply Z.mod_pos_bound; lia). rewrite <- (Z.mod_mod_divide u 256 128) by (by exists 2).
  assert (Forall (fun b => Z.land (Z.lor b 128) 127 = b mod 128 /\ Z.land (Z.lor b 128) 128 <> 0) (seqZ 0 256)) as H by by_eval.
  rewrite Forall_forall in H. apply H. apply elem_of_seqZ. lia.
Qed.

Lemma last_bits u : 0 <= u < 128 -> Z.land (u8 u) 127 = u /\ Z.land (u8 u) 128 = 0.
Proof.
  intros Hu. unfold u8. rewrite Z.mod_small by lia. assert (Forall (fun b => Z.land b 127 = b /\ Z.land b 128 = 0) (seqZ 0 128)) as H by by_eval.
  rewrite Forall_forall in H. apply H. apply elem_of_seqZ. lia.
Qed.

Lemma decode_varint_loop room u l rest acc shift i :
  varint_loop room u = Some l -> 0 <= u -> 0 <= acc < 2 ^ shift -> 0 <= shift < 64 -> acc + u * 2 ^ shift < 2 ^ 64 ->
  decode_loop (l ++ rest) acc shift i = inr (unzigzag (acc + u * 2 ^ shift), (i + length l)%nat).
Proof.
  revert u l acc shift i. induction room as [|room IH]; intros u l acc shift i; [done|]. cbn [varint_loop]. case_decide as Hc.
  - destruct (varint_loop room (Z.shiftr u 7)) as [l'|] eqn:E; [|done]. simpl. intros [= <-] Hu Ha Hs Hlt. cbn [app decode_loop].
    rewrite decide_False by lia. destruct (low_bits u Hu) as [-> Hc8]. rewrite decide_False by done.
    assert (u = u mod 128 + 128 * (u / 128)) as Eu by (rewrite Z.add_comm; apply Z.div_mod; lia). pose proof (Z.mod_pos_bound u 128 ltac:(lia)) as Hm.
    assert (0 < 2 ^ shift) as Hp by (apply Z.pow_pos_nonneg; lia).
    assert (u64 (Z.shiftl (u mod 128) shift) = Z.shiftl (u mod 128) shift) as ->.
    { unfold u64. apply Z.mod_small. rewrite Z.shiftl_mul_pow2 by lia. split; [lia|]. change 18446744073709551616 with (2 ^ 64). nia. }
    rewrite lor_shiftl by lia. rewrite Z.shiftr_div_pow2 in E by lia. change (2 ^ 7) with 128 in E.
    assert (2 ^ (shift + 7) = 2 ^ shift * 128) as Ep by (rewrite Z.pow_add_r by lia; done).
    assert (128 * 2 ^ shift < 2 ^ 64) as Hbig by nia. assert (shift + 7 < 64) as Hs7 by (apply (Z.pow_lt_mono_r_iff 2); lia).
    erewrite IH; [|exact E|apply Z.div_pos; lia|rewrite Ep; nia|lia|rewrite Ep; nia]. f_equal. f_equal; [|simpl; lia]. f_equal. rewrite Ep.
    replace (u * 2 ^ shift) with ((u mod 128 + 128 * (u / 128)) * 2 ^ shift) by (by rewrite <- Eu). ring.
  - intros [= <-] Hu Ha Hs Hlt. cbn [app decode_loop]. rewrite decide_False by lia. destruct (last_bits u) as [-> ->]; [lia|]. rewrite decide_True by done.
    assert (u64 (Z.shiftl u shift) = Z.shiftl u shift) as ->; [|rewrite lor_shiftl by lia; f_equal; f_equal; simpl; lia].
    unfold u64. apply Z.mod_small. rewrite Z.shiftl_mul_pow2 by lia. change 18446744073709551616 with (2 ^ 64). nia.
Qed.

(** A varint that was cut is refused. *)
Lemma decode_varint_cut room u l pre x rest acc shift i :
  varint_loop room u = Some l -> 0 <= u -> l = pre ++ x :: rest -> exists e, decode_loop pre acc shift i = inl e.
Proof.
  revert u l pre acc shift i. induction room as [|room IH]; intros u l pre acc shift i; [done|]. cbn [varint_loop]. case_decide as Hc.
  - destruct (varint_loop room (Z.shiftr u 7)) as [l'|] eqn:E; [|done]. simpl. intros [= <-] Hu El. destruct pre as [|b pre]; [by eexists|].
    injection El as <- El. cbn [decode_loop]. case_decide; [by eexists|]. destruct (low_bits u Hu) as [_ Hc8]. rewrite decide_False by done.
    eapply IH; [exact E|by apply Z.shiftr_nonneg|exact El].
  - intros [= <-] Hu El. destruct pre as [|b pre]; [by eexists|]. by destruct pre.
Qed.

(** A codec of one value: what was encoded is decoded with whatever follows
    it, and no part of it is accepted instead. *)
Definition decodes {A} (dec : bytes -> result (A * nat)) (l : bytes) (x : A) : Prop :=
  l <> [] /\ (forall rest, dec (l ++ rest) = inr (x, length l)) /\ (forall pre y rest, l = pre ++ y :: rest -> exists e, dec pre = inl e).

Lemma encodeVarint_spec n : is_i64 n -> exists l, encodeVarint n = inr l /\ decodes decodeVarint l n.
Proof.
  intros Hn. pose proof (zigzag_range n Hn) as Hz. destruct (varint_total 10 (zigzag n)) as (l & El & Hne); [lia|lia|]. exists l. unfold encodeVarint, decodes. rewrite El.
  split_and!; [done|done| |].
  - intros rest. unfold decodeVarint. erewrite decode_varint_loop; [|exact El|lia|lia|lia|lia]. rewrite Z.pow_0_r, Z.mul_1_r, Z.add_0_l. by rewrite unzigzag_zigzag.
  - intros pre x rest Hl. eapply decode_varint_cut; [exact El|lia|exact Hl].
Qed.

(** ** Byte strings *)

(** A slice that leaves room for its length: Go's memory is far smaller. *)
Definition fits (b : bytes) : Prop := Z.of_nat (length b) < 2 ^ 63 - 10.

Lemma varint_length n l : encodeVarint n = inr l -> (length l <= 10)%nat.
Proof.
  unfold encodeVarint. destruct (varint_loop 10 (zigzag n)) as [l'|] eqn:E; [|done]. intros [= <-]. revert E. generalize (zigzag n) as u. generalize 10%nat as room.
  intros room. revert l'. induction room as [|room IH]; intros l' u; [done|]. cbn [varint_loop]. case_decide; [|intros [= <-]; simpl; lia].
  destruct (varint_loop room (Z.shiftr u 7)) as [l0|] eqn:E; [|done]. intros [= <-]. apply IH in E. simpl. lia.
Qed.

(** Where a cut through two parts falls. *)
Lemma cut_app (l b pre : bytes) y rest :
  l ++ b = pre ++ y :: rest -> (exists x r, l = pre ++ x :: r) \/ (exists q r, pre = l ++ q /\ b = q ++ y :: r).
Proof.
  intros [k [[-> E]|[-> E]]]%app_eq_app; [|right; by exists k, rest]. destruct k as [|x r]; [|left; by exists x, r].
  right. exists [], rest. rewrite !app_nil_r. done.
Qed.

Lemma encodeBytesLike_spec b : fits b -> exists l, encodeBytesLike b = inr l /\ decodes decodeBytesLike l b.
Proof.
  unfold fits. intros Hb. destruct (encodeVarint_spec (Z.of_nat (length b))) as (l & El & Hne & Hdec & Hcut); [unfold is_i64, MaxInt64, MinInt64; lia|].
  pose proof (varint_length _ _ El) as Hlen. exists (l ++ b). unfold encodeBytesLike. rewrite El. split; [done|]. unfold decodes, decodeBytesLike. split_and!.
  - by destruct l.
  - intros rest. rewrite <- app_assoc, Hdec. simpl. rewrite decide_False by lia. rewrite i64_id by (unfold is_i64, MaxInt64, MinInt64; lia). rewrite !length_app.
    rewrite decide_False by lia. unfold slice. rewrite decide_True by (rewrite !length_app; lia). simpl. f_equal. f_equal; [|lia].
    rewrite Nat2Z.id, drop_app_length. replace (Z.to_nat _) with (length b) by lia. apply take_app_length.
  - intros pre y rest E. destruct (cut_app _ _ _ _ _ E) as [(x & r & ->)|(q & r & -> & ->)]; [destruct (Hcut pre x r eq_refl) as [e ->]; by exists e|].
    rewrite length_app in *. simpl length in *.
    rewrite Hdec. simpl. rewrite decide_False by lia. rewrite i64_id by (unfold is_i64, MaxInt64, MinInt64; lia). rewrite decide_True by lia. by eexists.
Qed.

(** ** Fixed-width integers *)

Lemma Uint_PutUint n v : 0 <= v < 2 ^ (8 * Z.of_nat n) -> Uint (PutUint n v) = v.
Proof.
  revert v. induction n as [|n IH]; intros v Hv; [simpl in *; lia|]. cbn [PutUint]. unfold Uint in *. cbn [foldr].
  replace (8 * Z.of_nat (S n)) with (8 * Z.of_nat n + 8) in Hv by lia. rewrite Z.pow_add_r in Hv by lia.
  rewrite IH, Z.shiftr_div_pow2 by (rewrite ?Z.shiftr_div_pow2 by lia; split; [apply Z.div_pos; lia|apply Z.div_lt_upper_bound; lia] || lia).
  unfold u8. rewrite lor_shiftl by (change (2 ^ 8) with 256; pose proof (Z.mod_pos_bound v 256); lia). change (2 ^ 8) with 256. pose proof (Z.div_mod v 256). lia.
Qed.

Lemma length_PutUint n v : length (PutUint n v) = n.
Proof. revert v. induction n as [|n IH]; intros v; simpl; [done|]. by rewrite IH. Qed.

Lemma lor_bound a b k : 0 <= k -> 0 <= a < 2 ^ k -> 0 <= b < 2 ^ k -> 0 <= Z.lor a b < 2 ^ k.
Proof.
  intros Hk Ha Hb. assert (Z.lor a b = Z.lor a b mod 2 ^ k) as ->; [|apply Z.mod_pos_bound; lia].
  apply Z.bits_inj'. intros n Hn. destruct (decide (n < k)); [by rewrite Z.mod_pow2_bits_low by lia|].
  rewrite Z.mod_pow2_bits_high, Z.lor_spec by lia. by rewrite !(testbit_high _ k n) by lia.
Qed.

Lemma widen_range f : 0 <= f < 2 ^ 32 -> 0 <= widen f < 2 ^ 64.
Proof.
  intros Hf. unfold widen. assert (0 <= Z.shiftr f 31 < 2) as Hs by (rewrite Z.shiftr_div_pow2 by lia; split; [apply Z.div_pos; lia|apply Z.div_lt_upper_bound; lia]).
  rewrite (Z.land_ones _ 8), (Z.land_ones _ 23) by lia. pose proof (Z.mod_pos_bound (Z.shiftr f 23) (2 ^ 8) ltac:(lia)) as He.
  pose proof (Z.mod_pos_bound f (2 ^ 23) ltac:(lia)) as Hm. set (e := Z.shiftr f 23 mod 2 ^ 8) in *. set (m := f mod 2 ^ 23) in *. clearbody e m.
  assert (0 <= Z.shiftl m 29 < 2 ^ 52) as Hsh by (rewrite Z.shiftl_mul_pow2 by lia; lia).
  repeat case_decide; try lia.
  - pose proof (lor_bound (Z.shiftl m 29) (Z.shiftl 1 51) 52 ltac:(lia) Hsh ltac:(done)). lia.
  - pose proof (Z.log2_spec m ltac:(lia)) as Hl. assert (0 <= Z.log2 m < 23) as Hk by (split; [apply Z.log2_nonneg|apply Z.log2_lt_pow2; lia]).
    set (k := Z.log2 m) in *. clearbody k. rewrite Z.pow_succ_r in Hl by lia. rewrite Z.shiftl_mul_pow2 by lia.
    assert (2 ^ k * 2 ^ (52 - k) = 2 ^ 52) as Ep by (rewrite <- Z.pow_add_r by lia; f_equal; lia). assert (0 < 2 ^ (52 - k)) by (apply Z.pow_pos_nonneg; lia). nia.
Qed.

(** ** Values *)

Definition gval_ok (v : gval) : Prop :=
  match v with
  | VString b | VBytes b => fits b
  | VInt n | VInt64 n => is_i64 n
  | VInt32 n => - 2 ^ 31 <= n < 2 ^ 31
  | VUint32 n => 0 <= n < 2 ^ 32
  | VFloat64 f => 0 <= f < 2 ^ 64
  | VFloat32 f => 0 <= f < 2 ^ 32
  | VBool _ | VOther => True
  end.

(** A value as it comes back: integers are [int64] and floats [float64]. *)
Definition norm (v : gval) : gval :=
  match v with VInt n | VInt32 n | VUint32 n => VInt64 n | VFloat32 f => VFloat64 (widen f) | v => v end.

Lemma decodes_map {A B} (dec : bytes -> result (A * nat)) (dec' : bytes -> result (B * nat)) (f : A -> B) l x :
  (forall data, dec' data = do (a, n) <- dec data; inr (f a, n)) -> decodes dec l x -> decodes dec' l (f x).
Proof.
  intros Hd (H1 & H2 & H3). split_and!; [done|intros rest; by rewrite Hd, H2|]. intros pre y rest E. rewrite Hd. destruct (H3 pre y rest E) as [e ->]. by exists e.
Qed.

Lemma toInt64_ok v n : gval_ok v -> toInt64 v = Some n -> is_i64 n /\ norm v = VInt64 n.
Proof. unfold is_i64, MaxInt64, MinInt64. destruct v; simpl; intros Hv [= <-]; unfold is_i64, MaxInt64, MinInt64 in *; split; (done || lia). Qed.

Lemma encodeValue_spec t v :
  gval_ok v -> match encodeValue t v with inr l => decodes (decodeValue t) l (norm v) | inl e => e <> Panic end.
Proof.
  intros Hv. destruct t as [| | | | | |name]; cbn [encodeValue]; [| | | | | |done].
  - destruct v as [s| | | | | | | | |]; try done. destruct (encodeBytesLike_spec s Hv) as (l & -> & Hd). by eapply (decodes_map _ _ VString).
  - destruct (toInt64 v) as [n|] eqn:E; [|done]. destruct (toInt64_ok v n Hv E) as [Hn ->]. destruct (encodeVarint_spec n Hn) as (l & -> & Hd).
    by eapply (decodes_map _ _ VInt64).
  - destruct (toInt64 v) as [n|] eqn:E; [|done]. destruct (toInt64_ok v n Hv E) as [Hn ->]. case_decide; [done|]. destruct (encodeVarint_spec n Hn) as (l & -> & Hd).
    by eapply (decodes_map _ _ VInt64).
  - destruct v as [| | | | | |b| | |]; try done. split_and!; [done|by destruct b|]. intros [|? [|? ?]] y rest E; [by exists ErrTruncated|done|done].
  - destruct v as [|b| | | | | | | |]; try done. destruct (encodeBytesLike_spec b Hv) as (l & -> & Hd). by eapply (decodes_map _ _ VBytes).
  - assert (forall f, toFloat64 v = Some f -> 0 <= f < 2 ^ 64 /\ norm v = VFloat64 f) as Hf.
    { destruct v; simpl in *; try done; intros f [= <-]; [done|]. split; [by apply widen_range|done]. }
    destruct (toFloat64 v) as [f|]; [|done]. destruct (Hf f eq_refl) as [Hr ->]. pose proof (length_PutUint 8 f) as Hl. split_and!.
    + done.
    + intros rest. unfold decodeValue. rewrite length_app, Hl. rewrite decide_False by lia. rewrite <- Hl at 1. rewrite take_app_length, Uint_PutUint by (simpl; lia). done.
    + intros pre y rest E. exists ErrTruncated. unfold decodeValue. rewrite decide_True; [done|]. rewrite E, length_app in Hl. simpl in Hl. lia.
Qed.

(** ** Records *)

Lemma slice_rest (pre x : bytes) : slice (pre ++ x) (Z.of_nat (length pre)) (Z.of_nat (length (pre ++ x))) = inr x.
Proof.
  unfold slice. rewrite decide_True by (rewrite length_app; lia). f_equal. rewrite Nat2Z.id, drop_app_length. apply take_ge. rewrite length_app. lia.
Qed.

Definition names (s : AvroSchema) : list string := Name <$> Fields s.

(** The values the writer's fields leave. *)
Definition absorb (record : gmap string gval) (fs : list AvroField) (written : gmap string gval) : gmap string gval :=
  foldl (fun m f => match record !! Name f with Some v => <[Name f := norm v]> m | None => m end) written fs.

Lemma written_lookup record fs written k :
  (forall f, f ∈ fs -> is_Some (record !! Name f)) ->
  absorb record fs written !! k = if decide (k ∈ Name <$> fs) then norm <$> record !! k else written !! k.
Proof.
  revert written. induction fs as [|f fs IH]; intros written Hin; [done|]. unfold absorb in *. cbn [foldl]. destruct (Hin f) as [v Hv]; [left|]. rewrite Hv, fmap_cons.
  rewrite IH by (intros; apply Hin; by right). destruct (decide (k = Name f)) as [->|Hne].
  - rewrite (decide_True (P := Name f ∈ Name f :: (Name <$> fs))) by left. case_decide; [done|]. by rewrite lookup_insert_eq, Hv.
  - rewrite lookup_insert_ne by done. destruct (decide (k ∈ Name <$> fs)) as [H1|H1], (decide (k ∈ Name f :: (Name <$> fs))) as [H2|H2]; try done;
      exfalso; rewrite elem_of_cons in H2; tauto.
Qed.

Lemma fields_spec fs record :
  (forall k v, record !! k = Some v -> gval_ok v) -> forall body,
  match encode_fields fs record body with
  | inl e => e <> Panic
  | inr out => exists enc, out = body ++ enc /\ (forall f, f ∈ fs -> is_Some (record !! Name f)) /\
      (forall pre rest written, decode_fields fs (pre ++ enc ++ rest) (length pre) written = inr (absorb record fs written, (length pre + length enc)%nat)) /\
      (forall pre q y r written, enc = q ++ y :: r -> exists e, decode_fields fs (pre ++ q) (length pre) written = inl e)
  end.
Proof.
  intros Hok. induction fs as [|f fs IH]; intros body; cbn [encode_fields].
  { exists []. rewrite app_nil_r. split_and!; [done|by intros f ?%elem_of_nil|intros pre rest written; simpl; by rewrite Nat.add_0_r|by intros pre [|? ?] y r written]. }
  destruct (record !! Name f) as [v|] eqn:Ev; [|done]. pose proof (encodeValue_spec (Type_ f) v (Hok _ _ Ev)) as Hv. destruct (encodeValue (Type_ f) v) as [e|l]; [done|].
  cbn [bind_]. destruct Hv as (Hne & Hdec & Hcut). specialize (IH (body ++ l)). destruct (encode_fields fs record (body ++ l)) as [e|out]; [done|].
  destruct IH as (enc & -> & Hin & Hd & Hc). exists (l ++ enc). split_and!.
  - by rewrite app_assoc.
  - intros f' [->|Hf]%elem_of_cons; [by exists v|by apply Hin].
  - intros pre rest written. cbn [decode_fields]. rewrite slice_rest. cbn [bind_]. rewrite <- app_assoc, Hdec. cbn [bind_].
    replace (pre ++ l ++ enc ++ rest) with ((pre ++ l) ++ enc ++ rest) by (by rewrite <- !app_assoc). rewrite <- length_app, Hd. unfold absorb. cbn [foldl]. rewrite Ev.
    do 2 f_equal. rewrite !length_app. lia.
  - intros pre q y r written E. cbn [decode_fields]. rewrite slice_rest. cbn [bind_]. destruct (cut_app _ _ _ _ _ E) as [(x & r' & ->)|(q' & r' & -> & ->)].
    + destruct (Hcut q x r' eq_refl) as [e ->]. by exists e.
    + rewrite Hdec. cbn [bind_]. rewrite app_assoc, <- length_app. by eapply Hc.
Qed.

Lemma resolve_spec fs written out :
  NoDup (Name <$> fs) ->
  if decide (Forall (fun rf => is_Some (written !! Name rf) \/ HasDefault rf = true) fs)
  then exists out', resolve fs written out = inr out' /\
         (forall rf, rf ∈ fs -> out' !! Name rf = match written !! Name rf with Some v => Some v | None => Some (Default rf) end) /\
         (forall k, k ∉ Name <$> fs -> out' !! k = out !! k)
  else resolve fs written out = inl ErrNotResolvable.
Proof.
  revert out. induction fs as [|rf fs IH]; intros out Hnd.
  { rewrite decide_True by constructor. exists out. split_and!; [done|by intros rf ?%elem_of_nil|done]. }
  rewrite fmap_cons in Hnd. apply NoDup_cons in Hnd as [Hn Hnd]. cbn [resolve].
  assert (forall v, match written !! Name rf with Some v => Some v | None => Some (Default rf) end = Some v ->
    (is_Some (written !! Name rf) \/ HasDefault rf = true) ->
    if decide (Forall (fun rf => is_Some (written !! Name rf) \/ HasDefault rf = true) (rf :: fs))
    then exists out', resolve fs written (<[Name rf := v]> out) = inr out' /\
         (forall rf', rf' ∈ rf :: fs -> out' !! Name rf' = match written !! Name rf' with Some v => Some v | None => Some (Default rf') end) /\
         (forall k, k ∉ Name rf :: (Name <$> fs) -> out' !! k = out !! k)
    else resolve fs written (<[Name rf := v]> out) = inl ErrNotResolvable) as Hstep.
  { intros v Hv Hrf. specialize (IH (<[Name rf := v]> out) Hnd). destruct (decide (Forall _ fs)) as [Hall|Hall].
    - rewrite decide_True by (by constructor). destruct IH as (out' & -> & H1 & H2). exists out'. split_and!; [done| |].
      + intros rf' [->|Hin]%elem_of_cons; [|by apply H1]. rewrite H2 by done. by rewrite lookup_insert_eq, Hv.
      + intros k Hk. rewrite not_elem_of_cons in Hk. rewrite H2 by tauto. apply lookup_insert_ne. by destruct Hk as [? _].
    - rewrite decide_False by (by intros [_ ?]%Forall_cons). done. }
  destruct (written !! Name rf) as [v|] eqn:Ew; [apply (Hstep v); [done|left; by eexists]|]. destruct (HasDefault rf) eqn:Ed; [apply Hstep; [done|by right]|].
  rewrite decide_False; [done|]. intros [[[? ?]|?] _]%Forall_cons; congruence.
Qed.

(** ** Arbitrary input *)

Lemma decode_loop_bound data u i n k : decode_loop data u (7 * Z.of_nat i) i = inr (n, k) -> (i < k <= 10)%nat /\ (k <= i + length data)%nat.
Proof.
  revert u i. induction data as [|b data IH]; intros u i; [done|]. cbn [decode_loop]. case_decide as Hs; [done|]. case_decide; [intros [= _ <-]; simpl; lia|].
  replace (7 * Z.of_nat i + 7) with (7 * Z.of_nat (S i)) by lia. intros [H1 H2]%IH. simpl. lia.
Qed.

Lemma decode_loop_safe data u shift i : decode_loop data u shift i <> inl Panic.
Proof. revert u shift i. induction data as [|b data IH]; intros u shift i; [done|]. cbn [decode_loop]. case_decide; [done|]. case_decide; [done|]. apply IH. Qed.

(** The checks before the slice keep it in range, although the sum may wrap. *)
Lemma decodeBytesLike_safe data :
  fits data -> match decodeBytesLike data with inl e => e <> Panic | inr (_, n) => (n <= length data)%nat end.
Proof.
  unfold fits. intros Hd. unfold decodeBytesLike. destruct (decodeVarint data) as [e|[n adv]] eqn:E; cbn [bind_].
  { intros ->. by apply decode_loop_safe in E. }
  apply (decode_loop_bound data 0 0) in E as [Hadv Hlen]. case_decide; [done|]. destruct (decide (Z.of_nat (length data) < n)) as [Hbig|Hsmall].
  { rewrite decide_True by (by right). done. }
  rewrite i64_id by (unfold is_i64, MaxInt64, MinInt64; lia). case_decide as Hc; [done|]. unfold slice. rewrite decide_True by lia. simpl. lia.
Qed.

Lemma decodeValue_safe t data : fits data -> match decodeValue t data with inl e => e <> Panic | inr (_, n) => (n <= length data)%nat end.
Proof.
  intros Hd. pose proof (decodeBytesLike_safe data Hd) as Hb.
  assert (match decodeVarint data with inl e => e <> Panic | inr (_, n) => (n <= length data)%nat end) as Hv.
  { destruct (decodeVarint data) as [e|[n adv]] eqn:E; [intros ->; by apply decode_loop_safe in E|]. by apply (decode_loop_bound data 0 0) in E as [_ ?]. }
  destruct t as [| | | | | |name]; cbn [decodeValue]; try done.
  - by destruct (decodeBytesLike data) as [e|[b n]].
  - by destruct (decodeVarint data) as [e|[b n]].
  - by destruct (decodeVarint data) as [e|[b n]].
  - destruct data as [|b data]; [done|]. repeat case_decide; simpl; (done || lia).
  - by destruct (decodeBytesLike data) as [e|[b n]].
  - case_decide; [done|]. lia.
Qed.

Lemma decode_fields_safe fs data pos written : fits data -> (pos <= length data)%nat -> decode_fields fs data pos written <> inl Panic.
Proof.
  intros Hd. revert pos written. induction fs as [|f fs IH]; intros pos written Hp; [done|]. cbn [decode_fields].
  rewrite <- (take_drop pos data) at 1 2. replace (Z.of_nat pos) with (Z.of_nat (length (take pos data))) by (rewrite length_take; lia). rewrite slice_rest. cbn [bind_].
  assert (fits (drop pos data)) as Hf by (unfold fits in *; rewrite length_drop; lia).
  pose proof (decodeValue_safe (Type_ f) (drop pos data) Hf) as Hv. destruct (decodeValue (Type_ f) (drop pos data)) as [e|[v n]]; cbn [bind_].
  - intros [= ->]. by apply Hv.
  - apply IH. rewrite length_drop in Hv. lia.
Qed.

Lemma resolve_safe fs written out : resolve fs written out <> inl Panic.
Proof. revert out. induction fs as [|rf fs IH]; intros out; [done|]. cbn [resolve]. destruct (written !! Name rf); [apply IH|]. destruct (HasDefault rf); [apply IH|done]. Qed.

(** ** The fingerprint by table *)

Lemma crc64_bit_linear a b : crc64_bit (Z.lxor a b) = Z.lxor (crc64_bit a) (crc64_bit b).
Proof.
  unfold crc64_bit. rewrite Z.shiftr_lxor. assert (Z.land (Z.lxor a b) 1 = Z.lxor (Z.land a 1) (Z.land b 1)) as ->.
  { apply Z.bits_inj'. intros n _. rewrite !Z.land_spec, !Z.lxor_spec, !Z.land_spec. by destruct (Z.testbit a n), (Z.testbit b n), (Z.testbit 1 n). }
  rewrite !(Z.land_ones _ 1) by lia. pose proof (Z.mod_pos_bound a (2 ^ 1) ltac:(lia)) as Ha.
  pose proof (Z.mod_pos_bound b (2 ^ 1) ltac:(lia)) as Hb.
  assert (forall x y, (x = 0 \/ x = 1) -> (y = 0 \/ y = 1) -> Z.land crc64_empty (u64 (- Z.lxor x y)) = Z.lxor (Z.land crc64_empty (u64 (- x))) (Z.land crc64_empty (u64 (- y)))) as H
    by (by intros x y [->| ->] [->| ->]).
  rewrite H by lia. rewrite !Z.lxor_assoc. f_equal. rewrite <- !Z.lxor_assoc. f_equal. apply Z.lxor_comm.
Qed.

Lemma crc64_bits_linear n a b : Nat.iter n crc64_bit (Z.lxor a b) = Z.lxor (Nat.iter n crc64_bit a) (Nat.iter n crc64_bit b).
Proof. induction n as [|n IH]; [done|]. simpl. by rewrite IH, crc64_bit_linear. Qed.

(** Zero bits are only shifted out. *)
Lemma crc64_bits_shift n x : Nat.iter n crc64_bit (Z.shiftl x (Z.of_nat n)) = x.
Proof.
  revert x. induction n as [|n IH]; intros x; [apply Z.shiftl_0_r|]. rewrite Nat.iter_succ_r. rewrite <- (IH x) at 2. f_equal.
  replace (Z.of_nat (S n)) with (Z.of_nat n + 1) by lia. rewrite <- Z.shiftl_shiftl by lia. unfold crc64_bit.
  rewrite Z.shiftr_shiftl_l, Z.shiftl_0_r by lia. replace (Z.land (Z.shiftl (Z.shiftl x (Z.of_nat n)) 1) 1) with 0; [by rewrite Z.lxor_0_r|].
  rewrite (Z.land_ones _ 1), Z.shiftl_mul_pow2, Z.mod_mul by lia. done.
Qed.

(** The fingerprint by table is the one that processes the text bit by bit. *)
Theorem crc64_is_bit_serial (buf : bytes) :
  Forall is_u8 buf -> crc64Avro buf = foldl (fun fp b => Nat.iter 8 crc64_bit (Z.lxor fp b)) crc64_empty buf.
Proof.
  unfold crc64Avro. generalize crc64_empty as fp. induction buf as [|b buf IH]; intros fp Hb; [done|]. apply Forall_cons in Hb as [Hb Hbuf]. cbn [foldl]. rewrite <- IH by done. f_equal.
  unfold crc64AvroTable. rewrite (crc64_bits_linear 8 fp b), (crc64_bits_linear 8 (Z.land fp 255) b), <- Z.lxor_assoc. f_equal.
  assert (fp = Z.lxor (Z.land fp 255) (Z.shiftl (Z.shiftr fp 8) 8)) as E; [|rewrite E at 3; rewrite crc64_bits_linear, (crc64_bits_shift 8); apply Z.lxor_comm].
  rewrite (Z.land_ones _ 8) by lia. apply Z.bits_inj'. intros n Hn. rewrite Z.lxor_spec. destruct (decide (n < 8)).
  - by rewrite Z.mod_pow2_bits_low, Z.shiftl_spec_low, xorb_false_r by lia.
  - rewrite Z.mod_pow2_bits_high, Z.shiftl_spec, Z.shiftr_spec by lia. simpl. f_equal. lia.
Qed.

Lemma lxor_bound a b k : 0 <= k -> 0 <= a < 2 ^ k -> 0 <= b < 2 ^ k -> 0 <= Z.lxor a b < 2 ^ k.
Proof.
  intros Hk Ha Hb. assert (Z.lxor a b = Z.lxor a b mod 2 ^ k) as ->; [|apply Z.mod_pos_bound; lia].
  apply Z.bits_inj'. intros n Hn. destruct (decide (n < k)); [by rewrite Z.mod_pow2_bits_low by lia|].
  rewrite Z.mod_pow2_bits_high, Z.lxor_spec by lia. by rewrite !(testbit_high _ k n) by lia.
Qed.

Lemma shiftr_bound a s k : 0 <= s -> 0 <= a < 2 ^ k -> 0 <= Z.shiftr a s < 2 ^ k.
Proof.
  intros Hs Ha. assert (0 < 2 ^ s) by (apply Z.pow_pos_nonneg; lia). rewrite Z.shiftr_div_pow2 by done. split; [apply Z.div_pos; lia|].
  apply Z.div_lt_upper_bound; [done|]. nia.
Qed.

Lemma crc64_bit_range fp : 0 <= fp < 2 ^ 64 -> 0 <= crc64_bit fp < 2 ^ 64.
Proof.
  intros Hf. unfold crc64_bit. apply lxor_bound; [lia|by apply shiftr_bound|]. rewrite (Z.land_ones _ 1) by lia. pose proof (Z.mod_pos_bound fp (2 ^ 1) ltac:(lia)) as Hm.
  assert (fp mod 2 ^ 1 = 0 \/ fp mod 2 ^ 1 = 1) as [->| ->] by lia; done.
Qed.

Lemma Fingerprint_range s : 0 <= Fingerprint s < 2 ^ 64.
Proof.
  unfold Fingerprint, crc64Avro. assert (Forall is_u8 (string_bytes (canonicalForm s))) as Hb by apply string_bytes_u8.
  assert (0 <= crc64_empty < 2 ^ 64) as Hf by done. revert Hf Hb. generalize (string_bytes (canonicalForm s)) as l. generalize crc64_empty as fp. intros fp l. revert fp.
  induction l as [|b l IH]; intros fp Hf Hb; [done|]. apply Forall_cons in Hb as [Hb Hl]. cbn [foldl]. apply IH; [|done]. apply lxor_bound; [lia|by apply shiftr_bound|].
  unfold crc64AvroTable, is_u8 in *.
  assert (forall n x, 0 <= x < 2 ^ 64 -> 0 <= Nat.iter n crc64_bit x < 2 ^ 64) as Hit by (intros n x Hx; induction n as [|n IHn]; [done|]; by apply crc64_bit_range).
  apply Hit. apply lxor_bound; [lia| |lia]. rewrite (Z.land_ones _ 8) by lia. pose proof (Z.mod_pos_bound fp (2 ^ 8) ltac:(lia)). lia.
Qed.

Lemma AvroDecode_safe data registry reader : fits data -> AvroDecode data registry reader <> inl Panic.
Proof.
  intros Hf. unfold AvroDecode. case_decide; [done|]. case_decide; [done|]. destruct (Lookup registry _) as [w|]; [|done].
  pose proof (decode_fields_safe (Fields w) data 10 ∅ Hf) as Hs. destruct (decode_fields (Fields w) data 10 ∅) as [e|[wr pos]]; cbn [bind_].
  - intros E. injection E as ->. apply Hs; [lia|done].
  - case_decide; [done|]. apply resolve_safe.
Qed.

(** ** What one schema writes, another reads *)

(** The value of a reader's field. *)
Definition read_as (writer : AvroSchema) (record : gmap string gval) (rf : AvroField) : option gval :=
  if decide (Name rf ∈ names writer) then norm <$> record !! Name rf else Some (Default rf).

(** What is written is read back, and nothing shorter or longer. *)
Lemma encode_then_decode (writer reader : AvroSchema) (record : gmap string gval) (registry : SchemaRegistry) :
  (forall k v, record !! k = Some v -> gval_ok v) -> NoDup (names reader) ->
  Lookup registry (Fingerprint writer) = Some writer ->
  match AvroEncode writer record with
  | inl e => e <> Panic
  | inr data =>
      (if decide (Forall (fun rf => Name rf ∈ names writer \/ HasDefault rf = true) (Fields reader))
       then exists out, AvroDecode data registry reader = inr out /\
              (forall rf, rf ∈ Fields reader -> out !! Name rf = read_as writer record rf) /\ (forall k, k ∉ names reader -> out !! k = None)
       else AvroDecode data registry reader = inl ErrNotResolvable) /\
      (forall pre x rest, data = pre ++ x :: rest -> exists e, AvroDecode pre registry reader = inl e) /\
      (forall x rest, AvroDecode (data ++ x :: rest) registry reader = inl ErrTrailing)
  end.
Proof.
  intros Hok Hnd Hreg.
  unfold AvroEncode, encodeBody. pose proof (fields_spec (Fields writer) record Hok []) as Hf. destruct (encode_fields (Fields writer) record []) as [e|body]; [done|].
  cbn [bind_]. destruct Hf as (enc & -> & Hin & Hd & Hc). simpl ([] ++ enc). set (hdr := [195; 1] ++ PutUint 8 (Fingerprint writer)).
  assert (forall q, AvroDecode (hdr ++ q) registry reader =
    do (written, pos) <- decode_fields (Fields writer) (hdr ++ q) (length hdr) ∅;
    if decide (pos <> length (hdr ++ q)) then inl ErrTrailing else resolve (Fields reader) written ∅) as Hhdr.
  { intros q. unfold AvroDecode. rewrite decide_False by (rewrite length_app; simpl; lia). rewrite decide_False by (simpl; tauto).
    replace (take 8 (drop 2 (hdr ++ q))) with (PutUint 8 (Fingerprint writer)) by done. rewrite Uint_PutUint, Hreg by apply Fingerprint_range. done. }
  replace ([195; 1] ++ PutUint 8 (Fingerprint writer) ++ enc) with (hdr ++ enc) by (unfold hdr; by rewrite <- app_assoc).
  specialize (Hd hdr). split_and!.
  - rewrite Hhdr. specialize (Hd [] ∅). rewrite app_nil_r in Hd. rewrite Hd. cbn [bind_]. rewrite (decide_False (P := (length hdr + length enc)%nat <> length (hdr ++ enc))) by (rewrite length_app; lia).
    pose proof (resolve_spec (Fields reader) (absorb record (Fields writer) ∅) ∅ Hnd) as Hr.
    assert (forall k, absorb record (Fields writer) ∅ !! k = if decide (k ∈ names writer) then norm <$> record !! k else None) as Ha.
    { intros k. rewrite written_lookup by done. by rewrite lookup_empty. }
    assert (forall k, is_Some (absorb record (Fields writer) ∅ !! k) <-> k ∈ names writer) as Hsome.
    { intros k. rewrite Ha. destruct (decide (k ∈ names writer)) as [Hk|Hk]; [|split; [by intros [? ?]|done]]. split; [done|]. intros _. apply list_elem_of_fmap in Hk as (f & -> & Hf).
      destruct (Hin f Hf) as [v ->]. by eexists. }
    destruct (decide (Forall (fun rf => Name rf ∈ names writer \/ HasDefault rf = true) (Fields reader))) as [Hall|Hall].
    + destruct (decide (Forall (fun rf => is_Some _ \/ _) (Fields reader))) as [Hall'|Hall'].
      * destruct Hr as (out & -> & Hr1 & Hr2). exists out. split_and!; [done| |intros k Hk; rewrite Hr2 by done; apply lookup_empty].
        intros rf Hrf. rewrite (Hr1 rf Hrf). specialize (Hsome (Name rf)). rewrite Ha in *. unfold read_as. destruct (decide (Name rf ∈ names writer)) as [Hk|Hk]; [|done].
        destruct (norm <$> record !! Name rf); [done|]. by destruct (proj2 Hsome Hk).
      * destruct Hall'. eapply Forall_impl; [exact Hall|]. intros rf [?|?]; [left; by apply Hsome|by right].
    + destruct (decide (Forall (fun rf => is_Some _ \/ _) (Fields reader))) as [Hall'|Hall']; [|done].
      destruct Hall. eapply Forall_impl; [exact Hall'|]. intros rf [?|?]; [left; by apply Hsome|by right].
  - intros pre x rest E. destruct (cut_app _ _ _ _ _ E) as [(x' & r & Eh)|(q & r & -> & Eq)].
    + exists ErrTooShort. unfold AvroDecode. rewrite decide_True; [done|]. apply (f_equal length) in Eh. rewrite length_app in Eh. simpl in Eh. lia.
    + rewrite Hhdr. destruct (Hc hdr q x r ∅ Eq) as [e ->]. by exists e.
  - intros x rest. rewrite <- app_assoc, Hhdr, Hd. cbn [bind_]. rewrite decide_True; [done|]. rewrite !length_app. simpl. lia.
Qed.

(** C12: Schema resolution.  For all schemas and every record of Go values,
    encoding does not panic, and the bytes it returns, given a registry that
    knows the writer's schema by its fingerprint, decode under any reader's
    schema with distinct field names as follows: if every field of the reader
    is a field of the writer or has a default, to exactly the reader's fields,
    each with the value that was written ([int64] and [float64] for the other
    integers and floats) or else with its default; and if not, to the error
    that says so.  No bytes that are cut off or followed by others are
    accepted, and no input whatever makes the decoder panic. *)
Theorem avro_schema_resolution (writer reader : AvroSchema) (record : gmap string gval) (registry : SchemaRegistry) :
  (forall k v, record !! k = Some v -> gval_ok v) -> NoDup (names reader) ->
  Lookup registry (Fingerprint writer) = Some writer ->
  match AvroEncode writer record with
  | inl e => e <> Panic
  | inr data =>
      (if decide (Forall (fun rf => Name rf ∈ names writer \/ HasDefault rf = true) (Fields reader))
       then exists out, AvroDecode data registry reader = inr out /\
              (forall rf, rf ∈ Fields reader -> out !! Name rf = read_as writer record rf) /\ (forall k, k ∉ names reader -> out !! k = None)
       else AvroDecode data registry reader = inl ErrNotResolvable) /\
      (forall pre x rest, data = pre ++ x :: rest -> exists e, AvroDecode pre registry reader = inl e) /\
      (forall x rest, AvroDecode (data ++ x :: rest) registry reader = inl ErrTrailing)
  end /\
  (forall data, fits data -> AvroDecode data registry reader <> inl Panic).
Proof. intros Hok Hnd Hreg. split; [by apply encode_then_decode|intros data; apply AvroDecode_safe]. Qed.

Module AvroDemo.

Definition demo_writer : AvroSchema := mkSchema "demo" [mkField "id" AvroString false VOther; mkField "n" AvroInt false VOther; mkField "old" AvroDouble false VOther].
Definition demo_reader : AvroSchema := mkSchema "demo" [mkField "n" AvroLong false VOther; mkField "id" AvroString false VOther; mkField "new" AvroBoolean true (VBool true)].
Definition demo_record : gmap string gval := {[ "id" := VString [104; 105]; "n" := VInt32 (-3); "old" := VFloat32 0 ]}.

Lemma avro_schema_resolution_witness :
  exists data out, AvroEncode demo_writer demo_record = inr data /\ AvroDecode data (Register NewSchemaRegistry demo_writer) demo_reader = inr out /\
    out !! "n" = Some (VInt64 (-3)) /\ out !! "id" = Some (VString [104; 105]) /\ out !! "new" = Some (VBool true) /\ out !! "old" = None.
Proof.
  pose proof (avro_schema_resolution demo_writer demo_reader demo_record (Register NewSchemaRegistry demo_writer)) as H.
  destruct H as [H _].
  - unfold demo_record. intros k v [[<- <-]|[_ [[<- <-]|[_ [<- <-]%lookup_singleton_Some]]%lookup_insert_Some]]%lookup_insert_Some; by vm_compute.
  - apply (bool_decide_unpack _). by vm_compute.
  - apply lookup_insert_eq.
  - destruct (AvroEncode demo_writer demo_record) as [e|data] eqn:E; [by vm_compute in E|]. destruct H as [H _]. rewrite decide_True in H by (apply (bool_decide_unpack _); by vm_compute).
    destruct H as (out & Ho & H1 & H2). exists data, out. split_and!; [done|done| | | |].
    + etrans; [apply (H1 (mkField "n" AvroLong false VOther)); left|by vm_compute].
    + etrans; [apply (H1 (mkField "id" AvroString false VOther)); right; left|by vm_compute].
    + etrans; [apply (H1 (mkField "new" AvroBoolean true (VBool true))); do 2 right; left|by vm_compute].
    + apply H2. apply (bool_decide_unpack _). by vm_compute.
Defined.

(** Names are not escaped, so different schemas share a fingerprint. *)
Lemma canonical_not_injective :
  let q := dq in
  let odd := String.append "a" (String.append q (String.append "," (String.append (quoted "type") (String.append ":" (String.append (quoted "long")
               (String.append "},{" (String.append (quoted "name") (String.append ":" (String.append q "b"))))))))) in
  canonicalForm (mkSchema "s" [mkField odd AvroLong false VOther]) =
  canonicalForm (mkSchema "s" [mkField "a" AvroLong false VOther; mkField "b" AvroLong false VOther]).
Proof. by vm_compute. Qed.

(** The type that the reader expects is not looked at. *)
Lemma reader_type_ignored :
  exists data, AvroEncode (mkSchema "s" [mkField "x" AvroLong false VOther]) {[ "x" := VInt 7 ]} = inr data /\
  ((fun out => out !! "x") <$> match AvroDecode data (Register NewSchemaRegistry (mkSchema "s" [mkField "x" AvroLong false VOther]))
     (mkSchema "s" [mkField "x" AvroString false VOther]) with inr out => Some out | inl _ => None end) = Some (Some (VInt64 7)).
Proof. eexists. split; [by vm_compute|by vm_compute]. Qed.

(** The last byte of ten may have bits that do not fit: they are dropped, not
    reported as an overflow. *)
Lemma varint_overflow_ignored : decodeVarint (repeat 128 9 ++ [126]) = inr (0, 10%nat).
Proof. by vm_compute. Qed.

End AvroDemo.
