(* ===== verification/AvroEvents.v ===== *)
(** * Typed events on the wire (pkg/events: avro_wire.go, avro_event_schemas.go, avro_event_wire.go, helix_events.go)

    Node, session, scheduler and audit events as Avro records ([Avro]), the
    options that choose the schemas of a backend, and the subjects events are
    published under.  Strings are lists of bytes; an instant is its number of
    nanoseconds since 1970, and the time zone of a timestamp is not kept, as
    both ends convert to UTC.  The message bus is another module: [Publish*]
    returns the event handed to it, and a subscriber decodes the payload of
    the event it gets.  The JSON format, the alternative to Avro, is an
    argument of the functions that choose between the two.

    The main theorem: an event published by a backend is decoded by every
    backend that knows its schema, as the same event, and is refused by the
    subscribers of the other families. *)
From stdpp Require Import base gmap sets list strings.
From Stdlib Require Import ZArith Lia.
From S2P Require Import Prelude Sha256 GoFmt Avro.
Open Scope Z_scope.

(** ** Subjects *)

Definition illegal (r : Z) : Prop := r = 42 \/ r = 62 \/ r = 32 \/ r = 9 \/ r = 10 \/ r = 13.
#[global] Instance illegal_dec r : Decision (illegal r).
Proof. unfold illegal. apply _. Defined.

(** The loop over the runes of a token; a byte that starts no rune becomes the
    replacement character. *)
Fixpoint sanitize_loop (fuel : nat) (tok : bytes) : bytes :=
  match fuel, tok with
  | S fuel, b :: rest =>
      if decide (b < 128) then (if decide (illegal b) then 95 else b) :: sanitize_loop fuel rest
      else match decode_multi tok with
           | Some (r, enc) => encode_rune r ++ sanitize_loop fuel (drop (length enc) tok)
           | None => encode_rune RuneError ++ sanitize_loop fuel rest
           end
  | _, _ => []
  end.

Definition sanitizeHelixToken (tok : bytes) : bytes := if decide (tok = []) then [95] else sanitize_loop (length tok) tok.

Definition HelixSubject (domain entityID action : bytes) : bytes :=
  sanitizeHelixToken domain ++ [46] ++ sanitizeHelixToken entityID ++ [46] ++ sanitizeHelixToken action.

(** ** Events and their schemas *)

Record NodeEvent := mkNodeEvent { ne_RunID : bytes; ne_NodeID : bytes; ne_Action : bytes; ne_Timestamp : Z; ne_Metadata : gmap string string }.
Record SessionEvent := mkSessionEvent { se_RunID : bytes; se_SessionID : bytes; se_Action : bytes; se_Timestamp : Z }.
Record SchedulerEvent := mkSchedulerEvent { sc_RunID : bytes; sc_EntityID : bytes; sc_Action : bytes; sc_Timestamp : Z }.
Record AuditEvent := mkAuditEvent { ae_RunID : bytes; ae_Actor : bytes; ae_SubjectID : bytes; ae_Action : bytes; ae_Timestamp : Z }.

Definition plain (n : string) (t : AvroType) : AvroField := mkField n t false VOther.

Definition NodeEventSchemaV1 : AvroSchema := mkSchema "NodeEvent" [plain "run_id" AvroString; plain "node_id" AvroString; plain "timestamp" AvroLong].
Definition NodeEventSchemaV2 : AvroSchema :=
  mkSchema "NodeEvent" [plain "run_id" AvroString; plain "node_id" AvroString; plain "timestamp" AvroLong; mkField "action" AvroString true (VString [])].
Definition SessionEventSchemaV1 : AvroSchema :=
  mkSchema "SessionEvent" [plain "run_id" AvroString; plain "session_id" AvroString; plain "action" AvroString; plain "timestamp" AvroLong].
Definition SchedulerEventSchemaV1 : AvroSchema :=
  mkSchema "SchedulerEvent" [plain "run_id" AvroString; plain "entity_id" AvroString; plain "action" AvroString; plain "timestamp" AvroLong].
Definition AuditEventSchemaV1 : AvroSchema :=
  mkSchema "AuditEvent" [plain "run_id" AvroString; plain "actor" AvroString; plain "subject_id" AvroString; plain "action" AvroString; plain "timestamp" AvroLong].

Definition NodeEvent_Subject (e : NodeEvent) : bytes := HelixSubject (string_bytes "nodes") (ne_NodeID e) (ne_Action e).
Definition SessionEvent_Subject (e : SessionEvent) : bytes := HelixSubject (string_bytes "sessions") (se_SessionID e) (se_Action e).
Definition SchedulerEvent_Subject (e : SchedulerEvent) : bytes := HelixSubject (string_bytes "scheduler") (sc_EntityID e) (sc_Action e).
Definition AuditEvent_Subject (e : AuditEvent) : bytes := HelixSubject (string_bytes "audit") (ae_SubjectID e) (ae_Action e).

(** [UnixNano] of an instant beyond the range of [int64] wraps around. *)
Definition UnixNano (t : Z) : gval := VInt64 (i64 t).

(** ** Records *)

Definition nodeEventToRecord (ne : NodeEvent) (schema : AvroSchema) : gmap string gval :=
  foldl (fun rec f =>
    if decide (Name f = "run_id") then <[Name f := VString (ne_RunID ne)]> rec
    else if decide (Name f = "node_id") then <[Name f := VString (ne_NodeID ne)]> rec
    else if decide (Name f = "action") then <[Name f := VString (ne_Action ne)]> rec
    else if decide (Name f = "timestamp") then <[Name f := UnixNano (ne_Timestamp ne)]> rec
    else rec) ∅ (Fields schema).

(** A field that is there must have the right type; one that is not stays zero. *)
Definition string_field (rec : gmap string gval) (n : string) : option bytes :=
  match rec !! n with None => Some [] | Some (VString s) => Some s | Some _ => None end.
Definition int64_field (rec : gmap string gval) (n : string) (zero : Z) : option Z :=
  match rec !! n with None => Some zero | Some (VInt64 t) => Some t | Some _ => None end.

(** The zero [time.Time], in the year 1. *)
Definition zero_time : Z := -62135596800000000000.

Inductive event_error := EAvro (e : avro_error) | EFieldType | ENil | ENoSchema.

Definition recordToNodeEvent (rec : gmap string gval) : event_error + NodeEvent :=
  match string_field rec "run_id", string_field rec "node_id", string_field rec "action", int64_field rec "timestamp" zero_time with
  | Some r, Some n, Some a, Some t => inr (mkNodeEvent r n a t ∅)
  | _, _, _, _ => inl EFieldType
  end.

(** A field of another type is passed over. *)
Definition string_or_zero (rec : gmap string gval) (n : string) : bytes := match rec !! n with Some (VString s) => s | _ => [] end.
Definition int64_or_zero (rec : gmap string gval) (n : string) : Z := match rec !! n with Some (VInt64 t) => t | _ => zero_time end.

Definition avro {A} (r : result A) : event_error + A := match r with inl e => inl (EAvro e) | inr x => inr x end.

Definition EncodeNodeEventAvro (ne : option NodeEvent) (writer : option AvroSchema) : event_error + bytes :=
  match ne, writer with
  | None, _ => inl ENil
  | Some _, None => inl ENoSchema
  | Some ne, Some writer => avro (AvroEncode writer (nodeEventToRecord ne writer))
  end.

Definition DecodeNodeEventAvro (data : bytes) (registry : SchemaRegistry) (readerSchema : AvroSchema) : event_error + NodeEvent :=
  match AvroDecode data registry readerSchema with inl e => inl (EAvro e) | inr rec => recordToNodeEvent rec end.

Definition EncodeSessionEventAvro (e : option SessionEvent) (writer : AvroSchema) : event_error + bytes :=
  match e with
  | None => inl ENil
  | Some e => avro (AvroEncode writer {[ "run_id" := VString (se_RunID e); "session_id" := VString (se_SessionID e);
                                         "action" := VString (se_Action e); "timestamp" := UnixNano (se_Timestamp e) ]})
  end.

Definition DecodeSessionEventAvro (data : bytes) (registry : SchemaRegistry) (readerSchema : AvroSchema) : event_error + SessionEvent :=
  match AvroDecode data registry readerSchema with
  | inl e => inl (EAvro e)
  | inr rec => inr (mkSessionEvent (string_or_zero rec "run_id") (string_or_zero rec "session_id") (string_or_zero rec "action") (int64_or_zero rec "timestamp"))
  end.

Definition EncodeSchedulerEventAvro (e : option SchedulerEvent) (writer : AvroSchema) : event_error + bytes :=
  match e with
  | None => inl ENil
  | Some e => avro (AvroEncode writer {[ "run_id" := VString (sc_RunID e); "entity_id" := VString (sc_EntityID e);
                                         "action" := VString (sc_Action e); "timestamp" := UnixNano (sc_Timestamp e) ]})
  end.

Definition DecodeSchedulerEventAvro (data : bytes) (registry : SchemaRegistry) (readerSchema : AvroSchema) : event_error + SchedulerEvent :=
  match AvroDecode data registry readerSchema with
  | inl e => inl (EAvro e)
  | inr rec => inr (mkSchedulerEvent (string_or_zero rec "run_id") (string_or_zero rec "entity_id") (string_or_zero rec "action") (int64_or_zero rec "timestamp"))
  end.

Definition EncodeAuditEventAvro (e : option AuditEvent) (writer : AvroSchema) : event_error + bytes :=
  match e with
  | None => inl ENil
  | Some e => avro (AvroEncode writer {[ "run_id" := VString (ae_RunID e); "actor" := VString (ae_Actor e); "subject_id" := VString (ae_SubjectID e);
                                         "action" := VString (ae_Action e); "timestamp" := UnixNano (ae_Timestamp e) ]})
  end.

Definition DecodeAuditEventAvro (data : bytes) (registry : SchemaRegistry) (readerSchema : AvroSchema) : event_error + AuditEvent :=
  match AvroDecode data registry readerSchema with
  | inl e => inl (EAvro e)
  | inr rec => inr (mkAuditEvent (string_or_zero rec "run_id") (string_or_zero rec "actor") (string_or_zero rec "subject_id")
                      (string_or_zero rec "action") (int64_or_zero rec "timestamp"))
  end.

(** ** Payloads on the bus *)

(** What a received event has as its payload: the bytes, or a JSON value. *)
Inductive payload_any := PNil | PBytes (b : bytes) | PString (s : bytes) | PAny.

(** The standard encoding of [encoding/base64]. *)
Definition b64_char (d : Z) : Z :=
  if decide (d < 26) then 65 + d else if decide (d < 52) then 71 + d else if decide (d < 62) then d - 4 else if decide (d = 62) then 43 else 47.

Definition b64_value (c : Z) : option Z :=
  if decide (65 <= c <= 90) then Some (c - 65) else if decide (97 <= c <= 122) then Some (c - 71) else if decide (48 <= c <= 57) then Some (c + 4)
  else if decide (c = 43) then Some 62 else if decide (c = 47) then Some 63 else None.

Fixpoint EncodeToString (l : bytes) : bytes :=
  match l with
  | [] => []
  | [b0] => [b64_char (b0 / 4); b64_char (b0 mod 4 * 16); 61; 61]
  | [b0; b1] => [b64_char (b0 / 4); b64_char (b0 mod 4 * 16 + b1 / 16); b64_char (b1 mod 16 * 4); 61]
  | b0 :: b1 :: b2 :: l =>
      [b64_char (b0 / 4); b64_char (b0 mod 4 * 16 + b1 / 16); b64_char (b1 mod 16 * 4 + b2 / 64); b64_char (b2 mod 64)] ++ EncodeToString l
  end.

(** Groups of four characters; padding only in the last, and the bits that a
    padded group has too many are not looked at. *)
Fixpoint decode_quanta (s : bytes) : option bytes :=
  match s with
  | [] => Some []
  | c0 :: c1 :: c2 :: c3 :: s =>
      v0 ← b64_value c0; v1 ← b64_value c1;
      let b0 := v0 * 4 + v1 / 16 in
      if decide (c2 = 61) then if decide (c3 = 61 /\ s = []) then Some [b0] else None
      else
        v2 ← b64_value c2;
        let b1 := v1 mod 16 * 16 + v2 / 4 in
        if decide (c3 = 61) then if decide (s = []) then Some [b0; b1] else None
        else v3 ← b64_value c3; rest ← decode_quanta s; Some ([b0; b1; v2 mod 4 * 64 + v3] ++ rest)
  | _ => None
  end.

(** Line breaks are passed over. *)
Definition DecodeString (s : bytes) : option bytes := decode_quanta (filter (fun c => c <> 10 /\ c <> 13) s).

Definition payloadBytes (p : payload_any) : bytes :=
  match p with
  | PNil => []
  | PBytes v => v
  | PString v => match DecodeString v with Some b => b | None => v end
  | PAny => []
  end.

Record Event := mkEvent { ID : bytes; EType : bytes; Payload : bytes; ETimestamp : Z }.
Record busEvent := mkBusEvent { bID : bytes; bType : bytes; bSource : bytes; bPayload : payload_any; bTimestamp : Z }.

Definition natsBackendSource : bytes := string_bytes "helixcluster/pkg/events".

Definition fromEventbusEvent (ev : busEvent) : Event := mkEvent (bID ev) (bType ev) (payloadBytes (bPayload ev)) (bTimestamp ev).

(** The loop of [Subscribe] over what the bus delivers. *)
Fixpoint Subscribe (input : list (option busEvent)) : list Event :=
  match input with
  | [] => []
  | None :: input => Subscribe input
  | Some ev :: input => fromEventbusEvent ev :: Subscribe input
  end.

(** ** The backend *)

Inductive WireFormat := WireJSON | WireAvro.

(** Registries are shared by pointer: callers and backends see what is
    registered through any of them. *)
Notation registry_ptr := nat (only parsing).
Notation registries := (gmap nat SchemaRegistry) (only parsing).

Record NATSBackend := mkBackend {
  source : bytes;
  wireFormat : WireFormat;
  avroWriter : option AvroSchema;
  avroRegistry : option registry_ptr;
  sessionWriter : option AvroSchema;
  schedulerWriter : option AvroSchema;
  auditWriter : option AvroSchema }.

Definition NATSBackendOption : Type := registries * NATSBackend -> registries * NATSBackend.

(** [registry.Register(schema)] when neither is nil. *)
Definition register_in (h : registries) (registry : option registry_ptr) (s : option AvroSchema) : registries :=
  match registry, s with Some p, Some s => alter (fun r => Register r s) p h | _, _ => h end.

Definition WithAvro (writer : option AvroSchema) (registry : option registry_ptr) : NATSBackendOption := fun '(h, n) =>
  (h, mkBackend (source n) WireAvro writer registry (sessionWriter n) (schedulerWriter n) (auditWriter n)).

Definition WithAvroEvents (registry : option registry_ptr) : NATSBackendOption := fun '(h, n) =>
  let n := mkBackend (source n) WireAvro (avroWriter n) registry (Some SessionEventSchemaV1) (Some SchedulerEventSchemaV1) (Some AuditEventSchemaV1) in
  (register_in (register_in (register_in h registry (sessionWriter n)) registry (schedulerWriter n)) registry (auditWriter n), n).

Definition WithAvroSession (writer : option AvroSchema) (registry : option registry_ptr) : NATSBackendOption := fun '(h, n) =>
  (register_in h registry writer, mkBackend (source n) WireAvro (avroWriter n) registry writer (schedulerWriter n) (auditWriter n)).

Definition WithAvroScheduler (writer : option AvroSchema) (registry : option registry_ptr) : NATSBackendOption := fun '(h, n) =>
  (register_in h registry writer, mkBackend (source n) WireAvro (avroWriter n) registry (sessionWriter n) writer (auditWriter n)).

Definition WithAvroAudit (writer : option AvroSchema) (registry : option registry_ptr) : NATSBackendOption := fun '(h, n) =>
  (register_in h registry writer, mkBackend (source n) WireAvro (avroWriter n) registry (sessionWriter n) (schedulerWriter n) writer).

(** The connection is there. *)
Definition NewNATSBackend (h : registries) (opts : list NATSBackendOption) : registries * NATSBackend :=
  foldl (fun st opt => opt st) (h, mkBackend natsBackendSource WireJSON None None None None None) opts.

(** What is handed to the bus. *)
Definition Publish (n : NATSBackend) (e : Event) : busEvent := mkBusEvent (ID e) (EType e) (source n) (PBytes (Payload e)) (ETimestamp e).

(** [json.Marshal] and [json.Unmarshal] at a type of event. *)
Class Json (E : Type) := { MarshalPayload : E -> event_error + bytes; UnmarshalEvent : bytes -> event_error + E }.

Section backend.
Context `{!Json NodeEvent, !Json SessionEvent, !Json SchedulerEvent, !Json AuditEvent}.

Definition PublishNodeEvent (n : NATSBackend) (ne : option NodeEvent) : event_error + busEvent :=
  match ne with
  | None => inl ENil
  | Some e =>
      let payload := match wireFormat n with
        | WireAvro => match avroWriter n with None => inl ENoSchema | Some w => EncodeNodeEventAvro (Some e) (Some w) end
        | WireJSON => MarshalPayload e
        end in
      match payload with inl err => inl err | inr payload => inr (Publish n (mkEvent (ne_RunID e) (NodeEvent_Subject e) payload (ne_Timestamp e))) end
  end.

Definition PublishSessionEvent (n : NATSBackend) (e : option SessionEvent) : event_error + busEvent :=
  match e with
  | None => inl ENil
  | Some e =>
      let payload := match wireFormat n with
        | WireAvro => match sessionWriter n with None => inl ENoSchema | Some w => EncodeSessionEventAvro (Some e) w end
        | WireJSON => MarshalPayload e
        end in
      match payload with inl err => inl err | inr payload => inr (Publish n (mkEvent (se_RunID e) (SessionEvent_Subject e) payload (se_Timestamp e))) end
  end.

Definition PublishSchedulerEvent (n : NATSBackend) (e : option SchedulerEvent) : event_error + busEvent :=
  match e with
  | None => inl ENil
  | Some e =>
      let payload := match wireFormat n with
        | WireAvro => match schedulerWriter n with None => inl ENoSchema | Some w => EncodeSchedulerEventAvro (Some e) w end
        | WireJSON => MarshalPayload e
        end in
      match payload with inl err => inl err | inr payload => inr (Publish n (mkEvent (sc_RunID e) (SchedulerEvent_Subject e) payload (sc_Timestamp e))) end
  end.

Definition PublishAuditEvent (n : NATSBackend) (e : option AuditEvent) : event_error + busEvent :=
  match e with
  | None => inl ENil
  | Some e =>
      let payload := match wireFormat n with
        | WireAvro => match auditWriter n with None => inl ENoSchema | Some w => EncodeAuditEventAvro (Some e) w end
        | WireJSON => MarshalPayload e
        end in
      match payload with inl err => inl err | inr payload => inr (Publish n (mkEvent (ae_RunID e) (AuditEvent_Subject e) payload (ae_Timestamp e))) end
  end.

(** The registry the backend points to, as it is when the payload arrives. *)
Definition resolution (h : registries) (n : NATSBackend) (writer : option AvroSchema) : option (SchemaRegistry * AvroSchema) :=
  p ← avroRegistry n; r ← h !! p; w ← writer; Some (r, w).

Definition decodeNodeEvent (h : registries) (n : NATSBackend) (payload : bytes) : event_error + NodeEvent :=
  match wireFormat n with
  | WireAvro => match resolution h n (avroWriter n) with None => inl ENoSchema | Some (r, w) => DecodeNodeEventAvro payload r w end
  | WireJSON => UnmarshalEvent payload
  end.

Definition decodeSessionEvent (h : registries) (n : NATSBackend) (payload : bytes) : event_error + SessionEvent :=
  match wireFormat n with
  | WireAvro => match resolution h n (sessionWriter n) with None => inl ENoSchema | Some (r, w) => DecodeSessionEventAvro payload r w end
  | WireJSON => UnmarshalEvent payload
  end.

Definition decodeSchedulerEvent (h : registries) (n : NATSBackend) (payload : bytes) : event_error + SchedulerEvent :=
  match wireFormat n with
  | WireAvro => match resolution h n (schedulerWriter n) with None => inl ENoSchema | Some (r, w) => DecodeSchedulerEventAvro payload r w end
  | WireJSON => UnmarshalEvent payload
  end.

Definition decodeAuditEvent (h : registries) (n : NATSBackend) (payload : bytes) : event_error + AuditEvent :=
  match wireFormat n with
  | WireAvro => match resolution h n (auditWriter n) with None => inl ENoSchema | Some (r, w) => DecodeAuditEventAvro payload r w end
  | WireJSON => UnmarshalEvent payload
  end.

(** The loop of a typed subscription: what cannot be decoded is dropped. *)
Fixpoint forward {E} (decode : bytes -> event_error + E) (input : list Event) : list E :=
  match input with
  | [] => []
  | ev :: input => match decode (Payload ev) with inl _ => forward decode input | inr e => e :: forward decode input end
  end.

(** A subscription: its subject, and what it forwards until it is cancelled. *)
Definition SubscribeNodeEvents (h : registries) (n : NATSBackend) (nodeID action : bytes) (input : list (option busEvent)) : bytes * list NodeEvent :=
  (HelixSubject (string_bytes "nodes") nodeID action, forward (decodeNodeEvent h n) (Subscribe input)).

Definition SubscribeSessionEvents (h : registries) (n : NATSBackend) (sessionID action : bytes) (input : list (option busEvent)) : bytes * list SessionEvent :=
  (HelixSubject (string_bytes "sessions") sessionID action, forward (decodeSessionEvent h n) (Subscribe input)).

Definition SubscribeSchedulerEvents (h : registries) (n : NATSBackend) (entityID action : bytes) (input : list (option busEvent)) : bytes * list SchedulerEvent :=
  (HelixSubject (string_bytes "scheduler") entityID action, forward (decodeSchedulerEvent h n) (Subscribe input)).

Definition SubscribeAuditEvents (h : registries) (n : NATSBackend) (subjectID action : bytes) (input : list (option busEvent)) : bytes * list AuditEvent :=
  (HelixSubject (string_bytes "audit") subjectID action, forward (decodeAuditEvent h n) (Subscribe input)).

(** An event of any family, as its publisher sends it. *)
Inductive event := ENode (e : NodeEvent) | ESession (e : SessionEvent) | EScheduler (e : SchedulerEvent) | EAudit (e : AuditEvent).

Definition publish (n : NATSBackend) (ev : event) : event_error + busEvent :=
  match ev with
  | ENode e => PublishNodeEvent n (Some e)
  | ESession e => PublishSessionEvent n (Some e)
  | EScheduler e => PublishSchedulerEvent n (Some e)
  | EAudit e => PublishAuditEvent n (Some e)
  end.

End backend.

(** ** Subjects are clean *)

Lemma sanitize_clean fuel tok : Forall (fun b => ~ illegal b) (sanitize_loop fuel tok).
Proof.
  assert (forall l, Forall (fun b => 128 <= b) l -> Forall (fun b => ~ illegal b) l) as Hhigh.
  { intros l Hl. eapply Forall_impl; [exact Hl|]. unfold illegal. intros b Hb. lia. }
  revert tok. induction fuel as [|fuel IH]; intros tok; [constructor|]. destruct tok as [|b rest]; [constructor|]. cbn [sanitize_loop]. case_decide.
  - constructor; [|apply IH]. case_decide; [unfold illegal; lia|done].
  - destruct (decode_multi (b :: rest)) as [[r enc]|] eqn:E; apply Forall_app; (split; [apply Hhigh|apply IH]).
    + by apply decode_multi_sound in E as (_ & -> & _ & ? & _).
    + by repeat constructor.
Qed.

Lemma token_clean tok : sanitizeHelixToken tok <> [] /\ Forall (fun b => ~ illegal b) (sanitizeHelixToken tok).
Proof.
  unfold sanitizeHelixToken. case_decide as Ht; [split; [done|]; constructor; [unfold illegal; lia|constructor]|]. split; [|apply sanitize_clean].
  destruct tok as [|b rest]; [done|]. cbn [length sanitize_loop]. case_decide; [done|]. destruct (decode_multi (b :: rest)) as [[r enc]|] eqn:E; [|done].
  apply decode_multi_sound in E as (_ & -> & _ & _ & Hl). destruct enc; [simpl in Hl; lia|done].
Qed.

Lemma subject_clean d e a : Forall (fun b => ~ illegal b) (HelixSubject d e a).
Proof.
  unfold HelixSubject. assert (Forall (fun b => ~ illegal b) [46]) as Hdot by (constructor; [unfold illegal; lia|constructor]).
  repeat (apply Forall_app; split); (done || apply token_clean).
Qed.

(** ** Base64 *)

Lemma b64_value_char d : 0 <= d < 64 -> b64_value (b64_char d) = Some d /\ b64_char d <> 61 /\ b64_char d <> 10 /\ b64_char d <> 13.
Proof.
  intros Hd. assert (Forall (fun d => b64_value (b64_char d) = Some d /\ b64_char d <> 61 /\ b64_char d <> 10 /\ b64_char d <> 13) (seqZ 0 64)) as H by by_eval.
  rewrite Forall_forall in H. apply H. apply elem_of_seqZ. lia.
Qed.

(** Induction by groups of three. *)
Lemma thirds_ind (P : bytes -> Prop) :
  P [] -> (forall a, P [a]) -> (forall a b, P [a; b]) -> (forall a b c l, P l -> P (a :: b :: c :: l)) -> forall l, P l.
Proof.
  intros H0 H1 H2 H3 l. assert (forall n l, (length l <= n)%nat -> P l) as H; [|by eapply H].
  intros n. induction n as [|n IH]; intros [|a [|b [|c l']]]; simpl; try done; try lia. intros Hl. apply H3, IH. lia.
Qed.

Lemma b64_roundtrip l : Forall is_u8 l -> decode_quanta (EncodeToString l) = Some l.
Proof.
  induction l as [|a|a b|a b c l IH] using thirds_ind; [done|..]; rewrite !Forall_cons; unfold is_u8; intros H; cbn [EncodeToString app decode_quanta].
  - destruct (b64_value_char (a / 4)) as [-> _]; [Z.to_euclidean_division_equations; lia|]. destruct (b64_value_char (a mod 4 * 16)) as [-> _]; [Z.to_euclidean_division_equations; lia|].
    simpl. do 2 f_equal. Z.to_euclidean_division_equations; lia.
  - destruct (b64_value_char (a / 4)) as [-> _]; [Z.to_euclidean_division_equations; lia|]. destruct (b64_value_char (a mod 4 * 16 + b / 16)) as [-> _]; [Z.to_euclidean_division_equations; lia|].
    destruct (b64_value_char (b mod 16 * 4)) as (-> & ? & _); [Z.to_euclidean_division_equations; lia|]. cbn [mbind option_bind]. rewrite decide_False, decide_True, decide_True by done.
    do 2 f_equal; [|f_equal]; Z.to_euclidean_division_equations; lia.
  - destruct (b64_value_char (a / 4)) as [-> _]; [Z.to_euclidean_division_equations; lia|]. destruct (b64_value_char (a mod 4 * 16 + b / 16)) as [-> _]; [Z.to_euclidean_division_equations; lia|].
    destruct (b64_value_char (b mod 16 * 4 + c / 64)) as (-> & ? & _); [Z.to_euclidean_division_equations; lia|].
    destruct (b64_value_char (c mod 64)) as (-> & ? & _); [Z.to_euclidean_division_equations; lia|]. cbn [mbind option_bind]. rewrite !decide_False by done.
    rewrite IH by tauto. cbn [mbind option_bind app]. do 2 f_equal; [|f_equal; [|f_equal]]; Z.to_euclidean_division_equations; lia.
Qed.

Lemma b64_no_breaks l : Forall is_u8 l -> filter (fun c => c <> 10 /\ c <> 13) (EncodeToString l) = EncodeToString l.
Proof.
  assert (forall l : bytes, Forall (fun c => c <> 10 /\ c <> 13) l -> filter (fun c => c <> 10 /\ c <> 13) l = l) as Hid.
  { intros m. induction m as [|x m IHm]; [done|]. intros [Hx Hm]%Forall_cons. rewrite filter_cons_True by done. by rewrite IHm. }
  intros Hl. apply Hid. assert (forall d, 0 <= d < 64 -> b64_char d <> 10 /\ b64_char d <> 13) as Hc by (intros d Hd; by apply b64_value_char in Hd as (_ & _ & ?)).
  induction l as [|a|a b|a b c l IH] using thirds_ind; [constructor|..]; rewrite !Forall_cons in Hl; unfold is_u8 in Hl; cbn [EncodeToString app];
    repeat (constructor; [done || (apply Hc; Z.to_euclidean_division_equations; lia)|]); try constructor. apply IH. tauto.
Qed.

(** A payload comes back from the bus, as bytes or as text. *)
Lemma payload_back b p : Forall is_u8 b -> p = PBytes b \/ p = PString (EncodeToString b) -> payloadBytes p = b.
Proof. intros Hb [->| ->]; [done|]. cbn [payloadBytes]. unfold DecodeString. by rewrite b64_no_breaks, b64_roundtrip. Qed.

(** ** Encoding succeeds *)

Definition text_ok (b : bytes) : Prop := fits b /\ Forall is_u8 b.

(** The values that events have. *)
Definition plain_value (t : AvroType) (v : gval) : Prop :=
  match t, v with AvroString, VString s => text_ok s | AvroLong, VInt64 n => is_i64 n | _, _ => False end.

Lemma varint_u8 room u l : varint_loop room u = Some l -> Forall is_u8 l.
Proof.
  assert (forall z, 0 <= u8 z < 2 ^ 8) as Hu by (intros z; apply Z.mod_pos_bound; lia). revert u l. induction room as [|room IH]; intros u l; [done|]. cbn [varint_loop]. case_decide.
  - destruct (varint_loop room _) as [l'|] eqn:E; [|done]. intros [= <-]. constructor; [|by eapply IH]. pose proof (lor_bound (u8 u) 128 8 ltac:(lia) (Hu u) ltac:(lia)). unfold is_u8. lia.
  - intros [= <-]. constructor; [|constructor]. specialize (Hu u). unfold is_u8. lia.
Qed.

Lemma encodeVarint_u8 n l : encodeVarint n = inr l -> Forall is_u8 l.
Proof. unfold encodeVarint. destruct (varint_loop 10 (zigzag n)) as [l'|] eqn:E; [|done]. intros [= <-]. by eapply varint_u8. Qed.

Lemma plain_encodes t v : plain_value t v -> gval_ok v /\ norm v = v /\ exists l, encodeValue t v = inr l /\ Forall is_u8 l.
Proof.
  destruct t, v as [s| | |n| | | | | |]; try done; cbn [plain_value gval_ok norm encodeValue toInt64].
  - intros [Hf Hb]. split_and!; [done|done|]. destruct (encodeBytesLike_spec s Hf) as (l & Hl & _). exists l. split; [done|]. unfold encodeBytesLike in Hl.
    destruct (encodeVarint _) as [e|l'] eqn:E; [done|]. injection Hl as <-. apply Forall_app. split; [by eapply encodeVarint_u8|done].
  - intros Hn. split_and!; [done|done|]. destruct (encodeVarint_spec _ Hn) as (l & Hl & _). exists l. split; [done|by eapply encodeVarint_u8].
Qed.

Lemma PutUint_u8 n v : Forall is_u8 (PutUint n v).
Proof. revert v. induction n as [|n IH]; intros v; constructor; [|apply IH]. unfold is_u8, u8. apply Z.mod_pos_bound. lia. Qed.

Lemma encode_event schema record :
  (forall f, f ∈ Fields schema -> exists v, record !! Name f = Some v /\ plain_value (Type_ f) v) ->
  exists data, AvroEncode schema record = inr data /\ Forall is_u8 data.
Proof.
  intros Hall. unfold AvroEncode, encodeBody.
  assert (forall fs body, (forall f, f ∈ fs -> exists v, record !! Name f = Some v /\ plain_value (Type_ f) v) -> Forall is_u8 body ->
    exists out, encode_fields fs record body = inr out /\ Forall is_u8 out) as H.
  { intros fs. induction fs as [|f fs IH]; intros body Hfs Hb; [by exists body|]. cbn [encode_fields]. destruct (Hfs f) as (v & -> & Hv); [left|].
    apply plain_encodes in Hv as (_ & _ & l & -> & Hl). cbn [bind_]. apply IH; [intros f' Hf'; apply Hfs; by right|]. by apply Forall_app. }
  destruct (H (Fields schema) [] Hall) as (out & -> & Ho); [constructor|]. cbn [bind_]. eexists. split; [done|].
  apply Forall_app. split; [by repeat constructor|]. apply Forall_app. split; [apply PutUint_u8|done].
Qed.

(** ** One payload *)

(** What a reader finds in the payload of a record: the values of the fields
    both sides have, and its own defaults; or that it cannot read it. *)
Definition reads (writer reader : AvroSchema) (record : gmap string gval) (res : result (gmap string gval)) : Prop :=
  if decide (Forall (fun rf => Name rf ∈ names writer \/ HasDefault rf = true) (Fields reader))
  then exists out, res = inr out /\ (forall rf, rf ∈ Fields reader -> out !! Name rf = if decide (Name rf ∈ names writer) then record !! Name rf else Some (Default rf)) /\
         (forall k, k ∉ names reader -> out !! k = None)
  else res = inl ErrNotResolvable.

(** A record with exactly the fields of a schema, of the right types. *)
Definition conforms (writer : AvroSchema) (record : gmap string gval) : Prop :=
  map_Forall (fun k _ => k ∈ names writer) record /\
  Forall (fun f => match record !! Name f with Some v => plain_value (Type_ f) v | None => False end) (Fields writer).

Lemma event_payload writer record :
  conforms writer record ->
  exists data, AvroEncode writer record = inr data /\ Forall is_u8 data /\
    forall registry reader, Lookup registry (Fingerprint writer) = Some writer -> NoDup (names reader) -> reads writer reader record (AvroDecode data registry reader).
Proof.
  intros [Hdom Hall]. rewrite Forall_forall in Hall. assert (forall k v, record !! k = Some v -> gval_ok v /\ norm v = v) as Hok.
  { intros k v Hv. pose proof (Hdom k v Hv) as Hk. apply list_elem_of_fmap in Hk as (f & -> & Hf). specialize (Hall f Hf). rewrite Hv in Hall.
    by apply plain_encodes in Hall as (? & ? & _). }
  destruct (encode_event writer record) as (data & Hdata & Hu).
  { intros f Hf. specialize (Hall f Hf). destruct (record !! Name f) as [v|]; [by exists v|done]. }
  exists data. split_and!; [done|done|]. intros registry reader Hreg Hr.
  pose proof (encode_then_decode writer reader record registry) as H. rewrite Hdata in H. destruct H as [H _]; [intros k v Hv; by apply Hok in Hv as [? _]|done|done|].
  unfold reads. case_decide; [|done]. destruct H as (out & -> & H1 & H2). exists out. split_and!; [done| |done]. intros rf Hrf. rewrite (H1 rf Hrf). unfold read_as.
  case_decide; [|done]. destruct (record !! Name rf) as [v|] eqn:Ev; [|done]. simpl. f_equal. by apply Hok in Ev as [_ ?].
Qed.

(** A reader with the writer's schema finds the record. *)
Lemma reads_same writer record res : map_Forall (fun k _ => k ∈ names writer) record -> reads writer writer record res -> res = inr record.
Proof.
  intros Hdom. assert (forall rf, rf ∈ Fields writer -> Name rf ∈ names writer) as Hin by (intros rf Hrf; apply list_elem_of_fmap; by exists rf).
  unfold reads. rewrite decide_True by (apply Forall_forall; intros rf Hrf; left; by apply Hin). intros (out & -> & H1 & H2). f_equal. apply map_eq. intros k.
  destruct (decide (k ∈ names writer)) as [Hk|Hk].
  - apply list_elem_of_fmap in Hk as (rf & -> & Hrf). rewrite (H1 rf Hrf). rewrite decide_True by (by apply Hin). done.
  - rewrite (H2 k Hk). symmetry. apply eq_None_not_Some. intros [v Hv]. by apply Hdom in Hv.
Qed.

Ltac by_lookup := repeat first [rewrite lookup_insert_eq | rewrite lookup_insert_ne by done | rewrite lookup_singleton_eq].
Ltac conform := split;
  [ repeat (apply map_Forall_insert_2; [apply (bool_decide_unpack _); by vm_compute|]); apply map_Forall_empty
  | repeat (apply Forall_cons; split; [cbn [Name Type_ plain]; by_lookup; cbn [plain_value UnixNano]; rewrite ?i64_id by done; done|]); apply Forall_nil; done ].

Definition SessionEvent_ok (e : SessionEvent) : Prop := text_ok (se_RunID e) /\ text_ok (se_SessionID e) /\ text_ok (se_Action e) /\ is_i64 (se_Timestamp e).
Definition SchedulerEvent_ok (e : SchedulerEvent) : Prop := text_ok (sc_RunID e) /\ text_ok (sc_EntityID e) /\ text_ok (sc_Action e) /\ is_i64 (sc_Timestamp e).
Definition AuditEvent_ok (e : AuditEvent) : Prop :=
  text_ok (ae_RunID e) /\ text_ok (ae_Actor e) /\ text_ok (ae_SubjectID e) /\ text_ok (ae_Action e) /\ is_i64 (ae_Timestamp e).
Definition NodeEvent_ok (e : NodeEvent) : Prop := text_ok (ne_RunID e) /\ text_ok (ne_NodeID e) /\ text_ok (ne_Action e) /\ is_i64 (ne_Timestamp e).

Definition session_record (e : SessionEvent) : gmap string gval :=
  {[ "run_id" := VString (se_RunID e); "session_id" := VString (se_SessionID e); "action" := VString (se_Action e); "timestamp" := UnixNano (se_Timestamp e) ]}.

(** A payload is one of the family: its readers get the event, and the
    readers of every other schema are told that they cannot read it. *)
Lemma session_payload e :
  SessionEvent_ok e -> exists data, EncodeSessionEventAvro (Some e) SessionEventSchemaV1 = inr data /\ Forall is_u8 data /\
  forall registry, Lookup registry (Fingerprint SessionEventSchemaV1) = Some SessionEventSchemaV1 ->
    DecodeSessionEventAvro data registry SessionEventSchemaV1 = inr e /\
    forall reader, reader ∈ [NodeEventSchemaV1; NodeEventSchemaV2; SchedulerEventSchemaV1; AuditEventSchemaV1] -> AvroDecode data registry reader = inl ErrNotResolvable.
Proof.
  intros (H1 & H2 & H3 & H4).
  assert (conforms SessionEventSchemaV1 (session_record e)) as Hc by (unfold session_record; conform). destruct (event_payload _ _ Hc) as (data & Hd & Hu & Hr). exists data.
  unfold EncodeSessionEventAvro. fold (session_record e). rewrite Hd. split_and!; [done|done|]. intros registry Hreg. split.
  - unfold DecodeSessionEventAvro. rewrite (reads_same _ _ _ (proj1 Hc) (Hr registry SessionEventSchemaV1 Hreg ltac:(apply (bool_decide_unpack _); by vm_compute))).
    unfold string_or_zero, int64_or_zero, session_record. by_lookup. unfold UnixNano. rewrite i64_id by done. by destruct e.
  - intros reader Hin. specialize (Hr registry reader Hreg). rewrite !elem_of_cons, elem_of_nil in Hin. destruct Hin as [->|[->|[->|[->|[]]]]]; by apply Hr, (bool_decide_unpack _).
Qed.

Definition scheduler_record (e : SchedulerEvent) : gmap string gval :=
  {[ "run_id" := VString (sc_RunID e); "entity_id" := VString (sc_EntityID e); "action" := VString (sc_Action e); "timestamp" := UnixNano (sc_Timestamp e) ]}.

Lemma scheduler_payload e :
  SchedulerEvent_ok e -> exists data, EncodeSchedulerEventAvro (Some e) SchedulerEventSchemaV1 = inr data /\ Forall is_u8 data /\
  forall registry, Lookup registry (Fingerprint SchedulerEventSchemaV1) = Some SchedulerEventSchemaV1 ->
    DecodeSchedulerEventAvro data registry SchedulerEventSchemaV1 = inr e /\
    forall reader, reader ∈ [NodeEventSchemaV1; NodeEventSchemaV2; SessionEventSchemaV1; AuditEventSchemaV1] -> AvroDecode data registry reader = inl ErrNotResolvable.
Proof.
  intros (H1 & H2 & H3 & H4).
  assert (conforms SchedulerEventSchemaV1 (scheduler_record e)) as Hc by (unfold scheduler_record; conform). destruct (event_payload _ _ Hc) as (data & Hd & Hu & Hr). exists data.
  unfold EncodeSchedulerEventAvro. fold (scheduler_record e). rewrite Hd. split_and!; [done|done|]. intros registry Hreg. split.
  - unfold DecodeSchedulerEventAvro. rewrite (reads_same _ _ _ (proj1 Hc) (Hr registry SchedulerEventSchemaV1 Hreg ltac:(apply (bool_decide_unpack _); by vm_compute))).
    unfold string_or_zero, int64_or_zero, scheduler_record. by_lookup. unfold UnixNano. rewrite i64_id by done. by destruct e.
  - intros reader Hin. specialize (Hr registry reader Hreg). rewrite !elem_of_cons, elem_of_nil in Hin. destruct Hin as [->|[->|[->|[->|[]]]]]; by apply Hr, (bool_decide_unpack _).
Qed.

Definition audit_record (e : AuditEvent) : gmap string gval :=
  {[ "run_id" := VString (ae_RunID e); "actor" := VString (ae_Actor e); "subject_id" := VString (ae_SubjectID e); "action" := VString (ae_Action e);
     "timestamp" := UnixNano (ae_Timestamp e) ]}.

Lemma audit_payload e :
  AuditEvent_ok e -> exists data, EncodeAuditEventAvro (Some e) AuditEventSchemaV1 = inr data /\ Forall is_u8 data /\
  forall registry, Lookup registry (Fingerprint AuditEventSchemaV1) = Some AuditEventSchemaV1 ->
    DecodeAuditEventAvro data registry AuditEventSchemaV1 = inr e /\
    forall reader, reader ∈ [NodeEventSchemaV1; NodeEventSchemaV2; SchedulerEventSchemaV1; SessionEventSchemaV1] -> AvroDecode data registry reader = inl ErrNotResolvable.
Proof.
  intros (H1 & H2 & H3 & H4 & H5).
  assert (conforms AuditEventSchemaV1 (audit_record e)) as Hc by (unfold audit_record; conform). destruct (event_payload _ _ Hc) as (data & Hd & Hu & Hr). exists data.
  unfold EncodeAuditEventAvro. fold (audit_record e). rewrite Hd. split_and!; [done|done|]. intros registry Hreg. split.
  - unfold DecodeAuditEventAvro. rewrite (reads_same _ _ _ (proj1 Hc) (Hr registry AuditEventSchemaV1 Hreg ltac:(apply (bool_decide_unpack _); by vm_compute))).
    unfold string_or_zero, int64_or_zero, audit_record. by_lookup. unfold UnixNano. rewrite i64_id by done. by destruct e.
  - intros reader Hin. specialize (Hr registry reader Hreg). rewrite !elem_of_cons, elem_of_nil in Hin. destruct Hin as [->|[->|[->|[->|[]]]]]; by apply Hr, (bool_decide_unpack _).
Qed.

(** A node event as a reader gets it: the action only if both schemas have it,
    and never the metadata. *)
Definition as_read (w r : AvroSchema) (e : NodeEvent) : NodeEvent :=
  mkNodeEvent (ne_RunID e) (ne_NodeID e) (if decide ("action" ∈ names w /\ "action" ∈ names r) then ne_Action e else []) (ne_Timestamp e) ∅.

Lemma node_conforms e w : NodeEvent_ok e -> w ∈ [NodeEventSchemaV1; NodeEventSchemaV2] -> conforms w (nodeEventToRecord e w).
Proof.
  intros (H1 & H2 & H3 & H4) Hw. rewrite !elem_of_cons, elem_of_nil in Hw. destruct Hw as [->|[->|[]]].
  - change (nodeEventToRecord e NodeEventSchemaV1) with (<["timestamp" := UnixNano (ne_Timestamp e)]> (<["node_id" := VString (ne_NodeID e)]> (<["run_id" := VString (ne_RunID e)]> ∅))
      : gmap string gval). conform.
  - change (nodeEventToRecord e NodeEventSchemaV2) with (<["action" := VString (ne_Action e)]> (<["timestamp" := UnixNano (ne_Timestamp e)]> (<["node_id" := VString (ne_NodeID e)]>
      (<["run_id" := VString (ne_RunID e)]> ∅))) : gmap string gval). conform.
Qed.

Lemma node_payload e w :
  NodeEvent_ok e -> w ∈ [NodeEventSchemaV1; NodeEventSchemaV2] ->
  exists data, EncodeNodeEventAvro (Some e) (Some w) = inr data /\ Forall is_u8 data /\
  forall registry, Lookup registry (Fingerprint w) = Some w ->
    (forall r, r ∈ [NodeEventSchemaV1; NodeEventSchemaV2] -> DecodeNodeEventAvro data registry r = inr (as_read w r e)) /\
    forall reader, reader ∈ [SessionEventSchemaV1; SchedulerEventSchemaV1; AuditEventSchemaV1] -> AvroDecode data registry reader = inl ErrNotResolvable.
Proof.
  intros He Hw. pose proof (node_conforms e w He Hw) as Hc. destruct (event_payload _ _ Hc) as (data & Hd & Hu & Hr). exists data. unfold EncodeNodeEventAvro. rewrite Hd.
  split_and!; [done|done|]. destruct He as (_ & _ & _ & Ht). intros registry Hreg. specialize (fun r => Hr registry r Hreg).
  split; intros r Hin; specialize (Hr r ltac:(rewrite !elem_of_cons, elem_of_nil in Hin; destruct_or! Hin; (done || subst r; apply (bool_decide_unpack _); by vm_compute))).
  - unfold DecodeNodeEventAvro, as_read. rewrite !elem_of_cons, elem_of_nil in Hw, Hin. unfold reads in Hr.
    destruct Hw as [->|[->|[]]], Hin as [->|[->|[]]]; (rewrite decide_True in Hr by (apply (bool_decide_unpack _); by vm_compute));
      destruct Hr as (out & -> & H1 & H2); unfold recordToNodeEvent, string_field, int64_field;
      (assert (out !! "run_id" = Some (VString (ne_RunID e))) as -> by (apply (H1 (plain "run_id" AvroString)); left));
      (assert (out !! "node_id" = Some (VString (ne_NodeID e))) as -> by (apply (H1 (plain "node_id" AvroString)); right; left));
      (assert (out !! "timestamp" = Some (VInt64 (ne_Timestamp e))) as -> by
        (etrans; [apply (H1 (plain "timestamp" AvroLong)); right; right; left|]; by transitivity (Some (UnixNano (ne_Timestamp e))); [|unfold UnixNano; rewrite i64_id]));
      (rewrite (H2 "action") by (apply (bool_decide_unpack _); by vm_compute)) ||
        (pose proof (H1 (mkField "action" AvroString true (VString [])) ltac:(do 3 right; left)) as Ha; cbn [Name] in Ha; rewrite Ha); done.
  - rewrite !elem_of_cons, elem_of_nil in Hw. rewrite !elem_of_cons, elem_of_nil in Hin. destruct Hw as [->|[->|[]]], Hin as [->|[->|[->|[]]]]; exact Hr.
Qed.

(** ** Publishers and subscribers *)

Lemma lookup_Register r s fp : Lookup (Register r s) fp = if decide (fp = Fingerprint s) then Some s else Lookup r fp.
Proof. unfold Lookup, Register, SchemaRegistry in *. destruct (decide (fp = Fingerprint s)) as [->|]; [apply lookup_insert_eq|by apply lookup_insert_ne]. Qed.

(** A registry that the options of a backend have gone through knows the
    schemas they register, and those it knew before. *)
Definition knows (w : AvroSchema) (r : SchemaRegistry) : Prop :=
  forall s, s ∈ [w; SessionEventSchemaV1; SchedulerEventSchemaV1; AuditEventSchemaV1] -> Lookup r (Fingerprint s) = Some s.

Definition register_events (r : SchemaRegistry) : SchemaRegistry := Register (Register (Register r SessionEventSchemaV1) SchedulerEventSchemaV1) AuditEventSchemaV1.

Lemma register_three (w a b c : AvroSchema) r s :
  NoDup (Fingerprint <$> [w; a; b; c]) -> Lookup r (Fingerprint w) = Some w -> s ∈ [w; a; b; c] ->
  Lookup (Register (Register (Register r a) b) c) (Fingerprint s) = Some s.
Proof.
  rewrite !fmap_cons, fmap_nil, !NoDup_cons, !not_elem_of_cons. intros Hd Hr Hs. rewrite !lookup_Register.
  rewrite !elem_of_cons, elem_of_nil in Hs.
  destruct_and! Hd. destruct Hs as [->|[->|[->|[->|[]]]]]; repeat case_decide; (done || congruence).
Qed.

Lemma register_knows w r : w ∈ [NodeEventSchemaV1; NodeEventSchemaV2] -> Lookup r (Fingerprint w) = Some w -> knows w (register_events r).
Proof.
  intros Hw Hr s Hs. apply (register_three w); [|done|done]. rewrite !elem_of_cons, elem_of_nil in Hw. destruct Hw as [->|[->|[]]]; by_eval.
Qed.

Lemma backend_options h w p :
  NewNATSBackend h [WithAvro (Some w) (Some p); WithAvroEvents (Some p)] =
  (alter register_events p h, mkBackend natsBackendSource WireAvro (Some w) (Some p) (Some SessionEventSchemaV1) (Some SchedulerEventSchemaV1) (Some AuditEventSchemaV1)).
Proof.
  unfold NewNATSBackend, WithAvro, WithAvroEvents. cbn [foldl register_in sessionWriter schedulerWriter auditWriter avroWriter source]. f_equal.
  apply map_eq. intros i. destruct (decide (i = p)) as [->|Hi]; [rewrite !lookup_alter_eq; by destruct (h !! p)|by rewrite !lookup_alter_ne].
Qed.

Definition event_ok (ev : event) : Prop :=
  match ev with ENode e => NodeEvent_ok e | ESession e => SessionEvent_ok e | EScheduler e => SchedulerEvent_ok e | EAudit e => AuditEvent_ok e end.
Definition event_id (ev : event) : bytes := match ev with ENode e => ne_RunID e | ESession e => se_RunID e | EScheduler e => sc_RunID e | EAudit e => ae_RunID e end.
Definition event_subject (ev : event) : bytes :=
  match ev with ENode e => NodeEvent_Subject e | ESession e => SessionEvent_Subject e | EScheduler e => SchedulerEvent_Subject e | EAudit e => AuditEvent_Subject e end.

(** What the subscribers of each family are to get of an event. *)
Definition node_of (w r : AvroSchema) (ev : event) : option NodeEvent := match ev with ENode e => Some (as_read w r e) | _ => None end.
Definition session_of (ev : event) : option SessionEvent := match ev with ESession e => Some e | _ => None end.
Definition scheduler_of (ev : event) : option SchedulerEvent := match ev with EScheduler e => Some e | _ => None end.
Definition audit_of (ev : event) : option AuditEvent := match ev with EAudit e => Some e | _ => None end.

(** How the bus delivers an event: unchanged, its payload as bytes within the
    process and as base64 text from the wire. *)
Definition arrives (sent : busEvent) (got : option busEvent) : Prop :=
  exists b p, bPayload sent = PBytes b /\ (p = PBytes b \/ p = PString (EncodeToString b)) /\
    got = Some (mkBusEvent (bID sent) (bType sent) (bSource sent) p (bTimestamp sent)).

Definition avro_backend (w : AvroSchema) (p : registry_ptr) : NATSBackend :=
  mkBackend natsBackendSource WireAvro (Some w) (Some p) (Some SessionEventSchemaV1) (Some SchedulerEventSchemaV1) (Some AuditEventSchemaV1).

Definition or_refused {E} (o : option E) : event_error + E := match o with Some e => inr e | None => inl (EAvro ErrNotResolvable) end.

Section delivery.
Context `{!Json NodeEvent, !Json SessionEvent, !Json SchedulerEvent, !Json AuditEvent}.

Lemma one_event h wp ws rp rs r ev :
  wp ∈ [NodeEventSchemaV1; NodeEventSchemaV2] -> ws ∈ [NodeEventSchemaV1; NodeEventSchemaV2] -> h !! rs = Some r -> knows wp r -> event_ok ev ->
  exists b data, publish (avro_backend wp rp) ev = inr b /\ bID b = event_id ev /\ bType b = event_subject ev /\ bPayload b = PBytes data /\ Forall is_u8 data /\
    decodeNodeEvent h (avro_backend ws rs) data = or_refused (node_of wp ws ev) /\
    decodeSessionEvent h (avro_backend ws rs) data = or_refused (session_of ev) /\
    decodeSchedulerEvent h (avro_backend ws rs) data = or_refused (scheduler_of ev) /\
    decodeAuditEvent h (avro_backend ws rs) data = or_refused (audit_of ev).
Proof.
  intros Hwp Hws Hr Hk Hev. assert (forall w, resolution h (avro_backend ws rs) (Some w) = Some (r, w)) as Hres by (intros w; unfold resolution; simpl; by rewrite Hr).
  unfold decodeNodeEvent, decodeSessionEvent, decodeSchedulerEvent, decodeAuditEvent. cbn [avro_backend wireFormat avroWriter sessionWriter schedulerWriter auditWriter] in *.
  rewrite !Hres. unfold publish, PublishNodeEvent, PublishSessionEvent, PublishSchedulerEvent, PublishAuditEvent. cbn [avro_backend wireFormat avroWriter sessionWriter schedulerWriter auditWriter].
  assert (forall F, ws ∈ NodeEventSchemaV1 :: NodeEventSchemaV2 :: F) as Hws' by (intros F; rewrite !elem_of_cons in *; rewrite elem_of_nil in Hws; tauto).
  destruct ev as [e|e|e|e]; cbn [event_ok] in Hev.
  - destruct (node_payload e wp Hev Hwp) as (data & -> & Hu & Hd). destruct (Hd r) as [H1 H2]; [apply Hk; left|].
    eexists _, data. split_and!; [done..|by apply H1| | |]; unfold DecodeSessionEventAvro, DecodeSchedulerEventAvro, DecodeAuditEventAvro; (rewrite H2; [done|]);
      rewrite !elem_of_cons; tauto.
  - destruct (session_payload e Hev) as (data & -> & Hu & Hd). destruct (Hd r) as [H1 H2]; [apply Hk; right; left|].
    eexists _, data. split_and!; [done..| |done| |]; unfold DecodeNodeEventAvro, DecodeSchedulerEventAvro, DecodeAuditEventAvro; (rewrite H2; [done|]);
      done || rewrite !elem_of_cons; tauto.
  - destruct (scheduler_payload e Hev) as (data & -> & Hu & Hd). destruct (Hd r) as [H1 H2]; [apply Hk; right; right; left|].
    eexists _, data. split_and!; [done..| | |done|]; unfold DecodeNodeEventAvro, DecodeSessionEventAvro, DecodeAuditEventAvro; (rewrite H2; [done|]);
      done || rewrite !elem_of_cons; tauto.
  - destruct (audit_payload e Hev) as (data & -> & Hu & Hd). destruct (Hd r) as [H1 H2]; [apply Hk; do 3 right; left|].
    eexists _, data. split_and!; [done..| | | |done]; unfold DecodeNodeEventAvro, DecodeSessionEventAvro, DecodeSchedulerEventAvro; (rewrite H2; [done|]);
      done || rewrite !elem_of_cons; tauto.
Qed.

Lemma forward_delivers {E} (dec : bytes -> event_error + E) (share : event -> option E) events sent got :
  Forall2 (fun ev b => exists data, bPayload b = PBytes data /\ Forall is_u8 data /\ dec data = or_refused (share ev)) events sent ->
  Forall2 arrives sent got -> forward dec (Subscribe got) = omap share events.
Proof.
  intros Hs. revert got. induction Hs as [|ev b events sent (data & Hb & Hu & Hd) Hs IH]; intros got Hg; apply Forall2_cons_inv_l in Hg || apply Forall2_nil_inv_l in Hg; [by subst|].
  destruct Hg as (g & got' & (data' & p & Hb' & Hp & ->) & Hg & ->). rewrite Hb in Hb'. injection Hb' as <-. cbn [Subscribe fromEventbusEvent forward Payload bPayload omap list_omap].
  rewrite (payload_back data p Hu Hp), Hd, (IH _ Hg). by destruct (share ev).
Qed.

(** C33: Typed events are delivered.  Two backends are set up with the Avro
    options, each with one of the two node schemas and a registry of its own or
    a shared one; the subscriber's registry knows the publisher's node schema.
    Then every sequence of node, session, scheduler and audit events (texts
    that fit in memory, times that fit in nanoseconds) is published without an
    error, each under the subject of its family, which has no wildcard and no
    blank; and whichever way the bus brings the payloads back, the subscribers
    of each family get exactly the events of that family, in order: sessions,
    scheduler and audit events as they were, node events without metadata and
    with the action only when both schemas have it. *)
Theorem typed_events_delivered (h : registries) (rp rs : registry_ptr) (wp ws : AvroSchema) (reg : SchemaRegistry) (events : list event) (id action : bytes) :
  wp ∈ [NodeEventSchemaV1; NodeEventSchemaV2] -> ws ∈ [NodeEventSchemaV1; NodeEventSchemaV2] ->
  h !! rs = Some reg -> Lookup reg (Fingerprint wp) = Some wp -> Forall event_ok events ->
  let '(h1, p) := NewNATSBackend h [WithAvro (Some wp) (Some rp); WithAvroEvents (Some rp)] in
  let '(h2, s) := NewNATSBackend h1 [WithAvro (Some ws) (Some rs); WithAvroEvents (Some rs)] in
  exists sent,
    Forall2 (fun ev b => publish p ev = inr b /\ bID b = event_id ev /\ bType b = event_subject ev /\ Forall (fun c => ~ illegal c) (bType b)) events sent /\
    forall got, Forall2 arrives sent got ->
      (SubscribeNodeEvents h2 s id action got).2 = omap (node_of wp ws) events /\
      (SubscribeSessionEvents h2 s id action got).2 = omap session_of events /\
      (SubscribeSchedulerEvents h2 s id action got).2 = omap scheduler_of events /\
      (SubscribeAuditEvents h2 s id action got).2 = omap audit_of events.
Proof.
  intros Hwp Hws Hreg Hl Hev. rewrite !backend_options. fold (avro_backend wp rp). fold (avro_backend ws rs). set (h2 := alter _ rs _).
  assert (exists r, h2 !! rs = Some r /\ knows wp r) as (r & Hr & Hk).
  { unfold h2. rewrite lookup_alter_eq. destruct (decide (rp = rs)) as [->|Hne]; [rewrite lookup_alter_eq|rewrite lookup_alter_ne by done]; rewrite Hreg; eexists; (split; [done|]);
      apply register_knows; [done| |done|done]. apply (register_knows wp); [done|done|left]. }
  clearbody h2. assert (exists sent, Forall2 (fun ev b => exists data, publish (avro_backend wp rp) ev = inr b /\ bID b = event_id ev /\ bType b = event_subject ev /\ bPayload b = PBytes data /\ Forall is_u8 data /\
    decodeNodeEvent h2 (avro_backend ws rs) data = or_refused (node_of wp ws ev) /\ decodeSessionEvent h2 (avro_backend ws rs) data = or_refused (session_of ev) /\
    decodeSchedulerEvent h2 (avro_backend ws rs) data = or_refused (scheduler_of ev) /\ decodeAuditEvent h2 (avro_backend ws rs) data = or_refused (audit_of ev)) events sent) as [sent Hs].
  { clear Hl Hreg. induction Hev as [|ev events Hok _ [sent IH]]; [by exists []|]. destruct (one_event h2 wp ws rp rs r ev Hwp Hws Hr Hk Hok) as (b & data & Hb). exists (b :: sent).
    constructor; [by exists data|done]. }
  exists sent. split.
  - eapply Forall2_impl; [exact Hs|]. intros ev b (data & H1 & H2 & H3 & _). split_and!; [done..|]. rewrite H3. destruct ev; apply subject_clean.
  - intros got Hg. split_and!; (eapply forward_delivers; [|exact Hg]); (eapply Forall2_impl; [exact Hs|]); intros ev b (data & _ & _ & _ & H); exists data; tauto.
Qed.

End delivery.

Module AvroEventsDemo.

(** No codec of JSON is needed in these runs. *)
#[local] Instance no_json E : Json E := {| MarshalPayload _ := inl ENoSchema; UnmarshalEvent _ := inl ENoSchema |}.

Definition demo_node : NodeEvent := mkNodeEvent (string_bytes "r1") (string_bytes "n 1") (string_bytes "join") 5 ∅.
Definition demo_session : SessionEvent := mkSessionEvent (string_bytes "r2") (string_bytes "s1") (string_bytes "attach") 7.
Definition demo_heap : registries := {[ 0%nat := Register NewSchemaRegistry NodeEventSchemaV1 ]}.

Lemma typed_events_delivered_witness :
  let '(h1, p) := NewNATSBackend demo_heap [WithAvro (Some NodeEventSchemaV1) (Some 0%nat); WithAvroEvents (Some 0%nat)] in
  let '(h2, s) := NewNATSBackend h1 [WithAvro (Some NodeEventSchemaV2) (Some 0%nat); WithAvroEvents (Some 0%nat)] in
  exists sent, length sent = 2%nat /\ forall got, Forall2 arrives sent got -> (SubscribeSessionEvents h2 s [] [] got).2 = [demo_session].
Proof.
  pose proof (typed_events_delivered demo_heap 0 0 NodeEventSchemaV1 NodeEventSchemaV2 (Register NewSchemaRegistry NodeEventSchemaV1) [ENode demo_node; ESession demo_session] [] []) as H.
  rewrite !backend_options in *. destruct H as (sent & Hs & H); [left|right; left|done|apply lookup_insert_eq| |].
  - repeat constructor; (apply (bool_decide_unpack _); by vm_compute) || by vm_compute.
  - exists sent. split; [by rewrite <- (Forall2_length _ _ _ Hs)|]. intros got Hg. destruct (H got Hg) as (_ & -> & _). done.
Defined.

(** With the option of one family only, publishing an event of another fails:
    the wire format is one for all. *)
Lemma session_option_stops_others :
  PublishAuditEvent (NewNATSBackend demo_heap [WithAvroSession (Some SessionEventSchemaV1) (Some 0%nat)]).2
    (Some (mkAuditEvent [] [] [] [] 0)) = inl ENoSchema.
Proof. done. Qed.

(** A subscription to any node subscribes to the node called _ . *)
Lemma no_wildcard_subscription : HelixSubject (string_bytes "nodes") (string_bytes "*") (string_bytes "join") = string_bytes "nodes._.join".
Proof. by vm_compute. Qed.

(** A dot is not replaced, so different entities share a subject. *)
Lemma dots_collide :
  HelixSubject (string_bytes "nodes") (string_bytes "a.b") (string_bytes "c") = HelixSubject (string_bytes "nodes") (string_bytes "a") (string_bytes "b.c").
Proof. by vm_compute. Qed.

End AvroEventsDemo.
