(* ===== verification/SessionCrdt.v ===== *)
(** * Replicated session state (pkg/session/crdt.go, pkg/session/convergence.go)

    The windows and panes of a terminal session, replicated with last-writer-wins
    registers: a window has a name and a layout under one version, and a map of
    panes, each with a version of its own.  Replicas merge whole states.

    Windows and panes are values: the code copies them wherever they enter or
    leave a state.  A nil map of panes, which a caller may pass, is the empty
    one; a state of the code never has one.  [Merge] holds the locks of both
    states, so a merge of a state with itself does not return and is not a
    call of the model.

    The main theorem: whatever the updates, the merges and the snapshots in
    flight, replicas that have seen the same updates are the same, and every
    window and pane is the one with the greatest version and content seen.
    Its conditions, and the examples after it, say what the code leaves to
    its callers: versions that the code assigns must be ahead of those it has
    seen, names must be free of NUL bytes. *)
From stdpp Require Import pretty.
From S2P Require Import Prelude Sha256 GoFmt.
Open Scope Z_scope.

Record CRDTPane := mkPane { p_ID : string; Command : string; WorkingDir : string; p_Status : Z; p_Version : Z }.
Record CRDTWindow := mkWindow { w_ID : string; w_Name : string; Layout : string; Panes : gmap string CRDTPane; w_Version : Z }.
Record CRDTSessionState := mkState { windows : gmap string CRDTWindow; version : Z }.

#[global] Instance CRDTPane_eq_dec : EqDecision CRDTPane.
Proof. solve_decision. Defined.
#[global] Instance CRDTWindow_eq_dec : EqDecision CRDTWindow.
Proof. solve_decision. Defined.

Definition NewCRDTSessionState : CRDTSessionState := mkState ∅ 0.

(** ** Copies *)

Definition clonePane (p : CRDTPane) : CRDTPane := mkPane (p_ID p) (Command p) (WorkingDir p) (p_Status p) (p_Version p).

Definition cloneWindow (w : CRDTWindow) : CRDTWindow :=
  mkWindow (w_ID w) (w_Name w) (Layout w) (range_fold (fun out pid p => <[pid := clonePane p]> out) ∅ (Panes w)) (w_Version w).

Definition Clone (c : CRDTSessionState) : CRDTSessionState :=
  mkState (range_fold (fun out wid w => <[wid := cloneWindow w]> out) ∅ (windows c)) (version c).

(** ** The order of versions and contents *)

Definition nul : string := String Ascii.zero EmptyString.

Definition windowContentKey (w : CRDTWindow) : string := String.append (w_Name w) (String.append nul (Layout w)).

Definition paneContentKey (p : CRDTPane) : string :=
  String.append (Command p) (String.append nul (String.append (WorkingDir p) (String.append nul (pretty (p_Status p))))).

Definition windowScalarWins (ow cw : CRDTWindow) : bool :=
  if decide (w_Version ow <> w_Version cw) then bool_decide (w_Version ow > w_Version cw)
  else bool_decide (slt (windowContentKey cw) (windowContentKey ow)).

Definition paneWins (op cp : CRDTPane) : bool :=
  if decide (p_Version op <> p_Version cp) then bool_decide (p_Version op > p_Version cp)
  else bool_decide (slt (paneContentKey cp) (paneContentKey op)).

Definition merge_pane (dst : gmap string CRDTPane) (pid : string) (op : CRDTPane) : gmap string CRDTPane :=
  match dst !! pid with
  | None => <[pid := clonePane op]> dst
  | Some cp => if paneWins op cp then <[pid := clonePane op]> dst else dst
  end.

Definition mergePanes (dst src : gmap string CRDTPane) : gmap string CRDTPane := range_fold merge_pane dst src.

(** ** The operations *)

(** The body of the loop of [Merge]. *)
Definition merge_window (ws : gmap string CRDTWindow) (wid : string) (ow : CRDTWindow) : gmap string CRDTWindow :=
  match ws !! wid with
  | None => <[wid := cloneWindow ow]> ws
  | Some cw =>
      let '(name, layout) := if windowScalarWins ow cw then (w_Name ow, Layout ow) else (w_Name cw, Layout cw) in
      let ver := if decide (w_Version ow > w_Version cw) then w_Version ow else w_Version cw in
      <[wid := mkWindow (w_ID cw) name layout (mergePanes (Panes cw) (Panes ow)) ver]> ws
  end.

Definition Merge (c : CRDTSessionState) (other : option CRDTSessionState) : CRDTSessionState :=
  match other with
  | None => c
  | Some other =>
      mkState (range_fold merge_window (windows c) (windows other)) (if decide (version other > version c) then version other else version c)
  end.

Definition UpdateWindow (c : CRDTSessionState) (w : option CRDTWindow) : CRDTSessionState :=
  match w with
  | None => c
  | Some w =>
      let ver := u64 (version c + 1) in
      match windows c !! w_ID w with
      | None =>
          let nw := cloneWindow w in
          let nw := if decide (w_Version nw = 0) then mkWindow (w_ID nw) (w_Name nw) (Layout nw) (Panes nw) ver else nw in
          mkState (<[w_ID w := nw]> (windows c)) ver
      | Some existing =>
          let existing :=
            if decide (w_Version w = 0) then
              mkWindow (w_ID existing) (w_Name w) (Layout w) (Panes existing) (if decide (ver > w_Version existing) then ver else w_Version existing)
            else if decide (w_Version w > w_Version existing \/ w_Version w = w_Version existing /\ windowScalarWins w existing = true) then
              mkWindow (w_ID existing) (w_Name w) (Layout w) (Panes existing) (if decide (w_Version w > w_Version existing) then w_Version w else w_Version existing)
            else existing in
          mkState (<[w_ID w := mkWindow (w_ID existing) (w_Name existing) (Layout existing) (mergePanes (Panes existing) (Panes w)) (w_Version existing)]> (windows c)) ver
      end
  end.

Definition UpdatePane (c : CRDTSessionState) (windowID : string) (p : option CRDTPane) : CRDTSessionState :=
  match p with
  | None => c
  | Some p =>
      let ver := u64 (version c + 1) in
      let w := match windows c !! windowID with Some w => w | None => mkWindow windowID EmptyString EmptyString ∅ ver end in
      let overwrite :=
        match Panes w !! p_ID p with
        | None => true
        | Some existing => bool_decide (p_Version p = 0 \/ p_Version p > p_Version existing \/ p_Version p = p_Version existing /\ paneWins p existing = true)
        end in
      let w :=
        if overwrite then
          let newVersion := if decide (p_Version p = 0) then ver else p_Version p in
          mkWindow (w_ID w) (w_Name w) (Layout w) (<[p_ID p := mkPane (p_ID p) (Command p) (WorkingDir p) (p_Status p) newVersion]> (Panes w)) (w_Version w)
        else w in
      mkState (<[windowID := w]> (windows c)) ver
  end.

Definition GetWindow (c : CRDTSessionState) (id : string) : option CRDTWindow :=
  match windows c !! id with
  | None => None
  | Some w =>
      let panes := range_fold (fun out pid p => <[pid := mkPane (p_ID p) (Command p) (WorkingDir p) (p_Status p) (p_Version p)]> out) ∅ (Panes w) in
      Some (mkWindow (w_ID w) (w_Name w) (Layout w) panes (w_Version w))
  end.

Definition GetPane (c : CRDTSessionState) (windowID paneID : string) : option CRDTPane :=
  match windows c !! windowID with
  | None => None
  | Some w =>
      match Panes w !! paneID with
      | None => None
      | Some p => Some (mkPane (p_ID p) (Command p) (WorkingDir p) (p_Status p) (p_Version p))
      end
  end.

(** ** The fingerprint *)

Fixpoint concat_strings (l : list string) : string := match l with [] => EmptyString | s :: l => String.append s (concat_strings l) end.

Definition pane_text (p : CRDTPane) : string :=
  concat_strings ["P{id="; p_ID p; ",cmd="; Command p; ",dir="; WorkingDir p; ",st="; pretty (p_Status p); ",ver="; pretty (p_Version p); "}"].

Definition window_text (w : CRDTWindow) : string :=
  concat_strings (["W{id="; w_ID w; ",name="; w_Name w; ",layout="; Layout w; ",ver="; pretty (w_Version w); "|"] ++
    omap (fun pid => pane_text <$> Panes w !! pid) (sort_strings (map_to_list (Panes w)).*1) ++ ["}"]).

Definition Fingerprint (c : CRDTSessionState) : string :=
  concat_strings (omap (fun wid => window_text <$> windows c !! wid) (sort_strings (map_to_list (windows c)).*1)).

(** ** Joins *)

(** A join of values that are valid at a key: what makes merging converge. *)
Class Join {A : Type} (V : A -> Prop) (join : A -> A -> A) : Prop := {
  join_valid : forall a b, V a -> V b -> V (join a b);
  join_comm : forall a b, V a -> V b -> join a b = join b a;
  join_assoc : forall a b c, V a -> V b -> V c -> join a (join b c) = join (join a b) c;
  join_idem : forall a, V a -> join a a = a
}.

(** The greater one, in an order that is strict and total on valid values. *)
Section greatest.
Context {A : Type} (V : A -> Prop) (wins : A -> A -> bool).
Hypothesis wins_irrefl : forall a, wins a a = false.
Hypothesis wins_trans : forall a b c, wins a b = true -> wins b c = true -> wins a c = true.
Hypothesis wins_total : forall a b, V a -> V b -> wins a b = false -> wins b a = false -> a = b.

Definition greater (a b : A) : A := if wins b a then b else a.

Lemma greater_join : Join V greater.
Proof.
  assert (forall a b, wins a b = true -> wins b a = false) as Hasym.
  { intros a b Hab. apply not_true_is_false. intros Hba. pose proof (wins_trans _ _ _ Hab Hba) as H. by rewrite wins_irrefl in H. }
  unfold greater. split.
  - intros a b Ha Hb. by destruct (wins b a).
  - intros a b Ha Hb. destruct (wins b a) eqn:E; [by rewrite (Hasym _ _ E)|]. destruct (wins a b) eqn:E'; [done|]. by apply wins_total.
  - intros a b c Ha Hb Hc. destruct (wins c b) eqn:Ecb, (wins b a) eqn:Eba; rewrite ?Ecb, ?Eba; try done; [by rewrite (wins_trans _ _ _ Ecb Eba)|].
    destruct (wins c a) eqn:Eca; [|done]. destruct (wins b c) eqn:Ebc; [by rewrite (wins_trans _ _ _ Ebc Eca) in Eba|].
    by rewrite (wins_total c b Hc Hb Ecb Ebc), Eba in Eca.
  - intros a _. by destruct (wins a a).
Qed.
End greatest.

(** Maps are joined key by key. *)
Section maps.
Context {A : Type} (V : string -> A -> Prop) (join : A -> A -> A).

Definition map_join : gmap string A -> gmap string A -> gmap string A := union_with (fun a b => Some (join a b)).

Lemma lookup_map_join m m' k : map_join m m' !! k = match m !! k, m' !! k with Some a, Some b => Some (join a b) | Some a, None => Some a | None, o => o end.
Proof. unfold map_join. rewrite lookup_union_with. by destruct (m !! k), (m' !! k). Qed.

Lemma map_join_join : (forall k, Join (V k) join) -> Join (map_Forall V) map_join.
Proof.
  intros HJ. split.
  - intros m m' Hm Hm' k a. rewrite lookup_map_join. specialize (Hm k). specialize (Hm' k). destruct (m !! k) as [x|], (m' !! k) as [y|]; intros [= <-]; auto.
    by apply (join_valid (Join := HJ k)); auto.
  - intros m m' Hm Hm'. apply map_eq. intros k. rewrite !lookup_map_join. specialize (Hm k). specialize (Hm' k). destruct (m !! k) as [x|], (m' !! k) as [y|]; try done.
    f_equal. by apply (join_comm (Join := HJ k)); auto.
  - intros m1 m2 m3 H1 H2 H3. apply map_eq. intros k. rewrite !lookup_map_join. specialize (H1 k). specialize (H2 k). specialize (H3 k).
    destruct (m1 !! k) as [x|], (m2 !! k) as [y|], (m3 !! k) as [z|]; try done. f_equal. by apply (join_assoc (Join := HJ k)); auto.
  - intros m Hm. apply map_eq. intros k. rewrite lookup_map_join. specialize (Hm k). destruct (m !! k) as [x|]; [|done]. f_equal. apply (join_idem (Join := HJ k)). auto.
Qed.
End maps.

(** A join makes replicas converge. *)
Lemma join_convergent {A} (V : A -> Prop) (join : A -> A -> A) : Join V join -> Convergent (=) V V join.
Proof.
  intros HJ. split; [apply _|by intros s s' d ->|by apply join_valid| |].
  - intros s d1 d2 Hs H1 H2. rewrite <- !join_assoc by done. f_equal. by apply join_comm.
  - intros s d Hs Hd. rewrite <- join_assoc by done. f_equal. by apply join_idem.
Qed.

(** ** Contents decide *)

Definition nul_free (s : string) : Prop := Forall (fun b => b <> 0) (string_bytes s).

Lemma string_bytes_append a b : string_bytes (String.append a b) = string_bytes a ++ string_bytes b.
Proof. induction a as [|c a IH]; [done|]. simpl. by rewrite IH. Qed.

Lemma nul_split a b x y : nul_free a -> nul_free b -> String.append a (String.append nul x) = String.append b (String.append nul y) -> a = b /\ x = y.
Proof.
  intros Ha Hb E. apply (f_equal string_bytes) in E. rewrite !string_bytes_append in E. apply split_at_nul in E as [E1 E2]; [|done|done].
  split; by apply string_bytes_inj.
Qed.

(** A version and a text, compared in this order. *)
Definition beats (v v' : Z) (k k' : string) : bool := if decide (v <> v') then bool_decide (v > v') else bool_decide (slt k' k).

Lemma beats_irrefl v k : beats v v k k = false.
Proof. unfold beats. rewrite decide_False by lia. apply bool_decide_eq_false. apply irreflexivity, _. Qed.

Lemma stamp_trans v1 v2 v3 k1 k2 k3 : beats v1 v2 k1 k2 = true -> beats v2 v3 k2 k3 = true -> beats v1 v3 k1 k3 = true.
Proof. unfold beats. repeat case_decide; rewrite ?bool_decide_eq_true; try lia; subst; try done; try lia. intros ? ?. by etrans. Qed.

Lemma beats_total v v' k k' : beats v v' k k' = false -> beats v' v k' k = false -> v = v' /\ k = k'.
Proof.
  unfold beats. repeat case_decide; rewrite ?bool_decide_eq_false; try lia. intros H1 H2. split; [lia|]. destruct (slt_trichotomy k k') as [?|[?|?]]; tauto.
Qed.

Definition pane_ok (pid : string) (p : CRDTPane) : Prop := p_ID p = pid /\ nul_free (Command p) /\ nul_free (WorkingDir p).

Definition pane_join : CRDTPane -> CRDTPane -> CRDTPane := greater paneWins.

#[global] Instance pane_join_join pid : Join (pane_ok pid) pane_join.
Proof.
  apply greater_join.
  - intros p. apply beats_irrefl.
  - intros p q r. apply stamp_trans.
  - intros [i c d s v] [i' c' d' s' v'] (Hi & Hc & Hd) (Hi' & Hc' & Hd') H1 H2. destruct (beats_total _ _ _ _ H1 H2) as [Ev Ek]. unfold paneContentKey in Ek. cbn in *. subst.
    destruct (nul_split c c' _ _ Hc Hc' Ek) as [-> Ek']. destruct (nul_split d d' _ _ Hd Hd' Ek') as [-> Es]. by apply (inj pretty) in Es as ->.
Qed.

Lemma mergePanes_spec dst src : mergePanes dst src = map_join pane_join dst src.
Proof.
  apply map_eq. intros k. rewrite lookup_map_join. unfold mergePanes.
  rewrite (range_fold_slot merge_pane (fun o op => match o with None => Some op | Some cp => Some (pane_join cp op) end)).
  - by destruct (dst !! k), (src !! k).
  - intros out i [pi pc pd ps pv] j. unfold merge_pane, pane_join, greater, clonePane. cbn. destruct (out !! i) as [cp|] eqn:E; [|rewrite lookup_insert; by case_decide].
    destruct (paneWins _ cp); [rewrite lookup_insert; by case_decide|]. case_decide; [by subst|done].
Qed.

(** The fields of a window that share a version. *)
Definition head (w : CRDTWindow) : Z * string * string := (w_Version w, w_Name w, Layout w).
Definition head_ok (h : Z * string * string) : Prop := 0 <= h.1.1 /\ nul_free h.1.2 /\ nul_free h.2.
Definition head_wins (a b : Z * string * string) : bool := beats a.1.1 b.1.1 (String.append a.1.2 (String.append nul a.2)) (String.append b.1.2 (String.append nul b.2)).
Definition head_join : Z * string * string -> Z * string * string -> Z * string * string := greater head_wins.

#[global] Instance head_join_join : Join head_ok head_join.
Proof.
  apply greater_join.
  - intros p. apply beats_irrefl.
  - intros p q r. apply stamp_trans.
  - intros [[v n] l] [[v' n'] l'] (_ & Hn & Hl) (_ & Hn' & Hl') H1 H2. destruct (beats_total _ _ _ _ H1 H2) as [Ev Ek]. cbn in *. subst.
    by destruct (nul_split n n' _ _ Hn Hn' Ek) as [-> ->].
Qed.

(** The bottom: what a window is of which only panes are known. *)
Definition no_head : Z * string * string := (0, EmptyString, EmptyString).

Lemma no_head_least h : head_ok h -> head_wins no_head h = false.
Proof.
  destruct h as [[v n] l]. intros (Hv & Hn & Hl). unfold head_wins, beats. cbn in *. case_decide; [apply bool_decide_eq_false; lia|]. apply bool_decide_eq_false. intros [H1 H2].
  unfold String.le, String.leb in H1. destruct n as [|c n]; [by destruct l|]. apply Forall_cons in Hn as [Hc _].
  assert (Ascii.compare c Ascii.zero = Gt) as E by (apply N.compare_gt_iff; cbn; lia).
  assert (forall x, String.compare (String c x) nul = match Ascii.compare c Ascii.zero with Eq => String.compare x EmptyString | o => o end) as Hx by done.
  change (String.append EmptyString (String.append nul EmptyString)) with nul in H1. change (String.append (String c n) ?x) with (String c (String.append n x)) in H1.
  by rewrite Hx, E in H1.
Qed.

Definition win_ok (wid : string) (w : CRDTWindow) : Prop := w_ID w = wid /\ head_ok (head w) /\ map_Forall pane_ok (Panes w).

Definition win_join (cw ow : CRDTWindow) : CRDTWindow :=
  let '(v, n, l) := head_join (head cw) (head ow) in mkWindow (w_ID cw) n l (map_join pane_join (Panes cw) (Panes ow)) v.

Lemma win_eq a b : w_ID a = w_ID b -> head a = head b -> Panes a = Panes b -> a = b.
Proof. destruct a, b. unfold head. simpl. congruence. Qed.

Lemma head_win_join a b : head (win_join a b) = head_join (head a) (head b).
Proof. unfold win_join. by destruct (head_join (head a) (head b)) as [[v n] l]. Qed.
Lemma Panes_win_join a b : Panes (win_join a b) = map_join pane_join (Panes a) (Panes b).
Proof. unfold win_join. by destruct (head_join (head a) (head b)) as [[v n] l]. Qed.
Lemma ID_win_join a b : w_ID (win_join a b) = w_ID a.
Proof. unfold win_join. by destruct (head_join (head a) (head b)) as [[v n] l]. Qed.

#[global] Instance panes_join : Join (map_Forall pane_ok) (map_join pane_join).
Proof. apply map_join_join. apply _. Qed.

#[global] Instance win_join_join wid : Join (win_ok wid) win_join.
Proof.
  split; unfold win_ok.
  - intros a b (Ha & Ha' & Ha'') (Hb & Hb' & Hb''). rewrite ID_win_join, head_win_join, Panes_win_join. split_and!; [done|by apply join_valid|].
    by apply (join_valid (Join := panes_join)).
  - intros a b (Ha & Ha' & Ha'') (Hb & Hb' & Hb''). apply win_eq; rewrite ?ID_win_join, ?head_win_join, ?Panes_win_join; [congruence|by apply join_comm|].
    by apply (join_comm (Join := panes_join)).
  - intros a b c (Ha & Ha' & Ha'') (Hb & Hb' & Hb'') (Hc & Hc' & Hc''). apply win_eq; rewrite ?ID_win_join, ?head_win_join, ?Panes_win_join; [congruence|by apply join_assoc|].
    by apply (join_assoc (Join := panes_join)).
  - intros a (Ha & Ha' & Ha''). apply win_eq; rewrite ?ID_win_join, ?head_win_join, ?Panes_win_join; [congruence|by apply join_idem|].
    by apply (join_idem (Join := panes_join)).
Qed.

Definition join_windows : gmap string CRDTWindow -> gmap string CRDTWindow -> gmap string CRDTWindow := map_join win_join.

#[global] Instance windows_join : Join (map_Forall win_ok) join_windows.
Proof. apply map_join_join. apply _. Qed.

#[global] Instance windows_convergent : Convergent (=) (map_Forall win_ok) (map_Forall win_ok) join_windows.
Proof. apply join_convergent. apply _. Qed.

(** ** The operations are joins *)

Lemma copy_id {A} (f : A -> A) (m : gmap string A) : (forall a, f a = a) -> range_fold (fun out k a => <[k := f a]> out) ∅ m = m.
Proof. intros Hf. rewrite range_fold_copy. etrans; [|apply map_fmap_id]. by apply map_fmap_ext. Qed.

Lemma clonePane_id p : clonePane p = p.
Proof. by destruct p. Qed.
Lemma cloneWindow_id w : cloneWindow w = w.
Proof. destruct w as [i n l p v]. unfold cloneWindow. cbn. by rewrite (copy_id clonePane) by apply clonePane_id. Qed.
Lemma Clone_id c : Clone c = c.
Proof. destruct c as [w v]. unfold Clone. cbn. by rewrite (copy_id cloneWindow) by apply cloneWindow_id. Qed.

Lemma merge_window_join cw ow :
  (let '(name, layout) := if windowScalarWins ow cw then (w_Name ow, Layout ow) else (w_Name cw, Layout cw) in
   mkWindow (w_ID cw) name layout (mergePanes (Panes cw) (Panes ow)) (if decide (w_Version ow > w_Version cw) then w_Version ow else w_Version cw)) = win_join cw ow.
Proof.
  rewrite mergePanes_spec. unfold win_join, head_join, greater. change (head_wins (head ow) (head cw)) with (windowScalarWins ow cw).
  unfold windowScalarWins. destruct (decide (w_Version ow <> w_Version cw)) as [Hne|He].
  - case_bool_decide; simpl; case_decide; (done || lia).
  - case_bool_decide; simpl; (rewrite decide_False by lia); f_equal; lia.
Qed.

Lemma windows_Merge c other : windows (Merge c (Some other)) = join_windows (windows c) (windows other).
Proof.
  cbn [Merge windows]. apply map_eq. intros k. unfold join_windows. rewrite lookup_map_join.
  rewrite (range_fold_slot merge_window (fun o ow => match o with None => Some ow | Some cw => Some (win_join cw ow) end)).
  - by destruct (windows c !! k), (windows other !! k).
  - intros out i ow j. unfold merge_window. destruct (out !! i) as [cw|].
    + rewrite <- merge_window_join. destruct (if windowScalarWins ow cw then _ else _) as [name layout]. by rewrite lookup_insert.
    + by rewrite cloneWindow_id, lookup_insert.
Qed.

(** The version an update is given. *)
Definition stamp (c : CRDTSessionState) (v : Z) : Z := if decide (v = 0) then u64 (version c + 1) else v.

Inductive op := OpWindow (w : CRDTWindow) | OpPane (windowID : string) (p : CRDTPane).

Definition apply_op (c : CRDTSessionState) (o : op) : CRDTSessionState :=
  match o with OpWindow w => UpdateWindow c (Some w) | OpPane wid p => UpdatePane c wid (Some p) end.

(** What an update says: a window under its version, or a pane under its; the
    first pane of a window also says that the window is there, without a name. *)
Definition delta (c : CRDTSessionState) (o : op) : gmap string CRDTWindow :=
  match o with
  | OpWindow w => {[ w_ID w := mkWindow (w_ID w) (w_Name w) (Layout w) (Panes w) (stamp c (w_Version w)) ]}
  | OpPane wid p =>
      {[ wid := mkWindow wid EmptyString EmptyString {[ p_ID p := mkPane (p_ID p) (Command p) (WorkingDir p) (p_Status p) (stamp c (p_Version p)) ]}
                  (if windows c !! wid then 0 else stamp c 0) ]}
  end.

(** A version that is assigned has to be ahead of the one it replaces. *)
Definition fresh (c : CRDTSessionState) (o : op) : Prop :=
  match o with
  | OpWindow w => w_Version w = 0 -> forall ex, windows c !! w_ID w = Some ex -> w_Version ex < stamp c 0
  | OpPane wid p => p_Version p = 0 -> forall w ex, windows c !! wid = Some w -> Panes w !! p_ID p = Some ex -> p_Version ex < stamp c 0
  end.

Definition op_ok (o : op) : Prop :=
  match o with
  | OpWindow w => nul_free (w_Name w) /\ nul_free (Layout w) /\ 0 <= w_Version w /\ map_Forall pane_ok (Panes w)
  | OpPane wid p => nul_free (Command p) /\ nul_free (WorkingDir p)
  end.

Lemma stamp_nonneg c v : 0 <= v -> 0 <= stamp c v.
Proof. unfold stamp. case_decide; [|done]. intros _. pose proof (u64_range (version c + 1)). unfold is_u64 in *. lia. Qed.

Lemma delta_ok c o : op_ok o -> map_Forall win_ok (delta c o).
Proof.
  destruct o as [w|wid p]; cbn [op_ok delta].
  - intros (Hn & Hl & Hv & Hp). apply map_Forall_singleton. split_and!; [done| |done]. split_and!; [by apply stamp_nonneg|done|done].
  - intros (Hc & Hd). apply map_Forall_singleton. split_and!; [done| |apply map_Forall_singleton; done].
    assert (nul_free EmptyString) as He by constructor. split_and!; [|done|done]. cbn. destruct (windows c !! wid); [done|by apply stamp_nonneg].
Qed.

Lemma insert_join (ws : gmap string CRDTWindow) wid w d :
  match ws !! wid with None => w = d | Some ex => w = win_join ex d end -> <[wid := w]> ws = join_windows ws {[ wid := d ]}.
Proof.
  intros H. apply map_eq. intros k. unfold join_windows. rewrite lookup_map_join. destruct (decide (k = wid)) as [->|Hk].
  - rewrite lookup_insert_eq, lookup_singleton_eq. destruct (ws !! wid); by subst.
  - rewrite lookup_insert_ne, lookup_singleton_ne by done. by destruct (ws !! k).
Qed.

(** A window that exists, with the scalars of an update that wins. *)
Lemma window_update_join ex w v :
  head_wins (v, w_Name w, Layout w) (head ex) = true ->
  mkWindow (w_ID ex) (w_Name w) (Layout w) (mergePanes (Panes ex) (Panes w)) v = win_join ex (mkWindow (w_ID w) (w_Name w) (Layout w) (Panes w) v).
Proof. intros H. rewrite mergePanes_spec. unfold win_join, head_join, greater. change (head (mkWindow _ _ _ _ _)) with (v, w_Name w, Layout w). by rewrite H. Qed.

Lemma window_update_keep ex w v :
  head_wins (v, w_Name w, Layout w) (head ex) = false ->
  mkWindow (w_ID ex) (w_Name ex) (Layout ex) (mergePanes (Panes ex) (Panes w)) (w_Version ex) = win_join ex (mkWindow (w_ID w) (w_Name w) (Layout w) (Panes w) v).
Proof. intros H. rewrite mergePanes_spec. unfold win_join, head_join, greater. change (head (mkWindow _ _ _ _ _)) with (v, w_Name w, Layout w). by rewrite H. Qed.

Lemma pane_insert_join panes pid np :
  (if match panes !! pid with None => true | Some ex => paneWins np ex end then <[pid := np]> panes else panes) = map_join pane_join panes {[ pid := np ]}.
Proof.
  apply map_eq. intros k. rewrite lookup_map_join. destruct (decide (k = pid)) as [->|Hk].
  - rewrite lookup_singleton_eq. unfold pane_join, greater. destruct (panes !! pid) as [ex|] eqn:E; [|by rewrite lookup_insert_eq]. destruct (paneWins np ex); [by rewrite lookup_insert_eq|done].
  - rewrite lookup_singleton_ne by done. destruct (match panes !! pid with None => true | _ => _ end); [rewrite lookup_insert_ne by done|]; by destruct (panes !! k).
Qed.

Lemma UpdateWindow_join c w : fresh c (OpWindow w) -> windows (UpdateWindow c (Some w)) = join_windows (windows c) (delta c (OpWindow w)).
Proof.
  intros Hf. cbn [UpdateWindow delta fresh] in *. destruct (windows c !! w_ID w) as [ex|] eqn:E; cbn [windows]; apply insert_join; rewrite E.
  - unfold stamp in *. destruct (decide (w_Version w = 0)) as [H0|H0].
    + specialize (Hf H0 ex eq_refl). rewrite decide_True in Hf by done. cbn [w_ID w_Name Layout Panes w_Version]. rewrite decide_True by lia. apply window_update_join.
      unfold head_wins, beats. cbn. rewrite decide_True by lia. apply bool_decide_eq_true. lia.
    + assert (head_wins (w_Version w, w_Name w, Layout w) (head ex) = windowScalarWins w ex) as Hw by done. destruct (windowScalarWins w ex) eqn:Ew.
      * rewrite decide_True. 2:{ unfold windowScalarWins in Ew. case_decide; [apply bool_decide_eq_true in Ew; lia|]. right. split; [lia|done]. }
        cbn [w_ID w_Name Layout Panes w_Version]. assert ((if decide (w_Version w > w_Version ex) then w_Version w else w_Version ex) = w_Version w) as ->; [|by apply window_update_join].
        destruct (decide (w_Version w > w_Version ex)); [done|]. unfold windowScalarWins in Ew. destruct (decide (w_Version w <> w_Version ex)); [apply bool_decide_eq_true in Ew|]; lia.
      * rewrite decide_False; [by apply window_update_keep|]. unfold windowScalarWins in Ew. case_decide; [apply bool_decide_eq_false in Ew; lia|]. intros [?|[_ ?]]; [lia|done].
  - rewrite cloneWindow_id. unfold stamp. case_decide; [done|by destruct w].
Qed.

Lemma UpdatePane_join c wid p :
  fresh c (OpPane wid p) -> map_Forall win_ok (windows c) -> windows (UpdatePane c wid (Some p)) = join_windows (windows c) (delta c (OpPane wid p)).
Proof.
  intros Hf Hok. cbn [UpdatePane delta fresh windows] in *. apply insert_join. destruct (windows c !! wid) as [w|] eqn:E.
  - destruct (Hok wid w E) as (Hid & Hh & _). cbn.
    assert (forall ps, mkWindow (w_ID w) (w_Name w) (Layout w) (map_join pane_join (Panes w) ps) (w_Version w) = win_join w (mkWindow wid EmptyString EmptyString ps 0)) as Hj.
    { intros ps. unfold win_join, head_join, greater. change (head (mkWindow wid EmptyString EmptyString ps 0)) with no_head. by rewrite no_head_least. }
    rewrite <- Hj. clear Hj. set (np := mkPane (p_ID p) (Command p) (WorkingDir p) (p_Status p) (stamp c (p_Version p))).
    assert (match Panes w !! p_ID p with None => true | Some ex => bool_decide (p_Version p = 0 \/ p_Version p > p_Version ex \/ p_Version p = p_Version ex /\ paneWins p ex = true) end =
      match Panes w !! p_ID p with None => true | Some ex => paneWins np ex end) as ->.
    { destruct (Panes w !! p_ID p) as [ex|] eqn:Ep; [|done]. specialize (fun H => Hf H w ex eq_refl Ep). unfold np, paneWins, stamp in *. cbn in *.
      destruct (decide (p_Version p = 0)) as [H0|H0]; [specialize (Hf H0); rewrite decide_True in Hf by done; rewrite (decide_True (P := u64 (version c + 1) <> p_Version ex)) by lia; apply bool_decide_ext; split; [lia|by left]|].
      destruct (decide (p_Version p <> p_Version ex)); [apply bool_decide_ext; split; [intros [?|[?|[? _]]]; lia|by right; left]|].
      apply bool_decide_ext. rewrite bool_decide_eq_true. split; [intros [?|[?|[_ ?]]]; (lia || done)|]. intros H. right; right. split; [lia|done]. }
    rewrite <- (pane_insert_join (Panes w) (p_ID p) np). unfold np, stamp. by destruct (match Panes w !! p_ID p with None => true | _ => _ end); [|destruct w].
  - cbn. rewrite lookup_empty. unfold stamp at 1. cbn. done.
Qed.

(** ** Replicas *)

(** Replicas that are updated and merged, and snapshots of them in flight;
    beside each state, the updates that went into it. *)
Record net := mkNet { replicas : gmap nat (CRDTSessionState * list (gmap string CRDTWindow)); flight : list (CRDTSessionState * list (gmap string CRDTWindow)) }.

Definition replica (n : net) (i : nat) : CRDTSessionState := (default (NewCRDTSessionState, []) (replicas n !! i)).1.
Definition seen (n : net) (i : nat) : list (gmap string CRDTWindow) := (default (NewCRDTSessionState, []) (replicas n !! i)).2.
Definition net_init : net := mkNet ∅ [].

(** A snapshot may arrive at any replica, any number of times, or never. *)
Inductive net_step : net -> net -> Prop :=
  | step_update n i o : op_ok o -> fresh (replica n i) o ->
      net_step n (mkNet (<[i := (apply_op (replica n i) o, seen n i ++ [delta (replica n i) o])]> (replicas n)) (flight n))
  | step_send n i : net_step n (mkNet (replicas n) ((Clone (replica n i), seen n i) :: flight n))
  | step_receive n i s l : (s, l) ∈ flight n ->
      net_step n (mkNet (<[i := (Merge (replica n i) (Some s), seen n i ++ l)]> (replicas n)) (flight n)).

(** A state is the join of what went into it. *)
Definition entry_ok (e : CRDTSessionState * list (gmap string CRDTWindow)) : Prop :=
  Forall (map_Forall win_ok) e.2 /\ windows e.1 = foldl join_windows ∅ e.2.

Lemma entry_valid e : entry_ok e -> map_Forall win_ok (windows e.1).
Proof. intros [Hl ->]. apply (converge_valid (R := (=)) (VD := map_Forall win_ok)); [apply map_Forall_empty|done]. Qed.

(** Joining a join is joining its parts. *)
Lemma join_fold l1 l2 :
  Forall (map_Forall win_ok) l1 -> Forall (map_Forall win_ok) l2 ->
  join_windows (foldl join_windows ∅ l1) (foldl join_windows ∅ l2) = foldl join_windows ∅ (l1 ++ l2).
Proof.
  intros H1 H2. rewrite foldl_app. assert (map_Forall win_ok (foldl join_windows ∅ l1)) as Hs by (by apply (entry_valid (mkState _ 0, l1))).
  revert Hs. generalize (foldl join_windows ∅ l1) as s. clear H1 l1. induction l2 as [|d l2 IH] using rev_ind; intros s Hs.
  - cbn. unfold join_windows, map_join. apply (right_id_L ∅ (union_with _)).
  - apply Forall_app in H2 as [H2 Hd]. rewrite Forall_singleton in Hd. rewrite !foldl_app. cbn. rewrite <- (IH H2 s Hs).
    apply (join_assoc (Join := windows_join)); [done| |done]. by apply (entry_valid (mkState _ 0, l2)).
Qed.

Definition net_ok (n : net) : Prop := map_Forall (fun _ => entry_ok) (replicas n) /\ Forall entry_ok (flight n).

Lemma replica_ok n i : net_ok n -> entry_ok (replica n i, seen n i).
Proof.
  intros [H _]. unfold replica, seen. destruct (replicas n !! i) as [[s l]|] eqn:E; cbn; [by apply (H i)|]. split; [constructor|done].
Qed.

Lemma net_step_ok n n' : net_ok n -> net_step n n' -> net_ok n'.
Proof.
  intros Hn Hs. pose proof Hn as [Hr Hf]. destruct Hs as [n i o Hop Hfr|n i|n i s l Hin]; pose proof (replica_ok n i Hn) as Hi.
  - split; [|done]. apply map_Forall_insert_2; [|done]. pose proof (entry_valid _ Hi) as Hv. destruct Hi as [Hl Hw]. cbn in *. split; cbn.
    + apply Forall_app. split; [done|]. apply Forall_singleton. by apply delta_ok.
    + rewrite foldl_app, <- Hw. destruct o; [by apply UpdateWindow_join|by apply UpdatePane_join].
  - split; [done|]. constructor; [|done]. by rewrite Clone_id.
  - split; [|done]. apply map_Forall_insert_2; [|done]. rewrite Forall_forall in Hf. destruct (Hf _ Hin) as [Hl Hw]. destruct Hi as [Hl' Hw']. cbn [fst snd] in *. split; [by apply Forall_app|].
    cbn [fst snd]. rewrite windows_Merge, Hw, Hw'. by apply join_fold.
Qed.

Lemma net_reachable_ok n : rtc net_step net_init n -> net_ok n.
Proof.
  assert (forall m m', rtc net_step m m' -> net_ok m -> net_ok m') as H by (intros m m' Hr; induction Hr; eauto using net_step_ok).
  intros Hr. eapply H; [exact Hr|]. split; [apply map_Forall_empty|constructor].
Qed.

(** ** The last writer *)

Definition pane_at (ws : gmap string CRDTWindow) (wid pid : string) : option CRDTPane := w ← ws !! wid; Panes w !! pid.

Definition ojoin {A} (join : A -> A -> A) (a b : option A) : option A := match a, b with Some x, Some y => Some (join x y) | Some x, None => Some x | None, o => o end.

Lemma foldl_lookup {A B} (get : A -> option B) (join : A -> A -> A) (join' : B -> B -> B) :
  (forall a b, get (join a b) = ojoin join' (get a) (get b)) -> forall l a, get (foldl join a l) = foldl (ojoin join') (get a) (get <$> l).
Proof. intros H l. induction l as [|d l IH]; intros a; [done|]. cbn. by rewrite IH, H. Qed.

Lemma greatest_seen {A} (wins : A -> A -> bool) (l : list (option A)) :
  (forall a, wins a a = false) -> (forall a b c, wins a b = true -> wins b c = true -> wins a c = true) ->
  match foldl (ojoin (greater wins)) None l with
  | None => Forall (fun o => o = None) l
  | Some x => Some x ∈ l /\ forall y, Some y ∈ l -> wins y x = false
  end.
Proof.
  intros Hirr Htr. induction l as [|o l IH] using rev_ind; [constructor|]. rewrite foldl_app. cbn. destruct (foldl _ None l) as [x|], o as [y|]; cbn.
  - destruct IH as [Hx Hl]. unfold greater. destruct (wins y x) eqn:E.
    + split; [apply elem_of_app; right; left|]. intros z Hz. apply elem_of_app in Hz as [Hz|Hz]; [|apply list_elem_of_singleton in Hz as [= ->]; apply Hirr].
      apply not_true_is_false. intros Hzy. specialize (Hl z Hz). by rewrite (Htr _ _ _ Hzy E) in Hl.
    + split; [apply elem_of_app; by left|]. intros z Hz. apply elem_of_app in Hz as [Hz|Hz]; [by apply Hl|]. by apply list_elem_of_singleton in Hz as [= ->].
  - destruct IH as [Hx Hl]. split; [apply elem_of_app; by left|]. intros z Hz. apply elem_of_app in Hz as [Hz|Hz]; [by apply Hl|]. by apply list_elem_of_singleton in Hz.
  - split; [apply elem_of_app; right; left|]. intros z Hz. apply elem_of_app in Hz as [Hz|Hz]; [rewrite Forall_forall in IH; by apply IH in Hz|].
    apply list_elem_of_singleton in Hz as [= ->]. apply Hirr.
  - apply Forall_app. split; [done|]. by apply Forall_singleton.
Qed.

Lemma pane_at_join a b wid pid : pane_at (join_windows a b) wid pid = ojoin pane_join (pane_at a wid pid) (pane_at b wid pid).
Proof.
  unfold pane_at, join_windows. rewrite lookup_map_join. destruct (a !! wid) as [w|], (b !! wid) as [w'|]; cbn; [|by destruct (Panes w !! pid)|done|done].
  by rewrite Panes_win_join, lookup_map_join.
Qed.

Definition head_at (ws : gmap string CRDTWindow) (wid : string) : option (Z * string * string) := head <$> ws !! wid.

Lemma head_at_join a b wid : head_at (join_windows a b) wid = ojoin head_join (head_at a wid) (head_at b wid).
Proof. unfold head_at, join_windows. rewrite lookup_map_join. destruct (a !! wid) as [w|], (b !! wid) as [w'|]; cbn; by rewrite ?head_win_join. Qed.

Lemma GetPane_at c wid pid : GetPane c wid pid = pane_at (windows c) wid pid.
Proof. unfold GetPane, pane_at. destruct (windows c !! wid) as [w|]; cbn; [|done]. by destruct (Panes w !! pid) as [[]|]. Qed.

Lemma GetWindow_at c wid : GetWindow c wid = windows c !! wid.
Proof. unfold GetWindow. destruct (windows c !! wid) as [[i n l p v]|]; cbn; [|done]. by rewrite (copy_id clonePane) by apply clonePane_id. Qed.

(** C15: Replicated session state converges.  In every execution of updates
    (whose texts have no NUL byte, whose panes are filed under their ids, and
    where a version that is to be assigned is ahead of the one it replaces),
    snapshots and merges, in any order, with snapshots lost or merged many
    times: replicas that have seen the same updates have the same windows and
    the same fingerprint.  [GetPane] returns the pane of an update the replica
    has seen that none of the others it has seen wins over, and nothing only
    if there was none; and the version, name and layout of [GetWindow] are in
    the same way those of the winning update of the window. *)
Theorem session_state_converges (n : net) :
  rtc net_step net_init n ->
  (forall i j, (forall d, d ∈ seen n i <-> d ∈ seen n j) ->
     windows (replica n i) = windows (replica n j) /\ Fingerprint (replica n i) = Fingerprint (replica n j)) /\
  (forall i wid pid,
     match GetPane (replica n i) wid pid with
     | None => forall d, d ∈ seen n i -> pane_at d wid pid = None
     | Some p => (exists d, d ∈ seen n i /\ pane_at d wid pid = Some p) /\ forall d q, d ∈ seen n i -> pane_at d wid pid = Some q -> paneWins q p = false
     end) /\
  (forall i wid,
     match GetWindow (replica n i) wid with
     | None => forall d, d ∈ seen n i -> d !! wid = None
     | Some w => (exists d w', d ∈ seen n i /\ d !! wid = Some w' /\ (w_Version w, w_Name w, Layout w) = (w_Version w', w_Name w', Layout w')) /\
                 forall d w', d ∈ seen n i -> d !! wid = Some w' -> windowScalarWins w' w = false
     end).
Proof.
  intros Hr. apply net_reachable_ok in Hr. split_and!.
  - intros i j Hset. destruct (replica_ok n i Hr) as [Hi Ei], (replica_ok n j Hr) as [Hj Ej]. cbn in *.
    assert (windows (replica n i) = windows (replica n j)) as E; [|split; [done|]; unfold Fingerprint; by rewrite E].
    rewrite Ei, Ej. by apply (converge_same_updates (R := (=)) (VD := map_Forall win_ok)); [apply map_Forall_empty|..].
  - intros i wid pid. destruct (replica_ok n i Hr) as [Hi Ei]. cbn in *. rewrite GetPane_at, Ei.
    rewrite (foldl_lookup (fun ws => pane_at ws wid pid) join_windows pane_join) by (intros; apply pane_at_join).
    pose proof (greatest_seen paneWins ((fun ws => pane_at ws wid pid) <$> seen n i) (fun p => beats_irrefl _ _) (fun p q r => stamp_trans _ _ _ _ _ _)) as H.
    unfold pane_join. cbn [pane_at mbind option_bind]. change (pane_at ∅ wid pid) with (@None CRDTPane). destruct (foldl _ None _) as [p|].
    + destruct H as [H1 H2]. apply list_elem_of_fmap in H1 as (d & E & Hd). split; [by exists d|]. intros d' q Hd' Hq. apply H2. apply list_elem_of_fmap. by exists d'.
    + intros d Hd. rewrite Forall_fmap, Forall_forall in H. by apply H.
  - intros i wid. destruct (replica_ok n i Hr) as [Hi Ei]. cbn in *. rewrite GetWindow_at.
    pose proof (greatest_seen head_wins ((fun ws => head_at ws wid) <$> seen n i) (fun p => beats_irrefl _ _) (fun p q r => stamp_trans _ _ _ _ _ _)) as H.
    assert (head <$> windows (replica n i) !! wid = foldl (ojoin (greater head_wins)) None ((fun ws => head_at ws wid) <$> seen n i)) as E.
    { rewrite Ei. change (head <$> ?m !! wid) with (head_at m wid). rewrite (foldl_lookup (fun ws => head_at ws wid) join_windows head_join) by (intros; apply head_at_join). done. }
    rewrite <- E in H. destruct (windows (replica n i) !! wid) as [w|]; cbn in H.
    + destruct H as [H1 H2]. apply list_elem_of_fmap in H1 as (d & Ed & Hd). unfold head_at in Ed. destruct (d !! wid) as [w'|] eqn:Ew; [|done]. split; [exists d, w'; split_and!; [done|done|]; cbn in Ed; unfold head in Ed; congruence|].
      intros d' w'' Hd' Hw. change (windowScalarWins w'' w) with (head_wins (head w'') (head w)). apply H2. apply list_elem_of_fmap. exists d'. unfold head_at. by rewrite Hw.
    + intros d Hd. rewrite Forall_fmap, Forall_forall in H. specialize (H d Hd). cbn in H. unfold head_at in H. by destruct (d !! wid).
Qed.

Module SessionCrdtDemo.

Definition editor : CRDTPane := mkPane "p" "vi" "/" 0 0.
Definition shell : CRDTPane := mkPane "p" "sh" "/" 0 0.
Definition main : CRDTWindow := mkWindow "w" "main" "tiled" ∅ 0.

(** Two replicas, one update each, and a snapshot each way. *)
Lemma session_state_converges_witness :
  exists n, rtc net_step net_init n /\ windows (replica n 0) = windows (replica n 1) /\ GetPane (replica n 0) "w" "p" = Some (mkPane "p" "sh" "/" 0 1).
Proof.
  set (n1 := mkNet (<[0%nat := (apply_op (replica net_init 0) (OpWindow main), seen net_init 0 ++ [delta (replica net_init 0) (OpWindow main)])]> (replicas net_init)) (flight net_init)).
  set (n2 := mkNet (<[1%nat := (apply_op (replica n1 1) (OpPane "w" shell), seen n1 1 ++ [delta (replica n1 1) (OpPane "w" shell)])]> (replicas n1)) (flight n1)).
  set (n3 := mkNet (replicas n2) ((Clone (replica n2 0), seen n2 0) :: flight n2)).
  set (n4 := mkNet (replicas n3) ((Clone (replica n3 1), seen n3 1) :: flight n3)).
  set (n5 := mkNet (<[0%nat := (Merge (replica n4 0) (Some (Clone (replica n3 1))), seen n4 0 ++ seen n3 1)]> (replicas n4)) (flight n4)).
  set (n6 := mkNet (<[1%nat := (Merge (replica n5 1) (Some (Clone (replica n2 0))), seen n5 1 ++ seen n2 0)]> (replicas n5)) (flight n5)).
  assert (rtc net_step net_init n6) as Hr.
  { apply rtc_l with n1; [apply step_update; [by_eval|done]|]. apply rtc_l with n2; [apply step_update; [by_eval|done]|].
    apply rtc_l with n3; [apply step_send|]. apply rtc_l with n4; [apply step_send|]. apply rtc_l with n5; [apply step_receive; left|].
    apply rtc_once, step_receive. right. left. }
  exists n6. destruct (session_state_converges n6 Hr) as (H1 & _). split_and!; [done| |by vm_compute].
  apply H1. intros d. change (seen n6 0) with (seen n4 0 ++ seen n3 1). change (seen n6 1) with (seen n5 1 ++ seen n2 0).
  change (seen n4 0) with (seen n2 0). change (seen n5 1) with (seen n3 1). rewrite !elem_of_app. tauto.
Defined.

(** A version that is assigned behind the existing one loses the update: the
    counter of the state does not follow the versions that callers choose. *)
Lemma fresh_write_lost :
  let c1 := UpdatePane NewCRDTSessionState "w" (Some (mkPane "p" "vi" "/" 0 10)) in
  let c2 := UpdatePane c1 "w" (Some shell) in
  GetPane c2 "w" "p" = Some (mkPane "p" "sh" "/" 0 2) /\ GetPane (Merge c2 (Some (Clone c1))) "w" "p" = Some (mkPane "p" "vi" "/" 0 10).
Proof. by vm_compute. Qed.

(** The first pane of a window that is named elsewhere erases its name. *)
Lemma pane_erases_name :
  let a := UpdateWindow NewCRDTSessionState (Some main) in
  let b := UpdatePane (UpdatePane NewCRDTSessionState "v" (Some shell)) "w" (Some editor) in
  w_Name <$> GetWindow (Merge a (Some b)) "w" = Some EmptyString.
Proof. by vm_compute. Qed.

(** With NUL bytes in names, merging depends on who merges. *)
Lemma nul_names_diverge :
  let z := String.append "a" (String.append nul "b") in
  let a := UpdateWindow NewCRDTSessionState (Some (mkWindow "w" z "c" ∅ 1)) in
  let b := UpdateWindow NewCRDTSessionState (Some (mkWindow "w" "a" (String.append "b" (String.append nul "c")) ∅ 1)) in
  GetWindow (Merge a (Some b)) "w" <> GetWindow (Merge b (Some a)) "w".
Proof. by vm_compute. Qed.

(** Different states may have the same fingerprint. *)
Lemma fingerprint_not_injective :
  let a := UpdateWindow NewCRDTSessionState (Some (mkWindow "w" "x,layout=y" "z" ∅ 1)) in
  let b := UpdateWindow NewCRDTSessionState (Some (mkWindow "w" "x" "y,layout=z" ∅ 1)) in
  GetWindow a "w" <> GetWindow b "w" /\ Fingerprint a = Fingerprint b.
Proof. by vm_compute. Qed.

End SessionCrdtDemo.
