(* ===== verification/SessionManager.v ===== *)
(** * Session manager (pkg/session/manager.go, lifecycle.go, types.go)

    The manager keeps sessions under their ids, drives a terminal backend and
    guards the life cycle.  Callers and the manager share memory: a session is
    a structure with maps and slices inside, and the code copies them so that
    nobody outside can change what the manager stores.  So memory is explicit
    here: a heap of maps, slices and sessions, and structures that point to
    them; a slice stands for the whole array behind it.

    The backend is an interface of the package (class [TmuxBackend]), whose
    operations may fail; a manager may have none.  The clock, the random bytes
    of an id and the order in which Go ranges over the sessions are arguments.
    The handlers of a manager are fields that only the package itself can set;
    they are given by the log of their calls, with the pointers they get, and
    do nothing to the sessions.

    The main theorem: a manager among other code that does not write the stored
    sessions behaves like a table of values, and, but for one operation, returns
    memory that is not shared with the table.  The operation is a [Create] that
    the backend refuses: it returns the stored session itself with its error
    ([returns_stored], [failed_create_shares]). *)
From stdpp Require Import pretty.
From S2P Require Import Prelude.
Open Scope Z_scope.

Notation loc := nat (only parsing).

(** ** Data *)

Inductive SessionStatus := StatusPending | StatusCreating | StatusRunning | StatusMigrating | StatusPaused | StatusTerminated | StatusFailed | StatusUnknown (n : Z).

#[global] Instance SessionStatus_eq_dec : EqDecision SessionStatus.
Proof. solve_decision. Defined.

Definition status_String (s : SessionStatus) : string :=
  match s with
  | StatusPending => "pending" | StatusCreating => "creating" | StatusRunning => "running" | StatusMigrating => "migrating"
  | StatusPaused => "paused" | StatusTerminated => "terminated" | StatusFailed => "failed" | StatusUnknown _ => "unknown"
  end.

Definition StatusFromString (s : string) : SessionStatus :=
  if decide (s = "pending") then StatusPending else if decide (s = "creating") then StatusCreating else if decide (s = "running") then StatusRunning
  else if decide (s = "migrating") then StatusMigrating else if decide (s = "paused") then StatusPaused else if decide (s = "terminated") then StatusTerminated
  else if decide (s = "failed") then StatusFailed else StatusPending.

Record Pane := mkPane {
  pn_ID : string; pn_Command : string; pn_WorkingDir : string; pn_Environment : option loc; pn_PTYPath : string;
  pn_CPULimit : Z; pn_MemoryLimit : Z; pn_GPUDevice : string; pn_Status : Z; pn_CRDTState : option loc }.

Record Window := mkWindow { wd_ID : string; wd_Name : string; wd_Layout : string; wd_Active : bool; wd_Panes : option loc; wd_CRDTState : option loc }.

Record Session := mkSession {
  ID : string; Name : string; Owner : string; Status : SessionStatus; Backend : string; NodeID : string; CreatedAt : Z; UpdatedAt : Z;
  CPURequest : Z; MemoryRequest : Z; GPURequest : option loc; Windows : option loc; Environment : option loc; Labels : option loc }.

(** ** Memory *)

Inductive obj := OMap (m : gmap string string) | OStrings (l : list string) | OBytes (l : list Z) | OPanes (l : list Pane) | OWindows (l : list Window) | OSession (s : Session).

Record heap := mkHeap { objs : gmap loc obj; next : loc }.

Definition alloc (h : heap) (o : obj) : heap * option loc := (mkHeap (<[next h := o]> (objs h)) (S (next h)), Some (next h)).

Definition rd (h : heap) (p : option loc) : option obj := l ← p; objs h !! l.
Definition rd_map (h : heap) (p : option loc) : gmap string string := match rd h p with Some (OMap m) => m | _ => ∅ end.
Definition rd_strings (h : heap) (p : option loc) : list string := match rd h p with Some (OStrings l) => l | _ => [] end.
Definition rd_bytes (h : heap) (p : option loc) : list Z := match rd h p with Some (OBytes l) => l | _ => [] end.
Definition rd_panes (h : heap) (p : option loc) : list Pane := match rd h p with Some (OPanes l) => l | _ => [] end.
Definition rd_windows (h : heap) (p : option loc) : list Window := match rd h p with Some (OWindows l) => l | _ => [] end.
Definition rd_session (h : heap) (l : loc) : option Session := match objs h !! l with Some (OSession s) => Some s | _ => None end.
Definition wr_session (h : heap) (l : loc) (s : Session) : heap := mkHeap (<[l := OSession s]> (objs h)) (next h).

(** ** Copies *)

(** A new map with the entries of another. *)
Definition new_map_from (h : heap) (p : option loc) : heap * option loc :=
  alloc h (OMap (range_fold (fun out k v => <[k := v]> out) ∅ (rd_map h p))).

Definition copy_map (h : heap) (p : option loc) : heap * option loc := match p with None => (h, None) | Some _ => new_map_from h p end.
Definition copy_bytes (h : heap) (p : option loc) : heap * option loc := match p with None => (h, None) | Some _ => alloc h (OBytes (rd_bytes h p)) end.
Definition copy_strings (h : heap) (p : option loc) : heap * option loc :=
  if decide (0 < length (rd_strings h p))%nat then alloc h (OStrings (rd_strings h p)) else (h, None).

Definition copyPane (h : heap) (p : Pane) : heap * Pane :=
  let '(h, env) := copy_map h (pn_Environment p) in
  let '(h, crdt) := copy_bytes h (pn_CRDTState p) in
  (h, mkPane (pn_ID p) (pn_Command p) (pn_WorkingDir p) env (pn_PTYPath p) (pn_CPULimit p) (pn_MemoryLimit p) (pn_GPUDevice p) (pn_Status p) crdt).

(** [for i := range s { out[i] = copy(s[i]) }] *)
Fixpoint copy_all {A} (copy : heap -> A -> heap * A) (h : heap) (l : list A) : heap * list A :=
  match l with
  | [] => (h, [])
  | a :: l => let '(h, a) := copy h a in let '(h, l) := copy_all copy h l in (h, a :: l)
  end.

Definition copyWindow (h : heap) (w : Window) : heap * Window :=
  let '(h, crdt) := copy_bytes h (wd_CRDTState w) in
  let '(h, panes) :=
    if decide (0 < length (rd_panes h (wd_Panes w)))%nat then let '(h, ps) := copy_all copyPane h (rd_panes h (wd_Panes w)) in alloc h (OPanes ps) else (h, None) in
  (h, mkWindow (wd_ID w) (wd_Name w) (wd_Layout w) (wd_Active w) panes crdt).

Definition copySession (h : heap) (s : Session) : heap * option loc :=
  let '(h, env) := new_map_from h (Environment s) in
  let '(h, labels) := new_map_from h (Labels s) in
  let '(h, gpu) := copy_strings h (GPURequest s) in
  let '(h, ws) :=
    if decide (0 < length (rd_windows h (Windows s)))%nat then let '(h, ws) := copy_all copyWindow h (rd_windows h (Windows s)) in alloc h (OWindows ws) else (h, None) in
  alloc h (OSession (mkSession (ID s) (Name s) (Owner s) (Status s) (Backend s) (NodeID s) (CreatedAt s) (UpdatedAt s) (CPURequest s) (MemoryRequest s) gpu ws env labels)).

(** ** The life cycle *)

Inductive lifecycleAction := actionAttach | actionDetach | actionMigrate | actionTerminate.

Definition allowedTransitions (a : lifecycleAction) : list SessionStatus :=
  match a with
  | actionAttach => [StatusRunning]
  | actionDetach => [StatusRunning; StatusPaused]
  | actionMigrate => [StatusRunning]
  | actionTerminate => [StatusRunning; StatusMigrating; StatusPaused; StatusCreating; StatusFailed]
  end.

Inductive session_error := ErrNotFound | InvalidTransitionError (from : SessionStatus) (action : lifecycleAction) | ErrNotRunning | ErrRandom | ErrBackend.

Definition validateTransition (from : SessionStatus) (action : lifecycleAction) : option session_error :=
  if decide (from ∈ allowedTransitions action) then None else Some (InvalidTransitionError from action).

(** ** The manager *)

(** What the backend promises is nothing: each operation may change it and may fail. *)
Class TmuxBackend (B : Type) := {
  CreateSession : B -> string -> gmap string string -> B * bool;
  AttachSession : B -> string -> B * bool;
  DetachSession : B -> string -> B * bool;
  KillSession : B -> string -> B * bool;
  ResizePane : B -> string -> string -> Z -> Z -> B * bool;
  SendKeys : B -> string -> string -> string -> B * bool }.

(** A call of a handler: the first two get the session that is stored, through
    a pointer ([P]), not a copy. *)
Inductive handler_call (P : Type) := CallCreate (s : P) (id : string) | CallMigrate (s : P) (id from to : string) | CallTerminate (id : string).
Arguments CallCreate {P} s id.
Arguments CallMigrate {P} s id from to.
Arguments CallTerminate {P} id.

Record CreateRequest := mkRequest {
  rq_Name : string; rq_Owner : string; rq_Backend : string; rq_CPURequest : Z; rq_MemoryRequest : Z; rq_GPURequest : option loc;
  rq_Environment : option loc; rq_Labels : option loc }.

Definition hex_digit (n : Z) : string := String (Ascii.ascii_of_N (Z.to_N (if decide (n < 10) then 48 + n else 87 + n))) EmptyString.
Fixpoint EncodeToString (l : list Z) : string := match l with [] => EmptyString | b :: l => String.append (hex_digit (b / 16)) (String.append (hex_digit (b mod 16)) (EncodeToString l)) end.

Definition session_id (now : Z) (randBytes : list Z) : string :=
  String.append "session-" (String.append (pretty now) (String.append "-" (EncodeToString randBytes))).

Section manager.
Context {B : Type} `{!TmuxBackend B}.

Record Manager := mkManager {
  sessions : gmap string loc; tmuxBackend : option B; onCreate : bool; onMigrate : bool; onTerminate : bool; calls : list (handler_call loc) }.

Definition NewManager (tmux : option B) : Manager := mkManager ∅ tmux false false false [].

Definition with_sessions (m : Manager) (ss : gmap string loc) : Manager := mkManager ss (tmuxBackend m) (onCreate m) (onMigrate m) (onTerminate m) (calls m).
Definition with_backend (m : Manager) (b : option B) : Manager := mkManager (sessions m) b (onCreate m) (onMigrate m) (onTerminate m) (calls m).
Definition notify (m : Manager) (set : bool) (c : handler_call loc) : Manager :=
  if set then mkManager (sessions m) (tmuxBackend m) (onCreate m) (onMigrate m) (onTerminate m) (calls m ++ [c]) else m.

(** A call of the backend, if there is one. *)
Definition call (b : option B) (f : B -> B * bool) : option B * bool := match b with None => (None, true) | Some b => let '(b, ok) := f b in (Some b, ok) end.

Definition touch (s : Session) (st : SessionStatus) (node : string) (now : Z) : Session :=
  mkSession (ID s) (Name s) (Owner s) st (Backend s) node (CreatedAt s) now (CPURequest s) (MemoryRequest s) (GPURequest s) (Windows s) (Environment s) (Labels s).

(** The session returned, if any, and the error, if any.  [now1] is read for
    the id, the others for the two timestamps. *)
Definition Create (h : heap) (m : Manager) (req : CreateRequest) (rand : option (list Z)) (now1 now2 now3 : Z) : heap * Manager * option loc * option session_error :=
  match rand with
  | None => (h, m, None, Some ErrRandom)
  | Some randBytes =>
      let id := session_id now1 randBytes in
      let '(h, env) := new_map_from h (rq_Environment req) in
      let '(h, labels) := new_map_from h (rq_Labels req) in
      let '(h, gpu) := copy_strings h (rq_GPURequest req) in
      let s := mkSession id (rq_Name req) (rq_Owner req) StatusCreating (rq_Backend req) EmptyString now2 now3 (rq_CPURequest req) (rq_MemoryRequest req) gpu None env labels in
      let '(b, ok) := call (tmuxBackend m) (fun b => CreateSession b id (rd_map h (rq_Environment req))) in
      let m := with_backend m b in
      if ok then
        let s := touch s StatusRunning EmptyString now3 in
        let l := next h in
        let '(h, _) := alloc h (OSession s) in
        let m := notify (with_sessions m (<[id := l]> (sessions m))) (onCreate m) (CallCreate l id) in
        let '(h, out) := copySession h s in (h, m, out, None)
      else
        let l := next h in
        let '(h, _) := alloc h (OSession (touch s StatusFailed EmptyString now3)) in
        (h, with_sessions m (<[id := l]> (sessions m)), Some l, Some ErrBackend)
  end.

(** The session stored under an id, and where. *)
Definition stored (h : heap) (m : Manager) (id : string) : option (loc * Session) := l ← sessions m !! id; s ← rd_session h l; Some (l, s).

Definition Get (h : heap) (m : Manager) (id : string) : heap * option loc * option session_error :=
  match stored h m id with
  | None => (h, None, Some ErrNotFound)
  | Some (_, s) => let '(h, out) := copySession h s in (h, out, None)
  end.

(** The loop over the sessions, in the order Go visits them. *)
Fixpoint copy_where (p : Session -> bool) (h : heap) (m : Manager) (order : list string) : heap * list (option loc) :=
  match order with
  | [] => (h, [])
  | id :: order =>
      match stored h m id with
      | None => copy_where p h m order
      | Some (_, s) =>
          if p s then let '(h, c) := copySession h s in let '(h, out) := copy_where p h m order in (h, c :: out)
          else copy_where p h m order
      end
  end.

Definition List (h : heap) (m : Manager) (order : list string) : heap * list (option loc) := copy_where (fun _ => true) h m order.
Definition ListByOwner (h : heap) (m : Manager) (owner : string) (order : list string) : heap * list (option loc) := copy_where (fun s => bool_decide (Owner s = owner)) h m order.
Definition ListByNode (h : heap) (m : Manager) (nodeID : string) (order : list string) : heap * list (option loc) := copy_where (fun s => bool_decide (NodeID s = nodeID)) h m order.

Definition Attach (h : heap) (m : Manager) (id : string) (now : Z) : heap * Manager * option session_error :=
  match stored h m id with
  | None => (h, m, Some ErrNotFound)
  | Some (l, s) =>
      match validateTransition (Status s) actionAttach with
      | Some e => (h, m, Some e)
      | None =>
          let '(b, ok) := call (tmuxBackend m) (fun b => AttachSession b id) in
          if ok then (wr_session h l (touch s (Status s) (NodeID s) now), with_backend m b, None) else (h, with_backend m b, Some ErrBackend)
      end
  end.

Definition Detach (h : heap) (m : Manager) (id : string) (now : Z) : heap * Manager * option session_error :=
  match stored h m id with
  | None => (h, m, Some ErrNotFound)
  | Some (l, s) =>
      match validateTransition (Status s) actionDetach with
      | Some e => (h, m, Some e)
      | None =>
          let '(b, ok) := call (tmuxBackend m) (fun b => DetachSession b id) in
          if ok then (wr_session h l (touch s (Status s) (NodeID s) now), with_backend m b, None) else (h, with_backend m b, Some ErrBackend)
      end
  end.

Definition Terminate (h : heap) (m : Manager) (id : string) (now : Z) : heap * Manager * option session_error :=
  match stored h m id with
  | None => (h, m, Some ErrNotFound)
  | Some (l, s) =>
      match validateTransition (Status s) actionTerminate with
      | Some e => (h, m, Some e)
      | None =>
          let '(b, ok) := call (tmuxBackend m) (fun b => KillSession b id) in
          if ok then (wr_session h l (touch s StatusTerminated (NodeID s) now), notify (with_backend m b) (onTerminate m) (CallTerminate id), None)
          else (h, with_backend m b, Some ErrBackend)
      end
  end.

(** One turn of the loop of [ReapOlderThan]; times and durations in nanoseconds. *)
Definition reap_one (h : heap) (d now : Z) (st : gmap string loc * Z) (id : string) (l : loc) : gmap string loc * Z :=
  match rd_session h l with
  | None => st
  | Some s =>
      if decide (Status s <> StatusTerminated) then st
      else if decide (d > 0 /\ UpdatedAt s > now - d) then st
      else (delete id st.1, st.2 + 1)
  end.

Definition ReapOlderThan (h : heap) (m : Manager) (d now : Z) : Manager * Z :=
  let '(ss, removed) := range_fold (reap_one h d now) (sessions m, 0) (sessions m) in (with_sessions m ss, removed).

Definition Reap (h : heap) (m : Manager) (now : Z) : Manager * Z := ReapOlderThan h m 0 now.

Definition Migrate (h : heap) (m : Manager) (id targetNode : string) (now : Z) : heap * Manager * option session_error :=
  match stored h m id with
  | None => (h, m, Some ErrNotFound)
  | Some (l, s) =>
      match validateTransition (Status s) actionMigrate with
      | Some e => (h, m, Some e)
      | None => (wr_session h l (touch s StatusMigrating targetNode now), notify m (onMigrate m) (CallMigrate l id (NodeID s) targetNode), None)
      end
  end.

Definition ResizePTY (h : heap) (m : Manager) (id paneID : string) (rows cols : Z) : Manager * option session_error :=
  match stored h m id with
  | None => (m, Some ErrNotFound)
  | Some (_, s) =>
      if decide (Status s <> StatusRunning) then (m, Some ErrNotRunning)
      else let '(b, ok) := call (tmuxBackend m) (fun b => ResizePane b id paneID rows cols) in (with_backend m b, if ok then None else Some ErrBackend)
  end.

Definition SendInput (h : heap) (m : Manager) (id paneID input : string) : Manager * option session_error :=
  match stored h m id with
  | None => (m, Some ErrNotFound)
  | Some (_, s) =>
      if decide (Status s <> StatusRunning) then (m, Some ErrNotRunning)
      else let '(b, ok) := call (tmuxBackend m) (fun b => SendKeys b id paneID input) in (with_backend m b, if ok then None else Some ErrBackend)
  end.

Definition Update (h : heap) (m : Manager) (id : string) (fn : heap -> Session -> heap * Session) (now : Z) : heap * option loc * option session_error :=
  match stored h m id with
  | None => (h, None, Some ErrNotFound)
  | Some (l, s) =>
      let '(h, s) := fn h s in
      let s := touch s (Status s) (NodeID s) now in
      let h := wr_session h l s in
      let '(h, out) := copySession h s in (h, out, None)
  end.

(** The usage is zero in the code as it is. *)
Definition GetResourceUsage (h : heap) (m : Manager) (id : string) : option session_error := match stored h m id with None => Some ErrNotFound | Some _ => None end.

End manager.

(** ** Values *)

(** A structure with everything it points to; [v_*] keeps the fields that are
    not pointers. *)
Record pane_value := mkPaneValue { v_pane : Pane; v_pane_env : option (gmap string string); v_pane_crdt : option (list Z) }.
Record window_value := mkWindowValue { v_window : Window; v_panes : list pane_value; v_window_crdt : option (list Z) }.
Record session_value := mkSessionValue { v_session : Session; v_gpu : list string; v_windows : list window_value; v_env : gmap string string; v_labels : gmap string string }.

Definition bare_pane (p : Pane) : Pane :=
  mkPane (pn_ID p) (pn_Command p) (pn_WorkingDir p) None (pn_PTYPath p) (pn_CPULimit p) (pn_MemoryLimit p) (pn_GPUDevice p) (pn_Status p) None.
Definition bare_window (w : Window) : Window := mkWindow (wd_ID w) (wd_Name w) (wd_Layout w) (wd_Active w) None None.
Definition bare (s : Session) : Session :=
  mkSession (ID s) (Name s) (Owner s) (Status s) (Backend s) (NodeID s) (CreatedAt s) (UpdatedAt s) (CPURequest s) (MemoryRequest s) None None None None.

Definition pane_val (h : heap) (p : Pane) : pane_value :=
  mkPaneValue (bare_pane p) ((fun l => rd_map h (Some l)) <$> pn_Environment p) ((fun l => rd_bytes h (Some l)) <$> pn_CRDTState p).
Definition window_val (h : heap) (w : Window) : window_value :=
  mkWindowValue (bare_window w) (pane_val h <$> rd_panes h (wd_Panes w)) ((fun l => rd_bytes h (Some l)) <$> wd_CRDTState w).
Definition session_val (h : heap) (s : Session) : session_value :=
  mkSessionValue (bare s) (rd_strings h (GPURequest s)) (window_val h <$> rd_windows h (Windows s)) (rd_map h (Environment s)) (rd_map h (Labels s)).

(** The memory a structure reaches. *)
Definition ptr (p : option loc) : list loc := match p with Some l => [l] | None => [] end.
Definition pane_reach (h : heap) (p : Pane) : list loc := ptr (pn_Environment p) ++ ptr (pn_CRDTState p).
Definition window_reach (h : heap) (w : Window) : list loc := ptr (wd_Panes w) ++ ptr (wd_CRDTState w) ++ mjoin (pane_reach h <$> rd_panes h (wd_Panes w)).
Definition session_reach (h : heap) (s : Session) : list loc :=
  ptr (Environment s) ++ ptr (Labels s) ++ ptr (GPURequest s) ++ ptr (Windows s) ++ mjoin (window_reach h <$> rd_windows h (Windows s)).

(** ** Frames *)

Definition agree (h h' : heap) (ls : list loc) : Prop := forall l, l ∈ ls -> objs h' !! l = objs h !! l.
Definition extends (h h' : heap) : Prop := (next h <= next h')%nat /\ forall l, (l < next h)%nat -> objs h' !! l = objs h !! l.
Definition below (n : loc) (ls : list loc) : Prop := Forall (fun l => l < n)%nat ls.
Definition between (n n' : loc) (ls : list loc) : Prop := Forall (fun l => n <= l < n')%nat ls.

#[global] Instance extends_preorder : PreOrder extends.
Proof.
  split; [by intros h|]. intros h1 h2 h3 [H1 H2] [H3 H4]. split; [lia|]. intros l Hl. rewrite H4, H2 by lia. done.
Qed.

Lemma extends_agree h h' ls : extends h h' -> below (next h) ls -> agree h h' ls.
Proof. intros [_ H] Hb l Hl. apply H. unfold below in Hb. rewrite Forall_forall in Hb. by apply Hb. Qed.

Lemma agree_app h h' a b : agree h h' (a ++ b) <-> agree h h' a /\ agree h h' b.
Proof. unfold agree. setoid_rewrite elem_of_app. naive_solver. Qed.

Lemma below_mono n n' ls : (n <= n')%nat -> below n ls -> below n' ls.
Proof. intros Hn H. eapply Forall_impl; [exact H|]. cbn. lia. Qed.
Lemma between_below n n' ls : between n n' ls -> below n' ls.
Proof. intros H. eapply Forall_impl; [exact H|]. cbn. lia. Qed.
Lemma between_mono n n' a b ls : (n <= a)%nat -> (b <= n')%nat -> between a b ls -> between n n' ls.
Proof. intros H1 H2 H. eapply Forall_impl; [exact H|]. cbn. lia. Qed.

Lemma rd_agree h h' p : agree h h' (ptr p) -> rd h' p = rd h p.
Proof. intros H. destruct p as [l|]; [|done]. cbn. apply H. left. Qed.

(** The value of a structure and what it reaches depend on what it reaches only. *)
Class Framed {A D : Type} (val : heap -> A -> D) (reach : heap -> A -> list loc) : Prop :=
  framed : forall h h' a, agree h h' (reach h a) -> val h' a = val h a /\ reach h' a = reach h a.

#[global] Instance pane_framed : Framed pane_val pane_reach.
Proof.
  intros h h' p [H1 H2]%agree_app. split; [|done]. unfold pane_val. destruct (pn_Environment p) as [e|], (pn_CRDTState p) as [c|]; cbn; unfold rd_map, rd_bytes;
    rewrite ?(rd_agree h h') by done; done.
Qed.

#[global] Instance list_framed {A D} (val : heap -> A -> D) (reach : heap -> A -> list loc) :
  Framed val reach -> Framed (fun h l => val h <$> l) (fun h l => mjoin (reach h <$> l)).
Proof.
  intros HF h h' l. induction l as [|a l IH]; [done|]. cbn. intros [H1 H2]%agree_app. destruct (framed h h' a H1) as [Ea Ra], (IH H2) as [El Rl].
  split; [rewrite Ea; f_equal; exact El|rewrite Ra; f_equal; exact Rl].
Qed.

#[global] Instance window_framed : Framed window_val window_reach.
Proof.
  intros h h' w H. unfold window_reach in H. rewrite !agree_app in H. destruct H as (H1 & H2 & H3).
  assert (rd_panes h' (wd_Panes w) = rd_panes h (wd_Panes w)) as E by (unfold rd_panes; by rewrite (rd_agree h h')). unfold window_val, window_reach. rewrite E.
  destruct (framed (Framed := list_framed pane_val pane_reach _) h h' _ H3) as [-> ->]. split; [|done]. f_equal.
  destruct (wd_CRDTState w) as [c|]; cbn; [|done]. unfold rd_bytes. by rewrite (rd_agree h h').
Qed.

#[global] Instance session_framed : Framed session_val session_reach.
Proof.
  intros h h' s H. unfold session_reach in H. rewrite !agree_app in H. destruct H as (H1 & H2 & H3 & H4 & H5).
  assert (rd_windows h' (Windows s) = rd_windows h (Windows s)) as E by (unfold rd_windows; by rewrite (rd_agree h h')). unfold session_val, session_reach. rewrite E.
  destruct (framed (Framed := list_framed window_val window_reach _) h h' _ H5) as [-> ->]. split; [|done]. unfold rd_strings, rd_map. by rewrite !(rd_agree h h').
Qed.

(** ** Copies are equal and new *)

(** A copy has the value of the original and reaches new memory only. *)
Definition copies {A D} (val : heap -> A -> D) (reach : heap -> A -> list loc) (copy : heap -> A -> heap * A) : Prop :=
  forall h a, below (next h) (reach h a) ->
    let '(h', a') := copy h a in extends h h' /\ between (next h) (next h') (reach h' a') /\ val h' a' = val h a.

Lemma alloc_extends h o : extends h (alloc h o).1.
Proof. split; cbn; [lia|]. intros l Hl. apply lookup_insert_ne. lia. Qed.

Lemma copy_all_copies {A D} (val : heap -> A -> D) reach copy :
  Framed val reach -> copies val reach copy -> copies (fun h l => val h <$> l) (fun h l => mjoin (reach h <$> l)) (copy_all copy).
Proof.
  intros HF HC h l. revert h. induction l as [|a l IH]; intros h Hb; [split_and!; [done|constructor|done]|]. cbn in Hb. apply Forall_app in Hb as [Ha Hl]. cbn [copy_all].
  specialize (HC h a Ha). destruct (copy h a) as [h1 a']. destruct HC as (E1 & B1 & V1).
  pose proof (framed (Framed := list_framed val reach HF) h h1 l (extends_agree _ _ _ E1 Hl)) as [Vl Rl].
  specialize (IH h1). cbv beta in IH. rewrite Rl in IH. specialize (IH (below_mono _ _ _ (proj1 E1) Hl)).
  destruct (copy_all copy h1 l) as [h2 l']. destruct IH as (E2 & B2 & V2).
  destruct (framed h1 h2 a' (extends_agree _ _ _ E2 (between_below _ _ _ B1))) as [Va Ra]. split_and!; [by etrans| |].
  - cbn. rewrite Ra. apply Forall_app. split; [eapply between_mono; [| |exact B1]; [lia|apply E2]|eapply between_mono; [| |exact B2]; [apply E1|lia]].
  - cbn. rewrite Va, V1. f_equal. cbv beta in V2, Vl. by rewrite V2, Vl.
Qed.

(** What one field of a copy is. *)
Definition copied {D} (val : heap -> loc -> D) (h h' : heap) (p p' : option loc) : Prop :=
  extends h h' /\ between (next h) (next h') (ptr p') /\ val h' <$> p' = val h <$> p.

Lemma alloc_new h o : objs (alloc h o).1 !! next h = Some o.
Proof. apply lookup_insert_eq. Qed.

Lemma new_between h o : between (next h) (next (alloc h o).1) [next h].
Proof. constructor; [cbn; lia|constructor]. Qed.

Lemma new_map_spec h p :
  let '(h', p') := new_map_from h p in extends h h' /\ between (next h) (next h') (ptr p') /\ rd_map h' p' = rd_map h p /\ p' <> None.
Proof.
  unfold new_map_from. rewrite (range_fold_copy id), map_fmap_id. split_and!; [apply alloc_extends|apply new_between| |done].
  unfold rd_map at 1, rd. cbn. by rewrite lookup_insert_eq.
Qed.

Lemma copy_map_spec h p : let '(h', p') := copy_map h p in copied (fun h l => rd_map h (Some l)) h h' p p'.
Proof.
  unfold copy_map. destruct p as [l|]; [|split_and!; [done|constructor|done]]. pose proof (new_map_spec h (Some l)) as H. destruct (new_map_from h (Some l)) as [h' p'].
  destruct H as (H1 & H2 & H3 & H4). split_and!; [done|done|]. destruct p' as [l'|]; [|done]. cbn. by rewrite H3.
Qed.

Lemma copy_bytes_spec h p : let '(h', p') := copy_bytes h p in copied (fun h l => rd_bytes h (Some l)) h h' p p'.
Proof.
  unfold copy_bytes. destruct p as [l|]; [|split_and!; [done|constructor|done]]. split_and!; [apply alloc_extends|apply new_between|].
  cbn. unfold rd_bytes at 1, rd. cbn. by rewrite lookup_insert_eq.
Qed.

Lemma copy_strings_spec h p :
  let '(h', p') := copy_strings h p in extends h h' /\ between (next h) (next h') (ptr p') /\ rd_strings h' p' = rd_strings h p.
Proof.
  unfold copy_strings. case_decide as Hl; [|split_and!; [done|constructor|by destruct (rd_strings h p); [|cbn in Hl; lia]]].
  split_and!; [apply alloc_extends|apply new_between|]. unfold rd_strings at 1, rd. cbn. by rewrite lookup_insert_eq.
Qed.

Lemma alloc_spec h o :
  exists h', alloc h o = (h', Some (next h)) /\ extends h h' /\ between (next h) (next h') [next h] /\ rd h' (Some (next h)) = Some o /\ next h' = S (next h).
Proof. eexists. split_and!; [done|apply alloc_extends|apply new_between|apply alloc_new|done]. Qed.

(** Later extensions do not change what a field points to. *)
Lemma copied_frame {D} (val : heap -> loc -> D) h h1 h2 p p' :
  (forall g g' l, agree g g' [l] -> val g' l = val g l) -> copied val h h1 p p' -> extends h1 h2 -> copied val h h2 p p'.
Proof.
  intros HF (H1 & H2 & H3) H4. split_and!; [by etrans|eapply between_mono; [| |exact H2]; [lia|apply H4]|]. rewrite <- H3. destruct p' as [l|]; [|done]. cbn. f_equal. apply HF.
  eapply extends_agree; [exact H4|]. by eapply between_below.
Qed.

Lemma rd_map_framed g g' l : agree g g' [l] -> rd_map g' (Some l) = rd_map g (Some l).
Proof. intros H. unfold rd_map. by rewrite (rd_agree g g' (Some l)). Qed.
Lemma rd_bytes_framed g g' l : agree g g' [l] -> rd_bytes g' (Some l) = rd_bytes g (Some l).
Proof. intros H. unfold rd_bytes. by rewrite (rd_agree g g' (Some l)). Qed.

(** The original is still what it was after the copy. *)
Lemma fmap_extends {D} (val : heap -> loc -> D) h h1 p :
  (forall g g' l, agree g g' [l] -> val g' l = val g l) -> extends h h1 -> below (next h) (ptr p) -> val h1 <$> p = val h <$> p.
Proof. intros HF HE Hb. destruct p as [l|]; [|done]. cbn. f_equal. apply HF. by eapply extends_agree. Qed.

Lemma copyPane_copies : copies pane_val pane_reach copyPane.
Proof.
  intros h p [Hb1 Hb2]%Forall_app. unfold copyPane. pose proof (copy_map_spec h (pn_Environment p)) as H1. destruct (copy_map h (pn_Environment p)) as [h1 env].
  pose proof (copy_bytes_spec h1 (pn_CRDTState p)) as H2. destruct (copy_bytes h1 (pn_CRDTState p)) as [h2 crdt].
  pose proof (copied_frame _ _ _ _ _ _ rd_map_framed H1 (proj1 H2)) as (E1 & B1 & V1). destruct H2 as (E2 & B2 & V2). rewrite (fmap_extends _ h h1 _ rd_bytes_framed) in V2 by (done || apply H1).
  split_and!; [done| |].
  - apply Forall_app. split; [done|]. eapply between_mono; [| |exact B2]; [apply H1|lia].
  - unfold pane_val. cbn. by rewrite V1, V2.
Qed.

Lemma copyWindow_copies : copies window_val window_reach copyWindow.
Proof.
  intros h w Hb. unfold window_reach in Hb. unfold below in Hb. rewrite !Forall_app in Hb. destruct Hb as (Hb1 & Hb2 & Hb3). unfold copyWindow.
  pose proof (copy_bytes_spec h (wd_CRDTState w)) as H1. destruct (copy_bytes h (wd_CRDTState w)) as [h1 crdt]. pose proof H1 as (E1 & _).
  assert (rd_panes h1 (wd_Panes w) = rd_panes h (wd_Panes w)) as Ep by (unfold rd_panes; rewrite (rd_agree h h1); [done|by eapply extends_agree]). rewrite Ep.
  destruct (framed (Framed := list_framed pane_val pane_reach _) h h1 _ (extends_agree _ _ _ E1 Hb3)) as [Vp Rp]. cbv beta in Vp, Rp. case_decide as Hl.
  - pose proof (copy_all_copies pane_val pane_reach copyPane _ copyPane_copies h1 (rd_panes h (wd_Panes w))) as H2. cbv beta in H2. rewrite Rp in H2.
    specialize (H2 (below_mono _ _ _ (proj1 E1) Hb3)). destruct (copy_all copyPane h1 _) as [h2 ps]. destruct H2 as (E2 & B2 & V2).
    destruct (alloc_spec h2 (OPanes ps)) as (h3 & -> & E3 & B3 & Er0 & _). destruct (copied_frame _ _ _ _ _ _ rd_bytes_framed H1 (transitivity E2 E3)) as (E & Bc & Vc).
    destruct (framed (Framed := list_framed pane_val pane_reach _) h2 _ ps (extends_agree _ _ _ E3 (between_below _ _ _ B2))) as [Vp3 Rp3]. cbv beta in Vp3, Rp3.
    assert (rd_panes h3 (Some (next h2)) = ps) as Er by (unfold rd_panes; by rewrite Er0). split_and!; [done| |].
    + unfold window_reach. cbn [wd_Panes wd_CRDTState ptr]. rewrite Er, Rp3. apply Forall_app. split; [eapply between_mono; [| |exact B3]; [destruct E1, E2; lia|done]|]. apply Forall_app.
      split; [done|]. eapply between_mono; [| |exact B2]; [apply E1|apply E3].
    + unfold window_val. cbn [wd_Panes wd_CRDTState wd_ID wd_Name wd_Layout wd_Active]. rewrite Er, Vp3, V2, Vp, Vc. done.
  - split_and!; [done| |].
    + unfold window_reach. cbn. rewrite app_nil_r. apply H1.
    + unfold window_val. cbn. destruct H1 as (_ & _ & ->). destruct (rd_panes h (wd_Panes w)); [done|]. cbn in Hl. lia.
Qed.

Lemma copy_windows_spec h p :
  below (next h) (mjoin (window_reach h <$> rd_windows h p)) ->
  let '(h', p') := if decide (0 < length (rd_windows h p))%nat then let '(h, ws) := copy_all copyWindow h (rd_windows h p) in alloc h (OWindows ws) else (h, None) in
  extends h h' /\ between (next h) (next h') (ptr p' ++ mjoin (window_reach h' <$> rd_windows h' p')) /\ window_val h' <$> rd_windows h' p' = window_val h <$> rd_windows h p.
Proof.
  intros Hb. case_decide as Hl; [|split_and!; [done|constructor|by destruct (rd_windows h p); [|cbn in Hl; lia]]].
  pose proof (copy_all_copies window_val window_reach copyWindow _ copyWindow_copies h (rd_windows h p) Hb) as H. destruct (copy_all copyWindow h _) as [h1 ws]. destruct H as (E1 & B1 & V1).
  destruct (alloc_spec h1 (OWindows ws)) as (h2 & -> & E2 & B2 & Er & _). assert (rd_windows h2 (Some (next h1)) = ws) as -> by (unfold rd_windows; by rewrite Er).
  destruct (framed (Framed := list_framed window_val window_reach _) h1 h2 ws (extends_agree _ _ _ E2 (between_below _ _ _ B1))) as [V2 R2]. cbv beta in V1, V2, R2. split_and!.
  - by etrans.
  - rewrite R2. apply Forall_app. split; [eapply between_mono; [| |exact B2]; [apply E1|done]|eapply between_mono; [| |exact B1]; [done|apply E2]].
  - by rewrite V2, V1.
Qed.

(** What a field reads is there later. *)
Lemma rd_later h h' p : extends h h' -> below (next h) (ptr p) -> rd h' p = rd h p.
Proof. intros HE Hb. apply rd_agree. by eapply extends_agree. Qed.

Lemma copySession_spec h s :
  below (next h) (session_reach h s) ->
  let '(h', p) := copySession h s in
  extends h h' /\ exists l s', p = Some l /\ rd_session h' l = Some s' /\ session_val h' s' = session_val h s /\ between (next h) (next h') (l :: session_reach h' s').
Proof.
  intros Hb. unfold session_reach, below in Hb. rewrite !Forall_app in Hb. destruct Hb as (Hb1 & Hb2 & Hb3 & Hb4 & Hb5). unfold copySession.
  pose proof (new_map_spec h (Environment s)) as H1. destruct (new_map_from h (Environment s)) as [h1 env]. destruct H1 as (E1 & B1 & V1 & _).
  pose proof (new_map_spec h1 (Labels s)) as H2. destruct (new_map_from h1 (Labels s)) as [h2 labels]. destruct H2 as (E2 & B2 & V2 & _).
  pose proof (copy_strings_spec h2 (GPURequest s)) as H3. destruct (copy_strings h2 (GPURequest s)) as [h3 gpu]. destruct H3 as (E3 & B3 & V3).
  assert (extends h h2) as E02 by (by etrans). assert (extends h h3) as E03 by (by etrans). assert (rd_windows h3 (Windows s) = rd_windows h (Windows s)) as Ew by (unfold rd_windows; by rewrite (rd_later h h3)).
  destruct (framed (Framed := list_framed window_val window_reach _) h h3 _ (extends_agree _ _ _ E03 Hb5)) as [Vw Rw]. cbv beta in Vw, Rw.
  pose proof (copy_windows_spec h3 (Windows s)) as H4. rewrite Ew, Rw in H4. rewrite Ew. specialize (H4 (below_mono _ _ _ (proj1 E03) Hb5)).
  destruct (if decide _ then _ else _) as [h4 ws]. destruct H4 as (E4 & B4 & V4).
  match goal with |- context [alloc h4 ?o] => destruct (alloc_spec h4 o) as (h5 & -> & E5 & B5 & Er & N5) end. assert (extends h4 h5) as E45 by done.
  assert (extends h3 h5) as E35 by (by etrans). assert (extends h2 h5) as E25 by (by etrans). assert (extends h1 h5) as E15 by (by etrans). split; [by etrans|].
  eexists (next h4), _. split; [done|]. unfold rd_session. cbn in Er. rewrite Er. split; [done|].
  apply Forall_app in B4 as [B4 B4']. assert (rd_windows h5 ws = rd_windows h4 ws) as Ew5 by (unfold rd_windows; rewrite (rd_later h4 h5); [done|done|by eapply between_below]).
  destruct (framed (Framed := list_framed window_val window_reach _) h4 h5 (rd_windows h4 ws) (extends_agree _ _ _ E45 (between_below _ _ _ B4'))) as [Vw5 Rw5]. cbv beta in Vw5, Rw5.
  destruct E1 as [N1 E1'], E2 as [N2 E2'], E3 as [N3 E3'], E4 as [N4 E4']. split.
  - unfold session_val. cbn. rewrite Ew5, Vw5, V4, Vw.
    assert (rd_strings h5 gpu = rd_strings h (GPURequest s)) as -> by (unfold rd_strings in *; rewrite (rd_later h3 h5), V3, (rd_later h h2); (done || by eapply between_below)).
    assert (rd_map h5 env = rd_map h (Environment s)) as -> by (unfold rd_map in *; rewrite (rd_later h1 h5), V1; (done || by eapply between_below)).
    assert (rd_map h5 labels = rd_map h (Labels s)) as -> by (unfold rd_map in *; rewrite (rd_later h2 h5), V2, (rd_later h h1); (done || by eapply between_below)). done.
  - constructor; [lia|]. unfold session_reach. cbn [Environment Labels GPURequest Windows]. rewrite Ew5, Rw5. repeat (apply Forall_app; split).
    all: eapply between_mono; [| |eassumption]; lia.
Qed.

(** ** What the manager owns *)

Section ownership.
Context {B : Type} `{!TmuxBackend B}.
Notation Manager := (@Manager B).
Implicit Types (m : Manager) (h : heap).

Definition foot (h : heap) (l : loc) : list loc := l :: match rd_session h l with Some s => session_reach h s | None => [] end.

(** The memory of the sessions under the ids of the manager. *)
Definition owned (h : heap) (ss : gmap string loc) (x : loc) : Prop := exists id l, ss !! id = Some l /\ x ∈ foot h l.

Record owns (h : heap) (ss : gmap string loc) : Prop := {
  owns_session : forall id l, ss !! id = Some l -> exists s, rd_session h l = Some s /\ l ∉ session_reach h s /\ below (next h) (foot h l);
  owns_apart : forall id id' l l' x, ss !! id = Some l -> ss !! id' = Some l' -> id <> id' -> x ∈ foot h l -> x ∉ foot h l' }.

(** The table of values. *)
Definition abs (h : heap) (ss : gmap string loc) : gmap string session_value := omap (fun l => session_val h <$> rd_session h l) ss.

Lemma foot_frame h h' l : agree h h' (foot h l) -> rd_session h' l = rd_session h l /\ foot h' l = foot h l /\ (session_val h' <$> rd_session h' l) = (session_val h <$> rd_session h l).
Proof.
  intros H. assert (rd_session h' l = rd_session h l) as E by (unfold rd_session; rewrite (H l); [done|left]). split; [done|]. unfold foot in *. rewrite E.
  destruct (rd_session h l) as [s|]; [|done]. cbn. destruct (framed h h' s) as [-> ->]; [|done]. intros x Hx. apply H. by right.
Qed.

(** Whatever happens to memory that is not owned changes nothing. *)
Lemma owns_frame h h' ss :
  owns h ss -> (forall x, owned h ss x -> objs h' !! x = objs h !! x) -> (next h <= next h')%nat -> owns h' ss /\ abs h' ss = abs h ss /\ forall x, owned h' ss x <-> owned h ss x.
Proof.
  intros [H1 H2] Ha Hn. assert (forall id l, ss !! id = Some l -> agree h h' (foot h l)) as Hag by (intros id l Hl x Hx; apply Ha; by exists id, l).
  split_and!; [split| |].
  - intros id l Hl. destruct (foot_frame h h' l (Hag id l Hl)) as (E & Ef & _). destruct (H1 id l Hl) as (s & Hs & Hni & Hb). exists s. rewrite E, Ef. split; [done|].
    split; [|by eapply below_mono]. destruct (framed h h' s) as [_ ->]; [|done]. intros x Hx. apply (Hag id l Hl). unfold foot. rewrite Hs. by right.
  - intros id id' l l' x Hl Hl' Hne. destruct (foot_frame h h' l (Hag id l Hl)) as (_ & -> & _), (foot_frame h h' l' (Hag id' l' Hl')) as (_ & -> & _). eauto.
  - apply map_eq. intros id. unfold abs. rewrite !lookup_omap. destruct (ss !! id) as [l|] eqn:Hl; [|done]. cbn. by destruct (foot_frame h h' l (Hag id l Hl)) as (_ & _ & ->).
  - intros x. split; intros (id & l & Hl & Hx); exists id, l; destruct (foot_frame h h' l (Hag id l Hl)) as (_ & E & _); rewrite E in *; done.
Qed.

Lemma owned_below h ss x : owns h ss -> owned h ss x -> (x < next h)%nat.
Proof. intros [H _] (id & l & Hl & Hx). destruct (H id l Hl) as (s & _ & _ & Hb). unfold below in Hb. rewrite Forall_forall in Hb. by apply Hb. Qed.

Lemma owns_extends h h' ss : owns h ss -> extends h h' -> owns h' ss /\ abs h' ss = abs h ss /\ forall x, owned h' ss x <-> owned h ss x.
Proof. intros H [Hn E]. apply owns_frame; [done| |done]. intros x Hx. apply E. by eapply owned_below. Qed.

(** A session whose memory is its own or new is put under an id. *)
Lemma owns_put h h1 ss id l s1 :
  owns h ss -> (next h <= next h1)%nat -> rd_session h1 l = Some s1 -> l ∉ session_reach h1 s1 -> below (next h1) (foot h1 l) ->
  (forall x, x ∈ foot h1 l -> (next h <= x)%nat \/ exists l0, ss !! id = Some l0 /\ x ∈ foot h l0) ->
  (forall id' l' x, id' <> id -> ss !! id' = Some l' -> x ∈ foot h l' -> objs h1 !! x = objs h !! x) ->
  owns h1 (<[id := l]> ss) /\ abs h1 (<[id := l]> ss) = <[id := session_val h1 s1]> (abs h ss) /\
  (forall x, owned h1 (<[id := l]> ss) x -> owned h ss x \/ (next h <= x)%nat).
Proof.
  intros Ho Hn Hs Hni Hb Hf Hothers. pose proof Ho as [H1 H2].
  assert (forall id' l', id' <> id -> ss !! id' = Some l' -> rd_session h1 l' = rd_session h l' /\ foot h1 l' = foot h l' /\ (session_val h1 <$> rd_session h1 l') = (session_val h <$> rd_session h l')) as Hfr.
  { intros id' l' Hne Hl'. apply foot_frame. intros x Hx. by eapply Hothers. }
  assert (forall x l', x ∈ foot h l' -> forall id', id' <> id -> ss !! id' = Some l' -> x ∉ foot h1 l) as Hap.
  { intros x l' Hx id' Hne Hl' Hx1. destruct (Hf x Hx1) as [Hge|(l0 & Hl0 & Hx0)].
    - assert (x < next h)%nat by (eapply owned_below; [done|by exists id', l']). lia.
    - by eapply (H2 id id' l0 l'); [| |congruence| |]. }
  split_and!; [split| |].
  - intros id' l' Hl'. apply lookup_insert_Some in Hl' as [[<- <-]|[Hne Hl']]; [by exists s1|]. destruct (Hfr id' l') as (E & Ef & _); [done|done|].
    destruct (H1 id' l' Hl') as (s & Hs' & Hni' & Hb'). exists s. rewrite E, Ef. split_and!; [done| |by eapply below_mono]. unfold foot in Ef. rewrite E, Hs' in Ef. by injection Ef as ->.
  - intros id1 id2 l1 l2 x Hl1 Hl2 Hne. apply lookup_insert_Some in Hl1 as [[<- <-]|[Hne1 Hl1]]; apply lookup_insert_Some in Hl2 as [[<- <-]|[Hne2 Hl2]]; [done| | |].
    + destruct (Hfr id2 l2) as (_ & -> & _); [done|done|]. intros Hx Hx2. by eapply Hap.
    + destruct (Hfr id1 l1) as (_ & -> & _); [done|done|]. intros Hx. by eapply Hap.
    + destruct (Hfr id1 l1) as (_ & -> & _); [done|done|]. destruct (Hfr id2 l2) as (_ & -> & _); [done|done|]. by apply (H2 id1 id2).
  - apply map_eq. intros k. unfold abs. rewrite lookup_omap. destruct (decide (k = id)) as [->|Hne]; [rewrite !lookup_insert_eq; cbn; by rewrite Hs|].
    rewrite !lookup_insert_ne, lookup_omap by done. destruct (ss !! k) as [l'|] eqn:E; [|done]. cbn. by destruct (Hfr k l') as (_ & _ & ->).
  - intros x (id' & l' & Hl' & Hx). apply lookup_insert_Some in Hl' as [[<- <-]|[Hne Hl']].
    + destruct (Hf x Hx) as [?|(l0 & Hl0 & Hx0)]; [by right|left; by exists id, l0].
    + left. exists id', l'. split; [done|]. by destruct (Hfr id' l') as (_ & <- & _).
Qed.

Lemma owns_subset h ss ss' : owns h ss -> ss' ⊆ ss -> owns h ss' /\ forall x, owned h ss' x -> owned h ss x.
Proof.
  intros [H1 H2] Hs. assert (forall id l, ss' !! id = Some l -> ss !! id = Some l) as Hl by (intros; by eapply lookup_weaken). split; [split|].
  - intros id l Hid. apply (H1 id). by apply Hl.
  - intros id id' l l' x Hid Hid'. apply (H2 id id'); by apply Hl.
  - intros x (id & l & Hid & Hx). exists id, l. split; [by apply Hl|done].
Qed.

End ownership.

(** ** The table *)

Section refinement.
Context {B : Type} `{!TmuxBackend B}.
Notation Manager := (@Manager B).

Inductive op :=
  | OCreate (req : CreateRequest) (rand : option (list Z)) (now1 now2 now3 : Z) | OGet (id : string) | OList (order : list string)
  | OListByOwner (owner : string) (order : list string) | OListByNode (node : string) (order : list string) | OAttach (id : string) (now : Z)
  | ODetach (id : string) (now : Z) | OTerminate (id : string) (now : Z) | OReap (d now : Z) | OMigrate (id node : string) (now : Z)
  | OResize (id pane : string) (rows cols : Z) | OSend (id pane input : string) | OUsage (id : string)
  | OUpdate (id : string) (fn : heap -> Session -> heap * Session) (g : session_value -> session_value) (now : Z).

Inductive result := RValue (v : option session_value) (e : option session_error) | RValues (vs : list (option session_value)) | RErr (e : option session_error) | RCount (n : Z).

(** A table of values under the same backend and handlers. *)
Record Table := mkTable { t_sessions : gmap string session_value; t_backend : option B; t_onCreate : bool; t_onMigrate : bool; t_onTerminate : bool; t_calls : list (handler_call unit) }.

Definition t_with (T : Table) (ss : gmap string session_value) (b : option B) : Table := mkTable ss b (t_onCreate T) (t_onMigrate T) (t_onTerminate T) (t_calls T).
Definition t_notify (T : Table) (set : bool) (c : handler_call unit) : Table :=
  if set then mkTable (t_sessions T) (t_backend T) (t_onCreate T) (t_onMigrate T) (t_onTerminate T) (t_calls T ++ [c]) else T.

Definition v_touch (v : session_value) (st : SessionStatus) (node : string) (now : Z) : session_value :=
  mkSessionValue (touch (v_session v) st node now) (v_gpu v) (v_windows v) (v_env v) (v_labels v).

(** The session a request asks for, with the request as it is at the call. *)
Definition v_new (h : heap) (req : CreateRequest) (id : string) (st : SessionStatus) (now2 now3 : Z) : session_value :=
  mkSessionValue (mkSession id (rq_Name req) (rq_Owner req) st (rq_Backend req) EmptyString now2 now3 (rq_CPURequest req) (rq_MemoryRequest req) None None None None)
    (rd_strings h (rq_GPURequest req)) [] (rd_map h (rq_Environment req)) (rd_map h (rq_Labels req)).

(** An action of the life cycle: what it does to the session, and the handler it calls. *)
Definition t_act (T : Table) (id : string) (a : lifecycleAction) (f : B -> B * bool) (upd : session_value -> session_value) (after : Table -> Session -> Table) : Table * result :=
  match t_sessions T !! id with
  | None => (T, RErr (Some ErrNotFound))
  | Some v =>
      match validateTransition (Status (v_session v)) a with
      | Some e => (T, RErr (Some e))
      | None =>
          let '(b, ok) := call (t_backend T) f in
          if ok then (after (t_with T (<[id := upd v]> (t_sessions T)) b) (v_session v), RErr None) else (t_with T (t_sessions T) b, RErr (Some ErrBackend))
      end
  end.

Definition reapable (d now : Z) (v : session_value) : Prop := Status (v_session v) = StatusTerminated /\ ~ (d > 0 /\ UpdatedAt (v_session v) > now - d).
#[global] Instance reapable_dec d now v : Decision (reapable d now v).
Proof. unfold reapable. apply _. Defined.

Definition spec (h : heap) (T : Table) (o : op) : Table * result :=
  match o with
  | OCreate req None _ _ _ => (T, RValue None (Some ErrRandom))
  | OCreate req (Some randBytes) now1 now2 now3 =>
      let id := session_id now1 randBytes in
      let '(b, ok) := call (t_backend T) (fun b => CreateSession b id (rd_map h (rq_Environment req))) in
      if ok then let v := v_new h req id StatusRunning now2 now3 in (t_notify (t_with T (<[id := v]> (t_sessions T)) b) (t_onCreate T) (CallCreate () id), RValue (Some v) None)
      else let v := v_new h req id StatusFailed now2 now3 in (t_with T (<[id := v]> (t_sessions T)) b, RValue (Some v) (Some ErrBackend))
  | OGet id => (T, match t_sessions T !! id with Some v => RValue (Some v) None | None => RValue None (Some ErrNotFound) end)
  | OList order => (T, RValues (Some <$> omap (fun id => t_sessions T !! id) order))
  | OListByOwner owner order => (T, RValues (Some <$> filter (fun v => Owner (v_session v) = owner) (omap (fun id => t_sessions T !! id) order)))
  | OListByNode node order => (T, RValues (Some <$> filter (fun v => NodeID (v_session v) = node) (omap (fun id => t_sessions T !! id) order)))
  | OAttach id now => t_act T id actionAttach (fun b => AttachSession b id) (fun v => v_touch v (Status (v_session v)) (NodeID (v_session v)) now) (fun T _ => T)
  | ODetach id now => t_act T id actionDetach (fun b => DetachSession b id) (fun v => v_touch v (Status (v_session v)) (NodeID (v_session v)) now) (fun T _ => T)
  | OTerminate id now =>
      t_act T id actionTerminate (fun b => KillSession b id) (fun v => v_touch v StatusTerminated (NodeID (v_session v)) now) (fun T _ => t_notify T (t_onTerminate T) (CallTerminate id))
  | OMigrate id node now =>
      t_act T id actionMigrate (fun b => (b, true)) (fun v => v_touch v StatusMigrating node now) (fun T s => t_notify T (t_onMigrate T) (CallMigrate () id (NodeID s) node))
  | OReap d now =>
      (t_with T (filter (fun kv => ~ reapable d now kv.2) (t_sessions T)) (t_backend T), RCount (Z.of_nat (size (filter (fun kv => reapable d now kv.2) (t_sessions T)))))
  | OResize id pane rows cols =>
      match t_sessions T !! id with
      | None => (T, RErr (Some ErrNotFound))
      | Some v =>
          if decide (Status (v_session v) <> StatusRunning) then (T, RErr (Some ErrNotRunning))
          else let '(b, ok) := call (t_backend T) (fun b => ResizePane b id pane rows cols) in (t_with T (t_sessions T) b, RErr (if ok then None else Some ErrBackend))
      end
  | OSend id pane input =>
      match t_sessions T !! id with
      | None => (T, RErr (Some ErrNotFound))
      | Some v =>
          if decide (Status (v_session v) <> StatusRunning) then (T, RErr (Some ErrNotRunning))
          else let '(b, ok) := call (t_backend T) (fun b => SendKeys b id pane input) in (t_with T (t_sessions T) b, RErr (if ok then None else Some ErrBackend))
      end
  | OUsage id => (T, RErr (match t_sessions T !! id with Some _ => None | None => Some ErrNotFound end))
  | OUpdate id fn g now =>
      match t_sessions T !! id with
      | None => (T, RValue None (Some ErrNotFound))
      | Some v => let v := v_touch (g v) (Status (v_session (g v))) (NodeID (v_session (g v))) now in (t_with T (<[id := v]> (t_sessions T)) (t_backend T), RValue (Some v) None)
      end
  end.

(** ** The code *)

Definition value_at (h : heap) (p : option loc) : option session_value := l ← p; session_val h <$> rd_session h l.
Definition reach_at (h : heap) (p : option loc) : list loc := match p with Some l => foot h l | None => [] end.

(** An operation of the manager: the result by value, and the memory the
    caller gets. *)
Definition exec (h : heap) (m : Manager) (o : op) : heap * Manager * result * list loc :=
  match o with
  | OCreate req rand now1 now2 now3 =>
      let '(h, m, p, e) := Create h m req rand now1 now2 now3 in (h, m, RValue (value_at h p) e, reach_at h p)
  | OGet id => let '(h, p, e) := Get h m id in (h, m, RValue (value_at h p) e, reach_at h p)
  | OList order => let '(h, ps) := List h m order in (h, m, RValues (value_at h <$> ps), mjoin (reach_at h <$> ps))
  | OListByOwner owner order => let '(h, ps) := ListByOwner h m owner order in (h, m, RValues (value_at h <$> ps), mjoin (reach_at h <$> ps))
  | OListByNode node order => let '(h, ps) := ListByNode h m node order in (h, m, RValues (value_at h <$> ps), mjoin (reach_at h <$> ps))
  | OAttach id now => let '(h, m, e) := Attach h m id now in (h, m, RErr e, [])
  | ODetach id now => let '(h, m, e) := Detach h m id now in (h, m, RErr e, [])
  | OTerminate id now => let '(h, m, e) := Terminate h m id now in (h, m, RErr e, [])
  | OMigrate id node now => let '(h, m, e) := Migrate h m id node now in (h, m, RErr e, [])
  | OReap d now => let '(m, n) := ReapOlderThan h m d now in (h, m, RCount n, [])
  | OResize id pane rows cols => let '(m, e) := ResizePTY h m id pane rows cols in (h, m, RErr e, [])
  | OSend id pane input => let '(m, e) := SendInput h m id pane input in (h, m, RErr e, [])
  | OUsage id => (h, m, RErr (GetResourceUsage h m id), [])
  | OUpdate id fn _ now => let '(h, p, e) := Update h m id fn now in (h, m, RValue (value_at h p) e, reach_at h p)
  end.

(** A function for [Update] that keeps to the session it is given: it writes
    and keeps the session's own memory or new memory only. *)
Definition tame (fn : heap -> Session -> heap * Session) (g : session_value -> session_value) : Prop :=
  forall h s, below (next h) (session_reach h s) ->
    let '(h', s') := fn h s in
    session_val h' s' = g (session_val h s) /\ (next h <= next h')%nat /\
    (forall l, (l < next h)%nat -> l ∉ session_reach h s -> objs h' !! l = objs h !! l) /\
    forall l, l ∈ session_reach h' s' -> l ∈ session_reach h s \/ (next h <= l < next h')%nat.

(** The arguments of a call: pointers are to memory that exists. *)
Definition op_fine (h : heap) (o : op) : Prop :=
  match o with
  | OCreate req _ _ _ _ => below (next h) (ptr (rq_GPURequest req) ++ ptr (rq_Environment req) ++ ptr (rq_Labels req))
  | OUpdate _ fn g _ => tame fn g
  | _ => True
  end.

(** A handler call without its pointer. *)
Definition by_value {P} (c : handler_call P) : handler_call unit :=
  match c with CallCreate _ id => CallCreate () id | CallMigrate _ id from to => CallMigrate () id from to | CallTerminate id => CallTerminate id end.

Definition table (h : heap) (m : Manager) : Table :=
  mkTable (abs h (sessions m)) (tmuxBackend m) (onCreate m) (onMigrate m) (onTerminate m) (by_value <$> calls m).

(** The calls that return the stored session itself: a [Create] that the
    backend refused. *)
Definition returns_stored (o : op) (r : result) : bool := match o, r with OCreate _ _ _ _ _, RValue _ (Some ErrBackend) => true | _, _ => false end.

(** What one operation does, as seen from the table. *)
Definition refines (h : heap) (m : Manager) (o : op) : Prop :=
  let '(h', m', r, out) := exec h m o in
  owns h' (sessions m') /\ spec h (table h m) o = (table h' m', r) /\ (next h <= next h')%nat /\
  (forall x, owned h' (sessions m') x -> owned h (sessions m) x \/ (next h <= x)%nat) /\
  (forall x, x ∈ (if returns_stored o r then [] else out) -> (next h <= x < next h')%nat /\ ~ owned h' (sessions m') x).

(** ** Each operation *)

Lemma stored_cases h (m : Manager) id :
  owns h (sessions m) ->
  (stored h m id = None /\ abs h (sessions m) !! id = None /\ sessions m !! id = None) \/
  exists l s, sessions m !! id = Some l /\ rd_session h l = Some s /\ stored h m id = Some (l, s) /\ abs h (sessions m) !! id = Some (session_val h s) /\
    l ∉ session_reach h s /\ (l < next h)%nat /\ below (next h) (session_reach h s) /\ foot h l = l :: session_reach h s.
Proof.
  intros [H1 _]. unfold stored, abs. rewrite lookup_omap. destruct (sessions m !! id) as [l|] eqn:El; [|by left]. right. destruct (H1 id l El) as (s & Hs & Hni & Hb).
  exists l, s. unfold foot in *. cbn. rewrite Hs in *. cbn. apply Forall_cons in Hb as [Hl Hb]. done.
Qed.

(** A session that is written keeps its memory. *)
Lemma write_session h (m : Manager) id l s s1 :
  owns h (sessions m) -> sessions m !! id = Some l -> rd_session h l = Some s -> GPURequest s1 = GPURequest s -> Windows s1 = Windows s -> Environment s1 = Environment s -> Labels s1 = Labels s ->
  owns (wr_session h l s1) (sessions m) /\
  abs (wr_session h l s1) (sessions m) = <[id := mkSessionValue (bare s1) (v_gpu (session_val h s)) (v_windows (session_val h s)) (v_env (session_val h s)) (v_labels (session_val h s))]> (abs h (sessions m)) /\
  (forall x, owned (wr_session h l s1) (sessions m) x -> owned h (sessions m) x \/ (next h <= x)%nat).
Proof.
  intros Ho Hl Hs Eg Ew Ee El. destruct (owns_session _ _ Ho id l Hl) as (s' & Hs' & Hni & Hb). rewrite Hs in Hs'. injection Hs' as <-.
  assert (forall x, x <> l -> objs (wr_session h l s1) !! x = objs h !! x) as Hx by (intros x Hx; by apply lookup_insert_ne).
  assert (agree h (wr_session h l s1) (session_reach h s)) as Ha by (intros x Hin; apply Hx; congruence). destruct (framed h (wr_session h l s1) s Ha) as [Hv Hr].
  assert (session_reach (wr_session h l s1) s1 = session_reach h s) as Hr1 by (rewrite <- Hr; unfold session_reach; by rewrite Eg, Ew, Ee, El).
  assert (rd_session (wr_session h l s1) l = Some s1) as Hs1 by (unfold rd_session; cbn; by rewrite lookup_insert_eq).
  assert (session_val (wr_session h l s1) s1 = mkSessionValue (bare s1) (v_gpu (session_val h s)) (v_windows (session_val h s)) (v_env (session_val h s)) (v_labels (session_val h s))) as <-.
  { rewrite <- Hv. unfold session_val. cbn. by rewrite Eg, Ew, Ee, El. }
  assert (foot (wr_session h l s1) l = foot h l) as Hf by (unfold foot; by rewrite Hs1, Hs, Hr1).
  pose proof (owns_put h (wr_session h l s1) (sessions m) id l s1) as H. rewrite insert_id in H by done. apply H; [done|done|done|by rewrite Hr1|by rewrite Hf| |].
  - intros x Hin. right. exists l. by rewrite <- Hf.
  - intros id' l' x Hne Hl' Hin. apply Hx. intros ->. eapply (owns_apart _ _ Ho id id' l l' l); [done|done|done|left|done].
Qed.

Lemma copy_out h (ss : gmap string loc) s :
  owns h ss -> below (next h) (session_reach h s) ->
  let '(h', p) := copySession h s in
  owns h' ss /\ abs h' ss = abs h ss /\ (next h <= next h')%nat /\ (forall x, owned h' ss x <-> owned h ss x) /\ value_at h' p = Some (session_val h s) /\ extends h h' /\
  forall x, x ∈ reach_at h' p -> (next h <= x < next h')%nat /\ ~ owned h' ss x.
Proof.
  intros Ho Hb. pose proof (copySession_spec h s Hb) as H. destruct (copySession h s) as [h' p]. destruct H as (HE & l & s' & -> & Hs & Hv & Hbt).
  destruct (owns_extends h h' ss Ho HE) as (Ho' & Ha & Hown). split_and!; [done|done|apply HE|done|cbn; by rewrite Hs; cbn; rewrite Hv|done|].
  intros x Hx. unfold reach_at, foot in Hx. rewrite Hs in Hx. unfold between in Hbt. rewrite Forall_forall in Hbt. specialize (Hbt x Hx). split; [done|].
  rewrite Hown. intros Hc. apply owned_below in Hc; [|done]. lia.
Qed.

Lemma refines_get h (m : Manager) id : owns h (sessions m) -> refines h m (OGet id).
Proof.
  intros Ho. unfold refines, exec, Get, spec, table. destruct (stored_cases h m id Ho) as [(-> & E & _)|(l & s & _ & _ & -> & E & _ & _ & Hb & _)]; cbn [t_sessions]; rewrite E.
  - split_and!; [done|done|done|auto|by intros x ?%elem_of_nil].
  - pose proof (copy_out h (sessions m) s Ho Hb) as H. destruct (copySession h s) as [h' p]. destruct H as (Ho' & -> & Hn & Hown & -> & _ & Hout).
    split_and!; [done|done|done|intros x Hx; left; by apply Hown|done].
Qed.

Lemma copy_where_spec (p : Session -> bool) h (m : Manager) order :
  (forall s, p (bare s) = p s) -> owns h (sessions m) ->
  let '(h', ps) := copy_where p h m order in
  owns h' (sessions m) /\ abs h' (sessions m) = abs h (sessions m) /\ extends h h' /\ (forall x, owned h' (sessions m) x <-> owned h (sessions m) x) /\
  value_at h' <$> ps = Some <$> filter (fun v => p (v_session v) = true) (omap (fun id => abs h (sessions m) !! id) order) /\
  forall x, x ∈ mjoin (reach_at h' <$> ps) -> (next h <= x < next h')%nat /\ ~ owned h' (sessions m) x.
Proof.
  intros Hp. revert h. induction order as [|id order IH]; intros h Ho; [split_and!; (done || by intros x ?%elem_of_nil)|]. cbn [copy_where omap list_omap].
  destruct (stored_cases h m id Ho) as [(-> & E & _)|(l & s & _ & _ & -> & E & _ & _ & Hb & _)]; rewrite E; [by apply IH|]. destruct (p s) eqn:Eps.
  - pose proof (copy_out h (sessions m) s Ho Hb) as H. destruct (copySession h s) as [h1 c]. destruct H as (Ho1 & A1 & N1 & O1 & V1 & E1 & R1).
    specialize (IH h1 Ho1). destruct (copy_where p h1 m order) as [h2 ps]. destruct IH as (Ho2 & A2 & E2 & O2 & V2 & R2). rewrite A1 in V2, A2.
    assert (below (next h1) (reach_at h1 c)) as Hbc by (apply Forall_forall; intros x Hx; apply R1 in Hx; lia).
    assert (value_at h2 c = value_at h1 c /\ reach_at h2 c = reach_at h1 c) as [Vc Rc].
    { destruct c as [lc|]; [|done]. cbn in *. destruct (foot_frame h1 h2 lc) as (_ & -> & ->); [by eapply extends_agree|done]. }
    split_and!; [done|done|by etrans|intros x; by rewrite O2|..].
    + rewrite filter_cons_True by (cbn; by rewrite Hp). rewrite !fmap_cons. rewrite Vc, V1. f_equal. done.
    + rewrite fmap_cons. cbn. rewrite Rc. intros x [Hx|Hx]%elem_of_app; [|apply R2 in Hx as [? ?]; split; [destruct E1; lia|done]].
      apply R1 in Hx as [? Hn]. split; [destruct E2; lia|]. by rewrite O2.
  - rewrite filter_cons_False by (cbn; rewrite Hp; congruence). by apply IH.
Qed.

Lemma filter_everything {A} (l : list A) : filter (fun _ => true = true) l = l.
Proof. induction l as [|a l IH]; [done|]. rewrite filter_cons_True by done. by rewrite IH. Qed.

Lemma refines_where (p : Session -> bool) h (m : Manager) order vs :
  (forall s, p (bare s) = p s) -> owns h (sessions m) ->
  filter (fun v => p (v_session v) = true) (omap (fun id => abs h (sessions m) !! id) order) = vs ->
  let '(h', ps) := copy_where p h m order in
  owns h' (sessions m) /\ (table h m, RValues (Some <$> vs)) = (table h' m, RValues (value_at h' <$> ps)) /\ (next h <= next h')%nat /\
  (forall x, owned h' (sessions m) x -> owned h (sessions m) x \/ (next h <= x)%nat) /\
  (forall x, x ∈ mjoin (reach_at h' <$> ps) -> (next h <= x < next h')%nat /\ ~ owned h' (sessions m) x).
Proof.
  intros Hp Ho <-. pose proof (copy_where_spec p h m order Hp Ho) as H. destruct (copy_where p h m order) as [h' ps]. destruct H as (Ho' & Ha & HE & Hown & Hv & Hr).
  split_and!; [done| |apply HE|intros x Hx; left; by apply Hown|done]. unfold table. by rewrite Ha, Hv.
Qed.

Lemma refines_lists h (m : Manager) order owner node : owns h (sessions m) -> refines h m (OList order) /\ refines h m (OListByOwner owner order) /\ refines h m (OListByNode node order).
Proof.
  intros Ho. unfold refines, exec, List, ListByOwner, ListByNode, spec. cbn [t_sessions table]. split_and!.
  - pose proof (refines_where (fun _ => true) h m order _ (fun _ => eq_refl) Ho eq_refl) as H. destruct (copy_where _ h m order) as [h' ps]. destruct H as (H1 & H2 & H3 & H4 & H5).
    split_and!; [done| |done..]. rewrite <- H2. do 3 f_equal. symmetry. apply filter_everything.
  - pose proof (refines_where (fun s => bool_decide (Owner s = owner)) h m order _ (fun _ => eq_refl) Ho eq_refl) as H. destruct (copy_where _ h m order) as [h' ps]. destruct H as (H1 & H2 & H3 & H4 & H5).
    split_and!; [done| |done..]. rewrite <- H2. do 3 f_equal. apply list_filter_iff. intros v. by rewrite bool_decide_eq_true.
  - pose proof (refines_where (fun s => bool_decide (NodeID s = node)) h m order _ (fun _ => eq_refl) Ho eq_refl) as H. destruct (copy_where _ h m order) as [h' ps]. destruct H as (H1 & H2 & H3 & H4 & H5).
    split_and!; [done| |done..]. rewrite <- H2. do 3 f_equal. apply list_filter_iff. intros v. by rewrite bool_decide_eq_true.
Qed.

Lemma touch_session h (m : Manager) id l s st node now :
  owns h (sessions m) -> sessions m !! id = Some l -> rd_session h l = Some s ->
  owns (wr_session h l (touch s st node now)) (sessions m) /\
  abs (wr_session h l (touch s st node now)) (sessions m) = <[id := v_touch (session_val h s) st node now]> (abs h (sessions m)) /\
  (forall x, owned (wr_session h l (touch s st node now)) (sessions m) x -> owned h (sessions m) x \/ (next h <= x)%nat).
Proof. intros Ho Hl Hs. by apply (write_session h m id l s). Qed.

Ltac same_table := split_and!; [done|done|done|auto|by intros ? ?%elem_of_nil].

Lemma refines_attach h (m : Manager) id now : owns h (sessions m) -> refines h m (OAttach id now) /\ refines h m (ODetach id now).
Proof.
  intros Ho. unfold refines, exec, Attach, Detach, spec, t_act. cbn [t_sessions t_backend table].
  destruct (stored_cases h m id Ho) as [(-> & E & _)|(l & s & Hl & Hs & -> & E & _)]; rewrite E; [split; same_table|]. cbn [v_session session_val bare Status NodeID].
  destruct (touch_session h m id l s (Status s) (NodeID s) now Ho Hl Hs) as (Ho' & Ha & Hown). split.
  - destruct (validateTransition (Status s) actionAttach); [same_table|]. destruct (call _ _) as [b [|]]; [|same_table]. split_and!; [done| |done|done|by intros ? ?%elem_of_nil].
    unfold table. cbn [sessions with_backend]. by rewrite Ha.
  - destruct (validateTransition (Status s) actionDetach); [same_table|]. destruct (call _ _) as [b [|]]; [|same_table]. split_and!; [done| |done|done|by intros ? ?%elem_of_nil].
    unfold table. cbn [sessions with_backend]. by rewrite Ha.
Qed.

Lemma sessions_notify (m : Manager) set c : sessions (notify m set c) = sessions m.
Proof. by destruct set. Qed.

Lemma table_notify h (m : Manager) set c : table h (notify m set c) = t_notify (table h m) set (by_value c).
Proof. destruct set; [|done]. unfold notify, table, t_notify. cbn. by rewrite fmap_app. Qed.

Lemma refines_terminate h (m : Manager) id now : owns h (sessions m) -> refines h m (OTerminate id now).
Proof.
  intros Ho. unfold refines, exec, Terminate, spec, t_act. cbn [t_sessions t_backend table].
  destruct (stored_cases h m id Ho) as [(-> & E & _)|(l & s & Hl & Hs & -> & E & _)]; rewrite E; [same_table|]. cbn [v_session session_val bare Status NodeID].
  destruct (touch_session h m id l s StatusTerminated (NodeID s) now Ho Hl Hs) as (Ho' & Ha & Hown).
  destruct (validateTransition (Status s) actionTerminate); [same_table|]. destruct (call _ _) as [b [|]]; [|same_table]. rewrite sessions_notify.
  split_and!; [done| |done|done|by intros ? ?%elem_of_nil]. rewrite table_notify. unfold table. cbn [sessions with_backend]. by rewrite Ha.
Qed.

Lemma refines_migrate h (m : Manager) id node now : owns h (sessions m) -> refines h m (OMigrate id node now).
Proof.
  intros Ho. unfold refines, exec, Migrate, spec, t_act. cbn [t_sessions t_backend table].
  destruct (stored_cases h m id Ho) as [(-> & E & _)|(l & s & Hl & Hs & -> & E & _)]; rewrite E; [same_table|]. cbn [v_session session_val bare Status NodeID].
  destruct (touch_session h m id l s StatusMigrating node now Ho Hl Hs) as (Ho' & Ha & Hown).
  destruct (validateTransition (Status s) actionMigrate); [same_table|]. rewrite sessions_notify. split_and!; [done| |done|done|by intros ? ?%elem_of_nil].
  rewrite table_notify. unfold table. rewrite Ha. cbn [call]. by destruct (tmuxBackend m).
Qed.

Lemma refines_io h (m : Manager) id pane rows cols input :
  owns h (sessions m) -> refines h m (OResize id pane rows cols) /\ refines h m (OSend id pane input) /\ refines h m (OUsage id).
Proof.
  intros Ho. unfold refines, exec, ResizePTY, SendInput, GetResourceUsage, spec. cbn [t_sessions t_backend table].
  destruct (stored_cases h m id Ho) as [(-> & E & _)|(l & s & Hl & Hs & -> & E & _)]; rewrite E; [split; [same_table|split; same_table]|]. cbn [v_session session_val bare Status NodeID].
  destruct (decide (Status s <> StatusRunning)) as [Hst|Hst]; [split; [same_table|split; same_table]|]. split; [|split; [|same_table]]; destruct (call _ _) as [b ok]; same_table.
Qed.

Lemma refines_update h (m : Manager) id fn g now : owns h (sessions m) -> tame fn g -> refines h m (OUpdate id fn g now).
Proof.
  intros Ho Ht. unfold refines, exec, Update, spec. cbn [t_sessions t_backend table].
  destruct (stored_cases h m id Ho) as [(-> & E & _)|(l & s & Hl & Hs & -> & E & Hni & Hlt & Hb & Hf)]; rewrite E; [same_table|]. specialize (Ht h s Hb). destruct (fn h s) as [h1 s1].
  destruct Ht as (Hv & Hn & Hfr & Hre). set (s2 := touch s1 (Status s1) (NodeID s1) now). set (h2 := wr_session h1 l s2).
  assert (l ∉ session_reach h1 s1) as Hni1 by (intros Hc; destruct (Hre l Hc); [done|lia]).
  assert (agree h1 h2 (session_reach h1 s1)) as Ha by (intros x Hx; apply lookup_insert_ne; congruence). destruct (framed h1 h2 s1 Ha) as [Hv2 Hr2].
  assert (session_reach h2 s2 = session_reach h1 s1) as Hr by (rewrite <- Hr2; done).
  assert (session_val h2 s2 = v_touch (g (session_val h s)) (Status (v_session (g (session_val h s)))) (NodeID (v_session (g (session_val h s)))) now) as Hval.
  { rewrite <- Hv, <- Hv2. done. }
  assert (rd_session h2 l = Some s2) as Hs2 by (unfold rd_session, h2; cbn; by rewrite lookup_insert_eq).
  assert (foot h2 l = l :: session_reach h1 s1) as Hf2 by (unfold foot; by rewrite Hs2, Hr).
  pose proof (owns_put h h2 (sessions m) id l s2 Ho Hn Hs2) as Hput. rewrite insert_id, Hr, Hf2 in Hput by done. destruct Hput as (Ho2 & Ha2 & Hown2).
  - done.
  - constructor; [cbn; lia|]. apply Forall_forall. intros x Hx. cbn. destruct (Hre x Hx) as [Hx'|]; [|lia]. unfold below in Hb. rewrite Forall_forall in Hb. specialize (Hb x Hx'). lia.
  - intros x [->|Hx]%elem_of_cons; [right; exists l; split; [done|]; rewrite Hf; left|]. destruct (Hre x Hx) as [Hx'|]; [|left; lia]. right. exists l. split; [done|]. rewrite Hf. by right.
  - intros id' l' x Hne Hl' Hx. assert (x ∉ foot h l) as Hnx by (by apply (owns_apart _ _ Ho id' id l' l x)). rewrite Hf, not_elem_of_cons in Hnx.
    destruct Hnx as [Hxl Hxr]. unfold h2. cbn. rewrite lookup_insert_ne by done. apply Hfr; [|done]. eapply owned_below; [exact Ho|by exists id', l'].
  - pose proof (copy_out h2 (sessions m) s2 Ho2) as Hcp. rewrite Hr in Hcp. destruct (copySession h2 s2) as [h3 p]. destruct Hcp as (Ho3 & Ha3 & Hn3 & Hown3 & Hv3 & _ & Hout).
    { apply Forall_forall. intros x Hx. cbn. destruct (Hre x Hx) as [Hx'|]; [|lia]. unfold below in Hb. rewrite Forall_forall in Hb. specialize (Hb x Hx'). lia. }
    change (next h2) with (next h1) in *. split_and!; [done| |lia|intros x Hx; apply Hown2; by apply Hown3|intros x Hx; destruct (Hout x Hx); split; [lia|done]].
    unfold table. rewrite Ha3, Ha2, Hv3, Hval. done.
Qed.

(** The sessions that [ReapOlderThan] takes. *)
Definition reaped (h : heap) (d now : Z) (l : loc) : bool := match rd_session h l with Some s => bool_decide (reapable d now (session_val h s)) | None => false end.

Lemma reap_one_spec h d now st id l : reap_one h d now st id l = if reaped h d now l then (delete id st.1, st.2 + 1) else st.
Proof.
  unfold reap_one, reaped. destruct (rd_session h l) as [s|]; [|done]. unfold reapable. cbn [v_session session_val bare Status UpdatedAt].
  destruct (decide (Status s <> StatusTerminated)) as [H1|H1]; [rewrite bool_decide_eq_false_2 by tauto; done|].
  destruct (decide (d > 0 /\ UpdatedAt s > now - d)) as [H2|H2]; [rewrite bool_decide_eq_false_2 by tauto; done|].
  rewrite bool_decide_eq_true_2; [done|]. split; [|done]. by apply dec_stable.
Qed.

Lemma reap_fold h d now (L : list (string * loc)) ss n :
  let st := foldl (fun st kv => reap_one h d now st kv.1 kv.2) (ss, n) L in
  (forall k, st.1 !! k = if decide (k ∈ (filter (fun kv => reaped h d now kv.2 = true) L).*1) then None else ss !! k) /\
  st.2 = n + Z.of_nat (length (filter (fun kv => reaped h d now kv.2 = true) L)).
Proof.
  cbn. revert ss n. induction L as [|[id l] L IH]; intros ss n; [split; [done|cbn; lia]|]. cbn [foldl fst snd]. rewrite reap_one_spec. destruct (reaped h d now l) eqn:Er.
  - rewrite filter_cons_True by done. destruct (IH (delete id ss) (n + 1)) as [H1 H2]. cbn [fst snd] in *. split; [|rewrite H2; cbn; lia]. intros k. rewrite H1, fmap_cons. cbn [fst].
    destruct (decide (k = id)) as [->|Hne]; [rewrite lookup_delete_eq, (decide_True (P := id ∈ id :: _)) by left; by case_decide|]. rewrite lookup_delete_ne by done.
    destruct (decide (k ∈ (filter _ L).*1)) as [Hk|Hk], (decide (k ∈ id :: _)) as [Hk'|Hk']; try done; exfalso; rewrite elem_of_cons in Hk'; tauto.
  - rewrite filter_cons_False by (cbn; congruence). apply IH.
Qed.

Lemma ReapOlderThan_spec h (m : Manager) d now :
  ReapOlderThan h m d now =
  (with_sessions m (filter (fun kv => reaped h d now kv.2 = false) (sessions m)), Z.of_nat (size (filter (fun kv => reaped h d now kv.2 = true) (sessions m)))).
Proof.
  unfold ReapOlderThan, range_fold. pose proof (reap_fold h d now (map_to_list (sessions m)) (sessions m) 0) as H. destruct (foldl _ _ _) as [ss n]. cbn in H. destruct H as [H1 ->]. f_equal.
  - f_equal. apply map_eq. intros k. rewrite H1, map_lookup_filter. destruct (decide (k ∈ _)) as [Hk|Hk].
    + apply list_elem_of_fmap in Hk as ([k' l] & -> & Hk). apply list_elem_of_filter in Hk as [Hr Hk]. apply elem_of_map_to_list in Hk. cbn in *. rewrite Hk. cbn. by rewrite Hr.
    + destruct (sessions m !! k) as [l|] eqn:El; [|done]. cbn. destruct (reaped h d now l) eqn:Er; [|done]. destruct Hk. apply list_elem_of_fmap. exists (k, l). split; [done|].
      apply list_elem_of_filter. split; [done|]. by apply elem_of_map_to_list.
  - rewrite Z.add_0_l. f_equal. rewrite <- length_map_to_list. apply Permutation_length. apply NoDup_Permutation.
    + apply NoDup_filter, NoDup_map_to_list.
    + apply NoDup_map_to_list.
    + intros [k l]. rewrite list_elem_of_filter, !elem_of_map_to_list, map_lookup_filter_Some. naive_solver.
Qed.

Lemma abs_lookup h ss id : abs h ss !! id = l ← ss !! id; session_val h <$> rd_session h l.
Proof. apply lookup_omap. Qed.

Lemma refines_reap h (m : Manager) d now : owns h (sessions m) -> refines h m (OReap d now).
Proof.
  intros Ho. unfold refines, exec, spec. cbn [t_sessions t_backend table]. rewrite ReapOlderThan_spec. cbn [sessions with_sessions].
  destruct (owns_subset h (sessions m) (filter (fun kv => reaped h d now kv.2 = false) (sessions m)) Ho (map_filter_subseteq _ _)) as [Ho' Hown].
  assert (forall id l, sessions m !! id = Some l -> exists s, rd_session h l = Some s /\ abs h (sessions m) !! id = Some (session_val h s) /\
    (reaped h d now l = true <-> reapable d now (session_val h s))) as Hs.
  { intros id l Hl. destruct (owns_session _ _ Ho id l Hl) as (s & Hs & _). exists s. split; [done|]. unfold abs, reaped. rewrite lookup_omap, Hl. cbn. rewrite Hs. cbn. by rewrite bool_decide_eq_true. }
  assert (forall id, sessions m !! id = None -> abs h (sessions m) !! id = None) as Hnone by (intros id E; unfold abs; by rewrite lookup_omap, E).
  split_and!; [done| |done|intros x Hx; left; by apply Hown|by intros ? ?%elem_of_nil]. f_equal.
  - unfold table, t_with. cbn [sessions with_sessions t_onCreate t_onMigrate t_onTerminate t_calls]. f_equal. apply map_eq. intros id. rewrite map_lookup_filter, (abs_lookup h (filter _ _)), map_lookup_filter.
    destruct (sessions m !! id) as [l|] eqn:El; [|by rewrite Hnone]. destruct (Hs id l El) as (s & Hrd & -> & Hr). cbn. destruct (reaped h d now l).
    + rewrite option_guard_False by tauto. done.
    + rewrite !option_guard_True by (done || (intros Hc; by apply Hr in Hc)). cbn. by rewrite Hrd.
  - do 2 f_equal. rewrite <- (size_dom (D := gset string) (filter _ (abs h (sessions m)))), <- (size_dom (D := gset string) (filter _ (sessions m))). f_equal.
    apply set_eq. intros id. rewrite !elem_of_dom, !map_lookup_filter.
    destruct (sessions m !! id) as [l|] eqn:El; [|rewrite (Hnone id El); cbn; split; by intros [? ?]]. destruct (Hs id l El) as (s & Hrd & -> & Hr). cbn. destruct (reaped h d now l).
    + rewrite !option_guard_True by (done || tauto). split; intros _; by eexists.
    + rewrite !option_guard_False by (done || (intros Hc; by apply Hr in Hc)). cbn. split; by intros [? ?].
Qed.

(** The session that [Create] stores, with all it reaches, is new. *)
Lemma new_session h h3 env labels gpu req id st now2 now3 :
  extends h h3 -> between (next h) (next h3) (ptr env ++ ptr labels ++ ptr gpu) ->
  rd_map h3 env = rd_map h (rq_Environment req) -> rd_map h3 labels = rd_map h (rq_Labels req) -> rd_strings h3 gpu = rd_strings h (rq_GPURequest req) ->
  let s := mkSession id (rq_Name req) (rq_Owner req) st (rq_Backend req) EmptyString now2 now3 (rq_CPURequest req) (rq_MemoryRequest req) gpu None env labels in
  exists h4, alloc h3 (OSession s) = (h4, Some (next h3)) /\ extends h h4 /\ session_val h4 s = v_new h req id st now2 now3 /\ rd_session h4 (next h3) = Some s /\
    next h3 ∉ session_reach h4 s /\ below (next h4) (session_reach h4 s) /\ between (next h) (next h4) (foot h4 (next h3)).
Proof.
  intros HE Hb Ve Vl Vg s. destruct (alloc_spec h3 (OSession s)) as (h4 & -> & E4 & _ & Er & N4). exists h4. assert (rd_session h4 (next h3) = Some s) as Hs by (unfold rd_session; cbn in Er; by rewrite Er).
  assert (session_reach h4 s = ptr env ++ ptr labels ++ ptr gpu) as Hr by (unfold session_reach; cbn; by rewrite app_nil_r). pose proof (between_below _ _ _ Hb) as Hb3.
  split_and!; [done|by etrans| |done| | |].
  - unfold below in Hb3. rewrite !Forall_app in Hb3. destruct Hb3 as (? & ? & ?). unfold session_val, v_new, rd_map, rd_strings in *. cbn -[rd]. rewrite !(rd_later h3 h4), Ve, Vl, Vg by done. done.
  - rewrite Hr. intros Hc. unfold below in Hb3. rewrite Forall_forall in Hb3. specialize (Hb3 _ Hc). cbn in Hb3. lia.
  - rewrite Hr. eapply below_mono; [|exact Hb3]. lia.
  - unfold foot. rewrite Hs, Hr. constructor; [destruct HE; lia|]. eapply between_mono; [| |exact Hb]; lia.
Qed.

Lemma refines_create h (m : Manager) req rand now1 now2 now3 :
  owns h (sessions m) -> op_fine h (OCreate req rand now1 now2 now3) -> refines h m (OCreate req rand now1 now2 now3).
Proof.
  intros Ho Hf. cbn in Hf. unfold below in Hf. rewrite !Forall_app in Hf. destruct Hf as (Hb1 & Hb2 & Hb3). unfold refines, exec, Create. destruct rand as [rb|]; [|same_table].
  pose proof (new_map_spec h (rq_Environment req)) as H1. destruct (new_map_from h (rq_Environment req)) as [h1 env]. destruct H1 as (E1 & B1 & V1 & _).
  pose proof (new_map_spec h1 (rq_Labels req)) as H2. destruct (new_map_from h1 (rq_Labels req)) as [h2 labels]. destruct H2 as (E2 & B2 & V2 & _).
  pose proof (copy_strings_spec h2 (rq_GPURequest req)) as H3. destruct (copy_strings h2 (rq_GPURequest req)) as [h3 gpu]. destruct H3 as (E3 & B3 & V3).
  assert (extends h h2) as E02 by (by etrans). assert (extends h h3) as E03 by (by etrans). assert (extends h1 h3) as E13 by (by etrans).
  cbn [spec t_backend table]. unfold rd_map at 1. rewrite (rd_later h h3) by done. fold (rd_map h (rq_Environment req)). set (id := session_id now1 rb). destruct (call _ _) as [b ok].
  assert (between (next h) (next h3) (ptr env ++ ptr labels ++ ptr gpu)) as Hbt.
  { destruct E1, E2, E3. repeat (apply Forall_app; split); (eapply between_mono; [| |eassumption]; lia). }
  assert (rd_map h3 env = rd_map h (rq_Environment req)) as Ve by (unfold rd_map in *; rewrite (rd_later h1 h3), V1; (done || by eapply between_below)).
  assert (rd_map h3 labels = rd_map h (rq_Labels req)) as Vl by (unfold rd_map in *; rewrite (rd_later h2 h3), V2, (rd_later h h1); (done || by eapply between_below)).
  assert (rd_strings h3 gpu = rd_strings h (rq_GPURequest req)) as Vg by (unfold rd_strings in *; rewrite V3, (rd_later h h2); done).
  assert (forall h4 s, extends h h4 -> rd_session h4 (next h3) = Some s -> next h3 ∉ session_reach h4 s -> between (next h) (next h4) (foot h4 (next h3)) ->
    owns h4 (<[id := next h3]> (sessions m)) /\ abs h4 (<[id := next h3]> (sessions m)) = <[id := session_val h4 s]> (abs h (sessions m)) /\
    (forall x, owned h4 (<[id := next h3]> (sessions m)) x -> owned h (sessions m) x \/ (next h <= x)%nat)) as Hput.
  { intros h4 s E4 Hs Hni Hb. apply owns_put; [done|apply E4|done|done|by eapply between_below| |].
    - intros x Hx. left. unfold between in Hb. rewrite Forall_forall in Hb. by apply Hb in Hx as [? _].
    - intros id' l' x _ Hl' Hx. apply E4. eapply owned_below; [exact Ho|by exists id', l']. }
  unfold touch. destruct ok; cbn [ID Name Owner Status Backend CreatedAt CPURequest MemoryRequest GPURequest Windows Environment Labels].
  - destruct (new_session h h3 env labels gpu req id StatusRunning now2 now3 E03 Hbt Ve Vl Vg) as (h4 & -> & E4 & Hv & Hs & Hni & Hbl & Hb4). destruct (Hput h4 _ E4 Hs Hni Hb4) as (Ho4 & Ha4 & Hown4).
    match goal with |- context [copySession h4 ?s] => pose proof (copy_out h4 (<[id := next h3]> (sessions m)) s Ho4 Hbl) as Hcp; destruct (copySession h4 s) as [h5 p] end.
    destruct Hcp as (Ho5 & Ha5 & Hn5 & Hown5 & Hv5 & _ & Hout). rewrite sessions_notify. cbn [sessions with_sessions with_backend]. destruct E4 as [N4 _].
    split_and!; [done| |lia|intros x Hx; apply Hown4; by apply Hown5|intros x Hx; destruct (Hout x Hx); split; [lia|done]].
    rewrite Hv5, Hv, table_notify. unfold table. cbn [sessions with_sessions with_backend]. by rewrite Ha5, Ha4, Hv.
  - destruct (new_session h h3 env labels gpu req id StatusFailed now2 now3 E03 Hbt Ve Vl Vg) as (h4 & -> & E4 & Hv & Hs & Hni & Hbl & Hb4). destruct (Hput h4 _ E4 Hs Hni Hb4) as (Ho4 & Ha4 & Hown4).
    cbn [sessions with_sessions with_backend value_at mbind option_bind]. split_and!; [done| |apply E4|done|by intros ? ?%elem_of_nil]. rewrite Hs. cbn [fmap option_fmap option_map]. rewrite Hv.
    unfold table. cbn [sessions with_sessions with_backend]. by rewrite Ha4, Hv.
Qed.

Lemma exec_refines h (m : Manager) o : owns h (sessions m) -> op_fine h o -> refines h m o.
Proof.
  intros Ho Hf. destruct o.
  - by apply refines_create.
  - by apply refines_get.
  - by apply (refines_lists h m order EmptyString EmptyString).
  - by apply (refines_lists h m order owner EmptyString).
  - by apply (refines_lists h m order EmptyString node).
  - by apply refines_attach.
  - by apply refines_attach.
  - by apply refines_terminate.
  - by apply refines_reap.
  - by apply refines_migrate.
  - by apply (refines_io h m id pane rows cols EmptyString).
  - by apply (refines_io h m id pane 0 0 input).
  - by apply (refines_io h m id EmptyString 0 0 EmptyString).
  - by apply refines_update.
Qed.

(** ** Callers *)

(** A call, in the heap it is made in, with its result and the memory the
    caller gets. *)
Inductive event := Call (h : heap) (o : op) (r : result) (out : list loc).

(** Calls of the manager, and between them anything that leaves the memory
    the manager owns alone: writes elsewhere and new objects. *)
Inductive runs : heap -> Manager -> list event -> heap -> Manager -> Prop :=
  | runs_end h m : runs h m [] h m
  | runs_call h m o h1 m1 r out evs h2 m2 : op_fine h o -> exec h m o = (h1, m1, r, out) -> runs h1 m1 evs h2 m2 -> runs h m (Call h o r out :: evs) h2 m2
  | runs_outside h m h1 evs h2 m2 : (forall x, owned h (sessions m) x -> objs h1 !! x = objs h !! x) -> (next h <= next h1)%nat -> runs h1 m evs h2 m2 -> runs h m evs h2 m2.

(** The table gives the same results and ends in this state. *)
Fixpoint explains (T : Table) (evs : list event) (T' : Table) : Prop :=
  match evs with
  | [] => T' = T
  | Call h o r _ :: evs => (spec h T o).2 = r /\ explains (spec h T o).1 evs T'
  end.

Lemma runs_spec h (m : Manager) evs h' m' :
  runs h m evs h' m' -> owns h (sessions m) ->
  explains (table h m) evs (table h' m') /\ (next h <= next h')%nat /\ (forall x, (x < next h)%nat -> owned h' (sessions m') x -> owned h (sessions m) x) /\
  forall hc o r out x, Call hc o r out ∈ evs -> x ∈ out -> returns_stored o r = false -> ~ owned h' (sessions m') x.
Proof.
  induction 1 as [h m|h m o h1 m1 r out evs h2 m2 Hf He Hr IH|h m h1 evs h2 m2 Hag Hn Hr IH]; intros Ho.
  - split_and!; [done|done|auto|by intros ? ? ? ? ? ?%elem_of_nil].
  - pose proof (exec_refines h m o Ho Hf) as H. unfold refines in H. rewrite He in H. destruct H as (Ho1 & Hsp & Hn1 & Hown1 & Hout). destruct (IH Ho1) as (Hex & Hn2 & Hown2 & Hrest).
    split_and!; [cbn; by rewrite Hsp|lia| |].
    + intros x Hx Hx2. apply Hown2 in Hx2; [|lia]. destruct (Hown1 x Hx2); [done|lia].
    + intros hc o' r' out' x [E|Hin]%elem_of_cons Hx Hns; [|by eapply Hrest]. injection E as -> -> -> ->. rewrite Hns in Hout. intros Hc. destruct (Hout x Hx) as [Hlt Hno]. apply Hno, Hown2; [lia|done].
  - destruct (owns_frame h h1 (sessions m) Ho Hag Hn) as (Ho1 & Ha & Hown). destruct (IH Ho1) as (Hex & Hn2 & Hown2 & Hrest). split_and!; [|lia| |done].
    + unfold table in Hex at 1. by rewrite Ha in Hex.
    + intros x Hx Hx2. apply Hown, Hown2; [lia|done].
Qed.

(** C14: The session manager is a table of values.  For every backend, any of
    whose operations may fail, handlers that do not write the sessions they are
    called with, and every sequence of calls on a manager without sessions (creating, reading, listing in any
    order, attaching, detaching, migrating, terminating, reaping, updating with
    a function that keeps to its session) between which other code writes only
    memory that is not part of a stored session: every call returns what a
    table of session values returns for it, by value; the life cycle, the
    backend calls and the handler calls are those of the table.  The memory
    that a call returns is never part of a stored session, unless the call is a
    [Create] that the backend refused, which returns the stored session itself;
    nor is any memory from before the manager.  So callers may write all they
    have, except a session returned with the error of the backend. *)
Theorem session_manager_refines_table (h h' : heap) (m m' : Manager) (evs : list event) :
  sessions m = ∅ -> runs h m evs h' m' ->
  explains (mkTable ∅ (tmuxBackend m) (onCreate m) (onMigrate m) (onTerminate m) (by_value <$> calls m)) evs (table h' m') /\
  (forall hc o r out x, Call hc o r out ∈ evs -> x ∈ out -> returns_stored o r = false -> ~ owned h' (sessions m') x) /\
  (forall x, (x < next h)%nat -> ~ owned h' (sessions m') x).
Proof.
  intros Hm Hr. assert (owns h (sessions m)) as Ho by (rewrite Hm; split; [by intros id l ?%lookup_empty_Some|by intros id id' l l' x ?%lookup_empty_Some]).
  destruct (runs_spec h m evs h' m' Hr Ho) as (Hex & _ & Hown & Hout). split_and!; [|done|].
  - unfold table in Hex at 1. rewrite Hm in Hex. exact Hex.
  - intros x Hx Hc. apply Hown in Hc; [|done]. destruct Hc as (id & l & Hl & _). by rewrite Hm, lookup_empty in Hl.
Qed.

End refinement.

Module SessionManagerDemo.

(** A backend that accepts everything, or refuses to create. *)
#[local] Instance demo_backend : TmuxBackend bool := {|
  CreateSession b _ _ := (b, b); AttachSession b _ := (b, true); DetachSession b _ := (b, true); KillSession b _ := (b, true);
  ResizePane b _ _ _ _ := (b, true); SendKeys b _ _ _ := (b, true) |}.

Definition demo_heap : heap := mkHeap {[ 0%nat := OMap {[ "k" := "v" ]} ]} 1.
Definition demo_req : CreateRequest := mkRequest "n" "o" "tmux" 1 1 None (Some 0%nat) None.
Definition demo_id : string := session_id 5 [].

(** The caller creates a session, changes the map of its request, and reads
    the session back. *)
Definition demo_create := exec demo_heap (NewManager (Some true)) (OCreate demo_req (Some []) 5 5 5).
Definition demo_scribble : heap := mkHeap (<[0%nat := OMap {[ "k" := "x" ]}]> (objs demo_create.1.1.1)) (next demo_create.1.1.1).
Definition demo_get := exec demo_scribble demo_create.1.1.2 (OGet demo_id).

Lemma owned_here (h : heap) (ss : gmap string loc) x : owned h ss x -> x ∈ mjoin ((fun kl => foot h kl.2) <$> map_to_list ss).
Proof.
  intros (id & l & Hl & Hx). apply list_elem_of_join. exists (foot h l). split; [done|]. apply list_elem_of_fmap. exists (id, l). split; [done|]. by apply elem_of_map_to_list.
Qed.

Lemma session_manager_refines_table_witness :
  exists r v, demo_get.1.2 = r /\ r = RValue (Some v) None /\ v_env v = {[ "k" := "v" ]} /\
    explains (mkTable ∅ (Some true) false false false []) [Call demo_heap (OCreate demo_req (Some []) 5 5 5) demo_create.1.2 demo_create.2; Call demo_scribble (OGet demo_id) r demo_get.2]
      (table demo_get.1.1.1 demo_get.1.1.2).
Proof.
  destruct (session_manager_refines_table demo_heap demo_get.1.1.1 (NewManager (Some true)) demo_get.1.1.2
    [Call demo_heap (OCreate demo_req (Some []) 5 5 5) demo_create.1.2 demo_create.2; Call demo_scribble (OGet demo_id) demo_get.1.2 demo_get.2] eq_refl) as (H & _).
  - apply runs_call with demo_create.1.1.1 demo_create.1.1.2; [by_eval|by vm_compute|]. apply runs_outside with demo_scribble; [|by vm_compute; lia|].
    + intros x Hx. apply owned_here in Hx. apply lookup_insert_ne. intros <-. revert Hx. apply (bool_decide_unpack _). by vm_compute.
    + apply runs_call with demo_get.1.1.1 demo_get.1.1.2; [done|by vm_compute|]. apply runs_end.
  - exists demo_get.1.2. eexists. split; [done|]. split; [by vm_compute|]. split; [by vm_compute|exact H].
Defined.

(** A session that the backend refused is returned without a copy: all the
    memory its caller gets is that of the stored session. *)
Lemma failed_create_shares :
  let '(h, m, r, out) := exec demo_heap (NewManager (Some false)) (OCreate demo_req (Some []) 5 5 5) in
  returns_stored (OCreate demo_req (Some []) 5 5 5) r = true /\ exists l, sessions m !! demo_id = Some l /\ out = foot h l /\ (3 <= length out)%nat.
Proof. split; [by vm_compute|]. exists 3%nat. split_and!; [by vm_compute|by vm_compute|vm_compute; lia]. Qed.

(** A pending session can be neither terminated nor reaped. *)
Lemma pending_is_stuck : validateTransition StatusPending actionTerminate = Some (InvalidTransitionError StatusPending actionTerminate).
Proof. done. Qed.

(** Names of statuses are read back, except for the default ones. *)
Lemma status_roundtrip s : StatusFromString (status_String s) = match s with StatusUnknown _ => StatusPending | s => s end.
Proof. by destruct s. Qed.

End SessionManagerDemo.
