(* ===== verification/SessionMigration.v ===== *)
(** * Migration of sessions (pkg/session/migration.go)

    The planner holds strategies under their names, picks the first that can
    move a session and runs its three stages.  A strategy is an interface of
    the package: a record of functions, of which the package has five.  The
    one that makes a checkpoint encodes the session; whether that works and how
    long the encoding is are arguments.  The durations that the planner
    measures are arguments too. *)
From S2P Require Import Prelude SessionManager.
Open Scope Z_scope.

Notation MigrationStrategy := string (only parsing).

Definition StrategyCRIU : MigrationStrategy := "criu".
Definition StrategyDMTCP : MigrationStrategy := "dmtcp".
Definition StrategyCRDT : MigrationStrategy := "crdt".
Definition StrategyContainer : MigrationStrategy := "container".
Definition StrategyCheckpoint : MigrationStrategy := "checkpoint".

Inductive mig_error := SessionNil | TargetEmpty | NoStrategy | NotImplemented | CheckpointFailed | PreMigrateError (e : mig_error) | PostMigrateError (e : mig_error).

Record MigrationResult := mkResult { Success : bool; Duration : Z; DataSize : Z; Method : MigrationStrategy; SourceNode : string; TargetNode : string; Error : option mig_error }.

Definition zero_result : MigrationResult := mkResult false 0 0 EmptyString EmptyString EmptyString None.

(** [Migrate] returns a result, an error, both or, though no strategy of the
    package does, neither. *)
Record MigrationStrategyImpl := mkStrategy {
  CanMigrate : Session -> bool;
  PreMigrate : Session -> string -> option mig_error;
  MigrateImpl : Session -> string -> option MigrationResult * option mig_error;
  PostMigrate : Session -> string -> option mig_error }.

Definition crdtStrategy : MigrationStrategyImpl := mkStrategy (fun _ => true) (fun _ _ => None) (fun _ _ => (Some (mkResult true 0 0 EmptyString EmptyString EmptyString None), None)) (fun _ _ => None).

(** The strategies for live processes, all alike. *)
Definition criuStrategy : MigrationStrategyImpl := mkStrategy (fun _ => false) (fun _ _ => Some NotImplemented) (fun _ _ => (None, Some NotImplemented)) (fun _ _ => Some NotImplemented).
Definition dmtcpStrategy : MigrationStrategyImpl := mkStrategy (fun _ => false) (fun _ _ => Some NotImplemented) (fun _ _ => (None, Some NotImplemented)) (fun _ _ => Some NotImplemented).
Definition containerStrategy : MigrationStrategyImpl := mkStrategy (fun _ => false) (fun _ _ => Some NotImplemented) (fun _ _ => (None, Some NotImplemented)) (fun _ _ => Some NotImplemented).

(** [encoded] is the length of the checkpoint of a session, [None] if it cannot be encoded. *)
Definition checkpointStrategy (encoded : Session -> option Z) : MigrationStrategyImpl :=
  mkStrategy (fun _ => false)
    (fun s _ => match encoded s with Some _ => None | None => Some CheckpointFailed end)
    (fun s _ => match encoded s with Some n => (Some (mkResult false 0 n EmptyString EmptyString EmptyString None), None) | None => (None, Some CheckpointFailed) end)
    (fun _ _ => None).

Record MigrationPlanner := mkPlanner { strategies : gmap MigrationStrategy MigrationStrategyImpl }.

Definition NewMigrationPlanner (encoded : Session -> option Z) : MigrationPlanner :=
  mkPlanner {[ StrategyCRDT := crdtStrategy; StrategyCRIU := criuStrategy; StrategyDMTCP := dmtcpStrategy; StrategyContainer := containerStrategy;
               StrategyCheckpoint := checkpointStrategy encoded ]}.

Definition plan_order : list MigrationStrategy := [StrategyCRDT; StrategyContainer; StrategyCRIU; StrategyDMTCP].

Fixpoint plan_loop (mp : MigrationPlanner) (s : Session) (order : list MigrationStrategy) : option MigrationStrategy :=
  match order with
  | [] => None
  | strat :: order =>
      match strategies mp !! strat with
      | None => plan_loop mp s order
      | Some impl => if CanMigrate impl s then Some strat else plan_loop mp s order
      end
  end.

Definition Plan (mp : MigrationPlanner) (session : option Session) (targetNode : string) : mig_error + MigrationStrategy :=
  match session with
  | None => inl SessionNil
  | Some s =>
      if decide (targetNode = EmptyString) then inl TargetEmpty
      else match plan_loop mp s plan_order with Some strat => inr strat | None => inl NoStrategy end
  end.

(** The result and the error; [None] as a whole is the nil pointer that the
    code dereferences when a strategy returns neither. *)
Definition Execute (mp : MigrationPlanner) (session : option Session) (targetNode : string) (d1 d2 d3 d4 : Z) : option (option MigrationResult * option mig_error) :=
  match session with
  | None => Some (None, Some SessionNil)
  | Some s =>
      match Plan mp session targetNode with
      | inl err => Some (Some (mkResult false d1 0 EmptyString (NodeID s) targetNode (Some err)), Some err)
      | inr strat =>
          impl ← strategies mp !! strat;
          match PreMigrate impl s targetNode with
          | Some err => Some (Some (mkResult false d2 0 strat (NodeID s) targetNode (Some (PreMigrateError err))), Some err)
          | None =>
              match MigrateImpl impl s targetNode with
              | (result, Some err) =>
                  let result := default zero_result result in
                  Some (Some (mkResult false d3 (DataSize result) strat (NodeID s) targetNode (Some err)), Some err)
              | (None, None) => None
              | (Some result, None) =>
                  match PostMigrate impl s targetNode with
                  | Some err =>
                      Some (Some (mkResult false (Duration result) (DataSize result) (Method result) (SourceNode result) (TargetNode result) (Some (PostMigrateError err))), Some (PostMigrateError err))
                  | None => Some (Some (mkResult true d4 (DataSize result) strat (NodeID s) targetNode (Error result)), None)
                  end
              end
          end
      end
  end.

(** The strategy planned is there, can move the session, and none before it can. *)
Lemma plan_first mp s order strat :
  plan_loop mp s order = Some strat ->
  exists pre post impl, order = pre ++ strat :: post /\ strategies mp !! strat = Some impl /\ CanMigrate impl s = true /\
    Forall (fun x => forall impl, strategies mp !! x = Some impl -> CanMigrate impl s = false) pre.
Proof.
  induction order as [|x order IH]; [done|]. cbn [plan_loop]. destruct (strategies mp !! x) as [impl|] eqn:E.
  - destruct (CanMigrate impl s) eqn:Ec; [intros [= <-]; by exists [], order, impl|]. intros (pre & post & impl' & -> & H1 & H2 & H3)%IH. exists (x :: pre), post, impl'.
    split_and!; [done|done|done|]. constructor; [|done]. intros i Hi. congruence.
  - intros (pre & post & impl' & -> & H1 & H2 & H3)%IH. exists (x :: pre), post, impl'. split_and!; [done|done|done|]. constructor; [|done]. intros i Hi. congruence.
Qed.

(** A migration is reported as successful exactly when it returns no error;
    that is, a strategy could be planned and its three stages worked; then the
    result names that strategy and both nodes. *)
Theorem migration_success (mp : MigrationPlanner) (s : Session) (target : string) (d1 d2 d3 d4 : Z) r e :
  Execute mp (Some s) target d1 d2 d3 d4 = Some (r, e) ->
  exists res, r = Some res /\ (Success res = true <-> e = None) /\
    (e = None -> exists strat impl, Plan mp (Some s) target = inr strat /\ strategies mp !! strat = Some impl /\ CanMigrate impl s = true /\ PreMigrate impl s target = None /\
       PostMigrate impl s target = None /\ Method res = strat /\ SourceNode res = NodeID s /\ TargetNode res = target).
Proof.
  unfold Execute. destruct (Plan mp (Some s) target) as [err|strat] eqn:Ep; [intros [= <- <-]; eexists; by split_and!|].
  destruct (strategies mp !! strat) as [impl|] eqn:Ei; [|done]. cbn [mbind option_bind]. assert (CanMigrate impl s = true) as Hc.
  { unfold Plan in Ep. case_decide; [done|]. destruct (plan_loop mp s plan_order) as [st|] eqn:El; [|done]. injection Ep as ->. apply plan_first in El as (_ & _ & i & _ & Hi & Hc & _). congruence. }
  destruct (PreMigrate impl s target) eqn:Epre; [intros [= <- <-]; eexists; by split_and!|]. destruct (MigrateImpl impl s target) as [[res|] [err|]].
  - intros [= <- <-]. eexists. by split_and!.
  - destruct (PostMigrate impl s target) eqn:Epost; intros [= <- <-]; eexists; split_and!; try done. intros _. by exists strat, impl.
  - intros [= <- <-]. eexists. by split_and!.
  - done.
Qed.

(** The planner of the package always plans the strategy that moves nothing,
    and reports success. *)
Theorem planned_migration_is_empty encoded s target d1 d2 d3 d4 :
  target <> EmptyString ->
  Execute (NewMigrationPlanner encoded) (Some s) target d1 d2 d3 d4 = Some (Some (mkResult true d4 0 StrategyCRDT (NodeID s) target None), None).
Proof. intros Ht. unfold Execute, Plan. rewrite decide_False by done. done. Qed.
