(* ===== verification/KraftMetadata.v ===== *)
(** * The replicated messaging metadata (pkg/kraft/metadata.go)

    The commands of the controller quorum, the state machine that every member
    applies them to, and its snapshots.  JSON is a class: an encoder, a decoder,
    and nothing assumed of them. *)
From S2P Require Import Prelude.
Local Open Scope Z_scope.

(** [Kind] is a byte; [apply] rejects those it does not know. *)
Record command := mkCommand { Kind : Z; Topic : string; Partitions : Z; Partition : Z; Leader : Z }.

#[export] Instance command_eq_dec : EqDecision command.
Proof. solve_decision. Defined.

Definition cmdCreateTopic : Z := 1.
Definition cmdAssignLeader : Z := 2.

(** [encoding/json] at the type of commands. *)
Class CommandJSON := { encode : command -> option (list Z); decodeCommand : list Z -> option command }.

Record metadataState := mkMetadata { topics : gmap string Z; leaders : gmap string (gmap Z Z) }.

Definition newMetadataState : metadataState := mkMetadata ∅ ∅.

Record TopicMetadata := mkTopic { tm_Name : string; tm_Partitions : Z; tm_Leaders : gmap Z Z }.

Inductive apply_error :=
  | EmptyTopicName
  | PartitionsNotPositive
  | TopicExists (existing requested : Z)
  | UnknownTopic
  | PartitionOutOfRange (partition parts : Z)
  | UnknownKind (k : Z).

(** [s.leaders[t]], made if it is not there. *)
Definition leaders_made (s : metadataState) (t : string) : gmap string (gmap Z Z) :=
  match leaders s !! t with Some _ => leaders s | None => <[t := ∅]> (leaders s) end.

(** [metadataState.apply] *)
Definition metadataState_apply (s : metadataState) (c : command) : metadataState * option apply_error :=
  if decide (Kind c = cmdCreateTopic) then
    if decide (Topic c = EmptyString) then (s, Some EmptyTopicName)
    else if decide (Partitions c <= 0) then (s, Some PartitionsNotPositive)
    else match topics s !! Topic c with
    | Some existing => if decide (existing = Partitions c) then (s, None) else (s, Some (TopicExists existing (Partitions c)))
    | None => (mkMetadata (<[Topic c := Partitions c]> (topics s)) (leaders_made s (Topic c)), None)
    end
  else if decide (Kind c = cmdAssignLeader) then
    if decide (Topic c = EmptyString) then (s, Some EmptyTopicName)
    else match topics s !! Topic c with
    | None => (s, Some UnknownTopic)
    | Some parts =>
        if decide (Partition c < 0 \/ Partition c >= parts) then (s, Some (PartitionOutOfRange (Partition c) parts))
        else let ls := leaders_made s (Topic c) in
             (mkMetadata (topics s) (<[Topic c := <[Partition c := Leader c]> (default ∅ (ls !! Topic c))]> ls), None)
    end
  else (s, Some (UnknownKind (Kind c))).

(** [metadataState.listTopics]; the loop that copies the leaders of a topic
    builds the same map. *)
Definition listTopics (s : metadataState) : list TopicMetadata :=
  (fun name => mkTopic name (default 0 (topics s !! name)) (range_fold (fun out p l => <[p := l]> out) ∅ (default ∅ (leaders s !! name)))) <$>
  sort_strings (map_to_list (topics s)).*1.

(** [metadataState.partitionLeader] *)
Definition partitionLeader (s : metadataState) (topic : string) (partition : Z) : Z * bool :=
  match leaders s !! topic with
  | None => (0, false)
  | Some pm => match pm !! partition with Some l => (l, true) | None => (0, false) end
  end.

(** ** The state machine *)

(** Topics have names and partitions; a leader is assigned only to a partition
    its topic has; the two maps have the same topics. *)
Record metadata_ok (s : metadataState) : Prop := {
  topic_ok t n : topics s !! t = Some n -> t <> EmptyString /\ 0 < n;
  leader_ok t pm p l : leaders s !! t = Some pm -> pm !! p = Some l -> exists n, topics s !! t = Some n /\ 0 <= p < n;
  same_topics : dom (leaders s) = dom (topics s);
}.

Lemma new_metadata_ok : metadata_ok newMetadataState.
Proof. split; simpl; [by intros t n ?%lookup_empty_Some|by intros t pm p l ?%lookup_empty_Some|]. by rewrite !dom_empty_L. Qed.

Lemma leaders_made_same (s : metadataState) t : is_Some (leaders s !! t) -> leaders_made s t = leaders s.
Proof. unfold leaders_made. by intros [pm ->]. Qed.

(** What a command that changes the state does to it. *)
Inductive applies (s : metadataState) (c : command) : metadataState -> Prop :=
  | applies_create : Kind c = cmdCreateTopic -> Topic c <> EmptyString -> 0 < Partitions c -> topics s !! Topic c = None ->
      applies s c (mkMetadata (<[Topic c := Partitions c]> (topics s)) (<[Topic c := ∅]> (leaders s)))
  | applies_assign n pm : Kind c = cmdAssignLeader -> topics s !! Topic c = Some n -> 0 <= Partition c < n -> leaders s !! Topic c = Some pm ->
      applies s c (mkMetadata (topics s) (<[Topic c := <[Partition c := Leader c]> pm]> (leaders s))).

Lemma dom_topic (s : metadataState) t : metadata_ok s -> is_Some (leaders s !! t) <-> is_Some (topics s !! t).
Proof. intros Hok. rewrite <- !elem_of_dom. by rewrite (same_topics _ Hok). Qed.

(** A command either changes the state as [applies] says or, when it is an
    error or repeats a topic, not at all. *)
Lemma apply_cases s c : metadata_ok s -> (metadataState_apply s c).1 = s \/ applies s c (metadataState_apply s c).1.
Proof.
  intros Hok. pose proof (dom_topic s (Topic c) Hok) as Hd. unfold metadataState_apply.
  destruct (decide (Kind c = cmdCreateTopic)) as [Hk|_].
  - destruct (decide (Topic c = EmptyString)); [by left|]. destruct (decide (Partitions c <= 0)); [by left|].
    destruct (topics s !! Topic c) eqn:Et; [case_decide; by left|]. right. unfold leaders_made. destruct (leaders s !! Topic c); [destruct Hd as [Hd _]; by destruct Hd|].
    constructor; [done|done|lia|done].
  - destruct (decide (Kind c = cmdAssignLeader)) as [Hk|_]; [|by left]. destruct (decide (Topic c = EmptyString)); [by left|].
    destruct (topics s !! Topic c) as [parts|] eqn:Et; [|by left]. case_decide; [by left|]. right. cbv zeta.
    destruct Hd as [_ [pm Hpm]]; [done|]. rewrite leaders_made_same by done. rewrite Hpm. simpl. apply applies_assign with parts; [done|done|lia|done].
Qed.

Lemma applies_ok s c s' : applies s c s' -> metadata_ok s -> metadata_ok s'.
Proof.
  intros [Hk Hn Hp Ht|n pm Hk Ht Hr Hl] [Ho Hlo Hd]; split; simpl.
  - intros t n [[<- <-]|[_ H]]%lookup_insert_Some; [done|eauto].
  - intros t pm p l [[<- <-]|[Hne H]]%lookup_insert_Some; [by intros ?%lookup_empty_Some|]. intros Hpl. destruct (Hlo _ _ _ _ H Hpl) as (n & Hn' & ?).
    exists n. by rewrite lookup_insert_ne.
  - by rewrite !dom_insert_L, Hd.
  - done.
  - intros t pm' p l [[<- <-]|[Hne H]]%lookup_insert_Some; [|eauto]. intros [[<- <-]|[_ H]]%lookup_insert_Some; eauto.
  - rewrite dom_insert_L, <- Hd. apply elem_of_dom_2 in Hl. set_solver.
Qed.

Lemma apply_ok s c : metadata_ok s -> metadata_ok (metadataState_apply s c).1.
Proof. intros Hok. destruct (apply_cases s c Hok) as [->|H]; [done|]. by eapply applies_ok. Qed.

Section replay_log.
Context `{HJ : CommandJSON}.

(** One committed payload. *)
Definition apply_payload (s : metadataState) (data : list Z) : metadataState :=
  match decodeCommand data with Some cmd => (metadataState_apply s cmd).1 | None => s end.

Definition replay_log (s : metadataState) (log : list (list Z)) : metadataState := foldl apply_payload s log.

Lemma replay_log_ok log s : metadata_ok s -> metadata_ok (replay_log s log).
Proof.
  revert s. induction log as [|d log IH]; intros s Hok; [done|]. apply IH. unfold apply_payload. destruct (decodeCommand d); [by apply apply_ok|done].
Qed.

(** Replaying more of the log keeps every topic with its partitions and every
    partition that has a leader has one afterwards. *)
Lemma replay_grows log s :
  metadata_ok s -> topics s ⊆ topics (replay_log s log) /\
  (forall t p, (partitionLeader s t p).2 = true -> (partitionLeader (replay_log s log) t p).2 = true).
Proof.
  revert s. induction log as [|d log IH]; intros s Hok; [done|].
  assert (topics s ⊆ topics (apply_payload s d) /\ (forall t p, (partitionLeader s t p).2 = true -> (partitionLeader (apply_payload s d) t p).2 = true)) as [Ht Hl].
  { unfold apply_payload. destruct (decodeCommand d) as [c|]; [|done]. destruct (apply_cases s c Hok) as [->|[Hk Hn Hp Ht|n pm Hk Ht Hr Hl]]; [done|..]; simpl.
    - split; [by apply insert_subseteq|]. intros t p. unfold partitionLeader. simpl. rewrite lookup_insert. case_decide as E; [|done].
      rewrite <- E. assert (leaders s !! Topic c = None) as ->; [|done]. apply eq_None_not_Some. rewrite dom_topic by done. rewrite Ht. apply is_Some_None.
    - split; [done|]. intros t p. unfold partitionLeader. simpl. rewrite lookup_insert. case_decide as E; [|done]. rewrite <- E, Hl.
      rewrite lookup_insert. case_decide; [done|]. done. }
  assert (metadata_ok (apply_payload s d)) as Hok' by apply (replay_log_ok [d] s Hok).
  destruct (IH _ Hok') as [IH1 IH2]. split; [by etrans|]. intros t p H. by apply IH2, Hl.
Qed.

(** Everything in a state was asked for by one of the commands. *)
Definition explained (cs : command -> Prop) (s : metadataState) : Prop :=
  (forall t n, topics s !! t = Some n -> exists c, cs c /\ Kind c = cmdCreateTopic /\ Topic c = t /\ Partitions c = n) /\
  (forall t p l, partitionLeader s t p = (l, true) -> exists c, cs c /\ Kind c = cmdAssignLeader /\ Topic c = t /\ Partition c = p /\ Leader c = l).

Lemma new_explained (cs : command -> Prop) : explained cs newMetadataState.
Proof. split; simpl; [by intros t n ?%lookup_empty_Some|done]. Qed.

Lemma applies_explained (cs : command -> Prop) s c s' : applies s c s' -> cs c -> explained cs s -> explained cs s'.
Proof.
  intros [Hk Hn Hp Ht|n pm Hk Ht Hr Hl] Hc [H1 H2]; split; simpl.
  - intros t n [[<- <-]|[_ H]]%lookup_insert_Some; [by exists c|eauto].
  - intros t p l. unfold partitionLeader. simpl. rewrite lookup_insert. case_decide; [done|apply H2].
  - done.
  - intros t p l. unfold partitionLeader. simpl. rewrite lookup_insert. case_decide as Et; [|apply H2]. rewrite lookup_insert.
    case_decide as Ep; [intros [= <-]; by exists c|]. intros H. apply H2. unfold partitionLeader. by rewrite <- Et, Hl.
Qed.

Lemma replay_explained (cs : command -> Prop) log s :
  (forall d c, d ∈ log -> decodeCommand d = Some c -> cs c) -> metadata_ok s -> explained cs s -> explained cs (replay_log s log).
Proof.
  revert s. induction log as [|d log IH]; intros s Hlog Hok He; [done|]. simpl. apply IH; [set_solver|apply (replay_log_ok [d] s Hok)|].
  unfold apply_payload. destruct (decodeCommand d) as [c|] eqn:Ed; [|done]. destruct (apply_cases s c Hok) as [->|H]; [done|].
  apply (applies_explained cs s c _ H); [|done]. apply (Hlog d); [by left|done].
Qed.
End replay_log.

(** The snapshot lists the topics in order, with their partitions and leaders. *)
Lemma listTopics_spec s tm :
  metadata_ok s -> tm ∈ listTopics s <-> topics s !! tm_Name tm = Some (tm_Partitions tm) /\ leaders s !! tm_Name tm = Some (tm_Leaders tm).
Proof.
  intros Hok. unfold listTopics. rewrite list_elem_of_fmap. split.
  - intros (name & -> & Hn). rewrite sort_strings_perm in Hn. apply list_elem_of_fmap in Hn as ([t n] & -> & Hn%elem_of_map_to_list). simpl.
    rewrite range_fold_copy, map_fmap_id, Hn. split; [done|]. destruct (proj2 (dom_topic s t Hok)) as [pm ->]; [by eexists|done].
  - intros [Ht Hl]. exists (tm_Name tm). rewrite sort_strings_perm, range_fold_copy, map_fmap_id, Ht, Hl. split; [by destruct tm|].
    apply list_elem_of_fmap. exists (tm_Name tm, tm_Partitions tm). split; [done|]. by apply elem_of_map_to_list.
Qed.
