(* ===== verification/Kraft.v ===== *)
(** * The self-managed metadata quorum (pkg/kraft: quorum.go, transport.go)

    A Raft group whose log is the messaging metadata: members, the in-process
    transport between them, the loop that drains the engine's Ready batches, and
    the public operations.  The engine and its in-memory storage are the classes
    [Raft] and [RaftNode] of [MultiRaft]; nothing is assumed of them but what
    the theorem names.  The methods of [memberStorage] hand their arguments to
    that storage.

    Go ranges over the members in an arbitrary order, so every loop that could
    depend on it takes the order from an argument.  The loops that last as long
    as the engine has work run on fuel ([None] when it runs out).  [q_log] and
    [proposals] are not in the source: they record the calls made to the engine
    and the storage, and the commands the engine accepted. *)
From S2P Require Import Prelude.
From S2P Require Import MultiRaft.
From S2P Require Import KraftMetadata.
Local Open Scope Z_scope.

(** ** Transport *)

(** The handler of a member steps the message into the member it names, so the
    transport is the set of the members that have one. *)
Record inProcTransport := mkInProc { inbox : gset Z; dropped : Z }.

Definition newInProcTransport : inProcTransport := mkInProc ∅ 0.

Definition kt_RegisterPeer (nodeID : Z) (t : inProcTransport) : inProcTransport := mkInProc ({[nodeID]} ∪ inbox t) (dropped t).

Definition kt_UnregisterPeer (nodeID : Z) (t : inProcTransport) : inProcTransport := mkInProc (inbox t ∖ {[nodeID]}) (dropped t).

Inductive kraft_error (E : Type) :=
  | ErrNoController
  | ErrUnknownMember (id : Z)
  | ErrUnknownTopic
  | ErrTopicExists (existing requested : Z)
  | ErrEmptyName
  | ErrPartitions
  | ErrOutOfRange (partition parts : Z)
  | ErrContext
  | ErrEncode
  | ErrEngine (e : option E)
  | NeedsMember
  | DuplicateMember (id : Z)
  | ReservedMember.
Arguments ErrNoController {E}.
Arguments ErrUnknownMember {E} _.
Arguments ErrUnknownTopic {E}.
Arguments ErrTopicExists {E} _ _.
Arguments ErrEmptyName {E}.
Arguments ErrPartitions {E}.
Arguments ErrOutOfRange {E} _ _.
Arguments ErrContext {E}.
Arguments ErrEncode {E}.
Arguments ErrEngine {E} _.
Arguments NeedsMember {E}.
Arguments DuplicateMember {E} _.
Arguments ReservedMember {E}.

Section kraft.
Context `{HR : Raft, HN : !RaftNode, HJ : CommandJSON}.

Record member := mkMember {
  m_id : Z; m_raw : RawNode; m_storage : Persister; m_state : metadataState;
  m_committed : list (list Z); m_applied : Z; m_stopped : bool;
}.

Record MetadataQuorum := mkQuorum {
  members : gmap Z member; peers : list Z; transport : inProcTransport; electionTick : Z; heartbeatTick : Z;
  proposals : list command; q_log : list event;
}.

Definition set_mraw (r : RawNode) (m : member) : member :=
  mkMember (m_id m) r (m_storage m) (m_state m) (m_committed m) (m_applied m) (m_stopped m).

Definition set_members (q : MetadataQuorum) (ms : gmap Z member) : MetadataQuorum :=
  mkQuorum ms (peers q) (transport q) (electionTick q) (heartbeatTick q) (proposals q) (q_log q).

Definition with_member (q : MetadataQuorum) (i : Z) (f : member -> member) : MetadataQuorum := set_members q (alter f i (members q)).

Definition set_inproc (q : MetadataQuorum) (t : inProcTransport) : MetadataQuorum :=
  mkQuorum (members q) (peers q) t (electionTick q) (heartbeatTick q) (proposals q) (q_log q).

Definition note (q : MetadataQuorum) (es : list event) : MetadataQuorum :=
  mkQuorum (members q) (peers q) (transport q) (electionTick q) (heartbeatTick q) (proposals q) (q_log q ++ es).

(** ** Construction *)

(** The first peer that equals the one before it. *)
Fixpoint duplicate (ps : list Z) : option Z :=
  match ps with
  | p :: ((p' :: _) as rest) => if decide (p' = p) then Some p' else duplicate rest
  | _ => None
  end.

(** The loop that makes the members; an error of the engine ends it. *)
Fixpoint create_members (mem : Persister) (ps rest : list Z) (ms : gmap Z member) : option (gmap Z member) :=
  match rest with
  | [] => Some ms
  | pid :: rest =>
      raw ← NewRawNode mem pid;
      raw ← Bootstrap mem raw ps;
      create_members mem ps rest (<[pid := mkMember pid raw mem newMetadataState [] 0 false]> ms)
  end.

(** [mem] is the empty storage of the Raft library. *)
Definition NewMetadataQuorum (mem : Persister) (peers : list Z) : kraft_error error + MetadataQuorum :=
  if decide (length peers = 0)%nat then inl NeedsMember
  else
    let ps := merge_sort Z.le peers in
    match duplicate ps with
    | Some p => inl (DuplicateMember p)
    | None =>
        if decide (head ps = Some 0) then inl ReservedMember
        else match create_members mem ps ps ∅ with
        | None => inl (ErrEngine None)
        | Some ms => inr (mkQuorum ms ps (range_fold (fun t i _ => kt_RegisterPeer i t) newInProcTransport ms) 10 1 [] [])
        end
    end.

(** ** Draining the engine *)

(** Stepping a message into its destination if it is a live member: the inbox
    handler, and the self-directed case of [deliver]. *)
Definition step_member (q : MetadataQuorum) (msg : Message) : MetadataQuorum :=
  match members q !! To msg with
  | Some dst => if m_stopped dst then q else with_member q (To msg) (fun m => set_mraw (raw_Step (m_storage m) (m_raw m) msg) m)
  | None => q
  end.

(** [inProcTransport.Send]; its error, for destination 0, is dropped by the caller. *)
Definition kt_Send (q : MetadataQuorum) (msg : Message) : MetadataQuorum :=
  if decide (To msg = 0) then q
  else if decide (To msg ∈ inbox (transport q)) then step_member q msg
  else set_inproc q (mkInProc (inbox (transport q)) (i64 (dropped (transport q) + 1))).

Definition q_deliver (q : MetadataQuorum) (msg : Message) : MetadataQuorum :=
  if decide (To msg = From msg) then step_member q msg else kt_Send q msg.

(** (1) The errors of the storage are dropped. *)
Definition persist_ready (m : member) (rd : Ready) : member * list event :=
  let '(st, e1) :=
    if IsEmptyHardState (rd_HardState rd) then (m_storage m, [])
    else let '(st, e) := SetHardState (m_storage m) (rd_HardState rd) in
         (st, [EvSetHardState (m_id m) (rd_HardState rd) (bool_decide (e = None))]) in
  let '(st, e2) :=
    if decide (0 < length (Entries rd))%nat
    then let '(st, e) := StorAppend st (Entries rd) in (st, [EvAppend (m_id m) (Entries rd) (bool_decide (e = None))])
    else (st, []) in
  (mkMember (m_id m) (m_raw m) st (m_state m) (m_committed m) (m_applied m) (m_stopped m), e1 ++ e2).

(** (3) One committed entry. *)
Definition apply_committed (m : member) (ent : Entry) : member :=
  let m := match EType ent with
    | EntryConfChange => match unmarshalConfChange (Data ent) with
                         | Some cc => set_mraw (ApplyConfChange (m_storage m) (m_raw m) cc) m | None => m end
    | EntryConfChangeV2 => match unmarshalConfChangeV2 (Data ent) with
                           | Some cc => set_mraw (ApplyConfChange (m_storage m) (m_raw m) cc) m | None => m end
    | EntryNormal => if decide (0 < length (Data ent))%nat
                     then mkMember (m_id m) (m_raw m) (m_storage m) (apply_payload (m_state m) (Data ent))
                            (m_committed m ++ [Data ent]) (m_applied m) (m_stopped m)
                     else m
    end in
  if decide (m_applied m < Index ent)
  then mkMember (m_id m) (m_raw m) (m_storage m) (m_state m) (m_committed m) (Index ent) (m_stopped m) else m.

(** (2) to (4): deliver the messages, apply the committed entries, advance. *)
Definition handle_ready (q : MetadataQuorum) (i : Z) (rd : Ready) : MetadataQuorum :=
  let q := foldl (fun q msg => note (q_deliver q msg) [EvDeliver i msg]) q (Messages rd) in
  let q := foldl (fun q ent => note (with_member q i (fun m => apply_committed m ent)) [EvApply i ent]) q (CommittedEntries rd) in
  note (with_member q i (fun m => set_mraw (raw_Advance (m_storage m) (m_raw m) rd) m)) [EvAdvance i rd].

(** One iteration of the inner loop, and whether it did something. *)
Definition drain_one (q : MetadataQuorum) (i : Z) : MetadataQuorum * bool :=
  match members q !! i with
  | None => (q, false)
  | Some m =>
      if m_stopped m || negb (HasReady (m_storage m) (m_raw m)) then (q, false)
      else
        let '(rd, r) := raw_Ready (m_storage m) (m_raw m) in
        let '(m, ev) := persist_ready (set_mraw r m) rd in
        (handle_ready (note (with_member q i (fun _ => m)) (EvReady i rd :: ev)) i rd, true)
  end.

Definition drain_pass (q : MetadataQuorum) (order : list Z) : MetadataQuorum * bool :=
  foldl (fun '(q, did) i => let '(q, d) := drain_one q i in (q, did || d)) (q, false) order.

(** The outer loop; [order k] is the order of the pass with [k] more to go. *)
Fixpoint drain_loop (fuel : nat) (order : nat -> list Z) (q : MetadataQuorum) (progressed : bool) : option (MetadataQuorum * bool) :=
  match fuel with
  | O => None
  | S fuel => let '(q, did) := drain_pass q (order fuel) in if did : bool then drain_loop fuel order q true else Some (q, progressed)
  end.

(** The fuel and the orders of one call of the loop. *)
Definition plan : Type := nat * (nat -> list Z).

Definition q_processReadyLocked (p : plan) (q : MetadataQuorum) : option (MetadataQuorum * bool) := drain_loop p.1 p.2 q false.

(** ** Operations *)

Definition q_Tick (p : plan) (q : MetadataQuorum) : option MetadataQuorum :=
  fst <$> q_processReadyLocked p
    (set_members q ((fun m => if m_stopped m then m else set_mraw (raw_Tick (m_storage m) (m_raw m)) m) <$> members q)).

Definition q_Campaign (p : plan) (q : MetadataQuorum) (nodeID : Z) : option (MetadataQuorum * option (kraft_error error)) :=
  match members q !! nodeID with
  | None => Some (q, Some (ErrUnknownMember nodeID))
  | Some m =>
      if m_stopped m then Some (q, Some (ErrUnknownMember nodeID))
      else let '(r, err) := raw_Campaign (m_storage m) (m_raw m) in
           let q := with_member q nodeID (set_mraw r) in
           match err with
           | Some e => Some (q, Some (ErrEngine (Some e)))
           | None => (fun r => (r.1, None)) <$> q_processReadyLocked p q
           end
  end.

(** [Run]: drain until a drain finds nothing to do. *)
Fixpoint q_Run (calls : nat) (p : nat -> plan) (q : MetadataQuorum) : option MetadataQuorum :=
  match calls with
  | O => None
  | S calls =>
      match q_processReadyLocked (p calls) q with
      | None => None
      | Some (q, progressed) => if progressed : bool then q_Run calls p q else Some q
      end
  end.

(** [controllerLocked]: the first live leader in the order of the range. *)
Fixpoint controllerLocked (order : list Z) (q : MetadataQuorum) : option member :=
  match order with
  | [] => None
  | i :: order =>
      match members q !! i with
      | Some m => if m_stopped m then controllerLocked order q
                  else if IsLeader (m_storage m) (m_raw m) then Some m else controllerLocked order q
      | None => controllerLocked order q
      end
  end.

(** [CreateTopic] up to the release of its lock: the error it returns, or the
    command it goes on to propose. *)
Definition createTopic_check (order : list Z) (q : MetadataQuorum) (canceled : bool) (name : string) (partitions : Z)
  : option (kraft_error error) + command :=
  if canceled then inl (Some ErrContext)
  else if decide (name = EmptyString) then inl (Some ErrEmptyName)
  else if decide (partitions <= 0) then inl (Some ErrPartitions)
  else
    let cmd := mkCommand cmdCreateTopic name partitions 0 0 in
    match controllerLocked order q with
    | Some ctrl =>
        match topics (m_state ctrl) !! name with
        | Some existing => if decide (existing <> partitions) then inl (Some (ErrTopicExists existing partitions)) else inl None
        | None => inr cmd
        end
    | None => inr cmd
    end.

(** [AssignPartitionLeader] up to the release of its lock. *)
Definition assignLeader_check (order : list Z) (q : MetadataQuorum) (canceled : bool) (topic : string) (partition leader : Z)
  : kraft_error error + command :=
  if canceled then inl ErrContext
  else match members q !! leader with
  | None => inl (ErrUnknownMember leader)
  | Some _ =>
      match controllerLocked order q with
      | None => inl ErrNoController
      | Some ctrl =>
          match topics (m_state ctrl) !! topic with
          | None => inl ErrUnknownTopic
          | Some parts =>
              if decide (partition < 0 \/ partition >= parts) then inl (ErrOutOfRange partition parts)
              else inr (mkCommand cmdAssignLeader topic 0 partition leader)
          end
      end
  end.

(** [propose] *)
Definition q_propose (p : plan) (order : list Z) (q : MetadataQuorum) (cmd : command) : option (MetadataQuorum * option (kraft_error error)) :=
  match encode cmd with
  | None => Some (q, Some ErrEncode)
  | Some data =>
      match controllerLocked order q with
      | None => Some (q, Some ErrNoController)
      | Some ctrl =>
          let '(r, err) := raw_Propose (m_storage ctrl) (m_raw ctrl) data in
          let q := with_member q (m_id ctrl) (set_mraw r) in
          match err with
          | Some e => Some (q, Some (ErrEngine (Some e)))
          | None =>
              let q := mkQuorum (members q) (peers q) (transport q) (electionTick q) (heartbeatTick q) (proposals q ++ [cmd]) (q_log q) in
              (fun r => (r.1, None)) <$> q_processReadyLocked p q
          end
      end
  end.

(** The two calls when nothing comes between their critical sections. *)
Definition CreateTopic (p : plan) (o1 o2 : list Z) (q : MetadataQuorum) (canceled : bool) (name : string) (partitions : Z)
  : option (MetadataQuorum * option (kraft_error error)) :=
  match createTopic_check o1 q canceled name partitions with inl r => Some (q, r) | inr cmd => q_propose p o2 q cmd end.

Definition AssignPartitionLeader (p : plan) (o1 o2 : list Z) (q : MetadataQuorum) (canceled : bool) (topic : string) (partition leader : Z)
  : option (MetadataQuorum * option (kraft_error error)) :=
  match assignLeader_check o1 q canceled topic partition leader with inl e => Some (q, Some e) | inr cmd => q_propose p o2 q cmd end.

Definition ListTopics (q : MetadataQuorum) (nodeID : Z) : kraft_error error + list TopicMetadata :=
  match members q !! nodeID with None => inl (ErrUnknownMember nodeID) | Some m => inr (listTopics (m_state m)) end.

Definition PartitionLeader (q : MetadataQuorum) (nodeID : Z) (topic : string) (partition : Z) : kraft_error error + Z * bool :=
  match members q !! nodeID with None => inl (ErrUnknownMember nodeID) | Some m => inr (partitionLeader (m_state m) topic partition) end.

Definition ControllerID (order : list Z) (q : MetadataQuorum) : Z :=
  match controllerLocked order q with Some c => m_id c | None => 0 end.

Definition MemberIDs (q : MetadataQuorum) : list Z :=
  merge_sort Z.le (map_to_list (filter (fun im => m_stopped im.2 = false) (members q))).*1.

Definition q_CommittedCount (q : MetadataQuorum) (nodeID : Z) : kraft_error error + Z :=
  match members q !! nodeID with None => inl (ErrUnknownMember nodeID) | Some m => inr (Z.of_nat (length (m_committed m))) end.

Definition stop_member (q : MetadataQuorum) (i : Z) : MetadataQuorum :=
  with_member q i (fun m => mkMember (m_id m) (m_raw m) (m_storage m) (m_state m) (m_committed m) (m_applied m) true).

(** [StopController] and [StopMember] stop the member under the lock and take
    its inbox away after releasing it. *)
Definition StopController (order : list Z) (q : MetadataQuorum) : MetadataQuorum * Z :=
  match controllerLocked order q with
  | None => (q, 0)
  | Some ctrl => (set_inproc (stop_member q (m_id ctrl)) (kt_UnregisterPeer (m_id ctrl) (transport q)), m_id ctrl)
  end.

Definition StopMember (q : MetadataQuorum) (nodeID : Z) : MetadataQuorum * option (kraft_error error) :=
  match members q !! nodeID with
  | None => (q, Some (ErrUnknownMember nodeID))
  | Some _ => (set_inproc (stop_member q nodeID) (kt_UnregisterPeer nodeID (transport q)), None)
  end.

(** ** What is known of a member *)

(** A round: a Ready, its hard state and entries handed to the storage, then
    its messages, its committed entries and its Advance. *)
Definition ready_round (i : Z) (rd : Ready) (h a : bool) : list event :=
  EvReady i rd :: hard_events i rd h ++ append_events i rd a ++ (EvDeliver i <$> Messages rd) ++
  (EvApply i <$> CommittedEntries rd) ++ [EvAdvance i rd].

Inductive rounds (i : Z) : list event -> Prop :=
  | rounds_nil : rounds i []
  | rounds_snoc l rd h a : rounds i l -> rounds i (l ++ ready_round i rd h a).

(** The entries the engine committed at a member, in order. *)
Definition entries_of (i : Z) (l : list event) : list Entry := applied_entries (node_log i l).

Record member_ok (i : Z) (m : member) (l : list event) : Prop := {
  mk_id : m_id m = i;
  mk_rounds : rounds i (node_log i l);
  mk_committed : m_committed m = omap payload (entries_of i l);
  mk_state : m_state m = replay_log newMetadataState (m_committed m);
  mk_applied : m_applied m = foldl Z.max 0 (Index <$> entries_of i l);
}.

Definition quorum_ok (q : MetadataQuorum) : Prop := forall i m, members q !! i = Some m -> member_ok i m (q_log q).

(** What the loop changes in a member besides its node and its storage. *)
Definition ledger (m : member) : Z * list (list Z) * metadataState * Z * bool := (m_id m, m_committed m, m_state m, m_applied m, m_stopped m).

Definition same_ledger (q q' : MetadataQuorum) (j : Z) : Prop := ledger <$> members q' !! j = ledger <$> members q !! j.

Definition same_rest (q q' : MetadataQuorum) : Prop := proposals q' = proposals q /\ peers q' = peers q.

Lemma same_ledger_trans q q' q'' j : same_ledger q q' j -> same_ledger q' q'' j -> same_ledger q q'' j.
Proof. unfold same_ledger. congruence. Qed.

Lemma with_member_ledger q i f j : (forall m, ledger (f m) = ledger m) -> same_ledger q (with_member q i f) j.
Proof.
  intros Hf. unfold same_ledger, with_member. simpl. rewrite lookup_alter. case_decide; [subst|done]. destruct (members q !! j); simpl; by rewrite ?Hf.
Qed.

Lemma with_member_other q i f j : i <> j -> same_ledger q (with_member q i f) j.
Proof. intros Hij. unfold same_ledger, with_member. simpl. by rewrite lookup_alter_ne. Qed.

Lemma step_member_spec q msg : (forall j, same_ledger q (step_member q msg) j) /\ q_log (step_member q msg) = q_log q /\ same_rest q (step_member q msg).
Proof.
  unfold step_member. destruct (members q !! To msg) as [dst|]; [|done]. destruct (m_stopped dst); [done|]. split; [|done]. intros j. by apply with_member_ledger.
Qed.

Lemma q_deliver_spec q msg : (forall j, same_ledger q (q_deliver q msg) j) /\ q_log (q_deliver q msg) = q_log q /\ same_rest q (q_deliver q msg).
Proof. unfold q_deliver, kt_Send. repeat case_decide; try done; apply step_member_spec. Qed.

Lemma deliveries_spec (ms : list Message) q i :
  let q' := foldl (fun q msg => note (q_deliver q msg) [EvDeliver i msg]) q ms in
  (forall j, same_ledger q q' j) /\ q_log q' = q_log q ++ (EvDeliver i <$> ms) /\ same_rest q q'.
Proof.
  induction ms as [|msg ms IH] using rev_ind; [simpl; by rewrite app_nil_r|]. rewrite foldl_snoc. cbv zeta in *. set (q1 := foldl _ _ ms) in *.
  destruct IH as (Hb & Hl & [Hp1 Hp2]), (q_deliver_spec q1 msg) as (Hb' & Hl' & [Hp1' Hp2']). split_and!.
  - intros j. eapply same_ledger_trans; [apply Hb|apply Hb'].
  - simpl. by rewrite Hl', Hl, fmap_app, app_assoc.
  - split; simpl; congruence.
Qed.

(** Applying entries to what the loop changes. *)
Definition absorb (b : Z * list (list Z) * metadataState * Z * bool) (es : list Entry) : Z * list (list Z) * metadataState * Z * bool :=
  let '(i, c, s, a, st) := b in (i, c ++ omap payload es, replay_log s (omap payload es), foldl Z.max a (Index <$> es), st).

Lemma absorb_app b es es' : absorb b (es ++ es') = absorb (absorb b es) es'.
Proof. destruct b as [[[[i c] s] a] st]. simpl. unfold replay_log. by rewrite omap_app, app_assoc, foldl_app, fmap_app, foldl_app. Qed.

Lemma apply_committed_ledger m ent : ledger (apply_committed m ent) = absorb (ledger m) [ent].
Proof.
  unfold apply_committed, ledger. simpl. unfold payload.
  assert (forall m : member, ledger (if decide (m_applied m < Index ent) then mkMember (m_id m) (m_raw m) (m_storage m) (m_state m) (m_committed m) (Index ent) (m_stopped m) else m)
    = (m_id m, m_committed m, m_state m, Z.max (m_applied m) (Index ent), m_stopped m)) as Hmax.
  { intros m'. unfold ledger. case_decide; simpl; repeat f_equal; lia. }
  unfold ledger in Hmax. rewrite Hmax. destruct (EType ent).
  - case_decide; simpl; by rewrite ?app_nil_r.
  - destruct (unmarshalConfChange _); simpl; by rewrite app_nil_r.
  - destruct (unmarshalConfChangeV2 _); simpl; by rewrite app_nil_r.
Qed.

Lemma absorb_nil m : absorb (ledger m) [] = ledger m.
Proof. unfold ledger. simpl. by rewrite app_nil_r. Qed.
#[local] Arguments absorb : simpl never.
#[local] Arguments ledger : simpl never.

Lemma applications_spec (es : list Entry) q i :
  let q' := foldl (fun q ent => note (with_member q i (fun m => apply_committed m ent)) [EvApply i ent]) q es in
  (forall j, i <> j -> same_ledger q q' j) /\
  ledger <$> members q' !! i = (fun m => absorb (ledger m) es) <$> members q !! i /\
  q_log q' = q_log q ++ (EvApply i <$> es) /\ same_rest q q'.
Proof.
  induction es as [|ent es IH] using rev_ind.
  { simpl. rewrite app_nil_r. split_and!; [done| |done|done]. destruct (members q !! i); simpl; by rewrite ?absorb_nil. }
  rewrite foldl_snoc. cbv zeta in *. set (q1 := foldl _ _ es) in *. destruct IH as (Ho & Hi & Hl & Hr). split_and!.
  - intros j Hij. eapply same_ledger_trans; [by apply Ho|]. by apply (with_member_other q1).
  - simpl. rewrite lookup_alter_eq. destruct (members q1 !! i) as [m1|], (members q !! i) as [m|]; simpl in *; try done.
    apply (inj Some) in Hi. f_equal. by rewrite apply_committed_ledger, absorb_app, <- Hi.
  - simpl. by rewrite Hl, fmap_app, app_assoc.
  - done.
Qed.

Lemma persist_ready_spec m rd m' ev :
  persist_ready m rd = (m', ev) -> ledger m' = ledger m /\ exists h a, ev = hard_events (m_id m) rd h ++ append_events (m_id m) rd a.
Proof.
  unfold persist_ready, hard_events, append_events. destruct (IsEmptyHardState _).
  - case_decide; [destruct (StorAppend _ _) as [st e]|]; intros [= <- <-]; (split; [done|]); [by exists true, (bool_decide (e = None))|by exists true, true].
  - destruct (SetHardState _ _) as [st e]. case_decide; [destruct (StorAppend _ _) as [st' e']|]; intros [= <- <-]; (split; [done|]).
    + by exists (bool_decide (e = None)), (bool_decide (e' = None)).
    + by exists (bool_decide (e = None)), true.
Qed.

Lemma ready_round_events i rd h a :
  Forall (fun e => event_node e = i) (ready_round i rd h a) /\ applied_entries (ready_round i rd h a) = CommittedEntries rd.
Proof.
  unfold ready_round. rewrite app_assoc. destruct (persist_events i rd h a) as [H1 H2], (finish_events i rd) as [H3 H4]. cbv zeta in *.
  split; [constructor; [done|by apply Forall_app_2]|]. unfold applied_entries in *. simpl. by rewrite omap_app, H2, H4.
Qed.

(** One iteration does nothing or is a whole round of its member. *)
Lemma drain_one_spec q i :
  quorum_ok q ->
  drain_one q i = (q, false) \/
  exists q' rd h a, drain_one q i = (q', true) /\ (forall j, i <> j -> same_ledger q q' j) /\
    ledger <$> members q' !! i = (fun m => absorb (ledger m) (CommittedEntries rd)) <$> members q !! i /\
    q_log q' = q_log q ++ ready_round i rd h a /\ same_rest q q'.
Proof.
  intros Hok. unfold drain_one. destruct (members q !! i) as [m|] eqn:Em; [|by left]. destruct (_ || _); [by left|]. right.
  destruct (raw_Ready _ _) as [rd r]. destruct (persist_ready (set_mraw r m) rd) as [m1 ev] eqn:Ep. apply persist_ready_spec in Ep as (Hb & h & a & ->).
  rewrite (mk_id i m _ (Hok i m Em) : m_id (set_mraw r m) = i). set (q1 := note _ _). unfold handle_ready. eexists _, rd, h, a. split; [reflexivity|].
  destruct (deliveries_spec (Messages rd) q1 i) as (Hb2 & Hl2 & Hr2). set (q2 := foldl _ q1 _) in *.
  destruct (applications_spec (CommittedEntries rd) q2 i) as (Hb3 & Hi3 & Hl3 & Hr3). set (q3 := foldl _ q2 _) in *. cbv zeta in *.
  set (adv := fun m => set_mraw (raw_Advance (m_storage m) (m_raw m) rd) m). split_and!.
  - intros j Hij. eapply same_ledger_trans; [|by apply (with_member_other q3)]. eapply same_ledger_trans; [|by apply Hb3].
    eapply same_ledger_trans; [|apply Hb2]. by apply (with_member_other q i).
  - pose proof (with_member_ledger q3 i adv i ltac:(done)) as H. unfold same_ledger in H. simpl in *. rewrite H, Hi3. specialize (Hb2 i). unfold same_ledger in Hb2.
    simpl in Hb2. rewrite lookup_alter_eq, Em in Hb2. simpl in Hb2. destruct (members q2 !! i) as [m2|]; [|done]. apply (inj Some) in Hb2. simpl. by rewrite Hb2, Hb.
  - simpl. rewrite Hl3, Hl2. simpl. unfold ready_round. by rewrite <- !app_assoc, <- app_comm_cons, <- !app_assoc.
  - destruct Hr2 as [A1 A2], Hr3 as [B1 B2]. split; simpl; [by rewrite B1, A1|by rewrite B2, A2].
Qed.

(** A member that went on from [m] to [m']. *)
Definition goes_on (m m' : member) : Prop :=
  exists rest, m_committed m' = m_committed m ++ rest /\ m_state m' = replay_log (m_state m) rest /\ (m_stopped m = true -> m_stopped m' = true).

#[local] Instance goes_on_preorder : PreOrder goes_on.
Proof.
  split.
  - intros m. exists []. by rewrite app_nil_r.
  - intros m1 m2 m3 (r1 & H1 & H2 & H3) (r2 & H4 & H5 & H6). exists (r1 ++ r2). unfold replay_log in *. rewrite foldl_app, <- H2, app_assoc, <- H1. auto.
Qed.

(** The quorum keeps its members, and they go on. *)
Definition advances (q q' : MetadataQuorum) : Prop := map_relation (fun _ => goes_on) (fun _ _ => False) (fun _ _ => False) (members q) (members q').

#[local] Instance advances_preorder : PreOrder advances.
Proof.
  split.
  - intros q i. destruct (members q !! i); simpl; [reflexivity|done].
  - intros q1 q2 q3 H1 H2 i. specialize (H1 i). specialize (H2 i). destruct (members q1 !! i), (members q2 !! i), (members q3 !! i); simpl in *; try done. by etrans.
Qed.

Lemma drain_one_ok q i : quorum_ok q -> quorum_ok (drain_one q i).1 /\ advances q (drain_one q i).1 /\ same_rest q (drain_one q i).1.
Proof.
  intros Hok. destruct (drain_one_spec q i Hok) as [->|(q' & rd & h & a & -> & Hb & Hi & Hl & Hr)]; [done|]. simpl.
  destruct (ready_round_events i rd h a) as [Hev Hap]. split_and!; [| |done].
  - intros j m' Hm'. destruct (decide (i = j)) as [<-|Hij].
    + rewrite Hm' in Hi. destruct (members q !! i) as [m|] eqn:Em; [|done]. apply (inj Some) in Hi. unfold ledger, absorb in Hi.
      injection Hi as H1 H2 H3 H4 _. destruct (Hok i m Em) as [K1 K2 K3 K4 K5].
      assert (node_log i (q_log q') = node_log i (q_log q) ++ ready_round i rd h a) as Hn by (by rewrite Hl, node_log_app, (node_log_self i _ Hev)).
      assert (entries_of i (q_log q') = entries_of i (q_log q) ++ CommittedEntries rd) as He by (unfold entries_of; unfold applied_entries in *; by rewrite Hn, omap_app, Hap).
      split; [congruence| | | |].
      * rewrite Hn. by constructor.
      * by rewrite He, omap_app, H2, K3.
      * rewrite H3, H2, K4. unfold replay_log. by rewrite foldl_app.
      * by rewrite He, fmap_app, foldl_app, <- K5, H4.
    + specialize (Hb j Hij). unfold same_ledger in Hb. rewrite Hm' in Hb. destruct (members q !! j) as [m|] eqn:Em; [|done]. apply (inj Some) in Hb.
      unfold ledger in Hb. injection Hb as H1 H2 H3 H4 _. destruct (Hok j m Em) as [K1 K2 K3 K4 K5].
      assert (node_log j (q_log q') = node_log j (q_log q)) as Hn by (by rewrite Hl, node_log_app, (node_log_other i j _ Hij Hev), app_nil_r).
      split; unfold entries_of in *; rewrite ?Hn; congruence.
  - intros j. destruct (decide (i = j)) as [<-|Hij].
    + destruct (members q !! i) as [m|], (members q' !! i) as [m'|]; try done. apply (inj Some) in Hi. unfold ledger, absorb in Hi. injection Hi as H1 H2 H3 H4 H5.
      exists (omap payload (CommittedEntries rd)). by rewrite H5.
    + specialize (Hb j Hij). unfold same_ledger in Hb. destruct (members q !! j) as [m|], (members q' !! j) as [m'|]; try done. apply (inj Some) in Hb. unfold ledger in Hb.
      injection Hb as H1 H2 H3 H4 H5. exists []. rewrite app_nil_r. by rewrite H5.
Qed.

Definition sound_step (q q' : MetadataQuorum) : Prop := quorum_ok q' /\ advances q q' /\ same_rest q q'.

Lemma sound_trans q q' q'' : sound_step q q' -> (quorum_ok q' -> sound_step q' q'') -> sound_step q q''.
Proof.
  intros (H1 & H2 & H3 & H4) H. destruct (H H1) as (H5 & H6 & H7 & H8). split_and!; [done|by etrans|]. split; congruence.
Qed.

Lemma drain_pass_ok order q : quorum_ok q -> sound_step q (drain_pass q order).1.
Proof.
  unfold drain_pass. generalize false as did. revert q. induction order as [|i order IH]; intros q did Hok; [by split_and!|]. simpl.
  pose proof (drain_one_ok q i Hok) as H. destruct (drain_one q i) as [q1 d]. eapply sound_trans; [exact H|]. intros H1. by apply IH.
Qed.

Lemma drain_loop_ok fuel order q b q' b' : drain_loop fuel order q b = Some (q', b') -> quorum_ok q -> sound_step q q'.
Proof.
  revert q b. induction fuel as [|fuel IH]; intros q b E Hok; [done|]. simpl in E. pose proof (drain_pass_ok (order fuel) q Hok) as H.
  destruct (drain_pass q (order fuel)) as [q1 did]. destruct did; [|by simplify_eq]. eapply sound_trans; [exact H|]. intros H1. by eapply IH.
Qed.

(** Changes to nodes, storages and stopped marks. *)
Lemma touch_ok q q' :
  quorum_ok q -> q_log q' = q_log q -> same_rest q q' ->
  (forall j, match members q !! j, members q' !! j with
             | Some m, Some m' => (m_id m', m_committed m', m_state m', m_applied m') = (m_id m, m_committed m, m_state m, m_applied m) /\ (m_stopped m = true -> m_stopped m' = true)
             | None, None => True
             | _, _ => False
             end) -> sound_step q q'.
Proof.
  intros Hok Hl Hr H. split_and!; [| |done].
  - intros j m' Hm'. specialize (H j). rewrite Hm' in H. destruct (members q !! j) as [m|] eqn:Em; [|done]. destruct H as [[= H1 H2 H3 H4] _].
    destruct (Hok j m Em) as [K1 K2 K3 K4 K5]. split; unfold entries_of in *; rewrite ?Hl; congruence.
  - intros j. specialize (H j). destruct (members q !! j) as [m|], (members q' !! j) as [m'|]; try done. destruct H as [[= H1 H2 H3 H4] H5].
    exists []. by rewrite app_nil_r.
Qed.

Lemma touch_member q i f :
  (forall m, (m_id (f m), m_committed (f m), m_state (f m), m_applied (f m)) = (m_id m, m_committed m, m_state m, m_applied m) /\ (m_stopped m = true -> m_stopped (f m) = true)) ->
  quorum_ok q -> sound_step q (with_member q i f).
Proof.
  intros Hf Hok. apply touch_ok; [done|done|done|]. intros j. simpl. rewrite lookup_alter. case_decide; [subst|by destruct (members q !! j)].
  destruct (members q !! j); simpl; [apply Hf|done].
Qed.

Lemma process_ok p q q' b : q_processReadyLocked p q = Some (q', b) -> quorum_ok q -> sound_step q q'.
Proof. apply drain_loop_ok. Qed.

Lemma Tick_ok p q q' : q_Tick p q = Some q' -> quorum_ok q -> sound_step q q'.
Proof.
  unfold q_Tick. set (q1 := set_members _ _). intros ([q2 b] & E & ->)%fmap_Some Hok. eapply sound_trans; [|intros H1; by eapply process_ok]. apply touch_ok; [done|done|done|].
  intros j. subst q1. simpl. rewrite lookup_fmap. destruct (members q !! j) as [m|]; simpl; [destruct (m_stopped m) eqn:Es; simpl; by rewrite ?Es|done].
Qed.

Lemma Campaign_ok p q i q' r : q_Campaign p q i = Some (q', r) -> quorum_ok q -> sound_step q q'.
Proof.
  unfold q_Campaign. intros E Hok. destruct (members q !! i) as [m|]; [|by simplify_eq]. destruct (m_stopped m); [by simplify_eq|].
  destruct (raw_Campaign _ _) as [rw err]. pose proof (touch_member q i (set_mraw rw) ltac:(done) Hok) as H. destruct err; [by simplify_eq|].
  apply fmap_Some in E as ([q2 b] & E & [= -> ->]). eapply sound_trans; [exact H|]. intros H1. by eapply process_ok.
Qed.

Lemma Run_ok calls p q q' : q_Run calls p q = Some q' -> quorum_ok q -> sound_step q q'.
Proof.
  revert q. induction calls as [|calls IH]; intros q E Hok; [done|]. simpl in E. destruct (q_processReadyLocked (p calls) q) as [[q1 b]|] eqn:Ep; [|done].
  pose proof (process_ok _ _ _ _ Ep Hok) as H. destruct b; [|by simplify_eq]. eapply sound_trans; [exact H|]. intros H1. by eapply IH.
Qed.

(** Proposing records the command if the engine takes it. *)
Lemma propose_ok p order q cmd q' r :
  q_propose p order q cmd = Some (q', r) -> quorum_ok q ->
  quorum_ok q' /\ advances q q' /\ (proposals q' = proposals q \/ proposals q' = proposals q ++ [cmd]).
Proof.
  unfold q_propose. intros E Hok. destruct (encode cmd) as [data|]; [|simplify_eq; by split_and!; [| |left]]. destruct (controllerLocked order q) as [ctrl|]; [|simplify_eq; by split_and!; [| |left]].
  destruct (raw_Propose _ _ _) as [rw err]. destruct (touch_member q (m_id ctrl) (set_mraw rw) ltac:(done) Hok) as (H1 & H2 & [H3 _]). destruct err; [simplify_eq; by split_and!; [| |left]|].
  apply fmap_Some in E as ([q2 b] & E & [= -> ->]). destruct (process_ok _ _ _ _ E H1) as (H4 & H5 & [H6 _]). split_and!; [done| |right; exact H6].
  etrans; [exact H2|exact H5].
Qed.

(** ** What a drain leaves behind *)

Definition settled (m : member) : Prop := m_stopped m = true \/ HasReady (m_storage m) (m_raw m) = false.

Lemma drain_one_idle q i q' : drain_one q i = (q', false) -> q' = q /\ forall m, members q !! i = Some m -> settled m.
Proof.
  unfold drain_one, settled. destruct (members q !! i) as [m|]; [|by intros [= <-]]. destruct (m_stopped m) eqn:Es; [|destruct (HasReady _ _) eqn:Eh]; simpl.
  - intros [= <-]. split; [done|]. intros m' [= <-]. auto.
  - destruct (raw_Ready _ _), (persist_ready _ _). done.
  - intros [= <-]. split; [done|]. intros m' [= <-]. auto.
Qed.

Lemma drain_pass_idle order q q' : drain_pass q order = (q', false) -> q' = q /\ forall i m, i ∈ order -> members q !! i = Some m -> settled m.
Proof.
  unfold drain_pass. assert (forall did, foldl (fun '(q, did) i => let '(q, d) := drain_one q i in (q, did || d)) (q, did) order = (q', false) ->
    did = false /\ q' = q /\ forall i m, i ∈ order -> members q !! i = Some m -> settled m) as H; [|intros E; by apply H in E as [_ ?]].
  revert q. induction order as [|j order IH]; intros q did; simpl.
  - intros [= <- ->]. split_and!; [done|done|]. by intros i m ?%not_elem_of_nil.
  - destruct (drain_one q j) as [q1 d] eqn:E. intros ([-> ->]%orb_false_elim & -> & H)%IH. apply drain_one_idle in E as [-> Hj]. split_and!; [done|done|].
    intros i m [->|Hi]%elem_of_cons; eauto.
Qed.

Lemma process_settles p q q' b :
  q_processReadyLocked p q = Some (q', b) -> (forall k i m, members q' !! i = Some m -> i ∈ p.2 k) -> forall i m, members q' !! i = Some m -> settled m.
Proof.
  unfold q_processReadyLocked. generalize false as b0. generalize p.1 as fuel. intros fuel. revert q. induction fuel as [|fuel IH]; intros q b0 E Hord; [done|]. simpl in E.
  destruct (drain_pass q (p.2 fuel)) as [q1 did] eqn:Ep. destruct did; [by eapply IH|]. simplify_eq. apply drain_pass_idle in Ep as [-> H]. eauto.
Qed.

(** ** Executions *)

(** The quorum with the calls that have passed their checks and not yet
    proposed.  Between the two critical sections of a call anything can happen. *)
Inductive q_step : MetadataQuorum * list command -> MetadataQuorum * list command -> Prop :=
  | st_tick q fl p q' : q_Tick p q = Some q' -> q_step (q, fl) (q', fl)
  | st_campaign q fl p i q' r : q_Campaign p q i = Some (q', r) -> q_step (q, fl) (q', fl)
  | st_run q fl calls p q' : q_Run calls p q = Some q' -> q_step (q, fl) (q', fl)
  | st_create q fl order canceled name n cmd : createTopic_check order q canceled name n = inr cmd -> q_step (q, fl) (q, cmd :: fl)
  | st_assign q fl order canceled t p l cmd : assignLeader_check order q canceled t p l = inr cmd -> q_step (q, fl) (q, cmd :: fl)
  | st_propose q fl1 cmd fl2 p order q' r : q_propose p order q cmd = Some (q', r) -> q_step (q, fl1 ++ cmd :: fl2) (q', fl1 ++ fl2)
  | st_stop q fl i : q_step (q, fl) (stop_member q i, fl)
  | st_unregister q fl i : q_step (q, fl) (set_inproc q (kt_UnregisterPeer i (transport q)), fl).

(** A command the public operations propose. *)
Definition asked (q : MetadataQuorum) (c : command) : Prop :=
  (Kind c = cmdCreateTopic /\ Topic c <> EmptyString /\ 0 < Partitions c) \/ (Kind c = cmdAssignLeader /\ is_Some (members q !! Leader c)).

Definition system_ok (qf : MetadataQuorum * list command) : Prop :=
  quorum_ok qf.1 /\ Forall (asked qf.1) qf.2 /\ Forall (asked qf.1) (proposals qf.1).

Lemma asked_advances q q' c : advances q q' -> asked q c -> asked q' c.
Proof.
  intros Ha [H|[Hk [m Hm]]]; [by left|right]. split; [done|]. specialize (Ha (Leader c)). rewrite Hm in Ha. by destruct (members q' !! Leader c).
Qed.

Lemma system_advances q q' fl fl' ps :
  system_ok (q, fl) -> quorum_ok q' -> advances q q' -> fl' ⊆ fl -> proposals q' = ps -> ps ⊆ proposals q ++ fl -> system_ok (q', fl') /\ advances q q'.
Proof.
  intros (_ & Hf & Hp) Hok Ha Hfl <- Hps. rewrite Forall_forall in Hf, Hp. split; [|done]. split_and!; [done|..]; apply Forall_forall; intros c Hc; apply (asked_advances q q' c Ha); simpl in *.
  - auto.
  - apply Hps in Hc. apply elem_of_app in Hc as [Hc|Hc]; auto.
Qed.

Lemma create_asked order q canceled name n cmd : createTopic_check order q canceled name n = inr cmd -> asked q cmd.
Proof.
  unfold createTopic_check. destruct canceled; [done|]. destruct (decide (name = EmptyString)); [done|]. destruct (decide (n <= 0)); [done|]. intros E. left.
  assert (cmd = mkCommand cmdCreateTopic name n 0 0) as ->; [|simpl; split_and!; [done|done|lia]].
  destruct (controllerLocked order q) as [ctrl|]; [destruct (topics _ !! name); [by case_decide|]|]; by injection E.
Qed.

Lemma assign_asked order q canceled t p l cmd : assignLeader_check order q canceled t p l = inr cmd -> asked q cmd.
Proof.
  unfold assignLeader_check. destruct canceled; [done|]. destruct (members q !! l) as [m|] eqn:Em; [|done]. destruct (controllerLocked order q) as [ctrl|]; [|done].
  destruct (topics _ !! t); [|done]. case_decide; [done|]. intros [= <-]. right. simpl. by rewrite Em.
Qed.

Lemma q_step_ok qf qf' : q_step qf qf' -> system_ok qf -> system_ok qf' /\ advances qf.1 qf'.1.
Proof.
  intros Hs Hok. assert (quorum_ok qf.1) as Hq by apply Hok.
  assert (forall q q' fl, system_ok (q, fl) -> sound_step q q' -> system_ok (q', fl) /\ advances q q') as Hstep.
  { intros q q' fl H (H1 & H2 & H3 & _). by eapply (system_advances q q' fl fl (proposals q)); [..|set_solver]. }
  destruct Hs as [q fl p q' E|q fl p i q' r E|q fl calls p q' E|q fl order canceled name n cmd E|q fl order canceled t p l cmd E|q fl1 cmd fl2 p order q' r E|q fl i|q fl i]; simpl in *.
  - eapply Hstep, Tick_ok; done.
  - eapply Hstep, Campaign_ok; done.
  - eapply Hstep, Run_ok; done.
  - destruct Hok as (H1 & H2 & H3). split; [|reflexivity]. split_and!; [done| |done]. constructor; [by eapply create_asked|done].
  - destruct Hok as (H1 & H2 & H3). split; [|reflexivity]. split_and!; [done| |done]. constructor; [by eapply assign_asked|done].
  - destruct (propose_ok _ _ _ _ _ _ E Hq) as (H1 & H2 & H3). eapply (system_advances q q' _ _ (proposals q')); [done|done|done| |done|]; [set_solver|]. destruct H3 as [->| ->]; set_solver.
  - apply Hstep; [done|]. by apply touch_member.
  - apply Hstep; [done|]. apply touch_ok; [done|done|done|]. intros j. simpl. by destruct (members q !! j).
Qed.

Lemma q_steps_ok qf qf' : rtc q_step qf qf' -> system_ok qf -> system_ok qf' /\ advances qf.1 qf'.1.
Proof.
  induction 1 as [|qf1 qf2 qf3 H _ IH]; intros Hok; [split; [done|reflexivity]|]. destruct (q_step_ok _ _ H Hok) as [H1 H2], (IH H1) as [H3 H4]. split; [done|by etrans].
Qed.

Lemma create_members_fresh mem ps rest ms ms' :
  create_members mem ps rest ms = Some ms' -> (forall i m, ms !! i = Some m -> ledger m = (i, [], newMetadataState, 0, false)) ->
  forall i m, ms' !! i = Some m -> ledger m = (i, [], newMetadataState, 0, false).
Proof.
  revert ms. induction rest as [|pid rest IH]; intros ms E Hms; simpl in E; [by simplify_eq|]. destruct (NewRawNode mem pid) as [r|]; [|done]. simpl in E.
  destruct (Bootstrap mem r ps) as [r'|]; [|done]. simpl in E. eapply IH; [exact E|]. intros i m [[<- <-]|[_ H]]%lookup_insert_Some; [done|eauto].
Qed.

Lemma new_quorum_ok mem ps q : NewMetadataQuorum mem ps = inr q -> system_ok (q, []).
Proof.
  unfold NewMetadataQuorum. case_decide; [done|]. cbv zeta. destruct (duplicate _); [done|]. case_decide; [done|].
  destruct (create_members _ _ _ _) as [ms|] eqn:E; [|done]. intros [= <-]. split_and!; [|done|done]. intros i m Hm. simpl in *.
  apply (create_members_fresh _ _ _ _ _ E) in Hm; [|by intros j m' ?%lookup_empty_Some]. unfold ledger in Hm. injection Hm as H1 H2 H3 H4 _.
  split; [done|constructor|done|by rewrite H3, H2|done].
Qed.

(** ** What Raft promises *)

(** State machine safety: of the entries two members were given to apply, one
    list is a beginning of the other. *)
Definition raft_agrees (q : MetadataQuorum) : Prop :=
  forall i j, is_Some (members q !! i) -> is_Some (members q !! j) ->
    entries_of i (q_log q) `prefix_of` entries_of j (q_log q) \/ entries_of j (q_log q) `prefix_of` entries_of i (q_log q).

(** Validity: a payload in the log was proposed. *)
Definition raft_valid (q : MetadataQuorum) : Prop :=
  forall i ent d, is_Some (members q !! i) -> ent ∈ entries_of i (q_log q) -> payload ent = Some d -> exists c, c ∈ proposals q /\ encode c = Some d.

(** The commands that were proposed are read back from their encoding. *)
Definition json_reads (q : MetadataQuorum) : Prop := forall c d, c ∈ proposals q -> encode c = Some d -> decodeCommand d = Some c.

Lemma prefix_omap {A B} (f : A -> option B) (l l' : list A) : l `prefix_of` l' -> omap f l `prefix_of` omap f l'.
Proof. intros [k ->]. rewrite omap_app. by eexists. Qed.

Lemma agreed_extends q i j mi mj :
  quorum_ok q -> raft_agrees q -> members q !! i = Some mi -> members q !! j = Some mj -> (length (m_committed mi) <= length (m_committed mj))%nat ->
  exists rest, m_committed mj = m_committed mi ++ rest /\ m_state mj = replay_log (m_state mi) rest.
Proof.
  intros Hok Hag Hi Hj Hlen. destruct (Hok i mi Hi) as [_ _ Hci Hsi _], (Hok j mj Hj) as [_ _ Hcj Hsj _].
  assert (m_committed mi `prefix_of` m_committed mj) as [rest Hr].
  { destruct (Hag i j) as [H|H]; [by eexists|by eexists|..]; apply (prefix_omap payload) in H; rewrite <- Hci, <- Hcj in H; [done|].
    apply prefix_length_eq in H; [by rewrite H|done]. }
  exists rest. split; [done|]. rewrite Hsj, Hsi, Hr. unfold replay_log. by rewrite foldl_app.
Qed.
End kraft.

(** C13: The metadata quorum, for every Raft engine, storage and encoding, and
    every interleaving of ticks, elections, drains, topic creations and leader
    assignments (whose check and proposal are separate critical sections) and
    stops.  A member's calls to the engine are whole rounds: what a Ready holds
    is stored before its messages leave, then its committed entries are applied,
    then it is advanced; its metadata is the replay of the payloads it
    committed, in order, and is well formed; what it has applied it keeps.  When
    a drain returns no live member has work left.  If the engine gives the
    members one log, as Raft does, a member that committed no fewer commands has
    the other's metadata and the effect of further commands on it: no topic is
    lost or changes its partitions, and after equally many commands both list
    the same topics and leaders.  If moreover the log holds only what was
    proposed, every topic was asked for with these partitions, and every
    partition's leader was assigned to it and is a member. *)
Theorem kraft_metadata_converges `{HR : Raft, HN : !RaftNode, HJ : CommandJSON} (mem : Persister) (ps : list Z) (q0 q : MetadataQuorum) (fl : list command) :
  NewMetadataQuorum mem ps = inr q0 -> rtc q_step (q0, []) (q, fl) ->
  (forall i m, members q !! i = Some m -> member_ok i m (q_log q) /\ metadata_ok (m_state m)) /\
  (forall q' fl' i m, rtc q_step (q, fl) (q', fl') -> members q !! i = Some m -> exists m', members q' !! i = Some m' /\ goes_on m m' /\ topics (m_state m) ⊆ topics (m_state m')) /\
  (forall p q' b, q_processReadyLocked p q = Some (q', b) -> (forall k i m, members q' !! i = Some m -> i ∈ p.2 k) -> forall i m, members q' !! i = Some m -> settled m) /\
  (raft_agrees q -> forall i j mi mj, members q !! i = Some mi -> members q !! j = Some mj -> (length (m_committed mi) <= length (m_committed mj))%nat ->
     (exists rest, m_committed mj = m_committed mi ++ rest /\ m_state mj = replay_log (m_state mi) rest) /\ topics (m_state mi) ⊆ topics (m_state mj) /\
     (length (m_committed mi) = length (m_committed mj) -> ListTopics q i = ListTopics q j /\ forall t p, PartitionLeader q i t p = PartitionLeader q j t p)) /\
  (raft_valid q -> json_reads q -> forall i m, members q !! i = Some m -> explained (fun c => c ∈ proposals q /\ asked q c) (m_state m)).
Proof.
  intros Hnew Hrun. apply new_quorum_ok in Hnew. destruct (q_steps_ok _ _ Hrun Hnew) as [Hsys _]. destruct (Hsys) as (Hok & _ & Hasked). simpl in Hok, Hasked.
  assert (forall i m, members q !! i = Some m -> metadata_ok (m_state m)) as Hmd.
  { intros i m Hm. rewrite (mk_state _ _ _ (Hok i m Hm)). apply replay_log_ok, new_metadata_ok. }
  split_and!.
  - intros i m Hm. split; [by apply Hok|by eapply Hmd].
  - intros q' fl' i m Hr Hm. destruct (q_steps_ok _ _ Hr Hsys) as [_ Ha]. specialize (Ha i). simpl in Ha. rewrite Hm in Ha. destruct (members q' !! i) as [m'|]; [|done]. exists m'.
    split_and!; [done|exact Ha|]. destruct Ha as (rest & _ & -> & _). eapply replay_grows, Hmd, Hm.
  - intros p q' b. apply process_settles.
  - intros Hag i j mi mj Hi Hj Hlen. destruct (agreed_extends q i j mi mj Hok Hag Hi Hj Hlen) as (rest & Hc & Hs). split_and!; [by exists rest|rewrite Hs; eapply replay_grows, Hmd, Hi|].
    intros Heq. assert (m_state mj = m_state mi) as E. { rewrite Hc, length_app in Heq. destruct rest; [done|simpl in Heq; lia]. }
    unfold ListTopics, PartitionLeader. by rewrite Hi, Hj, E.
  - intros Hv Hj i m Hm. destruct (Hok i m Hm) as [_ _ Hc Hs _]. rewrite Hs. apply replay_explained; [|apply new_metadata_ok|apply new_explained].
    intros d c Hd Hdec. rewrite Hc in Hd. apply list_elem_of_omap in Hd as (ent & He & Hp). destruct (Hv i ent d) as (c' & Hc' & Henc); [by eexists|done|done|].
    rewrite (Hj c' d Hc' Henc) in Hdec. injection Hdec as <-. split; [done|]. by eapply Forall_forall.
Qed.

Module KraftDemo.
(** Member 1 leads; it commits what it is given at once and sends it to member 2. *)
#[local] Instance demo_raft : Raft := {|
  RawNode := bool * list Entry * Z; Persister := unit; HardState := unit; Payload := Entry; ConfChange := unit; error := unit;
  IsEmptyHardState := fun _ => true; unmarshalConfChange := fun _ => None; unmarshalConfChangeV2 := fun _ => None;
  SetHardState := fun st _ => (st, None); StorAppend := fun st _ => (st, None) |}.

Definition demo_ready (r : bool * list Entry * Z) : Ready * (bool * list Entry * Z) :=
  (mkReady demo_raft tt r.1.2 (if r.1.1 then (fun e => mkMessage demo_raft 1 2 e) <$> r.1.2 else []) r.1.2, r).

#[local] Instance demo_node : RaftNode := {|
  NewRawNode := fun _ i => Some (bool_decide (i = 1), [], 1); Bootstrap := fun _ r _ => Some r; HasReady := fun _ r => negb (bool_decide (length r.1.2 = O));
  raw_Ready := fun _ r => demo_ready r; raw_Advance := fun _ r _ => (r.1.1, [], r.2);
  raw_Step := fun _ r msg => (r.1.1, r.1.2 ++ [Body msg], r.2); raw_Tick := fun _ r => r; raw_Campaign := fun _ r => (r, None);
  raw_Propose := fun _ r d => ((r.1.1, r.1.2 ++ [mkEntry r.2 EntryNormal d], r.2 + 1), None); ApplyConfChange := fun _ r _ => r; IsLeader := fun _ r => r.1.1 |}.

#[local] Instance demo_json : CommandJSON := {|
  encode c := Some (Kind c :: Partitions c :: Partition c :: Leader c :: ((fun a => Z.of_N (Ascii.N_of_ascii a)) <$> String.list_ascii_of_string (Topic c)));
  decodeCommand d := match d with
    | k :: ps :: p :: l :: t => Some (mkCommand k (String.string_of_list_ascii ((fun z => Ascii.ascii_of_N (Z.to_N z)) <$> t)) ps p l)
    | _ => None end |}.

Definition demo_plan : plan := (9%nat, fun _ => [1; 2]).
Definition d0 : MetadataQuorum := match NewMetadataQuorum tt [2; 1] with inr q => q | inl _ => mkQuorum ∅ [] newInProcTransport 0 0 [] [] end.
Definition create (n : Z) : command := mkCommand cmdCreateTopic "t" n 0 0.
Definition propose_now (q : MetadataQuorum) (c : command) : MetadataQuorum * option (kraft_error unit) := default (q, None) (q_propose demo_plan [1; 2] q c).
Definition d1 : MetadataQuorum := (propose_now d0 (create 3)).1.
Definition d2 : MetadataQuorum := (propose_now d1 (mkCommand cmdAssignLeader "t" 0 1 2)).1.

Lemma demo_run : rtc q_step (d0, []) (d2, []).
Proof.
  eapply rtc_l; [apply (st_create d0 [] [1; 2] false "t" 3 (create 3)); by vm_compute|].
  eapply rtc_l; [apply (st_propose d0 [] (create 3) [] demo_plan [1; 2] d1 None); by vm_compute|].
  eapply rtc_l; [apply (st_assign d1 [] [1; 2] false "t" 1 2 (mkCommand cmdAssignLeader "t" 0 1 2)); by vm_compute|].
  apply rtc_once, (st_propose d1 [] (mkCommand cmdAssignLeader "t" 0 1 2) [] demo_plan [1; 2] d2 None). by vm_compute.
Qed.

Lemma demo_members i : is_Some (members d2 !! i) -> i = 1 \/ i = 2.
Proof.
  assert (dom (members d2) = {[1; 2]}) as H by by vm_compute. rewrite <- elem_of_dom, H. set_solver.
Qed.

Lemma kraft_metadata_converges_witness :
  ListTopics d2 1 = ListTopics d2 2 /\ ListTopics d2 2 = inr [mkTopic "t" 3 {[1 := 2]}] /\
  (forall m, members d2 !! 2 = Some m -> explained (fun c => c ∈ proposals d2 /\ asked d2 c) (m_state m)).
Proof.
  destruct (kraft_metadata_converges (HR := demo_raft) (HN := demo_node) (HJ := demo_json) tt [2; 1] d0 d2 [] ltac:(by vm_compute) demo_run) as (_ & _ & _ & H4 & H5). split_and!.
  - destruct (members d2 !! 1) as [m1|] eqn:E1; [|by vm_compute in E1]. destruct (members d2 !! 2) as [m2|] eqn:E2; [|by vm_compute in E2].
    assert (length (m_committed m1) = length (m_committed m2)) as Hlen. { vm_compute in E1, E2. injection E1 as <-. injection E2 as <-. done. }
    apply (H4 ltac:(intros i j [->| ->]%demo_members [->| ->]%demo_members; left; exists []; by vm_compute) 1 2 m1 m2 E1 E2); [lia|done].
  - by vm_compute.
  - intros m Hm. refine (H5 _ _ 2 m Hm).
    + intros i ent d [->| ->]%demo_members He Hp.
      all: exists (match d with k :: n :: p :: l :: t => mkCommand k "t" n p l | _ => create 0 end).
      all: vm_compute in He; repeat (apply elem_of_cons in He as [->|He]; [vm_compute in Hp; injection Hp as <-; split; [apply (bool_decide_unpack _)|]; by vm_compute|]); by apply not_elem_of_nil in He.
    + intros c d Hc [= <-]. vm_compute in Hc. repeat (apply elem_of_cons in Hc as [->|Hc]; [by vm_compute|]). by apply not_elem_of_nil in Hc.
Defined.

(** Two clients create the same topic with 3 and with 5 partitions.  Both pass
    the check before either proposes, and both are told that they succeeded. *)
Example conflicting_creates_succeed :
  createTopic_check [1; 2] d0 false "t" 3 = inr (create 3) /\ createTopic_check [1; 2] d0 false "t" 5 = inr (create 5) /\
  (propose_now d0 (create 3)).2 = None /\ (propose_now d1 (create 5)).2 = None /\
  ListTopics (propose_now d1 (create 5)).1 1 = inr [mkTopic "t" 3 ∅].
Proof. split_and!; by vm_compute. Qed.

End KraftDemo.
