(* ===== verification/Stonith.v ===== *)
(** * Node fencing (pkg/stonith: stonith.go, ipmi.go, cloud.go, noop.go, sbd.go)

    Agents that power a node off and confirm it, and the chain that tries one
    after the other.  What the agents act on (the ipmitool program, the power
    interfaces of clouds, a power controller, a shared mailbox) are classes over
    a type of worlds [W] that every call may change, with nothing assumed of
    them; so are the clock, the context and Unicode case folding.  The mailbox
    file of sbd.go is in [StonithSbd]. *)
From S2P Require Import Prelude.
Local Open Scope Z_scope.

(** ** What the agents use *)

(** [E] is the type of the errors of the backends. *)
Class Env (W : Type) := { ctx_Err : W -> bool; time_Now : W -> Z }.

Class CaseFold := { strings_ToLower : string -> string; strings_EqualFold : string -> string -> bool }.

Class ipmiRunner (W E : Type) := {
  lookPath : W -> option E;
  ipmi_run : W -> list string -> list string -> W * (string * option E);
}.

Class EC2Client (W E : Type) := {
  StopInstance : W -> string -> W * option E;
  InstanceState : W -> string -> W * (string * option E);
}.

Class AzureClient (W E : Type) := {
  PowerOffVM : W -> string -> string -> W * option E;
  VMPowerState : W -> string -> string -> W * (string * option E);
}.

Inductive PowerState := PoweredOn | PoweredOff.

#[export] Instance PowerState_eq_dec : EqDecision PowerState.
Proof. solve_decision. Defined.

Class SBDDevice (W E : Type) := {
  WriteSlot : W -> string -> string -> W * option E;
  ReadSlot : W -> string -> W * (string * option E);
}.

(** ** Errors and confirmations *)

(** The errors of the package; a chain that failed lists the reason of each
    level with its agent, and the context's where it was aborted. *)
Inductive fence_error (E : Type) :=
  | ErrNotConfirmed
  | ErrNoAgents
  | ErrEmptyTarget
  | ErrTargetMismatch
  | ErrBackend (e : E)
  | ErrContext
  | ErrAllLevels (attempts : list (option string * fence_error E)).
Arguments ErrNotConfirmed {E}.
Arguments ErrNoAgents {E}.
Arguments ErrEmptyTarget {E}.
Arguments ErrTargetMismatch {E}.
Arguments ErrBackend {E} _.
Arguments ErrContext {E}.
Arguments ErrAllLevels {E} _.

Class PowerController (W E : Type) := {
  PowerOff : W -> string -> W * option (fence_error E);
  State : W -> string -> W * (PowerState * option (fence_error E));
}.

Record Confirmation := mkConfirmation { Target : string; Agent : string; Method : string; At : Z }.

(** A result of [Fence]: a confirmation or nil, and an error or nil. *)
Definition fence_result (E : Type) : Type := option Confirmation * option (fence_error E).

Record FencingAgent (W E : Type) := mkAgent {
  Name : string;
  Fence : W -> string -> W * fence_result E;
  IsFenced : W -> string -> W * (bool * option (fence_error E));
}.
Arguments mkAgent {W E} _ _ _.
Arguments Name {W E} _.
Arguments Fence {W E} _ _ _.
Arguments IsFenced {W E} _ _ _.

Section stonith.
Context {W E : Type} `{!Env W}.

(** ** Agents *)

(** Every agent ends like this: ask whether the target is fenced and confirm. *)
Definition confirm (isFenced : W -> string -> W * (bool * option (fence_error E))) (name method : string) (w : W) (target : string) : W * fence_result E :=
  let '(w, (fenced, err)) := isFenced w target in
  match err with
  | Some e => (w, (None, Some e))
  | None => if fenced : bool then (w, (Some (mkConfirmation target name method (time_Now w)), None)) else (w, (None, Some ErrNotConfirmed))
  end.

Record IPMIConfig := mkIPMI { Host : string; Username : string; Password : string; Interface : string }.

Section ipmi.
Context `{!CaseFold, !ipmiRunner W E}.

Definition powerArgs (cfg : IPMIConfig) (verb : string) : list string :=
  ["-I"; Interface cfg; "-H"; Host cfg; "-U"; Username cfg; "-E"; "chassis"; "power"; verb].

Definition powerEnv (cfg : IPMIConfig) : list string := [("IPMI_PASSWORD=" +:+ Password cfg)].

(** [strings.Contains] *)
Fixpoint Contains (s sub : string) : bool :=
  String.prefix sub s || match s with EmptyString => false | String _ s' => Contains s' sub end.

Definition IPMI_IsFenced (cfg : IPMIConfig) (w : W) (target : string) : W * (bool * option (fence_error E)) :=
  if decide (target <> EmptyString /\ target <> Host cfg) then (w, (false, Some ErrTargetMismatch))
  else match lookPath w with
  | Some e => (w, (false, Some (ErrBackend e)))
  | None =>
      let '(w, (out, err)) := ipmi_run w (powerArgs cfg "status") (powerEnv cfg) in
      match err with
      | Some e => (w, (false, Some (ErrBackend e)))
      | None => (w, (Contains (strings_ToLower out) "power is off", None))
      end
  end.

Definition IPMI_Fence (name : string) (cfg : IPMIConfig) (w : W) (target : string) : W * fence_result E :=
  if decide (target = EmptyString) then (w, (None, Some ErrEmptyTarget))
  else if decide (target <> Host cfg) then (w, (None, Some ErrTargetMismatch))
  else match lookPath w with
  | Some e => (w, (None, Some (ErrBackend e)))
  | None =>
      let '(w, (_, err)) := ipmi_run w (powerArgs cfg "off") (powerEnv cfg) in
      match err with
      | Some e => (w, (None, Some (ErrBackend e)))
      | None => confirm (IPMI_IsFenced cfg) name "ipmi power off" w target
      end
  end.

Definition newIPMIAgent (name : string) (cfg : IPMIConfig) : FencingAgent W E :=
  let cfg := if decide (Interface cfg = EmptyString) then mkIPMI (Host cfg) (Username cfg) (Password cfg) "lanplus" else cfg in
  mkAgent name (IPMI_Fence name cfg) (IPMI_IsFenced cfg).
End ipmi.

Section ec2.
Context `{!CaseFold, !EC2Client W E}.

Definition EC2_IsFenced (w : W) (target : string) : W * (bool * option (fence_error E)) :=
  let '(w, (st, err)) := InstanceState w target in
  match err with Some e => (w, (false, Some (ErrBackend e))) | None => (w, (strings_EqualFold st "stopped", None)) end.

Definition EC2_Fence (name : string) (w : W) (target : string) : W * fence_result E :=
  if decide (target = EmptyString) then (w, (None, Some ErrEmptyTarget))
  else let '(w, err) := StopInstance w target in
       match err with Some e => (w, (None, Some (ErrBackend e))) | None => confirm EC2_IsFenced name "ec2 stop" w target end.

Definition NewEC2Agent (name : string) : FencingAgent W E := mkAgent name (EC2_Fence name) EC2_IsFenced.
End ec2.

Section azure.
Context `{!CaseFold, !AzureClient W E}.

Definition Azure_IsFenced (resourceGroup : string) (w : W) (target : string) : W * (bool * option (fence_error E)) :=
  let '(w, (st, err)) := VMPowerState w resourceGroup target in
  match err with
  | Some e => (w, (false, Some (ErrBackend e)))
  | None => let low := strings_ToLower st in (w, (bool_decide (low = "stopped") || bool_decide (low = "deallocated"), None))
  end.

Definition Azure_Fence (name resourceGroup : string) (w : W) (target : string) : W * fence_result E :=
  if decide (target = EmptyString) then (w, (None, Some ErrEmptyTarget))
  else let '(w, err) := PowerOffVM w resourceGroup target in
       match err with Some e => (w, (None, Some (ErrBackend e))) | None => confirm (Azure_IsFenced resourceGroup) name "azure power off" w target end.

Definition NewAzureAgent (name resourceGroup : string) : FencingAgent W E := mkAgent name (Azure_Fence name resourceGroup) (Azure_IsFenced resourceGroup).
End azure.

Section noop.
Context `{!PowerController W E}.

Definition NoOp_IsFenced (w : W) (target : string) : W * (bool * option (fence_error E)) :=
  let '(w, (st, err)) := State w target in
  match err with Some e => (w, (false, Some e)) | None => (w, (bool_decide (st = PoweredOff), None)) end.

Definition NoOp_Fence (name : string) (w : W) (target : string) : W * fence_result E :=
  if decide (target = EmptyString) then (w, (None, Some ErrEmptyTarget))
  else let '(w, err) := PowerOff w target in
       match err with
       | Some e => (w, (None, Some e))
       | None =>
           let '(w, (st, err)) := State w target in
           match err with
           | Some e => (w, (None, Some e))
           | None => if decide (st <> PoweredOff) then (w, (None, Some ErrNotConfirmed))
                     else (w, (Some (mkConfirmation target name "noop power off" (time_Now w)), None))
           end
       end.

Definition NewNoOpAgent (name : string) : FencingAgent W E := mkAgent name (NoOp_Fence name) NoOp_IsFenced.
End noop.

Section sbd.
Context `{!SBDDevice W E}.

Notation sbdMessageOff := "off" (only parsing).

Definition SBD_IsFenced (w : W) (target : string) : W * (bool * option (fence_error E)) :=
  let '(w, (msg, err)) := ReadSlot w target in
  match err with Some e => (w, (false, Some (ErrBackend e))) | None => (w, (bool_decide (msg = sbdMessageOff), None)) end.

Definition SBD_Fence (name : string) (w : W) (target : string) : W * fence_result E :=
  if decide (target = EmptyString) then (w, (None, Some ErrEmptyTarget))
  else let '(w, err) := WriteSlot w target sbdMessageOff in
       match err with Some e => (w, (None, Some (ErrBackend e))) | None => confirm SBD_IsFenced name "sbd poison" w target end.

Definition NewSBDAgent (name : string) : FencingAgent W E := mkAgent name (SBD_Fence name) SBD_IsFenced.
End sbd.

(** ** The chain *)

Definition NewMultiLevelFencer (agents : list (FencingAgent W E)) : fence_error E + list (FencingAgent W E) :=
  if decide (length agents = 0)%nat then inl ErrNoAgents else inr agents.

(** The loop of [MultiLevelFencer.Fence], with the errors so far. *)
Fixpoint fence_levels (agents : list (FencingAgent W E)) (w : W) (target : string) (errs : list (option string * fence_error E)) : W * fence_result E :=
  match agents with
  | [] => (w, (None, Some (ErrAllLevels errs)))
  | agent :: agents =>
      if ctx_Err w then (w, (None, Some (ErrAllLevels (errs ++ [(None, ErrContext)]))))
      else
        let '(w, (conf, err)) := Fence agent w target in
        match err with
        | Some e => fence_levels agents w target (errs ++ [(Some (Name agent), e)])
        | None =>
            match conf with
            | None => fence_levels agents w target (errs ++ [(Some (Name agent), ErrNotConfirmed)])
            | Some c => (w, (Some c, None))
            end
        end
  end.

Definition MultiLevelFencer_Fence (agents : list (FencingAgent W E)) (w : W) (target : string) : W * fence_result E :=
  if decide (target = EmptyString) then (w, (None, Some ErrEmptyTarget)) else fence_levels agents w target [].

(** The loop of [MultiLevelFencer.IsFenced]. *)
Fixpoint fenced_levels (agents : list (FencingAgent W E)) (w : W) (target : string) (errs : list (option string * fence_error E)) : W * (bool * option (fence_error E)) :=
  match agents with
  | [] => (w, (false, if decide (0 < length errs)%nat then Some (ErrAllLevels errs) else None))
  | agent :: agents =>
      let '(w, (fenced, err)) := IsFenced agent w target in
      match err with
      | Some e => fenced_levels agents w target (errs ++ [(Some (Name agent), e)])
      | None => if fenced : bool then (w, (true, None)) else fenced_levels agents w target errs
      end
  end.

Definition MultiLevelFencer_IsFenced (agents : list (FencingAgent W E)) (w : W) (target : string) : W * (bool * option (fence_error E)) :=
  fenced_levels agents w target [].

(** ** What a confirmation means *)

Section evidence.
Context `{!CaseFold, !ipmiRunner W E, !EC2Client W E, !AzureClient W E, !PowerController W E, !SBDDevice W E}.

(** Evidence that a target was fenced between two worlds: the command to power
    it off was accepted, and then the backend, asked about this very target,
    answered that it is off. *)
Definition ipmi_evidence (cfg : IPMIConfig) (w : W) (t : string) (w' : W) : Prop :=
  t = Host cfg /\ lookPath w = None /\ exists w1 o out,
    ipmi_run w (powerArgs cfg "off") (powerEnv cfg) = (w1, (o, None)) /\ lookPath w1 = None /\
    ipmi_run w1 (powerArgs cfg "status") (powerEnv cfg) = (w', (out, None)) /\ Contains (strings_ToLower out) "power is off" = true.

Definition ec2_evidence (w : W) (t : string) (w' : W) : Prop :=
  exists w1 st, StopInstance w t = (w1, None) /\ InstanceState w1 t = (w', (st, None)) /\ strings_EqualFold st "stopped" = true.

Definition azure_evidence (rg : string) (w : W) (t : string) (w' : W) : Prop :=
  exists w1 st, PowerOffVM w rg t = (w1, None) /\ VMPowerState w1 rg t = (w', (st, None)) /\ (strings_ToLower st = "stopped" \/ strings_ToLower st = "deallocated").

Definition noop_evidence (w : W) (t : string) (w' : W) : Prop :=
  exists w1, PowerOff w t = (w1, None) /\ State w1 t = (w', (PoweredOff, None)).

Definition sbd_evidence (w : W) (t : string) (w' : W) : Prop :=
  exists w1, WriteSlot w t "off" = (w1, None) /\ ReadSlot w1 t = (w', ("off", None)).

(** The contract of [FencingAgent.Fence]: a confirmation exactly on evidence,
    and exactly one of a confirmation and an error. *)
Class Verifies (a : FencingAgent W E) (method : string) (ev : W -> string -> W -> Prop) : Prop := {
  verifies_confirms w t w' c : Fence a w t = (w', (Some c, None)) <-> t <> EmptyString /\ ev w t w' /\ c = mkConfirmation t (Name a) method (time_Now w');
  verifies_exclusive w t : (Fence a w t).2.1 = None <-> (Fence a w t).2.2 <> None;
}.

Lemma confirm_spec isFenced name method w t w' c :
  confirm isFenced name method w t = (w', (Some c, None)) <-> isFenced w t = (w', (true, None)) /\ c = mkConfirmation t name method (time_Now w').
Proof.
  unfold confirm. destruct (isFenced w t) as [w1 [f [e|]]]; [split; [done|by intros [[=] _]]|]. destruct f; [|split; [done|by intros [[=] _]]].
  split; [by intros [= <- <-]|by intros [[= <-] ->]].
Qed.

Lemma confirm_exclusive isFenced name method w t : (confirm isFenced name method w t).2.1 = None <-> (confirm isFenced name method w t).2.2 <> None.
Proof. unfold confirm. destruct (isFenced w t) as [w1 [f [e|]]]; [done|]. by destruct f. Qed.

Lemma IPMI_IsFenced_spec cfg w t w' :
  t <> EmptyString -> IPMI_IsFenced cfg w t = (w', (true, None)) <->
  t = Host cfg /\ lookPath w = None /\ exists out, ipmi_run w (powerArgs cfg "status") (powerEnv cfg) = (w', (out, None)) /\ Contains (strings_ToLower out) "power is off" = true.
Proof.
  intros Ht. unfold IPMI_IsFenced. case_decide as Hd; [split; [done|]; intros (-> & _); by destruct Hd|].
  assert (t = Host cfg) as Hh by (destruct (decide (t = Host cfg)); [done|by destruct Hd]).
  destruct (lookPath w); [split; [done|by intros (_ & [=] & _)]|]. destruct (ipmi_run _ _ _) as [w1 [out [e|]]].
  - split; [done|by intros (_ & _ & out' & [=] & _)].
  - split; [intros [= <- Hx]; eauto|]. intros (_ & _ & out' & [= <- <-] & ->). done.
Qed.

#[export] Instance IPMI_verifies name cfg :
  let cfg' := if decide (Interface cfg = EmptyString) then mkIPMI (Host cfg) (Username cfg) (Password cfg) "lanplus" else cfg in
  Verifies (newIPMIAgent name cfg) "ipmi power off" (ipmi_evidence cfg').
Proof.
  intros cfg'. unfold newIPMIAgent. fold cfg'. split; intros w t; unfold ipmi_evidence; simpl; unfold IPMI_Fence.
  - intros w' c. case_decide as Ht; [split; [done|tauto]|]. case_decide as Hh; [split; [done|tauto]|].
    destruct (lookPath w); [split; [done|by intros (_ & (_ & [=] & _) & _)]|]. destruct (ipmi_run w _ _) as [w1 [o [e|]]]; [split; [done|]; by intros (_ & (_ & _ & ? & ? & ? & [=] & _) & _)|].
    rewrite confirm_spec, IPMI_IsFenced_spec by done. split.
    + intros ((_ & Hl & out & Hr & Hc) & ->). split_and!; [done|done|done|by exists w1, o, out|done].
    + intros (_ & (_ & _ & w2 & o2 & out & [= <- <-] & Hl & Hr & Hc) & ->). split; [|done]. split_and!; [done|done|]. by exists out.
  - case_decide; [done|]. case_decide; [done|]. destruct (lookPath w); [done|]. destruct (ipmi_run w _ _) as [w1 [o [e|]]]; [done|]. apply confirm_exclusive.
Qed.

#[export] Instance EC2_verifies name : Verifies (NewEC2Agent name) "ec2 stop" ec2_evidence.
Proof.
  split; intros w t; unfold ec2_evidence; simpl; unfold EC2_Fence.
  - intros w' c. case_decide as Ht; [split; [done|tauto]|]. destruct (StopInstance w t) as [w1 [e|]]; [split; [done|]; by intros (_ & (? & ? & [=] & _) & _)|].
    rewrite confirm_spec. unfold EC2_IsFenced. split.
    + destruct (InstanceState w1 t) as [w2 [st [e|]]] eqn:Es; [by intros [[=] _]|]. intros [[= <- Hx] ->]. split_and!; [done| |done]. by exists w1, st.
    + intros (_ & (w2 & st & [= <-] & -> & ->) & ->). done.
  - case_decide; [done|]. destruct (StopInstance w t) as [w1 [e|]]; [done|]. apply confirm_exclusive.
Qed.

#[export] Instance Azure_verifies name rg : Verifies (NewAzureAgent name rg) "azure power off" (azure_evidence rg).
Proof.
  split; intros w t; unfold azure_evidence; simpl; unfold Azure_Fence.
  - intros w' c. case_decide as Ht; [split; [done|tauto]|]. destruct (PowerOffVM w rg t) as [w1 [e|]]; [split; [done|]; by intros (_ & (? & ? & [=] & _) & _)|].
    rewrite confirm_spec. unfold Azure_IsFenced. split.
    + destruct (VMPowerState w1 rg t) as [w2 [st [e|]]] eqn:Es; [by intros [[=] _]|]. intros [[= <- Hx] ->]. split_and!; [done| |done]. exists w1, st. split_and!; [done|done|].
      apply orb_true_iff in Hx as [Hx|Hx]; apply bool_decide_eq_true in Hx; auto.
    + intros (_ & (w2 & st & [= <-] & -> & Hx) & ->). split; [|done]. do 3 f_equal. apply orb_true_iff. rewrite !bool_decide_eq_true. done.
  - case_decide; [done|]. destruct (PowerOffVM w rg t) as [w1 [e|]]; [done|]. apply confirm_exclusive.
Qed.

#[export] Instance NoOp_verifies name : Verifies (NewNoOpAgent name) "noop power off" noop_evidence.
Proof.
  split; intros w t; unfold noop_evidence; simpl; unfold NoOp_Fence.
  - intros w' c. case_decide as Ht; [split; [done|tauto]|]. destruct (PowerOff w t) as [w1 [e|]]; [split; [done|]; by intros (_ & (? & [=] & _) & _)|].
    destruct (State w1 t) as [w2 [st [e|]]] eqn:Es; [split; [done|]; intros (_ & (? & [= <-] & Hx) & _); congruence|].
    case_decide as Hst; [split; [done|]; intros (_ & (? & [= <-] & Hx) & _); congruence|]. subst st. split.
    + intros [= <- <-]. split_and!; [done| |done]. by exists w1.
    + intros (_ & (? & [= <-] & Hx) & ->). rewrite Es in Hx. by injection Hx as ->.
  - case_decide; [done|]. destruct (PowerOff w t) as [w1 [e|]]; [done|]. destruct (State w1 t) as [w2 [st [e|]]]; [done|]. by case_decide.
Qed.

#[export] Instance SBD_verifies name : Verifies (NewSBDAgent name) "sbd poison" sbd_evidence.
Proof.
  split; intros w t; unfold sbd_evidence; simpl; unfold SBD_Fence.
  - intros w' c. case_decide as Ht; [split; [done|tauto]|]. destruct (WriteSlot w t _) as [w1 [e|]]; [split; [done|]; by intros (_ & (? & [=] & _) & _)|].
    rewrite confirm_spec. unfold SBD_IsFenced. split.
    + destruct (ReadSlot w1 t) as [w2 [m [e|]]] eqn:Er; [by intros [[=] _]|]. intros [[= <- Hx] ->]. apply bool_decide_eq_true in Hx as ->. split_and!; [done| |done]. by exists w1.
    + intros (_ & (w2 & [= <-] & ->) & ->). done.
  - case_decide; [done|]. destruct (WriteSlot w t _) as [w1 [e|]]; [done|]. apply confirm_exclusive.
Qed.

(** An agent as one of the constructors makes it, the method its confirmations
    name and the evidence it needs. *)
Inductive built : FencingAgent W E -> string -> (W -> string -> W -> Prop) -> Prop :=
  | built_ipmi name cfg : Interface cfg <> EmptyString -> built (newIPMIAgent name cfg) "ipmi power off" (ipmi_evidence cfg)
  | built_lanplus name cfg : Interface cfg = EmptyString ->
      built (newIPMIAgent name cfg) "ipmi power off" (ipmi_evidence (mkIPMI (Host cfg) (Username cfg) (Password cfg) "lanplus"))
  | built_ec2 name : built (NewEC2Agent name) "ec2 stop" ec2_evidence
  | built_azure name rg : built (NewAzureAgent name rg) "azure power off" (azure_evidence rg)
  | built_noop name : built (NewNoOpAgent name) "noop power off" noop_evidence
  | built_sbd name : built (NewSBDAgent name) "sbd poison" sbd_evidence.

Lemma built_verifies a m ev : built a m ev -> Verifies a m ev.
Proof.
  intros [name cfg Hi|name cfg Hi|name|name rg|name|name]; try apply _; pose proof (IPMI_verifies name cfg) as Hv; cbv zeta in Hv.
  - by rewrite decide_False in Hv.
  - by rewrite decide_True in Hv.
Qed.

(** The levels of a chain that were tried and failed, the world after them and
    the reasons. *)
Inductive failed_levels (t : string) : list (FencingAgent W E) -> W -> W -> list (option string * fence_error E) -> Prop :=
  | failed_nil w : failed_levels t [] w w []
  | failed_cons a rest w w1 w2 e errs : ctx_Err w = false -> Fence a w t = (w1, (None, Some e)) -> failed_levels t rest w1 w2 errs ->
      failed_levels t (a :: rest) w w2 ((Some (Name a), e) :: errs).

Lemma fence_levels_failed t pre w w1 errs post acc : failed_levels t pre w w1 errs -> fence_levels (pre ++ post) w t acc = fence_levels post w1 t (acc ++ errs).
Proof.
  intros Hf. revert acc. induction Hf as [|a rest w w1 w2 e errs Hc HF _ IH]; intros acc; simpl; [by rewrite app_nil_r|]. by rewrite Hc, HF, IH, <- app_assoc.
Qed.

(** Every run of a chain is a run of failed levels that ends in one of three ways. *)
Inductive chain_run (t : string) (agents : list (FencingAgent W E)) (w w' : W) : fence_result E -> Prop :=
  | run_confirmed pre a post w1 errs m ev :
      agents = pre ++ a :: post -> failed_levels t pre w w1 errs -> ctx_Err w1 = false -> built a m ev -> ev w1 t w' ->
      chain_run t agents w w' (Some (mkConfirmation t (Name a) m (time_Now w')), None)
  | run_exhausted errs : failed_levels t agents w w' errs -> chain_run t agents w w' (None, Some (ErrAllLevels errs))
  | run_aborted pre a post errs :
      agents = pre ++ a :: post -> failed_levels t pre w w' errs -> ctx_Err w' = true -> chain_run t agents w w' (None, Some (ErrAllLevels (errs ++ [(None, ErrContext)]))).

Lemma chain_run_sound t agents w w' r :
  t <> EmptyString -> chain_run t agents w w' r -> fence_levels agents w t [] = (w', r).
Proof.
  intros Ht [pre a post w1 errs m ev -> Hf Hc Hb Hev|errs Hf|pre a post errs -> Hf Hc].
  - rewrite (fence_levels_failed _ _ _ _ _ _ _ Hf). simpl. rewrite Hc. destruct (built_verifies _ _ _ Hb) as [Hv _].
    by rewrite (proj2 (Hv w1 t w' (mkConfirmation t (Name a) m (time_Now w')))).
  - by rewrite <- (app_nil_r agents), (fence_levels_failed _ _ _ _ _ _ _ Hf).
  - rewrite (fence_levels_failed _ _ _ _ _ _ _ Hf). simpl. by rewrite Hc.
Qed.

Lemma chain_run_complete t agents w :
  t <> EmptyString -> Forall (fun a => exists m ev, built a m ev) agents -> exists w' r, chain_run t agents w w' r.
Proof.
  intros Ht. revert w. induction agents as [|a agents IH]; intros w Hb; [exists w; eexists; by eapply run_exhausted, failed_nil|].
  inversion_clear Hb as [|?? (m & ev & Ha) Hrest]. destruct (ctx_Err w) eqn:Ec; [exists w; eexists; by eapply (run_aborted _ _ _ _ []); [done|apply failed_nil|]|].
  destruct (built_verifies _ _ _ Ha) as [Hv Hx]. specialize (Hx w t). destruct (Fence a w t) as [w1 [[c|] [e|]]] eqn:Ef; simpl in Hx; [by destruct Hx as [_ Hx]; discriminate Hx| | |by destruct Hx as [Hx _]; destruct Hx].
  - apply Hv in Ef as (_ & Hev & ->). exists w1. eexists. eapply (run_confirmed _ _ _ _ []); [done|apply failed_nil|done|done|done].
  - destruct (IH w1 Hrest) as (w' & r & [pre a' post w2 errs m' ev' -> Hf Hc Hb' Hev'|errs Hf|pre a' post errs -> Hf Hc]); exists w'; eexists.
    + eapply (run_confirmed _ _ _ _ (a :: pre)); [done|by eapply failed_cons|done|done|done].
    + eapply run_exhausted. by eapply failed_cons.
    + eapply (run_aborted _ _ _ _ (a :: pre)); [done|by eapply failed_cons|done].
Qed.
End evidence.
End stonith.

(** C16: No false fence.  For every chain of agents of the package and every
    behaviour of the program, the clouds, the power controller, the mailbox, the
    clock and the context they use, fencing a target runs the levels in order
    and ends in exactly one of these ways.  A confirmation is returned exactly
    when all levels before one failed and at that level the command to power
    this target off was accepted and its backend then answered that this target
    is off; it names the target, that agent, its method and the time, and later
    levels are not tried.  Otherwise the error lists the reason of every level
    that was tried, each tried once, because all of them failed or the context
    was cancelled before the next.  An empty target touches nothing. *)
Theorem stonith_no_false_fence {W E : Type} `{!Env W, !CaseFold, !ipmiRunner W E, !EC2Client W E, !AzureClient W E, !PowerController W E, !SBDDevice W E}
    (agents : list (FencingAgent W E)) (w w' : W) (t : string) (r : fence_result E) :
  Forall (fun a => exists m ev, built a m ev) agents ->
  MultiLevelFencer_Fence agents w t = (w', r) <->
  (t = EmptyString /\ w' = w /\ r = (None, Some ErrEmptyTarget)) \/ (t <> EmptyString /\ chain_run t agents w w' r).
Proof.
  intros Hb. unfold MultiLevelFencer_Fence. case_decide as Ht.
  - split; [intros [= <- <-]; by left|]. by intros [(_ & -> & ->)|[? _]].
  - split.
    + intros Hr. right. split; [done|]. destruct (chain_run_complete t agents w Ht Hb) as (w1 & r1 & H1). pose proof (chain_run_sound _ _ _ _ _ Ht H1) as H2. congruence.
    + intros [(? & _)|[_ H1]]; [done|]. by apply chain_run_sound.
Qed.

Module ChainDemo.
(** A world is the set of nodes that are off.  The ipmitool program reports its
    host as off, but can not reach it to turn it off. *)
#[local] Instance demo_env : Env (gset string) := {| ctx_Err := fun _ => false; time_Now := fun _ => 7 |}.
#[local] Instance demo_fold : CaseFold := {| strings_ToLower := id; strings_EqualFold := fun a b => bool_decide (a = b) |}.
#[local] Instance demo_ipmi : ipmiRunner (gset string) unit := {|
  lookPath := fun _ => None;
  ipmi_run := fun w args _ => (w, if decide (last args = Some "off") then (EmptyString, Some tt) else ("chassis power is off", None)) |}.
#[local] Instance demo_ec2 : EC2Client (gset string) unit := {| StopInstance := fun w t => (w, None); InstanceState := fun w t => (w, ("running", None)) |}.
#[local] Instance demo_azure : AzureClient (gset string) unit := {| PowerOffVM := fun w _ t => (w, Some tt); VMPowerState := fun w _ t => (w, ("running", None)) |}.
#[local] Instance demo_power : PowerController (gset string) unit := {|
  PowerOff := fun w t => ({[t]} ∪ w, None); State := fun w t => (w, (if decide (t ∈ w) then PoweredOff else PoweredOn, None)) |}.
#[local] Instance demo_sbd : SBDDevice (gset string) unit := {| WriteSlot := fun w _ _ => (w, None); ReadSlot := fun w _ => (w, (EmptyString, None)) |}.

Definition cfg : IPMIConfig := mkIPMI "n" "u" "p" EmptyString.
Definition chain : list (FencingAgent (gset string) unit) := [newIPMIAgent "bmc" cfg; NewEC2Agent "ec2"; NewNoOpAgent "power"; NewSBDAgent "sbd"].

Lemma chain_built : Forall (fun a => exists m ev, built a m ev) chain.
Proof. repeat constructor; eexists _, _; [by apply built_lanplus|apply built_ec2|apply built_noop|apply built_sbd]. Qed.

(** The first two levels fail, for different reasons, and the third confirms. *)
Lemma stonith_no_false_fence_witness :
  let w' := ({["n"]} ∪ ∅ : gset string) in
  MultiLevelFencer_Fence chain ∅ "n" = (w', (Some (mkConfirmation "n" "power" "noop power off" 7), None)) /\
  (exists errs, failed_levels "n" [newIPMIAgent "bmc" cfg; NewEC2Agent "ec2"] ∅ ∅ errs) /\ chain_run "n" chain ∅ w' (Some (mkConfirmation "n" "power" "noop power off" 7), None).
Proof.
  cbv zeta. split; [vm_compute; reflexivity|]. split.
  - exists [(Some "bmc", ErrBackend tt); (Some "ec2", ErrNotConfirmed)].
    apply (failed_cons "n" (newIPMIAgent "bmc" cfg) _ ∅ ∅); [reflexivity|vm_compute; reflexivity|].
    apply (failed_cons "n" (NewEC2Agent "ec2") _ ∅ ∅); [reflexivity|vm_compute; reflexivity|]. apply failed_nil.
  - destruct (proj1 (stonith_no_false_fence chain ∅ ({["n"]} ∪ ∅) "n" (Some (mkConfirmation "n" "power" "noop power off" 7), None) chain_built)) as [(H & _)|[_ H]];
      [vm_compute; reflexivity|discriminate H|exact H].
Defined.

(** Asked about no target, the agent reports on its own host. *)
Example empty_target_is_fenced : MultiLevelFencer_IsFenced [newIPMIAgent "bmc" cfg] ∅ EmptyString = (∅, (true, None)).
Proof. vm_compute. reflexivity. Qed.
End ChainDemo.
