(* ===== verification/StonithSbd.v ===== *)
(** * The fencing mailbox file and the power controllers (pkg/stonith: sbd.go, noop.go)

    [FileSBDDevice] keeps one line [target=message] per node in a file.  The file
    system is a map from paths to contents, and a list of faults says which
    calls fail; a write that fails leaves the beginning of what it was to write.
    The device is an instance of the class [SBDDevice] that the agent of
    [Stonith] uses, and the two power controllers are instances of
    [PowerController]. *)
From Stdlib Require Import Ascii.
From S2P Require Import Prelude.
From S2P Require Import Stonith.
Local Open Scope Z_scope.

(** ** Power controllers *)

Inductive os_error := ErrIO | ErrEmpty.

(** [InMemoryPower] *)
Definition InMemoryPower : Type := gmap string PowerState.
Definition NewInMemoryPower : InMemoryPower := ∅.

Definition InMemoryPower_PowerOff (p : InMemoryPower) (target : string) : InMemoryPower * option (fence_error os_error) :=
  if decide (target = EmptyString) then (p, Some ErrEmptyTarget) else (<[target := PoweredOff]> p, None).

Definition InMemoryPower_State (p : InMemoryPower) (target : string) : InMemoryPower * (PowerState * option (fence_error os_error)) :=
  if decide (target = EmptyString) then (p, (PoweredOn, Some ErrEmptyTarget)) else (p, (default PoweredOn (p !! target), None)).

#[export] Instance in_memory_power : PowerController InMemoryPower os_error := {| PowerOff := InMemoryPower_PowerOff; State := InMemoryPower_State |}.

(** [FailingPowerController]; [err] is its [Err] field. *)
Definition Failing_PowerOff {W} (err : option (fence_error os_error)) (w : W) (target : string) : W * option (fence_error os_error) :=
  (w, Some (default ErrNotConfirmed err)).
Definition Failing_State {W} (w : W) (target : string) : W * (PowerState * option (fence_error os_error)) := (w, (PoweredOn, None)).

(** ** The file system *)

(** [faults]: for each call to come, [None] if it works and [Some n] if it
    fails, where a write has written [n] bytes by then. *)
Record disk := mkDisk { files : gmap string string; faults : list (option nat) }.

Definition next_fault (d : disk) : disk * option nat :=
  match faults d with [] => (d, None) | f :: fs => (mkDisk (files d) fs, f) end.

Definition ReadFile (d : disk) (path : string) : disk * option string :=
  let '(d, f) := next_fault d in
  match f with Some _ => (d, None) | None => (d, files d !! path) end.

(** [os.WriteFile] creates or truncates the file. *)
Definition WriteFile (d : disk) (path data : string) : disk * bool :=
  let '(d, f) := next_fault d in
  match f with
  | Some n => (mkDisk (<[path := String.substring 0 n data]> (files d)) (faults d), false)
  | None => (mkDisk (<[path := data]> (files d)) (faults d), true)
  end.

Definition Rename (d : disk) (old new : string) : disk * bool :=
  let '(d, f) := next_fault d in
  match f, files d !! old with
  | None, Some data => (mkDisk (<[new := data]> (delete old (files d))) (faults d), true)
  | _, _ => (d, false)
  end.

Definition Remove (d : disk) (path : string) : disk :=
  let '(d, f) := next_fault d in
  match f with Some _ => d | None => mkDisk (delete path (files d)) (faults d) end.

(** ** The mailbox *)

Definition newline : ascii := "010"%char.
Definition equals : ascii := "="%char.

(** [strings.Split] at newlines. *)
Fixpoint Split (s : string) : list string :=
  match s with
  | EmptyString => [EmptyString]
  | String c s' =>
      if decide (c = newline) then EmptyString :: Split s'
      else match Split s' with [] => [String c EmptyString] | l :: ls => String c l :: ls end
  end.

(** [strings.Cut] at the first equals sign. *)
Fixpoint Cut (s : string) : option (string * string) :=
  match s with
  | EmptyString => None
  | String c s' => if decide (c = equals) then Some (EmptyString, s') else '(k, v) ← Cut s'; Some (String c k, v)
  end.

(** One line of the loop of [slots]. *)
Definition add_line (out : gmap string string) (line : string) : gmap string string :=
  if decide (line = EmptyString) then out
  else match Cut line with None => out | Some (k, v) => <[k := v]> out end.

Definition parse_slots (data : string) : gmap string string := foldl add_line ∅ (Split data).

(** [FileSBDDevice.slots] *)
Definition slots (d : disk) (path : string) : disk * option (gmap string string) :=
  let '(d, data) := ReadFile d path in (d, parse_slots <$> data).

(** The loop that writes the lines, in the order of the names. *)
Definition print_slots (m : gmap string string) : string :=
  foldl (fun b k => b +:+ k +:+ "=" +:+ default EmptyString (m !! k) +:+ String newline EmptyString) EmptyString (sort_strings (map_to_list m).*1).

(** [FileSBDDevice.WriteSlot] *)
Definition File_WriteSlot (path : string) (d : disk) (target msg : string) : disk * option os_error :=
  if decide (target = EmptyString) then (d, Some ErrEmpty)
  else
    let '(d, m) := slots d path in
    match m with
    | None => (d, Some ErrIO)
    | Some m =>
        let tmp := path +:+ ".tmp" in
        let '(d, ok) := WriteFile d tmp (print_slots (<[target := msg]> m)) in
        if ok : bool then
          let '(d, ok) := Rename d tmp path in
          if ok : bool then (d, None) else (Remove d tmp, Some ErrIO)
        else (d, Some ErrIO)
    end.

(** [FileSBDDevice.ReadSlot] *)
Definition File_ReadSlot (path : string) (d : disk) (target : string) : disk * (string * option os_error) :=
  let '(d, m) := slots d path in
  match m with None => (d, (EmptyString, Some ErrIO)) | Some m => (d, (default EmptyString (m !! target), None)) end.

(** [NewFileSBDDevice] opens the file, which creates it if it is not there, and
    closes it; either call can fail. *)
Definition NewFileSBDDevice (d : disk) (path : string) : disk * bool :=
  if decide (path = EmptyString) then (d, false)
  else let '(d, f) := next_fault d in
       match f with
       | Some _ => (d, false)
       | None =>
           let d := mkDisk (match files d !! path with Some _ => files d | None => <[path := EmptyString]> (files d) end) (faults d) in
           let '(d, f) := next_fault d in (d, bool_decide (f = None))
       end.

(** The device at a path. *)
Definition file_device (path : string) : SBDDevice disk os_error := {| WriteSlot := File_WriteSlot path; ReadSlot := File_ReadSlot path |}.

(** ** Text *)

#[local] Arguments String.append !_ _ /.

Fixpoint lacks (c : ascii) (s : string) : Prop :=
  match s with EmptyString => True | String a s' => a <> c /\ lacks c s' end.

Lemma str_app_assoc (a b c : string) : (a +:+ b) +:+ c = a +:+ (b +:+ c).
Proof. induction a as [|x a IH]; simpl; [done|]. by rewrite IH. Qed.

Lemma Split_line s t : lacks newline s -> Split (s +:+ String newline t) = s :: Split t.
Proof.
  induction s as [|c s IH]; simpl; [done|]. intros [Hc Hs]. rewrite decide_False by done. by rewrite (IH Hs).
Qed.

Lemma Split_lacks s l : l ∈ Split s -> lacks newline l.
Proof.
  revert l. induction s as [|c s IH]; simpl; [by intros l ->%list_elem_of_singleton|]. intros l. case_decide as Hc.
  - intros [->|Hl]%elem_of_cons; [done|auto].
  - destruct (Split s) as [|x ls]; [intros ->%list_elem_of_singleton; done|]. intros [->|Hl]%elem_of_cons; [|apply IH; by right]. split; [done|]. apply IH. by left.
Qed.

Lemma Cut_line k v : lacks equals k -> Cut (k +:+ "=" +:+ v) = Some (k, v).
Proof. induction k as [|c k IH]; simpl; [done|]. intros [Hc Hk]. rewrite decide_False by done. simpl in IH. by rewrite (IH Hk). Qed.

Lemma Cut_lacks l k v : Cut l = Some (k, v) -> lacks newline l -> lacks equals k /\ lacks newline k /\ lacks newline v.
Proof.
  revert k. induction l as [|c l IH]; simpl; [done|]. intros k. case_decide as Hc; [by intros [= <- <-] [_ ?]|]. destruct (Cut l) as [[k' v']|]; [|done]. simpl.
  intros [= <- <-] [Hn Hl]. destruct (IH k' eq_refl Hl) as (? & ? & ?). done.
Qed.

Lemma lacks_app c a b : lacks c a -> lacks c b -> lacks c (a +:+ b).
Proof. induction a as [|x a IH]; simpl; [done|]. intros [? ?] ?. auto. Qed.

(** ** Reading back what was written *)

(** The names and messages that a file of lines can hold. *)
Definition clean (m : gmap string string) : Prop :=
  forall k v, m !! k = Some v -> lacks equals k /\ lacks newline k /\ lacks newline v.

Lemma clean_insert m k v : lacks equals k -> lacks newline k -> lacks newline v -> clean m -> clean (<[k := v]> m).
Proof. intros H1 H2 H3 Hm k' v' [[<- <-]|[_ H]]%lookup_insert_Some; [done|eauto]. Qed.

(** Whatever a file holds, what is read from it is clean. *)
Lemma parse_clean data : clean (parse_slots data).
Proof.
  unfold parse_slots. assert (Forall (lacks newline) (Split data)) as Hl by (apply Forall_forall; intros l; apply Split_lacks). revert Hl.
  assert (clean ∅) as Hm by (by intros k v ?%lookup_empty_Some). revert Hm. generalize (∅ : gmap string string).
  induction (Split data) as [|l ls IH]; intros m Hm Hl; [done|]. inversion_clear Hl as [|?? Hl1 Hls]. simpl. apply IH; [|done]. unfold add_line.
  case_decide; [done|]. destruct (Cut l) as [[k v]|] eqn:E; [|done]. destruct (Cut_lacks _ _ _ E Hl1) as (? & ? & ?). by apply clean_insert.
Qed.

Definition line (m : gmap string string) (k : string) : string := k +:+ "=" +:+ default EmptyString (m !! k).

Lemma print_lines m ks b :
  foldl (fun b k => b +:+ k +:+ "=" +:+ default EmptyString (m !! k) +:+ String newline EmptyString) b ks =
  b +:+ foldr (fun k rest => line m k +:+ String newline rest) EmptyString ks.
Proof.
  revert b. induction ks as [|k ks IH]; intros b; simpl; [induction b as [|x b IHb]; simpl; [done|by rewrite <- IHb]|].
  rewrite IH. unfold line. rewrite !str_app_assoc. simpl. by rewrite !str_app_assoc.
Qed.

Lemma Split_lines m ks :
  Forall (fun k => lacks newline (line m k)) ks -> Split (foldr (fun k rest => line m k +:+ String newline rest) EmptyString ks) = (line m <$> ks) ++ [EmptyString].
Proof. induction 1 as [|k ks Hk _ IH]; simpl; [done|]. by rewrite Split_line, IH. Qed.

Lemma line_clean m k : clean m -> is_Some (m !! k) -> lacks newline (line m k) /\ (forall out, add_line out (line m k) = <[k := default EmptyString (m !! k)]> out).
Proof.
  intros Hm [v Hv]. destruct (Hm k v Hv) as (H1 & H2 & H3). unfold line. rewrite Hv. change (default EmptyString (Some v)) with v. split; [by apply lacks_app|]. intros out. unfold add_line.
  rewrite decide_False by (by destruct k). by rewrite (Cut_line k v H1).
Qed.

Lemma collect_lookup (f : string -> string) ks i : foldl (fun out k => <[k := f k]> out) (∅ : gmap string string) ks !! i = if decide (i ∈ ks) then Some (f i) else None.
Proof.
  induction ks as [|k ks IH] using rev_ind; [by rewrite decide_False by apply not_elem_of_nil|]. rewrite foldl_snoc, lookup_insert, IH.
  destruct (decide (k = i)) as [->|Hne]; [rewrite decide_True; [done|set_solver]|]. destruct (decide (i ∈ ks)); [by rewrite decide_True by set_solver|by rewrite decide_False by set_solver].
Qed.

Lemma print_parse m : clean m -> parse_slots (print_slots m) = m.
Proof.
  intros Hm. unfold parse_slots, print_slots. set (ks := sort_strings _). rewrite print_lines. simpl.
  assert (forall k, k ∈ ks <-> is_Some (m !! k)) as Hks.
  { intros k. unfold ks. rewrite sort_strings_perm, list_elem_of_fmap. split; [intros ([k' v] & -> & H%elem_of_map_to_list); by eexists|]. intros [v Hv]. exists (k, v). split; [done|]. by apply elem_of_map_to_list. }
  rewrite Split_lines by (apply Forall_forall; intros k Hk; apply line_clean; [done|by apply Hks]). rewrite foldl_app.
  assert (foldl add_line ∅ (line m <$> ks) = foldl (fun out k => <[k := default EmptyString (m !! k)]> out) ∅ ks) as ->.
  { assert (Forall (fun k => is_Some (m !! k)) ks) as Hf by (apply Forall_forall; intros k; apply Hks). clear Hks. clearbody ks. generalize (∅ : gmap string string).
    induction Hf as [|k ks Hk _ IH]; intros out; simpl; [done|]. by rewrite (proj2 (line_clean m k Hm Hk)), IH. }
  cbn [foldl]. unfold add_line. rewrite decide_True by done. apply map_eq. intros i. rewrite (collect_lookup (fun k => default EmptyString (m !! k))). destruct (decide (i ∈ ks)) as [Hi|Hi]; [apply Hks in Hi as [v ->]; done|]. symmetry. apply eq_None_not_Some. by rewrite <- Hks.
Qed.

(** ** The device *)

(** The messages in the file at a path, and that of one node. *)
Definition mailbox (d : disk) (path : string) : gmap string string := default ∅ (parse_slots <$> files d !! path).
Definition slot (d : disk) (path n : string) : string := default EmptyString (mailbox d path !! n).

(** A write of one slot that happened as a whole. *)
Definition written (path t msg : string) (d d' : disk) : Prop :=
  exists data, files d !! path = Some data /\ files d' !! path = Some (print_slots (<[t := msg]> (parse_slots data))) /\ mailbox d' path = <[t := msg]> (mailbox d path).

Definition elsewhere (path : string) (d d' : disk) : Prop := forall p, p <> path -> p <> path +:+ ".tmp" -> files d' !! p = files d !! p.

Lemma tmp_other (path : string) : path +:+ ".tmp" <> path.
Proof. induction path as [|c path IH]; simpl; [done|]. by intros [= ?]. Qed.

Lemma next_fault_files d : files (next_fault d).1 = files d.
Proof. unfold next_fault. by destruct (faults d). Qed.

Lemma slots_spec d path : files (slots d path).1 = files d /\ ((slots d path).2 = None \/ (slots d path).2 = parse_slots <$> files d !! path).
Proof.
  unfold slots, ReadFile. pose proof (next_fault_files d) as Hn. destruct (next_fault d) as [d1 [n|]]; simpl in *; [by split; [|left]|]. rewrite Hn. by split; [|right].
Qed.

Lemma WriteSlot_spec path d t msg d' err :
  lacks equals t -> lacks newline t -> lacks newline msg -> File_WriteSlot path d t msg = (d', err) ->
  elsewhere path d d' /\ match err with None => written path t msg d d' | Some _ => files d' !! path = files d !! path end.
Proof.
  intros H1 H2 H3. unfold File_WriteSlot. case_decide; [by intros [= <- <-]|]. destruct (slots_spec d path) as [Hf Hs]. destruct (slots d path) as [d1 m]. simpl in *.
  destruct m as [m|]; [|intros [= <- <-]; unfold elsewhere; by rewrite Hf]. destruct Hs as [?|Hs]; [done|]. symmetry in Hs. apply fmap_Some in Hs as (data & Hd & ->).
  pose proof (tmp_other path) as Ht. unfold WriteFile. pose proof (next_fault_files d1) as Hn. destruct (next_fault d1) as [d2 [n|]]; simpl in Hn.
  { intros [= <- <-]. unfold elsewhere. simpl. rewrite Hn, Hf. split; [|by rewrite lookup_insert_ne]. intros p Hp Hp'. by rewrite lookup_insert_ne. }
  unfold Rename. set (d3 := mkDisk _ _). pose proof (next_fault_files d3) as Hn3. destruct (next_fault d3) as [d4 f]. simpl in Hn3. rewrite Hn, Hf in Hn3.
  assert (forall d5, files d5 = files d4 \/ files d5 = delete (path +:+ ".tmp") (files d4) -> elsewhere path d d5 /\ files d5 !! path = files d !! path) as Hfail.
  { intros d5 [E|E]; unfold elsewhere; rewrite E, Hn3; (split; [intros p Hp Hp'|]); rewrite ?lookup_delete_ne, ?lookup_insert_ne; done. }
  rewrite Hn3, lookup_insert_eq. destruct f.
  - intros [= <- <-]. apply Hfail. unfold Remove. pose proof (next_fault_files d4) as Hn4. destruct (next_fault d4) as [d5 [n'|]]; simpl in *; [by left|]. right. by rewrite Hn4.
  - intros [= <- <-]. split; [intros p Hp Hp'; simpl; by rewrite lookup_insert_ne, lookup_delete_ne, lookup_insert_ne by done|].
    exists data. simpl. rewrite lookup_insert_eq. split_and!; [done|done|]. unfold mailbox. simpl. rewrite lookup_insert_eq, Hd. simpl.
    apply print_parse, clean_insert; [done..|apply parse_clean].
Qed.

Lemma ReadSlot_spec path d t : files (File_ReadSlot path d t).1 = files d /\ ((File_ReadSlot path d t).2.2 = None -> (File_ReadSlot path d t).2.1 = slot d path t).
Proof.
  unfold File_ReadSlot. destruct (slots_spec d path) as [Hf Hs]. destruct (slots d path) as [d1 [m|]]; simpl in *; [|done]. split; [done|]. intros _. unfold slot, mailbox. destruct Hs as [?|<-]; done.
Qed.

(** When no call fails the device works. *)
Lemma WriteSlot_works path d t msg : t <> EmptyString -> is_Some (files d !! path) -> Forall (eq None) (faults d) ->
  (File_WriteSlot path d t msg).2 = None /\ Forall (eq None) (faults (File_WriteSlot path d t msg).1).
Proof.
  intros Ht [data Hd] Hf. assert (forall d, Forall (eq None) (faults d) -> exists fs, next_fault d = (mkDisk (files d) fs, None) /\ Forall (eq None) fs) as Hnext.
  { intros [fl [|f fs]] H; unfold next_fault; simpl in *; [by exists []|]. inversion_clear H as [|?? <- Hfs]. by exists fs. }
  unfold File_WriteSlot, slots, ReadFile. rewrite decide_False by done. destruct (Hnext d Hf) as (fs1 & -> & Hf1). simpl. rewrite Hd. simpl. unfold WriteFile.
  destruct (Hnext (mkDisk (files d) fs1) Hf1) as (fs2 & -> & Hf2). simpl. unfold Rename.
  set (d3 := mkDisk _ fs2). destruct (Hnext d3 Hf2) as (fs3 & -> & Hf3). simpl. by rewrite lookup_insert_eq.
Qed.

Lemma ReadSlot_works path d t : is_Some (files d !! path) -> Forall (eq None) (faults d) -> (File_ReadSlot path d t).2.2 = None.
Proof.
  intros [data Hd] Hf. unfold File_ReadSlot, slots, ReadFile, next_fault. destruct (faults d) as [|f fs]; simpl; [by rewrite Hd|]. inversion_clear Hf as [|?? <- _]. simpl. by rewrite Hd.
Qed.

Lemma written_other path t msg d d' n : written path t msg d d' -> n <> t -> slot d' path n = slot d path n.
Proof. intros (data & _ & _ & Hm) Hn. unfold slot. by rewrite Hm, lookup_insert_ne. Qed.

Lemma unchanged_slot path d d' n : files d' !! path = files d !! path -> slot d' path n = slot d path n.
Proof. unfold slot, mailbox. by intros ->. Qed.

(** Fencing on the device: what is known of the disk afterwards. *)
Lemma SBD_Fence_file `{!Env disk} name path t d d' r :
  lacks equals t -> lacks newline t -> SBD_Fence (SBDDevice0 := file_device path) name d t = (d', r) ->
  elsewhere path d d' /\ (files d' !! path = files d !! path \/ written path t "off" d d') /\ (r.2 = None -> written path t "off" d d').
Proof.
  intros H1 H2. unfold SBD_Fence. case_decide; [intros [= <- <-]; split_and!; [done|by left|done]|]. simpl.
  destruct (File_WriteSlot path d t "off") as [d1 [e|]] eqn:Ew; apply WriteSlot_spec in Ew as [He Hw]; try done; [intros [= <- <-]; split_and!; [done|by left|done]|].
  unfold confirm, SBD_IsFenced. simpl. destruct (ReadSlot_spec path d1 t) as [Hf _]. destruct (File_ReadSlot path d1 t) as [d2 [m err]]. simpl in Hf.
  intros Hr. assert (d' = d2) as -> by (destruct err; [|case_bool_decide]; by injection Hr).
  assert (written path t "off" d d2) as Hw2 by (unfold written, mailbox in *; by rewrite Hf). split_and!; [unfold elsewhere in *; by rewrite Hf|by right|done].
Qed.

Lemma SBD_Fence_works `{!Env disk} name path t d d' r :
  lacks equals t -> lacks newline t -> SBD_Fence (SBDDevice0 := file_device path) name d t = (d', r) ->
  t <> EmptyString -> is_Some (files d !! path) -> Forall (eq None) (faults d) -> exists c, r = (Some c, None) /\ Target c = t.
Proof.
  intros H1 H2 HF Ht Hp Hf. revert HF. unfold SBD_Fence. rewrite decide_False by done. simpl. destruct (WriteSlot_works path d t "off" Ht Hp Hf) as [Hok Hf1].
  destruct (File_WriteSlot path d t "off") as [d1 err] eqn:Ew. simpl in Hok, Hf1. subst err. apply WriteSlot_spec in Ew as [_ Hw]; [|done..]. destruct Hw as (data & _ & Hd1 & Hm).
  unfold confirm, SBD_IsFenced. simpl. pose proof (ReadSlot_works path d1 t ltac:(by eexists) Hf1) as Hr1. destruct (ReadSlot_spec path d1 t) as [_ Hr2]. specialize (Hr2 Hr1).
  destruct (File_ReadSlot path d1 t) as [d2 [m err]]. simpl in Hr1, Hr2. subst err. unfold slot in Hr2. rewrite Hm, lookup_insert_eq in Hr2. simpl in Hr2. subst m.
  rewrite bool_decide_eq_true_2 by done. intros [= <- <-]. by eexists.
Qed.

(** C17: The fencing mailbox, for target names without equals signs and newlines,
    whatever the file held and whichever calls of the file system fail.  A write
    of a slot happens as a whole or leaves the file as it was, and touches no
    file but the mailbox and its temporary; reading returns what was written.
    Fencing through the mailbox never changes the slot of another node; when it
    is confirmed the slot of the target holds the poison; and when no call fails
    it is confirmed. *)
Theorem sbd_mailbox_exact `{!Env disk} (name path t : string) (d d' : disk) (r : fence_result os_error) :
  lacks equals t -> lacks newline t -> SBD_Fence (SBDDevice0 := file_device path) name d t = (d', r) ->
  (forall msg, lacks newline msg ->
     elsewhere path d (File_WriteSlot path d t msg).1 /\
     match File_WriteSlot path d t msg with
     | (d1, None) => written path t msg d d1 /\ ((File_ReadSlot path d1 t).2.2 = None -> (File_ReadSlot path d1 t).2.1 = msg)
     | (d1, Some _) => files d1 !! path = files d !! path
     end) /\
  elsewhere path d d' /\ (files d' !! path = files d !! path \/ written path t "off" d d') /\
  (forall n, n <> t -> slot d' path n = slot d path n) /\
  (r.2 = None -> written path t "off" d d' /\ slot d' path t = "off") /\
  (t <> EmptyString -> is_Some (files d !! path) -> Forall (eq None) (faults d) -> exists c, r = (Some c, None) /\ Target c = t).
Proof.
  intros H1 H2 HF. destruct (SBD_Fence_file name path t d d' r H1 H2 HF) as (Ha & Hb & Hc). split_and!.
  - intros msg H3. destruct (File_WriteSlot path d t msg) as [d1 err] eqn:Ew. destruct (WriteSlot_spec path d t msg d1 err H1 H2 H3 Ew) as [He Hw]. split; [done|].
    destruct err; [done|]. split; [done|]. intros Hr. destruct (ReadSlot_spec path d1 t) as [_ Hs]. rewrite (Hs Hr). destruct Hw as (data & _ & _ & Hm). unfold slot. by rewrite Hm, lookup_insert_eq.
  - done.
  - done.
  - intros n Hn. destruct Hb as [Hb|Hb]; [by apply unchanged_slot|by eapply written_other].
  - intros Hr. specialize (Hc Hr). split; [done|]. destruct Hc as (data & _ & _ & Hm). unfold slot. by rewrite Hm, lookup_insert_eq.
  - by eapply SBD_Fence_works.
Qed.

Module StonithDemo.
#[local] Instance demo_env : Env disk := {| ctx_Err := fun _ => false; time_Now := fun _ => 7 |}.
Definition nl : string := String newline EmptyString.
Definition full : disk := mkDisk {[ "/sbd" := "a=on" +:+ nl +:+ "junk" +:+ nl +:+ "b=clear" +:+ nl ]} [].
Definition fence_b := SBD_Fence (SBDDevice0 := file_device "/sbd") "sbd" full "b".

Lemma sbd_mailbox_exact_witness : files fence_b.1 !! "/sbd" = Some ("a=on" +:+ nl +:+ "b=off" +:+ nl) /\ slot fence_b.1 "/sbd" "b" = "off" /\ slot fence_b.1 "/sbd" "a" = slot full "/sbd" "a".
Proof.
  destruct (sbd_mailbox_exact "sbd" "/sbd" "b" full fence_b.1 fence_b.2 ltac:(done) ltac:(done) ltac:(by vm_compute)) as (_ & _ & _ & Hn & Hc & _). split_and!.
  - by vm_compute.
  - apply Hc. by vm_compute.
  - by apply Hn.
Defined.

(** The name of a target is written as it is.  Fencing a name with a newline in
    it poisons the node named after the newline, and is reported as failed. *)
Example newline_target_poisons_other :
  let r := SBD_Fence (SBDDevice0 := file_device "/sbd") "sbd" full ("x" +:+ nl +:+ "b") in
  r.2 = (None, Some ErrNotConfirmed) /\ slot full "/sbd" "b" = "clear" /\ slot r.1 "/sbd" "b" = "off".
Proof. by vm_compute. Qed.

(** A name with an equals sign can not be fenced, and overwrites another slot. *)
Example equals_target_overwrites_other :
  let r := SBD_Fence (SBDDevice0 := file_device "/sbd") "sbd" full "a=b" in
  r.2 = (None, Some ErrNotConfirmed) /\ slot full "/sbd" "a" = "on" /\ slot r.1 "/sbd" "a" = "b=off".
Proof. by vm_compute. Qed.
End StonithDemo.
