(* ===== verification/FedTopology.v ===== *)
(** * Federation topologies (pkg/fedtopology)

    Building the five patterns of links between cells and checking their
    structure.  A graph is a map from cells to the sets of their neighbours.  Go
    ranges over maps in any order: where the code does not sort, the order is
    the argument [range], and the cell a search starts from the argument
    [start].  The searches run on fuel that the definitions compute. *)
From Stdlib Require Import SpecFloat.
From S2P Require Import Prelude.
From S2P Require Import GoFloat.
Local Open Scope Z_scope.

Inductive Pattern := HubSpoke | FullMesh | Ring | Tree | Hierarchical | OtherPattern (p : Z).

#[export] Instance Pattern_eq_dec : EqDecision Pattern.
Proof. solve_decision. Defined.

Notation graph := (gmap string (gset string)) (only parsing).

Record Topology := mkTopology { tp_Pattern : Pattern; Hub : string; adj : graph }.

Inductive topo_error :=
  | TooFewCells (n : nat)
  | DuplicateCell (c : string)
  | HubNotFound (hub : string).

(** ** Building *)

(** The loop that looks for duplicates: the first one, or the set of cells. *)
Fixpoint check_duplicates (seen : gset string) (cells : list string) : string + gset string :=
  match cells with
  | [] => inr seen
  | c :: cells => if decide (c ∈ seen) then inl c else check_duplicates ({[c]} ∪ seen) cells
  end.

(** Both cells of an edge are in the map. *)
Definition addEdge (g : graph) (a b : string) : graph := alter (union {[a]}) b (alter (union {[b]}) a g).

Definition at_ (l : list string) (i : nat) : string := default EmptyString (l !! i).

(** The loops, as the edges they add in order. *)
Definition hub_edges (sorted : list string) (hub : string) : list (string * string) :=
  (fun c => (hub, c)) <$> filter (fun c => c <> hub) sorted.

Fixpoint mesh_edges (sorted : list string) : list (string * string) :=
  match sorted with [] => [] | a :: rest => ((fun b => (a, b)) <$> rest) ++ mesh_edges rest end.

Definition ring_edges (sorted : list string) : list (string * string) :=
  (fun i => (at_ sorted i, at_ sorted ((i + 1) mod length sorted)%nat)) <$> seq 0 (length sorted).

Definition treeOrder (sorted : list string) (hub : string) : list string := hub :: filter (fun c => c <> hub) sorted.

Definition buildBFSTree (order : list string) : list (string * string) :=
  (fun i => (at_ order ((i - 1) / 2)%nat, at_ order i)) <$> seq 1 (length order - 1).

Definition buildKAryTree (k : Z) (order : list string) : list (string * string) :=
  let k := if decide (k < 2) then 2 else k in
  (fun i => (at_ order ((i - 1) / Z.to_nat k)%nat, at_ order i)) <$> seq 1 (length order - 1).

(** [math.Ceil] *)
Definition math_Ceil (f : float64) : float64 :=
  match f64_trunc f with
  | Some z => if f64_gt f (f64_of_int z) then f64_of_int (z + 1) else f64_of_int z
  | None => f
  end.

Definition branchingFactor (n : Z) : Z := f64_to_int (math_Ceil (SFsqrt 53 1024 (f64_of_int n))).

Definition pattern_edges (pattern : Pattern) (sorted : list string) (hub : string) : list (string * string) :=
  match pattern with
  | HubSpoke => hub_edges sorted hub
  | FullMesh => mesh_edges sorted
  | Ring => ring_edges sorted
  | Tree => buildBFSTree (treeOrder sorted hub)
  | Hierarchical => let order := treeOrder sorted hub in buildKAryTree (branchingFactor (Z.of_nat (length order))) order
  | OtherPattern _ => []
  end.

Definition requiresHub (pattern : Pattern) : bool :=
  bool_decide (pattern = HubSpoke) || bool_decide (pattern = Tree) || bool_decide (pattern = Hierarchical).

Definition Build (pattern : Pattern) (cells : list string) (hub : string) : topo_error + Topology :=
  if decide (length cells < 2)%nat then inl (TooFewCells (length cells))
  else match check_duplicates ∅ cells with
  | inl c => inl (DuplicateCell c)
  | inr seen =>
      if decide (requiresHub pattern = true /\ hub ∉ seen) then inl (HubNotFound hub)
      else
        let g := foldl (fun g c => <[c := ∅]> g) ∅ cells in
        let g := foldl (fun g e => addEdge g e.1 e.2) g (pattern_edges pattern (sort_strings cells) hub) in
        inr (mkTopology pattern hub g)
  end.

(** ** Reading *)

Definition Neighbors (t : Topology) (cell : string) : option (list string) :=
  (fun nbrs => sort_strings (elements nbrs)) <$> adj t !! cell.

(** The order of edges: by the first cell, then by the second. *)
Definition edge_le (e f : string * string) : Prop := if decide (e.1 <> f.1) then slt e.1 f.1 else String.le e.2 f.2.

#[export] Instance slt_dec (a b : string) : Decision (slt a b).
Proof. unfold slt. apply _. Defined.

#[export] Instance edge_le_dec : RelDecision edge_le.
Proof. intros e f. unfold edge_le. destruct (decide _); apply _. Defined.

Definition Edges (t : Topology) : list (string * string) :=
  merge_sort edge_le (mjoin ((fun an => (fun b => (an.1, b)) <$> filter (fun b => slt an.1 b) (elements an.2)) <$> map_to_list (adj t))).

Definition CanBind (t : Topology) (a b : string) : bool :=
  match adj t !! a with None => false | Some nbrs => bool_decide (b ∈ nbrs) end.

(** ** Checking *)

(** What is reported of a cell; the texts are sorted before they are joined. *)
Inductive issue := BadDegree (cell : string) (degree : nat) | SpokeNeighbour (cell nb : string).

Inductive invalid :=
  | HubDegree (hub : string) (degree : nat)
  | EdgeCount (got : Z) (want : Z)
  | Issues (l : list issue)
  | NotConnected (reached total : nat)
  | CycleAt (cur nb : string)
  | UnknownPattern.

Definition nbrs_of (g : graph) (c : string) : gset string := default ∅ (g !! c).

Definition validateHubSpoke (t : Topology) (n : Z) : option invalid :=
  let hubNbrs := nbrs_of (adj t) (Hub t) in
  if decide (Z.of_nat (size hubNbrs) <> n - 1) then Some (HubDegree (Hub t) (size hubNbrs))
  else
    let errs := mjoin ((fun cn => if decide (cn.1 = Hub t) then []
                         else (if decide (size cn.2 <> 1%nat) then [BadDegree cn.1 (size cn.2)] else []) ++
                              (SpokeNeighbour cn.1 <$> filter (fun nb => nb <> Hub t) (elements cn.2))) <$> map_to_list (adj t)) in
    if decide (0 < length errs)%nat then Some (Issues errs) else None.

(** The cells whose degree is not [want]. *)
Definition degree_issues (g : graph) (want : Z) : list issue :=
  mjoin ((fun cn => if decide (Z.of_nat (size cn.2) <> want) then [BadDegree cn.1 (size cn.2)] else []) <$> map_to_list g).

Definition validateFullMesh (t : Topology) (n : Z) (edges : list (string * string)) : option invalid :=
  let wantEdges := Z.quot (i64 (n * (n - 1))) 2 in
  if decide (Z.of_nat (length edges) <> wantEdges) then Some (EdgeCount (Z.of_nat (length edges)) wantEdges)
  else let errs := degree_issues (adj t) (n - 1) in
       if decide (0 < length errs)%nat then Some (Issues errs) else None.

Section search.
Context (range : gset string -> list string) (start : string).

(** The loop over the neighbours of the cell taken from the queue. *)
Definition visit (vq : gset string * list string) (nb : string) : gset string * list string :=
  if decide (nb ∈ vq.1) then vq else ({[nb]} ∪ vq.1, vq.2 ++ [nb]).

Fixpoint bfs (fuel : nat) (g : graph) (visited : gset string) (queue : list string) : option (gset string) :=
  match queue with
  | [] => Some visited
  | cur :: queue =>
      match fuel with
      | O => None
      | S fuel => let '(visited, queue) := foldl visit (visited, queue) (range (nbrs_of g cur)) in bfs fuel g visited queue
      end
  end.

(** Every cell enters the queue at most once. *)
Definition bfs_fuel (g : graph) : nat := S (size g).

Definition checkConnected (t : Topology) : option (option invalid) :=
  (fun visited : gset string => if decide (size visited <> size (adj t)) then Some (NotConnected (size visited) (size (adj t))) else None) <$>
  bfs (bfs_fuel (adj t)) (adj t) {[start]} [start].
End search.

(** The depth-first search: the cells visited so far, and the cycle found. *)
Fixpoint dfs (fuel : nat) (g : graph) (visited : gset string) (cur parent : string) : option (gset string * option invalid) :=
  match fuel with
  | O => None
  | S fuel =>
      (fix loop (nbrs : list string) (visited : gset string) : option (gset string * option invalid) :=
         match nbrs with
         | [] => Some (visited, None)
         | nb :: nbrs =>
             if decide (nb = parent) then loop nbrs visited
             else if decide (nb ∈ visited) then Some (visited, Some (CycleAt cur nb))
             else match dfs fuel g visited nb cur with
                  | Some (visited, None) => loop nbrs visited
                  | r => r
                  end
         end) (sort_strings (elements (nbrs_of g cur))) ({[cur]} ∪ visited)
  end.

(** The loop over the roots. *)
Fixpoint dfs_roots (fuel : nat) (g : graph) (visited : gset string) (cells : list string) : option (option invalid) :=
  match cells with
  | [] => Some None
  | c :: cells =>
      if decide (c ∈ visited) then dfs_roots fuel g visited cells
      else match dfs fuel g visited c EmptyString with
           | Some (visited, None) => dfs_roots fuel g visited cells
           | Some (_, Some e) => Some (Some e)
           | None => None
           end
  end.

(** Every call visits a new cell, so the depth is at most their number. *)
Definition checkAcyclic (t : Topology) : option (option invalid) :=
  dfs_roots (S (size (adj t))) (adj t) ∅ (sort_strings (map_to_list (adj t)).*1).

Section validate.
Context (range : gset string -> list string) (start : string).

Definition validateRing (t : Topology) (n : Z) (edges : list (string * string)) : option (option invalid) :=
  let errs := degree_issues (adj t) 2 in
  if decide (0 < length errs)%nat then Some (Some (Issues errs))
  else r ← checkConnected range start t;
       match r with
       | Some e => Some (Some e)
       | None => if decide (Z.of_nat (length edges) <> n) then Some (Some (EdgeCount (Z.of_nat (length edges)) n)) else Some None
       end.

Definition validateTree (t : Topology) (n : Z) (edges : list (string * string)) : option (option invalid) :=
  if decide (Z.of_nat (length edges) <> n - 1) then Some (Some (EdgeCount (Z.of_nat (length edges)) (n - 1)))
  else r ← checkConnected range start t;
       match r with Some e => Some (Some e) | None => checkAcyclic t end.

(** [Validate]; the outer option is fuel, the inner one the error. *)
Definition Validate (t : Topology) : option (option invalid) :=
  let n := Z.of_nat (size (adj t)) in
  let edges := Edges t in
  match tp_Pattern t with
  | HubSpoke => Some (validateHubSpoke t n)
  | FullMesh => Some (validateFullMesh t n edges)
  | Ring => validateRing t n edges
  | Tree | Hierarchical => validateTree t n edges
  | OtherPattern _ => Some (Some UnknownPattern)
  end.
End validate.
