(* ===== verification/FedGraph.v ===== *)
(** * Graphs and their searches

    The graphs of [FedTopology] as relations.  In a connected graph the
    breadth-first search reaches every cell, and in a forest the depth-first
    search finds no cycle; both have enough fuel.  A graph that was made by
    adding edges has exactly these edges. *)
From S2P Require Import Prelude.
From S2P Require Import FedTopology.
Local Open Scope Z_scope.

(** ** Graphs *)

Definition edge (g : graph) (a b : string) : Prop := b ∈ nbrs_of g a.

(** Undirected, without loops; both ends of an edge are cells. *)
Record wf (g : graph) : Prop := {
  wf_sym a b : edge g a b -> edge g b a;
  wf_irr a : ~ edge g a a;
}.

Lemma edge_dom g a b : edge g a b -> a ∈ dom g.
Proof. unfold edge, nbrs_of. intros H. apply elem_of_dom. destruct (g !! a) as [s|]; [by eexists|]. simpl in H. set_solver. Qed.

Lemma edge_dom_r g a b : wf g -> edge g a b -> b ∈ dom g.
Proof. intros Hw H. by apply (wf_sym g Hw), edge_dom in H. Qed.

Definition connected (g : graph) : Prop := forall a b, a ∈ dom g -> b ∈ dom g -> rtc (edge g) a b.

(** Going along edges other than the one between [a] and [b]. *)
Definition detour (g : graph) (a b x y : string) : Prop := edge g x y /\ ~ (x = a /\ y = b) /\ ~ (x = b /\ y = a).

(** A graph without cycles: no edge has a way around it. *)
Definition forest (g : graph) : Prop := forall a b, edge g a b -> ~ rtc (detour g a b) a b.

(** Going along edges inside a set. *)
Definition within (g : graph) (S : gset string) (x y : string) : Prop := edge g x y /\ x ∈ S /\ y ∈ S.

Lemma rtc_sym {A} (R : A -> A -> Prop) x y : (forall x y, R x y -> R y x) -> rtc R x y -> rtc R y x.
Proof. intros Hs. induction 1 as [|x y z H _ IH]; [done|]. eapply rtc_r; [exact IH|auto]. Qed.

Lemma rtc_mono {A} (R R' : A -> A -> Prop) x y : (forall x y, R x y -> R' x y) -> rtc R x y -> rtc R' x y.
Proof. intros Hs. induction 1 as [|x y z H _ IH]; [done|]. eapply rtc_l; [by apply Hs|done]. Qed.

Lemma within_mono g (S S' : gset string) x y : S ⊆ S' -> rtc (within g S) x y -> rtc (within g S') x y.
Proof. intros HS. apply rtc_mono. intros a b (H & Ha & Hb). split_and!; [done|set_solver..]. Qed.

Lemma within_sym g S x y : wf g -> rtc (within g S) x y -> rtc (within g S) y x.
Proof. intros Hw. apply rtc_sym. intros a b (H & Ha & Hb). split_and!; [by apply wf_sym|done..]. Qed.

(** A way inside a set that the cell is not in is a detour around its edges. *)
Lemma within_detour g (S : gset string) a b x y : a ∉ S -> rtc (within g S) x y -> rtc (detour g a b) x y.
Proof. intros Ha. apply rtc_mono. intros u v (H & Hu & Hv). split_and!; [done|intros [-> _]; done|intros [_ ->]; done]. Qed.

(** ** Breadth-first search *)

Section bfs.
Context (range : gset string -> list string) (Hrange : forall s, range s ≡ₚ elements s).

Lemma visit_all l V Q :
  exists new, foldl visit (V, Q) l = (list_to_set new ∪ V, Q ++ new) /\ (forall x, x ∈ new <-> x ∈ l /\ x ∉ V) /\ size (list_to_set new ∪ V) = (length new + size V)%nat.
Proof.
  revert V Q. induction l as [|x l IH]; intros V Q; simpl.
  { exists []. rewrite app_nil_r, list_to_set_nil, union_empty_l_L. split_and!; [done|set_solver|done]. }
  unfold visit at 2. simpl. destruct (decide (x ∈ V)) as [Hx|Hx].
  - destruct (IH V Q) as (new & H1 & H2 & H3). exists new. split_and!; [done| |done]. intros y. rewrite H2, elem_of_cons. set_solver.
  - destruct (IH ({[x]} ∪ V) (Q ++ [x])) as (new & H1 & H2 & H3). exists (x :: new). split_and!.
    + rewrite H1. f_equal; [|by rewrite <- app_assoc]. simpl. set_solver.
    + intros y. rewrite !elem_of_cons, H2. destruct (decide (y = x)); set_solver.
    + simpl. rewrite <- union_assoc_L, (union_comm_L {[x]}), <- union_assoc_L, (union_comm_L V), H3, size_union, size_singleton by set_solver. lia.
Qed.

Lemma bfs_spec g fuel V Q :
  wf g -> V ⊆ dom g -> (forall x, x ∈ Q -> x ∈ V) -> (forall x y, x ∈ V -> x ∉ Q -> edge g x y -> y ∈ V) -> (size (dom g) - size V + length Q <= fuel)%nat ->
  exists V', bfs range fuel g V Q = Some V' /\ V ⊆ V' /\ V' ⊆ dom g /\ forall x y, x ∈ V' -> edge g x y -> y ∈ V'.
Proof.
  intros Hw. revert V Q. induction fuel as [|fuel IH]; intros V [|cur Q] HV HQ Hcl Hf; simpl in *; try (exists V; split_and!; set_solver); [lia|].
  destruct (visit_all (range (nbrs_of g cur)) V Q) as (new & -> & Hnew & Hsz).
  assert (forall x, x ∈ range (nbrs_of g cur) <-> edge g cur x) as Hr by (intros x; rewrite Hrange, elem_of_elements; done).
  assert (list_to_set new ∪ V ⊆ dom g) as HV'. { intros x Hx. apply elem_of_union in Hx as [Hx|Hx]; [|by apply HV]. apply elem_of_list_to_set, Hnew in Hx as [Hx _]. by eapply edge_dom_r, Hr. }
  destruct (IH (list_to_set new ∪ V) (Q ++ new)) as (V' & H1 & H2 & H3 & H4).
  - done.
  - intros x Hx. apply elem_of_app in Hx as [Hx|Hx]; [apply elem_of_union_r, HQ; by right|]. apply elem_of_union_l. by apply elem_of_list_to_set.
  - intros x y Hx Hxq He. destruct (decide (x = cur)) as [->|Hne].
    + destruct (decide (y ∈ V)); [set_solver|]. apply elem_of_union_l, elem_of_list_to_set, Hnew. by rewrite Hr.
    + apply elem_of_union_r, (Hcl x); [|set_solver|done]. set_solver.
  - rewrite length_app. pose proof (subseteq_size _ _ HV') as Hle. lia.
  - exists V'. split_and!; [done|set_solver|done|done].
Qed.

(** In a connected graph the search reaches every cell. *)
Lemma checkConnected_ok start t : wf (adj t) -> connected (adj t) -> start ∈ dom (adj t) -> checkConnected range start t = Some None.
Proof.
  intros Hw Hc Hs. unfold checkConnected, bfs_fuel. destruct (bfs_spec (adj t) (S (size (adj t))) {[start]} [start] Hw) as (V' & -> & H1 & H2 & H3).
  - set_solver.
  - set_solver.
  - set_solver.
  - rewrite size_dom, size_singleton. simpl. lia.
  - simpl. rewrite decide_False; [done|]. rewrite <- size_dom. intros Hne. apply Hne. f_equal. apply set_eq. intros x. split; [apply H2|]. intros Hx. specialize (Hc start x Hs Hx).
    assert (start ∈ V') as Hst by set_solver. clear -Hc Hst H3. induction Hc as [|a b c Hab _ IH]; [done|]. eauto.
Qed.
End bfs.

(** ** Depth-first search *)

(** The loop of [dfs] by itself. *)
Fixpoint dfs_loop (fuel : nat) (g : graph) (cur parent : string) (nbrs : list string) (visited : gset string) : option (gset string * option invalid) :=
  match nbrs with
  | [] => Some (visited, None)
  | nb :: nbrs =>
      if decide (nb = parent) then dfs_loop fuel g cur parent nbrs visited
      else if decide (nb ∈ visited) then Some (visited, Some (CycleAt cur nb))
      else match dfs fuel g visited nb cur with
           | Some (visited, None) => dfs_loop fuel g cur parent nbrs visited
           | r => r
           end
  end.

Lemma dfs_unfold fuel g V cur parent :
  dfs (S fuel) g V cur parent = dfs_loop fuel g cur parent (sort_strings (elements (nbrs_of g cur))) ({[cur]} ∪ V).
Proof.
  simpl. generalize (sort_strings (elements (nbrs_of g cur))) as l. intros l. generalize ({[cur]} ∪ V) as W. induction l as [|nb l IH]; intros W; simpl; [done|].
  repeat case_decide; [apply IH|done|]. destruct (dfs fuel g W nb cur) as [[W' [e|]]|]; [done|apply IH|done].
Qed.

Section dfs.
Context (g : graph) (Hw : wf g) (Hf : forest g).

(** [Z] are the cells of the trees that were searched before; no edge leaves them. *)
Context (Z : gset string) (HZ : forall x y, x ∈ Z -> edge g x y -> y ∈ Z).

(** The search stands at an unvisited cell: at a root, or below a visited
    parent that all cells visited in this tree are linked to. *)
Definition entered (V : gset string) (cur p : string) : Prop :=
  (V = Z /\ ~ edge g cur p) \/ (p ∈ V ∖ Z /\ edge g p cur /\ forall x, x ∈ V ∖ Z -> rtc (within g (V ∖ Z)) x p).

(** What the search has done when it leaves the cell. *)
Record explored (V V' : gset string) (cur : string) : Prop := {
  ex_grows : {[cur]} ∪ V ⊆ V';
  ex_cells : V' ⊆ dom g;
  ex_linked x : x ∈ V' ∖ V -> rtc (within g (V' ∖ V)) cur x;
  ex_closed x y : x ∈ V' ∖ V -> edge g x y -> y ∈ V';
}.

(** The state of the loop over the neighbours of [cur]: [P] were handled, [W] is visited. *)
Record looping (V W : gset string) (cur p : string) (P : list string) : Prop := {
  lo_grows : {[cur]} ∪ V ⊆ W;
  lo_cells : W ⊆ dom g;
  lo_linked x : x ∈ W ∖ V -> rtc (within g (W ∖ V)) cur x;
  lo_closed x y : x ∈ W ∖ V -> x <> cur -> edge g x y -> y ∈ W;
  lo_branch x : x ∈ W ∖ V -> x <> cur -> exists q, q ∈ P /\ rtc (within g (W ∖ V ∖ {[cur]})) q x;
  lo_done q : q ∈ P -> edge g cur q /\ (q = p \/ q ∈ W);
}.

(** A neighbour other than the parent that was not handled yet is not visited. *)
Lemma neighbour_new V W cur p P nb :
  Z ⊆ V -> cur ∉ V -> entered V cur p -> looping V W cur p P -> edge g cur nb -> nb <> p -> nb ∉ P -> nb ∉ W.
Proof.
  intros HZV Hcur Hin [Hgr _ _ _ Hbr Hdone] He Hp HP Hnb. apply (Hf cur nb He). assert (nb <> cur) as Hne by (intros ->; by apply (wf_irr g Hw cur)).
  destruct (decide (nb ∈ V)) as [HV|HV].
  - destruct (decide (nb ∈ Z)) as [Hz|Hz]; [exfalso; apply Hcur, HZV; by eapply HZ, (wf_sym g Hw)|]. destruct Hin as [[-> _]|(Hp1 & Hpe & Hl)]; [done|].
    apply rtc_l with p; [split_and!; [by apply (wf_sym g Hw)|by intros [_ ->]|by intros [-> _]]|].
    apply (within_detour g (V ∖ Z)); [set_solver|]. apply within_sym; [done|]. apply Hl. set_solver.
  - destruct (Hbr nb) as (q & Hq & Hpath); [set_solver|done|]. destruct (Hdone q Hq) as [Hcq _].
    apply rtc_l with q; [split_and!; [done|by intros [_ ->]|by intros [-> _]]|]. apply (within_detour g (W ∖ V ∖ {[cur]})); [set_solver|done].
Qed.

(** Below [cur] the search has been entered properly. *)
Lemma enters_child V W cur p P nb : Z ⊆ V -> cur ∉ V -> entered V cur p -> looping V W cur p P -> edge g cur nb -> entered W nb cur.
Proof.
  intros HZV Hcur Hin Hlo He. right. destruct Hlo as [Hgr _ Hln _ _ _]. assert (V ⊆ W /\ cur ∈ W) as [HVW HcW] by set_solver. split_and!; [set_solver|done|]. intros x Hx.
  destruct (decide (x ∈ V)) as [HV|HV].
  - destruct Hin as [[-> _]|(Hp1 & Hpe & Hl)]; [set_solver|]. etrans; [apply (within_mono g (V ∖ Z)); [set_solver|]; apply Hl; set_solver|].
    apply rtc_once. split_and!; [done|set_solver|set_solver].
  - apply within_sym; [done|]. apply (within_mono g (W ∖ V)); [set_solver|]. apply Hln. set_solver.
Qed.

(** After a child was explored the loop goes on. *)
Lemma looping_child V W W' cur p P nb :
  cur ∉ V -> looping V W cur p P -> edge g cur nb -> nb ∉ W -> explored W W' nb -> looping V W' cur p (P ++ [nb]).
Proof.
  intros Hcur [Hgr Hce Hln Hcl Hbr Hdone] He Hnb [Egr Ece Eln Ecl]. assert (W ⊆ W' /\ V ⊆ W /\ cur ∈ W /\ nb ∈ W') as (H1 & H2 & H3 & H4) by set_solver. split.
  - set_solver.
  - done.
  - intros x Hx. destruct (decide (x ∈ W)) as [HW|HW]; [apply (within_mono g (W ∖ V)); [set_solver|]; apply Hln; set_solver|].
    apply rtc_l with nb; [split_and!; [done|set_solver|set_solver]|]. apply (within_mono g (W' ∖ W)); [set_solver|]. apply Eln. set_solver.
  - intros x y Hx Hxc Hxy. destruct (decide (x ∈ W)) as [HW|HW]; [apply H1, (Hcl x); [set_solver|done|done]|]. apply (Ecl x); [set_solver|done].
  - intros x Hx Hxc. destruct (decide (x ∈ W)) as [HW|HW].
    + destruct (Hbr x) as (q & Hq & Hpath); [set_solver|done|]. exists q. split; [set_solver|]. by apply (within_mono g (W ∖ V ∖ {[cur]})); [set_solver|].
    + exists nb. split; [set_solver|]. apply (within_mono g (W' ∖ W)); [set_solver|]. apply Eln. set_solver.
  - intros q [Hq| ->%list_elem_of_singleton]%elem_of_app; [|by split; [|right]]. destruct (Hdone q Hq) as [? [?|?]]; split; [done|by left|done|right; set_solver].
Qed.

Lemma looping_start V cur p : V ⊆ dom g -> cur ∈ dom g -> looping V ({[cur]} ∪ V) cur p [].
Proof.
  intros HV Hc. split; set_solver.
Qed.

Lemma looping_end V W cur p P : cur ∉ V -> entered V cur p -> looping V W cur p P -> (forall y, edge g cur y -> y ∈ P) -> explored V W cur.
Proof.
  intros Hcur Hin [Hgr Hce Hln Hcl Hbr Hdone] Hall. split; [done|done|done|]. intros x y Hx Hxy. destruct (decide (x = cur)) as [->|Hne]; [|by eapply Hcl].
  destruct (Hdone y (Hall y Hxy)) as [_ [->|?]]; [|done]. destruct Hin as [[-> Hno]|(Hp & _)]; [done|set_solver].
Qed.

Lemma dfs_spec fuel V cur p :
  V ⊆ dom g -> cur ∈ dom g -> cur ∉ V -> Z ⊆ V -> entered V cur p -> (size (dom g ∖ V) <= fuel)%nat -> exists V', dfs fuel g V cur p = Some (V', None) /\ explored V V' cur.
Proof.
  revert V cur p. induction fuel as [|fuel IH]; intros V cur p HV Hc Hcur HZV Hin Hfu.
  { exfalso. assert (dom g ∖ V = ∅) as He by (apply leibniz_equiv, size_empty_inv; lia). set_solver. }
  rewrite dfs_unfold. assert (forall y, y ∈ sort_strings (elements (nbrs_of g cur)) <-> edge g cur y) as Hnb by (intros y; by rewrite sort_strings_perm, elem_of_elements).
  assert (NoDup (sort_strings (elements (nbrs_of g cur)))) as Hnd by (rewrite sort_strings_perm; apply NoDup_elements).
  assert (forall L P W, sort_strings (elements (nbrs_of g cur)) = P ++ L -> looping V W cur p P -> exists V', dfs_loop fuel g cur p L W = Some (V', None) /\ explored V V' cur) as Hloop.
  { induction L as [|nb L IHL]; intros P W HL Hlo; simpl.
    - exists W. split; [done|]. eapply looping_end; [done|done|exact Hlo|]. intros y Hy. rewrite app_nil_r in HL. rewrite <- HL. by apply Hnb.
    - assert (edge g cur nb) as He by (apply Hnb; rewrite HL; set_solver). assert (nb ∉ P) as HnP by (rewrite HL in Hnd; apply NoDup_app in Hnd as (_ & Hd & _); intros HP; apply (Hd nb HP); by left).
      case_decide as Hp.
      + apply (IHL (P ++ [nb])); [by rewrite <- app_assoc|]. destruct Hlo as [L1 L2 L3 L4 L5 L6]. split; [done..| |].
        * intros x Hx Hxc. destruct (L5 x Hx Hxc) as (q & Hq & ?). exists q. split; [set_solver|done].
        * intros q [Hq| ->%list_elem_of_singleton]%elem_of_app; [by apply L6|by split; [|left]].
      + rewrite decide_False by (by eapply neighbour_new). assert (nb ∉ W) as HnW by (by eapply neighbour_new).
        destruct (IH W nb cur) as (W' & -> & Hex).
        * apply Hlo.
        * by eapply edge_dom_r.
        * done.
        * pose proof (lo_grows _ _ _ _ _ Hlo). set_solver.
        * by eapply enters_child.
        * assert (size (dom g ∖ W) < size (dom g ∖ V))%nat; [|lia]. apply subset_size. pose proof (lo_grows _ _ _ _ _ Hlo). set_solver.
        * apply (IHL (P ++ [nb])); [by rewrite <- app_assoc|]. by eapply looping_child. }
  apply (Hloop _ []); [done|]. by apply looping_start.
Qed.
End dfs.

(** The parent of a root is the empty name.  If it is the name of a cell, that
    cell is the first root. *)
Lemma dfs_roots_ok g fuel V cells :
  wf g -> forest g -> V ⊆ dom g -> (forall x y, x ∈ V -> edge g x y -> y ∈ V) -> (size (dom g) <= fuel)%nat ->
  (forall c, c ∈ cells -> c ∈ dom g) -> StronglySorted String.le cells -> (EmptyString ∈ dom g -> EmptyString ∈ V \/ EmptyString ∈ cells) ->
  dfs_roots fuel g V cells = Some None.
Proof.
  intros Hw Hf HV Hcl Hfu Hcells Hs Hempty. revert V HV Hcl Hempty. induction Hs as [|c cells Hs IH Hle]; intros V HV Hcl Hempty; simpl; [done|].
  assert (forall c', c' ∈ cells -> c' ∈ dom g) as Hcells' by (intros c' ?; apply Hcells; by right). destruct (decide (c ∈ V)) as [Hc|Hc].
  { apply IH; [done|done|done|]. intros He. apply Hempty in He as [?|[->|?]%elem_of_cons]; auto. }
  assert (c ∈ dom g) as Hcd by (apply Hcells; by left).
  assert (~ edge g c EmptyString) as Hno.
  { intros He. destruct Hempty as [HeV|[<-|HeC]%elem_of_cons]; [by eapply edge_dom_r| | |].
    - apply Hc. by eapply Hcl, (wf_sym g Hw).
    - by apply (wf_irr g Hw EmptyString).
    - rewrite Forall_forall in Hle. specialize (Hle _ HeC). assert (c = EmptyString) as -> by (apply (anti_symm String.le); [done|by destruct c]). by apply (wf_irr g Hw EmptyString). }
  destruct (dfs_spec g Hw Hf V Hcl fuel V c EmptyString) as (V' & -> & [E1 E2 E3 E4]); try done.
  - by left.
  - etrans; [apply subseteq_size|exact Hfu]. set_solver.
  - apply IH; [done|done| |].
    + intros x y Hx Hxy. destruct (decide (x ∈ V)) as [Hv|Hv]; [|apply (E4 x); [set_solver|done]]. specialize (Hcl x y Hv Hxy). set_solver.
    + intros He. apply Hempty in He as [?|[->|?]%elem_of_cons]; [left; set_solver|left; set_solver|by right].
Qed.

Lemma checkAcyclic_ok t : wf (adj t) -> forest (adj t) -> checkAcyclic t = Some None.
Proof.
  intros Hw Hf. unfold checkAcyclic. assert (forall c, c ∈ sort_strings (map_to_list (adj t)).*1 <-> c ∈ dom (adj t)) as Hc.
  { intros c. rewrite sort_strings_perm, elem_of_dom, list_elem_of_fmap. split; [intros ([k v] & -> & H%elem_of_map_to_list); by eexists|]. intros [v Hv]. exists (c, v). split; [done|]. by apply elem_of_map_to_list. }
  apply dfs_roots_ok; [done|done|set_solver|set_solver|rewrite size_dom; lia|apply Hc|apply sort_strings_sorted|]. intros He. right. by apply Hc.
Qed.

(** ** The graph of a list of edges *)

Definition linked (es : list (string * string)) (a b : string) : Prop := (a, b) ∈ es \/ (b, a) ∈ es.

Lemma addEdge_spec g a b : a ∈ dom g -> b ∈ dom g -> dom (addEdge g a b) = dom g /\ forall x y, edge (addEdge g a b) x y <-> edge g x y \/ (x = a /\ y = b) \/ (x = b /\ y = a).
Proof.
  intros [sa Ha]%elem_of_dom [sb Hb]%elem_of_dom. unfold addEdge. split; [by rewrite !dom_alter_L|]. intros x y. unfold edge, nbrs_of.
  rewrite !lookup_alter. repeat case_decide; subst; rewrite ?Ha, ?Hb; simplify_eq/=; rewrite ?Ha, ?Hb; simpl; set_solver.
Qed.

Lemma addEdges_spec es g :
  (forall e, e ∈ es -> e.1 ∈ dom g /\ e.2 ∈ dom g) ->
  let g' := foldl (fun g e => addEdge g e.1 e.2) g es in dom g' = dom g /\ forall x y, edge g' x y <-> edge g x y \/ linked es x y.
Proof.
  revert g. induction es as [|[a b] es IH]; intros g Hes; cbv zeta; simpl; [unfold linked; set_solver|].
  destruct (Hes (a, b)) as [Ha Hb]; [by left|]. destruct (addEdge_spec g a b Ha Hb) as [Hd He]. destruct (IH (addEdge g a b)) as [Hd' He'].
  - intros e Hin. rewrite Hd. apply Hes. by right.
  - split; [by rewrite Hd', Hd|]. intros x y. rewrite He', He. unfold linked. rewrite !elem_of_cons. split; [|naive_solver].
    intros [[?|[[-> ->]|[-> ->]]]|[?|?]]; auto.
Qed.

Lemma empty_graph cells : let g := foldl (fun g c => <[c := ∅]> g) (∅ : graph) cells in dom g = list_to_set cells /\ forall x y, ~ edge g x y.
Proof.
  induction cells as [|c cells IH] using rev_ind; cbv zeta; [split; [done|intros x y; unfold edge, nbrs_of; simpl; set_solver]|]. rewrite foldl_snoc. cbv zeta in IH. destruct IH as [Hd He]. split.
  - rewrite dom_insert_L, Hd, list_to_set_app_L. set_solver.
  - intros x y. unfold edge, nbrs_of. rewrite lookup_insert. destruct (decide (c = x)); [simpl; set_solver|]. apply He.
Qed.

(** A graph made of a list of edges. *)
Record made_of (g : graph) (cells : list string) (es : list (string * string)) : Prop := {
  mo_cells : dom g = list_to_set cells;
  mo_edges x y : edge g x y <-> linked es x y;
}.

Lemma linked_sym es x y : linked es x y -> linked es y x.
Proof. unfold linked. tauto. Qed.

Lemma made_wf g cells es : made_of g cells es -> (forall a, (a, a) ∉ es) -> wf g.
Proof. intros [_ He] Hirr. split; [intros a b; rewrite !He; apply linked_sym|intros a; rewrite He; intros [?|?]; by eapply Hirr]. Qed.
