(* ===== verification/FedTopologySpec.v ===== *)
(** * Federation topologies are what their pattern promises

    The edges of each pattern, how many there are, that they connect all cells
    and, for the trees, that none has a way around it; and the theorem that
    what [Build] returns is such a graph and passes [Validate]. *)
From S2P Require Import Prelude.
From S2P Require Import FedTopology.
From S2P Require Import FedGraph.
Local Open Scope Z_scope.

(** ** Counting edges *)

(** An edge with its smaller cell first. *)
Definition norm (e : string * string) : string * string := if decide (slt e.1 e.2) then e else (e.2, e.1).

Lemma norm_linked a b u v : slt a b -> norm (u, v) = (a, b) <-> (u, v) = (a, b) \/ (u, v) = (b, a).
Proof.
  intros Hab. unfold norm. simpl. case_decide as Hd; [split; [auto|]; intros [?|[= -> ->]]; [done|exfalso; by eapply slt_asym]|].
  split; [intros [= -> ->]; by right|]. by intros [[= -> ->]|[= -> ->]].
Qed.

Lemma Edges_spec t a b : (a, b) ∈ Edges t <-> slt a b /\ edge (adj t) a b.
Proof.
  unfold Edges. rewrite merge_sort_Permutation, list_elem_of_join. split.
  - intros (l & Hin & ([x s] & -> & Hx)%list_elem_of_fmap). simpl in Hin. apply list_elem_of_fmap in Hin as (y & [= -> ->] & Hy). apply list_elem_of_filter in Hy as [Hlt Hy].
    split; [done|]. apply elem_of_map_to_list in Hx. unfold edge, nbrs_of. rewrite Hx. by apply elem_of_elements.
  - intros [Hlt He]. unfold edge, nbrs_of in He. destruct (adj t !! a) as [s|] eqn:Ea; [|simpl in He; set_solver]. simpl in He.
    exists ((fun b => (a, b)) <$> filter (fun b => slt a b) (elements s)). split.
    + apply list_elem_of_fmap. exists b. split; [done|]. apply list_elem_of_filter. split; [done|]. by apply elem_of_elements.
    + apply list_elem_of_fmap. exists (a, s). split; [done|]. by apply elem_of_map_to_list.
Qed.

Lemma NoDup_rows {A B C} (F : A * B -> list C) (l : list (A * B)) : NoDup l.*1 -> (forall p, p ∈ l -> NoDup (F p)) -> NoDup (mjoin ((fun p => (fun c => (p.1, c)) <$> F p) <$> l)).
Proof.
  induction l as [|[a b] l IH]; simpl; [constructor|]. intros [Ha Hl]%NoDup_cons HF. change (NoDup (((fun c => (a, c)) <$> F (a, b)) ++ mjoin ((fun p => (fun c => (p.1, c)) <$> F p) <$> l))).
  apply NoDup_app. split_and!.
  - apply NoDup_fmap_2; [by intros x y [= ->]|]. apply HF. by left.
  - intros [x c] (c' & [= -> ->] & _)%list_elem_of_fmap Hx. apply list_elem_of_join in Hx as (row & Hc & ([x y] & -> & Hxy)%list_elem_of_fmap). apply list_elem_of_fmap in Hc as (c'' & [= -> _] & _).
    apply Ha. apply list_elem_of_fmap. by exists (x, y).
  - apply IH; [done|]. intros p Hp. apply HF. by right.
Qed.

Lemma Edges_NoDup t : NoDup (Edges t).
Proof.
  unfold Edges. rewrite merge_sort_Permutation. apply (NoDup_rows (fun an => filter (fun b => slt an.1 b) (elements an.2))); [apply NoDup_fst_map_to_list|].
  intros p _. apply NoDup_filter, NoDup_elements.
Qed.

(** Every edge that was added is listed once. *)
Lemma Edges_length t cells es : made_of (adj t) cells es -> (forall a, (a, a) ∉ es) -> NoDup (norm <$> es) -> length (Edges t) = length es.
Proof.
  intros [_ He] Hirr Hnd. rewrite <- (length_fmap norm es). apply Permutation_length, NoDup_Permutation; [apply Edges_NoDup|done|]. intros [a b]. rewrite Edges_spec, list_elem_of_fmap. split.
  - intros [Hlt Hab]. apply He in Hab as [H|H]; eexists; (split; [|exact H]); symmetry; apply norm_linked; auto.
  - intros ([u v] & Hn & Hin). assert (slt a b) as Hlt.
    { unfold norm in Hn. simpl in Hn. case_decide as Hd; [by injection Hn as -> ->|]. injection Hn as -> ->. destruct (slt_trichotomy u v) as [?|[->|?]]; [done|exfalso; by eapply Hirr|done]. }
    split; [done|]. symmetry in Hn. apply (norm_linked a b u v Hlt) in Hn. apply He. destruct Hn as [[= -> ->]|[= -> ->]]; [by left|by right].
Qed.

(** ** Lists of cells *)

Lemma at_lookup l i : (i < length l)%nat -> l !! i = Some (at_ l i).
Proof. intros Hi. unfold at_. destruct (lookup_lt_is_Some_2 l i Hi) as [x Hx]. by rewrite Hx. Qed.

Lemma at_inj l i j : NoDup l -> (i < length l)%nat -> (j < length l)%nat -> at_ l i = at_ l j -> i = j.
Proof. intros Hn Hi Hj He. apply (NoDup_lookup l i j (at_ l i) Hn); [by apply at_lookup|]. rewrite He. by apply at_lookup. Qed.

Lemma elem_at l x : x ∈ l <-> exists i, (i < length l)%nat /\ x = at_ l i.
Proof.
  rewrite list_elem_of_lookup. split.
  - intros [i Hi]. exists i. split; [by eapply lookup_lt_Some|]. unfold at_. by rewrite Hi.
  - intros (i & Hi & ->). exists i. by apply at_lookup.
Qed.

Lemma sorted_slt l : NoDup l -> StronglySorted slt (sort_strings l).
Proof.
  intros Hn. assert (NoDup (sort_strings l)) as Hn' by (by rewrite sort_strings_perm). pose proof (sort_strings_sorted l) as Hs. revert Hn'. induction Hs as [|a l' Hs IH Hle]; intros Hn'; [constructor|].
  apply NoDup_cons in Hn' as [Ha Hn']. constructor; [auto|]. rewrite Forall_forall in *. intros b Hb. split; [auto|]. by intros ->.
Qed.

(** ** Trees *)

Section tree.
Context (order : list string) (par : nat -> nat) (Hnd : NoDup order) (Hpar : forall i, (1 <= i)%nat -> (par i < i)%nat).

Definition tree_edges : list (string * string) := (fun i => (at_ order (par i), at_ order i)) <$> seq 1 (length order - 1).

Lemma tree_edge a b : (a, b) ∈ tree_edges <-> exists i, (1 <= i < length order)%nat /\ a = at_ order (par i) /\ b = at_ order i.
Proof.
  unfold tree_edges. rewrite list_elem_of_fmap. split.
  - intros (i & [= -> ->] & Hi%elem_of_seq). exists i. split; [lia|done].
  - intros (i & Hi & -> & ->). exists i. split; [done|]. apply elem_of_seq. lia.
Qed.

Lemma tree_irr a : (a, a) ∉ tree_edges.
Proof. intros (i & Hi & -> & He)%tree_edge. apply at_inj in He; [|done| |lia]; pose proof (Hpar i); lia. Qed.

Lemma tree_count : length tree_edges = (length order - 1)%nat.
Proof. unfold tree_edges. by rewrite length_fmap, length_seq. Qed.

Lemma tree_norm : NoDup (norm <$> tree_edges).
Proof.
  unfold tree_edges. rewrite <- list_fmap_compose. apply NoDup_fmap_2_strong; [|apply NoDup_seq]. intros i j Hi%elem_of_seq Hj%elem_of_seq. unfold compose, norm. simpl.
  pose proof (Hpar i) as Hpi. pose proof (Hpar j) as Hpj. repeat case_decide; intros [= Ha Hb]; apply at_inj in Ha; try done; try lia; apply at_inj in Hb; try done; lia.
Qed.

Context (g : graph) (cells : list string) (Hg : made_of g cells tree_edges) (Hcells : cells ≡ₚ order).

Lemma tree_dom x : x ∈ dom g <-> exists i, (i < length order)%nat /\ x = at_ order i.
Proof. rewrite (mo_cells _ _ _ Hg), elem_of_list_to_set, Hcells. apply elem_at. Qed.

Lemma tree_to_root i : (i < length order)%nat -> rtc (edge g) (at_ order i) (at_ order 0).
Proof.
  induction (lt_wf i) as [i _ IH]. intros Hi. destruct (decide (i = 0)%nat) as [->|Hne]; [done|]. pose proof (Hpar i). apply rtc_l with (at_ order (par i)); [|apply IH; lia].
  apply (mo_edges _ _ _ Hg). right. apply tree_edge. exists i. split; [lia|done].
Qed.

Lemma tree_connected : connected g.
Proof.
  intros a b (i & Hi & ->)%tree_dom (j & Hj & ->)%tree_dom. etrans; [by apply tree_to_root|]. apply rtc_sym; [|by apply tree_to_root].
  intros x y. rewrite !(mo_edges _ _ _ Hg). apply linked_sym.
Qed.

(** The positions below position [i]. *)
Inductive below (i : nat) : nat -> Prop :=
  | below_here : below i i
  | below_par j : (1 <= j)%nat -> below i (par j) -> below i j.

Lemma below_le i j : below i j -> (i <= j)%nat.
Proof. induction 1 as [|j Hj _ IH]; [lia|]. pose proof (Hpar j). lia. Qed.

(** Going backwards along edges other than that above [i] stays below [i]. *)
Lemma below_back i x y :
  (1 <= i < length order)%nat -> detour g (at_ order (par i)) (at_ order i) x y ->
  (exists j, (j < length order)%nat /\ y = at_ order j /\ below i j) -> exists j, (j < length order)%nat /\ x = at_ order j /\ below i j.
Proof.
  intros Hi (He & Hn1 & Hn2) (j & Hj & -> & Hb). apply (mo_edges _ _ _ Hg) in He as [(k & Hk & -> & Hjk)%tree_edge|(k & Hk & Hjk & ->)%tree_edge]; pose proof (Hpar k).
  - apply at_inj in Hjk as ->; [|done|lia|lia]. exists (par k). split_and!; [lia|done|]. destruct Hb as [|j' Hj' Hb]; [by destruct Hn1|done].
  - apply at_inj in Hjk as ->; [|done|lia|lia]. exists k. split_and!; [lia|done|]. apply below_par; [lia|done].
Qed.

Lemma below_detour i x y :
  (1 <= i < length order)%nat -> rtc (detour g (at_ order (par i)) (at_ order i)) x y ->
  (exists j, (j < length order)%nat /\ y = at_ order j /\ below i j) -> exists j, (j < length order)%nat /\ x = at_ order j /\ below i j.
Proof. intros Hi Hr. induction Hr as [|x y z Hxy _ IH]; [done|]. intros Hz. eapply below_back; [done|exact Hxy|auto]. Qed.

Lemma tree_forest : forest g.
Proof.
  assert (forall i, (1 <= i < length order)%nat -> ~ rtc (detour g (at_ order (par i)) (at_ order i)) (at_ order (par i)) (at_ order i)) as Hup.
  { intros i Hi Hr. pose proof (Hpar i) as Hpi. destruct (below_detour i _ _ Hi Hr) as (j & Hj & Hij & Hb); [exists i; split_and!; [lia|done|constructor]|].
    apply at_inj in Hij as <-; [|done|lia|lia]. apply below_le in Hb. lia. }
  intros a b He Hr. apply (mo_edges _ _ _ Hg) in He as [(i & Hi & -> & ->)%tree_edge|(i & Hi & -> & ->)%tree_edge]; [by eapply Hup|].
  apply (Hup i Hi). apply rtc_sym; [|eapply rtc_mono; [|exact Hr]]; intros x y (Hxy & H1 & H2); split_and!; try tauto.
  apply (mo_edges _ _ _ Hg), linked_sym, (mo_edges _ _ _ Hg). done.
Qed.
End tree.

(** ** Rings *)

Section ring.
Context (s : list string) (Hnd : NoDup s) (Hn : (2 <= length s)%nat).

Definition next (i : nat) : nat := ((i + 1) mod length s)%nat.

Lemma next_eq i : (i < length s)%nat -> next i = if decide (i + 1 = length s)%nat then O else (i + 1)%nat.
Proof. intros Hi. unfold next. case_decide as Hd; [rewrite Hd; apply Nat.Div0.mod_same|]. apply Nat.mod_small. lia. Qed.

Definition prev (i : nat) : nat := if decide (i = 0)%nat then (length s - 1)%nat else (i - 1)%nat.

Lemma next_prev i j : (i < length s)%nat -> (j < length s)%nat -> next i = j <-> i = prev j.
Proof. intros Hi Hj. rewrite next_eq by done. unfold prev. repeat case_decide; lia. Qed.

Lemma next_lt i : (i < length s)%nat -> (next i < length s)%nat.
Proof. intros Hi. rewrite next_eq by done. case_decide; lia. Qed.

Lemma prev_lt i : (i < length s)%nat -> (prev i < length s)%nat.
Proof. unfold prev. case_decide; lia. Qed.

Lemma ring_edge a b : (a, b) ∈ ring_edges s <-> exists i, (i < length s)%nat /\ a = at_ s i /\ b = at_ s (next i).
Proof.
  unfold ring_edges. rewrite list_elem_of_fmap. split.
  - intros (i & [= -> ->] & Hi%elem_of_seq). exists i. split; [lia|done].
  - intros (i & Hi & -> & ->). exists i. split; [done|]. apply elem_of_seq. lia.
Qed.

Lemma ring_irr a : (a, a) ∉ ring_edges s.
Proof. intros (i & Hi & -> & He)%ring_edge. apply at_inj in He; [|done|done|by apply next_lt]. rewrite next_eq in He by done. case_decide; lia. Qed.

Lemma ring_count : length (ring_edges s) = length s.
Proof. unfold ring_edges. by rewrite length_fmap, length_seq. Qed.

Lemma ring_norm : (3 <= length s)%nat -> NoDup (norm <$> ring_edges s).
Proof.
  intros Hn3.
  unfold ring_edges. rewrite <- list_fmap_compose. apply NoDup_fmap_2_strong; [|apply NoDup_seq]. intros i j Hi%elem_of_seq Hj%elem_of_seq. unfold compose, norm. cbn [fst snd].
  change ((i + 1) mod length s)%nat with (next i). change ((j + 1) mod length s)%nat with (next j). pose proof (next_lt i ltac:(lia)) as Li. pose proof (next_lt j ltac:(lia)) as Lj. pose proof (next_eq i ltac:(lia)) as Ni. pose proof (next_eq j ltac:(lia)) as Nj.
  repeat case_decide; intros [= Ha Hb]; apply at_inj in Ha; try done; try lia; apply at_inj in Hb; try done; lia.
Qed.

Context (g : graph) (cells : list string) (Hg : made_of g cells (ring_edges s)) (Hcells : cells ≡ₚ s).

Lemma ring_connected : connected g.
Proof.
  assert (forall i, (i < length s)%nat -> rtc (edge g) (at_ s 0) (at_ s i)) as H0.
  { induction i as [|i IH]; intros Hi; [done|]. eapply rtc_r; [apply IH; lia|]. apply (mo_edges _ _ _ Hg). left. apply ring_edge. exists i. split_and!; [lia|done|]. rewrite next_eq by lia.
    rewrite decide_False by lia. f_equal. lia. }
  intros a b Ha Hb. rewrite (mo_cells _ _ _ Hg), elem_of_list_to_set, Hcells in Ha, Hb. apply elem_at in Ha as (i & Hi & ->), Hb as (j & Hj & ->).
  etrans; [|by apply H0]. apply rtc_sym; [|by apply H0]. intros x y. rewrite !(mo_edges _ _ _ Hg). apply linked_sym.
Qed.

Lemma ring_degree c : (3 <= length s)%nat -> c ∈ dom g -> size (nbrs_of g c) = 2%nat.
Proof.
  intros Hn3.
  rewrite (mo_cells _ _ _ Hg), elem_of_list_to_set, Hcells. intros (i & Hi & ->)%elem_at. pose proof (next_lt i Hi). pose proof (prev_lt i Hi).
  assert (nbrs_of g (at_ s i) = {[at_ s (next i); at_ s (prev i)]}) as ->.
  { apply set_eq. intros y. fold (edge g (at_ s i) y). rewrite (mo_edges _ _ _ Hg). unfold linked. rewrite !ring_edge, elem_of_union, !elem_of_singleton. split.
    - intros [(j & Hj & Hij & ->)|(j & Hj & -> & Hij)].
      + left. by apply at_inj in Hij as ->.
      + right. apply at_inj in Hij; [|done|done|by apply next_lt]. symmetry in Hij. by apply next_prev in Hij as ->.
    - intros [->| ->]; [left; by exists i|right]. exists (prev i). split_and!; [done|done|]. f_equal. symmetry. by apply next_prev. }
  rewrite size_union, !size_singleton; [done|]. assert (at_ s (next i) <> at_ s (prev i)); [|set_solver]. intros He. apply at_inj in He; [|done..].
  rewrite next_eq in He by done. unfold prev in He. repeat case_decide; lia.
Qed.
End ring.

(** ** Stars and meshes *)

Lemma hub_edge s hub a b : (a, b) ∈ hub_edges s hub <-> a = hub /\ b <> hub /\ b ∈ s.
Proof.
  unfold hub_edges. rewrite list_elem_of_fmap. split; [by intros (c & [= -> ->] & [? ?]%list_elem_of_filter)|]. intros (-> & Hb & Hin). exists b. split; [done|]. by apply list_elem_of_filter.
Qed.

Lemma mesh_edge s a b : StronglySorted slt s -> (a, b) ∈ mesh_edges s <-> slt a b /\ a ∈ s /\ b ∈ s.
Proof.
  induction 1 as [|x s Hs IH Hx]; simpl; [set_solver|]. rewrite Forall_forall in Hx. rewrite elem_of_app, IH, list_elem_of_fmap, !elem_of_cons. split.
  - intros [(c & [= -> ->] & Hc)|(? & ? & ?)]; [auto|tauto].
  - intros (Hab & [->|Ha] & [->|Hb]); [by apply (irreflexivity slt) in Hab|left; by exists b|exfalso; eapply slt_asym; [exact Hab|auto]|auto].
Qed.

Lemma mesh_NoDup s : StronglySorted slt s -> NoDup (mesh_edges s).
Proof.
  induction 1 as [|x s Hs IH Hx]; simpl; [constructor|]. rewrite Forall_forall in Hx. apply NoDup_app. split_and!; [|intros [a b] (c & [= -> ->] & Hc)%list_elem_of_fmap (_ & Hin & _)%mesh_edge; [|done]|done].
  - apply NoDup_fmap_2; [by intros u v [= ->]|]. clear -Hs. induction Hs as [|y s Hs IH Hy]; constructor; [|done]. rewrite Forall_forall in Hy. intros Hin. by apply Hy, (irreflexivity slt) in Hin.
  - by apply Hx, (irreflexivity slt) in Hin.
Qed.

Lemma mesh_norm s : StronglySorted slt s -> norm <$> mesh_edges s = mesh_edges s.
Proof.
  intros Hs. rewrite <- (list_fmap_id (mesh_edges s)) at 2. apply list_fmap_ext. intros i [a b] Hi%list_elem_of_lookup_2. apply mesh_edge in Hi as (Hab & _); [|done]. unfold norm. simpl. by rewrite decide_True.
Qed.

Lemma mesh_count s : (2 * length (mesh_edges s) = length s * (length s - 1))%nat.
Proof. induction s as [|x s IH]; simpl; [done|]. rewrite length_app, length_fmap. destruct s; simpl in *; lia. Qed.

(** ** What [Build] returns *)

Lemma check_duplicates_spec seen cells :
  match check_duplicates seen cells with
  | inr s => NoDup cells /\ (forall c, c ∈ cells -> c ∉ seen) /\ s = list_to_set cells ∪ seen
  | inl c => c ∈ cells /\ (c ∈ seen \/ ~ NoDup cells)
  end.
Proof.
  revert seen. induction cells as [|c cells IH]; intros seen; simpl; [split_and!; [constructor|set_solver|set_solver]|]. case_decide as Hc; [split; [by left|by left]|].
  specialize (IH ({[c]} ∪ seen)). destruct (check_duplicates _ cells) as [d|s].
  - destruct IH as [Hd [Hin|Hn]]; (split; [by right|]); [|right; intros [_ ?]%NoDup_cons; done]. apply elem_of_union in Hin as [->%elem_of_singleton|?]; [|by left]. right. by intros [? _]%NoDup_cons.
  - destruct IH as (Hn & Hs & ->). split_and!; [|set_solver|set_solver]. constructor; [|done]. intros Hin. apply (Hs c Hin). set_solver.
Qed.

(** Both ends of every edge of a pattern are cells. *)
Lemma treeOrder_perm s hub : NoDup s -> hub ∈ s -> treeOrder s hub ≡ₚ s.
Proof.
  intros Hn Hh. unfold treeOrder. apply NoDup_Permutation; [|done|].
  - constructor; [by intros [? _]%list_elem_of_filter|by apply NoDup_filter].
  - intros x. rewrite elem_of_cons, list_elem_of_filter. destruct (decide (x = hub)) as [->|]; naive_solver.
Qed.

Definition tree_parent (k : Z) (i : nat) : nat := ((i - 1) / Z.to_nat k)%nat.

Lemma tree_parent_lt k i : 2 <= k -> (1 <= i)%nat -> (tree_parent k i < i)%nat.
Proof. intros Hk Hi. unfold tree_parent. assert ((i - 1) / Z.to_nat k <= i - 1)%nat; [|lia]. apply Nat.Div0.div_le_upper_bound. nia. Qed.

(** Both kinds of trees are [tree_edges] with some branching factor. *)
Lemma tree_patterns pattern s hub :
  pattern = Tree \/ pattern = Hierarchical -> exists k, 2 <= k /\ pattern_edges pattern s hub = tree_edges (treeOrder s hub) (tree_parent k).
Proof.
  intros [->| ->]; [by exists 2|]. unfold pattern_edges, buildKAryTree. set (b := branchingFactor _). exists (if decide (b < 2) then 2 else b). split; [case_decide; lia|done].
Qed.

Section built.
Context (cells : list string) (hub : string) (Hnd : NoDup cells) (Hlen : (2 <= length cells)%nat).

Lemma sorted_cells : NoDup (sort_strings cells) /\ length (sort_strings cells) = length cells /\ (forall x, x ∈ sort_strings cells <-> x ∈ cells).
Proof. split_and!; [by rewrite sort_strings_perm|apply Permutation_length, sort_strings_perm|intros x; by rewrite sort_strings_perm]. Qed.

(** The edges of a pattern join different cells. *)
Lemma pattern_edges_ok pattern a b :
  (requiresHub pattern = true -> hub ∈ cells) -> (a, b) ∈ pattern_edges pattern (sort_strings cells) hub -> a ∈ cells /\ b ∈ cells /\ a <> b.
Proof.
  destruct sorted_cells as (Hs1 & Hs2 & Hs3). intros Hhub.
  assert (pattern = Tree \/ pattern = Hierarchical -> (a, b) ∈ pattern_edges pattern (sort_strings cells) hub -> a ∈ cells /\ b ∈ cells /\ a <> b) as Htree.
  { intros Hp. destruct (tree_patterns pattern (sort_strings cells) hub Hp) as (k & Hk & ->). pose proof (treeOrder_perm (sort_strings cells) hub Hs1 ltac:(apply Hs3, Hhub; by destruct Hp; subst)) as Hperm.
    intros Hab. assert (a <> b) as Hne. { intros ->. revert Hab. apply tree_irr; [by rewrite Hperm|intros i; by apply tree_parent_lt]. }
    apply tree_edge in Hab as (i & Hi & -> & ->). pose proof (tree_parent_lt k i Hk ltac:(lia)) as Hpi.
    assert (forall j, (j < length (treeOrder (sort_strings cells) hub))%nat -> at_ (treeOrder (sort_strings cells) hub) j ∈ cells) as Hel.
    { intros j Hj. apply Hs3. assert (forall x, x ∈ treeOrder (sort_strings cells) hub -> x ∈ sort_strings cells) as Hx by (intros x; by rewrite Hperm). apply Hx, elem_at. eauto. }
    split_and!; [apply Hel; lia|apply Hel; lia|done]. }
  destruct pattern as [| | | | |p]; [|..|simpl; set_solver]; try (apply Htree; auto; fail); simpl.
  - rewrite hub_edge, Hs3. intros (-> & ? & ?). split_and!; [by apply Hhub|done|done].
  - intros (Hlt & ? & ?)%mesh_edge; [|by apply sorted_slt]. rewrite Hs3 in *. split_and!; [done|done|]. intros ->. by apply (irreflexivity slt) in Hlt.
  - intros Hab. assert (a <> b) as Hne by (intros ->; revert Hab; apply ring_irr; [done|lia]). apply ring_edge in Hab as (i & Hi & -> & ->); [|lia].
    rewrite <- !Hs3, !elem_at. split_and!; [eauto| |done]. exists (next (sort_strings cells) i). split; [apply next_lt; lia|done].
Qed.

Definition built_graph (pattern : Pattern) : graph :=
  foldl (fun g e => addEdge g e.1 e.2) (foldl (fun g c => <[c := ∅]> g) ∅ cells) (pattern_edges pattern (sort_strings cells) hub).

Lemma built_made pattern : (requiresHub pattern = true -> hub ∈ cells) -> made_of (built_graph pattern) cells (pattern_edges pattern (sort_strings cells) hub).
Proof.
  intros Hhub. unfold built_graph. destruct (empty_graph cells) as [Hd He]. cbv zeta in *. set (g0 := foldl _ ∅ cells) in *.
  destruct (addEdges_spec (pattern_edges pattern (sort_strings cells) hub) g0) as [Hd' He'].
  - intros [a b] Hab. rewrite Hd, !elem_of_list_to_set. simpl. destruct (pattern_edges_ok pattern a b Hhub Hab) as (? & ? & ?). done.
  - split; [by rewrite Hd'|]. intros x y. rewrite He'. split; [intros [?%He|?]; done|by right].
Qed.

Lemma built_wf pattern : (requiresHub pattern = true -> hub ∈ cells) -> wf (built_graph pattern).
Proof. intros Hhub. eapply made_wf; [by apply built_made|]. intros a Ha. by destruct (pattern_edges_ok pattern a a Hhub Ha) as (_ & _ & ?). Qed.

(** *** Each check accepts its pattern *)

Notation top pattern := (mkTopology pattern hub (built_graph pattern)).

Lemma built_size pattern : (requiresHub pattern = true -> hub ∈ cells) -> size (built_graph pattern) = length cells.
Proof. intros Hhub. rewrite <- size_dom, (mo_cells _ _ _ (built_made pattern Hhub)). by apply size_list_to_set. Qed.

Lemma built_row pattern c s : (c, s) ∈ map_to_list (built_graph pattern) -> s = nbrs_of (built_graph pattern) c /\ c ∈ dom (built_graph pattern).
Proof. intros Hc%elem_of_map_to_list. unfold nbrs_of. rewrite Hc. split; [done|]. apply elem_of_dom. by eexists. Qed.

Lemma join_nil {A B} (F : A -> list B) (l : list A) : (forall x, x ∈ l -> F x = []) -> mjoin (F <$> l) = [].
Proof.
  induction l as [|x l IH]; intros HF; [done|]. change (F x ++ mjoin (F <$> l) = []). rewrite (HF x) by (by left). apply IH. intros y Hy. apply HF. by right.
Qed.

(** No cell has a bad degree if all have the wanted one. *)
Lemma degrees_ok pattern want : (forall c, c ∈ dom (built_graph pattern) -> Z.of_nat (size (nbrs_of (built_graph pattern) c)) = want) -> degree_issues (built_graph pattern) want = [].
Proof.
  intros Hd. unfold degree_issues. apply join_nil. intros [c s] Hc. apply built_row in Hc as [-> Hc]. simpl. rewrite decide_False; [done|]. intros Hn. by apply Hn, Hd.
Qed.

Lemma hub_neighbours c : hub ∈ cells -> c ∈ cells -> nbrs_of (built_graph HubSpoke) c = if decide (c = hub) then list_to_set cells ∖ {[hub]} else {[hub]}.
Proof.
  intros Hh Hc. destruct sorted_cells as (_ & _ & Hs3). apply set_eq. intros y. fold (edge (built_graph HubSpoke) c y). rewrite (mo_edges _ _ _ (built_made HubSpoke (fun _ => Hh))). unfold linked.
  change (pattern_edges HubSpoke (sort_strings cells) hub) with (hub_edges (sort_strings cells) hub). rewrite !hub_edge, !Hs3. case_decide as Hd; set_solver.
Qed.

Lemma mesh_neighbours c : c ∈ cells -> nbrs_of (built_graph FullMesh) c = list_to_set cells ∖ {[c]}.
Proof.
  intros Hc. destruct sorted_cells as (_ & _ & Hs3). apply set_eq. intros y. fold (edge (built_graph FullMesh) c y). rewrite (mo_edges _ _ _ (built_made FullMesh ltac:(done))). unfold linked.
  change (pattern_edges FullMesh (sort_strings cells) hub) with (mesh_edges (sort_strings cells)). rewrite !mesh_edge, !Hs3 by (by apply sorted_slt).
  rewrite elem_of_difference, elem_of_list_to_set, elem_of_singleton. split.
  - intros [(Hlt & _ & ?)|(Hlt & ? & _)]; (split; [done|]); intros ->; by apply (irreflexivity slt) in Hlt.
  - intros [Hy Hne]. destruct (slt_trichotomy c y) as [?|[?|?]]; [by left|by subst|by right].
Qed.

Lemma others_size c : c ∈ cells -> size (list_to_set cells ∖ {[c]} : gset string) = (length cells - 1)%nat.
Proof. intros Hc. rewrite size_difference by set_solver. by rewrite size_singleton, size_list_to_set. Qed.

Lemma hub_valid : hub ∈ cells -> validateHubSpoke (top HubSpoke) (Z.of_nat (length cells)) = None.
Proof.
  intros Hh. pose proof (hub_neighbours hub Hh Hh) as Hn. rewrite decide_True in Hn by done. unfold validateHubSpoke. cbn [adj Hub]. rewrite Hn, (others_size hub Hh), decide_False by lia.
  rewrite join_nil; [done|]. intros [c s] Hc. apply built_row in Hc as [-> Hc]. rewrite (mo_cells _ _ _ (built_made HubSpoke (fun _ => Hh))), elem_of_list_to_set in Hc. cbn [fst snd].
  destruct (decide (c = hub)) as [|Hne]; [done|]. pose proof (hub_neighbours c Hh Hc) as Hs. rewrite decide_False in Hs by done. rewrite Hs, size_singleton, elements_singleton, decide_False by lia.
  rewrite filter_cons_False by (intros Hx; by apply Hx). done.
Qed.

Lemma mesh_valid : Z.of_nat (length cells) < 2 ^ 31 -> validateFullMesh (top FullMesh) (Z.of_nat (length cells)) (Edges (top FullMesh)) = None.
Proof.
  intros Hmax. destruct sorted_cells as (Hs1 & Hs2 & Hs3). pose proof (built_made FullMesh ltac:(done)) as Hm. pose proof (sorted_slt cells Hnd) as Hslt.
  assert (Z.of_nat (length (Edges (top FullMesh))) = Z.quot (i64 (Z.of_nat (length cells) * (Z.of_nat (length cells) - 1))) 2) as Hcount.
  { rewrite (Edges_length (top FullMesh) cells _ Hm).
    - change (pattern_edges FullMesh (sort_strings cells) hub) with (mesh_edges (sort_strings cells)). pose proof (mesh_count (sort_strings cells)) as Hc. rewrite Hs2 in Hc.
      rewrite i64_id by (unfold is_i64, MinInt64, MaxInt64; nia). assert (Z.of_nat (length cells) * (Z.of_nat (length cells) - 1) = Z.of_nat (length (mesh_edges (sort_strings cells))) * 2) as -> by nia. by rewrite Z.quot_mul.
    - intros a Ha. by destruct (pattern_edges_ok FullMesh a a ltac:(done) Ha) as (_ & _ & ?).
    - change (pattern_edges FullMesh (sort_strings cells) hub) with (mesh_edges (sort_strings cells)). rewrite mesh_norm by done. by apply mesh_NoDup. }
  unfold validateFullMesh. cbv zeta. rewrite Hcount, decide_False by (intros ?; done). cbn [adj]. rewrite degrees_ok; [done|]. intros c Hc.
  rewrite (mo_cells _ _ _ Hm), elem_of_list_to_set in Hc. rewrite (mesh_neighbours c Hc), (others_size c Hc). lia.
Qed.

Section checks.
Context (range : gset string -> list string) (start : string) (Hrange : forall s, range s ≡ₚ elements s) (Hstart : start ∈ cells).

Lemma ring_valid : (3 <= length cells)%nat -> validateRing range start (top Ring) (Z.of_nat (length cells)) (Edges (top Ring)) = Some None.
Proof.
  intros H3. destruct sorted_cells as (Hs1 & Hs2 & Hs3). pose proof (built_made Ring ltac:(done)) as Hm. unfold validateRing. cbv zeta. cbn [adj].
  rewrite degrees_ok. 2: { intros c Hc. rewrite (ring_degree (sort_strings cells) Hs1 ltac:(lia) _ cells Hm); [done|by rewrite sort_strings_perm|lia|done]. }
  rewrite decide_False by (simpl; lia). rewrite checkConnected_ok; [|done|by apply built_wf| |].
  - cbn [mbind option_bind]. rewrite (Edges_length (top Ring) cells _ Hm).
    + change (pattern_edges Ring (sort_strings cells) hub) with (ring_edges (sort_strings cells)). rewrite ring_count, Hs2. by rewrite decide_False by (intros ?; done).
    + intros a Ha. by destruct (pattern_edges_ok Ring a a ltac:(done) Ha) as (_ & _ & ?).
    + apply ring_norm; [done|lia|lia].
  - eapply (ring_connected (sort_strings cells)); [lia|exact Hm|by rewrite sort_strings_perm].
  - simpl. by rewrite (mo_cells _ _ _ Hm), elem_of_list_to_set.
Qed.

(** The facts about a tree that its check and the theorem need. *)
Lemma tree_facts pattern :
  pattern = Tree \/ pattern = Hierarchical -> hub ∈ cells -> connected (built_graph pattern) /\ forest (built_graph pattern) /\ length (Edges (top pattern)) = (length cells - 1)%nat.
Proof.
  intros Hp Hh. destruct sorted_cells as (Hs1 & Hs2 & Hs3). pose proof (built_made pattern (fun _ => Hh)) as Hm. destruct (tree_patterns pattern (sort_strings cells) hub Hp) as (k & Hk & Hes).
  pose proof (treeOrder_perm (sort_strings cells) hub Hs1 ltac:(by apply Hs3)) as Hperm.
  assert (NoDup (treeOrder (sort_strings cells) hub)) as Hnd' by (by rewrite Hperm). assert (cells ≡ₚ treeOrder (sort_strings cells) hub) as Hcp by (rewrite Hperm; symmetry; apply sort_strings_perm).
  assert (forall i, (1 <= i)%nat -> (tree_parent k i < i)%nat) as Hpar by (intros i; by apply tree_parent_lt). rewrite Hes in Hm. split_and!.
  - by eapply tree_connected.
  - by eapply tree_forest.
  - rewrite (Edges_length (top pattern) cells _ Hm); [|by apply tree_irr|by apply tree_norm]. rewrite tree_count. by rewrite <- Hcp.
Qed.

Lemma tree_valid pattern :
  pattern = Tree \/ pattern = Hierarchical -> hub ∈ cells -> validateTree range start (top pattern) (Z.of_nat (length cells)) (Edges (top pattern)) = Some None.
Proof.
  intros Hp Hh. destruct (tree_facts pattern Hp Hh) as (Hc & Hf & He). unfold validateTree. rewrite He, decide_False by lia.
  rewrite (checkConnected_ok range Hrange start (top pattern)); [|by apply built_wf|done|simpl; by rewrite (mo_cells _ _ _ (built_made pattern (fun _ => Hh))), elem_of_list_to_set].
  apply checkAcyclic_ok; [by apply built_wf|done].
Qed.
End checks.

Lemma built_connected pattern :
  (forall p, pattern <> OtherPattern p) -> (requiresHub pattern = true -> hub ∈ cells) -> connected (built_graph pattern).
Proof.
  intros Hknown Hhub. destruct sorted_cells as (Hs1 & Hs2 & Hs3). pose proof (built_made pattern Hhub) as Hm. destruct pattern as [| | | | |p]; [| | | | |by destruct (Hknown p)].
  - specialize (Hhub eq_refl). assert (forall c, c ∈ cells -> rtc (edge (built_graph HubSpoke)) hub c /\ rtc (edge (built_graph HubSpoke)) c hub) as Hc.
    { intros c Hc. destruct (decide (c = hub)) as [->|Hne]; [done|]. split; apply rtc_once; unfold edge; rewrite hub_neighbours by done; case_decide; set_solver. }
    intros a b Ha Hb. rewrite (mo_cells _ _ _ Hm), elem_of_list_to_set in Ha, Hb. etrans; [by apply Hc|by apply Hc].
  - intros a b Ha Hb. rewrite (mo_cells _ _ _ Hm), elem_of_list_to_set in Ha, Hb. destruct (decide (a = b)) as [->|Hne]; [done|]. apply rtc_once. unfold edge. rewrite mesh_neighbours by done. set_solver.
  - eapply (ring_connected (sort_strings cells)); [lia|exact Hm|by rewrite sort_strings_perm].
  - apply (tree_facts Tree); [by left|by apply Hhub].
  - apply (tree_facts Hierarchical); [by right|by apply Hhub].
Qed.
End built.

Lemma CanBind_edge t a b : CanBind t a b = true <-> edge (adj t) a b.
Proof. unfold CanBind, edge, nbrs_of. destruct (adj t !! a) as [s|]; simpl; [apply bool_decide_eq_true|]. split; [done|set_solver]. Qed.

(** C18: Federation topologies.  [Build] refuses exactly too few cells, repeated
    cells and a missing hub.  What it returns is an undirected graph without
    loops over exactly the given cells: in a star the links are those between
    the hub and the others, in a mesh all, in a ring of three or more cells
    every cell has two neighbours, and a tree has one edge less than cells and
    no edge with a way around it.  For the patterns of the package all cells
    are connected, and [Validate] accepts the result if there are fewer than
    [2^31] cells, and at least three in a ring (two pass [Build] but not
    [Validate], see [ring_of_two]): its searches end with the fuel they have,
    whatever the order in which maps are ranged over and the cell they start
    from, the first reaches every cell and the second finds no cycle. *)
Theorem fedtopology_valid (pattern : Pattern) (cells : list string) (hub : string) :
  match Build pattern cells hub with
  | inl (TooFewCells n) => n = length cells /\ (n < 2)%nat
  | inl (DuplicateCell c) => c ∈ cells /\ ~ NoDup cells
  | inl (HubNotFound h) => h = hub /\ hub ∉ cells /\ requiresHub pattern = true
  | inr t =>
      (2 <= length cells)%nat /\ NoDup cells /\ (requiresHub pattern = true -> hub ∈ cells) /\ tp_Pattern t = pattern /\ dom (adj t) = list_to_set cells /\
      (forall a b, CanBind t a b = CanBind t b a) /\ (forall a, CanBind t a a = false) /\
      (pattern = HubSpoke -> forall a b, a ∈ cells -> b ∈ cells -> CanBind t a b = true <-> a <> b /\ (a = hub \/ b = hub)) /\
      (pattern = FullMesh -> forall a b, a ∈ cells -> b ∈ cells -> CanBind t a b = true <-> a <> b) /\
      (pattern = Ring -> (3 <= length cells)%nat -> forall c, c ∈ cells -> size (nbrs_of (adj t) c) = 2%nat) /\
      (pattern = Tree \/ pattern = Hierarchical -> forest (adj t) /\ length (Edges t) = (length cells - 1)%nat) /\
      ((forall p, pattern <> OtherPattern p) ->
         connected (adj t) /\
         forall range start, (forall s, range s ≡ₚ elements s) -> start ∈ cells -> (pattern = Ring -> 3 <= length cells)%nat -> Z.of_nat (length cells) < 2 ^ 31 ->
           Validate range start t = Some None)
  end.
Proof.
  unfold Build. case_decide as Hlen; [done|]. pose proof (check_duplicates_spec ∅ cells) as Hdup. destruct (check_duplicates ∅ cells) as [c|seen].
  { destruct Hdup as [? [?|?]]; [set_solver|done]. }
  destruct Hdup as (Hnd & _ & ->). case_decide as Hhub; [destruct Hhub as [? Hh]; split_and!; [done|set_solver|done]|]. cbv zeta. fold (built_graph cells hub pattern).
  assert (2 <= length cells)%nat as Hlen' by lia. assert (requiresHub pattern = true -> hub ∈ cells) as Hhub'.
  { intros Hr. destruct (decide (hub ∈ cells)); [done|]. destruct Hhub. split; [done|]. set_solver. }
  pose proof (built_wf cells hub Hnd Hlen' pattern Hhub') as Hw. pose proof (built_made cells hub Hnd Hlen' pattern Hhub') as Hm.
  assert (forall a b, CanBind (mkTopology pattern hub (built_graph cells hub pattern)) a b = true <-> edge (built_graph cells hub pattern) a b) as Hcb by (intros a b; apply CanBind_edge).
  split_and!; [done|done|done|done|apply Hm|..]; cbn [adj].
  - intros a b. apply eq_true_iff_eq. rewrite !Hcb. split; apply (wf_sym _ Hw).
  - intros a. apply not_true_is_false. rewrite Hcb. apply (wf_irr _ Hw).
  - intros -> a b Ha Hb. rewrite Hcb. unfold edge. rewrite hub_neighbours by auto. case_decide as Hd; set_solver.
  - intros -> a b Ha Hb. rewrite Hcb. unfold edge. rewrite mesh_neighbours by done. set_solver.
  - intros -> H3 c Hc. destruct (sorted_cells cells Hnd) as (Hs1 & Hs2 & _). eapply (ring_degree (sort_strings cells)); [done|lia|exact Hm|by rewrite sort_strings_perm|lia|]. by rewrite (mo_cells _ _ _ Hm), elem_of_list_to_set.
  - intros Hp. destruct (tree_facts cells hub Hnd Hlen' pattern Hp) as (_ & ? & ?); [apply Hhub'; by destruct Hp; subst|done].
  - intros Hk. split; [by apply built_connected|]. intros range start Hr Hs H3 Hmax. unfold Validate. cbn [adj tp_Pattern]. rewrite built_size by done. cbv zeta.
    destruct pattern as [| | | | |p]; [| | | | |by destruct (Hk p)].
    + by rewrite hub_valid by auto.
    + by rewrite mesh_valid.
    + by apply ring_valid; auto.
    + apply tree_valid; auto.
    + apply tree_valid; auto.
Qed.

Module FedDemo.
Definition nine : list string := ["i"; "a"; "h"; "b"; "g"; "c"; "f"; "d"; "e"].

(** Nine cells: the binary tree is deeper than the one with three branches. *)
Example nine_cells :
  branchingFactor 9 = 3 /\ match Build Hierarchical nine "e" with inr t => Neighbors t "e" = Some ["a"; "b"; "c"] | _ => False end /\
  match Build Tree nine "e" with inr t => Neighbors t "e" = Some ["a"; "b"] | _ => False end.
Proof. by vm_compute. Qed.

(** Two cells can not form a ring. *)
Example ring_of_two : match Build Ring ["a"; "b"] EmptyString with inr t => Validate elements "a" t = Some (Some (Issues [BadDegree "a" 1; BadDegree "b" 1])) | _ => False end.
Proof. vm_compute. reflexivity. Qed.
End FedDemo.
